(* ===== verification/_CoqProject ===== *)
-Q . S2P
Prelude.v
Crc32.v
BTree.v
JournalFormat.v
JournalScan.v
JournalRing.v
Journal.v
JournalCrash.v
JournalSafety.v
JournalReplay.v
JournalDefects.v
ExtentMap.v
ExtentTree.v
EfsBitmap.v
EfsAlloc.v
EfsDir.v
PageCache.v
PageCacheSafety.v
Partition.v
PartitionSafety.v
Vma.v
Valloc.v
Heap.v
HeapSafety.v
FrameAlloc.v
FrameOwner.v
PageTable.v
Cow.v
CowFork.v
AddressSpace.v
SpaceSafety.v
Mapper.v
Teardown.v
Mprotect.v
EditBuffer.v
EditHistory.v
Regex.v
RegexParse.v
ShArith.v
ShArithSpec.v
ByteRing.v
Pipe.v
Fifo.v
Pty.v
PtySafety.v
RunQueue.v
IntrusiveList.v
Packets.v
Fragment.v
Tcp.v
TcpSender.v
TcpFlow.v
TcpWire.v
TcpStream.v
TcpDelivery.v
LockOrder.v
Virtqueue.v
VirtqueueSafety.v
ParkWake.v
ParkSafety.v
BlockingMutex.v
RwLock.v
