(* ===== verification/Prelude.v ===== *)
(** * EdOS: a verification library

    EdOS is an x86-64 operating system in Rust: a kernel (kernel/src), the
    libraries it shares with its tools (libs), and user programs (programs).
    This library is a shallow embedding of parts of it that carry state or
    arithmetic others rely on, with the theorems that make them correct.  File
    names below are relative to src/.

    ** How code is modelled

    - Code that can panic (slice bounds, [unwrap], arithmetic checks) returns an
      [outcome]; [Result] is [result]; an operation on a structure takes it and
      returns the new one.  A loop is a [Fixpoint] over what it iterates, or
      over fuel; a [Panic] (or an answer of its own) marks fuel running out, so
      that a theorem that excludes it is a termination proof.
    - Machine integers are [Z] with [wrap], saturation or a checked operation
      written out; lengths and indices that cannot overflow are [nat].
    - A [BTreeMap] is its ordered sequence of entries (BTree.v), a hash map a
      [gmap], raw links an explicit heap.
    - Concurrency is an interleaving of steps: lock sections for the journal,
      single atomic operations for parking and the locks, whole system calls
      where one lock covers them.  Memory is sequentially consistent.
    - Code outside src/ (the x86_64 crate, devices, Unicode tables) is a
      parameter or a type class with its documented behaviour as laws, and
      a concrete instance shows that the laws can hold.

    ** Filesystem journal

    Crc32 (libs/efs-common/src/crc32.rs); JournalFormat (journal.rs,
    journal_build.rs, journal_parse.rs); JournalScan (journal_scan.rs);
    JournalRing (what the committer's writes do to a ring); Journal
    (kernel/src/fs/journal/mod.rs, tx.rs: [Journal.step] composes the lock
    sections); JournalCrash (the journal with its disk, [crash_image]);
    JournalSafety ([crash_recovery]: after a power cut in any state of a run in
    which no write fails, every transaction fits one descriptor and one revoke
    block and the tail does not pass a transaction in flight, mounting finds
    every transaction reported durable, in order, and nothing torn);
    JournalReplay (kernel/src/fs/journal/replay.rs: [replay_restores_pages],
    from the committer's writes through the mount to the writes of the replay);
    JournalDefects (runs outside the hypotheses that the code does not
    exclude).  [scan_total] is the termination of the scan;
    the CRC theorems are the equivalence with the shift register and the
    detection of bursts.

    ** EFS

    ExtentMap and ExtentTree (kernel/src/fs/efs/extents.rs,
    libs/efs-common/src/extent.rs): the extent list refined to a partial map
    from logical to physical blocks, and its tree on disk through the
    [BlockStore] interface ([store_load_roundtrip]).  EfsBitmap, EfsAlloc and
    EfsDir (kernel/src/fs/efs/mod.rs): bitmap searches, block and inode
    allocation over descriptors, counters and pages, and directory records
    ([add_dir_entry_correct] also says which names stop the kernel).

    ** Page cache and partition tables

    PageCache and PageCacheSafety (kernel/src/fs/page_cache.rs, the write and
    flush paths of kernel/src/fs/vfs.rs, shared faults, msync): writers and
    flushers of one file as interleaved steps over the [PageCacheOps] of the
    file system below; [unsaved_page_is_tracked] and [write_read_back], with the
    races and failures they exclude shown as runs.  Partition and
    PartitionSafety (kernel/src/fs/gpt.rs, mbr.rs, [scan_device]): a table laid
    out as the format says is read back, and the scan of a disk that stops the
    kernel is one whose table has an impossible entry size or extent.

    ** Memory

    - Vma (kernel/src/memory/vma.rs and [claim_range]), Valloc
      (kernel/src/memory/valloc.rs, refined to a set of free addresses),
      FrameAlloc (kernel/src/memory/frame_allocator.rs).
    - Heap and HeapSafety (kernel/src/allocator.rs): the per-CPU caches in front
      of the buddy heap, an interface; [kernel_heap_safe] says that in every
      interleaving (frees of boot-time blocks with a layout other than their
      class's left out) no two blocks held or cached overlap, each is aligned as
      asked for, and all lie in areas the heap has mapped.
    - FrameOwner is the interface the address-space code uses frames through
      (a reference count is a number of owners) with the bitmap allocator as
      instance; PageTable is the four-level tree and the class [Level] of what
      holds at each level; Mapper is the page-table editor of the x86_64 crate.
    - Cow, CowFork, AddressSpace (kernel/src/memory/cow.rs,
      kernel/src/memory/fault.rs, [sys_fork]): fork, the two fault handlers and
      a user store with the faults it takes.  [store] retries after a fault;
      a fuel of 3 is enough, two faults being the most a store can take, and
      that is part of [store_correct].
    - SpaceSafety: [fork_correct], [store_correct] and [isolation], for any
      number of processes over one allocator; the runs have stores to private
      pages and through shared mappings, and forks whose frames stay within
      their 16-bit owner counts.
    - Teardown and Mprotect (kernel/src/syscalls/memory.rs, mapper.rs,
      thread.rs, util.rs): munmap, mprotect, and the release at exit; besides
      [munmap_anonymous_exact] and [mprotect_exact], the runs on which pages
      leak or stay mapped.

    ** Threads

    RunQueue (kernel/src/thread/runqueue.rs): the EEVDF pick and placement;
    IntrusiveList (libs/intrusive_list): refined to lists for every sequence of
    calls that keeps the contract.  ParkWake and ParkSafety (scheduler.rs,
    thread.rs, waitqueue.rs): the park and wake protocol as a transition system
    parameterised by the lock that uses the queue; BlockingMutex and RwLock
    (mutex.rs, rwlock.rs) are its clients: exclusion, the end of every priority
    loan, and that no wake-up is lost as long as no CPU resumes a thread another
    is still leaving.  LockOrder (kernel/src/debug/lock_order.rs): the rank
    tracker, and that threads it lets through, taking instances of one rank in
    the order of a key, cannot deadlock on ranked locks.

    ** Virtio queue

    Virtqueue and VirtqueueSafety (kernel/src/drivers/virtio/queue.rs and the
    cursor commands of gpu.rs): free list and chains in flight share out the
    descriptors, the device reads what was submitted, every submission is in
    one place and every completion is collected once ([virtqueue_correct], for a
    device that keeps the protocol); whatever a device writes, the driver stays
    inside the queue, and a poll ends once the device stops writing
    ([hostile_device_contained]).  The used ring is the device's: each round of
    a poll takes the content it finds from a list of snapshots, and a poll with
    no snapshot left has not returned.  The fuel of a reclaim is one more than
    the size of the table; each round uses up one descriptor.

    ** Pipes, terminals and network

    ByteRing (kernel/src/util/ring.rs), Pipe (kernel/src/thread/pipe.rs) and
    Fifo (kernel/src/fs/fifo.rs): the bytes read are the bytes written, in
    order.  Pty and PtySafety (kernel/src/thread/pty.rs, [sys_read] on a slave,
    [sys_tcsetpgrp], the terminals among the descriptors of pipe.rs): the rings
    and loops refine a terminal over plain lists, signals and pollers included,
    lines are delivered as edited, and the one blocked reader of a terminal has
    nothing to read.  Packets (checksum, Ethernet, ARP, IPv4, ICMP, UDP),
    Fragment (reassembly within the timeout, byte exact in any order), Tcp (kernel/src/net/tcp.rs, with the
    dispatch of kernel/src/net/stack.rs), TcpSender, TcpFlow, TcpWire,
    TcpStream and TcpDelivery: two hosts over a network that loses, repeats,
    delays and reorders; [tcp_delivers_prefix] and [tcp_no_byte_lost], for the
    first 2^32 bytes of each direction, after which sequence numbers repeat.

    ** User programs

    EditBuffer and EditHistory (programs/edos-edit/src/buffer.rs, main.rs): the
    text editor's document and commands; undo and redo restore exactly, a
    buffer not dirty is the file (of uniform line endings) while no edit is made
    behind the save, and the
    commands never panic unless the selection's anchor is left outside the
    document, which undo can do.  Regex and RegexParse
    (programs/sed/src/regex.rs): the parser is total, and the backtracking
    matcher, with [S (length t)] as fuel of a repetition, agrees with the
    meaning of the expression.  ShArith and ShArithSpec
    (programs/edos-sh/src/arith.rs): shell arithmetic evaluates the text of an
    expression to what it denotes; every round consumes a byte, so
    [S (length input)] is enough fuel.

    ** Defects

    Theorems that show where the code falls short are stated on the same
    definitions as those that show it right, for instance
    [inflight_tail_loses_commit], [zero_window_is_forever],
    [early_resume_loses_wake], [munmap_file_leaks], [release_stops_at_hole],
    [click_then_type], [empty_repetition_refused], [bad_entry_size_panics],
    [racing_write_lost], [ctrl_d_missed], [long_name_panics] and
    [min_over_minus_one].

    ** Not modelled

    - Device drivers (AHCI, NVMe, USB, network and sound cards, PCI, ACPI, APIC,
      and virtio beyond its queue), boot, interrupt entry, context switch and SMP start-up: their
      meaning is in hardware registers and assembly.
    - The TLB and weak memory: page tables are read as last written, and atomic
      operations are in one total order.
    - The scheduler's choice of CPU, timers, timed waits, signals and kills.
    - The virtual filesystem beyond the page cache, FAT32, procfs, devfs and
      memfs; what the modelled parts use of them is a parameter.
    - The remaining system calls, the ELF loader, shared memory segments, the
      window system and graphics.
    - User programs other than the three above, and the host tools; most are a
      thin layer over system calls or drawing. *)

From Stdlib Require Export ZArith Lia Sorting.Sorted.
From stdpp Require Export base tactics numbers list gmap sorting.

#[global] Open Scope Z_scope.

(** ** Outcomes of Rust code

    [outcome] is the result of code that may panic (slice bounds, [unwrap],
    checked arithmetic); [result] is Rust's [Result]. *)

Inductive outcome (A : Type) : Type :=
| Ret (a : A)
| Panic.
Arguments Ret {A} a.
Arguments Panic {A}.

#[export] Instance outcome_ret : MRet outcome := fun A a => Ret a.
#[export] Instance outcome_bind : MBind outcome :=
  fun A B f m => match m with Ret a => f a | Panic => Panic end.
#[export] Instance outcome_fmap : FMap outcome :=
  fun A B f m => match m with Ret a => Ret (f a) | Panic => Panic end.

Inductive result (E A : Type) : Type :=
| Ok (a : A)
| Err (e : E).
Arguments Ok {E A} a.
Arguments Err {E A} e.

#[export] Instance result_ret {E} : MRet (result E) := fun A a => Ok a.
#[export] Instance result_bind {E} : MBind (result E) :=
  fun A B f m => match m with Ok a => f a | Err e => Err e end.

Lemma Ret_inj {A} (a b : A) : Ret a = Ret b → a = b.
Proof. congruence. Qed.

(** ** Machine integers *)

Definition U8_MAX : Z := 255.
Definition U16_MAX : Z := 65535.
Definition U32_MAX : Z := 4294967295.
Definition U64_MAX : Z := 18446744073709551615.

Definition in_width (w x : Z) : Prop := 0 <= x < 2 ^ w.
Definition wrap (w x : Z) : Z := x mod 2 ^ w.
(** [saturating_sub] on an unsigned type. *)
Definition sat_sub (x y : Z) : Z := Z.max 0 (x - y).
(** [saturating_add] on [u64]. *)
Definition sat_add64 (x y : Z) : Z := Z.min U64_MAX (x + y).

Declare Scope edos_scope.
Delimit Scope edos_scope with edos.
Notation "x '+u32' y" := (wrap 32 (x + y)) (at level 50, left associativity) : edos_scope.
Notation "x '-u32' y" := (wrap 32 (x - y)) (at level 50, left associativity) : edos_scope.
Notation "x '-u64' y" := (wrap 64 (x - y)) (at level 50, left associativity) : edos_scope.

Create HintDb edos.
Create Rewrite HintDb edos.

(** Case analysis on every boolean comparison of a hypothesis or the goal,
    leaving the propositional fact in the context. *)
Ltac bool_cases :=
  repeat match goal with
  | |- context [if ?b then _ else _] =>
      match type of b with bool => let E := fresh "E" in destruct b eqn:E end
  | H : context [if ?b then _ else _] |- _ =>
      match type of b with bool => let E := fresh "E" in destruct b eqn:E end
  end.

(** Turn boolean comparisons into linear arithmetic facts. *)
Ltac to_lia :=
  repeat match goal with
  | H : (_ && _)%bool = true |- _ => apply andb_prop in H as [? ?]
  | H : (_ || _)%bool = false |- _ => apply orb_false_elim in H as [? ?]
  | H : (_ || _)%bool = true |- _ => apply orb_prop in H
  | H : (_ && _)%bool = false |- _ => apply andb_false_iff in H
  | H : negb _ = true |- _ => apply negb_true_iff in H
  | H : negb _ = false |- _ => apply negb_false_iff in H
  | H : Z.leb _ _ = true |- _ => apply Z.leb_le in H
  | H : Z.leb _ _ = false |- _ => apply Z.leb_gt in H
  | H : Z.ltb _ _ = true |- _ => apply Z.ltb_lt in H
  | H : Z.ltb _ _ = false |- _ => apply Z.ltb_ge in H
  | H : Z.eqb _ _ = true |- _ => apply Z.eqb_eq in H
  | H : Z.eqb _ _ = false |- _ => apply Z.eqb_neq in H
  | H : Nat.leb _ _ = true |- _ => apply Nat.leb_le in H
  | H : Nat.leb _ _ = false |- _ => apply Nat.leb_gt in H
  | H : Nat.ltb _ _ = true |- _ => apply Nat.ltb_lt in H
  | H : Nat.ltb _ _ = false |- _ => apply Nat.ltb_ge in H
  | H : Nat.eqb _ _ = true |- _ => apply Nat.eqb_eq in H
  | H : Nat.eqb _ _ = false |- _ => apply Nat.eqb_neq in H
  end.

Ltac blia := bool_cases; to_lia; try lia.

(** Or-ing disjoint bit fields is addition. *)
Lemma lor_shiftl_add a b n : 0 <= n → 0 <= b < 2 ^ n → Z.lor (Z.shiftl a n) b = a * 2 ^ n + b.
Proof.
  intros Hn Hb.
  assert (Hl : Z.land (Z.shiftl a n) b = 0).
  { apply Z.bits_inj'; intros i Hi. rewrite Z.land_spec, Z.bits_0.
    destruct (Z.ltb_spec i n).
    - rewrite Z.shiftl_spec_low by lia. done.
    - destruct (Z.eq_dec b 0) as [->|]; [rewrite Z.bits_0; apply andb_false_r|].
      rewrite (Z.bits_above_log2 b i); [apply andb_false_r|lia|].
      apply Z.lt_le_trans with n; [|lia]. apply Z.log2_lt_pow2; lia. }
  rewrite <- Z.lxor_lor, <- Z.add_nocarry_lxor by done.
  by rewrite Z.shiftl_mul_pow2 by lia.
Qed.

(** ** Bytes and the little- and big-endian codecs *)

Definition byte_ok (b : Z) : Prop := 0 <= b < 256.

Fixpoint le_bytes (n : nat) (x : Z) : list Z :=
  match n with
  | O => []
  | S n' => x mod 256 :: le_bytes n' (x / 256)
  end.

Fixpoint le_num (l : list Z) : Z :=
  match l with
  | [] => 0
  | b :: l' => b + 256 * le_num l'
  end.

Definition be_bytes (n : nat) (x : Z) : list Z := reverse (le_bytes n x).
Definition be_num (l : list Z) : Z := le_num (reverse l).

(** [sub off n l] is the slice [l[off..off+n]]. *)
Definition sub {A} (off n : nat) (l : list A) : list A := take n (drop off l).

(** [splice off src buf] is [buf] after [buf[off..off+src.len()].copy_from_slice(src)],
    for a range inside [buf]. *)
Definition splice {A} (off : nat) (src buf : list A) : list A :=
  take off buf ++ src ++ drop (off + length src) buf.

(** The same with the slice index check the code performs. *)
Definition write_at {A} (off : nat) (src buf : list A) : outcome (list A) :=
  if (off + length src <=? length buf)%nat then Ret (splice off src buf) else Panic.

(** [u16/u32/u64::from_le_bytes] of the field at [off]. *)
Definition le_at (off n : nat) (l : list Z) : Z := le_num (sub off n l).
Definition be_at (off n : nat) (l : list Z) : Z := be_num (sub off n l).

Lemma length_le_bytes n x : length (le_bytes n x) = n.
Proof. revert x; induction n; intros; simpl; auto. Qed.

Lemma length_be_bytes n x : length (be_bytes n x) = n.
Proof. unfold be_bytes. by rewrite length_reverse, length_le_bytes. Qed.

Lemma le_bytes_ok n x : Forall byte_ok (le_bytes n x).
Proof.
  revert x; induction n; intros; simpl; constructor; auto.
  unfold byte_ok. apply Z.mod_pos_bound; lia.
Qed.

Lemma be_bytes_ok n x : Forall byte_ok (be_bytes n x).
Proof. apply Forall_reverse, le_bytes_ok. Qed.

Lemma pow256_S n : 2 ^ (8 * Z.of_nat (S n)) = 256 * 2 ^ (8 * Z.of_nat n).
Proof.
  replace (8 * Z.of_nat (S n)) with (8 + 8 * Z.of_nat n) by lia.
  rewrite Z.pow_add_r by lia. reflexivity.
Qed.

Lemma le_num_le_bytes_mod n x : le_num (le_bytes n x) = x mod 2 ^ (8 * Z.of_nat n).
Proof.
  revert x; induction n; intros x.
  - simpl. by rewrite Z.mod_1_r.
  - cbn [le_bytes le_num]. rewrite IHn, pow256_S, Z.rem_mul_r; lia.
Qed.

Lemma le_num_le_bytes n x : in_width (8 * Z.of_nat n) x → le_num (le_bytes n x) = x.
Proof. intros H. rewrite le_num_le_bytes_mod. by apply Z.mod_small. Qed.

Lemma be_num_be_bytes n x : in_width (8 * Z.of_nat n) x → be_num (be_bytes n x) = x.
Proof. unfold be_num, be_bytes. rewrite reverse_involutive. apply le_num_le_bytes. Qed.

Lemma le_num_bound l : Forall byte_ok l → 0 <= le_num l < 2 ^ (8 * Z.of_nat (length l)).
Proof.
  induction 1 as [|b l Hb _ IH].
  - simpl. lia.
  - cbn [length le_num]. rewrite pow256_S. unfold byte_ok in Hb. lia.
Qed.

Lemma le_bytes_le_num l : Forall byte_ok l → le_bytes (length l) (le_num l) = l.
Proof.
  induction 1 as [|b l Hb _ IH]; [done|].
  cbn [length le_num le_bytes]. unfold byte_ok in Hb.
  assert (Hd : (b + 256 * le_num l) / 256 = le_num l)
    by (symmetry; apply Z.div_unique with b; lia).
  assert (Hm : (b + 256 * le_num l) mod 256 = b)
    by (symmetry; apply Z.mod_unique with (le_num l); lia).
  by rewrite Hm, Hd, IH.
Qed.

(** ** Slices *)

Lemma length_sub {A} off n (l : list A) : (off + n <= length l)%nat → length (sub off n l) = n.
Proof. intros. unfold sub. rewrite length_take, length_drop. lia. Qed.

Lemma sub_app_r {A} off n (a b : list A) :
  (length a <= off)%nat → sub off n (a ++ b) = sub (off - length a) n b.
Proof. intros. unfold sub. by rewrite drop_app_ge by lia. Qed.

Lemma sub_app_l {A} off n (a b : list A) :
  (off + n <= length a)%nat → sub off n (a ++ b) = sub off n a.
Proof.
  intros. unfold sub. rewrite drop_app_le by lia. rewrite take_app_le; [done|].
  rewrite length_drop. lia.
Qed.

Lemma sub_all {A} n (l : list A) : n = length l → sub 0 n l = l.
Proof. intros ->. unfold sub. by rewrite drop_0, firstn_all. Qed.

Lemma sub_prefix {A} n (a b : list A) : n = length a → sub 0 n (a ++ b) = a.
Proof. intros ->. rewrite sub_app_l by lia. by apply sub_all. Qed.

Lemma sub_take {A} off n k (l : list A) : (off + n <= k)%nat → sub off n (take k l) = sub off n l.
Proof.
  intros. unfold sub. rewrite skipn_firstn_comm, take_take. f_equal. lia.
Qed.

Lemma sub_drop {A} off n k (l : list A) : sub off n (drop k l) = sub (k + off) n l.
Proof. unfold sub. by rewrite drop_drop. Qed.

Lemma sub_sub {A} off n off' n' (l : list A) :
  (off + n <= n')%nat → sub off n (sub off' n' l) = sub (off' + off) n l.
Proof. intros. unfold sub at 2. rewrite sub_take by lia. apply sub_drop. Qed.

Lemma lookup_sub {A} off n (l : list A) i :
  (i < n)%nat → sub off n l !! i = l !! (off + i)%nat.
Proof. intros. unfold sub. rewrite lookup_take_lt by lia. apply lookup_drop. Qed.

Lemma mjoin_cons {A} (x : list A) (xs : list (list A)) : mjoin (x :: xs) = x ++ mjoin xs.
Proof. reflexivity. Qed.

Lemma length_splice {A} off (src buf : list A) :
  (off + length src <= length buf)%nat → length (splice off src buf) = length buf.
Proof. intros. unfold splice. rewrite !length_app, length_take, length_drop. lia. Qed.

Lemma sub_splice_in {A} off n off' (src buf : list A) :
  (off' + length src <= length buf)%nat →
  (off' <= off)%nat → (off + n <= off' + length src)%nat →
  sub off n (splice off' src buf) = sub (off - off') n src.
Proof.
  intros Hb H1 H2. unfold splice.
  rewrite sub_app_r; rewrite length_take, Nat.min_l by lia; [|lia].
  by rewrite sub_app_l by lia.
Qed.

Lemma sub_splice_before {A} off n off' (src buf : list A) :
  (off' + length src <= length buf)%nat → (off + n <= off')%nat →
  sub off n (splice off' src buf) = sub off n buf.
Proof.
  intros Hb H1. unfold splice.
  rewrite sub_app_l by (rewrite length_take; lia). by apply sub_take.
Qed.

Lemma sub_splice_after {A} off n off' (src buf : list A) :
  (off' + length src <= length buf)%nat → (off' + length src <= off)%nat →
  sub off n (splice off' src buf) = sub off n buf.
Proof.
  intros Hb H1. unfold splice.
  rewrite sub_app_r; rewrite length_take, Nat.min_l by lia; [|lia].
  rewrite sub_app_r by lia. rewrite sub_drop. f_equal. lia.
Qed.

Lemma splice_app {A} off (a b buf : list A) :
  (off + length a + length b <= length buf)%nat →
  splice (off + length a) b (splice off a buf) = splice off (a ++ b) buf.
Proof.
  intros H. unfold splice. rewrite length_app, (app_assoc (take off buf) a).
  assert (Hl : length (take off buf ++ a) = (off + length a)%nat)
    by (rewrite length_app, length_take; lia).
  rewrite <- Hl at 1. rewrite take_app_length. rewrite drop_app_ge by lia.
  rewrite Hl, drop_drop, <- !app_assoc. do 4 f_equal. lia.
Qed.

Lemma splice_zeros (p a : list Z) n :
  (length a <= n)%nat →
  splice (length p) a (p ++ replicate n 0) = p ++ a ++ replicate (n - length a) 0.
Proof.
  intros H. unfold splice. rewrite take_app_length, drop_app_ge by lia.
  rewrite drop_replicate. do 3 f_equal. lia.
Qed.

Lemma insert_list_middle {A} (a : list A) x y b : <[length a := y]> (a ++ x :: b) = a ++ y :: b.
Proof. rewrite <- (Nat.add_0_r (length a)), insert_app_r. done. Qed.

Lemma write_at_ok {A} off (src buf : list A) :
  (off + length src <= length buf)%nat → write_at off src buf = Ret (splice off src buf).
Proof. intros. unfold write_at. apply Nat.leb_le in H. by rewrite H. Qed.

Lemma Forall_sub {A} (P : A → Prop) off n l : Forall P l → Forall P (sub off n l).
Proof. intros. by apply Forall_take, Forall_drop. Qed.

Lemma Forall_splice {A} (P : A → Prop) off src buf :
  Forall P src → Forall P buf → Forall P (splice off src buf).
Proof.
  intros. unfold splice. apply Forall_app; split; [by apply Forall_take|].
  apply Forall_app; split; [done|by apply Forall_drop].
Qed.

#[export] Hint Rewrite @length_app @length_take @length_drop @length_le_bytes @length_be_bytes
  @length_replicate @length_reverse @length_fmap : edos.
#[export] Hint Resolve le_bytes_ok be_bytes_ok Forall_splice Forall_sub : edos.

(** Reading a field back out of a concatenation of encoded fields: skip the
    fields before it, cut the ones after it, decode. *)
Lemma le_at_skip off n a b :
  (length a <= off)%nat → le_at off n (a ++ b) = le_at (off - length a) n b.
Proof. intros. unfold le_at. by rewrite sub_app_r. Qed.

Lemma le_at_head n x l : in_width (8 * Z.of_nat n) x → le_at 0 n (le_bytes n x ++ l) = x.
Proof.
  intros. unfold le_at. rewrite sub_prefix by (by rewrite length_le_bytes).
  by apply le_num_le_bytes.
Qed.

Lemma le_at_last n x : in_width (8 * Z.of_nat n) x → le_at 0 n (le_bytes n x) = x.
Proof. intros. rewrite <- (app_nil_r (le_bytes n x)). by apply le_at_head. Qed.

Lemma be_at_skip off n a b :
  (length a <= off)%nat → be_at off n (a ++ b) = be_at (off - length a) n b.
Proof. intros. unfold be_at. by rewrite sub_app_r. Qed.

Lemma be_at_head n x l : in_width (8 * Z.of_nat n) x → be_at 0 n (be_bytes n x ++ l) = x.
Proof.
  intros. unfold be_at. rewrite sub_prefix by (by rewrite length_be_bytes).
  by apply be_num_be_bytes.
Qed.

#[global] Arguments le_bytes : simpl never.
#[global] Arguments be_bytes : simpl never.
#[global] Arguments le_at : simpl never.
#[global] Arguments be_at : simpl never.
#[global] Arguments sub : simpl never.
#[global] Arguments splice : simpl never.

(** Solve a width side condition, evaluating the width first. *)
Ltac solve_width :=
  match goal with
  | |- in_width ?w ?x => let w' := eval vm_compute in w in change (in_width w' x)
  end; first [assumption | unfold in_width in *; lia].

(** Decode a field at a concrete offset of a right-nested concatenation. *)
Ltac field_len := autorewrite with edos; simpl length; try lia.
Ltac decode_field :=
  repeat first
    [ rewrite le_at_head by solve_width
    | rewrite le_at_last by solve_width
    | rewrite be_at_head by solve_width
    | rewrite le_at_skip by field_len
    | rewrite be_at_skip by field_len
    | progress autorewrite with edos
    | progress (simpl Nat.sub) ].
