(* ===== verification/Crc32.v ===== *)
(** * CRC-32 (libs/efs-common/src/crc32.rs)

    The table-driven checksum of the filesystem and its journal: the table the
    compiler builds, the byte loop, and the theorems that relate it to the
    bit-serial shift register and bound the corruption it detects. *)

From S2P Require Import Prelude.

Module Crc32.

(** The loop body of [make_crc32_table]: one bit of polynomial division. *)
Definition crc_step (c : Z) : Z :=
  if negb (Z.land c 1 =? 0) then Z.lxor 0xEDB88320 (Z.shiftr c 1) else Z.shiftr c 1.

Definition make_crc32_table : list Z :=
  (λ i : nat, Nat.iter 8 crc_step (Z.of_nat i)) <$> seq 0 256.

Definition CRC32_TABLE : list Z := Eval vm_compute in make_crc32_table.

(** One iteration of the byte loop of [crc32]. The index is masked to 8 bits,
    so the table access cannot be out of range. *)
Definition crc32_byte (crc byte : Z) : Z :=
  let index := Z.to_nat (Z.land (Z.lxor crc byte) 0xFF) in
  Z.lxor (nth index CRC32_TABLE 0) (Z.shiftr crc 8).

Definition crc32_loop (crc : Z) (data : list Z) : Z := fold_left crc32_byte data crc.

(** [!crc] on a [u32] is exclusive or with all ones. *)
Definition crc32 (data : list Z) : Z :=
  Z.lxor (crc32_loop 0xFFFFFFFF data) 0xFFFFFFFF.

(** ** The bit-serial reference

    The shift register of ISO 3309: the byte is added to the register and the
    register is clocked eight times. *)
Definition crc_ref_byte (crc byte : Z) : Z := Nat.iter 8 crc_step (Z.lxor crc byte).
Definition crc_ref (data : list Z) : Z :=
  Z.lxor (fold_left crc_ref_byte data 0xFFFFFFFF) 0xFFFFFFFF.

(** ** Linearity of the register *)

Lemma land_1_testbit c : negb (Z.land c 1 =? 0) = Z.testbit c 0.
Proof.
  change 1 with (Z.ones 1). rewrite Z.land_ones by lia. change (2 ^ 1) with 2.
  rewrite Z.bit0_odd, Zmod_odd. by destruct (Z.odd c).
Qed.

Lemma crc_step_alt c :
  crc_step c = Z.lxor (if Z.testbit c 0 then 0xEDB88320 else 0) (Z.shiftr c 1).
Proof.
  unfold crc_step. rewrite land_1_testbit. destruct (Z.testbit c 0); [done|].
  by rewrite Z.lxor_0_l.
Qed.

Lemma crc_step_lxor a b : crc_step (Z.lxor a b) = Z.lxor (crc_step a) (crc_step b).
Proof.
  rewrite !crc_step_alt, Z.lxor_spec, Z.shiftr_lxor.
  set (x := Z.shiftr a 1). set (y := Z.shiftr b 1).
  destruct (Z.testbit a 0), (Z.testbit b 0); simpl xorb; cbn match;
    apply Z.bits_inj'; intros n _; rewrite !Z.lxor_spec, ?Z.bits_0;
    repeat (destruct (Z.testbit _ n)); reflexivity.
Qed.

Lemma crc_iter_lxor n a b :
  Nat.iter n crc_step (Z.lxor a b) = Z.lxor (Nat.iter n crc_step a) (Nat.iter n crc_step b).
Proof. induction n; simpl; [done|]. by rewrite IHn, crc_step_lxor. Qed.

Lemma crc_step_double y : crc_step (2 * y) = y.
Proof.
  rewrite crc_step_alt. rewrite Z.testbit_even_0, Z.lxor_0_l.
  rewrite Z.shiftr_div_pow2 by lia. change (2 ^ 1) with 2. rewrite Z.mul_comm. by apply Z.div_mul.
Qed.

Lemma crc_iter_shiftl n h : Nat.iter n crc_step (Z.shiftl h (Z.of_nat n)) = h.
Proof.
  revert h; induction n; intros h.
  - simpl. apply Z.shiftl_0_r.
  - rewrite Nat.iter_succ_r. rewrite Z.shiftl_mul_pow2 by lia.
    replace (h * 2 ^ Z.of_nat (S n)) with (2 * (h * 2 ^ Z.of_nat n)).
    + rewrite crc_step_double, <- Z.shiftl_mul_pow2 by lia. apply IHn.
    + rewrite Nat2Z.inj_succ, Z.pow_succ_r by lia. ring.
Qed.

Lemma split_low8 x : x = Z.lxor (Z.land x 0xFF) (Z.shiftl (Z.shiftr x 8) 8).
Proof.
  change 0xFF with (Z.ones 8). apply Z.bits_inj'; intros n Hn.
  rewrite Z.lxor_spec, Z.land_spec, Z.shiftl_spec by lia.
  rewrite Z.testbit_ones_nonneg by lia.
  destruct (Z.ltb_spec n 8).
  - rewrite (Z.testbit_neg_r _ (n - 8)) by lia. by rewrite andb_true_r, xorb_false_r.
  - rewrite Z.shiftr_spec by lia. replace (n - 8 + 8) with n by lia.
    by rewrite andb_false_r, xorb_false_l.
Qed.

Lemma table_lookup i : (i < 256)%nat → nth i CRC32_TABLE 0 = Nat.iter 8 crc_step (Z.of_nat i).
Proof.
  intros Hi. change CRC32_TABLE with make_crc32_table. apply nth_lookup_Some.
  unfold make_crc32_table. rewrite list_lookup_fmap, lookup_seq_lt by lia. done.
Qed.

Lemma shiftr8_lxor_byte c b : byte_ok b → Z.shiftr (Z.lxor c b) 8 = Z.shiftr c 8.
Proof.
  intros Hb. rewrite Z.shiftr_lxor. rewrite (Z.shiftr_div_pow2 b) by lia.
  rewrite Z.div_small by (unfold byte_ok in Hb; lia). apply Z.lxor_0_r.
Qed.

Lemma crc32_byte_ref c b : byte_ok b → crc32_byte c b = crc_ref_byte c b.
Proof.
  intros Hb. unfold crc32_byte, crc_ref_byte.
  rewrite (split_low8 (Z.lxor c b)) at 2. rewrite crc_iter_lxor.
  change 8 with (Z.of_nat 8) at 3. rewrite crc_iter_shiftl, shiftr8_lxor_byte by done.
  f_equal. change 0xFF with (Z.ones 8). rewrite Z.land_ones by lia.
  pose proof (Z.mod_pos_bound (Z.lxor c b) (2 ^ 8)) as Hm.
  rewrite table_lookup by lia. f_equal. lia.
Qed.

Lemma crc32_loop_ref data c :
  Forall byte_ok data → crc32_loop c data = fold_left crc_ref_byte data c.
Proof.
  intros H; revert c; induction H as [|b l Hb Hl IH]; intros c; simpl; [done|].
  by rewrite crc32_byte_ref, IH.
Qed.

(** ** Bounds and injectivity *)

Lemma lxor_width w a b : 0 <= w → in_width w a → in_width w b → in_width w (Z.lxor a b).
Proof.
  unfold in_width. intros Hw Ha Hb. split; [apply Z.lxor_nonneg; lia|].
  destruct (Z.eq_dec (Z.lxor a b) 0) as [->|Hne]; [lia|].
  assert (0 <= Z.lxor a b) by (apply Z.lxor_nonneg; lia).
  apply Z.log2_lt_pow2; [lia|].
  destruct (Z.eq_dec w 0) as [->|?]; [exfalso; apply Hne; by replace a with 0 by lia; replace b with 0 by lia|].
  eapply Z.le_lt_trans; [apply Z.log2_lxor; lia|].
  apply Z.max_lub_lt.
  - destruct (Z.eq_dec a 0) as [->|]; [simpl; lia|apply Z.log2_lt_pow2; lia].
  - destruct (Z.eq_dec b 0) as [->|]; [simpl; lia|apply Z.log2_lt_pow2; lia].
Qed.

Lemma crc_step_width c : in_width 32 c → in_width 32 (crc_step c).
Proof.
  intros Hc. rewrite crc_step_alt. apply lxor_width; [lia| |].
  - destruct (Z.testbit c 0); unfold in_width; lia.
  - unfold in_width in *. rewrite Z.shiftr_div_pow2 by lia. change (2 ^ 1) with 2.
    split; [apply Z.div_pos; lia|]. apply Z.div_lt_upper_bound; lia.
Qed.

Lemma crc_iter_width n c : in_width 32 c → in_width 32 (Nat.iter n crc_step c).
Proof. intros. induction n; simpl; auto using crc_step_width. Qed.

Lemma crc_step_bit31 c : in_width 32 c → Z.testbit (crc_step c) 31 = Z.testbit c 0.
Proof.
  intros Hc. rewrite crc_step_alt, Z.lxor_spec, Z.shiftr_spec by lia.
  change (31 + 1) with 32. rewrite (Z.bits_above_log2 c 32).
  - destruct (Z.testbit c 0); reflexivity.
  - unfold in_width in Hc; lia.
  - unfold in_width in Hc. destruct (Z.eq_dec c 0) as [->|]; [simpl; lia|]. apply Z.log2_lt_pow2; lia.
Qed.

Lemma crc_step_inj a b : in_width 32 a → in_width 32 b → crc_step a = crc_step b → a = b.
Proof.
  intros Ha Hb H.
  assert (Hbit : Z.testbit a 0 = Z.testbit b 0)
    by (rewrite <- !crc_step_bit31 by done; by rewrite H).
  rewrite !crc_step_alt, Hbit in H. apply (f_equal (Z.lxor (if Z.testbit b 0 then 0xEDB88320 else 0))) in H.
  rewrite <- !Z.lxor_assoc, !Z.lxor_nilpotent, !Z.lxor_0_l, !Z.shiftr_div_pow2 in H by lia.
  rewrite !Z.bit0_odd in Hbit. pose proof (Zmod_odd a). pose proof (Zmod_odd b).
  rewrite Hbit in *. rewrite (Z.div_mod a 2), (Z.div_mod b 2) by lia.
  change (2 ^ 1) with 2 in H. rewrite H. congruence.
Qed.

Lemma crc_iter_inj n a b :
  in_width 32 a → in_width 32 b → Nat.iter n crc_step a = Nat.iter n crc_step b → a = b.
Proof.
  intros Ha Hb. induction n; simpl; [done|]. intros H.
  apply IHn. apply crc_step_inj in H; auto using crc_iter_width.
Qed.

Lemma lxor_concat c b r :
  byte_ok b → Z.lxor c (b + 256 * r) = Z.lxor (Z.lxor c b) (Z.shiftl r 8).
Proof.
  intros Hb. rewrite Z.lxor_assoc. f_equal.
  rewrite Z.add_nocarry_lxor.
  - f_equal. rewrite Z.shiftl_mul_pow2 by lia. change (2 ^ 8) with 256. ring.
  - apply Z.bits_inj'; intros n Hn. rewrite Z.land_spec, Z.bits_0.
    destruct (Z.ltb_spec n 8).
    + replace (256 * r) with (Z.shiftl r 8) by (rewrite Z.shiftl_mul_pow2 by lia; change (2^8) with 256; ring).
      rewrite Z.shiftl_spec_low by lia. apply andb_false_r.
    + rewrite (Z.bits_above_log2 b n); [done|unfold byte_ok in Hb; lia|].
      destruct (Z.eq_dec b 0) as [->|]; [simpl; lia|].
      apply Z.log2_lt_pow2; [unfold byte_ok in Hb; lia|].
      apply Z.lt_le_trans with (2 ^ 8); [unfold byte_ok in Hb; lia|]. apply Z.pow_le_mono_r; lia.
Qed.

(** Feeding a whole word is clocking its bits into the register. *)
Lemma crc_ref_word w c :
  Forall byte_ok w →
  fold_left crc_ref_byte w c = Nat.iter (8 * length w) crc_step (Z.lxor c (le_num w)).
Proof.
  intros H; revert c; induction H as [|b l Hb Hl IH]; intros c.
  - simpl. by rewrite Z.lxor_0_r.
  - cbn [fold_left le_num length]. rewrite IH. unfold crc_ref_byte.
    replace (8 * S (length l))%nat with (8 * length l + 8)%nat by lia.
    rewrite Nat.iter_add. f_equal. rewrite lxor_concat by done.
    rewrite (crc_iter_lxor 8 _ (Z.shiftl _ _)). f_equal.
    change 8 with (Z.of_nat 8). by rewrite crc_iter_shiftl.
Qed.

Lemma crc_ref_width data c :
  Forall byte_ok data → in_width 32 c → in_width 32 (fold_left crc_ref_byte data c).
Proof.
  intros H; revert c; induction H as [|b l Hb Hl IH]; intros c Hc; simpl; [done|].
  apply IH. apply crc_iter_width, lxor_width; [lia|done|]. unfold in_width, byte_ok in *; lia.
Qed.

Lemma crc_ref_inj_state data a b :
  Forall byte_ok data → in_width 32 a → in_width 32 b →
  fold_left crc_ref_byte data a = fold_left crc_ref_byte data b → a = b.
Proof.
  intros H; revert a b; induction H as [|x l Hx Hl IH]; intros a b Ha Hb; simpl; [done|].
  assert (Hw : in_width 32 x) by (unfold in_width, byte_ok in *; lia).
  intros E. apply IH in E; [|apply crc_iter_width, lxor_width; (done || lia)..].
  apply crc_iter_inj in E; [|apply lxor_width; (done || lia)..].
  apply (f_equal (λ z, Z.lxor z x)) in E.
  by rewrite !Z.lxor_assoc, Z.lxor_nilpotent, !Z.lxor_0_r in E.
Qed.

Lemma lxor_cancel_r a b c : Z.lxor a c = Z.lxor b c → a = b.
Proof.
  intros E. apply (f_equal (λ z, Z.lxor z c)) in E.
  by rewrite !Z.lxor_assoc, Z.lxor_nilpotent, !Z.lxor_0_r in E.
Qed.

Lemma crc32_width data : Forall byte_ok data → in_width 32 (crc32 data).
Proof.
  intros H. unfold crc32. rewrite crc32_loop_ref by done.
  apply lxor_width; [lia|apply crc_ref_width; [done|]|]; unfold in_width; lia.
Qed.

Lemma le_num_inj a b :
  Forall byte_ok a → Forall byte_ok b → length a = length b → le_num a = le_num b → a = b.
Proof.
  intros Ha Hb Hl H. rewrite <- (le_bytes_le_num a), <- (le_bytes_le_num b) by done. congruence.
Qed.

(** The lookup-table loop computes exactly the CRC of the bit-serial shift
    register, on every byte string. *)
Theorem crc32_table_correct data : Forall byte_ok data → crc32 data = crc_ref data.
Proof. intros H. unfold crc32, crc_ref. by rewrite crc32_loop_ref. Qed.

Lemma crc32_table_correct_witness :
  crc32 [0x31; 0x32; 0x33; 0x34; 0x35; 0x36; 0x37; 0x38; 0x39] =
  crc_ref [0x31; 0x32; 0x33; 0x34; 0x35; 0x36; 0x37; 0x38; 0x39] ∧
  crc32 [0x31; 0x32; 0x33; 0x34; 0x35; 0x36; 0x37; 0x38; 0x39] = 0xCBF43926.
Proof.
  split; [apply crc32_table_correct; repeat constructor; unfold byte_ok; lia|].
  vm_compute. reflexivity.
Defined.

(** C37 Every corruption confined to four consecutive bytes (a burst of at most
    32 bits aligned on bytes) changes the checksum. *)
Theorem crc32_detects_bursts pre w w' post :
  Forall byte_ok pre → Forall byte_ok w → Forall byte_ok w' → Forall byte_ok post →
  length w = length w' → (length w <= 4)%nat → w ≠ w' →
  crc32 (pre ++ w ++ post) ≠ crc32 (pre ++ w' ++ post).
Proof.
  intros Hpre Hw Hw' Hpost Hlen H4 Hne E. apply Hne, le_num_inj; [done..|].
  unfold crc32 in E. rewrite !crc32_loop_ref in E by (repeat (apply Forall_app; split); done).
  apply lxor_cancel_r in E. rewrite !fold_left_app in E.
  assert (Hc : in_width 32 (fold_left crc_ref_byte pre 0xFFFFFFFF))
    by (apply crc_ref_width; [done|unfold in_width; lia]).
  apply crc_ref_inj_state in E; [|done|by apply crc_ref_width..].
  rewrite (crc_ref_word w), (crc_ref_word w'), Hlen in E by done.
  assert (Hww : ∀ v, Forall byte_ok v → (length v <= 4)%nat → in_width 32 (le_num v)).
  { intros v Hv Hl. pose proof (le_num_bound v Hv). unfold in_width. split; [lia|].
    eapply Z.lt_le_trans; [apply H|]. apply Z.pow_le_mono_r; lia. }
  apply crc_iter_inj in E; [|apply lxor_width; [lia|done|apply Hww; (done || lia)]..].
  rewrite !(Z.lxor_comm (fold_left _ _ _)) in E. by apply lxor_cancel_r in E.
Qed.

Lemma crc32_detects_bursts_witness :
  crc32 ([7; 8] ++ [1; 2; 3; 4] ++ [9]) ≠ crc32 ([7; 8] ++ [1; 2; 0; 255] ++ [9]).
Proof.
  apply crc32_detects_bursts; try (repeat constructor; unfold byte_ok; lia); done.
Defined.

#[global] Opaque crc32.

End Crc32.
