(* ===== verification/BTree.v ===== *)
(** * Ordered maps (Rust's BTreeMap and BTreeSet)

    A [BTreeMap] is modelled by its in-order sequence of entries, because the
    code iterates over it in key order (journal descriptors, VMA walks, file
    descriptor tables). [OrdKey] is the interface of a key type. *)

From S2P Require Import Prelude.

Class OrdKey (K : Type) := {
  klt : K → K → bool;
  klt_irrefl : ∀ a, klt a a = false;
  klt_trans : ∀ a b c, klt a b = true → klt b c = true → klt a c = true;
  klt_total : ∀ a b, klt a b = false → klt b a = false → a = b
}.

#[export] Program Instance OrdKey_Z : OrdKey Z := {| klt := Z.ltb |}.
Next Obligation. intros. lia. Qed.
Next Obligation. intros. lia. Qed.
Next Obligation. intros. lia. Qed.

#[export] Program Instance OrdKey_ZZ : OrdKey (Z * Z) :=
  {| klt := λ a b, (a.1 <? b.1) || ((a.1 =? b.1) && (a.2 <? b.2)) |}.
Next Obligation. intros [a b]; simpl; lia. Qed.
Next Obligation. intros [a b] [c d] [e f]; simpl; lia. Qed.
Next Obligation. intros [a b] [c d]; simpl; intros; f_equal; lia. Qed.

Abbreviation bmap K V := (list (K * V)%type) (only parsing).

Section BMap.
Context {K V : Type} {OK : OrdKey K}.
Implicit Types (k : K) (v : V) (m : bmap K V).

(** [get] *)
Fixpoint bget k m : option V :=
  match m with
  | [] => None
  | (k', v) :: m' => if klt k k' then None else if klt k' k then bget k m' else Some v
  end.

(** [insert]: replaces the value of an existing key. *)
Fixpoint binsert k v m : bmap K V :=
  match m with
  | [] => [(k, v)]
  | (k', v') :: m' =>
      if klt k k' then (k, v) :: (k', v') :: m'
      else if klt k' k then (k', v') :: binsert k v m'
      else (k, v) :: m'
  end.

(** [remove] *)
Fixpoint bremove k m : bmap K V :=
  match m with
  | [] => []
  | (k', v') :: m' =>
      if klt k k' then (k', v') :: m'
      else if klt k' k then (k', v') :: bremove k m'
      else m'
  end.

Definition blt (a b : K * V) : Prop := klt a.1 b.1 = true.

(** The representation invariant: strictly increasing keys. *)
Definition bwf m : Prop := StronglySorted blt m.

Lemma klt_asym k k' : klt k k' = true → klt k' k = false.
Proof.
  intros H. destruct (klt k' k) eqn:E; [|done].
  pose proof (klt_trans _ _ _ H E) as H'. by rewrite klt_irrefl in H'.
Qed.

Lemma klt_ne k k' : klt k k' = true → k ≠ k'.
Proof. intros H ->. by rewrite klt_irrefl in H. Qed.

Lemma bwf_cons_inv k v m : bwf ((k, v) :: m) → bwf m ∧ Forall (λ e, klt k e.1 = true) m.
Proof. intros H. by inversion_clear H. Qed.

Lemma bwf_nil : bwf [].
Proof. constructor. Qed.

Lemma elem_of_binsert k v m k' v' :
  bwf m → ((k', v') ∈ binsert k v m ↔ (k' = k ∧ v' = v) ∨ (k' ≠ k ∧ (k', v') ∈ m)).
Proof.
  induction m as [|[k1 v1] m IH]; intros Hwf; simpl.
  - rewrite list_elem_of_singleton. split; [intros [= -> ->]; auto|].
    intros [[-> ->]|[_ H]]; [done|by apply not_elem_of_nil in H].
  - apply bwf_cons_inv in Hwf as [Hwf Hall]. rewrite Forall_forall in Hall.
    destruct (klt k k1) eqn:E1; [|destruct (klt k1 k) eqn:E2].
    + rewrite !elem_of_cons. split.
      * intros [[= -> ->]|[[= -> ->]|H]]; [by left|right..]; (split; [|by auto]).
        -- intros ->. by rewrite klt_irrefl in E1.
        -- intros ->. apply Hall in H. simpl in H.
           pose proof (klt_trans _ _ _ E1 H) as H'. by rewrite klt_irrefl in H'.
      * intros [[-> ->]|[_ H]]; auto.
    + rewrite !elem_of_cons, IH by done. split.
      * intros [[= -> ->]|[?|[? ?]]]; [right|auto..]. split; [by apply klt_ne|auto].
      * intros [?|[? [?|?]]]; auto.
    + apply klt_total in E1 as <-; [|done]. rewrite !elem_of_cons. split.
      * intros [[= -> ->]|H]; [by left|right]. split; [|by auto]. intros ->.
        apply Hall in H. simpl in H. by rewrite klt_irrefl in H.
      * intros [[-> ->]|[Hne [[= -> ->]|H]]]; [by auto|done|by auto].
Qed.

Lemma elem_of_bremove k m k' v' :
  bwf m → ((k', v') ∈ bremove k m ↔ k' ≠ k ∧ (k', v') ∈ m).
Proof.
  induction m as [|[k1 v1] m IH]; intros Hwf; simpl.
  - split; [intros H; by apply not_elem_of_nil in H|by intros [_ H]].
  - apply bwf_cons_inv in Hwf as [Hwf Hall]. rewrite Forall_forall in Hall.
    destruct (klt k k1) eqn:E1; [|destruct (klt k1 k) eqn:E2].
    + split; [|by intros []]. intros H. split; [|done]. intros ->.
      apply elem_of_cons in H as [[= -> ->]|H]; [by rewrite klt_irrefl in E1|].
      apply Hall in H. simpl in H. pose proof (klt_trans _ _ _ E1 H) as H'.
      by rewrite klt_irrefl in H'.
    + rewrite !elem_of_cons, IH by done. split.
      * intros [[= -> ->]|[? ?]]; [|by auto]. split; [by apply klt_ne|auto].
      * intros [? [?|?]]; auto.
    + apply klt_total in E1 as <-; [|done]. rewrite elem_of_cons. split.
      * intros H. split; [|by auto]. intros ->. apply Hall in H. simpl in H.
        by rewrite klt_irrefl in H.
      * intros [Hne [[= -> ->]|H]]; done.
Qed.

Lemma binsert_wf k v m : bwf m → bwf (binsert k v m).
Proof.
  induction m as [|[k1 v1] m IH]; intros Hwf; simpl.
  - repeat constructor.
  - pose proof Hwf as Hwf'. apply bwf_cons_inv in Hwf as [Hwf Hall].
    destruct (klt k k1) eqn:E1; [|destruct (klt k1 k) eqn:E2].
    + constructor; [done|]. constructor; [done|].
      eapply Forall_impl; [exact Hall|]. intros e He. unfold blt. simpl.
      by eapply klt_trans.
    + constructor; [by apply IH|]. apply Forall_forall. intros [k' v'] H.
      apply elem_of_binsert in H; [|done]. unfold blt; simpl.
      rewrite Forall_forall in Hall. destruct H as [[-> _]|[_ H]]; [done|by apply Hall in H].
    + apply klt_total in E1 as <-; [|done]. by constructor.
Qed.

Lemma bremove_wf k m : bwf m → bwf (bremove k m).
Proof.
  induction m as [|[k1 v1] m IH]; intros Hwf; simpl; [done|].
  pose proof Hwf as Hwf'. apply bwf_cons_inv in Hwf as [Hwf Hall].
  destruct (klt k k1); [done|destruct (klt k1 k); [|done]].
  constructor; [by apply IH|]. apply Forall_forall. intros [k' v'] H.
  apply elem_of_bremove in H as [_ H]; [|done]. rewrite Forall_forall in Hall. by apply Hall in H.
Qed.

Lemma bget_Some k v m : bwf m → (bget k m = Some v ↔ (k, v) ∈ m).
Proof.
  induction m as [|[k1 v1] m IH]; intros Hwf; simpl.
  - split; [done|intros H; by apply not_elem_of_nil in H].
  - apply bwf_cons_inv in Hwf as [Hwf Hall]. rewrite Forall_forall in Hall.
    destruct (klt k k1) eqn:E1; [|destruct (klt k1 k) eqn:E2].
    + split; [done|]. rewrite elem_of_cons. intros [[= -> ->]|H].
      * by rewrite klt_irrefl in E1.
      * apply Hall in H. simpl in H. pose proof (klt_trans _ _ _ E1 H) as H'.
        by rewrite klt_irrefl in H'.
    + rewrite IH, elem_of_cons by done. split; [auto|].
      intros [[= -> ->]|H]; [|done]. by rewrite klt_irrefl in E2.
    + apply klt_total in E1 as <-; [|done]. rewrite elem_of_cons. split.
      * intros [= ->]. auto.
      * intros [[= ->]|H]; [done|]. apply Hall in H. simpl in H. by rewrite klt_irrefl in H.
Qed.

Lemma bget_None k m : bwf m → bget k m = None → ∀ v, (k, v) ∉ m.
Proof. intros Hwf H v Hin. apply bget_Some in Hin; [congruence|done]. Qed.

Lemma bget_binsert k v m k' :
  bwf m → bget k' (binsert k v m) = if decide (klt k k' = false ∧ klt k' k = false) then Some v else bget k' m.
Proof.
  intros Hwf. destruct (decide _) as [[H1 H2]|Hne].
  - apply klt_total in H1 as ->; [|done]. apply bget_Some; [by apply binsert_wf|].
    apply elem_of_binsert; auto.
  - assert (k' ≠ k) by (intros ->; apply Hne; by rewrite klt_irrefl).
    destruct (bget k' m) as [v'|] eqn:E.
    + apply bget_Some; [by apply binsert_wf|]. apply elem_of_binsert; [done|].
      apply bget_Some in E; auto.
    + destruct (bget k' (binsert k v m)) as [v'|] eqn:E'; [|done]. exfalso.
      apply bget_Some in E'; [|by apply binsert_wf]. apply elem_of_binsert in E'; [|done].
      destruct E' as [[-> _]|[_ E']]; [done|]. by eapply bget_None in E.
Qed.

Lemma bget_binsert_eq k v m : bwf m → bget k (binsert k v m) = Some v.
Proof. intros. rewrite bget_binsert by done. rewrite decide_True; [done|]. by rewrite klt_irrefl. Qed.

Lemma bget_binsert_ne k v m k' : bwf m → k ≠ k' → bget k' (binsert k v m) = bget k' m.
Proof.
  intros. rewrite bget_binsert by done. rewrite decide_False; [done|].
  intros [H1 H2]. by apply klt_total in H1.
Qed.

Lemma bget_bremove_eq k m : bwf m → bget k (bremove k m) = None.
Proof.
  intros Hwf. destruct (bget k (bremove k m)) eqn:E; [|done].
  apply bget_Some in E; [|by apply bremove_wf]. by apply elem_of_bremove in E as [? _].
Qed.

Lemma bget_bremove_ne k m k' : bwf m → k ≠ k' → bget k' (bremove k m) = bget k' m.
Proof.
  intros Hwf Hne. destruct (bget k' m) as [v|] eqn:E.
  - apply bget_Some in E; [|done]. apply bget_Some; [by apply bremove_wf|].
    apply elem_of_bremove; auto.
  - destruct (bget k' (bremove k m)) eqn:E'; [|done].
    apply bget_Some in E'; [|by apply bremove_wf]. apply elem_of_bremove in E' as [_ E']; [|done].
    by eapply bget_None in E.
Qed.

(** Insertion and removal at a known position. *)
Lemma binsert_at k v pre post :
  Forall (λ e, klt e.1 k = true) pre → Forall (λ e, klt k e.1 = true) post →
  binsert k v (pre ++ post) = pre ++ (k, v) :: post.
Proof.
  intros Hpre Hpost. induction Hpre as [|[k' v'] pre Hk _ IH]; cbn [app binsert].
  - destruct post as [|[k' v'] post]; [done|]. apply Forall_cons in Hpost as [Hk _]. simpl in Hk.
    cbn [binsert]. by rewrite Hk.
  - simpl in Hk. rewrite (klt_asym _ _ Hk), Hk. by rewrite IH.
Qed.

Lemma bremove_at k v pre post :
  Forall (λ e, klt e.1 k = true) pre → bremove k (pre ++ (k, v) :: post) = pre ++ post.
Proof.
  intros Hpre. induction Hpre as [|[k' v'] pre Hk _ IH]; cbn [app bremove].
  - by rewrite klt_irrefl.
  - simpl in Hk. rewrite (klt_asym _ _ Hk), Hk. by rewrite IH.
Qed.

Lemma bget_at k v pre post :
  Forall (λ e, klt e.1 k = true) pre → bget k (pre ++ (k, v) :: post) = Some v.
Proof.
  intros Hpre. induction Hpre as [|[k' v'] pre Hk _ IH]; cbn [app bget].
  - by rewrite klt_irrefl.
  - simpl in Hk. by rewrite (klt_asym _ _ Hk), Hk.
Qed.

Lemma binsert_replace k v v0 pre post :
  Forall (λ e, klt e.1 k = true) pre → binsert k v (pre ++ (k, v0) :: post) = pre ++ (k, v) :: post.
Proof.
  intros Hpre. induction Hpre as [|[k' v'] pre Hk _ IH]; cbn [app binsert].
  - by rewrite klt_irrefl.
  - simpl in Hk. rewrite (klt_asym _ _ Hk), Hk. by rewrite IH.
Qed.

Lemma binsert_not_nil k v m : binsert k v m ≠ [].
Proof. destruct m as [|[k' v'] m]; simpl; [done|]. by destruct (klt k k'), (klt k' k). Qed.
End BMap.

#[export] Hint Resolve binsert_wf bremove_wf bwf_nil : edos.
