(* ===== verification/JournalFormat.v ===== *)
(** * The on-disk journal format

    [libs/efs-common/src/journal.rs] (structures), [journal_build.rs]
    (writers) and [journal_parse.rs] (readers): every [repr(C, packed)]
    structure with its byte image, the block builders with the slice checks
    the code performs, the parsers with their loops, and the round trips. *)

From S2P Require Import Prelude Crc32.

Module JournalFormat.

(** ** Structures *)

Definition JOURNAL_MAGIC : Z := le_num [0x45; 0x4A; 0x53; 0x21].
Definition JOURNAL_BLOCK_MAGIC : Z := le_num [0x45; 0x4A; 0x42; 0x21].
Definition DESC_FLAG_ESCAPED : Z := 1.

Record JournalSuperblock := mk_jsb {
  jsb_magic : Z;
  jsb_version : Z;
  jsb_block_count : Z;
  jsb_block_size : Z;
  jsb_tail_seq : Z;
  jsb_head_seq : Z;
  jsb_tail_block : Z;
  jsb_head_block : Z;
  jsb_crc32 : Z;
  jsb_reserved : list Z
}.

Inductive JournalBlockKind := Descriptor | Commit | Revoke.

Definition kind_u8 (k : JournalBlockKind) : Z :=
  match k with Descriptor => 1 | Commit => 2 | Revoke => 3 end.

Record JournalBlockHeader := mk_hdr {
  hdr_magic : Z;
  hdr_kind : Z;
  hdr_pad : list Z;
  hdr_seq : Z;
  hdr_tx_id : Z
}.

Record DescriptorEntry := mk_de {
  de_fs_block : Z;
  de_flags : Z;
  de_reserved : Z
}.

Record RevokeEntry := mk_re {
  re_fs_block : Z;
  re_seq : Z
}.

Definition sizeof_jsb : nat := 64.
Definition sizeof_hdr : nat := 24.
Definition sizeof_entry : nat := 16.

(** The byte images ([as_bytes], [read_unaligned]) of the packed structures. *)
Definition jsb_bytes (sb : JournalSuperblock) : list Z :=
  le_bytes 4 (jsb_magic sb) ++ le_bytes 4 (jsb_version sb) ++ le_bytes 4 (jsb_block_count sb) ++
  le_bytes 4 (jsb_block_size sb) ++ le_bytes 8 (jsb_tail_seq sb) ++ le_bytes 8 (jsb_head_seq sb) ++
  le_bytes 8 (jsb_tail_block sb) ++ le_bytes 8 (jsb_head_block sb) ++ le_bytes 4 (jsb_crc32 sb) ++
  jsb_reserved sb.

Definition jsb_read (b : list Z) : JournalSuperblock :=
  mk_jsb (le_at 0 4 b) (le_at 4 4 b) (le_at 8 4 b) (le_at 12 4 b) (le_at 16 8 b) (le_at 24 8 b)
    (le_at 32 8 b) (le_at 40 8 b) (le_at 48 4 b) (sub 52 12 b).

Definition hdr_bytes (h : JournalBlockHeader) : list Z :=
  le_bytes 4 (hdr_magic h) ++ le_bytes 1 (hdr_kind h) ++ hdr_pad h ++
  le_bytes 8 (hdr_seq h) ++ le_bytes 8 (hdr_tx_id h).

Definition hdr_read (b : list Z) : JournalBlockHeader :=
  mk_hdr (le_at 0 4 b) (le_at 4 1 b) (sub 5 3 b) (le_at 8 8 b) (le_at 16 8 b).

Definition de_bytes (e : DescriptorEntry) : list Z :=
  le_bytes 8 (de_fs_block e) ++ le_bytes 4 (de_flags e) ++ le_bytes 4 (de_reserved e).

Definition de_read (b : list Z) : DescriptorEntry :=
  mk_de (le_at 0 8 b) (le_at 8 4 b) (le_at 12 4 b).

Definition re_bytes (e : RevokeEntry) : list Z :=
  le_bytes 8 (re_fs_block e) ++ le_bytes 8 (re_seq e).

Definition re_read (b : list Z) : RevokeEntry := mk_re (le_at 0 8 b) (le_at 8 8 b).

(** ** Checksums *)

Definition journal_sb_checksum (sb : JournalSuperblock) : Z :=
  Crc32.crc32 (jsb_bytes
    (mk_jsb (jsb_magic sb) (jsb_version sb) (jsb_block_count sb) (jsb_block_size sb)
       (jsb_tail_seq sb) (jsb_head_seq sb) (jsb_tail_block sb) (jsb_head_block sb)
       0 (jsb_reserved sb))).

Definition commit_block_checksum (payload : list Z) : Z := Crc32.crc32 payload.

(** ** Builders *)

Definition header_block (block_size : nat) (kind : JournalBlockKind) (seq tx_id : Z)
    : outcome (list Z) :=
  let buf := replicate block_size 0 in
  let hdr := mk_hdr JOURNAL_BLOCK_MAGIC (kind_u8 kind) [0; 0; 0] seq tx_id in
  write_at 0 (hdr_bytes hdr) buf.

(** The entry loop the descriptor and revoke builders share: stop at the first
    entry that would extend past the block. *)
Fixpoint write_entries {A} (enc : A → list Z) (block_size off : nat) (entries : list A)
    (buf : list Z) : outcome (list Z) :=
  match entries with
  | [] => Ret buf
  | e :: rest =>
      if (block_size <? off + sizeof_entry)%nat then Ret buf
      else buf' ← write_at off (enc e) buf;
           write_entries enc block_size (off + sizeof_entry) rest buf'
  end.

Definition build_descriptor_block (block_size : nat) (seq tx_id : Z)
    (entries : list DescriptorEntry) : outcome (list Z) :=
  buf ← header_block block_size Descriptor seq tx_id;
  buf ← write_at sizeof_hdr (le_bytes 4 (wrap 32 (Z.of_nat (length entries)))) buf;
  write_entries de_bytes block_size (sizeof_hdr + 4) entries buf.

Definition build_revoke_block (block_size : nat) (seq tx_id : Z)
    (entries : list RevokeEntry) : outcome (list Z) :=
  buf ← header_block block_size Revoke seq tx_id;
  write_entries re_bytes block_size sizeof_hdr entries buf.

Definition build_commit_block (block_size : nat) (seq tx_id payload_crc : Z)
    : outcome (list Z) :=
  buf ← header_block block_size Commit seq tx_id;
  write_at sizeof_hdr (le_bytes 4 payload_crc) buf.

(** ** Parsers *)

Definition parse_header (block : list Z) : option JournalBlockHeader :=
  if (length block <? sizeof_hdr)%nat then None
  else
    let hdr := hdr_read block in
    if negb (hdr_magic hdr =? JOURNAL_BLOCK_MAGIC) then None else Some hdr.

Fixpoint parse_descriptor_loop (count off block_size : nat) (block : list Z)
    : list DescriptorEntry :=
  match count with
  | O => []
  | S count' =>
      if (block_size <? off + sizeof_entry)%nat then []
      else if (length block <? off + sizeof_entry)%nat then []
      else de_read (sub off sizeof_entry block)
           :: parse_descriptor_loop count' (off + sizeof_entry) block_size block
  end.

Definition parse_descriptor_entries (block : list Z) (block_size : nat) : list DescriptorEntry :=
  if (length block <? sizeof_hdr + 4)%nat then []
  else
    let count := Z.to_nat (le_at sizeof_hdr 4 block) in
    parse_descriptor_loop count (sizeof_hdr + 4) block_size block.

(** The [while] loop of [parse_revoke_entries]. Each iteration advances [off]
    by 16 inside the block, so the block's length bounds the iterations
    ([parse_revoke_fuel] below). *)
Fixpoint parse_revoke_loop (fuel off block_size : nat) (block : list Z) : list RevokeEntry :=
  match fuel with
  | O => []
  | S fuel' =>
      if (off + sizeof_entry <=? block_size)%nat && (off + sizeof_entry <=? length block)%nat then
        let entry := re_read (sub off sizeof_entry block) in
        if (re_fs_block entry =? 0) && (re_seq entry =? 0) then []
        else entry :: parse_revoke_loop fuel' (off + sizeof_entry) block_size block
      else []
  end.

Definition parse_revoke_entries (block : list Z) (block_size : nat) : list RevokeEntry :=
  parse_revoke_loop (length block) sizeof_hdr block_size block.

(** The CRC a commit block claims, [commit_payload_crc] of [journal_scan.rs]. *)
Definition commit_payload_crc (commit_block : list Z) : Z :=
  if (length commit_block <? sizeof_hdr + 4)%nat then 0 else le_at sizeof_hdr 4 commit_block.

(** ** Well-formed values: every field in the range of its type *)

Definition de_ok (e : DescriptorEntry) : Prop :=
  in_width 64 (de_fs_block e) ∧ in_width 32 (de_flags e) ∧ in_width 32 (de_reserved e).
Definition re_ok (e : RevokeEntry) : Prop :=
  in_width 64 (re_fs_block e) ∧ in_width 64 (re_seq e).
(** A revoke entry the zero-terminated list can hold. *)
Definition re_nonzero (e : RevokeEntry) : Prop := re_fs_block e ≠ 0 ∨ re_seq e ≠ 0.
Definition jsb_ok (sb : JournalSuperblock) : Prop :=
  in_width 32 (jsb_magic sb) ∧ in_width 32 (jsb_version sb) ∧ in_width 32 (jsb_block_count sb) ∧
  in_width 32 (jsb_block_size sb) ∧ in_width 64 (jsb_tail_seq sb) ∧ in_width 64 (jsb_head_seq sb) ∧
  in_width 64 (jsb_tail_block sb) ∧ in_width 64 (jsb_head_block sb) ∧ in_width 32 (jsb_crc32 sb) ∧
  length (jsb_reserved sb) = 12%nat.

(** Entries one descriptor or revoke block can name. *)
Definition desc_capacity (block_size : nat) : nat := (block_size - (sizeof_hdr + 4)) / sizeof_entry.
Definition revoke_capacity (block_size : nat) : nat := (block_size - sizeof_hdr) / sizeof_entry.

(** ** Codec lemmas *)

Lemma length_jsb_bytes sb : length (jsb_reserved sb) = 12%nat → length (jsb_bytes sb) = sizeof_jsb.
Proof. intros H. unfold jsb_bytes. autorewrite with edos. rewrite H. done. Qed.

Lemma length_hdr_bytes m k s t : length (hdr_bytes (mk_hdr m k [0; 0; 0] s t)) = sizeof_hdr.
Proof. unfold hdr_bytes. by autorewrite with edos. Qed.

Lemma length_de_bytes e : length (de_bytes e) = sizeof_entry.
Proof. unfold de_bytes. by autorewrite with edos. Qed.

Lemma length_re_bytes e : length (re_bytes e) = sizeof_entry.
Proof. unfold re_bytes. by autorewrite with edos. Qed.

Lemma de_read_bytes e : de_ok e → de_read (de_bytes e) = e.
Proof.
  destruct e as [b f r]. intros (? & ? & ?). unfold de_read, de_bytes; cbn [de_fs_block de_flags de_reserved] in *.
  f_equal; decode_field; reflexivity.
Qed.

Lemma re_read_bytes e : re_ok e → re_read (re_bytes e) = e.
Proof.
  destruct e as [b s]. intros (? & ?). unfold re_read, re_bytes; cbn [re_fs_block re_seq] in *.
  f_equal; decode_field; reflexivity.
Qed.

Lemma hdr_read_bytes k seq tx_id rest :
  in_width 64 seq → in_width 64 tx_id →
  hdr_read (hdr_bytes (mk_hdr JOURNAL_BLOCK_MAGIC (kind_u8 k) [0; 0; 0] seq tx_id) ++ rest)
  = mk_hdr JOURNAL_BLOCK_MAGIC (kind_u8 k) [0; 0; 0] seq tx_id.
Proof.
  intros Hs Ht. assert (in_width 8 (kind_u8 k)) by (destruct k; unfold in_width; simpl; lia).
  assert (in_width 32 JOURNAL_BLOCK_MAGIC) by (unfold in_width, JOURNAL_BLOCK_MAGIC; simpl; lia).
  unfold hdr_read, hdr_bytes. cbn [hdr_magic hdr_kind hdr_pad hdr_seq hdr_tx_id].
rewrite <- !app_assoc. f_equal; decode_field; reflexivity.
Qed.

Lemma header_block_ok bs k seq tx_id :
  (sizeof_hdr <= bs)%nat →
  header_block bs k seq tx_id =
  Ret (hdr_bytes (mk_hdr JOURNAL_BLOCK_MAGIC (kind_u8 k) [0; 0; 0] seq tx_id)
       ++ replicate (bs - sizeof_hdr) 0).
Proof.
  intros H. unfold header_block.
  rewrite write_at_ok by (rewrite length_hdr_bytes; autorewrite with edos; unfold sizeof_hdr in *; lia).
  unfold splice. rewrite length_hdr_bytes, drop_replicate. done.
Qed.

(** A built block starts with its header, whatever is written after it. *)
Lemma parse_header_app k seq tx_id rest :
  in_width 64 seq → in_width 64 tx_id →
  parse_header (hdr_bytes (mk_hdr JOURNAL_BLOCK_MAGIC (kind_u8 k) [0; 0; 0] seq tx_id) ++ rest)
  = Some (mk_hdr JOURNAL_BLOCK_MAGIC (kind_u8 k) [0; 0; 0] seq tx_id).
Proof.
  intros Hs Ht. unfold parse_header.
  rewrite length_app, length_hdr_bytes.
  destruct (Nat.ltb_spec (sizeof_hdr + length rest) sizeof_hdr); [lia|].
  rewrite hdr_read_bytes by done. cbn [hdr_magic]. by rewrite Z.eqb_refl.
Qed.

Lemma length_mjoin_entries {A} (enc : A → list Z) :
  (∀ e, length (enc e) = sizeof_entry) →
  ∀ l, length (mjoin (enc <$> l)) = (sizeof_entry * length l)%nat.
Proof.
  intros Henc. induction l as [|x l IHl]; [done|].
  rewrite fmap_cons, mjoin_cons, length_app, IHl, Henc. simpl. lia.
Qed.

(** The entry loop in closed form: the entries that fit, laid out in order. *)
Lemma write_entries_spec {A} (enc : A → list Z) bs :
  (∀ e, length (enc e) = sizeof_entry) →
  ∀ entries off buf, length buf = bs → (off <= bs)%nat →
  write_entries enc bs off entries buf =
  Ret (splice off (mjoin (enc <$> take ((bs - off) / sizeof_entry) entries)) buf).
Proof.
  intros Henc. induction entries as [|e es IH]; intros off buf Hl Hoff.
  - rewrite take_nil. simpl. unfold splice. simpl. by rewrite Nat.add_0_r, take_drop.
  - cbn [write_entries]. destruct (Nat.ltb_spec bs (off + sizeof_entry)) as [Hlt|Hge].
    + rewrite Nat.div_small by (unfold sizeof_entry in *; lia). simpl.
      unfold splice. simpl. by rewrite Nat.add_0_r, take_drop.
    + rewrite write_at_ok by (rewrite Henc; lia). cbn [mbind outcome_bind].
      rewrite IH by (try rewrite length_splice; rewrite ?Henc; lia).
      assert (Hd : ((bs - off) / sizeof_entry = S ((bs - (off + sizeof_entry)) / sizeof_entry))%nat).
      { replace (bs - off)%nat with (bs - (off + sizeof_entry) + 1 * sizeof_entry)%nat
          by (unfold sizeof_entry in *; lia).
        rewrite Nat.div_add by done. lia. }
      rewrite Hd. cbn [take]. rewrite fmap_cons, mjoin_cons. set (es' := take _ es).
      f_equal. rewrite <- (Henc e) at 1. apply splice_app.
      rewrite Henc, length_mjoin_entries by done. subst es'. rewrite length_take.
      pose proof (Nat.Div0.mul_div_le (bs - (off + sizeof_entry)) sizeof_entry). nia.
Qed.


(** ** The images of the three block kinds *)

Definition hdr_image (k : JournalBlockKind) (seq tx_id : Z) : list Z :=
  hdr_bytes (mk_hdr JOURNAL_BLOCK_MAGIC (kind_u8 k) [0; 0; 0] seq tx_id).

Definition desc_image (bs : nat) (seq tx_id : Z) (es : list DescriptorEntry) : list Z :=
  let body := mjoin (de_bytes <$> take (desc_capacity bs) es) in
  hdr_image Descriptor seq tx_id ++ le_bytes 4 (Z.of_nat (length es)) ++ body ++
  replicate (bs - (sizeof_hdr + 4) - length body) 0.

Definition revoke_image (bs : nat) (seq tx_id : Z) (es : list RevokeEntry) : list Z :=
  let body := mjoin (re_bytes <$> take (revoke_capacity bs) es) in
  hdr_image Revoke seq tx_id ++ body ++ replicate (bs - sizeof_hdr - length body) 0.

Definition commit_image (bs : nat) (seq tx_id crc : Z) : list Z :=
  hdr_image Commit seq tx_id ++ le_bytes 4 crc ++ replicate (bs - (sizeof_hdr + 4)) 0.

Lemma length_hdr_image k seq tx_id : length (hdr_image k seq tx_id) = sizeof_hdr.
Proof. apply length_hdr_bytes. Qed.

Lemma body_fits {A} (enc : A → list Z) n es :
  (∀ e, length (enc e) = sizeof_entry) →
  (length (mjoin (enc <$> take (n / sizeof_entry) es)) <= n)%nat.
Proof.
  intros Henc. rewrite length_mjoin_entries by done. rewrite length_take.
  pose proof (Nat.Div0.mul_div_le n sizeof_entry). nia.
Qed.

Lemma build_descriptor_image bs seq tx_id es :
  (sizeof_hdr + 4 <= bs)%nat → in_width 32 (Z.of_nat (length es)) →
  build_descriptor_block bs seq tx_id es = Ret (desc_image bs seq tx_id es).
Proof.
  intros Hbs Hn. unfold build_descriptor_block.
  rewrite header_block_ok by lia. cbn [mbind outcome_bind].
  fold (hdr_image Descriptor seq tx_id). unfold wrap. rewrite Z.mod_small by done.
  pose proof (length_hdr_image Descriptor seq tx_id) as Hh.
  rewrite write_at_ok by (autorewrite with edos; lia).
  rewrite <- Hh at 1. rewrite splice_zeros by (autorewrite with edos; lia).
  cbn [mbind outcome_bind]. autorewrite with edos.
  rewrite write_entries_spec;
    [|apply length_de_bytes|rewrite !length_app, Hh; autorewrite with edos; lia|lia].
  unfold desc_image. fold (desc_capacity bs).
  rewrite (app_assoc (hdr_image _ _ _)).
  replace (sizeof_hdr + 4)%nat
    with (length (hdr_image Descriptor seq tx_id ++ le_bytes 4 (Z.of_nat (length es)))) at 1
    by (autorewrite with edos; lia).
  pose proof (body_fits de_bytes (bs - (sizeof_hdr + 4)) es length_de_bytes).
  fold (desc_capacity bs) in H.
  rewrite splice_zeros by lia. rewrite <- app_assoc. do 5 f_equal. lia.
Qed.

Lemma build_revoke_image bs seq tx_id es :
  (sizeof_hdr <= bs)%nat →
  build_revoke_block bs seq tx_id es = Ret (revoke_image bs seq tx_id es).
Proof.
  intros Hbs. unfold build_revoke_block.
  rewrite header_block_ok by lia. cbn [mbind outcome_bind].
  fold (hdr_image Revoke seq tx_id).
  pose proof (length_hdr_image Revoke seq tx_id) as Hh.
  rewrite write_entries_spec;
    [|apply length_re_bytes|autorewrite with edos; lia|lia].
  fold (revoke_capacity bs). unfold revoke_image.
  pose proof (body_fits re_bytes (bs - sizeof_hdr) es length_re_bytes).
  fold (revoke_capacity bs) in H.
  rewrite <- Hh at 1. by rewrite splice_zeros by lia.
Qed.

Lemma build_commit_image bs seq tx_id crc :
  (sizeof_hdr + 4 <= bs)%nat →
  build_commit_block bs seq tx_id crc = Ret (commit_image bs seq tx_id crc).
Proof.
  intros Hbs. unfold build_commit_block.
  rewrite header_block_ok by lia. cbn [mbind outcome_bind].
  fold (hdr_image Commit seq tx_id).
  pose proof (length_hdr_image Commit seq tx_id) as Hh.
  rewrite write_at_ok by (autorewrite with edos; lia). rewrite <- Hh at 1.
  rewrite splice_zeros by (autorewrite with edos; lia). unfold commit_image.
  do 4 f_equal. autorewrite with edos. lia.
Qed.

Lemma length_desc_image bs seq tx_id es :
  (sizeof_hdr + 4 <= bs)%nat → length (desc_image bs seq tx_id es) = bs.
Proof.
  intros H. unfold desc_image.
  pose proof (body_fits de_bytes (bs - (sizeof_hdr + 4)) es length_de_bytes) as Hb.
  fold (desc_capacity bs) in Hb. rewrite !length_app, length_hdr_image. autorewrite with edos. lia.
Qed.

Lemma length_revoke_image bs seq tx_id es :
  (sizeof_hdr <= bs)%nat → length (revoke_image bs seq tx_id es) = bs.
Proof.
  intros H. unfold revoke_image.
  pose proof (body_fits re_bytes (bs - sizeof_hdr) es length_re_bytes) as Hb.
  fold (revoke_capacity bs) in Hb. rewrite !length_app, length_hdr_image. autorewrite with edos. lia.
Qed.

Lemma length_commit_image bs seq tx_id crc :
  (sizeof_hdr + 4 <= bs)%nat → length (commit_image bs seq tx_id crc) = bs.
Proof.
  intros H. unfold commit_image. rewrite !length_app, length_hdr_image. autorewrite with edos. lia.
Qed.

(** ** Reading the images back *)

Lemma parse_header_image k seq tx_id rest :
  in_width 64 seq → in_width 64 tx_id →
  parse_header (hdr_image k seq tx_id ++ rest)
  = Some (mk_hdr JOURNAL_BLOCK_MAGIC (kind_u8 k) [0; 0; 0] seq tx_id).
Proof. apply parse_header_app. Qed.

Lemma sub_drop_0 {A} off n (l : list A) : sub off n l = sub 0 n (drop off l).
Proof. unfold sub. by rewrite drop_0. Qed.

Lemma parse_descriptor_loop_app bs block es :
  Forall de_ok es → ∀ count off rest,
  drop off block = mjoin (de_bytes <$> es) ++ rest → (length es <= count)%nat →
  length block = bs →
  parse_descriptor_loop count off bs block =
  es ++ parse_descriptor_loop (count - length es) (off + sizeof_entry * length es) bs block.
Proof.
  induction 1 as [|e es He Hes IH]; intros count off rest Hdrop Hc Hl.
  - simpl. rewrite Nat.sub_0_r. f_equal. lia.
  - destruct count as [|count]; simpl in Hc; [lia|]. cbn [parse_descriptor_loop].
    rewrite fmap_cons, mjoin_cons in Hdrop. rewrite <- app_assoc in Hdrop.
    assert (Hlen : (off + sizeof_entry <= bs)%nat).
    { apply (f_equal length) in Hdrop. rewrite length_drop, length_app, length_de_bytes in Hdrop.
      unfold sizeof_entry in *. lia. }
    rewrite (proj2 (Nat.ltb_ge bs _)) by lia. rewrite (proj2 (Nat.ltb_ge (length block) _)) by lia.
    rewrite sub_drop_0, Hdrop, sub_prefix by (by rewrite length_de_bytes).
    rewrite de_read_bytes by done. cbn [length app]. f_equal.
    rewrite (IH count _ rest); [|  |lia|done].
    + f_equal. f_equal. lia.
    + rewrite <- drop_drop, Hdrop. rewrite drop_app_ge by (rewrite length_de_bytes; lia).
      by rewrite length_de_bytes, Nat.sub_diag, drop_0.
Qed.

(** Entries past the capacity of one block are silently dropped; the count
    field still names all of them. *)
Lemma parse_desc_image bs seq tx_id es :
  (sizeof_hdr + 4 <= bs)%nat → Forall de_ok es → in_width 32 (Z.of_nat (length es)) →
  parse_descriptor_entries (desc_image bs seq tx_id es) bs = take (desc_capacity bs) es.
Proof.
  intros Hbs Hes Hn. unfold parse_descriptor_entries.
  rewrite length_desc_image by done. rewrite (proj2 (Nat.ltb_ge _ _)) by lia.
  assert (Hc : Z.to_nat (le_at sizeof_hdr 4 (desc_image bs seq tx_id es)) = length es).
  { unfold desc_image. rewrite le_at_skip by (rewrite length_hdr_image; lia).
    rewrite length_hdr_image, Nat.sub_diag, le_at_head by solve_width. lia. }
  rewrite Hc. set (k := desc_capacity bs).
  rewrite (parse_descriptor_loop_app bs _ (take k es)) with
    (rest := replicate (bs - (sizeof_hdr + 4) - length (mjoin (de_bytes <$> take k es))) 0).
  - destruct (Nat.le_gt_cases (length es) k) as [Hle|Hgt].
    + rewrite length_take, Nat.min_r, Nat.sub_diag by lia. cbn. by rewrite app_nil_r.
    + rewrite length_take, Nat.min_l by lia. destruct (length es - k)%nat; cbn [parse_descriptor_loop];
        [by rewrite app_nil_r|].
      rewrite (proj2 (Nat.ltb_lt bs _)); [by rewrite app_nil_r|].
      pose proof (Nat.mul_succ_div_gt (bs - (sizeof_hdr + 4)) sizeof_entry).
      subst k. unfold desc_capacity, sizeof_entry in *. lia.
  - by apply Forall_take.
  - unfold desc_image. fold k. rewrite app_assoc, drop_app_ge.
    + rewrite length_app, length_hdr_image. autorewrite with edos. by rewrite Nat.sub_diag, drop_0.
    + rewrite length_app, length_hdr_image. autorewrite with edos. lia.
  - rewrite length_take. lia.
  - by apply length_desc_image.
Qed.

(** The revoke loop terminates within the block: more fuel changes nothing. *)
Lemma parse_revoke_fuel bs block fuel1 : ∀ fuel2 off,
  (length block <= off + fuel1)%nat → (fuel1 <= fuel2)%nat →
  parse_revoke_loop fuel1 off bs block = parse_revoke_loop fuel2 off bs block.
Proof.
  induction fuel1 as [|f IH]; intros fuel2 off H1 H2.
  - destruct fuel2; [done|]. cbn [parse_revoke_loop].
    rewrite (proj2 (Nat.leb_gt _ (length block))) by (unfold sizeof_entry; lia).
    by rewrite andb_false_r.
  - destruct fuel2 as [|f2]; [lia|]. cbn [parse_revoke_loop].
    destruct (_ && _); [|done]. destruct (_ && _); [done|].
    f_equal. apply IH; unfold sizeof_entry; lia.
Qed.

Lemma parse_revoke_loop_app bs block es :
  Forall re_ok es → Forall re_nonzero es → ∀ fuel off rest,
  drop off block = mjoin (re_bytes <$> es) ++ rest → (length es <= fuel)%nat →
  length block = bs →
  parse_revoke_loop fuel off bs block =
  es ++ parse_revoke_loop (fuel - length es) (off + sizeof_entry * length es) bs block.
Proof.
  induction 1 as [|e es He Hes IH]; intros Hnz fuel off rest Hdrop Hc Hl.
  - simpl. rewrite Nat.sub_0_r. f_equal. lia.
  - destruct fuel as [|fuel]; simpl in Hc; [lia|]. cbn [parse_revoke_loop].
    apply Forall_cons in Hnz as [Hnz1 Hnz].
    rewrite fmap_cons, mjoin_cons in Hdrop. rewrite <- app_assoc in Hdrop.
    assert (Hlen : (off + sizeof_entry <= bs)%nat).
    { apply (f_equal length) in Hdrop. rewrite length_drop, length_app, length_re_bytes in Hdrop.
      unfold sizeof_entry in *. lia. }
    rewrite Hl, (proj2 (Nat.leb_le _ _)) by lia. cbn [andb].
    rewrite sub_drop_0, Hdrop, sub_prefix by (by rewrite length_re_bytes).
    rewrite re_read_bytes by done.
    replace ((re_fs_block e =? 0) && (re_seq e =? 0)) with false
      by (unfold re_nonzero in Hnz1; lia).
    cbn [length app]. f_equal. rewrite (IH Hnz fuel _ rest); [|  |lia|done].
    + f_equal. f_equal. lia.
    + rewrite <- drop_drop, Hdrop. rewrite drop_app_ge by (rewrite length_re_bytes; lia).
      by rewrite length_re_bytes, Nat.sub_diag, drop_0.
Qed.

Lemma le_num_zeros n : le_num (replicate n 0) = 0.
Proof. induction n; [done|]. cbn [replicate le_num]. lia. Qed.

(** Zero padding, or the end of the block, ends the revoke list. *)
Lemma parse_revoke_loop_zeros bs block fuel off n :
  drop off block = replicate n 0 → parse_revoke_loop fuel off bs block = [].
Proof.
  intros Hd. destruct fuel as [|f]; [done|]. cbn [parse_revoke_loop].
  destruct (_ && _) eqn:E; [|done]. to_lia.
  rewrite sub_drop_0, Hd.
  assert (Hz : ∀ o k, le_at o k (sub 0 sizeof_entry (replicate n 0)) = 0).
  { intros o k. unfold le_at, sub. rewrite drop_0, take_replicate, drop_replicate, take_replicate.
    apply le_num_zeros. }
  unfold re_read. rewrite !Hz. reflexivity.
Qed.

Lemma parse_revoke_image bs seq tx_id es :
  (sizeof_hdr <= bs)%nat → Forall re_ok es → Forall re_nonzero es →
  parse_revoke_entries (revoke_image bs seq tx_id es) bs = take (revoke_capacity bs) es.
Proof.
  intros Hbs Hes Hnz. unfold parse_revoke_entries. rewrite length_revoke_image by done.
  set (k := revoke_capacity bs).
  assert (Hd : drop sizeof_hdr (revoke_image bs seq tx_id es) =
    mjoin (re_bytes <$> take k es) ++
    replicate (bs - sizeof_hdr - length (mjoin (re_bytes <$> take k es))) 0).
  { unfold revoke_image. fold k. rewrite drop_app_ge by (rewrite length_hdr_image; lia).
    by rewrite length_hdr_image, Nat.sub_diag, drop_0. }
  rewrite (parse_revoke_loop_app bs _ (take k es)) with
    (rest := replicate (bs - sizeof_hdr - length (mjoin (re_bytes <$> take k es))) 0).
  - erewrite parse_revoke_loop_zeros; [by rewrite app_nil_r|].
    rewrite <- drop_drop, Hd, drop_app_ge by (rewrite length_mjoin_entries by apply length_re_bytes; lia).
    rewrite length_mjoin_entries by apply length_re_bytes. rewrite Nat.sub_diag. reflexivity.
  - by apply Forall_take.
  - by apply Forall_take.
  - exact Hd.
  - rewrite length_take. subst k. unfold revoke_capacity.
    pose proof (Nat.Div0.mul_div_le (bs - sizeof_hdr) sizeof_entry). unfold sizeof_entry in *. lia.
  - by apply length_revoke_image.
Qed.

Lemma commit_crc_image bs seq tx_id crc :
  (sizeof_hdr + 4 <= bs)%nat → in_width 32 crc →
  commit_payload_crc (commit_image bs seq tx_id crc) = crc.
Proof.
  intros Hbs Hc. unfold commit_payload_crc. rewrite length_commit_image by done.
  rewrite (proj2 (Nat.ltb_ge _ _)) by lia. unfold commit_image.
  rewrite le_at_skip by (rewrite length_hdr_image; lia).
  rewrite length_hdr_image, Nat.sub_diag. by apply le_at_head.
Qed.

Lemma jsb_read_bytes sb rest : jsb_ok sb → jsb_read (jsb_bytes sb ++ rest) = sb.
Proof.
  destruct sb as [m v bc bs ts hs tb hb c r]. intros (?&?&?&?&?&?&?&?&?&Hr).
  unfold jsb_read, jsb_bytes; cbn [jsb_magic jsb_version jsb_block_count jsb_block_size
    jsb_tail_seq jsb_head_seq jsb_tail_block jsb_head_block jsb_crc32 jsb_reserved] in *.
  rewrite <- !app_assoc. f_equal; [decode_field; reflexivity..|].
  rewrite !sub_app_r by (autorewrite with edos; lia). autorewrite with edos.
  by apply sub_prefix.
Qed.

(** ** Properties *)

(** A descriptor block names exactly the entries it was built from, in
    order, up to the number one block can hold: building never panics, fills
    the block, and parsing gives back the first [(block_size - 28) / 16]
    entries together with the transaction's sequence and identifier. *)
Theorem descriptor_roundtrip bs seq tx_id es :
  (sizeof_hdr + 4 <= bs)%nat → in_width 64 seq → in_width 64 tx_id →
  Forall de_ok es → in_width 32 (Z.of_nat (length es)) →
  ∃ block, build_descriptor_block bs seq tx_id es = Ret block ∧ length block = bs ∧
    parse_header block = Some (mk_hdr JOURNAL_BLOCK_MAGIC (kind_u8 Descriptor) [0; 0; 0] seq tx_id) ∧
    parse_descriptor_entries block bs = take (desc_capacity bs) es.
Proof.
  intros. exists (desc_image bs seq tx_id es).
  rewrite build_descriptor_image, length_desc_image, parse_desc_image by done.
  split_and!; [done..| |done]. by apply parse_header_image.
Qed.

Lemma descriptor_roundtrip_witness :
  ∃ block, build_descriptor_block 64 7 9 [mk_de 42 0 0; mk_de 99 1 0; mk_de 5 0 0] = Ret block ∧
    length block = 64%nat ∧
    parse_header block = Some (mk_hdr JOURNAL_BLOCK_MAGIC (kind_u8 Descriptor) [0; 0; 0] 7 9) ∧
    parse_descriptor_entries block 64 = [mk_de 42 0 0; mk_de 99 1 0].
Proof.
  apply (descriptor_roundtrip 64 7 9 [mk_de 42 0 0; mk_de 99 1 0; mk_de 5 0 0]);
    repeat constructor; unfold in_width, sizeof_hdr; simpl; lia.
Defined.

(** A revoke block gives back the entries it was built from, in order, up
    to the number one block can hold, provided none is the all-zero entry the
    reader takes for the end of the list. *)
Theorem revoke_roundtrip bs seq tx_id es :
  (sizeof_hdr <= bs)%nat → in_width 64 seq → in_width 64 tx_id →
  Forall re_ok es → Forall re_nonzero es →
  ∃ block, build_revoke_block bs seq tx_id es = Ret block ∧ length block = bs ∧
    parse_header block = Some (mk_hdr JOURNAL_BLOCK_MAGIC (kind_u8 Revoke) [0; 0; 0] seq tx_id) ∧
    parse_revoke_entries block bs = take (revoke_capacity bs) es.
Proof.
  intros. exists (revoke_image bs seq tx_id es).
  rewrite build_revoke_image, length_revoke_image, parse_revoke_image by done.
  split_and!; [done..| |done]. by apply parse_header_image.
Qed.

Lemma revoke_roundtrip_witness :
  ∃ block, build_revoke_block 64 5 5 [mk_re 1234 5; mk_re 0 5] = Ret block ∧ length block = 64%nat ∧
    parse_header block = Some (mk_hdr JOURNAL_BLOCK_MAGIC (kind_u8 Revoke) [0; 0; 0] 5 5) ∧
    parse_revoke_entries block 64 = [mk_re 1234 5; mk_re 0 5].
Proof.
  apply (revoke_roundtrip 64 5 5 [mk_re 1234 5; mk_re 0 5]);
    repeat constructor; unfold in_width, sizeof_hdr, re_nonzero; simpl; lia.
Defined.

End JournalFormat.
