(* ===== verification/JournalScan.v ===== *)
(** * Scanning the journal ring (libs/efs-common/src/journal_scan.rs)

    [scan_committed] walks the ring from the superblock's tail and collects the
    committed transactions; [replay_write] turns one entry into a home-block
    write. The block reader is a parameter, as in the source. *)

From S2P Require Import Prelude Crc32 BTree JournalFormat.
Import JournalFormat.

Module JournalScan.

Record ScannedTx := mk_stx {
  st_seq : Z;
  st_entries : list DescriptorEntry;
  st_data_blocks : list (list Z)
}.

Inductive ScanStop :=
| DegenerateRing
| NotJournalBlock
| NotDescriptor (kind : Z)
| SequenceBreak (expected found : Z)
| PartialTx (seq : Z)
| CommitCrcMismatch (seq found expected : Z)
| RingBound (expected : Z).

Record JournalScan := mk_scan {
  js_txs : list ScannedTx;
  js_revokes : bmap Z Z;
  js_next_seq : Z;
  js_next_block : Z;
  js_ring_blocks : Z;
  js_stop : ScanStop
}.

Definition is_dirty (s : JournalScan) : bool :=
  match js_txs s with [] => false | _ => true end.

Definition set_stop (s : JournalScan) (st : ScanStop) : JournalScan :=
  mk_scan (js_txs s) (js_revokes s) (js_next_seq s) (js_next_block s) (js_ring_blocks s) st.

(** [scan.revokes.entry(r.fs_block).or_insert(0)], then keep the maximum. *)
Definition merge_revoke (m : bmap Z Z) (r : RevokeEntry) : bmap Z Z :=
  let existing := default 0 (bget (re_fs_block r) m) in
  binsert (re_fs_block r) (if re_seq r >? existing then re_seq r else existing) m.

Definition merge_revokes (m : bmap Z Z) (rs : list RevokeEntry) : bmap Z Z :=
  fold_left merge_revoke rs m.

(** The home-block write entry [index] calls for. [None] when the index is out
    of range or a transaction at or after [tx]'s sequence revoked the block. *)
Definition replay_write (tx : ScannedTx) (index : nat) (revokes : bmap Z Z)
    : option (Z * list Z) :=
  entry ← st_entries tx !! index;
  let fs_block := de_fs_block entry in
  let go :=
    data ← st_data_blocks tx !! index;
    let data :=
      if negb (Z.land (de_flags entry) DESC_FLAG_ESCAPED =? 0) && (4 <=? length data)%nat
      then splice 0 (le_bytes 4 JOURNAL_BLOCK_MAGIC) data else data in
    Some (fs_block, data) in
  match bget fs_block revokes with
  | Some revoke_seq => if revoke_seq >=? st_seq tx then None else go
  | None => go
  end.

Section Scan.
Context {E : Type}.
Context (tail_seq tail_block ring_size : Z) (block_size : nat).
Context (read_journal_block : Z → result E (list Z)).

Definition read_ring_block (ring_idx : Z) : result E (list Z) :=
  read_journal_block (ring_idx mod ring_size + 1).

(** The [for _ in 0..n_data] loop. *)
Fixpoint read_data_blocks (n : nat) (ring_pos : Z) : result E (list (list Z)) :=
  match n with
  | O => Ok []
  | S n' =>
      b ← read_ring_block ring_pos;
      bs ← read_data_blocks n' (ring_pos + 1);
      Ok (b :: bs)
  end.

Definition header_is (block : list Z) (p : JournalBlockHeader → bool) : bool :=
  match parse_header block with Some h => p h | None => false end.

(** One turn of the loop: stop, or continue at a new position. *)
Inductive scan_turn :=
| Stop (s : JournalScan)
| Continue (ring_pos expected_seq : Z) (s : JournalScan).

(** The part of the turn after the data blocks have been read: the optional
    revoke block, the commit block and its checksum. *)
Definition scan_finish (desc_seq desc_tx_id ring_pos : Z) (entries : list DescriptorEntry)
    (data_blocks : list (list Z)) (scan : JournalScan) : result E scan_turn :=
  let n_data := Z.of_nat (length entries) in
  next_block ← read_ring_block ring_pos;
  let has_revoke :=
    header_is next_block (λ nh, (hdr_kind nh =? kind_u8 Revoke) && (hdr_seq nh =? desc_seq)) in
  let scan :=
    if has_revoke then
      mk_scan (js_txs scan) (merge_revokes (js_revokes scan) (parse_revoke_entries next_block block_size))
        (js_next_seq scan) (js_next_block scan) (js_ring_blocks scan) (js_stop scan)
    else scan in
  let ring_pos := if has_revoke then ring_pos + 1 else ring_pos in
  commit_block ← (if has_revoke then read_ring_block ring_pos else Ok next_block);
  let committed :=
    header_is commit_block (λ ch, (hdr_kind ch =? kind_u8 Commit) && (hdr_seq ch =? desc_seq)
                                  && (hdr_tx_id ch =? desc_tx_id)) in
  if negb committed then Ok (Stop (set_stop scan (PartialTx desc_seq)))
  else
    let commit_crc := commit_payload_crc commit_block in
    let expected_crc := commit_block_checksum (mjoin data_blocks) in
    if negb (commit_crc =? expected_crc)
    then Ok (Stop (set_stop scan (CommitCrcMismatch desc_seq commit_crc expected_crc)))
    else
      let ring_pos := ring_pos + 1 in
      let next_seq := desc_seq + 1 in
      Ok (Continue ring_pos next_seq
        (mk_scan (js_txs scan ++ [mk_stx desc_seq entries data_blocks]) (js_revokes scan)
           next_seq ring_pos
           (js_ring_blocks scan + (1 + n_data + (if has_revoke then 1 else 0) + 1))
           (js_stop scan))).

Definition scan_one (ring_pos expected_seq : Z) (scan : JournalScan) : result E scan_turn :=
  if ring_pos >=? tail_block + ring_size then Ok (Stop (set_stop scan (RingBound expected_seq)))
  else
    block ← read_ring_block ring_pos;
    match parse_header block with
    | None => Ok (Stop (set_stop scan NotJournalBlock))
    | Some hdr =>
        if negb (hdr_kind hdr =? kind_u8 Descriptor)
        then Ok (Stop (set_stop scan (NotDescriptor (hdr_kind hdr))))
        else if negb (hdr_seq hdr =? expected_seq)
        then Ok (Stop (set_stop scan (SequenceBreak expected_seq (hdr_seq hdr))))
        else
          let entries := parse_descriptor_entries block block_size in
          data_blocks ← read_data_blocks (length entries) (ring_pos + 1);
          scan_finish (hdr_seq hdr) (hdr_tx_id hdr) (ring_pos + 1 + Z.of_nat (length entries))
            entries data_blocks scan
    end.

(** The [loop]. [None] is running out of fuel, which [scan_terminates] rules
    out for the fuel [scan_committed] passes. *)
Fixpoint scan_loop (fuel : nat) (ring_pos expected_seq : Z) (scan : JournalScan)
    : option (result E JournalScan) :=
  match fuel with
  | O => None
  | S fuel' =>
      match scan_one ring_pos expected_seq scan with
      | Err e => Some (Err e)
      | Ok (Stop s) => Some (Ok s)
      | Ok (Continue pos seq s) => scan_loop fuel' pos seq s
      end
  end.

Definition empty_scan : JournalScan := mk_scan [] [] tail_seq tail_block 0 DegenerateRing.

Definition scan_committed : option (result E JournalScan) :=
  if ring_size =? 0 then Some (Ok empty_scan)
  else scan_loop (S (Z.to_nat ring_size)) tail_block tail_seq empty_scan.

End Scan.
Arguments Stop : clear implicits.
Arguments Continue : clear implicits.
Arguments read_ring_block {E} ring_size read_journal_block ring_idx.
Arguments read_data_blocks {E} ring_size read_journal_block n ring_pos.

(** ** Termination *)

Section Termination.
Context {E : Type}.
Context (tail_seq tail_block ring_size : Z) (block_size : nat).
Context (read : Z → result E (list Z)).

Lemma scan_finish_advances ds dt pos es db s pos' seq' s' :
  scan_finish ring_size block_size read ds dt pos es db s = Ok (Continue pos' seq' s') →
  pos < pos' ∧ seq' = ds + 1.
Proof.
  unfold scan_finish.
  destruct (read_ring_block ring_size read pos); cbn [mbind result_bind]; [|done].
  destruct (header_is a _).
  - destruct (read_ring_block ring_size read (pos + 1)); cbn [mbind result_bind]; [|done].
    destruct (negb _); [done|]. destruct (negb _); [done|]. intros [= <- <- <-]. lia.
  - cbn [mbind result_bind]. destruct (negb _); [done|]. destruct (negb _); [done|].
    intros [= <- <- <-]. lia.
Qed.

Lemma scan_one_advances pos seq s pos' seq' s' :
  scan_one tail_block ring_size block_size read pos seq s = Ok (Continue pos' seq' s') →
  pos + 2 <= pos' ∧ pos < tail_block + ring_size ∧ seq' = seq + 1.
Proof.
  unfold scan_one. destruct (pos >=? _) eqn:Hb; [done|].
  destruct (read_ring_block ring_size read pos); cbn [mbind result_bind]; [|done].
  destruct (parse_header a) as [h|]; [|done].
  destruct (negb _); [done|]. destruct (negb _) eqn:Es; [done|].
  destruct (read_data_blocks _ _ _ _); cbn [mbind result_bind]; [|done].
  intros H. apply scan_finish_advances in H. to_lia. lia.
Qed.

Lemma scan_loop_terminates fuel pos seq s :
  Z.max 0 (tail_block + ring_size - pos) < Z.of_nat fuel →
  scan_loop tail_block ring_size block_size read fuel pos seq s ≠ None.
Proof.
  revert pos seq s; induction fuel as [|f IH]; intros pos seq s Hf; cbn [scan_loop].
  - lia.
  - destruct (scan_one _ _ _ _ _ _ _) as [[s'|pos' seq' s']|e] eqn:E1; [done| |done].
    apply scan_one_advances in E1. apply IH. lia.
Qed.
End Termination.

(** ** Transactions laid out on the ring *)

(** A transaction as the committer writes it: descriptor, data, an optional
    revoke block, commit. *)
Record jtx := mk_jtx {
  j_seq : Z;
  j_tx_id : Z;
  j_entries : list DescriptorEntry;
  j_data : list (list Z);
  j_revokes : list RevokeEntry
}.

Definition revoke_blocks (bs : nat) (t : jtx) : list (list Z) :=
  match j_revokes t with
  | [] => []
  | rs => [revoke_image bs (j_seq t) (j_tx_id t) rs]
  end.

(** What goes out before the flush barrier. *)
Definition body_blocks (bs : nat) (t : jtx) : list (list Z) :=
  desc_image bs (j_seq t) (j_tx_id t) (j_entries t) :: j_data t ++ revoke_blocks bs t.

Definition commit_of (bs : nat) (t : jtx) : list Z :=
  commit_image bs (j_seq t) (j_tx_id t) (commit_block_checksum (mjoin (j_data t))).

Definition tx_blocks (bs : nat) (t : jtx) : list (list Z) := body_blocks bs t ++ [commit_of bs t].

Definition tx_len (bs : nat) (t : jtx) : Z := Z.of_nat (length (tx_blocks bs t)).

(** A transaction one descriptor and one revoke block can represent. *)
Record jtx_ok (bs : nat) (t : jtx) : Prop := {
  jok_bs : (sizeof_hdr + 4 <= bs)%nat;
  jok_seq : in_width 64 (j_seq t);
  jok_tx_id : in_width 64 (j_tx_id t);
  jok_entries : Forall de_ok (j_entries t);
  jok_count : (length (j_entries t) <= desc_capacity bs)%nat;
  jok_count32 : in_width 32 (Z.of_nat (length (j_entries t)));
  jok_data : length (j_data t) = length (j_entries t);
  jok_bytes : Forall (Forall byte_ok) (j_data t);
  jok_revokes : Forall re_ok (j_revokes t);
  jok_nonzero : Forall re_nonzero (j_revokes t);
  jok_rcount : (length (j_revokes t) <= revoke_capacity bs)%nat
}.

Definition scanned (t : jtx) : ScannedTx := mk_stx (j_seq t) (j_entries t) (j_data t).

(** The scan after accepting [t] at ring position [pos]. *)
Definition accept (bs : nat) (pos : Z) (s : JournalScan) (t : jtx) : JournalScan :=
  mk_scan (js_txs s ++ [scanned t]) (merge_revokes (js_revokes s) (j_revokes t))
    (j_seq t + 1) (pos + tx_len bs t) (js_ring_blocks s + tx_len bs t) (js_stop s).

Fixpoint accept_all (bs : nat) (pos : Z) (s : JournalScan) (ts : list jtx) : JournalScan :=
  match ts with
  | [] => s
  | t :: ts' => accept_all bs (pos + tx_len bs t) (accept bs pos s t) ts'
  end.

Definition total_len (bs : nat) (ts : list jtx) : Z := foldr (λ t n, tx_len bs t + n) 0 ts.

(** Consecutive sequence numbers from [seq]. *)
Fixpoint seqs_from (seq : Z) (ts : list jtx) : Prop :=
  match ts with
  | [] => True
  | t :: ts' => j_seq t = seq ∧ seqs_from (seq + 1) ts'
  end.

Lemma tx_len_alt bs t :
  tx_len bs t = 1 + Z.of_nat (length (j_data t)) + (match j_revokes t with [] => 0 | _ => 1 end) + 1.
Proof.
  unfold tx_len, tx_blocks, body_blocks, revoke_blocks. rewrite length_app. cbn [length].
  rewrite length_app. destruct (j_revokes t); cbn [length]; lia.
Qed.

Lemma tx_len_ge2 bs t : 2 <= tx_len bs t.
Proof. rewrite tx_len_alt. destruct (j_revokes t); lia. Qed.

Lemma total_len_nonneg bs ts : 0 <= total_len bs ts.
Proof. induction ts as [|t ts IH]; simpl; [lia|]. pose proof (tx_len_ge2 bs t). lia. Qed.

Lemma total_len_app bs ts1 ts2 : total_len bs (ts1 ++ ts2) = total_len bs ts1 + total_len bs ts2.
Proof. induction ts1; simpl; lia. Qed.

Lemma seqs_from_app seq ts1 ts2 :
  seqs_from seq (ts1 ++ ts2) ↔ seqs_from seq ts1 ∧ seqs_from (seq + Z.of_nat (length ts1)) ts2.
Proof.
  revert seq; induction ts1 as [|t ts IH]; intros seq; simpl.
  - rewrite Z.add_0_r. tauto.
  - rewrite IH. replace (seq + 1 + Z.of_nat (length ts)) with (seq + Z.of_nat (S (length ts))) by lia.
    tauto.
Qed.

Lemma header_is_image (k : JournalBlockKind) seq tx_id rest p :
  in_width 64 seq → in_width 64 tx_id →
  header_is (hdr_image k seq tx_id ++ rest) p
  = p (mk_hdr JOURNAL_BLOCK_MAGIC (kind_u8 k) [0; 0; 0] seq tx_id).
Proof. intros. unfold header_is. by rewrite parse_header_image. Qed.

Lemma commit_of_header bs t p :
  jtx_ok bs t →
  header_is (commit_of bs t) p
  = p (mk_hdr JOURNAL_BLOCK_MAGIC (kind_u8 Commit) [0; 0; 0] (j_seq t) (j_tx_id t)).
Proof. intros []. by apply header_is_image. Qed.

Lemma commit_of_crc bs t :
  jtx_ok bs t → commit_payload_crc (commit_of bs t) = commit_block_checksum (mjoin (j_data t)).
Proof. intros []. apply commit_crc_image; [done|]. by apply Crc32.crc32_width, Forall_join. Qed.

Lemma revoke_image_header bs t rs p :
  jtx_ok bs t →
  header_is (revoke_image bs (j_seq t) (j_tx_id t) rs) p
  = p (mk_hdr JOURNAL_BLOCK_MAGIC (kind_u8 Revoke) [0; 0; 0] (j_seq t) (j_tx_id t)).
Proof. intros []. by apply header_is_image. Qed.

(** The accumulated scan in closed form. *)
Lemma accept_all_spec bs ts : ∀ pos s,
  js_next_block s = pos → seqs_from (js_next_seq s) ts →
  accept_all bs pos s ts =
  mk_scan (js_txs s ++ (scanned <$> ts)) (merge_revokes (js_revokes s) (mjoin (j_revokes <$> ts)))
    (js_next_seq s + Z.of_nat (length ts)) (pos + total_len bs ts)
    (js_ring_blocks s + total_len bs ts) (js_stop s).
Proof.
  induction ts as [|t ts IH]; intros pos s Hpos Hseq.
  - destruct s; simpl in *. subst. rewrite app_nil_r, !Z.add_0_r. done.
  - destruct Hseq as [Hs Hseq]. cbn [accept_all]. rewrite IH.
    + unfold accept. cbn [js_txs js_revokes js_next_seq js_next_block js_ring_blocks js_stop total_len foldr].
      fold (total_len bs ts). rewrite fmap_cons, <- app_assoc, fmap_cons, mjoin_cons, Hs.
      unfold merge_revokes. rewrite fold_left_app. f_equal; cbn [length]; lia.
    + done.
    + cbn [accept js_next_seq]. by rewrite Hs.
Qed.

Lemma length_txs_le bs ts : 2 * Z.of_nat (length ts) <= total_len bs ts.
Proof. induction ts as [|t ts IH]; simpl; [lia|]. pose proof (tx_len_ge2 bs t). lia. Qed.

Section Layout.
Context {E : Type}.
Context (tail_seq tail_block ring_size : Z) (bs : nat).
Context (read : Z → result E (list Z)) (ring : Z → list Z).
Context (Hring : 0 < ring_size).
Context (Hread : ∀ i, 0 <= i < ring_size → read (i + 1) = Ok (ring i)).

(** The block at a ring position; positions count up forever and wrap. *)
Definition at_pos (pos : Z) : list Z := ring (pos mod ring_size).

Definition holds (pos : Z) (blocks : list (list Z)) : Prop :=
  ∀ (i : nat) b, blocks !! i = Some b → at_pos (pos + Z.of_nat i) = b.

Lemma read_at pos : read_ring_block ring_size read pos = Ok (at_pos pos).
Proof. unfold read_ring_block, at_pos. apply Hread. by apply Z.mod_pos_bound. Qed.

Lemma holds_app pos a b :
  holds pos (a ++ b) ↔ holds pos a ∧ holds (pos + Z.of_nat (length a)) b.
Proof.
  unfold holds. split.
  - intros H. split; intros i x Hi.
    + apply H. by apply lookup_app_l_Some.
    + replace (pos + Z.of_nat (length a) + Z.of_nat i) with (pos + Z.of_nat (length a + i)) by lia.
      apply H. rewrite lookup_app_r by lia. by replace (length a + i - length a)%nat with i by lia.
  - intros [Ha Hb] i x Hi. apply lookup_app_Some in Hi as [Hi|[Hge Hi]]; [by apply Ha|].
    apply Hb in Hi. rewrite <- Hi. f_equal. lia.
Qed.

Lemma holds_cons pos b l : holds pos (b :: l) ↔ at_pos pos = b ∧ holds (pos + 1) l.
Proof.
  change (b :: l) with ([b] ++ l). rewrite holds_app. simpl length. unfold holds at 1. split.
  - intros [H1 H2]. split; [|done]. rewrite <- (H1 O b) by done. f_equal. lia.
  - intros [H1 H2]. split; [|done]. intros [|i] x Hi; simpl in Hi; [|done].
    injection Hi as <-. rewrite <- H1. f_equal. lia.
Qed.

Lemma read_data_holds pos l :
  holds pos l → read_data_blocks ring_size read (length l) pos = Ok l.
Proof.
  revert pos; induction l as [|b l IH]; intros pos H; [done|].
  apply holds_cons in H as [H1 H2]. cbn [length read_data_blocks]. rewrite read_at.
  cbn [mbind result_bind]. rewrite IH by done. cbn. by rewrite H1.
Qed.

Ltac scan_simpl :=
  cbn [mbind result_bind negb andb hdr_kind hdr_seq hdr_tx_id js_txs js_revokes js_next_seq
       js_next_block js_ring_blocks js_stop];
  rewrite ?Z.eqb_refl; cbn [negb andb].

Lemma scan_finish_tx pos s t :
  jtx_ok bs t → holds pos (revoke_blocks bs t ++ [commit_of bs t]) →
  scan_finish ring_size bs read (j_seq t) (j_tx_id t) pos (j_entries t) (j_data t) s
  = Ok (Continue (pos - 1 - Z.of_nat (length (j_data t)) + tx_len bs t) (j_seq t + 1)
          (accept bs (pos - 1 - Z.of_nat (length (j_data t))) s t)).
Proof.
  intros Hok Hh. unfold scan_finish, accept. rewrite read_at, tx_len_alt. scan_simpl.
  unfold revoke_blocks in Hh. destruct (j_revokes t) as [|r rs] eqn:Ers.
  - apply holds_cons in Hh as [Hc _]. rewrite Hc, commit_of_header by done. scan_simpl.
    change (kind_u8 Commit =? kind_u8 Revoke) with false. scan_simpl.
    rewrite commit_of_header, commit_of_crc by done. scan_simpl.
    unfold scanned. rewrite (jok_data _ _ Hok).
    do 2 f_equal; [lia|]. f_equal; lia.
  - apply holds_cons in Hh as [Hr Hh]. apply holds_cons in Hh as [Hc _].
    rewrite Hr, revoke_image_header by done. scan_simpl.
    rewrite read_at, Hc. scan_simpl.
    rewrite commit_of_header, commit_of_crc by done. scan_simpl.
    destruct Hok. rewrite parse_revoke_image, take_ge
      by (rewrite <- ?Ers; first [done | unfold sizeof_hdr in *; lia]).
    unfold scanned. rewrite jok_data0. do 2 f_equal; [lia|]. f_equal; lia.
Qed.

(** One accepted transaction. *)
Lemma scan_one_tx pos s t :
  jtx_ok bs t → holds pos (tx_blocks bs t) → pos < tail_block + ring_size →
  scan_one tail_block ring_size bs read pos (j_seq t) s
  = Ok (Continue (pos + tx_len bs t) (j_seq t + 1) (accept bs pos s t)).
Proof.
  intros Hok Hh Hpos. unfold tx_blocks, body_blocks in Hh.
  rewrite <- app_comm_cons, <- app_assoc in Hh.
  apply holds_cons in Hh as [Hd Hh]. apply holds_app in Hh as [Hda Hr].
  unfold scan_one. replace (pos >=? tail_block + ring_size) with false by lia.
  rewrite read_at, Hd. scan_simpl. pose proof Hok as [].
  unfold desc_image at 1. rewrite parse_header_image by done. scan_simpl.
  rewrite parse_desc_image, take_ge by done.
  rewrite <- jok_data0 in *. rewrite read_data_holds by done. scan_simpl.
  rewrite scan_finish_tx by done.
  by replace (pos + 1 + Z.of_nat (length (j_data t)) - 1 - Z.of_nat (length (j_data t))) with pos by lia.
Qed.

Lemma scan_loop_txs ts : ∀ fuel pos seq s,
  Forall (jtx_ok bs) ts → seqs_from seq ts → holds pos (mjoin (tx_blocks bs <$> ts)) →
  pos + total_len bs ts <= tail_block + ring_size →
  scan_loop tail_block ring_size bs read (length ts + fuel) pos seq s
  = scan_loop tail_block ring_size bs read fuel (pos + total_len bs ts)
      (seq + Z.of_nat (length ts)) (accept_all bs pos s ts).
Proof.
  induction ts as [|t ts IH]; intros fuel pos seq s Hok Hseq Hh Hlen.
  - simpl. f_equal; lia.
  - apply Forall_cons in Hok as [Ht Hts]. destruct Hseq as [<- Hseq].
    rewrite fmap_cons, mjoin_cons in Hh. apply holds_app in Hh as [H1 H2].
    fold (tx_len bs t) in H2. cbn [total_len foldr] in Hlen. fold (total_len bs ts) in Hlen.
    pose proof (tx_len_ge2 bs t). pose proof (total_len_nonneg bs ts).
    cbn [length Nat.add scan_loop]. rewrite scan_one_tx by (done || lia).
    rewrite IH by (done || lia). cbn [total_len foldr accept_all]. fold (total_len bs ts).
    f_equal; lia.
Qed.
(** A block is the commit block of some transaction numbered [seq]. *)
Definition commits_seq (seq : Z) (b : list Z) : bool :=
  header_is b (λ h, (hdr_kind h =? kind_u8 Commit) && (hdr_seq h =? seq)).

(** A block opens a transaction numbered [seq]. *)
Definition opens_seq (seq : Z) (b : list Z) : bool :=
  header_is b (λ h, (hdr_kind h =? kind_u8 Descriptor) && (hdr_seq h =? seq)).

(** No block of the ring commits [seq] or a later sequence. *)
Definition no_commit (seq : Z) : Prop :=
  ∀ i seq', 0 <= i < ring_size → seq <= seq' → commits_seq seq' (ring i) = false.

Lemma no_commit_at seq pos : no_commit seq → commits_seq seq (at_pos pos) = false.
Proof. intros H. apply H; [by apply Z.mod_pos_bound|lia]. Qed.

Lemma commits_seq_weaken seq tx_id b :
  commits_seq seq b = false →
  header_is b (λ ch, (hdr_kind ch =? kind_u8 Commit) && (hdr_seq ch =? seq)
                     && (hdr_tx_id ch =? tx_id)) = false.
Proof.
  unfold commits_seq, header_is. destruct (parse_header b); [|done]. by intros ->.
Qed.

Lemma read_data_ok n pos :
  ∃ db, read_data_blocks ring_size read n pos = Ok db.
Proof.
  revert pos; induction n as [|n IH]; intros pos; cbn [read_data_blocks]; [eauto|].
  rewrite read_at. cbn [mbind result_bind]. destruct (IH (pos + 1)) as [db ->]. cbn. eauto.
Qed.

(** With no commit block for the expected sequence anywhere on the ring, the
    walk ends here: nothing more is accepted, and only the revoke block of an
    open transaction can still touch the revoke table. *)
Lemma scan_finish_open ds dt pos es db s :
  no_commit ds → ∃ stop partial,
  scan_finish ring_size bs read ds dt pos es db s =
  Ok (Stop (mk_scan (js_txs s) (merge_revokes (js_revokes s) partial) (js_next_seq s)
              (js_next_block s) (js_ring_blocks s) stop)).
Proof.
  intros Hn. unfold scan_finish. rewrite read_at. scan_simpl.
  destruct (header_is (at_pos pos) _).
  - rewrite read_at. scan_simpl. rewrite commits_seq_weaken by (by apply no_commit_at).
    cbn [negb set_stop js_txs js_revokes js_next_seq js_next_block js_ring_blocks]. eauto.
  - scan_simpl. rewrite commits_seq_weaken by (by apply no_commit_at).
    exists (PartialTx ds), []. done.
Qed.

Lemma scan_one_end pos seq s :
  pos >= tail_block + ring_size ∨ no_commit seq → ∃ stop partial,
  scan_one tail_block ring_size bs read pos seq s =
  Ok (Stop (mk_scan (js_txs s) (merge_revokes (js_revokes s) partial) (js_next_seq s)
              (js_next_block s) (js_ring_blocks s) stop))
  ∧ (pos >= tail_block + ring_size ∨ opens_seq seq (at_pos pos) = false → partial = []).
Proof.
  intros Hend. unfold scan_one, opens_seq, header_is.
  destruct (pos >=? tail_block + ring_size) eqn:Hb; [by exists (RingBound seq), []|].
  destruct Hend as [|Hn]; [lia|]. rewrite read_at. scan_simpl.
  destruct (parse_header (at_pos pos)) as [h|]; [|by exists NotJournalBlock, []].
  destruct (hdr_kind h =? kind_u8 Descriptor); scan_simpl; [|by eexists _, []].
  destruct (hdr_seq h =? seq) eqn:Es; scan_simpl; [|by eexists _, []].
  apply Z.eqb_eq in Es. destruct (read_data_ok (length (parse_descriptor_entries (at_pos pos) bs)) (pos + 1)) as [db ->].
  scan_simpl. rewrite Es.
  destruct (scan_finish_open seq (hdr_tx_id h) (pos + 1 + Z.of_nat (length (parse_descriptor_entries (at_pos pos) bs)))
    (parse_descriptor_entries (at_pos pos) bs) db s Hn) as (stop & partial & ->).
  exists stop, partial. split; [done|]. intros [|]; [lia|done].
Qed.

(** The ring holds exactly the transactions [ts], in order from the tail, and
    nothing on it commits the next sequence number or a later one. *)
Record ring_inv (ts : list jtx) : Prop := {
  ri_ok : Forall (jtx_ok bs) ts;
  ri_seqs : seqs_from tail_seq ts;
  ri_holds : holds tail_block (mjoin (tx_blocks bs <$> ts));
  ri_fits : total_len bs ts <= ring_size;
  ri_next : no_commit (tail_seq + Z.of_nat (length ts))
}.

Definition head_pos (ts : list jtx) : Z := tail_block + total_len bs ts.
Definition head_seq (ts : list jtx) : Z := tail_seq + Z.of_nat (length ts).

(** The scan state on reaching the head. *)
Definition head_scan (ts : list jtx) : JournalScan :=
  mk_scan (scanned <$> ts) (merge_revokes [] (mjoin (j_revokes <$> ts)))
    (head_seq ts) (head_pos ts) (total_len bs ts) DegenerateRing.

(** The walk accepts every laid out transaction and arrives at the head. *)
Lemma scan_to_head ts :
  Forall (jtx_ok bs) ts → seqs_from tail_seq ts →
  holds tail_block (mjoin (tx_blocks bs <$> ts)) → total_len bs ts <= ring_size →
  ∃ fuel, scan_committed tail_seq tail_block ring_size bs read =
  scan_loop tail_block ring_size bs read (S fuel) (head_pos ts) (head_seq ts) (head_scan ts).
Proof.
  intros Hok Hseqs Hholds Hfits. unfold scan_committed. replace (ring_size =? 0) with false by lia.
  pose proof (length_txs_le bs ts). exists (Z.to_nat ring_size - length ts)%nat.
  replace (S (Z.to_nat ring_size)) with (length ts + S (Z.to_nat ring_size - length ts))%nat by lia.
  rewrite scan_loop_txs by (done || lia). by rewrite accept_all_spec.
Qed.

Lemma scan_ring_inv ts :
  ring_inv ts → ∃ stop partial,
  scan_committed tail_seq tail_block ring_size bs read =
  Some (Ok (mk_scan (scanned <$> ts) (merge_revokes [] (mjoin (j_revokes <$> ts) ++ partial))
              (head_seq ts) (head_pos ts) (total_len bs ts) stop))
  ∧ (total_len bs ts = ring_size ∨ opens_seq (head_seq ts) (at_pos (head_pos ts)) = false
     → partial = []).
Proof.
  intros []. destruct (scan_to_head ts) as [fuel ->]; [done..|]. cbn [scan_loop].
  destruct (scan_one_end (head_pos ts) (head_seq ts) (head_scan ts))
    as (stop & partial & H1 & H2); [by right|].
  exists stop, partial. rewrite H1. unfold merge_revokes. rewrite fold_left_app. split; [done|].
  intros [?|?]; apply H2; [left; unfold head_pos; lia|by right].
Qed.
End Layout.

(** ** Any ring content: termination and well-formed results *)

(** What a scan from [tail_seq], [tail_block] accumulates. *)
Record scan_wf (tail_seq tail_block : Z) (s : JournalScan) : Prop := {
  sw_seqs : ∀ i tx, js_txs s !! i = Some tx → st_seq tx = tail_seq + Z.of_nat i;
  sw_blocks : Forall (λ tx, length (st_data_blocks tx) = length (st_entries tx)) (js_txs s);
  sw_next_seq : js_next_seq s = tail_seq + Z.of_nat (length (js_txs s));
  sw_next_block : js_next_block s = tail_block + js_ring_blocks s
}.

Section AnyRing.
Context {E : Type}.
Context (tail_seq tail_block ring_size : Z) (bs : nat).
Context (read : Z → result E (list Z)).

Lemma read_data_length n pos db :
  read_data_blocks ring_size read n pos = Ok db → length db = n.
Proof.
  revert pos db; induction n as [|n IH]; intros pos db; cbn [read_data_blocks].
  - by intros [= <-].
  - destruct (read_ring_block _ _ _); cbn [mbind result_bind]; [|done].
    destruct (read_data_blocks _ _ n _) eqn:E1; cbn [mbind result_bind]; [|done].
    intros [= <-]. simpl. by rewrite (IH _ _ E1).
Qed.

Definition turn_scan (t : scan_turn) : JournalScan :=
  match t with Stop s => s | Continue _ _ s => s end.

Lemma scan_finish_wf ds dt pos es db s turn :
  scan_finish ring_size bs read ds dt pos es db s = Ok turn →
  scan_wf tail_seq tail_block s → length db = length es →
  js_next_seq s = ds → pos = js_next_block s + 1 + Z.of_nat (length es) →
  scan_wf tail_seq tail_block (turn_scan turn) ∧
  (∀ p q s', turn = Continue p q s' → js_next_seq s' = q ∧ js_next_block s' = p).
Proof.
  intros H [] Hl Hs Hp. unfold scan_finish in H.
  destruct (read_ring_block ring_size read pos) as [nb|]; cbn [mbind result_bind] in H; [|done].
  set (rv := header_is nb _) in H.
  destruct (if rv then _ else Ok nb) as [cb|]; cbn [mbind result_bind] in H; [|done].
  destruct (negb (header_is cb _)); [|destruct (negb _)].
  1,2: injection H as <-; split; [|done]; destruct rv; split; done.
  injection H as <-. split; [|by intros p q s' [= <- <- <-]].
  destruct rv; split; cbn [js_txs js_next_seq js_next_block js_ring_blocks turn_scan]; try lia;
    try (apply Forall_app; split; [done|by repeat constructor]);
    try (rewrite length_app; simpl; lia);
    intros i tx [Hi|[Hge Hi]]%lookup_app_Some; auto;
    apply list_lookup_singleton_Some in Hi as [Hi <-]; simpl; lia.
Qed.

Lemma set_stop_wf s st : scan_wf tail_seq tail_block s → scan_wf tail_seq tail_block (set_stop s st).
Proof. intros []. by split. Qed.

Lemma scan_loop_wf fuel : ∀ pos seq s scan,
  scan_wf tail_seq tail_block s → js_next_seq s = seq → js_next_block s = pos →
  scan_loop tail_block ring_size bs read fuel pos seq s = Some (Ok scan) →
  scan_wf tail_seq tail_block scan.
Proof.
  induction fuel as [|f IH]; intros pos seq s scan Hwf Hs Hp; [done|]. cbn [scan_loop].
  destruct (scan_one _ _ _ _ _ _ _) as [turn|] eqn:E1; [|done].
  assert (Hturn : scan_wf tail_seq tail_block (turn_scan turn) ∧
    (∀ p q s', turn = Continue p q s' → js_next_seq s' = q ∧ js_next_block s' = p)).
  { unfold scan_one in E1. destruct (pos >=? _).
    { injection E1 as <-. split; [|done]. by apply set_stop_wf. }
    destruct (read_ring_block ring_size read pos) as [b|]; cbn [mbind result_bind] in E1; [|done].
    destruct (parse_header b) as [h|];
      [|injection E1 as <-; split; [by apply set_stop_wf|done]].
    destruct (negb (hdr_kind h =? _)); [injection E1 as <-; split; [by apply set_stop_wf|done]|].
    destruct (negb (hdr_seq h =? seq)) eqn:Eq; [injection E1 as <-; split; [by apply set_stop_wf|done]|].
    destruct (read_data_blocks _ _ _ _) as [db|] eqn:Ed; cbn [mbind result_bind] in E1; [|done].
    apply read_data_length in Ed. to_lia. eapply scan_finish_wf in E1; [done..|congruence|lia]. }
  destruct Hturn as [Hw Hn]. destruct turn as [s'|p q s']; [intros [= <-]; exact Hw|].
  destruct (Hn _ _ _ eq_refl). by apply IH.
Qed.
End AnyRing.

(** Scanning terminates on every ring, whatever the disk holds, and its
    result is coherent: consecutive sequence numbers from the tail, one data
    block per descriptor entry, and a restart point just past the last
    accepted transaction. *)
Theorem scan_total {E} tail_seq tail_block ring_size bs (read : Z → result E (list Z)) :
  0 <= ring_size →
  ∃ r, scan_committed tail_seq tail_block ring_size bs read = Some r ∧
    ∀ scan, r = Ok scan → scan_wf tail_seq tail_block scan.
Proof.
  intros Hr. assert (Hwf : scan_wf tail_seq tail_block (empty_scan tail_seq tail_block))
    by (split; simpl; [done|constructor|lia|lia]).
  unfold scan_committed. destruct (ring_size =? 0).
  - eexists. split; [done|]. by intros scan [= <-].
  - pose proof (scan_loop_terminates tail_block ring_size bs read (S (Z.to_nat ring_size))
      tail_block tail_seq (empty_scan tail_seq tail_block)) as Ht.
    destruct (scan_loop _ _ _ _ _ _ _ _) as [r|] eqn:El; [|exfalso; apply Ht; [lia|done]].
    exists r. split; [done|]. intros scan ->. eapply scan_loop_wf; [..|exact El]; done.
Qed.

Lemma scan_total_witness :
  ∃ r, scan_committed 5 0 8 64 (λ i, if i =? 3 then Err tt else Ok (replicate 64 0)) = Some r ∧
    ∀ scan, r = Ok scan → scan_wf 5 0 scan.
Proof. apply scan_total. lia. Defined.

End JournalScan.
