(* ===== verification/JournalRing.v ===== *)
(** * Writing the journal ring

    What the committer's writes do to a ring the scan reads: a batch of body
    blocks in any stage of completion, torn or whole, leaves the committed
    transactions as they were; the commit block adds exactly one; retiring
    the oldest removes exactly one. *)

From S2P Require Import Prelude Crc32 BTree JournalFormat JournalScan.
Import JournalFormat JournalScan.

Module JournalRing.

(** ** Blocks that cannot be mistaken for journal blocks *)

(** The escaping [seal_and_commit] applies to a page it copies into the ring. *)
Definition first_word (page : list Z) : Z := le_at 0 4 page.

Definition escape (page : list Z) : bool * list Z :=
  let escaped := first_word page =? JOURNAL_BLOCK_MAGIC in
  (escaped, if escaped then splice 0 (replicate 4 0) page else page).

Definition escape_entry (fs_block : Z) (page : list Z) : DescriptorEntry :=
  mk_de fs_block (if (escape page).1 then DESC_FLAG_ESCAPED else 0) 0.

Lemma parse_header_data b : first_word b ≠ JOURNAL_BLOCK_MAGIC → parse_header b = None.
Proof.
  intros H. unfold parse_header. destruct (length b <? sizeof_hdr)%nat; [done|].
  cbn [hdr_read hdr_magic]. unfold first_word in H.
  destruct (le_at 0 4 b =? JOURNAL_BLOCK_MAGIC) eqn:E; [|done]. to_lia. done.
Qed.

Lemma escape_not_header page : (4 <= length page)%nat → first_word (escape page).2 ≠ JOURNAL_BLOCK_MAGIC.
Proof.
  intros Hl. unfold escape. cbn [snd].
  destruct (first_word page =? JOURNAL_BLOCK_MAGIC) eqn:E; [|by to_lia].
  unfold first_word, le_at. rewrite sub_splice_in by (simpl; lia).
  unfold sub. rewrite Nat.sub_diag. vm_compute. congruence.
Qed.

Lemma length_escape page : (4 <= length page)%nat → length (escape page).2 = length page.
Proof.
  intros Hl. unfold escape. cbn [snd]. destruct (_ =? _); [|done]. apply length_splice. simpl. lia.
Qed.

Lemma escape_bytes page : Forall byte_ok page → Forall byte_ok (escape page).2.
Proof.
  intros H. unfold escape. cbn [snd]. destruct (_ =? _); [|done].
  apply Forall_splice; [|done]. repeat constructor; unfold byte_ok; lia.
Qed.

(** Writing the magic back over an escaped page restores it. *)
Lemma unescape_page page :
  (4 <= length page)%nat → Forall byte_ok page → first_word page = JOURNAL_BLOCK_MAGIC →
  splice 0 (le_bytes 4 JOURNAL_BLOCK_MAGIC) (splice 0 (replicate 4 0) page) = page.
Proof.
  intros Hl Hb Hw. unfold first_word, le_at in Hw.
  assert (Hs : le_bytes 4 JOURNAL_BLOCK_MAGIC = take 4 page).
  { rewrite <- Hw. replace (sub 0 4 page) with (take 4 page) by (unfold sub; by rewrite drop_0).
    replace 4%nat with (length (take 4 page)) at 1 by (rewrite length_take; lia).
    apply le_bytes_le_num. by apply Forall_take. }
  rewrite Hs. unfold splice. rewrite !take_0. simpl app.
  rewrite length_take, Nat.min_l by lia. simpl Nat.add.
  change (drop 4 (0 :: 0 :: 0 :: 0 :: drop 4 page)) with (drop 4 page). apply take_drop.
Qed.

(** A block with the same first 24 bytes has the same header. *)
Lemma parse_header_take b : parse_header b = parse_header (take sizeof_hdr b).
Proof.
  unfold parse_header. rewrite length_take.
  destruct (Nat.ltb_spec (length b) sizeof_hdr), (Nat.ltb_spec (sizeof_hdr `min` length b) sizeof_hdr);
    try lia; [done|].
  assert (Hs : ∀ off n, (off + n <= sizeof_hdr)%nat → sub off n (take sizeof_hdr b) = sub off n b)
    by (intros; by apply sub_take).
  unfold hdr_read, le_at. rewrite !Hs by (unfold sizeof_hdr; lia). done.
Qed.

Lemma header_is_take b b' p :
  take sizeof_hdr b = take sizeof_hdr b' → header_is b p = header_is b' p.
Proof. intros H. unfold header_is. by rewrite parse_header_take, H, <- parse_header_take. Qed.

(** ** Ring writes *)

Section Ring.
Context (ring_size : Z) (bs : nat).
Context (Hring : 0 < ring_size).

(** A ring on which some of [blocks], submitted at [pos], have landed: every
    other slot is unchanged, and a slot of the batch holds its old block, the
    new one, or a torn mix in which the header (part of one sector) is whole. *)
Definition torn_write (pos : Z) (blocks : list (list Z)) (ring ring' : Z → list Z) : Prop :=
  ∀ i, 0 <= i < ring_size →
    ring' i = ring i ∨
    ∃ (k : nat) b, blocks !! k = Some b ∧ i = (pos + Z.of_nat k) mod ring_size ∧
      (take sizeof_hdr (ring' i) = take sizeof_hdr (ring i) ∨
       take sizeof_hdr (ring' i) = take sizeof_hdr b).

(** The batch after every command completed. *)
Definition ring_put (pos : Z) (b : list Z) (ring : Z → list Z) : Z → list Z :=
  λ i, if i =? pos mod ring_size then b else ring i.

Fixpoint ring_put_all (pos : Z) (blocks : list (list Z)) (ring : Z → list Z) : Z → list Z :=
  match blocks with
  | [] => ring
  | b :: rest => ring_put_all (pos + 1) rest (ring_put pos b ring)
  end.

Lemma mod_inj a b : a <= b < a + ring_size → a mod ring_size = b mod ring_size → a = b.
Proof.
  intros H Hm. destruct (Z.eq_dec a b) as [|Hne]; [done|]. exfalso.
  assert ((b - a) mod ring_size = 0) by (rewrite Zminus_mod, Hm, Z.sub_diag; apply Z.mod_0_l; lia).
  rewrite Z.mod_small in * by lia. lia.
Qed.

Lemma ring_put_all_other pos blocks : ∀ ring i,
  (∀ k, (k < length blocks)%nat → i ≠ (pos + Z.of_nat k) mod ring_size) →
  ring_put_all pos blocks ring i = ring i.
Proof.
  revert pos; induction blocks as [|b l IH]; intros pos ring i H; [done|].
  cbn [ring_put_all]. rewrite IH.
  - unfold ring_put. destruct (i =? pos mod ring_size) eqn:E; [|done]. to_lia.
    exfalso. apply (H O); [simpl; lia|]. by rewrite Z.add_0_r.
  - intros k Hk. specialize (H (S k)). simpl in H.
    replace (pos + 1 + Z.of_nat k) with (pos + Z.of_nat (S k)) by lia. apply H. lia.
Qed.

Lemma ring_put_all_at pos blocks : ∀ ring k b,
  Z.of_nat (length blocks) <= ring_size → blocks !! k = Some b →
  ring_put_all pos blocks ring ((pos + Z.of_nat k) mod ring_size) = b.
Proof.
  revert pos; induction blocks as [|b0 l IH]; intros pos ring k b Hl Hk; [done|].
  cbn [ring_put_all]. simpl in Hl. destruct k as [|k]; simpl in Hk.
  - injection Hk as ->. rewrite Z.add_0_r, ring_put_all_other; [unfold ring_put; by rewrite Z.eqb_refl|].
    intros k Hk Heq. apply mod_inj in Heq; lia.
  - replace (pos + Z.of_nat (S k)) with (pos + 1 + Z.of_nat k) by lia. apply IH; [lia|done].
Qed.

Lemma holds_put_all pos blocks ring :
  Z.of_nat (length blocks) <= ring_size → holds ring_size (ring_put_all pos blocks ring) pos blocks.
Proof. intros Hl i b Hi. unfold at_pos. by apply ring_put_all_at. Qed.

Lemma torn_write_complete pos blocks ring :
  Z.of_nat (length blocks) <= ring_size → torn_write pos blocks ring (ring_put_all pos blocks ring).
Proof.
  intros Hl i Hi.
  destruct (decide (i ∈ (λ k, (pos + Z.of_nat k) mod ring_size) <$> seq 0 (length blocks))) as [Hin|Hno].
  - apply list_elem_of_fmap in Hin as (k & Hik & Hk). apply elem_of_seq in Hk as [_ Hk].
    right. apply lookup_lt_is_Some in Hk as [b Hb]. exists k, b. split_and!; [done..|].
    right. subst i. by rewrite (ring_put_all_at pos blocks ring k b).
  - left. apply ring_put_all_other. intros k Hk Heq. apply Hno.
    apply list_elem_of_fmap. exists k. split; [done|]. apply elem_of_seq. lia.
Qed.

Lemma holds_torn pos blocks ring ring' pos0 l :
  torn_write pos blocks ring ring' → holds ring_size ring pos0 l →
  pos0 + Z.of_nat (length l) <= pos → pos + Z.of_nat (length blocks) <= pos0 + ring_size →
  holds ring_size ring' pos0 l.
Proof.
  intros Ht Hh H1 H2 i b Hi. pose proof (lookup_lt_Some _ _ _ Hi) as Hlt.
  specialize (Hh i b Hi). unfold at_pos in *.
  destruct (Ht ((pos0 + Z.of_nat i) mod ring_size)) as [->|(k & b' & Hk & Heq & _)];
    [by apply Z.mod_pos_bound|done|].
  exfalso. apply lookup_lt_Some in Hk. apply mod_inj in Heq; lia.
Qed.

(** ** The ring invariant under the committer's writes *)

(** The next transaction: numbered by the head, representable, its data blocks
    escaped, and small enough for the free part of the ring. *)
Record next_tx (tail_seq : Z) (ts : list jtx) (t : jtx) : Prop := {
  nt_seq : j_seq t = tail_seq + Z.of_nat (length ts);
  nt_ok : jtx_ok bs t;
  nt_escaped : Forall (λ b, first_word b ≠ JOURNAL_BLOCK_MAGIC) (j_data t);
  nt_fits : total_len bs ts + tx_len bs t <= ring_size
}.

Lemma length_mjoin_txs ts : Z.of_nat (length (mjoin (tx_blocks bs <$> ts))) = total_len bs ts.
Proof.
  induction ts as [|t ts IH]; [done|]. rewrite fmap_cons, mjoin_cons, length_app.
  cbn [total_len foldr]. fold (total_len bs ts). unfold tx_len. lia.
Qed.

Lemma length_body t : Z.of_nat (length (body_blocks bs t)) = tx_len bs t - 1.
Proof. unfold tx_len, tx_blocks. rewrite length_app. simpl. lia. Qed.

Lemma body_no_commit tail_seq ts t k b seq :
  next_tx tail_seq ts t → body_blocks bs t !! k = Some b → commits_seq seq b = false.
Proof.
  intros [_ Hok Hesc _] Hk. apply list_elem_of_lookup_2 in Hk. unfold body_blocks in Hk.
  apply elem_of_cons in Hk as [->|Hk]; [|apply elem_of_app in Hk as [Hk|Hk]]; unfold commits_seq.
  - destruct Hok. unfold desc_image. by rewrite header_is_image.
  - rewrite Forall_forall in Hesc. apply Hesc in Hk. unfold header_is. by rewrite parse_header_data.
  - unfold revoke_blocks in Hk. destruct (j_revokes t) eqn:Er; [by apply not_elem_of_nil in Hk|].
    apply list_elem_of_singleton in Hk as ->. by rewrite revoke_image_header.
Qed.

(** A crash at any point before the commit block, with any subset of the body
    blocks on disk and any of them torn, leaves the invariant as it was. *)
Lemma ring_inv_body tail_seq tail_block ring ring' ts t :
  ring_inv tail_seq tail_block ring_size bs ring ts → next_tx tail_seq ts t →
  torn_write (head_pos tail_block bs ts) (body_blocks bs t) ring ring' →
  ring_inv tail_seq tail_block ring_size bs ring' ts.
Proof.
  intros [Hok Hseqs Hholds Hfits Hnc] Hnext Htorn. split; [done..| |done|].
  - eapply holds_torn; [done|done| |].
    + rewrite length_mjoin_txs. unfold head_pos. lia.
    + rewrite length_body. destruct Hnext. unfold head_pos. lia.
  - intros i seq Hi Hseq. destruct (Htorn i Hi) as [->|(k & b & Hk & _ & [Ht|Ht])]; [by apply Hnc| |].
    + unfold commits_seq. rewrite (header_is_take _ _ _ Ht). by apply Hnc.
    + unfold commits_seq. rewrite (header_is_take _ _ _ Ht). by eapply body_no_commit.
Qed.

Lemma commit_of_commits t seq : jtx_ok bs t → commits_seq seq (commit_of bs t) = (j_seq t =? seq).
Proof. intros Hok. unfold commits_seq. by rewrite commit_of_header. Qed.

Lemma holds_put pos b ring pos0 l :
  holds ring_size ring pos0 l → pos0 + Z.of_nat (length l) <= pos → pos < pos0 + ring_size →
  holds ring_size (ring_put pos b ring) pos0 l.
Proof.
  intros Hh H1 H2. eapply (holds_torn pos [b]); [|done|done|simpl; lia].
  apply (torn_write_complete pos [b]). simpl. lia.
Qed.

(** The commit block makes the transaction part of the ring. *)
Lemma ring_inv_commit tail_seq tail_block ring ts t :
  ring_inv tail_seq tail_block ring_size bs ring ts → next_tx tail_seq ts t →
  holds ring_size ring (head_pos tail_block bs ts) (body_blocks bs t) →
  ring_inv tail_seq tail_block ring_size bs
    (ring_put (head_pos tail_block bs ts + tx_len bs t - 1) (commit_of bs t) ring) (ts ++ [t]).
Proof.
  intros [Hok Hseqs Hholds Hfits Hnc] [] Hbody. unfold head_pos in *. pose proof (tx_len_ge2 bs t).
  pose proof (total_len_nonneg bs ts). split.
  - apply Forall_app; split; [done|by constructor].
  - apply seqs_from_app. split; [done|]. simpl. split; [lia|done].
  - rewrite fmap_app, join_app. apply holds_app. split.
    + apply holds_put; [done|rewrite length_mjoin_txs; lia|lia].
    + rewrite length_mjoin_txs. cbn [fmap list_fmap]. rewrite mjoin_cons, app_nil_r.
      unfold tx_blocks. apply holds_app. split.
      * apply holds_put; [done|rewrite length_body; lia|lia].
      * apply holds_cons. split; [|intros i b Hi; done]. unfold at_pos, ring_put.
        replace (tail_block + total_len bs ts + Z.of_nat (length (body_blocks bs t)))
          with (tail_block + total_len bs ts + tx_len bs t - 1) by (rewrite length_body; lia).
        by rewrite Z.eqb_refl.
  - rewrite total_len_app. simpl. lia.
  - intros i seq Hi Hseq. rewrite length_app in Hseq. cbn [length] in Hseq. unfold ring_put.
    destruct (i =? _); [rewrite commit_of_commits by done; lia|apply Hnc; lia].
Qed.

(** Retiring the oldest transaction moves the tail past it. *)
Lemma ring_inv_retire tail_seq tail_block ring t ts :
  ring_inv tail_seq tail_block ring_size bs ring (t :: ts) →
  ring_inv (tail_seq + 1) (tail_block + tx_len bs t) ring_size bs ring ts.
Proof.
  intros [Hok Hseqs Hholds Hfits Hnc]. apply Forall_cons in Hok as [Ht Hts]. destruct Hseqs as [_ Hs].
  rewrite fmap_cons, mjoin_cons in Hholds. apply holds_app in Hholds as [_ Hh].
  cbn [total_len foldr] in Hfits. fold (total_len bs ts) in Hfits.
  pose proof (tx_len_ge2 bs t). split; [done..|lia|].
  cbn [length] in Hnc.
  by replace (tail_seq + 1 + Z.of_nat (length ts)) with (tail_seq + Z.of_nat (S (length ts))) by lia.
Qed.
End Ring.

End JournalRing.
