(* ===== verification/Journal.v ===== *)
(** * The kernel journal (kernel/src/fs/journal/mod.rs and tx.rs)

    Transactions, the journal state, the handle that merges into the open
    transaction, sealing, the commit sequence, tail advance and the superblock
    write: every lock-delimited section of the code is one definition, and
    [step] composes them with the committer's program counter. *)

From S2P Require Import Prelude Crc32 BTree JournalFormat JournalScan JournalRing.
Import JournalFormat JournalScan JournalRing.

Module Journal.

Definition BLOCK_SIZE : nat := Z.to_nat 4096.
Lemma BLOCK_SIZE_eq : BLOCK_SIZE = Z.to_nat 4096.
Proof. reflexivity. Qed.
#[global] Opaque BLOCK_SIZE.
Definition SECTORS_PER_BLOCK : Z := 8.
Definition MAX_RUN_BLOCKS : Z := 248.
Definition CHECKPOINT_ATTEMPTS : Z := 3.

(** ** State *)

(** A transaction. Pages are named by an identifier of the shared page object:
    the handle stores an [Arc], and the bytes are read when it is committed. *)
Record Transaction := mk_tx {
  tx_seq : Z;
  tx_tx_id : Z;
  tx_enrolled : bmap (Z * Z) Z;
  tx_revokes : bmap (Z * Z) unit
}.

Definition tx_new (seq tx_id : Z) : Transaction := mk_tx seq tx_id [] [].

Definition tx_is_empty (tx : Transaction) : bool :=
  match tx_enrolled tx, tx_revokes tx with [], [] => true | _, _ => false end.

Record JournalState := mk_state {
  st_head_seq : Z;
  st_tail_seq : Z;
  st_head_block : Z;
  st_tail_block : Z;
  st_active : Transaction;
  st_sealed : list Transaction;
  st_committed_pending : list (Z * Z);
  st_committed_seq : Z
}.

(** The constant fields of [Journal]. *)
Record config := mk_cfg {
  device_id : Z;
  first_block : Z;
  partition_start_lba : Z;
  block_count : Z
}.

(** The mutable fields of [Journal]. *)
Record Journal := mk_journal {
  jn_state : JournalState;
  jn_committed_seq_pub : Z;
  jn_tracker : bmap (Z * Z) Z;
  jn_tx_id_counter : Z
}.

Definition ring_size (c : config) : Z := block_count c - 1.

(** [Journal::new] *)
Definition journal_new (head_seq tail_seq initial_head_block : Z) : Journal :=
  mk_journal
    (mk_state head_seq tail_seq initial_head_block initial_head_block
       (tx_new head_seq head_seq) [] [] (sat_sub head_seq 1))
    (sat_sub head_seq 1) [] head_seq.

Definition set_state (j : Journal) (s : JournalState) : Journal :=
  mk_journal s (jn_committed_seq_pub j) (jn_tracker j) (jn_tx_id_counter j).

(** ** Ring arithmetic and block placement *)

Definition journal_block_lba (c : config) (journal_block_idx : Z) : Z :=
  let ring_idx := journal_block_idx mod ring_size c + 1 in
  partition_start_lba c + (first_block c + ring_idx) * SECTORS_PER_BLOCK.

Definition sb_lba (c : config) : Z := partition_start_lba c + first_block c * SECTORS_PER_BLOCK.

(** [submit_journal_blocks]: the commands one buffer of [total] blocks is cut
    into, as (ring index, offset in blocks, run length). *)
Fixpoint journal_runs (fuel : nat) (ring start_idx total done : Z) : list (Z * Z * Z) :=
  match fuel with
  | O => []
  | S fuel' =>
      if done <? total then
        let idx := (start_idx + done) mod ring in
        let until_wrap := ring - idx in
        let run := Z.min (Z.min (total - done) until_wrap) MAX_RUN_BLOCKS in
        (idx, done, run) :: journal_runs fuel' ring start_idx total (done + run)
      else []
  end.

Definition submit_journal_blocks (c : config) (start_idx total : Z) : list (Z * Z * Z) :=
  journal_runs (Z.to_nat total) (ring_size c) start_idx total 0.

(** [write_journal_sb]: the superblock rebuilt from the cursors. *)
Definition make_jsb (c : config) (s : JournalState) : JournalSuperblock :=
  let jsb crc := mk_jsb JOURNAL_MAGIC 1 (block_count c) (Z.of_nat BLOCK_SIZE) (st_tail_seq s)
                   (st_head_seq s) (st_tail_block s) (st_head_block s) crc (replicate 12 0) in
  jsb (journal_sb_checksum (jsb 0)).

Definition write_journal_sb (c : config) (s : JournalState) : outcome (list Z) :=
  write_at 0 (jsb_bytes (make_jsb c s)) (replicate BLOCK_SIZE 0).

(** ** Transaction handles (tx.rs) *)

Record TxHandle := mk_handle {
  th_blocks : bmap (Z * Z) Z;
  th_revokes : bmap (Z * Z) unit;
  th_aborted : bool
}.

Definition begin_tx : TxHandle := mk_handle [] [] false.
Definition enroll_block (dev block page : Z) (h : TxHandle) : TxHandle :=
  mk_handle (binsert (dev, block) page (th_blocks h)) (th_revokes h) (th_aborted h).
Definition enroll_revoke (dev block : Z) (h : TxHandle) : TxHandle :=
  mk_handle (th_blocks h) (binsert (dev, block) tt (th_revokes h)) (th_aborted h).
Definition tx_abort (h : TxHandle) : TxHandle := mk_handle (th_blocks h) (th_revokes h) true.

Definition binsert_all {V} (src dst : bmap (Z * Z) V) : bmap (Z * Z) V :=
  fold_left (λ m e, binsert e.1 e.2 m) src dst.

(** ** Sealing *)

Definition next_tx_id (j : Journal) : Z * Journal :=
  (jn_tx_id_counter j + 1,
   mk_journal (jn_state j) (jn_committed_seq_pub j) (jn_tracker j) (jn_tx_id_counter j + 1)).

(** [seal_active], with the state lock held. *)
Definition seal_active (j : Journal) : bool * Journal :=
  let s := jn_state j in
  if tx_is_empty (st_active s) then (false, j)
  else
    let next_seq := st_head_seq s + 1 in
    let '(next_id, j') := next_tx_id j in
    (true, set_state j'
       (mk_state next_seq (st_tail_seq s) (st_head_block s) (st_tail_block s)
          (tx_new next_seq next_id) (st_sealed s ++ [st_active s])
          (st_committed_pending s) (st_committed_seq s))).

Definition max_tx_blocks (c : config) : Z := ring_size c / 4.

Definition seal_if_full (c : config) (j : Journal) : bool * Journal :=
  if Z.of_nat (length (tx_enrolled (st_active (jn_state j)))) <? max_tx_blocks c
  then (false, j) else seal_active j.

(** [TxHandle::drop]. [dirty] answers [page.is_dirty()]. *)
Definition tx_merge (dirty : Z → bool) (h : TxHandle) (j : Journal) : Journal :=
  let s := jn_state j in
  let a := st_active s in
  let a' := mk_tx (tx_seq a) (tx_tx_id a) (binsert_all (th_blocks h) (tx_enrolled a))
              (binsert_all (th_revokes h) (tx_revokes a)) in
  let tracker := fold_left (λ m e, if dirty e.2 then binsert e.1 (tx_seq a) m else m)
                   (th_blocks h) (jn_tracker j) in
  mk_journal
    (mk_state (st_head_seq s) (st_tail_seq s) (st_head_block s) (st_tail_block s) a'
       (st_sealed s) (st_committed_pending s) (st_committed_seq s))
    (jn_committed_seq_pub j) tracker (jn_tx_id_counter j).

Definition tx_drop (c : config) (dirty : Z → bool) (h : TxHandle) (j : Journal) : Journal :=
  if th_aborted h then j
  else match th_blocks h, th_revokes h with
       | [], [] => j
       | _, _ => (seal_if_full c (tx_merge dirty h j)).2
       end.

(** ** Checkpointing and tail advance *)

Definition enrolled_seq (j : Journal) (dev block : Z) : option Z := bget (dev, block) (jn_tracker j).

Definition set_tracker (j : Journal) (t : bmap (Z * Z) Z) : Journal :=
  mk_journal (jn_state j) (jn_committed_seq_pub j) t (jn_tx_id_counter j).

Definition note_checkpointed (dev block expected_seq : Z) (j : Journal) : Journal :=
  match bget (dev, block) (jn_tracker j) with
  | Some seq => if seq =? expected_seq then set_tracker j (bremove (dev, block) (jn_tracker j)) else j
  | None => j
  end.

(** [prune_checkpointed]. [is_dirty] answers [cache.is_dirty(dev, block)]. *)
Definition prune_checkpointed (is_dirty : Z * Z → bool) (j : Journal) : Journal :=
  let at_home := filter (λ k, is_dirty k = false) (jn_tracker j).*1 in
  set_tracker j (fold_left (λ m k, bremove k m) at_home (jn_tracker j)).

(** [tracker.values().copied().min()] *)
Definition min_value (m : bmap (Z * Z) Z) : option Z :=
  match m.*2 with
  | [] => None
  | v :: vs => Some (fold_left Z.min vs v)
  end.

Definition min_journaled_seq (j : Journal) : Z :=
  default (sat_add64 (jn_committed_seq_pub j) 1) (min_value (jn_tracker j)).

(** The [while let] loop of [advance_tail]: (tail_seq, tail_block, pending,
    changed). *)
Fixpoint retire (bound tail_seq tail_block : Z) (pending : list (Z * Z)) (changed : bool)
    : Z * Z * list (Z * Z) * bool :=
  match pending with
  | [] => (tail_seq, tail_block, [], changed)
  | (seq, blocks) :: rest =>
      if seq >=? bound then (tail_seq, tail_block, pending, changed)
      else retire bound (seq + 1) (tail_block + blocks) rest true
  end.

Definition catch_up (s : JournalState) (tail_seq : Z) (pending : list (Z * Z)) : bool :=
  match pending, st_sealed s with
  | [], [] => tail_seq <? st_head_seq s
  | _, _ => false
  end.

(** [advance_tail] up to the superblock write; the flag says whether the
    superblock is rewritten. *)
Definition advance_tail (is_dirty : Z * Z → bool) (j : Journal) : bool * Journal :=
  let j := prune_checkpointed is_dirty j in
  let s := jn_state j in
  let '(tail_seq, tail_block, pending, changed) :=
    retire (min_journaled_seq j) (st_tail_seq s) (st_tail_block s) (st_committed_pending s) false in
  let up := catch_up s tail_seq pending in
  let tail_seq := if up then st_head_seq s else tail_seq in
  let tail_block := if up then st_head_block s else tail_block in
  (changed || up,
   set_state j (mk_state (st_head_seq s) tail_seq (st_head_block s) tail_block (st_active s)
                  (st_sealed s) pending (st_committed_seq s))).

(** ** Predicates other threads read *)

Definition has_pending_work (j : Journal) : bool :=
  negb (tx_is_empty (st_active (jn_state j))) ||
  match st_sealed (jn_state j) with [] => false | _ => true end.

Definition needs_sync_round (j : Journal) : bool :=
  has_pending_work j ||
  match st_committed_pending (jn_state j) with [] => false | _ => true end.

(** The sequence [force_commit_and_wait] waits for, [None] when it returns at
    once. *)
Definition force_commit_target (j : Journal) : option Z :=
  let s := jn_state j in
  if tx_is_empty (st_active s) then tx_seq <$> last (st_sealed s)
  else Some (tx_seq (st_active s)).

(** ** The commit sequence *)

(** The ring image of a transaction, from the bytes of its pages now. *)
Definition build_jtx (page : Z → list Z) (tx : Transaction) : jtx :=
  mk_jtx (tx_seq tx) (tx_tx_id tx)
    ((λ e : (Z * Z) * Z, escape_entry e.1.2 (page e.2)) <$> tx_enrolled tx)
    ((λ e : (Z * Z) * Z, (escape (page e.2)).2) <$> tx_enrolled tx)
    ((λ e : (Z * Z) * unit, mk_re e.1.2 (tx_seq tx)) <$> tx_revokes tx).

(** 1 descriptor + N data blocks + (1 revoke if any) + 1 commit. *)
Definition needed (t : jtx) : Z :=
  1 + Z.of_nat (length (j_data t)) + (match j_revokes t with [] => 0 | _ => 1 end) + 1.

(** The space check: [Some head_block] when the transaction fits. *)
Definition reserve (c : config) (s : JournalState) (t : jtx) : option Z :=
  let used := wrap 64 (st_head_block s - st_tail_block s) in
  if needed t <=? sat_sub (ring_size c) used then Some (st_head_block s) else None.

Definition set_sealed (j : Journal) (q : list Transaction) : Journal :=
  let s := jn_state j in
  set_state j (mk_state (st_head_seq s) (st_tail_seq s) (st_head_block s) (st_tail_block s)
                 (st_active s) q (st_committed_pending s) (st_committed_seq s)).

(** [s.sealed.pop_front()] *)
Definition pop_sealed (j : Journal) : option (Transaction * Journal) :=
  match st_sealed (jn_state j) with
  | [] => None
  | tx :: rest => Some (tx, set_sealed j rest)
  end.

(** [s2.sealed.push_front(tx)] *)
Definition unpop_sealed (tx : Transaction) (j : Journal) : Journal :=
  set_sealed j (tx :: st_sealed (jn_state j)).

(** The state update after the commit block is durable. *)
Definition finish_commit (t : jtx) (ring_pos : Z) (j : Journal) : Journal :=
  let s := jn_state j in
  mk_journal
    (mk_state (st_head_seq s) (st_tail_seq s) ring_pos (st_tail_block s) (st_active s) (st_sealed s)
       (st_committed_pending s ++ [(j_seq t, needed t)]) (j_seq t))
    (j_seq t) (jn_tracker j) (jn_tx_id_counter j).

(** The branch for an empty sealed transaction. *)
Definition finish_empty (tx : Transaction) (j : Journal) : Journal :=
  let s := jn_state j in
  mk_journal
    (mk_state (st_head_seq s) (st_tail_seq s) (st_head_block s) (st_tail_block s) (st_active s)
       (st_sealed s) (st_committed_pending s) (tx_seq tx))
    (tx_seq tx) (jn_tracker j) (jn_tx_id_counter j).

(** The blocks queued before the barrier, and the commit block after it. *)
Definition commit_batch (t : jtx) : outcome (list (list Z)) :=
  desc_block ← build_descriptor_block BLOCK_SIZE (j_seq t) (j_tx_id t) (j_entries t);
  revoke_block ← match j_revokes t with
                 | [] => Ret []
                 | rs => b ← build_revoke_block BLOCK_SIZE (j_seq t) (j_tx_id t) rs; Ret [b]
                 end;
  Ret (desc_block :: j_data t ++ revoke_block).

Definition commit_block (t : jtx) : outcome (list Z) :=
  build_commit_block BLOCK_SIZE (j_seq t) (j_tx_id t) (commit_block_checksum (mjoin (j_data t))).

(** ** Basic facts *)

Lemma block_size_hdr : (sizeof_hdr + 4 <= BLOCK_SIZE)%nat.
Proof. rewrite BLOCK_SIZE_eq. unfold sizeof_hdr. lia. Qed.

Lemma needed_tx_len t : needed t = tx_len BLOCK_SIZE t.
Proof. unfold needed. by rewrite tx_len_alt. Qed.

Lemma commit_batch_ok t :
  in_width 32 (Z.of_nat (length (j_entries t))) → commit_batch t = Ret (body_blocks BLOCK_SIZE t).
Proof.
  intros H. unfold commit_batch. rewrite build_descriptor_image by (done || apply block_size_hdr).
  cbn [mbind outcome_bind]. unfold body_blocks, revoke_blocks.
  destruct (j_revokes t) as [|r rs]; [done|].
  rewrite build_revoke_image by (pose proof block_size_hdr; lia). done.
Qed.

Lemma commit_block_ok t : commit_block t = Ret (commit_of BLOCK_SIZE t).
Proof. unfold commit_block. rewrite build_commit_image by apply block_size_hdr. done. Qed.

Lemma write_journal_sb_ok c s :
  write_journal_sb c s =
  Ret (jsb_bytes (make_jsb c s) ++ replicate (BLOCK_SIZE - sizeof_jsb) 0).
Proof.
  unfold write_journal_sb.
  assert (Hl : length (jsb_bytes (make_jsb c s)) = sizeof_jsb) by (by apply length_jsb_bytes).
  rewrite write_at_ok by (rewrite Hl, length_replicate; rewrite BLOCK_SIZE_eq; unfold sizeof_jsb; lia).
  unfold splice. by rewrite Hl, drop_replicate.
Qed.

(** The escaping of a page and the flag its entry carries undo each other. *)
Lemma build_jtx_lengths page tx :
  length (j_data (build_jtx page tx)) = length (j_entries (build_jtx page tx)).
Proof. cbn [build_jtx j_data j_entries]. by rewrite !length_fmap. Qed.

Lemma build_jtx_escaped page tx :
  (∀ p, (4 <= length (page p))%nat) →
  Forall (λ b, first_word b ≠ JOURNAL_BLOCK_MAGIC) (j_data (build_jtx page tx)).
Proof.
  intros Hp. cbn [build_jtx j_data]. apply Forall_fmap, Forall_true. intros e.
  by apply escape_not_header.
Qed.

(** ** Cutting a buffer into commands *)

(** The (ring index, block of the buffer) pairs one command writes. *)
Definition run_blocks (r : Z * Z * Z) : list (Z * Z) :=
  (λ k : nat, (r.1.1 + Z.of_nat k, r.1.2 + Z.of_nat k)) <$> seq 0 (Z.to_nat r.2).

Lemma mod_run ring a k : 0 < ring → 0 <= k < ring - a mod ring → (a + k) mod ring = a mod ring + k.
Proof.
  intros Hr Hk. pose proof (Z.mod_pos_bound a ring Hr).
  rewrite Z.add_mod by lia. rewrite (Z.mod_small k) by lia. apply Z.mod_small. lia.
Qed.

Lemma journal_runs_spec ring start total : 0 < ring → ∀ fuel done,
  0 <= done → total <= done + Z.of_nat fuel →
  mjoin (run_blocks <$> journal_runs fuel ring start total done) =
  (λ k : nat, ((start + (done + Z.of_nat k)) mod ring, done + Z.of_nat k)) <$> seq 0 (Z.to_nat (total - done)).
Proof.
  intros Hr. induction fuel as [|f IH]; intros dn Hd Hf.
  - replace (Z.to_nat (total - dn)) with 0%nat by lia. done.
  - cbn [journal_runs]. destruct (dn <? total) eqn:E; to_lia;
      [|by replace (Z.to_nat (total - dn)) with 0%nat by lia].
    pose proof (Z.mod_pos_bound (start + dn) ring Hr) as Hm.
    set (run := Z.min (Z.min (total - dn) (ring - (start + dn) mod ring)) MAX_RUN_BLOCKS).
    assert (Hrun : 1 <= run <= total - dn ∧ run <= ring - (start + dn) mod ring)
      by (unfold run, MAX_RUN_BLOCKS; lia).
    rewrite fmap_cons, mjoin_cons, IH by lia.
    replace (Z.to_nat (total - dn)) with (Z.to_nat run + Z.to_nat (total - (dn + run)))%nat by lia.
    rewrite seq_app, fmap_app. f_equal.
    + unfold run_blocks. cbn [fst snd]. apply list_fmap_ext. intros i k Hk.
      apply lookup_seq in Hk as [-> Hk]. f_equal. rewrite Z.add_assoc. symmetry. apply mod_run; lia.
    + rewrite Nat.add_0_l, <- (Nat.add_0_r (Z.to_nat run)) at 1. rewrite <- fmap_add_seq.
      rewrite <- list_fmap_compose. apply list_fmap_ext. intros i k Hk. simpl.
      f_equal; [f_equal|]; lia.
Qed.

Lemma journal_runs_shape ring start total : 0 < ring → ∀ fuel done,
  Forall (λ r : Z * Z * Z, 0 <= r.1.1 ∧ 1 <= r.2 <= MAX_RUN_BLOCKS ∧ r.1.1 + r.2 <= ring)
    (journal_runs fuel ring start total done).
Proof.
  intros Hr. induction fuel as [|f IH]; intros dn; cbn [journal_runs]; [constructor|].
  destruct (dn <? total) eqn:E; to_lia; constructor; [|apply IH].
  pose proof (Z.mod_pos_bound (start + dn) ring Hr). unfold MAX_RUN_BLOCKS. simpl. lia.
Qed.

(** [submit_journal_blocks] writes every block of the buffer exactly once,
    in order, block [k] at ring slot [(start + k) mod ring_size]; no command
    crosses the end of the ring or carries more than 248 blocks. *)
Theorem submit_covers c start total :
  0 < ring_size c → 0 <= total →
  mjoin (run_blocks <$> submit_journal_blocks c start total) =
    ((λ k : nat, ((start + Z.of_nat k) mod ring_size c, Z.of_nat k)) <$> seq 0 (Z.to_nat total)) ∧
  Forall (λ r : Z * Z * Z, 0 <= r.1.1 ∧ 1 <= r.2 <= MAX_RUN_BLOCKS ∧ r.1.1 + r.2 <= ring_size c)
    (submit_journal_blocks c start total).
Proof.
  intros Hr Ht. split; [|by apply journal_runs_shape].
  unfold submit_journal_blocks. rewrite journal_runs_spec by lia.
  rewrite Z.sub_0_r. done.
Qed.

Lemma submit_covers_witness :
  submit_journal_blocks (mk_cfg 0 0 0 9) 6 5 = [(6, 0, 2); (0, 2, 3)] ∧
  mjoin (run_blocks <$> submit_journal_blocks (mk_cfg 0 0 0 9) 6 5) =
    ((λ k : nat, ((6 + Z.of_nat k) mod 8, Z.of_nat k)) <$> seq 0 5).
Proof.
  split; [vm_compute; reflexivity|].
  apply (submit_covers (mk_cfg 0 0 0 9) 6 5); unfold ring_size; simpl; lia.
Defined.

(** ** Retiring only what is checkpointed *)

Lemma fold_min_le vs : ∀ v, fold_left Z.min vs v <= v ∧ Forall (λ x, fold_left Z.min vs v <= x) vs.
Proof.
  induction vs as [|x vs IH]; intros v; simpl; [split; [lia|constructor]|].
  destruct (IH (Z.min v x)) as [H1 H2]. split; [lia|]. constructor; [lia|done].
Qed.

Lemma min_journaled_le j k v : (k, v) ∈ jn_tracker j → min_journaled_seq j <= v.
Proof.
  intros H. unfold min_journaled_seq, min_value.
  apply (list_elem_of_fmap_2 snd) in H. simpl in H. destruct (jn_tracker j).*2 as [|x xs].
  - by apply not_elem_of_nil in H.
  - simpl. destruct (fold_min_le xs x) as [H1 H2]. apply elem_of_cons in H as [->|H]; [done|].
    rewrite Forall_forall in H2. by apply H2.
Qed.

Lemma retire_split bound pending : ∀ ts tb ch ts' tb' pending' ch',
  retire bound ts tb pending ch = (ts', tb', pending', ch') →
  ∃ popped, pending = popped ++ pending' ∧ Forall (λ e, e.1 < bound) popped.
Proof.
  induction pending as [|[seq n] pending IH]; intros ts tb ch ts' tb' pending' ch'; cbn [retire].
  - intros [= <- <- <- <-]. by exists [].
  - destruct (seq >=? bound) eqn:E.
    + intros [= <- <- <- <-]. by exists [].
    + intros H. apply IH in H as (popped & -> & Hall). exists ((seq, n) :: popped).
      split; [done|]. constructor; [simpl; lia|done].
Qed.

(** Tail advance retires only a prefix of the committed transactions, and
    only those older than every block still waiting to reach its home
    location: no retired sequence is at or above a tracked one. *)
Theorem advance_tail_sound is_dirty j changed j' :
  advance_tail is_dirty j = (changed, j') →
  ∃ retired, st_committed_pending (jn_state j) = retired ++ st_committed_pending (jn_state j') ∧
    ∀ seq n k v, (seq, n) ∈ retired → (k, v) ∈ jn_tracker j' → seq < v.
Proof.
  unfold advance_tail. cbn zeta.
  destruct (retire _ _ _ _ _) as [[[ts' tb'] pending'] ch'] eqn:Er.
  apply retire_split in Er as (retired & Heq & Hall). intros [= _ <-].
  exists retired. split; [done|]. intros seq n k v Hin Hk.
  rewrite Forall_forall in Hall. apply Hall in Hin. simpl in Hin.
  cbn [set_state jn_tracker] in Hk. apply min_journaled_le in Hk. lia.
Qed.

Lemma advance_tail_sound_witness :
  let j := mk_journal (mk_state 8 5 20 10 (tx_new 8 8) [] [(5, 3); (6, 4); (7, 3)] 7) 7
             [((0, 42), 6); ((0, 50), 7)] 8 in
  ∃ retired, st_committed_pending (jn_state j) =
    retired ++ st_committed_pending (jn_state (advance_tail (λ _, true) j).2) ∧
    ∀ seq n k v, (seq, n) ∈ retired → (k, v) ∈ jn_tracker (advance_tail (λ _, true) j).2 → seq < v.
Proof.
  intros j. apply (advance_tail_sound (λ _, true) j (advance_tail (λ _, true) j).1).
  vm_compute. reflexivity.
Defined.

End Journal.
