(* ===== verification/JournalCrash.v ===== *)
(** * Crash safety of the journal

    The journal together with the disk it writes: [step] interleaves the
    committer (seal_and_commit, advance_tail) with the threads that merge
    handles, seal, write pages back and report checkpoints; [crash_image]
    is what a power cut can leave on disk; mounting reads the superblock and
    scans (kernel/src/fs/efs/mod.rs, kernel/src/fs/journal/replay.rs). *)

From S2P Require Import Prelude Crc32 BTree JournalFormat JournalScan JournalRing Journal.
Import JournalFormat JournalScan JournalRing Journal.

Module JournalCrash.

(** A disk maps the LBA of a 4 KiB block to its bytes. *)
Definition disk : Type := Z → list Z.

Definition disk_write (lba : Z) (b : list Z) (d : disk) : disk :=
  λ x, if x =? lba then b else d x.

(** The ring as the journal addresses it. *)
Definition ring_view (c : config) (d : disk) : Z → list Z := λ i, d (journal_block_lba c i).

Fixpoint disk_put_all (c : config) (pos : Z) (blocks : list (list Z)) (d : disk) : disk :=
  match blocks with
  | [] => d
  | b :: rest => disk_put_all c (pos + 1) rest (disk_write (journal_block_lba c (pos mod ring_size c)) b d)
  end.

(** ** Mounting *)

(** The reader [replay] passes to the scan. *)
Definition read_region (c : config) (d : disk) (region_block : Z) : result unit (list Z) :=
  Ok (d (partition_start_lba c + (first_block c + region_block) * SECTORS_PER_BLOCK)).

(** The superblock checks of the mount. *)
Definition mount_jsb (c : config) (d : disk) : option JournalSuperblock :=
  let jsb := jsb_read (d (sb_lba c)) in
  if negb (jsb_magic jsb =? JOURNAL_MAGIC) then None
  else if negb (jsb_version jsb =? 1) then None
  else if negb (jsb_crc32 jsb =? journal_sb_checksum jsb) then None
  else Some jsb.

(** Pass 1 of [replay], anchored at the superblock's tail. *)
Definition mount_scan (c : config) (d : disk) : option (JournalSuperblock * JournalScan) :=
  match mount_jsb c d with
  | None => None
  | Some jsb =>
      match scan_committed (jsb_tail_seq jsb) (jsb_tail_block jsb) (jsb_block_count jsb - 1)
              BLOCK_SIZE (read_region c d) with
      | Some (Ok scan) => Some (jsb, scan)
      | _ => None
      end
  end.

(** ** The system *)

(** Where the committer is inside [seal_and_commit]. *)
Inductive pc :=
| Idle
| Popped (tx : Transaction)
| Built (tx : Transaction) (t : jtx) (attempt : Z)
| InFlight (t : jtx) (pos : Z)
| Flushed (t : jtx) (pos : Z)
| Durable (t : jtx) (pos : Z)
| Published.

(** [s_log] is a history variable: every transaction whose commit block has
    been written, in order. *)
Record sys := mk_sys {
  s_j : Journal;
  s_disk : disk;
  s_pc : pc;
  s_log : list jtx
}.

(** The blocks of the journal region, superblock included. *)
Definition in_region (c : config) (lba : Z) : Prop :=
  ∃ r, 0 <= r < block_count c ∧
    lba = partition_start_lba c + (first_block c + r) * SECTORS_PER_BLOCK.

(** [advance_tail] with its superblock write. *)
Definition advance_and_write (c : config) (is_dirty : Z * Z → bool) (j : Journal) (d : disk)
    : outcome (Journal * disk) :=
  let '(changed, j') := advance_tail is_dirty j in
  if (changed : bool)
  then b ← write_journal_sb c (jn_state j'); Ret (j', disk_write (sb_lba c) b d)
  else Ret (j', d).

Inductive step (c : config) : sys → sys → Prop :=
(** Other threads, at any point of the commit. *)
| step_drop j d p l dirty h :
    step c (mk_sys j d p l) (mk_sys (tx_drop c dirty h j) d p l)
| step_seal j d p l :
    step c (mk_sys j d p l) (mk_sys (seal_active j).2 d p l)
| step_note j d p l dev block seq :
    step c (mk_sys j d p l) (mk_sys (note_checkpointed dev block seq j) d p l)
| step_home j d p l lba b :
    ¬ in_region c lba → step c (mk_sys j d p l) (mk_sys j (disk_write lba b d) p l)
(** The committer. *)
| step_advance j d l is_dirty j' d' :
    advance_and_write c is_dirty j d = Ret (j', d') →
    step c (mk_sys j d Idle l) (mk_sys j' d' Idle l)
| step_pop j d l tx j' :
    pop_sealed j = Some (tx, j') → step c (mk_sys j d Idle l) (mk_sys j' d (Popped tx) l)
| step_empty j d l tx :
    tx_is_empty tx = true →
    step c (mk_sys j d (Popped tx) l) (mk_sys (finish_empty tx j) d Idle l)
| step_build j d l tx page :
    tx_is_empty tx = false → (∀ p, length (page p) = BLOCK_SIZE) →
    step c (mk_sys j d (Popped tx) l) (mk_sys j d (Built tx (build_jtx page tx) 0) l)
| step_checkpoint j d l tx t a is_dirty j' d' :
    reserve c (jn_state j) t = None → a + 1 < CHECKPOINT_ATTEMPTS →
    advance_and_write c is_dirty j d = Ret (j', d') →
    step c (mk_sys j d (Built tx t a) l) (mk_sys j' d' (Built tx t (a + 1)) l)
| step_give_up j d l tx t a :
    reserve c (jn_state j) t = None → a + 1 = CHECKPOINT_ATTEMPTS →
    step c (mk_sys j d (Built tx t a) l) (mk_sys (unpop_sealed tx j) d Idle l)
| step_submit j d l tx t a pos :
    reserve c (jn_state j) t = Some pos →
    step c (mk_sys j d (Built tx t a) l) (mk_sys j d (InFlight t pos) l)
| step_flush j d l t pos blocks :
    commit_batch t = Ret blocks →
    step c (mk_sys j d (InFlight t pos) l) (mk_sys j (disk_put_all c pos blocks d) (Flushed t pos) l)
| step_commit j d l t pos b :
    commit_block t = Ret b →
    step c (mk_sys j d (Flushed t pos) l)
      (mk_sys j (disk_write (journal_block_lba c ((pos + needed t - 1) mod ring_size c)) b d)
         (Durable t pos) (l ++ [t]))
| step_finish j d l t pos :
    step c (mk_sys j d (Durable t pos) l) (mk_sys (finish_commit t (pos + needed t) j) d Published l)
| step_publish j d l b :
    write_journal_sb c (jn_state j) = Ret b →
    step c (mk_sys j d Published l) (mk_sys j (disk_write (sb_lba c) b d) Idle l).

(** What a power cut can leave. While the batch is in flight every block of
    it may be old, new or torn; every other step is one synchronous write. *)
Inductive crash_image (c : config) : sys → disk → Prop :=
| crash_now s : crash_image c s (s_disk s)
| crash_in_flight j d l t pos blocks d' :
    commit_batch t = Ret blocks →
    (∀ lba, d' lba = d lba ∨
       ∃ (k : nat) b, blocks !! k = Some b ∧ lba = journal_block_lba c (pos + Z.of_nat k) ∧
         (take sizeof_hdr (d' lba) = take sizeof_hdr (d lba) ∨
          take sizeof_hdr (d' lba) = take sizeof_hdr b)) →
    crash_image c (mk_sys j d (InFlight t pos) l) d'.

(** The transactions in flight have a representation on the ring, the tail has
    not passed them, and no cursor has left 64 bits. *)
Definition in_flight_ok (s : sys) : Prop :=
  match s_pc s with
  | Built _ t _ => jtx_ok BLOCK_SIZE t ∧ st_tail_seq (jn_state (s_j s)) <= j_seq t
  | _ => True
  end.

Definition cursors_ok (s : sys) : Prop :=
  let st := jn_state (s_j s) in
  in_width 64 (st_tail_seq st) ∧ in_width 64 (st_head_seq st) ∧
  in_width 64 (st_tail_block st) ∧ in_width 64 (st_head_block st).

Definition sane_step (c : config) (s s' : sys) : Prop :=
  step c s s' ∧ in_flight_ok s' ∧ cursors_ok s'.

(** A usable journal region. *)
Definition config_ok (c : config) : Prop := 2 <= block_count c < 2 ^ 32.

(** A freshly mounted journal: the cursors of the superblock on disk, and no
    commit block from the next sequence on anywhere in the ring. *)
Definition initial (c : config) (s : sys) : Prop :=
  ∃ seq block, in_width 64 seq ∧ in_width 64 block ∧
    s_j s = journal_new seq seq block ∧ s_pc s = Idle ∧ s_log s = [] ∧
    no_commit (ring_size c) (ring_view c (s_disk s)) seq ∧
    ∃ jsb, mount_jsb c (s_disk s) = Some jsb ∧ jsb_tail_seq jsb = seq ∧
      jsb_tail_block jsb = block ∧ jsb_block_count jsb = block_count c.

Definition reachable (c : config) (s : sys) : Prop :=
  ∃ s0, initial c s0 ∧ rtc (sane_step c) s0 s.

(** ** Addresses *)

Section Proofs.
Context (c : config) (Hc : config_ok c).

Lemma ring_size_pos : 0 < ring_size c.
Proof. unfold ring_size. destruct Hc. lia. Qed.

Lemma lba_inj i k :
  0 <= i < ring_size c → journal_block_lba c i = journal_block_lba c k → i = k mod ring_size c.
Proof.
  intros Hi. unfold journal_block_lba, SECTORS_PER_BLOCK. rewrite (Z.mod_small i) by done. lia.
Qed.

Lemma lba_mod i : journal_block_lba c (i mod ring_size c) = journal_block_lba c i.
Proof.
  unfold journal_block_lba. pose proof ring_size_pos. by rewrite Z.mod_mod by lia.
Qed.

Lemma lba_region i : in_region c (journal_block_lba c i).
Proof.
  exists (i mod ring_size c + 1). pose proof (Z.mod_pos_bound i (ring_size c) ring_size_pos).
  unfold ring_size in *. split; [lia|done].
Qed.

Lemma sb_lba_ne i : journal_block_lba c i ≠ sb_lba c.
Proof.
  pose proof (Z.mod_pos_bound i (ring_size c) ring_size_pos).
  unfold journal_block_lba, sb_lba, SECTORS_PER_BLOCK. lia.
Qed.

Lemma sb_region : in_region c (sb_lba c).
Proof. exists 0. destruct Hc. split; [lia|]. unfold sb_lba. f_equal. f_equal. lia. Qed.

(** The reader of [replay] reads the ring the committer writes. *)
Lemma read_region_ring d i :
  0 <= i < ring_size c → read_region c d (i + 1) = Ok (ring_view c d i).
Proof. intros Hi. unfold read_region, ring_view, journal_block_lba. by rewrite Z.mod_small. Qed.

Lemma ring_view_write_other lba b d :
  (∀ i, journal_block_lba c i ≠ lba) → ∀ i, ring_view c (disk_write lba b d) i = ring_view c d i.
Proof.
  intros H i. unfold ring_view, disk_write. specialize (H i).
  by replace (journal_block_lba c i =? lba) with false by lia.
Qed.

Lemma ring_view_write pos b d i :
  0 <= i < ring_size c →
  ring_view c (disk_write (journal_block_lba c (pos mod ring_size c)) b d) i =
  ring_put (ring_size c) pos b (ring_view c d) i.
Proof.
  intros Hi. unfold ring_view, disk_write, ring_put. rewrite lba_mod.
  destruct (Z.eqb_spec i (pos mod ring_size c)) as [->|Hne].
  - by rewrite lba_mod, Z.eqb_refl.
  - destruct (Z.eqb_spec (journal_block_lba c i) (journal_block_lba c pos)) as [Heq|]; [|done].
    by apply lba_inj in Heq.
Qed.

Lemma ring_view_put_all pos blocks : ∀ d r,
  (∀ i, 0 <= i < ring_size c → ring_view c d i = r i) →
  ∀ i, 0 <= i < ring_size c →
  ring_view c (disk_put_all c pos blocks d) i = ring_put_all (ring_size c) pos blocks r i.
Proof.
  revert pos; induction blocks as [|b l IH]; intros pos d r Hr i Hi; [by apply Hr|].
  cbn [disk_put_all ring_put_all]. apply IH; [|done]. intros i' Hi'.
  rewrite ring_view_write by done. unfold ring_put. by rewrite Hr.
Qed.

Lemma disk_put_all_sb pos blocks d : disk_put_all c pos blocks d (sb_lba c) = d (sb_lba c).
Proof.
  revert pos d; induction blocks as [|b l IH]; intros pos d; [done|]. cbn [disk_put_all].
  rewrite IH. unfold disk_write. pose proof (sb_lba_ne (pos mod ring_size c)).
  by replace (sb_lba c =? journal_block_lba c (pos mod ring_size c)) with false by lia.
Qed.

(** The invariants of the ring only read its slots. *)
Lemma ring_inv_ext ts tb r r' l :
  (∀ i, 0 <= i < ring_size c → r' i = r i) →
  ring_inv ts tb (ring_size c) BLOCK_SIZE r l → ring_inv ts tb (ring_size c) BLOCK_SIZE r' l.
Proof.
  intros Hr [Hok Hs Hh Hf Hn]. split; [done..| |done|].
  - intros i b Hi. unfold at_pos. rewrite Hr by (apply Z.mod_pos_bound, ring_size_pos).
    by apply Hh.
  - intros i seq Hi Hseq. rewrite Hr by done. by apply Hn.
Qed.

(** ** The superblock *)

Lemma mount_jsb_ext d d' : d' (sb_lba c) = d (sb_lba c) → mount_jsb c d' = mount_jsb c d.
Proof. intros H. unfold mount_jsb. by rewrite H. Qed.

Lemma jsb_bytes_ok sb : Forall byte_ok (jsb_reserved sb) → Forall byte_ok (jsb_bytes sb).
Proof. intros H. unfold jsb_bytes. repeat (apply Forall_app; split; [apply le_bytes_ok|]). done. Qed.

Lemma make_jsb_ok s :
  in_width 64 (st_tail_seq s) → in_width 64 (st_head_seq s) →
  in_width 64 (st_tail_block s) → in_width 64 (st_head_block s) → jsb_ok (make_jsb c s).
Proof.
  intros. unfold jsb_ok, make_jsb. cbn [jsb_magic jsb_version jsb_block_count jsb_block_size
    jsb_tail_seq jsb_head_seq jsb_tail_block jsb_head_block jsb_crc32 jsb_reserved].
  destruct Hc. unfold config_ok in *.
  split_and!; [unfold in_width, JOURNAL_MAGIC; simpl; lia|unfold in_width; lia|unfold in_width; lia
    |rewrite BLOCK_SIZE_eq; unfold in_width; lia|assumption..| |reflexivity].
  apply Crc32.crc32_width, jsb_bytes_ok. cbn [jsb_reserved]. repeat constructor; unfold byte_ok; lia.
Qed.

Lemma mount_jsb_written s b d :
  in_width 64 (st_tail_seq s) → in_width 64 (st_head_seq s) →
  in_width 64 (st_tail_block s) → in_width 64 (st_head_block s) →
  write_journal_sb c s = Ret b → mount_jsb c (disk_write (sb_lba c) b d) = Some (make_jsb c s).
Proof.
  intros ???? Hw. rewrite write_journal_sb_ok in Hw. apply Ret_inj in Hw as <-.
  unfold mount_jsb, disk_write. rewrite Z.eqb_refl, jsb_read_bytes by (by apply make_jsb_ok).
  replace (jsb_magic (make_jsb c s) =? JOURNAL_MAGIC) with true by (symmetry; apply Z.eqb_eq; done).
  replace (jsb_version (make_jsb c s) =? 1) with true by done. cbn [negb].
  replace (jsb_crc32 (make_jsb c s) =? journal_sb_checksum (make_jsb c s)) with true; [done|].
  symmetry. apply Z.eqb_eq. reflexivity.
Qed.

End Proofs.

End JournalCrash.
