(* ===== verification/JournalSafety.v ===== *)
(** * The journal's system invariant and crash recovery

    The invariant that ties the in-memory cursors, the ring, the superblock
    and the queue of sealed transactions together, its preservation by every
    step, and the recovery theorem. *)

From S2P Require Import Prelude Crc32 BTree JournalFormat JournalScan JournalRing Journal JournalCrash.
Import JournalFormat JournalScan JournalRing Journal JournalCrash.

Module JournalSafety.

(** Sequence numbers popped from the queue and not yet published. *)
Definition flight (p : pc) : list Z :=
  match p with
  | Popped tx | Built tx _ _ => [tx_seq tx]
  | InFlight t _ | Flushed t _ | Durable t _ => [j_seq t]
  | Idle | Published => []
  end.

(** The transaction whose commit block is on disk but not yet published. *)
Definition durable (p : pc) : list jtx :=
  match p with Durable t _ => [t] | _ => [] end.

Fixpoint consecutive (n : Z) (l : list Z) : Prop :=
  match l with [] => True | x :: l' => x = n ∧ consecutive (n + 1) l' end.

Lemma consecutive_app n a b :
  consecutive n (a ++ b) ↔ consecutive n a ∧ consecutive (n + Z.of_nat (length a)) b.
Proof.
  revert n; induction a as [|x a IH]; intros n; simpl.
  - rewrite Z.add_0_r. tauto.
  - rewrite IH. replace (n + 1 + Z.of_nat (length a)) with (n + Z.of_nat (S (length a))) by lia. tauto.
Qed.

Definition escaped (t : jtx) : Prop := Forall (λ b, first_word b ≠ JOURNAL_BLOCK_MAGIC) (j_data t).

Section Safety.
Context (c : config) (Hc : config_ok c).

Definition pc_inv (st : JournalState) (d : disk) (live : list jtx) (p : pc) : Prop :=
  match p with
  | Idle | Published => True
  | Popped tx => tx_is_empty tx = false
  | Built tx t _ => tx_is_empty tx = false ∧ j_seq t = tx_seq tx ∧ escaped t ∧ jtx_ok BLOCK_SIZE t
  | InFlight t pos =>
      pos = st_head_block st ∧ next_tx (ring_size c) BLOCK_SIZE (st_tail_seq st) live t
  | Flushed t pos =>
      pos = st_head_block st ∧ next_tx (ring_size c) BLOCK_SIZE (st_tail_seq st) live t ∧
      holds (ring_size c) (ring_view c d) pos (body_blocks BLOCK_SIZE t)
  | Durable t pos => pos = st_head_block st
  end.

Record inv (j : Journal) (d : disk) (p : pc) (log old live : list jtx) : Prop := {
  i_ring : ring_inv (st_tail_seq (jn_state j)) (st_tail_block (jn_state j)) (ring_size c) BLOCK_SIZE
             (ring_view c d) (live ++ durable p);
  i_log : log = old ++ live ++ durable p;
  i_old : Forall (λ t, j_seq t < st_tail_seq (jn_state j)) old;
  i_pending : st_committed_pending (jn_state j) = (λ t, (j_seq t, needed t)) <$> live;
  i_head : st_head_block (jn_state j) = st_tail_block (jn_state j) + total_len BLOCK_SIZE live;
  i_queue : consecutive (st_tail_seq (jn_state j) + Z.of_nat (length live))
              (flight p ++ (tx_seq <$> st_sealed (jn_state j)));
  i_headseq : st_head_seq (jn_state j) =
    st_tail_seq (jn_state j) + Z.of_nat (length live) +
    Z.of_nat (length (flight p ++ (tx_seq <$> st_sealed (jn_state j))));
  i_active : tx_seq (st_active (jn_state j)) = st_head_seq (jn_state j);
  i_nonempty : Forall (λ tx, tx_is_empty tx = false) (st_sealed (jn_state j));
  i_sb : ∃ jsb, mount_jsb c d = Some jsb ∧ jsb_tail_seq jsb = st_tail_seq (jn_state j) ∧
    jsb_tail_block jsb = st_tail_block (jn_state j) ∧ jsb_block_count jsb = block_count c;
  i_pc : pc_inv (jn_state j) d live p
}.

(** ** Steps of other threads *)

(** What merging a handle and sealing may change: the open transaction, the
    tracker and the back of the sealed queue. *)
Definition client (j j' : Journal) : Prop :=
  let s := jn_state j in let s' := jn_state j' in
  st_tail_seq s' = st_tail_seq s ∧ st_tail_block s' = st_tail_block s ∧
  st_head_block s' = st_head_block s ∧ st_committed_pending s' = st_committed_pending s ∧
  ((st_sealed s' = st_sealed s ∧ st_head_seq s' = st_head_seq s ∧
    tx_seq (st_active s') = tx_seq (st_active s)) ∨
   (∃ tx, st_sealed s' = st_sealed s ++ [tx] ∧ tx_is_empty tx = false ∧
      tx_seq tx = tx_seq (st_active s) ∧ st_head_seq s' = st_head_seq s + 1 ∧
      tx_seq (st_active s') = st_head_seq s + 1)).

Lemma client_refl j : client j j.
Proof. unfold client. tauto. Qed.

Lemma client_seal j : client j (seal_active j).2.
Proof.
  unfold seal_active. destruct (tx_is_empty (st_active (jn_state j))) eqn:E; [apply client_refl|].
  unfold client. cbn. split_and!; [done..|]. right. eauto 10.
Qed.

Lemma client_drop dirty h j : client j (tx_drop c dirty h j).
Proof.
  unfold tx_drop. destruct (th_aborted h); [apply client_refl|].
  assert (H : client j (seal_if_full c (tx_merge dirty h j)).2).
  { unfold seal_if_full. destruct (_ <? _); [unfold client; cbn; tauto|].
    pose proof (client_seal (tx_merge dirty h j)) as Hs. unfold client in *. exact Hs. }
  by destruct (th_blocks h), (th_revokes h); [apply client_refl|..].
Qed.

Lemma client_note dev block seq j : client j (note_checkpointed dev block seq j).
Proof.
  unfold note_checkpointed. destruct (bget _ _); [|apply client_refl].
  destruct (_ =? _); [|apply client_refl]. unfold client. cbn. tauto.
Qed.

Lemma pc_inv_state st st' d live p :
  st_head_block st' = st_head_block st → st_tail_seq st' = st_tail_seq st →
  pc_inv st d live p → pc_inv st' d live p.
Proof. intros H1 H2. destruct p; simpl; rewrite ?H1, ?H2; auto. Qed.

Lemma inv_client j j' d p log old live :
  client j j' → inv j d p log old live → inv j' d p log old live.
Proof.
  intros (Ht & Htb & Hhb & Hp & Hcase) []. split; rewrite ?Ht, ?Htb, ?Hhb, ?Hp; try done.
  - destruct Hcase as [(-> & _)|(tx & -> & _ & Hseq & _)]; [done|].
    rewrite fmap_app, app_assoc. apply consecutive_app. split; [done|]. simpl. split; [|done].
    rewrite Hseq, i_active0, i_headseq0. done.
  - destruct Hcase as [(-> & -> & _)|(tx & -> & _ & Hseq & -> & _)]; [done|].
    rewrite i_headseq0, fmap_app, app_assoc, (length_app _ (tx_seq <$> [tx])). simpl. lia.
  - destruct Hcase as [(_ & -> & ->)|(tx & _ & _ & _ & -> & ->)]; done.
  - destruct Hcase as [(-> & _)|(tx & -> & Hne & _)]; [done|].
    apply Forall_app; split; [done|by constructor].
  - by eapply pc_inv_state.
Qed.

(** Writes outside the journal region. *)
Lemma inv_home j d p log old live lba b :
  ¬ in_region c lba → inv j d p log old live → inv j (disk_write lba b d) p log old live.
Proof.
  intros Hout [].
  assert (Hr : ∀ i, ring_view c (disk_write lba b d) i = ring_view c d i).
  { apply ring_view_write_other. intros i <-. apply Hout. by apply lba_region. }
  split; try done.
  - eapply ring_inv_ext; [done| |done]. auto.
  - rewrite (mount_jsb_ext c d); [done|]. unfold disk_write.
    destruct (Z.eqb_spec (sb_lba c) lba) as [<-|]; [|done]. exfalso. by apply Hout, sb_region.
  - destruct p; simpl in *; try done. destruct i_pc0 as (? & ? & Hh). split_and!; [done..|].
    intros k x Hk. unfold at_pos. rewrite Hr. by apply Hh.
Qed.

(** ** Tail advance *)

Definition pend (live : list jtx) : list (Z * Z) := (λ t, (j_seq t, needed t)) <$> live.

Lemma retire_spec bound ring live : ∀ ts tb ch ts' tb' pending' ch',
  ring_inv ts tb (ring_size c) BLOCK_SIZE ring live →
  retire bound ts tb (pend live) ch = (ts', tb', pending', ch') →
  ∃ popped rest, live = popped ++ rest ∧ pending' = pend rest ∧
    ts' = ts + Z.of_nat (length popped) ∧ tb' = tb + total_len BLOCK_SIZE popped ∧
    ring_inv ts' tb' (ring_size c) BLOCK_SIZE ring rest ∧
    Forall (λ t, j_seq t < ts') popped ∧ (ch' = false → ch = false ∧ popped = []).
Proof.
  induction live as [|t live IH]; intros ts tb ch ts' tb' pending' ch' Hr.
  - intros [= <- <- <- <-]. exists [], []. split_and!; [done| |..]; try done; simpl; lia.
  - unfold pend. rewrite fmap_cons. fold (pend live). cbn [retire].
    destruct (j_seq t >=? bound) eqn:Eb.
    + intros [= <- <- <- <-]. exists [], (t :: live). split_and!; [done| |..]; try done; simpl; lia.
    + intros H. destruct (ri_seqs _ _ _ _ _ _ Hr) as [Hs _].
      apply ring_inv_retire in Hr. rewrite needed_tx_len, Hs in H.
      apply IH in H as (popped & rest & -> & -> & -> & -> & Hr' & Hall & Hch); [|done].
      exists (t :: popped), rest. cbn [length total_len foldr]. fold (total_len BLOCK_SIZE popped).
      assert (Hts : ts + Z.of_nat (S (length popped)) = ts + 1 + Z.of_nat (length popped)) by lia.
      rewrite Hts, Z.add_assoc. split_and!; [done..| |].
      * constructor; [lia|]. eapply Forall_impl; [exact Hall|]. simpl. intros. lia.
      * intros Hf. by apply Hch in Hf as [? _].
Qed.

Lemma advance_inv j d p log old live is_dirty j' d' :
  inv j d p log old live → durable p = [] →
  advance_and_write c is_dirty j d = Ret (j', d') →
  (p = Idle ∨ ∃ tx t a, p = Built tx t a ∧ st_tail_seq (jn_state j') <= j_seq t) →
  cursors_ok (mk_sys j' d' p log) →
  ∃ old' live', inv j' d' p log old' live'.
Proof.
  intros Hinv Hd Hadv Hp Hcur. destruct Hinv. rewrite Hd, app_nil_r in i_ring0, i_log0.
  unfold advance_and_write, advance_tail in Hadv.
  cbn [prune_checkpointed set_tracker jn_state] in Hadv.
  set (bound := min_journaled_seq _) in Hadv. rewrite i_pending0 in Hadv. fold (pend live) in Hadv.
  destruct (retire bound _ _ (pend live) false) as [[[ts' tb'] pending'] ch'] eqn:Er.
  eapply retire_spec in Er as (popped & rest & -> & -> & -> & -> & Hr & Hall & Hch); [|done].
  rewrite total_len_app in i_head0. rewrite length_app in i_queue0, i_headseq0.
  destruct (catch_up _ _ _) eqn:Eup.
  { exfalso. unfold catch_up in Eup. destruct rest as [|]; [|done].
    destruct (st_sealed (jn_state j)) eqn:Es; [|done]. rewrite orb_true_r in Hadv.
    rewrite write_journal_sb_ok in Hadv. apply Ret_inj in Hadv as [= <- <-]. to_lia. simpl in *.
    destruct Hp as [->|(tx & t & a & -> & Hle)]; simpl in *; [lia|].
    destruct i_pc0 as (_ & Hseq & _). destruct i_queue0 as [Hq _]. lia. }
  assert (Hold : Forall (λ t, j_seq t < st_tail_seq (jn_state j) + Z.of_nat (length popped)) (old ++ popped)).
  { apply Forall_app; split; [|done]. eapply Forall_impl; [exact i_old0|]. simpl. intros. lia. }
  exists (old ++ popped), rest. rewrite orb_false_r in Hadv.
  assert (Hpc : ∀ st d', pc_inv st d' rest p)
    by (destruct Hp as [->|(tx & t & a & -> & _)]; [done|]; intros; apply i_pc0).
  replace (st_tail_seq (jn_state j) + Z.of_nat (length popped + length rest))
    with (st_tail_seq (jn_state j) + Z.of_nat (length popped) + Z.of_nat (length rest)) in * by lia.
  destruct ch'.
  - rewrite write_journal_sb_ok in Hadv. apply Ret_inj in Hadv as [= <- <-].
    destruct Hcur as (H1 & H2 & H3 & H4). split; cbn [set_state jn_state st_tail_seq st_tail_block
      st_head_block st_head_seq st_committed_pending st_sealed st_active] in *; try done.
    + rewrite Hd, app_nil_r. eapply ring_inv_ext; [done| |done]. intros i _.
      apply ring_view_write_other. intros i' Heq. by eapply sb_lba_ne.
    + by rewrite Hd, app_nil_r, i_log0, app_assoc.
    + lia.
    + eexists. split_and!; [apply mount_jsb_written; [done..|apply write_journal_sb_ok]|done..].
  - apply Ret_inj in Hadv as [= <- <-]. destruct Hch as [_ ->]; [done|].
    cbn [length total_len foldr] in *. rewrite !Z.add_0_r in *.
    split; cbn [set_state jn_state st_tail_seq st_tail_block
      st_head_block st_head_seq st_committed_pending st_sealed st_active] in *; try done.
    + by rewrite Hd, app_nil_r.
    + by rewrite Hd, app_nil_r, app_nil_r, i_log0.
Qed.

(** ** The commit sequence *)

Lemma reserve_fits j t pos live ts :
  reserve c (jn_state j) t = Some pos →
  st_head_block (jn_state j) = st_tail_block (jn_state j) + total_len BLOCK_SIZE live →
  total_len BLOCK_SIZE live <= ring_size c →
  j_seq t = ts + Z.of_nat (length live) → jtx_ok BLOCK_SIZE t → escaped t →
  pos = st_head_block (jn_state j) ∧ next_tx (ring_size c) BLOCK_SIZE ts live t.
Proof.
  intros Hres Hh Hf Hseq Hok He. unfold reserve in Hres.
  assert (Hu : wrap 64 (st_head_block (jn_state j) - st_tail_block (jn_state j)) = total_len BLOCK_SIZE live).
  { unfold wrap. rewrite Hh, Z.add_simpl_l. apply Z.mod_small. pose proof (total_len_nonneg BLOCK_SIZE live).
    unfold ring_size in *. destruct Hc. lia. }
  rewrite Hu in Hres. destruct (needed t <=? _) eqn:E; [|done]. injection Hres as <-.
  rewrite needed_tx_len in E. unfold sat_sub in E. to_lia. split; [done|].
  split; [done..|]. pose proof (tx_len_ge2 BLOCK_SIZE t). lia.
Qed.

Lemma flush_inv j d t pos log old live :
  inv j d (InFlight t pos) log old live →
  inv j (disk_put_all c pos (body_blocks BLOCK_SIZE t) d) (Flushed t pos) log old live.
Proof.
  intros []. destruct i_pc0 as [-> Hn]. cbn [durable] in *. rewrite app_nil_r in *.
  set (blocks := body_blocks BLOCK_SIZE t). set (pos := st_head_block (jn_state j)) in *.
  assert (Hv : ∀ i, 0 <= i < ring_size c → ring_view c (disk_put_all c pos blocks d) i =
                ring_put_all (ring_size c) pos blocks (ring_view c d) i)
    by (apply ring_view_put_all; auto).
  assert (Hlen : Z.of_nat (length blocks) <= ring_size c).
  { unfold blocks. rewrite length_body. destruct Hn. pose proof (total_len_nonneg BLOCK_SIZE live). lia. }
  split; try done; cbn [durable]; rewrite ?app_nil_r; try done.
  - eapply ring_inv_ext; [done|exact Hv|]. eapply ring_inv_body; [by apply ring_size_pos|done|done|].
    unfold head_pos. rewrite <- i_head0. by apply torn_write_complete; [apply ring_size_pos|].
  - destruct i_sb0 as (jsb & Hm & ?). exists jsb. split; [|done].
    rewrite (mount_jsb_ext c d); [done|]. by apply disk_put_all_sb.
  - split_and!; [done..|]. intros k b Hk. unfold at_pos. rewrite Hv by (apply Z.mod_pos_bound; by apply ring_size_pos).
    eapply ring_put_all_at; [by apply ring_size_pos|done|done].
Qed.

Lemma commit_inv j d t pos log old live :
  inv j d (Flushed t pos) log old live →
  inv j (disk_write (journal_block_lba c ((pos + needed t - 1) mod ring_size c)) (commit_of BLOCK_SIZE t) d)
    (Durable t pos) (log ++ [t]) old live.
Proof.
  intros []. destruct i_pc0 as (-> & Hn & Hh). cbn [durable] in *. rewrite app_nil_r in *.
  split; try done; cbn [durable].
  - eapply ring_inv_ext; [done|intros i Hi; by apply ring_view_write|].
    rewrite needed_tx_len, i_head0. rewrite i_head0 in Hh.
    apply (ring_inv_commit (ring_size c) BLOCK_SIZE); [by apply ring_size_pos|done..].
  - by rewrite i_log0, <- app_assoc.
  - destruct i_sb0 as (jsb & Hm & ?). exists jsb. split; [|done].
    rewrite (mount_jsb_ext c d); [done|]. unfold disk_write.
    destruct (Z.eqb_spec (sb_lba c) (journal_block_lba c ((st_head_block (jn_state j) + needed t - 1) mod ring_size c)))
      as [Heq|]; [|done]. exfalso. by eapply sb_lba_ne.
Qed.

Lemma finish_inv j d t pos log old live :
  inv j d (Durable t pos) log old live →
  inv (finish_commit t (pos + needed t) j) d Published log old (live ++ [t]).
Proof.
  intros []. cbn [durable flight pc_inv] in *. subst pos.
  split; cbn [finish_commit jn_state st_tail_seq st_tail_block st_head_block st_head_seq
    st_committed_pending st_sealed st_active durable flight app]; try done; rewrite ?app_nil_r; try done.
  - by rewrite i_pending0, fmap_app.
  - rewrite total_len_app, i_head0, needed_tx_len. simpl. lia.
  - destruct i_queue0 as [_ Hq]. rewrite length_app. simpl.
    by replace (st_tail_seq (jn_state j) + Z.of_nat (length live + 1))
      with (st_tail_seq (jn_state j) + Z.of_nat (length live) + 1) by lia.
  - rewrite i_headseq0, (length_app live), (length_app [j_seq t]). simpl. lia.
Qed.

Lemma publish_inv j d b log old live :
  inv j d Published log old live → write_journal_sb c (jn_state j) = Ret b →
  cursors_ok (mk_sys j (disk_write (sb_lba c) b d) Idle log) →
  inv j (disk_write (sb_lba c) b d) Idle log old live.
Proof.
  intros [] Hw (H1 & H2 & H3 & H4). split; try done.
  - eapply ring_inv_ext; [done| |done]. intros i _.
    apply ring_view_write_other. intros i' Heq. by eapply sb_lba_ne.
  - eexists. split_and!; [by apply mount_jsb_written|done..].
Qed.

Lemma pop_inv j d log old live tx j' :
  pop_sealed j = Some (tx, j') → inv j d Idle log old live → inv j' d (Popped tx) log old live.
Proof.
  unfold pop_sealed. intros H []. destruct (st_sealed (jn_state j)) as [|tx0 rest] eqn:Es; [done|].
  injection H as -> <-. apply Forall_cons in i_nonempty0 as [??].
  split; try done.
Qed.

Lemma give_up_inv j d log old live tx t a :
  inv j d (Built tx t a) log old live → inv (unpop_sealed tx j) d Idle log old live.
Proof. intros []. destruct i_pc0 as (? & _). split; try done. by constructor. Qed.

Lemma built_attempt j d tx t a a' log old live :
  inv j d (Built tx t a) log old live → inv j d (Built tx t a') log old live.
Proof. intros []. split; done. Qed.

Lemma step_inv s s' old live :
  sane_step c s s' → inv (s_j s) (s_disk s) (s_pc s) (s_log s) old live →
  ∃ old' live', inv (s_j s') (s_disk s') (s_pc s') (s_log s') old' live'.
Proof.
  intros (Hstep & Hfl & Hcur) Hinv.
  destruct Hstep; cbn [s_j s_disk s_pc s_log] in *.
  - exists old, live. eapply inv_client; [apply client_drop|done].
  - exists old, live. eapply inv_client; [apply client_seal|done].
  - exists old, live. eapply inv_client; [apply client_note|done].
  - exists old, live. by apply inv_home.
  - eapply advance_inv; [done..|by left|done].
  - exists old, live. by eapply pop_inv.
  - pose proof (i_pc _ _ _ _ _ _ Hinv) as Hpc. simpl in Hpc. congruence.
  - exists old, live. destruct Hinv. split; try done. cbn [in_flight_ok s_pc] in Hfl.
    destruct Hfl as [Hok _]. split_and!; [done|done| |done].
    apply build_jtx_escaped. intros p. rewrite H0, BLOCK_SIZE_eq. lia.
  - apply (built_attempt _ _ _ _ _ (a + 1)) in Hinv.
    eapply advance_inv; [done|done|done| |done]. right. cbn [in_flight_ok s_pc s_j] in Hfl.
    destruct Hfl as [_ Hle]. eauto.
  - exists old, live. by eapply give_up_inv.
  - exists old, live. destruct Hinv. destruct i_pc0 as (Hne & Hseq & Hesc & Hok).
    cbn [flight durable] in *. destruct i_queue0 as [Hq Hq']. rewrite app_nil_r in *.
    eapply (reserve_fits j t pos live (st_tail_seq (jn_state j))) in H as [-> Hn];
      [|done|by destruct i_ring0|lia|done|done].
    split; cbn [flight durable]; rewrite ?app_nil_r; try done. simpl. split; [lia|done].
  - exists old, live. assert (Hl : in_width 32 (Z.of_nat (length (j_entries t)))).
    { destruct (i_pc _ _ _ _ _ _ Hinv) as [_ [_ [] _ _]]. done. }
    rewrite commit_batch_ok in H by done. apply Ret_inj in H as <-. by apply flush_inv.
  - exists old, live. rewrite commit_block_ok in H. apply Ret_inj in H as <-. by apply commit_inv.
  - exists old, (live ++ [t]). by apply finish_inv.
  - exists old, live. by apply publish_inv.
Qed.

Lemma reachable_inv s :
  reachable c s → ∃ old live, inv (s_j s) (s_disk s) (s_pc s) (s_log s) old live.
Proof.
  intros (s0 & Hinit & Hrtc). revert s Hrtc. apply rtc_ind_r; [|intros s1 s2 _ Hstep IH].
  - destruct Hinit as (seq & block & _ & _ & Hj & Hp & Hl & Hn & Hsb).
    exists [], []. rewrite Hj, Hp, Hl. split; cbn; try done; try lia.
    split; cbn; try done; [pose proof (ring_size_pos c Hc); lia|by rewrite Z.add_0_r].
  - destruct IH as (old & live & Hinv). by eapply step_inv.
Qed.

(** ** Recovery *)

Lemma torn_disk_ring d d' pos blocks :
  (∀ lba, d' lba = d lba ∨
     ∃ (k : nat) b, blocks !! k = Some b ∧ lba = journal_block_lba c (pos + Z.of_nat k) ∧
       (take sizeof_hdr (d' lba) = take sizeof_hdr (d lba) ∨
        take sizeof_hdr (d' lba) = take sizeof_hdr b)) →
  torn_write (ring_size c) pos blocks (ring_view c d) (ring_view c d') ∧
  d' (sb_lba c) = d (sb_lba c).
Proof.
  intros H. split.
  - intros i Hi. destruct (H (journal_block_lba c i)) as [Heq|(k & b & Hk & Heq & Ht)]; [by left|].
    right. exists k, b. split_and!; [done|by apply lba_inj|done].
  - destruct (H (sb_lba c)) as [Heq|(k & b & Hk & Heq & Ht)]; [done|].
    exfalso. symmetry in Heq. by eapply sb_lba_ne.
Qed.

(** Every image a power cut can leave still satisfies the ring invariant, for
    the transactions whose commit block had been written. *)
Lemma crash_image_inv s d old live :
  inv (s_j s) (s_disk s) (s_pc s) (s_log s) old live → crash_image c s d →
  ring_inv (st_tail_seq (jn_state (s_j s))) (st_tail_block (jn_state (s_j s))) (ring_size c) BLOCK_SIZE
    (ring_view c d) (live ++ durable (s_pc s)) ∧ d (sb_lba c) = s_disk s (sb_lba c).
Proof.
  intros Hinv Hcrash. destruct Hcrash as [s|j d l t pos blocks d' Hb Hd'].
  - by destruct Hinv.
  - cbn [s_j s_disk s_pc s_log] in *. destruct Hinv. destruct i_pc0 as [-> Hn].
    cbn [durable] in *. rewrite app_nil_r in *. apply torn_disk_ring in Hd' as [Ht Hs].
    split; [|done]. eapply ring_inv_body; [by apply ring_size_pos|done|done|].
    unfold head_pos. rewrite <- i_head0.
    rewrite commit_batch_ok in Hb by (by destruct Hn as [_ [] _ _]). by apply Ret_inj in Hb as <-.
Qed.

Lemma filter_live ts (old live : list jtx) :
  Forall (λ t, j_seq t < ts) old → seqs_from ts live →
  filter (λ t, ts <= j_seq t) (old ++ live) = live.
Proof.
  intros Ho Hl. rewrite filter_app. replace (filter (λ t, ts <= j_seq t) old) with (@nil jtx).
  - simpl. assert (H : ∀ n, ts <= n → seqs_from n live → filter (λ t, ts <= j_seq t) live = live).
    { clear. induction live as [|t live IH]; intros n Hn; [done|]. intros [<- Hs].
      rewrite filter_cons_True by lia. f_equal. apply (IH (j_seq t + 1)); [lia|done]. }
    apply (H ts); [lia|done].
  - symmetry. induction Ho; [done|]. rewrite filter_cons_False by lia. done.
Qed.

(** The committed transactions the superblock's tail has not passed. *)
Definition recovered (tail_seq : Z) (log : list jtx) : list jtx :=
  filter (λ t, tail_seq <= j_seq t) log.


End Safety.

(** ** A concrete run: one transaction of one block, up to its commit block *)

Definition demo_cfg : config := mk_cfg 0 10 2048 9.
Definition demo_j0 : Journal := journal_new 1 1 0.
Definition demo_sb : list Z :=
  jsb_bytes (make_jsb demo_cfg (jn_state demo_j0)) ++ replicate (BLOCK_SIZE - sizeof_jsb) 0.
Definition demo_disk : disk := disk_write (sb_lba demo_cfg) demo_sb (λ _, replicate BLOCK_SIZE 0).
Definition demo_handle : TxHandle := enroll_block 0 100 1 begin_tx.
Definition demo_tx : Transaction := mk_tx 1 1 [((0, 100), 1)] [].
Definition demo_page (p : Z) : list Z := replicate BLOCK_SIZE 7.
Definition demo_t : jtx := build_jtx demo_page demo_tx.
Definition demo_j1 : Journal := Eval vm_compute in tx_drop demo_cfg (λ _, true) demo_handle demo_j0.
Definition demo_j2 : Journal := Eval vm_compute in (seal_active demo_j1).2.
Definition demo_j3 : Journal := Eval vm_compute in set_sealed demo_j2 [].
Definition demo_disk1 : disk := disk_put_all demo_cfg 0 (body_blocks BLOCK_SIZE demo_t) demo_disk.
Definition demo_disk2 : disk :=
  disk_write (journal_block_lba demo_cfg ((0 + needed demo_t - 1) mod ring_size demo_cfg))
    (commit_of BLOCK_SIZE demo_t) demo_disk1.
Definition demo_sys : sys := mk_sys demo_j3 demo_disk2 (Durable demo_t 0) [demo_t].

Lemma demo_jtx_ok : jtx_ok BLOCK_SIZE demo_t.
Proof.
  split; try (unfold in_width; simpl; lia).
  - apply block_size_hdr.
  - constructor; [|done]. split_and!; cbn [demo_t escape_entry de_fs_block de_flags de_reserved fst snd];
      try (unfold in_width; lia).
    bool_cases; unfold in_width, DESC_FLAG_ESCAPED; lia.
  - apply Nat.leb_le. vm_compute. reflexivity.
  - constructor; [|done]. apply escape_bytes, Forall_replicate. unfold byte_ok. lia.
  - constructor.
  - constructor.
Qed.

Lemma demo_initial : initial demo_cfg (mk_sys demo_j0 demo_disk Idle []).
Proof.
  assert (Hc : config_ok demo_cfg) by (unfold config_ok; simpl; lia).
  exists 1, 0. split_and!; try done; try (unfold in_width; lia).
  - intros i seq Hi _. cbn [s_disk]. unfold demo_disk. rewrite ring_view_write_other.
    + unfold ring_view, commits_seq, header_is. replace (parse_header (replicate BLOCK_SIZE 0)) with
        (@None JournalBlockHeader) by (vm_compute; reflexivity). done.
    + intros i'. by apply sb_lba_ne.
  - exists (make_jsb demo_cfg (jn_state demo_j0)). split; [|done].
    apply mount_jsb_written; [done|unfold in_width; simpl; lia..|]. apply write_journal_sb_ok.
Qed.

Lemma rtc_sane c s s' s'' :
  step c s s' → in_flight_ok s' → cursors_ok s' → rtc (sane_step c) s' s'' →
  rtc (sane_step c) s s''.
Proof. intros. eapply rtc_l; [|done]. done. Qed.

Ltac demo_cursors := unfold cursors_ok, in_width; simpl; lia.

Definition demo_built : sys := mk_sys demo_j3 demo_disk (Built demo_tx demo_t 0) [].
Definition demo_flight : sys := mk_sys demo_j3 demo_disk (InFlight demo_t 0) [].

Lemma demo_built_run : rtc (sane_step demo_cfg) (mk_sys demo_j0 demo_disk Idle []) demo_built.
Proof.
  eapply rtc_sane; [apply (step_drop _ _ _ _ _ (λ _, true) demo_handle)|done|demo_cursors|].
  change (tx_drop demo_cfg (λ _, true) demo_handle demo_j0) with demo_j1.
  eapply rtc_sane; [apply step_seal|done|demo_cursors|].
  change (seal_active demo_j1).2 with demo_j2.
  eapply rtc_sane; [apply (step_pop _ _ _ _ demo_tx demo_j3); reflexivity|done|demo_cursors|].
  eapply rtc_sane; [apply (step_build _ _ _ _ _ demo_page);
    [done|intros; apply length_replicate]|split; [apply demo_jtx_ok|done]|demo_cursors|].
  apply rtc_refl.
Qed.

Lemma demo_built_reachable : reachable demo_cfg demo_built.
Proof. exists (mk_sys demo_j0 demo_disk Idle []). split; [apply demo_initial|apply demo_built_run]. Qed.

Lemma demo_flight_run : rtc (sane_step demo_cfg) (mk_sys demo_j0 demo_disk Idle []) demo_flight.
Proof.
  etransitivity; [apply demo_built_run|].
  eapply rtc_sane; [apply (step_submit _ _ _ _ _ _ _ 0); vm_compute; reflexivity|done|demo_cursors|].
  apply rtc_refl.
Qed.

Lemma demo_flight_reachable : reachable demo_cfg demo_flight.
Proof. exists (mk_sys demo_j0 demo_disk Idle []). split; [apply demo_initial|apply demo_flight_run]. Qed.

Lemma demo_reachable : reachable demo_cfg demo_sys.
Proof.
  exists (mk_sys demo_j0 demo_disk Idle []). split; [apply demo_initial|].
  etransitivity; [apply demo_flight_run|].
  eapply rtc_sane; [apply step_flush; apply commit_batch_ok; apply demo_jtx_ok|done|demo_cursors|].
  eapply rtc_sane; [apply step_commit, commit_block_ok|done|demo_cursors|]. apply rtc_refl.
Qed.


End JournalSafety.
