(* ===== verification/JournalReplay.v ===== *)
(** * Replaying the journal (kernel/src/fs/journal/replay.rs)

    Pass 2 of [replay]: the home-block writes a scan calls for, issued in
    order with at most sixteen outstanding, and what they leave on disk. *)

From S2P Require Import Prelude Crc32 BTree JournalFormat JournalScan JournalRing Journal JournalCrash JournalSafety.
Import JournalFormat JournalScan JournalRing Journal JournalCrash.

Module JournalReplay.

Definition MAX_INFLIGHT_REPLAY : nat := 16.

(** The writes of one transaction: the [for i in 0..tx.entries.len()] loop. *)
Definition tx_writes (revokes : bmap Z Z) (tx : ScannedTx) : list (Z * list Z) :=
  omap (λ i, replay_write tx i revokes) (seq 0 (length (st_entries tx))).

(** Every write of pass 2 in submission order, as (LBA, data). *)
Definition replay_writes (scan : JournalScan) : list (Z * list Z) :=
  (λ w, (w.1 * SECTORS_PER_BLOCK, w.2)) <$> mjoin (tx_writes (js_revokes scan) <$> js_txs scan).

Record ReplayResult := mk_rr {
  rr_txs_applied : Z;
  rr_next_seq : Z;
  rr_next_block : Z
}.

(** The result when every command succeeds. *)
Definition replay_result (tail_seq tail_block : Z) (scan : JournalScan) : ReplayResult :=
  match js_txs scan with
  | [] => mk_rr 0 tail_seq tail_block
  | txs => mk_rr (Z.of_nat (length txs)) (js_next_seq scan) (js_next_block scan)
  end.

Definition apply_writes (ws : list (Z * list Z)) (d : disk) : disk :=
  fold_left (λ d w, disk_write w.1 w.2 d) ws d.

(** The orders in which a device may complete the writes. Before submitting a
    write, [replay] reaps the oldest until fewer than sixteen are outstanding,
    so a write completes before any write submitted sixteen or more later. *)
Definition completion_order (ws : list (Z * list Z)) (order : list nat) : Prop :=
  order ≡ₚ seq 0 (length ws) ∧
  ∀ a b i j, order !! a = Some i → order !! b = Some j → (i + MAX_INFLIGHT_REPLAY <= j)%nat →
    (a < b)%nat.

Definition complete_in (ws : list (Z * list Z)) (order : list nat) (d : disk) : disk :=
  apply_writes (omap (ws !!.) order) d.

(** ** What the writes leave *)

Lemma apply_writes_app a b d : apply_writes (a ++ b) d = apply_writes b (apply_writes a d).
Proof. apply fold_left_app. Qed.

(** A block ends up with the data of its last write. *)
Lemma apply_writes_last ws d lba :
  apply_writes ws d lba =
  match last (filter (λ w, w.1 = lba) ws) with Some w => w.2 | None => d lba end.
Proof.
  revert d; induction ws as [|w ws IH] using rev_ind; intros d; [done|].
  rewrite apply_writes_app, filter_app. cbn [apply_writes fold_left]. unfold disk_write at 1.
  destruct (Z.eqb_spec lba w.1) as [->|Hne].
  - rewrite filter_cons_True, filter_nil by done. by rewrite last_snoc.
  - rewrite filter_cons_False, filter_nil, app_nil_r by congruence. apply IH.
Qed.

Lemma omap_seq_lookup_mid {A} (l1 l2 : list A) :
  omap ((l1 ++ l2) !!.) (seq (length l1) (length l2)) = l2.
Proof.
  revert l1; induction l2 as [|x l2 IH]; intros l1; [done|].
  cbn [length seq]. cbn [omap list_omap]. rewrite list_lookup_middle by done. f_equal.
  specialize (IH (l1 ++ [x])). rewrite <- app_assoc, length_app in IH.
  simpl in IH. by rewrite Nat.add_1_r in IH.
Qed.

Lemma omap_seq_lookup {A} (l : list A) : omap (l !!.) (seq 0 (length l)) = l.
Proof. apply (omap_seq_lookup_mid []). Qed.

(** The index of a write to [lba]. *)
Definition writes_to (ws : list (Z * list Z)) (lba : Z) (i : nat) : bool :=
  match ws !! i with Some w => w.1 =? lba | None => false end.

Lemma filter_omap_lookup ws lba (order : list nat) :
  filter (λ w : Z * list Z, w.1 = lba) (omap (ws !!.) order) =
  omap (ws !!.) (filter (λ i, writes_to ws lba i = true) order).
Proof.
  induction order as [|i order IH]; [done|]. cbn [omap list_omap].
  assert (Hw : writes_to ws lba i = match ws !! i with Some w => w.1 =? lba | None => false end) by done.
  destruct (ws !! i) as [w|] eqn:E.
  - destruct (Z.eqb_spec w.1 lba) as [Heq|Hne].
    + rewrite filter_cons_True by done. rewrite (filter_cons_True _ i) by done.
      cbn [omap list_omap]. by rewrite E, IH.
    + rewrite filter_cons_False by done. rewrite (filter_cons_False _ i); [done|]. by rewrite Hw.
  - rewrite (filter_cons_False _ i); [done|]. by rewrite Hw.
Qed.

Lemma sorted_filter (q : nat → bool) (order : list nat) :
  (∀ a b i j, (a < b)%nat → order !! a = Some i → order !! b = Some j → q i = true → q j = true →
     (i <= j)%nat) →
  StronglySorted le (filter (λ i, q i = true) order).
Proof.
  induction order as [|x order IH]; intros H; [constructor|].
  assert (Hs : StronglySorted le (filter (λ i, q i = true) order)).
  { apply IH. intros a b i j Hab Ha Hb. by apply (H (S a) (S b)); [lia|..]. }
  destruct (decide (q x = true)) as [Hq|Hq].
  - rewrite filter_cons_True by done. constructor; [done|]. apply Forall_forall.
    intros y Hy. apply list_elem_of_filter in Hy as [Hqy Hy]. apply list_elem_of_lookup in Hy as [b Hb].
    by apply (H O (S b)); [lia|..].
  - by rewrite filter_cons_False.
Qed.

(** Replay's outstanding writes. Whatever order the device completes the
    queued writes in, every block ends with the content of its last write in
    transaction order, provided two writes to the same block are never
    within sixteen commands of each other. *)
Theorem replay_order_independent ws order d lba :
  completion_order ws order →
  (∀ i j w w', (i < j)%nat → ws !! i = Some w → ws !! j = Some w' → w.1 = w'.1 →
     (i + MAX_INFLIGHT_REPLAY <= j)%nat) →
  complete_in ws order d lba =
  match last (filter (λ w, w.1 = lba) ws) with Some w => w.2 | None => d lba end.
Proof.
  intros [Hperm Hord] Hwin. unfold complete_in. rewrite apply_writes_last, filter_omap_lookup.
  assert (Heq : filter (λ i, writes_to ws lba i = true) order =
                filter (λ i, writes_to ws lba i = true) (seq 0 (length ws))).
  { apply (StronglySorted_unique le).
    - apply sorted_filter. intros a b i j Hab Ha Hb Hi Hj.
      destruct (Nat.le_gt_cases i j) as [|Hlt]; [done|]. exfalso.
      unfold writes_to in Hi, Hj. destruct (ws !! i) as [w|] eqn:Ei; [|done].
      destruct (ws !! j) as [w'|] eqn:Ej; [|done]. to_lia.
      assert (j + MAX_INFLIGHT_REPLAY <= i)%nat by (eapply (Hwin j i w' w); [lia|done..|congruence]).
      specialize (Hord b a j i Hb Ha ltac:(done)). lia.
    - apply sorted_filter. intros a b i j Hab Ha Hb _ _.
      apply lookup_seq in Ha as [-> ?]. apply lookup_seq in Hb as [-> ?]. lia.
    - by rewrite Hperm. }
  rewrite Heq, <- filter_omap_lookup, omap_seq_lookup. done.
Qed.

Lemma replay_order_independent_witness :
  complete_in [(8, [1]); (16, [2])] [1; 0]%nat (λ _, []) 8 = [1].
Proof.
  apply (replay_order_independent [(8, [1]); (16, [2])] [1; 0]%nat (λ _, []) 8).
  - split; [apply perm_swap|]. intros a b i j Ha Hb Hij.
    destruct a as [|[|[|]]]; [| |done..]; destruct b as [|[|[|]]]; try done;
      simpl in Ha, Hb; injection Ha as <-; injection Hb as <-; unfold MAX_INFLIGHT_REPLAY in Hij; lia.
  - intros i j w w' Hij Hi Hj Heq. destruct i as [|[|]]; [| |done]; destruct j as [|[|]]; try done; try lia;
      simpl in Hi, Hj; injection Hi as <-; injection Hj as <-; simpl in Heq; lia.
Defined.

(** ** Journalling a page and replaying it *)

(** A transaction at or after [seq] revoked the block. *)
Definition vetoed (revokes : bmap Z Z) (seq fs_block : Z) : bool :=
  match bget fs_block revokes with Some r => r >=? seq | None => false end.

Lemma replay_write_built page tx revokes i dev fs p :
  length (page p) = BLOCK_SIZE → Forall byte_ok (page p) →
  tx_enrolled tx !! i = Some ((dev, fs), p) →
  replay_write (scanned (build_jtx page tx)) i revokes =
  if vetoed revokes (tx_seq tx) fs then None else Some (fs, page p).
Proof.
  intros Hl Hb Hi. rewrite BLOCK_SIZE_eq in Hl.
  unfold replay_write. cbn [scanned build_jtx st_entries st_data_blocks st_seq j_entries j_data j_seq].
  rewrite !list_lookup_fmap, Hi. cbn [fmap option_fmap option_map mbind option_bind fst snd].
  assert (Hgo : (if negb (Z.land (de_flags (escape_entry fs (page p))) DESC_FLAG_ESCAPED =? 0)
                    && (4 <=? length (escape (page p)).2)%nat
                 then splice 0 (le_bytes 4 JOURNAL_BLOCK_MAGIC) (escape (page p)).2
                 else (escape (page p)).2) = page p).
  { rewrite length_escape, (proj2 (Nat.leb_le 4 _)), andb_true_r by lia.
    unfold escape_entry, escape. cbn [de_flags fst snd].
    destruct (first_word (page p) =? JOURNAL_BLOCK_MAGIC) eqn:Ew.
    - change (Z.land DESC_FLAG_ESCAPED DESC_FLAG_ESCAPED =? 0) with false. cbn [negb].
      apply unescape_page; [lia|done|]. by to_lia.
    - change (Z.land 0 DESC_FLAG_ESCAPED =? 0) with true. done. }
  cbn zeta. rewrite Hgo. cbn [escape_entry de_fs_block]. unfold vetoed.
  destruct (bget fs revokes); done.
Qed.

Lemma omap_seq_fmap {A B} (f : nat → option B) (g : A → option B) (l : list A) :
  (∀ i x, l !! i = Some x → f i = g x) → omap f (seq 0 (length l)) = omap g l.
Proof.
  intros H. rewrite <- (omap_seq_lookup l) at 2.
  assert (Hgen : ∀ idx : list nat, (∀ i, i ∈ idx → is_Some (l !! i)) →
    omap f idx = omap g (omap (l !!.) idx)).
  { induction idx as [|i idx IH]; intros Hin; [done|]. cbn [omap list_omap].
    destruct (Hin i) as [x Hx]; [apply elem_of_cons; by left|]. rewrite Hx. cbn [omap list_omap].
    rewrite (H i x Hx), IH; [done|]. intros i' Hi'. apply Hin. apply elem_of_cons. by right. }
  apply Hgen. intros i Hi. apply elem_of_seq in Hi. apply lookup_lt_is_Some. lia.
Qed.

Lemma tx_writes_built page tx revokes :
  (∀ p, length (page p) = BLOCK_SIZE ∧ Forall byte_ok (page p)) →
  tx_writes revokes (scanned (build_jtx page tx)) =
  (λ e : (Z * Z) * Z, (e.1.2, page e.2)) <$>
    filter (λ e : (Z * Z) * Z, vetoed revokes (tx_seq tx) e.1.2 = false) (tx_enrolled tx).
Proof.
  intros Hp. unfold tx_writes.
  assert (Hl : length (st_entries (scanned (build_jtx page tx))) = length (tx_enrolled tx))
    by (cbn; by rewrite length_fmap).
  rewrite Hl, (omap_seq_fmap _ (λ e : (Z * Z) * Z,
    if vetoed revokes (tx_seq tx) e.1.2 then None else Some (e.1.2, page e.2))).
  - clear Hl. induction (tx_enrolled tx) as [|e l IH]; [done|]. cbn [omap list_omap].
    destruct (vetoed revokes (tx_seq tx) e.1.2) eqn:E.
    + rewrite filter_cons_False by congruence. apply IH.
    + rewrite filter_cons_True by done. rewrite fmap_cons. f_equal. apply IH.
  - intros i [[dev fs] p] Hi. destruct (Hp p). by apply (replay_write_built page tx revokes i dev).
Qed.

(** A sealed transaction and the bytes of its pages when it is committed. *)
Definition commit : Type := Transaction * (Z → list Z).
Definition built (e : commit) : jtx := build_jtx e.2 e.1.

(** The writes of [seal_and_commit] for one transaction after another, from ring
    position [pos]: the batch, then the commit block. *)
Fixpoint write_txs (c : config) (pos : Z) (txs : list commit) (d : disk) : outcome disk :=
  match txs with
  | [] => Ret d
  | e :: rest =>
      let t := built e in
      blocks ← commit_batch t;
      b ← commit_block t;
      write_txs c (pos + needed t) rest
        (disk_write (journal_block_lba c ((pos + needed t - 1) mod ring_size c)) b (disk_put_all c pos blocks d))
  end.

(** One descriptor and one revoke block can represent the transaction. *)
Record tx_fits (e : commit) : Prop := {
  tf_seq : in_width 64 (tx_seq e.1);
  tf_id : in_width 64 (tx_tx_id e.1);
  tf_blocks : Forall (λ x : (Z * Z) * Z, in_width 64 x.1.2) (tx_enrolled e.1);
  tf_count : (length (tx_enrolled e.1) <= desc_capacity BLOCK_SIZE)%nat;
  tf_revokes : Forall (λ x : (Z * Z) * unit, in_width 64 x.1.2) (tx_revokes e.1);
  tf_nonzero : Forall (λ x : (Z * Z) * unit, x.1.2 ≠ 0 ∨ tx_seq e.1 ≠ 0) (tx_revokes e.1);
  tf_rcount : (length (tx_revokes e.1) <= revoke_capacity BLOCK_SIZE)%nat;
  tf_pages : ∀ p, length (e.2 p) = BLOCK_SIZE ∧ Forall byte_ok (e.2 p)
}.

Lemma desc_capacity_block : desc_capacity BLOCK_SIZE = 254%nat.
Proof. unfold desc_capacity. rewrite BLOCK_SIZE_eq. vm_compute. reflexivity. Qed.

Lemma tx_fits_ok e : tx_fits e → jtx_ok BLOCK_SIZE (built e).
Proof.
  intros [Hs Hi Hb Hc Hr Hn Hrc Hp]. split; cbn [built build_jtx j_seq j_tx_id j_entries j_data j_revokes]; rewrite ?length_fmap; try done.
  - apply block_size_hdr.
  - apply Forall_fmap. eapply Forall_impl; [exact Hb|]. intros x Hx. unfold de_ok, escape_entry. cbn. split_and!; [done|case_match; unfold in_width, DESC_FLAG_ESCAPED; lia|unfold in_width; lia].
  - rewrite desc_capacity_block in Hc. unfold in_width. lia.
  - apply Forall_fmap, Forall_true. intros x. cbn. apply escape_bytes, Hp.
  - apply Forall_fmap. eapply Forall_impl; [exact Hr|]. intros x Hx. by split.
  - apply Forall_fmap. eapply Forall_impl; [exact Hn|]. done.
Qed.

Section Written.
Context (c : config) (Hc : config_ok c).

(** Committing one more transaction behind those the ring holds. *)
Lemma write_tx_inv tail_seq tail_block ts e d :
  ring_inv tail_seq tail_block (ring_size c) BLOCK_SIZE (ring_view c d) ts → tx_fits e →
  j_seq (built e) = tail_seq + Z.of_nat (length ts) → total_len BLOCK_SIZE ts + tx_len BLOCK_SIZE (built e) <= ring_size c →
  let pos := head_pos tail_block BLOCK_SIZE ts in
  ∃ blocks b, commit_batch (built e) = Ret blocks ∧ commit_block (built e) = Ret b ∧
    let d' := disk_write (journal_block_lba c ((pos + needed (built e) - 1) mod ring_size c)) b (disk_put_all c pos blocks d) in
    ring_inv tail_seq tail_block (ring_size c) BLOCK_SIZE (ring_view c d') (ts ++ [built e]) ∧ d' (sb_lba c) = d (sb_lba c) ∧
    ∀ k, pos + needed (built e) <= k < tail_block + ring_size c → ring_view c d' (k mod ring_size c) = ring_view c d (k mod ring_size c).
Proof.
  intros Hinv Hf Hseq Hfit pos. pose proof (tx_fits_ok e Hf) as Hok. pose proof (ring_size_pos c Hc) as Hrs. pose proof (total_len_nonneg BLOCK_SIZE ts) as Htn.
  pose proof (length_body BLOCK_SIZE (built e)) as Hlb. pose proof (tx_len_ge2 BLOCK_SIZE (built e)) as H2.
  assert (Hnext : next_tx (ring_size c) BLOCK_SIZE tail_seq ts (built e)).
  { split; try done. apply build_jtx_escaped. intros p. destruct (tf_pages _ Hf p) as [-> _]. rewrite BLOCK_SIZE_eq. lia. }
  exists (body_blocks BLOCK_SIZE (built e)), (commit_of BLOCK_SIZE (built e)). split; [apply commit_batch_ok, Hok|]. split; [apply commit_block_ok|]. cbn zeta.
  rewrite needed_tx_len. set (d1 := disk_put_all c pos _ d).
  assert (Hd1 : ∀ i, 0 <= i < ring_size c → ring_view c d1 i = ring_put_all (ring_size c) pos (body_blocks BLOCK_SIZE (built e)) (ring_view c d) i) by (by apply ring_view_put_all).
  assert (Hi1 : ring_inv tail_seq tail_block (ring_size c) BLOCK_SIZE (ring_put_all (ring_size c) pos (body_blocks BLOCK_SIZE (built e)) (ring_view c d)) ts).
  { eapply ring_inv_body; [done|done|done|]. apply torn_write_complete; [done|]. lia. }
  split; [|split].
  - eapply ring_inv_ext; [done| |apply (ring_inv_commit _ _ Hrs _ _ _ _ _ Hi1 Hnext); apply holds_put_all; [done|lia]].
    intros i Hi. rewrite ring_view_write by done. unfold ring_put. by rewrite Hd1.
  - unfold disk_write. pose proof (sb_lba_ne c Hc ((pos + tx_len BLOCK_SIZE (built e) - 1) mod ring_size c)).
    destruct (Z.eqb_spec (sb_lba c) (journal_block_lba c ((pos + tx_len BLOCK_SIZE (built e) - 1) mod ring_size c))) as [E|_]; [by symmetry in E|]. by apply disk_put_all_sb.
  - intros k Hk. unfold pos, head_pos in Hk. pose proof (Z.mod_pos_bound k (ring_size c) Hrs). rewrite ring_view_write by done. unfold ring_put.
    destruct (Z.eqb_spec (k mod ring_size c) ((pos + tx_len BLOCK_SIZE (built e) - 1) mod ring_size c)) as [E|_].
    { symmetry in E. apply mod_inj in E; unfold pos, head_pos in *; lia. }
    rewrite Hd1 by done. apply ring_put_all_other. intros j Hj E. symmetry in E. apply mod_inj in E; unfold pos, head_pos in *; lia.
Qed.

Lemma write_txs_inv txs : ∀ tail_seq tail_block ts d,
  ring_inv tail_seq tail_block (ring_size c) BLOCK_SIZE (ring_view c d) ts → Forall tx_fits txs →
  seqs_from (tail_seq + Z.of_nat (length ts)) (built <$> txs) → total_len BLOCK_SIZE (ts ++ (built <$> txs)) <= ring_size c →
  ∃ d', write_txs c (head_pos tail_block BLOCK_SIZE ts) txs d = Ret d' ∧
    ring_inv tail_seq tail_block (ring_size c) BLOCK_SIZE (ring_view c d') (ts ++ (built <$> txs)) ∧ d' (sb_lba c) = d (sb_lba c) ∧
    ∀ k, tail_block + total_len BLOCK_SIZE (ts ++ (built <$> txs)) <= k < tail_block + ring_size c → ring_view c d' (k mod ring_size c) = ring_view c d (k mod ring_size c).
Proof.
  induction txs as [|e txs IH]; intros tail_seq tail_block ts d Hinv Hf Hs Hl; [exists d; rewrite app_nil_r; done|].
  apply Forall_cons in Hf as [He Hf]. destruct Hs as [Hse Hs]. rewrite fmap_cons, total_len_app in Hl. cbn [total_len foldr] in Hl. fold (total_len BLOCK_SIZE (built <$> txs)) in Hl.
  pose proof (total_len_nonneg BLOCK_SIZE (built <$> txs)).
  destruct (write_tx_inv tail_seq tail_block ts e d Hinv He Hse ltac:(lia)) as (blocks & b & Eb & Ec & Hi & Hsb & Hk). cbn zeta in Hi, Hsb, Hk.
  cbn [write_txs]. rewrite Eb, Ec. cbn [mbind outcome_bind]. set (d1 := disk_write _ _ _) in *.
  destruct (IH tail_seq tail_block (ts ++ [built e]) d1 Hi Hf) as (d' & Ew & Hi' & Hsb' & Hk').
  { rewrite length_app. cbn. replace (tail_seq + Z.of_nat (length ts + 1)) with (tail_seq + Z.of_nat (length ts) + 1) by lia. done. }
  { rewrite !total_len_app. cbn. lia. }
  rewrite <- app_assoc in Hi', Hk'. cbn [app] in Hi', Hk'. exists d'. split_and!; [|done|congruence|].
  - rewrite <- Ew. f_equal. unfold head_pos. rewrite needed_tx_len, total_len_app. cbn. lia.
  - intros k Hb. rewrite Hk' by done. apply Hk. rewrite needed_tx_len. rewrite fmap_cons, total_len_app in Hb. cbn [total_len foldr] in Hb. fold (total_len BLOCK_SIZE (built <$> txs)) in Hb. unfold head_pos. lia.
Qed.
End Written.

(** ** What the revokes of a scan veto *)

Lemma vetoed_merge rs s fs : ∀ m, bwf m → Forall (λ r, 0 <= re_seq r) rs →
  vetoed (merge_revokes m rs) s fs = true ↔ vetoed m s fs = true ∨ ∃ r, r ∈ rs ∧ re_fs_block r = fs ∧ s <= re_seq r.
Proof.
  induction rs as [|r rs IH]; intros m Hm Hrs.
  - cbn. split; [by left|]. intros [|(r & Hr & _)]; [done|]. by apply not_elem_of_nil in Hr.
  - apply Forall_cons in Hrs as [Hr Hrs]. change (merge_revokes m (r :: rs)) with (merge_revokes (merge_revoke m r) rs).
    rewrite IH by (done || by apply binsert_wf). assert (Hone : vetoed (merge_revoke m r) s fs = true ↔ vetoed m s fs = true ∨ (re_fs_block r = fs ∧ s <= re_seq r)).
    { unfold vetoed, merge_revoke. destruct (decide (re_fs_block r = fs)) as [<-|Hne].
      - rewrite bget_binsert_eq by done. assert (Hmax : ∀ a e, (if a >? e then a else e) = Z.max a e) by (intros a e; destruct (Z.gtb_spec a e); lia).
        rewrite Hmax, Z.geb_le. destruct (bget (re_fs_block r) m) as [v|]; cbn [default from_option id]; [rewrite Z.geb_le|]; split.
        + intros Hx. destruct (decide (s <= v)); [by left|right; split; [done|lia]].
        + intros [?|[_ ?]]; lia.
        + intros Hx. right. split; [done|lia].
        + intros [?|[_ ?]]; [done|lia].
      - rewrite bget_binsert_ne by done. tauto. }
    rewrite Hone. split.
    + intros [[?|?]|(x & ? & ?)]; [by left|right; exists r; split; [by left|done]|right; exists x; split; [by right|done]].
    + intros [?|(x & [->|?]%elem_of_cons & ?)]; [left; by left|left; by right|right; by exists x].
Qed.

Lemma merge_vetoes txs s fs : Forall tx_fits txs →
  vetoed (merge_revokes [] (mjoin (j_revokes <$> (built <$> txs)))) s fs = true ↔
  ∃ e, e ∈ txs ∧ s <= tx_seq e.1 ∧ fs ∈ (λ x : (Z * Z) * unit, x.1.2) <$> tx_revokes e.1.
Proof.
  intros Hf. rewrite vetoed_merge.
  - split.
    + intros [?|(r & Hr & <- & Hs)]; [done|]. apply list_elem_of_join in Hr as (l & Hr & Hl). apply list_elem_of_fmap in Hl as (t & -> & Ht).
      apply list_elem_of_fmap in Ht as (e & -> & He). cbn in Hr. apply list_elem_of_fmap in Hr as (x & -> & Hx). exists e. split; [done|]. split; [done|].
      apply list_elem_of_fmap. by exists x.
    + intros (e & He & Hs & Hx). right. apply list_elem_of_fmap in Hx as (x & -> & Hx). exists (mk_re x.1.2 (tx_seq e.1)). split; [|done].
      apply list_elem_of_join. exists (j_revokes (built e)). split; [cbn; apply list_elem_of_fmap; by exists x|]. apply list_elem_of_fmap. exists (built e). split; [done|]. apply list_elem_of_fmap. by exists e.
  - constructor.
  - apply Forall_join, Forall_fmap, Forall_fmap. eapply Forall_impl; [exact Hf|]. intros e He. apply Forall_fmap, Forall_true. intros x. apply (tf_seq _ He).
Qed.

(** C11 Journalling, mounting and replaying reproduces the pages. Take a disk whose
    superblock gives the tail of an empty journal, with no commit block from the
    tail's sequence on, and let the committer write any number of transactions
    there, numbered from the tail's sequence, that fit the ring together and each
    of which has at most 254 blocks and 254 revokes, what one descriptor and one
    revoke block hold (and none revokes block 0 as transaction 0, which reads as
    the end of the list): encoded descriptor, escaped pages, revoke block and commit
    block, wrapped around the ring. Then the mount parses them back from the
    disk, and the writes replay derives are exactly the enrolled blocks of the
    transactions, in commit order and key order, each at its address with the
    bytes of its page (the escaping undone), except those vetoed. A block of a
    transaction is vetoed exactly when a transaction at or after its sequence
    revoked it, provided no stale descriptor of the sequence after the last lies
    in the ring. *)
Theorem replay_restores_pages c jsb d txs :
  config_ok c → mount_jsb c d = Some jsb → jsb_block_count jsb = block_count c →
  no_commit (ring_size c) (ring_view c d) (jsb_tail_seq jsb) →
  Forall tx_fits txs → seqs_from (jsb_tail_seq jsb) (built <$> txs) → total_len BLOCK_SIZE (built <$> txs) <= ring_size c →
  ∃ d' scan, write_txs c (jsb_tail_block jsb) txs d = Ret d' ∧ mount_scan c d' = Some (jsb, scan) ∧
    replay_writes scan = mjoin ((λ e : commit, (λ x : (Z * Z) * Z, (x.1.2 * SECTORS_PER_BLOCK, e.2 x.2)) <$>
      filter (λ x : (Z * Z) * Z, vetoed (js_revokes scan) (tx_seq e.1) x.1.2 = false) (tx_enrolled e.1)) <$> txs) ∧
    ((∀ i, 0 <= i < ring_size c → opens_seq (jsb_tail_seq jsb + Z.of_nat (length txs)) (ring_view c d i) = false) →
     ∀ s fs, vetoed (js_revokes scan) s fs = true ↔
       ∃ e, e ∈ txs ∧ s <= tx_seq e.1 ∧ fs ∈ (λ x : (Z * Z) * unit, x.1.2) <$> tx_revokes e.1).
Proof.
  intros Hc Hm Hbc Hn Hf Hs Hl. pose proof (ring_size_pos c Hc) as Hrs.
  assert (H0 : ring_inv (jsb_tail_seq jsb) (jsb_tail_block jsb) (ring_size c) BLOCK_SIZE (ring_view c d) []).
  { split; [constructor|done|by intros i b Hi|cbn; lia|]. cbn. by rewrite Z.add_0_r. }
  destruct (write_txs_inv c Hc txs (jsb_tail_seq jsb) (jsb_tail_block jsb) [] d H0 Hf) as (d' & Ew & Hi & Hsb & Hk); [cbn; by rewrite Z.add_0_r|done|].
  cbn [app] in Hi, Hk. unfold head_pos in Ew. cbn [total_len foldr] in Ew. rewrite Z.add_0_r in Ew.
  destruct (scan_ring_inv (E := unit) _ _ _ _ (read_region c d') (ring_view c d') Hrs (read_region_ring c d') _ Hi) as (stop & partial & Hscan & Hpart).
  exists d'. eexists. split; [done|]. split; [unfold mount_scan; rewrite (mount_jsb_ext c _ _ Hsb), Hm, Hbc; fold (ring_size c); by rewrite Hscan|].
  cbn [js_txs js_revokes]. split.
  - unfold replay_writes. cbn [js_txs js_revokes]. generalize (merge_revokes [] (mjoin (j_revokes <$> (built <$> txs)) ++ partial)) as rv. intros rv. rewrite <- !list_fmap_compose. clear - Hf.
    induction Hf as [|e l He _ IH]; [done|]. rewrite !fmap_cons, !mjoin_cons, fmap_app, IH. f_equal. cbn [compose]. unfold built. rewrite tx_writes_built by apply He.
    by rewrite <- list_fmap_compose.
  - intros Ho s fs. rewrite Hpart; [rewrite app_nil_r; by apply merge_vetoes|]. destruct (decide (total_len BLOCK_SIZE (built <$> txs) = ring_size c)) as [|Hne]; [by left|right].
    unfold at_pos, head_pos, head_seq. rewrite Hk by lia. rewrite length_fmap. apply Ho. by apply Z.mod_pos_bound.
Qed.

(** Two transactions that fill a ring of eight blocks: blocks 100 and 101, then
    block 102 with a revoke of 101. *)
Definition demo_commits : list commit :=
  [(mk_tx 1 1 [((0, 100), 1); ((0, 101), 2)] [], JournalSafety.demo_page); (mk_tx 2 2 [((0, 102), 3)] [((0, 101), tt)], JournalSafety.demo_page)].
Definition demo_jsb : JournalSuperblock := make_jsb JournalSafety.demo_cfg (jn_state JournalSafety.demo_j0).

Lemma demo_commits_fit : Forall tx_fits demo_commits.
Proof.
  assert (Hp : ∀ p, length (JournalSafety.demo_page p) = BLOCK_SIZE ∧ Forall byte_ok (JournalSafety.demo_page p)).
  { intros p. split; [apply length_replicate|apply Forall_replicate; unfold byte_ok; lia]. }
  assert (Hr : (1 <= revoke_capacity BLOCK_SIZE)%nat) by (apply Nat.leb_le; vm_compute; reflexivity).
  repeat apply Forall_cons_2; [| |apply Forall_nil_2]; split; cbn [fst snd tx_seq tx_tx_id tx_enrolled tx_revokes length]; rewrite ?desc_capacity_block; try done; try lia;
    try (unfold in_width; lia); repeat apply Forall_cons_2; try apply Forall_nil_2; cbn [fst snd]; unfold in_width; lia.
Qed.

Lemma demo_ring_blank i : ring_view JournalSafety.demo_cfg JournalSafety.demo_disk i = replicate BLOCK_SIZE 0.
Proof. unfold JournalSafety.demo_disk. rewrite ring_view_write_other; [done|]. intros k. apply sb_lba_ne. unfold config_ok. cbn. lia. Qed.

Lemma demo_blank_header p : header_is (replicate BLOCK_SIZE 0) p = false.
Proof. unfold header_is. replace (parse_header (replicate BLOCK_SIZE 0)) with (@None JournalBlockHeader) by (vm_compute; reflexivity). done. Qed.

Lemma replay_restores_pages_witness :
  ∃ d' scan, write_txs JournalSafety.demo_cfg 0 demo_commits JournalSafety.demo_disk = Ret d' ∧ mount_scan JournalSafety.demo_cfg d' = Some (demo_jsb, scan) ∧
    replay_writes scan = [(800, replicate BLOCK_SIZE 7); (816, replicate BLOCK_SIZE 7)].
Proof.
  destruct (replay_restores_pages JournalSafety.demo_cfg demo_jsb JournalSafety.demo_disk demo_commits) as (d' & scan & Ew & Em & Er & Hv).
  - unfold config_ok. cbn. lia.
  - apply mount_jsb_written; [unfold config_ok; cbn; lia|unfold in_width; cbn; lia..|]. apply write_journal_sb_ok.
  - reflexivity.
  - intros i s _ _. rewrite demo_ring_blank. apply demo_blank_header.
  - exact demo_commits_fit.
  - cbn. done.
  - apply Z.leb_le. vm_compute. reflexivity.
  - exists d', scan. split; [exact Ew|]. split; [exact Em|]. rewrite Er. specialize (Hv ltac:(intros i _; rewrite demo_ring_blank; apply demo_blank_header)).
    assert (H100 : vetoed (js_revokes scan) 1 100 = false). { apply not_true_iff_false. rewrite Hv. intros (e & He & _ & Hx). apply elem_of_cons in He as [->|He]; [|apply list_elem_of_singleton in He as ->]; cbn in Hx; [by apply not_elem_of_nil in Hx|by apply list_elem_of_singleton in Hx]. }
    assert (H101 : vetoed (js_revokes scan) 1 101 = true). { apply Hv. exists (mk_tx 2 2 [((0, 102), 3)] [((0, 101), tt)], JournalSafety.demo_page). split; [right; left|]. split; [cbn; lia|]. cbn. left. }
    assert (H102 : vetoed (js_revokes scan) 2 102 = false). { apply not_true_iff_false. rewrite Hv. intros (e & He & _ & Hx). apply elem_of_cons in He as [->|He]; [|apply list_elem_of_singleton in He as ->]; cbn in Hx; [by apply not_elem_of_nil in Hx|by apply list_elem_of_singleton in Hx]. }
    cbn [demo_commits fmap list_fmap fst snd tx_seq tx_enrolled].
    rewrite filter_cons_True, filter_cons_False, filter_nil by (cbn [fst snd]; congruence). rewrite filter_cons_True, filter_nil by (cbn [fst snd]; congruence). reflexivity.
Defined.

End JournalReplay.
