(* ===== verification/JournalDefects.v ===== *)
(** * Where the journal loses committed work

    Situations outside the hypotheses of [crash_recovery] that the code does
    not exclude, each proved on the same definitions: a transaction larger
    than one descriptor, a revoke from a transaction that never committed, a
    block freed and reused inside one transaction, a tail that catches up with
    a transaction in flight, a commit that fails, and overlapping replay
    writes. *)

From S2P Require Import Prelude Crc32 BTree JournalFormat JournalScan JournalRing Journal.
From S2P Require Import JournalCrash JournalSafety JournalReplay.
Import JournalFormat JournalScan JournalRing Journal JournalCrash JournalSafety JournalReplay.

Module JournalDefects.

(** The scan found the transaction, but its entry [i] is not written home. *)
Definition not_replayed (t : jtx) (i : nat) (scan : JournalScan) : Prop :=
  scanned t ∈ js_txs scan ∧ replay_write (scanned t) i (js_revokes scan) = None.

(** ** The revoke table keeps maxima *)

Lemma merge_revoke_wf m r : bwf m → bwf (merge_revoke m r).
Proof. intros. by apply binsert_wf. Qed.

Lemma merge_revoke_mono m r b v :
  bwf m → bget b m = Some v → ∃ v', bget b (merge_revoke m r) = Some v' ∧ v <= v'.
Proof.
  intros Hwf Hb. unfold merge_revoke. destruct (Z.eq_dec (re_fs_block r) b) as [<-|Hne].
  - rewrite bget_binsert_eq, Hb by done. simpl. eexists. split; [done|].
    destruct (re_seq r >? v) eqn:E; lia.
  - rewrite bget_binsert_ne by done. eauto with lia.
Qed.

Lemma merge_revokes_mono rs : ∀ m b v,
  bwf m → bget b m = Some v → ∃ v', bget b (merge_revokes m rs) = Some v' ∧ v <= v'.
Proof.
  induction rs as [|r rs IH]; intros m b v Hwf Hb; [eauto with lia|]. cbn [merge_revokes fold_left].
  destruct (merge_revoke_mono m r b v Hwf Hb) as (v1 & H1 & ?).
  destruct (IH (merge_revoke m r) b v1) as (v2 & H2 & ?); [by apply merge_revoke_wf|done|].
  exists v2. split; [done|lia].
Qed.

Lemma merge_revokes_in rs : ∀ m r,
  bwf m → r ∈ rs → ∃ v, bget (re_fs_block r) (merge_revokes m rs) = Some v ∧ re_seq r <= v.
Proof.
  induction rs as [|r0 rs IH]; intros m r Hwf Hr; [by apply not_elem_of_nil in Hr|].
  cbn [merge_revokes fold_left]. apply elem_of_cons in Hr as [->|Hr].
  - assert (H : ∃ v, bget (re_fs_block r0) (merge_revoke m r0) = Some v ∧ re_seq r0 <= v).
    { unfold merge_revoke. rewrite bget_binsert_eq by done. eexists. split; [done|].
      destruct (re_seq r0 >? _) eqn:E; lia. }
    destruct H as (v & Hv & ?). destruct (merge_revokes_mono rs _ _ _ (merge_revoke_wf m r0 Hwf) Hv)
      as (v' & ? & ?). exists v'. split; [done|lia].
  - apply IH; [by apply merge_revoke_wf|done].
Qed.

Lemma merge_revokes_wf rs : ∀ m, bwf m → bwf (merge_revokes m rs).
Proof. induction rs; intros m Hm; [done|]. apply IHrs. by apply merge_revoke_wf. Qed.

Lemma seqs_from_bound n ts t : seqs_from n ts → t ∈ ts → n <= j_seq t < n + Z.of_nat (length ts).
Proof.
  revert n; induction ts as [|t' ts IH]; intros n Hs Ht; [by apply not_elem_of_nil in Ht|].
  destruct Hs as [Hs Hs']. apply elem_of_cons in Ht as [->|Ht]; simpl; [lia|].
  specialize (IH _ Hs' Ht). lia.
Qed.

Lemma replay_write_vetoed tx i e revokes v :
  st_entries tx !! i = Some e → bget (de_fs_block e) revokes = Some v → st_seq tx <= v →
  replay_write tx i revokes = None.
Proof.
  intros Hi Hv Hle. unfold replay_write. rewrite Hi. cbn [mbind option_bind]. rewrite Hv.
  by replace (v >=? st_seq tx) with true by lia.
Qed.

Section Defects.
Context {E : Type}.
Context (tail_seq tail_block ring_size : Z) (bs : nat).
Context (read : Z → result E (list Z)) (ring : Z → list Z).
Context (Hring : 0 < ring_size).
Context (Hread : ∀ i, 0 <= i < ring_size → read (i + 1) = Ok (ring i)).

Abbreviation scan_committed := (scan_committed tail_seq tail_block ring_size bs read).
Abbreviation holds := (holds ring_size ring).

(** Transactions [ts] laid out from the tail. *)
Record laid_out (ts : list jtx) : Prop := {
  lo_ok : Forall (jtx_ok bs) ts;
  lo_seqs : seqs_from tail_seq ts;
  lo_holds : holds tail_block (mjoin (tx_blocks bs <$> ts));
  lo_fits : total_len bs ts < ring_size
}.

(** A descriptor with any other sequence number at the head ends the scan. *)
Lemma sequence_gap_stops ts seq tx_id es :
  laid_out ts → at_pos ring_size ring (head_pos tail_block bs ts) = desc_image bs seq tx_id es →
  in_width 64 seq → in_width 64 tx_id → seq ≠ head_seq tail_seq ts →
  ∃ scan, scan_committed = Some (Ok scan) ∧ js_txs scan = scanned <$> ts.
Proof.
  intros [] Hd Hs Ht Hne.
  destruct (scan_to_head tail_seq tail_block ring_size bs read ring Hring Hread ts)
    as [fuel ->]; [done..|lia|]. cbn [scan_loop]. unfold scan_one.
  replace (head_pos tail_block bs ts >=? tail_block + ring_size) with false
    by (unfold head_pos; lia).
  rewrite (read_at ring_size read ring Hring Hread), Hd. cbn [mbind result_bind].
  unfold desc_image at 1. rewrite parse_header_image by done. cbn [hdr_kind hdr_seq].
  rewrite Z.eqb_refl. cbn [negb].
  replace (seq =? head_seq tail_seq ts) with false by lia. cbn [negb]. eauto.
Qed.

(** A transaction with more blocks than one descriptor names is lost even
    though every one of its blocks, its commit block included, is on disk: the
    scan reads as many data blocks as the descriptor kept, finds a data block
    where it expects the commit and ends there. (The capacity is 254 for 4 KiB
    blocks; [max_tx_blocks] allows a quarter of the ring.) *)
Theorem oversized_commit_lost ts t :
  laid_out ts → (sizeof_hdr + 4 <= bs)%nat →
  j_seq t = head_seq tail_seq ts → in_width 64 (j_seq t) → in_width 64 (j_tx_id t) →
  Forall de_ok (j_entries t) → in_width 32 (Z.of_nat (length (j_entries t))) →
  length (j_data t) = length (j_entries t) → escaped t →
  (desc_capacity bs < length (j_entries t))%nat →
  holds (head_pos tail_block bs ts) (tx_blocks bs t) →
  ∃ scan, scan_committed = Some (Ok scan) ∧ js_txs scan = scanned <$> ts ∧
    js_stop scan = PartialTx (j_seq t).
Proof.
  intros [] Hbs Hseq Hs Ht Hes Hn Hl Hesc Hcap Hh.
  destruct (scan_to_head tail_seq tail_block ring_size bs read ring Hring Hread ts)
    as [fuel ->]; [done..|lia|]. cbn [scan_loop]. unfold scan_one.
  replace (head_pos tail_block bs ts >=? tail_block + ring_size) with false
    by (unfold head_pos; lia).
  unfold tx_blocks, body_blocks in Hh. rewrite <- app_comm_cons, <- app_assoc in Hh.
  apply holds_cons in Hh as [Hd Hh]. apply holds_app in Hh as [Hda _].
  rewrite (read_at ring_size read ring Hring Hread), Hd. cbn [mbind result_bind].
  unfold desc_image at 1. rewrite parse_header_image by done. cbn [hdr_kind hdr_seq hdr_tx_id].
  rewrite Z.eqb_refl, Hseq, Z.eqb_refl. cbn [negb]. rewrite <- Hseq, parse_desc_image by done.
  rewrite length_take, Nat.min_l by lia.
  destruct (read_data_ok ring_size read ring Hring Hread (desc_capacity bs)
    (head_pos tail_block bs ts + 1)) as [db ->]. cbn [mbind result_bind].
  unfold scan_finish. rewrite (read_at ring_size read ring Hring Hread). cbn [mbind result_bind].
  assert (Hlt : (desc_capacity bs < length (j_data t))%nat) by lia.
  apply lookup_lt_is_Some in Hlt as [b Hb]. rewrite (Hda _ _ Hb).
  assert (Hnone : ∀ p, header_is b p = false).
  { intros p. unfold header_is. rewrite parse_header_data; [done|].
    unfold escaped in Hesc. rewrite Forall_forall in Hesc. apply Hesc. by eapply list_elem_of_lookup_2. }
  rewrite !Hnone. cbn [mbind result_bind]. rewrite Hnone. cbn [negb]. eexists. split; [done|].
  split; [done|]. done.
Qed.

(** A block that one transaction both revokes and enrolls (freed and
    reallocated before the transaction is sealed) is never replayed, although
    its new content is committed: the transaction's own revoke vetoes it. *)
Theorem same_tx_revoke_vetoes page tx ts i fs :
  ring_inv tail_seq tail_block ring_size bs ring ts →
  build_jtx page tx ∈ ts →
  (∃ dev p, tx_enrolled tx !! i = Some ((dev, fs), p)) →
  (∃ dev, ((dev, fs), tt) ∈ tx_revokes tx) →
  ∃ scan, scan_committed = Some (Ok scan) ∧ not_replayed (build_jtx page tx) i scan.
Proof.
  intros Hinv Hin (dev & p & Hi) (dev' & Hr).
  destruct (scan_ring_inv tail_seq tail_block ring_size bs read ring Hring Hread ts Hinv)
    as (stop & partial & Hscan & _).
  eexists. split; [exact Hscan|]. split; [by apply list_elem_of_fmap_2|]. cbn [js_revokes].
  assert (Hre : mk_re fs (tx_seq tx) ∈ mjoin (j_revokes <$> ts) ++ partial).
  { apply elem_of_app. left. apply list_elem_of_join. exists (j_revokes (build_jtx page tx)).
    split; [|by apply list_elem_of_fmap_2]. cbn [build_jtx j_revokes].
    apply list_elem_of_fmap. exists ((dev', fs), tt). done. }
  destruct (merge_revokes_in _ [] _ bwf_nil Hre) as (v & Hv & Hle).
  apply (replay_write_vetoed _ _ (escape_entry fs (page p)) _ v); [|exact Hv|done].
  cbn [scanned st_entries build_jtx j_entries]. rewrite list_lookup_fmap, Hi. reflexivity.
Qed.

(** The turn of the scan on a transaction with a revoke block and no commit
    block. *)
Lemma scan_one_uncommitted p pos s :
  jtx_ok bs p → j_revokes p ≠ [] → pos < tail_block + ring_size →
  no_commit ring_size ring (j_seq p) → holds pos (body_blocks bs p) →
  scan_one tail_block ring_size bs read pos (j_seq p) s =
  Ok (Stop (set_stop (mk_scan (js_txs s) (merge_revokes (js_revokes s) (j_revokes p)) (js_next_seq s)
       (js_next_block s) (js_ring_blocks s) (js_stop s)) (PartialTx (j_seq p)))).
Proof.
  intros Hp Hne Hlt Hnc Hbody. unfold scan_one. replace (pos >=? tail_block + ring_size) with false by lia.
  unfold body_blocks in Hbody. apply holds_cons in Hbody as [Hd Hbody].
  apply holds_app in Hbody as [Hda Hre]. pose proof Hp as [].
  rewrite (read_at ring_size read ring Hring Hread), Hd. cbn [mbind result_bind].
  unfold desc_image at 1. rewrite parse_header_image by done. cbn [hdr_kind hdr_seq hdr_tx_id].
  rewrite !Z.eqb_refl. cbn [negb]. rewrite parse_desc_image, take_ge by done.
  rewrite <- jok_data0, (read_data_holds ring_size read ring Hring Hread _ (j_data p)) by done.
  cbn [mbind result_bind].
  unfold scan_finish. rewrite (read_at ring_size read ring Hring Hread). cbn [mbind result_bind].
  unfold revoke_blocks in Hre. destruct (j_revokes p) as [|r0 rs] eqn:Ers; [done|].
  apply holds_cons in Hre as [Hre _]. rewrite Hre, revoke_image_header by done.
  cbn [hdr_kind hdr_seq]. rewrite !Z.eqb_refl. cbn [andb].
  rewrite (read_at ring_size read ring Hring Hread). cbn [mbind result_bind].
  rewrite commits_seq_weaken by (by apply no_commit_at). cbn [negb].
  rewrite parse_revoke_image, take_ge
    by (first [done | rewrite <- Ers; done | unfold sizeof_hdr in *; lia]). done.
Qed.

(** A transaction that never commits still vetoes committed work: when a
    crash leaves its descriptor, data and revoke block on disk but not its
    commit block, every block it meant to free is dropped from the replay of
    the committed transactions before it. *)
Theorem uncommitted_revoke_vetoes ts p t i e :
  ring_inv tail_seq tail_block ring_size bs ring ts → total_len bs ts < ring_size →
  jtx_ok bs p → j_seq p = head_seq tail_seq ts →
  holds (head_pos tail_block bs ts) (body_blocks bs p) →
  t ∈ ts → j_entries t !! i = Some e → mk_re (de_fs_block e) (j_seq p) ∈ j_revokes p →
  ∃ scan, scan_committed = Some (Ok scan) ∧ js_txs scan = scanned <$> ts ∧ not_replayed t i scan.
Proof.
  intros [Hok Hseqs Hh Hf Hnc] Hlt Hp Hseq Hbody Ht He Hr.
  destruct (scan_to_head tail_seq tail_block ring_size bs read ring Hring Hread ts)
    as [fuel ->]; [done..|]. cbn [scan_loop]. rewrite <- Hseq, scan_one_uncommitted;
    [|done|intros Hnil; by rewrite Hnil in Hr; apply not_elem_of_nil in Hr|unfold head_pos; lia
     |by rewrite Hseq|done].
  eexists. split; [done|]. split; [done|]. split; [by apply list_elem_of_fmap_2|].
  cbn [set_stop js_txs js_revokes head_scan]. destruct (merge_revokes_in (j_revokes p) _ _ (merge_revokes_wf (mjoin (j_revokes <$> ts)) [] bwf_nil) Hr)
    as (v & Hv & Hle). cbn [re_fs_block re_seq] in Hv, Hle.
  apply (replay_write_vetoed _ _ e _ v); [done|done|].
  pose proof (seqs_from_bound _ _ _ Hseqs Ht). cbn [scanned st_seq]. unfold head_seq in Hseq. lia.
Qed.
End Defects.

(** ** The tail and the transaction in flight *)

Section System.
Context (c : config) (Hc : config_ok c).

(** The disk after transaction [t] has been written at [pos] and committed. *)
Definition committed_disk (t : jtx) (pos : Z) (d : disk) : disk :=
  disk_write (journal_block_lba c ((pos + needed t - 1) mod ring_size c)) (commit_of BLOCK_SIZE t)
    (disk_put_all c pos (body_blocks BLOCK_SIZE t) d).

Lemma committed_disk_desc t pos d :
  needed t <= ring_size c →
  at_pos (ring_size c) (ring_view c (committed_disk t pos d)) pos =
  desc_image BLOCK_SIZE (j_seq t) (j_tx_id t) (j_entries t).
Proof.
  intros Hn. pose proof (ring_size_pos c Hc) as Hp. rewrite needed_tx_len in Hn.
  pose proof (tx_len_ge2 BLOCK_SIZE t). unfold committed_disk, at_pos.
  rewrite ring_view_write by (done || by apply Z.mod_pos_bound). unfold ring_put.
  replace (pos mod ring_size c =? (pos + needed t - 1) mod ring_size c) with false.
  2:{ symmetry. apply Z.eqb_neq. intros Heq. rewrite needed_tx_len in Heq.
      apply mod_inj in Heq; lia. }
  rewrite (ring_view_put_all c Hc pos _ d (ring_view c d)) by (done || by apply Z.mod_pos_bound).
  rewrite <- (Z.add_0_r pos) at 2. change 0 with (Z.of_nat 0).
  apply ring_put_all_at; [done|rewrite length_body; lia|done].
Qed.

Lemma committed_disk_sb t pos d : committed_disk t pos d (sb_lba c) = d (sb_lba c).
Proof.
  unfold committed_disk, disk_write.
  destruct (Z.eqb_spec (sb_lba c) (journal_block_lba c ((pos + needed t - 1) mod ring_size c))) as [Heq|_].
  - exfalso. symmetry in Heq. by eapply sb_lba_ne.
  - by apply disk_put_all_sb.
Qed.

(** Tail advance with nothing pending and nothing sealed, while a transaction
    is in flight: the tail catches up past it. *)
Lemma advance_catches_up j d tx t a log old live is_dirty j1 d1 :
  inv c j d (Built tx t a) log old live → st_sealed (jn_state j) = [] →
  advance_and_write c is_dirty j d = Ret (j1, d1) → st_committed_pending (jn_state j1) = [] →
  st_tail_seq (jn_state j1) = j_seq t + 1 ∧ st_tail_block (jn_state j1) = st_head_block (jn_state j1) ∧
  st_head_seq (jn_state j1) = st_head_seq (jn_state j).
Proof.
  intros Hinv Hsealed Hadv Hpend. destruct Hinv. cbn [durable flight] in *. rewrite app_nil_r in *.
  unfold advance_and_write, advance_tail in Hadv.
  cbn [prune_checkpointed set_tracker jn_state] in Hadv.
  set (bound := min_journaled_seq _) in Hadv. rewrite i_pending0 in Hadv. fold (pend live) in Hadv.
  destruct (retire bound _ _ (pend live) false) as [[[ts' tb'] pending'] ch'] eqn:Er.
  eapply retire_spec in Er as (popped & rest & -> & -> & -> & -> & _ & _ & _); [|done].
  rewrite write_journal_sb_ok in Hadv.
  assert (Hj1 : st_committed_pending (jn_state j1) = pend rest)
    by (destruct (ch' || _); apply Ret_inj in Hadv as [= <- <-]; done).
  rewrite Hj1 in Hpend. apply fmap_nil_inv in Hpend as ->. rewrite app_nil_r in *.
  destruct i_pc0 as (_ & Hseq & _). rewrite Hsealed in i_queue0, i_headseq0. destruct i_queue0 as [Hq _].
  cbn [app length fmap list_fmap] in i_headseq0.
  assert (Hup : catch_up (jn_state j) (st_tail_seq (jn_state j) + Z.of_nat (length popped)) (pend []) = true).
  { unfold catch_up. rewrite Hsealed. simpl. lia. }
  rewrite Hup, orb_true_r in Hadv. apply Ret_inj in Hadv as [= <- <-]. cbn. split_and!; lia.
Qed.

(** A tail that catches up with a transaction in flight loses it. When
    [advance_tail] runs after the committer has taken the last sealed
    transaction off the queue (from the ring-full path of [seal_and_commit], or
    from [sys_sync] on another thread) and every earlier transaction is
    retired, the tail moves past the transaction being written; its commit then
    completes, the superblock is published, and a mount recovers nothing. *)
Theorem inflight_tail_loses_commit j d tx t a log old live is_dirty j1 d1 pos b :
  inv c j d (Built tx t a) log old live → st_sealed (jn_state j) = [] →
  advance_and_write c is_dirty j d = Ret (j1, d1) → st_committed_pending (jn_state j1) = [] →
  reserve c (jn_state j1) t = Some pos →
  let j2 := finish_commit t (pos + needed t) j1 in
  let d2 := committed_disk t pos d1 in
  write_journal_sb c (jn_state j2) = Ret b → cursors_ok (mk_sys j2 d2 Published []) →
  ∃ jsb scan, mount_scan c (disk_write (sb_lba c) b d2) = Some (jsb, scan) ∧ js_txs scan = [].
Proof.
  intros Hinv Hs Hadv Hp Hres j2 d2 Hw (H1 & H2 & H3 & H4).
  destruct (advance_catches_up _ _ _ _ _ _ _ _ _ _ _ Hinv Hs Hadv Hp) as (Hts & Htb & Hhs).
  assert (Hok : jtx_ok BLOCK_SIZE t) by (by destruct (i_pc _ _ _ _ _ _ _ Hinv) as (_ & _ & _ & ?)).
  unfold reserve in Hres. destruct (needed t <=? _) eqn:En; [|done]. injection Hres as <-.
  rewrite Htb, Z.sub_diag in En. change (wrap 64 0) with 0 in En. unfold sat_sub in En. to_lia.
  pose proof (ring_size_pos c Hc) as Hrp.
  assert (Hview : ∀ i, ring_view c (disk_write (sb_lba c) b d2) i = ring_view c d2 i)
    by (apply ring_view_write_other; intros; by apply sb_lba_ne).
  exists (make_jsb c (jn_state j2)).
  unfold mount_scan. rewrite (mount_jsb_written c Hc (jn_state j2)) by done. cbn [make_jsb jsb_tail_seq jsb_tail_block jsb_block_count].
  fold (ring_size c).
  destruct (sequence_gap_stops (E := unit) (st_tail_seq (jn_state j2)) (st_tail_block (jn_state j2))
    (ring_size c) BLOCK_SIZE (read_region c (disk_write (sb_lba c) b d2))
    (ring_view c (disk_write (sb_lba c) b d2)) Hrp (read_region_ring c _) [] (j_seq t) (j_tx_id t) (j_entries t))
    as (scan & Hscan & Htxs).
  - split; [constructor|done|by intros i x Hi|simpl; lia].
  - unfold head_pos, at_pos. cbn [total_len foldr]. rewrite Z.add_0_r, Hview.
    cbn [j2 finish_commit jn_state st_tail_block]. rewrite Htb.
    apply committed_disk_desc. lia.
  - by destruct Hok.
  - by destruct Hok.
  - unfold head_seq. cbn [j2 finish_commit jn_state st_tail_seq length]. rewrite Hts. lia.
  - exists scan. by rewrite Hscan.
Qed.

(** A commit that fails takes later commits with it. After an I/O error
    drops the transaction in flight, the next transaction is written at the
    same head with the following sequence number: its commit block is on disk
    and reported durable, and a mount still recovers only what was committed
    before the error. *)
Theorem failed_commit_loses_next j d t pos log old live d1 t2 :
  inv c j d (InFlight t pos) log old live → crash_image c (mk_sys j d (InFlight t pos) log) d1 →
  jtx_ok BLOCK_SIZE t2 → j_seq t2 = j_seq t + 1 →
  total_len BLOCK_SIZE live + tx_len BLOCK_SIZE t2 <= ring_size c →
  ∃ jsb scan, mount_scan c (committed_disk t2 pos d1) = Some (jsb, scan) ∧
    js_txs scan = scanned <$> live.
Proof.
  intros Hinv Hcrash Hok Hseq Hfit.
  pose proof (crash_image_inv c Hc (mk_sys j d (InFlight t pos) log) d1 _ _ Hinv Hcrash) as [Hring Hsb].
  cbn [s_j s_disk s_pc durable] in *. rewrite app_nil_r in Hring.
  destruct Hinv. destruct i_pc0 as [-> [Hnt _ _ _]]. destruct i_sb0 as (jsb & Hm & Hts & Htb & Hbc).
  assert (Hm' : mount_jsb c (committed_disk t2 (st_head_block (jn_state j)) d1) = Some jsb)
    by (rewrite <- Hm; apply mount_jsb_ext; by rewrite committed_disk_sb).
  exists jsb. unfold mount_scan. rewrite Hm', Hbc. fold (ring_size c).
  pose proof (ring_size_pos c Hc) as Hrp. pose proof (tx_len_ge2 BLOCK_SIZE t2).
  pose proof (total_len_nonneg BLOCK_SIZE live).
  destruct (sequence_gap_stops (E := unit) (jsb_tail_seq jsb) (jsb_tail_block jsb) (ring_size c) BLOCK_SIZE
    (read_region c (committed_disk t2 (st_head_block (jn_state j)) d1))
    (ring_view c (committed_disk t2 (st_head_block (jn_state j)) d1)) Hrp (read_region_ring c _)
    live (j_seq t2) (j_tx_id t2) (j_entries t2)) as (scan & Hscan & Htxs).
  - destruct Hring as [Hrok Hseqs Hh Hf _]. rewrite Hts, Htb. split; [done..| |lia].
    assert (Hcd : ∀ i, 0 <= i < ring_size c →
      ring_view c (committed_disk t2 (st_head_block (jn_state j)) d1) i =
      ring_put (ring_size c) (st_head_block (jn_state j) + needed t2 - 1) (commit_of BLOCK_SIZE t2)
        (ring_put_all (ring_size c) (st_head_block (jn_state j)) (body_blocks BLOCK_SIZE t2) (ring_view c d1)) i).
    { intros i Hi. unfold committed_disk. rewrite ring_view_write by done. unfold ring_put.
      destruct (_ =? _); [done|]. by apply ring_view_put_all. }
    intros k x Hk. unfold at_pos. rewrite Hcd by (by apply Z.mod_pos_bound).
    revert k x Hk. fold (holds (ring_size c) (ring_put (ring_size c) (st_head_block (jn_state j) + needed t2 - 1)
      (commit_of BLOCK_SIZE t2) (ring_put_all (ring_size c) (st_head_block (jn_state j))
      (body_blocks BLOCK_SIZE t2) (ring_view c d1))) (st_tail_block (jn_state j)) (mjoin (tx_blocks BLOCK_SIZE <$> live))).
    rewrite needed_tx_len, i_head0.
    apply holds_put; [done| |rewrite length_mjoin_txs; lia|lia].
    eapply holds_torn; [done|apply torn_write_complete; [done|rewrite length_body; lia]|done| |];
      rewrite ?length_mjoin_txs, ?length_body; lia.
  - unfold head_pos. rewrite Htb, <- i_head0. apply committed_disk_desc. rewrite needed_tx_len. lia.
  - by destruct Hok.
  - by destruct Hok.
  - unfold head_seq. rewrite Hts. lia.
  - exists scan. by rewrite Hscan.
Qed.
End System.

(** ** Concrete rings for the three situations *)

Definition zero_ring (bs : nat) : Z → list Z := λ _, replicate bs 0.
Definition ring_reader (ring : Z → list Z) (i : Z) : result unit (list Z) := Ok (ring (i - 1)).

Lemma ring_reader_ok ring i : ring_reader ring (i + 1) = Ok (ring i).
Proof. unfold ring_reader. do 2 f_equal. lia. Qed.

Lemma zero_ring_inv seq block n bs :
  0 < n → (sizeof_hdr <= bs)%nat → ring_inv seq block n bs (zero_ring bs) [].
Proof.
  intros Hn Hbs. split; [constructor|done|by intros i b Hi|simpl; lia|].
  intros i s _ _. unfold commits_seq, header_is, zero_ring.
  rewrite parse_header_data; [done|]. unfold first_word, le_at, sub.
  rewrite drop_0, take_replicate, le_num_zeros. unfold JOURNAL_BLOCK_MAGIC. simpl. lia.
Qed.

(** A ring with one committed transaction. *)
Definition commit_ring (n : Z) (bs : nat) (t : jtx) : Z → list Z :=
  ring_put n (tx_len bs t - 1) (commit_of bs t) (ring_put_all n 0 (body_blocks bs t) (zero_ring bs)).

Lemma commit_ring_inv n bs t seq :
  0 < n → next_tx n bs seq [] t → (sizeof_hdr <= bs)%nat →
  ring_inv seq 0 n bs (commit_ring n bs t) [t].
Proof.
  intros Hn Ht Hbs.
  assert (Hlen : Z.of_nat (length (body_blocks bs t)) <= n)
    by (rewrite length_body; destruct Ht; simpl in *; lia).
  pose proof (ring_inv_commit n bs Hn seq 0 (ring_put_all n 0 (body_blocks bs t) (zero_ring bs)) [] t) as H.
  apply H; [|done|by apply holds_put_all].
  eapply ring_inv_body; [done|by apply zero_ring_inv|done|]. by apply torn_write_complete.
Qed.

(** Every field of a concrete transaction is a closed arithmetic fact. *)
Ltac concrete_tx := split; repeat constructor; vm_compute; congruence.

Definition big_tx : jtx :=
  mk_jtx 1 1 [mk_de 10 0 0; mk_de 11 0 0; mk_de 12 0 0]
    [replicate 64 1; replicate 64 2; replicate 64 3] [].
Definition big_ring : Z → list Z := ring_put_all 8 0 (tx_blocks 64 big_tx) (zero_ring 64).

Lemma oversized_commit_lost_witness :
  ∃ scan, scan_committed 1 0 8 64 (ring_reader big_ring) = Some (Ok scan) ∧ js_txs scan = [] ∧
    js_stop scan = PartialTx 1.
Proof.
  apply (oversized_commit_lost 1 0 8 64 (ring_reader big_ring) big_ring ltac:(lia)
    (λ i _, ring_reader_ok big_ring i) [] big_tx).
  - split; [constructor|done|by intros i b Hi|simpl; lia].
  - unfold sizeof_hdr. lia.
  - done.
  - unfold in_width; simpl; lia.
  - unfold in_width; simpl; lia.
  - repeat constructor; unfold in_width; simpl; lia.
  - unfold in_width; simpl; lia.
  - done.
  - repeat constructor; vm_compute; congruence.
  - vm_compute. lia.
  - apply holds_put_all; [lia|]. vm_compute. congruence.
Defined.

Definition reuse_tx : Transaction := mk_tx 1 1 [((0, 42), 5)] [((0, 42), tt)].
Definition reuse_page (p : Z) : list Z := replicate 64 7.

Lemma same_tx_revoke_vetoes_witness :
  ∃ scan, scan_committed 1 0 8 64 (ring_reader (commit_ring 8 64 (build_jtx reuse_page reuse_tx)))
            = Some (Ok scan) ∧
    not_replayed (build_jtx reuse_page reuse_tx) 0 scan.
Proof.
  apply (same_tx_revoke_vetoes 1 0 8 64 _ (commit_ring 8 64 (build_jtx reuse_page reuse_tx)) ltac:(lia)
    (λ i _, ring_reader_ok _ i) reuse_page reuse_tx [build_jtx reuse_page reuse_tx] 0 42).
  - apply commit_ring_inv; [lia| |unfold sizeof_hdr; lia].
    split; [done|concrete_tx|repeat constructor; vm_compute; congruence|vm_compute; congruence].
  - by apply list_elem_of_singleton.
  - by exists 0, 5.
  - exists 0. by apply list_elem_of_singleton.
Defined.

Definition kept_tx : jtx := mk_jtx 1 1 [mk_de 42 0 0] [replicate 64 7] [].
Definition open_tx : jtx := mk_jtx 2 2 [] [] [mk_re 42 2].
Definition open_ring : Z → list Z :=
  ring_put_all 8 (head_pos 0 64 [kept_tx]) (body_blocks 64 open_tx) (commit_ring 8 64 kept_tx).

Lemma kept_next : next_tx 8 64 1 [] kept_tx.
Proof. split; [done|concrete_tx|repeat constructor; vm_compute; congruence|vm_compute; congruence]. Qed.

Lemma open_next : next_tx 8 64 1 [kept_tx] open_tx.
Proof. split; [done|concrete_tx|constructor|vm_compute; congruence]. Qed.

Lemma open_ring_inv : ring_inv 1 0 8 64 open_ring [kept_tx].
Proof.
  eapply (ring_inv_body 8 64); [lia|apply (commit_ring_inv 8 64 kept_tx 1)|apply open_next|];
    [lia|apply kept_next|unfold sizeof_hdr; lia|].
  apply torn_write_complete; [lia|vm_compute; congruence].
Qed.

Lemma uncommitted_revoke_vetoes_witness :
  ∃ scan, scan_committed 1 0 8 64 (ring_reader open_ring) = Some (Ok scan) ∧
    js_txs scan = [scanned kept_tx] ∧ not_replayed kept_tx 0 scan.
Proof.
  apply (uncommitted_revoke_vetoes 1 0 8 64 _ open_ring ltac:(lia) (λ i _, ring_reader_ok open_ring i)
    [kept_tx] open_tx kept_tx 0 (mk_de 42 0 0)).
  - apply open_ring_inv.
  - vm_compute. congruence.
  - apply open_next.
  - done.
  - apply holds_put_all; [lia|vm_compute; congruence].
  - by apply list_elem_of_singleton.
  - done.
  - by apply list_elem_of_singleton.
Defined.

(** ** Runs that reach the last two situations *)

Definition demo_advanced : bool * Journal := Eval vm_compute in advance_tail (λ _, true) demo_j3.
Definition demo_sb1 : list Z :=
  jsb_bytes (make_jsb demo_cfg (jn_state demo_advanced.2)) ++ replicate (BLOCK_SIZE - sizeof_jsb) 0.

Lemma demo_advance :
  advance_and_write demo_cfg (λ _, true) demo_j3 demo_disk
  = Ret (demo_advanced.2, disk_write (sb_lba demo_cfg) demo_sb1 demo_disk).
Proof.
  unfold advance_and_write. change (advance_tail (λ _, true) demo_j3) with demo_advanced.
  unfold demo_advanced at 1. rewrite write_journal_sb_ok. reflexivity.
Qed.

Lemma inflight_tail_loses_commit_witness :
  ∃ jsb scan b d, mount_scan demo_cfg (disk_write (sb_lba demo_cfg) b d) = Some (jsb, scan) ∧ js_txs scan = [].
Proof.
  assert (Hc : config_ok demo_cfg) by (unfold config_ok; simpl; lia).
  destruct (reachable_inv demo_cfg Hc demo_built demo_built_reachable) as (old & live & Hinv).
  edestruct (inflight_tail_loses_commit demo_cfg Hc demo_j3 demo_disk demo_tx demo_t 0 [] old live
    (λ _, true) demo_advanced.2 (disk_write (sb_lba demo_cfg) demo_sb1 demo_disk) 0) as (jsb & scan & H).
  - exact Hinv.
  - reflexivity.
  - apply demo_advance.
  - reflexivity.
  - vm_compute. reflexivity.
  - apply write_journal_sb_ok.
  - unfold cursors_ok, in_width. vm_compute. intuition congruence.
  - eexists jsb, scan, _, _. exact H.
Defined.

Definition demo_t2 : jtx := build_jtx demo_page (mk_tx 2 2 [((0, 100), 1)] []).

Lemma demo_t2_ok : jtx_ok BLOCK_SIZE demo_t2.
Proof. pose proof demo_jtx_ok as []. by split. Qed.

Lemma failed_commit_loses_next_witness :
  ∃ live jsb scan, mount_scan demo_cfg (committed_disk demo_cfg demo_t2 0 demo_disk) = Some (jsb, scan) ∧
    js_txs scan = scanned <$> live ∧ live = [].
Proof.
  assert (Hc : config_ok demo_cfg) by (unfold config_ok; simpl; lia).
  destruct (reachable_inv demo_cfg Hc demo_flight demo_flight_reachable) as (old & live & Hinv).
  assert (Hl : live = []).
  { pose proof (i_pending _ _ _ _ _ _ _ Hinv) as Hp. symmetry in Hp. by apply fmap_nil_inv in Hp. }
  subst live. exists [].
  destruct (failed_commit_loses_next demo_cfg Hc demo_j3 demo_disk demo_t 0 [] old [] demo_disk demo_t2)
    as (jsb & scan & H & H').
  - exact Hinv.
  - apply (crash_now demo_cfg demo_flight).
  - apply demo_t2_ok.
  - reflexivity.
  - vm_compute. congruence.
  - exists jsb, scan. split; [exact H|]. split; [exact H'|reflexivity].
Defined.

(** ** Overlapping replay writes *)

(** Two committed transactions that both enroll block [fs]. *)
Definition rewrite_scan (fs : Z) (page1 page2 : list Z) : JournalScan :=
  let tx seq := mk_tx seq seq [((0, fs), 1)] [] in
  mk_scan [scanned (build_jtx (λ _, page1) (tx 1)); scanned (build_jtx (λ _, page2) (tx 2))]
    [] 3 6 6 (SequenceBreak 3 0).

(** Enrolling a block does not revoke its earlier journal copies, so two
    transactions that rewrite one block put two writes to it in flight at once;
    a device that completes them out of order leaves the older content, while
    replay reports success. *)
Theorem replay_reorder_stale fs page1 page2 d :
  length page1 = BLOCK_SIZE → length page2 = BLOCK_SIZE →
  Forall byte_ok page1 → Forall byte_ok page2 →
  let ws := replay_writes (rewrite_scan fs page1 page2) in
  ∃ order, completion_order ws order ∧
    complete_in ws order d (fs * SECTORS_PER_BLOCK) = page1 ∧
    apply_writes ws d (fs * SECTORS_PER_BLOCK) = page2.
Proof.
  intros Hl1 Hl2 Hb1 Hb2 ws.
  assert (Hw : ws = [(fs * SECTORS_PER_BLOCK, page1); (fs * SECTORS_PER_BLOCK, page2)]).
  { subst ws. unfold replay_writes, rewrite_scan, tx_writes.
    cbn [js_txs js_revokes fmap list_fmap scanned st_entries build_jtx j_entries tx_enrolled length seq omap list_omap].
    rewrite !(replay_write_built _ _ [] 0 0 fs 1) by done. reflexivity. }
  rewrite Hw. exists [1; 0]%nat. split_and!.
  - split; [apply perm_swap|]. intros a b i k Ha Hb Hik.
    destruct a as [|[|[|]]]; [| |done..]; destruct b as [|[|[|]]]; try done;
      simpl in Ha, Hb; injection Ha as <-; injection Hb as <-; unfold MAX_INFLIGHT_REPLAY in Hik; lia.
  - unfold complete_in. cbn. unfold disk_write. by rewrite Z.eqb_refl.
  - cbn. unfold disk_write. by rewrite Z.eqb_refl.
Qed.

Lemma replay_reorder_stale_witness :
  ∃ order, completion_order (replay_writes (rewrite_scan 42 (replicate BLOCK_SIZE 1) (replicate BLOCK_SIZE 2))) order ∧
    complete_in (replay_writes (rewrite_scan 42 (replicate BLOCK_SIZE 1) (replicate BLOCK_SIZE 2))) order
      (λ _, []) (42 * SECTORS_PER_BLOCK) = replicate BLOCK_SIZE 1 ∧
    apply_writes (replay_writes (rewrite_scan 42 (replicate BLOCK_SIZE 1) (replicate BLOCK_SIZE 2)))
      (λ _, []) (42 * SECTORS_PER_BLOCK) = replicate BLOCK_SIZE 2.
Proof.
  apply (replay_reorder_stale 42 (replicate BLOCK_SIZE 1) (replicate BLOCK_SIZE 2) (λ _, []));
    first [apply length_replicate | apply Forall_replicate; unfold byte_ok; lia].
Defined.

End JournalDefects.
