(* ===== verification/ExtentMap.v ===== *)
(** * Extent maps (kernel/src/fs/efs/extents.rs)

    The in-memory extent list of a file: lookup, run queries, the allocation
    goal and insertion with merging, refined to a partial map from logical to
    physical blocks. *)

From S2P Require Import Prelude.

Module ExtentMap.

(** [EfsExtent] of [libs/efs-common/src/extent.rs]. *)
Record EfsExtent := mk_ext {
  logical_block : Z;
  length_ : Z;
  start_hi : Z;
  start_lo : Z
}.

Definition physical_start (e : EfsExtent) : Z := Z.lor (Z.shiftl (start_hi e) 32) (start_lo e).

(** An extent with its physical start split into the 16- and 32-bit fields. *)
Definition make_extent (logical len phys : Z) : EfsExtent :=
  mk_ext logical len (wrap 16 (Z.shiftr phys 32)) (wrap 32 phys).

(** [u16::MAX >> 1] *)
Definition MAX_EXTENT_LEN : Z := 32767.

Definition ext_end (e : EfsExtent) : Z := logical_block e + length_ e.
Definition phys_end (e : EfsExtent) : Z := physical_start e + length_ e.

Inductive BlockRun :=
| Mapped (phys blocks : Z)
| Hole (blocks : option Z).

(** [slice::partition_point]: the length of the prefix satisfying [p]. *)
Fixpoint partition_point (p : EfsExtent → bool) (l : list EfsExtent) : nat :=
  match l with
  | [] => O
  | e :: l' => if p e then S (partition_point p l') else O
  end.

(** [slice::binary_search_by_key] on the sorted extents: the extent starting
    at the key, or the insertion point. *)
Definition binary_search (key : Z) (l : list EfsExtent) : nat + nat :=
  let i := partition_point (λ e, logical_block e <? key) l in
  match l !! i with
  | Some e => if logical_block e =? key then inl i else inr i
  | None => inr i
  end.

Definition block_count (l : list EfsExtent) : Z := fold_right (λ e n, length_ e + n) 0 l.

Definition lookup (l : list EfsExtent) (logical : Z) : option Z :=
  match (match binary_search logical l with
         | inl i => Some i
         | inr O => None
         | inr (S i) => Some i
         end) with
  | None => None
  | Some i =>
      e ← l !! i;
      if logical <? ext_end e then Some (physical_start e + (logical - logical_block e)) else None
  end.

Definition run_at (l : list EfsExtent) (logical : Z) : BlockRun :=
  let pos := partition_point (λ e, logical_block e <=? logical) l in
  let hole := Hole ((λ next, logical_block next - logical) <$> l !! pos) in
  match pos with
  | O => hole
  | S prev =>
      match l !! prev with
      | Some e =>
          if logical <? ext_end e
          then Mapped (physical_start e + (logical - logical_block e)) (ext_end e - logical)
          else hole
      | None => hole
      end
  end.

Definition goal_for (l : list EfsExtent) (logical : Z) : option Z :=
  match partition_point (λ e, logical_block e <=? logical) l with
  | O => None
  | S p =>
      prev ← l !! p;
      if logical <? ext_end prev then None
      else Some (phys_end prev + (logical - ext_end prev))
  end.

Definition set_length (e : EfsExtent) (n : Z) : EfsExtent :=
  mk_ext (logical_block e) n (start_hi e) (start_lo e).

Definition mergeable (cur next : EfsExtent) : bool :=
  (ext_end cur =? logical_block next) && (phys_end cur =? physical_start next)
  && (length_ cur + length_ next <=? MAX_EXTENT_LEN).

Definition merge_forward (l : list EfsExtent) (i : nat) : list EfsExtent :=
  match l !! S i, l !! i with
  | Some next, Some cur =>
      if mergeable cur next
      then delete (S i) (<[i := set_length cur (length_ cur + length_ next)]> l)
      else l
  | _, _ => l
  end.

(** [prev] can be extended by the pair. *)
Definition appendable (prev : EfsExtent) (logical phys : Z) : bool :=
  (ext_end prev =? logical) && (phys_end prev =? phys) && (length_ prev <? MAX_EXTENT_LEN).

(** [next] can be extended downwards by the pair. *)
Definition prependable (next : EfsExtent) (logical phys : Z) : bool :=
  (logical + 1 =? logical_block next) && (phys + 1 =? physical_start next)
  && (length_ next <? MAX_EXTENT_LEN).

(** The part of [insert] after the append case. *)
Definition insert_or_prepend (l : list EfsExtent) (pos : nat) (logical phys : Z) : list EfsExtent :=
  let fresh := take pos l ++ make_extent logical 1 phys :: drop pos l in
  match l !! pos with
  | Some next =>
      if prependable next logical phys then
        let l' := <[pos := make_extent logical (length_ next + 1) phys]> l in
        match pos with O => l' | S p => merge_forward l' p end
      else fresh
  | None => fresh
  end.

Definition insert (l : list EfsExtent) (logical phys : Z) : list EfsExtent :=
  let pos := partition_point (λ e, logical_block e <=? logical) l in
  match pos with
  | O => insert_or_prepend l pos logical phys
  | S p =>
      match l !! p with
      | Some prev =>
          if appendable prev logical phys
          then merge_forward (<[p := set_length prev (length_ prev + 1)]> l) p
          else insert_or_prepend l pos logical phys
      | None => insert_or_prepend l pos logical phys
      end
  end.

(** ** The abstract map *)

Definition covers (e : EfsExtent) (x : Z) : bool := (logical_block e <=? x) && (x <? ext_end e).

Fixpoint amap (l : list EfsExtent) (x : Z) : option Z :=
  match l with
  | [] => None
  | e :: l' => if covers e x then Some (physical_start e + (x - logical_block e)) else amap l' x
  end.

(** ** Well-formed extent lists *)

Record ext_ok (e : EfsExtent) : Prop := {
  eo_log : 0 <= logical_block e;
  eo_len : 1 <= length_ e <= MAX_EXTENT_LEN;
  eo_end : ext_end e <= U32_MAX;
  eo_hi : in_width 16 (start_hi e);
  eo_lo : in_width 32 (start_lo e);
  eo_phys : phys_end e <= 2 ^ 48
}.

(** Extents in order, disjoint, all at or above [lo]. *)
Fixpoint chain (lo : Z) (l : list EfsExtent) : Prop :=
  match l with
  | [] => True
  | e :: l' => ext_ok e ∧ lo <= logical_block e ∧ chain (ext_end e) l'
  end.

Fixpoint end_from (lo : Z) (l : list EfsExtent) : Z :=
  match l with [] => lo | e :: l' => end_from (ext_end e) l' end.

Definition wf (l : list EfsExtent) : Prop := chain 0 l.

(** ** Physical starts *)

Lemma physical_start_add e :
  in_width 32 (start_lo e) → physical_start e = start_hi e * 2 ^ 32 + start_lo e.
Proof. intros Hl. unfold physical_start. apply lor_shiftl_add; [lia|done]. Qed.

Lemma physical_start_make logical len phys :
  0 <= phys < 2 ^ 48 → physical_start (make_extent logical len phys) = phys.
Proof.
  intros Hp. rewrite physical_start_add; cbn [make_extent start_hi start_lo].
  - unfold wrap. rewrite Z.shiftr_div_pow2 by lia. rewrite (Z.mod_small (phys / 2 ^ 32)).
    + rewrite Z.mul_comm. symmetry. apply Z.div_mod. lia.
    + split; [apply Z.div_pos; lia|]. apply Z.div_lt_upper_bound; lia.
  - unfold wrap, in_width. apply Z.mod_pos_bound. lia.
Qed.

Lemma phys_nonneg e : ext_ok e → 0 <= physical_start e.
Proof. intros []. rewrite physical_start_add by done. unfold in_width in *. lia. Qed.

Lemma set_length_phys e n : physical_start (set_length e n) = physical_start e.
Proof. reflexivity. Qed.

Lemma make_extent_ok logical len phys :
  0 <= logical → 1 <= len <= MAX_EXTENT_LEN → logical + len <= U32_MAX →
  0 <= phys → phys + len <= 2 ^ 48 → ext_ok (make_extent logical len phys).
Proof.
  intros. assert (0 <= phys < 2 ^ 48) by lia.
  split; cbn [make_extent logical_block length_ start_hi start_lo]; try done.
  - unfold wrap, in_width. apply Z.mod_pos_bound. lia.
  - unfold wrap, in_width. apply Z.mod_pos_bound. lia.
  - unfold phys_end. rewrite physical_start_make by done. cbn [make_extent length_]. done.
Qed.

(** ** Chains *)

Lemma chain_weaken lo lo' l : lo' <= lo → chain lo l → chain lo' l.
Proof. destruct l; simpl; [done|]. intros ? (?&?&?). split_and!; [done|lia|done]. Qed.

Lemma chain_app lo a b : chain lo (a ++ b) ↔ chain lo a ∧ chain (end_from lo a) b.
Proof.
  revert lo; induction a as [|e a IH]; intros lo; simpl; [tauto|]. rewrite IH. tauto.
Qed.

Lemma end_from_app lo a b : end_from lo (a ++ b) = end_from (end_from lo a) b.
Proof. revert lo; induction a; intros lo; simpl; auto. Qed.

Lemma chain_end lo l : chain lo l → lo <= end_from lo l.
Proof.
  revert lo; induction l as [|e l IH]; intros lo; simpl; [lia|].
  intros ([] & ? & Hc). apply IH in Hc. unfold ext_end in *. lia.
Qed.

Lemma amap_below lo l x : chain lo l → x < lo → amap l x = None.
Proof.
  revert lo; induction l as [|e l IH]; intros lo; simpl; [done|].
  intros ([] & ? & Hc) Hx. unfold covers. replace (logical_block e <=? x) with false by lia. cbn [andb].
  apply (IH _ Hc). unfold ext_end. lia.
Qed.

Lemma amap_above lo l x : chain lo l → end_from lo l <= x → amap l x = None.
Proof.
  revert lo; induction l as [|e l IH]; intros lo; simpl; [done|].
  intros (? & ? & Hc) Hx. pose proof (chain_end _ _ Hc). unfold covers.
  replace (x <? ext_end e) with false by lia. rewrite andb_false_r. by apply (IH _ Hc).
Qed.

Lemma amap_app a b x : amap (a ++ b) x = match amap a x with Some p => Some p | None => amap b x end.
Proof. induction a as [|e a IH]; simpl; [done|]. destruct (covers e x); [done|apply IH]. Qed.

Lemma partition_split p l :
  take (partition_point p l) l ++ drop (partition_point p l) l = l ∧
  length (take (partition_point p l) l) = partition_point p l ∧
  Forall (λ e, p e = true) (take (partition_point p l) l) ∧
  match drop (partition_point p l) l with [] => True | e :: _ => p e = false end.
Proof.
  split; [apply take_drop|]. induction l as [|e l IH]; simpl; [done|].
  destruct (p e) eqn:E; simpl; [|done]. destruct IH as (? & ? & ?). split_and!; [lia|by constructor|done].
Qed.

(** Cutting a well-formed list at [x]: everything before ends at or below
    [x + 1] start-wise, everything after starts above. *)
Lemma chain_cut lo l x :
  chain lo l →
  ∃ pre post, l = pre ++ post ∧ partition_point (λ e, logical_block e <=? x) l = length pre ∧
    chain lo pre ∧ chain (Z.max (end_from lo pre) (x + 1)) post ∧
    Forall (λ e, logical_block e <= x) pre.
Proof.
  intros Hc. set (p := λ e, logical_block e <=? x).
  destruct (partition_split p l) as (Hl & Hlen & Hall & Hpost).
  exists (take (partition_point p l) l), (drop (partition_point p l) l).
  rewrite <- Hl in Hc. apply chain_app in Hc as [H1 H2].
  split_and!; [by rewrite Hl|done|done| |].
  - destruct (drop _ l) as [|e post]; [done|]. simpl in *. destruct H2 as (? & ? & ?).
    split_and!; [done| |done]. unfold p in Hpost. lia.
  - eapply Forall_impl; [exact Hall|]. unfold p. simpl. lia.
Qed.

(** The two searches agree: one past the extent that starts at [x], or the
    same insertion point. *)
Lemma partition_lt_le lo l x :
  chain lo l →
  let i := partition_point (λ e, logical_block e <? x) l in
  let k := partition_point (λ e, logical_block e <=? x) l in
  (k = i ∧ match l !! i with Some e => x < logical_block e | None => True end) ∨
  (k = S i ∧ ∃ e, l !! i = Some e ∧ logical_block e = x).
Proof.
  revert lo; induction l as [|e l IH]; intros lo; simpl; [auto|]. intros ([] & ? & Hc).
  destruct (Z.ltb_spec (logical_block e) x), (Z.leb_spec (logical_block e) x); try lia; simpl.
  - destruct (IH _ Hc) as [[? ?]|[? ?]]; [left|right]; (split; [lia|done]).
  - right. assert (logical_block e = x) by lia. split; [|eauto].
    destruct l as [|e' l]; [done|]. simpl in *. destruct Hc as (? & ? & ?).
    replace (logical_block e' <=? x) with false; [done|]. unfold ext_end in *. lia.
  - left. split; [done|lia].
Qed.

(** The extent that can cover [x] is the one before the partition point. *)
Definition lookup_spec (l : list EfsExtent) (x : Z) : option EfsExtent :=
  match partition_point (λ e, logical_block e <=? x) l with
  | O => None
  | S p => l !! p
  end.

Lemma lookup_alt l x :
  wf l →
  lookup l x = e ← lookup_spec l x;
    if x <? ext_end e then Some (physical_start e + (x - logical_block e)) else None.
Proof.
  intros Hwf. unfold lookup, binary_search, lookup_spec.
  destruct (partition_lt_le _ _ x Hwf) as [[-> Hn]|[-> (e & He & Hx)]].
  - destruct (l !! partition_point _ l) as [e|].
    + replace (logical_block e =? x) with false by lia. by destruct (partition_point _ l).
    + by destruct (partition_point _ l).
  - rewrite He, Hx, Z.eqb_refl, He. done.
Qed.

(** The extent before the cut, and the map below it. *)
Lemma cut_last lo pre e :
  chain lo (pre ++ [e]) → logical_block e <= ext_end e ∧ ext_ok e ∧ chain lo pre ∧
  end_from lo pre <= logical_block e.
Proof.
  intros H. apply chain_app in H as [H1 (H2 & H3 & _)]. destruct H2. unfold ext_end.
  split_and!; [lia|done|done|done].
Qed.

Lemma amap_cut pre post x :
  chain 0 pre → chain (Z.max (end_from 0 pre) (x + 1)) post → amap (pre ++ post) x = amap pre x.
Proof.
  intros Hpre Hpost. rewrite amap_app, (amap_below _ _ _ Hpost) by lia. by destruct (amap pre x).
Qed.

Lemma amap_cut_last pre e x :
  chain 0 (pre ++ [e]) → logical_block e <= x →
  amap (pre ++ [e]) x = if x <? ext_end e then Some (physical_start e + (x - logical_block e)) else None.
Proof.
  intros Hc Hx. apply cut_last in Hc as (_ & _ & Hc & He).
  rewrite amap_app, (amap_above _ _ _ Hc) by lia. cbn [amap]. unfold covers.
  replace (logical_block e <=? x) with true by lia. done.
Qed.

Lemma lookup_spec_cut pre e post x :
  partition_point (λ e, logical_block e <=? x) ((pre ++ [e]) ++ post) = length (pre ++ [e]) →
  lookup_spec ((pre ++ [e]) ++ post) x = Some e.
Proof.
  intros H. unfold lookup_spec. rewrite H, length_app. simpl. rewrite Nat.add_1_r, <- app_assoc.
  by apply list_lookup_middle.
Qed.

Lemma lookup_amap l x : wf l → lookup l x = amap l x.
Proof.
  intros Hwf. rewrite lookup_alt by done.
  destruct (chain_cut _ _ x Hwf) as (pre & post & -> & Hpos & Hpre & Hpost & Hall).
  rewrite amap_cut by done. destruct pre as [|e pre _] using rev_ind.
  - unfold lookup_spec. by rewrite Hpos.
  - rewrite lookup_spec_cut by done. cbn [mbind option_bind].
    apply Forall_app in Hall as [_ Hall]. apply Forall_cons in Hall as [He _].
    by rewrite amap_cut_last.
Qed.

(** Extent lookup is correct: on a well-formed extent list the binary
    search returns the physical block of the abstract map, for every logical
    block. *)
Theorem lookup_refines l x : wf l → lookup l x = amap l x.
Proof. apply lookup_amap. Qed.

Definition sample_map : list EfsExtent := [mk_ext 0 4 0 100; mk_ext 8 2 1 7].

Lemma sample_wf : wf sample_map.
Proof.
  repeat split; cbn; try (unfold in_width, MAX_EXTENT_LEN, ext_end, U32_MAX; simpl; lia);
    vm_compute; congruence.
Qed.

Lemma lookup_refines_witness :
  lookup sample_map 9 = amap sample_map 9 ∧ amap sample_map 9 = Some 4294967304.
Proof. split; [apply lookup_refines, sample_wf|reflexivity]. Defined.

(** Run queries are exact: a mapped answer names blocks that are
    contiguous in both spaces, and a hole answer names blocks none of which is
    mapped, up to the next extent or to the end of the file. *)
Theorem run_at_correct l x :
  wf l → 0 <= x →
  match run_at l x with
  | Mapped phys n => 1 <= n ∧ ∀ k, 0 <= k < n → amap l (x + k) = Some (phys + k)
  | Hole (Some n) => 1 <= n ∧ (∀ k, 0 <= k < n → amap l (x + k) = None) ∧ is_Some (amap l (x + n))
  | Hole None => ∀ k, 0 <= k → amap l (x + k) = None
  end.
Proof.
  intros Hwf Hx. unfold run_at.
  destruct (chain_cut _ _ x Hwf) as (pre & post & -> & Hpos & Hpre & Hpost & Hall). rewrite Hpos.
  assert (Hhole : (∀ k, 0 <= k → amap pre (x + k) = None) →
    match Hole ((λ next, logical_block next - x) <$> (pre ++ post) !! length pre) with
    | Mapped phys n => 1 <= n ∧ ∀ k, 0 <= k < n → amap (pre ++ post) (x + k) = Some (phys + k)
    | Hole (Some n) => 1 <= n ∧ (∀ k, 0 <= k < n → amap (pre ++ post) (x + k) = None) ∧
                       is_Some (amap (pre ++ post) (x + n))
    | Hole None => ∀ k, 0 <= k → amap (pre ++ post) (x + k) = None
    end).
  { intros Hn. rewrite lookup_app_r, Nat.sub_diag by lia.
    destruct post as [|e post]; cbn [list_lookup fmap option_fmap option_map].
    - intros k Hk. rewrite app_nil_r. by apply Hn.
    - destruct Hpost as (Hok & Hlo & Hpost). split_and!; [lia| |].
      + intros k Hk. rewrite amap_app, Hn by lia. cbn [amap]. unfold covers.
        replace (logical_block e <=? x + k) with false by lia. cbn [andb].
        apply (amap_below _ _ _ Hpost). destruct Hok. unfold ext_end. lia.
      + rewrite amap_app, Hn by lia. cbn [amap]. unfold covers.
        replace ((logical_block e <=? x + (logical_block e - x)) && (x + (logical_block e - x) <? ext_end e))
          with true; [eauto|]. destruct Hok. unfold ext_end. lia. }
  destruct pre as [|e pre _] using rev_ind; [by apply Hhole|].
  apply Forall_app in Hall as [_ Hall]. apply Forall_cons in Hall as [He _].
  destruct (length (pre ++ [e])) as [|p] eqn:Hlen; [rewrite length_app in Hlen; simpl in Hlen; lia|].
  rewrite <- Hlen in Hhole |- *. rewrite length_app in Hlen. simpl in Hlen.
  replace p with (length pre) by lia.
  assert (Hl : ((pre ++ [e]) ++ post) !! length pre = Some e)
    by (rewrite <- app_assoc; by apply list_lookup_middle).
  rewrite Hl. destruct (x <? ext_end e) eqn:Ee; to_lia.
  - split; [lia|]. intros k Hk. rewrite amap_app, amap_cut_last by (done || lia).
    replace (x + k <? ext_end e) with true by lia. f_equal. lia.
  - apply Hhole. intros k Hk. rewrite amap_cut_last by (done || lia).
    by replace (x + k <? ext_end e) with false by lia.
Qed.

Lemma run_at_correct_witness :
  run_at sample_map 5 = Hole (Some 3) ∧ 1 <= 3 ∧
  (∀ k, 0 <= k < 3 → amap sample_map (5 + k) = None) ∧ is_Some (amap sample_map (5 + 3)).
Proof. split; [reflexivity|]. apply (run_at_correct sample_map 5); [apply sample_wf|lia]. Defined.

(** ** Insertion *)

(** Two lists that represent the same map with the same number of blocks. *)
Definition same_map (l l' : list EfsExtent) : Prop :=
  (∀ y, amap l' y = amap l y) ∧ block_count l' = block_count l.

(** [l'] represents [l] with [x] mapped to [p]. *)
Definition adds (l : list EfsExtent) (x p : Z) (l' : list EfsExtent) : Prop :=
  (∀ y, amap l' y = if y =? x then Some p else amap l y) ∧ block_count l' = block_count l + 1.

Lemma block_count_app a b : block_count (a ++ b) = block_count a + block_count b.
Proof. induction a; simpl; lia. Qed.

Lemma block_count_cons e l : block_count (e :: l) = length_ e + block_count l.
Proof. reflexivity. Qed.

Lemma adds_same l x p l1 l2 : adds l x p l1 → same_map l1 l2 → adds l x p l2.
Proof. intros [H1 H2] [H3 H4]. split; [intros y; by rewrite H3|lia]. Qed.

Lemma merged_ok cur next :
  ext_ok cur → ext_ok next → mergeable cur next = true →
  let m := set_length cur (length_ cur + length_ next) in
  ext_ok m ∧ ext_end m = ext_end next ∧
  ∀ y, (if covers m y then Some (physical_start m + (y - logical_block m)) else None) =
       amap [cur; next] y.
Proof.
  intros Hc Hn Hm. unfold mergeable in Hm. to_lia. destruct Hc, Hn. cbn zeta.
  unfold phys_end, ext_end in *. rewrite !physical_start_add in * by done.
  cbn [set_length logical_block length_ start_hi start_lo]. split_and!; [|lia|].
  - split; cbn [set_length logical_block length_ start_hi start_lo]; unfold ext_end, phys_end;
      rewrite ?set_length_phys, ?physical_start_add by done;
      cbn [set_length logical_block length_ start_hi start_lo]; (done || lia).
  - intros y. cbn [amap]. unfold covers, ext_end. cbn [set_length logical_block length_].
    rewrite ?set_length_phys, ?physical_start_add by done. bool_cases; to_lia; try (f_equal; lia); lia.
Qed.

Lemma merge_forward_middle a cur next b :
  merge_forward (a ++ cur :: next :: b) (length a) =
  if mergeable cur next then a ++ set_length cur (length_ cur + length_ next) :: b
  else a ++ cur :: next :: b.
Proof.
  unfold merge_forward.
  assert (Hn : (a ++ cur :: next :: b) !! S (length a) = Some next).
  { rewrite lookup_app_r by lia. by replace (S (length a) - length a)%nat with 1%nat by lia. }
  rewrite Hn, list_lookup_middle by done. destruct (mergeable cur next); [|done].
  rewrite insert_list_middle. set (m := set_length _ _).
  replace (S (length a)) with (length (a ++ [m])) by (rewrite length_app; simpl; lia).
  replace (a ++ m :: next :: b) with ((a ++ [m]) ++ next :: b) by (by rewrite <- app_assoc).
  by rewrite delete_middle, <- app_assoc.
Qed.

Lemma merge_forward_last a cur : merge_forward (a ++ [cur]) (length a) = a ++ [cur].
Proof.
  unfold merge_forward. rewrite lookup_ge_None_2; [done|]. rewrite length_app. simpl. lia.
Qed.

Lemma merge_forward_ok lo a cur b :
  chain lo (a ++ cur :: b) →
  chain lo (merge_forward (a ++ cur :: b) (length a)) ∧
  same_map (a ++ cur :: b) (merge_forward (a ++ cur :: b) (length a)).
Proof.
  intros Hc. destruct b as [|next b]; [rewrite merge_forward_last; done|].
  rewrite merge_forward_middle. destruct (mergeable cur next) eqn:Em; [|done].
  apply chain_app in Hc as [Ha (Hcur & Hlo & Hnext & Hlo' & Hb)].
  destruct (merged_ok _ _ Hcur Hnext Em) as (Hm & Hend & Hmap). split.
  - apply chain_app. split; [done|]. split_and!; [done|done|by rewrite Hend].
  - split.
    + intros y. rewrite !amap_app. destruct (amap a y); [done|].
      specialize (Hmap y). cbn [amap] in Hmap |- *.
      destruct (covers (set_length _ _) y), (covers cur y), (covers next y); congruence.
    + rewrite !block_count_app, !block_count_cons. cbn [set_length length_]. lia.
Qed.


Lemma covers_single e y : covers e y = true ↔ logical_block e <= y < ext_end e.
Proof. unfold covers. lia. Qed.

(** Extending [prev] upwards by the pair. *)
Lemma append_ok pre prev post x p :
  chain 0 (pre ++ [prev]) → chain (Z.max (ext_end prev) (x + 1)) post →
  appendable prev x p = true → x + 1 <= U32_MAX → p + 1 <= 2 ^ 48 →
  chain 0 (pre ++ set_length prev (length_ prev + 1) :: post) ∧
  adds (pre ++ prev :: post) x p (pre ++ set_length prev (length_ prev + 1) :: post).
Proof.
  intros Hpre Hpost Ha Hx Hp. apply cut_last in Hpre as (_ & [] & Hpre & Hlo).
  unfold appendable in Ha. to_lia. unfold ext_end, phys_end in *. split.
  - apply chain_app. split; [done|]. split_and!; [|done|].
    + split; unfold ext_end, phys_end; rewrite ?set_length_phys;
        cbn [set_length logical_block length_ start_hi start_lo]; (done || lia).
    + eapply chain_weaken; [|exact Hpost]. unfold ext_end.
      cbn [set_length logical_block length_]. lia.
  - split; [|rewrite !block_count_app, !block_count_cons; cbn [set_length length_]; lia].
    intros y. rewrite !amap_app. cbn [amap]. rewrite set_length_phys. unfold covers, ext_end.
    cbn [set_length logical_block length_].
    destruct (Z.eqb_spec y x) as [->|Hne].
    + rewrite (amap_above _ _ x Hpre) by lia.
      replace ((logical_block prev <=? x) && (x <? logical_block prev + (length_ prev + 1))) with true by lia.
      f_equal. lia.
    + destruct (amap pre y); [done|]. bool_cases; to_lia; (done || lia).
Qed.

(** Extending the following extent downwards by the pair. *)
Lemma prepend_ok pre next post x p :
  chain 0 pre → end_from 0 pre <= x → chain (x + 1) (next :: post) →
  prependable next x p = true → 0 <= x → 0 <= p →
  chain 0 (pre ++ make_extent x (length_ next + 1) p :: post) ∧
  adds (pre ++ next :: post) x p (pre ++ make_extent x (length_ next + 1) p :: post).
Proof.
  intros Hpre Hend ([] & Hlo & Hpost) Ha Hx Hp. unfold prependable in Ha. to_lia.
  unfold ext_end, phys_end in *.
  assert (Hps : physical_start (make_extent x (length_ next + 1) p) = p)
    by (apply physical_start_make; lia).
  split.
  - apply chain_app. split; [done|]. split_and!; [apply make_extent_ok; lia|done|].
    eapply chain_weaken; [|exact Hpost]. unfold ext_end. cbn [make_extent logical_block length_]. lia.
  - split; [|rewrite !block_count_app, ?block_count_cons; cbn [make_extent length_]; lia].
    intros y. rewrite !amap_app. cbn [amap]. rewrite Hps. unfold covers, ext_end.
    cbn [make_extent logical_block length_].
    destruct (Z.eqb_spec y x) as [->|Hne].
    + rewrite (amap_above _ _ x Hpre) by lia.
      replace ((x <=? x) && (x <? x + (length_ next + 1))) with true by lia. f_equal. lia.
    + destruct (amap pre y); [done|]. bool_cases; to_lia; try (f_equal; lia); (done || lia).
Qed.

(** A fresh one-block extent. *)
Lemma fresh_ok pre post x p :
  chain 0 pre → end_from 0 pre <= x → chain (x + 1) post →
  0 <= x → x + 1 <= U32_MAX → 0 <= p → p + 1 <= 2 ^ 48 →
  chain 0 (pre ++ make_extent x 1 p :: post) ∧ adds (pre ++ post) x p (pre ++ make_extent x 1 p :: post).
Proof.
  intros Hpre Hend Hpost Hx Hx' Hp Hp'.
  assert (Hps : physical_start (make_extent x 1 p) = p) by (apply physical_start_make; lia).
  split.
  - apply chain_app. split; [done|].
    split_and!; [apply make_extent_ok; unfold MAX_EXTENT_LEN; lia|done|done].
  - split; [|rewrite !block_count_app, ?block_count_cons; cbn [make_extent length_]; lia].
    intros y. rewrite !amap_app. cbn [amap]. rewrite Hps. unfold covers, ext_end.
    cbn [make_extent logical_block length_].
    destruct (Z.eqb_spec y x) as [->|Hne].
    + rewrite (amap_above _ _ x Hpre) by lia.
      replace ((x <=? x) && (x <? x + 1)) with true by lia. f_equal. lia.
    + destruct (amap pre y); [done|]. by replace ((x <=? y) && (y <? x + 1)) with false by lia.
Qed.

Lemma insert_or_prepend_ok pre post x p :
  chain 0 pre → end_from 0 pre <= x → chain (x + 1) post →
  0 <= x → x + 1 <= U32_MAX → 0 <= p → p + 1 <= 2 ^ 48 →
  chain 0 (insert_or_prepend (pre ++ post) (length pre) x p) ∧
  adds (pre ++ post) x p (insert_or_prepend (pre ++ post) (length pre) x p).
Proof.
  intros Hpre Hend Hpost Hx Hx' Hp Hp'. unfold insert_or_prepend.
  assert (Hfresh : take (length pre) (pre ++ post) ++ make_extent x 1 p :: drop (length pre) (pre ++ post)
    = pre ++ make_extent x 1 p :: post) by (by rewrite take_app_length, drop_app_length).
  rewrite Hfresh, lookup_app_r, Nat.sub_diag by lia.
  destruct post as [|next post]; [by apply fresh_ok|].
  change ((next :: post) !! 0%nat) with (Some next). cbn match.
  destruct (prependable next x p) eqn:Epre; [|by apply fresh_ok].
  rewrite insert_list_middle.
  destruct (prepend_ok pre next post x p) as [Hc Hadd]; [done..|].
  destruct pre as [|e pre _] using rev_ind; [done|].
  replace (length (pre ++ [e])) with (S (length pre)) by (rewrite length_app; simpl; lia).
  assert (Hassoc : ∀ l, (pre ++ [e]) ++ l = pre ++ e :: l) by (intros; by rewrite <- app_assoc).
  repeat rewrite Hassoc in Hadd. repeat rewrite Hassoc in Hc. repeat rewrite Hassoc.
  destruct (merge_forward_ok _ _ _ _ Hc) as [Hc' Hs]. split; [done|]. eapply adds_same; [exact Hadd|exact Hs].
Qed.

(** C35 Insertion refines the partial map: recording an unmapped logical block
    adds exactly that pair, whichever of the merge cases applies, keeps the
    list well formed (sorted, disjoint, lengths within the on-disk limit) and
    counts one more block. *)
Theorem insert_refines l x p :
  wf l → amap l x = None → 0 <= x → x + 1 <= U32_MAX → 0 <= p → p + 1 <= 2 ^ 48 →
  wf (insert l x p) ∧
  (∀ y, lookup (insert l x p) y = if y =? x then Some p else lookup l y) ∧
  block_count (insert l x p) = block_count l + 1.
Proof.
  intros Hwf Hnone Hx Hx' Hp Hp'.
  enough (H : wf (insert l x p) ∧ adds l x p (insert l x p)).
  { destruct H as [H1 [H2 H3]]. split_and!; [done| |done].
    intros y. by rewrite !lookup_amap, H2. }
  unfold insert. destruct (chain_cut _ _ x Hwf) as (pre & post & -> & Hpos & Hpre & Hpost & Hall).
  rewrite Hpos. rewrite amap_cut in Hnone by done.
  destruct pre as [|e pre _] using rev_ind.
  - apply (insert_or_prepend_ok []); try done. eapply chain_weaken; [|exact Hpost]. lia.
  - apply Forall_app in Hall as [_ Hall]. apply Forall_cons in Hall as [He _].
    assert (Hend : ext_end e <= x).
    { rewrite amap_cut_last in Hnone by done. destruct (x <? ext_end e) eqn:E; [done|]. to_lia. lia. }
    rewrite end_from_app in Hpost. cbn [end_from] in Hpost.
    replace (length (pre ++ [e])) with (S (length pre)) by (rewrite length_app; simpl; lia).
    assert (Hl : ((pre ++ [e]) ++ post) !! length pre = Some e)
      by (rewrite <- app_assoc; by apply list_lookup_middle).
    rewrite Hl. destruct (appendable e x p) eqn:Ea.
    + rewrite <- app_assoc. cbn [app]. rewrite insert_list_middle.
      destruct (append_ok pre e post x p) as [Hc Hadd]; [done..|].
      destruct (merge_forward_ok _ _ _ _ Hc) as [Hc' Hs]. split; [done|]. eapply adds_same; [exact Hadd|exact Hs].
    + replace (S (length pre)) with (length (pre ++ [e])) by (rewrite length_app; simpl; lia).
      apply insert_or_prepend_ok; try done.
      * by rewrite end_from_app.
      * eapply chain_weaken; [|exact Hpost]. lia.
Qed.

Lemma insert_refines_witness :
  wf (insert sample_map 4 104) ∧
  (∀ y, lookup (insert sample_map 4 104) y = if y =? 4 then Some 104 else lookup sample_map y) ∧
  block_count (insert sample_map 4 104) = block_count sample_map + 1.
Proof.
  apply insert_refines; [apply sample_wf|reflexivity|..]; unfold U32_MAX; lia.
Defined.

End ExtentMap.
