(* ===== verification/ExtentTree.v ===== *)
(** * Extent trees (libs/efs-common/src/extent.rs, kernel/src/fs/efs/extents.rs)

    The node codec, the tree builder, and loading and storing a file's extent
    map. The block device and the block allocator are reached through the
    [BlockStore] interface, whose laws are what the callers rely on. *)

From S2P Require Import Prelude ExtentMap.
Import ExtentMap.

Module ExtentTree.

Definition EXTENT_MAGIC : Z := 0xEF10.
Definition INODE_DATA_AREA_SIZE : nat := 176.
Definition sizeof_node : nat := 12.

Record EfsExtentHeader := mk_eh {
  eh_magic : Z;
  eh_entries : Z;
  eh_max_entries : Z;
  eh_depth : Z;
  eh_reserved : Z
}.

Record EfsExtentIndex := mk_ei {
  ei_logical_block : Z;
  ei_reserved : Z;
  ei_leaf_hi : Z;
  ei_leaf_lo : Z
}.

Definition child_block (e : EfsExtentIndex) : Z := Z.lor (Z.shiftl (ei_leaf_hi e) 32) (ei_leaf_lo e).

Definition make_index (logical block : Z) : EfsExtentIndex :=
  mk_ei logical 0 (wrap 16 (Z.shiftr block 32)) (wrap 32 block).

Definition entries_per_node (bytes : nat) : nat := (bytes - sizeof_node) / sizeof_node.
Definition MAX_INLINE_EXTENTS : nat := entries_per_node INODE_DATA_AREA_SIZE.
Definition max_extents (block_size : nat) : nat := MAX_INLINE_EXTENTS * entries_per_node block_size.

(** ** Node codec *)

Definition eh_bytes (h : EfsExtentHeader) : list Z :=
  le_bytes 2 (eh_magic h) ++ le_bytes 2 (eh_entries h) ++ le_bytes 2 (eh_max_entries h) ++
  le_bytes 2 (eh_depth h) ++ le_bytes 4 (eh_reserved h).
Definition eh_read (b : list Z) : EfsExtentHeader :=
  mk_eh (le_at 0 2 b) (le_at 2 2 b) (le_at 4 2 b) (le_at 6 2 b) (le_at 8 4 b).

Definition ext_bytes (e : EfsExtent) : list Z :=
  le_bytes 4 (logical_block e) ++ le_bytes 2 (length_ e) ++ le_bytes 2 (start_hi e) ++
  le_bytes 4 (start_lo e).
Definition ext_read (b : list Z) : EfsExtent :=
  mk_ext (le_at 0 4 b) (le_at 4 2 b) (le_at 6 2 b) (le_at 8 4 b).

Definition ei_bytes (e : EfsExtentIndex) : list Z :=
  le_bytes 4 (ei_logical_block e) ++ le_bytes 2 (ei_reserved e) ++ le_bytes 2 (ei_leaf_hi e) ++
  le_bytes 4 (ei_leaf_lo e).
Definition ei_read (b : list Z) : EfsExtentIndex :=
  mk_ei (le_at 0 4 b) (le_at 4 2 b) (le_at 6 2 b) (le_at 8 4 b).

Definition read_node_header (node : list Z) : option EfsExtentHeader :=
  if (length node <? sizeof_node)%nat then None else Some (eh_read node).

Definition write_node_header (node : list Z) (h : EfsExtentHeader) : outcome (list Z) :=
  write_at 0 (eh_bytes h) node.

Definition read_node_entry {T} (dec : list Z → T) (node : list Z) (index : nat) : option T :=
  let off := (sizeof_node + index * sizeof_node)%nat in
  if (length node <? off + sizeof_node)%nat then None else Some (dec (sub off sizeof_node node)).

Definition write_node_entry {T} (enc : T → list Z) (node : list Z) (index : nat) (e : T)
    : outcome (list Z) :=
  write_at (sizeof_node + index * sizeof_node) (enc e) node.

(** [for (i, ext) in es.iter().enumerate() { write_node_entry(node, i, ext) }] *)
Fixpoint write_node_entries {T} (enc : T → list Z) (node : list Z) (index : nat) (es : list T)
    : outcome (list Z) :=
  match es with
  | [] => Ret node
  | e :: rest => node ← write_node_entry enc node index e; write_node_entries enc node (S index) rest
  end.

(** ** Errors and the block store *)

Inductive Error := Corrupted | Unsupported | Store (code : Z).

(** What the extent code needs of the block layer: allocation, writes, reads
    and frees, with the laws it relies on. *)
Class BlockStore (S : Type) := {
  bs_read : Z → S → result Error (list Z);
  bs_write : Z → list Z → S → result Error S;
  bs_alloc : S → result Error (Z * S);
  bs_free : Z → S → result Error S;
  bs_used : Z → S → Prop;
  write_read : ∀ b d s s', bs_write b d s = Ok s' → bs_read b s' = Ok d;
  write_other : ∀ b d s s' b', bs_write b d s = Ok s' → b' ≠ b → bs_read b' s' = bs_read b' s;
  write_used : ∀ b d s s' b', bs_write b d s = Ok s' → bs_used b' s' ↔ bs_used b' s;
  alloc_fresh : ∀ s b s', bs_alloc s = Ok (b, s') → ¬ bs_used b s ∧ in_width 48 b;
  alloc_used : ∀ s b s' b', bs_alloc s = Ok (b, s') → bs_used b' s' ↔ b' = b ∨ bs_used b' s;
  alloc_read : ∀ s b s' b', bs_alloc s = Ok (b, s') → bs_read b' s' = bs_read b' s;
  free_other : ∀ b s s' b', bs_free b s = Ok s' → b' ≠ b → bs_read b' s' = bs_read b' s;
  free_used : ∀ b s s' b', bs_free b s = Ok s' → bs_used b' s' ↔ bs_used b' s ∧ b' ≠ b
}.

(** ** The tree builder *)

(** [runs.chunks(n)] for a positive [n]. *)
Fixpoint chunks_fuel {A} (fuel n : nat) (l : list A) : list (list A) :=
  match fuel, l with
  | O, _ | _, [] => []
  | S fuel', _ => take n l :: chunks_fuel fuel' n (drop n l)
  end.
Definition chunks {A} (n : nat) (l : list A) : list (list A) := chunks_fuel (length l) n l.

Section Builder.
Context {S : Type}.
(** [emit_leaf(index, node)], threading the caller's state. *)
Context (emit_leaf : nat → list Z → S → result Error (Z * S)).

Definition leaf_node (block_size : nat) (chunk : list EfsExtent) : outcome (list Z) :=
  node ← write_node_header (replicate block_size 0)
           (mk_eh EXTENT_MAGIC (wrap 16 (Z.of_nat (length chunk)))
              (wrap 16 (Z.of_nat (entries_per_node block_size))) 0 0);
  write_node_entries ext_bytes node 0 chunk.

Definition chunk_logical (chunk : list EfsExtent) : outcome Z :=
  match chunk with e :: _ => Ret (logical_block e) | [] => Panic end.

Fixpoint emit_leaves (block_size i : nat) (area : list Z) (cs : list (list EfsExtent)) (s : S)
    : outcome (result Error (list Z * S)) :=
  match cs with
  | [] => Ret (Ok (area, s))
  | chunk :: rest =>
      node ← leaf_node block_size chunk;
      match emit_leaf i node s with
      | Err e => Ret (Err e)
      | Ok (leaf_block, s) =>
          logical ← chunk_logical chunk;
          area ← write_node_entry ei_bytes area i (make_index logical leaf_block);
          emit_leaves block_size (i + 1) area rest s
      end
  end.

(** The new [data_area], the number of leaves, and the caller's state. *)
Definition build_extent_tree (runs : list EfsExtent) (block_size : nat) (s : S)
    : outcome (result Error (list Z * nat * S)) :=
  if (max_extents block_size <? length runs)%nat then Panic
  else
    let per_leaf := entries_per_node block_size in
    let area := replicate INODE_DATA_AREA_SIZE 0 in
    if (length runs <=? MAX_INLINE_EXTENTS)%nat then
      area ← write_node_header area
               (mk_eh EXTENT_MAGIC (wrap 16 (Z.of_nat (length runs)))
                  (wrap 16 (Z.of_nat MAX_INLINE_EXTENTS)) 0 0);
      area ← write_node_entries ext_bytes area 0 runs;
      Ret (Ok (area, O, s))
    else
      let leaf_count := ((length runs + per_leaf - 1) / per_leaf)%nat in
      area ← write_node_header area
               (mk_eh EXTENT_MAGIC (wrap 16 (Z.of_nat leaf_count))
                  (wrap 16 (Z.of_nat MAX_INLINE_EXTENTS)) 1 0);
      r ← emit_leaves block_size 0 area (chunks per_leaf runs) s;
      Ret (match r with
           | Err e => Err e
           | Ok (area, s) => Ok (area, leaf_count, s)
           end).
End Builder.

(** ** Loading *)

Fixpoint read_entries (node : list Z) (i count : nat) : result Error (list EfsExtent) :=
  match count with
  | O => Ok []
  | S count' =>
      match read_node_entry ext_read node i with
      | None => Err Corrupted
      | Some e => rest ← read_entries node (i + 1) count'; Ok (e :: rest)
      end
  end.

Definition read_leaf_entries (node : list Z) (count capacity : nat)
    : result Error (list EfsExtent) :=
  if (capacity <? count)%nat then Err Corrupted else read_entries node 0 count.

Section Load.
Context {S : Type} `{BlockStore S}.
Context (block_size : nat).

Fixpoint load_leaves (area : list Z) (i count : nat) (s : S) : result Error (list EfsExtent) :=
  match count with
  | O => Ok []
  | Datatypes.S count' =>
      match read_node_entry ei_read area i with
      | None => Err Corrupted
      | Some idx =>
          leaf ← bs_read (child_block idx) s;
          match read_node_header leaf with
          | None => Err Corrupted
          | Some leaf_hdr =>
              if negb (eh_magic leaf_hdr =? EXTENT_MAGIC) || negb (eh_depth leaf_hdr =? 0)
              then Err Corrupted
              else
                es ← read_leaf_entries leaf (Z.to_nat (eh_entries leaf_hdr)) (entries_per_node block_size);
                rest ← load_leaves area (i + 1) count' s;
                Ok (es ++ rest)
          end
      end
  end.

Definition load_extent_map (area : list Z) (s : S) : result Error (list EfsExtent) :=
  match read_node_header area with
  | None => Err Corrupted
  | Some hdr =>
      if negb (eh_magic hdr =? EXTENT_MAGIC) then Err Corrupted
      else if eh_depth hdr =? 0 then
        read_leaf_entries area (Z.to_nat (eh_entries hdr)) MAX_INLINE_EXTENTS
      else if eh_depth hdr =? 1 then
        load_leaves area 0 (Nat.min (Z.to_nat (eh_entries hdr)) MAX_INLINE_EXTENTS) s
      else Err Unsupported
  end.

Fixpoint read_children (area : list Z) (i count : nat) : result Error (list Z) :=
  match count with
  | O => Ok []
  | Datatypes.S count' =>
      match read_node_entry ei_read area i with
      | None => Err Corrupted
      | Some idx => rest ← read_children area (i + 1) count'; Ok (child_block idx :: rest)
      end
  end.

Definition tree_blocks (area : list Z) : result Error (list Z) :=
  match read_node_header area with
  | None => Ok []
  | Some hdr =>
      if negb (eh_magic hdr =? EXTENT_MAGIC) || (eh_depth hdr =? 0) then Ok []
      else read_children area 0 (Nat.min (Z.to_nat (eh_entries hdr)) MAX_INLINE_EXTENTS)
  end.

(** ** Storing *)

(** The closure [store_extent_map] passes to the builder: reuse the [i]-th
    existing tree block or allocate one, then write the node. *)
Definition store_leaf (existing : list Z) (i : nat) (node : list Z) (s : S) : result Error (Z * S) :=
  '(block, s) ← match existing !! i with
                | Some b => Ok (b, s)
                | None => bs_alloc s
                end;
  s ← bs_write block node s;
  Ok (block, s).

Fixpoint free_all (blocks : list Z) (s : S) : result Error S :=
  match blocks with
  | [] => Ok s
  | b :: rest => s ← bs_free b s; free_all rest s
  end.

(** The new [data_area], the value of [inode.blocks], and the store. *)
Definition store_extent_map (area : list Z) (map : list EfsExtent) (s : S)
    : outcome (result Error (list Z * Z * S)) :=
  if (max_extents block_size <? length map)%nat then Ret (Err Unsupported)
  else
    match tree_blocks area with
    | Err e => Ret (Err e)
    | Ok existing =>
        r ← build_extent_tree (store_leaf existing) map block_size s;
        Ret ('(area, leaves, s) ← r;
             s ← free_all (drop leaves existing) s;
             Ok (area, block_count map, s))
    end.

(** The blocks of one extent, in order. *)
Definition ext_blocks (e : EfsExtent) : list Z := seqZ (physical_start e) (length_ e).

(** Free the data blocks and the tree blocks; an inode whose nodes do not parse
    frees what can be identified. *)
Definition free_extent_storage (area : list Z) (s : S) : result Error S :=
  let map := match load_extent_map area s with Ok l => l | Err _ => [] end in
  s ← free_all (mjoin (ext_blocks <$> map)) s;
  free_all (match tree_blocks area with Ok l => l | Err _ => [] end) s.
End Load.

(** ** Codec lemmas *)

Definition eh_ok (h : EfsExtentHeader) : Prop :=
  in_width 16 (eh_magic h) ∧ in_width 16 (eh_entries h) ∧ in_width 16 (eh_max_entries h) ∧
  in_width 16 (eh_depth h) ∧ in_width 32 (eh_reserved h).
Definition ext_fields_ok (e : EfsExtent) : Prop :=
  in_width 32 (logical_block e) ∧ in_width 16 (length_ e) ∧ in_width 16 (start_hi e) ∧
  in_width 32 (start_lo e).
Definition ei_ok (e : EfsExtentIndex) : Prop :=
  in_width 32 (ei_logical_block e) ∧ in_width 16 (ei_reserved e) ∧ in_width 16 (ei_leaf_hi e) ∧
  in_width 32 (ei_leaf_lo e).

Lemma length_eh_bytes h : length (eh_bytes h) = sizeof_node.
Proof. unfold eh_bytes. by autorewrite with edos. Qed.
Lemma length_ext_bytes e : length (ext_bytes e) = sizeof_node.
Proof. unfold ext_bytes. by autorewrite with edos. Qed.
Lemma length_ei_bytes e : length (ei_bytes e) = sizeof_node.
Proof. unfold ei_bytes. by autorewrite with edos. Qed.

Lemma eh_read_bytes h rest : eh_ok h → eh_read (eh_bytes h ++ rest) = h.
Proof.
  destruct h as [m e x d r]. intros (?&?&?&?&?). unfold eh_read, eh_bytes.
  cbn [eh_magic eh_entries eh_max_entries eh_depth eh_reserved] in *.
  rewrite <- !app_assoc. f_equal; decode_field; reflexivity.
Qed.
Lemma ext_read_bytes e : ext_fields_ok e → ext_read (ext_bytes e) = e.
Proof.
  destruct e as [l n h o]. intros (?&?&?&?). unfold ext_read, ext_bytes.
  cbn [logical_block length_ start_hi start_lo] in *. f_equal; decode_field; reflexivity.
Qed.
Lemma ei_read_bytes e : ei_ok e → ei_read (ei_bytes e) = e.
Proof.
  destruct e as [l n h o]. intros (?&?&?&?). unfold ei_read, ei_bytes.
  cbn [ei_logical_block ei_reserved ei_leaf_hi ei_leaf_lo] in *. f_equal; decode_field; reflexivity.
Qed.

Lemma child_block_make logical b : in_width 48 b → child_block (make_index logical b) = b.
Proof.
  intros Hb. apply (physical_start_make logical 0 b). done.
Qed.

Lemma make_index_ok logical b : in_width 32 logical → ei_ok (make_index logical b).
Proof.
  intros Hl. unfold ei_ok, make_index, wrap, in_width in *.
  cbn [ei_logical_block ei_reserved ei_leaf_hi ei_leaf_lo]. split_and!; try lia;
    apply Z.mod_pos_bound; lia.
Qed.

(** ** Nodes as byte images *)

Ltac nlia := unfold sizeof_node in *; lia.

Section Node.
Context {T : Type} (enc : T → list Z) (dec : list Z → T).
Context (Henc : ∀ e, length (enc e) = sizeof_node).

Definition node_image (n : nat) (h : EfsExtentHeader) (es : list T) : list Z :=
  eh_bytes h ++ mjoin (enc <$> es) ++ replicate (n - sizeof_node - sizeof_node * length es) 0.

Lemma length_mjoin_node es : length (mjoin (enc <$> es)) = (sizeof_node * length es)%nat.
Proof.
  induction es as [|x l IHl]; [done|].
  rewrite fmap_cons, mjoin_cons, length_app, IHl, Henc. simpl. nlia.
Qed.

Lemma length_node_image n h es :
  (sizeof_node + sizeof_node * length es <= n)%nat → length (node_image n h es) = n.
Proof.
  intros H. unfold node_image. rewrite !length_app, length_eh_bytes, length_mjoin_node, length_replicate. nlia.
Qed.

Lemma write_header_image n h :
  (sizeof_node <= n)%nat → write_node_header (replicate n 0) h = Ret (node_image n h []).
Proof.
  intros H. unfold write_node_header.
  rewrite write_at_ok by (rewrite length_eh_bytes, length_replicate; nlia).
  f_equal. change 0%nat with (length (@nil Z)) at 1.
  rewrite <- (app_nil_l (replicate n 0)), splice_zeros by (rewrite length_eh_bytes; nlia).
  unfold node_image. cbn [fmap list_fmap length]. rewrite length_eh_bytes, Nat.mul_0_r, Nat.sub_0_r. done.
Qed.

Lemma write_next_entry n h es e :
  (sizeof_node + sizeof_node * S (length es) <= n)%nat →
  write_node_entry enc (node_image n h es) (length es) e = Ret (node_image n h (es ++ [e])).
Proof.
  intros H. unfold write_node_entry.
  rewrite write_at_ok by (rewrite length_node_image, Henc by nlia; nlia). f_equal.
  unfold node_image. rewrite !app_assoc.
  replace (sizeof_node + length es * sizeof_node)%nat with (length (eh_bytes h ++ mjoin (enc <$> es)))
    by (rewrite length_app, length_eh_bytes, length_mjoin_node; nlia).
  rewrite splice_zeros by (rewrite Henc; nlia).
  rewrite Henc, fmap_app, join_app, length_app. cbn [fmap list_fmap]. rewrite mjoin_cons, app_nil_r.
  rewrite <- !app_assoc. cbn [length]. do 4 f_equal. nlia.
Qed.

Lemma write_entries_image n h es0 es :
  (sizeof_node + sizeof_node * (length es0 + length es) <= n)%nat →
  write_node_entries enc (node_image n h es0) (length es0) es = Ret (node_image n h (es0 ++ es)).
Proof.
  revert es0; induction es as [|e es IH]; intros es0 H; cbn [write_node_entries].
  - by rewrite app_nil_r.
  - simpl in H. rewrite write_next_entry by nlia. cbn [mbind outcome_bind].
    specialize (IH (es0 ++ [e])). rewrite length_app in IH. cbn [length] in IH.
    rewrite Nat.add_1_r in IH. rewrite IH by nlia. by rewrite <- app_assoc.
Qed.

Lemma read_header_image n h es : eh_ok h → read_node_header (node_image n h es) = Some h.
Proof.
  intros H. unfold read_node_header, node_image. rewrite length_app, length_eh_bytes.
  rewrite (proj2 (Nat.ltb_ge _ _)) by nlia. by rewrite eh_read_bytes.
Qed.

Lemma sub_mjoin es rest : ∀ i e, es !! i = Some e →
  sub (i * sizeof_node) sizeof_node (mjoin (enc <$> es) ++ rest) = enc e.
Proof.
  induction es as [|x es IH]; intros i e Hi; [done|].
  rewrite fmap_cons, mjoin_cons, <- app_assoc. destruct i as [|i]; simpl in Hi.
  - injection Hi as ->. apply sub_prefix. by rewrite Henc.
  - rewrite sub_app_r by (rewrite Henc; nlia). rewrite Henc.
    replace (S i * sizeof_node - sizeof_node)%nat with (i * sizeof_node)%nat by nlia. by apply IH.
Qed.

Lemma read_entry_image n h es i e :
  (sizeof_node + sizeof_node * length es <= n)%nat → es !! i = Some e → dec (enc e) = e →
  read_node_entry dec (node_image n h es) i = Some e.
Proof.
  intros Hn Hi He. unfold read_node_entry. rewrite length_node_image by done.
  pose proof (lookup_lt_Some _ _ _ Hi).
  rewrite (proj2 (Nat.ltb_ge _ _)) by nlia. f_equal. transitivity (dec (enc e)); [f_equal|done].
  unfold node_image. rewrite sub_app_r by (rewrite length_eh_bytes; nlia).
  rewrite length_eh_bytes.
  replace (sizeof_node + i * sizeof_node - sizeof_node)%nat with (i * sizeof_node)%nat by nlia.
  by apply sub_mjoin.
Qed.
End Node.

Lemma read_entries_image n h es : ∀ count i,
  (sizeof_node + sizeof_node * length es <= n)%nat → Forall ext_fields_ok es →
  (i + count = length es)%nat →
  read_entries (node_image ext_bytes n h es) i count = Ok (drop i es).
Proof.
  induction count as [|count IH]; intros i Hn Hes Hi; cbn [read_entries].
  - rewrite drop_ge by nlia. done.
  - destruct (lookup_lt_is_Some_2 es i) as [e He]; [nlia|].
    rewrite (read_entry_image ext_bytes ext_read length_ext_bytes n h es i e); [|done|done|].
    + rewrite IH by (done || nlia). cbn. rewrite Nat.add_1_r. by rewrite (drop_S es e i).
    + apply ext_read_bytes. by apply (Forall_lookup_1 _ _ _ _ Hes He).
Qed.

Lemma read_leaf_image n h es cap :
  (sizeof_node + sizeof_node * length es <= n)%nat → Forall ext_fields_ok es →
  (length es <= cap)%nat →
  read_leaf_entries (node_image ext_bytes n h es) (length es) cap = Ok es.
Proof.
  intros Hn Hes Hc. unfold read_leaf_entries. rewrite (proj2 (Nat.ltb_ge _ _)) by nlia.
  rewrite (read_entries_image n h es (length es) 0) by done. by rewrite drop_0.
Qed.

(** ** Chunks *)

Lemma chunks_fuel_spec {A} n : (0 < n)%nat → ∀ fuel (l : list A),
  (length l <= fuel)%nat →
  mjoin (chunks_fuel fuel n l) = l ∧
  Forall (λ c, (1 <= length c <= n)%nat) (chunks_fuel fuel n l) ∧
  length (chunks_fuel fuel n l) = ((length l + n - 1) / n)%nat.
Proof.
  intros Hn. induction fuel as [|fuel IH]; intros l Hl.
  - destruct l; [|simpl in Hl; lia]. split_and!; [done|constructor|].
    simpl. rewrite Nat.div_small; lia.
  - destruct l as [|x l].
    { split_and!; [done|constructor|]. simpl. rewrite Nat.div_small; lia. }
    cbn [chunks_fuel]. set (l0 := x :: l) in *.
    assert (Hpos : (1 <= length l0)%nat) by (simpl; lia).
    destruct (IH (drop n l0)) as (H1 & H2 & H3); [rewrite length_drop; lia|].
    split_and!.
    + rewrite mjoin_cons, H1. apply take_drop.
    + constructor; [rewrite length_take; lia|done].
    + cbn [length]. rewrite H3, length_drop.
      destruct (Nat.le_gt_cases n (length l0)).
      * replace (length l0 + n - 1)%nat with ((length l0 - n + n - 1) + 1 * n)%nat by lia.
        rewrite Nat.div_add by lia. lia.
      * replace (length l0 - n + n - 1)%nat with (n - 1)%nat by lia.
        rewrite (Nat.div_small (n - 1)) by lia.
        apply (Nat.div_unique _ _ _ (length l0 - 1)); lia.
Qed.

Lemma chunks_spec {A} n (l : list A) :
  (0 < n)%nat →
  mjoin (chunks n l) = l ∧ Forall (λ c, (1 <= length c <= n)%nat) (chunks n l) ∧
  length (chunks n l) = ((length l + n - 1) / n)%nat.
Proof. intros. by apply chunks_fuel_spec. Qed.

(** ** Storing and loading *)

Section RoundTrip.
Context {S : Type} `{BlockStore S}.
Context (block_size : nat).
Context (Hbs : (sizeof_node + sizeof_node <= block_size)%nat).

Definition leaf_header (c : list EfsExtent) : EfsExtentHeader :=
  mk_eh EXTENT_MAGIC (wrap 16 (Z.of_nat (length c)))
    (wrap 16 (Z.of_nat (entries_per_node block_size))) 0 0.

Definition leaf_image (c : list EfsExtent) : list Z :=
  node_image ext_bytes block_size (leaf_header c) c.

(** A chunk that fits one leaf. *)
Definition chunk_ok (c : list EfsExtent) : Prop :=
  (1 <= length c <= entries_per_node block_size)%nat ∧ Forall ext_fields_ok c.

Lemma per_leaf_pos : (0 < entries_per_node block_size)%nat.
Proof. unfold entries_per_node. apply Nat.div_str_pos. nlia. Qed.

Lemma chunk_fits (c : list EfsExtent) :
  (length c <= entries_per_node block_size)%nat → (sizeof_node + sizeof_node * length c <= block_size)%nat.
Proof.
  intros Hl. unfold entries_per_node in Hl.
  pose proof (Nat.Div0.mul_div_le (block_size - sizeof_node) sizeof_node). nlia.
Qed.

Lemma leaf_node_ok c : chunk_ok c → leaf_node block_size c = Ret (leaf_image c).
Proof.
  intros [Hl _]. unfold leaf_node. rewrite (write_header_image ext_bytes) by nlia.
  cbn [mbind outcome_bind].
  apply (write_entries_image ext_bytes length_ext_bytes block_size _ [] c).
  simpl. apply chunk_fits. lia.
Qed.

Lemma leaf_header_ok c : eh_ok (leaf_header c).
Proof.
  unfold eh_ok, leaf_header, wrap, in_width, EXTENT_MAGIC.
  cbn [eh_magic eh_entries eh_max_entries eh_depth eh_reserved].
  split_and!; try lia; apply Z.mod_pos_bound; lia.
Qed.

Definition first_logical (c : list EfsExtent) : Z :=
  match c with e :: _ => logical_block e | [] => 0 end.

Definition indices (cs : list (list EfsExtent)) (bl : list Z) : list EfsExtentIndex :=
  zip_with make_index (first_logical <$> cs) bl.

Lemma store_leaf_spec existing i node s b s' :
  store_leaf existing i node s = Ok (b, s') →
  (∀ x, x ∈ existing → bs_used x s ∧ in_width 48 x) →
  bs_read b s' = Ok node ∧ in_width 48 b ∧
  (existing !! i = Some b ∨ (existing !! i = None ∧ ¬ bs_used b s)) ∧
  (∀ x, x ≠ b → bs_read x s' = bs_read x s) ∧ (∀ x, bs_used x s' ↔ x = b ∨ bs_used x s).
Proof.
  intros Hs Hex. unfold store_leaf in Hs.
  destruct (existing !! i) as [b0|] eqn:Ei; cbn [mbind result_bind] in Hs.
  - destruct (bs_write b0 node s) as [s1|] eqn:Ew; cbn in Hs; [|done]. injection Hs as <- <-.
    destruct (Hex b0) as [Hu Hw]; [by eapply list_elem_of_lookup_2|].
    split_and!; [by eapply write_read|done|by left|intros; by eapply write_other|].
    intros x. rewrite (write_used _ _ _ _ _ Ew). split; [auto|]. intros [->|?]; done.
  - destruct (bs_alloc s) as [[b1 s1]|] eqn:Ea; cbn [mbind result_bind] in Hs; [|done].
    destruct (bs_write b1 node s1) as [s2|] eqn:Ew; cbn in Hs; [|done]. injection Hs as <- <-.
    destruct (alloc_fresh _ _ _ Ea) as [Hf Hw].
    split_and!; [by eapply write_read|done|by right| |].
    + intros x Hx. rewrite (write_other _ _ _ _ _ Ew Hx). by eapply alloc_read.
    + intros x. by rewrite (write_used _ _ _ _ _ Ew), (alloc_used _ _ _ _ Ea).
Qed.

(** What emitting the chunks [cs] from leaf [i] on establishes: leaf [k] is on
    block [bl !! k], and nothing else that was in use is touched. *)
Record emitted (existing : list Z) (i : nat) (cs : list (list EfsExtent)) (bl : list Z) (s s' : S) : Prop := {
  em_length : length bl = length cs;
  em_read : ∀ (k : nat) c b, cs !! k = Some c → bl !! k = Some b → bs_read b s' = Ok (leaf_image c);
  em_frame : ∀ b, bs_used b s → b ∉ drop i existing → bs_read b s' = bs_read b s;
  em_surplus : ∀ b, b ∈ bl → b ∉ drop (i + length cs) existing;
  em_width : Forall (in_width 48) bl;
  em_nodup : NoDup bl;
  em_used : ∀ b, bs_used b s' ↔ b ∈ bl ∨ bs_used b s;
  em_source : ∀ b, b ∈ bl → b ∈ drop i existing ∨ ¬ bs_used b s;
  em_reuse : ∀ b, b ∈ drop i existing → b ∈ bl ∨ b ∈ drop (i + length cs) existing
}.

Lemma emitted_nil existing i s : emitted existing i [] [] s s.
Proof.
  split; try done; try (intros b Hb; by apply not_elem_of_nil in Hb); [by constructor| |].
  - intros b. split; [by right|]. intros [Hb|]; [by apply not_elem_of_nil in Hb|done].
  - cbn [length]. rewrite Nat.add_0_r. by right.
Qed.

Lemma emitted_cons existing i c cs b bl s s1 s' :
  NoDup existing → (∀ x, x ∈ existing → bs_used x s) →
  store_leaf existing i (leaf_image c) s = Ok (b, s1) →
  (∀ x, x ∈ existing → in_width 48 x) →
  emitted existing (i + 1) cs bl s1 s' → emitted existing i (c :: cs) (b :: bl) s s'.
Proof.
  intros Hnd Hex Es Hw48 [].
  apply store_leaf_spec in Es as (Hread & Hw & Hcase & Hother & Hused); [|eauto].
  rewrite Nat.add_1_r in *.
  assert (Hb : b ∉ drop (Datatypes.S i) existing).
  { destruct Hcase as [Hcase|[Hcase Hf]].
    - rewrite <- (take_drop_middle _ _ _ Hcase) in Hnd.
      apply NoDup_app in Hnd as (_ & _ & Hnd). by apply NoDup_cons in Hnd as [Hnd _].
    - intros Hin. apply Hf, Hex. eapply subseteq_drop; eauto. }
  assert (Hsub : ∀ x, x ∈ drop (Datatypes.S i) existing → x ∈ drop i existing).
  { intros x. rewrite <- Nat.add_1_r, <- drop_drop. apply subseteq_drop. }
  split.
  - simpl. by rewrite em_length0.
  - intros [|k] c' b' Hk Hb'; simpl in Hk, Hb'; [|by eapply em_read0].
    injection Hk as <-. injection Hb' as <-. rewrite em_frame0; [done| |done]. apply Hused. by left.
  - intros b' Hu Hn. assert (b' ≠ b).
    { intros ->. destruct Hcase as [Hcase|[Hcase Hf]]; [|done].
      apply Hn. rewrite (drop_S _ _ _ Hcase). left. }
    rewrite em_frame0; [by apply Hother|apply Hused; by right|]. intros Hin. by apply Hn, Hsub.
  - intros b' Hb'. cbn [length]. rewrite <- Nat.add_succ_comm.
    apply elem_of_cons in Hb' as [->|Hb']; [|by apply em_surplus0].
    intros Hin. apply Hb. rewrite <- drop_drop in Hin. eapply subseteq_drop; eauto.
  - by constructor.
  - constructor; [|done]. intros Hin. destruct (em_source0 b Hin) as [?|Hn]; [done|].
    apply Hn, Hused. by left.
  - intros b'. rewrite em_used0, Hused, elem_of_cons. tauto.
  - intros b' [->|Hb']%elem_of_cons.
    + destruct Hcase as [Hcase|[_ Hf]]; [|by right]. left. rewrite (drop_S _ _ _ Hcase). left.
    + destruct (em_source0 b' Hb') as [?|Hn]; [left; by apply Hsub|right].
      intros Hu. apply Hn, Hused. by right.
  - intros b' Hb'. cbn [length]. rewrite <- Nat.add_succ_comm.
    destruct Hcase as [Hcase|[Hcase _]].
    + rewrite (drop_S _ _ _ Hcase) in Hb'. apply elem_of_cons in Hb' as [->|Hb']; [left; left|].
      destruct (em_reuse0 b' Hb'); [left; by right|by right].
    + rewrite drop_ge in Hb' by (by apply lookup_ge_None). by apply not_elem_of_nil in Hb'.
Qed.

Lemma emit_leaves_spec existing h cs :
  NoDup existing → Forall chunk_ok cs → ∀ i idx s,
  length idx = i → (i + length cs <= MAX_INLINE_EXTENTS)%nat →
  (∀ x, x ∈ existing → bs_used x s ∧ in_width 48 x) →
  ∃ r, emit_leaves (store_leaf existing) block_size i
         (node_image ei_bytes INODE_DATA_AREA_SIZE h idx) cs s = Ret r ∧
  ∀ area' s', r = Ok (area', s') →
  ∃ bl, emitted existing i cs bl s s' ∧
    area' = node_image ei_bytes INODE_DATA_AREA_SIZE h (idx ++ indices cs bl).
Proof.
  intros Hnd Hcs. induction Hcs as [|c cs Hc Hcs IH]; intros i idx s Hi Hmax Hex; cbn [emit_leaves].
  - eexists. split; [done|]. intros area' s' [= <- <-]. exists [].
    split; [apply emitted_nil|by rewrite app_nil_r].
  - rewrite leaf_node_ok by done. cbn [mbind outcome_bind].
    destruct (store_leaf existing i (leaf_image c) s) as [[b s1]|e] eqn:Es;
      [|eexists; split; [done|]; by intros].
    destruct (store_leaf_spec _ _ _ _ _ _ Es) as (_ & _ & _ & _ & Hused); [done|].
    destruct c as [|e c]; [destruct Hc as [Hc _]; simpl in Hc; lia|].
    cbn [chunk_logical mbind outcome_bind]. rewrite <- Hi in *. simpl in Hmax.
    rewrite (write_next_entry ei_bytes length_ei_bytes); [cbn [mbind outcome_bind]|].
    2: { unfold MAX_INLINE_EXTENTS, entries_per_node, INODE_DATA_AREA_SIZE, sizeof_node in *.
         simpl in Hmax. lia. }
    destruct (IH (length idx + 1)%nat (idx ++ [make_index (logical_block e) b]) s1) as (r & -> & Hr).
    { by rewrite length_app. } { lia. }
    { intros x Hx. destruct (Hex x Hx). split; [|done]. apply Hused. by right. }
    eexists. split; [done|]. intros area' s' Heq. apply Hr in Heq as (bl & Hem & ->).
    exists (b :: bl). split; [|by rewrite <- app_assoc].
    eapply emitted_cons; eauto; intros x Hx; by apply Hex.
Qed.

Lemma free_all_other bl : ∀ s s' b,
  free_all bl s = Ok s' → b ∉ bl → bs_read b s' = bs_read b s.
Proof.
  induction bl as [|x bl IH]; intros s s' b Hf Hb; cbn [free_all] in Hf; [by injection Hf as ->|].
  apply not_elem_of_cons in Hb as [Hne Hb].
  destruct (bs_free x s) as [s1|] eqn:Ex; cbn [mbind result_bind] in Hf; [|done].
  rewrite (IH _ _ _ Hf Hb). by eapply free_other.
Qed.

Lemma free_all_used bl : ∀ s s' b,
  free_all bl s = Ok s' → bs_used b s' ↔ bs_used b s ∧ b ∉ bl.
Proof.
  induction bl as [|x bl IH]; intros s s' b Hf; cbn [free_all] in Hf.
  { injection Hf as ->. split; [|tauto]. split; [done|apply not_elem_of_nil]. }
  destruct (bs_free x s) as [s1|] eqn:Ex; cbn [mbind result_bind] in Hf; [|done].
  rewrite (IH _ _ _ Hf), (free_used _ _ _ _ Ex), not_elem_of_cons. tauto.
Qed.

Context (Hcap : Z.of_nat (entries_per_node block_size) < 2 ^ 16).

Lemma wrap16_len (n : nat) : Z.of_nat n < 2 ^ 16 → Z.to_nat (wrap 16 (Z.of_nat n)) = n.
Proof. intros Hn. unfold wrap. rewrite Z.mod_small; lia. Qed.

Lemma read_stored_leaf c :
  chunk_ok c →
  read_node_header (leaf_image c) = Some (leaf_header c) ∧
  read_leaf_entries (leaf_image c) (Z.to_nat (eh_entries (leaf_header c))) (entries_per_node block_size) = Ok c.
Proof.
  intros [Hl Hf]. split; [apply read_header_image, leaf_header_ok|].
  cbn [leaf_header eh_entries]. rewrite wrap16_len by lia.
  apply read_leaf_image; [apply chunk_fits; lia|done|lia].
Qed.

Lemma indices_lookup cs bl i c b :
  cs !! i = Some c → bl !! i = Some b → indices cs bl !! i = Some (make_index (first_logical c) b).
Proof. intros Hc Hb. unfold indices. rewrite lookup_zip_with, list_lookup_fmap, Hc, Hb. done. Qed.

Lemma stored_index h cs bl i c b :
  Forall chunk_ok cs → length bl = length cs → (length cs <= MAX_INLINE_EXTENTS)%nat →
  cs !! i = Some c → bl !! i = Some b →
  read_node_entry ei_read (node_image ei_bytes INODE_DATA_AREA_SIZE h (indices cs bl)) i =
    Some (make_index (first_logical c) b).
Proof.
  intros Hcs Hlen Hmax Hc Hb. pose proof (Forall_lookup_1 _ _ _ _ Hcs Hc) as [Hl Hf].
  assert (Hfl : in_width 32 (first_logical c)).
  { destruct c as [|e c]; simpl in Hl; [lia|]. by apply Forall_cons in Hf as [[? _] _]. }
  apply (read_entry_image ei_bytes ei_read length_ei_bytes);
    [|by apply indices_lookup|by apply ei_read_bytes, make_index_ok].
  unfold indices. rewrite length_zip_with, length_fmap, Hlen, Nat.min_id.
  unfold MAX_INLINE_EXTENTS, entries_per_node, INODE_DATA_AREA_SIZE, sizeof_node in *. simpl in Hmax. lia.
Qed.

Lemma load_leaves_stored h cs bl s :
  Forall chunk_ok cs → length bl = length cs → (length cs <= MAX_INLINE_EXTENTS)%nat →
  Forall (in_width 48) bl →
  (∀ (k : nat) c b, cs !! k = Some c → bl !! k = Some b → bs_read b s = Ok (leaf_image c)) →
  ∀ count i, (i + count = length cs)%nat →
  load_leaves block_size (node_image ei_bytes INODE_DATA_AREA_SIZE h (indices cs bl)) i count s =
    Ok (mjoin (drop i cs)).
Proof.
  intros Hcs Hlen Hmax Hw Hread. induction count as [|count IH]; intros i Hi; cbn [load_leaves].
  { by rewrite drop_ge by lia. }
  destruct (lookup_lt_is_Some_2 cs i) as [c Hc]; [lia|].
  destruct (lookup_lt_is_Some_2 bl i) as [b Hb]; [lia|].
  rewrite (stored_index h cs bl i c b) by done.
  rewrite child_block_make by exact (Forall_lookup_1 _ _ _ _ Hw Hb).
  rewrite (Hread i c b) by done. cbn [mbind result_bind].
  destruct (read_stored_leaf c (Forall_lookup_1 _ _ _ _ Hcs Hc)) as [-> Hre].
  cbn [leaf_header eh_magic eh_depth].
  rewrite Z.eqb_refl. cbn [negb orb Z.eqb]. rewrite Hre. cbn [mbind result_bind].
  rewrite IH by lia. cbn [mbind result_bind]. by rewrite (drop_S cs c i Hc), mjoin_cons, Nat.add_1_r.
Qed.

(** The blocks an inode's tree already holds: distinct, in use, addressable. *)
Definition tree_ok (area : list Z) (s : S) : Prop :=
  ∀ existing, tree_blocks area = Ok existing →
    NoDup existing ∧ ∀ x, x ∈ existing → bs_used x s ∧ in_width 48 x.

Lemma root_header_ok (n d : Z) : in_width 16 d →
  eh_ok (mk_eh EXTENT_MAGIC (wrap 16 n) (wrap 16 (Z.of_nat MAX_INLINE_EXTENTS)) d 0).
Proof.
  intros Hd. unfold eh_ok, wrap, in_width, EXTENT_MAGIC in *.
  cbn [eh_magic eh_entries eh_max_entries eh_depth eh_reserved].
  split_and!; try lia; apply Z.mod_pos_bound; lia.
Qed.

Lemma leaf_count_max (n : nat) :
  (n <= max_extents block_size)%nat →
  ((n + entries_per_node block_size - 1) / entries_per_node block_size <= MAX_INLINE_EXTENTS)%nat.
Proof.
  pose proof per_leaf_pos. unfold max_extents. intros Hn.
  apply Nat.lt_succ_r, Nat.Div0.div_lt_upper_bound. lia.
Qed.

Lemma chunks_ok (es : list EfsExtent) :
  Forall ext_fields_ok es → Forall chunk_ok (chunks (entries_per_node block_size) es).
Proof.
  intros Hes. destruct (chunks_spec (entries_per_node block_size) es per_leaf_pos) as (Hj & Hl & _).
  rewrite <- Hj in Hes. apply Forall_forall. intros c Hc. split; [by apply (Forall_forall _ _) with c in Hl|].
  apply Forall_forall. intros e He. rewrite Forall_forall in Hes. apply Hes.
  apply list_elem_of_join. eauto.
Qed.

Lemma read_children_stored h cs bl :
  Forall chunk_ok cs → length bl = length cs → (length cs <= MAX_INLINE_EXTENTS)%nat →
  Forall (in_width 48) bl →
  ∀ count i, (i + count = length cs)%nat →
  read_children (node_image ei_bytes INODE_DATA_AREA_SIZE h (indices cs bl)) i count = Ok (drop i bl).
Proof.
  intros Hcs Hlen Hmax Hw. induction count as [|count IH]; intros i Hi; cbn [read_children].
  { by rewrite drop_ge by lia. }
  destruct (lookup_lt_is_Some_2 cs i) as [c Hc]; [lia|].
  destruct (lookup_lt_is_Some_2 bl i) as [b Hb]; [lia|].
  rewrite (stored_index h cs bl i c b) by done.
  rewrite child_block_make by exact (Forall_lookup_1 _ _ _ _ Hw Hb).
  rewrite IH by lia. cbn. by rewrite (drop_S bl b i Hb), Nat.add_1_r.
Qed.

(** What a successful store establishes: the tree of [area'] sits on [bl], its
    blocks and nothing else changed, and the old tree's blocks it does not
    reuse are free again. *)
Record stored (existing bl : list Z) (map : list EfsExtent) (area' : list Z) (s s' : S) : Prop := {
  st_load : load_extent_map block_size area' s' = Ok map;
  st_tree : tree_blocks area' = Ok bl;
  st_nodup : NoDup bl;
  st_width : Forall (in_width 48) bl;
  st_used : ∀ b, bs_used b s' ↔ b ∈ bl ∨ (bs_used b s ∧ b ∉ existing);
  st_frame : ∀ b, bs_used b s → b ∉ existing → bs_read b s' = bs_read b s
}.

Lemma emitted_freed existing cs bl s s1 s2 :
  emitted existing 0 cs bl s s1 → free_all (drop (length cs) existing) s1 = Ok s2 →
  (∀ b, b ∈ bl → bs_read b s2 = bs_read b s1) ∧
  (∀ b, bs_used b s2 ↔ b ∈ bl ∨ (bs_used b s ∧ b ∉ existing)) ∧
  (∀ b, bs_used b s → b ∉ existing → bs_read b s2 = bs_read b s).
Proof.
  intros [] Hf. rewrite drop_0 in *. cbn [Nat.add] in *.
  assert (Hsub : ∀ b, b ∈ drop (length cs) existing → b ∈ existing) by (intros b; apply subseteq_drop).
  split_and!.
  - intros b Hb. apply (free_all_other _ _ _ _ Hf). by apply em_surplus0.
  - intros b. rewrite (free_all_used _ _ _ _ Hf), em_used0. split.
    + intros [[?|Hu] Hn]; [by left|]. destruct (decide (b ∈ existing)) as [Hin|]; [|by right].
      left. by destruct (em_reuse0 b Hin).
    + intros [?|[? Hn]]; [split; [by left|by apply em_surplus0]|split; [by right|]].
      intros Hin. by apply Hn, Hsub.
  - intros b Hu Hn. rewrite (free_all_other _ _ _ _ Hf); [by apply em_frame0|].
    intros Hin. by apply Hn, Hsub.
Qed.

Lemma store_inline existing map s s' :
  (length map <= MAX_INLINE_EXTENTS)%nat → Forall ext_fields_ok map →
  free_all existing s = Ok s' →
  stored existing [] map (node_image ext_bytes INODE_DATA_AREA_SIZE
    (mk_eh EXTENT_MAGIC (wrap 16 (Z.of_nat (length map))) (wrap 16 (Z.of_nat MAX_INLINE_EXTENTS)) 0 0) map) s s'.
Proof.
  intros Hl Hm Hf.
  pose proof (emitted_freed existing [] [] s s s' (emitted_nil _ _ _)) as (_ & Hused & Hframe).
  { by rewrite drop_0. }
  assert (Hl16 : Z.of_nat (length map) < 2 ^ 16) by (change MAX_INLINE_EXTENTS with 13%nat in Hl; lia).
  split; [|by (unfold tree_blocks; rewrite read_header_image by (apply root_header_ok; done))
          |constructor|constructor|done|done].
  unfold load_extent_map. rewrite read_header_image by (apply root_header_ok; done).
  cbn [eh_magic eh_depth eh_entries]. rewrite Z.eqb_refl. cbn [negb Z.eqb].
  rewrite wrap16_len by done. apply read_leaf_image; [|done|done].
  unfold MAX_INLINE_EXTENTS, entries_per_node, INODE_DATA_AREA_SIZE, sizeof_node in *. simpl in Hl. lia.
Qed.

Lemma store_tree existing cs bl map s s1 s2 :
  emitted existing 0 cs bl s s1 → free_all (drop (length cs) existing) s1 = Ok s2 →
  Forall chunk_ok cs → (length cs <= MAX_INLINE_EXTENTS)%nat → mjoin cs = map →
  stored existing bl map (node_image ei_bytes INODE_DATA_AREA_SIZE
    (mk_eh EXTENT_MAGIC (wrap 16 (Z.of_nat (length cs))) (wrap 16 (Z.of_nat MAX_INLINE_EXTENTS)) 1 0)
    (indices cs bl)) s s2.
Proof.
  intros Hem Hf Hcs Hmax <-. destruct (emitted_freed _ _ _ _ _ _ Hem Hf) as (Hrd & Hused & Hframe).
  destruct Hem. assert (Hl16 : Z.of_nat (length cs) < 2 ^ 16) by (change MAX_INLINE_EXTENTS with 13%nat in Hmax; lia).
  split; try done.
  - unfold load_extent_map. rewrite read_header_image by (apply root_header_ok; done).
    cbn [eh_magic eh_depth eh_entries]. rewrite Z.eqb_refl. cbn [negb Z.eqb].
    rewrite wrap16_len, Nat.min_l by done.
    rewrite (load_leaves_stored _ cs bl s2) by (done || (intros k c b Hk Hb; rewrite Hrd;
      [by eapply em_read0|by eapply list_elem_of_lookup_2])). by rewrite drop_0.
  - unfold tree_blocks. rewrite read_header_image by (apply root_header_ok; done).
    cbn [eh_magic eh_depth eh_entries]. rewrite Z.eqb_refl. cbn [negb Z.eqb orb].
    rewrite wrap16_len, Nat.min_l by done. by rewrite read_children_stored.
Qed.

(** Storing an extent map and loading it back is the identity,
    for any size up to what a depth-1 tree holds: [store_extent_map] never
    panics; when it succeeds, [inode.blocks] is the map's block count and
    [load_extent_map] of the new [data_area] returns the map. The old tree's
    blocks are reused or freed and no other block in use changes or is freed,
    and the new tree's blocks are again distinct and addressable, so the
    precondition holds for the next store. A map over the ceiling is refused
    and leaves the store as it was. *)
Theorem store_load_roundtrip area map s existing :
  Forall ext_fields_ok map → tree_blocks area = Ok existing → tree_ok area s →
  ∃ r, store_extent_map block_size area map s = Ret r ∧
    ((max_extents block_size < length map)%nat → r = Err Unsupported) ∧
    (∀ area' n s', r = Ok (area', n, s') →
       n = block_count map ∧ ∃ bl, stored existing bl map area' s s' ∧ tree_ok area' s').
Proof.
  intros Hm Htb Htree. destruct (Htree _ Htb) as [Hnd Hex].
  assert (Htok : ∀ bl area' s', stored existing bl map area' s s' → tree_ok area' s').
  { intros bl area' s' [] ex. rewrite st_tree0. intros [= <-]. split; [done|]. intros x Hx.
    rewrite Forall_forall in st_width0. split; [apply st_used0; by left|by apply st_width0]. }
  unfold store_extent_map. destruct (Nat.ltb_spec (max_extents block_size) (length map)) as [|Hle].
  { eexists. split; [done|]. split; [done|]. by intros. }
  rewrite Htb. unfold build_extent_tree. rewrite (proj2 (Nat.ltb_ge _ _)) by lia.
  destruct (Nat.leb_spec (length map) MAX_INLINE_EXTENTS) as [Hin|Hbig].
  - rewrite (write_header_image ext_bytes) by (unfold INODE_DATA_AREA_SIZE; nlia).
    cbn [mbind outcome_bind].
    rewrite (write_entries_image ext_bytes length_ext_bytes _ _ [] map)
      by (change MAX_INLINE_EXTENTS with 13%nat in Hin; unfold INODE_DATA_AREA_SIZE; simpl; nlia).
    cbn [app mbind outcome_bind result_bind]. rewrite drop_0.
    eexists. split; [done|]. split; [lia|]. intros area' n s'.
    destruct (free_all existing s) as [s1|] eqn:Ef; cbn; [|done]. intros [= <- <- <-].
    split; [done|]. exists []. assert (Hst := store_inline existing map s s1 Hin Hm Ef). eauto.
  - rewrite (write_header_image ei_bytes) by (unfold INODE_DATA_AREA_SIZE; nlia).
    cbn [mbind outcome_bind].
    destruct (chunks_spec (entries_per_node block_size) map per_leaf_pos) as (Hj & _ & Hlen).
    set (cs := chunks (entries_per_node block_size) map) in *. rewrite <- Hlen.
    assert (Hmax : (length cs <= MAX_INLINE_EXTENTS)%nat) by (rewrite Hlen; by apply leaf_count_max).
    destruct (emit_leaves_spec existing
      (mk_eh EXTENT_MAGIC (wrap 16 (Z.of_nat (length cs))) (wrap 16 (Z.of_nat MAX_INLINE_EXTENTS)) 1 0)
      cs Hnd (chunks_ok map Hm) 0 [] s) as (r & -> & Hr); [done|done|done|].
    cbn [mbind outcome_bind]. eexists. split; [done|]. split; [lia|]. intros area' n s'.
    destruct r as [[area1 s1]|]; cbn [mbind result_bind]; [|done].
    destruct (Hr _ _ eq_refl) as (bl & Hem & ->).
    destruct (free_all (drop (length cs) existing) s1) as [s2|] eqn:Ef; cbn; [|done].
    intros [= <- <- <-]. split; [done|]. exists bl.
    assert (Hst := store_tree existing cs bl map s s1 s2 Hem Ef (chunks_ok map Hm) Hmax Hj). eauto.
Qed.
End RoundTrip.

(** Unlinking after a store: the file's data blocks and its tree blocks are free
    again and every other block stays in use. *)
Lemma free_extent_storage_used {S} `{BlockStore S} block_size area s s' map existing :
  load_extent_map block_size area s = Ok map → tree_blocks area = Ok existing →
  free_extent_storage block_size area s = Ok s' →
  ∀ b, bs_used b s' ↔ bs_used b s ∧ b ∉ existing ∧ ∀ e, e ∈ map → b ∉ ext_blocks e.
Proof.
  intros Hl Ht Hf b. unfold free_extent_storage in Hf. rewrite Hl, Ht in Hf.
  destruct (free_all _ s) as [s1|] eqn:E1; cbn [mbind result_bind] in Hf; [|done].
  rewrite (free_all_used _ _ _ _ Hf), (free_all_used _ _ _ _ E1), list_elem_of_join.
  split; [intros [[Hu Hn] ?]|intros (Hu & ? & Hn)]; split_and!; try done.
  - intros e He Hb. apply Hn. exists (ext_blocks e). split; [done|]. by apply list_elem_of_fmap_2.
  - intros (l & Hb & Hin). apply list_elem_of_fmap in Hin as (e & -> & He). by apply (Hn e).
Qed.

(** A block store in memory: the [BlockStore] laws have a model. *)
Record mem := mk_mem { m_data : gmap Z (list Z); m_used : gset Z; m_next : Z }.

Definition mem_alloc (m : mem) : result Error (Z * mem) :=
  if decide (m_next m ∈ m_used m) then Err (Store 28)
  else if (0 <=? m_next m) && (m_next m <? 2 ^ 48)
  then Ok (m_next m, mk_mem (m_data m) ({[m_next m]} ∪ m_used m) (m_next m + 1))
  else Err (Store 28).

#[refine] Instance mem_store : BlockStore mem := {
  bs_read b m := match m_data m !! b with Some d => Ok d | None => Err (Store 5) end;
  bs_write b d m := Ok (mk_mem (<[b := d]> (m_data m)) (m_used m) (m_next m));
  bs_alloc := mem_alloc;
  bs_free b m := Ok (mk_mem (m_data m) (m_used m ∖ {[b]}) (m_next m));
  bs_used b m := b ∈ m_used m
}.
Proof.
  - intros b d s s' [= <-]. simpl. by rewrite lookup_insert_eq.
  - intros b d s s' b' [= <-] Hne. simpl. by rewrite lookup_insert_ne.
  - by intros b d s s' b' [= <-].
  - unfold mem_alloc. intros s b s'. case_decide; [done|]. destruct (_ && _) eqn:E; [|done].
    intros [= <- <-]. split; [done|]. unfold in_width. lia.
  - unfold mem_alloc. intros s b s' b'. case_decide; [done|]. destruct (_ && _); [|done].
    intros [= <- <-]. simpl. set_solver.
  - unfold mem_alloc. intros s b s' b'. case_decide; [done|]. destruct (_ && _); [|done]. by intros [= <- <-].
  - by intros b s s' b' [= <-].
  - intros b s s' b' [= <-]. simpl. set_solver.
Defined.

(** Fourteen runs: one more than the inode holds, so a leaf is allocated. *)
Definition demo_runs : list EfsExtent := (λ i, mk_ext (2 * i) 1 0 (100 + 3 * i)) <$> seqZ 0 14.
Definition demo_area : list Z := replicate INODE_DATA_AREA_SIZE 0.
Definition demo_mem : mem := mk_mem ∅ ∅ 4000.

Lemma store_load_roundtrip_witness :
  (∃ area' s', store_extent_map 4096 demo_area demo_runs demo_mem = Ret (Ok (area', 14, s'))) ∧
  ∃ r, store_extent_map 4096 demo_area demo_runs demo_mem = Ret r ∧
    ((max_extents 4096 < length demo_runs)%nat → r = Err Unsupported) ∧
    (∀ area' n s', r = Ok (area', n, s') →
       n = block_count demo_runs ∧
       ∃ bl, stored 4096 [] bl demo_runs area' demo_mem s' ∧ tree_ok area' s').
Proof.
  split; [eexists _, _; vm_compute; reflexivity|]. apply (store_load_roundtrip 4096).
  - unfold sizeof_node. lia.
  - unfold entries_per_node, sizeof_node. vm_compute. reflexivity.
  - repeat constructor; vm_compute; congruence.
  - reflexivity.
  - intros existing Hex. vm_compute in Hex. injection Hex as <-. split; [constructor|].
    intros x Hx. by apply not_elem_of_nil in Hx.
Defined.

End ExtentTree.
