(* ===== verification/EfsBitmap.v ===== *)
(** * Allocation bitmaps (kernel/src/fs/efs/mod.rs)

    The bit helpers and the two searches over a bitmap block: [find_free_bit]
    (inodes) and [find_free_run]/[free_run_at] (blocks). *)

From S2P Require Import Prelude.

Module EfsBitmap.

(** ** The code *)

(** [bitmap[i]] *)
Definition byte_at (bm : list Z) (i : nat) : outcome Z :=
  match bm !! i with Some v => Ret v | None => Panic end.

(** [1 << (bit % 8)] *)
Definition bit_mask (bit : nat) : Z := Z.shiftl 1 (Z.of_nat (bit mod 8)).

Definition set_bit (bm : list Z) (bit : nat) : outcome (list Z) :=
  v ← byte_at bm (bit / 8); Ret (<[(bit / 8)%nat := Z.lor v (bit_mask bit)]> bm).

(** [!x] on [u8] is [255 ^ x]. *)
Definition clear_bit (bm : list Z) (bit : nat) : outcome (list Z) :=
  v ← byte_at bm (bit / 8); Ret (<[(bit / 8)%nat := Z.land v (Z.lxor 255 (bit_mask bit))]> bm).

(** [for b in bit..bit + len { set_bit(&mut bitmap, b) }] *)
Fixpoint set_bits (bm : list Z) (bit len : nat) : outcome (list Z) :=
  match len with
  | O => Ret bm
  | S len' => bm ← set_bit bm bit; set_bits bm (bit + 1) len'
  end.

(** [while bit < max_bits && bit - start < want && bit is clear { bit += 1 }];
    the loop's last value of [bit]. Each turn moves [bit] towards [max_bits],
    so [max_bits + 1] turns are enough. *)
Fixpoint run_end (fuel : nat) (bm : list Z) (max_bits want start bit : nat) : outcome nat :=
  match fuel with
  | O => Panic
  | S fuel' =>
      if ((bit <? max_bits) && (bit - start <? want))%nat then
        v ← byte_at bm (bit / 8);
        if Z.land v (bit_mask bit) =? 0 then run_end fuel' bm max_bits want start (bit + 1)
        else Ret bit
      else Ret bit
  end.

Definition free_run_at (bm : list Z) (max_bits want start : nat) : outcome nat :=
  bit ← run_end (S max_bits) bm max_bits want start start; Ret (bit - start)%nat.

(** [best.is_none_or(|(_, best_len)| len > best_len)] *)
Definition better (best : option (nat * nat)) (len : nat) : bool :=
  match best with None => true | Some (_, best_len) => (best_len <? len)%nat end.

Fixpoint find_run_loop (fuel : nat) (bm : list Z) (max_bits want bit : nat)
    (best : option (nat * nat)) : outcome (option (nat * nat)) :=
  match fuel with
  | O => Panic
  | S fuel' =>
      if (bit <? max_bits)%nat then
        v ← byte_at bm (bit / 8);
        if (bit mod 8 =? 0)%nat && (v =? 0xFF) then find_run_loop fuel' bm max_bits want (bit + 8) best
        else if negb (Z.land v (bit_mask bit) =? 0) then
          find_run_loop fuel' bm max_bits want (bit + 1) best
        else
          stop ← run_end (S max_bits) bm max_bits want bit bit;
          let len := (stop - bit)%nat in
          if (want <=? len)%nat then Ret (Some (bit, len))
          else find_run_loop fuel' bm max_bits want (stop + 1)
                 (if better best len then Some (bit, len) else best)
      else Ret best
  end.

Definition find_free_run (bm : list Z) (max_bits want : nat) : outcome (option (nat * nat)) :=
  find_run_loop (S max_bits) bm max_bits want 0 None.

(** [trailing_ones] of a [w]-bit value. *)
Fixpoint trailing_ones (w : nat) (v : Z) : nat :=
  match w with
  | O => O
  | S w' => if Z.odd v then S (trailing_ones w' (Z.div2 v)) else O
  end.

Definition below (abs_bit max_bits : nat) : option nat :=
  if (abs_bit <? max_bits)%nat then Some abs_bit else None.

(** The trailing bytes that do not fill a chunk. *)
Fixpoint find_in_bytes (bytes : list Z) (byte_idx max_bits : nat) : option nat :=
  match bytes with
  | [] => None
  | byte :: rest =>
      if byte =? 0xFF then find_in_bytes rest (byte_idx + 1) max_bits
      else below (byte_idx * 8 + trailing_ones 8 byte) max_bits
  end.

(** [bitmap.as_chunks::<8>()]: whole chunks first, then the remainder. The
    bitmap shrinks by a chunk per turn, so its length bounds the turns. *)
Fixpoint find_in_chunks (fuel : nat) (bm : list Z) (chunk_idx max_bits : nat) : option nat :=
  match fuel with
  | O => None
  | S fuel' =>
      if (8 <=? length bm)%nat then
        let val := le_num (take 8 bm) in
        if val =? U64_MAX then find_in_chunks fuel' (drop 8 bm) (chunk_idx + 1) max_bits
        else below (chunk_idx * 64 + trailing_ones 64 val) max_bits
      else find_in_bytes bm (chunk_idx * 8) max_bits
  end.

Definition find_free_bit (bm : list Z) (max_bits : nat) : option nat :=
  find_in_chunks (S (length bm)) bm 0 max_bits.

(** ** Bits as a predicate *)

Definition used (bm : list Z) (b : nat) : bool :=
  Z.testbit (bm !!! (b / 8)%nat) (Z.of_nat (b mod 8)).

(** The reference search: the first clear bit among the [n] bits from [b]. *)
Fixpoint first_clear (bm : list Z) (b n : nat) : option nat :=
  match n with
  | O => None
  | S n' => if used bm b then first_clear bm (S b) n' else Some b
  end.

Definition free_range (bm : list Z) (s n : nat) : Prop :=
  ∀ i, (s <= i < s + n)%nat → used bm i = false.

Lemma byte_at_ok bm i : (i < length bm)%nat → byte_at bm i = Ret (bm !!! i).
Proof. intros H. unfold byte_at. by rewrite (list_lookup_lookup_total_lt bm i H). Qed.

Lemma div8_lt b n : (b < 8 * n)%nat → (b / 8 < n)%nat.
Proof. intros H. apply Nat.Div0.div_lt_upper_bound. lia. Qed.

Lemma mod8_lt b : (b mod 8 < 8)%nat.
Proof. apply Nat.mod_upper_bound. lia. Qed.

Lemma bit_mask_spec b i : 0 <= i → Z.testbit (bit_mask b) i = (i =? Z.of_nat (b mod 8)).
Proof.
  intros Hi. unfold bit_mask. rewrite Z.shiftl_1_l. by rewrite Z.pow2_bits_eqb, Z.eqb_sym by lia.
Qed.

Lemma land_mask v b : (Z.land v (bit_mask b) =? 0) = negb (Z.testbit v (Z.of_nat (b mod 8))).
Proof.
  destruct (Z.testbit v _) eqn:E; cbn [negb]; to_lia.
  - apply Z.eqb_neq. intros H. apply (f_equal (λ z, Z.testbit z (Z.of_nat (b mod 8)))) in H.
    rewrite Z.land_spec, E, bit_mask_spec, Z.eqb_refl, Z.bits_0 in H by lia. done.
  - apply Z.eqb_eq, Z.bits_inj'. intros i Hi. rewrite Z.land_spec, bit_mask_spec, Z.bits_0 by lia.
    destruct (Z.eqb_spec i (Z.of_nat (b mod 8))) as [->|]; [by rewrite E|apply andb_false_r].
Qed.

Lemma divmod8_inj b c : (b / 8 = c / 8)%nat → (b mod 8 = c mod 8)%nat → b = c.
Proof.
  intros H1 H2. rewrite (Nat.div_mod_eq b 8), (Nat.div_mod_eq c 8). by rewrite H1, H2.
Qed.

(** Updating one byte by a bit operation updates one bit. *)
Lemma used_update bm b v' f :
  (b < 8 * length bm)%nat →
  (∀ i, 0 <= i < 8 → Z.testbit v' i =
     if i =? Z.of_nat (b mod 8) then f else Z.testbit (bm !!! (b / 8)%nat) i) →
  ∀ c, used (<[(b / 8)%nat := v']> bm) c = if (c =? b)%nat then f else used bm c.
Proof.
  intros Hb Hv c. pose proof (div8_lt _ _ Hb). pose proof (mod8_lt c). unfold used.
  destruct (Nat.eq_dec (b / 8)%nat (c / 8)%nat) as [E|E].
  - rewrite <- E, list_lookup_total_insert_eq by done. rewrite Hv by lia.
    destruct (Nat.eqb_spec c b) as [->|Hne]; [by rewrite Z.eqb_refl|].
    destruct (Z.eqb_spec (Z.of_nat (c mod 8)) (Z.of_nat (b mod 8))) as [Em|]; [|done].
    destruct Hne. apply divmod8_inj; [done|lia].
  - rewrite list_lookup_total_insert_ne by done.
    destruct (Nat.eqb_spec c b) as [->|]; [done|done].
Qed.

Lemma set_bit_spec bm b :
  (b < 8 * length bm)%nat →
  ∃ bm', set_bit bm b = Ret bm' ∧ length bm' = length bm ∧
    ∀ c, used bm' c = if (c =? b)%nat then true else used bm c.
Proof.
  intros Hb. unfold set_bit. rewrite byte_at_ok by by apply div8_lt. cbn [mbind outcome_bind].
  eexists. split; [done|]. split; [apply length_insert|]. apply used_update; [done|].
  intros i Hi. rewrite Z.lor_spec, bit_mask_spec by lia.
  destruct (i =? Z.of_nat (b mod 8)); [apply orb_true_r|apply orb_false_r].
Qed.

Lemma clear_bit_spec bm b :
  (b < 8 * length bm)%nat →
  ∃ bm', clear_bit bm b = Ret bm' ∧ length bm' = length bm ∧
    ∀ c, used bm' c = if (c =? b)%nat then false else used bm c.
Proof.
  intros Hb. unfold clear_bit. rewrite byte_at_ok by by apply div8_lt. cbn [mbind outcome_bind].
  eexists. split; [done|]. split; [apply length_insert|]. apply used_update; [done|].
  intros i Hi. rewrite Z.land_spec, Z.lxor_spec, bit_mask_spec by lia.
  change 255 with (Z.ones 8). rewrite Z.ones_spec_low by lia.
  destruct (i =? Z.of_nat (b mod 8)); [apply andb_false_r|apply andb_true_r].
Qed.

Lemma set_bits_spec len : ∀ bm bit,
  (bit + len <= 8 * length bm)%nat →
  ∃ bm', set_bits bm bit len = Ret bm' ∧ length bm' = length bm ∧
    ∀ c, used bm' c = ((bit <=? c)%nat && (c <? bit + len)%nat) || used bm c.
Proof.
  induction len as [|len IH]; intros bm bit Hb; cbn [set_bits].
  - exists bm. split; [done|]. split; [done|]. intros c. rewrite Nat.add_0_r.
    destruct (Nat.leb_spec bit c), (Nat.ltb_spec c bit); simpl; try done. lia.
  - destruct (set_bit_spec bm bit) as (bm1 & -> & Hl1 & Hu1); [lia|]. cbn [mbind outcome_bind].
    destruct (IH bm1 (bit + 1)%nat) as (bm2 & -> & Hl2 & Hu2); [lia|].
    exists bm2. split; [done|]. split; [lia|]. intros c. rewrite Hu2, Hu1.
    destruct (Nat.leb_spec (bit + 1) c), (Nat.ltb_spec c (bit + 1 + len)), (Nat.eqb_spec c bit),
      (Nat.leb_spec bit c), (Nat.ltb_spec c (bit + S len)); simpl; try lia; try done;
      try (destruct (used bm c); done).
Qed.

(** ** Bytes stay bytes *)

Lemma byte_ok_bits x : 0 <= x → (∀ i, 8 <= i → Z.testbit x i = false) → byte_ok x.
Proof.
  intros Hx Hb. unfold byte_ok. split; [done|].
  assert (E : x = x mod 2 ^ 8); [|rewrite E; apply Z.mod_pos_bound; lia].
  apply Z.bits_inj'. intros i Hi. rewrite Z.testbit_mod_pow2 by lia.
  destruct (Z.ltb_spec i 8); [done|]. by apply Hb.
Qed.

Lemma byte_high b i : byte_ok b → 8 <= i → Z.testbit b i = false.
Proof.
  intros Hb Hi. unfold byte_ok in Hb. destruct (Z.eq_dec b 0) as [->|]; [apply Z.bits_0|].
  apply Z.bits_above_log2; [lia|]. apply Z.lt_le_trans with 8; [|lia]. apply Z.log2_lt_pow2; lia.
Qed.

Lemma mask_byte b : byte_ok (bit_mask b).
Proof.
  pose proof (mod8_lt b). apply byte_ok_bits.
  - unfold bit_mask. apply Z.shiftl_nonneg. lia.
  - intros i Hi. rewrite bit_mask_spec by lia. apply Z.eqb_neq. lia.
Qed.

Lemma set_bit_bytes bm b bm' : Forall byte_ok bm → set_bit bm b = Ret bm' → Forall byte_ok bm'.
Proof.
  intros Hbm. unfold set_bit, byte_at. destruct (bm !! (b / 8)%nat) as [v|] eqn:E; [|done].
  intros [= <-]. apply Forall_insert; [done|].
  pose proof (Forall_lookup_1 _ _ _ _ Hbm E) as Hv. pose proof (mask_byte b) as Hm.
  apply byte_ok_bits; [apply Z.lor_nonneg; unfold byte_ok in *; lia|].
  intros i Hi. by rewrite Z.lor_spec, !byte_high.
Qed.

Lemma clear_bit_bytes bm b bm' : Forall byte_ok bm → clear_bit bm b = Ret bm' → Forall byte_ok bm'.
Proof.
  intros Hbm. unfold clear_bit, byte_at. destruct (bm !! (b / 8)%nat) as [v|] eqn:E; [|done].
  intros [= <-]. apply Forall_insert; [done|].
  pose proof (Forall_lookup_1 _ _ _ _ Hbm E) as Hv.
  apply byte_ok_bits; [apply Z.land_nonneg; left; unfold byte_ok in *; lia|].
  intros i Hi. by rewrite Z.land_spec, byte_high.
Qed.

Lemma set_bits_bytes len : ∀ bm bit bm',
  Forall byte_ok bm → set_bits bm bit len = Ret bm' → Forall byte_ok bm'.
Proof.
  induction len as [|len IH]; intros bm bit bm' Hbm; cbn [set_bits]; [by intros [= <-]|].
  destruct (set_bit bm bit) as [bm1|] eqn:E; [|done]. cbn [mbind outcome_bind].
  apply IH. by eapply set_bit_bytes.
Qed.

(** ** Counting clear bits *)

Fixpoint nfree (u : nat → bool) (n : nat) : nat :=
  match n with
  | O => O
  | S n' => (nfree u n' + if u n' then 0 else 1)%nat
  end.

Lemma nfree_ext u u' n : (∀ c, (c < n)%nat → u' c = u c) → nfree u' n = nfree u n.
Proof.
  induction n as [|n IH]; intros H; cbn [nfree]; [done|].
  rewrite IH, H by (intros; first [apply H; lia|lia]). done.
Qed.

Lemma nfree_le u n : (nfree u n <= n)%nat.
Proof. induction n as [|n IH]; cbn [nfree]; [done|]. destruct (u n); lia. Qed.

Lemma nfree_update u u' n b (f : bool) :
  (b < n)%nat → u b = negb f → (∀ c, (c < n)%nat → u' c = if (c =? b)%nat then f else u c) →
  if f then (nfree u' n + 1 = nfree u n)%nat else (nfree u' n = nfree u n + 1)%nat.
Proof.
  induction n as [|n IH]; intros Hb Hu Hu'; [lia|]. cbn [nfree].
  rewrite (Hu' n) by lia. destruct (Nat.eqb_spec n b) as [->|Hne].
  - rewrite (nfree_ext u u' b).
    2: { intros c Hc. rewrite Hu' by lia. destruct (Nat.eqb_spec c b); [lia|done]. }
    rewrite Hu. destruct f; cbn [negb]; lia.
  - specialize (IH ltac:(lia) Hu (λ c Hc, Hu' c ltac:(lia))). destruct f; lia.
Qed.

Lemma nfree_range len : ∀ u u' n bit,
  (bit + len <= n)%nat → (∀ c, (bit <= c < bit + len)%nat → u c = false) →
  (∀ c, (c < n)%nat → u' c = ((bit <=? c)%nat && (c <? bit + len)%nat) || u c) →
  (nfree u' n + len = nfree u n)%nat.
Proof.
  induction len as [|len IH]; intros u u' n bit Hn Hu Hu'.
  - rewrite Nat.add_0_r. apply nfree_ext. intros c Hc. rewrite Hu' by done.
    destruct (Nat.leb_spec bit c), (Nat.ltb_spec c (bit + 0)); simpl; try done. lia.
  - set (u1 := λ c, if (c =? bit)%nat then true else u c).
    pose proof (nfree_update u u1 n bit true ltac:(lia) (Hu bit ltac:(lia)) ltac:(done)) as H1. cbn in H1.
    rewrite <- H1. rewrite <- (IH u1 u' n (bit + 1)%nat); [lia|lia| |].
    + intros c Hc. unfold u1. destruct (Nat.eqb_spec c bit); [lia|]. apply Hu. lia.
    + intros c Hc. rewrite Hu' by done. unfold u1.
      destruct (Nat.leb_spec bit c), (Nat.ltb_spec c (bit + S len)), (Nat.leb_spec (bit + 1) c),
        (Nat.ltb_spec c (bit + 1 + len)), (Nat.eqb_spec c bit); simpl; try lia; done.
Qed.

Lemma nfree_zero u n : (∀ c, (c < n)%nat → u c = true) ↔ nfree u n = O.
Proof.
  induction n as [|n IH]; cbn [nfree]; [split; intros; [done|lia]|]. split.
  - intros H. rewrite (proj1 IH) by (intros; apply H; lia). by rewrite H by lia.
  - intros H c Hc. destruct (u n) eqn:E; [|lia]. destruct (Nat.eq_dec c n) as [->|]; [done|].
    apply IH; lia.
Qed.

(** ** Run searches *)

Lemma run_end_spec bm max_bits want start : (max_bits <= 8 * length bm)%nat →
  ∀ fuel bit, (max_bits < fuel + bit)%nat → (start <= bit)%nat →
  (bit <= max_bits)%nat → (bit - start <= want)%nat → free_range bm start (bit - start) →
  ∃ stop, run_end fuel bm max_bits want start bit = Ret stop ∧
    (bit <= stop <= max_bits)%nat ∧ (stop - start <= want)%nat ∧
    free_range bm start (stop - start) ∧
    (stop = max_bits ∨ (stop - start = want)%nat ∨ used bm stop = true).
Proof.
  intros Hmax. induction fuel as [|fuel IH]; intros bit Hf Hs Hb Hw Hr; [lia|]. cbn [run_end].
  destruct (Nat.ltb_spec bit max_bits) as [Hlt|Hge]; cbn [andb].
  2: { exists bit. split_and!; try done; try lia. }
  destruct (Nat.ltb_spec (bit - start) want) as [Hlw|Hgw].
  2: { exists bit. split_and!; try done; try lia. }
  rewrite byte_at_ok by (apply div8_lt; lia). cbn [mbind outcome_bind].
  rewrite land_mask. change (Z.testbit (bm !!! (bit / 8)%nat) (Z.of_nat (bit mod 8))) with (used bm bit).
  destruct (used bm bit) eqn:Eu; cbn [negb].
  - exists bit. split_and!; try done; try lia. auto.
  - destruct (IH (bit + 1)%nat) as (stop & Hst & ? & ? & ? & ?); try lia.
    { intros i Hi. destruct (Nat.eq_dec i bit) as [->|]; [done|]. apply Hr. lia. }
    exists stop. split_and!; try done; lia.
Qed.

Lemma run_end_start bm max_bits want start :
  (max_bits <= 8 * length bm)%nat → (start <= max_bits)%nat →
  ∃ stop, run_end (S max_bits) bm max_bits want start start = Ret stop ∧
    (start <= stop <= max_bits)%nat ∧ (stop - start <= want)%nat ∧
    free_range bm start (stop - start) ∧
    (stop = max_bits ∨ (stop - start = want)%nat ∨ used bm stop = true).
Proof.
  intros Hm Hs. apply run_end_spec; try lia. intros i Hi. lia.
Qed.

(** [free_run_at] is a free run at [start], capped at [want], and empty only
    when [start] is taken. *)
Lemma free_run_at_spec bm max_bits want start :
  (max_bits <= 8 * length bm)%nat → (start < max_bits)%nat →
  ∃ n, free_run_at bm max_bits want start = Ret n ∧
    (n <= want)%nat ∧ (start + n <= max_bits)%nat ∧ free_range bm start n ∧
    ((0 < want)%nat → (n <= 0)%nat → used bm start = true).
Proof.
  intros Hm Hs. destruct (run_end_start bm max_bits want start Hm) as (stop & Hst & ? & ? & ? & Hend); [lia|].
  unfold free_run_at. rewrite Hst. cbn [mbind outcome_bind]. eexists. split_and!; [done|lia|lia|done|].
  intros ? ?. replace stop with start in Hend by lia. destruct Hend as [?|[?|?]]; [lia|lia|done].
Qed.

Definition best_len (best : option (nat * nat)) : nat :=
  match best with None => O | Some (_, n) => n end.

(** The loop invariant at [bit]: the position is a run boundary, [best] is a
    genuine run, and every run that starts earlier is shorter than [want] and
    no longer than [best]. *)
Record scanned (bm : list Z) (max_bits want bit : nat) (best : option (nat * nat)) : Prop := {
  sc_best : match best with
            | None => True
            | Some (s, n) => (0 < n < want)%nat ∧ (s + n <= max_bits)%nat ∧ free_range bm s n
            end;
  sc_short : ∀ s n, (0 < n)%nat → (s < bit)%nat → (s + n <= max_bits)%nat → free_range bm s n →
               (n < want)%nat ∧ (n <= best_len best)%nat;
  sc_edge : (0 < bit <= max_bits)%nat → used bm (bit - 1) = true
}.

(** Skipping used bits keeps the invariant. *)
Lemma scanned_skip bm max_bits want bit best k :
  scanned bm max_bits want bit best → (0 < k)%nat →
  (∀ i, (bit <= i < bit + k)%nat → used bm i = true) →
  scanned bm max_bits want (bit + k) best.
Proof.
  intros [] Hk Hu. split; [done| |].
  - intros s n Hn Hs Hm Hr. destruct (Nat.lt_ge_cases s bit); [eauto|].
    specialize (Hr s). rewrite Hu in Hr by lia. discriminate Hr. lia.
  - intros _. apply Hu. lia.
Qed.

Lemma run_edge bm bit n s :
  (0 < bit → used bm (bit - 1) = true)%nat → free_range bm s n → (s < bit)%nat → (s + n <= bit)%nat ∨ n = O.
Proof.
  intros He Hr Hs. destruct (Nat.le_gt_cases (s + n) bit); [auto|].
  specialize (Hr (bit - 1)%nat). rewrite He in Hr by lia. discriminate Hr. lia.
Qed.

(** Passing a run that is too short, remembering it when it is the best. *)
Lemma scanned_run bm max_bits want bit best stop :
  scanned bm max_bits want bit best → (bit < max_bits)%nat → used bm bit = false →
  (bit <= stop <= max_bits)%nat → (stop - bit < want)%nat → free_range bm bit (stop - bit) →
  (stop = max_bits ∨ used bm stop = true) → (bit < stop)%nat →
  scanned bm max_bits want (stop + 1)
    (if better best (stop - bit) then Some (bit, (stop - bit)%nat) else best).
Proof.
  intros [] Hlt Hu Hb Hw Hr Hend Hpos. split.
  - destruct (better best (stop - bit)); [split_and!; try done; lia|done].
  - intros s n Hn Hs Hm Hrs.
    assert (Hbl : (stop - bit <= best_len (if better best (stop - bit) then Some (bit, (stop - bit)%nat) else best))%nat
                ∧ (best_len best <= best_len (if better best (stop - bit) then Some (bit, (stop - bit)%nat) else best))%nat).
    { destruct best as [[s0 n0]|]; cbn [better best_len]; [|lia].
      destruct (Nat.ltb_spec n0 (stop - bit)); cbn [best_len]; lia. }
    destruct (Nat.lt_ge_cases s bit) as [Hsb|Hsb].
    { destruct (sc_short0 s n Hn Hsb Hm Hrs). split; [done|lia]. }
    assert (s + n <= stop)%nat; [|lia].
    destruct Hend as [->|Hus]; [done|].
    destruct (Nat.le_gt_cases (s + n) stop); [done|].
    specialize (Hrs stop). rewrite Hus in Hrs. discriminate Hrs. lia.
  - intros Hm. replace (stop + 1 - 1)%nat with stop by lia. destruct Hend as [->|]; [lia|done].
Qed.

Lemma full_byte bm bit :
  (bit mod 8 = 0)%nat → bm !!! (bit / 8)%nat = 255 →
  ∀ i, (bit <= i < bit + 8)%nat → used bm i = true.
Proof.
  intros Hm Hv i Hi. unfold used.
  assert (Hd : (i / 8 = bit / 8)%nat).
  { symmetry. apply (Nat.div_unique _ _ _ (i - bit)); [lia|]. pose proof (Nat.div_mod_eq bit 8). lia. }
  rewrite Hd, Hv. pose proof (mod8_lt i). change 255 with (Z.ones 8). apply Z.ones_spec_low. lia.
Qed.

(** What a run search promises. *)
Definition run_answer (bm : list Z) (max_bits want : nat) (r : option (nat * nat)) : Prop :=
  match r with
  | None => ∀ b, (b < max_bits)%nat → used bm b = true
  | Some (s, n) =>
      (0 < n <= want)%nat ∧ (s + n <= max_bits)%nat ∧ free_range bm s n ∧
      (n = want → ∀ s', (s' < s)%nat → (s' + want <= max_bits)%nat → ¬ free_range bm s' want) ∧
      ((n < want)%nat → ∀ s' n', (s' + n' <= max_bits)%nat → free_range bm s' n' → (n' <= n)%nat)
  end.

Lemma scanned_done bm max_bits want bit best :
  scanned bm max_bits want bit best → (max_bits <= bit)%nat → run_answer bm max_bits want best.
Proof.
  intros [] Hge. destruct best as [[s n]|]; cbn [run_answer best_len] in *.
  - destruct sc_best0 as (? & ? & ?). split_and!; try done; try lia.
    intros _ s' n' Hm Hr. destruct (Nat.eq_dec n' 0%nat); [lia|]. apply (sc_short0 s' n'); try done; lia.
  - intros b Hb. destruct (used bm b) eqn:E; [done|].
    destruct (sc_short0 b 1%nat); try lia. intros i Hi. replace i with b by lia. done.
Qed.

Lemma find_run_loop_spec bm max_bits want :
  (max_bits <= 8 * length bm)%nat → (0 < want)%nat → ∀ fuel bit best,
  (max_bits < fuel + bit)%nat → (0 < fuel)%nat → scanned bm max_bits want bit best →
  ∃ r, find_run_loop fuel bm max_bits want bit best = Ret r ∧ run_answer bm max_bits want r.
Proof.
  intros Hmax Hw. induction fuel as [|fuel IH]; intros bit best Hf Hpos Hsc; [lia|]. cbn [find_run_loop].
  destruct (Nat.ltb_spec bit max_bits) as [Hlt|Hge].
  2: { eexists. split; [done|]. by eapply scanned_done. }
  rewrite byte_at_ok by (apply div8_lt; lia). cbn [mbind outcome_bind].
  destruct ((bit mod 8 =? 0)%nat && (bm !!! (bit / 8)%nat =? 255)) eqn:Efull.
  { to_lia. apply IH; [lia|lia|]. apply scanned_skip; [done|lia|by apply full_byte]. }
  rewrite land_mask. change (Z.testbit (bm !!! (bit / 8)%nat) (Z.of_nat (bit mod 8))) with (used bm bit).
  rewrite negb_involutive. destruct (used bm bit) eqn:Eu.
  { apply IH; [lia|lia|]. apply scanned_skip; [done|lia|]. intros i Hi. by replace i with bit by lia. }
  destruct (run_end_start bm max_bits want bit Hmax) as (stop & Hst & Hb & Hsw & Hr & Hend); [lia|].
  rewrite Hst. cbn [mbind outcome_bind].
  assert (Hne : stop ≠ bit) by (intros ->; destruct Hend as [?|[?|Hx]]; [lia|lia|by rewrite Eu in Hx]).
  destruct (Nat.leb_spec want (stop - bit)) as [Hge|Hshort].
  - eexists. split; [done|]. split_and!; try lia; [done|].
    intros _ s' Hs' Hm Hfr. destruct Hsc. destruct (sc_short0 s' want); try done; lia.
  - apply IH; [lia|lia|]. apply scanned_run; try done; try lia.
    destruct Hend as [?|[?|?]]; [by left|lia|by right].
Qed.

Lemma find_free_run_spec bm max_bits want :
  (max_bits <= 8 * length bm)%nat → (0 < want)%nat →
  ∃ r, find_free_run bm max_bits want = Ret r ∧ run_answer bm max_bits want r.
Proof.
  intros Hm Hw. apply find_run_loop_spec; try done; try lia. split; [done|lia|lia].
Qed.

(** The block-run search is exact: it never indexes out of the bitmap, and
    it returns the first free run of the wanted length, the longest free run
    when none is long enough, and nothing only when every bit is taken. *)
Theorem find_free_run_correct bm max_bits want :
  (max_bits <= 8 * length bm)%nat → (0 < want)%nat →
  ∃ r, find_free_run bm max_bits want = Ret r ∧ run_answer bm max_bits want r.
Proof. apply find_free_run_spec. Qed.

Lemma find_free_run_correct_witness :
  find_free_run [255; 143; 31; 0] 30 8 = Ret (Some (21%nat, 8%nat)) ∧
  ∃ r, find_free_run [255; 143; 31; 0] 30 8 = Ret r ∧ run_answer [255; 143; 31; 0] 30 8 r.
Proof. split; [reflexivity|]. apply find_free_run_correct; simpl; lia. Defined.

(** ** The chunked single-bit search *)

Lemma testbit_cons b x i : byte_ok b → 0 <= i →
  Z.testbit (b + 256 * x) i = if i <? 8 then Z.testbit b i else Z.testbit x (i - 8).
Proof.
  intros Hb Hi. replace (b + 256 * x) with (Z.lor (Z.shiftl x 8) b).
  2: { rewrite lor_shiftl_add by (unfold byte_ok in Hb; lia). lia. }
  rewrite Z.lor_spec, Z.shiftl_spec by lia. destruct (Z.ltb_spec i 8).
  - by rewrite Z.testbit_neg_r by lia.
  - assert (Hz : Z.testbit b i = false); [|by rewrite Hz, orb_false_r].
    by apply byte_high.
Qed.

Lemma used_cons b l k : used (b :: l) (8 + k) = used l k.
Proof.
  unfold used. replace (8 + k)%nat with (k + 1 * 8)%nat by lia.
  rewrite Nat.div_add, Nat.Div0.mod_add by lia. by rewrite Nat.add_1_r.
Qed.

Lemma testbit_le_num l : Forall byte_ok l → ∀ k, (k < 8 * length l)%nat →
  Z.testbit (le_num l) (Z.of_nat k) = used l k.
Proof.
  intros Hl. induction Hl as [|b l Hb Hl IH]; intros k Hk; simpl in Hk; [lia|].
  cbn [le_num]. rewrite testbit_cons by (done || lia). destruct (Z.ltb_spec (Z.of_nat k) 8).
  - unfold used. rewrite (Nat.div_small k), (Nat.mod_small k) by lia. done.
  - replace k with (8 + (k - 8))%nat at 2 by lia. rewrite used_cons, <- IH by lia. f_equal. lia.
Qed.

Lemma used_app_r pre l k : used (pre ++ l) (8 * length pre + k) = used l k.
Proof.
  induction pre as [|b pre IH]; [done|]. cbn [app length].
  replace (8 * S (length pre) + k)%nat with (8 + (8 * length pre + k))%nat by lia. by rewrite used_cons.
Qed.

Lemma used_app_l l post k : (k < 8 * length l)%nat → used (l ++ post) k = used l k.
Proof. intros Hk. unfold used. by rewrite lookup_total_app_l by (apply div8_lt; lia). Qed.

Lemma testbit_div2 v i : 0 <= i → Z.testbit (Z.div2 v) i = Z.testbit v (Z.succ i).
Proof. intros Hi. rewrite Z.div2_spec, Z.shiftr_spec by done. f_equal. Qed.

Lemma trailing_ones_spec w : ∀ v,
  (trailing_ones w v <= w)%nat ∧
  (∀ i, (i < trailing_ones w v)%nat → Z.testbit v (Z.of_nat i) = true) ∧
  ((trailing_ones w v < w)%nat → Z.testbit v (Z.of_nat (trailing_ones w v)) = false).
Proof.
  induction w as [|w IH]; intros v; cbn [trailing_ones]; [split_and!; intros; lia|].
  rewrite <- Z.bit0_odd. destruct (Z.testbit v 0) eqn:E0.
  - destruct (IH (Z.div2 v)) as (H1 & H2 & H3). split_and!; [lia| |].
    + intros [|i] Hi; [done|]. rewrite Nat2Z.inj_succ, <- testbit_div2 by lia. apply H2. lia.
    + intros Hlt. rewrite Nat2Z.inj_succ, <- testbit_div2 by lia. apply H3. lia.
  - split_and!; [lia|intros; lia|done].
Qed.

(** A value whose low [w] bits are all set is the maximum. *)
Lemma all_ones w v : 0 <= w → 0 <= v < 2 ^ w → (∀ i, 0 <= i < w → Z.testbit v i = true) → v = 2 ^ w - 1.
Proof.
  intros Hw Hv Hb. replace (2 ^ w - 1) with (Z.ones w) by (rewrite Z.ones_equiv; lia).
  apply Z.bits_inj'. intros i Hi. rewrite Z.testbit_ones_nonneg by lia.
  destruct (Z.ltb_spec i w); [apply Hb; lia|].
  destruct (Z.eq_dec v 0) as [->|]; [apply Z.bits_0|].
  apply Z.bits_above_log2; [lia|]. apply Z.lt_le_trans with w; [|lia]. apply Z.log2_lt_pow2; lia.
Qed.

Lemma trailing_ones_lt (w : nat) v : 0 <= v < 2 ^ Z.of_nat w → v ≠ 2 ^ Z.of_nat w - 1 → (trailing_ones w v < w)%nat.
Proof.
  intros Hv Hne. destruct (trailing_ones_spec w v) as (H1 & H2 & _).
  destruct (Nat.eq_dec (trailing_ones w v) w) as [E|]; [|lia].
  destruct Hne. apply all_ones; [lia|done|]. intros i Hi.
  rewrite <- (Z2Nat.id i) by lia. apply H2. lia.
Qed.

Lemma first_clear_at bm : ∀ n b c,
  (b <= c)%nat → (∀ i, (b <= i < c)%nat → used bm i = true) → used bm c = false →
  first_clear bm b n = if (c <? b + n)%nat then Some c else None.
Proof.
  induction n as [|n IH]; intros b c Hb Hu Hc; cbn [first_clear].
  - destruct (Nat.ltb_spec c (b + 0)); [lia|done].
  - destruct (Nat.eq_dec b c) as [->|].
    + rewrite Hc. destruct (Nat.ltb_spec c (c + S n)); [done|lia].
    + rewrite Hu by lia. rewrite (IH (S b) c); [|lia|intros i Hi; apply Hu; lia|done].
      by rewrite Nat.add_succ_comm.
Qed.

Lemma first_clear_none bm : ∀ n b,
  (∀ i, (b <= i < b + n)%nat → used bm i = true) → first_clear bm b n = None.
Proof.
  induction n as [|n IH]; intros b Hu; cbn [first_clear]; [done|].
  rewrite Hu by lia. apply IH. intros i Hi. apply Hu. lia.
Qed.

Lemma first_clear_spec bm : ∀ n b,
  match first_clear bm b n with
  | Some c => (b <= c < b + n)%nat ∧ used bm c = false ∧ ∀ i, (b <= i < c)%nat → used bm i = true
  | None => ∀ i, (b <= i < b + n)%nat → used bm i = true
  end.
Proof.
  induction n as [|n IH]; intros b; cbn [first_clear]; [intros; lia|].
  destruct (used bm b) eqn:E.
  - specialize (IH (S b)). destruct (first_clear bm (S b) n) as [c|].
    + destruct IH as (? & ? & H). split_and!; [lia|lia|done|]. intros i Hi.
      destruct (Nat.eq_dec i b) as [->|]; [done|]. apply H. lia.
    + intros i Hi. destruct (Nat.eq_dec i b) as [->|]; [done|]. apply IH. lia.
  - split_and!; [lia|lia|done|intros; lia].
Qed.

(** A partial word: its first clear bit is the bitmap's, once all earlier bits
    are taken. *)
Lemma first_clear_word bm pre l post max_bits :
  bm = pre ++ l ++ post → Forall byte_ok l → le_num l ≠ 2 ^ (8 * Z.of_nat (length l)) - 1 →
  (∀ i, (i < 8 * length pre)%nat → used bm i = true) →
  first_clear bm 0 max_bits = below (8 * length pre + trailing_ones (8 * length l) (le_num l)) max_bits.
Proof.
  intros -> Hl Hne Hu. pose proof (le_num_bound l Hl) as Hb.
  replace (8 * Z.of_nat (length l)) with (Z.of_nat (8 * length l)) in * by lia.
  pose proof (trailing_ones_lt _ _ Hb Hne) as Hlt.
  destruct (trailing_ones_spec (8 * length l) (le_num l)) as (_ & H2 & H3).
  set (t := trailing_ones (8 * length l) (le_num l)) in *.
  assert (Hw : ∀ k, (k < 8 * length l)%nat →
    used (pre ++ l ++ post) (8 * length pre + k) = Z.testbit (le_num l) (Z.of_nat k)).
  { intros k Hk. by rewrite used_app_r, used_app_l, testbit_le_num. }
  rewrite (first_clear_at _ _ 0 (8 * length pre + t)%nat); [done|lia| |].
  - intros i Hi. destruct (Nat.lt_ge_cases i (8 * length pre)); [by apply Hu|].
    replace i with (8 * length pre + (i - 8 * length pre))%nat by lia. rewrite Hw by lia. apply H2. lia.
  - rewrite Hw by done. by apply H3.
Qed.

Lemma full_word bm pre l post :
  bm = pre ++ l ++ post → Forall byte_ok l → le_num l = 2 ^ (8 * Z.of_nat (length l)) - 1 →
  (∀ i, (i < 8 * length pre)%nat → used bm i = true) →
  ∀ i, (i < 8 * length (pre ++ l))%nat → used bm i = true.
Proof.
  intros -> Hl He Hu i Hi. rewrite length_app in Hi.
  destruct (Nat.lt_ge_cases i (8 * length pre)); [by apply Hu|].
  replace i with (8 * length pre + (i - 8 * length pre))%nat by lia.
  rewrite used_app_r, used_app_l, <- testbit_le_num by (done || lia). rewrite He, Z.sub_1_r, <- Z.ones_equiv.
  apply Z.ones_spec_low. lia.
Qed.

Lemma find_in_bytes_spec bm max_bits : Forall byte_ok bm → (max_bits <= 8 * length bm)%nat → ∀ l pre,
  bm = pre ++ l → (∀ i, (i < 8 * length pre)%nat → used bm i = true) →
  find_in_bytes l (length pre) max_bits = first_clear bm 0 max_bits.
Proof.
  intros Hok Hmax. induction l as [|b l IH]; intros pre E Hu; cbn [find_in_bytes].
  - rewrite app_nil_r in E. subst. symmetry. apply first_clear_none. intros i Hi. apply Hu. lia.
  - assert (Hb : Forall byte_ok [b]).
    { rewrite E in Hok. apply Forall_app in Hok as [_ Hok]. apply Forall_cons in Hok as [? _]. by constructor. }
    assert (En : le_num [b] = b) by (cbn [le_num]; lia).
    destruct (Z.eqb_spec b 255) as [->|Hne].
    + replace (length pre + 1)%nat with (length (pre ++ [255])) by (rewrite length_app; done).
      apply IH; [by rewrite <- app_assoc|]. by apply (full_word bm pre [255] l).
    + rewrite (first_clear_word bm pre [b] l max_bits E Hb); [|by rewrite En|done].
      rewrite En. f_equal. cbn [length Nat.mul Nat.add]. lia.
Qed.

Lemma find_in_chunks_spec bm max_bits : Forall byte_ok bm → (max_bits <= 8 * length bm)%nat → ∀ fuel l pre c,
  bm = pre ++ l → length pre = (8 * c)%nat → (length l < fuel)%nat →
  (∀ i, (i < 8 * length pre)%nat → used bm i = true) →
  find_in_chunks fuel l c max_bits = first_clear bm 0 max_bits.
Proof.
  intros Hok Hmax. induction fuel as [|fuel IH]; intros l pre c E Hp Hf Hu; [lia|]. cbn [find_in_chunks].
  destruct (Nat.leb_spec 8 (length l)) as [H8|H8].
  - rewrite <- (take_drop 8 l) in E. assert (Ht : length (take 8 l) = 8%nat) by (rewrite length_take; lia).
    assert (Hb : Forall byte_ok (take 8 l)).
    { rewrite E in Hok. apply Forall_app in Hok as [_ Hok]. by apply Forall_app in Hok as [? _]. }
    destruct (Z.eqb_spec (le_num (take 8 l)) U64_MAX) as [Em|Hne].
    + apply (IH (drop 8 l) (pre ++ take 8 l)).
      * by rewrite <- app_assoc.
      * rewrite length_app, Ht, Hp. lia.
      * rewrite length_drop. lia.
      * apply (full_word bm pre (take 8 l) (drop 8 l)); try done. by rewrite Ht, Em.
    + rewrite (first_clear_word bm pre (take 8 l) (drop 8 l) max_bits E Hb); [|by rewrite Ht|done].
      rewrite Ht, Hp. f_equal. change (8 * 8)%nat with 64%nat. lia.
  - replace (c * 8)%nat with (length pre) by lia. by apply find_in_bytes_spec.
Qed.

Lemma find_free_bit_spec bm max_bits :
  Forall byte_ok bm → (max_bits <= 8 * length bm)%nat →
  find_free_bit bm max_bits = first_clear bm 0 max_bits.
Proof.
  intros Hok Hmax. apply (find_in_chunks_spec bm max_bits Hok Hmax _ bm []); try done; simpl; lia.
Qed.

(** The word-at-a-time inode search is equivalent to scanning the bitmap
    bit by bit: it returns the first clear bit below the limit, or nothing when
    there is none. *)
Theorem find_free_bit_first bm max_bits :
  Forall byte_ok bm → (max_bits <= 8 * length bm)%nat →
  find_free_bit bm max_bits = first_clear bm 0 max_bits.
Proof. apply find_free_bit_spec. Qed.

Lemma find_free_bit_first_witness :
  find_free_bit (replicate 8 255 ++ [255; 23]) 80 = first_clear (replicate 8 255 ++ [255; 23]) 0 80 ∧
  find_free_bit (replicate 8 255 ++ [255; 23]) 80 = Some 75%nat.
Proof.
  split; [|reflexivity]. apply find_free_bit_first; [|simpl; lia]. repeat constructor; vm_compute; congruence.
Defined.

End EfsBitmap.
