(* ===== verification/EfsAlloc.v ===== *)
(** * Block and inode allocation (kernel/src/fs/efs/mod.rs)

    [alloc_blocks], [claim_run], [free_block], [alloc_inode] and [free_inode]
    over the driver's metadata: the group descriptors, the superblock counters,
    the pages of the block page cache and what the transaction collects. Each
    runs under [bitmap_mutex], so a call is one step. *)

From S2P Require Import Prelude EfsBitmap.
Import EfsBitmap.

Module EfsAlloc.

(** ** State *)

Definition BLOCK_SIZE4K : nat := Z.to_nat 4096.
Definition BGD_SIZE : Z := 64.

Record EfsBlockGroupDesc := mk_bgd {
  block_bitmap_block : Z;
  inode_bitmap_block : Z;
  inode_table_block : Z;
  free_blocks_count : Z;
  free_inodes_count : Z;
  used_dirs_count : Z;
  bgd_checksum : Z;
  bgd_reserved : list Z
}.

(** The fields of [EfsDriver] the allocator uses: [mutable] (the group table and
    the two superblock counters), the cached pages, and the transaction's
    enrolled and revoked pages, newest first. *)
Record driver := mk_driver {
  starting_lba : Z;
  blocks_per_group : nat;
  inodes_per_group : nat;
  bgd_table : list EfsBlockGroupDesc;
  free_blocks : Z;
  free_inodes : Z;
  pages : gmap Z (list Z);
  enrolled : list Z;
  revoked : list Z
}.

Definition set_free_blocks (d : EfsBlockGroupDesc) (n : Z) : EfsBlockGroupDesc :=
  mk_bgd (block_bitmap_block d) (inode_bitmap_block d) (inode_table_block d) n
    (free_inodes_count d) (used_dirs_count d) (bgd_checksum d) (bgd_reserved d).
Definition set_free_inodes (d : EfsBlockGroupDesc) (n : Z) : EfsBlockGroupDesc :=
  mk_bgd (block_bitmap_block d) (inode_bitmap_block d) (inode_table_block d) (free_blocks_count d)
    n (used_dirs_count d) (bgd_checksum d) (bgd_reserved d).

Definition set_table (s : driver) (t : list EfsBlockGroupDesc) (fb fi : Z) : driver :=
  mk_driver (starting_lba s) (blocks_per_group s) (inodes_per_group s) t fb fi (pages s)
    (enrolled s) (revoked s).
Definition set_page (s : driver) (p : Z) (data : list Z) : driver :=
  mk_driver (starting_lba s) (blocks_per_group s) (inodes_per_group s) (bgd_table s) (free_blocks s)
    (free_inodes s) (<[p := data]> (pages s)) (enrolled s) (revoked s).
Definition add_enrolled (s : driver) (p : Z) : driver :=
  mk_driver (starting_lba s) (blocks_per_group s) (inodes_per_group s) (bgd_table s) (free_blocks s)
    (free_inodes s) (pages s) (p :: enrolled s) (revoked s).
Definition add_revoked (s : driver) (p : Z) : driver :=
  mk_driver (starting_lba s) (blocks_per_group s) (inodes_per_group s) (bgd_table s) (free_blocks s)
    (free_inodes s) (pages s) (enrolled s) (p :: revoked s).

Inductive Error := NoSpace | Corrupted | Io.

(** Code that may fail with an [Error] or panic, over the driver state; the
    state survives an error. *)
Definition M (A : Type) : Type := driver → outcome (result Error A * driver).
#[export] Instance M_ret : MRet M := λ A a s, Ret (Ok a, s).
#[export] Instance M_bind : MBind M := λ A B f m s,
  match m s with
  | Ret (Ok a, s') => f a s'
  | Ret (Err e, s') => Ret (Err e, s')
  | Panic => Panic
  end.
Definition throw {A} (e : Error) : M A := λ s, Ret (Err e, s).
Definition lift {A} (o : outcome A) : M A :=
  λ s, match o with Ret a => Ret (Ok a, s) | Panic => Panic end.
Definition get : M driver := λ s, Ret (Ok s, s).
Definition put (s : driver) : M unit := λ _, Ret (Ok tt, s).

(** Checked [u64] arithmetic. *)
Definition sub64 (x y : Z) : outcome Z := if y <=? x then Ret (x - y) else Panic.
Definition add64 (x y : Z) : outcome Z := if x + y <=? U64_MAX then Ret (x + y) else Panic.

(** ** Operations *)

Section Ops.
(** Whether the block page cache and the device serve this page. *)
Context (page_io : Z → bool).

Definition block_to_lba (s : driver) (block : Z) : Z :=
  starting_lba s + block * (Z.of_nat BLOCK_SIZE4K / 512).
Definition page_of (s : driver) (block : Z) : Z := block_to_lba s block / 8.

(** A cached page; one never written holds zeros. *)
Definition page_data (s : driver) (p : Z) : list Z :=
  default (replicate BLOCK_SIZE4K 0) (pages s !! p).

Definition read_block (block : Z) : M (list Z) :=
  s ← get;
  let p := page_of s block in
  if page_io p then mret (page_data s p) else throw Io.

Definition write_block (block : Z) (data : list Z) : M unit :=
  s ← get;
  let p := page_of s block in
  let buf := take BLOCK_SIZE4K data ++ replicate (BLOCK_SIZE4K - length data) 0 in
  if page_io p then put (add_enrolled (set_page s p buf) p) else throw Io.

Definition group_desc (g : nat) : M EfsBlockGroupDesc :=
  s ← get;
  match bgd_table s !! g with Some d => mret d | None => lift Panic end.

(** [if let Ok(guard) = read_page(p) { tx.enroll_block(p) }] *)
Definition enroll_page (p : Z) : M unit :=
  s ← get;
  if page_io p then put (add_enrolled s p) else mret tt.

(** The descriptor's page and the superblock's page. *)
Definition enroll_counters (g : nat) : M unit :=
  s ← get;
  let bgds_per_block := Z.of_nat BLOCK_SIZE4K / BGD_SIZE in
  _ ← enroll_page (page_of s (2 + Z.of_nat g / bgds_per_block));
  enroll_page (page_of s 1).

Definition claim_run (g : nat) (bitmap_block : Z) (bitmap : list Z) (bit len : nat) : M (list Z) :=
  bitmap ← lift (set_bits bitmap bit len);
  d ← group_desc g;
  s ← get;
  n ← lift (sub64 (free_blocks_count d) (Z.of_nat len));
  t ← lift (sub64 (free_blocks s) (Z.of_nat len));
  _ ← put (set_table s (<[g := set_free_blocks d n]> (bgd_table s)) t (free_inodes s));
  let abs_block := Z.of_nat g * Z.of_nat (blocks_per_group s) + Z.of_nat bit in
  _ ← write_block bitmap_block bitmap;
  _ ← enroll_counters g;
  mret (seqZ abs_block (Z.of_nat len)).

(** First fit over the groups [(first + i) % group_count], [todo] of them left. *)
Fixpoint first_fit (want bits first i todo : nat) : M (list Z) :=
  match todo with
  | O => throw NoSpace
  | S todo' =>
      s ← get;
      let g := ((first + i) mod length (bgd_table s))%nat in
      d ← group_desc g;
      if free_blocks_count d =? 0 then first_fit want bits first (i + 1) todo'
      else
        bitmap ← read_block (block_bitmap_block d);
        let want_here := Nat.min want (Z.to_nat (free_blocks_count d)) in
        r ← lift (find_free_run bitmap bits want_here);
        match r with
        | Some (bit, len) => claim_run g (block_bitmap_block d) bitmap bit len
        | None => first_fit want bits first (i + 1) todo'
        end
  end.

(** [goal.map(|b| b / blocks_per_group).filter(|&g| g < group_count)] *)
Definition goal_group (s : driver) (goal : option Z) : outcome (option nat) :=
  match goal with
  | None => Ret None
  | Some b =>
      if (blocks_per_group s =? 0)%nat then Panic
      else
        let g := Z.to_nat (b / Z.of_nat (blocks_per_group s)) in
        Ret (if (g <? length (bgd_table s))%nat then Some g else None)
  end.

Definition alloc_blocks (want : nat) (goal : option Z) : M (list Z) :=
  s ← get;
  let bits := Nat.min (blocks_per_group s) (BLOCK_SIZE4K * 8) in
  let group_count := length (bgd_table s) in
  if (want =? 0)%nat then lift Panic
  else
    gg ← lift (goal_group s goal);
    let fallback := first_fit want bits (default O gg) 0 group_count in
    match gg, goal with
    | Some g, Some goal_block =>
        d ← group_desc g;
        let bit := Z.to_nat (goal_block mod Z.of_nat (blocks_per_group s)) in
        if (0 <? free_blocks_count d) && (bit <? bits)%nat then
          bitmap ← read_block (block_bitmap_block d);
          let want_here := Nat.min want (Z.to_nat (free_blocks_count d)) in
          len ← lift (free_run_at bitmap bits want_here bit);
          if (0 <? len)%nat then claim_run g (block_bitmap_block d) bitmap bit len
          else fallback
        else fallback
    | _, _ => fallback
    end.

Definition alloc_block : M Z :=
  bl ← alloc_blocks 1 None;
  match bl with b :: _ => mret b | [] => throw NoSpace end.

Definition free_block (block : Z) : M unit :=
  s ← get;
  if (blocks_per_group s =? 0)%nat then lift Panic
  else
    let group := Z.to_nat (block / Z.of_nat (blocks_per_group s)) in
    let bit := Z.to_nat (block mod Z.of_nat (blocks_per_group s)) in
    if (length (bgd_table s) <=? group)%nat then throw Corrupted
    else
      d ← group_desc group;
      bitmap ← read_block (block_bitmap_block d);
      bitmap ← lift (clear_bit bitmap bit);
      _ ← write_block (block_bitmap_block d) bitmap;
      d ← group_desc group;
      s ← get;
      n ← lift (add64 (free_blocks_count d) 1);
      t ← lift (add64 (free_blocks s) 1);
      _ ← put (set_table s (<[group := set_free_blocks d n]> (bgd_table s)) t (free_inodes s));
      _ ← enroll_counters group;
      s ← get;
      put (add_revoked s (page_of s block)).

Fixpoint alloc_inode_from (g todo : nat) : M Z :=
  match todo with
  | O => throw NoSpace
  | S todo' =>
      s ← get;
      d ← group_desc g;
      if free_inodes_count d =? 0 then alloc_inode_from (g + 1) todo'
      else
        bitmap ← read_block (inode_bitmap_block d);
        let bits := Nat.min (inodes_per_group s) (BLOCK_SIZE4K * 8) in
        match find_free_bit bitmap bits with
        | None => alloc_inode_from (g + 1) todo'
        | Some bit =>
            bitmap ← lift (set_bit bitmap bit);
            n ← lift (sub64 (free_inodes_count d) 1);
            t ← lift (sub64 (free_inodes s) 1);
            _ ← put (set_table s (<[g := set_free_inodes d n]> (bgd_table s)) (free_blocks s) t);
            let ino := Z.of_nat g * Z.of_nat (inodes_per_group s) + Z.of_nat bit + 1 in
            _ ← write_block (inode_bitmap_block d) bitmap;
            _ ← enroll_counters g;
            mret ino
        end
  end.

Definition alloc_inode : M Z := s ← get; alloc_inode_from 0 (length (bgd_table s)).

Definition free_inode (ino : Z) : M unit :=
  s ← get;
  if (ino =? 0) || (inodes_per_group s =? 0)%nat then lift Panic
  else
    let group := Z.to_nat ((ino - 1) / Z.of_nat (inodes_per_group s)) in
    let bit := Z.to_nat ((ino - 1) mod Z.of_nat (inodes_per_group s)) in
    if (length (bgd_table s) <=? group)%nat then throw Corrupted
    else
      d ← group_desc group;
      bitmap ← read_block (inode_bitmap_block d);
      bitmap ← lift (clear_bit bitmap bit);
      _ ← write_block (inode_bitmap_block d) bitmap;
      d ← group_desc group;
      s ← get;
      n ← lift (add64 (free_inodes_count d) 1);
      t ← lift (add64 (free_inodes s) 1);
      _ ← put (set_table s (<[group := set_free_inodes d n]> (bgd_table s)) (free_blocks s) t);
      enroll_counters group.
End Ops.

(** ** The invariant *)

Definition block_bitmap (s : driver) (d : EfsBlockGroupDesc) : list Z :=
  page_data s (page_of s (block_bitmap_block d)).
Definition inode_bitmap (s : driver) (d : EfsBlockGroupDesc) : list Z :=
  page_data s (page_of s (inode_bitmap_block d)).

Definition bitmap_blocks (s : driver) : list Z :=
  (block_bitmap_block <$> bgd_table s) ++ (inode_bitmap_block <$> bgd_table s).

Definition zsum (l : list Z) : Z := foldr Z.add 0 l.

(** Counters agree with bitmaps, group by group and in total. *)
Record wf (s : driver) : Prop := {
  wf_bpg : (0 < blocks_per_group s <= 8 * BLOCK_SIZE4K)%nat;
  wf_ipg : (0 < inodes_per_group s <= 8 * BLOCK_SIZE4K)%nat;
  wf_pages : ∀ p, length (page_data s p) = BLOCK_SIZE4K ∧ Forall byte_ok (page_data s p);
  wf_distinct : NoDup (bitmap_blocks s);
  wf_blocks : ∀ g d, bgd_table s !! g = Some d →
    free_blocks_count d = Z.of_nat (nfree (used (block_bitmap s d)) (blocks_per_group s));
  wf_inodes : ∀ g d, bgd_table s !! g = Some d →
    free_inodes_count d = Z.of_nat (nfree (used (inode_bitmap s d)) (inodes_per_group s));
  wf_free_blocks : free_blocks s = zsum (free_blocks_count <$> bgd_table s);
  wf_free_inodes : free_inodes s = zsum (free_inodes_count <$> bgd_table s);
  wf_block_total : Z.of_nat (length (bgd_table s)) * Z.of_nat (blocks_per_group s) <= U64_MAX;
  wf_inode_total : Z.of_nat (length (bgd_table s)) * Z.of_nat (inodes_per_group s) <= U64_MAX
}.

(** Whether absolute block [x] is taken; blocks past the last group are. *)
Definition block_used (s : driver) (x : Z) : bool :=
  match bgd_table s !! Z.to_nat (x / Z.of_nat (blocks_per_group s)) with
  | Some d => used (block_bitmap s d) (Z.to_nat (x mod Z.of_nat (blocks_per_group s)))
  | None => true
  end.

Definition inode_used (s : driver) (ino : Z) : bool :=
  match bgd_table s !! Z.to_nat ((ino - 1) / Z.of_nat (inodes_per_group s)) with
  | Some d => used (inode_bitmap s d) (Z.to_nat ((ino - 1) mod Z.of_nat (inodes_per_group s)))
  | None => true
  end.

(** ** Generic lemmas *)

Lemma page_of_inj s a b : page_of s a = page_of s b → a = b.
Proof.
  unfold page_of, block_to_lba. change (Z.of_nat BLOCK_SIZE4K / 512) with 8.
  rewrite !Z.div_add by lia. lia.
Qed.

Lemma zsum_insert l : ∀ (g : nat) x y, l !! g = Some x → zsum (<[g := y]> l) = zsum l - x + y.
Proof.
  unfold zsum. induction l as [|z l IH]; intros [|g] x y E; simpl in E |- *; try done.
  - injection E as ->. lia.
  - rewrite (IH g x y E). lia.
Qed.

Lemma zsum_elem_le l : Forall (λ x, 0 <= x) l → ∀ (g : nat) x, l !! g = Some x → x <= zsum l.
Proof.
  unfold zsum. induction 1 as [|z l Hz Hl IH]; intros [|g] x E; simpl in E |- *; try done.
  - injection E as ->. enough (0 <= foldr Z.add 0 l) by lia. clear IH Hz.
    induction Hl; simpl; lia.
  - specialize (IH g x E). lia.
Qed.

Lemma zsum_bound l m : Forall (λ x, x <= m) l → zsum l <= Z.of_nat (length l) * m.
Proof. unfold zsum. induction 1; simpl; lia. Qed.

Lemma zsum_bound_lt l m : Forall (λ x, x <= m) l → ∀ (g : nat) x, l !! g = Some x → x < m →
  zsum l < Z.of_nat (length l) * m.
Proof.
  unfold zsum. induction 1 as [|z l Hz Hl IH]; intros [|g] x E Hx; simpl in E |- *; try done.
  - injection E as ->. pose proof (zsum_bound l m Hl). unfold zsum in *. lia.
  - specialize (IH g x E Hx). lia.
Qed.

Lemma fmap_insert_same {A B} (f : A → B) (l : list A) (g : nat) x y :
  l !! g = Some x → f y = f x → f <$> <[g := y]> l = f <$> l.
Proof.
  intros E Hf. rewrite list_fmap_insert, Hf. apply list_insert_id. by rewrite list_lookup_fmap, E.
Qed.

(** ** Updating one bitmap *)

Lemma page_data_set s p bm q :
  page_data (set_page s p bm) q = if decide (q = p) then bm else page_data s q.
Proof.
  unfold page_data, set_page; cbn [pages]. case_decide as E.
  - subst. by rewrite lookup_insert_eq.
  - by rewrite lookup_insert_ne.
Qed.

(** The bitmap blocks of different groups, and of the two kinds, differ. *)
Lemma bitmap_block_inj s g h d e :
  wf s → bgd_table s !! g = Some d → bgd_table s !! h = Some e →
  (block_bitmap_block d = block_bitmap_block e → g = h) ∧
  (inode_bitmap_block d = inode_bitmap_block e → g = h) ∧
  block_bitmap_block d ≠ inode_bitmap_block e.
Proof.
  intros [] Hg Hh. unfold bitmap_blocks in wf_distinct0.
  apply NoDup_app in wf_distinct0 as (N1 & N2 & N3). split_and!.
  - intros E. eapply (NoDup_lookup _ g h _ N1); rewrite list_lookup_fmap, ?Hg, ?Hh; simpl; [done|by rewrite E].
  - intros E. eapply (NoDup_lookup _ g h _ N3); rewrite list_lookup_fmap, ?Hg, ?Hh; simpl; [done|by rewrite E].
  - intros E. eapply (N2 (block_bitmap_block d)).
    + apply list_elem_of_fmap_2. by eapply list_elem_of_lookup_2.
    + rewrite E. apply list_elem_of_fmap_2. by eapply list_elem_of_lookup_2.
Qed.

(** The states an allocator call leaves: one group's block bitmap and counts
    replaced, the transaction extended. *)
Definition update_blocks (s : driver) (g : nat) (d : EfsBlockGroupDesc) (bm : list Z) (n t : Z)
    (en re : list Z) : driver :=
  mk_driver (starting_lba s) (blocks_per_group s) (inodes_per_group s)
    (<[g := set_free_blocks d n]> (bgd_table s)) t (free_inodes s)
    (<[page_of s (block_bitmap_block d) := bm]> (pages s)) en re.

Definition update_inodes (s : driver) (g : nat) (d : EfsBlockGroupDesc) (bm : list Z) (n t : Z)
    (en re : list Z) : driver :=
  mk_driver (starting_lba s) (blocks_per_group s) (inodes_per_group s)
    (<[g := set_free_inodes d n]> (bgd_table s)) (free_blocks s) t
    (<[page_of s (inode_bitmap_block d) := bm]> (pages s)) en re.

Section Update.
Context (s : driver) (Hwf : wf s) (g : nat) (d : EfsBlockGroupDesc) (Hd : bgd_table s !! g = Some d).
Context (bm : list Z) (Hlen : length bm = BLOCK_SIZE4K) (Hbytes : Forall byte_ok bm).
Context (en re : list Z).

Lemma update_blocks_page n t q :
  page_data (update_blocks s g d bm n t en re) q =
    if decide (q = page_of s (block_bitmap_block d)) then bm else page_data s q.
Proof. apply (page_data_set s). Qed.

Lemma update_inodes_page n t q :
  page_data (update_inodes s g d bm n t en re) q =
    if decide (q = page_of s (inode_bitmap_block d)) then bm else page_data s q.
Proof. apply (page_data_set s). Qed.

(** Group [h]'s descriptor after the update. *)
Lemma update_lookup (f : EfsBlockGroupDesc) h e :
  <[g := f]> (bgd_table s) !! h = Some e → (h = g ∧ e = f) ∨ (h ≠ g ∧ bgd_table s !! h = Some e).
Proof.
  pose proof (lookup_lt_Some _ _ _ Hd). destruct (Nat.eq_dec h g) as [->|].
  - rewrite list_lookup_insert_eq by done. intros [= <-]. auto.
  - rewrite list_lookup_insert_ne by done. auto.
Qed.

Lemma update_blocks_bitmaps n t h e :
  bgd_table (update_blocks s g d bm n t en re) !! h = Some e →
  block_bitmap (update_blocks s g d bm n t en re) e = (if decide (h = g) then bm else block_bitmap s e) ∧
  inode_bitmap (update_blocks s g d bm n t en re) e = inode_bitmap s e.
Proof.
  unfold block_bitmap, inode_bitmap. rewrite !update_blocks_page. cbn [update_blocks bgd_table].
  change (page_of (update_blocks s g d bm n t en re)) with (page_of s).
  intros [[-> ->]|[Hne E]]%update_lookup; cbn [set_free_blocks block_bitmap_block inode_bitmap_block].
  - destruct (bitmap_block_inj s g g d d Hwf Hd Hd) as (_ & _ & Hbi).
    rewrite !decide_True by done. rewrite decide_False; [done|].
    intros Ep. apply Hbi. symmetry. by eapply page_of_inj.
  - destruct (bitmap_block_inj s g h d e Hwf Hd E) as (Hbb & _ & Hbi).
    rewrite (decide_False (P := h = g)) by done. rewrite !decide_False; [done| |].
    + intros Ep. apply Hbi. symmetry. by eapply page_of_inj.
    + intros Ep. apply Hne. symmetry. apply Hbb. symmetry. by eapply page_of_inj.
Qed.

Lemma update_inodes_bitmaps n t h e :
  bgd_table (update_inodes s g d bm n t en re) !! h = Some e →
  inode_bitmap (update_inodes s g d bm n t en re) e = (if decide (h = g) then bm else inode_bitmap s e) ∧
  block_bitmap (update_inodes s g d bm n t en re) e = block_bitmap s e.
Proof.
  unfold block_bitmap, inode_bitmap. rewrite !update_inodes_page. cbn [update_inodes bgd_table].
  change (page_of (update_inodes s g d bm n t en re)) with (page_of s).
  intros [[-> ->]|[Hne E]]%update_lookup; cbn [set_free_inodes block_bitmap_block inode_bitmap_block].
  - destruct (bitmap_block_inj s g g d d Hwf Hd Hd) as (_ & _ & Hbi).
    rewrite !decide_True by done. rewrite decide_False; [done|].
    intros Ep. apply Hbi. by eapply page_of_inj.
  - destruct (bitmap_block_inj s g h d e Hwf Hd E) as (_ & Hii & _).
    destruct (bitmap_block_inj s h g e d Hwf E Hd) as (_ & _ & Hbi).
    rewrite (decide_False (P := h = g)) by done. rewrite !decide_False; [done| |].
    + intros Ep. apply Hbi. by eapply page_of_inj.
    + intros Ep. apply Hne. symmetry. apply Hii. symmetry. by eapply page_of_inj.
Qed.

Lemma update_blocks_wf n t :
  n = Z.of_nat (nfree (used bm) (blocks_per_group s)) → t = free_blocks s - free_blocks_count d + n →
  wf (update_blocks s g d bm n t en re).
Proof.
  intros Hn Ht. pose proof (update_blocks_bitmaps n t) as Hbm. pose proof (update_blocks_page n t) as Hpg.
  destruct Hwf. split; try done.
  - intros p. rewrite Hpg. case_decide; [done|apply wf_pages0].
  - unfold bitmap_blocks. cbn [update_blocks bgd_table].
    rewrite !(fmap_insert_same _ _ _ _ _ Hd) by done. done.
  - intros h e He. destruct (Hbm h e He) as [-> _]. cbn [update_blocks bgd_table blocks_per_group] in *.
    destruct (update_lookup _ _ _ He) as [[-> ->]|[Hne E]].
    + by rewrite decide_True.
    + rewrite decide_False by done. by eapply wf_blocks0.
  - intros h e He. destruct (Hbm h e He) as [_ ->]. cbn [update_blocks bgd_table inodes_per_group] in *.
    destruct (update_lookup _ _ _ He) as [[-> ->]|[Hne E]]; [exact (wf_inodes0 g d Hd)|by eapply wf_inodes0].
  - cbn [update_blocks bgd_table free_blocks]. rewrite list_fmap_insert.
    rewrite (zsum_insert _ g (free_blocks_count d)) by (by rewrite list_lookup_fmap, Hd).
    rewrite <- wf_free_blocks0. exact Ht.
  - cbn [update_blocks bgd_table free_inodes]. by rewrite (fmap_insert_same _ _ _ _ _ Hd).
  - cbn [update_blocks bgd_table blocks_per_group]. by rewrite length_insert.
  - cbn [update_blocks bgd_table inodes_per_group]. by rewrite length_insert.
Qed.

Lemma update_inodes_wf n t :
  n = Z.of_nat (nfree (used bm) (inodes_per_group s)) → t = free_inodes s - free_inodes_count d + n →
  wf (update_inodes s g d bm n t en re).
Proof.
  intros Hn Ht. pose proof (update_inodes_bitmaps n t) as Hbm. pose proof (update_inodes_page n t) as Hpg.
  destruct Hwf. split; try done.
  - intros p. rewrite Hpg. case_decide; [done|apply wf_pages0].
  - unfold bitmap_blocks. cbn [update_inodes bgd_table].
    rewrite !(fmap_insert_same _ _ _ _ _ Hd) by done. done.
  - intros h e He. destruct (Hbm h e He) as [_ ->]. cbn [update_inodes bgd_table blocks_per_group] in *.
    destruct (update_lookup _ _ _ He) as [[-> ->]|[Hne E]]; [exact (wf_blocks0 g d Hd)|by eapply wf_blocks0].
  - intros h e He. destruct (Hbm h e He) as [-> _]. cbn [update_inodes bgd_table inodes_per_group] in *.
    destruct (update_lookup _ _ _ He) as [[-> ->]|[Hne E]].
    + by rewrite decide_True.
    + rewrite decide_False by done. by eapply wf_inodes0.
  - cbn [update_inodes bgd_table free_blocks]. by rewrite (fmap_insert_same _ _ _ _ _ Hd).
  - cbn [update_inodes bgd_table free_inodes]. rewrite list_fmap_insert.
    rewrite (zsum_insert _ g (free_inodes_count d)) by (by rewrite list_lookup_fmap, Hd).
    rewrite <- wf_free_inodes0. exact Ht.
  - cbn [update_inodes bgd_table blocks_per_group]. by rewrite length_insert.
  - cbn [update_inodes bgd_table inodes_per_group]. by rewrite length_insert.
Qed.
End Update.

(** ** Operations on well-formed states *)

Ltac run := cbv [mbind M_bind lift get put throw mret M_ret group_desc].

Lemma block_used_update s g d bm n t en re x :
  wf s → bgd_table s !! g = Some d →
  block_used (update_blocks s g d bm n t en re) x =
    if decide (Z.to_nat (x / Z.of_nat (blocks_per_group s)) = g)
    then used bm (Z.to_nat (x mod Z.of_nat (blocks_per_group s))) else block_used s x.
Proof.
  intros Hwf Hd. unfold block_used. change (blocks_per_group (update_blocks _ _ _ _ _ _ _ _)) with (blocks_per_group s).
  set (h := Z.to_nat (x / _)). pose proof (update_blocks_bitmaps s Hwf g d Hd bm en re n t h) as Hbm.
  pose proof (lookup_lt_Some _ _ _ Hd).
  destruct (bgd_table (update_blocks s g d bm n t en re) !! h) as [e|] eqn:E.
  - destruct (Hbm e eq_refl) as [-> _].
    destruct (update_lookup s g d Hd _ _ _ E) as [[-> _]|[Hne E']].
    + by rewrite !decide_True.
    + by rewrite !decide_False, E' by done.
  - cbn [update_blocks bgd_table] in E. rewrite list_lookup_insert in E. repeat case_decide; try done.
    + exfalso. auto.
    + by rewrite E.
Qed.

Lemma inode_used_update s g d bm n t en re x :
  wf s → bgd_table s !! g = Some d →
  inode_used (update_inodes s g d bm n t en re) x =
    if decide (Z.to_nat ((x - 1) / Z.of_nat (inodes_per_group s)) = g)
    then used bm (Z.to_nat ((x - 1) mod Z.of_nat (inodes_per_group s))) else inode_used s x.
Proof.
  intros Hwf Hd. unfold inode_used. change (inodes_per_group (update_inodes _ _ _ _ _ _ _ _)) with (inodes_per_group s).
  set (h := Z.to_nat ((x - 1) / _)). pose proof (update_inodes_bitmaps s Hwf g d Hd bm en re n t h) as Hbm.
  pose proof (lookup_lt_Some _ _ _ Hd).
  destruct (bgd_table (update_inodes s g d bm n t en re) !! h) as [e|] eqn:E.
  - destruct (Hbm e eq_refl) as [-> _].
    destruct (update_lookup s g d Hd _ _ _ E) as [[-> _]|[Hne E']].
    + by rewrite !decide_True.
    + by rewrite !decide_False, E' by done.
  - cbn [update_inodes bgd_table] in E. rewrite list_lookup_insert in E. repeat case_decide; try done.
    + exfalso. auto.
    + by rewrite E.
Qed.

(** Position of a block of group [g]. *)
Lemma split_block (g m : nat) (k : nat) x : (0 < m)%nat → (k < m)%nat →
  x = Z.of_nat g * Z.of_nat m + Z.of_nat k →
  Z.to_nat (x / Z.of_nat m) = g ∧ Z.to_nat (x mod Z.of_nat m) = k.
Proof.
  intros Hm Hk ->. rewrite Z.add_comm, Z.div_add, Z.div_small, Z.mod_add, Z.mod_small by lia. lia.
Qed.

Lemma join_block (m : nat) x : (0 < m)%nat → 0 <= x →
  x = Z.of_nat (Z.to_nat (x / Z.of_nat m)) * Z.of_nat m + Z.of_nat (Z.to_nat (x mod Z.of_nat m)) ∧
  (Z.to_nat (x mod Z.of_nat m) < m)%nat.
Proof.
  intros Hm Hx. pose proof (Z.div_mod x (Z.of_nat m)). pose proof (Z.mod_pos_bound x (Z.of_nat m)).
  pose proof (Z.div_pos x (Z.of_nat m)). rewrite !Z2Nat.id by lia. lia.
Qed.

Section Specs.
Context (page_io : Z → bool).

Lemma enroll_counters_run g s :
  ∃ en, enroll_counters page_io g s =
    Ret (Ok tt, mk_driver (starting_lba s) (blocks_per_group s) (inodes_per_group s) (bgd_table s)
           (free_blocks s) (free_inodes s) (pages s) (en ++ enrolled s) (revoked s)).
Proof.
  unfold enroll_counters, enroll_page. run.
  destruct (page_io (page_of s (2 + _))); destruct (page_io _).
  - by eexists [_; _]. - by eexists [_]. - by eexists [_].
  - exists []. by destruct s.
Qed.

Lemma write_full_page data :
  length data = BLOCK_SIZE4K → take BLOCK_SIZE4K data ++ replicate (BLOCK_SIZE4K - length data) 0 = data.
Proof. intros H. rewrite take_ge by lia. rewrite H, Nat.sub_diag. apply app_nil_r. Qed.

Lemma free_count_bound s g d :
  wf s → bgd_table s !! g = Some d → 0 <= free_blocks_count d <= free_blocks s.
Proof.
  intros [] Hd. rewrite (wf_blocks0 g d Hd) at 1. split; [lia|]. rewrite wf_free_blocks0.
  apply (zsum_elem_le _) with g; [|by rewrite list_lookup_fmap, Hd].
  apply Forall_fmap, Forall_forall. intros e He. apply list_elem_of_lookup in He as [h Hh].
  cbn. rewrite (wf_blocks0 h e Hh). lia.
Qed.

(** What claiming the run leaves behind. *)
Record claimed (s s' : driver) (g : nat) (d : EfsBlockGroupDesc) (bl : list Z) (n : nat) : Prop := {
  cl_wf : wf s';
  cl_used : ∀ x, 0 <= x → block_used s' x = bool_decide (x ∈ bl) || block_used s x;
  cl_count : free_blocks s' = free_blocks s - Z.of_nat n;
  cl_journaled : page_of s (block_bitmap_block d) ∈ enrolled s';
  cl_revoked : revoked s' = revoked s
}.

Lemma claim_run_spec s g d bit len :
  wf s → bgd_table s !! g = Some d → (bit + len <= blocks_per_group s)%nat →
  free_range (block_bitmap s d) bit len →
  let start := Z.of_nat g * Z.of_nat (blocks_per_group s) + Z.of_nat bit in
  ∃ r s', claim_run page_io g (block_bitmap_block d) (block_bitmap s d) bit len s = Ret (r, s') ∧
    ((r = Err Io ∧ pages s' = pages s ∧ page_io (page_of s (block_bitmap_block d)) = false) ∨
     (r = Ok (seqZ start (Z.of_nat len)) ∧ claimed s s' g d (seqZ start (Z.of_nat len)) len)).
Proof.
  intros Hwf Hd Hb Hr start. destruct (wf_pages s Hwf (page_of s (block_bitmap_block d))) as [Hl Hbytes].
  pose proof (wf_bpg s Hwf) as Hbpg. pose proof (free_count_bound s g d Hwf Hd) as Hcnt.
  destruct (set_bits_spec len (block_bitmap s d) bit) as (bm & Hset & Hlen & Hused).
  { unfold block_bitmap. rewrite Hl. lia. }
  pose proof (set_bits_bytes _ _ _ _ Hbytes Hset) as Hbm.
  pose proof (nfree_range len (used (block_bitmap s d)) (used bm) (blocks_per_group s) bit
                ltac:(lia) Hr (λ c _, Hused c)) as Hn.
  pose proof (wf_blocks s Hwf g d Hd) as Hfb.
  unfold claim_run. run. rewrite Hset, Hd. unfold sub64.
  replace (Z.of_nat len <=? free_blocks_count d) with true by lia.
  replace (Z.of_nat len <=? free_blocks s) with true by lia.
  unfold write_block. run. rewrite write_full_page by (rewrite Hlen; apply Hl).
  change (page_of (set_table s _ _ _)) with (page_of s).
  destruct (page_io (page_of s (block_bitmap_block d))) eqn:Eio.
  2: { eexists _, _. split; [done|]. by left. }
  edestruct (enroll_counters_run g) as [en ->]. eexists _, _. split; [done|]. right. split; [done|].
  set (s' := mk_driver _ _ _ _ _ _ _ _ _).
  assert (Es : s' = update_blocks s g d bm (free_blocks_count d - Z.of_nat len)
    (free_blocks s - Z.of_nat len) (en ++ page_of s (block_bitmap_block d) :: enrolled s) (revoked s)) by done.
  clearbody s'. subst s'. split; try done.
  - apply update_blocks_wf; try done; [by rewrite Hlen|lia|lia].
  - intros x Hx. rewrite block_used_update by done.
    pose proof (join_block (blocks_per_group s) x ltac:(lia) Hx) as [Hj Hk].
    case_decide as Eg.
    + rewrite Hused. unfold block_used. rewrite Eg, Hd. f_equal.
      rewrite Eg in Hj. destruct (Nat.leb_spec bit (Z.to_nat (x mod Z.of_nat (blocks_per_group s)))),
        (Nat.ltb_spec (Z.to_nat (x mod Z.of_nat (blocks_per_group s))) (bit + len)); cbn [andb]; symmetry;
        (apply bool_decide_eq_true || apply bool_decide_eq_false); rewrite elem_of_seqZ; lia.
    + rewrite bool_decide_eq_false_2; [done|]. rewrite elem_of_seqZ. intros Hin. apply Eg.
      apply (split_block g (blocks_per_group s) (Z.to_nat (x - start) + bit)); lia.
  - apply elem_of_app. right. left.
Qed.

(** What an allocation promises. *)
Definition alloc_post (s : driver) (want : nat) (goal : option Z) (r : result Error (list Z)) (s' : driver) : Prop :=
  match r with
  | Ok bl =>
      ∃ start n, bl = seqZ start (Z.of_nat n) ∧ (1 <= n <= want)%nat ∧ 0 <= start ∧
        (∀ x, x ∈ bl → block_used s x = false) ∧
        wf s' ∧ (∀ x, 0 <= x → block_used s' x = bool_decide (x ∈ bl) || block_used s x) ∧
        free_blocks s' = free_blocks s - Z.of_nat n ∧
        (∀ b, goal = Some b → 0 <= b → block_used s b = false → start = b)
  | Err NoSpace => s' = s ∧ ∀ x, 0 <= x → block_used s x = true
  | Err Io => pages s' = pages s ∧ ∃ p, page_io p = false
  | Err Corrupted => False
  end.

Lemma claim_post s g d bit len want goal :
  wf s → bgd_table s !! g = Some d → (1 <= len <= want)%nat → (bit + len <= blocks_per_group s)%nat →
  free_range (block_bitmap s d) bit len →
  (∀ b, goal = Some b → 0 <= b → block_used s b = false →
     Z.of_nat g * Z.of_nat (blocks_per_group s) + Z.of_nat bit = b) →
  ∃ r s', claim_run page_io g (block_bitmap_block d) (block_bitmap s d) bit len s = Ret (r, s') ∧
    alloc_post s want goal r s'.
Proof.
  intros Hwf Hd Hlen Hb Hr Hgoal. pose proof (wf_bpg s Hwf).
  destruct (claim_run_spec s g d bit len Hwf Hd Hb Hr) as (r & s' & -> & [(-> & Hp & Hio)|(-> & [])]);
    (eexists _, _; split; [done|]); cbn [alloc_post]; [by eauto|].
  eexists _, len. split_and!; try done; try lia.
  intros x Hx. apply elem_of_seqZ in Hx. unfold block_used.
  destruct (split_block g (blocks_per_group s)
    (bit + Z.to_nat (x - (Z.of_nat g * Z.of_nat (blocks_per_group s) + Z.of_nat bit))) x) as [-> ->]; [lia..|].
  rewrite Hd. apply Hr. lia.
Qed.

Lemma full_group s g d x :
  wf s → bgd_table s !! g = Some d → free_blocks_count d = 0 → 0 <= x →
  Z.to_nat (x / Z.of_nat (blocks_per_group s)) = g → block_used s x = true.
Proof.
  intros Hwf Hd Hz Hx Hg. unfold block_used. rewrite Hg, Hd.
  pose proof (wf_bpg s Hwf). pose proof (wf_blocks s Hwf g d Hd) as Hc.
  destruct (join_block (blocks_per_group s) x ltac:(lia) Hx) as [_ Hk].
  apply (proj2 (nfree_zero _ (blocks_per_group s))); [lia|done].
Qed.

Lemma first_fit_spec s want first goal :
  wf s → (0 < want)%nat → ∀ todo i,
  (i + todo = length (bgd_table s))%nat →
  (∀ i' d, (i' < i)%nat → bgd_table s !! ((first + i') mod length (bgd_table s))%nat = Some d →
     free_blocks_count d = 0) →
  (∀ b, goal = Some b → 0 <= b → block_used s b = true) →
  ∃ r s', first_fit page_io want (Nat.min (blocks_per_group s) (BLOCK_SIZE4K * 8)) first i todo s = Ret (r, s') ∧
    alloc_post s want goal r s'.
Proof.
  intros Hwf Hw. pose proof (wf_bpg s Hwf) as Hbpg.
  induction todo as [|todo IH]; intros i Hi Hprev Hgoal; cbn [first_fit].
  - eexists _, _. split; [done|]. split; [done|]. intros x Hx.
    destruct (Nat.lt_ge_cases (Z.to_nat (x / Z.of_nat (blocks_per_group s))) (length (bgd_table s))) as [Hlt|Hge].
    2: { unfold block_used. by rewrite lookup_ge_None_2. }
    set (gc := length (bgd_table s)) in *. set (g := Z.to_nat (x / _)) in *.
    destruct (lookup_lt_is_Some_2 (bgd_table s) g Hlt) as [d Hd].
    assert (Hcyc : ∃ i', (i' < gc)%nat ∧ ((first + i') mod gc)%nat = g).
    { exists ((g + (gc - first mod gc)) mod gc)%nat. split; [apply Nat.mod_upper_bound; lia|].
      rewrite Nat.Div0.add_mod_idemp_r, <- Nat.Div0.add_mod_idemp_l.
      pose proof (Nat.mod_upper_bound first gc).
      replace (first mod gc + (g + (gc - first mod gc)))%nat with (g + 1 * gc)%nat by lia.
      rewrite Nat.Div0.mod_add. by apply Nat.mod_small. }
    destruct Hcyc as (i' & Hi' & Eg). apply (full_group s g d); try done.
    apply (Hprev i'); [lia|]. by rewrite Eg.
  - run. set (gc := length (bgd_table s)) in *. set (g := ((first + i) mod gc)%nat).
    destruct (lookup_lt_is_Some_2 (bgd_table s) g) as [d Hd]; [apply Nat.mod_upper_bound; lia|]. rewrite Hd.
    pose proof (free_count_bound s g d Hwf Hd). pose proof (wf_blocks s Hwf g d Hd) as Hc.
    destruct (Z.eqb_spec (free_blocks_count d) 0) as [Ez|Ez].
    { apply IH; [lia| |done]. intros i' e Hi' He. destruct (Nat.eq_dec i' i) as [->|]; [|by apply (Hprev i'); [lia|]].
      fold g in He. by simplify_eq. }
    unfold read_block. run. destruct (page_io _) eqn:Eio; [|eexists _, _; split; [done|split; by eauto]].
    fold (block_bitmap s d). rewrite Nat.min_l by lia.
    destruct (wf_pages s Hwf (page_of s (block_bitmap_block d))) as [Hl _]. fold (block_bitmap s d) in Hl.
    destruct (find_free_run_spec (block_bitmap s d) (blocks_per_group s)
      (Nat.min want (Z.to_nat (free_blocks_count d)))) as (r & -> & Hr); [lia..|].
    destruct r as [[bit len]|]; cbn [run_answer] in Hr.
    + destruct Hr as (? & ? & ? & _). apply claim_post; try done; [lia|].
      intros b Hb Hb0 Hbu. by rewrite (Hgoal b) in Hbu.
    + apply nfree_zero in Hr. lia.
Qed.

(** C16 Block allocation is safe and complete on a consistent filesystem: it
    never panics and never underflows a counter; it returns between one and the
    wanted number of consecutive blocks, all free before and used after, with
    every other block unchanged and the counters again in step with the
    bitmaps; a free goal block is honoured; and it reports no space only when
    every block is taken. On an I/O error no bitmap has changed. *)
Theorem alloc_blocks_correct s want goal :
  wf s → (0 < want)%nat → (∀ b, goal = Some b → 0 <= b) →
  ∃ r s', alloc_blocks page_io want goal s = Ret (r, s') ∧ alloc_post s want goal r s'.
Proof.
  intros Hwf Hw Hg0. pose proof (wf_bpg s Hwf) as Hbpg. unfold alloc_blocks. run.
  rewrite (proj2 (Nat.eqb_neq want 0)) by lia.
  destruct goal as [b|]; cbn [goal_group].
  2: { apply first_fit_spec; try done. intros; lia. }
  specialize (Hg0 b eq_refl). rewrite (proj2 (Nat.eqb_neq (blocks_per_group s) 0)) by lia.
  destruct (join_block (blocks_per_group s) b ltac:(lia) Hg0) as [Hj Hk].
  set (g := Z.to_nat (b / _)) in *. set (bit := Z.to_nat (b mod _)) in *.
  destruct (Nat.ltb_spec g (length (bgd_table s))) as [Hlt|Hge].
  2: { apply first_fit_spec; try done; [intros; lia|]. intros b' [= <-] _. unfold block_used. fold g.
       by rewrite lookup_ge_None_2. }
  destruct (lookup_lt_is_Some_2 (bgd_table s) g Hlt) as [d Hd]. rewrite Hd.
  pose proof (free_count_bound s g d Hwf Hd). pose proof (wf_blocks s Hwf g d Hd) as Hc.
  rewrite (proj2 (Nat.ltb_lt bit (Nat.min (blocks_per_group s) (BLOCK_SIZE4K * 8)))) by lia.
  rewrite andb_true_r. destruct (Z.ltb_spec 0 (free_blocks_count d)).
  2: { apply first_fit_spec; try done; [intros; lia|]. intros b' [= <-] _.
       apply (full_group s g d); try done. lia. }
  unfold read_block. run. destruct (page_io _) eqn:Eio; [|eexists _, _; split; [done|split; by eauto]].
  fold (block_bitmap s d).
  destruct (wf_pages s Hwf (page_of s (block_bitmap_block d))) as [Hl _]. fold (block_bitmap s d) in Hl.
  destruct (free_run_at_spec (block_bitmap s d) (Nat.min (blocks_per_group s) (BLOCK_SIZE4K * 8))
    (Nat.min want (Z.to_nat (free_blocks_count d))) bit) as (len & -> & ? & ? & Hfr & Hlen0); [lia..|].
  destruct (Nat.ltb_spec 0 len).
  - apply claim_post; try done; [lia|lia|]. by intros b' [= <-] _ _.
  - apply first_fit_spec; try done; [intros; lia|]. intros b' [= <-] _.
    unfold block_used. fold g bit. rewrite Hd. apply Hlen0; lia.
Qed.

Lemma clear_in_bitmap s g d bit :
  wf s → bgd_table s !! g = Some d → (bit < blocks_per_group s)%nat →
  used (block_bitmap s d) bit = true →
  ∃ bm, clear_bit (block_bitmap s d) bit = Ret bm ∧ length bm = BLOCK_SIZE4K ∧ Forall byte_ok bm ∧
    (∀ c, used bm c = if (c =? bit)%nat then false else used (block_bitmap s d) c) ∧
    Z.of_nat (nfree (used bm) (blocks_per_group s)) = free_blocks_count d + 1 ∧
    free_blocks_count d + 1 <= Z.of_nat (blocks_per_group s) ∧
    free_blocks s + 1 <= U64_MAX.
Proof.
  intros Hwf Hd Hb Hu. pose proof (wf_bpg s Hwf).
  destruct (wf_pages s Hwf (page_of s (block_bitmap_block d))) as [Hl Hbytes]. fold (block_bitmap s d) in *.
  destruct (clear_bit_spec (block_bitmap s d) bit) as (bm & Hc & Hlen & Hused); [lia|].
  pose proof (nfree_update (used (block_bitmap s d)) (used bm) (blocks_per_group s) bit false
    Hb Hu (λ c _, Hused c)) as Hn. cbn in Hn.
  pose proof (nfree_le (used bm) (blocks_per_group s)). pose proof (wf_blocks s Hwf g d Hd) as Hfb.
  exists bm. split_and!; try done; [by rewrite Hlen|by eapply clear_bit_bytes|lia|lia|].
  destruct Hwf. rewrite wf_free_blocks0.
  pose proof (zsum_bound_lt (free_blocks_count <$> bgd_table s) (Z.of_nat (blocks_per_group s))) as Hz.
  rewrite length_fmap in Hz. enough (zsum (free_blocks_count <$> bgd_table s) <
    Z.of_nat (length (bgd_table s)) * Z.of_nat (blocks_per_group s)) by lia.
  apply (Hz ltac:(apply Forall_fmap, Forall_forall; intros e He; apply list_elem_of_lookup in He as [h Hh];
    cbn; rewrite (wf_blocks0 h e Hh); pose proof (nfree_le (used (block_bitmap s e)) (blocks_per_group s)); lia)
    g (free_blocks_count d)); [by rewrite list_lookup_fmap, Hd|lia].
Qed.

(** Freeing a used block returns exactly that block: its bit clears, every
    other block keeps its state, the counters stay in step with the bitmaps
    without overflow, and the block's page is revoked in the same transaction so
    that a journal replay does not write it. *)
Theorem free_block_correct s b :
  wf s → 0 <= b → block_used s b = true →
  (Z.to_nat (b / Z.of_nat (blocks_per_group s)) < length (bgd_table s))%nat →
  ∃ r s', free_block page_io b s = Ret (r, s') ∧
    match r with
    | Ok _ => wf s' ∧ (∀ x, 0 <= x → block_used s' x = if x =? b then false else block_used s x) ∧
              free_blocks s' = free_blocks s + 1 ∧ revoked s' = page_of s b :: revoked s
    | Err e => e = Io ∧ s' = s
    end.
Proof.
  intros Hwf Hb Hu Hlt. pose proof (wf_bpg s Hwf) as Hbpg. unfold free_block. run.
  rewrite (proj2 (Nat.eqb_neq (blocks_per_group s) 0)) by lia.
  destruct (join_block (blocks_per_group s) b ltac:(lia) Hb) as [Hj Hk]. unfold block_used in Hu.
  set (g := Z.to_nat (b / _)) in *. set (bit := Z.to_nat (b mod _)) in *.
  rewrite (proj2 (Nat.leb_gt _ _) Hlt).
  destruct (lookup_lt_is_Some_2 (bgd_table s) g Hlt) as [d Hd]. rewrite Hd in *.
  unfold read_block. run. destruct (page_io (page_of s (block_bitmap_block d))) eqn:Eio.
  2: { eexists _, _. done. }
  fold (block_bitmap s d).
  destruct (clear_in_bitmap s g d bit Hwf Hd Hk Hu) as (bm & -> & Hlen & Hbm & Hused & Hn & Hmax & Hmax').
  unfold write_block. run. rewrite Eio, write_full_page by done.
  cbn [add_enrolled set_page bgd_table free_blocks free_inodes]. rewrite Hd. unfold add64.
  rewrite (proj2 (Z.leb_le (free_blocks_count d + 1) U64_MAX))
    by (unfold BLOCK_SIZE4K in Hbpg; unfold U64_MAX; lia).
  cbn [add_enrolled set_page bgd_table free_blocks free_inodes].
  rewrite (proj2 (Z.leb_le (free_blocks s + 1) U64_MAX)) by lia.
  edestruct (enroll_counters_run g) as [en ->]. eexists _, _. split; [done|]. cbn beta iota.
  set (s' := add_revoked _ _).
  assert (Es : s' = update_blocks s g d bm (free_blocks_count d + 1) (free_blocks s + 1)
    (en ++ page_of s (block_bitmap_block d) :: enrolled s) (page_of s b :: revoked s)) by done.
  clearbody s'. subst s'. split_and!; try done.
  - apply update_blocks_wf; try done; lia.
  - intros x Hx. rewrite block_used_update by done.
    destruct (join_block (blocks_per_group s) x ltac:(lia) Hx) as [Hjx _].
    case_decide as Eg.
    + rewrite Hused. unfold block_used. rewrite Eg, Hd.
      destruct (Nat.eqb_spec (Z.to_nat (x mod Z.of_nat (blocks_per_group s))) bit) as [Eb|Eb], (Z.eqb_spec x b); try done.
      * rewrite Eg, Eb in Hjx. lia.
      * subst x. done.
    + destruct (Z.eqb_spec x b) as [->|]; [done|done].
Qed.

Definition inode_post (s : driver) (r : result Error Z) (s' : driver) : Prop :=
  match r with
  | Ok ino =>
      1 <= ino ∧ inode_used s ino = false ∧ (∀ x, 1 <= x < ino → inode_used s x = true) ∧
      wf s' ∧ (∀ x, 1 <= x → inode_used s' x = (x =? ino) || inode_used s x) ∧
      free_inodes s' = free_inodes s - 1
  | Err NoSpace => s' = s ∧ ∀ x, 1 <= x → inode_used s x = true
  | Err Io => pages s' = pages s ∧ ∃ p, page_io p = false
  | Err Corrupted => False
  end.

Lemma inode_count_bound s g d :
  wf s → bgd_table s !! g = Some d → 0 <= free_inodes_count d <= free_inodes s.
Proof.
  intros [] Hd. rewrite (wf_inodes0 g d Hd) at 1. split; [lia|]. rewrite wf_free_inodes0.
  apply (zsum_elem_le _) with g; [|by rewrite list_lookup_fmap, Hd].
  apply Forall_fmap, Forall_forall. intros e He. apply list_elem_of_lookup in He as [h Hh].
  cbn. rewrite (wf_inodes0 h e Hh). lia.
Qed.

Lemma full_inode_group s g d x :
  wf s → bgd_table s !! g = Some d → free_inodes_count d = 0 → 1 <= x →
  Z.to_nat ((x - 1) / Z.of_nat (inodes_per_group s)) = g → inode_used s x = true.
Proof.
  intros Hwf Hd Hz Hx Hg. unfold inode_used. rewrite Hg, Hd.
  pose proof (wf_ipg s Hwf). pose proof (wf_inodes s Hwf g d Hd) as Hc.
  destruct (join_block (inodes_per_group s) (x - 1) ltac:(lia) ltac:(lia)) as [_ Hk].
  apply (proj2 (nfree_zero _ (inodes_per_group s))); [lia|done].
Qed.

(** Taking bit [bit] of group [g], the first clear one. *)
Lemma take_inode s g d bit bm en :
  wf s → bgd_table s !! g = Some d → (bit < inodes_per_group s)%nat →
  used (inode_bitmap s d) bit = false →
  (∀ i, (i < bit)%nat → used (inode_bitmap s d) i = true) →
  (∀ h e, (h < g)%nat → bgd_table s !! h = Some e → free_inodes_count e = 0) →
  set_bit (inode_bitmap s d) bit = Ret bm →
  inode_post s (Ok (Z.of_nat g * Z.of_nat (inodes_per_group s) + Z.of_nat bit + 1))
    (update_inodes s g d bm (free_inodes_count d - 1) (free_inodes s - 1) en (revoked s)).
Proof.
  intros Hwf Hd Hb Hu Hfirst Hprev Hset. pose proof (wf_ipg s Hwf) as Hipg.
  destruct (wf_pages s Hwf (page_of s (inode_bitmap_block d))) as [Hl Hbytes]. fold (inode_bitmap s d) in *.
  destruct (set_bit_spec (inode_bitmap s d) bit) as (bm' & Hset' & Hlen & Hused); [lia|].
  rewrite Hset in Hset'. injection Hset' as <-.
  pose proof (set_bit_bytes _ _ _ Hbytes Hset) as Hbm.
  pose proof (nfree_update (used (inode_bitmap s d)) (used bm) (inodes_per_group s) bit true
    Hb Hu (λ c _, Hused c)) as Hn. cbn in Hn. pose proof (wf_inodes s Hwf g d Hd) as Hfi.
  set (ino := Z.of_nat g * Z.of_nat (inodes_per_group s) + Z.of_nat bit + 1).
  destruct (split_block g (inodes_per_group s) bit (ino - 1)) as [Eg Eb]; [lia..|].
  cbn [inode_post]. split_and!; try done; try lia.
  - unfold inode_used. by rewrite Eg, Eb, Hd.
  - intros x Hx. destruct (join_block (inodes_per_group s) (x - 1) ltac:(lia) ltac:(lia)) as [Hj Hk].
    destruct (Nat.lt_trichotomy (Z.to_nat ((x - 1) / Z.of_nat (inodes_per_group s))) g) as [Hlt|[He|Hgt]].
    + pose proof (lookup_lt_Some _ _ _ Hd).
      destruct (lookup_lt_is_Some_2 (bgd_table s) _ (Nat.lt_trans _ _ _ Hlt H)) as [e He].
      eapply full_inode_group; [done|exact He|by eapply Hprev|lia|done].
    + unfold inode_used. rewrite He, Hd. apply Hfirst. rewrite He in Hj. lia.
    + nia.
  - apply update_inodes_wf; try done; [by rewrite Hlen|lia|lia].
  - intros x Hx. rewrite inode_used_update by done.
    destruct (join_block (inodes_per_group s) (x - 1) ltac:(lia) ltac:(lia)) as [Hj _].
    case_decide as E.
    + rewrite Hused. unfold inode_used. rewrite E, Hd. rewrite E in Hj.
      destruct (Nat.eqb_spec (Z.to_nat ((x - 1) mod Z.of_nat (inodes_per_group s))) bit) as [E'|],
        (Z.eqb_spec x ino); try done; lia.
    + destruct (Z.eqb_spec x ino) as [->|]; [by rewrite Eg in E|done].
Qed.

Lemma alloc_inode_from_spec s : wf s → ∀ todo g,
  (g + todo = length (bgd_table s))%nat →
  (∀ h e, (h < g)%nat → bgd_table s !! h = Some e → free_inodes_count e = 0) →
  ∃ r s', alloc_inode_from page_io g todo s = Ret (r, s') ∧ inode_post s r s'.
Proof.
  intros Hwf. pose proof (wf_ipg s Hwf) as Hipg.
  induction todo as [|todo IH]; intros g Hg Hprev; cbn [alloc_inode_from].
  - eexists _, _. split; [done|]. split; [done|]. intros x Hx. unfold inode_used.
    destruct (bgd_table s !! _) as [e|] eqn:E; [|done]. pose proof (lookup_lt_Some _ _ _ E) as Hlt.
    rewrite <- Hg, Nat.add_0_r in Hlt.
    pose proof (full_inode_group s _ e x Hwf E (Hprev _ _ Hlt E) Hx eq_refl) as Hf.
    unfold inode_used in Hf. by rewrite E in Hf.
  - run. destruct (lookup_lt_is_Some_2 (bgd_table s) g) as [d Hd]; [lia|]. rewrite Hd.
    pose proof (inode_count_bound s g d Hwf Hd). pose proof (wf_inodes s Hwf g d Hd) as Hc.
    destruct (Z.eqb_spec (free_inodes_count d) 0) as [Ez|Ez].
    { apply IH; [lia|]. intros h e Hh He. destruct (Nat.eq_dec h g) as [->|]; [by simplify_eq|].
      eapply Hprev; [|done]. lia. }
    unfold read_block. run. destruct (page_io _) eqn:Eio; [|eexists _, _; split; [done|split; by eauto]].
    fold (inode_bitmap s d). rewrite Nat.min_l by lia.
    destruct (wf_pages s Hwf (page_of s (inode_bitmap_block d))) as [Hl Hbytes]. fold (inode_bitmap s d) in *.
    rewrite find_free_bit_spec by (done || lia).
    pose proof (first_clear_spec (inode_bitmap s d) (inodes_per_group s) 0) as Hfc.
    destruct (first_clear _ _ _) as [bit|].
    + destruct Hfc as (Hb & Hu & Hfirst).
      destruct (set_bit_spec (inode_bitmap s d) bit) as (bm & Hset & Hlen & _); [lia|]. rewrite Hset.
      unfold sub64. rewrite !(proj2 (Z.leb_le 1 _)) by lia. unfold write_block. run.
      change (page_of (set_table s _ _ _)) with (page_of s). rewrite Eio, write_full_page by (by rewrite Hlen).
      edestruct (enroll_counters_run g) as [en ->]. eexists _, _. split; [done|].
      apply (take_inode s g d bit bm (en ++ page_of s (inode_bitmap_block d) :: enrolled s)); try done; try lia.
      intros i Hi. apply Hfirst. lia.
    + assert (Hz : nfree (used (inode_bitmap s d)) (inodes_per_group s) = O); [|lia].
      apply nfree_zero. intros c Hcc. apply Hfc. lia.
Qed.

(** Inode allocation is safe and complete on a consistent filesystem: it
    returns the lowest free inode number, marks exactly that inode used, keeps
    the counters in step with the bitmaps, and reports no space only when every
    inode is taken. *)
Theorem alloc_inode_correct s :
  wf s → ∃ r s', alloc_inode page_io s = Ret (r, s') ∧ inode_post s r s'.
Proof. intros Hwf. unfold alloc_inode. run. apply alloc_inode_from_spec; [done|done|intros; lia]. Qed.
End Specs.

(** A small consistent filesystem: one group of 16 blocks and 8 inodes, blocks
    0 to 5 and inode 1 taken. *)
Definition sample_bgd : EfsBlockGroupDesc := mk_bgd 3 4 5 10 7 1 0 [].
Definition sample_driver : driver :=
  mk_driver 2048 16 8 [sample_bgd] 10 7
    (<[259 := 63 :: replicate (Z.to_nat 4095) 0]> (<[260 := 1 :: replicate (Z.to_nat 4095) 0]> ∅)) [] [].

Lemma bitmap_page_ok b : byte_ok b → length (b :: replicate (Z.to_nat 4095) 0) = BLOCK_SIZE4K ∧ Forall byte_ok (b :: replicate (Z.to_nat 4095) 0).
Proof.
  intros Hb. split; [vm_compute; reflexivity|]. constructor; [done|].
  apply Forall_replicate. vm_compute. split; congruence.
Qed.

Lemma sample_driver_wf : wf sample_driver.
Proof.
  split.
  - unfold BLOCK_SIZE4K. cbn [sample_driver blocks_per_group]. lia.
  - unfold BLOCK_SIZE4K. cbn [sample_driver inodes_per_group]. lia.
  - intros p. unfold page_data, sample_driver. cbn [pages].
    destruct (decide (p = 259)) as [->|]; [rewrite lookup_insert_eq; apply bitmap_page_ok; vm_compute; split; congruence|].
    rewrite lookup_insert_ne by done.
    destruct (decide (p = 260)) as [->|]; [rewrite lookup_insert_eq; apply bitmap_page_ok; vm_compute; split; congruence|].
    rewrite lookup_insert_ne by done. rewrite lookup_empty. cbn [default].
    split; [apply length_replicate|]. apply Forall_replicate. vm_compute. split; congruence.
  - unfold bitmap_blocks. cbn. repeat constructor; set_solver.
  - intros [|g] d E; [|done]. injection E as <-. vm_compute. reflexivity.
  - intros [|g] d E; [|done]. injection E as <-. vm_compute. reflexivity.
  - reflexivity.
  - reflexivity.
  - vm_compute. congruence.
  - vm_compute. congruence.
Qed.

Lemma alloc_blocks_correct_witness :
  ∃ r s', alloc_blocks (λ _, true) 3 (Some 8) sample_driver = Ret (r, s') ∧
    alloc_post (λ _, true) sample_driver 3 (Some 8) r s' ∧ r = Ok [8; 9; 10].
Proof.
  destruct (alloc_blocks_correct (λ _, true) sample_driver 3 (Some 8)) as (r & s' & E & Hp);
    [apply sample_driver_wf|lia|by intros b [= <-]|].
  exists r, s'. split_and!; [done|done|]. vm_compute in E. by injection E as <- _.
Defined.

Lemma free_block_correct_witness :
  ∃ r s', free_block (λ _, true) 5 sample_driver = Ret (r, s') ∧
    match r with
    | Ok _ => wf s' ∧ (∀ x, 0 <= x → block_used s' x = if x =? 5 then false else block_used sample_driver x) ∧
              free_blocks s' = free_blocks sample_driver + 1 ∧
              revoked s' = page_of sample_driver 5 :: revoked sample_driver
    | Err e => e = Io ∧ s' = sample_driver
    end.
Proof.
  apply (free_block_correct (λ _, true) sample_driver 5); [apply sample_driver_wf|lia|vm_compute; reflexivity|vm_compute; lia].
Defined.

Lemma alloc_inode_correct_witness :
  ∃ r s', alloc_inode (λ _, true) sample_driver = Ret (r, s') ∧
    inode_post (λ _, true) sample_driver r s' ∧ r = Ok 2.
Proof.
  destruct (alloc_inode_correct (λ _, true) sample_driver sample_driver_wf) as (r & s' & E & Hp).
  exists r, s'. split_and!; [done|done|]. vm_compute in E. by injection E as <- _.
Defined.

End EfsAlloc.
