(* ===== verification/EfsDir.v ===== *)
(** * Directory blocks (kernel/src/fs/efs/mod.rs, libs/efs-common/src/dir_entry.rs)

    Parsing, lookup, insertion and removal of the variable-length records of an
    extent-mapped directory, over the directory's bytes. *)

From S2P Require Import Prelude.

Module EfsDir.

(** ** The code *)

Definition DIR_ENTRY_HEADER_SIZE : nat := 12.

Record EfsDirEntryHeader := mk_hdr {
  inode : Z;
  rec_len : Z;
  name_len : Z;
  file_type : Z
}.

(** [(12 + name_len + 3) & !3] on [u16]. *)
Definition dir_entry_min_size (name_len : Z) : nat :=
  Z.to_nat (Z.land (12 + name_len + 3) (Z.lxor U16_MAX 3)).

Definition ent_hdr_bytes (h : EfsDirEntryHeader) : list Z :=
  le_bytes 8 (inode h) ++ le_bytes 2 (rec_len h) ++ le_bytes 1 (name_len h) ++ le_bytes 1 (file_type h).

Definition read_hdr (data : list Z) (off : nat) : EfsDirEntryHeader :=
  mk_hdr (le_at off 8 data) (le_at (off + 8) 2 data) (le_at (off + 10) 1 data) (le_at (off + 11) 1 data).

Definition bytes_eqb (a b : list Z) : bool := bool_decide (a = b).

Section Scan.
(** [core::str::from_utf8(bytes).is_ok()] *)
Context (utf8 : list Z → bool).

(** A turn advances by at least a header, so [data.len() + 1] turns are
    enough. *)
Fixpoint parse_loop (fuel : nat) (data : list Z) (offset : nat) : list (list Z * Z * Z) :=
  match fuel with
  | O => []
  | S fuel' =>
      if (offset + DIR_ENTRY_HEADER_SIZE <=? length data)%nat then
        let hdr := read_hdr data offset in
        let len := Z.to_nat (rec_len hdr) in
        if (len <? DIR_ENTRY_HEADER_SIZE)%nat || (length data <? offset + len)%nat then []
        else
          let rest := parse_loop fuel' data (offset + len) in
          if negb (inode hdr =? 0) then
            let name_start := (offset + DIR_ENTRY_HEADER_SIZE)%nat in
            let name_end := (name_start + Z.to_nat (name_len hdr))%nat in
            if (name_end <=? length data)%nat then
              let name := sub name_start (Z.to_nat (name_len hdr)) data in
              if utf8 name then (name, inode hdr, file_type hdr) :: rest else rest
            else rest
          else rest
      else []
  end.

Definition parse_dir_entries_from_bytes (data : list Z) : list (list Z * Z * Z) :=
  parse_loop (S (length data)) data 0.
End Scan.

(** The scan of [lookup_in_dir]. *)
Fixpoint lookup_loop (fuel : nat) (data name : list Z) (offset : nat) : option (Z * Z) :=
  match fuel with
  | O => None
  | S fuel' =>
      if (offset + DIR_ENTRY_HEADER_SIZE <=? length data)%nat then
        let hdr := read_hdr data offset in
        let len := Z.to_nat (rec_len hdr) in
        if (len <? DIR_ENTRY_HEADER_SIZE)%nat || (length data <? offset + len)%nat then None
        else
          let ns := (offset + DIR_ENTRY_HEADER_SIZE)%nat in
          let ne := (ns + Z.to_nat (name_len hdr))%nat in
          if negb (inode hdr =? 0) && (Z.to_nat (name_len hdr) =? length name)%nat
             && (ne <=? length data)%nat && bytes_eqb (sub ns (Z.to_nat (name_len hdr)) data) name
          then Some (inode hdr, file_type hdr)
          else lookup_loop fuel' data name (offset + len)
      else None
  end.

Definition lookup_in_dir (data name : list Z) : option (Z * Z) :=
  lookup_loop (S (length data)) data name 0.

(** A record's minimum length; a deleted slot can be reused entirely. *)
Definition min_len (hdr : EfsDirEntryHeader) : nat :=
  if negb (inode hdr =? 0) then dir_entry_min_size (name_len hdr) else O.

(** The slack scan of [add_dir_entry]. *)
Fixpoint find_slack (fuel : nat) (data : list Z) (needed offset : nat) : option nat :=
  match fuel with
  | O => None
  | S fuel' =>
      if (offset + DIR_ENTRY_HEADER_SIZE <=? length data)%nat then
        let hdr := read_hdr data offset in
        let len := Z.to_nat (rec_len hdr) in
        if (len <? DIR_ENTRY_HEADER_SIZE)%nat then None
        else if (needed <=? len - min_len hdr)%nat then Some offset
        else find_slack fuel' data needed (offset + len)
      else None
  end.

Definition write_dir_entry (buf : list Z) (h : EfsDirEntryHeader) (name : list Z) : outcome (list Z) :=
  buf ← write_at 0 (ent_hdr_bytes h) buf;
  let name_end := (DIR_ENTRY_HEADER_SIZE + Z.to_nat (name_len h))%nat in
  if (name_end <=? length buf)%nat then
    if (length name =? Z.to_nat (name_len h))%nat then write_at DIR_ENTRY_HEADER_SIZE name buf
    else Panic
  else Ret buf.

(** [write_dir_entry(&mut data[off..off + n], ..)] *)
Definition write_entry_at (data : list Z) (off n : nat) (h : EfsDirEntryHeader) (name : list Z)
    : outcome (list Z) :=
  if (off + n <=? length data)%nat then
    buf ← write_dir_entry (sub off n data) h name;
    Ret (splice off buf data)
  else Panic.

(** [data[off + 8..off + 10] = rec_len] *)
Definition set_rec_len (data : list Z) (off : nat) (n : Z) : outcome (list Z) :=
  write_at (off + 8) (le_bytes 2 n) data.

(** Insert at the record at [off], splitting it when it is live. *)
Definition split_entry (data : list Z) (off : nat) (entry_ino ftype : Z) (name : list Z)
    : outcome (list Z) :=
  let existing := read_hdr data off in
  let len := Z.to_nat (rec_len existing) in
  let nlen := wrap 8 (Z.of_nat (length name)) in
  if negb (inode existing =? 0) then
    let existing_min := dir_entry_min_size (name_len existing) in
    data ← set_rec_len data off (Z.of_nat existing_min);
    let remaining := (len - existing_min)%nat in
    write_entry_at data (off + existing_min) remaining
      (mk_hdr entry_ino (wrap 16 (Z.of_nat remaining)) nlen ftype) name
  else
    write_entry_at data off len (mk_hdr entry_ino (wrap 16 (Z.of_nat len)) nlen ftype) name.

(** The directory's bytes after [add_dir_entry]. *)
Definition add_dir_entry (block_size : nat) (data name : list Z) (entry_ino ftype : Z)
    : outcome (list Z) :=
  let nlen := wrap 8 (Z.of_nat (length name)) in
  let needed := dir_entry_min_size nlen in
  match find_slack (S (length data)) data needed 0 with
  | Some off => split_entry data off entry_ino ftype name
  | None =>
      let start := length data in
      write_entry_at (data ++ replicate block_size 0) start block_size
        (mk_hdr entry_ino (wrap 16 (Z.of_nat block_size)) nlen ftype) name
  end.

(** The walk of [find_prev_entry_len]; it advances by at least a header. *)
Fixpoint prev_len_loop (fuel : nat) (data : list Z) (end_offset off : nat) : nat :=
  match fuel with
  | O => O
  | S fuel' =>
      if (off <? end_offset)%nat then
        if (length data <? off + DIR_ENTRY_HEADER_SIZE)%nat then O
        else
          let len := Z.to_nat (le_at (off + 8) 2 data) in
          if (len <? DIR_ENTRY_HEADER_SIZE)%nat then O
          else
            let next := (off + len)%nat in
            if (next =? end_offset)%nat then len
            else if (end_offset <? next)%nat then O
            else prev_len_loop fuel' data end_offset next
      else O
  end.

Definition find_prev_entry_len (data : list Z) (end_offset block_size : nat) : nat :=
  let block_start := (end_offset / block_size * block_size)%nat in
  prev_len_loop (S end_offset) data end_offset block_start.

(** Delete the record at [offset] and merge it into the one before. *)
Definition erase_entry (block_size : nat) (data : list Z) (offset prev_end : nat) : outcome (list Z) :=
  let len := Z.to_nat (rec_len (read_hdr data offset)) in
  data ← write_at offset (replicate 8 0) data;
  if (0 <? prev_end)%nat then
    let prev_off := (prev_end - find_prev_entry_len data prev_end block_size)%nat in
    let prev_hdr := read_hdr data prev_off in
    set_rec_len data prev_off (wrap 16 (rec_len prev_hdr + Z.of_nat len))
  else Ret data.

Fixpoint remove_loop (fuel block_size : nat) (data name : list Z) (offset prev_end : nat)
    : outcome (option (list Z)) :=
  match fuel with
  | O => Ret None
  | S fuel' =>
      if (offset + DIR_ENTRY_HEADER_SIZE <=? length data)%nat then
        let hdr := read_hdr data offset in
        let len := Z.to_nat (rec_len hdr) in
        if (len <? DIR_ENTRY_HEADER_SIZE)%nat then Ret None
        else
          let name_start := (offset + DIR_ENTRY_HEADER_SIZE)%nat in
          let name_end := (name_start + Z.to_nat (name_len hdr))%nat in
          if negb (inode hdr =? 0) && (name_end <=? length data)%nat
             && bytes_eqb (sub name_start (Z.to_nat (name_len hdr)) data) name
          then data ← erase_entry block_size data offset prev_end; Ret (Some data)
          else remove_loop fuel' block_size data name (offset + len) (offset + len)
      else Ret None
  end.

(** The directory's bytes after [remove_dir_entry]; [None] is [FileNotFound]. *)
Definition remove_dir_entry (block_size : nat) (data name : list Z) : outcome (option (list Z)) :=
  remove_loop (S (length data)) block_size data name 0 0.

(** ** Directories as lists of records *)

(** One record: the header fields and the bytes after the header, of which the
    first [d_nlen] are the name when the record is live. *)
Record dent := mk_dent { d_ino : Z; d_nlen : Z; d_ft : Z; d_body : list Z }.

Definition d_len (d : dent) : nat := (DIR_ENTRY_HEADER_SIZE + length (d_body d))%nat.
Definition d_hdr (d : dent) : EfsDirEntryHeader :=
  mk_hdr (d_ino d) (Z.of_nat (d_len d)) (d_nlen d) (d_ft d).
Definition d_name (d : dent) : list Z := take (Z.to_nat (d_nlen d)) (d_body d).
Definition enc (d : dent) : list Z := ent_hdr_bytes (d_hdr d) ++ d_body d.
Definition live (d : dent) : bool := negb (d_ino d =? 0).

Record dent_ok (d : dent) : Prop := {
  do_ino : in_width 64 (d_ino d);
  do_nlen : byte_ok (d_nlen d);
  do_ft : byte_ok (d_ft d);
  do_len : Z.of_nat (d_len d) < 2 ^ 16;
  do_min : live d = true → (dir_entry_min_size (d_nlen d) <= d_len d)%nat
}.

(** A directory's bytes are its records, end to end. *)
Definition bytes (ds : list dent) : list Z := mjoin (enc <$> ds).

(** The abstract directory: its live entries in order, and lookup by name. *)
Definition entries (ds : list dent) : list (list Z * Z * Z) :=
  (λ d, (d_name d, d_ino d, d_ft d)) <$> filter (λ d, live d = true) ds.

Fixpoint dfind (ds : list dent) (name : list Z) : option (Z * Z) :=
  match ds with
  | [] => None
  | d :: ds' => if live d && bytes_eqb (d_name d) name then Some (d_ino d, d_ft d) else dfind ds' name
  end.

(** ** Reading records *)

Ltac hlia := unfold d_len, DIR_ENTRY_HEADER_SIZE in *; lia.

Lemma min_size_bounds n : byte_ok n →
  (DIR_ENTRY_HEADER_SIZE + Z.to_nat n <= dir_entry_min_size n <= DIR_ENTRY_HEADER_SIZE + Z.to_nat n + 3)%nat.
Proof.
  unfold byte_ok, dir_entry_min_size. intros Hn.
  assert (E : Z.land (12 + n + 3) (Z.lxor U16_MAX 3) = (12 + n + 3) / 4 * 4).
  { rewrite <- (Z.shiftl_mul_pow2 _ 2), <- (Z.shiftr_div_pow2 _ 2), <- Z.ldiff_ones_r by lia.
    apply Z.bits_inj'. intros i Hi. rewrite Z.land_spec, Z.lxor_spec, Z.ldiff_spec.
    change U16_MAX with (Z.ones 16). change 3 with (Z.ones 2) at 2. rewrite !Z.testbit_ones_nonneg by lia.
    destruct (Z.ltb_spec i 16); [by destruct (i <? 2)|].
    rewrite (Z.bits_above_log2 (12 + n + 3) i); [done|lia|].
    apply Z.lt_le_trans with 16; [|lia]. apply Z.log2_lt_pow2; lia. }
  rewrite E. pose proof (Z.div_mod (12 + n + 3) 4). pose proof (Z.mod_pos_bound (12 + n + 3) 4). hlia.
Qed.

Lemma length_ent_hdr_bytes h : length (ent_hdr_bytes h) = DIR_ENTRY_HEADER_SIZE.
Proof. unfold ent_hdr_bytes. by autorewrite with edos. Qed.

Lemma length_enc d : length (enc d) = d_len d.
Proof. unfold enc. by rewrite length_app, length_ent_hdr_bytes. Qed.

Lemma bytes_cons d ds : bytes (d :: ds) = enc d ++ bytes ds.
Proof. done. Qed.

Lemma bytes_app ds es : bytes (ds ++ es) = bytes ds ++ bytes es.
Proof. unfold bytes. by rewrite fmap_app, join_app. Qed.

Lemma le_at_app (pre l : list Z) k n : le_at (length pre + k) n (pre ++ l) = le_at k n l.
Proof. rewrite le_at_skip by lia. f_equal. lia. Qed.

Lemma le_at_app0 (pre l : list Z) n : le_at (length pre) n (pre ++ l) = le_at 0 n l.
Proof. rewrite le_at_skip by lia. f_equal. lia. Qed.

Lemma read_enc pre d post : dent_ok d → read_hdr (pre ++ enc d ++ post) (length pre) = d_hdr d.
Proof.
  intros []. unfold read_hdr. rewrite le_at_app0, !le_at_app. unfold enc, ent_hdr_bytes, d_hdr.
  cbn [inode rec_len name_len file_type]. rewrite <- !app_assoc.
  assert (in_width 8 (d_nlen d)) by done. assert (in_width 8 (d_ft d)) by done.
  assert (in_width 16 (Z.of_nat (d_len d))) by (unfold in_width; lia).
  f_equal; decode_field; reflexivity.
Qed.

Lemma name_in_body d : dent_ok d → live d = true → (Z.to_nat (d_nlen d) <= length (d_body d))%nat.
Proof. intros [] Hl. specialize (do_min0 Hl). pose proof (min_size_bounds _ do_nlen0). hlia. Qed.

Lemma read_name pre d post : dent_ok d → live d = true →
  sub (length pre + DIR_ENTRY_HEADER_SIZE) (Z.to_nat (d_nlen d)) (pre ++ enc d ++ post) = d_name d.
Proof.
  intros Hd Hl. pose proof (name_in_body d Hd Hl). rewrite sub_app_r by lia.
  replace (length pre + DIR_ENTRY_HEADER_SIZE - length pre)%nat with DIR_ENTRY_HEADER_SIZE by lia.
  unfold enc. rewrite <- app_assoc, sub_app_r by (rewrite length_ent_hdr_bytes; lia).
  rewrite length_ent_hdr_bytes, Nat.sub_diag, sub_app_l by lia. unfold sub, d_name. by rewrite drop_0.
Qed.

Lemma d_len_pos d : (DIR_ENTRY_HEADER_SIZE <= d_len d)%nat.
Proof. hlia. Qed.

(** One turn of any of the scans sits at a record boundary. *)
Record at_record (data : list Z) (off : nat) (d : dent) : Prop := {
  ar_fits : (off + DIR_ENTRY_HEADER_SIZE <= length data)%nat;
  ar_hdr : read_hdr data off = d_hdr d;
  ar_len : (off + d_len d <= length data)%nat;
  ar_name : live d = true →
    (off + DIR_ENTRY_HEADER_SIZE + Z.to_nat (d_nlen d) <= length data)%nat ∧
    sub (off + DIR_ENTRY_HEADER_SIZE) (Z.to_nat (d_nlen d)) data = d_name d
}.

Lemma at_record_here pre d post : dent_ok d → at_record (pre ++ enc d ++ post) (length pre) d.
Proof.
  intros Hd. pose proof (d_len_pos d). split.
  - rewrite !length_app, length_enc. lia.
  - by apply read_enc.
  - rewrite !length_app, length_enc. lia.
  - intros Hl. pose proof (name_in_body d Hd Hl). split; [|by apply read_name].
    rewrite !length_app, length_enc. hlia.
Qed.

Ltac at_rec H :=
  destruct H; rewrite (proj2 (Nat.leb_le _ _)) by done;
  match goal with E : read_hdr _ _ = _ |- _ => rewrite E end;
  cbn [d_hdr rec_len inode name_len file_type]; rewrite ?Nat2Z.id.

(** ** Lookup and parsing agree with the abstract directory *)

Lemma lookup_loop_spec name ds : Forall dent_ok ds → ∀ fuel pre,
  (length ds < fuel)%nat →
  lookup_loop fuel (pre ++ bytes ds) name (length pre) = dfind ds name.
Proof.
  induction 1 as [|d ds Hd Hds IH]; intros [|fuel] pre Hf; try lia; cbn [lookup_loop dfind].
  - unfold bytes. cbn. rewrite app_nil_r. rewrite (proj2 (Nat.leb_gt _ _)) by hlia. done.
  - rewrite bytes_cons. pose proof (at_record_here pre d (bytes ds) Hd) as Hat.
    at_rec Hat. pose proof (d_len_pos d).
    rewrite (proj2 (Nat.ltb_ge _ _)), (proj2 (Nat.ltb_ge _ _)) by lia. cbn [orb].
    change (negb (d_ino d =? 0)) with (live d). destruct (live d) eqn:El; cbn [andb].
    2: { specialize (IH fuel (pre ++ enc d)). rewrite length_app, length_enc, <- app_assoc in IH.
         apply IH. simpl in Hf. lia. }
    destruct (ar_name0 eq_refl) as [Hn ->]. rewrite (proj2 (Nat.leb_le _ _)) by done.
    destruct (bytes_eqb (d_name d) name) eqn:Eb.
    + apply bool_decide_eq_true in Eb. pose proof (name_in_body d Hd El).
      assert (length name = Z.to_nat (d_nlen d)) as ->.
      { rewrite <- Eb. unfold d_name. rewrite length_take. lia. }
      by rewrite Nat.eqb_refl.
    + rewrite !andb_false_r. specialize (IH fuel (pre ++ enc d)).
      rewrite length_app, length_enc, <- app_assoc in IH. apply IH. simpl in Hf. lia.
Qed.

Lemma length_bytes_ge ds : (length ds <= length (bytes ds))%nat.
Proof.
  induction ds as [|d ds IH]; [done|]. rewrite bytes_cons, length_app, length_enc.
  pose proof (d_len_pos d). simpl. hlia.
Qed.

Lemma lookup_bytes ds name : Forall dent_ok ds → lookup_in_dir (bytes ds) name = dfind ds name.
Proof.
  intros Hds. apply (lookup_loop_spec name ds Hds _ []). pose proof (length_bytes_ge ds). simpl. lia.
Qed.

Lemma parse_loop_spec utf8 ds : Forall dent_ok ds → ∀ fuel pre,
  (length ds < fuel)%nat →
  parse_loop utf8 fuel (pre ++ bytes ds) (length pre) = filter (λ e, utf8 e.1.1 = true) (entries ds).
Proof.
  induction 1 as [|d ds Hd Hds IH]; intros [|fuel] pre Hf; try lia; cbn [parse_loop].
  - unfold bytes. cbn. rewrite app_nil_r. rewrite (proj2 (Nat.leb_gt _ _)) by hlia. done.
  - rewrite bytes_cons. pose proof (at_record_here pre d (bytes ds) Hd) as Hat.
    at_rec Hat. pose proof (d_len_pos d).
    rewrite (proj2 (Nat.ltb_ge _ _)), (proj2 (Nat.ltb_ge _ _)) by lia. cbn [orb].
    specialize (IH fuel (pre ++ enc d)). rewrite length_app, length_enc, <- app_assoc in IH.
    rewrite IH by (simpl in Hf; lia). unfold entries. rewrite filter_cons.
    change (negb (d_ino d =? 0)) with (live d). destruct (live d) eqn:El; [|done].
    destruct (ar_name0 eq_refl) as [Hn ->]. rewrite (proj2 (Nat.leb_le _ _)) by done.
    rewrite decide_True by done. cbn [fmap list_fmap]. rewrite filter_cons. cbn [fst].
    destruct (utf8 (d_name d)); done.
Qed.

(** ** Insertion *)

(** The record written for a name, over [room] bytes whose old contents are
    [old]. *)
Definition new_dent (name old : list Z) (ino ft : Z) : dent :=
  mk_dent ino (Z.of_nat (length name)) ft (splice 0 name (drop DIR_ENTRY_HEADER_SIZE old)).

Lemma write_entry_ok pre old post name ino ft n :
  n = length old → (length name <= 255)%nat → (DIR_ENTRY_HEADER_SIZE + length name <= n)%nat →
  Z.of_nat n < 2 ^ 16 →
  write_entry_at (pre ++ old ++ post) (length pre) n
    (mk_hdr ino (wrap 16 (Z.of_nat n)) (wrap 8 (Z.of_nat (length name))) ft) name =
  Ret (pre ++ enc (new_dent name old ino ft) ++ post).
Proof.
  intros -> Hn Hfit H16. unfold write_entry_at. rewrite (proj2 (Nat.leb_le _ _)) by (rewrite !length_app; lia).
  replace (wrap 16 (Z.of_nat (length old))) with (Z.of_nat (length old)) by (unfold wrap; rewrite Z.mod_small; lia).
  replace (wrap 8 (Z.of_nat (length name))) with (Z.of_nat (length name)) by (unfold wrap; rewrite Z.mod_small; lia).
  rewrite sub_app_r, Nat.sub_diag, sub_prefix by lia. unfold write_dir_entry.
  rewrite write_at_ok by (rewrite length_ent_hdr_bytes; hlia). cbn [mbind outcome_bind name_len].
  rewrite Nat2Z.id, length_splice by (rewrite length_ent_hdr_bytes; hlia).
  rewrite (proj2 (Nat.leb_le _ _)) by hlia. rewrite Nat.eqb_refl.
  rewrite write_at_ok by (rewrite length_splice; rewrite ?length_ent_hdr_bytes; hlia). cbn [mbind outcome_bind]. f_equal.
  pose proof (splice_app 0 (ent_hdr_bytes (mk_hdr ino (Z.of_nat (length old)) (Z.of_nat (length name)) ft)) name old) as Hs.
  rewrite length_ent_hdr_bytes in Hs. cbn [Nat.add] in Hs. rewrite Hs by hlia. clear Hs.
  unfold splice. rewrite take_app_length, drop_app_ge by lia. cbn [take Nat.add app].
  unfold enc, new_dent, splice, d_hdr, d_len. cbn [d_ino d_nlen d_ft d_body take app Nat.add].
  rewrite !length_app, !length_drop, length_ent_hdr_bytes, drop_drop, <- !app_assoc.
  rewrite !take_0. cbn [app length Nat.add].
  replace (DIR_ENTRY_HEADER_SIZE + (length name + (length old - DIR_ENTRY_HEADER_SIZE - length name)))%nat
    with (length old) by hlia.
  rewrite drop_app_ge by hlia. do 4 f_equal. rewrite <- (drop_0 post) at 2. f_equal. hlia.
Qed.

Lemma new_dent_name name old ino ft :
  (DIR_ENTRY_HEADER_SIZE + length name <= length old)%nat → d_name (new_dent name old ino ft) = name.
Proof.
  intros H. unfold d_name, new_dent, splice. cbn [d_nlen d_body]. rewrite take_0. cbn [app].
  rewrite Nat2Z.id. apply take_app_length.
Qed.

Lemma new_dent_ok name old ino ft :
  in_width 64 ino → byte_ok ft → (length name <= 255)%nat →
  (dir_entry_min_size (Z.of_nat (length name)) <= length old)%nat → Z.of_nat (length old) < 2 ^ 16 →
  dent_ok (new_dent name old ino ft).
Proof.
  intros Hi Hf Hn Hmin H16. assert (Hb : byte_ok (Z.of_nat (length name))) by (unfold byte_ok; lia).
  pose proof (min_size_bounds _ Hb).
  assert (Hl : d_len (new_dent name old ino ft) = length old).
  { unfold d_len, new_dent, splice. cbn [d_body]. rewrite take_0. cbn [app].
    rewrite length_app, !length_drop. hlia. }
  split; try done; rewrite Hl; done.
Qed.

(** A live record shrunk to its minimum. *)
Definition shrink (d : dent) : dent :=
  mk_dent (d_ino d) (d_nlen d) (d_ft d)
    (take (dir_entry_min_size (d_nlen d) - DIR_ENTRY_HEADER_SIZE) (d_body d)).

Lemma shrink_len d : dent_ok d → live d = true → d_len (shrink d) = dir_entry_min_size (d_nlen d).
Proof.
  intros Hd Hl. pose proof (do_min d Hd Hl). pose proof (min_size_bounds _ (do_nlen d Hd)).
  unfold shrink, d_len in *. cbn [d_body]. rewrite length_take. hlia.
Qed.

Lemma shrink_ok d : dent_ok d → live d = true → dent_ok (shrink d) ∧ d_name (shrink d) = d_name d.
Proof.
  intros Hd Hl. pose proof (shrink_len d Hd Hl) as Hs. pose proof (do_min d Hd Hl).
  pose proof (min_size_bounds _ (do_nlen d Hd)). pose proof Hd as [].
  split.
  - split; try done; rewrite Hs; [lia|done].
  - unfold d_name, shrink. cbn [d_nlen d_body]. rewrite take_take. f_equal. hlia.
Qed.

(** Rewriting a record's length shrinks it and leaves the rest as free bytes. *)
Lemma set_len_shrink pre d post :
  dent_ok d → live d = true →
  set_rec_len (pre ++ enc d ++ post) (length pre) (Z.of_nat (dir_entry_min_size (d_nlen d))) =
  Ret (pre ++ enc (shrink d) ++ drop (dir_entry_min_size (d_nlen d) - DIR_ENTRY_HEADER_SIZE) (d_body d) ++ post).
Proof.
  intros Hd Hl. pose proof (shrink_len d Hd Hl) as Hs. unfold set_rec_len.
  rewrite write_at_ok by (rewrite !length_app, length_enc, length_le_bytes; pose proof (d_len_pos d); hlia).
  f_equal. unfold splice. rewrite length_le_bytes, take_app_ge by lia. rewrite <- app_assoc. f_equal.
  rewrite drop_app_ge by lia.
  replace (length pre + 8 - length pre)%nat with 8%nat by lia.
  replace (length pre + 8 + 2 - length pre)%nat with 10%nat by lia.
  unfold enc, ent_hdr_bytes, d_hdr. rewrite Hs. cbn [inode rec_len name_len file_type shrink d_ino d_nlen d_ft d_body].
  rewrite <- !app_assoc. rewrite take_app_le, take_ge by (rewrite ?length_le_bytes; lia).
  f_equal. f_equal. rewrite (drop_app_ge (le_bytes 8 _)) by (rewrite length_le_bytes; lia).
  rewrite length_le_bytes. change (10 - 8)%nat with 2%nat.
  rewrite (drop_app_ge (le_bytes 2 _)) by (rewrite length_le_bytes; lia).
  rewrite length_le_bytes, Nat.sub_diag, drop_0. f_equal. f_equal.
  rewrite (app_assoc (take _ _)), take_drop. done.
Qed.

Lemma find_slack_spec needed ds : Forall dent_ok ds → ∀ fuel pre,
  (length ds < fuel)%nat →
  match find_slack fuel (pre ++ bytes ds) needed (length pre) with
  | Some off => ∃ ds1 d ds2, ds = ds1 ++ d :: ds2 ∧ off = (length pre + length (bytes ds1))%nat ∧
                  (needed <= d_len d - min_len (d_hdr d))%nat
  | None => True
  end.
Proof.
  induction 1 as [|d ds Hd Hds IH]; intros [|fuel] pre Hf; try lia; cbn [find_slack].
  - unfold bytes. cbn. rewrite app_nil_r. by rewrite (proj2 (Nat.leb_gt _ _)) by hlia.
  - rewrite bytes_cons. pose proof (at_record_here pre d (bytes ds) Hd) as Hat. at_rec Hat.
    pose proof (d_len_pos d). rewrite (proj2 (Nat.ltb_ge _ _)) by lia.
    change {| inode := d_ino d; rec_len := Z.of_nat (d_len d); name_len := d_nlen d; file_type := d_ft d |} with (d_hdr d).
    destruct (Nat.leb_spec needed (d_len d - min_len (d_hdr d))).
    + exists [], d, ds. split_and!; [done| |done]. cbn. lia.
    + specialize (IH fuel (pre ++ enc d)). rewrite length_app, length_enc, <- app_assoc in IH.
      simpl in Hf. specialize (IH ltac:(lia)). destruct (find_slack _ _ _ _) as [off|]; [|done].
      destruct IH as (ds1 & d' & ds2 & -> & -> & ?). exists (d :: ds1), d', ds2.
      split_and!; [done| |done]. rewrite bytes_cons, length_app, length_enc. lia.
Qed.

Lemma entries_app ds1 ds2 : entries (ds1 ++ ds2) = entries ds1 ++ entries ds2.
Proof. unfold entries. by rewrite filter_app, fmap_app. Qed.

Lemma entries_cons d ds :
  entries (d :: ds) = (if live d then [(d_name d, d_ino d, d_ft d)] else []) ++ entries ds.
Proof.
  unfold entries. rewrite filter_cons. destruct (live d) eqn:E; [rewrite decide_True by done|rewrite decide_False by done]; done.
Qed.

(** First entry of a name. *)
Fixpoint efind (l : list (list Z * Z * Z)) (name : list Z) : option (Z * Z) :=
  match l with
  | [] => None
  | (n, i, t) :: l' => if bytes_eqb n name then Some (i, t) else efind l' name
  end.

Lemma dfind_entries ds name : dfind ds name = efind (entries ds) name.
Proof.
  induction ds as [|d ds IH]; [done|]. rewrite entries_cons. cbn [dfind].
  destruct (live d); cbn [andb app efind]; [|done]. by rewrite IH.
Qed.

Lemma efind_insert l1 l2 name i t n :
  efind (l1 ++ (name, i, t) :: l2) n =
    if bytes_eqb name n then (match efind l1 n with Some r => Some r | None => Some (i, t) end)
    else efind (l1 ++ l2) n.
Proof.
  induction l1 as [|[[n1 i1] t1] l1 IH]; cbn [app efind]; [done|].
  destruct (bytes_eqb n1 n); [by destruct (bytes_eqb name n)|]. apply IH.
Qed.

Lemma efind_app_none l1 l2 n : efind (l1 ++ l2) n = None → efind l1 n = None.
Proof.
  induction l1 as [|[[n1 i1] t1] l1 IH]; cbn [app efind]; [done|]. destruct (bytes_eqb n1 n); [done|apply IH].
Qed.

(** A directory whose bytes are well-formed records. *)
Definition wf_dir (data : list Z) : Prop := ∃ ds, Forall dent_ok ds ∧ data = bytes ds.

(** Inserting into the record [d] that has the slack. *)
Lemma split_entry_spec ds1 d ds2 name ino ft :
  Forall dent_ok (ds1 ++ d :: ds2) → (length name <= 255)%nat → in_width 64 ino → ino ≠ 0 → byte_ok ft →
  (dir_entry_min_size (Z.of_nat (length name)) <= d_len d - min_len (d_hdr d))%nat →
  ∃ ds', split_entry (bytes (ds1 ++ d :: ds2)) (length (bytes ds1)) ino ft name = Ret (bytes ds') ∧
    Forall dent_ok ds' ∧ ∃ l1 l2, entries (ds1 ++ d :: ds2) = l1 ++ l2 ∧ entries ds' = l1 ++ (name, ino, ft) :: l2.
Proof.
  intros Hok Hn Hi Hi0 Hft Hsl. apply Forall_app in Hok as [Hok1 Hok2]. apply Forall_cons in Hok2 as [Hd Hok2].
  assert (Hb : byte_ok (Z.of_nat (length name))) by (unfold byte_ok; lia). pose proof (min_size_bounds _ Hb) as Hms.
  assert (Hlive : ∀ old, live (new_dent name old ino ft) = true).
  { intros old. unfold live, new_dent. cbn [d_ino]. by apply negb_true_iff, Z.eqb_neq. }
  unfold split_entry. rewrite bytes_app, bytes_cons, read_enc by done.
  cbn [d_hdr inode rec_len name_len]. change (negb (d_ino d =? 0)) with (live d).
  pose proof (do_len d Hd) as H16. rewrite Nat2Z.id. unfold min_len in Hsl. cbn [d_hdr inode name_len] in Hsl.
  change (negb (d_ino d =? 0)) with (live d) in Hsl. destruct (live d) eqn:El.
  - pose proof (do_min d Hd El) as Hmin. pose proof (min_size_bounds _ (do_nlen d Hd)).
    rewrite set_len_shrink by done. cbn [mbind outcome_bind].
    destruct (shrink_ok d Hd El) as [Hsok Hsn]. pose proof (shrink_len d Hd El) as Hsl'.
    set (old := drop (dir_entry_min_size (d_nlen d) - DIR_ENTRY_HEADER_SIZE) (d_body d)).
    assert (Hold : length old = (d_len d - dir_entry_min_size (d_nlen d))%nat).
    { unfold old. rewrite length_drop. hlia. }
    replace (length (bytes ds1) + dir_entry_min_size (d_nlen d))%nat with (length (bytes ds1 ++ enc (shrink d)))
      by (rewrite length_app, length_enc; lia).
    rewrite (app_assoc (bytes ds1)). rewrite write_entry_ok by (done || lia).
    exists (ds1 ++ shrink d :: new_dent name old ino ft :: ds2). split_and!.
    + rewrite bytes_app, !bytes_cons. by rewrite <- app_assoc.
    + apply Forall_app. split; [done|]. constructor; [done|]. constructor; [apply new_dent_ok; (done || lia)|done].
    + exists (entries ds1 ++ [(d_name d, d_ino d, d_ft d)]), (entries ds2).
      rewrite !entries_app, !entries_cons, El, Hlive. change (live (shrink d)) with (live d). rewrite El, Hsn.
      rewrite new_dent_name by lia. rewrite <- !app_assoc. done.
  - rewrite write_entry_ok by (rewrite ?length_enc; done || lia).
    exists (ds1 ++ new_dent name (enc d) ino ft :: ds2). split_and!.
    + by rewrite bytes_app, bytes_cons.
    + apply Forall_app. split; [done|].
      constructor; [apply new_dent_ok; rewrite ?length_enc; (done || lia)|done].
    + exists (entries ds1), (entries ds2). rewrite !entries_app, !entries_cons, El, Hlive.
      rewrite new_dent_name by (rewrite length_enc; lia). done.
Qed.

Lemma add_entries ds name ino ft bs :
  Forall dent_ok ds → (length name <= 255)%nat → in_width 64 ino → ino ≠ 0 → byte_ok ft →
  (dir_entry_min_size (Z.of_nat (length name)) <= bs)%nat → Z.of_nat bs < 2 ^ 16 →
  ∃ ds', add_dir_entry bs (bytes ds) name ino ft = Ret (bytes ds') ∧ Forall dent_ok ds' ∧
    ∃ l1 l2, entries ds = l1 ++ l2 ∧ entries ds' = l1 ++ (name, ino, ft) :: l2.
Proof.
  intros Hok Hn Hi Hi0 Hft Hbs H16. unfold add_dir_entry.
  assert (Hw : wrap 8 (Z.of_nat (length name)) = Z.of_nat (length name)) by (unfold wrap; rewrite Z.mod_small; lia).
  rewrite !Hw.
  pose proof (find_slack_spec (dir_entry_min_size (Z.of_nat (length name))) ds Hok (S (length (bytes ds))) []) as Hfs.
  cbn [app length] in Hfs. specialize (Hfs ltac:(pose proof (length_bytes_ge ds); lia)).
  destruct (find_slack _ _ _ _) as [off|].
  - destruct Hfs as (ds1 & d & ds2 & -> & -> & Hsl). by apply split_entry_spec.
  - assert (Hb : byte_ok (Z.of_nat (length name))) by (unfold byte_ok; lia). pose proof (min_size_bounds _ Hb).
    pose proof (write_entry_ok (bytes ds) (replicate bs 0) [] name ino ft bs) as Hwr. rewrite Hw in Hwr.
    rewrite !app_nil_r in Hwr. rewrite Hwr by (rewrite ?length_replicate; done || lia).
    exists (ds ++ [new_dent name (replicate bs 0) ino ft]). split_and!.
    + rewrite bytes_app, bytes_cons. unfold bytes at 3. cbn. by rewrite app_nil_r.
    + apply Forall_app. split; [done|]. constructor; [|done].
      apply new_dent_ok; rewrite ?length_replicate; (done || lia).
    + exists (entries ds), []. rewrite app_nil_r, entries_app, entries_cons. split; [done|].
      unfold live. cbn [new_dent d_ino]. rewrite (proj2 (Z.eqb_neq _ _)) by done. cbn [negb].
      fold (new_dent name (replicate bs 0) ino ft). rewrite new_dent_name by (rewrite length_replicate; lia). done.
Qed.

Lemma parse_bytes utf8 ds : Forall dent_ok ds →
  parse_dir_entries_from_bytes utf8 (bytes ds) = filter (λ e, utf8 e.1.1 = true) (entries ds).
Proof.
  intros Hds. apply (parse_loop_spec utf8 ds Hds _ []). pose proof (length_bytes_ge ds). simpl. lia.
Qed.

(** *** Names longer than a record can say *)

(** A name whose length is not the one the header says is not copied. *)
Lemma write_entry_panics data off n h name :
  (DIR_ENTRY_HEADER_SIZE + Z.to_nat (name_len h) <= n)%nat → length name ≠ Z.to_nat (name_len h) → write_entry_at data off n h name = Panic.
Proof.
  intros Hn Hl. unfold write_entry_at, write_dir_entry. destruct (Nat.leb_spec (off + n) (length data)) as [Ho|]; [|done].
  assert (Hs : length (sub off n data) = n) by (apply length_sub; lia).
  rewrite write_at_ok by (rewrite length_ent_hdr_bytes, Hs; lia). cbn [mbind outcome_bind].
  rewrite length_splice, Hs by (rewrite length_ent_hdr_bytes, Hs; lia).
  by rewrite (proj2 (Nat.leb_le _ _) Hn), (proj2 (Nat.eqb_neq _ _) Hl).
Qed.

Lemma find_slack_room needed data fuel : ∀ o off, find_slack fuel data needed o = Some off →
  (needed <= Z.to_nat (rec_len (read_hdr data off)) - min_len (read_hdr data off))%nat.
Proof.
  induction fuel as [|fuel IH]; intros o off; cbn [find_slack]; [done|].
  destruct (_ <=? length data)%nat; [|done]. destruct (_ <? _)%nat; [done|]. destruct (Nat.leb_spec needed (Z.to_nat (rec_len (read_hdr data o)) - min_len (read_hdr data o))).
  - by intros [= <-].
  - apply IH.
Qed.

Lemma long_name_panics bs data name ino ft : (255 < length name)%nat →
  (dir_entry_min_size (wrap 8 (Z.of_nat (length name))) <= bs)%nat → add_dir_entry bs data name ino ft = Panic.
Proof.
  intros Hl Hbs. unfold add_dir_entry. set (nlen := wrap 8 (Z.of_nat (length name))) in *.
  assert (Hb : byte_ok nlen) by (unfold byte_ok, nlen, wrap; pose proof (Z.mod_pos_bound (Z.of_nat (length name)) (2 ^ 8)); lia).
  pose proof (min_size_bounds nlen Hb) as Hm. assert (Hne : length name ≠ Z.to_nat nlen) by (unfold byte_ok in Hb; lia).
  destruct (find_slack _ _ _ _) as [off|] eqn:Ef; [|by apply write_entry_panics; cbn [name_len]; lia].
  apply find_slack_room in Ef. unfold split_entry, min_len in *. fold nlen. destruct (negb (inode _ =? 0)).
  - destruct (set_rec_len _ _ _); [|done]. cbn [mbind outcome_bind]. apply write_entry_panics; cbn [name_len]; lia.
  - apply write_entry_panics; cbn [name_len]; lia.
Qed.

(** C36 Directory insertion, on a well-formed directory, with a block size below
    65536 that holds the record and a nonzero inode number. For a name of at
    most 255 bytes [add_dir_entry] does not panic and leaves a well-formed
    directory whose listing is the old one with exactly the new entry inserted,
    whether it splits a record, reuses a deleted slot or appends a block; the
    new name resolves to the new inode when it was absent, and every other name
    resolves as before. A longer name always panics: its length is cut to one
    byte, and the copy of the name is given a slice of another length. *)
Theorem add_dir_entry_correct utf8 bs data name ino ft :
  wf_dir data → utf8 name = true → in_width 64 ino → ino ≠ 0 → byte_ok ft →
  (dir_entry_min_size (wrap 8 (Z.of_nat (length name))) <= bs)%nat → Z.of_nat bs < 2 ^ 16 →
  if (length name <=? 255)%nat then
    ∃ data', add_dir_entry bs data name ino ft = Ret data' ∧ wf_dir data' ∧
      (∃ l1 l2, parse_dir_entries_from_bytes utf8 data = l1 ++ l2 ∧
         parse_dir_entries_from_bytes utf8 data' = l1 ++ (name, ino, ft) :: l2) ∧
      (lookup_in_dir data name = None → lookup_in_dir data' name = Some (ino, ft)) ∧
      (∀ n, n ≠ name → lookup_in_dir data' n = lookup_in_dir data n)
  else add_dir_entry bs data name ino ft = Panic.
Proof.
  intros (ds & Hok & ->) Hu Hi Hi0 Hft Hbs H16. destruct (Nat.leb_spec (length name) 255) as [Hn|Hn]; [|by apply long_name_panics].
  assert (Hw : wrap 8 (Z.of_nat (length name)) = Z.of_nat (length name)) by (unfold wrap; rewrite Z.mod_small; lia). rewrite Hw in Hbs.
  destruct (add_entries ds name ino ft bs) as (ds' & -> & Hok' & l1 & l2 & E & E'); try done.
  exists (bytes ds'). split_and!; [done|by exists ds'| | |].
  - rewrite !parse_bytes, E, E' by done. rewrite !filter_app, filter_cons. cbn [fst].
    rewrite decide_True by done. eauto.
  - rewrite !lookup_bytes, !dfind_entries, E, E' by done. intros Hnone.
    rewrite efind_insert, (efind_app_none _ _ _ Hnone). unfold bytes_eqb. by rewrite bool_decide_eq_true_2.
  - intros n Hne. rewrite !lookup_bytes, !dfind_entries, E, E' by done.
    rewrite efind_insert. unfold bytes_eqb at 1. by rewrite bool_decide_eq_false_2 by congruence.
Qed.

(** ** Removal *)

Lemma rec_len_at data off d : read_hdr data off = d_hdr d → le_at (off + 8) 2 data = Z.of_nat (d_len d).
Proof. intros H. exact (f_equal rec_len H). Qed.

Lemma prev_len_spec p post : dent_ok p → ∀ ds, Forall dent_ok ds → ∀ fuel pre,
  (length ds < fuel)%nat →
  prev_len_loop fuel (pre ++ bytes (ds ++ [p]) ++ post)
    (length pre + length (bytes (ds ++ [p]))) (length pre) = d_len p.
Proof.
  intros Hp. induction 1 as [|d ds Hd Hds IH]; intros [|fuel] pre Hf; try lia; cbn [prev_len_loop app].
  - rewrite bytes_cons. change (bytes []) with (@nil Z). rewrite app_nil_r, length_enc.
    pose proof (at_record_here pre p post Hp) as []. pose proof (d_len_pos p). pose proof (rec_len_at _ _ _ ar_hdr0) as E.
    rewrite E, Nat2Z.id.
    rewrite (proj2 (Nat.ltb_lt _ _)) by hlia. rewrite !(proj2 (Nat.ltb_ge _ _)) by lia.
    by rewrite Nat.eqb_refl.
  - rewrite bytes_cons, <- app_assoc. pose proof (at_record_here pre d (bytes (ds ++ [p]) ++ post) Hd) as [].
    pose proof (d_len_pos d). pose proof (rec_len_at _ _ _ ar_hdr0) as E. rewrite E, Nat2Z.id.
    assert (0 < length (bytes (ds ++ [p])))%nat.
    { rewrite bytes_app, length_app, bytes_cons, length_app, length_enc. pose proof (d_len_pos p). hlia. }
    rewrite length_app, length_enc. rewrite (proj2 (Nat.ltb_lt _ _)) by hlia.
    rewrite !(proj2 (Nat.ltb_ge _ _)) by lia. rewrite (proj2 (Nat.eqb_neq _ _)) by lia.
    specialize (IH fuel (pre ++ enc d)). rewrite length_app, length_enc, <- app_assoc in IH.
    rewrite Nat.add_assoc. apply IH. simpl in Hf. lia.
Qed.

(** A record with its inode cleared, and one that has absorbed the next. *)
Definition dead (d : dent) : dent := mk_dent 0 (d_nlen d) (d_ft d) (d_body d).
Definition absorb (p : dent) (next : list Z) : dent :=
  mk_dent (d_ino p) (d_nlen p) (d_ft p) (d_body p ++ next).

Lemma clear_inode pre d post :
  write_at (length pre) (replicate 8 0) (pre ++ enc d ++ post) = Ret (pre ++ enc (dead d) ++ post).
Proof.
  pose proof (d_len_pos d). rewrite write_at_ok by (rewrite !length_app, length_enc, length_replicate; hlia).
  f_equal. unfold splice. rewrite take_app_length, drop_app_ge, length_replicate by lia.
  replace (length pre + 8 - length pre)%nat with 8%nat by lia. reflexivity.
Qed.

Lemma set_len_absorb pre p next post :
  set_rec_len (pre ++ enc p ++ next ++ post) (length pre) (Z.of_nat (d_len p + length next)) =
  Ret (pre ++ enc (absorb p next) ++ post).
Proof.
  unfold set_rec_len. pose proof (d_len_pos p).
  rewrite write_at_ok by (rewrite !length_app, length_enc, length_le_bytes; hlia).
  f_equal. unfold splice. rewrite length_le_bytes, take_app_ge by lia. rewrite <- app_assoc. f_equal.
  rewrite drop_app_ge by lia.
  replace (length pre + 8 - length pre)%nat with 8%nat by lia.
  replace (length pre + 8 + 2 - length pre)%nat with 10%nat by lia.
  unfold enc, ent_hdr_bytes, d_hdr, d_len, absorb. cbn [inode rec_len name_len file_type d_ino d_nlen d_ft d_body].
  rewrite length_app, Nat.add_assoc.
  rewrite <- !app_assoc. rewrite take_app_le, take_ge by (rewrite ?length_le_bytes; lia).
  reflexivity.
Qed.

Lemma dead_ok d : dent_ok d → dent_ok (dead d).
Proof. intros []. split; try done. Qed.

Lemma absorb_ok p next : dent_ok p → Z.of_nat (d_len p + length next) < 2 ^ 16 → dent_ok (absorb p next).
Proof.
  intros [] H. assert (E : d_len (absorb p next) = (d_len p + length next)%nat).
  { unfold d_len, absorb. cbn [d_body]. rewrite length_app. lia. }
  split; try done; rewrite E; [done|]. intros Hl. specialize (do_min0 Hl). cbn [absorb d_nlen]. lia.
Qed.

Lemma absorb_name p next : dent_ok p → live p = true → d_name (absorb p next) = d_name p.
Proof.
  intros Hp Hl. unfold d_name, absorb. cbn [d_nlen d_body]. apply take_app_le. by apply name_in_body.
Qed.

Lemma absorb_entries p next ds : dent_ok p → entries (absorb p next :: ds) = entries (p :: ds).
Proof.
  intros Hp. rewrite !entries_cons. change (live (absorb p next)) with (live p).
  destruct (live p) eqn:E; [|done]. by rewrite absorb_name.
Qed.

(** The scan reaches the first live record of the name. *)
Lemma remove_loop_reach bs name d ds2 : dent_ok d → live d = true → d_name d = name → ∀ ds1,
  Forall dent_ok ds1 → dfind ds1 name = None → ∀ fuel pre,
  (length ds1 < fuel)%nat →
  remove_loop fuel bs (pre ++ bytes (ds1 ++ d :: ds2)) name (length pre) (length pre) =
    (data ← erase_entry bs (pre ++ bytes (ds1 ++ d :: ds2)) (length pre + length (bytes ds1))
              (length pre + length (bytes ds1)); Ret (Some data)).
Proof.
  intros Hd Hl Hn. induction 1 as [|e ds1 He Hds IH]; intros Hnone [|fuel] pre Hf; try lia; cbn [remove_loop app].
  - rewrite bytes_cons. pose proof (at_record_here pre d (bytes ds2) Hd) as Hat. at_rec Hat.
    pose proof (d_len_pos d). rewrite (proj2 (Nat.ltb_ge _ _)) by lia.
    change (negb (d_ino d =? 0)) with (live d). rewrite Hl. destruct (ar_name0 Hl) as [Hle ->].
    rewrite (proj2 (Nat.leb_le _ _)) by done. unfold bytes_eqb. rewrite bool_decide_eq_true_2 by done. cbn [andb].
    change (length (bytes [])) with O. by rewrite Nat.add_0_r.
  - rewrite bytes_cons. pose proof (at_record_here pre e (bytes (ds1 ++ d :: ds2)) He) as Hat. at_rec Hat.
    pose proof (d_len_pos e). rewrite (proj2 (Nat.ltb_ge _ _)) by lia. cbn [dfind] in Hnone.
    change (negb (d_ino e =? 0)) with (live e). destruct (live e && bytes_eqb (d_name e) name) eqn:Eb; [done|].
    assert (Hcond : live e && (length pre + DIR_ENTRY_HEADER_SIZE + Z.to_nat (d_nlen e) <=?
        length (pre ++ enc e ++ bytes (ds1 ++ d :: ds2)))%nat
        && bytes_eqb (sub (length pre + DIR_ENTRY_HEADER_SIZE) (Z.to_nat (d_nlen e))
             (pre ++ enc e ++ bytes (ds1 ++ d :: ds2))) name = false).
    { destruct (live e); [|done]. destruct (ar_name0 eq_refl) as [_ ->]. cbn [andb] in *. rewrite Eb. apply andb_false_r. }
    rewrite Hcond. specialize (IH Hnone fuel (pre ++ enc e)). rewrite length_app, length_enc, <- app_assoc in IH.
    rewrite IH by (simpl in Hf; lia). rewrite (bytes_cons e ds1), length_app, length_enc, !Nat.add_assoc. done.
Qed.

Lemma remove_loop_absent bs name ds : Forall dent_ok ds → dfind ds name = None → ∀ fuel pre pe,
  (length ds < fuel)%nat → remove_loop fuel bs (pre ++ bytes ds) name (length pre) pe = Ret None.
Proof.
  induction 1 as [|e ds He Hds IH]; intros Hnone [|fuel] pre pe Hf; try lia; cbn [remove_loop].
  - change (bytes []) with (@nil Z). rewrite app_nil_r. by rewrite (proj2 (Nat.leb_gt _ _)) by hlia.
  - rewrite bytes_cons. pose proof (at_record_here pre e (bytes ds) He) as Hat. at_rec Hat.
    pose proof (d_len_pos e). rewrite (proj2 (Nat.ltb_ge _ _)) by lia. cbn [dfind] in Hnone.
    change (negb (d_ino e =? 0)) with (live e). destruct (live e && bytes_eqb (d_name e) name) eqn:Eb; [done|].
    assert (Hcond : live e && (length pre + DIR_ENTRY_HEADER_SIZE + Z.to_nat (d_nlen e) <=?
        length (pre ++ enc e ++ bytes ds))%nat
        && bytes_eqb (sub (length pre + DIR_ENTRY_HEADER_SIZE) (Z.to_nat (d_nlen e))
             (pre ++ enc e ++ bytes ds)) name = false).
    { destruct (live e); [|done]. destruct (ar_name0 eq_refl) as [_ ->]. cbn [andb] in *. rewrite Eb. apply andb_false_r. }
    rewrite Hcond. specialize (IH Hnone fuel (pre ++ enc e)). rewrite length_app, length_enc, <- app_assoc in IH.
    apply IH. simpl in Hf. lia.
Qed.

(** A directory laid out in blocks: records never cross a block boundary. *)
Definition block_ok (bs : nat) (b : list dent) : Prop := Forall dent_ok b ∧ length (bytes b) = bs.

Lemma length_blocks bs bl : Forall (block_ok bs) bl → length (bytes (mjoin bl)) = (length bl * bs)%nat.
Proof.
  induction 1 as [|b bl [_ Hb] _ IH]; [done|]. rewrite mjoin_cons, bytes_app, length_app, Hb, IH. done.
Qed.

Lemma blocks_dents bs bl : Forall (block_ok bs) bl → Forall dent_ok (mjoin bl).
Proof. induction 1 as [|b bl [Hb _] _ IH]; [constructor|]. rewrite mjoin_cons. by apply Forall_app. Qed.

(** Erasing a record that follows [p] in its block. *)
Lemma erase_merge bs blA b1 p d post :
  Forall (block_ok bs) blA → Forall dent_ok (b1 ++ [p]) → dent_ok d →
  (length (bytes (b1 ++ [p])) + d_len d <= bs)%nat → Z.of_nat bs < 2 ^ 16 →
  let pre := bytes (mjoin blA ++ b1 ++ [p]) in
  erase_entry bs (pre ++ enc d ++ post) (length pre) (length pre) =
    Ret (bytes (mjoin blA ++ b1 ++ [absorb p (enc (dead d))]) ++ post).
Proof.
  intros HA Hb Hd Hfit H16 pre. pose proof (length_blocks bs blA HA) as HlA.
  pose proof Hb as Hb'. apply Forall_app in Hb' as [Hb1 Hp]. apply Forall_cons in Hp as [Hp _].
  pose proof (d_len_pos d). pose proof (d_len_pos p).
  assert (Hpre : length pre = (length blA * bs + length (bytes (b1 ++ [p])))%nat).
  { unfold pre. by rewrite bytes_app, length_app, HlA. }
  assert (Hpl : length (bytes (b1 ++ [p])) = (length (bytes b1) + d_len p)%nat).
  { rewrite bytes_app, length_app, bytes_cons, length_app, length_enc. cbn. lia. }
  unfold erase_entry. rewrite read_enc by done. cbn [d_hdr rec_len]. rewrite Nat2Z.id, clear_inode.
  cbn [mbind outcome_bind]. rewrite (proj2 (Nat.ltb_lt _ _)) by hlia.
  assert (Hprev : find_prev_entry_len (pre ++ enc (dead d) ++ post) (length pre) bs = d_len p).
  { unfold find_prev_entry_len.
    replace (length pre / bs * bs)%nat with (length (bytes (mjoin blA))).
    2: { rewrite HlA, Hpre. f_equal. apply (Nat.div_unique _ _ _ (length (bytes (b1 ++ [p])))); hlia. }
    unfold pre. rewrite bytes_app, <- app_assoc, length_app. apply prev_len_spec; [done|done|].
    rewrite Hpl. pose proof (length_bytes_ge b1). lia. }
  rewrite Hprev.
  replace (length pre - d_len p)%nat with (length (bytes (mjoin blA ++ b1)))
    by (rewrite bytes_app, length_app, HlA; lia).
  assert (Epre : pre = bytes (mjoin blA ++ b1) ++ enc p).
  { unfold pre. rewrite !bytes_app, bytes_cons. change (bytes []) with (@nil Z). by rewrite app_nil_r, app_assoc. }
  rewrite Epre, <- app_assoc. rewrite read_enc by done. cbn [d_hdr rec_len].
  replace (wrap 16 (Z.of_nat (d_len p) + Z.of_nat (d_len d))) with (Z.of_nat (d_len p + length (enc (dead d)))).
  2: { rewrite length_enc. unfold wrap. change (d_len (dead d)) with (d_len d). rewrite Z.mod_small; hlia. }
  rewrite set_len_absorb. f_equal. rewrite !bytes_app, bytes_cons. change (bytes []) with (@nil Z).
  by rewrite app_nil_r, <- !app_assoc.
Qed.

(** Directory removal is correct for a record that is not the first of a
    later block: the first live record of the name disappears from the listing,
    every other entry stays in order, and the records still tile the blocks. *)
Theorem remove_dir_entry_correct utf8 bs blA b1 d b2 blB :
  Forall (block_ok bs) blA → block_ok bs (b1 ++ d :: b2) → Forall (block_ok bs) blB →
  live d = true → dfind (mjoin blA ++ b1) (d_name d) = None → (b1 = [] → blA = []) →
  Z.of_nat bs < 2 ^ 16 →
  let data := bytes (mjoin blA ++ (b1 ++ d :: b2) ++ mjoin blB) in
  ∃ b', remove_dir_entry bs data (d_name d) = Ret (Some (bytes (mjoin blA ++ b' ++ mjoin blB))) ∧
    block_ok bs b' ∧
    parse_dir_entries_from_bytes utf8 (bytes (mjoin blA ++ b' ++ mjoin blB)) =
      parse_dir_entries_from_bytes utf8 (bytes (mjoin blA ++ b1)) ++
      parse_dir_entries_from_bytes utf8 (bytes (b2 ++ mjoin blB)).
Proof.
  intros HA [Hb Hlb] HB Hl Hnone Hfirst H16 data.
  pose proof Hb as Hb'. apply Forall_app in Hb' as [Hb1 Hb2]. apply Forall_cons in Hb2 as [Hd Hb2].
  pose proof (blocks_dents bs blA HA) as HdA. pose proof (blocks_dents bs blB HB) as HdB.
  assert (Hpre : Forall dent_ok (mjoin blA ++ b1)) by by apply Forall_app.
  assert (Edata : data = bytes ((mjoin blA ++ b1) ++ d :: (b2 ++ mjoin blB))).
  { unfold data. f_equal. rewrite <- !app_assoc. done. }
  unfold remove_dir_entry. rewrite Edata.
  pose proof (remove_loop_reach bs (d_name d) d (b2 ++ mjoin blB) Hd Hl eq_refl _ Hpre Hnone
    (S (length (bytes ((mjoin blA ++ b1) ++ d :: b2 ++ mjoin blB)))) []) as Hreach.
  cbn [app length Nat.add] in Hreach. rewrite Hreach.
  2: { pose proof (length_bytes_ge ((mjoin blA ++ b1) ++ d :: b2 ++ mjoin blB)) as Hge.
       rewrite length_app in Hge at 1. lia. }
  clear Hreach. rewrite bytes_app, bytes_cons.
  rewrite bytes_app, length_app, bytes_cons, length_app, length_enc in Hlb.
  assert (Hparse : ∀ b', Forall dent_ok b' → entries (b1 ++ b2) = entries b' →
    parse_dir_entries_from_bytes utf8 (bytes (mjoin blA ++ b' ++ mjoin blB)) =
      parse_dir_entries_from_bytes utf8 (bytes (mjoin blA ++ b1)) ++
      parse_dir_entries_from_bytes utf8 (bytes (b2 ++ mjoin blB))).
  { intros b' Hb' E. rewrite !parse_bytes by (repeat (apply Forall_app; split); done).
    rewrite !entries_app, <- E, !entries_app, !filter_app, <- !app_assoc. done. }
  destruct b1 as [|p b1 _] using rev_ind.
  - rewrite (Hfirst eq_refl) in *. cbn [mjoin list_join app] in *. change (bytes []) with (@nil Z) in *. cbn [app length] in *.
    exists (dead d :: b2). unfold erase_entry.
    pose proof (clear_inode [] d (bytes (b2 ++ mjoin blB))) as Hc. cbn [app length] in Hc.
    rewrite Hc. cbn [mbind outcome_bind]. split_and!.
    + change (0 <? 0)%nat with false. cbn [mbind outcome_bind app]. by rewrite bytes_cons.
    + split; [constructor; [by apply dead_ok|done]|].
      rewrite bytes_cons, length_app, length_enc. change (d_len (dead d)) with (d_len d). lia.
    + apply Hparse; [constructor; [by apply dead_ok|done]|]. by rewrite entries_cons.
  - exists (b1 ++ absorb p (enc (dead d)) :: b2).
    rewrite (erase_merge bs blA b1 p d (bytes (b2 ++ mjoin blB)) HA Hb1 Hd ltac:(lia) H16).
    cbn [mbind outcome_bind]. apply Forall_app in Hb1 as [Hb1 Hp]. apply Forall_cons in Hp as [Hp _].
    rewrite bytes_app, length_app, bytes_cons, length_app, length_enc in Hlb.
    change (length (bytes [])) with O in Hlb.
    assert (Hbok : Forall dent_ok (b1 ++ absorb p (enc (dead d)) :: b2)).
    { apply Forall_app. split; [done|]. constructor; [|done]. apply absorb_ok; [done|].
      rewrite length_enc. change (d_len (dead d)) with (d_len d). lia. }
    split_and!.
    + f_equal. f_equal. rewrite <- bytes_app. f_equal. rewrite <- !app_assoc. done.
    + split; [done|]. rewrite bytes_app, length_app, bytes_cons, length_app, length_enc.
      unfold d_len, absorb. cbn [d_body]. rewrite length_app, length_enc. change (d_len (dead d)) with (d_len d).
      hlia.
    + apply Hparse; [done|]. rewrite <- app_assoc. cbn [app].
      rewrite (entries_app b1), (entries_app b1). f_equal. symmetry. by apply absorb_entries.
Qed.

Lemma remove_absent bs ds name :
  Forall dent_ok ds → dfind ds name = None → remove_dir_entry bs (bytes ds) name = Ret None.
Proof.
  intros Hok Hn. apply (remove_loop_absent bs name ds Hok Hn _ []).
  pose proof (length_bytes_ge ds). simpl. lia.
Qed.

(** Removing the first record of a later directory block loses a second
    entry: [find_prev_entry_len] finds no record before it in its own block and
    answers 0, so the deleted record's own length is extended, over the record
    that follows it. When the two have the same length, the neighbour vanishes
    from the directory together with the removed name. *)
Theorem remove_first_of_block_drops_next utf8 bs blA d e b2 blB :
  Forall (block_ok bs) blA → blA ≠ [] → block_ok bs (d :: e :: b2) → Forall (block_ok bs) blB →
  live d = true → d_len e = d_len d → dfind (mjoin blA) (d_name d) = None → Z.of_nat bs < 2 ^ 16 →
  ∃ data', remove_dir_entry bs (bytes (mjoin blA ++ (d :: e :: b2) ++ mjoin blB)) (d_name d) = Ret (Some data') ∧
    parse_dir_entries_from_bytes utf8 data' =
      parse_dir_entries_from_bytes utf8 (bytes (mjoin blA)) ++
      parse_dir_entries_from_bytes utf8 (bytes (b2 ++ mjoin blB)).
Proof.
  intros HA HA0 [Hb Hlb] HB Hl Hlen Hnone H16.
  pose proof Hb as Hb'. apply Forall_cons in Hb' as [Hd Hb']. apply Forall_cons in Hb' as [He Hb2].
  pose proof (blocks_dents bs blA HA) as HdA. pose proof (blocks_dents bs blB HB) as HdB.
  pose proof (length_blocks bs blA HA) as HlA.
  rewrite !bytes_cons, !length_app, !length_enc, Hlen in Hlb. pose proof (d_len_pos d).
  assert (Hpos : (0 < length (bytes (mjoin blA)))%nat).
  { rewrite HlA. destruct blA; [done|]. simpl. hlia. }
  unfold remove_dir_entry.
  pose proof (remove_loop_reach bs (d_name d) d ((e :: b2) ++ mjoin blB) Hd Hl eq_refl _ HdA Hnone
    (S (length (bytes (mjoin blA ++ (d :: e :: b2) ++ mjoin blB)))) []) as Hreach.
  cbn [app length Nat.add] in Hreach |- *. rewrite Hreach.
  2: { pose proof (length_bytes_ge (mjoin blA ++ d :: e :: b2 ++ mjoin blB)) as Hge.
       rewrite length_app in Hge at 1. lia. }
  clear Hreach. rewrite bytes_app, bytes_cons.
  set (pre := bytes (mjoin blA)) in *. set (post := bytes (e :: b2 ++ mjoin blB)).
  unfold erase_entry. rewrite read_enc by done. cbn [d_hdr rec_len]. rewrite Nat2Z.id, clear_inode.
  cbn [mbind outcome_bind]. rewrite (proj2 (Nat.ltb_lt _ _)) by done.
  assert (Hprev : find_prev_entry_len (pre ++ enc (dead d) ++ post) (length pre) bs = O).
  { unfold find_prev_entry_len. replace (length pre / bs * bs)%nat with (length pre).
    2: { rewrite HlA, Nat.div_mul by hlia. done. }
    cbn [prev_len_loop]. by rewrite Nat.ltb_irrefl. }
  rewrite Hprev, Nat.sub_0_r, read_enc by by apply dead_ok. cbn [d_hdr rec_len].
  change (d_len (dead d)) with (d_len d).
  replace (wrap 16 (Z.of_nat (d_len d) + Z.of_nat (d_len d))) with (Z.of_nat (d_len (dead d) + length (enc e))).
  2: { rewrite length_enc, Hlen. unfold wrap. change (d_len (dead d)) with (d_len d). rewrite Z.mod_small; hlia. }
  unfold post. rewrite bytes_cons, set_len_absorb. cbn [mbind outcome_bind].
  eexists. split; [done|]. unfold pre. rewrite <- bytes_cons, <- bytes_app.
  assert (Hok : dent_ok (absorb (dead d) (enc e))).
  { apply absorb_ok; [by apply dead_ok|]. rewrite length_enc, Hlen. change (d_len (dead d)) with (d_len d). lia. }
  rewrite !parse_bytes by (repeat (apply Forall_app; split); (done || by constructor; [|apply Forall_app])).
  rewrite !entries_app, !filter_app, entries_cons. cbn [absorb dead live d_ino Z.eqb negb app].
  by rewrite entries_app, filter_app.
Qed.

(** A directory of two 32-byte blocks, two names each. *)
Definition demo_dent (ino : Z) (c : Z) : dent := mk_dent ino 1 1 [c; 0; 0; 0].
Definition demo_block (i : Z) : list dent := [demo_dent i (96 + i); demo_dent (i + 1) (97 + i)].

Lemma demo_dent_ok ino c : in_width 64 ino → dent_ok (demo_dent ino c).
Proof. intros Hi. split; try done; try (vm_compute; lia). Qed.

Lemma demo_block_ok i : 0 < i < 100 → block_ok 32 (demo_block i).
Proof.
  intros Hi. split; [|reflexivity].
  repeat constructor; apply demo_dent_ok; unfold in_width; lia.
Qed.

Lemma demo_dir_wf : wf_dir (bytes (demo_block 1)).
Proof. exists (demo_block 1). split; [apply demo_block_ok; lia|done]. Qed.

Lemma add_dir_entry_correct_witness :
  (∃ data', add_dir_entry 32 (bytes (demo_block 1)) [120] 9 1 = Ret data' ∧ wf_dir data' ∧
    (∃ l1 l2, parse_dir_entries_from_bytes (λ _, true) (bytes (demo_block 1)) = l1 ++ l2 ∧
       parse_dir_entries_from_bytes (λ _, true) data' = l1 ++ ([120], 9, 1) :: l2) ∧
    (lookup_in_dir (bytes (demo_block 1)) [120] = None → lookup_in_dir data' [120] = Some (9, 1)) ∧
    (∀ n, n ≠ [120] → lookup_in_dir data' n = lookup_in_dir (bytes (demo_block 1)) n)) ∧
  add_dir_entry 32 (bytes (demo_block 1)) (replicate 256 97) 9 1 = Panic.
Proof.
  split.
  - apply (add_dir_entry_correct (λ _, true) 32 (bytes (demo_block 1)) [120] 9 1); try done; try (vm_compute; lia). exact demo_dir_wf.
  - apply (add_dir_entry_correct (λ _, true) 32 (bytes (demo_block 1)) (replicate 256 97) 9 1); try done; try (vm_compute; lia). exact demo_dir_wf.
Defined.

Lemma remove_dir_entry_correct_witness :
  let data := bytes (mjoin [] ++ ([demo_dent 1 97] ++ demo_dent 2 98 :: []) ++ mjoin [demo_block 3]) in
  ∃ b', remove_dir_entry 32 data (d_name (demo_dent 2 98)) = Ret (Some (bytes (mjoin [] ++ b' ++ mjoin [demo_block 3]))) ∧
    block_ok 32 b' ∧
    parse_dir_entries_from_bytes (λ _, true) (bytes (mjoin [] ++ b' ++ mjoin [demo_block 3])) =
      parse_dir_entries_from_bytes (λ _, true) (bytes (mjoin [] ++ [demo_dent 1 97])) ++
      parse_dir_entries_from_bytes (λ _, true) (bytes ([] ++ mjoin [demo_block 3])).
Proof.
  apply (remove_dir_entry_correct (λ _, true) 32 [] [demo_dent 1 97] (demo_dent 2 98) [] [demo_block 3]);
    try done.
  - apply (demo_block_ok 1). lia.
  - constructor; [apply (demo_block_ok 3); lia|done].
Defined.

Lemma remove_first_of_block_drops_next_witness :
  ∃ data', remove_dir_entry 32 (bytes (mjoin [demo_block 1] ++ (demo_block 3) ++ mjoin [])) [99] = Ret (Some data') ∧
    parse_dir_entries_from_bytes (λ _, true) data' =
      parse_dir_entries_from_bytes (λ _, true) (bytes (mjoin [demo_block 1])) ++
      parse_dir_entries_from_bytes (λ _, true) (bytes ([] ++ mjoin [])).
Proof.
  apply (remove_first_of_block_drops_next (λ _, true) 32 [demo_block 1] (demo_dent 3 99) (demo_dent 4 100) [] []);
    try done.
  - constructor; [apply (demo_block_ok 1); lia|done].
  - apply (demo_block_ok 3). lia.
Defined.

End EfsDir.
