(* ===== verification/PageCache.v ===== *)
(** * The page cache of a file (kernel/src/fs/page_cache.rs, kernel/src/fs/vfs.rs)

    The cached pages of one inode with their dirty flags, the list of dirty keys,
    and the list of inodes the writeback thread goes through; [write] through the
    cache, the bulk flush that [fsync] and the writeback thread run, shared
    mappings and [msync].  Neither writers nor flushers hold the inode lock, so
    each is a thread of its own, cut where the code gives up a lock or touches
    the device: a writer copies page after page, publishes the size, and only
    then marks the pages; a flusher takes its snapshot, writes page after page,
    and then cleans up.

    The file system below is what [PageCacheOps] documents: [fill_page] gives the
    stored page, zeros where nothing is stored; [flush_page] stores one, and
    treats a page past the recorded size as nothing to write.  How a page is
    filled (page_fill.rs) is one step here, pin counts only keep frames alive and
    are left out, and storing one page is one step.  Truncation is given as the
    operations on the cache, outside the interleaving. *)

From S2P Require Import Prelude.

Module PageCache.

Definition PAGE_SIZE : nat := 4096.

Record CachedPage := mk_page { data : list Z; dirty : bool }.

(** [InodePages], with the pages of its map. *)
Record InodePages := mk_pages { pages : gmap nat CachedPage; dirty_keys : list nat }.

Definition new : InodePages := mk_pages ∅ [].

Definition set_dirty (b : bool) (p : CachedPage) : CachedPage := mk_page (data p) b.

Definition mark_dirty (ip : InodePages) (page_index : nat) : InodePages :=
  mk_pages (alter (set_dirty true) page_index (pages ip))
    (if bool_decide (page_index ∈ dirty_keys ip) then dirty_keys ip else dirty_keys ip ++ [page_index]).

(** The snapshot of [flush_dirty_bulk]: the keys that have a page. *)
Definition snapshot (ip : InodePages) : list nat := List.filter (λ idx, bool_decide (is_Some (pages ip !! idx))) (dirty_keys ip).

(** What a flush that succeeded clears. *)
Definition clean_up (ip : InodePages) (flushed : list nat) : InodePages :=
  mk_pages (foldr (alter (set_dirty false)) (pages ip) flushed)
    (List.filter (λ k, negb (bool_decide (k ∈ flushed))) (dirty_keys ip)).

Definition zero_tail (ip : InodePages) (size : nat) : InodePages :=
  let offset := (size mod PAGE_SIZE)%nat in
  if (offset =? 0)%nat then ip
  else mk_pages (alter (λ p, mk_page (take offset (data p) ++ replicate (length (data p) - offset) 0) (dirty p)) (size / PAGE_SIZE)%nat (pages ip)) (dirty_keys ip).

Definition invalidate_from (ip : InodePages) (from_page : nat) : InodePages :=
  mk_pages (filter (λ e : nat * CachedPage, (e.1 < from_page)%nat) (pages ip)) (List.filter (λ k, (k <? from_page)%nat) (dirty_keys ip)).

(** What [truncate] does to the cache once the file system has cut the file. *)
Definition truncate_cache (ip : InodePages) (size : nat) : InodePages :=
  zero_tail (invalidate_from ip ((size + (PAGE_SIZE - 1)) / PAGE_SIZE)) size.

(** ** The file system below *)

Record Store := mk_store { blocks : gmap nat (list Z); size : nat }.

Definition zeros : list Z := replicate PAGE_SIZE 0.
Definition fill_page (st : Store) (idx : nat) : list Z := default zeros (blocks st !! idx).
Definition flush_page (st : Store) (idx : nat) (buf : list Z) : Store :=
  if (idx * PAGE_SIZE <? size st)%nat then mk_store (<[idx := buf]> (blocks st)) (size st) else st.
Definition update_size (st : Store) (new_size : nat) : Store := if (new_size <=? size st)%nat then st else mk_store (blocks st) new_size.

(** ** The pieces of a write *)

(** One page of a write: where it starts in the page and what it writes there. *)
Record chunk := mk_chunk { c_page : nat; c_start : nat; c_bytes : list Z }.
Definition is_full_page (c : chunk) : bool := (c_start c =? 0)%nat && (length (c_bytes c) =? PAGE_SIZE)%nat.

(** The loop over [start_page..=end_page], with [n] pages to go. *)
Fixpoint chunks_from (n page_idx offset : nat) (src : list Z) : list chunk :=
  match n with
  | O => []
  | S n =>
      let write_start := (offset - page_idx * PAGE_SIZE)%nat in
      let write_len := Nat.min (length src) (PAGE_SIZE - write_start) in
      mk_chunk page_idx write_start (take write_len src) :: chunks_from n (S page_idx) (S page_idx * PAGE_SIZE) (drop write_len src)
  end.

Definition chunks (offset : nat) (src : list Z) : list chunk :=
  let start_page := (offset / PAGE_SIZE)%nat in
  let end_page := ((offset + length src - 1) / PAGE_SIZE)%nat in
  chunks_from (end_page - start_page + 1) start_page offset src.

(** [get_or_fill_async_sync], then the copy into the page: a page written in full
    is not read first. *)
Definition get_or_fill (ip : InodePages) (idx : nat) (fill : list Z) : InodePages :=
  match pages ip !! idx with
  | Some _ => ip
  | None => mk_pages (<[idx := mk_page fill false]> (pages ip)) (dirty_keys ip)
  end.
Definition get_for_write (st : Store) (ip : InodePages) (c : chunk) : InodePages :=
  get_or_fill ip (c_page c) (if is_full_page c then zeros else fill_page st (c_page c)).
Definition copy_chunk (ip : InodePages) (c : chunk) : InodePages :=
  mk_pages (alter (λ p, mk_page (splice (c_start c) (c_bytes c) (data p)) (dirty p)) (c_page c) (pages ip)) (dirty_keys ip).

(** ** Threads *)

(** A writer: the pieces to copy and the pages already copied, up to the size to
    publish; then the pages to mark. *)
Inductive writer := Copying (todo : list chunk) (copied : list nat) (end_offset : nat) | Marking (todo : list nat).

(** A flusher, of the writeback thread or of [fsync]: the pages of its snapshot
    still to write, and those written. *)
Record flusher := mk_flusher { f_writeback : bool; f_todo : list nat; f_written : list nat }.

Record State := mk_state {
  cache : InodePages; store : Store; registered : bool;
  writers : gmap Z writer; flushers : gmap Z flusher; mapped : gset nat
}.

Definition set_cache (s : State) (ip : InodePages) : State := mk_state ip (store s) (registered s) (writers s) (flushers s) (mapped s).
Definition set_store (s : State) (st : Store) : State := mk_state (cache s) st (registered s) (writers s) (flushers s) (mapped s).
Definition set_registered (s : State) (b : bool) : State := mk_state (cache s) (store s) b (writers s) (flushers s) (mapped s).
Definition set_writer (s : State) (t : Z) (w : option writer) : State := mk_state (cache s) (store s) (registered s) (partial_alter (λ _, w) t (writers s)) (flushers s) (mapped s).
Definition set_flusher (s : State) (t : Z) (f : option flusher) : State := mk_state (cache s) (store s) (registered s) (writers s) (partial_alter (λ _, f) t (flushers s)) (mapped s).

Inductive event :=
| EWrite (t : Z) (offset : nat) (src : list Z)
| ECopy (t : Z) (ok : bool)
| EMark (t : Z)
| EFlush (t : Z) (writeback : bool)
| EFlushPage (t : Z) (ok : bool)
| EFlushDone (t : Z)
| EFault (idx : nat)
| EStore (idx : nat) (buf : list Z)
| EMsync (idx : nat).

(** [page_cache_write_core] up to its next stop. The copy of a piece can fail on
    the caller's memory, and the write then returns at once. *)
Definition write_step (s : State) (t : Z) (ok : bool) : State :=
  match writers s !! t with
  | Some (Copying (c :: todo) copied e) =>
      let s := set_cache s (get_for_write (store s) (cache s) c) in
      if ok then set_writer (set_cache s (copy_chunk (cache s) c)) t (Some (Copying todo (copied ++ [c_page c]) e))
      else set_writer s t None
  | Some (Copying [] copied e) => set_writer (set_store s (update_size (store s) e)) t (Some (Marking copied))
  | _ => s
  end.

(** [mark_dirty] of the next page; after the last, [register_dirty_inode]. *)
Definition mark_step (s : State) (t : Z) : State :=
  match writers s !! t with
  | Some (Marking (idx :: todo)) => set_writer (set_cache s (mark_dirty (cache s) idx)) t (Some (Marking todo))
  | Some (Marking []) => set_writer (set_registered s true) t None
  | _ => s
  end.

(** [flush_dirty_bulk] starts: from [flush_file], or from [flush_dirty_inodes],
    which has taken the inode off the list. *)
Definition flush_start (s : State) (t : Z) (writeback : bool) : State :=
  match flushers s !! t with
  | Some _ => s
  | None =>
      if writeback && negb (registered s) then s
      else
        let s := if writeback then set_registered s false else s in
        match snapshot (cache s) with
        | [] => s
        | l => set_flusher s t (Some (mk_flusher writeback l []))
        end
  end.

(** One page of [flush_pages_bulk]; a failure ends the flush with everything still
    marked. *)
Definition flush_page_step (s : State) (t : Z) (ok : bool) : State :=
  match flushers s !! t with
  | Some (mk_flusher wb (idx :: todo) written) =>
      match pages (cache s) !! idx with
      | Some p =>
          if ok then set_flusher (set_store s (flush_page (store s) idx (data p))) t (Some (mk_flusher wb todo (written ++ [idx])))
          else set_flusher s t None
      | None => s
      end
  | _ => s
  end.

Definition flush_done (s : State) (t : Z) : State :=
  match flushers s !! t with
  | Some (mk_flusher wb [] written) => set_flusher (set_cache s (clean_up (cache s) written)) t None
  | _ => s
  end.

(** The fault that maps a page of a shared mapping. *)
Definition fault (s : State) (idx : nat) : State :=
  if bool_decide (idx ∈ mapped s) || negb (idx * PAGE_SIZE <? size (store s))%nat then s
  else
    let ip := get_or_fill (cache s) idx (fill_page (store s) idx) in
    mk_state (mark_dirty ip idx) (store s) true (writers s) (flushers s) ({[idx]} ∪ mapped s).

(** A store through the mapping, which the kernel does not see. *)
Definition mapped_store (s : State) (idx : nat) (buf : list Z) : State :=
  if bool_decide (idx ∈ mapped s) then set_cache s (mk_pages (alter (λ p, mk_page buf (dirty p)) idx (pages (cache s))) (dirty_keys (cache s))) else s.

(** [msync] of one mapped page: written if its flag says so. *)
Definition msync (s : State) (idx : nat) : State :=
  match pages (cache s) !! idx with
  | Some p =>
      if bool_decide (idx ∈ mapped s) && dirty p then
        set_cache (set_store s (flush_page (store s) idx (data p))) (mk_pages (alter (set_dirty false) idx (pages (cache s))) (dirty_keys (cache s)))
      else s
  | None => s
  end.

Definition exec (s : State) (e : event) : State :=
  match e with
  | EWrite t offset src =>
      match writers s !! t, src with
      | Some _, _ | _, [] => s
      | None, _ =>
          (* [offset.checked_add(count)]; on overflow [InvalidArgument] *)
          if U64_MAX <? Z.of_nat (offset + length src) then s
          else set_writer s t (Some (Copying (chunks offset src) [] (offset + length src)))
      end
  | ECopy t ok => write_step s t ok
  | EMark t => mark_step s t
  | EFlush t writeback => flush_start s t writeback
  | EFlushPage t ok => flush_page_step s t ok
  | EFlushDone t => flush_done s t
  | EFault idx => fault s idx
  | EStore idx buf => mapped_store s idx buf
  | EMsync idx => msync s idx
  end.

Definition run (s : State) (es : list event) : State := foldl exec s es.

Definition boot (blocks : gmap nat (list Z)) (size : nat) : State := mk_state new (mk_store blocks size) false ∅ ∅ ∅.

End PageCache.
