(* ===== verification/PageCacheSafety.v ===== *)
(** * What the page cache keeps

    Nothing written is forgotten: in every interleaving of writers and flushers
    that leaves out three named races and failures, a page that differs from what
    is stored is on its way to be marked, or is marked and reachable by the
    writeback thread.  A flush that runs to its end stores everything; a write is
    read back.  The runs at the end show what each exclusion excludes. *)

From S2P Require Import Prelude PageCache.

Module PageCacheSafety.

Import PageCache.

(** ** The invariant *)

(** The pages a writer has changed and not yet marked. *)
Definition pending (w : writer) : list nat := match w with Copying _ copied _ => copied | Marking todo => todo end.
Definition unmarked (s : State) (idx : nat) : Prop := ∃ t w, writers s !! t = Some w ∧ idx ∈ pending w.
Definition marking (s : State) : Prop := ∃ t todo, writers s !! t = Some (Marking todo).

Definition held (f : flusher) (idx : nat) : Prop := idx ∈ f_todo f ∨ idx ∈ f_written f.

(** A dirty key the writeback thread will get to: the inode is on its list, or a
    writer is about to put it there, or a pass is at it. *)
Definition reachable (s : State) (idx : nat) : Prop :=
  registered s = true ∨ marking s ∨ ∃ t f, flushers s !! t = Some f ∧ f_writeback f = true ∧ held f idx.

Definition saved (s : State) (idx : nat) (p : CachedPage) : Prop := data p = fill_page (store s) idx.

Definition in_file (s : State) (idx : nat) : Prop := (idx * PAGE_SIZE < size (store s))%nat.

Record Inv (s : State) : Prop := {
  i_track : ∀ idx p, pages (cache s) !! idx = Some p → saved s idx p ∨ idx ∈ dirty_keys (cache s) ∨ unmarked s idx;
  i_reach : ∀ idx, idx ∈ dirty_keys (cache s) → reachable s idx ∧ in_file s idx ∧ is_Some (pages (cache s) !! idx);
  i_writers : ∀ t w, writers s !! t = Some w →
    match w with
    | Copying todo copied e => (∀ idx, idx ∈ copied ++ (c_page <$> todo) → (idx * PAGE_SIZE < e)%nat) ∧ ∀ idx, idx ∈ copied → is_Some (pages (cache s) !! idx)
    | Marking todo => ∀ idx, idx ∈ todo → in_file s idx ∧ is_Some (pages (cache s) !! idx)
    end;
  i_flush : ∀ t f, flushers s !! t = Some f →
    (∀ idx, held f idx → in_file s idx ∧ is_Some (pages (cache s) !! idx)) ∧
    ∀ idx p, idx ∈ f_written f → pages (cache s) !! idx = Some p → saved s idx p ∨ unmarked s idx;
  i_mapped : mapped s = ∅
}.

(** ** The pieces of a write lie in it *)

Lemma chunks_from_pages n : ∀ page offset src, c_page <$> chunks_from n page offset src = seq page n.
Proof. induction n as [|n IH]; intros page offset src; [done|]. cbn [chunks_from]. rewrite fmap_cons, IH. done. Qed.

Lemma chunks_in_range offset src idx : src ≠ [] → idx ∈ (c_page <$> chunks offset src) → (idx * PAGE_SIZE < offset + length src)%nat.
Proof.
  intros Hs. unfold chunks. rewrite chunks_from_pages, elem_of_seq. intros H. assert (Hl : (0 < length src)%nat) by (destruct src; [done|cbn; lia]).
  assert (offset / PAGE_SIZE <= (offset + length src - 1) / PAGE_SIZE)%nat by (apply Nat.Div0.div_le_mono; lia).
  pose proof (Nat.Div0.mul_div_le (offset + length src - 1) PAGE_SIZE). nia.
Qed.

(** ** Steps *)

(** What may happen: no page is marked while a flusher is between writing it and
    cleaning up, no copy from the caller and no write of the writeback thread
    fails, and nothing is mapped. *)
Definition quiet (s : State) (e : event) : Prop :=
  match e with
  | ECopy t ok => ok = true
  | EMark t => match writers s !! t with
               | Some (Marking (idx :: _)) => ∀ t' f, flushers s !! t' = Some f → idx ∉ f_written f
               | _ => True
               end
  | EFlushPage t ok => ok = true ∨ ∀ f, flushers s !! t = Some f → f_writeback f = false
  | EFault _ => False
  | _ => True
  end.

Inductive reach (b : gmap nat (list Z)) (n : nat) : State → Prop :=
| reach_boot : reach b n (boot b n)
| reach_exec s e : reach b n s → quiet s e → reach b n (exec s e).

Lemma lookup_writer s t w t' : writers (set_writer s t w) !! t' = if decide (t = t') then w else writers s !! t'.
Proof. cbn. destruct (decide (t = t')) as [->|]; [by rewrite lookup_partial_alter_eq|by rewrite lookup_partial_alter_ne]. Qed.
Lemma lookup_flusher s t f t' : flushers (set_flusher s t f) !! t' = if decide (t = t') then f else flushers s !! t'.
Proof. cbn. destruct (decide (t = t')) as [->|]; [by rewrite lookup_partial_alter_eq|by rewrite lookup_partial_alter_ne]. Qed.

Lemma fill_flush st idx buf idx' : fill_page (flush_page st idx buf) idx' = if decide (idx = idx' ∧ (idx * PAGE_SIZE < size st)%nat) then buf else fill_page st idx'.
Proof.
  unfold flush_page, fill_page. destruct (Nat.ltb_spec (idx * PAGE_SIZE) (size st)) as [H|H]; cbn [blocks].
  - destruct (decide (idx = idx')) as [->|Hne]; [rewrite lookup_insert_eq, decide_True by done; done|rewrite lookup_insert_ne by done; by rewrite decide_False by (by intros [? ?])].
  - by rewrite decide_False by (intros [? ?]; lia).
Qed.
Lemma size_flush st idx buf : size (flush_page st idx buf) = size st.
Proof. unfold flush_page. by destruct (_ <? _)%nat. Qed.
Lemma fill_update st n idx : fill_page (update_size st n) idx = fill_page st idx ∧ (size st <= size (update_size st n))%nat ∧ (n <= size (update_size st n))%nat.
Proof. unfold update_size, fill_page. destruct (Nat.leb_spec n (size st)); cbn; split_and!; done || lia. Qed.

(** *** Writers *)

Lemma write_start_inv s t offset src : Inv s → writers s !! t = None → src ≠ [] → Inv (set_writer s t (Some (Copying (chunks offset src) [] (offset + length src)))).
Proof.
  intros [I1 I2 I3 I4 I5] Ht Hs. assert (Hu : ∀ idx, unmarked s idx → unmarked (set_writer s t (Some (Copying (chunks offset src) [] (offset + length src)))) idx).
  { intros idx (t' & w & Hw & Hi). exists t', w. rewrite lookup_writer. by rewrite decide_False by congruence. }
  split; cbn [cache store flushers mapped set_writer]; [| | | |done].
  - intros idx p Hp. destruct (I1 idx p Hp) as [?|[?|?]]; [by left|by right; left|right; right; by apply Hu].
  - intros idx Hi. destruct (I2 idx Hi) as (Hr & ? & ?). split; [|done]. destruct Hr as [?|[(t' & todo & Hm)|?]]; [by left|right; left; exists t', todo; rewrite lookup_writer; by rewrite decide_False by congruence|by right; right].
  - intros t' w. rewrite lookup_writer. destruct (decide (t = t')) as [<-|]; [|apply I3]. intros [= <-]. split; [|by intros idx ?%not_elem_of_nil]. intros idx Hi. by apply chunks_in_range.
  - intros t' f Hf. destruct (I4 t' f Hf) as [Ha Hb]. split; [done|]. intros idx p Hi Hp. destruct (Hb idx p Hi Hp); [by left|right; by apply Hu].
Qed.
Lemma copy_lookup st ip c idx : pages (copy_chunk (get_for_write st ip c) c) !! idx =
  if decide (c_page c = idx) then Some (let p := default (mk_page (if is_full_page c then zeros else fill_page st idx) false) (pages ip !! idx) in mk_page (splice (c_start c) (c_bytes c) (data p)) (dirty p)) else pages ip !! idx.
Proof.
  unfold copy_chunk, get_for_write, get_or_fill. cbn [pages]. destruct (decide (c_page c = idx)) as [<-|Hne].
  - rewrite lookup_alter_eq. destruct (pages ip !! c_page c) as [p|] eqn:E; [by rewrite E|]. cbn [pages]. by rewrite lookup_insert_eq.
  - rewrite lookup_alter_ne by done. destruct (pages ip !! c_page c); [done|]. cbn [pages]. by rewrite lookup_insert_ne.
Qed.

Lemma copy_keys st ip c : dirty_keys (copy_chunk (get_for_write st ip c) c) = dirty_keys ip.
Proof. unfold copy_chunk, get_for_write, get_or_fill. cbn. by destruct (pages ip !! c_page c). Qed.

(** Changing one writer: the others still hold what they held, and it holds what
    it held or what the change says. *)
Lemma unmarked_set s t w w' idx : writers s !! t = Some w → unmarked s idx →
  (idx ∈ pending w → unmarked (set_writer s t w') idx) → unmarked (set_writer s t w') idx.
Proof.
  intros Ht (t' & w0 & Hw & Hi) Hk. destruct (decide (t = t')) as [<-|Hne]; [apply Hk; congruence|]. exists t', w0. rewrite lookup_writer. by rewrite decide_False.
Qed.
Lemma unmarked_here s t w' idx : idx ∈ pending w' → unmarked (set_writer s t (Some w')) idx.
Proof. intros Hi. exists t, w'. rewrite lookup_writer. by rewrite decide_True. Qed.

Lemma reachable_writer s t w w' idx : writers s !! t = Some w → (∀ l, w ≠ Marking l) → reachable s idx → reachable (set_writer s t w') idx.
Proof.
  intros Ht Hn [?|[(t' & todo & Hm)|?]]; [by left| |by right; right]. right; left. exists t', todo. rewrite lookup_writer. rewrite decide_False; [done|]. intros <-. rewrite Ht in Hm. injection Hm as ->. by eapply Hn.
Qed.

Lemma copy_inv s t c todo copied e : Inv s → writers s !! t = Some (Copying (c :: todo) copied e) →
  Inv (set_writer (set_cache s (copy_chunk (get_for_write (store s) (cache s) c) c)) t (Some (Copying todo (copied ++ [c_page c]) e))).
Proof.
  intros [I1 I2 I3 I4 I5] Ht. set (ip := copy_chunk _ _). set (s1 := set_cache s ip).
  assert (Hsome : ∀ idx, is_Some (pages (cache s) !! idx) → is_Some (pages ip !! idx)) by (intros idx H; unfold ip; rewrite copy_lookup; by destruct (decide _)).
  assert (Hu : ∀ idx, unmarked s idx → unmarked (set_writer s1 t (Some (Copying todo (copied ++ [c_page c]) e))) idx).
  { intros idx Hi. apply (unmarked_set s1 t (Copying (c :: todo) copied e)); [done|exact Hi|]. intros H. apply unmarked_here. cbn in *. apply elem_of_app. by left. }
  assert (Hc : unmarked (set_writer s1 t (Some (Copying todo (copied ++ [c_page c]) e))) (c_page c)) by (apply unmarked_here; cbn; apply elem_of_app; right; by apply list_elem_of_singleton).
  destruct (I3 t _ Ht) as [Hr Hp]. split; cbn [cache store flushers mapped set_writer s1 set_cache]; [| | | |done].
  - intros idx p. unfold ip at 1. rewrite copy_lookup. destruct (decide (c_page c = idx)) as [<-|Hne]; [intros _; by right; right|]. intros Hx. unfold ip. rewrite copy_keys. destruct (I1 idx p Hx) as [?|[?|?]]; [by left|by right; left|right; right; by apply Hu].
  - intros idx. unfold ip at 1. rewrite copy_keys. intros Hi. destruct (I2 idx Hi) as (Hre & ? & ?). split; [|split; [done|by apply Hsome]]. by eapply (reachable_writer s1).
  - intros t' w. rewrite lookup_writer. destruct (decide (t = t')) as [<-|Hne].
    + intros [= <-]. split; [intros idx Hi; apply Hr; by rewrite fmap_cons, cons_middle, app_assoc|]. intros idx [Hi|Hi]%elem_of_app; [by apply Hsome, Hp|]. apply list_elem_of_singleton in Hi as ->. unfold ip. rewrite copy_lookup. by rewrite decide_True.
    + intros Hw. specialize (I3 t' w Hw). destruct w as [todo' copied' e'|todo']; [destruct I3 as [? I3]; split; [done|]; intros idx Hi; by apply Hsome, I3|intros idx Hi; split; [by apply I3|by apply Hsome, I3]].
  - intros t' f Hf. destruct (I4 t' f Hf) as [Ha Hb]. split; [intros idx Hi; split; [by apply Ha|by apply Hsome, Ha]|]. intros idx p Hi. unfold ip. rewrite copy_lookup. destruct (decide (c_page c = idx)) as [<-|Hne]; [intros _; by right|]. intros Hx.
    destruct (Hb idx p Hi Hx); [by left|right; by apply Hu].
Qed.

Lemma size_publish_inv s t copied e : Inv s → writers s !! t = Some (Copying [] copied e) → Inv (set_writer (set_store s (update_size (store s) e)) t (Some (Marking copied))).
Proof.
  intros [I1 I2 I3 I4 I5] Ht. set (s1 := set_store s (update_size (store s) e)).
  assert (Hf : ∀ idx, fill_page (store s1) idx = fill_page (store s) idx) by (intros idx; apply fill_update).
  assert (Hin : ∀ idx, in_file s idx → in_file s1 idx) by (intros idx H; unfold in_file in *; cbn; pose proof (fill_update (store s) e idx); lia).
  assert (Hu : ∀ idx, unmarked s idx → unmarked (set_writer s1 t (Some (Marking copied))) idx).
  { intros idx Hi. apply (unmarked_set s1 t (Copying [] copied e)); [done|exact Hi|]. intros H. by apply unmarked_here. }
  destruct (I3 t _ Ht) as [Hr Hp]. split; cbn [cache store flushers mapped set_writer s1 set_store]; [| | | |done].
  - intros idx p Hx. destruct (I1 idx p Hx) as [Hs|[?|?]]; [left; unfold saved in *; cbn; by rewrite Hs|by right; left|right; right; by apply Hu].
  - intros idx Hi. destruct (I2 idx Hi) as (Hre & ? & ?). split; [|split; [by apply Hin|done]]. by eapply (reachable_writer s1).
  - intros t' w. rewrite lookup_writer. destruct (decide (t = t')) as [<-|Hne].
    + intros [= <-] idx Hi. split; [|by apply Hp]. unfold in_file. cbn. pose proof (fill_update (store s) e idx). specialize (Hr idx). cbn in Hr. rewrite app_nil_r in Hr. specialize (Hr Hi). lia.
    + intros Hw. specialize (I3 t' w Hw). destruct w as [todo' copied' e'|todo']; [done|intros idx Hi; split; [by apply Hin, I3|by apply I3]].
  - intros t' f Hff. destruct (I4 t' f Hff) as [Ha Hb]. split; [intros idx Hi; split; [by apply Hin, Ha|by apply Ha]|]. intros idx p Hi Hx. destruct (Hb idx p Hi Hx) as [Hs|?]; [left; unfold saved in *; cbn; by rewrite Hs|right; by apply Hu].
Qed.

Lemma mark_lookup ip idx idx' : (data <$> (pages (mark_dirty ip idx) !! idx')) = data <$> (pages ip !! idx').
Proof. unfold mark_dirty. cbn [pages]. destruct (decide (idx = idx')) as [->|]; [rewrite lookup_alter_eq; by destruct (pages ip !! idx')|by rewrite lookup_alter_ne]. Qed.

Lemma mark_keys ip idx k : k ∈ dirty_keys (mark_dirty ip idx) ↔ k = idx ∨ k ∈ dirty_keys ip.
Proof.
  unfold mark_dirty. cbn [dirty_keys]. destruct (bool_decide _) eqn:E; [apply bool_decide_eq_true in E; split; [by right|by intros [->|]]|]. rewrite elem_of_app, list_elem_of_singleton. tauto.
Qed.

(** Pages that only changed their flags. *)
Definition same_data (m m' : gmap nat CachedPage) : Prop := ∀ idx, (data <$> m' !! idx) = data <$> m !! idx.

Lemma same_data_some m m' idx : same_data m m' → is_Some (m !! idx) → is_Some (m' !! idx).
Proof. intros H [p Hp]. specialize (H idx). rewrite Hp in H. destruct (m' !! idx); [done|by cbn in H]. Qed.
Lemma same_data_back m m' idx p' : same_data m m' → m' !! idx = Some p' → ∃ p, m !! idx = Some p ∧ data p = data p'.
Proof. intros H Hp. specialize (H idx). rewrite Hp in H. destruct (m !! idx) as [p|]; [|done]. exists p. split; [done|]. cbn in H. congruence. Qed.

Lemma mark_inv s t x todo : Inv s → writers s !! t = Some (Marking (x :: todo)) → (∀ t' f, flushers s !! t' = Some f → x ∉ f_written f) →
  Inv (set_writer (set_cache s (mark_dirty (cache s) x)) t (Some (Marking todo))).
Proof.
  intros [I1 I2 I3 I4 I5] Ht Hq. set (s1 := set_cache s (mark_dirty (cache s) x)). pose proof (mark_lookup (cache s) x) as Hd. fold (same_data (pages (cache s)) (pages (mark_dirty (cache s) x))) in Hd.
  assert (Hu : ∀ idx, unmarked s idx → idx = x ∨ unmarked (set_writer s1 t (Some (Marking todo))) idx).
  { intros idx Hi. destruct (decide (idx = x)) as [->|Hne]; [by left|right]. apply (unmarked_set s1 t (Marking (x :: todo))); [done|exact Hi|]. intros H. apply unmarked_here. cbn in *. by apply elem_of_cons in H as [?|?]. }
  assert (Hm : marking (set_writer s1 t (Some (Marking todo)))) by (exists t, todo; rewrite lookup_writer; by rewrite decide_True).
  split; cbn [cache store flushers mapped set_writer s1 set_cache]; [| | | |done].
  - intros idx p' Hp'. destruct (same_data_back _ _ _ _ Hd Hp') as (p & Hp & E). rewrite mark_keys. destruct (I1 idx p Hp) as [Hs|[?|Hi]]; [left; unfold saved in *; cbn; congruence|right; left; by right|].
    destruct (Hu idx Hi) as [?|?]; [right; left; by left|by right; right].
  - intros idx [->|Hi]%mark_keys; (split; [by right; left|]); [|destruct (I2 idx Hi) as (_ & ? & ?); split; [done|by eapply same_data_some]].
    destruct (I3 t _ Ht x) as [? ?]; [by apply elem_of_cons; left|]. split; [done|by eapply same_data_some].
  - intros t' w. rewrite lookup_writer. destruct (decide (t = t')) as [<-|Hne].
    + intros [= <-] idx Hi. destruct (I3 t _ Ht idx) as [? ?]; [by apply elem_of_cons; right|]. split; [done|by eapply same_data_some].
    + intros Hw. specialize (I3 t' w Hw). destruct w as [todo' copied' e'|todo']; [destruct I3 as [? I3]; split; [done|]; intros idx Hi; eapply same_data_some; [exact Hd|by apply I3]|intros idx Hi; split; [by apply I3|eapply same_data_some; [exact Hd|by apply I3]]].
  - intros t' f Hf. destruct (I4 t' f Hf) as [Ha Hb]. split; [intros idx Hi; split; [by apply Ha|eapply same_data_some; [exact Hd|by apply Ha]]|]. intros idx p' Hi Hp'. destruct (same_data_back _ _ _ _ Hd Hp') as (p & Hp & E).
    destruct (Hb idx p Hi Hp) as [Hs|Hun]; [left; unfold saved in *; cbn; congruence|]. destruct (Hu idx Hun) as [->|?]; [by destruct (Hq t' f Hf)|by right].
Qed.

Lemma register_inv s t : Inv s → writers s !! t = Some (Marking []) → Inv (set_writer (set_registered s true) t None).
Proof.
  intros [I1 I2 I3 I4 I5] Ht. set (s1 := set_registered s true).
  assert (Hu : ∀ idx, unmarked s idx → unmarked (set_writer s1 t None) idx) by (intros idx Hi; apply (unmarked_set s1 t (Marking [])); [done|exact Hi|]; by intros ?%not_elem_of_nil).
  split; cbn [cache store flushers mapped set_writer s1 set_registered]; [| | | |done].
  - intros idx p Hp. destruct (I1 idx p Hp) as [?|[?|?]]; [by left|by right; left|right; right; by apply Hu].
  - intros idx Hi. destruct (I2 idx Hi) as (_ & ? & ?). split; [by left|done].
  - intros t' w. rewrite lookup_writer. destruct (decide (t = t')); [done|apply I3].
  - intros t' f Hf. destruct (I4 t' f Hf) as [Ha Hb]. split; [done|]. intros idx p Hi Hp. destruct (Hb idx p Hi Hp); [by left|right; by apply Hu].
Qed.

(** *** Flushers *)

Lemma elem_of_snapshot ip idx : idx ∈ snapshot ip ↔ idx ∈ dirty_keys ip ∧ is_Some (pages ip !! idx).
Proof. unfold snapshot. rewrite list_elem_of_In, filter_In, <- list_elem_of_In, bool_decide_eq_true. done. Qed.

Lemma flush_start_inv s t wb : Inv s → Inv (flush_start s t wb).
Proof.
  intros Hi. unfold flush_start. destruct (flushers s !! t) eqn:Ef; [done|]. destruct (wb && negb (registered s)) eqn:Ew; [done|].
  set (s1 := if wb then set_registered s false else s). assert (Es : cache s1 = cache s ∧ store s1 = store s ∧ writers s1 = writers s ∧ flushers s1 = flushers s ∧ mapped s1 = mapped s) by (unfold s1; by destruct wb).
  destruct Es as (E1 & E2 & E3 & E4 & E5). destruct Hi as [I1 I2 I3 I4 I5].
  assert (Hk : ∀ idx, idx ∈ dirty_keys (cache s) → idx ∈ snapshot (cache s1)) by (intros idx Hx; rewrite E1; apply elem_of_snapshot; split; [done|by apply I2]).
  destruct (snapshot (cache s1)) as [|x l] eqn:Esn.
  - split; rewrite ?E1, ?E3, ?E4, ?E5; unfold saved, unmarked, in_file; rewrite ?E2, ?E3; try done. intros idx Hx. by destruct (not_elem_of_nil (A := nat) idx); apply Hk.
  - set (f := mk_flusher wb (x :: l) []). split; cbn [cache store writers mapped set_flusher]; unfold saved, unmarked, in_file; cbn [store writers set_flusher]; rewrite ?E1, ?E2, ?E3, ?E5; [done| |done| |done].
    + intros idx Hx. destruct (I2 idx Hx) as (Hr & ? & ?). split; [|done]. destruct wb; [right; right; exists t, f; rewrite lookup_flusher, decide_True by done; split; [done|]; split; [done|]; left; by apply Hk|].
      destruct Hr as [?|[(t' & todo & Hm)|(t' & f' & Hf & ? & ?)]]; [by left|right; left; by exists t', todo|right; right; exists t', f'; rewrite lookup_flusher, decide_False by (intros ->; change (flushers s1) with (flushers s) in *; congruence); done].
    + intros t' f'. rewrite lookup_flusher. destruct (decide (t = t')) as [<-|]; [|rewrite E4; apply I4]. intros [= <-]. split; [|by intros idx p ?%not_elem_of_nil]. intros idx [Hx|Hx]; [|by apply not_elem_of_nil in Hx].
      cbn [f f_todo] in Hx. rewrite <- Esn, E1 in Hx. apply elem_of_snapshot in Hx as [Hx _]. destruct (I2 idx Hx) as (_ & ? & ?). done.
Qed.

Lemma flush_page_inv s t wb x todo written p : Inv s → flushers s !! t = Some (mk_flusher wb (x :: todo) written) → pages (cache s) !! x = Some p →
  Inv (set_flusher (set_store s (flush_page (store s) x (data p))) t (Some (mk_flusher wb todo (written ++ [x])))).
Proof.
  intros [I1 I2 I3 I4 I5] Ht Hx. set (s1 := set_store s _). set (f := mk_flusher wb todo _). pose proof (I4 t _ Ht) as [Ha Hb].
  assert (Hin : (x * PAGE_SIZE < size (store s))%nat) by (apply Ha; left; by apply elem_of_cons; left).
  assert (Hsv : ∀ idx p', pages (cache s) !! idx = Some p' → saved s idx p' ∨ idx = x → saved s1 idx p').
  { intros idx p' Hp' H. unfold saved in *. cbn. rewrite fill_flush. destruct (decide (x = idx ∧ _)) as [[<- _]|Hn]; [congruence|]. destruct H as [H| ->]; [done|]. by destruct Hn. }
  assert (Hfile : ∀ idx, in_file s idx → in_file s1 idx) by (intros idx H; unfold in_file in *; cbn; by rewrite size_flush).
  assert (Hheld : ∀ idx, held f idx ↔ held (mk_flusher wb (x :: todo) written) idx) by (intros idx; unfold held, f; cbn; rewrite elem_of_app, !elem_of_cons, elem_of_nil; tauto).
  split; cbn [cache store writers mapped set_flusher s1 set_store]; [| | | |done].
  - intros idx p' Hp'. destruct (I1 idx p' Hp') as [?|[?|?]]; [left; apply Hsv; [done|by left]|by right; left|by right; right].
  - intros idx Hk. destruct (I2 idx Hk) as (Hr & ? & ?). split; [|split; [by apply Hfile|done]]. destruct Hr as [?|[?|(t' & f' & Hf & ? & Hh)]]; [by left|by right; left|]. right; right.
    destruct (decide (t = t')) as [<-|Hne]; [exists t, f; rewrite lookup_flusher, decide_True by done; replace f' with (mk_flusher wb (x :: todo) written) in * by congruence; split; [done|]; split; [done|by apply Hheld]|exists t', f'; by rewrite lookup_flusher, decide_False].
  - intros t' w Hw. specialize (I3 t' w Hw). destruct w as [|todo']; [done|]. intros idx Hi. split; [by apply Hfile, I3|by apply I3].
  - intros t' f'. rewrite lookup_flusher. destruct (decide (t = t')) as [<-|Hne].
    + intros [= <-]. split; [intros idx Hh%Hheld; split; [by apply Hfile, Ha|by apply Ha]|]. intros idx p' [Hi|Hi]%elem_of_app Hp'; [|left; apply Hsv; [done|right; by apply list_elem_of_singleton]].
      destruct (Hb idx p' Hi Hp'); [left; apply Hsv; [done|by left]|by right].
    + intros Hf. destruct (I4 t' f' Hf) as [Ha' Hb']. split; [intros idx Hh; split; [by apply Hfile, Ha'|by apply Ha']|]. intros idx p' Hi Hp'. destruct (Hb' idx p' Hi Hp'); [left; apply Hsv; [done|by left]|by right].
Qed.

Lemma flush_fail_inv s t f : Inv s → flushers s !! t = Some f → f_writeback f = false → Inv (set_flusher s t None).
Proof.
  intros [I1 I2 I3 I4 I5] Ht Hw. split; cbn [cache store writers mapped set_flusher]; [done| |done| |done].
  - intros idx Hk. destruct (I2 idx Hk) as (Hr & ? & ?). split; [|done]. destruct Hr as [?|[?|(t' & f' & Hf & Hw' & Hh)]]; [by left|by right; left|]. right; right. exists t', f'. rewrite lookup_flusher, decide_False; [done|]. intros ->. congruence.
  - intros t' f'. rewrite lookup_flusher. destruct (decide (t = t')); [done|apply I4].
Qed.

Lemma clean_data m l : same_data m (foldr (alter (set_dirty false)) m l).
Proof.
  induction l as [|x l IH]; [done|]. intros idx. cbn [foldr]. destruct (decide (x = idx)) as [->|]; [rewrite lookup_alter_eq, <- IH; by destruct (foldr _ m l !! idx)|rewrite lookup_alter_ne by done; apply IH].
Qed.

Lemma clean_keys ip l k : k ∈ dirty_keys (clean_up ip l) ↔ k ∈ dirty_keys ip ∧ k ∉ l.
Proof. unfold clean_up. cbn [dirty_keys]. rewrite list_elem_of_In, filter_In, <- list_elem_of_In, negb_true_iff, bool_decide_eq_false. done. Qed.

Lemma flush_done_inv s t wb written : Inv s → flushers s !! t = Some (mk_flusher wb [] written) → Inv (set_flusher (set_cache s (clean_up (cache s) written)) t None).
Proof.
  intros [I1 I2 I3 I4 I5] Ht. pose proof (I4 t _ Ht) as [Ha Hb]. pose proof (clean_data (pages (cache s)) written) as Hd. change (foldr _ _ written) with (pages (clean_up (cache s) written)) in Hd.
  split; cbn [cache store writers mapped set_flusher set_cache]; [| | | |done].
  - intros idx p' Hp'. destruct (same_data_back _ _ _ _ Hd Hp') as (p & Hp & E). rewrite clean_keys. destruct (decide (idx ∈ written)) as [Hi|Hi].
    + destruct (Hb idx p Hi Hp) as [Hs|?]; [left; unfold saved in *; cbn; congruence|by right; right].
    + destruct (I1 idx p Hp) as [Hs|[?|?]]; [left; unfold saved in *; cbn; congruence|by right; left|by right; right].
  - intros idx [Hk Hn]%clean_keys. destruct (I2 idx Hk) as (Hr & ? & ?). split; [|split; [done|by eapply same_data_some]]. destruct Hr as [?|[?|(t' & f' & Hf & ? & Hh)]]; [by left|by right; left|]. right; right. exists t', f'. rewrite lookup_flusher, decide_False; [done|].
    intros ->. change (flushers (set_cache s _)) with (flushers s) in Hf. rewrite Ht in Hf. injection Hf as <-. destruct Hh as [Hh|Hh]; [by apply not_elem_of_nil in Hh|done].
  - intros t' w Hw. specialize (I3 t' w Hw). destruct w as [todo' copied' e'|todo']; [destruct I3 as [? I3]; split; [done|]; intros idx Hi; eapply same_data_some; [exact Hd|by apply I3]|intros idx Hi; split; [by apply I3|eapply same_data_some; [exact Hd|by apply I3]]].
  - intros t' f'. rewrite lookup_flusher. destruct (decide (t = t')) as [|Hne]; [done|]. intros Hf. destruct (I4 t' f' Hf) as [Ha' Hb']. split; [intros idx Hi; split; [by apply Ha'|eapply same_data_some; [exact Hd|by apply Ha']]|]. intros idx p' Hi Hp'. destruct (same_data_back _ _ _ _ Hd Hp') as (p & Hp & E).
    destruct (Hb' idx p Hi Hp) as [Hs|?]; [left; unfold saved in *; cbn; congruence|by right].
Qed.

Lemma cache_exec_inv s e : Inv s → quiet s e → Inv (exec s e).
Proof.
  intros Hi Hq. destruct e as [t offset src|t ok|t|t wb|t ok|t|idx|idx buf|idx]; cbn [exec quiet] in *; try done.
  - destruct (writers s !! t) eqn:Ew; [done|]. destruct src; [done|]. destruct (_ <? _); [done|]. by apply write_start_inv.
  - subst ok. unfold write_step. destruct (writers s !! t) as [[[|c todo] copied e|todo]|] eqn:Ew; [by apply size_publish_inv|exact (copy_inv s t c todo copied e Hi Ew)|done|done].
  - unfold mark_step. destruct (writers s !! t) as [[todo copied e|[|x todo]]|] eqn:Ew; [done|by apply register_inv|by apply mark_inv|done].
  - by apply flush_start_inv.
  - unfold flush_page_step. destruct (flushers s !! t) as [[wb [|x todo] written]|] eqn:Ef; [done| |done]. destruct (pages (cache s) !! x) as [p|] eqn:Ep; [|done].
    destruct ok; [by apply flush_page_inv|]. destruct Hq as [?|Hq]; [done|]. eapply flush_fail_inv; [done|exact Ef|by apply Hq].
  - unfold flush_done. destruct (flushers s !! t) as [[wb [|x todo] written]|] eqn:Ef; [by eapply flush_done_inv|done|done].
  - unfold mapped_store. rewrite (i_mapped s Hi). done.
  - unfold msync. rewrite (i_mapped s Hi). by destruct (pages (cache s) !! idx).
Qed.

Lemma cache_reach_inv b n s : reach b n s → Inv s.
Proof.
  induction 1 as [|s e _ IH Hq]; [|by apply cache_exec_inv]. split; cbn; [by intros ? ?|by intros ? ?%not_elem_of_nil|by intros ? ?|by intros ? ?|done].
Qed.

(** C6 Nothing written is forgotten. In every interleaving of writes, fsyncs and
    passes of the writeback thread on a file, as long as no page is marked dirty
    between its write-out by a flush and that flush's clean-up, no copy from the
    caller and no write of the writeback thread fails, and no page is mapped
    shared: a cached page that differs from what is stored belongs to a write
    still on its way to mark it, or it is a dirty key inside the file which the
    writeback thread will reach. *)
Theorem unsaved_page_is_tracked b n s idx p : reach b n s → pages (cache s) !! idx = Some p → data p ≠ fill_page (store s) idx →
  unmarked s idx ∨ idx ∈ dirty_keys (cache s) ∧ in_file s idx ∧ reachable s idx.
Proof.
  intros Hs%cache_reach_inv Hp Hd. destruct (i_track s Hs idx p Hp) as [?|[Hk|?]]; [done| |by left]. right. destruct (i_reach s Hs idx Hk) as (? & ? & _). done.
Qed.

(** ** A flush to its end *)

Definition flush_events (t : Z) (n : nat) : list event := replicate n (EFlushPage t true) ++ [EFlushDone t].

(** The store after the pages of [l], in order. *)
Definition stored (ip : InodePages) (st : Store) (l : list nat) : Store :=
  foldl (λ st idx, match pages ip !! idx with Some p => flush_page st idx (data p) | None => st end) st l.

Lemma flush_pages_run t wb l : ∀ s written, flushers s !! t = Some (mk_flusher wb l written) → (∀ idx, idx ∈ l → is_Some (pages (cache s) !! idx)) →
  run s (replicate (length l) (EFlushPage t true)) = set_flusher (set_store s (stored (cache s) (store s) l)) t (Some (mk_flusher wb [] (written ++ l))).
Proof.
  induction l as [|x l IH]; intros s written Hf Hp.
  - cbn. rewrite app_nil_r. destruct s as [c st r w f m]. cbn in *. unfold set_flusher, set_store. cbn. f_equal. rewrite <- Hf. symmetry. apply partial_alter_self.
  - cbn [length replicate run foldl]. change (foldl exec ?s ?es) with (run s es). cbn [exec]. unfold flush_page_step. rewrite Hf. destruct (Hp x) as [p Ep]; [by apply elem_of_cons; left|]. rewrite Ep.
    rewrite (IH _ (written ++ [x])); [|by rewrite lookup_flusher, decide_True|intros idx Hi; apply Hp; by apply elem_of_cons; right]. cbn [stored foldl]. rewrite Ep. rewrite <- app_assoc. cbn [app].
    unfold set_flusher, set_store. cbn. f_equal. apply map_eq. intros i. destruct (decide (t = i)) as [<-|]; [by rewrite !lookup_partial_alter_eq|by rewrite !lookup_partial_alter_ne].
Qed.

Lemma stored_spec ip l : ∀ st, (∀ idx, idx ∈ l → (idx * PAGE_SIZE < size st)%nat) →
  size (stored ip st l) = size st ∧ ∀ idx, fill_page (stored ip st l) idx = match pages ip !! idx with Some p => if decide (idx ∈ l) then data p else fill_page st idx | None => fill_page st idx end.
Proof.
  induction l as [|x l IH]; intros st Hl; [split; [done|]; intros idx; cbn; destruct (pages ip !! idx); [|done]; by rewrite decide_False by apply not_elem_of_nil|].
  cbn [stored foldl]. change (foldl _ ?st l) with (stored ip st l). set (st1 := match pages ip !! x with Some p => flush_page st x (data p) | None => st end).
  assert (Hs : size st1 = size st) by (unfold st1; destruct (pages ip !! x); [apply size_flush|done]). destruct (IH st1) as [E1 E2]; [intros idx Hi; rewrite Hs; apply Hl; by apply elem_of_cons; right|]. split; [congruence|].
  intros idx. rewrite E2. unfold st1. destruct (decide (idx = x)) as [->|Hne].
  - destruct (pages ip !! x) as [p|] eqn:Ex; [|done]. rewrite (decide_True (P := x ∈ x :: l)) by (by apply elem_of_cons; left). destruct (decide (x ∈ l)); [done|]. rewrite fill_flush. rewrite decide_True; [done|]. split; [done|]. apply Hl. by apply elem_of_cons; left.
  - assert (Ef : fill_page (match pages ip !! x with Some p => flush_page st x (data p) | None => st end) idx = fill_page st idx) by (destruct (pages ip !! x); [|done]; rewrite fill_flush; rewrite decide_False; [done|]; intros [? ?]; congruence).
    rewrite Ef. destruct (pages ip !! idx); [|done]. destruct (decide (idx ∈ l)), (decide (idx ∈ x :: l)) as [H|H]; try done; [exfalso; apply H; by apply elem_of_cons; right|by apply elem_of_cons in H as [?|?]].
Qed.

(** An [fsync] that is not interrupted saves the file. From any quiet state
    with no write under way and nobody else flushing, its flush stores every
    cached page as it is in the cache and empties the dirty keys; the contents of
    the cache and the size do not change. *)
Theorem fsync_saves_file b n s t : reach b n s → writers s = ∅ → flushers s !! t = None →
  let s' := run s (EFlush t false :: match snapshot (cache s) with [] => [] | l => flush_events t (length l) end) in
  (∀ idx p, pages (cache s') !! idx = Some p → data p = fill_page (store s') idx) ∧ dirty_keys (cache s') = [] ∧ size (store s') = size (store s) ∧
  ∀ idx, data <$> (pages (cache s') !! idx) = data <$> (pages (cache s) !! idx).
Proof.
  intros Hs%cache_reach_inv Hw Hf. cbn [run foldl exec]. unfold flush_start. rewrite Hf. cbn [andb]. destruct Hs as [I1 I2 _ _ _].
  assert (Hk : ∀ idx, idx ∈ dirty_keys (cache s) ↔ idx ∈ snapshot (cache s)) by (intros idx; rewrite elem_of_snapshot; split; [intros H; split; [done|by apply I2]|by intros [? _]]).
  assert (Hun : ∀ idx, ¬ unmarked s idx) by (intros idx (t' & w & H & _); by rewrite Hw, lookup_empty in H).
  destruct (snapshot (cache s)) as [|x l] eqn:Esn.
  - cbn [foldl]. split_and!; [|by apply elem_of_nil_inv; intros idx ?%Hk%not_elem_of_nil|done|done]. intros idx p Hp. destruct (I1 idx p Hp) as [?|[H|H]]; [done|by apply Hk, not_elem_of_nil in H|by apply Hun in H].
  - unfold flush_events. change (foldl exec ?s ?es) with (run s es). unfold run. rewrite foldl_app. change (foldl exec ?s (replicate _ _)) with (run s (replicate (length (x :: l)) (EFlushPage t true))).
    rewrite (flush_pages_run t false (x :: l) _ []); [|by rewrite lookup_flusher, decide_True|intros idx Hi; cbn [cache set_flusher]; apply I2; by apply Hk].
    cbn [foldl exec]. unfold flush_done. rewrite lookup_flusher, decide_True by done. cbn [cache store set_flusher set_cache set_store app].
    destruct (stored_spec (cache s) (x :: l) (store s)) as [Esz Efl]; [intros idx Hi; apply (I2 idx); by apply Hk|].
    split_and!; [| |done|intros idx; apply (clean_data (pages (cache s)) (x :: l))].
    + intros idx p'. unfold clean_up. cbn [pages]. intros Hp'. destruct (same_data_back _ _ _ _ (clean_data (pages (cache s)) (x :: l)) Hp') as (p & Hp & E). rewrite Efl, Hp. destruct (decide _) as [|Hn]; [done|].
      destruct (I1 idx p Hp) as [Hs|[H|H]]; [unfold saved in Hs; congruence|by apply Hk in H|by apply Hun in H].
    + apply elem_of_nil_inv. intros k [H1 H2]%clean_keys. by apply Hk in H1.
Qed.

(** A flush that fails has cleared no flag and dropped no key. *)
Lemma failed_flush_keeps_marks s t : cache (flush_page_step s t false) = cache s.
Proof. unfold flush_page_step. destruct (flushers s !! t) as [[wb [|x todo] written]|]; [done| |done]. by destruct (pages (cache s) !! x). Qed.

(** ** A write is read back *)

(** The page as a reader gets it: cached, or filled from the store. *)
Definition page_bytes (s : State) (idx : nat) : list Z := match pages (cache s) !! idx with Some p => data p | None => fill_page (store s) idx end.

Definition byte_of (pb : nat → list Z) (q : nat) : Z := pb (q / PAGE_SIZE)%nat !!! (q mod PAGE_SIZE)%nat.

(** The pages after the pieces of a write. *)
Definition apply_chunk (pb : nat → list Z) (c : chunk) : nat → list Z :=
  λ idx, if decide (c_page c = idx) then splice (c_start c) (c_bytes c) (pb idx) else pb idx.

Lemma splice_at {A} `{Inhabited A} (off : nat) (src buf : list A) i : (off + length src <= length buf)%nat →
  splice off src buf !!! i = if decide (off <= i < off + length src)%nat then src !!! (i - off)%nat else buf !!! i.
Proof.
  intros Hl. unfold splice. destruct (decide (i < off)%nat) as [H1|H1].
  - rewrite lookup_total_app_l by (rewrite length_take; lia). rewrite decide_False by lia. by rewrite lookup_total_take_lt.
  - rewrite lookup_total_app_r by (rewrite length_take; lia). rewrite length_take, Nat.min_l by lia. destruct (decide (i < off + length src)%nat) as [H2|H2].
    + rewrite decide_True by lia. by rewrite lookup_total_app_l by lia.
    + rewrite decide_False by lia. rewrite lookup_total_app_r by lia. rewrite lookup_total_drop. f_equal. lia.
Qed.

Lemma page_of q page : (page * PAGE_SIZE <= q < S page * PAGE_SIZE)%nat → (q / PAGE_SIZE = page ∧ q mod PAGE_SIZE = q - page * PAGE_SIZE)%nat.
Proof.
  intros H. assert (E : (q / PAGE_SIZE = page)%nat) by (symmetry; apply (Nat.div_unique _ _ _ (q - page * PAGE_SIZE)); unfold PAGE_SIZE in *; lia). split; [done|].
  pose proof (Nat.div_mod q PAGE_SIZE ltac:(done)). rewrite E in *. lia.
Qed.

Lemma page_bounds q : (q / PAGE_SIZE * PAGE_SIZE <= q < S (q / PAGE_SIZE) * PAGE_SIZE)%nat.
Proof. pose proof (Nat.div_mod q PAGE_SIZE ltac:(done)). pose proof (Nat.mod_upper_bound q PAGE_SIZE ltac:(done)). lia. Qed.

Lemma chunks_bytes n : ∀ page offset src pb, (page * PAGE_SIZE <= offset < S page * PAGE_SIZE)%nat → (offset + length src <= (page + n) * PAGE_SIZE)%nat → (∀ idx, length (pb idx) = PAGE_SIZE) →
  let pb' := foldl apply_chunk pb (chunks_from n page offset src) in
  (∀ q, byte_of pb' q = if decide (offset <= q < offset + length src)%nat then src !!! (q - offset)%nat else byte_of pb q) ∧ ∀ idx, length (pb' idx) = PAGE_SIZE.
Proof.
  induction n as [|n IH]; intros page offset src pb Ho Hl Hpb.
  - cbn. split; [|done]. intros q. by rewrite decide_False by lia.
  - cbn [chunks_from foldl]. set (ws := (offset - page * PAGE_SIZE)%nat). set (wl := Nat.min (length src) (PAGE_SIZE - ws)). set (c := mk_chunk page ws (take wl src)).
    assert (Hwl : (ws + length (take wl src) <= PAGE_SIZE)%nat) by (rewrite length_take; lia).
    assert (Hpb1 : ∀ idx, length (apply_chunk pb c idx) = PAGE_SIZE).
    { intros idx. unfold apply_chunk. destruct (decide _); [|done]. rewrite length_splice; [done|]. by rewrite Hpb. }
    destruct (IH (S page) (S page * PAGE_SIZE)%nat (drop wl src) (apply_chunk pb c)) as [H1 H2]; [unfold PAGE_SIZE; lia|rewrite length_drop; lia|done|]. split; [|done].
    intros q. rewrite H1, length_drop. destruct (decide (S page * PAGE_SIZE <= q < S page * PAGE_SIZE + (length src - wl))%nat) as [Hq|Hq].
    + rewrite decide_True by lia. rewrite lookup_total_drop. f_equal. lia.
    + unfold byte_of, apply_chunk at 1. cbn [c c_page]. destruct (decide (page = q / PAGE_SIZE)%nat) as [E|E].
      * pose proof (page_bounds q) as Hb. rewrite <- E in Hb. destruct (page_of q page Hb) as [_ Em]. change (c_start c) with ws. change (c_bytes c) with (take wl src). rewrite splice_at by (by rewrite Hpb). rewrite Em, length_take. destruct (decide (ws <= _ < _)%nat) as [Hin|Hout].
        -- rewrite decide_True by lia. rewrite lookup_total_take_lt by lia. f_equal. lia.
        -- rewrite decide_False by lia. done.
      * rewrite decide_False; [done|]. intros Hin. apply E. symmetry. apply page_of. lia.
Qed.

Lemma splice_full {A} (src a b : list A) : length src = length a → length a = length b → splice 0 src a = splice 0 src b.
Proof. intros H1 H2. unfold splice. rewrite !drop_ge by lia. done. Qed.

Lemma copy_page_bytes s c : (∀ idx, length (page_bytes s idx) = PAGE_SIZE) →
  ∀ idx, page_bytes (set_cache s (copy_chunk (get_for_write (store s) (cache s) c) c)) idx = apply_chunk (page_bytes s) c idx.
Proof.
  intros Hl idx. unfold page_bytes at 1. cbn [cache store set_cache]. rewrite copy_lookup. unfold apply_chunk. destruct (decide (c_page c = idx)) as [<-|]; [|done].
  cbv zeta. cbn [data]. specialize (Hl (c_page c)). unfold page_bytes in *. destruct (pages (cache s) !! c_page c) as [p|]; [done|]. cbn [default data]. destruct (is_full_page c) eqn:Ef; [|done].
  unfold is_full_page in Ef. apply andb_prop in Ef as [E1 E2]. apply Nat.eqb_eq in E1, E2. rewrite E1. apply splice_full; [rewrite E2; unfold zeros; by rewrite length_replicate|]. unfold zeros. rewrite length_replicate. by rewrite Hl.
Qed.

(** What copying the pieces does to the state, the pages apart. *)
Lemma copy_run t e : ∀ todo copied s, writers s !! t = Some (Copying todo copied e) → (∀ idx, length (page_bytes s idx) = PAGE_SIZE) → (∀ c, c ∈ todo → (c_start c + length (c_bytes c) <= PAGE_SIZE)%nat) →
  let s' := run s (replicate (length todo) (ECopy t true)) in
  writers s' !! t = Some (Copying [] (copied ++ (c_page <$> todo)) e) ∧ store s' = store s ∧ registered s' = registered s ∧ dirty_keys (cache s') = dirty_keys (cache s) ∧
  ∀ idx, page_bytes s' idx = foldl apply_chunk (page_bytes s) todo idx.
Proof.
  induction todo as [|c todo IH]; intros copied s Hw Hl Hc; [cbn; by rewrite app_nil_r|]. cbn [length replicate run foldl exec]. change (foldl exec ?s ?es) with (run s es). unfold write_step. rewrite Hw.
  set (s1 := set_writer _ t _). pose proof (copy_page_bytes s c Hl) as Hpb.
  assert (Hpb1 : ∀ idx, page_bytes s1 idx = apply_chunk (page_bytes s) c idx) by exact Hpb.
  assert (Hl1 : ∀ idx, length (page_bytes s1 idx) = PAGE_SIZE).
  { intros idx. rewrite Hpb1. unfold apply_chunk. destruct (decide _); [|done]. rewrite length_splice; [done|]. rewrite Hl. apply Hc. by apply elem_of_cons; left. }
  destruct (IH (copied ++ [c_page c]) s1) as (E1 & E2 & E3 & E4 & E5); [by unfold s1; rewrite lookup_writer, decide_True|done|intros c' ?; apply Hc; by apply elem_of_cons; right|].
  split; [by rewrite E1, fmap_cons, <- app_assoc|]. split; [by rewrite E2|]. split; [by rewrite E3|]. split; [rewrite E4; exact (copy_keys (store s) (cache s) c)|].
  intros idx. rewrite E5. assert (Hext : ∀ l (f g : nat → list Z), (∀ i, f i = g i) → foldl apply_chunk f l idx = foldl apply_chunk g l idx).
  { clear. induction l as [|x l IHl]; intros f g H; [apply H|]. cbn [foldl]. apply IHl. intros i. unfold apply_chunk. by rewrite H. }
  by apply Hext.
Qed.

Lemma chunks_fit n : ∀ page offset src c, (page * PAGE_SIZE <= offset < S page * PAGE_SIZE)%nat → c ∈ chunks_from n page offset src → (c_start c + length (c_bytes c) <= PAGE_SIZE)%nat.
Proof.
  induction n as [|n IH]; intros page offset src c Ho; cbn [chunks_from]; [by intros ?%not_elem_of_nil|]. intros [->|Hc]%elem_of_cons; [cbn [c_start c_bytes]; rewrite length_take; lia|].
  eapply (IH (S page)); [|exact Hc]. unfold PAGE_SIZE. lia.
Qed.

Lemma mark_run t : ∀ todo s, writers s !! t = Some (Marking todo) → let s' := run s (replicate (S (length todo)) (EMark t)) in
  writers s' !! t = None ∧ registered s' = true ∧ store s' = store s ∧ (∀ idx, idx ∈ todo ∨ idx ∈ dirty_keys (cache s) → idx ∈ dirty_keys (cache s')) ∧ same_data (pages (cache s)) (pages (cache s')).
Proof.
  induction todo as [|x todo IH]; intros s Hw.
  - cbn [length replicate run foldl exec]. unfold mark_step. rewrite Hw. split; [by rewrite lookup_writer, decide_True|]. split; [done|]. split; [done|]. split; [by intros idx [?%not_elem_of_nil|?]|done].
  - change (replicate (S (length (x :: todo))) (EMark t)) with (EMark t :: replicate (S (length todo)) (EMark t)). cbn [run foldl exec]. change (foldl exec ?s ?es) with (run s es). unfold mark_step. rewrite Hw. set (s1 := set_writer _ t _).
    destruct (IH s1) as (E1 & E2 & E3 & E4 & E5); [by unfold s1; rewrite lookup_writer, decide_True|]. split; [done|]. split; [done|]. split; [by rewrite E3|]. split.
    + intros idx Hi. apply E4. cbn [s1 cache set_writer set_cache]. rewrite mark_keys. destruct Hi as [Hi|Hi]; [apply elem_of_cons in Hi as [->|?]; [right; by left|by left]|right; by right].
    + intros idx. rewrite E5. apply (mark_lookup (cache s) x).
Qed.

(** A write from beginning to end, with nobody in between. *)
Definition write_events (t : Z) (offset : nat) (src : list Z) : list event :=
  let n := length (chunks offset src) in EWrite t offset src :: replicate (S n) (ECopy t true) ++ replicate (S n) (EMark t).

Lemma write_effect s t offset src : writers s !! t = None → src ≠ [] → Z.of_nat (offset + length src) <= U64_MAX → (∀ idx, length (page_bytes s idx) = PAGE_SIZE) →
  let s' := run s (write_events t offset src) in
  (∀ q, byte_of (page_bytes s') q = if decide (offset <= q < offset + length src)%nat then src !!! (q - offset)%nat else byte_of (page_bytes s) q) ∧
  size (store s') = Nat.max (size (store s)) (offset + length src) ∧ (∀ c, c ∈ chunks offset src → c_page c ∈ dirty_keys (cache s')) ∧ registered s' = true.
Proof.
  intros Hw Hs Hov Hl. unfold write_events. cbn [run foldl]. change (foldl exec ?s ?es) with (run s es). cbn [exec]. rewrite Hw. destruct src as [|b src']; [done|]. rewrite (proj2 (Z.ltb_ge _ _) Hov). set (src := b :: src') in *. set (cs := chunks offset src).
  set (s1 := set_writer s t _). unfold run. rewrite foldl_app. rewrite (replicate_S_end (length cs)), foldl_app. cbn [foldl].
  destruct (copy_run t (offset + length src) cs [] s1) as (E1 & E2 & E3 & E4 & E5); [by unfold s1; rewrite lookup_writer, decide_True|done|intros c Hc; eapply chunks_fit; [apply page_bounds|exact Hc]|].
  unfold run in *. set (s2 := foldl exec s1 (replicate (length cs) (ECopy t true))) in *. cbn [exec].
  set (s3 := set_writer (set_store s2 (update_size (store s2) (offset + length src))) t (Some (Marking (c_page <$> cs)))).
  assert (Ew : write_step s2 t true = s3) by (unfold write_step; by rewrite E1). rewrite Ew. destruct (mark_run t (c_page <$> cs) s3) as (F1 & F2 & F3 & F4 & F5); [by unfold s3; rewrite lookup_writer, decide_True|]. rewrite length_fmap in F1, F2, F3, F4, F5. unfold run in *.
  set (s4 := foldl exec s3 _) in *. assert (Hst : store s3 = update_size (store s) (offset + length src)) by (change (store s3) with (update_size (store s2) (offset + length src)); by rewrite E2).
  assert (Hpb : ∀ idx, page_bytes s4 idx = foldl apply_chunk (page_bytes s) cs idx).
  { intros idx. rewrite <- E5. unfold page_bytes. rewrite F3, Hst, E2. specialize (F5 idx). cbn [s3 cache set_writer set_store] in F5. pose proof (fill_update (store s) (offset + length src) idx) as (Ef & _). change (store s1) with (store s).
    destruct (pages (cache s4) !! idx) as [p|], (pages (cache s2) !! idx) as [p'|]; cbn in F5; [congruence|done|done|exact Ef]. }
  assert (Hsz : (offset + length src <= (offset / PAGE_SIZE + ((offset + length src - 1) / PAGE_SIZE - offset / PAGE_SIZE + 1)) * PAGE_SIZE)%nat).
  { pose proof (page_bounds (offset + length src - 1)). assert (offset / PAGE_SIZE <= (offset + length src - 1) / PAGE_SIZE)%nat by (apply Nat.Div0.div_le_mono; cbn; lia). cbn [length] in *. nia. }
  split_and!.
  - intros q. destruct (chunks_bytes _ _ offset src (page_bytes s) (page_bounds offset) Hsz Hl) as [H _]. rewrite <- H. unfold byte_of. by rewrite Hpb.
  - rewrite F3, Hst. unfold update_size. destruct (Nat.leb_spec (offset + length src) (size (store s))); cbn [size]; lia.
  - intros c Hc. apply F4. left. apply list_elem_of_fmap. by exists c.
  - done.
Qed.

(** C14 A write is read back, and nothing else changes. After a write of [src] at
    [offset] through the cache, none of whose copies fails and with nobody in
    between, a reader finds the written bytes there and every
    other byte of the file as before, whether its pages were cached or not and
    wherever the write starts and ends in a page; the size covers the write, its
    pages are dirty keys, and the inode is on the list of the writeback thread. A
    write whose end does not fit 64 bits changes nothing. *)
Theorem write_read_back s t offset src : writers s !! t = None → src ≠ [] → (∀ idx, length (page_bytes s idx) = PAGE_SIZE) →
  let s' := run s (write_events t offset src) in
  if U64_MAX <? Z.of_nat (offset + length src) then s' = s
  else
    (∀ q, byte_of (page_bytes s') q = if decide (offset <= q < offset + length src)%nat then src !!! (q - offset)%nat else byte_of (page_bytes s) q) ∧
    size (store s') = Nat.max (size (store s)) (offset + length src) ∧ (∀ c, c ∈ chunks offset src → c_page c ∈ dirty_keys (cache s')) ∧ registered s' = true.
Proof.
  intros Hw Hs Hl s'. destruct (Z.ltb_spec U64_MAX (Z.of_nat (offset + length src))) as [Ho|Ho]; [|by apply write_effect].
  assert (Hidle : ∀ es, Forall (λ e, exec s e = s) es → run s es = s) by (induction 1 as [|e es He _ IH]; [done|]; unfold run in *; cbn [foldl]; by rewrite He).
  apply Hidle. unfold write_events. constructor; [cbn [exec]; rewrite Hw; destruct src; [done|]; by rewrite (proj2 (Z.ltb_lt _ _) Ho)|].
  apply Forall_app. split; apply Forall_replicate; cbn [exec]; unfold write_step, mark_step; by rewrite Hw.
Qed.

(** ** Truncation *)

Lemma truncate_cache_spec ip n idx : (∀ i p, pages ip !! i = Some p → length (data p) = PAGE_SIZE) →
  match pages (truncate_cache ip n) !! idx with
  | Some p => (idx * PAGE_SIZE < n)%nat ∧ (∃ p0, pages ip !! idx = Some p0 ∧ dirty p = dirty p0 ∧
      ∀ q, (q < PAGE_SIZE)%nat → data p !!! q = if decide (idx * PAGE_SIZE + q < n)%nat then data p0 !!! q else 0)
  | None => pages ip !! idx = None ∨ (n <= idx * PAGE_SIZE)%nat
  end.
Proof.
  intros Hl. unfold truncate_cache. set (from := ((n + (PAGE_SIZE - 1)) / PAGE_SIZE)%nat). pose proof (page_bounds (n + (PAGE_SIZE - 1))) as Hb. fold from in Hb. pose proof (page_bounds n) as Hn.
  assert (Hin : ∀ i, (i < from ↔ i * PAGE_SIZE < n)%nat) by (intros i; unfold PAGE_SIZE in *; split; intros; nia).
  assert (E : pages (invalidate_from ip from) !! idx = if decide (idx < from)%nat then pages ip !! idx else None).
  { unfold invalidate_from. cbn [pages]. destruct (pages ip !! idx) as [p|] eqn:Ep; destruct (decide (idx < from)%nat).
    - by apply map_lookup_filter_Some.
    - apply map_lookup_filter_None. right. intros x Hx. cbn. done.
    - apply map_lookup_filter_None. by left.
    - apply map_lookup_filter_None. by left. }
  assert (Hmod : (n mod PAGE_SIZE = n - n / PAGE_SIZE * PAGE_SIZE)%nat) by (pose proof (Nat.div_mod n PAGE_SIZE ltac:(done)); lia).
  unfold zero_tail. destruct (Nat.eqb_spec (n mod PAGE_SIZE) 0) as [H0|H0].
  - rewrite E. destruct (decide (idx < from)%nat) as [Hi|Hi]; [|right; apply Nat.nlt_ge; by rewrite <- Hin]. destruct (pages ip !! idx) as [p|] eqn:Ep; [|by left]. apply Hin in Hi. split; [done|]. exists p. split; [done|]. split; [done|].
    intros q Hq. rewrite decide_True; [done|]. unfold PAGE_SIZE in *. nia.
  - cbn [pages]. destruct (decide (n / PAGE_SIZE = idx)%nat) as [<-|Hne].
    + rewrite lookup_alter_eq, E. rewrite decide_True by (apply Hin; lia). destruct (pages ip !! (n / PAGE_SIZE)%nat) as [p|] eqn:Ep; cbn [fmap option_fmap option_map]; [|by left]. split; [lia|]. exists p. split; [done|]. split; [done|]. intros q Hq. cbn [data]. specialize (Hl _ _ Ep).
      clear E. revert Hn Hmod H0. generalize (n / PAGE_SIZE * PAGE_SIZE)%nat (n mod PAGE_SIZE)%nat. intros d r Hn Hmod H0.
      destruct (decide (d + q < n)%nat) as [Hlt|Hge]; [rewrite lookup_total_app_l by (rewrite length_take; lia); by rewrite lookup_total_take_lt by lia|].
      rewrite lookup_total_app_r by (rewrite length_take; lia). rewrite length_take, Nat.min_l by lia. by rewrite lookup_total_replicate_2 by lia.
    + rewrite lookup_alter_ne, E by done. destruct (decide (idx < from)%nat) as [Hi|Hi]; [|right; apply Nat.nlt_ge; by rewrite <- Hin]. destruct (pages ip !! idx) as [p|] eqn:Ep; [|by left]. apply Hin in Hi. split; [done|]. exists p. split; [done|]. split; [done|].
      intros q Hq. rewrite decide_True; [done|]. unfold PAGE_SIZE in *. nia.
Qed.

(** ** What is forgotten *)

(** The first byte of page 0 as cached and as stored, the dirty keys, whether the
    inode is on the list, and whether any thread is still at work. *)
Definition outline (s : State) : option Z * Z * list nat * bool * bool :=
  ((λ p, data p !!! 0%nat) <$> pages (cache s) !! 0%nat, fill_page (store s) 0 !!! 0%nat, dirty_keys (cache s), registered s,
   negb (bool_decide (writers s = ∅)) || negb (bool_decide (flushers s = ∅))).

(** With no dirty keys a pass stores nothing, so what it has lost stays lost. *)
Lemma no_keys_nothing_stored s t wb : dirty_keys (cache s) = [] → store (flush_start s t wb) = store s ∧ flushers (flush_start s t wb) = flushers s.
Proof.
  intros Hk. unfold flush_start. destruct (flushers s !! t); [done|]. destruct (wb && _); [done|]. assert (E : snapshot (cache (if wb then set_registered s false else s)) = []) by (unfold snapshot; destruct wb; cbn; by rewrite Hk). rewrite E. by destruct wb.
Qed.

Definition write_ev (t : Z) (b : Z) : list event := [EWrite t 0 [b]; ECopy t true; ECopy t true].

(** A write whose mark falls between the write-out of its page by a flush and the
    flush's clean-up: the key is already in the list, so the mark adds nothing,
    and the clean-up takes it away. *)
Lemma racing_write_lost : outline (run (boot ∅ 0) (write_ev 1 1 ++ [EMark 1; EMark 1; EFlush 9 true; EFlushPage 9 true] ++ write_ev 2 2 ++ [EMark 2; EFlushDone 9; EMark 2])) =
  (Some 2, 1, [], true, false).
Proof. vm_compute. reflexivity. Qed.

(** A pass that fails leaves the key and has taken the inode off the list: no
    later pass looks at it. *)
Lemma failed_pass_not_retried : outline (run (boot ∅ 0) (write_ev 1 1 ++ [EMark 1; EMark 1; EFlush 9 true; EFlushPage 9 false; EFlush 9 true])) = (Some 1, 0, [0%nat], false, false).
Proof. vm_compute. reflexivity. Qed.

(** A write of a whole page whose copy from the caller fails leaves a page of
    zeros in the cache, clean, over what is stored. *)
Lemma failed_copy_leaves_zeros : outline (run (boot {[0%nat := replicate PAGE_SIZE 5]} PAGE_SIZE) [EWrite 1 0 (replicate PAGE_SIZE 7); ECopy 1 false]) = (Some 0, 5, [], false, false).
Proof. vm_compute. reflexivity. Qed.

(** A page mapped shared is marked by its first fault only: what is stored
    through the mapping after a pass is never written, by [msync] either. *)
Lemma second_store_lost : outline (run (boot {[0%nat := replicate PAGE_SIZE 5]} PAGE_SIZE)
  [EFault 0; EStore 0 (replicate PAGE_SIZE 1); EFlush 9 true; EFlushPage 9 true; EFlushDone 9; EStore 0 (replicate PAGE_SIZE 2); EMsync 0; EFlush 9 true]) = (Some 2, 1, [], false, false).
Proof. vm_compute. reflexivity. Qed.

(** ** Witnesses *)

Definition demo_events : list event := write_ev 1 1 ++ [EMark 1].

Lemma cache_reach_run b n es : ∀ s, reach b n s → (∀ i, match es !! i with Some e => quiet (run s (take i es)) e | None => True end) → reach b n (run s es).
Proof.
  induction es as [|e es IH]; intros s Hs Hq; [done|]. cbn [run foldl]. apply IH; [apply reach_exec; [done|exact (Hq 0%nat)]|]. intros i. specialize (Hq (S i)). exact Hq.
Qed.

Lemma demo_quiet : reach ∅ 0 (run (boot ∅ 0) demo_events).
Proof. apply cache_reach_run; [apply reach_boot|]. intros i. do 4 (destruct i as [|i]; [vm_compute; done|]). done. Qed.

Lemma unsaved_page_is_tracked_witness : let s := run (boot ∅ 0) demo_events in unmarked s 0 ∨ 0%nat ∈ dirty_keys (cache s) ∧ in_file s 0 ∧ reachable s 0.
Proof.
  apply (unsaved_page_is_tracked ∅ 0 _ 0 (mk_page (1 :: replicate 4095 0) true) demo_quiet); [vm_compute; reflexivity|]. vm_compute. discriminate.
Defined.

Definition written_events : list event := demo_events ++ [EMark 1].
Lemma written_quiet : reach ∅ 0 (run (boot ∅ 0) written_events).
Proof. apply cache_reach_run; [apply reach_boot|]. intros i. do 5 (destruct i as [|i]; [vm_compute; done|]). done. Qed.

Lemma fsync_saves_file_witness : let s := run (boot ∅ 0) written_events in
  dirty_keys (cache (run s (EFlush 9 false :: match snapshot (cache s) with [] => [] | l => flush_events 9 (length l) end))) = [].
Proof. apply (fsync_saves_file ∅ 0 _ 9 written_quiet); vm_compute; reflexivity. Defined.

Lemma write_read_back_witness : let s' := run (boot ∅ 0) (write_events 1 4094 [1; 2; 3]) in byte_of (page_bytes s') 4096 = 3 ∧ size (store s') = 4097%nat.
Proof.
  pose proof (write_read_back (boot ∅ 0) 1 4094 [1; 2; 3] eq_refl ltac:(discriminate) ltac:(intros idx; vm_compute; reflexivity)) as H. cbv zeta in H.
  assert (Ho : (U64_MAX <? Z.of_nat (4094 + length [1; 2; 3])) = false) by reflexivity. rewrite Ho in H. destruct H as (H1 & H2 & _). split; [|rewrite H2; reflexivity].
  rewrite H1. rewrite decide_True by (cbn; lia). reflexivity.
Defined.

End PageCacheSafety.
