(* ===== verification/Partition.v ===== *)
(** * Partition tables (kernel/src/fs/gpt.rs, kernel/src/fs/mbr.rs)

    The scan of a disk at boot: the GUID partition table, the master boot record
    as its fallback, the file system probes of both, and [scan_device] of
    kernel/src/fs/mod.rs, which puts them together.  A sector read is a list of
    bytes and a structure is read at its offsets.  The disk is a parameter: a
    read of a number of bytes at a block address, which fills the whole buffer or
    fails, and answers the same while the scan runs.  Arithmetic that leaves its
    type panics, as the kernel is built.  What is logged is left
    out, except for the arithmetic done to print it. *)

From stdpp Require Import strings.
From S2P Require Import Prelude.

Module Partition.

Inductive BlockError := Io | Timeout | Cancelled | InvalidArg | DeviceGone | NoMemory.

Inductive what := GptHeaderW | GptEntryW | Fat32BootW | MbrW.
Inductive PartitionError :=
| Read (lba sectors : Z) (source : BlockError)
| Signature (w : what)
| Truncated (w : what)
| Malformed (w : what).

Inductive PartitionType :=
| EfiSystem | MicrosoftBasicData | LinuxFilesystem | LinuxSwap | Unknown (guid : list Z)
| Fat12 | Fat16Small | Fat16 | Fat32 | Ntfs | Extended | EfiSystemMbr | MbrUnknown (id : Z).

Inductive FilesystemType := FsFat12 | FsFat16 | FsFat32 | FsEfs | FsNtfs | FsIso9660 | FsMemfs | FsDevfs | FsProcfs | FsUnknown.

Record partition := mk_part {
  index : nat; starting_lba : Z; ending_lba : Z; size_sectors : Z; partition_type : PartitionType;
  name : list Z; filesystem : option FilesystemType; device_id : Z; unique_partition_guid : list Z
}.

Definition text (s : string) : list Z := (λ a, Z.of_nat (Ascii.nat_of_ascii a)) <$> String.list_ascii_of_string s.

(** [a + b] in [u64]. *)
Definition add64 (a b : Z) : outcome Z := if a + b <=? U64_MAX then Ret (a + b) else Panic.

(** The [?] of a function that can also panic. *)
Definition R (A : Type) : Type := outcome (result PartitionError A).
#[export] Instance R_ret : MRet R := λ A a, Ret (Ok a).
#[export] Instance R_bind : MBind R := λ A B f m, match m with Panic => Panic | Ret (Err e) => Ret (Err e) | Ret (Ok a) => f a end.
Definition err {A} (e : PartitionError) : R A := Ret (Err e).
Definition lift {A} (m : outcome A) : R A := match m with Ret a => Ret (Ok a) | Panic => Panic end.

(** ** The boot sector of a FAT file system *)

Definition bytes_per_sector (s : list Z) : Z := le_at 11 2 s.
Definition sectors_per_cluster (s : list Z) : Z := le_at 13 1 s.
Definition reserved_sector_count (s : list Z) : Z := le_at 14 2 s.
Definition num_fats (s : list Z) : Z := le_at 16 1 s.
Definition root_entry_count (s : list Z) : Z := le_at 17 2 s.
Definition total_sectors_16 (s : list Z) : Z := le_at 19 2 s.
Definition fat_size_16 (s : list Z) : Z := le_at 22 2 s.
Definition total_sectors_32 (s : list Z) : Z := le_at 32 4 s.
Definition fat_size_32 (s : list Z) : Z := le_at 36 4 s.
Definition boot_signature (s : list Z) : Z := le_at 66 1 s.
Definition file_system_type (s : list Z) : list Z := sub 82 8 s.
Definition oem_name (s : list Z) : list Z := sub 3 8 s.

Definition BOOT_SECTOR_SIZE : nat := 512.

Definition is_power_of_two (x : Z) : bool := (0 <? x) && (Z.land x (x - 1) =? 0).

Definition is_fat32 (s : list Z) : bool :=
  (bytes_per_sector s =? 512) && (0 <? sectors_per_cluster s) && is_power_of_two (sectors_per_cluster s) && (0 <? num_fats s) &&
  (root_entry_count s =? 0) && (total_sectors_16 s =? 0) && (fat_size_16 s =? 0) && (0 <? fat_size_32 s) && (boot_signature s =? 0x29) &&
  bool_decide (take 5 (file_system_type s) = text "FAT32").

Definition is_fat16_or_fat12_lenient (s : list Z) : bool :=
  (bytes_per_sector s =? 512) && (0 <? sectors_per_cluster s) && (sectors_per_cluster s <=? 128) && (0 <? num_fats s) && (num_fats s <=? 2) &&
  (0 <? fat_size_16 s) && (total_sectors_32 s =? 0).

(** [u32] arithmetic; the quotient panics on a cluster of no sectors. *)
Definition calculate_cluster_count (s : list Z) : outcome Z :=
  let total_sectors := if negb (total_sectors_16 s =? 0) then total_sectors_16 s else total_sectors_32 s in
  let root_dir_sectors := (root_entry_count s * 32 + 511) / 512 in
  let data_sectors := sat_sub (sat_sub (sat_sub total_sectors (reserved_sector_count s)) (num_fats s * fat_size_16 s)) root_dir_sectors in
  if sectors_per_cluster s =? 0 then Panic else Ret (data_sectors / sectors_per_cluster s).

(** [core::str::from_utf8(..).is_ok()]: the well-formed sequences of the encoding. *)
Fixpoint is_utf8 (fuel : nat) (l : list Z) : bool :=
  match fuel with
  | O => match l with [] => true | _ => false end
  | S fuel =>
      let tail b := (0x80 <=? b) && (b <=? 0xBF) in
      match l with
      | [] => true
      | b0 :: r0 =>
          if b0 <=? 0x7F then is_utf8 fuel r0
          else if (0xC2 <=? b0) && (b0 <=? 0xDF) then match r0 with b1 :: r => tail b1 && is_utf8 fuel r | _ => false end
          else if (0xE0 <=? b0) && (b0 <=? 0xEF) then
            match r0 with
            | b1 :: b2 :: r => ((if b0 =? 0xE0 then 0xA0 else 0x80) <=? b1) && (b1 <=? (if b0 =? 0xED then 0x9F else 0xBF)) && tail b2 && is_utf8 fuel r
            | _ => false
            end
          else if (0xF0 <=? b0) && (b0 <=? 0xF4) then
            match r0 with
            | b1 :: b2 :: b3 :: r => ((if b0 =? 0xF0 then 0x90 else 0x80) <=? b1) && (b1 <=? (if b0 =? 0xF4 then 0x8F else 0xBF)) && tail b2 && tail b3 && is_utf8 fuel r
            | _ => false
            end
          else false
      end
  end.

Fixpoint contains (l needle : list Z) : bool :=
  bool_decide (take (length needle) l = needle) || match l with [] => false | _ :: l => contains l needle end.

Definition detect_fat_by_heuristics (s : list Z) : option FilesystemType :=
  let oem_str := if is_utf8 8 (oem_name s) then oem_name s else [] in
  if (contains oem_str (text "MSDOS") || contains oem_str (text "mkfs") || contains oem_str (text "FAT")) &&
     ((bytes_per_sector s =? 512) && (0 <? sectors_per_cluster s) && (sectors_per_cluster s <=? 64)) then Some FsFat16
  else if ((s !!! 0%nat =? 0xEB) || (s !!! 0%nat =? 0xE9)) && (bytes_per_sector s =? 512) then Some FsFat16
  else None.

(** [sector_data[i]], checked. *)
Definition byte_at (s : list Z) (i : nat) : outcome Z := match s !! i with Some b => Ret b | None => Panic end.

Definition detect_fat_family (s : list Z) : outcome (option FilesystemType) :=
  if (length s <? BOOT_SECTOR_SIZE)%nat then Ret None
  else
    b510 ← byte_at s 510;
    (if negb (b510 =? 0x55) then Ret None
     else
       b511 ← byte_at s 511;
       if negb (b511 =? 0xAA) then Ret None
       else if is_fat32 s then Ret (Some FsFat32)
       else if is_fat16_or_fat12_lenient s then
         cluster_count ← calculate_cluster_count s;
         Ret (if cluster_count =? 0 then detect_fat_by_heuristics s
              else if cluster_count <? 4085 then Some FsFat12
              else if cluster_count <? 65525 then Some FsFat16
              else None)
       else Ret (detect_fat_by_heuristics s)).

Definition detect_ntfs (s : list Z) : option FilesystemType :=
  if (length s <? 512)%nat then None
  else if bool_decide (sub 3 8 s = text "NTFS    ") && existsb (Z.eqb (le_at 11 2 s)) [512; 1024; 2048; 4096] then Some FsNtfs
  else None.

(** ** The disk *)

Class Disk := { read_blocking : Z → nat → result BlockError (list Z) }.

(** What the tables rely on: a read that succeeds has filled its buffer. *)
Class DiskLaws `{Disk} := { read_fills : ∀ lba n buf, read_blocking lba n = Ok buf → length buf = n ∧ Forall byte_ok buf }.

Section OnDisk.

Context `{D : Disk} (device : Z).

Definition read_sectors (lba sectors : Z) : result PartitionError (list Z) :=
  match read_blocking lba (Z.to_nat sectors * 512) with
  | Ok buf => Ok buf
  | Err source => Err (Read lba sectors source)
  end.

Definition EFS_MAGIC : Z := 0x45465321.

Definition efs_at (lba : Z) : bool :=
  match read_sectors lba 8 with
  | Ok data => (4 <=? length data)%nat && (le_at 0 4 data =? EFS_MAGIC)
  | Err _ => false
  end.

(** ** The GUID partition table *)

Definition HEADER_SIZE : nat := 92.
Definition ENTRY_SIZE : nat := 128.

Definition gpt_detect_filesystem (start : Z) : R (option FilesystemType) :=
  efs_lba ← lift (add64 start 8);
  if efs_at efs_lba then mret (Some FsEfs)
  else
    sector ← Ret (read_sectors start 1) : R (list Z);
    if (length sector <? BOOT_SECTOR_SIZE)%nat then mret (Some FsUnknown)
    else if is_fat32 sector then mret (Some FsFat32)
    else mret (Some FsUnknown).

Definition guid_type (guid : list Z) : PartitionType :=
  if bool_decide (guid = [0x28;0x73;0x2A;0xC1;0x1F;0xF8;0xD2;0x11;0xBA;0x4B;0x00;0xA0;0xC9;0x3E;0xC9;0x3B]) then EfiSystem
  else if bool_decide (guid = [0xA2;0xA0;0xD0;0xEB;0xE5;0xB9;0x33;0x44;0x87;0xC0;0x68;0xB6;0xB7;0x26;0x99;0xC7]) then MicrosoftBasicData
  else if bool_decide (guid = [0xAF;0x3D;0xC6;0x0F;0x83;0x84;0x72;0x47;0x8E;0x79;0x3D;0x69;0xD8;0x47;0x7D;0xE4]) then LinuxFilesystem
  else if bool_decide (guid = [0x6D;0xFD;0x57;0x06;0xAB;0xA4;0xC4;0x44;0x84;0xE5;0x09;0x33;0xC8;0x4B;0x4F;0x4F]) then LinuxSwap
  else Unknown guid.

(** The name: 16-bit units up to the first zero, without the surrogates that are
    no character on their own. *)
Fixpoint utf16_name (n off : nat) (e : list Z) : list Z :=
  match n with
  | O => []
  | S n =>
      let u := le_at off 2 e in
      if u =? 0 then []
      else if (0xD800 <=? u) && (u <=? 0xDFFF) then utf16_name n (off + 2) e
      else u :: utf16_name n (off + 2) e
  end.

Definition type_guid (e : list Z) : list Z := sub 0 16 e.
Definition entry_start (e : list Z) : Z := le_at 32 8 e.
Definition entry_end (e : list Z) : Z := le_at 40 8 e.
Definition is_used (e : list Z) : bool := negb (bool_decide (type_guid e = replicate 16 0)).
Definition entry_size_sectors (e : list Z) : outcome Z :=
  if entry_start e <=? entry_end e then add64 (entry_end e - entry_start e) 1 else Ret 0.

(** What the table reports of a used entry. *)
Definition gpt_partition (i : nat) (e : list Z) : R partition :=
  fs ← gpt_detect_filesystem (entry_start e);
  size ← lift (entry_size_sectors e);
  mret (mk_part i (entry_start e) (entry_end e) size (guid_type (type_guid e)) (utf16_name 36 56 e) fs device (sub 16 16 e)).

Section Entries.

(** The address of the buffer the entries were read to. *)
Context (base : Z).

(** The loop over the entries, [n] of them from [i] on. *)
Fixpoint gpt_entries (n i esize : nat) (data : list Z) : R (list partition) :=
  match n with
  | O => mret []
  | S n =>
      let off := (i * esize)%nat in
      if (length data <? off + ENTRY_SIZE)%nat then mret []
      else if negb ((base + Z.of_nat off) mod 8 =? 0) then err (Malformed GptEntryW)
      else
        let e := sub off ENTRY_SIZE data in
        if is_used e then
          p ← gpt_partition i e;
          ps ← gpt_entries n (S i) esize data;
          mret (p :: ps)
        else gpt_entries n (S i) esize data
  end.

Definition parse_gpt : R (list partition) :=
  header ← Ret (read_sectors 1 1) : R (list Z);
  if (length header <? HEADER_SIZE)%nat then err (Truncated GptHeaderW)
  else if negb (bool_decide (sub 0 8 header = text "EFI PART")) then err (Signature GptHeaderW)
  else
    let esize := le_at 84 4 header in
    let num := le_at 80 4 header in
    if esize =? 0 then Panic
    else
      let entries_per_sector := 512 / esize in
      if entries_per_sector =? 0 then Panic
      else
        let sectors_needed := (num + entries_per_sector - 1) / entries_per_sector in
        data ← Ret (read_sectors (le_at 72 8 header) (wrap 16 sectors_needed)) : R (list Z);
        gpt_entries (Z.to_nat num) 0 (Z.to_nat esize) data.
End Entries.

(** ** The master boot record *)

Definition mbr_is_used (e : list Z) : bool := negb (e !!! 4%nat =? 0) && (0 <? le_at 12 4 e).
Definition is_extended (e : list Z) : bool := existsb (Z.eqb (e !!! 4%nat)) [0x05; 0x0F; 0x85].
Definition mbr_start (e : list Z) : Z := le_at 8 4 e.
Definition mbr_size (e : list Z) : Z := le_at 12 4 e.
Definition mbr_end (e : list Z) : Z := if 0 <? mbr_size e then mbr_start e + mbr_size e - 1 else mbr_start e.

Definition mbr_type (id : Z) : PartitionType :=
  if id =? 0x01 then Fat12 else if id =? 0x04 then Fat16Small else if id =? 0x06 then Fat16
  else if (id =? 0x0B) || (id =? 0x0C) then Fat32 else if id =? 0x07 then Ntfs
  else if id =? 0x82 then LinuxSwap else if id =? 0x83 then LinuxFilesystem
  else if (id =? 0x05) || (id =? 0x0F) || (id =? 0x85) then Extended
  else if id =? 0xEF then EfiSystemMbr else MbrUnknown id.

Definition mbr_name (id : Z) (i : nat) : list Z :=
  let type_name :=
    if (id =? 0x0B) || (id =? 0x0C) then "FAT32"%string else if id =? 0x07 then "NTFS"%string else if id =? 0x82 then "Linux Swap"%string
    else if id =? 0x83 then "Linux"%string else if (id =? 0x05) || (id =? 0x0F) then "Extended"%string else if id =? 0xEF then "EFI System"%string
    else "Unknown"%string in
  text "MBR Partition " ++ [48 + Z.of_nat (S i)] ++ text " (" ++ text type_name ++ text ")".

Definition generate_mbr_guid (i : nat) : list Z := le_bytes 8 device ++ le_bytes 4 (Z.of_nat i) ++ [0x4D; 0x42; 0x52; 0x00].

Definition is_pvd (s : list Z) : bool := (6 <=? length s)%nat && bool_decide (sub 1 5 s = text "CD001") && (s !!! 0%nat =? 1).

Fixpoint iso_offsets (start : Z) (offs : list Z) : outcome bool :=
  match offs with
  | [] => Ret false
  | o :: offs =>
      lba ← add64 start o;
      match read_sectors lba 1 with
      | Ok s => if is_pvd s then Ret true else iso_offsets start offs
      | Err _ => iso_offsets start offs
      end
  end.

Definition detect_iso9660 (start : Z) : R (option FilesystemType) :=
  lba ← lift (add64 start 16);
  s ← Ret (read_sectors lba 1) : R (list Z);
  if (length s <? 512)%nat then mret None
  else if is_pvd s then mret (Some FsIso9660)
  else if 0 <? start then
    found ← lift (iso_offsets start [0; 16; 32]);
    mret (if (found : bool) then Some FsIso9660 else None)
  else mret None.

Definition mbr_detect_filesystem (start : Z) : R (option FilesystemType) :=
  sector ← Ret (read_sectors start 1) : R (list Z);
  if (length sector <? 512)%nat then mret (Some FsUnknown)
  else
    efs_lba ← lift (add64 start 8);
    if efs_at efs_lba then mret (Some FsEfs)
    else
      iso ← lift (match detect_iso9660 start with Panic => Panic | Ret (Ok r) => Ret r | Ret (Err _) => Ret None end);
      match iso with
      | Some fs => mret (Some fs)
      | None =>
          fat ← lift (detect_fat_family sector);
          match fat with
          | Some fs => mret (Some fs)
          | None => match detect_ntfs sector with Some fs => mret (Some fs) | None => mret (Some FsUnknown) end
          end
      end.

Fixpoint mbr_entries (n i : nat) (mbr : list Z) : R (list partition) :=
  match n with
  | O => mret []
  | S n =>
      let e := sub (446 + 16 * i) 16 mbr in
      if mbr_is_used e && negb (is_extended e) then
        fs ← mbr_detect_filesystem (mbr_start e);
        ps ← mbr_entries n (S i) mbr;
        mret (mk_part i (mbr_start e) (mbr_end e) (mbr_size e) (mbr_type (e !!! 4%nat)) (mbr_name (e !!! 4%nat) i) fs device (generate_mbr_guid i) :: ps)
      else mbr_entries n (S i) mbr
  end.

Definition parse_mbr : R (list partition) :=
  mbr ← Ret (read_sectors 0 1) : R (list Z);
  if (length mbr <? 512)%nat then err (Truncated MbrW)
  else if negb (bool_decide (sub 510 2 mbr = [0x55; 0xAA])) then err (Signature MbrW)
  else mbr_entries 4 0 mbr.

(** ** The scan *)

(** Both [print_partitions] compute a size in bytes for the log. *)
Fixpoint print_partitions (ps : list partition) : outcome unit :=
  match ps with
  | [] => Ret ()
  | p :: ps => if size_sectors p * 512 <=? U64_MAX then print_partitions ps else Panic
  end.

Definition scan_device (is_atapi : bool) (base : Z) : outcome (list partition) :=
  if is_atapi then Ret []
  else
    match parse_gpt base with
    | Panic => Panic
    | Ret (Ok found) => print_partitions found;; Ret found
    | Ret (Err _) =>
        match parse_mbr with
        | Panic => Panic
        | Ret (Ok found) => print_partitions found;; Ret found
        | Ret (Err _) => Ret []
        end
    end.

End OnDisk.

End Partition.
