(* ===== verification/PartitionSafety.v ===== *)
(** * What the scan of a disk finds

    The entries of a GUID partition table are listed one for one; a table laid
    out as the format says is read back as written; what stops the kernel is
    named; and a disk without such a table never does. *)

From stdpp Require Import strings.
From S2P Require Import Prelude Partition.

Module PartitionSafety.

Import Partition.

Section WithDisk.

Context {D : Disk} {DL : DiskLaws} (device base : Z).

(** ** Entries *)

(** The [i]th entry of an array of entries of [esize] bytes. *)
Definition entry (esize : nat) (data : list Z) (i : nat) : nat * list Z := (i, sub (i * esize) ENTRY_SIZE data).

(** The partitions of a list of entries, in order, up to the first that fails. *)
Fixpoint collect (l : list (nat * list Z)) : R (list partition) :=
  match l with
  | [] => mret []
  | (i, e) :: l => p ← gpt_partition device i e; ps ← collect l; mret (p :: ps)
  end.

Definition used (ie : nat * list Z) : bool := is_used ie.2.

Lemma gpt_entries_collect esize data : (base mod 8 = 0) → (esize mod 8 = 0)%nat → ∀ n i, ((i + n) * esize <= length data)%nat → (ENTRY_SIZE <= esize)%nat →
  gpt_entries device base n i esize data = collect (List.filter used (entry esize data <$> seq i n)).
Proof.
  intros Hb He. induction n as [|n IH]; intros i Hl Hs; [done|]. cbn [gpt_entries seq fmap list_fmap List.filter].
  destruct (Nat.ltb_spec (length data) (i * esize + ENTRY_SIZE)) as [H|H]; [nia|].
  assert ((base + Z.of_nat (i * esize)) mod 8 = 0) as ->.
  { apply Nat.Div0.div_exact in He. rewrite Nat2Z.inj_mul, He, Nat2Z.inj_mul. rewrite Zplus_mod, Hb. replace (Z.of_nat i * (Z.of_nat 8 * Z.of_nat (esize / 8))) with (Z.of_nat i * Z.of_nat (esize / 8) * 8) by lia. by rewrite Z_mod_mult. }
  cbn [Z.eqb negb]. change (used (entry esize data i)) with (is_used (sub (i * esize) ENTRY_SIZE data)).
  destruct (is_used _); [|apply IH; [lia|done]]. cbn [collect entry]. by rewrite IH by lia.
Qed.

(** The header of a table the scan accepts. *)
Definition esize_of (header : list Z) : Z := le_at 84 4 header.
Definition num_of (header : list Z) : Z := le_at 80 4 header.
Definition sectors_of (header : list Z) : Z := (num_of header + 512 / esize_of header - 1) / (512 / esize_of header).

Definition header_ok (header : list Z) : Prop :=
  read_sectors 1 1 = Ok header ∧ sub 0 8 header = text "EFI PART".

Lemma read_length lba n buf : 0 <= n → read_sectors lba n = Ok buf → length buf = (Z.to_nat n * 512)%nat ∧ Forall byte_ok buf.
Proof. unfold read_sectors. intros Hn. destruct (read_blocking _ _) eqn:E; [|done]. intros [= <-]. by apply read_fills in E. Qed.

Lemma le_at_nonneg off n buf : Forall byte_ok buf → 0 <= le_at off n buf.
Proof. intros H. unfold le_at. apply le_num_bound. by apply Forall_sub. Qed.

Lemma parse_gpt_eq header : header_ok header → 0 < esize_of header <= 512 →
  parse_gpt device base = match read_sectors (le_at 72 8 header) (wrap 16 (sectors_of header)) with
                          | Ok data => gpt_entries device base (Z.to_nat (num_of header)) 0 (Z.to_nat (esize_of header)) data
                          | Err e => Ret (Err e)
                          end.
Proof.
  intros [Hr Hs] He. unfold parse_gpt, mbind at 1, R_bind at 1. rewrite Hr. destruct (read_length 1 1 header ltac:(lia) Hr) as [Hl _]. rewrite Hl. cbn [Nat.ltb]. change ((Z.to_nat 1 * 512 <? HEADER_SIZE)%nat) with false.
  cbv iota. rewrite bool_decide_eq_true_2 by done. cbn [negb]. fold (esize_of header) (num_of header). rewrite (proj2 (Z.eqb_neq (esize_of header) 0)) by lia.
  rewrite (proj2 (Z.eqb_neq (512 / esize_of header) 0)) by (pose proof (Z.div_str_pos 512 (esize_of header)); lia). fold (sectors_of header).
  unfold mbind, R_bind. by destruct (read_sectors _ _).
Qed.

Lemma gpt_lists header data : header_ok header → base mod 8 = 0 → 128 <= esize_of header <= 512 → esize_of header mod 8 = 0 →
  sectors_of header < 2 ^ 16 → read_sectors (le_at 72 8 header) (sectors_of header) = Ok data →
  parse_gpt device base = collect (List.filter used (entry (Z.to_nat (esize_of header)) data <$> seq 0 (Z.to_nat (num_of header)))).
Proof.
  intros Hh Hb He He8 Hs Hd. rewrite (parse_gpt_eq header) by (done || lia). destruct Hh as [Hr _]. destruct (read_length 1 1 header ltac:(lia) Hr) as [_ Hbytes].
  pose proof (le_at_nonneg 80 4 header Hbytes) as Hn. fold (num_of header) in Hn. set (z := esize_of header) in *. set (n := num_of header) in *.
  assert (Hq : 1 <= 512 / z) by (pose proof (Z.div_str_pos 512 z); lia).
  assert (Hc : n <= sectors_of header * (512 / z)).
  { unfold sectors_of. fold z n. pose proof (Z.div_mod (n + 512 / z - 1) (512 / z) ltac:(lia)). pose proof (Z.mod_pos_bound (n + 512 / z - 1) (512 / z) ltac:(lia)). nia. }
  assert (H0 : 0 <= sectors_of header) by (unfold sectors_of; fold z n; apply Z.div_pos; lia).
  unfold wrap. rewrite Z.mod_small, Hd by lia. destruct (read_length _ _ _ H0 Hd) as [Hl _].
  apply gpt_entries_collect; [done| | |unfold ENTRY_SIZE; lia].
  - apply Nat2Z.inj. rewrite Nat2Z.inj_mod, Z2Nat.id by lia. done.
  - rewrite Hl. pose proof (Z.mul_div_le 512 z ltac:(lia)). apply Nat2Z.inj_le. rewrite !Nat2Z.inj_mul, Nat2Z.inj_add, !Z2Nat.id by lia. nia.
Qed.

(** A GUID partition table is listed entry by entry. For a header with the
    signature, entries of 128 to 512 bytes in steps of 8, and an array that a
    16-bit number of sectors holds, the result is exactly the used entries of the
    whole array in order, each decoded at its own offset, or the first failure of
    a probe; no entry is cut off by the read and none is read twice. *)
Theorem gpt_lists_every_entry header data : header_ok header → base mod 8 = 0 → 128 <= esize_of header <= 512 → esize_of header mod 8 = 0 →
  sectors_of header < 2 ^ 16 → read_sectors (le_at 72 8 header) (sectors_of header) = Ok data →
  parse_gpt device base = collect (List.filter used (entry (Z.to_nat (esize_of header)) data <$> seq 0 (Z.to_nat (num_of header)))).
Proof. apply gpt_lists. Qed.

(** ** Tables as they are written *)

Record gentry := mk_ge { g_type : list Z; g_uniq : list Z; g_start : Z; g_end : Z; g_attr : Z; g_name : list Z }.

Record gentry_ok (e : gentry) : Prop := {
  ok_type : length (g_type e) = 16%nat; ok_uniq : length (g_uniq e) = 16%nat;
  ok_start : in_width 64 (g_start e); ok_end : in_width 64 (g_end e); ok_attr : in_width 64 (g_attr e);
  ok_name : length (g_name e) = 36%nat ∧ Forall (in_width 16) (g_name e)
}.

(** An entry in the layout of the format. *)
Definition encode_entry (e : gentry) : list Z :=
  g_type e ++ g_uniq e ++ le_bytes 8 (g_start e) ++ le_bytes 8 (g_end e) ++ le_bytes 8 (g_attr e) ++ mjoin (le_bytes 2 <$> g_name e).

(** The characters of a name: up to the first zero, without surrogates. *)
Fixpoint shown (units : list Z) : list Z :=
  match units with
  | [] => []
  | u :: units => if u =? 0 then [] else if (0xD800 <=? u) && (u <=? 0xDFFF) then shown units else u :: shown units
  end.

Lemma length_units units : length (mjoin (le_bytes 2 <$> units)) = (2 * length units)%nat.
Proof. induction units as [|u units IH]; [done|]. rewrite fmap_cons, mjoin_cons, length_app, length_le_bytes, IH. cbn. lia. Qed.

Lemma utf16_name_spec units : ∀ pre, Forall (in_width 16) units → utf16_name (length units) (length pre) (pre ++ mjoin (le_bytes 2 <$> units)) = shown units.
Proof.
  induction units as [|u units IH]; intros pre Hu; [done|]. apply Forall_cons in Hu as [Hu Hus]. cbn [length utf16_name shown]. rewrite fmap_cons, mjoin_cons.
  rewrite le_at_skip, Nat.sub_diag, le_at_head by (done || lia). rewrite app_assoc.
  replace (length pre + 2)%nat with (length (pre ++ le_bytes 2 u)) by (rewrite length_app, length_le_bytes; done). by rewrite IH.
Qed.

Lemma length_encode_entry e : gentry_ok e → length (encode_entry e) = ENTRY_SIZE.
Proof. intros [? ? ? ? ? [Hn ?]]. unfold encode_entry. rewrite !length_app, !length_le_bytes, length_units, Hn. unfold ENTRY_SIZE. lia. Qed.

Lemma encode_entry_fields e : gentry_ok e →
  type_guid (encode_entry e) = g_type e ∧ sub 16 16 (encode_entry e) = g_uniq e ∧ entry_start (encode_entry e) = g_start e ∧ entry_end (encode_entry e) = g_end e ∧
  utf16_name 36 56 (encode_entry e) = shown (g_name e).
Proof.
  intros [Ht Hu Hs He Ha [Hn Hw]]. unfold type_guid, entry_start, entry_end. split_and!.
  - unfold encode_entry. by rewrite sub_prefix.
  - unfold encode_entry. rewrite sub_app_r, Ht by lia. by rewrite sub_prefix.
  - unfold encode_entry. rewrite le_at_skip, Ht by lia. rewrite le_at_skip, Hu by lia. by rewrite le_at_head.
  - unfold encode_entry. rewrite le_at_skip, Ht by lia. rewrite le_at_skip, Hu by lia. rewrite le_at_skip by (rewrite length_le_bytes; lia). rewrite length_le_bytes. by rewrite le_at_head.
  - pose proof (utf16_name_spec (g_name e) (g_type e ++ g_uniq e ++ le_bytes 8 (g_start e) ++ le_bytes 8 (g_end e) ++ le_bytes 8 (g_attr e)) Hw) as H.
    rewrite Hn, !length_app, !length_le_bytes, Ht, Hu in H. rewrite <- !app_assoc in H. exact H.
Qed.

(** What the scan should say of the [i]th entry. *)
Definition partition_of (probe : Z → option FilesystemType) (i : nat) (e : gentry) : partition :=
  mk_part i (g_start e) (g_end e) (g_end e - g_start e + 1) (guid_type (g_type e)) (shown (g_name e)) (probe (g_start e)) device (g_uniq e).

Definition in_use (e : gentry) : Prop := g_type e ≠ replicate 16 0.
#[local] Instance in_use_dec e : Decision (in_use e) := _.

(** The entries in use, with their positions, from [i] on. *)
Fixpoint partitions_of (probe : Z → option FilesystemType) (i : nat) (es : list gentry) : list partition :=
  match es with
  | [] => []
  | e :: es => (if decide (in_use e) then [partition_of probe i e] else []) ++ partitions_of probe (S i) es
  end.

Definition sound_entry (probe : Z → option FilesystemType) (e : gentry) : Prop :=
  gentry_ok e ∧ (in_use e → g_start e <= g_end e ∧ g_end e - g_start e < U64_MAX ∧ gpt_detect_filesystem (g_start e) = Ret (Ok (probe (g_start e)))).

Lemma gpt_partition_of probe i e : sound_entry probe e → in_use e → gpt_partition device i (encode_entry e) = Ret (Ok (partition_of probe i e)).
Proof.
  intros [Hok Hs] Hu. destruct (Hs Hu) as (Hle & Hsz & Hp). destruct (encode_entry_fields e Hok) as (E1 & E2 & E3 & E4 & E5).
  unfold gpt_partition, entry_size_sectors. rewrite E1, E2, E3, E4, E5, Hp, (proj2 (Z.leb_le _ _) Hle). unfold add64. rewrite (proj2 (Z.leb_le _ _)) by lia. done.
Qed.

Lemma collect_written probe (es : list gentry) : ∀ i pre data rest, data = pre ++ mjoin (encode_entry <$> es) ++ rest → length pre = (i * ENTRY_SIZE)%nat → Forall (sound_entry probe) es →
  collect (List.filter used (entry ENTRY_SIZE data <$> seq i (length es))) = Ret (Ok (partitions_of probe i es)).
Proof.
  induction es as [|e es IH]; intros i pre data rest -> Hpre Hes; [done|]. apply Forall_cons in Hes as [He Hes]. pose proof (proj1 He) as Hok.
  assert (E : entry ENTRY_SIZE (pre ++ mjoin (encode_entry <$> (e :: es)) ++ rest) i = (i, encode_entry e)).
  { unfold entry. f_equal. rewrite <- Hpre, sub_app_r, Nat.sub_diag by lia. rewrite fmap_cons, mjoin_cons, <- app_assoc. apply sub_prefix. by rewrite length_encode_entry. }
  assert (IH' : collect (List.filter used (entry ENTRY_SIZE (pre ++ mjoin (encode_entry <$> (e :: es)) ++ rest) <$> seq (S i) (length es))) = Ret (Ok (partitions_of probe (S i) es))).
  { apply (IH (S i) (pre ++ encode_entry e) _ rest); [by rewrite fmap_cons, mjoin_cons, <- !app_assoc|rewrite length_app, length_encode_entry by done; lia|done]. }
  cbn [length seq]. rewrite fmap_cons, E. cbn [List.filter]. unfold used at 1. cbn [snd]. unfold is_used. destruct (encode_entry_fields e Hok) as (-> & _). cbn [partitions_of].
  destruct (decide (in_use e)) as [Hu|Hu].
  - rewrite bool_decide_eq_false_2 by done. cbn [negb collect]. rewrite (gpt_partition_of probe i e He Hu). unfold mbind, R_bind. by rewrite IH'.
  - rewrite bool_decide_eq_true_2 by (by apply dec_stable). cbn [negb]. exact IH'.
Qed.

(** A header in the layout of the format, for entries of 128 bytes. *)
Definition encode_header (mid tail : list Z) (lba num : Z) : list Z :=
  text "EFI PART" ++ mid ++ le_bytes 8 lba ++ le_bytes 4 num ++ le_bytes 4 128 ++ tail.

Lemma encode_header_fields mid tail lba num : length mid = 64%nat → in_width 64 lba → in_width 32 num → let h := encode_header mid tail lba num in
  sub 0 8 h = text "EFI PART" ∧ le_at 72 8 h = lba ∧ num_of h = num ∧ esize_of h = 128.
Proof.
  intros Hm Hl Hn h. assert (Ht : length (text "EFI PART") = 8%nat) by done. unfold h, encode_header, num_of, esize_of. split_and!.
  - by apply sub_prefix.
  - rewrite le_at_skip, Ht by lia. rewrite le_at_skip, Hm by lia. by rewrite le_at_head.
  - rewrite le_at_skip, Ht by lia. rewrite le_at_skip, Hm by lia. rewrite le_at_skip; rewrite length_le_bytes; [|lia]. by rewrite le_at_head.
  - rewrite le_at_skip, Ht by lia. rewrite le_at_skip, Hm by lia. rewrite le_at_skip; rewrite length_le_bytes; [|lia]. rewrite le_at_skip; rewrite length_le_bytes; [|lia]. by rewrite le_at_head.
Qed.

(** C21 A table written in the layout of the format is read back as written. With
    a header naming its array and entries laid out in it, each used entry comes
    out with its position, both block addresses, its size, the type of its GUID,
    its name decoded from 16-bit units, and what the probe of its first sectors
    found, in order and without the unused entries between. *)
Theorem gpt_table_read_back probe mid tail lba (es : list gentry) rest :
  length mid = 64%nat → in_width 64 lba → Z.of_nat (length es) <= 4 * 65535 → base mod 8 = 0 → Forall (sound_entry probe) es →
  read_sectors 1 1 = Ok (encode_header mid tail lba (Z.of_nat (length es))) →
  read_sectors lba ((Z.of_nat (length es) + 3) / 4) = Ok (mjoin (encode_entry <$> es) ++ rest) →
  parse_gpt device base = Ret (Ok (partitions_of probe 0 es)).
Proof.
  intros Hm Hlba Hn Hb Hes Hh Hd. assert (Hnw : in_width 32 (Z.of_nat (length es))) by (unfold in_width; lia).
  destruct (encode_header_fields mid tail lba (Z.of_nat (length es)) Hm Hlba Hnw) as (Hsig & El & En & Ez). set (h := encode_header _ _ _ _) in *.
  assert (Hsec : sectors_of h = (Z.of_nat (length es) + 3) / 4) by (unfold sectors_of; rewrite En, Ez; change (512 / 128) with 4; f_equal; lia).
  rewrite (gpt_lists h (mjoin (encode_entry <$> es) ++ rest)); [|by split|done|lia|by rewrite Ez| |by rewrite Hsec, El].
  - rewrite En, Ez, Nat2Z.id. by apply (collect_written probe es 0 [] _ rest).
  - rewrite Hsec. apply Z.div_lt_upper_bound; lia.
Qed.

(** ** What stops the kernel *)

(** A used entry whose probe address and printed size stay in 64 bits. *)
Definition sane (e : list Z) : Prop := entry_start e + 8 <= U64_MAX ∧ (entry_end e - entry_start e + 1) * 512 <= U64_MAX.

Lemma gpt_detect_total start : start + 8 <= U64_MAX → gpt_detect_filesystem start ≠ Panic.
Proof.
  intros H. unfold gpt_detect_filesystem, add64. rewrite (proj2 (Z.leb_le _ _) H). unfold lift, mbind, R_bind. destruct (efs_at _); [done|]. destruct (read_sectors start 1) as [s|]; [|done].
  by destruct (_ <? _)%nat, (is_fat32 s).
Qed.

Lemma gpt_partition_total i e : sane e → match gpt_partition device i e with Panic => False | Ret (Ok p) => size_sectors p * 512 <= U64_MAX | Ret (Err _) => True end.
Proof.
  intros [H1 H2]. unfold gpt_partition. pose proof (gpt_detect_total _ H1) as Hd. unfold mbind at 1, R_bind at 1. destruct (gpt_detect_filesystem _) as [[fs|]|]; [|done|done].
  unfold entry_size_sectors. destruct (Z.leb_spec (entry_start e) (entry_end e)); [|by cbn]. unfold add64. rewrite (proj2 (Z.leb_le _ _)) by (unfold U64_MAX in *; lia). by cbn.
Qed.

Lemma gpt_entries_total esize data : (∀ i, is_used (entry esize data i).2 = true → sane (entry esize data i).2) →
  ∀ n i, match gpt_entries device base n i esize data with Panic => False | Ret (Ok ps) => print_partitions ps = Ret () | Ret (Err _) => True end.
Proof.
  intros Hs. induction n as [|n IH]; intros i; [done|]. cbn [gpt_entries]. destruct (_ <? _)%nat; [done|]. destruct (negb _); [done|]. destruct (is_used _) eqn:Hu; [|apply IH].
  pose proof (gpt_partition_total i _ (Hs i Hu)) as Hp. unfold mbind, R_bind. cbn [entry snd] in Hp. destruct (gpt_partition device i _) as [[p|]|]; [|done|done].
  specialize (IH (S i)). destruct (gpt_entries device base n (S i) esize data) as [[ps|]|]; [|done|done]. cbn [mret R_ret print_partitions]. by rewrite (proj2 (Z.leb_le _ _) Hp).
Qed.

(** *** The master boot record *)

Lemma detect_iso_total start : 0 <= start < 2 ^ 32 → detect_iso9660 start ≠ Panic.
Proof.
  intros H. assert (Ha : ∀ o, 0 <= o <= 32 → add64 start o = Ret (start + o)) by (intros o ?; unfold add64, U64_MAX; by rewrite (proj2 (Z.leb_le _ _)) by lia).
  assert (Ho : ∀ offs, Forall (λ o, 0 <= o <= 32) offs → iso_offsets start offs ≠ Panic).
  { induction 1 as [|o offs Ho _ IH]; [done|]. cbn [iso_offsets]. rewrite Ha by done. cbn [mbind outcome_bind]. destruct (read_sectors _ _) as [s|]; [|done]. by destruct (is_pvd s). }
  unfold detect_iso9660. rewrite Ha by lia. unfold lift, mbind, R_bind. destruct (read_sectors (start + 16) 1) as [s|]; [|done]. destruct (_ <? _)%nat; [done|]. destruct (is_pvd s); [done|]. destruct (0 <? start); [|done].
  specialize (Ho [0; 16; 32]). destruct (iso_offsets start [0; 16; 32]); [done|]. exfalso. apply Ho; [|done]. repeat constructor; lia.
Qed.

Lemma detect_fat_total s : length s = 512%nat → detect_fat_family s ≠ Panic.
Proof.
  intros Hl. unfold detect_fat_family, byte_at. destruct (_ <? _)%nat; [done|].
  destruct (lookup_lt_is_Some_2 s 510 ltac:(lia)) as [b ->]. cbn [mbind outcome_bind]. destruct (negb _); [done|]. destruct (lookup_lt_is_Some_2 s 511 ltac:(lia)) as [b2 ->]. cbn [mbind outcome_bind]. destruct (negb _); [done|].
  destruct (is_fat32 s); [done|]. destruct (is_fat16_or_fat12_lenient s) eqn:E; [|done]. unfold calculate_cluster_count.
  assert (Hz : (sectors_per_cluster s =? 0) = false) by (apply Z.eqb_neq; unfold is_fat16_or_fat12_lenient in E; rewrite !andb_true_iff, !Z.ltb_lt in E; lia). by rewrite Hz.
Qed.

Lemma mbr_detect_total start : 0 <= start < 2 ^ 32 → mbr_detect_filesystem start ≠ Panic.
Proof.
  intros H. unfold mbr_detect_filesystem, mbind, R_bind. destruct (read_sectors start 1) as [s|] eqn:Er; [|done]. destruct (read_length start 1 s ltac:(lia) Er) as [Hl _]. change (Z.to_nat 1 * 512)%nat with 512%nat in Hl.
  destruct (_ <? _)%nat; [done|]. unfold add64, lift. rewrite (proj2 (Z.leb_le _ _)) by (unfold U64_MAX; lia). destruct (efs_at _); [done|].
  pose proof (detect_iso_total start H) as Hi. destruct (detect_iso9660 start) as [[[fs|]|]|]; try done; pose proof (detect_fat_total s Hl) as Hf; (destruct (detect_fat_family s) as [[fs|]|]; [done| |done]); by destruct (detect_ntfs s).
Qed.

Definition mbr_entry (mbr : list Z) (i : nat) : list Z := sub (446 + 16 * i) 16 mbr.
Definition mbr_listed (mbr : list Z) (i : nat) : bool := mbr_is_used (mbr_entry mbr i) && negb (is_extended (mbr_entry mbr i)).

(** What a partition of the record says of its entry. *)
Definition mbr_described (mbr : list Z) (p : partition) : Prop :=
  let e := mbr_entry mbr (index p) in
  starting_lba p = mbr_start e ∧ size_sectors p = mbr_size e ∧ 0 < size_sectors p < 2 ^ 32 ∧ ending_lba p = starting_lba p + size_sectors p - 1 ∧
  partition_type p = mbr_type (e !!! 4%nat).

Lemma le_at_width off n l : Forall byte_ok l → (off + n <= length l)%nat → 0 <= le_at off n l < 2 ^ (8 * Z.of_nat n).
Proof. intros H Hl. unfold le_at. pose proof (le_num_bound (sub off n l) (Forall_sub _ _ _ _ H)) as Hb. by rewrite length_sub in Hb. Qed.

Lemma mbr_entries_spec mbr : length mbr = 512%nat → Forall byte_ok mbr → ∀ n i, (i + n <= 4)%nat →
  match mbr_entries device n i mbr with
  | Panic => False
  | Ret (Err _) => True
  | Ret (Ok ps) => index <$> ps = List.filter (mbr_listed mbr) (seq i n) ∧ Forall (mbr_described mbr) ps
  end.
Proof.
  intros Hl Hb. induction n as [|n IH]; intros i Hi; [done|]. cbn [mbr_entries seq List.filter]. fold (mbr_entry mbr i) (mbr_listed mbr i). specialize (IH (S i) ltac:(lia)). destruct (mbr_listed mbr i) eqn:Eu; [|done].
  assert (Hw : ∀ off, (off + 4 <= 16)%nat → 0 <= le_at off 4 (mbr_entry mbr i) < 2 ^ 32).
  { intros off Ho. apply (le_at_width off 4); [by apply Forall_sub|]. unfold mbr_entry. rewrite length_sub by lia. done. }
  pose proof (mbr_detect_total (mbr_start (mbr_entry mbr i)) (Hw 8%nat ltac:(lia))) as Hd. unfold mbind, R_bind. destruct (mbr_detect_filesystem _) as [[fs|]|]; [|done|done].
  destruct (mbr_entries device n (S i) mbr) as [[ps|]|]; [|done|done]. destruct IH as [E1 E2]. split; [by rewrite fmap_cons, E1|]. constructor; [|done].
  apply andb_prop in Eu as [Eu _]. unfold mbr_is_used in Eu. apply andb_prop in Eu as [_ Eu]. apply Z.ltb_lt in Eu. pose proof (Hw 12%nat ltac:(lia)) as H12.
  unfold mbr_described, mbr_end, mbr_size in *. cbn. split_and!; try done; try lia. by rewrite (proj2 (Z.ltb_lt _ _) Eu).
Qed.

Lemma mbr_lists mbr : read_sectors 0 1 = Ok mbr →
  match parse_mbr device with
  | Panic => False
  | Ret (Err e) => True
  | Ret (Ok ps) => sub 510 2 mbr = [0x55; 0xAA] ∧ index <$> ps = List.filter (mbr_listed mbr) [0; 1; 2; 3]%nat ∧ Forall (mbr_described mbr) ps
  end.
Proof.
  intros Hr. unfold parse_mbr, mbind at 1, R_bind at 1. rewrite Hr. destruct (read_length 0 1 mbr ltac:(lia) Hr) as [Hl Hb]. change (Z.to_nat 1 * 512)%nat with 512%nat in Hl.
  destruct (_ <? _)%nat; [done|]. destruct (bool_decide _) eqn:E; [|done]. apply bool_decide_eq_true in E. cbn [negb]. pose proof (mbr_entries_spec mbr Hl Hb 4 0 ltac:(lia)) as H.
  destruct (mbr_entries device 4 0 mbr) as [[ps|]|]; [|done|done]. by split.
Qed.

(** The master boot record lists its primary partitions. Parsing it never
    panics, and when it succeeds the partitions are those of the four entries that
    are in use and not extended, in order, each with the start, size, end and type
    its entry says. *)
Theorem mbr_lists_primary mbr : read_sectors 0 1 = Ok mbr →
  match parse_mbr device with
  | Panic => False
  | Ret (Err e) => True
  | Ret (Ok ps) => sub 510 2 mbr = [0x55; 0xAA] ∧ index <$> ps = List.filter (mbr_listed mbr) [0; 1; 2; 3]%nat ∧ Forall (mbr_described mbr) ps
  end.
Proof. apply mbr_lists. Qed.

Lemma parse_mbr_total : match parse_mbr device with Panic => False | Ret (Ok ps) => print_partitions ps = Ret () | Ret (Err _) => True end.
Proof.
  destruct (read_sectors 0 1) as [mbr|e] eqn:Er; [|unfold parse_mbr, mbind, R_bind; by rewrite Er]. pose proof (mbr_lists mbr Er) as H. destruct (parse_mbr device) as [[ps|]|]; [|done|done].
  destruct H as (_ & _ & H). induction H as [|p ps (_ & _ & H & _) _ IH]; [done|]. cbn [print_partitions]. by rewrite (proj2 (Z.leb_le _ _)) by (unfold U64_MAX; lia).
Qed.

(** The entries a table's header makes the scan read. *)
Definition table_sane (header : list Z) : Prop := 0 < esize_of header <= 512 ∧
  ∀ data, read_sectors (le_at 72 8 header) (wrap 16 (sectors_of header)) = Ok data →
  ∀ i, is_used (entry (Z.to_nat (esize_of header)) data i).2 = true → sane (entry (Z.to_nat (esize_of header)) data i).2.

Lemma parse_gpt_refuses header : read_sectors 1 1 = Ok header → sub 0 8 header ≠ text "EFI PART" → parse_gpt device base = Ret (Err (Signature GptHeaderW)).
Proof.
  intros Hr Hs. unfold parse_gpt, mbind at 1, R_bind at 1. rewrite Hr. destruct (read_length 1 1 header ltac:(lia) Hr) as [Hl _]. rewrite Hl. change ((Z.to_nat 1 * 512 <? HEADER_SIZE)%nat) with false.
  cbv iota. by rewrite bool_decide_eq_false_2.
Qed.

(** C34 The scan of a disk returns. Whatever the disk holds and whichever reads
    fail, [scan_device] ends without a panic and falls back from one table to the
    other, provided that a GUID partition table, if its signature is there, has
    entries of 1 to 512 bytes whose addresses and sizes in bytes stay within 64
    bits. *)
Theorem scan_device_total is_atapi : (∀ header, header_ok header → table_sane header) → ∃ ps, scan_device device is_atapi base = Ret ps.
Proof.
  intros Hs. unfold scan_device. destruct is_atapi; [by eexists|].
  assert (Hm : ∃ ps, match parse_mbr device with Ret (Ok found) => print_partitions found;; Ret found | Ret (Err _) => Ret [] | Panic => Panic end = Ret ps).
  { pose proof parse_mbr_total as H. destruct (parse_mbr device) as [[ps|]|]; [exists ps; by rewrite H|by eexists|done]. }
  destruct (read_sectors 1 1) as [header|e] eqn:Er; [|unfold parse_gpt, mbind at 1, R_bind at 1; by rewrite Er].
  destruct (decide (sub 0 8 header = text "EFI PART")) as [Hsig|Hsig]; [|by rewrite (parse_gpt_refuses header)].
  destruct (Hs header (conj Er Hsig)) as [He Hent]. rewrite (parse_gpt_eq header (conj Er Hsig) He). destruct (read_sectors (le_at 72 8 header) _) as [data|] eqn:Ed; [|done].
  pose proof (gpt_entries_total (Z.to_nat (esize_of header)) data (Hent data eq_refl) (Z.to_nat (num_of header)) 0) as H.
  destruct (gpt_entries device base _ _ _ _) as [[ps|]|]; [exists ps; by rewrite H|done|done].
Qed.

(** C40 A table whose header has a bad entry size stops the kernel. With the
    signature in place, an entry size of zero or of more than a sector panics the
    scan, by a division by zero: the size is taken from the disk unchecked. *)
Theorem bad_entry_size_panics header : header_ok header → esize_of header = 0 ∨ 512 < esize_of header → scan_device device false base = Panic.
Proof.
  intros [Hr Hs] He. unfold scan_device. assert (parse_gpt device base = Panic) as ->; [|done]. unfold parse_gpt, mbind at 1, R_bind at 1. rewrite Hr.
  destruct (read_length 1 1 header ltac:(lia) Hr) as [Hl _]. rewrite Hl. change ((Z.to_nat 1 * 512 <? HEADER_SIZE)%nat) with false. cbv iota. rewrite bool_decide_eq_true_2 by done. cbn [negb]. fold (esize_of header).
  destruct He as [->|He]; [done|]. destruct (_ =? 0); [done|]. by rewrite (Z.div_small 512) by lia.
Qed.

End WithDisk.

(** ** A disk in memory *)

(** Sectors by address; the others are zeros. *)
Definition sector_of (img : list (Z * list Z)) (lba : Z) : list Z :=
  take 512 (match List.find (λ s, s.1 =? lba) img with Some s => (λ b, b mod 256) <$> s.2 | None => [] end ++ replicate 512 0).

#[local] Instance image_disk (img : list (Z * list Z)) (last : Z) : Disk :=
  {| read_blocking lba n := if lba <=? last then Ok (take n (mjoin ((λ k, sector_of img (lba + Z.of_nat k)) <$> seq 0 (S (n / 512))))) else Err Io |}.

Lemma sector_of_ok img lba : length (sector_of img lba) = 512%nat ∧ Forall byte_ok (sector_of img lba).
Proof.
  unfold sector_of. split; [rewrite length_take, length_app, length_replicate; lia|]. apply Forall_take, Forall_app. split; [|apply Forall_replicate; unfold byte_ok; lia].
  destruct (List.find _ img); [|done]. apply Forall_fmap, Forall_true. intros b. unfold byte_ok. cbn. pose proof (Z.mod_pos_bound b 256). lia.
Qed.

#[local] Instance image_disk_laws img last : @DiskLaws (image_disk img last).
Proof.
  split. intros lba n buf. unfold read_blocking, image_disk. destruct (_ <=? _); [|done]. intros H. apply (f_equal (λ r, match r with Ok b => b | Err _ => [] end)) in H. subst buf.
  assert (Hl : ∀ k a, let l := mjoin ((λ k, sector_of img (lba + Z.of_nat k)) <$> seq a k) in length l = (512 * k)%nat ∧ Forall byte_ok l).
  { induction k as [|k IH]; intros a; [done|]. destruct (sector_of_ok img (lba + Z.of_nat a)) as [H1 H2]. destruct (IH (S a)) as [H3 H4]. cbn [seq]. rewrite fmap_cons, mjoin_cons. cbv zeta. rewrite length_app, H1, H3. split; [lia|]. by apply Forall_app. }
  destruct (Hl (S (n / 512)) 0%nat) as [H1 H2]. split; [|by apply Forall_take]. rewrite length_take. etransitivity; [apply (f_equal (Nat.min n) H1)|].
  pose proof (Nat.div_mod n 512 ltac:(lia)). pose proof (Nat.mod_upper_bound n 512 ltac:(lia)). lia.
Qed.

(** Two used entries with an unused one between. *)
Definition demo_entries : list gentry :=
  [mk_ge [0x28;0x73;0x2A;0xC1;0x1F;0xF8;0xD2;0x11;0xBA;0x4B;0x00;0xA0;0xC9;0x3E;0xC9;0x3B] (replicate 16 1) 40 99 0 (text "efi" ++ replicate 33 0);
   mk_ge (replicate 16 0) (replicate 16 0) 0 0 0 (replicate 36 0);
   mk_ge [0xAF;0x3D;0xC6;0x0F;0x83;0x84;0x72;0x47;0x8E;0x79;0x3D;0x69;0xD8;0x47;0x7D;0xE4] (replicate 16 2) 100 299 0 (text "root" ++ replicate 32 0)].

Definition demo_header (esize : Z) : list Z := text "EFI PART" ++ replicate 64 0 ++ le_bytes 8 2 ++ le_bytes 4 3 ++ le_bytes 4 esize.

(** The second partition is formatted as EFS. *)
Definition demo_disk : list (Z * list Z) :=
  [(1, demo_header 128); (2, mjoin (encode_entry <$> demo_entries)); (108, le_bytes 4 EFS_MAGIC)].

Definition found (r : outcome (list partition)) : option (list (nat * Z * Z * option FilesystemType)) :=
  match r with Ret ps => Some ((λ p, (index p, starting_lba p, size_sectors p, filesystem p)) <$> ps) | Panic => None end.

(** One partition that cannot be read loses the whole table, and the scan reports
    what the protective boot record says instead. *)
Definition bad_entry_disk : list (Z * list Z) :=
  let protective := replicate 446 0 ++ [0; 0; 0; 0; 0xEE; 0; 0; 0] ++ le_bytes 4 1 ++ le_bytes 4 999 ++ replicate 48 0 ++ [0x55; 0xAA] in
  [(0, protective); (1, demo_header 128); (2, mjoin (encode_entry <$> demo_entries)); (108, le_bytes 4 EFS_MAGIC)].

Lemma unreadable_partition_loses_table :
  found (scan_device (D := image_disk bad_entry_disk 300) 7 false 4096) = Some [(0%nat, 40, 60, Some FsUnknown); (2%nat, 100, 200, Some FsEfs)] ∧
  found (scan_device (D := image_disk bad_entry_disk 99) 7 false 4096) = Some [(0%nat, 1, 999, Some FsUnknown)].
Proof. split; vm_compute; reflexivity. Qed.

(** An extended partition is not in the list. *)
Definition extended_disk : list (Z * list Z) :=
  [(0, replicate 446 0 ++ [0; 0; 0; 0; 0x05; 0; 0; 0] ++ le_bytes 4 1 ++ le_bytes 4 50 ++ [0; 0; 0; 0; 0x83; 0; 0; 0] ++ le_bytes 4 60 ++ le_bytes 4 40 ++ replicate 32 0 ++ [0x55; 0xAA])].
Lemma extended_not_reported : found (scan_device (D := image_disk extended_disk 300) 7 false 4096) = Some [(1%nat, 60, 40, Some FsUnknown)].
Proof. vm_compute. reflexivity. Qed.

(** ** Witnesses *)

Lemma units_ok l : forallb (λ u, (0 <=? u) && (u <? 2 ^ 16)) l = true → Forall (in_width 16) l.
Proof. intros H. apply Forall_forall. intros u Hu. rewrite forallb_forall in H. specialize (H u (proj1 (list_elem_of_In _ _) Hu)). cbv beta in H. unfold in_width. rewrite andb_true_iff, Z.leb_le, Z.ltb_lt in H. done. Qed.

Lemma gentry_ok_by e : (length (g_type e) =? 16)%nat && (length (g_uniq e) =? 16)%nat && (length (g_name e) =? 36)%nat &&
  forallb (λ x, (0 <=? x) && (x <? 2 ^ 64)) [g_start e; g_end e; g_attr e] && forallb (λ u, (0 <=? u) && (u <? 2 ^ 16)) (g_name e) = true → gentry_ok e.
Proof.
  rewrite !andb_true_iff, !Nat.eqb_eq. intros [[[[H1 H2] H3] H4] H5]. rewrite forallb_forall in H4.
  assert (Hw : ∀ x, In x [g_start e; g_end e; g_attr e] → in_width 64 x) by (intros x Hx; specialize (H4 x Hx); rewrite andb_true_iff, Z.leb_le, Z.ltb_lt in H4; exact H4).
  split; try done; [apply Hw; cbn; tauto..|]. split; [done|by apply units_ok].
Qed.

Lemma demo_sound : Forall (@sound_entry (image_disk demo_disk 300) (λ s, if s =? 100 then Some FsEfs else Some FsUnknown)) demo_entries.
Proof.
  repeat apply Forall_cons_2; [| | |apply Forall_nil_2]; (split; [apply gentry_ok_by; vm_compute; reflexivity|]).
  - intros _. split; [cbn; lia|]. split; [unfold U64_MAX; cbn; lia|]. vm_compute. reflexivity.
  - intros H. exfalso. by apply H.
  - intros _. split; [cbn; lia|]. split; [unfold U64_MAX; cbn; lia|]. vm_compute. reflexivity.
Qed.

Lemma gpt_table_read_back_witness : ∃ ps, parse_gpt (D := image_disk demo_disk 300) 7 4096 = Ret (Ok ps) ∧
  ((λ p, (index p, starting_lba p, ending_lba p, partition_type p, name p)) <$> ps) = [(0%nat, 40, 99, EfiSystem, text "efi"); (2%nat, 100, 299, LinuxFilesystem, text "root")].
Proof.
  eexists. split.
  - apply (@gpt_table_read_back (image_disk demo_disk 300) (image_disk_laws demo_disk 300) 7 4096 (λ s, if s =? 100 then Some FsEfs else Some FsUnknown) (replicate 64 0) (replicate 424 0) 2 demo_entries (replicate 128 0)).
    + reflexivity.
    + unfold in_width. lia.
    + apply Z.leb_le. reflexivity.
    + reflexivity.
    + exact demo_sound.
    + vm_compute. reflexivity.
    + vm_compute. reflexivity.
  - vm_compute. reflexivity.
Defined.

Lemma gpt_lists_every_entry_witness : ∃ data, read_sectors (D := image_disk demo_disk 300) 2 1 = Ok data ∧
  parse_gpt (D := image_disk demo_disk 300) 7 4096 = collect (D := image_disk demo_disk 300) 7 (List.filter used (entry 128 data <$> seq 0 3)).
Proof.
  exists (sector_of demo_disk 2). split; [vm_compute; reflexivity|].
  apply (@gpt_lists_every_entry (image_disk demo_disk 300) (image_disk_laws demo_disk 300) 7 4096 (sector_of demo_disk 1) (sector_of demo_disk 2)).
  - split; vm_compute; reflexivity.
  - reflexivity.
  - split; apply Z.leb_le; vm_compute; reflexivity.
  - vm_compute. reflexivity.
  - apply Z.ltb_lt. vm_compute. reflexivity.
  - vm_compute. reflexivity.
Defined.

Lemma mbr_lists_primary_witness : match parse_mbr (D := image_disk extended_disk 300) 7 with
  | Ret (Ok ps) => index <$> ps = List.filter (mbr_listed (sector_of extended_disk 0)) [0; 1; 2; 3]%nat
  | _ => False
  end.
Proof.
  assert (H : match parse_mbr (D := image_disk extended_disk 300) 7 with Ret (Ok _) => True | _ => False end) by (vm_compute; exact I).
  pose proof (@mbr_lists_primary (image_disk extended_disk 300) (image_disk_laws extended_disk 300) 7 (sector_of extended_disk 0)) as T.
  destruct (parse_mbr 7) as [[ps|]|]; [|done|done]. apply T. vm_compute. reflexivity.
Defined.

Lemma bad_entry_size_panics_witness : scan_device (D := image_disk [(1, demo_header 1024)] 300) 7 false 4096 = Panic.
Proof.
  apply (@bad_entry_size_panics (image_disk [(1, demo_header 1024)] 300) (image_disk_laws [(1, demo_header 1024)] 300) 7 4096 (sector_of [(1, demo_header 1024)] 1)).
  - split; vm_compute; reflexivity.
  - right. apply Z.ltb_lt. vm_compute. reflexivity.
Defined.

(** The demo table is sane: its two partitions are small, and slices past the
    end of the sector read as zero. *)
Lemma demo_sane i : sane (entry 128 (sector_of demo_disk 2) i).2.
Proof.
  assert (Hs : ∀ e, (entry_start e + 8 <=? U64_MAX) && ((entry_end e - entry_start e + 1) * 512 <=? U64_MAX) = true → sane e) by (intros e; rewrite andb_true_iff, !Z.leb_le; done).
  destruct (decide (i < 4)%nat) as [Hi|Hi].
  - do 4 (destruct i as [|i]; [apply Hs; vm_compute; reflexivity|]). lia.
  - apply Hs. unfold entry, sub. cbn [snd]. rewrite drop_ge by (rewrite (proj1 (sector_of_ok demo_disk 2)); lia). vm_compute. reflexivity.
Qed.

Lemma scan_device_total_witness : ∃ ps, scan_device (D := image_disk demo_disk 300) 7 false 4096 = Ret ps.
Proof.
  apply (@scan_device_total (image_disk demo_disk 300) (image_disk_laws demo_disk 300) 7 4096 false). intros header [Hr _].
  assert (E : read_sectors (D := image_disk demo_disk 300) 1 1 = Ok (sector_of demo_disk 1)) by (vm_compute; reflexivity). rewrite E in Hr. injection Hr as <-.
  split; [split; [apply Z.ltb_lt|apply Z.leb_le]; vm_compute; reflexivity|].
  assert (Ea : le_at 72 8 (sector_of demo_disk 1) = 2) by (vm_compute; reflexivity).
  assert (En : wrap 16 (sectors_of (sector_of demo_disk 1)) = 1) by (vm_compute; reflexivity).
  assert (Ez : esize_of (sector_of demo_disk 1) = 128) by (vm_compute; reflexivity).
  assert (Ed : read_sectors (D := image_disk demo_disk 300) 2 1 = Ok (sector_of demo_disk 2)) by (vm_compute; reflexivity).
  rewrite Ea, En, Ez, Ed. intros data [= <-] i _. exact (demo_sane i).
Defined.

End PartitionSafety.
