(* ===== verification/Vma.v ===== *)
(** * Virtual memory areas (kernel/src/memory/vma.rs, kernel/src/syscalls/memory.rs)

    A process's [VmaSet]: lookup, insertion, splitting, range removal and the
    search for a free range, and [claim_range], the entry point of [mmap]. *)

From S2P Require Import Prelude BTree.

Module Vma.

(** ** Data *)

(** Inodes and cached pages are [Arc] handles, kept as identities. *)
Inductive VmaBacking :=
| Anonymous
| Physical (phys_base : Z)
| SharedMemory (shm_id : Z)
| Tls
| Stack
| FileBacked (ino file_offset : Z) (shared writable_mapping : bool) (fpages : list (option Z)).

Record Vma := mk_vma {
  start : Z;
  end_ : Z;
  prot : Z;
  flags : Z;
  backing : VmaBacking
}.

Definition contains (v : Vma) (addr : Z) : bool := (start v <=? addr) && (addr <? end_ v).
Definition USER_VA_END : Z := 0x800000000000.
Definition PAGE_SIZE : Z := 4096.

(** [checked_add(PAGE_SIZE - 1)? & !(PAGE_SIZE - 1)]; masking the low twelve
    bits of a [u64] rounds down to a page. *)
Definition align_down (x : Z) : Z := x - x mod PAGE_SIZE.
Definition page_round_up (addr : Z) : option Z :=
  if addr + (PAGE_SIZE - 1) <=? U64_MAX then Some (align_down (addr + (PAGE_SIZE - 1))) else None.

Inductive VmaError := OutOfUserSpace | NoSpace.

(** [VmaSet]: the map by start address, and the search floor. *)
Record VmaSet := mk_set { vmas : bmap Z Vma; mmap_base : Z }.
Definition new : VmaSet := mk_set [] 0.
Definition set_vmas (s : VmaSet) (m : bmap Z Vma) : VmaSet := mk_set m (mmap_base s).

(** ** Operations *)

(** [range(..=addr).next_back()] and [range(..addr).next_back()] *)
Definition last_le (m : bmap Z Vma) (addr : Z) : option (Z * Vma) :=
  last (filter (λ e, (e.1 <=? addr) = true) m).
Definition last_lt (m : bmap Z Vma) (addr : Z) : option (Z * Vma) :=
  last (filter (λ e, (e.1 <? addr) = true) m).

Definition find (s : VmaSet) (addr : Z) : option Vma :=
  match last_le (vmas s) addr with
  | Some (_, v) => if contains v addr then Some v else None
  | None => None
  end.

Definition insert (s : VmaSet) (v : Vma) : result VmaError VmaSet :=
  if (end_ v <? start v) || (USER_VA_END <? end_ v) then Err OutOfUserSpace
  else Ok (set_vmas s (binsert (start v) v (vmas s))).

Definition insert_validated (s : VmaSet) (v : Vma) : outcome VmaSet :=
  if (start v <=? end_ v) && (end_ v <=? USER_VA_END)
  then Ret (set_vmas s (binsert (start v) v (vmas s))) else Panic.

Definition remove (s : VmaSet) (k : Z) : option Vma * VmaSet :=
  (bget k (vmas s), set_vmas s (bremove k (vmas s))).

(** The two halves of a backing split [bytes] in; [split_off] past the end
    panics. *)
Definition split_backing (b : VmaBacking) (bytes : Z) : outcome (VmaBacking * VmaBacking) :=
  match b with
  | FileBacked ino off sh wr pages =>
      let idx := Z.to_nat (bytes / 4096) in
      if (length pages <? idx)%nat then Panic
      else Ret (FileBacked ino off sh wr (take idx pages),
                FileBacked ino (off + bytes) sh wr (drop idx pages))
  | other => Ret (other, other)
  end.

Definition split_at (s : VmaSet) (addr : Z) : outcome VmaSet :=
  let aligned := align_down addr in
  match last_lt (vmas s) aligned with
  | Some (k, _) =>
      match bget k (vmas s) with
      | None => Panic
      | Some original =>
          if contains original aligned && negb (start original =? aligned) then
            let m := bremove k (vmas s) in
            '(head, tail) ← split_backing (backing original) (aligned - start original);
            let original' := mk_vma (start original) aligned (prot original) (flags original) head in
            let tail' := mk_vma aligned (end_ original) (prot original) (flags original) tail in
            let m := binsert (start original') original' m in
            Ret (set_vmas s (binsert (start tail') tail' m))
          else Ret s
      end
  | None => Ret s
  end.

(** [for k in keys { if let Some(vma) = self.vmas.remove(&k) { removed.push(vma) } }] *)
Fixpoint remove_keys (m : bmap Z Vma) (keys : list Z) : list Vma * bmap Z Vma :=
  match keys with
  | [] => ([], m)
  | k :: keys' =>
      let '(removed, m') := remove_keys (bremove k m) keys' in
      (match bget k m with Some v => v :: removed | None => removed end, m')
  end.

Definition remove_range (s : VmaSet) (lo hi : Z) : outcome (list Vma * VmaSet) :=
  s ← split_at s lo;
  s ← split_at s hi;
  let keys := fst <$> filter (λ e, (lo <=? e.1) && (e.1 <? hi) = true) (vmas s) in
  let '(removed, m) := remove_keys (vmas s) keys in
  Ret (removed, set_vmas s m).

(** The walk of [first_fit] over [range(floor..)]; [None] is an overflow. *)
Fixpoint fit_walk (m : bmap Z Vma) (cursor len : Z) : option Z :=
  match m with
  | [] =>
      if cursor + len <=? U64_MAX then
        if cursor + len <=? USER_VA_END then Some cursor else None
      else None
  | (k, v) :: m' =>
      if cursor + len <=? U64_MAX then
        if cursor + len <=? k then Some cursor
        else e ← page_round_up (end_ v); fit_walk m' (Z.max cursor e) len
      else None
  end.

Definition first_fit (m : bmap Z Vma) (floor len : Z) : option Z :=
  cursor ← match last_le m floor with
           | Some (_, prev) => e ← page_round_up (end_ prev); Some (Z.max floor e)
           | None => Some floor
           end;
  fit_walk (filter (λ e, (floor <=? e.1) = true) m) cursor len.

(** The set, and the caller's hint cell. *)
Definition find_free_address (s : VmaSet) (hint length : Z) : outcome (result VmaError Z * VmaSet * Z) :=
  match page_round_up length with
  | None => Ret (Err OutOfUserSpace, s, hint)
  | Some len =>
      base ← (if mmap_base s =? 0 then
                if hint + 0xfff <=? U64_MAX then Ret (align_down (hint + 0xfff)) else Panic
              else Ret (mmap_base s));
      let s := mk_set (vmas s) base in
      match first_fit (vmas s) base len with
      | None => Ret (Err NoSpace, s, hint)
      | Some found => Ret (Ok found, s, found + len)
      end
  end.

Section Claim.
(** [VirtAddr::new] panics on an address that is not canonical. *)
Context (canonical : Z → bool).

Definition virt_addr (a : Z) : outcome Z := if canonical a then Ret a else Panic.

Definition reserve (s : VmaSet) (hint length pr fl : Z) (bk : VmaBacking)
    : outcome (result VmaError Z * VmaSet * Z) :=
  match page_round_up length with
  | None => Ret (Err OutOfUserSpace, s, hint)
  | Some length =>
      '(r, s, hint) ← find_free_address s hint length;
      match r with
      | Err e => Ret (Err e, s, hint)
      | Ok found =>
          st ← virt_addr found;
          if st + length <=? U64_MAX then
            if (st mod PAGE_SIZE =? 0) && ((st + length) mod PAGE_SIZE =? 0) then
              e ← virt_addr (st + length);
              match insert s (mk_vma st e pr fl bk) with
              | Err err => Ret (Err err, s, hint)
              | Ok s => Ret (Ok st, s, hint)
              end
            else Panic
          else Ret (Err OutOfUserSpace, s, hint)
      end
  end.

(** [claim_range] of the [mmap] system call. *)
Definition claim_range (s : VmaSet) (hint addr length pr fl : Z) (bk : VmaBacking)
    : outcome (result VmaError Z * VmaSet * Z) :=
  if addr =? 0 then reserve s hint length pr fl bk
  else
    match page_round_up length with
    | Some len =>
        if (addr + len <=? U64_MAX) && (addr + len <=? USER_VA_END) then
          st ← virt_addr addr;
          e ← virt_addr (addr + len);
          match insert s (mk_vma st e pr fl bk) with
          | Ok s => Ret (Ok st, s, hint)
          | Err err => Ret (Err err, s, hint)
          end
        else Ret (Err OutOfUserSpace, s, hint)
    | None => Ret (Err OutOfUserSpace, s, hint)
    end.
End Claim.

(** ** The invariant and the address-indexed view *)

Record vma_ok (v : Vma) : Prop := {
  vo_range : 0 <= start v < end_ v ∧ end_ v <= USER_VA_END;
  vo_align : start v mod PAGE_SIZE = 0;
  vo_pages : match backing v with
             | FileBacked _ _ _ _ pages => end_ v - start v = PAGE_SIZE * Z.of_nat (length pages)
             | _ => True
             end
}.

(** Sorted, disjoint areas, each stored under its start. *)
Fixpoint chain (lo : Z) (m : bmap Z Vma) : Prop :=
  match m with
  | [] => True
  | (k, v) :: m' => k = start v ∧ lo <= start v ∧ vma_ok v ∧ chain (end_ v) m'
  end.
Definition wf (s : VmaSet) : Prop := chain 0 (vmas s).

Fixpoint vfind (l : list Vma) (a : Z) : option Vma :=
  match l with
  | [] => None
  | v :: l' => if contains v a then Some v else vfind l' a
  end.

(** What backs the page of [a] inside [v]: the file page for a file area. The
    base an area of device memory records is carried as it is; [phys_at] gives
    the physical address. *)
Definition page_backing (v : Vma) (a : Z) : VmaBacking :=
  match backing v with
  | FileBacked ino off sh wr pages =>
      let i := (a - start v) / PAGE_SIZE in
      FileBacked ino (off + PAGE_SIZE * i) sh wr
        (match pages !! Z.to_nat i with Some p => [p] | None => [] end)
  | other => other
  end.

Definition vview (v : Vma) (a : Z) : Z * Z * VmaBacking := (prot v, flags v, page_backing v a).
Definition lview (l : list Vma) (a : Z) : option (Z * Z * VmaBacking) := (λ v, vview v a) <$> vfind l a.
(** The mapping an address has, as a page fault sees it. *)
Definition view (s : VmaSet) (a : Z) : option (Z * Z * VmaBacking) := (λ v, vview v a) <$> find s a.

(** The physical address an area of device memory records for [a]. *)
Definition phys_from (v : Vma) (origin a : Z) : option Z :=
  match backing v with Physical base => Some (base + (a - origin)) | _ => None end.
Definition phys_at (v : Vma) (a : Z) : option Z := phys_from v (start v) a.

Abbreviation areas m := (snd <$> m) (only parsing).

(** ** Sorted lists *)

Lemma vchain_weaken lo lo' m : lo' <= lo → chain lo m → chain lo' m.
Proof. destruct m as [|[k v] m]; simpl; [done|]. intros ? (? & ? & ? & ?). split_and!; (done || lia). Qed.

Fixpoint chain_end (lo : Z) (m : bmap Z Vma) : Z :=
  match m with [] => lo | (_, v) :: m' => chain_end (end_ v) m' end.

Lemma vchain_app lo m1 m2 : chain lo (m1 ++ m2) ↔ chain lo m1 ∧ chain (chain_end lo m1) m2.
Proof.
  revert lo; induction m1 as [|[k v] m1 IH]; intros lo; cbn [app chain chain_end]; [tauto|]. rewrite IH. tauto.
Qed.

Lemma vchain_bounds lo m : chain lo m →
  lo <= chain_end lo m ∧
  Forall (λ e, e.1 = start e.2 ∧ lo <= start e.2 ∧ end_ e.2 <= chain_end lo m ∧ vma_ok e.2) m.
Proof.
  revert lo; induction m as [|[k v] m IH]; intros lo; cbn [chain chain_end]; [split; [lia|constructor]|].
  intros (-> & Hlo & Hok & Hc). destruct (IH _ Hc) as [He Hf]. pose proof (vo_range v Hok).
  split; [lia|]. constructor; [simpl; split_and!; (done || lia)|].
  eapply Forall_impl; [exact Hf|]. simpl. intros [k' v'] (? & ? & ? & ?). split_and!; (done || lia).
Qed.

Lemma chain_end_eq lo lo' m : m ≠ [] → chain_end lo m = chain_end lo' m.
Proof. by destruct m as [|[k v] m]. Qed.

(** Cutting a chain at an address. *)
Lemma chain_cut_le lo m a : chain lo m →
  ∃ pre post, m = pre ++ post ∧ filter (λ e, (e.1 <=? a) = true) m = pre ∧
    Forall (λ e, e.1 <= a) pre ∧ Forall (λ e, a < e.1) post.
Proof.
  revert lo; induction m as [|[k v] m IH]; intros lo Hc; [by exists [], []|].
  destruct Hc as (-> & Hlo & Hok & Hc). pose proof (vo_range v Hok). rewrite filter_cons. cbn [fst].
  destruct (Z.leb_spec (start v) a).
  - rewrite decide_True by done. destruct (IH _ Hc) as (pre & post & -> & Hf & H1 & H2).
    exists ((start v, v) :: pre), post. rewrite Hf. split_and!; try done. by constructor.
  - rewrite decide_False by done. exists [], ((start v, v) :: m).
    assert (Hall : Forall (λ e : Z * Vma, a < e.1) m).
    { destruct (vchain_bounds _ _ Hc) as [_ Hb]. eapply Forall_impl; [exact Hb|].
      simpl. intros [k' v'] (-> & ? & _). simpl in *. lia. }
    split_and!; [done| |constructor|by constructor].
    clear IH Hc. induction Hall as [|[k' v'] m Hk _ IH]; [done|]. rewrite filter_cons. cbn [fst] in *.
    rewrite decide_False by lia. apply IH.
Qed.

Lemma filter_lt_le (m : bmap Z Vma) a :
  filter (λ e : Z * Vma, (e.1 <? a) = true) m = filter (λ e, (e.1 <=? a - 1) = true) m.
Proof. apply list_filter_iff. intros e. rewrite Z.ltb_lt, Z.leb_le. lia. Qed.

Lemma chain_cut_lt lo m a : chain lo m →
  ∃ pre post, m = pre ++ post ∧ filter (λ e, (e.1 <? a) = true) m = pre ∧
    Forall (λ e, e.1 < a) pre ∧ Forall (λ e, a <= e.1) post.
Proof.
  intros Hc. destruct (chain_cut_le lo m (a - 1) Hc) as (pre & post & E & Hf & H1 & H2).
  exists pre, post. rewrite filter_lt_le. split_and!; try done;
    (eapply Forall_impl; [eassumption|]); simpl; lia.
Qed.

Lemma vfind_app l1 l2 a : vfind (l1 ++ l2) a = match vfind l1 a with Some v => Some v | None => vfind l2 a end.
Proof. induction l1 as [|v l1 IH]; cbn [app vfind]; [done|]. destruct (contains v a); [done|apply IH]. Qed.

Lemma vfind_none l a : Forall (λ v, a < start v ∨ end_ v <= a) l → vfind l a = None.
Proof.
  induction 1 as [|v l Hv _ IH]; cbn [vfind]; [done|]. unfold contains.
  destruct ((start v <=? a) && (a <? end_ v)) eqn:E; [to_lia; lia|done].
Qed.

Lemma vfind_above lo m a : chain lo m → a < lo → vfind (areas m) a = None.
Proof.
  intros Hc Ha. apply vfind_none, Forall_fmap. destruct (vchain_bounds _ _ Hc) as [_ Hb].
  eapply Forall_impl; [exact Hb|]. simpl. intros e (_ & ? & _). lia.
Qed.

Lemma vfind_below lo m a : chain lo m → chain_end lo m <= a → vfind (areas m) a = None.
Proof.
  intros Hc Ha. apply vfind_none, Forall_fmap. destruct (vchain_bounds _ _ Hc) as [_ Hb].
  eapply Forall_impl; [exact Hb|]. simpl. intros e (_ & _ & ? & _). lia.
Qed.

(** The tree lookup finds the area that covers the address. *)
Lemma find_vfind s a : wf s → find s a = vfind (areas (vmas s)) a.
Proof.
  unfold wf, find, last_le. intros Hc. destruct (chain_cut_le 0 (vmas s) a Hc) as (pre & post & E & -> & H1 & H2).
  rewrite E in *. rewrite fmap_app, vfind_app. apply vchain_app in Hc as [Hc1 Hc2].
  assert (Hpost : vfind (areas post) a = None).
  { apply vfind_none, Forall_fmap. destruct (vchain_bounds _ _ Hc2) as [_ Hb].
    apply Forall_forall. intros e He. rewrite Forall_forall in H2, Hb. specialize (H2 e He).
    destruct (Hb e He) as (-> & _) in H2. simpl. lia. }
  rewrite Hpost. clear H2. destruct pre as [|[k v] pre _] using rev_ind; [done|].
  rewrite last_snoc. apply Forall_app in H1 as [_ H1]. apply Forall_cons in H1 as [H1 _]. simpl in H1.
  apply vchain_app in Hc1 as [Hc1 (-> & Hlo & Hok & _)]. rewrite fmap_app, vfind_app.
  rewrite (vfind_below 0 pre) by (done || lia). cbn [fmap list_fmap vfind snd]. by destruct (contains v a).
Qed.

Lemma view_lview s a : wf s → view s a = lview (areas (vmas s)) a.
Proof. intros Hwf. unfold view, lview. by rewrite find_vfind. Qed.

(** ** Splitting *)

Definition head_of (v : Vma) (a : Z) : Vma :=
  mk_vma (start v) a (prot v) (flags v)
    (match backing v with
     | FileBacked ino off sh wr pages => FileBacked ino off sh wr (take (Z.to_nat ((a - start v) / 4096)) pages)
     | other => other
     end).
Definition tail_of (v : Vma) (a : Z) : Vma :=
  mk_vma a (end_ v) (prot v) (flags v)
    (match backing v with
     | FileBacked ino off sh wr pages =>
         FileBacked ino (off + (a - start v)) sh wr (drop (Z.to_nat ((a - start v) / 4096)) pages)
     | other => other
     end).

(** A page-aligned distance inside [v], in pages. *)
Lemma inside_pages v a :
  vma_ok v → start v < a < end_ v → a mod PAGE_SIZE = 0 →
  ∃ i, 0 < i ∧ a - start v = PAGE_SIZE * i ∧ (a - start v) / PAGE_SIZE = i ∧
    match backing v with FileBacked _ _ _ _ pages => i < Z.of_nat (length pages) | _ => True end.
Proof.
  intros Hok Ha Hal. pose proof (vo_align v Hok) as Hs. pose proof (vo_pages v Hok) as Hp. unfold PAGE_SIZE in *.
  exists ((a - start v) / 4096).
  assert (E : a - start v = 4096 * ((a - start v) / 4096)).
  { apply Z.div_exact; [lia|]. rewrite Zminus_mod, Hal, Hs. done. }
  split_and!; [lia|done|done|]. destruct (backing v); try done. lia.
Qed.

Lemma split_ok v a :
  vma_ok v → start v < a < end_ v → a mod PAGE_SIZE = 0 →
  split_backing (backing v) (a - start v) = Ret (backing (head_of v a), backing (tail_of v a)) ∧
  vma_ok (head_of v a) ∧ vma_ok (tail_of v a).
Proof.
  intros Hok Ha Hal. destruct (inside_pages v a Hok Ha Hal) as (i & Hi & Ei & Ed & Hp).
  pose proof (vo_range v Hok). pose proof (vo_align v Hok). pose proof (vo_pages v Hok) as Hpg.
  unfold PAGE_SIZE in *. split_and!.
  - unfold split_backing, head_of, tail_of. destruct (backing v) as [| | | | |ino off sh wr pages]; try done.
    cbn [backing]. rewrite Ed. rewrite (proj2 (Nat.ltb_ge _ _)) by lia. done.
  - split; cbn [head_of start end_ backing]; [lia|done|]. destruct (backing v); try done.
    rewrite Ed, length_take. unfold PAGE_SIZE. lia.
  - split; cbn [tail_of start end_ backing]; [lia|done|]. destruct (backing v); try done.
    rewrite Ed, length_drop. unfold PAGE_SIZE. lia.
Qed.

(** The part of [v] that holds [x] once [v] is cut at [a]. *)
Definition piece (a x : Z) (v : Vma) : Vma :=
  if (start v <? a) && (a <? end_ v) then (if x <? a then head_of v a else tail_of v a) else v.

Lemma piece_ok a x v : vma_ok v → a mod PAGE_SIZE = 0 → contains v x = true →
  vma_ok (piece a x v) ∧ contains (piece a x v) x = true.
Proof.
  intros Hok Hal Hx. unfold piece, contains in *. destruct ((start v <? a) && (a <? end_ v)) eqn:E; [|done]. to_lia.
  destruct (split_ok v a Hok ltac:(lia) Hal) as (_ & Hh & Ht). destruct (Z.ltb_spec x a); (split; [done|]); cbn; lia.
Qed.

Lemma piece_view a x v : vma_ok v → a mod PAGE_SIZE = 0 → contains v x = true → vview (piece a x v) x = vview v x.
Proof.
  intros Hok Hal Hx. unfold piece. destruct ((start v <? a) && (a <? end_ v)) eqn:E; [|done]. unfold contains in Hx. to_lia.
  destruct (inside_pages v a Hok ltac:(lia) Hal) as (i & Hi & Ei & Ed & Hp). pose proof (vo_align v Hok). unfold PAGE_SIZE in *.
  destruct (Z.ltb_spec x a); unfold vview, page_backing; cbn [head_of tail_of prot flags backing start];
    destruct (backing v) as [| | | | |ino off sh wr pages]; try done; rewrite Ed; do 2 f_equal; unfold PAGE_SIZE.
  - rewrite lookup_take_lt; [done|]. apply Z2Nat.inj_lt; [apply Z.div_pos; lia|lia|].
    apply Z.div_lt_upper_bound; lia.
  - replace (x - start v) with (x - a + i * 4096) by lia. rewrite Z.div_add by lia. lia.
  - replace (x - start v) with (x - a + i * 4096) by lia. rewrite Z.div_add by lia.
    assert (0 <= (x - a) / 4096) by (apply Z.div_pos; lia). rewrite lookup_drop. replace (Z.to_nat i + Z.to_nat ((x - a) / 4096))%nat
      with (Z.to_nat ((x - a) / 4096 + i)) by lia. done.
Qed.

(** Cutting an area leaves its two parts to be found in its place. *)
Lemma piece_found a x v : start v < a < end_ v → vfind [head_of v a; tail_of v a] x = piece a x <$> vfind [v] x.
Proof.
  intros Ha. cbn [vfind]. unfold contains. cbn [head_of tail_of start end_].
  destruct (Z.leb_spec (start v) x), (Z.ltb_spec x (end_ v)), (Z.ltb_spec x a), (Z.leb_spec a x);
    cbn [andb]; try lia; try done; cbn [fmap option_fmap option_map]; f_equal; unfold piece.
  all: rewrite (proj2 (Z.ltb_lt (start v) a)), (proj2 (Z.ltb_lt a (end_ v))) by lia; cbn [andb].
  - by rewrite (proj2 (Z.ltb_lt x a)).
  - by rewrite (proj2 (Z.ltb_ge x a)).
Qed.

Lemma vfind_some l x v : vfind l x = Some v → v ∈ l ∧ contains v x = true.
Proof.
  induction l as [|w l IH]; cbn [vfind]; [done|]. destruct (contains w x) eqn:E.
  - intros [= ->]. split; [left|done].
  - intros H. destruct (IH H). split; [by right|done].
Qed.

Lemma vfind_wf s x v : wf s → vfind (areas (vmas s)) x = Some v → vma_ok v ∧ contains v x = true.
Proof.
  intros Hwf Hf. apply vfind_some in Hf as [Hin Hc]. split; [|done]. apply list_elem_of_fmap in Hin as ([k w] & -> & Hin).
  destruct (vchain_bounds _ _ Hwf) as [_ Hb]. rewrite Forall_forall in Hb. by destruct (Hb _ Hin) as (_ & _ & _ & ?).
Qed.

(** No area crosses [a]. *)
Definition clear_at (m : bmap Z Vma) (a : Z) : Prop := Forall (λ e, end_ e.2 <= a ∨ a <= start e.2) m.

Lemma lview_app l1 l2 x : lview (l1 ++ l2) x = match lview l1 x with Some r => Some r | None => lview l2 x end.
Proof. unfold lview. rewrite vfind_app. by destruct (vfind l1 x). Qed.

Lemma chain_keys_lt lo m k : chain lo m → chain_end lo m <= k → Forall (λ e, klt e.1 k = true) m.
Proof.
  intros Hc Hk. destruct (vchain_bounds _ _ Hc) as [_ Hb]. eapply Forall_impl; [exact Hb|].
  simpl. intros [k' v'] (-> & ? & ? & Hok). pose proof (vo_range _ Hok). simpl in *. lia.
Qed.

Lemma chain_keys_gt lo m k : chain lo m → k < lo → Forall (λ e, klt k e.1 = true) m.
Proof.
  intros Hc Hk. destruct (vchain_bounds _ _ Hc) as [_ Hb]. eapply Forall_impl; [exact Hb|].
  simpl. intros [k' v'] (-> & ? & _). simpl in *. lia.
Qed.

Lemma piece_clear m a x : clear_at m a → piece a x <$> vfind (areas m) x = vfind (areas m) x.
Proof.
  intros Hc. destruct (vfind (areas m) x) as [v|] eqn:E; [|done]. apply vfind_some in E as [Hin _].
  apply list_elem_of_fmap in Hin as (e & -> & Hin). unfold clear_at in Hc. rewrite Forall_forall in Hc. specialize (Hc e Hin).
  cbn. unfold piece. destruct ((start e.2 <? a) && (a <? end_ e.2)) eqn:E; [to_lia; lia|done].
Qed.

Lemma split_at_find s a :
  wf s → a mod PAGE_SIZE = 0 →
  ∃ s', split_at s a = Ret s' ∧ wf s' ∧ mmap_base s' = mmap_base s ∧
    (∀ x, vfind (areas (vmas s')) x = piece a x <$> vfind (areas (vmas s)) x) ∧
    clear_at (vmas s') a ∧ (∀ b, clear_at (vmas s) b → clear_at (vmas s') b).
Proof.
  intros Hwf Hal. unfold split_at. unfold align_down. rewrite Hal, Z.sub_0_r. unfold last_lt.
  unfold wf in *. destruct (chain_cut_lt 0 (vmas s) a Hwf) as (pre & post & E & -> & H1 & H2).
  rewrite E in Hwf. apply vchain_app in Hwf as [Hc1 Hc2].
  assert (Hpost : clear_at post a).
  { destruct (vchain_bounds _ _ Hc2) as [_ Hb]. apply Forall_forall. intros e He.
    rewrite Forall_forall in H2, Hb. specialize (H2 e He). destruct (Hb e He) as (Ek & _). right. lia. }
  destruct pre as [|[k v] pre _] using rev_ind.
  { exists s. cbn [app] in E. split_and!; try done; rewrite E; try done.
    intros x. by rewrite piece_clear. }
  rewrite last_snoc. apply Forall_app in H1 as [_ H1]. apply Forall_cons in H1 as [H1 _]. simpl in H1.
  apply vchain_app in Hc1 as [Hc1 (-> & Hlo & Hok & _)].
  assert (Hce : chain_end 0 (pre ++ [(start v, v)]) = end_ v).
  { clear. generalize 0. induction pre as [|[k' v'] pre IH]; intros lo; [done|]. apply IH. }
  rewrite Hce in Hc2. pose proof (vo_range v Hok) as Hrng.
  assert (Hpre : clear_at pre a).
  { destruct (vchain_bounds _ _ Hc1) as [_ Hb]. eapply Forall_impl; [exact Hb|]. simpl. intros e (_ & _ & ? & _). lia. }
  rewrite E, <- app_assoc. cbn [app]. rewrite bget_at by (by eapply chain_keys_lt).
  unfold contains. rewrite (proj2 (Z.leb_le _ _)), (proj2 (Z.eqb_neq _ _)) by lia.
  rewrite andb_true_l, andb_true_r. destruct (Z.ltb_spec a (end_ v)) as [Hlt|Hge].
  - destruct (split_ok v a Hok ltac:(lia) Hal) as (-> & Hh & Ht). pose proof (λ x, piece_found a x v ltac:(lia)) as Hv. cbn [mbind outcome_bind].
    change {| start := start v; end_ := a; prot := prot v; flags := flags v; backing := backing (head_of v a) |} with (head_of v a).
    change {| start := a; end_ := end_ v; prot := prot v; flags := flags v; backing := backing (tail_of v a) |} with (tail_of v a).
    assert (Hs : start (head_of v a) = start v ∧ end_ (head_of v a) = a ∧
                 start (tail_of v a) = a ∧ end_ (tail_of v a) = end_ v) by done.
    set (h := head_of v a) in *. set (t := tail_of v a) in *. clearbody h t.
    destruct Hs as (Eh1 & Eh2 & Et1 & Et2). rewrite Eh1, Et1.
    rewrite bremove_at by (by eapply chain_keys_lt).
    rewrite binsert_at by (by eapply chain_keys_lt || (eapply chain_keys_gt; [done|lia])).
    change (pre ++ (start v, h) :: post) with (pre ++ [(start v, h)] ++ post). rewrite (app_assoc pre).
    rewrite binsert_at; [| |eapply chain_keys_gt; [done|lia]].
    2: { apply Forall_app. split; [eapply chain_keys_lt; [done|lia]|]. constructor; [simpl; lia|done]. }
    eexists. split; [done|]. cbn [set_vmas vmas mmap_base]. rewrite <- app_assoc. cbn [app]. split_and!.
    + apply vchain_app. split; [done|]. cbn [chain]. rewrite Eh1, Eh2, Et1, Et2.
      split_and!; try done; lia.
    + done.
    + intros x. change ((start v, h) :: (a, t) :: post) with ([(start v, h); (a, t)] ++ post).
      change ((start v, v) :: post) with ([(start v, v)] ++ post).
      rewrite !fmap_app, !vfind_app. change (snd <$> [(start v, h); (a, t)]) with [h; t].
      change (snd <$> [(start v, v)]) with [v]. rewrite Hv.
      pose proof (piece_clear pre a x Hpre). pose proof (piece_clear post a x Hpost).
      by destruct (vfind (areas pre) x), (vfind [v] x).
    + apply Forall_app. split; [done|]. constructor; [simpl; lia|]. constructor; [simpl; lia|done].
    + intros b Hb. apply Forall_app in Hb as [Hb1 Hb2]. apply Forall_cons in Hb2 as [Hbv Hb2].
      apply Forall_app. split; [done|]. simpl in Hbv. constructor; [simpl; lia|]. constructor; [simpl; lia|done].
  - exists s. rewrite E, <- app_assoc. cbn [app]. split_and!; try done.
    + apply vchain_app. split; [done|]. cbn [chain]. done.
    + intros x. rewrite piece_clear; [done|]. apply Forall_app. split; [done|]. constructor; [simpl; lia|done].
    + apply Forall_app. split; [done|]. constructor; [simpl; lia|done].
Qed.

Lemma split_at_spec s a :
  wf s → a mod PAGE_SIZE = 0 →
  ∃ s', split_at s a = Ret s' ∧ wf s' ∧ mmap_base s' = mmap_base s ∧
    (∀ x, lview (areas (vmas s')) x = lview (areas (vmas s)) x) ∧
    clear_at (vmas s') a ∧ (∀ b, clear_at (vmas s) b → clear_at (vmas s') b).
Proof.
  intros Hwf Hal. destruct (split_at_find s a Hwf Hal) as (s' & E & Hwf' & Hb & Hv & Hc & Hk).
  exists s'. split_and!; try done. intros x. unfold lview. rewrite Hv. destruct (vfind (areas (vmas s)) x) as [v|] eqn:Ev; [|done].
  destruct (vfind_wf s x v Hwf Ev). cbn. f_equal. by apply piece_view.
Qed.

(** Replacing an area by one with the same bounds. *)
Lemma chain_replace m k v : chain 0 m → (k, v) ∈ m → ∃ pre post, m = pre ++ (k, v) :: post ∧
  ∀ v', start v' = start v → end_ v' = end_ v → vma_ok v' → binsert k v' m = pre ++ (k, v') :: post ∧ chain 0 (pre ++ (k, v') :: post).
Proof.
  intros Hc Hin. apply list_elem_of_split in Hin as (pre & post & E). rewrite E in *. exists pre, post. split; [done|]. intros v' Hs He Hok.
  apply vchain_app in Hc as [Hpre (-> & Hlo & _ & Hpost)]. split; [apply binsert_replace; by eapply chain_keys_lt|].
  apply vchain_app. split; [done|]. cbn. rewrite Hs, He. done.
Qed.

Lemma last_le_elem m a e : last_le m a = Some e → e ∈ m.
Proof. unfold last_le. intros He. apply last_Some_elem_of, list_elem_of_filter in He. tauto. Qed.

(** ** Range removal *)

Lemma remove_keys_spec pre mid post :
  Forall (λ e : Z * Vma, ∀ e' : Z * Vma, e' ∈ mid → klt e.1 e'.1 = true) pre →
  remove_keys (pre ++ mid ++ post) (fst <$> mid) = (areas mid, pre ++ post).
Proof.
  intros Hpre. induction mid as [|[k v] mid IH]; [done|]. cbn [fmap list_fmap remove_keys app fst snd].
  assert (Hk : Forall (λ e, klt e.1 k = true) pre).
  { eapply Forall_impl; [exact Hpre|]. intros e He. apply (He (k, v)). left. }
  rewrite bremove_at, bget_at by done. fold (fmap (M := list) (fst (A := Z) (B := Vma))).
  rewrite IH; [done|]. eapply Forall_impl; [exact Hpre|]. intros e He e' He'. apply He. by right.
Qed.

Lemma chain_drop_mid lo pre mid post : chain lo (pre ++ mid ++ post) → chain lo (pre ++ post).
Proof.
  rewrite !vchain_app. intros (H1 & H2 & H3). split; [done|]. eapply vchain_weaken; [|exact H3].
  by apply vchain_bounds.
Qed.

Lemma chain_mid lo pre mid post : 0 <= lo → chain lo (pre ++ mid ++ post) → chain 0 mid.
Proof.
  intros Hlo. rewrite !vchain_app. intros (Hp & Hm & _). eapply vchain_weaken; [|exact Hm]. destruct (vchain_bounds _ _ Hp). lia.
Qed.

(** The keys of a range sit together. *)
Lemma chain_cut_range lo m a b : chain lo m → a <= b →
  ∃ pre mid post, m = pre ++ mid ++ post ∧ filter (λ e, (a <=? e.1) && (e.1 <? b) = true) m = mid ∧
    Forall (λ e, e.1 < a) pre ∧ Forall (λ e, a <= e.1 < b) mid ∧ Forall (λ e, b <= e.1) post.
Proof.
  intros Hc Hab. destruct (chain_cut_lt lo m a Hc) as (pre & rest & -> & _ & H1 & H2).
  apply vchain_app in Hc as [_ Hc]. destruct (chain_cut_lt _ rest b Hc) as (mid & post & -> & _ & H3 & H4).
  exists pre, mid, post. apply Forall_app in H2 as [H2 H2'].
  assert (Hm : Forall (λ e, a <= e.1 < b) mid).
  { apply Forall_forall. intros e He. rewrite Forall_forall in H2, H3. split; [by apply H2|by apply H3]. }
  split_and!; try done. rewrite !filter_app.
  assert (Hnil : ∀ l : bmap Z Vma, Forall (λ e, ¬ (a <= e.1 < b)) l → filter (λ e, (a <=? e.1) && (e.1 <? b) = true) l = []).
  { intros l Hl. induction Hl as [|e l He _ IH]; [done|]. rewrite filter_cons, decide_False; [done|]. lia. }
  rewrite (Hnil pre), (Hnil post) by (eapply Forall_impl; [eassumption|]; simpl; lia).
  rewrite app_nil_r. cbn [app]. clear -Hm. induction Hm as [|e l He _ IH]; [done|].
  rewrite filter_cons, decide_True by lia. by rewrite IH.
Qed.

(** The part of [v] that holds [x] once [v] is cut at both ends of a range. *)
Definition remnant (lo hi x : Z) (v : Vma) : Vma := piece hi x (piece lo x v).

Lemma remove_range_find s lo hi :
  wf s → lo mod PAGE_SIZE = 0 → hi mod PAGE_SIZE = 0 → lo <= hi →
  ∃ removed s', remove_range s lo hi = Ret (removed, s') ∧ wf s' ∧ mmap_base s' = mmap_base s ∧
    Forall (λ v, lo <= start v ∧ end_ v <= hi) removed ∧ (∃ mid, removed = areas mid ∧ chain 0 mid) ∧
    ∀ x, vfind (areas (vmas s')) x = (if (lo <=? x) && (x <? hi) then None else remnant lo hi x <$> vfind (areas (vmas s)) x) ∧
         (lo <= x < hi → vfind removed x = remnant lo hi x <$> vfind (areas (vmas s)) x).
Proof.
  intros Hwf Hlo Hhi Hle. unfold remove_range, remnant.
  destruct (split_at_find s lo Hwf Hlo) as (s1 & -> & Hwf1 & Hb1 & Hv1 & Hc1 & _). cbn [mbind outcome_bind].
  destruct (split_at_find s1 hi Hwf1 Hhi) as (s2 & -> & Hwf2 & Hb2 & Hv2 & Hc2 & Hk). cbn [mbind outcome_bind].
  apply Hk in Hc1. clear Hk. unfold wf in Hwf2.
  destruct (chain_cut_range 0 (vmas s2) lo hi Hwf2 Hle) as (pre & mid & post & E & -> & H1 & H2 & H3).
  rewrite E in *. rewrite remove_keys_spec.
  2: { eapply Forall_impl; [exact H1|]. simpl. intros e He e' He'. rewrite Forall_forall in H2.
       specialize (H2 _ He'). simpl in *. lia. }
  pose proof (vchain_bounds _ _ Hwf2) as [_ Hb]. pose proof Hb as Hbd. rewrite !Forall_app in Hbd.
  unfold clear_at in Hc1, Hc2. rewrite !Forall_app in Hc1, Hc2.
  destruct Hbd as (Hbp & Hbm & Hbt), Hc1 as (Hc1p & _ & _), Hc2 as (_ & Hc2m & _).
  assert (Hpre : Forall (λ v, end_ v <= lo) (areas pre)).
  { apply Forall_fmap, Forall_forall. intros e He. rewrite Forall_forall in H1, Hc1p, Hbp.
    specialize (H1 e He). specialize (Hc1p e He). destruct (Hbp e He) as (Ek & _). simpl. lia. }
  assert (Hmid : Forall (λ v, lo <= start v ∧ end_ v <= hi) (areas mid)).
  { apply Forall_fmap, Forall_forall. intros e He. rewrite Forall_forall in H2, Hc2m, Hbm.
    specialize (H2 e He). specialize (Hc2m e He). destruct (Hbm e He) as (Ek & _). simpl. lia. }
  assert (Hpost : Forall (λ v, hi <= start v) (areas post)).
  { apply Forall_fmap, Forall_forall. intros e He. rewrite Forall_forall in H3, Hbt.
    specialize (H3 e He). destruct (Hbt e He) as (Ek & _). simpl. lia. }
  assert (Hskip : ∀ (P : Vma → Prop) l x, Forall P l → (∀ v, P v → x < start v ∨ end_ v <= x) → vfind l x = None).
  { intros P l x Hl HP. apply vfind_none. eapply Forall_impl; [exact Hl|]. done. }
  eexists _, _. split; [done|]. split_and!; [by eapply chain_drop_mid|cbn; congruence|done|exists mid; split; [done|by eapply chain_mid]|].
  intros x. rewrite (option_fmap_compose (piece lo x) (piece hi x)), <- Hv1, <- Hv2. cbn [set_vmas vmas]. rewrite !fmap_app, !vfind_app. split.
  - destruct ((lo <=? x) && (x <? hi)) eqn:Ex; to_lia.
    + rewrite (Hskip _ _ x Hpre) by lia. rewrite (Hskip _ _ x Hpost) by lia. done.
    + destruct (vfind (areas pre) x); [done|]. rewrite (Hskip _ _ x Hmid); [done|]. intros v. lia.
  - intros Hx. rewrite (Hskip _ _ x Hpre) by lia. rewrite (Hskip _ _ x Hpost) by lia.
    by destruct (vfind (areas mid) x).
Qed.

Lemma remnant_view lo hi x v : vma_ok v → lo mod PAGE_SIZE = 0 → hi mod PAGE_SIZE = 0 → contains v x = true →
  vview (remnant lo hi x v) x = vview v x.
Proof. intros Hok Hlo Hhi Hx. destruct (piece_ok lo x v Hok Hlo Hx). unfold remnant. by rewrite !piece_view. Qed.

Lemma remove_range_spec s lo hi :
  wf s → lo mod PAGE_SIZE = 0 → hi mod PAGE_SIZE = 0 → lo <= hi →
  ∃ removed s', remove_range s lo hi = Ret (removed, s') ∧ wf s' ∧ mmap_base s' = mmap_base s ∧
    Forall (λ v, lo <= start v ∧ end_ v <= hi) removed ∧ (∃ mid, removed = areas mid ∧ chain 0 mid) ∧
    ∀ x, lview (areas (vmas s')) x = (if (lo <=? x) && (x <? hi) then None else lview (areas (vmas s)) x) ∧
         (lo <= x < hi → lview removed x = lview (areas (vmas s)) x).
Proof.
  intros Hwf Hlo Hhi Hle. destruct (remove_range_find s lo hi Hwf Hlo Hhi Hle)
    as (removed & s' & Hr & Hwf' & Hb & Hin & Hm & Hv).
  exists removed, s'. split_and!; try done. intros x. destruct (Hv x) as [H1 H2].
  assert (Hs : (λ v, vview v x) <$> (remnant lo hi x <$> vfind (areas (vmas s)) x) = lview (areas (vmas s)) x).
  { unfold lview. destruct (vfind (areas (vmas s)) x) as [v|] eqn:Ev; [|done]. destruct (vfind_wf s x v Hwf Ev).
    cbn. f_equal. by apply remnant_view. }
  unfold lview at 1 3. rewrite H1. split; [destruct ((lo <=? x) && (x <? hi)); [done|exact Hs]|].
  intros Hx. by rewrite H2.
Qed.

(** Where the physical addresses of what is left of [v] are counted from: the
    last cut at or below [x]. *)
Definition cut_origin (lo hi x : Z) (v : Vma) : Z :=
  if (start v <? hi) && (hi <=? x) then hi else if (start v <? lo) && (lo <=? x) then lo else start v.

Lemma remnant_phys lo hi x v : lo <= hi → contains v x = true →
  phys_at (remnant lo hi x v) x = phys_from v (cut_origin lo hi x v) x.
Proof.
  intros Hle Hx. unfold contains in Hx. to_lia. unfold cut_origin.
  assert (Hp : ∀ a w, start w <= x < end_ w → start (piece a x w) = (if (start w <? a) && (a <=? x) then a else start w) ∧
    x < end_ (piece a x w) ∧ ∀ o, phys_from (piece a x w) o x = phys_from w o x).
  { intros a w Hw. unfold piece. destruct (Z.ltb_spec (start w) a), (Z.ltb_spec a (end_ w)), (Z.ltb_spec x a), (Z.leb_spec a x);
      cbn [andb]; try lia; (split_and!; [done|cbn; lia|]); intros o; unfold phys_from; cbn; by destruct (backing w). }
  destruct (Hp lo v ltac:(lia)) as (Es & He & Ho). destruct (Hp hi (piece lo x v)) as (Es' & _ & Ho').
  { rewrite Es. destruct (Z.ltb_spec (start v) lo), (Z.leb_spec lo x); cbn [andb]; lia. }
  unfold remnant, phys_at. rewrite Ho', Ho, Es', Es. f_equal.
  destruct (Z.ltb_spec (start v) lo), (Z.leb_spec lo x), (Z.ltb_spec (start v) hi), (Z.leb_spec hi x); cbn [andb];
    try lia; repeat (case_match; to_lia; try lia).
Qed.


(** ** The search for a free range *)

Definition round_up (x : Z) : Z := align_down (x + (PAGE_SIZE - 1)).

(** No area touches a page of [c, c + len). *)
Definition free_at (m : bmap Z Vma) (c len : Z) : Prop :=
  Forall (λ e, c + len <= start e.2 ∨ round_up (end_ e.2) <= c) m.

(** [c] is the lowest free page-aligned range of [len] bytes from [lo] on. *)
Record lowest_fit (m : bmap Z Vma) (lo len c : Z) : Prop := {
  lf_from : lo <= c;
  lf_align : c mod PAGE_SIZE = 0;
  lf_end : c + len <= USER_VA_END;
  lf_free : free_at m c len;
  lf_min : ∀ c', lo <= c' < c → ¬ free_at m c' len
}.

Definition no_fit (m : bmap Z Vma) (lo len : Z) : Prop :=
  ∀ c', lo <= c' → c' + len <= USER_VA_END → ¬ free_at m c' len.

Lemma round_up_bounds x : x <= round_up x < x + PAGE_SIZE ∧ round_up x mod PAGE_SIZE = 0.
Proof.
  unfold round_up, align_down, PAGE_SIZE. pose proof (Z.mod_pos_bound (x + (4096 - 1)) 4096). split; [lia|].
  rewrite Zminus_mod, Z.mod_mod, Z.sub_diag by lia. done.
Qed.

Lemma round_up_min x y : y mod PAGE_SIZE = 0 → x <= y → round_up x <= y.
Proof.
  unfold round_up, align_down, PAGE_SIZE. intros Hy Hxy.
  pose proof (Z.div_mod y 4096). pose proof (Z.div_mod (x + (4096 - 1)) 4096).
  pose proof (Z.mod_pos_bound (x + (4096 - 1)) 4096).
  assert ((x + (4096 - 1)) / 4096 <= y / 4096 ∨ y / 4096 < (x + (4096 - 1)) / 4096) as [|] by lia; lia.
Qed.

Lemma page_round_up_user x : x <= USER_VA_END → page_round_up x = Some (round_up x).
Proof.
  intros Hx. unfold page_round_up, PAGE_SIZE, USER_VA_END, U64_MAX in *.
  rewrite (proj2 (Z.leb_le _ _)) by lia. done.
Qed.

Lemma fit_walk_spec len : 0 < len → ∀ m lo cursor,
  chain lo m → cursor mod PAGE_SIZE = 0 → cursor <= USER_VA_END + PAGE_SIZE →
  match fit_walk m cursor len with
  | Some c => lowest_fit m cursor len c
  | None => no_fit m cursor len
  end.
Proof.
  intros Hlen. induction m as [|[k v] m IH]; intros lo cursor Hc Hal Hcur; cbn [fit_walk].
  - destruct (Z.leb_spec (cursor + len) U64_MAX); [destruct (Z.leb_spec (cursor + len) USER_VA_END)|].
    + split; try done; try lia. constructor.
    + intros c' ? ?. lia.
    + intros c' ? ?. unfold USER_VA_END, U64_MAX in *. lia.
  - destruct Hc as (-> & Hlo & Hok & Hc). pose proof (vo_range v Hok) as Hr.
    destruct (Z.leb_spec (cursor + len) U64_MAX).
    2: { intros c' ? ?. unfold USER_VA_END, U64_MAX in *. lia. }
    destruct (Z.leb_spec (cursor + len) (start v)) as [Hfit|Hno].
    + split; try done; try lia. constructor; [simpl; lia|].
      destruct (vchain_bounds _ _ Hc) as [_ Hb]. eapply Forall_impl; [exact Hb|]. simpl. intros e (_ & ? & _). lia.
    + rewrite page_round_up_user by lia. cbn [mbind option_bind].
      destruct (round_up_bounds (end_ v)) as [Hru Hra].
      assert (Hskip : ∀ c', cursor <= c' < Z.max cursor (round_up (end_ v)) → ¬ free_at ((start v, v) :: m) c' len).
      { intros c' Hc' Hf. apply Forall_cons in Hf as [Hf _]. simpl in Hf. lia. }
      assert (Htail : ∀ c', ¬ free_at m c' len → ¬ free_at ((start v, v) :: m) c' len).
      { intros c' Hn Hf. apply Hn. by apply Forall_cons in Hf as [_ Hf]. }
      specialize (IH (end_ v) (Z.max cursor (round_up (end_ v))) Hc).
      destruct (fit_walk m _ len) as [c|].
      * destruct IH as []; [by destruct (Z.max_spec cursor (round_up (end_ v))) as [[_ ->]|[_ ->]]|unfold PAGE_SIZE in *; lia|].
        split; try done; [lia| |].
        -- constructor; [simpl; lia|done].
        -- intros c' Hc'. destruct (Z.lt_ge_cases c' (Z.max cursor (round_up (end_ v)))); [apply Hskip; lia|].
           apply Htail, lf_min0. lia.
      * intros c' Hc' He. destruct (Z.lt_ge_cases c' (Z.max cursor (round_up (end_ v)))); [apply Hskip; lia|].
        apply Htail, IH; [by destruct (Z.max_spec cursor (round_up (end_ v))) as [[_ ->]|[_ ->]]|unfold PAGE_SIZE in *; lia|lia|lia].
Qed.

Lemma filter_ge_cut pre post a : Forall (λ e : Z * Vma, e.1 < a) pre → Forall (λ e, a <= e.1) post →
  filter (λ e, (a <=? e.1) = true) (pre ++ post) = post.
Proof.
  intros H1 H2. rewrite filter_app.
  assert (E1 : filter (λ e : Z * Vma, (a <=? e.1) = true) pre = []).
  { induction H1 as [|e l He _ IH]; [done|]. rewrite filter_cons, decide_False; [done|]. lia. }
  rewrite E1. cbn [app]. induction H2 as [|e l He _ IH]; [done|]. rewrite filter_cons, decide_True by lia. by rewrite IH.
Qed.

(** Every area that starts at or below the floor ends, in pages, at or below
    the cursor the search starts from; a lower position collides. *)
Lemma first_cursor m floor : chain 0 m → floor mod PAGE_SIZE = 0 → floor <= USER_VA_END →
  ∃ cursor, match last_le m floor with
            | Some (_, prev) => e ← page_round_up (end_ prev); Some (Z.max floor e)
            | None => Some floor
            end = Some cursor ∧
    floor <= cursor ∧ cursor <= USER_VA_END + PAGE_SIZE ∧ cursor mod PAGE_SIZE = 0 ∧
    Forall (λ e : Z * Vma, e.1 <= floor → round_up (end_ e.2) <= cursor) m ∧
    ∀ c len, 0 < len → floor <= c < cursor → ¬ free_at m c len.
Proof.
  intros Hc Hal Hfl. unfold last_le.
  destruct (chain_cut_le 0 m floor Hc) as (pre & post & E & -> & H1 & H2).
  destruct pre as [|[k v] pre _] using rev_ind.
  - exists floor. unfold PAGE_SIZE in *. split_and!; try done; try lia.
    rewrite E. cbn [app]. eapply Forall_impl; [exact H2|]. simpl. lia.
  - rewrite last_snoc. rewrite E in Hc. apply vchain_app in Hc as [Hc1 Hc2].
    apply vchain_app in Hc1 as [Hc1 (-> & Hlo & Hok & _)]. pose proof (vo_range v Hok).
    apply Forall_app in H1 as [_ H1]. apply Forall_cons in H1 as [H1 _]. simpl in H1.
    rewrite page_round_up_user by lia. cbn [mbind option_bind].
    destruct (round_up_bounds (end_ v)) as [Hru Hra]. eexists. split; [done|].
    split_and!; [lia|unfold PAGE_SIZE in *; lia|by destruct (Z.max_spec floor (round_up (end_ v))) as [[_ ->]|[_ ->]]| |].
    + rewrite E. apply Forall_app. split; [apply Forall_app; split|].
      * destruct (vchain_bounds _ _ Hc1) as [_ Hb]. eapply Forall_impl; [exact Hb|].
        simpl. intros e (_ & _ & ? & _) _. transitivity floor; [|lia]. apply round_up_min; [done|lia].
      * constructor; [simpl; lia|done].
      * eapply Forall_impl; [exact H2|]. simpl. lia.
    + intros c len Hlen Hcc Hf. rewrite E in Hf. apply Forall_app in Hf as [Hf _].
      apply Forall_app in Hf as [_ Hf]. apply Forall_cons in Hf as [Hf _]. simpl in Hf. lia.
Qed.

Lemma first_fit_gap_spec m floor len : chain 0 m → floor mod PAGE_SIZE = 0 → floor <= USER_VA_END → 0 < len →
  match first_fit m floor len with
  | Some c => lowest_fit m floor len c
  | None => no_fit m floor len
  end.
Proof.
  intros Hc Hal Hfl Hlen. unfold first_fit.
  destruct (first_cursor m floor Hc Hal Hfl) as (cursor & -> & Hfc & Hcu & Hca & Hbelow & Hskip).
  cbn [mbind option_bind]. destruct (chain_cut_lt 0 m floor Hc) as (pre & post & E & _ & H1 & H2).
  rewrite E, filter_ge_cut by done. rewrite E in Hc. apply vchain_app in Hc as [_ Hc2].
  assert (Hsplit : ∀ c, cursor <= c → free_at m c len ↔ free_at post c len).
  { intros c Hcc. rewrite E. unfold free_at. rewrite Forall_app. split; [by intros []|]. intros Hp. split; [|done].
    apply Forall_forall. intros e He. right. rewrite E in Hbelow. apply Forall_app in Hbelow as [Hbelow _].
    rewrite Forall_forall in Hbelow, H1. specialize (H1 e He). specialize (Hbelow e He). lia. }
  rewrite <- E. pose proof (fit_walk_spec len Hlen post _ cursor Hc2 Hca Hcu) as Hw.
  destruct (fit_walk post cursor len) as [c|].
  - destruct Hw. split; try done; [lia|by apply Hsplit|]. intros c' Hc'.
    destruct (Z.lt_ge_cases c' cursor); [apply Hskip; lia|]. rewrite Hsplit by done. apply lf_min0. lia.
  - intros c' Hc' He. destruct (Z.lt_ge_cases c' cursor); [apply Hskip; lia|].
    rewrite Hsplit by done. by apply Hw.
Qed.

(** ** Claiming a range *)

Lemma insert_disjoint m v :
  chain 0 m → vma_ok v → Forall (λ e, end_ v <= start e.2 ∨ end_ e.2 <= start v) m →
  chain 0 (binsert (start v) v m) ∧
  ∀ x, lview (areas (binsert (start v) v m)) x = if contains v x then Some (vview v x) else lview (areas m) x.
Proof.
  intros Hc Hok Hd. pose proof (vo_range v Hok).
  destruct (chain_cut_lt 0 m (start v) Hc) as (pre & post & -> & _ & H1 & H2).
  destruct (vchain_bounds _ _ Hc) as [_ Hb]. apply Forall_app in Hb as [Hb1 Hb2]. apply Forall_app in Hd as [Hd1 Hd2].
  apply vchain_app in Hc as [Hc1 Hc2].
  assert (Hpre : Forall (λ e, end_ e.2 <= start v) pre).
  { apply Forall_forall. intros e He. rewrite Forall_forall in H1, Hb1, Hd1.
    specialize (H1 e He). specialize (Hd1 e He). destruct (Hb1 e He) as (Ek & _). lia. }
  assert (Hpost : Forall (λ e, end_ v <= start e.2) post).
  { apply Forall_forall. intros e He. rewrite Forall_forall in H2, Hb2, Hd2.
    specialize (H2 e He). specialize (Hd2 e He). destruct (Hb2 e He) as (Ek & _ & _ & Hoke).
    pose proof (vo_range _ Hoke). lia. }
  rewrite binsert_at.
  2: { eapply Forall_impl; [exact H1|]. intros e He. simpl in *. lia. }
  2: { apply Forall_forall. intros e He. rewrite Forall_forall in Hpost, Hb2. specialize (Hpost e He).
       destruct (Hb2 e He) as (Ek & _). simpl in *. lia. }
  split.
  - apply vchain_app. split; [done|]. cbn [chain]. split_and!; try done.
    + destruct pre as [|[k e] pre _] using rev_ind; [cbn; lia|]. apply vchain_app in Hc1 as [_ (-> & _)].
      apply Forall_app in Hpre as [_ Hp]. apply Forall_cons in Hp as [Hp _]. simpl in Hp.
      enough (Hce : ∀ lo, chain_end lo (pre ++ [(start e, e)]) = end_ e) by by rewrite Hce.
      clear. induction pre as [|[k' v'] pre IH]; intros lo; [done|]. apply IH.
    + destruct post as [|[k e] post]; [done|]. cbn [chain] in *. apply Forall_cons in Hpost as [Hp _]. simpl in Hp.
      destruct Hc2 as (-> & _ & ? & ?). done.
  - intros x. change ((start v, v) :: post) with ([(start v, v)] ++ post). rewrite !fmap_app, !lview_app.
    cbn [fmap list_fmap snd]. unfold lview at 2. cbn [vfind]. destruct (contains v x) eqn:Ex; [|by destruct (lview _ x)].
    cbn. unfold lview. rewrite vfind_none; [done|]. apply Forall_fmap. eapply Forall_impl; [exact Hpre|].
    unfold contains in Ex. simpl. intros e He. to_lia. lia.
Qed.

(** The floor the search uses: the recorded one, or the hint rounded up. *)
Definition base_of (s : VmaSet) (hint : Z) : Z := if mmap_base s =? 0 then round_up hint else mmap_base s.

Section ClaimSpec.
Context (canonical : Z → bool).
(** [VirtAddr::new] accepts the lower canonical half and refuses its upper
    bound, the first address past it. *)
Hypothesis canonical_user : ∀ a, 0 <= a < USER_VA_END → canonical a = true.
Hypothesis canonical_hole : canonical USER_VA_END = false.

Definition new_area (c len pr fl : Z) (bk : VmaBacking) : Vma := mk_vma c (c + len) pr fl bk.

(** [mmap] with a kernel-chosen address: on a sorted, disjoint set the
    search returns the lowest free page-aligned range above the floor that
    shares no page with any area, and records exactly that area: every other
    address keeps its mapping and the set stays sorted and disjoint. It reports
    no space only when no such range exists. The one panic is when the lowest
    range ends exactly at the top of the user half. *)
Theorem reserve_correct s hint length pr fl bk :
  wf s → 0 < length → 0 <= hint → base_of s hint mod PAGE_SIZE = 0 → 0 <= base_of s hint <= USER_VA_END →
  (∀ ino off sh wr pages, bk = FileBacked ino off sh wr pages →
     round_up length = PAGE_SIZE * Z.of_nat (List.length pages)) →
  let len := round_up length in
  let base := base_of s hint in
  match reserve canonical s hint length pr fl bk with
  | Ret (Ok c, s', hint') =>
      lowest_fit (vmas s) base len c ∧ hint' = c + len ∧ wf s' ∧
      ∀ x, view s' x = if (c <=? x) && (x <? c + len) then Some (vview (new_area c len pr fl bk) x) else view s x
  | Ret (Err NoSpace, s', hint') => no_fit (vmas s) base len ∧ vmas s' = vmas s ∧ hint' = hint
  | Ret (Err OutOfUserSpace, s', hint') => U64_MAX < length + (PAGE_SIZE - 1) ∧ s' = s ∧ hint' = hint
  | Panic => ∃ c, lowest_fit (vmas s) base len c ∧ c + len = USER_VA_END
  end.
Proof.
  intros Hwf Hlen Hhint Hal Hbase Hpages len base. unfold reserve, page_round_up at 1.
  destruct (Z.leb_spec (length + (PAGE_SIZE - 1)) U64_MAX) as [Hok|Hov].
  2: { split_and!; done. }
  change (align_down (length + (PAGE_SIZE - 1))) with len.
  destruct (round_up_bounds length) as [Hru Hra]. fold len in Hru, Hra.
  assert (Hlen_small : round_up len = len).
  { pose proof (round_up_bounds len) as [? _]. pose proof (round_up_min len len Hra ltac:(lia)). lia. }
  unfold find_free_address, page_round_up.
  assert (Hmul : len <= U64_MAX - (PAGE_SIZE - 1)).
  { unfold len, round_up, align_down, U64_MAX, PAGE_SIZE in *.
    pose proof (Z.div_mod (length + (4096 - 1)) 4096). pose proof (Z.mod_pos_bound (length + (4096 - 1)) 4096). lia. }
  rewrite (proj2 (Z.leb_le (len + (PAGE_SIZE - 1)) U64_MAX)) by lia.
  change (align_down (len + (PAGE_SIZE - 1))) with (round_up len). rewrite Hlen_small.
  assert (Hb : (if mmap_base s =? 0 then if hint + 4095 <=? U64_MAX then Ret (align_down (hint + 4095)) else Panic
                else Ret (mmap_base s)) = Ret base).
  { unfold base, base_of in *. destruct (mmap_base s =? 0); [|done].
    pose proof (round_up_bounds hint) as [? _]. rewrite (proj2 (Z.leb_le _ _)); [done|].
    unfold USER_VA_END, U64_MAX, PAGE_SIZE in *. lia. }
  rewrite Hb. cbn [mbind outcome_bind vmas].
  pose proof (first_fit_gap_spec (vmas s) base len Hwf Hal ltac:(lia) ltac:(lia)) as Hff.
  destruct (first_fit (vmas s) base len) as [c|]; [|done].
  pose proof Hff as [Hfrom Hca Hend Hfree _]. cbn [mbind outcome_bind]. unfold virt_addr. rewrite canonical_user by lia. cbn [mbind outcome_bind].
  rewrite (proj2 (Z.leb_le (c + len) U64_MAX)) by (unfold USER_VA_END, U64_MAX in *; lia).
  rewrite Hca. rewrite Z.add_mod, Hca, Hra by (unfold PAGE_SIZE; lia). cbn [Z.eqb Z.add andb].
  change (0 mod PAGE_SIZE =? 0) with true. cbn [andb].
  destruct (canonical (c + len)) eqn:Ecan; cbn [mbind outcome_bind].
  2: { exists c. split; [done|]. destruct (Z.eq_dec (c + len) USER_VA_END); [done|].
       rewrite canonical_user in Ecan by lia. done. }
  unfold insert. cbn [start end_ set_vmas vmas].
  rewrite (proj2 (Z.ltb_ge (c + len) c)), (proj2 (Z.ltb_ge USER_VA_END (c + len))) by lia. cbn [orb].
  destruct (insert_disjoint (vmas s) (new_area c len pr fl bk) Hwf) as [Hch Hv].
  { split; cbn [new_area start end_ backing]; [lia|done|]. destruct bk; try done.
    rewrite <- (Hpages _ _ _ _ _ eq_refl). fold len. lia. }
  { eapply Forall_impl; [exact Hfree|]. cbn [new_area start end_]. intros e [?|He]; [by left|right].
    pose proof (round_up_bounds (end_ e.2)) as [? _]. lia. }
  split_and!; [done|done|exact Hch|]. intros x. rewrite (view_lview s x Hwf).
  rewrite view_lview by exact Hch. exact (Hv x).
Qed.

(** An [mmap] whose range ends at the top of the user half panics the
    kernel: the bound check admits an end of [USER_VA_END], which
    [VirtAddr::new] refuses. Any process can name such a range. *)
Theorem claim_range_top_panics s hint addr length pr fl bk :
  0 < addr < USER_VA_END → 0 < length → addr + round_up length = USER_VA_END →
  claim_range canonical s hint addr length pr fl bk = Panic.
Proof.
  intros Ha Hl He. unfold claim_range. rewrite (proj2 (Z.eqb_neq addr 0)) by lia.
  destruct (round_up_bounds length) as [Hr _].
  rewrite page_round_up_user by lia. rewrite He.
  rewrite (proj2 (Z.leb_le USER_VA_END U64_MAX)), Z.leb_refl by done. cbn [andb].
  unfold virt_addr. rewrite (canonical_user addr) by lia. cbn [mbind outcome_bind]. by rewrite canonical_hole.
Qed.
End ClaimSpec.

(** The x86-64 canonical form: bits 48 to 63 copy bit 47. *)
Definition canonical48 (a : Z) : bool := (a <? 2 ^ 47) || (2 ^ 64 - 2 ^ 47 <=? a).

Definition demo_set : VmaSet :=
  mk_set [(4096, mk_vma 4096 12288 5 2 (FileBacked 7 8192 false false [Some 1; None]));
          (16384, mk_vma 16384 20480 3 2 Anonymous);
          (24576, mk_vma 24576 32768 3 1 (Physical 4244635648))] 4096.

Lemma demo_set_wf : wf demo_set.
Proof. repeat split; cbn; try lia; vm_compute; congruence. Qed.


Lemma reserve_correct_witness :
  match reserve canonical48 demo_set 0 100 3 2 Anonymous with
  | Ret (Ok c, s', hint') =>
      lowest_fit (vmas demo_set) (base_of demo_set 0) (round_up 100) c ∧ hint' = c + round_up 100 ∧ wf s' ∧
      ∀ x, view s' x = if (c <=? x) && (x <? c + round_up 100)
                       then Some (vview (new_area c (round_up 100) 3 2 Anonymous) x) else view demo_set x
  | Ret (Err NoSpace, s', hint') =>
      no_fit (vmas demo_set) (base_of demo_set 0) (round_up 100) ∧ vmas s' = vmas demo_set ∧ hint' = 0
  | Ret (Err OutOfUserSpace, s', hint') => U64_MAX < 100 + (PAGE_SIZE - 1) ∧ s' = demo_set ∧ hint' = 0
  | Panic => ∃ c, lowest_fit (vmas demo_set) (base_of demo_set 0) (round_up 100) c ∧ c + round_up 100 = USER_VA_END
  end.
Proof.
  refine (reserve_correct canonical48 _ demo_set 0 100 3 2 Anonymous demo_set_wf _ _ _ _ _).
  - unfold canonical48, USER_VA_END. intros a Ha. lia.
  - lia.
  - lia.
  - reflexivity.
  - vm_compute. split; congruence.
  - done.
Defined.

Lemma claim_range_top_panics_witness :
  claim_range canonical48 demo_set 0 0x7ffffffff000 4096 3 2 Anonymous = Panic.
Proof.
  refine (claim_range_top_panics canonical48 _ eq_refl demo_set 0 0x7ffffffff000 4096 3 2 Anonymous _ _ _).
  - unfold canonical48, USER_VA_END. intros a Ha. lia.
  - unfold USER_VA_END. lia.
  - lia.
  - reflexivity.
Defined.

End Vma.
