(* ===== verification/Valloc.v ===== *)
(** * Kernel virtual address allocator (kernel/src/memory/valloc.rs)

    First-fit allocation from a sorted array of free regions, with coalescing
    on free. [align_up] is the x86_64 crate's, reached through a parameter. *)

From S2P Require Import Prelude.

Module Valloc.

(** ** The code *)

Definition MAX_REGIONS : nat := Z.to_nat 4096.
Definition VMALLOC_END : Z := 0xFFFFE00000000000.

Record FreeRegion := mk_region { start : Z; size : Z }.

(** [regions[..count]], with the counters of dropped regions and refused frees. *)
Record VAlloc := mk_valloc {
  regions : list FreeRegion;
  leaked_regions : Z;
  leaked_bytes : Z;
  rejected_frees : Z
}.

Definition new (from : Z) : VAlloc := mk_valloc [mk_region from (VMALLOC_END - from)] 0 0 0.

Definition set_regions (s : VAlloc) (l : list FreeRegion) : VAlloc :=
  mk_valloc l (leaked_regions s) (leaked_bytes s) (rejected_frees s).

(** Shifting the array down over slot [idx], and up from it. *)
Definition remove (l : list FreeRegion) (idx : nat) : list FreeRegion := take idx l ++ drop (S idx) l.
Definition insert (l : list FreeRegion) (idx : nat) (r : FreeRegion) : list FreeRegion :=
  take idx l ++ r :: drop idx l.

(** Checked [u64] arithmetic. *)
Definition add64 (x y : Z) : outcome Z := if x + y <=? U64_MAX then Ret (x + y) else Panic.

Section Ops.
Context (align_up : Z → outcome Z).

(** [for i in 0..count] with [regions[i]] the head of [todo]. *)
Fixpoint alloc_scan (l todo : list FreeRegion) (i : nat) (need : Z) : option (Z * list FreeRegion) :=
  match todo with
  | [] => None
  | r :: todo' =>
      if need <=? size r then
        let remaining := size r - need in
        Some (start r,
              if 0 <? remaining then <[i := mk_region (start r + need) remaining]> l else remove l i)
      else alloc_scan l todo' (S i) need
  end.

Definition alloc (s : VAlloc) (sz : Z) : outcome (option Z * VAlloc) :=
  if sz =? 0 then Ret (None, s)
  else
    sz ← align_up sz;
    if sz + 4096 <=? U64_MAX then
      match alloc_scan (regions s) (regions s) 0 (sz + 4096) with
      | Some (result, l) => Ret (Some result, set_regions s l)
      | None => Ret (None, s)
      end
    else Ret (None, s).

(** The first index whose region starts at or above [addr], or the count. *)
Fixpoint find_pos (l : list FreeRegion) (addr : Z) : nat :=
  match l with
  | [] => O
  | r :: l' => if addr <=? start r then O else S (find_pos l' addr)
  end.

(** [pos > 0] and the previous region; [pos < count] and the next one. *)
Definition prev_region (l : list FreeRegion) (pos : nat) : option FreeRegion :=
  match pos with O => None | S p => l !! p end.

Definition free (s : VAlloc) (addr sz : Z) : outcome VAlloc :=
  sz ← align_up sz;
  region_size ← add64 sz 4096;
  stop ← add64 addr region_size;
  let l := regions s in
  let pos := find_pos l addr in
  let prev := prev_region l pos in
  let next := l !! pos in
  let overlaps_prev := match prev with Some p => addr <? start p + size p | None => false end in
  let overlaps_next := match next with Some n => start n <? stop | None => false end in
  if overlaps_prev || overlaps_next then
    Ret (mk_valloc l (leaked_regions s) (leaked_bytes s) (rejected_frees s + 1))
  else
    let merge_prev := match prev with Some p => start p + size p =? addr | None => false end in
    let merge_next := match next with Some n => start n =? stop | None => false end in
    match prev, next, merge_prev, merge_next with
    | Some p, Some n, true, true =>
        Ret (set_regions s
          (remove (<[(pos - 1)%nat := mk_region (start p) (start n + size n - start p)]> l) pos))
    | Some p, _, true, false =>
        Ret (set_regions s (<[(pos - 1)%nat := mk_region (start p) (size p + region_size)]> l))
    | _, Some n, false, true =>
        Ret (set_regions s (<[pos := mk_region addr (size n + region_size)]> l))
    | _, _, _, _ =>
        if (length l =? MAX_REGIONS)%nat then
          Ret (mk_valloc l (leaked_regions s + 1) (leaked_bytes s + region_size) (rejected_frees s))
        else Ret (set_regions s (insert l pos (mk_region addr region_size)))
    end.
End Ops.

(** ** The invariant *)

Definition PAGE : Z := 4096.

(** Sorted, non-adjacent, page-granular regions below the end of the range. *)
Fixpoint chain (lo : Z) (l : list FreeRegion) : Prop :=
  match l with
  | [] => True
  | r :: l' => lo <= start r ∧ 0 < size r ∧ start r mod PAGE = 0 ∧ size r mod PAGE = 0 ∧
               start r + size r <= VMALLOC_END ∧ chain (start r + size r + 1) l'
  end.

Definition wf (s : VAlloc) : Prop := chain 0 (regions s) ∧ (length (regions s) <= MAX_REGIONS)%nat.

Definition covers (r : FreeRegion) (x : Z) : bool := (start r <=? x) && (x <? start r + size r).
Definition in_free (l : list FreeRegion) (x : Z) : bool := existsb (λ r, covers r x) l.
Definition between (a b x : Z) : bool := (a <=? x) && (x <? b).

Fixpoint chain_end (lo : Z) (l : list FreeRegion) : Z :=
  match l with [] => lo | r :: l' => chain_end (start r + size r + 1) l' end.

Lemma rchain_weaken lo lo' l : lo' <= lo → chain lo l → chain lo' l.
Proof. destruct l as [|r l]; simpl; [done|]. intros ? (? & ?). split; [lia|done]. Qed.

Lemma rchain_app lo l1 l2 : chain lo (l1 ++ l2) ↔ chain lo l1 ∧ chain (chain_end lo l1) l2.
Proof. revert lo; induction l1 as [|r l1 IH]; intros lo; cbn [app chain chain_end]; [tauto|]. rewrite IH. tauto. Qed.

Lemma chain_end_snoc lo l r : chain_end lo (l ++ [r]) = start r + size r + 1.
Proof. revert lo; induction l as [|x l IH]; intros lo; [done|]. apply IH. Qed.

Lemma in_free_app l1 l2 x : in_free (l1 ++ l2) x = in_free l1 x || in_free l2 x.
Proof. apply existsb_app. Qed.

Lemma in_free_cons r l x : in_free (r :: l) x = covers r x || in_free l x.
Proof. done. Qed.

Lemma rchain_bounds lo l : chain lo l →
  lo <= chain_end lo l ∧ Forall (λ r, lo <= start r ∧ start r + size r < chain_end lo l ∧ 0 < size r) l.
Proof.
  revert lo; induction l as [|r l IH]; intros lo; cbn [chain chain_end]; [split; [lia|constructor]|].
  intros (Hlo & Hs & _ & _ & _ & Hc). destruct (IH _ Hc) as [He Hf]. split; [lia|]. constructor; [lia|].
  eapply Forall_impl; [exact Hf|]. simpl. lia.
Qed.

Lemma in_free_range lo l x : chain lo l → in_free l x = true → lo <= x < chain_end lo l - 1.
Proof.
  intros Hc. destruct (rchain_bounds lo l Hc) as [_ Hb]. unfold in_free. rewrite existsb_exists.
  intros (r & Hin & Hr). rewrite Forall_forall in Hb. apply list_elem_of_In in Hin.
  specialize (Hb r Hin). unfold covers in Hr. lia.
Qed.

(** ** Allocation *)

Lemma alloc_scan_spec need todo : ∀ pre,
  match alloc_scan (pre ++ todo) todo (length pre) need with
  | Some (a, l') => ∃ mid r post, todo = mid ++ r :: post ∧ a = start r ∧ need <= size r ∧
      l' = pre ++ mid ++ (if 0 <? size r - need then [mk_region (start r + need) (size r - need)] else []) ++ post
  | None => Forall (λ r, size r < need) todo
  end.
Proof.
  induction todo as [|r todo IH]; intros pre; cbn [alloc_scan]; [constructor|].
  destruct (Z.leb_spec need (size r)) as [Hfit|Hno].
  - exists [], r, todo. split_and!; try done. destruct (0 <? size r - need).
    + by rewrite insert_list_middle.
    + unfold remove. rewrite take_app_length. change (S (length pre)) with (1 + length pre)%nat.
      rewrite Nat.add_comm, drop_app_add. done.
  - specialize (IH (pre ++ [r])). rewrite length_app, Nat.add_1_r, <- app_assoc in IH. cbn [app] in IH.
    destruct (alloc_scan _ _ _ _) as [[a l']|]; [|by constructor].
    destruct IH as (mid & r' & post & -> & -> & ? & ->). exists (r :: mid), r', post.
    split_and!; try done. by rewrite <- !app_assoc.
Qed.

(** A window of free addresses lies inside one region. *)
Lemma window_in_region lo l a n : chain lo l → 0 < n →
  (∀ x, a <= x < a + n → in_free l x = true) → ∃ r, r ∈ l ∧ start r <= a ∧ a + n <= start r + size r.
Proof.
  intros Hc Hn Hw. revert lo Hc; induction l as [|r l IH]; intros lo Hc.
  { specialize (Hw a ltac:(lia)). done. }
  destruct Hc as (Hlo & Hs & _ & _ & _ & Hc).
  assert (Hrest : ∀ x, in_free l x = true → start r + size r < x).
  { intros x Hx. pose proof (in_free_range _ _ _ Hc Hx). lia. }
  destruct (Z.lt_ge_cases a (start r + size r + 1)) as [Ha|Ha].
  - exists r. assert (Hca : covers r a = true).
    { pose proof (Hw a ltac:(lia)) as H. rewrite in_free_cons in H. apply orb_prop in H as [H|H]; [done|].
      apply Hrest in H. lia. }
    unfold covers in Hca. split_and!; [left|lia|].
    destruct (Z.le_gt_cases (a + n) (start r + size r)); [done|].
    pose proof (Hw (start r + size r) ltac:(lia)) as H'. rewrite in_free_cons in H'. apply orb_prop in H' as [H'|H'].
    + unfold covers in H'. lia.
    + apply Hrest in H'. lia.
  - destruct (IH ltac:(intros x Hx; specialize (Hw x Hx); rewrite in_free_cons in Hw;
      apply orb_prop in Hw as [Hw|Hw]; [unfold covers in Hw; lia|done]) _ Hc) as (r' & Hr' & ?).
    exists r'. split; [by right|done].
Qed.

Lemma mod_sub0 a b : a mod PAGE = 0 → b mod PAGE = 0 → (a - b) mod PAGE = 0.
Proof. intros Ha Hb. rewrite Zminus_mod, Ha, Hb. done. Qed.
Lemma mod_add0 a b : a mod PAGE = 0 → b mod PAGE = 0 → (a + b) mod PAGE = 0.
Proof. intros Ha Hb. rewrite Zplus_mod, Ha, Hb. done. Qed.

(** Taking the first [need] bytes of a region. *)
Lemma take_front mid r post need : chain 0 (mid ++ r :: post) → 0 < need <= size r → need mod PAGE = 0 →
  let l' := mid ++ (if 0 <? size r - need then [mk_region (start r + need) (size r - need)] else []) ++ post in
  chain 0 l' ∧ (length l' <= length (mid ++ r :: post))%nat ∧
  (∀ x, between (start r) (start r + need) x = true → in_free (mid ++ r :: post) x = true) ∧
  ∀ x, in_free l' x = in_free (mid ++ r :: post) x && negb (between (start r) (start r + need) x).
Proof.
  intros Hc Hneed Hal l'. apply rchain_app in Hc as [Hm (Hlo & Hs & Ha & Hsa & Hend & Hp)].
  pose proof (rchain_bounds _ _ Hm) as [Hme _].
  assert (Hmid : ∀ x, in_free mid x = true → x < start r).
  { intros x Hx. pose proof (in_free_range _ _ _ Hm Hx). lia. }
  assert (Hpost : ∀ x, in_free post x = true → start r + size r < x).
  { intros x Hx. pose proof (in_free_range _ _ _ Hp Hx). lia. }
  unfold l'. split_and!.
  - apply rchain_app. split; [done|]. destruct (Z.ltb_spec 0 (size r - need)); cbn [app chain start size].
    + replace (start r + need + (size r - need) + 1) with (start r + size r + 1) by lia.
      split_and!; try done; try lia; [by apply mod_add0|by apply mod_sub0].
    + eapply rchain_weaken; [|exact Hp]. lia.
  - rewrite !length_app. destruct (0 <? size r - need); simpl; lia.
  - intros x Hx. rewrite in_free_app, in_free_cons. unfold between, covers in *.
    rewrite (proj2 (andb_true_iff _ _)) by lia. by rewrite orb_true_r.
  - intros x. rewrite !in_free_app, in_free_cons. specialize (Hmid x). specialize (Hpost x).
    assert (Ei : in_free (if 0 <? size r - need then [mk_region (start r + need) (size r - need)] else []) x
              = covers r x && negb (between (start r) (start r + need) x)).
    { destruct (Z.ltb_spec 0 (size r - need)); unfold in_free; cbn [existsb]; unfold covers, between; cbn [start size]; lia. }
    rewrite Ei. unfold covers, between in *. destruct (in_free mid x), (in_free post x); lia.
Qed.

Section AllocSpec.
Context (align_up : Z → outcome Z).
(** The documented behaviour of [align_up(_, 4096)] where it does not overflow. *)
Hypothesis align_up_spec : ∀ x, 0 <= x <= U64_MAX - 4095 → align_up x = Ret ((x + 4095) / 4096 * 4096).

Definition need_of (sz : Z) : Z := (sz + 4095) / 4096 * 4096 + 4096.

Lemma need_bounds sz : 0 < sz → sz + 4096 <= need_of sz < sz + 8192 ∧ need_of sz mod PAGE = 0.
Proof.
  intros Hs. unfold need_of, PAGE. pose proof (Z.div_mod (sz + 4095) 4096). pose proof (Z.mod_pos_bound (sz + 4095) 4096).
  split; [lia|]. replace ((sz + 4095) / 4096 * 4096 + 4096) with (((sz + 4095) / 4096 + 1) * 4096) by lia.
  apply Z.mod_mul. lia.
Qed.

Lemma alloc_spec s sz : wf s → 0 < sz <= U64_MAX - 8192 →
  match alloc align_up s sz with
  | Panic => False
  | Ret (Some a, s') => wf s' ∧ a mod PAGE = 0 ∧
      (∀ x, between a (a + need_of sz) x = true → in_free (regions s) x = true) ∧
      ∀ x, in_free (regions s') x = in_free (regions s) x && negb (between a (a + need_of sz) x)
  | Ret (None, s') => s' = s ∧ ∀ a, ¬ ∀ x, a <= x < a + need_of sz → in_free (regions s) x = true
  end.
Proof.
  intros [Hc Hmax] Hsz. destruct (need_bounds sz ltac:(lia)) as [Hnb Hna]. unfold alloc.
  rewrite (proj2 (Z.eqb_neq sz 0)) by lia. rewrite align_up_spec by lia. cbn [mbind outcome_bind].
  change ((sz + 4095) / 4096 * 4096 + 4096) with (need_of sz).
  rewrite (proj2 (Z.leb_le (need_of sz) U64_MAX)) by lia.
  pose proof (alloc_scan_spec (need_of sz) (regions s) []) as Hscan. cbn [app length] in Hscan.
  destruct (alloc_scan _ _ _ _) as [[a l']|].
  - destruct Hscan as (mid & r & post & E & -> & Hfit & ->). rewrite E in *.
    destruct (take_front mid r post (need_of sz) Hc ltac:(lia) Hna) as (Hc' & Hlen & Hfree & Hin).
    split_and!; [split; [done|cbn [set_regions regions]; lia]| |done|done].
    by apply rchain_app in Hc as [_ (_ & _ & Ha & _)].
  - split; [done|]. intros a Hw. destruct (window_in_region 0 _ a (need_of sz) Hc ltac:(lia) Hw) as (r & Hr & H1 & H2).
    rewrite Forall_forall in Hscan. specialize (Hscan r Hr). lia.
Qed.
End AllocSpec.

(** ** Freeing *)

Lemma find_pos_cut l addr : ∀ lo, chain lo l →
  ∃ pre post, l = pre ++ post ∧ find_pos l addr = length pre ∧
    Forall (λ r, start r < addr) pre ∧ match post with [] => True | n :: _ => addr <= start n end.
Proof.
  induction l as [|r l IH]; intros lo Hc; [by exists [], []|]. cbn [find_pos].
  destruct (Z.leb_spec addr (start r)).
  - exists [], (r :: l). split_and!; done.
  - destruct Hc as (_ & _ & _ & _ & _ & Hc). destruct (IH _ Hc) as (pre & post & -> & -> & Hf & Hp).
    exists (r :: pre), post. split_and!; try done. by constructor.
Qed.

(** The three shapes a free can leave, given the regions around it. *)
Definition glue (p : option FreeRegion) (addr rs : Z) (n : option FreeRegion) : list FreeRegion :=
  match p, n with
  | Some p, Some n =>
      if start p + size p =? addr then
        if start n =? addr + rs then [mk_region (start p) (start n + size n - start p)]
        else [mk_region (start p) (size p + rs); n]
      else if start n =? addr + rs then [p; mk_region addr (size n + rs)]
      else [p; mk_region addr rs; n]
  | Some p, None => if start p + size p =? addr then [mk_region (start p) (size p + rs)] else [p; mk_region addr rs]
  | None, Some n => if start n =? addr + rs then [mk_region addr (size n + rs)] else [mk_region addr rs; n]
  | None, None => [mk_region addr rs]
  end.

Definition olist (o : option FreeRegion) : list FreeRegion := match o with Some r => [r] | None => [] end.

(** Gluing keeps the chain and adds exactly the freed range. *)
Lemma glue_spec p n pre post addr rs :
  chain 0 (pre ++ olist p ++ olist n ++ post) → 0 <= addr → 0 < rs → addr mod PAGE = 0 → rs mod PAGE = 0 →
  addr + rs <= VMALLOC_END →
  (∀ r, p = Some r → start r + size r <= addr) → (∀ r, n = Some r → addr + rs <= start r) →
  (p = None → pre = []) → (n = None → post = []) →
  chain 0 (pre ++ glue p addr rs n ++ post) ∧
  ∀ x, in_free (pre ++ glue p addr rs n ++ post) x =
       in_free (pre ++ olist p ++ olist n ++ post) x || between addr (addr + rs) x.
Proof.
  intros Hc Ha Hrs Hal Hra Hend Hp Hn Hpre Hpost.
  rewrite !rchain_app in Hc. destruct Hc as (Hc0 & Hcp & Hcn & Hct).
  pose proof (mod_add0 addr rs Hal Hra) as Hsum.
  destruct p as [p|]; [specialize (Hp p eq_refl)|rewrite (Hpre eq_refl) in *];
  (destruct n as [n|]; [specialize (Hn n eq_refl)|rewrite (Hpost eq_refl) in *]);
  cbn [olist chain chain_end app] in Hcp, Hcn, Hct; unfold glue;
  repeat match goal with |- context [?a =? ?b] => destruct (Z.eqb_spec a b) end;
  (split; [rewrite rchain_app; split; [done|]; cbn [app chain chain_end start size];
     repeat match goal with H : _ ∧ _ |- _ => destruct H end;
     split_and!; try done; try lia; try (by apply mod_add0);
     try (apply mod_sub0; [by apply mod_add0|done]); try (by eapply rchain_weaken; [|eassumption]; lia)
   |intros x; rewrite !in_free_app; cbn [olist app]; rewrite ?in_free_cons; unfold covers, between; cbn [start size];
    destruct (in_free pre x), (in_free post x); unfold in_free; cbn [existsb]; lia]).
Qed.

Section FreeSpec.
Context (align_up : Z → outcome Z).
Hypothesis align_up_spec : ∀ x, 0 <= x <= U64_MAX - 4095 → align_up x = Ret ((x + 4095) / 4096 * 4096).

(** The regions on either side of the freed address. *)
Lemma neighbours l addr : chain 0 l →
  ∃ pre p n post, l = pre ++ olist p ++ olist n ++ post ∧ find_pos l addr = length (pre ++ olist p) ∧
    (∀ r, p = Some r → start r < addr) ∧ (∀ r, n = Some r → addr <= start r) ∧
    (p = None → pre = []) ∧ (n = None → post = []).
Proof.
  intros Hc. destruct (find_pos_cut l addr 0 Hc) as (pre & post & -> & -> & Hf & Hp).
  destruct pre as [|p pre _] using rev_ind; destruct post as [|n post].
  - exists [], None, None, []. by split_and!.
  - exists [], None, (Some n), post. split_and!; try done. by intros r [= <-].
  - exists pre, (Some p), None, []. apply Forall_app in Hf as [_ Hf]. apply Forall_cons in Hf as [Hf _].
    rewrite app_nil_r. split_and!; try done. by intros r [= <-].
  - exists pre, (Some p), (Some n), post. apply Forall_app in Hf as [_ Hf]. apply Forall_cons in Hf as [Hf _].
    rewrite <- app_assoc. split_and!; try done; by intros r [= <-].
Qed.

Lemma prev_of pre p rest : (p = None → pre = []) →
  prev_region (pre ++ olist p ++ rest) (length (pre ++ olist p)) = p.
Proof.
  intros Hn. destruct p as [p|]; cbn [olist].
  - rewrite length_app. cbn [length]. rewrite Nat.add_1_r. cbn [prev_region]. by apply list_lookup_middle.
  - by rewrite (Hn eq_refl).
Qed.

Lemma next_of (l : list FreeRegion) n post : (n = None → post = []) → (l ++ olist n ++ post) !! length l = n.
Proof.
  intros Hn. destruct n as [n|]; cbn [olist app]; [by apply list_lookup_middle|].
  rewrite (Hn eq_refl), app_nil_r. by apply lookup_ge_None.
Qed.

Lemma remove_next pre r n post : remove (pre ++ r :: n :: post) (length pre + 1) = pre ++ r :: post.
Proof.
  unfold remove. change (pre ++ r :: n :: post) with (pre ++ [r] ++ n :: post). rewrite app_assoc.
  replace (length pre + 1)%nat with (length (pre ++ [r])) by (rewrite length_app; done).
  rewrite take_app_length. replace (S (length (pre ++ [r]))) with (length (pre ++ [r]) + 1)%nat by lia.
  rewrite drop_app_add. by rewrite <- app_assoc.
Qed.

Lemma insert_after pre p rest r : insert (pre ++ p :: rest) (length (pre ++ [p])) r = pre ++ p :: r :: rest.
Proof.
  unfold insert. change (pre ++ p :: rest) with (pre ++ [p] ++ rest). rewrite app_assoc.
  rewrite take_app_length, drop_app_length. by rewrite <- app_assoc.
Qed.

Lemma list_insert_after (pre : list FreeRegion) p n post r :
  <[length (pre ++ [p]) := r]> (pre ++ p :: n :: post) = pre ++ p :: r :: post.
Proof.
  change (pre ++ p :: n :: post) with (pre ++ [p] ++ n :: post). rewrite app_assoc.
  by rewrite insert_list_middle, <- app_assoc.
Qed.

(** The array update of a free that touches no free byte is the glued list,
    unless a new slot is needed and none is left. *)
Lemma free_run s addr sz pre p n post :
  regions s = pre ++ olist p ++ olist n ++ post → find_pos (regions s) addr = length (pre ++ olist p) →
  (p = None → pre = []) → (n = None → post = []) →
  (∀ r, p = Some r → start r + size r <= addr) → (∀ r, n = Some r → addr + need_of sz <= start r) →
  0 < sz → 0 <= addr → addr + need_of sz <= U64_MAX →
  free align_up s addr sz =
    Ret (if (length (regions s) =? MAX_REGIONS)%nat && (length (glue p addr (need_of sz) n) =? S (length (olist p ++ olist n)))%nat
         then mk_valloc (regions s) (leaked_regions s + 1) (leaked_bytes s + need_of sz) (rejected_frees s)
         else set_regions s (pre ++ glue p addr (need_of sz) n ++ post)).
Proof.
  intros E Epos Hpre Hpost Hp Hn Hsz Ha Hmax. destruct (need_bounds sz Hsz) as [Hnb _]. unfold free.
  rewrite align_up_spec by lia. cbn [mbind outcome_bind]. unfold add64.
  change ((sz + 4095) / 4096 * 4096 + 4096) with (need_of sz).
  rewrite (proj2 (Z.leb_le (need_of sz) U64_MAX)) by lia. cbn [mbind outcome_bind].
  rewrite (proj2 (Z.leb_le (addr + need_of sz) U64_MAX)) by lia. cbn [mbind outcome_bind].
  cbv zeta. generalize (length (regions s) =? MAX_REGIONS)%nat. intros full.
  rewrite Epos, E, prev_of by done. rewrite (app_assoc pre), next_of by done.
  assert (Hop : match p with Some p => addr <? start p + size p | None => false end = false)
    by (destruct p as [p|]; [specialize (Hp p eq_refl)|]; lia).
  assert (Hon : match n with Some n => start n <? addr + need_of sz | None => false end = false)
    by (destruct n as [n|]; [specialize (Hn n eq_refl)|]; lia).
  rewrite Hop, Hon. cbn [orb]. clear Hop Hon.
  destruct p as [p|]; [|rewrite (Hpre eq_refl) in *]; (destruct n as [n|]; [|rewrite (Hpost eq_refl) in *]); unfold glue;
  repeat match goal with |- context [?a =? ?b] => destruct (Z.eqb_spec a b) end; cbn [olist app];
  rewrite ?app_nil_r, <- ?app_assoc; cbn [app length Nat.eqb]; rewrite ?andb_false_r, ?andb_true_r;
  try (rewrite length_app; cbn [length]; rewrite Nat.add_sub);
  try (destruct full; [done|]);
  rewrite ?insert_list_middle, ?remove_next, ?insert_after, ?list_insert_after; done.
Qed.

(** A free that touches a free byte is refused. *)
Lemma free_reject s addr sz pre p n post r :
  regions s = pre ++ olist p ++ olist n ++ post → find_pos (regions s) addr = length (pre ++ olist p) →
  (p = None → pre = []) → (n = None → post = []) →
  (p = Some r ∧ addr < start r + size r ∨ n = Some r ∧ start r < addr + need_of sz) →
  0 < sz → 0 <= addr → addr + need_of sz <= U64_MAX →
  free align_up s addr sz =
    Ret (mk_valloc (regions s) (leaked_regions s) (leaked_bytes s) (rejected_frees s + 1)).
Proof.
  intros E Epos Hpre Hpost Hov Hsz Ha Hmax. destruct (need_bounds sz Hsz) as [Hnb _]. unfold free.
  rewrite align_up_spec by lia. cbn [mbind outcome_bind]. unfold add64.
  change ((sz + 4095) / 4096 * 4096 + 4096) with (need_of sz).
  rewrite (proj2 (Z.leb_le (need_of sz) U64_MAX)) by lia. cbn [mbind outcome_bind].
  rewrite (proj2 (Z.leb_le (addr + need_of sz) U64_MAX)) by lia. cbn [mbind outcome_bind].
  cbv zeta. rewrite Epos, E, prev_of by done. rewrite (app_assoc pre), next_of by done.
  destruct Hov as [[-> Hr]|[-> Hr]].
  - by rewrite (proj2 (Z.ltb_lt _ _)).
  - rewrite (proj2 (Z.ltb_lt (start r) _)) by done. by rewrite orb_true_r.
Qed.

Lemma overlap_cases p n addr stop :
  (∃ r, p = Some r ∧ addr < start r + size r ∨ n = Some r ∧ start r < stop) ∨
  ((∀ r, p = Some r → start r + size r <= addr) ∧ (∀ r, n = Some r → stop <= start r)).
Proof.
  destruct p as [p|]; [destruct (Z.le_gt_cases (start p + size p) addr); [|eauto]|];
    (destruct n as [n|]; [destruct (Z.le_gt_cases stop (start n)); [|eauto]|]);
    right; split; intros r Hr; by simplify_eq.
Qed.

Lemma glue_length p addr rs n : (length (glue p addr rs n) <= S (length (olist p ++ olist n)))%nat.
Proof.
  unfold glue. destruct p, n; cbn [olist app length];
    repeat match goal with |- context [?a =? ?b] => destruct (Z.eqb_spec a b) end; simpl; lia.
Qed.

(** What a free promises: the range joins the free set, unless it overlaps free
    space (the free is refused) or needs a slot when none is left (the range is
    leaked); in those cases the free set is unchanged and the event counted. *)
Lemma free_spec s addr sz :
  wf s → 0 < sz → 0 <= addr → addr mod PAGE = 0 → addr + need_of sz <= VMALLOC_END →
  ∃ s', free align_up s addr sz = Ret s' ∧ wf s' ∧
    ((regions s' = regions s ∧ rejected_frees s' = rejected_frees s + 1 ∧
        ∃ x, between addr (addr + need_of sz) x = true ∧ in_free (regions s) x = true) ∨
     (regions s' = regions s ∧ leaked_regions s' = leaked_regions s + 1 ∧ length (regions s) = MAX_REGIONS) ∨
     (rejected_frees s' = rejected_frees s ∧ leaked_regions s' = leaked_regions s ∧
        (∀ x, between addr (addr + need_of sz) x = true → in_free (regions s) x = false) ∧
        ∀ x, in_free (regions s') x = in_free (regions s) x || between addr (addr + need_of sz) x)).
Proof.
  intros [Hc Hmax] Hsz Ha Hal Hend. destruct (need_bounds sz Hsz) as [Hnb Hna].
  assert (Hend' : addr + need_of sz <= U64_MAX) by (unfold VMALLOC_END, U64_MAX in *; lia).
  destruct (neighbours (regions s) addr Hc) as (pre & p & n & post & E & Epos & Hp & Hn & Hpre & Hpost).
  destruct (overlap_cases p n addr (addr + need_of sz)) as [(r & Hov)|[Hp' Hn']].
  - eexists. split; [by eapply free_reject|]. split; [done|]. left. split_and!; try done.
    destruct Hov as [[-> Hr]|[-> Hr]].
    + specialize (Hp r eq_refl). exists addr. unfold between. split; [lia|].
      rewrite E, !in_free_app. cbn [olist]. rewrite in_free_cons. unfold covers. lia.
    + specialize (Hn r eq_refl). exists (start r). unfold between. split; [lia|].
      rewrite E, !in_free_app. cbn [olist]. rewrite in_free_cons.
      assert (0 < size r).
      { rewrite E in Hc. rewrite !rchain_app in Hc. destruct Hc as (_ & _ & (_ & ? & _) & _). done. }
      unfold covers. lia.
  - rewrite (free_run s addr sz pre p n post) by done. eexists. split; [done|].
    pose proof Hc as Hc'. rewrite E in Hc'.
    destruct (glue_spec p n pre post addr (need_of sz) Hc') as [Hg Hin]; try done; try lia.
    destruct (_ && _) eqn:Efull.
    + to_lia. split; [done|]. right. left. done.
    + split.
      * split; [done|]. cbn [set_regions regions]. pose proof (glue_length p addr (need_of sz) n) as Hgl.
        rewrite E in Hmax. rewrite !length_app in *. cbn [olist] in *.
        to_lia. rewrite E, !length_app in Efull. destruct Efull as [Ef|Ef]; to_lia; lia.
      * right. right. split_and!; try done.
        -- intros x Hx. destruct (in_free (regions s) x) eqn:Ex; [|done].
           rewrite E, !in_free_app in Ex. unfold between in Hx. rewrite !rchain_app in Hc'.
           destruct Hc' as (H1 & H2 & H3 & H4). repeat (apply orb_prop in Ex as [Ex|Ex]).
           ++ pose proof (in_free_range _ _ _ H1 Ex). destruct p as [p|]; [|by rewrite (Hpre eq_refl) in Ex].
              specialize (Hp' p eq_refl). destruct H2 as (? & ? & _). lia.
           ++ destruct p as [p|]; [|done]. specialize (Hp' p eq_refl). cbn [olist] in Ex.
              rewrite in_free_cons in Ex. unfold covers, in_free in Ex. cbn in Ex. lia.
           ++ destruct n as [n|]; [|done]. specialize (Hn' n eq_refl). cbn [olist] in Ex.
              rewrite in_free_cons in Ex. unfold covers, in_free in Ex. cbn in Ex. lia.
           ++ pose proof (in_free_range _ _ _ H4 Ex). destruct n as [n|]; [|by rewrite (Hpost eq_refl) in Ex].
              specialize (Hn' n eq_refl). cbn [olist chain_end] in *. destruct H3 as (_ & ? & _). lia.
        -- intros x. rewrite E. apply Hin.
Qed.

(** C23 The kernel address allocator refines a set of free addresses. An
    allocation returns a page-aligned range, guard page included, that was
    entirely free and removes exactly it; it fails only when no free window of
    that size exists. A free adds exactly the range, guard page included; a
    range that overlaps free space is refused, and one that needs a slot when
    the array is full is leaked and counted, leaving the free set as it was.
    Neither panics, and the array stays sorted, coalesced and in bounds. *)
Theorem valloc_refines_set s :
  wf s →
  (∀ sz, 0 < sz <= U64_MAX - 8192 →
     match alloc align_up s sz with
     | Panic => False
     | Ret (Some a, s') => wf s' ∧ a mod PAGE = 0 ∧
         (∀ x, between a (a + need_of sz) x = true → in_free (regions s) x = true) ∧
         ∀ x, in_free (regions s') x = in_free (regions s) x && negb (between a (a + need_of sz) x)
     | Ret (None, s') => s' = s ∧ ∀ a, ¬ ∀ x, a <= x < a + need_of sz → in_free (regions s) x = true
     end) ∧
  (∀ addr sz, 0 < sz → 0 <= addr → addr mod PAGE = 0 → addr + need_of sz <= VMALLOC_END →
     ∃ s', free align_up s addr sz = Ret s' ∧ wf s' ∧
       ((regions s' = regions s ∧ rejected_frees s' = rejected_frees s + 1 ∧
           ∃ x, between addr (addr + need_of sz) x = true ∧ in_free (regions s) x = true) ∨
        (regions s' = regions s ∧ leaked_regions s' = leaked_regions s + 1 ∧ length (regions s) = MAX_REGIONS) ∨
        (rejected_frees s' = rejected_frees s ∧ leaked_regions s' = leaked_regions s ∧
           (∀ x, between addr (addr + need_of sz) x = true → in_free (regions s) x = false) ∧
           ∀ x, in_free (regions s') x = in_free (regions s) x || between addr (addr + need_of sz) x))).
Proof.
  intros Hwf. split; [intros sz Hsz; by apply alloc_spec|intros addr sz Hsz Ha Hal He; by apply free_spec].
Qed.
End FreeSpec.

Definition align_up_page (x : Z) : outcome Z := Ret ((x + 4095) / 4096 * 4096).
Definition demo_valloc : VAlloc := new 0xFFFFC00000000000.

Lemma demo_valloc_wf : wf demo_valloc.
Proof. split; [|cbn; unfold MAX_REGIONS; lia]. repeat split; try lia; vm_compute; congruence. Qed.

Lemma valloc_refines_set_witness :
  (∀ sz, 0 < sz <= U64_MAX - 8192 →
     match alloc align_up_page demo_valloc sz with
     | Panic => False
     | Ret (Some a, s') => wf s' ∧ a mod PAGE = 0 ∧
         (∀ x, between a (a + need_of sz) x = true → in_free (regions demo_valloc) x = true) ∧
         ∀ x, in_free (regions s') x = in_free (regions demo_valloc) x && negb (between a (a + need_of sz) x)
     | Ret (None, s') => s' = demo_valloc ∧
         ∀ a, ¬ ∀ x, a <= x < a + need_of sz → in_free (regions demo_valloc) x = true
     end) ∧
  free align_up_page demo_valloc 0xFFFFC00000000000 8192 =
    Ret (mk_valloc (regions demo_valloc) 0 0 1).
Proof.
  split; [|reflexivity].
  exact (proj1 (valloc_refines_set align_up_page (λ x _, eq_refl) demo_valloc demo_valloc_wf)).
Defined.

End Valloc.
