(* ===== verification/Heap.v ===== *)
(** * The kernel heap (kernel/src/allocator.rs)

    Small blocks are served from per-CPU stacks of free blocks, one per size
    class, in front of one buddy heap that grows by mapping fresh address
    space. The buddy heap is the [buddy_system_allocator] crate's, an interface
    here; [align_up] is the [x86_64] crate's. Address space comes from [Valloc].

    Contexts (threads and interrupt handlers) run [alloc] and [dealloc] on any
    CPU in any interleaving: a section that holds the heap lock, or that runs
    with interrupts off on its own CPU's cache, is one step, and [global_alloc]
    is cut into one step per such section. *)

From S2P Require Import Prelude Valloc.

Module Heap.

(** ** Layouts and size classes *)

Record Layout := mk_layout { lsize : Z; lalign : Z }.

#[export] Instance Layout_eq : EqDecision Layout.
Proof. solve_decision. Defined.

Definition SIZE_CLASSES : list Z := [32; 64; 128; 256; 512; 1024; 2048; 4096].
Definition CACHE_SLOTS : nat := 16.
Definition CACHE_BYTES : Z := 16 * 1024.
Definition BATCH : nat := 8.
Definition MIN_EXPANSION : Z := Z.shiftl 1 20.

(** [SIZE_CLASSES[class]], which panics outside the table. *)
Definition class_size (class : nat) : outcome Z :=
  match SIZE_CLASSES !! class with Some sc => Ret sc | None => Panic end.

Definition cache_limit (class : nat) : outcome nat :=
  sc ← class_size class;
  let by_bytes := Z.to_nat (CACHE_BYTES / sc) in
  Ret (if (by_bytes <? CACHE_SLOTS)%nat then by_bytes else CACHE_SLOTS).

Definition batch_for (class : nat) : outcome nat :=
  limit ← cache_limit class;
  Ret (if (limit <? BATCH)%nat then limit else BATCH).

(** The scan of the table for the first class that fits. *)
Fixpoint class_scan (classes : list Z) (i : nat) (size align : Z) : option nat :=
  match classes with
  | [] => None
  | sc :: classes => if (size <=? sc) && (align <=? sc) then Some i else class_scan classes (S i) size align
  end.

Definition size_class_index (size align : Z) : option nat := class_scan SIZE_CLASSES 0 size align.

(** ** One size class of one CPU *)

Record SizeClassCache := mk_scc { stack : list Z; count : nat }.

Definition scc_new : SizeClassCache := mk_scc (replicate CACHE_SLOTS 0) 0.

Definition try_pop (c : SizeClassCache) : outcome (option Z * SizeClassCache) :=
  if (count c =? 0)%nat then Ret (None, c)
  else
    let n := (count c - 1)%nat in
    match stack c !! n with Some ptr => Ret (Some ptr, mk_scc (stack c) n) | None => Panic end.

Definition try_push (c : SizeClassCache) (ptr : Z) (limit : nat) : outcome (bool * SizeClassCache) :=
  if (limit <=? count c)%nat then Ret (false, c)
  else if (count c <? length (stack c))%nat then Ret (true, mk_scc (<[count c := ptr]> (stack c)) (S (count c)))
  else Panic.

(** The slots of the output array in turn, each filled with the top of the stack. *)
Fixpoint drain_slots (slots : nat) (c : SizeClassCache) : outcome (list Z * SizeClassCache) :=
  match slots with
  | O => Ret ([], c)
  | S slots =>
      if (count c =? 0)%nat then Panic
      else
        let n := (count c - 1)%nat in
        match stack c !! n with
        | Some ptr => '(out, c) ← drain_slots slots (mk_scc (stack c) n); Ret (ptr :: out, c)
        | None => Panic
        end
  end.

Definition drain_batch (c : SizeClassCache) (batch : nat) : outcome (list Z * nat * SizeClassCache) :=
  let n := Nat.min (count c) batch in
  '(out, c) ← drain_slots (Nat.min n BATCH) c;
  Ret (out ++ replicate (BATCH - length out) 0, n, c).

Record PerCpuCache := mk_percpu { caches : list SizeClassCache; ready : bool }.

Definition percpu_new : PerCpuCache := mk_percpu (replicate (length SIZE_CLASSES) scc_new) false.
Definition enable (c : PerCpuCache) : PerCpuCache := mk_percpu (caches c) true.

(** ** The buddy heap *)

(** Its operations: [Err] leaves the heap as it was observed. *)
Class BuddyHeap (H : Type) := {
  heap_empty : H;
  heap_init : H → Z → Z → H;
  heap_alloc : H → Layout → option Z * H;
  heap_dealloc : H → Z → Layout → H;
  add_to_heap : H → Z → Z → H
}.

Section Code.
Context {H : Type} `{BH : BuddyHeap H} (align_up : Z → Z → outcome Z).

(** [for _ in 0..batch_for(idx)]: each block taken pushes the one before it. *)
Fixpoint refill (n : nat) (heap : H) (c : SizeClassCache) (layout : Layout) (limit : nat) (last : option Z) :
  outcome (option Z * H * SizeClassCache) :=
  match n with
  | O => Ret (last, heap, c)
  | S n =>
      match heap_alloc heap layout with
      | (Some block, heap) =>
          c ← match last with Some prev => '(_, c) ← try_push c prev limit; Ret c | None => Ret c end;
          refill n heap c layout limit (Some block)
      | (None, heap) => Ret (last, heap, c)
      end
  end.

Definition scc_at (c : PerCpuCache) (idx : nat) : outcome SizeClassCache :=
  match caches c !! idx with Some s => Ret s | None => Panic end.
Definition set_scc (c : PerCpuCache) (idx : nat) (s : SizeClassCache) : PerCpuCache :=
  mk_percpu (<[idx := s]> (caches c)) (ready c).

Definition try_percpu_alloc (layout : Layout) (heap : H) (cache : PerCpuCache) : outcome (option Z * H * PerCpuCache) :=
  match size_class_index (lsize layout) (lalign layout) with
  | None => Ret (None, heap, cache)
  | Some idx =>
      sc ← class_size idx;
      if negb (ready cache) then Ret (None, heap, cache)
      else
        s ← scc_at cache idx;
        '(hit, s) ← try_pop s;
        match hit with
        | Some ptr => Ret (Some ptr, heap, set_scc cache idx s)
        | None =>
            limit ← cache_limit idx;
            batch ← batch_for idx;
            '(last, heap, s) ← refill batch heap s (mk_layout sc sc) limit None;
            Ret (last, heap, set_scc cache idx s)
        end
  end.

Definition return_blocks (heap : H) (ptrs : list Z) (layout : Layout) : H :=
  foldl (λ h ptr, heap_dealloc h ptr layout) heap ptrs.

Definition try_percpu_dealloc (ptr : Z) (layout : Layout) (heap : H) (cache : PerCpuCache) : outcome (bool * H * PerCpuCache) :=
  match size_class_index (lsize layout) (lalign layout) with
  | None => Ret (false, heap, cache)
  | Some idx =>
      sc ← class_size idx;
      if negb (ready cache) then Ret (false, heap, cache)
      else
        limit ← cache_limit idx;
        s ← scc_at cache idx;
        '(pushed, s) ← try_push s ptr limit;
        if pushed : bool then Ret (true, heap, set_scc cache idx s)
        else
          batch ← batch_for idx;
          '(drained, n, s) ← drain_batch s batch;
          '(_, s) ← try_push s ptr limit;
          Ret (true, return_blocks heap (take n drained) (mk_layout sc sc), set_scc cache idx s)
  end.

(** The layout [global_alloc] asks the heap for: the class's, or the request's. *)
Definition global_layout (layout : Layout) : Layout :=
  match size_class_index (lsize layout) (lalign layout) with
  | Some idx => match SIZE_CLASSES !! idx with Some sc => mk_layout sc sc | None => layout end
  | None => layout
  end.

Definition next_power_of_two (x : Z) : outcome Z :=
  if x <=? 1 then Ret 1 else if x <=? 2 ^ 63 then Ret (2 ^ Z.log2_up x) else Panic.

Definition pad_to_align (layout : Layout) : Z := (lsize layout + lalign layout - 1) / lalign layout * lalign layout.

(** How much one expansion adds for [layout]. *)
Definition chunk_for (layout : Layout) : outcome Z :=
  need ← align_up (pad_to_align layout) 4096;
  p ← next_power_of_two need;
  let chunk := Z.max p MIN_EXPANSION in
  let max_block := Z.shiftl 1 32 in
  Ret (if max_block <? chunk then max_block else chunk).

(** ** The machine *)

(** Where a context is inside [global_alloc]; it holds the request's layout. *)
Inductive tstate :=
| TIdle
| TGlobal (l : Layout)                       (* before the first locked attempt *)
| TContend (l : Layout)                      (* at the compare-exchange of EXPANDING *)
| TSpin (l : Layout)                         (* in [while EXPANDING.load(..)] *)
| TRetry (l : Layout)                        (* before the locked attempt after the spin *)
| TReserve (l : Layout)                      (* owns EXPANDING, before vmalloc *)
| TMap (l : Layout) (base chunk : Z)         (* before map_memory *)
| TGrow (l : Layout) (base chunk : Z)        (* before the locked add_to_heap *)
| TRelease.                                  (* before EXPANDING is cleared *)

(** The static allocator and the per-CPU data; [live] is the blocks callers
    hold with the layouts they asked for, [areas] the address ranges other
    kernel code holds from [vmalloc]. *)
Record Machine := mk_machine {
  inner : H;
  percpu : list PerCpuCache;
  gs_initialized : bool;
  expanding : bool;
  valloc : Valloc.VAlloc;
  threads : gmap nat tstate;
  live : list (Z * Layout);
  areas : list (Z * Z)
}.

Definition tstate_of (m : Machine) (t : nat) : tstate := default TIdle (threads m !! t).

Definition set_thread (t : nat) (s : tstate) (m : Machine) : Machine :=
  mk_machine (inner m) (percpu m) (gs_initialized m) (expanding m) (valloc m) (<[t := s]> (threads m)) (live m) (areas m).
Definition set_inner (h : H) (m : Machine) : Machine :=
  mk_machine h (percpu m) (gs_initialized m) (expanding m) (valloc m) (threads m) (live m) (areas m).
Definition set_percpu (cpu : nat) (c : PerCpuCache) (m : Machine) : Machine :=
  mk_machine (inner m) (<[cpu := c]> (percpu m)) (gs_initialized m) (expanding m) (valloc m) (threads m) (live m) (areas m).
Definition set_live (l : list (Z * Layout)) (m : Machine) : Machine :=
  mk_machine (inner m) (percpu m) (gs_initialized m) (expanding m) (valloc m) (threads m) l (areas m).
Definition set_expanding (b : bool) (m : Machine) : Machine :=
  mk_machine (inner m) (percpu m) (gs_initialized m) b (valloc m) (threads m) (live m) (areas m).
Definition set_valloc (v : Valloc.VAlloc) (m : Machine) : Machine :=
  mk_machine (inner m) (percpu m) (gs_initialized m) (expanding m) v (threads m) (live m) (areas m).
Definition set_areas (l : list (Z * Z)) (m : Machine) : Machine :=
  mk_machine (inner m) (percpu m) (gs_initialized m) (expanding m) (valloc m) (threads m) (live m) l.
Definition mark_gs_ready (m : Machine) : Machine :=
  mk_machine (inner m) (percpu m) true (expanding m) (valloc m) (threads m) (live m) (areas m).

(** [heap.alloc(layout)] under the lock: the caller has its block, or goes on at [next]. *)
Definition locked_attempt (t : nat) (l : Layout) (next : tstate) (m : Machine) : Machine :=
  match heap_alloc (inner m) (global_layout l) with
  | (Some p, h) => set_thread t TIdle (set_live ((p, l) :: live m) (set_inner h m))
  | (None, h) => set_thread t next (set_inner h m)
  end.

Definition vmalloc (size : Z) (m : Machine) : outcome (option Z * Machine) :=
  '(r, v) ← Valloc.alloc (λ x, align_up x 4096) (valloc m) size; Ret (r, set_valloc v m).

(** One step of [global_alloc]; [mapped] is whether [map_memory] succeeds. *)
Definition global_alloc (t : nat) (mapped : bool) (m : Machine) : outcome Machine :=
  match tstate_of m t with
  | TIdle => Ret m
  | TGlobal l => Ret (locked_attempt t l (TContend l) m)
  | TContend l =>
      Ret (if expanding m then set_thread t (TSpin l) m else set_thread t (TReserve l) (set_expanding true m))
  | TSpin l => Ret (if expanding m then m else set_thread t (TRetry l) m)
  | TRetry l => Ret (locked_attempt t l (TContend l) m)
  | TReserve l =>
      chunk ← chunk_for (global_layout l);
      '(raw, m) ← vmalloc (chunk * 2) m;
      match raw with
      | None => Panic
      | Some raw => base ← align_up raw chunk; Ret (set_thread t (TMap l base chunk) m)
      end
  | TMap l base chunk => if mapped then Ret (set_thread t (TGrow l base chunk) m) else Panic
  | TGrow l base chunk =>
      Ret (set_thread t TRelease
             match heap_alloc (add_to_heap (inner m) base (base + chunk)) (global_layout l) with
             | (Some p, h) => set_live ((p, l) :: live m) (set_inner h m)
             | (None, h) => set_inner h m
             end)
  | TRelease => Ret (set_thread t TIdle (set_expanding false m))
  end.

(** [Allocator::alloc] up to its return or its entry into [global_alloc]. *)
Definition alloc (t cpu : nat) (l : Layout) (m : Machine) : outcome Machine :=
  if gs_initialized m then
    match percpu m !! cpu with
    | None => Panic
    | Some c =>
        '(r, h, c) ← try_percpu_alloc l (inner m) c;
        let m := set_percpu cpu c (set_inner h m) in
        Ret match r with Some p => set_live ((p, l) :: live m) m | None => set_thread t (TGlobal l) m end
    end
  else Ret (set_thread t (TGlobal l) m).

(** [Allocator::dealloc]. *)
Definition dealloc (cpu : nat) (p : Z) (l : Layout) (m : Machine) : outcome Machine :=
  '(cached, h, pc) ←
     (if gs_initialized m then
        match percpu m !! cpu with
        | None => Panic
        | Some c => '(done, h, c) ← try_percpu_dealloc p l (inner m) c; Ret (done, h, <[cpu := c]> (percpu m))
        end
      else Ret (false, inner m, percpu m));
  let h := if cached : bool then h else heap_dealloc h p l in
  Ret (mk_machine h pc (gs_initialized m) (expanding m) (valloc m) (threads m) (live m) (areas m)).

Fixpoint remove_one {A} `{EqDecision A} (x : A) (l : list A) : list A :=
  match l with [] => [] | y :: l => if decide (x = y) then l else y :: remove_one x l end.

(** What can happen next. A caller frees only a block it holds, under its
    layout; other kernel code allocates address ranges and frees its own. *)
Inductive event :=
| EAlloc (t cpu : nat) (l : Layout)
| EFree (t cpu : nat) (p : Z) (l : Layout)
| ERun (t : nat) (mapped : bool)
| EEnable (cpu : nat)
| EMarkGs
| EVmalloc (size : Z)
| EVfree (addr size : Z).

Definition exec (m : Machine) (e : event) : outcome Machine :=
  match e with
  | EAlloc t cpu l => match tstate_of m t with TIdle => alloc t cpu l m | _ => Ret m end
  | EFree t cpu p l =>
      match tstate_of m t with
      | TIdle => if decide ((p, l) ∈ live m) then dealloc cpu p l (set_live (remove_one (p, l) (live m)) m) else Ret m
      | _ => Ret m
      end
  | ERun t mapped => global_alloc t mapped m
  | EEnable cpu => Ret match percpu m !! cpu with Some c => set_percpu cpu (enable c) m | None => m end
  | EMarkGs => Ret (mark_gs_ready m)
  | EVmalloc size =>
      '(r, m) ← vmalloc size m;
      Ret match r with Some a => set_areas ((a, size) :: areas m) m | None => m end
  | EVfree addr size =>
      if decide ((addr, size) ∈ areas m) then
        v ← Valloc.free (λ x, align_up x 4096) (valloc m) addr size;
        Ret (set_areas (remove_one (addr, size) (areas m)) (set_valloc v m))
      else Ret m
  end.

Definition KERNEL_HEAP : Z := 0xFFFFC00000000000.
Definition KERNEL_HEAP_SIZE : Z := 1024 * 1024.
Definition DYNAMIC_MEM_START : Z := 0xFFFFC00020000000.

(** [init_heap], on a machine of [cpus] CPUs. *)
Definition init_heap (cpus : nat) : Machine :=
  mk_machine (heap_init heap_empty KERNEL_HEAP KERNEL_HEAP_SIZE) (replicate cpus percpu_new) false false
    (Valloc.new DYNAMIC_MEM_START) ∅ [] [].

End Code.

End Heap.
