(* ===== verification/HeapSafety.v ===== *)
(** * Safety of the kernel heap

    What the buddy heap promises, the invariant that ties the heap's blocks to
    the per-CPU caches and to the blocks callers hold, its preservation by
    every step of every interleaving, and a heap that keeps the promises. *)

From S2P Require Import Prelude Valloc Heap.

Module HeapSafety.

Import Heap.

(** ** Ranges *)

Definition range : Type := Z * Z.
Definition dis (r s : range) : Prop := r.2 <= s.1 ∨ s.2 <= r.1.

Fixpoint disj (l : list range) : Prop :=
  match l with [] => True | r :: l => Forall (dis r) l ∧ disj l end.

Lemma dis_sym r s : dis r s → dis s r.
Proof. unfold dis. tauto. Qed.

Lemma disj_app l k : disj (l ++ k) ↔ disj l ∧ disj k ∧ Forall (λ r, Forall (dis r) k) l.
Proof.
  induction l as [|r l IH]; cbn; [rewrite Forall_nil; tauto|].
  rewrite IH, Forall_app, Forall_cons. tauto.
Qed.

Lemma disj_perm l k : l ≡ₚ k → disj l → disj k.
Proof.
  induction 1 as [|r l k Hp IH|r s l|l k j H1 IH1 H2 IH2]; cbn; [done| | |tauto].
  - intros [Hr Hl]. split; [by rewrite <- Hp|auto].
  - intros ([Hrs Hr]%Forall_cons & Hs & Hl). rewrite Forall_cons. auto using dis_sym.
Qed.

Lemma disj_shrink {A} (f g : A → range) l :
  (∀ x, x ∈ l → (f x).1 <= (g x).1 ∧ (g x).2 <= (f x).2) → disj (f <$> l) → disj (g <$> l).
Proof.
  intros Hf. induction l as [|x l IH]; cbn; [done|]. rewrite !Forall_fmap. intros [Hr Hl]. split.
  - rewrite Forall_forall in Hr |- *. intros y Hy. specialize (Hr y Hy).
    destruct (Hf x) as [? ?]; [by left|]. destruct (Hf y) as [? ?]; [by right|]. unfold dis in *. cbn in *. lia.
  - apply IH; [|done]. intros y Hy. apply Hf. by right.
Qed.

(** ** What the buddy heap promises *)

Definition pow2 (x : Z) : Prop := ∃ k, 0 <= k ∧ x = 2 ^ k.

(** A layout as [Layout::from_size_align] accepts, not empty. *)
Definition layout_ok (l : Layout) : Prop :=
  0 < lsize l ∧ pow2 (lalign l) ∧ lsize l + lalign l - 1 <= 2 ^ 63 - 1.

Definition block_range (b : Z * Layout) : range := (b.1, b.1 + lsize b.2).

(** A block is aligned and inside one of the regions the heap was given. *)
Definition placed (R : list range) (b : Z * Layout) : Prop :=
  b.1 mod lalign b.2 = 0 ∧ ∃ r, r ∈ R ∧ r.1 <= b.1 ∧ b.1 + lsize b.2 <= r.2.

(** [holds h R B]: the heap was given the regions [R] and its outstanding
    blocks are [B], each under the layout it was requested with. Outstanding
    blocks never overlap; a block is given back under its own layout; a heap
    given an aligned power-of-two region can serve any layout that fits it, up
    to its largest order. *)
Class BuddyLaws (H : Type) `{BH : BuddyHeap H} := {
  holds : H → list range → list (Z * Layout) → Prop;
  largest : Z;
  largest_min : MIN_EXPANSION <= largest;
  holds_sound h R B : holds h R B → disj (block_range <$> B) ∧ Forall (placed R) B;
  holds_perm h R B B' : B ≡ₚ B' → holds h R B → holds h R B';
  init_ok a n : 0 < a → 0 < n → holds (heap_init heap_empty a n) [(a, a + n)] [];
  alloc_ok h R B l h' p : holds h R B → layout_ok l → heap_alloc h l = (Some p, h') → holds h' R ((p, l) :: B);
  alloc_err h R B l h' : holds h R B → layout_ok l → heap_alloc h l = (None, h') → holds h' R B;
  dealloc_ok h R B p l : holds h R ((p, l) :: B) → holds (heap_dealloc h p l) R B;
  add_ok h R B a b : holds h R B → 0 < a < b → Forall (dis (a, b)) R → holds (add_to_heap h a b) ((a, b) :: R) B;
  add_serves h R B a c l : holds h R B → Forall (dis (a, a + c)) R → pow2 c → 0 < a → a mod c = 0 → c <= largest →
    layout_ok l → lsize l <= c → lalign l <= c →
    ∃ p h', heap_alloc (add_to_heap h a (a + c)) l = (Some p, h')
}.

(** ** Powers of two and size classes *)

Lemma pow2_divide a b : pow2 a → pow2 b → a <= b → (a | b).
Proof.
  intros (j & Hj & ->) (k & Hk & ->) Hle. apply Z.pow_le_mono_r_iff in Hle; [|lia|lia].
  exists (2 ^ (k - j)). rewrite <- Z.pow_add_r by lia. f_equal. lia.
Qed.

Lemma class_scan_spec cs size align : ∀ i j, class_scan cs i size align = Some j →
  ∃ sc, cs !! (j - i)%nat = Some sc ∧ (i <= j)%nat ∧ size <= sc ∧ align <= sc.
Proof.
  induction cs as [|sc cs IH]; intros i j; cbn; [done|]. destruct (_ && _) eqn:E.
  - intros [= <-]. rewrite Nat.sub_diag. exists sc. to_lia. split; [done|lia].
  - intros (sc' & Hl & Hj & Hs)%IH. exists sc'. split; [|split; [lia|done]].
    by replace (j - i)%nat with (S (j - S i)) by lia.
Qed.

Lemma size_class_spec size align j : size_class_index size align = Some j →
  ∃ sc, SIZE_CLASSES !! j = Some sc ∧ size <= sc ∧ align <= sc.
Proof. intros (sc & Hl & _ & Hs)%class_scan_spec. rewrite Nat.sub_0_r in Hl. eauto. Qed.

Lemma class_pow2 j sc : SIZE_CLASSES !! j = Some sc → pow2 sc ∧ 32 <= sc <= 4096.
Proof.
  intros Hj. assert (Hin : sc ∈ SIZE_CLASSES) by (by eapply list_elem_of_lookup_2). clear Hj.
  assert (∃ k, 5 <= k <= 12 ∧ sc = 2 ^ k) as (k & Hk & ->).
  { unfold SIZE_CLASSES in Hin. rewrite !elem_of_cons in Hin.
    destruct Hin as [->|[->|[->|[->|[->|[->|[->|[->|Hin]]]]]]]]; [exists 5|exists 6|exists 7|exists 8|exists 9|exists 10|exists 11|exists 12|by apply not_elem_of_nil in Hin]; (split; [lia|reflexivity]). }
  split; [by exists k; split; [lia|]|]. split; [change 32 with (2 ^ 5)|change 4096 with (2 ^ 12)]; apply Z.pow_le_mono_r; lia.
Qed.

Lemma class_layout_ok j sc : SIZE_CLASSES !! j = Some sc → layout_ok (mk_layout sc sc).
Proof. intros [Hp Hb]%class_pow2. split; [cbn; lia|]. split; [done|]. cbn. lia. Qed.

(** The layout asked of the heap covers the request and its alignment. *)
Lemma global_layout_spec l : layout_ok l →
  layout_ok (global_layout l) ∧ lsize l <= lsize (global_layout l) ∧ (lalign l | lalign (global_layout l)).
Proof.
  intros Hl. unfold global_layout. destruct (size_class_index _ _) as [j|] eqn:Ej; [|split; [done|split; [lia|reflexivity]]].
  destruct (size_class_spec _ _ _ Ej) as (sc & Hj & Hs & Ha). rewrite Hj.
  split; [by eapply class_layout_ok|]. split; [done|]. cbn. apply pow2_divide; [apply Hl|by eapply class_pow2|done].
Qed.

Ltac class_consts :=
  match goal with |- context [cache_limit ?j] =>
    let l := eval vm_compute in (cache_limit j) in
    let b := eval vm_compute in (batch_for j) in
    match l with Ret ?l => match b with Ret ?b => exists l, b end end
  end; split; [reflexivity|]; split; [reflexivity|]; unfold BATCH, CACHE_SLOTS, CACHE_BYTES; lia.

Lemma limit_spec j sc : SIZE_CLASSES !! j = Some sc →
  ∃ limit batch, cache_limit j = Ret limit ∧ batch_for j = Ret batch ∧
    (0 < batch <= limit)%nat ∧ (batch <= BATCH)%nat ∧ (limit <= CACHE_SLOTS)%nat ∧ sc * Z.of_nat limit <= CACHE_BYTES.
Proof.
  intros Hj. assert (Hlt : (j < 8)%nat) by (apply lookup_lt_Some in Hj; done).
  do 8 (destruct j as [|j]; [injection Hj as <-; class_consts|]). lia.
Qed.

(** ** One size class *)

Definition ptrs (s : SizeClassCache) : list Z := take (count s) (stack s).
Definition scc_ok (limit : nat) (s : SizeClassCache) : Prop :=
  length (stack s) = CACHE_SLOTS ∧ (count s <= limit)%nat ∧ (limit <= CACHE_SLOTS)%nat.

Lemma length_ptrs limit s : scc_ok limit s → length (ptrs s) = count s.
Proof. intros (H1 & H2 & H3). unfold ptrs. rewrite length_take. lia. Qed.

Lemma try_pop_spec limit s : scc_ok limit s →
  (ptrs s = [] ∧ try_pop s = Ret (None, s)) ∨
  ∃ p s', try_pop s = Ret (Some p, s') ∧ scc_ok limit s' ∧ ptrs s = ptrs s' ++ [p].
Proof.
  intros (H1 & H2 & H3). unfold try_pop. destruct (Nat.eqb_spec (count s) 0) as [E|E].
  - left. unfold ptrs. by rewrite E.
  - right. destruct (lookup_lt_is_Some_2 (stack s) (count s - 1)) as [p Hp]; [lia|]. rewrite Hp.
    exists p, (mk_scc (stack s) (count s - 1)). split; [done|]. split; [split; [done|cbn; lia]|].
    unfold ptrs. cbn [count stack]. rewrite <- (take_S_r _ _ _ Hp). f_equal. lia.
Qed.

Lemma try_push_spec limit s p : scc_ok limit s →
  (count s = limit ∧ try_push s p limit = Ret (false, s)) ∨
  ∃ s', (count s < limit)%nat ∧ try_push s p limit = Ret (true, s') ∧ scc_ok limit s' ∧ ptrs s' = ptrs s ++ [p] ∧ count s' = S (count s).
Proof.
  intros (H1 & H2 & H3). unfold try_push. destruct (Nat.leb_spec limit (count s)); [left; split; [lia|done]|].
  right. rewrite (proj2 (Nat.ltb_lt _ _)) by lia. eexists. split; [lia|]. split; [done|]. cbn [count stack].
  split; [split; cbn [count stack]; [by rewrite length_insert|lia]|]. split; [|done].
  unfold ptrs. cbn [count stack]. rewrite (take_S_r _ _ p) by (apply list_lookup_insert_eq; lia).
  by rewrite take_insert_ge by lia.
Qed.

Lemma drain_slots_spec limit n : ∀ s, scc_ok limit s → (n <= count s)%nat →
  ∃ out s', drain_slots n s = Ret (out, s') ∧ length out = n ∧ scc_ok limit s' ∧
    ptrs s ≡ₚ out ++ ptrs s' ∧ count s = (n + count s')%nat.
Proof.
  induction n as [|n IH]; intros s Hs Hn; cbn [drain_slots].
  - exists [], s. done.
  - destruct Hs as (H1 & H2 & H3). destruct (Nat.eqb_spec (count s) 0); [lia|].
    destruct (lookup_lt_is_Some_2 (stack s) (count s - 1)) as [p Hp]; [lia|]. rewrite Hp.
    destruct (IH (mk_scc (stack s) (count s - 1))) as (out & s' & -> & Ho & Hs' & Hpt & Hc); [split; cbn; [done|lia]|cbn; lia|].
    exists (p :: out), s'. cbn [mbind outcome_bind]. split; [done|]. split; [cbn; lia|]. split; [done|]. cbn [count] in Hc.
    split; [|lia]. cbn [app]. rewrite <- Hpt. unfold ptrs. cbn [count stack].
    replace (count s) with (S (count s - 1)) at 1 by lia. rewrite (take_S_r _ _ _ Hp). by rewrite Permutation_app_comm.
Qed.

Lemma drain_batch_spec limit batch s : scc_ok limit s → (batch <= BATCH)%nat → (batch <= count s)%nat →
  ∃ out s', drain_batch s batch = Ret (out, batch, s') ∧ scc_ok limit s' ∧
    ptrs s ≡ₚ take batch out ++ ptrs s' ∧ count s = (batch + count s')%nat.
Proof.
  intros Hs Hb Hc. unfold drain_batch. rewrite (Nat.min_r (count s) batch) by done. rewrite Nat.min_l by done.
  destruct (drain_slots_spec limit batch s Hs Hc) as (out & s' & -> & Ho & Hs' & Hp & Hcs). cbn [mbind outcome_bind].
  eexists _, s'. split; [done|]. split; [done|]. rewrite take_app_le by lia. rewrite take_ge by lia. done.
Qed.

(** ** One CPU *)

Definition blocks_of (sc : Z) (ps : list Z) : list (Z * Layout) := (λ p, (p, mk_layout sc sc)) <$> ps.
Definition class_blocks (i : nat) (s : SizeClassCache) : list (Z * Layout) := blocks_of (default 0 (SIZE_CLASSES !! i)) (ptrs s).
Definition cpu_blocks (c : PerCpuCache) : list (Z * Layout) := mjoin (imap class_blocks (caches c)).
Definition cached (pcs : list PerCpuCache) : list (Z * Layout) := mjoin (cpu_blocks <$> pcs).

Definition cpu_ok (c : PerCpuCache) : Prop :=
  length (caches c) = length SIZE_CLASSES ∧
  ∀ i s limit, caches c !! i = Some s → cache_limit i = Ret limit → scc_ok limit s.

(** Updating one element of a list changes only its share of what the list owns. *)
Lemma imap_insert_split {A B} (f : nat → A → list B) l i x : l !! i = Some x →
  ∃ rest, mjoin (imap f l) ≡ₚ f i x ++ rest ∧ ∀ y, mjoin (imap f (<[i := y]> l)) ≡ₚ f i y ++ rest.
Proof.
  revert f i. induction l as [|a l IH]; intros f [|i] Hi; cbn in Hi; try done.
  - injection Hi as ->. exists (mjoin (imap (f ∘ S) l)). split; [done|]. by intros y.
  - destruct (IH (f ∘ S) i Hi) as (rest & H1 & H2). exists (f 0%nat a ++ rest). cbn [imap insert list_insert]. rewrite !mjoin_cons.
    split; [|intros y; rewrite mjoin_cons].
    + rewrite H1. cbn. solve_Permutation.
    + rewrite H2. cbn. solve_Permutation.
Qed.

Lemma fmap_insert_split {A B} (f : A → list B) l i x : l !! i = Some x →
  ∃ rest, mjoin (f <$> l) ≡ₚ f x ++ rest ∧ ∀ y, mjoin (f <$> <[i := y]> l) ≡ₚ f y ++ rest.
Proof.
  intros Hi. destruct (imap_insert_split (λ _, f) l i x Hi) as (rest & H1 & H2). exists rest.
  assert (E : ∀ l : list A, imap (λ _, f) l = f <$> l).
  { clear. induction l as [|a l IH]; cbn; [done|]. by rewrite <- IH. }
  rewrite E in H1. split; [done|]. intros y. rewrite <- E. apply H2.
Qed.

Lemma set_scc_ok c i s s' limit : cpu_ok c → caches c !! i = Some s → cache_limit i = Ret limit → scc_ok limit s' → cpu_ok (set_scc c i s').
Proof.
  intros [Hlen Hc] Hi Hl Hs. split; [cbn; by rewrite length_insert|]. intros j x lim. cbn.
  intros [(<- & <- & _)|[Hne Hx]]%list_lookup_insert_Some; [|by apply Hc]. intros Hlim. congruence.
Qed.

(** The parts of a CPU's cache that an operation on class [j] works with. *)
Lemma class_parts c j sc : cpu_ok c → SIZE_CLASSES !! j = Some sc →
  ∃ s limit batch rest, scc_at c j = Ret s ∧ class_size j = Ret sc ∧ cache_limit j = Ret limit ∧ batch_for j = Ret batch ∧
    scc_ok limit s ∧ (0 < batch <= limit)%nat ∧ (batch <= BATCH)%nat ∧
    cpu_blocks c ≡ₚ blocks_of sc (ptrs s) ++ rest ∧
    ∀ s', scc_ok limit s' → cpu_ok (set_scc c j s') ∧ cpu_blocks (set_scc c j s') ≡ₚ blocks_of sc (ptrs s') ++ rest.
Proof.
  intros Hc Hj. destruct (limit_spec j sc Hj) as (limit & batch & Hl & Hb & Hbl & HbB & _).
  destruct (lookup_lt_is_Some_2 (caches c) j) as [s Hs]; [rewrite (proj1 Hc); by eapply lookup_lt_Some|].
  destruct (imap_insert_split class_blocks (caches c) j s Hs) as (rest & H1 & H2).
  unfold class_blocks in H1, H2 at 2. rewrite Hj in H1, H2. cbn [default] in H1, H2.
  exists s, limit, batch, rest. unfold scc_at, class_size. rewrite Hs, Hj.
  do 4 (split; [done|]). split; [by apply (proj2 Hc j)|]. do 3 (split; [done|]).
  intros s' Hs'. split; [by eapply set_scc_ok|apply H2].
Qed.

Section Laws.
Context {H : Type} `{BL : BuddyLaws H}.

Lemma refill_spec sc limit R B0 j : SIZE_CLASSES !! j = Some sc → ∀ n (h : H) s last, scc_ok limit s → (count s + n <= limit)%nat →
  holds h R (blocks_of sc (ptrs s ++ option_list last) ++ B0) →
  ∃ last' h' s', refill n h s (mk_layout sc sc) limit last = Ret (last', h', s') ∧ scc_ok limit s' ∧
    holds h' R (blocks_of sc (ptrs s' ++ option_list last') ++ B0).
Proof.
  intros Hj n. pose proof (class_layout_ok _ _ Hj) as Hl.
  induction n as [|n IH]; intros h s last Hs Hn Hh; cbn [refill]; [by exists last, h, s|].
  destruct (heap_alloc h _) as [[p|] h1] eqn:Ea.
  - pose proof (alloc_ok _ _ _ _ _ _ Hh Hl Ea) as Hh1.
    assert (∃ s1, (match last with Some prev => '(_, c) ← try_push s prev limit; Ret c | None => Ret s end) = Ret s1 ∧
              scc_ok limit s1 ∧ (count s1 + n <= limit)%nat ∧ ptrs s1 = ptrs s ++ option_list last) as (s1 & -> & Hs1 & Hc1 & Hp1).
    { destruct last as [prev|]; [|exists s; rewrite app_nil_r; split_and!; [done|done|lia|done]].
      destruct (try_push_spec limit s prev Hs) as [[Hc _]|(s1 & Hlt & -> & Hs1 & Hp & Hc)]; [lia|].
      exists s1. split_and!; [done|done|lia|done]. }
    cbn [mbind outcome_bind]. apply IH; [done|done|]. revert Hh1. apply holds_perm. rewrite Hp1. unfold blocks_of. rewrite !fmap_app. cbn. solve_Permutation.
  - pose proof (alloc_err _ _ _ _ _ Hh Hl Ea). by exists last, h1, s.
Qed.

Lemma try_percpu_alloc_spec l (h : H) R B0 c : cpu_ok c → layout_ok l → holds h R (cpu_blocks c ++ B0) →
  ∃ r h' c', try_percpu_alloc l h c = Ret (r, h', c') ∧ cpu_ok c' ∧ ready c' = ready c ∧
    holds h' R (option_list ((λ p, (p, global_layout l)) <$> r) ++ cpu_blocks c' ++ B0).
Proof.
  intros Hc Hl Hh. unfold try_percpu_alloc, global_layout. destruct (size_class_index _ _) as [j|] eqn:Ej; [|by exists None, h, c].
  destruct (size_class_spec _ _ _ Ej) as (sc & Hj & Hfit). rewrite Hj.
  destruct (class_parts c j sc Hc Hj) as (s & limit & batch & rest & Es & -> & El & Eb & Hs & Hb & _ & Hcb & Hset).
  cbn [mbind outcome_bind]. destruct (ready c) eqn:Er; cbn [negb]; [|by exists None, h, c]. rewrite Es. cbn [mbind outcome_bind].
  destruct (try_pop_spec limit s Hs) as [[Hnil ->]|(p & s' & -> & Hs' & Hp)]; cbn [mbind outcome_bind].
  - rewrite El, Eb. cbn [mbind outcome_bind].
    destruct (refill_spec sc limit R (rest ++ B0) j Hj batch h s None Hs) as (last & h' & s' & -> & Hs' & Hh').
    { rewrite <- (length_ptrs _ _ Hs), Hnil. cbn. lia. }
    { revert Hh. apply holds_perm. cbn. rewrite app_nil_r, Hcb. solve_Permutation. }
    destruct (Hset s' Hs') as [Hc' Hcb']. cbn [mbind outcome_bind]. exists last, h', (set_scc c j s'). do 3 (split; [done|]).
    revert Hh'. apply holds_perm. rewrite Hcb'. unfold blocks_of. rewrite fmap_app.
    destruct last; cbn; [solve_Permutation|rewrite app_nil_r; solve_Permutation].
  - destruct (Hset s' Hs') as [Hc' Hcb']. exists (Some p), h, (set_scc c j s'). do 3 (split; [done|]). revert Hh. apply holds_perm.
    rewrite Hcb, Hcb', Hp. unfold blocks_of. rewrite fmap_app. cbn. solve_Permutation.
Qed.

Lemma return_blocks_spec sc R B0 ps : ∀ h : H, holds h R (blocks_of sc ps ++ B0) → holds (return_blocks h ps (mk_layout sc sc)) R B0.
Proof. induction ps as [|p ps IH]; intros h Hh; cbn; [done|]. apply IH. by apply dealloc_ok. Qed.

Lemma try_percpu_dealloc_spec p l (h : H) R B0 c : cpu_ok c → holds h R ((p, global_layout l) :: cpu_blocks c ++ B0) →
  ∃ b h' c', try_percpu_dealloc p l h c = Ret (b, h', c') ∧ cpu_ok c' ∧ ready c' = ready c ∧
    ((b = true ∧ holds h' R (cpu_blocks c' ++ B0)) ∨
     (b = false ∧ h' = h ∧ c' = c ∧ (ready c = false ∨ global_layout l = l))).
Proof.
  intros Hc Hh. unfold try_percpu_dealloc, global_layout in *. destruct (size_class_index _ _) as [j|] eqn:Ej; [|by exists false, h, c; auto 10].
  destruct (size_class_spec _ _ _ Ej) as (sc & Hj & Hfit). rewrite Hj in *.
  destruct (class_parts c j sc Hc Hj) as (s & limit & batch & rest & Es & -> & El & Eb & Hs & Hb & HbB & Hcb & Hset).
  cbn [mbind outcome_bind]. destruct (ready c) eqn:Er; cbn [negb]; [|by exists false, h, c; auto 10].
  rewrite El, Es. cbn [mbind outcome_bind].
  destruct (try_push_spec limit s p Hs) as [[Hfull ->]|(s' & _ & -> & Hs' & Hp & _)]; cbn [mbind outcome_bind].
  - rewrite Eb. cbn [mbind outcome_bind].
    destruct (drain_batch_spec limit batch s Hs HbB) as (out & s1 & -> & Hs1 & Hp1 & Hc1); [lia|]. cbn [mbind outcome_bind].
    destruct (try_push_spec limit s1 p Hs1) as [[Hc2 _]|(s' & _ & -> & Hs' & Hp & _)]; [lia|]. cbn [mbind outcome_bind].
    destruct (Hset s' Hs') as [Hc' Hcb']. exists true, (return_blocks h (take batch out) (mk_layout sc sc)), (set_scc c j s').
    do 3 (split; [done|]). left. split; [done|]. apply return_blocks_spec. revert Hh. apply holds_perm.
    rewrite Hcb, Hcb', Hp. unfold blocks_of. rewrite Hp1, !fmap_app. cbn. solve_Permutation.
  - destruct (Hset s' Hs') as [Hc' Hcb']. exists true, h, (set_scc c j s'). do 3 (split; [done|]). left. split; [done|].
    revert Hh. apply holds_perm. rewrite Hcb, Hcb', Hp. unfold blocks_of. rewrite fmap_app. cbn. solve_Permutation.
Qed.
End Laws.

(** ** The machine's invariant *)

Section Machine.
Context {H : Type} `{BL : BuddyLaws H} (align_up : Z → Z → outcome Z).
(** The documented behaviour of [align_up] where it does not overflow. *)
Hypothesis align_up_spec : ∀ x a, pow2 a → 0 <= x → x + a - 1 <= U64_MAX → align_up x a = Ret ((x + a - 1) / a * a).

Definition held (l : list (Z * Layout)) : list (Z * Layout) := (λ b, (b.1, global_layout b.2)) <$> l.

(** Every block the heap has outstanding is in exactly one place. *)
Record heap_inv (R : list range) (m : Machine (H := H)) : Prop := {
  h_holds : holds (inner m) R (cached (percpu m) ++ held (live m));
  h_cpus : Forall cpu_ok (percpu m);
  h_live : Forall (λ b, layout_ok b.2) (live m)
}.

Definition in_expansion (s : tstate) : bool :=
  match s with TReserve _ | TMap _ _ _ | TGrow _ _ _ | TRelease => true | _ => false end.
Definition pending (s : tstate) : list range :=
  match s with TMap _ b c | TGrow _ b c => [(b, b + c)] | _ => [] end.

Definition tstate_ok (s : tstate) : Prop :=
  match s with
  | TIdle | TRelease => True
  | TGlobal l | TContend l | TSpin l | TRetry l | TReserve l => layout_ok l
  | TMap l b c | TGrow l b c => layout_ok l ∧ chunk_for align_up (global_layout l) = Ret c ∧ pow2 c ∧ 0 < b ∧ b mod c = 0
  end.

(** EXPANDING is owned by the one context [o] that is growing the heap. *)
Record thread_inv (o : option nat) (m : Machine (H := H)) : Prop := {
  t_ok t : tstate_ok (tstate_of m t);
  t_owner t : in_expansion (tstate_of m t) = true ↔ o = Some t;
  t_flag : expanding m = true ↔ is_Some o
}.

Definition area_range (a : Z * Z) : range := (a.1, a.1 + Valloc.need_of a.2).
Definition owner_range (o : option nat) (m : Machine (H := H)) : list range :=
  match o with Some t => pending (tstate_of m t) | None => [] end.
Definition taken (v : Valloc.VAlloc) (r : range) : Prop :=
  0 < r.1 < r.2 ∧ ∀ x, r.1 <= x < r.2 → Valloc.in_free (Valloc.regions v) x = false.
Definition area_ok (a : Z * Z) : Prop :=
  0 < a.2 ∧ a.1 mod Valloc.PAGE = 0 ∧ DYNAMIC_MEM_START <= a.1 ∧ a.1 + Valloc.need_of a.2 <= Valloc.VMALLOC_END.

(** The heap's regions, the range being added and the areas of other code are
    disjoint, and none of their addresses is free. *)
Record space_inv (R P : list range) (m : Machine (H := H)) : Prop := {
  s_wf : Valloc.wf (valloc m);
  s_bound x : Valloc.in_free (Valloc.regions (valloc m)) x = true → DYNAMIC_MEM_START <= x < Valloc.VMALLOC_END;
  s_areas : Forall area_ok (areas m);
  s_disj : disj (R ++ P ++ (area_range <$> areas m));
  s_taken : Forall (taken (valloc m)) (R ++ P ++ (area_range <$> areas m))
}.

Definition Inv (m : Machine (H := H)) : Prop :=
  ∃ R o, heap_inv R m ∧ thread_inv o m ∧ space_inv R (owner_range o m) m.

(** ** Address space *)

Lemma align_page x : 0 <= x <= U64_MAX - 4095 → align_up x 4096 = Ret ((x + 4095) / 4096 * 4096).
Proof. intros Hx. rewrite align_up_spec; [f_equal; f_equal; f_equal; lia|by exists 12|lia|lia]. Qed.

Lemma next_power_spec x : 0 < x <= 2 ^ 63 → ∃ k, 0 <= k ∧ next_power_of_two x = Ret (2 ^ k) ∧ x <= 2 ^ k ∧ ∀ j, 0 <= j → x <= 2 ^ j → 2 ^ k <= 2 ^ j.
Proof.
  intros Hx. unfold next_power_of_two. destruct (Z.leb_spec x 1).
  - exists 0. split; [lia|]. split; [done|]. split; [lia|]. intros j Hj _. change (2 ^ 0) with 1. pose proof (Z.pow_pos_nonneg 2 j). lia.
  - rewrite (proj2 (Z.leb_le _ _)) by lia. exists (Z.log2_up x). split; [apply Z.log2_up_nonneg|]. split; [done|].
    split; [apply Z.log2_up_spec; lia|]. intros j Hj Hle. apply Z.pow_le_mono_r; [lia|]. rewrite <- (Z.log2_up_pow2 j) by done. by apply Z.log2_up_le_mono.
Qed.

Lemma pad_spec l : layout_ok l → lsize l <= pad_to_align l <= 2 ^ 63 - 1 ∧ ∀ c, (lalign l | c) → lsize l <= c → pad_to_align l <= c.
Proof.
  intros (Hs & (k & Hk & Ha) & Hb). unfold pad_to_align. pose proof (Z.pow_pos_nonneg 2 k).
  pose proof (Z.div_mod (lsize l + lalign l - 1) (lalign l)). pose proof (Z.mod_pos_bound (lsize l + lalign l - 1) (lalign l)).
  split; [lia|]. intros c [q ->] Hle. apply Z.mul_le_mono_nonneg_r; [lia|].
  transitivity ((q * lalign l + lalign l - 1) / lalign l); [apply Z.div_le_mono; lia|].
  replace (q * lalign l + lalign l - 1) with (lalign l - 1 + q * lalign l) by lia.
  rewrite Z.div_add by lia. rewrite Z.div_small by lia. lia.
Qed.

Lemma chunk_for_spec l : layout_ok l →
  ∃ c, chunk_for align_up l = Ret c ∧ pow2 c ∧ MIN_EXPANSION <= c <= 2 ^ 32 ∧
    (lsize l <= MIN_EXPANSION → lalign l <= MIN_EXPANSION → c = MIN_EXPANSION).
Proof.
  intros Hl. destruct (pad_spec l Hl) as [Hp Hmin]. unfold chunk_for.
  assert (0 < lsize l) by apply Hl. rewrite align_page by (unfold U64_MAX; lia). cbn [mbind outcome_bind].
  set (need := (pad_to_align l + 4095) / 4096 * 4096).
  assert (Hn : pad_to_align l <= need ∧ need <= 2 ^ 63 ∧ (pad_to_align l <= MIN_EXPANSION → need <= MIN_EXPANSION)).
  { unfold need. change MIN_EXPANSION with (2 ^ 20). pose proof (Z.div_mod (pad_to_align l + 4095) 4096). pose proof (Z.mod_pos_bound (pad_to_align l + 4095) 4096). lia. }
  destruct (next_power_spec need) as (k & Hk & -> & Hle & Hleast); [lia|]. cbn [mbind outcome_bind]. eexists. split; [done|].
  change MIN_EXPANSION with (2 ^ 20) in *. change (Z.shiftl 1 32) with (2 ^ 32). split_and!.
  - destruct (_ <? _); [by exists 32|]. destruct (Z.max_spec (2 ^ k) (2 ^ 20)) as [[_ ->]|[_ ->]]; [by exists 20|by exists k].
  - destruct (Z.ltb_spec (2 ^ 32) (Z.max (2 ^ k) (2 ^ 20))); lia.
  - destruct (Z.ltb_spec (2 ^ 32) (Z.max (2 ^ k) (2 ^ 20))); lia.
  - intros H1 H2. assert (2 ^ k <= 2 ^ 20).
    { apply Hleast; [lia|]. apply Hn. apply Hmin; [|done]. apply pow2_divide; [apply Hl|by exists 20|done]. }
    rewrite Z.max_r by lia. by rewrite (proj2 (Z.ltb_ge _ _)) by lia.
Qed.

(** A range taken from the free set joins the ranges in use. *)
Lemma space_alloc R P m size a v : space_inv R P m → 0 < size →
  Valloc.wf v → a mod Valloc.PAGE = 0 →
  (∀ x, Valloc.between a (a + Valloc.need_of size) x = true → Valloc.in_free (Valloc.regions (valloc m)) x = true) →
  (∀ x, Valloc.in_free (Valloc.regions v) x = Valloc.in_free (Valloc.regions (valloc m)) x && negb (Valloc.between a (a + Valloc.need_of size) x)) →
  area_ok (a, size) ∧ Forall (dis (area_range (a, size))) (R ++ P ++ (area_range <$> areas m)) ∧ taken v (area_range (a, size)) ∧
  space_inv R P (set_valloc v m).
Proof.
  intros [Hwf Hb Ha Hd Ht] Hs Hv Hal Hfree Hin. destruct (Valloc.need_bounds size Hs) as [Hn _]. unfold Valloc.between in *.
  pose proof (Hb a (Hfree a ltac:(lia))). pose proof (Hb (a + Valloc.need_of size - 1) (Hfree (a + Valloc.need_of size - 1) ltac:(lia))).
  split_and!.
  - split_and!; cbn; [done|done|lia|lia].
  - rewrite Forall_forall in Ht |- *. intros [b e] Hr. unfold area_range, dis. cbn.
    destruct (decide (a + Valloc.need_of size <= b)); [by left|]. destruct (decide (e <= a)); [by right|]. exfalso.
    destruct (Ht (b, e) Hr) as [Hbe Hx]. cbn in Hbe, Hx. specialize (Hx (Z.max a b)). rewrite Hfree in Hx by lia. discriminate Hx. lia.
  - split; cbn; [unfold DYNAMIC_MEM_START in *; lia|]. intros x Hx. rewrite Hin. lia.
  - split; cbn [set_valloc valloc areas]; try done.
    + intros x Hx. apply Hb. rewrite Hin in Hx. by apply andb_prop in Hx as [? _].
    + eapply Forall_impl; [exact Ht|]. intros r [Hlt Hr]. split; [done|]. intros x Hx. by rewrite Hin, (Hr x Hx).
Qed.

Lemma vmalloc_spec R P m size : space_inv R P m → 0 < size <= 2 ^ 47 →
  (vmalloc align_up size m = Ret (None, m) ∧
     ∀ a, ¬ ∀ x, a <= x < a + Valloc.need_of size → Valloc.in_free (Valloc.regions (valloc m)) x = true) ∨
  ∃ a v, vmalloc align_up size m = Ret (Some a, set_valloc v m) ∧ area_ok (a, size) ∧
    Forall (dis (area_range (a, size))) (R ++ P ++ (area_range <$> areas m)) ∧ taken v (area_range (a, size)) ∧
    space_inv R P (set_valloc v m).
Proof.
  intros Hs Hsz. unfold vmalloc.
  pose proof (Valloc.alloc_spec (λ x, align_up x 4096) align_page (valloc m) size (s_wf _ _ _ Hs)) as Ha.
  destruct (Valloc.alloc _ _ _) as [[[a|] v]|]; cbn [mbind outcome_bind]; [| |by destruct Ha; unfold U64_MAX; lia].
  - destruct Ha as (Hv & Hal & Hfree & Hin); [unfold U64_MAX; lia|]. right. exists a, v. split; [done|]. eapply space_alloc; eauto; lia.
  - destruct Ha as [-> Hno]; [unfold U64_MAX; lia|]. left. by destruct m.
Qed.

Lemma remove_one_perm {A} `{EqDecision A} (x : A) l : x ∈ l → l ≡ₚ x :: remove_one x l.
Proof.
  induction l as [|y l IH]; [by intros ?%not_elem_of_nil|]. cbn. case_decide as E; [by subst|].
  intros [?|Hx]%elem_of_cons; [done|]. rewrite (IH Hx) at 1. apply Permutation_swap.
Qed.

Lemma vfree_spec R P m addr size : space_inv R P m → (addr, size) ∈ areas m →
  ∃ v, Valloc.free (λ x, align_up x 4096) (valloc m) addr size = Ret v ∧
    space_inv R P (set_areas (remove_one (addr, size) (areas m)) (set_valloc v m)).
Proof.
  intros [Hwf Hb Ha Hd Ht] Hin. pose proof (remove_one_perm _ _ Hin) as Hp.
  assert (Hp' : R ++ P ++ (area_range <$> areas m) ≡ₚ area_range (addr, size) :: R ++ P ++ (area_range <$> remove_one (addr, size) (areas m))).
  { rewrite Hp at 1. cbn. solve_Permutation. }
  apply (disj_perm _ _ Hp') in Hd as [Hdis Hd]. rewrite Hp' in Ht. apply Forall_cons in Ht as [Htk Ht].
  rewrite Hp in Ha. apply Forall_cons in Ha as [Hok Ha]. destruct Hok as (H1 & H2 & H3 & H4). cbn in H1, H2, H3, H4.
  destruct (Valloc.free_spec (λ x, align_up x 4096) align_page (valloc m) addr size) as (v & -> & Hv & Hcases); try done; [unfold DYNAMIC_MEM_START in *; lia|].
  exists v. split; [done|].
  assert (Hnew : ∀ x, Valloc.in_free (Valloc.regions v) x = true → Valloc.in_free (Valloc.regions (valloc m)) x = true ∨ addr <= x < addr + Valloc.need_of size).
  { intros x Hx. destruct Hcases as [(E & _)|[(E & _)|(_ & _ & _ & E)]]; [rewrite E in Hx; by left|rewrite E in Hx; by left|].
    rewrite E in Hx. apply orb_prop in Hx as [Hx|Hx]; [by left|right]. unfold Valloc.between in Hx. lia. }
  split; cbn [set_areas set_valloc valloc areas]; try done.
  - intros x Hx. destruct (Hnew x Hx) as [Hf|Hf]; [by apply Hb|lia].
  - rewrite Forall_forall in Ht, Hdis |- *. intros r Hr. destruct (Ht r Hr) as [Hlt Htr]. split; [done|]. intros x Hx.
    destruct (Valloc.in_free (Valloc.regions v) x) eqn:E; [|done]. destruct (Hnew x E) as [Hf|Hf]; [by rewrite Htr in Hf|].
    specialize (Hdis r Hr). unfold dis, area_range in Hdis. cbn in Hdis. lia.
Qed.

(** ** The heap's steps *)

Lemma heap_inv_alloc R m l p h : heap_inv R m → layout_ok l → heap_alloc (inner m) (global_layout l) = (Some p, h) →
  heap_inv R (set_live ((p, l) :: live m) (set_inner h m)).
Proof.
  intros [Hh Hc Hl] Hok Ha. split; cbn [set_live set_inner inner percpu live]; [|done|by constructor].
  apply (alloc_ok _ _ _ _ _ _ Hh) in Ha; [|by apply global_layout_spec]. revert Ha. apply holds_perm. cbn. by rewrite Permutation_middle.
Qed.

Lemma heap_inv_err R m l h : heap_inv R m → layout_ok l → heap_alloc (inner m) (global_layout l) = (None, h) → heap_inv R (set_inner h m).
Proof.
  intros [Hh Hc Hl] Hok Ha. split; cbn [set_live set_inner inner percpu live]; [|done|done].
  eapply alloc_err; [done| |done]. by apply global_layout_spec.
Qed.

(** The caches of one CPU apart from those of the others. *)
Lemma cached_split pcs cpu c : pcs !! cpu = Some c →
  ∃ rest, cached pcs ≡ₚ cpu_blocks c ++ rest ∧ ∀ c', cached (<[cpu := c']> pcs) ≡ₚ cpu_blocks c' ++ rest.
Proof. apply fmap_insert_split. Qed.

Lemma alloc_inv R m cpu l c : heap_inv R m → layout_ok l → percpu m !! cpu = Some c →
  ∃ r h c', try_percpu_alloc l (inner m) c = Ret (r, h, c') ∧
    heap_inv R (set_live (option_list ((λ p, (p, l)) <$> r) ++ live m) (set_percpu cpu c' (set_inner h m))).
Proof.
  intros [Hh Hc Hl] Hok Hcpu. destruct (cached_split _ _ _ Hcpu) as (rest & H1 & H2).
  destruct (try_percpu_alloc_spec l (inner m) R (rest ++ held (live m)) c) as (r & h & c' & -> & Hc' & Hr & Hh').
  { by eapply Forall_lookup_1. } { done. } { revert Hh. apply holds_perm. rewrite H1. solve_Permutation. }
  exists r, h, c'. split; [done|]. split; cbn [set_live set_percpu set_inner inner percpu live].
  - revert Hh'. apply holds_perm. rewrite H2. unfold held. rewrite fmap_app. destruct r; cbn; solve_Permutation.
  - by apply Forall_insert.
  - apply Forall_app. split; [|done]. destruct r; cbn; [by apply Forall_singleton|by apply Forall_nil].
Qed.

Lemma dealloc_inv R m cpu p l c : heap_inv R m → (p, l) ∈ live m → percpu m !! cpu = Some c →
  (global_layout l = l ∨ (gs_initialized m = true ∧ ready c = true)) →
  ∃ m', dealloc cpu p l (set_live (remove_one (p, l) (live m)) m) = Ret m' ∧ heap_inv R m' ∧
    ∃ h pc, m' = mk_machine h pc (gs_initialized m) (expanding m) (valloc m) (threads m) (remove_one (p, l) (live m)) (areas m).
Proof.
  intros [Hh Hc Hl] Hin Hcpu Hexact. pose proof (remove_one_perm _ _ Hin) as Hp. rewrite Hp in Hl. apply Forall_cons in Hl as [Hlp Hl].
  assert (Hh' : holds (inner m) R ((p, global_layout l) :: cached (percpu m) ++ held (remove_one (p, l) (live m)))).
  { revert Hh. apply holds_perm. unfold held. rewrite Hp at 1. cbn. by rewrite Permutation_middle. }
  unfold dealloc. cbn [set_live gs_initialized percpu inner live]. destruct (gs_initialized m) eqn:Egs.
  - rewrite Hcpu. destruct (cached_split _ _ _ Hcpu) as (rest & H1 & H2).
    destruct (try_percpu_dealloc_spec p l (inner m) R (rest ++ held (remove_one (p, l) (live m))) c) as (b & h & c' & -> & Hc' & Hr & Hb).
    { by eapply Forall_lookup_1. } { revert Hh'. apply holds_perm. rewrite H1. solve_Permutation. }
    cbn [mbind outcome_bind]. eexists. split; [done|]. split; [|by eexists _, _].
    destruct Hb as [[-> Hb]|(-> & -> & -> & Hb)]; (split; cbn [inner percpu live]; [|by apply Forall_insert|done]).
    + revert Hb. apply holds_perm. rewrite H2. solve_Permutation.
    + assert (El : global_layout l = l) by (destruct Hexact as [?|[_ ?]], Hb as [?|?]; congruence). rewrite El in Hh'.
      apply dealloc_ok. rewrite (list_insert_id _ _ _ Hcpu). done.
  - cbn [mbind outcome_bind]. eexists. split; [done|]. split; [|by eexists _, _]. split; cbn [inner percpu live]; [|done|done].
    destruct Hexact as [El|[? _]]; [|done]. rewrite El in Hh'. by apply dealloc_ok.
Qed.

(** ** The contexts *)

Lemma tstate_set t s m t' : tstate_of (set_thread (H := H) t s m) t' = if decide (t' = t) then s else tstate_of m t'.
Proof.
  unfold tstate_of. cbn. case_decide as E; [by subst; rewrite lookup_insert_eq|by rewrite lookup_insert_ne by congruence].
Qed.

(** A step of a context that neither takes nor gives back EXPANDING. *)
Lemma thread_same o m t s : thread_inv o m → tstate_ok s → in_expansion s = in_expansion (tstate_of m t) → thread_inv o (set_thread t s m).
Proof.
  intros [Hok How Hfl] Hs He. split; [intros t'; rewrite tstate_set; by case_decide| |done].
  intros t'. rewrite tstate_set. case_decide; [subst; by rewrite He|done].
Qed.

Lemma owner_other o m t s : thread_inv o m → in_expansion (tstate_of m t) = false → owner_range o (set_thread t s m) = owner_range o m.
Proof.
  intros Ht He. destruct o as [u|]; [|done]. cbn. rewrite tstate_set. case_decide as E; [|done]. subst u.
  pose proof (t_owner _ _ Ht t) as [_ Hx]. rewrite Hx in He; done.
Qed.

Lemma owner_self o m t : thread_inv o m → in_expansion (tstate_of m t) = true → o = Some t.
Proof. intros Ht. apply (t_owner _ _ Ht). Qed.

(** The parts of the invariant that a change of other components leaves alone. *)
Lemma space_frame R P m m' : valloc m' = valloc m → areas m' = areas m → space_inv R P m → space_inv R P m'.
Proof. intros E1 E2 [? ? ? ? ?]. by split; rewrite ?E1, ?E2. Qed.

Lemma thread_frame o m m' : threads m' = threads m → expanding m' = expanding m → thread_inv o m → thread_inv o m'.
Proof. unfold tstate_of. intros E1 E2 [? ? ?]. by split; unfold tstate_of in *; rewrite ?E1, ?E2. Qed.

Lemma heap_frame R m m' : inner m' = inner m → percpu m' = percpu m → live m' = live m → heap_inv R m → heap_inv R m'.
Proof. intros E1 E2 E3 [? ? ?]. by split; rewrite ?E1, ?E2, ?E3. Qed.

Lemma owner_frame o m m' : threads m' = threads m → owner_range o m' = owner_range o m.
Proof. intros E. unfold owner_range, tstate_of. by rewrite E. Qed.

(** A step of a context outside the expansion that changes the heap and what is live. *)
Lemma inv_move R o m m1 t s : heap_inv R m1 → thread_inv o m → space_inv R (owner_range o m) m →
  threads m1 = threads m → expanding m1 = expanding m → valloc m1 = valloc m → areas m1 = areas m →
  tstate_ok s → in_expansion (tstate_of m t) = false → in_expansion s = false → Inv (set_thread t s m1).
Proof.
  intros Hh Ht Hs E1 E2 E3 E4 Hok Hi Hi'. assert (Ht1 : thread_inv o m1) by (by eapply thread_frame).
  assert (Hi1 : in_expansion (tstate_of m1 t) = false) by (unfold tstate_of in *; by rewrite E1).
  exists R, o. split; [|split].
  - revert Hh. by apply heap_frame.
  - apply thread_same; [done|done|]. by rewrite Hi1.
  - rewrite (owner_other _ _ _ _ Ht1 Hi1), (owner_frame _ m m1 E1). revert Hs. by apply space_frame.
Qed.

Lemma locked_attempt_inv m t l next : Inv m → layout_ok l → in_expansion (tstate_of m t) = false →
  tstate_ok next → in_expansion next = false → Inv (locked_attempt t l next m).
Proof.
  intros (R & o & Hh & Ht & Hs) Hl Hi Hn Hni. unfold locked_attempt. destruct (heap_alloc _ _) as [[p|] h] eqn:Ea.
  - eapply (inv_move R o m); try done. by apply heap_inv_alloc.
  - eapply (inv_move R o m); try done. by eapply heap_inv_err.
Qed.

Lemma contend_inv m t l : Inv m → tstate_of m t = TContend l →
  Inv (if expanding m then set_thread t (TSpin l) m else set_thread t (TReserve l) (set_expanding true m)).
Proof.
  intros (R & o & Hh & Ht & Hs) Et. pose proof (t_ok _ _ Ht t) as Hok. rewrite Et in Hok.
  destruct (expanding m) eqn:Ee; [by eapply (inv_move R o m); rewrite ?Et|].
  assert (Ho : o = None).
  { destruct o; [|done]. destruct (t_flag _ _ Ht) as [_ Hf]. rewrite Hf in Ee; done. } subst o.
  exists R, (Some t). split; [by revert Hh; apply heap_frame|]. split; [split|].
  - intros t'. rewrite tstate_set. case_decide; [done|]. apply (t_ok _ _ Ht).
  - intros t'. rewrite tstate_set. case_decide; [by subst|]. split; [|congruence].
    intros Hx%(t_owner _ _ Ht). done.
  - done.
  - cbn [owner_range]. rewrite tstate_set, decide_True by done. cbn. revert Hs. by apply space_frame.
Qed.

Lemma release_inv m t : Inv m → tstate_of m t = TRelease → Inv (set_thread t TIdle (set_expanding false m)).
Proof.
  intros (R & o & Hh & Ht & Hs) Et. pose proof (owner_self o m t Ht ltac:(by rewrite Et)) as ->.
  exists R, None. split; [by revert Hh; apply heap_frame|]. split; [split|].
  - intros t'. rewrite tstate_set. case_decide; [done|]. apply (t_ok _ _ Ht).
  - intros t'. rewrite tstate_set. case_decide as E; [done|]. split; [|done]. intros Hx%(t_owner _ _ Ht). congruence.
  - split; [done|]. by intros [? ?].
  - cbn [owner_range] in *. rewrite Et in Hs. cbn in Hs. revert Hs. by apply space_frame.
Qed.

(** Reserving address space: the aligned chunk lies inside the range vmalloc gave. *)
Lemma reserve_inv m t l : Inv m → tstate_of m t = TReserve l →
  ∃ chunk, chunk_for align_up (global_layout l) = Ret chunk ∧
  ((vmalloc align_up (chunk * 2) m = Ret (None, m) ∧
     ∀ a, ¬ ∀ x, a <= x < a + Valloc.need_of (chunk * 2) → Valloc.in_free (Valloc.regions (valloc m)) x = true) ∨
   ∃ raw v base, vmalloc align_up (chunk * 2) m = Ret (Some raw, set_valloc v m) ∧ align_up raw chunk = Ret base ∧
     Inv (set_thread t (TMap l base chunk) (set_valloc v m))).
Proof.
  intros (R & o & Hh & Ht & Hs) Et. pose proof (t_ok _ _ Ht t) as Hok. rewrite Et in Hok. cbn in Hok.
  pose proof (owner_self o m t Ht ltac:(by rewrite Et)) as ->. cbn [owner_range] in Hs. rewrite Et in Hs. cbn [pending] in Hs.
  destruct (chunk_for_spec (global_layout l)) as (c & Ec & Hpow & Hc & _); [by apply global_layout_spec|].
  exists c. split; [done|]. change MIN_EXPANSION with 1048576 in Hc.
  destruct (vmalloc_spec R [] m (c * 2) Hs) as [[-> Hno]|(raw & v & -> & Ha & Hd & Htk & Hs')]; [lia|by left|right].
  destruct Ha as (_ & _ & Hlo & Hhi). cbn in Hlo, Hhi. unfold DYNAMIC_MEM_START, Valloc.VMALLOC_END in Hlo, Hhi.
  destruct (Valloc.need_bounds (c * 2)) as [Hn _]; [lia|].
  exists raw, v, ((raw + c - 1) / c * c). split; [done|]. rewrite align_up_spec by (done || unfold U64_MAX; lia). split; [done|].
  pose proof (Z.div_mod (raw + c - 1) c). pose proof (Z.mod_pos_bound (raw + c - 1) c).
  set (base := (raw + c - 1) / c * c) in *. assert (Hbase : raw <= base < raw + c) by (unfold base; lia).
  assert (Hsub : ∀ r, dis (area_range (raw, c * 2)) r → dis (base, base + c) r) by (intros r; unfold dis, area_range; cbn; lia).
  exists R, (Some t). split; [by revert Hh; apply heap_frame|]. split.
  - apply thread_same; [by revert Ht; apply thread_frame| |]; [|by change (tstate_of (set_valloc v m) t) with (tstate_of m t); rewrite Et].
    cbn. split_and!; [done|done|done|lia|unfold base; apply Z.mod_mul; lia].
  - cbn [owner_range]. rewrite tstate_set, decide_True by done. cbn [pending].
    destruct Hs' as [Hwf Hb Har Hdj Htak]. split; [done|done|done| |]; cbn [set_thread set_valloc areas valloc] in *.
    + eapply (disj_perm ((base, base + c) :: R ++ [] ++ (area_range <$> areas m))); [cbn; solve_Permutation|].
      cbn [disj]. split; [|done]. eapply Forall_impl; [exact Hd|]. exact Hsub.
    + rewrite Forall_app in Htak |- *. destruct Htak as [HR HA]. split; [done|]. constructor; [|done].
      destruct Htk as [_ Htk]. split; cbn; [lia|]. intros x Hx. apply Htk. cbn. lia.
Qed.

Lemma grow_inv m t l base c p h : Inv m → tstate_of m t = TGrow l base c →
  heap_alloc (add_to_heap (inner m) base (base + c)) (global_layout l) = (p, h) →
  Inv (set_thread t TRelease match p with Some p => set_live ((p, l) :: live m) (set_inner h m) | None => set_inner h m end).
Proof.
  intros (R & o & Hh & Ht & Hs) Et Ea. pose proof (t_ok _ _ Ht t) as Hok. rewrite Et in Hok. destruct Hok as (Hl & Ec & Hpow & Hb0 & Hbm).
  pose proof (owner_self o m t Ht ltac:(by rewrite Et)) as ->. cbn [owner_range] in Hs. rewrite Et in Hs. cbn [pending] in Hs.
  assert (Hc0 : 0 < c) by (destruct Hpow as (k & ? & ->); by apply Z.pow_pos_nonneg).
  destruct Hs as [Hwf Hb Har Hdj Htk].
  assert (Hperm : R ++ [(base, base + c)] ++ (area_range <$> areas m) ≡ₚ ((base, base + c) :: R) ++ [] ++ (area_range <$> areas m)) by (cbn; solve_Permutation).
  assert (Hh1 : heap_inv ((base, base + c) :: R) (set_inner (add_to_heap (inner m) base (base + c)) m)).
  { destruct Hh as [Hh Hcp Hlv]. split; [|done|done]. apply add_ok; [done|lia|].
    apply (disj_perm _ _ Hperm) in Hdj. cbn in Hdj. destruct Hdj as [Hdj _]. by apply Forall_app in Hdj as [? _]. }
  exists ((base, base + c) :: R), (Some t). split; [|split].
  - destruct p as [p|].
    + eapply heap_frame; [| | |exact (heap_inv_alloc _ _ l p h Hh1 Hl Ea)]; done.
    + eapply heap_frame; [| | |exact (heap_inv_err _ _ l h Hh1 Hl Ea)]; done.
  - apply thread_same; [destruct p; by revert Ht; apply thread_frame|done|]. destruct p; cbn; unfold tstate_of in *; cbn; by rewrite Et.
  - cbn [owner_range]. rewrite tstate_set, decide_True by done. cbn [pending].
    apply (space_frame _ _ m); [by destruct p|by destruct p|]. split; [done|done|done|by eapply disj_perm|by rewrite <- Hperm].
Qed.

(** ** Every step keeps the invariant *)

(** Requests are for layouts the language can form, on CPUs that exist. A block
    is freed where the cache takes it, or under a layout that is its class's
    own, or is of no class. *)
Definition admissible (m : Machine (H := H)) (e : event) : Prop :=
  match e with
  | EAlloc t cpu l => layout_ok l ∧ (cpu < length (percpu m))%nat
  | EFree t cpu p l => ∃ c, percpu m !! cpu = Some c ∧ (global_layout l = l ∨ (gs_initialized m = true ∧ ready c = true))
  | EVmalloc size => 0 < size <= 2 ^ 47
  | _ => True
  end.

(** The two [expect]s of an expansion: no address space, or no frames to map. *)
Definition expect_fails (m : Machine (H := H)) (e : event) : Prop :=
  match e with
  | ERun t mapped =>
      match tstate_of m t with
      | TReserve l => ∃ chunk, chunk_for align_up (global_layout l) = Ret chunk ∧
          ∀ a, ¬ ∀ x, a <= x < a + Valloc.need_of (chunk * 2) → Valloc.in_free (Valloc.regions (valloc m)) x = true
      | TMap _ _ _ => mapped = false
      | _ => False
      end
  | _ => False
  end.

Lemma inv_still m t s : Inv m → tstate_ok s → in_expansion (tstate_of m t) = false → in_expansion s = false → Inv (set_thread t s m).
Proof. intros (R & o & Hh & Ht & Hs) ? ? ?. by eapply (inv_move R o m). Qed.

Lemma global_alloc_inv m t mapped : Inv m →
  match global_alloc align_up t mapped m with Ret m' => Inv m' | Panic => expect_fails m (ERun t mapped) end.
Proof.
  intros Hinv. pose proof Hinv as (R & o & Hh & Ht & Hs). pose proof (t_ok _ _ Ht t) as Hok. unfold global_alloc, expect_fails.
  destruct (tstate_of m t) as [|l|l|l|l|l|l b c|l b c|] eqn:Et; cbn in Hok.
  - done.
  - apply locked_attempt_inv; by rewrite ?Et.
  - by apply contend_inv.
  - destruct (expanding m); [done|]. apply inv_still; by rewrite ?Et.
  - apply locked_attempt_inv; by rewrite ?Et.
  - destruct (reserve_inv m t l Hinv Et) as (chunk & Ec & Hv). rewrite Ec. cbn [mbind outcome_bind].
    destruct Hv as [[-> Hno]|(raw & v & base & -> & Hb & Hi)]; cbn [mbind outcome_bind]; [by exists chunk|]. by rewrite Hb.
  - destruct mapped; [|done]. exists R, o. split; [by revert Hh; apply heap_frame|]. split; [by apply thread_same; rewrite ?Et|].
    pose proof (owner_self o m t Ht ltac:(by rewrite Et)) as ->. cbn [owner_range] in *. rewrite tstate_set, decide_True by done.
    rewrite Et in Hs. cbn [pending] in *. revert Hs. by apply space_frame.
  - destruct (heap_alloc _ _) as [p h] eqn:Ea. pose proof (grow_inv m t l b c p h Hinv Et Ea) as Hi. by destruct p.
  - by apply release_inv.
Qed.

Lemma heap_exec_inv m e : Inv m → admissible m e → match exec align_up m e with Ret m' => Inv m' | Panic => expect_fails m e end.
Proof.
  intros Hinv Hadm. pose proof Hinv as (R & o & Hh & Ht & Hs). destruct e as [t cpu l|t cpu p l|t mapped|cpu| |size|addr size]; cbn [exec].
  - destruct Hadm as [Hl Hcpu]. destruct (tstate_of m t) eqn:Et; try done. unfold alloc.
    destruct (gs_initialized m); [|apply inv_still; by rewrite ?Et].
    destruct (lookup_lt_is_Some_2 _ _ Hcpu) as [c Hc]. rewrite Hc.
    destruct (alloc_inv R m cpu l c Hh Hl Hc) as (r & h & c' & -> & Hh'). cbn [mbind outcome_bind]. destruct r as [p|].
    + exists R, o. split; [done|]. split; [by revert Ht; apply thread_frame|]. rewrite (owner_frame _ m) by done. revert Hs. by apply space_frame.
    + eapply (inv_move R o m); try done. by rewrite Et.
  - destruct Hadm as (c & Hc & Hexact). destruct (tstate_of m t); try done. case_decide as Hin; [|done].
    destruct (dealloc_inv R m cpu p l c Hh Hin Hc Hexact) as (m' & -> & Hh' & h & pc & ->).
    exists R, o. split; [done|]. split; [by revert Ht; apply thread_frame|]. rewrite (owner_frame _ m) by done. revert Hs. by apply space_frame.
  - by apply global_alloc_inv.
  - destruct (percpu m !! cpu) as [c|] eqn:Hc; [|done]. exists R, o. split.
    { destruct Hh as [Hh Hcs Hl]. destruct (cached_split _ _ _ Hc) as (rest & H1 & H2). split; cbn [set_percpu inner percpu live]; [| |done].
      - revert Hh. apply holds_perm. rewrite H1, H2. done.
      - apply Forall_insert; [done|]. by pose proof (Forall_lookup_1 _ _ _ _ Hcs Hc). }
    split; [by revert Ht; apply thread_frame|]. rewrite (owner_frame _ m) by done. revert Hs. by apply space_frame.
  - exists R, o. split; [by revert Hh; apply heap_frame|]. split; [by revert Ht; apply thread_frame|]. rewrite (owner_frame _ m) by done. revert Hs. by apply space_frame.
  - destruct (vmalloc_spec R (owner_range o m) m size Hs Hadm) as [[-> _]|(a & v & -> & Ha & Hd & Htk & Hs')]; cbn [mbind outcome_bind]; [done|].
    exists R, o. split; [by revert Hh; apply heap_frame|]. split; [by revert Ht; apply thread_frame|]. rewrite (owner_frame _ m) by done.
    destruct Hs' as [Hwf Hb Har Hdj Htak]. cbn [set_valloc set_areas valloc areas] in *.
    assert (Hp : area_range (a, size) :: R ++ owner_range o m ++ (area_range <$> areas m) ≡ₚ R ++ owner_range o m ++ (area_range <$> (a, size) :: areas m)) by (cbn; solve_Permutation).
    split; cbn [set_valloc set_areas valloc areas]; [done|done|by constructor| |].
    + eapply disj_perm; [exact Hp|]. by split.
    + rewrite <- Hp. by constructor.
  - case_decide as Hin; [|done]. destruct (vfree_spec R (owner_range o m) m addr size Hs Hin) as (v & -> & Hs'). cbn [mbind outcome_bind].
    exists R, o. split; [by revert Hh; apply heap_frame|]. split; [by revert Ht; apply thread_frame|]. by rewrite (owner_frame _ m).
Qed.

Lemma boot_inv cpus : Inv (init_heap cpus).
Proof.
  exists [(KERNEL_HEAP, KERNEL_HEAP + KERNEL_HEAP_SIZE)], None. split; [|split].
  - split; cbn [init_heap inner percpu live].
    + eapply holds_perm; [|by apply init_ok]. rewrite app_nil_r. unfold cached. induction cpus; [done|]. cbn [replicate fmap list_fmap]. by rewrite mjoin_cons, <- IHcpus.
    + apply Forall_replicate. split; [done|]. intros i s limit Hs Hl. cbn [percpu_new caches] in Hs.
      apply lookup_replicate in Hs as [-> Hi]. cbn in Hi.
      destruct (lookup_lt_is_Some_2 SIZE_CLASSES i Hi) as [sc Hsc]. destruct (limit_spec i sc Hsc) as (lim & b & El & _ & _ & _ & Hlim & _).
      rewrite El in Hl. injection Hl as <-. split; [done|]. cbn. split; [lia|done].
    + by apply Forall_nil.
  - split; [done| |]; cbn [init_heap expanding]; [by intros t; split|]. split; [done|]. by intros [? ?].
  - split; cbn [init_heap valloc areas owner_range].
    + split; [|cbn; unfold Valloc.MAX_REGIONS; lia]. split; [done|]. split; [done|]. split; [done|]. split; [done|]. split; [done|]. done.
    + intros x. cbn. unfold Valloc.covers. cbn [Valloc.start Valloc.size]. unfold Valloc.VMALLOC_END, DYNAMIC_MEM_START. lia.
    + by apply Forall_nil.
    + cbn. split; [by apply Forall_nil|done].
    + apply Forall_singleton. split; [done|]. intros x. cbn. unfold Valloc.covers. cbn [Valloc.start Valloc.size]. unfold KERNEL_HEAP, KERNEL_HEAP_SIZE, Valloc.VMALLOC_END, DYNAMIC_MEM_START. lia.
Qed.

(** The states a machine reaches from boot. *)
Inductive reach (cpus : nat) : Machine (H := H) → Prop :=
| reach_boot : reach cpus (init_heap cpus)
| reach_step m e m' : reach cpus m → admissible m e → exec align_up m e = Ret m' → reach cpus m'.

Lemma heap_reach_inv cpus m : reach cpus m → Inv m.
Proof.
  induction 1 as [|m e m' _ IH Ha He]; [apply boot_inv|]. pose proof (heap_exec_inv m e IH Ha) as Hx. by rewrite He in Hx.
Qed.

(** ** The theorems *)

(** A live block inside the block the heap has outstanding for it. *)
Lemma live_block R m b : heap_inv R m → b ∈ live m →
  (b.1, global_layout b.2) ∈ cached (percpu m) ++ held (live m) ∧
  lsize b.2 <= lsize (global_layout b.2) ∧ ∀ p, p mod lalign (global_layout b.2) = 0 → p mod lalign b.2 = 0.
Proof.
  intros Hh Hb. pose proof (proj1 (Forall_forall _ _) (h_live _ _ Hh) b Hb) as Hok.
  destruct (global_layout_spec _ Hok) as ((_ & (k & ? & Hk) & _) & Hs & Hdiv). split; [|split; [done|]].
  - apply elem_of_app. right. unfold held. apply list_elem_of_fmap. by exists b.
  - destruct Hok as (_ & (j & ? & Hj) & _). pose proof (Z.pow_pos_nonneg 2 k). pose proof (Z.pow_pos_nonneg 2 j).
    intros p Hp. apply Z.mod_divide; [lia|]. apply Z.mod_divide in Hp; [|lia]. by etransitivity.
Qed.

(** C5 The kernel heap never hands out one byte twice. The runs start at boot and
    interleave, on any number of CPUs, allocations, frees, cache refills and
    drains, heap expansions and other users of the kernel's address space; a
    block of a size class is freed on a CPU whose cache is up, or has exactly the
    layout of its class (the free of another one before the caches are up gives
    the heap a wrong layout, [boot_free_layout]). In every state reached the live
    blocks are pairwise disjoint, non-null and aligned as asked; no live block
    overlaps a cached one; every block the buddy heap has outstanding is live or
    in exactly one cache; every live block lies inside one of the heap's areas,
    none of which overlaps another or an area another user has; no CPU parks more
    than its byte budget in a size class; and the only panics are the two
    [expect]s of an expansion: address space or frames exhausted. *)
Theorem kernel_heap_safe cpus m : reach cpus m →
  disj (block_range <$> live m) ∧
  Forall (λ b, 0 < b.1 ∧ b.1 mod lalign b.2 = 0) (live m) ∧
  (∀ b c, b ∈ live m → c ∈ cached (percpu m) → dis (block_range b) (block_range c)) ∧
  (∃ R, holds (inner m) R (cached (percpu m) ++ held (live m)) ∧ disj (R ++ (area_range <$> areas m)) ∧
     Forall (λ b, ∃ r, r ∈ R ∧ r.1 <= b.1 ∧ b.1 + lsize b.2 <= r.2) (live m)) ∧
  (∀ cpu c i s sc, percpu m !! cpu = Some c → caches c !! i = Some s → SIZE_CLASSES !! i = Some sc → sc * Z.of_nat (count s) <= CACHE_BYTES) ∧
  (∀ e, admissible m e → exec align_up m e = Panic → expect_fails m e).
Proof.
  intros Hr%heap_reach_inv. pose proof Hr as (R & o & Hh & Ht & Hs). destruct (holds_sound _ _ _ (h_holds _ _ Hh)) as [Hd Hp].
  rewrite fmap_app, disj_app in Hd. destruct Hd as (_ & Hdl & Hdc). split_and!.
  - revert Hdl. unfold held. rewrite <- list_fmap_compose. apply disj_shrink. intros b Hb.
    destruct (live_block R m b Hh Hb) as (_ & ? & _). cbn. lia.
  - rewrite Forall_forall. intros b Hb. destruct (live_block R m b Hh Hb) as (Hin & _ & Hdiv).
    destruct (proj1 (Forall_forall _ _) Hp _ Hin) as (Hal & r & Hr' & Hlo & _). cbn in Hal, Hlo. split; [|by apply Hdiv].
    pose proof (s_taken _ _ _ Hs) as Htk. apply Forall_app in Htk as [Htk _]. destruct (proj1 (Forall_forall _ _) Htk r Hr') as [? _]. lia.
  - intros b c Hb Hc. destruct (live_block R m b Hh Hb) as (_ & ? & _). rewrite Forall_fmap, Forall_forall in Hdc.
    specialize (Hdc c Hc). cbn in Hdc. unfold held in Hdc. rewrite !Forall_fmap, Forall_forall in Hdc.
    specialize (Hdc b Hb). unfold dis, block_range in *. cbn in *. lia.
  - exists R. split; [apply Hh|]. split.
    + pose proof (s_disj _ _ _ Hs) as Hds. rewrite !disj_app in Hds. rewrite disj_app. destruct Hds as (H1 & (_ & H3 & _) & H4). split; [done|]. split; [done|].
      eapply Forall_impl; [exact H4|]. intros x Hx. by apply Forall_app in Hx as [_ ?].
    + rewrite Forall_forall. intros b Hb. destruct (live_block R m b Hh Hb) as (Hin & Hsz & _).
      destruct (proj1 (Forall_forall _ _) Hp _ Hin) as (_ & r & Hr' & Hlo & Hhi). cbn in Hlo, Hhi. exists r. split; [done|]. lia.
  - intros cpu c i s sc Hc Hi Hsc. destruct (limit_spec i sc Hsc) as (lim & b & El & _ & _ & _ & _ & Hb).
    pose proof (Forall_lookup_1 _ _ _ _ (h_cpus _ _ Hh) Hc) as [_ Hcs]. destruct (Hcs i s lim Hi El) as (_ & ? & _).
    destruct (class_pow2 i sc Hsc) as [_ ?]. nia.
  - intros e He Hx. pose proof (heap_exec_inv m e Hr He) as Hy. by rewrite Hx in Hy.
Qed.

(** ** An allocation that runs undisturbed ends with a block *)

Fixpoint run (m : Machine (H := H)) (es : list event) : outcome Machine :=
  match es with [] => Ret m | e :: es => m ← exec align_up m e; run m es end.

(** [m'] is what an allocation of [l] by [t] leaves when it has its block. *)
Definition served (t : nat) (l : Layout) (m m' : Machine (H := H)) : Prop :=
  tstate_of m' t = TIdle ∧ ∃ p, live m' = (p, l) :: live m.

Lemma run_grow m t l base c : Inv m → tstate_of m t = TGrow l base c → lsize l <= MIN_EXPANSION → lalign l <= MIN_EXPANSION →
  ∃ m', run m [ERun t true; ERun t true] = Ret m' ∧ served t l m m'.
Proof.
  intros Hinv Et Hs Ha. pose proof Hinv as (R & o & Hh & Ht & Hsp). pose proof (t_ok _ _ Ht t) as Hok. rewrite Et in Hok.
  destruct Hok as (Hl & Ec & Hpow & Hb & Hbm). destruct (global_layout_spec l Hl) as (Hgl & _).
  assert (Hg : lsize (global_layout l) <= MIN_EXPANSION ∧ lalign (global_layout l) <= MIN_EXPANSION).
  { unfold global_layout. destruct (size_class_index _ _) as [j|] eqn:Ej; [|done].
    destruct (size_class_spec _ _ _ Ej) as (sc & Hj & _). rewrite Hj. destruct (class_pow2 j sc Hj). change MIN_EXPANSION with 1048576. cbn. lia. }
  destruct (chunk_for_spec (global_layout l) Hgl) as (c' & Ec' & _ & _ & Hmin). rewrite Ec in Ec'. injection Ec' as <-.
  specialize (Hmin (proj1 Hg) (proj2 Hg)). subst c.
  pose proof (owner_self o m t Ht ltac:(by rewrite Et)) as ->. pose proof (s_disj _ _ _ Hsp) as Hd. cbn [owner_range] in Hd. rewrite Et in Hd. cbn [pending] in Hd.
  destruct (add_serves (inner m) R _ base MIN_EXPANSION (global_layout l) (h_holds _ _ Hh)) as (p & h & Ea); try done; try apply Hg.
  { eapply (disj_perm _ ((base, base + MIN_EXPANSION) :: R ++ (area_range <$> areas m))) in Hd; [|cbn; solve_Permutation].
    destruct Hd as [Hd _]. by apply Forall_app in Hd as [? _]. }
  { apply largest_min. }
  assert (E1 : exec align_up m (ERun t true) = Ret (set_thread t TRelease (set_live ((p, l) :: live m) (set_inner h m)))).
  { cbn [exec]. unfold global_alloc. by rewrite Et, Ea. }
  cbn [run]. rewrite E1. cbn [mbind outcome_bind exec]. unfold global_alloc. rewrite tstate_set, decide_True by done.
  eexists. split; [done|]. split; [by rewrite tstate_set, decide_True|by exists p].
Qed.

(** Address space for one more expansion of the least size. *)
Definition room (m : Machine (H := H)) : Prop :=
  ∃ a, ∀ x, a <= x < a + Valloc.need_of (MIN_EXPANSION * 2) → Valloc.in_free (Valloc.regions (valloc m)) x = true.

Definition small (l : Layout) : Prop := layout_ok l ∧ lsize l <= MIN_EXPANSION ∧ lalign l <= MIN_EXPANSION.

Lemma small_chunk l : small l → chunk_for align_up (global_layout l) = Ret MIN_EXPANSION.
Proof.
  intros (Hl & Hs & Ha). destruct (chunk_for_spec (global_layout l)) as (c & -> & _ & _ & Hmin); [by apply global_layout_spec|]. f_equal.
  unfold global_layout in Hmin. destruct (size_class_index _ _) as [j|] eqn:Ej; [|by apply Hmin].
  destruct (size_class_spec _ _ _ Ej) as (sc & Hj & _). rewrite Hj in Hmin. destruct (class_pow2 j sc Hj).
  change MIN_EXPANSION with 1048576 in *. apply Hmin; cbn; lia.
Qed.

Lemma run_reserve m t l : Inv m → tstate_of m t = TReserve l → small l → room m →
  ∃ m', run m (replicate 4 (ERun t true)) = Ret m' ∧ served t l m m'.
Proof.
  intros Hinv Et Hl [a Ha]. destruct (reserve_inv m t l Hinv Et) as (c & Ec & Hv). rewrite (small_chunk l Hl) in Ec. injection Ec as <-.
  destruct Hv as [[_ Hno]|(raw & v & base & Ev & Eb & Hi)]; [by destruct (Hno a)|].
  assert (E1 : exec align_up m (ERun t true) = Ret (set_thread t (TMap l base MIN_EXPANSION) (set_valloc v m))).
  { cbn [exec]. unfold global_alloc. rewrite Et, (small_chunk l Hl). cbn [mbind outcome_bind]. rewrite Ev. cbn [mbind outcome_bind]. by rewrite Eb. }
  cbn [run replicate]. rewrite E1. cbn [mbind outcome_bind]. set (m1 := set_thread t _ _) in *.
  assert (Et1 : tstate_of m1 t = TMap l base MIN_EXPANSION) by (unfold m1; by rewrite tstate_set, decide_True).
  pose proof (global_alloc_inv m1 t true Hi) as Hi2.
  assert (E2 : global_alloc align_up t true m1 = Ret (set_thread t (TGrow l base MIN_EXPANSION) m1)) by (unfold global_alloc; by rewrite Et1).
  rewrite E2 in Hi2. cbn [exec]. rewrite E2. cbn [mbind outcome_bind].
  destruct (run_grow (set_thread t (TGrow l base MIN_EXPANSION) m1) t l base MIN_EXPANSION Hi2) as (m' & Er & Hserved).
  { by rewrite tstate_set, decide_True. } { apply Hl. } { apply Hl. }
  exists m'. split; [exact Er|]. exact Hserved.
Qed.

Lemma run_global m t l : Inv m → tstate_of m t = TGlobal l → expanding m = false → small l → room m →
  ∃ n m', (n <= 6)%nat ∧ run m (replicate n (ERun t true)) = Ret m' ∧ served t l m m'.
Proof.
  intros Hinv Et Ee Hl Hroom. pose proof (global_alloc_inv m t true Hinv) as Hi.
  assert (E1 : global_alloc align_up t true m = Ret (locked_attempt t l (TContend l) m)) by (unfold global_alloc; by rewrite Et).
  rewrite E1 in Hi. unfold locked_attempt in *. destruct (heap_alloc _ _) as [[p|] h].
  - exists 1%nat. eexists. split; [lia|]. cbn [run replicate exec]. rewrite E1. split; [done|]. split; [by rewrite tstate_set, decide_True|by exists p].
  - set (m1 := set_thread t _ _) in *. assert (Et1 : tstate_of m1 t = TContend l) by (unfold m1; by rewrite tstate_set, decide_True).
    pose proof (contend_inv m1 t l Hi Et1) as Hi2. assert (Ee1 : expanding m1 = false) by done. rewrite Ee1 in Hi2.
    assert (E2 : global_alloc align_up t true m1 = Ret (set_thread t (TReserve l) (set_expanding true m1))) by (unfold global_alloc; by rewrite Et1, Ee1).
    destruct (run_reserve _ t l Hi2) as (m' & Er & Hserved); [by rewrite tstate_set, decide_True|done|exact Hroom|].
    exists 6%nat, m'. split; [done|]. cbn [replicate run exec]. rewrite E1. cbn [mbind outcome_bind]. rewrite E2. cbn [mbind outcome_bind].
    split; [exact Er|]. exact Hserved.
Qed.

(** An allocation of at most 1 MiB that no other context disturbs returns a
    block: the cache hits or is refilled, or the heap has one, or the heap is
    grown and then has one, within six steps of [global_alloc], as long as
    there is address space for an expansion and frames to map it. *)
Theorem small_alloc_served cpus m t cpu l : reach cpus m → admissible m (EAlloc t cpu l) →
  tstate_of m t = TIdle → expanding m = false → lsize l <= MIN_EXPANSION → lalign l <= MIN_EXPANSION → room m →
  ∃ n m', (n <= 6)%nat ∧ run m (EAlloc t cpu l :: replicate n (ERun t true)) = Ret m' ∧ served t l m m'.
Proof.
  intros Hr%heap_reach_inv Hadm Et Ee Hs Ha Hroom. pose proof (heap_exec_inv m _ Hr Hadm) as Hi. destruct Hadm as [Hl Hcpu]. cbn [run exec] in *. rewrite Et in *.
  unfold alloc in *. destruct (gs_initialized m).
  - destruct (percpu m !! cpu) as [c|]; [|done]. destruct (try_percpu_alloc _ _ _) as [[[[p|] h] c']|]; [| |done]; cbn [mbind outcome_bind] in *.
    + exists 0%nat. eexists. split; [lia|]. split; [done|]. split; [done|by exists p].
    + apply (run_global _ t l Hi); [by rewrite tstate_set, decide_True|done|done|done].
  - cbn [mbind outcome_bind]. apply (run_global _ t l Hi); [by rewrite tstate_set, decide_True|done|done|done].
Qed.

(** A free before the caches are up gives the heap a layout the block was
    not allocated under: [global_alloc] rounds the request up to its class, and
    the uncached path of [dealloc] passes the caller's layout through. *)
Theorem boot_free_layout cpus m t cpu p l : reach cpus m → gs_initialized m = false → tstate_of m t = TIdle → (p, l) ∈ live m →
  (∃ R B, holds (inner m) R ((p, global_layout l) :: B)) ∧
  ∃ m', exec align_up m (EFree t cpu p l) = Ret m' ∧ inner m' = heap_dealloc (inner m) p l.
Proof.
  intros (R & o & Hh & _)%heap_reach_inv Egs Et Hin. split.
  - destruct (live_block R m (p, l) Hh Hin) as (Hb & _). apply elem_of_Permutation in Hb as [B HB]. exists R, B.
    eapply holds_perm; [exact HB|]. apply Hh.
  - cbn [exec]. rewrite Et, decide_True by done. unfold dealloc. cbn [set_live gs_initialized]. rewrite Egs. by eexists.
Qed.
End Machine.

(** ** A heap that keeps the promises *)

(** First fit at the starts of the regions and the ends of the blocks. *)
Record FitHeap := mk_fit { fit_regions : list range; fit_blocks : list (Z * Layout) }.

Definition fits (h : FitHeap) (l : Layout) (p : Z) : bool :=
  (p mod lalign l =? 0) &&
  existsb (λ r : range, (r.1 <=? p) && (p + lsize l <=? r.2)) (fit_regions h) &&
  forallb (λ b : Z * Layout, (p + lsize l <=? b.1) || (b.1 + lsize b.2 <=? p)) (fit_blocks h).

Definition candidates (h : FitHeap) (l : Layout) : list Z :=
  (λ x, (x + lalign l - 1) / lalign l * lalign l) <$> ((fit_regions h).*1 ++ ((λ b, b.1 + lsize b.2) <$> fit_blocks h)).

Definition fit_alloc (h : FitHeap) (l : Layout) : option Z * FitHeap :=
  match List.find (fits h l) (candidates h l) with
  | Some p => (Some p, mk_fit (fit_regions h) ((p, l) :: fit_blocks h))
  | None => (None, h)
  end.

#[export] Instance fit_buddy : BuddyHeap FitHeap := {
  heap_empty := mk_fit [] [];
  heap_init h a n := mk_fit [(a, a + n)] [];
  heap_alloc := fit_alloc;
  heap_dealloc h p l := mk_fit (fit_regions h) (remove_one (p, l) (fit_blocks h));
  add_to_heap h a b := mk_fit ((a, b) :: fit_regions h) (fit_blocks h)
}.

Record fit_holds (h : FitHeap) (R : list range) (B : list (Z * Layout)) : Prop := {
  f_regions : fit_regions h = R;
  f_blocks : fit_blocks h ≡ₚ B;
  f_disj : disj (block_range <$> B);
  f_placed : Forall (placed R) B
}.

Lemma fits_spec h l p : fits h l p = true ↔
  placed (fit_regions h) (p, l) ∧ Forall (λ b, dis (p, p + lsize l) (block_range b)) (fit_blocks h).
Proof.
  unfold fits, placed. rewrite !andb_true_iff, Z.eqb_eq, existsb_exists, forallb_forall, Forall_forall. cbn [fst snd].
  setoid_rewrite andb_true_iff. setoid_rewrite orb_true_iff. setoid_rewrite Z.leb_le. setoid_rewrite <- list_elem_of_In.
  unfold dis, block_range. cbn. naive_solver.
Qed.

Lemma fit_alloc_ok h R B l h' p : fit_holds h R B → fit_alloc h l = (Some p, h') → fit_holds h' R ((p, l) :: B).
Proof.
  intros [Hr Hb Hd Hp]. unfold fit_alloc. destruct (List.find _ _) as [q|] eqn:Ef; [|done]. intros [= <- <-].
  apply find_some in Ef as [_ [Hpl Hdis]%fits_spec]. rewrite Hr in Hpl. rewrite Hb in Hdis. split; cbn; [done|by rewrite Hb| |by constructor].
  split; [by rewrite Forall_fmap|done].
Qed.

Lemma fit_perm h R B B' : B ≡ₚ B' → fit_holds h R B → fit_holds h R B'.
Proof. intros E [Hr Hb Hd Hp]. split; [done|by rewrite Hb|eapply disj_perm; [|done]; by rewrite E|by rewrite <- E]. Qed.

Lemma placed_weaken R r b : placed R b → placed (r :: R) b.
Proof. intros (Ha & s & Hs & Hb). split; [done|]. exists s. split; [by right|done]. Qed.

Lemma fit_add h R B a b : fit_holds h R B → fit_holds (add_to_heap h a b) ((a, b) :: R) B.
Proof.
  intros [Hr Hb Hd Hp]. split; cbn; [by rewrite Hr|done|done|]. eapply Forall_impl; [done|]. intros c Hc. by apply placed_weaken.
Qed.

Lemma fit_serves h R B a c l : fit_holds h R B → Forall (dis (a, a + c)) R → pow2 c → a mod c = 0 → layout_ok l → lsize l <= c → lalign l <= c →
  ∃ p h', heap_alloc (add_to_heap h a (a + c)) l = (Some p, h').
Proof.
  intros [Hr Hb Hd Hp] Hdis Hc Ha Hl Hs Hal. cbn. unfold fit_alloc.
  destruct (List.find _ _) as [p|] eqn:Ef; [by eexists _, _|]. exfalso.
  assert (Hla : 0 < lalign l) by (destruct Hl as (_ & (k & ? & ->) & _); by apply Z.pow_pos_nonneg).
  assert (Hc0 : 0 < c) by (destruct Hc as (k & ? & ->); by apply Z.pow_pos_nonneg).
  assert (Hdiv : (lalign l | a)).
  { apply Z.mod_divide in Ha; [|lia]. etransitivity; [|done]. apply pow2_divide; [apply Hl|done|done]. }
  assert (Hin : a ∈ candidates (mk_fit ((a, a + c) :: fit_regions h) (fit_blocks h)) l).
  { unfold candidates. cbn. apply elem_of_cons. left. destruct Hdiv as [q ->]. replace (q * lalign l + lalign l - 1) with (lalign l - 1 + q * lalign l) by lia.
    rewrite Z.div_add, Z.div_small by lia. done. }
  apply list_elem_of_In in Hin. pose proof (find_none _ _ Ef _ Hin) as Hno. apply not_true_iff_false in Hno. apply Hno. apply fits_spec. cbn. split.
  - split; cbn; [by apply Z.mod_divide; [lia|]|]. exists (a, a + c). split; [by left|cbn; lia].
  - rewrite Hb. rewrite Forall_forall in Hdis. rewrite Forall_forall in Hp |- *. intros b Hin'. destruct (Hp b Hin') as (_ & r & Hr' & H1 & H2).
    specialize (Hdis r Hr'). unfold dis, block_range in *. cbn in *. lia.
Qed.

#[export] Instance fit_laws : BuddyLaws FitHeap.
Proof.
  refine {| holds := fit_holds; largest := 2 ^ 31 |}.
  - done.
  - intros h R B [_ _ ? ?]. done.
  - apply fit_perm.
  - intros a n _ _. split; cbn; [done|done|done|by apply Forall_nil].
  - intros h R B l h' p Hh _. by apply fit_alloc_ok.
  - intros h R B l h' Hh _. cbn. unfold fit_alloc. destruct (List.find _ _); [done|]. by intros [= <-].
  - intros h R B p l [Hr Hb Hd Hp]. split; cbn; [done| |by destruct Hd|by apply Forall_cons in Hp as [_ ?]].
    assert (Hin : (p, l) ∈ fit_blocks h) by (rewrite Hb; by left).
    apply (Permutation_cons_inv (a := (p, l))). by rewrite <- (remove_one_perm _ _ Hin).
  - intros h R B a b Hh _ _. by apply fit_add.
  - intros h R B a c l Hh Hd Hc _ Ha _ Hl Hs Hal. by eapply fit_serves.
Defined.

(** ** Concrete runs *)

Definition align_up_pow2 (x a : Z) : outcome Z := Ret ((x + a - 1) / a * a).

(** Admissibility, decided. *)
Definition layout_okb (l : Layout) : bool :=
  (0 <? lsize l) && (0 <? lalign l) && (2 ^ Z.log2 (lalign l) =? lalign l) && (lsize l + lalign l - 1 <=? 2 ^ 63 - 1).

Definition admissibleb (m : Machine (H := FitHeap)) (e : event) : bool :=
  match e with
  | EAlloc t cpu l => layout_okb l && (cpu <? length (percpu m))%nat
  | EFree t cpu p l =>
      match percpu m !! cpu with
      | Some c => bool_decide (global_layout l = l) || (gs_initialized m && ready c)
      | None => false
      end
  | EVmalloc size => (0 <? size) && (size <=? 2 ^ 47)
  | _ => true
  end.

Lemma layout_okb_ok l : layout_okb l = true → layout_ok l.
Proof.
  unfold layout_okb. rewrite !andb_true_iff, !Z.ltb_lt, Z.eqb_eq, Z.leb_le. intros [[[? ?] E] ?]. split; [done|]. split; [|done].
  exists (Z.log2 (lalign l)). split; [apply Z.log2_nonneg|done].
Qed.

Lemma admissibleb_ok m e : admissibleb m e = true → admissible m e.
Proof.
  destruct e as [t cpu l|t cpu p l| | | |size|]; cbn; try done.
  - intros [Hl Hc]%andb_true_iff. split; [by apply layout_okb_ok|by apply Nat.ltb_lt].
  - destruct (percpu m !! cpu) as [c|]; [|done]. intros [Hx%bool_decide_eq_true|[? ?]%andb_true_iff]%orb_true_iff; eauto.
  - lia.
Qed.

Fixpoint checked_run (m : Machine (H := FitHeap)) (es : list event) : option (Machine (H := FitHeap)) :=
  match es with
  | [] => Some m
  | e :: es => if admissibleb m e then match exec align_up_pow2 m e with Ret m => checked_run m es | Panic => None end else None
  end.

Lemma checked_reach cpus es : ∀ m m', reach align_up_pow2 cpus m → checked_run m es = Some m' → reach align_up_pow2 cpus m'.
Proof.
  induction es as [|e es IH]; intros m m' Hm; cbn; [by intros [= <-]|]. destruct (admissibleb m e) eqn:Ea; [|done].
  destruct (exec _ _ _) as [m1|] eqn:Ee; [|done]. apply IH. eapply reach_step; [done|by apply admissibleb_ok|done].
Qed.

(** Two CPUs: a block at boot, the caches come up, two blocks on CPU 0, one of
    them freed on CPU 1, a block larger than the heap grows it. *)
Definition demo_events : list event :=
  [EAlloc 0 0 (mk_layout 24 8); ERun 0 true; EEnable 0; EEnable 1; EMarkGs;
   EAlloc 1 0 (mk_layout 100 4); EAlloc 1 0 (mk_layout 100 4); EFree 2 1 (KERNEL_HEAP + 1024) (mk_layout 100 4);
   EAlloc 0 1 (mk_layout 2000000 8); ERun 0 true; ERun 0 true; ERun 0 true; ERun 0 true; ERun 0 true; ERun 0 true].

Definition demo_machine : Machine (H := FitHeap) := default (init_heap 2) (checked_run (init_heap 2) demo_events).

Lemma heap_demo_reach : reach align_up_pow2 2 demo_machine.
Proof. apply (checked_reach 2 demo_events (init_heap 2)); [constructor|vm_compute; reflexivity]. Qed.

Lemma align_up_pow2_spec x a : pow2 a → 0 <= x → x + a - 1 <= U64_MAX → align_up_pow2 x a = Ret ((x + a - 1) / a * a).
Proof. done. Qed.

Lemma kernel_heap_safe_witness :
  length (live demo_machine) = 3%nat ∧ disj (block_range <$> live demo_machine).
Proof. split; [vm_compute; reflexivity|]. exact (proj1 (kernel_heap_safe align_up_pow2 align_up_pow2_spec 2 demo_machine heap_demo_reach)). Defined.

Lemma boot_room : room (init_heap (H := FitHeap) 2).
Proof.
  exists DYNAMIC_MEM_START. intros x. change (Valloc.need_of (MIN_EXPANSION * 2)) with 2101248. cbn. unfold Valloc.covers. cbn [Valloc.start Valloc.size].
  unfold DYNAMIC_MEM_START, Valloc.VMALLOC_END. lia.
Qed.

Lemma small_alloc_served_witness :
  ∃ n m', (n <= 6)%nat ∧ run align_up_pow2 (init_heap 2) (EAlloc 0 1 (mk_layout 100 8) :: replicate n (ERun 0 true)) = Ret m' ∧
    served 0 (mk_layout 100 8) (init_heap 2) m'.
Proof.
  apply (small_alloc_served align_up_pow2 align_up_pow2_spec 2); [constructor|apply admissibleb_ok; reflexivity|reflexivity|reflexivity|done|done|exact boot_room].
Defined.

(** An eight-byte block allocated during boot, on CPU 0. *)
Definition boot_machine : Machine (H := FitHeap) :=
  default (init_heap 2) (checked_run (init_heap 2) [EAlloc 0 0 (mk_layout 8 8); ERun 0 true]).

Lemma boot_machine_reach : reach align_up_pow2 2 boot_machine.
Proof. apply (checked_reach 2 [EAlloc 0 0 (mk_layout 8 8); ERun 0 true] (init_heap 2)); [constructor|vm_compute; reflexivity]. Qed.

(** The block is 32 bytes to the heap and is given back as 8. *)
Lemma boot_free_layout_witness :
  global_layout (mk_layout 8 8) = mk_layout 32 32 ∧
  (∃ R B, holds (inner boot_machine) R ((KERNEL_HEAP, mk_layout 32 32) :: B)) ∧
  ∃ m', exec align_up_pow2 boot_machine (EFree 0 0 KERNEL_HEAP (mk_layout 8 8)) = Ret m' ∧
    inner m' = heap_dealloc (inner boot_machine) KERNEL_HEAP (mk_layout 8 8).
Proof.
  split; [reflexivity|].
  apply (boot_free_layout align_up_pow2 align_up_pow2_spec 2 boot_machine 0 0 KERNEL_HEAP (mk_layout 8 8) boot_machine_reach); [reflexivity|reflexivity|].
  vm_compute. by left.
Defined.

End HeapSafety.
