(* ===== verification/FrameAlloc.v ===== *)
(** * Physical frame allocator (kernel/src/memory/frame_allocator.rs)

    The bitmap and reference counts of [BitmapFrameAllocator]: single and
    contiguous allocation, freeing and reference counting. A frame is its
    physical start address. *)

From S2P Require Import Prelude EfsBitmap.
Import EfsBitmap.

Module FrameAlloc.

(** ** State *)

Record BitmapFrameAllocator := mk_fa {
  bitmap : list Z;
  refcounts : list Z;
  start_frame : Z;
  frame_count : nat;
  next_free_hint : nat
}.

Definition set_bitmap (s : BitmapFrameAllocator) (bm : list Z) (hint : nat) : BitmapFrameAllocator :=
  mk_fa bm (refcounts s) (start_frame s) (frame_count s) hint.
Definition set_refcount (s : BitmapFrameAllocator) (i : nat) (n : Z) : BitmapFrameAllocator :=
  mk_fa (bitmap s) (<[i := n]> (refcounts s)) (start_frame s) (frame_count s) (next_free_hint s).
Definition set_hint (s : BitmapFrameAllocator) (h : nat) : BitmapFrameAllocator :=
  mk_fa (bitmap s) (refcounts s) (start_frame s) (frame_count s) h.

(** ** Operations *)

Definition frame_to_index (s : BitmapFrameAllocator) (frame : Z) : option nat :=
  if frame <? start_frame s then None
  else
    let index := Z.to_nat ((frame - start_frame s) / 4096) in
    if (frame_count s <=? index)%nat then None else Some index.

Definition index_to_frame (s : BitmapFrameAllocator) (index : nat) : option Z :=
  if (frame_count s <=? index)%nat then None else Some (start_frame s + Z.of_nat index * 4096).

Definition is_frame_allocated (s : BitmapFrameAllocator) (index : nat) : outcome bool :=
  if (frame_count s <=? index)%nat then Ret true
  else v ← byte_at (bitmap s) (index / 8); Ret (negb (Z.land v (bit_mask index) =? 0)).

Definition set_frame_allocated (s : BitmapFrameAllocator) (index : nat) : outcome BitmapFrameAllocator :=
  if (frame_count s <=? index)%nat then Ret s
  else bm ← set_bit (bitmap s) index; Ret (set_bitmap s bm (next_free_hint s)).

Definition set_frame_free (s : BitmapFrameAllocator) (index : nat) : outcome BitmapFrameAllocator :=
  if (frame_count s <=? index)%nat then Ret s
  else
    bm ← clear_bit (bitmap s) index;
    Ret (set_bitmap s bm (if (index <? next_free_hint s)%nat then index else next_free_hint s)).

(** [trailing_zeros] of a [w]-bit value. *)
Fixpoint trailing_zeros (w : nat) (v : Z) : nat :=
  match w with
  | O => O
  | S w' => if Z.odd v then O else S (trailing_zeros w' (Z.div2 v))
  end.

(** [for bi in (byte_idx + 1)..total_bytes], [todo] bytes left. *)
Fixpoint scan_bytes (s : BitmapFrameAllocator) (bi todo : nat) : outcome (option nat) :=
  match todo with
  | O => Ret None
  | S todo' =>
      v ← byte_at (bitmap s) bi;
      if negb (v =? 0xFF) then
        let index := (bi * 8 + trailing_zeros 8 (Z.lxor 255 v))%nat in
        if (index <? frame_count s)%nat then Ret (Some index) else scan_bytes s (bi + 1) todo'
      else scan_bytes s (bi + 1) todo'
  end.

Definition div_ceil8 (n : nat) : nat := ((n + 7) / 8)%nat.

Definition scan_free_from (s : BitmapFrameAllocator) (start : nat) : outcome (option nat) :=
  if (frame_count s <=? start)%nat then Ret None
  else
    let total_bytes := div_ceil8 (frame_count s) in
    let byte_idx := (start / 8)%nat in
    let bit_offset := (start mod 8)%nat in
    let rest := scan_bytes s (byte_idx + 1) (total_bytes - (byte_idx + 1)) in
    if (byte_idx <? total_bytes)%nat then
      let mask := Z.shiftl 1 (Z.of_nat bit_offset) - 1 in
      v ← byte_at (bitmap s) byte_idx;
      let byte := Z.lor v mask in
      if negb (byte =? 0xFF) then
        let index := (byte_idx * 8 + trailing_zeros 8 (Z.lxor 255 byte))%nat in
        if (index <? frame_count s)%nat then Ret (Some index) else rest
      else rest
    else rest.

Definition find_free_frame (s : BitmapFrameAllocator) : outcome (option nat * BitmapFrameAllocator) :=
  r ← scan_free_from s (next_free_hint s);
  match r with
  | Some idx => Ret (Some idx, set_hint s (idx + 1))
  | None =>
      if (0 <? next_free_hint s)%nat then
        r ← scan_free_from s 0;
        match r with
        | Some idx => Ret (Some idx, set_hint s (idx + 1))
        | None => Ret (None, s)
        end
      else Ret (None, s)
  end.

Definition refcount_at (s : BitmapFrameAllocator) (i : nat) : outcome Z :=
  match refcounts s !! i with Some n => Ret n | None => Panic end.

(** [debug_assert!(refcounts[i] == 0); set_frame_allocated(i); refcounts[i] = 1] *)
Definition claim_frame (s : BitmapFrameAllocator) (i : nat) : outcome BitmapFrameAllocator :=
  n ← refcount_at s i;
  if n =? 0 then s ← set_frame_allocated s i; Ret (set_refcount s i 1) else Panic.

Definition allocate_frame (s : BitmapFrameAllocator) : outcome (option Z * BitmapFrameAllocator) :=
  '(r, s) ← find_free_frame s;
  match r with
  | Some index => s ← claim_frame s index; Ret (index_to_frame s index, s)
  | None => Ret (None, s)
  end.

Fixpoint claim_frames (s : BitmapFrameAllocator) (idx count : nat) : outcome BitmapFrameAllocator :=
  match count with
  | O => Ret s
  | S count' => s ← claim_frame s idx; claim_frames s (idx + 1) count'
  end.

(** The inner loop: the run reached, and the index the outer loop goes on from.
    A turn lengthens the run or leaves the loop, so [count + 1] turns are
    enough. *)
Fixpoint extend_run (fuel : nat) (s : BitmapFrameAllocator) (idx count run : nat) : outcome (nat * nat) :=
  match fuel with
  | O => Panic
  | S fuel' =>
      if (run <? count)%nat then
        let pos := (idx + run)%nat in
        whole ← (if (pos mod 8 =? 0)%nat && (run + 8 <=? count)%nat
                 then v ← byte_at (bitmap s) (pos / 8); Ret (v =? 0) else Ret false);
        if whole : bool then extend_run fuel' s idx count (run + 8)
        else
          a ← is_frame_allocated s pos;
          if a : bool then Ret (run, (pos + 1)%nat)
          else extend_run fuel' s idx count (run + 1)
      else Ret (run, idx)
  end.

(** The outer loop moves [idx] towards [max_start] each turn. *)
Fixpoint contiguous_loop (fuel : nat) (s : BitmapFrameAllocator) (count max_start idx : nat)
    : outcome (option Z * BitmapFrameAllocator) :=
  match fuel with
  | O => Panic
  | S fuel' =>
      if (idx <=? max_start)%nat then
        full ← (if (idx mod 8 =? 0)%nat then v ← byte_at (bitmap s) (idx / 8); Ret (v =? 0xFF)
                else Ret false);
        if full : bool then contiguous_loop fuel' s count max_start (idx + 8)
        else
          a ← is_frame_allocated s idx;
          if a : bool then contiguous_loop fuel' s count max_start (idx + 1)
          else
            '(run, idx) ← extend_run (S count) s idx count 1;
            if (count <=? run)%nat then
              s ← claim_frames s idx count;
              let s := set_hint s (idx + count) in
              Ret (index_to_frame s idx, s)
            else contiguous_loop fuel' s count max_start idx
      else Ret (None, s)
  end.

Definition allocate_contiguous_frames (s : BitmapFrameAllocator) (count : nat)
    : outcome (option Z * BitmapFrameAllocator) :=
  if (count =? 0)%nat then Ret (None, s)
  else if (count =? 1)%nat then allocate_frame s
  else
    let max_start := (frame_count s - count)%nat in
    contiguous_loop (S (S (frame_count s))) s count max_start 0.

(** Dropping one reference; the last one frees the frame. *)
Definition release (s : BitmapFrameAllocator) (idx : nat) : outcome BitmapFrameAllocator :=
  n ← refcount_at s idx;
  if 1 <? n then Ret (set_refcount s idx (n - 1)) else set_frame_free (set_refcount s idx 0) idx.

Fixpoint release_from (s : BitmapFrameAllocator) (idx count : nat) : outcome BitmapFrameAllocator :=
  match count with
  | O => Ret s
  | S count' =>
      s ← (if (idx <? frame_count s)%nat then release s idx else Ret s);
      release_from s (idx + 1) count'
  end.

Definition deallocate_contiguous_frames (s : BitmapFrameAllocator) (frame : Z) (count : nat)
    : outcome BitmapFrameAllocator :=
  match frame_to_index s frame with
  | Some start_idx => release_from s start_idx count
  | None => Ret s
  end.

Definition deallocate_frame (s : BitmapFrameAllocator) (frame : Z) : outcome BitmapFrameAllocator :=
  match frame_to_index s frame with
  | Some index => n ← refcount_at s index; if 0 <? n then release s index else Panic
  | None => Ret s
  end.

Definition refcount (s : BitmapFrameAllocator) (frame : Z) : outcome Z :=
  match frame_to_index s frame with Some idx => refcount_at s idx | None => Ret 0 end.

Definition inc_refcount (s : BitmapFrameAllocator) (frame : Z) : outcome BitmapFrameAllocator :=
  match frame_to_index s frame with
  | Some idx => n ← refcount_at s idx; if n + 1 <=? U16_MAX then Ret (set_refcount s idx (n + 1)) else Panic
  | None => Ret s
  end.

Definition dec_refcount (s : BitmapFrameAllocator) (frame : Z) : outcome (Z * BitmapFrameAllocator) :=
  match frame_to_index s frame with
  | Some idx => n ← refcount_at s idx; if 0 <? n then Ret (n - 1, set_refcount s idx (n - 1)) else Panic
  | None => Ret (0, s)
  end.

(** [byte.count_ones()] *)
Fixpoint count_ones (w : nat) (v : Z) : nat :=
  match w with
  | O => O
  | S w' => ((if Z.odd v then 1 else 0) + count_ones w' (Z.div2 v))%nat
  end.

(** Total, allocated and free frames; the subtraction is checked. *)
Definition stats (s : BitmapFrameAllocator) : outcome (nat * nat * nat) :=
  let allocated := foldr (λ b n, (count_ones 8 b + n)%nat) O (bitmap s) in
  if (allocated <=? frame_count s)%nat
  then Ret (frame_count s, allocated, (frame_count s - allocated)%nat) else Panic.

(** ** The invariant *)

(** Storage covers the frames, and a frame the bitmap offers has no owner. *)
Record inv (s : BitmapFrameAllocator) : Prop := {
  inv_bytes : Forall byte_ok (bitmap s);
  inv_bitmap : (frame_count s <= 8 * length (bitmap s))%nat;
  inv_refcounts : (frame_count s <= length (refcounts s))%nat;
  inv_free : ∀ i, (i < frame_count s)%nat → used (bitmap s) i = false → refcounts s !!! i = 0
}.

(** ** Scanning *)

Lemma trailing_zeros_ones w v : trailing_zeros w (Z.lnot v) = trailing_ones w v.
Proof.
  revert v; induction w as [|w IH]; intros v; cbn [trailing_zeros trailing_ones]; [done|].
  rewrite <- !Z.bit0_odd, Z.lnot_spec by lia.
  destruct (Z.testbit v 0) eqn:E; cbn [negb]; [|done]. f_equal. rewrite <- IH. f_equal.
  apply Z.bits_inj'. intros i Hi. rewrite testbit_div2, !Z.lnot_spec, testbit_div2 by lia. done.
Qed.

Lemma trailing_ones_ext w v v' :
  (∀ i, 0 <= i < Z.of_nat w → Z.testbit v i = Z.testbit v' i) → trailing_ones w v = trailing_ones w v'.
Proof.
  revert v v'; induction w as [|w IH]; intros v v' H; cbn [trailing_ones]; [done|].
  rewrite <- !Z.bit0_odd, H by lia. destruct (Z.testbit v' 0); [|done]. f_equal. apply IH.
  intros i Hi. rewrite !testbit_div2 by lia. apply H. lia.
Qed.

(** The complement of a byte has a zero tail where the byte has a one tail. *)
Lemma tz_byte v : trailing_zeros 8 (Z.lxor 255 v) = trailing_ones 8 v.
Proof.
  rewrite <- (Z.lnot_involutive (Z.lxor 255 v)), trailing_zeros_ones. apply trailing_ones_ext.
  intros i Hi. rewrite Z.lnot_spec, Z.lxor_spec by lia. change 255 with (Z.ones 8).
  rewrite Z.ones_spec_low by lia. by destruct (Z.testbit v i).
Qed.

Lemma used_byte bm bi k : (k < 8)%nat → used bm (bi * 8 + k) = Z.testbit (bm !!! bi) (Z.of_nat k).
Proof.
  intros Hk. unfold used. rewrite Nat.add_comm, Nat.div_add, Nat.Div0.mod_add by lia.
  by rewrite Nat.div_small, Nat.mod_small by lia.
Qed.

(** The first clear bit of a byte that is not full. *)
Lemma byte_first v : byte_ok v → v ≠ 255 →
  (trailing_ones 8 v < 8)%nat ∧ (∀ k, (k < trailing_ones 8 v)%nat → Z.testbit v (Z.of_nat k) = true) ∧
  Z.testbit v (Z.of_nat (trailing_ones 8 v)) = false.
Proof.
  intros Hv Hne. destruct (trailing_ones_spec 8 v) as (_ & H2 & H3).
  pose proof (trailing_ones_lt 8 v Hv Hne). auto.
Qed.

Definition scan_answer (s : BitmapFrameAllocator) (from : nat) (r : option nat) : Prop :=
  match r with
  | Some i => (from <= i < frame_count s)%nat ∧ used (bitmap s) i = false ∧
              ∀ j, (from <= j < i)%nat → used (bitmap s) j = true
  | None => ∀ j, (from <= j < frame_count s)%nat → used (bitmap s) j = true
  end.

(** Deciding one byte: its first clear bit below the limit, or on to the next
    byte with everything passed taken. [v'] is the byte with the bits below
    [from] masked in. *)
Lemma scan_byte s bi from v' rest :
  inv s → (bi * 8 <= from < bi * 8 + 8)%nat → (from < frame_count s)%nat → byte_ok v' →
  (∀ k, (k < 8)%nat → Z.testbit v' (Z.of_nat k) = (bi * 8 + k <? from)%nat || used (bitmap s) (bi * 8 + k)) →
  (∃ r, rest = Ret r ∧ scan_answer s (bi * 8 + 8) r) →
  ∃ r, (if negb (v' =? 255) then
          if (bi * 8 + trailing_zeros 8 (Z.lxor 255 v') <? frame_count s)%nat
          then Ret (Some (bi * 8 + trailing_zeros 8 (Z.lxor 255 v'))%nat) else rest
        else rest) = Ret r ∧ scan_answer s from r.
Proof.
  intros Hinv Hbi Hfrom Hb Hv (r & -> & Hr). rewrite tz_byte.
  assert (Hskip : (∀ j, (from <= j < bi * 8 + 8)%nat → (j < frame_count s)%nat → used (bitmap s) j = true) →
    scan_answer s from r).
  { intros Hall. destruct r as [i|]; cbn [scan_answer] in *.
    - destruct Hr as (? & ? & Hj). split_and!; [lia|lia|done|]. intros j Hjj.
      destruct (Nat.lt_ge_cases j (bi * 8 + 8)); [apply Hall; lia|apply Hj; lia].
    - intros j Hj. destruct (Nat.lt_ge_cases j (bi * 8 + 8)); [apply Hall; lia|apply Hr; lia]. }
  assert (Hbit : ∀ j, (from <= j < bi * 8 + 8)%nat → Z.testbit v' (Z.of_nat (j - bi * 8)) = used (bitmap s) j).
  { intros j Hj. rewrite Hv by lia. replace (bi * 8 + (j - bi * 8))%nat with j by lia.
    by rewrite (proj2 (Nat.ltb_ge _ _)) by lia. }
  destruct (Z.eqb_spec v' 255) as [->|Hne]; cbn [negb].
  - eexists. split; [done|]. apply Hskip. intros j Hj _. rewrite <- Hbit by done.
    change 255 with (Z.ones 8). apply Z.ones_spec_low. lia.
  - destruct (byte_first v' Hb Hne) as (Ht & Hones & Hzero). set (t := trailing_ones 8 v') in *.
    assert (Hft : (from <= bi * 8 + t)%nat ∧ used (bitmap s) (bi * 8 + t) = false).
    { rewrite Hv in Hzero by lia. apply orb_false_elim in Hzero as [H1 H2]. apply Nat.ltb_ge in H1. auto. }
    destruct (Nat.ltb_spec (bi * 8 + t) (frame_count s)).
    + eexists. split; [done|]. split_and!; try tauto; try lia. intros j Hj. rewrite <- Hbit by lia. apply Hones. lia.
    + eexists. split; [done|]. apply Hskip. intros j Hj Hjc. rewrite <- Hbit by lia. apply Hones. lia.
Qed.

Lemma div_ceil8_le n m : (n <= 8 * m)%nat → (div_ceil8 n <= m)%nat.
Proof. intros H. unfold div_ceil8. apply Nat.lt_succ_r, Nat.Div0.div_lt_upper_bound. lia. Qed.
Lemma div_ceil8_ge n : (n <= 8 * div_ceil8 n)%nat.
Proof. unfold div_ceil8. pose proof (Nat.div_mod_eq (n + 7) 8). pose proof (Nat.mod_upper_bound (n + 7) 8). lia. Qed.

Lemma scan_bytes_spec s : inv s → ∀ todo bi, (bi + todo = div_ceil8 (frame_count s))%nat →
  ∃ r, scan_bytes s bi todo = Ret r ∧ scan_answer s (bi * 8) r.
Proof.
  intros Hinv. pose proof (div_ceil8_le _ _ (inv_bitmap s Hinv)). pose proof (div_ceil8_ge (frame_count s)).
  induction todo as [|todo IH]; intros bi Hbi; cbn [scan_bytes].
  - eexists. split; [done|]. intros j Hj. lia.
  - rewrite byte_at_ok by lia. cbn [mbind outcome_bind].
    destruct (Nat.lt_ge_cases (bi * 8) (frame_count s)) as [Hlt|Hge].
    + apply scan_byte; try done; try lia.
      * apply (Forall_lookup_1 _ _ bi _ (inv_bytes s Hinv)). apply list_lookup_lookup_total_lt. lia.
      * intros k Hk. rewrite (proj2 (Nat.ltb_ge _ _)) by lia. by rewrite used_byte.
      * replace (bi * 8 + 8)%nat with ((bi + 1) * 8)%nat by lia. apply IH. lia.
    + destruct (IH (bi + 1)%nat ltac:(lia)) as (r & -> & Hr).
      assert (Hn : r = None) by (destruct r as [i|]; [destruct Hr; lia|done]). subst r.
      rewrite tz_byte. exists None. split; [|intros j Hj; lia].
      destruct (negb _); [|done]. by rewrite (proj2 (Nat.ltb_ge _ _)) by lia.
Qed.

Lemma scan_free_from_spec s from : inv s → ∃ r, scan_free_from s from = Ret r ∧ scan_answer s from r.
Proof.
  intros Hinv. unfold scan_free_from. destruct (Nat.leb_spec (frame_count s) from) as [Hge|Hlt].
  { exists None. split; [done|]. intros j Hj. lia. }
  pose proof (div_ceil8_le _ _ (inv_bitmap s Hinv)). pose proof (div_ceil8_ge (frame_count s)).
  pose proof (Nat.div_mod_eq from 8) as Hdm. pose proof (mod8_lt from) as Hm8.
  assert (Hbi : (from / 8 < div_ceil8 (frame_count s))%nat) by lia.
  rewrite (proj2 (Nat.ltb_lt _ _) Hbi). rewrite byte_at_ok by lia. cbn [mbind outcome_bind].
  set (v := bitmap s !!! (from / 8)%nat).
  assert (Hv : byte_ok v).
  { apply (Forall_lookup_1 _ _ (from / 8) _ (inv_bytes s Hinv)). apply list_lookup_lookup_total_lt. lia. }
  assert (Hmask : Z.shiftl 1 (Z.of_nat (from mod 8)) - 1 = Z.ones (Z.of_nat (from mod 8))).
  { rewrite Z.shiftl_1_l, Z.ones_equiv. lia. }
  rewrite Hmask. apply scan_byte; try done; try lia.
  - apply byte_ok_bits; [apply Z.lor_nonneg; split; [unfold byte_ok in Hv; lia|rewrite Z.ones_equiv; lia]|].
    intros i Hi. rewrite Z.lor_spec, byte_high, Z.ones_spec_high by (done || lia). done.
  - intros k Hk. rewrite Z.lor_spec, used_byte by done. fold v. rewrite orb_comm. f_equal.
    rewrite Z.testbit_ones_nonneg by lia.
    destruct (Z.ltb_spec (Z.of_nat k) (Z.of_nat (from mod 8))), (Nat.ltb_spec (from / 8 * 8 + k) from); try done; lia.
  - replace (from / 8 * 8 + 8)%nat with ((from / 8 + 1) * 8)%nat by lia. apply scan_bytes_spec; [done|lia].
Qed.

(** ** Claiming frames *)

Definition in_run (i n k : nat) : bool := (i <=? k)%nat && (k <? i + n)%nat.

Record claimed (s s' : BitmapFrameAllocator) (i n : nat) : Prop := {
  cl_inv : inv s';
  cl_geometry : start_frame s' = start_frame s ∧ frame_count s' = frame_count s;
  cl_used : ∀ k, used (bitmap s') k = in_run i n k || used (bitmap s) k;
  cl_refs : ∀ k, refcounts s' !!! k = if in_run i n k then 1 else refcounts s !!! k
}.

Lemma claimed_hint s s' i n h : claimed s s' i n → claimed s (set_hint s' h) i n.
Proof. intros [Hinv ? ? ?]. split; try done. destruct Hinv. by split. Qed.

Lemma claim_frame_spec s i :
  inv s → (i < frame_count s)%nat → used (bitmap s) i = false →
  ∃ s', claim_frame s i = Ret s' ∧ claimed s s' i 1.
Proof.
  intros Hinv Hi Hu. pose proof (inv_free s Hinv i Hi Hu) as Hr. destruct Hinv.
  unfold claim_frame, refcount_at. rewrite (list_lookup_lookup_total_lt (refcounts s) i) by lia.
  rewrite Hr. cbn [mbind outcome_bind Z.eqb]. unfold set_frame_allocated.
  rewrite (proj2 (Nat.leb_gt _ _)) by lia.
  destruct (set_bit_spec (bitmap s) i) as (bm & Hset & Hlen & Hus); [lia|]. rewrite Hset. cbn [mbind outcome_bind].
  eexists. split; [done|].
  assert (Hus' : ∀ k, used bm k = in_run i 1 k || used (bitmap s) k).
  { intros k. rewrite Hus. unfold in_run.
    destruct (Nat.eqb_spec k i), (Nat.leb_spec i k), (Nat.ltb_spec k (i + 1)); try done; lia. }
  assert (Hrefs : ∀ k, <[i := 1]> (refcounts s) !!! k = if in_run i 1 k then 1 else refcounts s !!! k).
  { intros k. destruct (Nat.eq_dec k i) as [->|Hne].
    - rewrite list_lookup_total_insert_eq by lia. unfold in_run.
      by rewrite (proj2 (Nat.leb_le _ _)), (proj2 (Nat.ltb_lt _ _)) by lia.
    - rewrite list_lookup_total_insert_ne by done. unfold in_run.
      destruct (Nat.leb_spec i k), (Nat.ltb_spec k (i + 1)); try done; lia. }
  split; [|done|done|done]. split; cbn [set_refcount set_bitmap bitmap refcounts frame_count].
  - by eapply set_bit_bytes.
  - by rewrite Hlen.
  - by rewrite length_insert.
  - intros k Hk. rewrite Hus', Hrefs. destruct (in_run i 1 k); [done|]. by apply inv_free0.
Qed.

Lemma claim_frames_spec n : ∀ s i,
  inv s → (i + n <= frame_count s)%nat → free_range (bitmap s) i n →
  ∃ s', claim_frames s i n = Ret s' ∧ claimed s s' i n.
Proof.
  induction n as [|n IH]; intros s i Hinv Hi Hr; cbn [claim_frames].
  - exists s. split; [done|]. assert (Hn : ∀ k, in_run i 0 k = false).
    { intros k. unfold in_run. destruct (Nat.leb_spec i k), (Nat.ltb_spec k (i + 0)); try done; lia. }
    split; try done; intros k; by rewrite Hn.
  - destruct (claim_frame_spec s i Hinv ltac:(lia) (Hr i ltac:(lia))) as (s1 & -> & [Hinv1 [Hs1 Hf1] Hu1 Hr1]).
    cbn [mbind outcome_bind].
    destruct (IH s1 (i + 1)%nat Hinv1 ltac:(lia)) as (s2 & -> & [Hinv2 [Hs2 Hf2] Hu2 Hr2]).
    { intros k Hk. rewrite Hu1, Hr by lia. unfold in_run.
      destruct (Nat.leb_spec i k), (Nat.ltb_spec k (i + 1)); try done; lia. }
    assert (Hrun : ∀ k, in_run i (S n) k = in_run (i + 1) n k || in_run i 1 k).
    { intros k. unfold in_run. destruct (Nat.leb_spec i k), (Nat.ltb_spec k (i + S n)), (Nat.leb_spec (i + 1) k),
        (Nat.ltb_spec k (i + 1 + n)), (Nat.ltb_spec k (i + 1)); try done; lia. }
    exists s2. split; [done|]. split; [done|split; congruence| |]; intros k.
    + by rewrite Hu2, Hu1, Hrun, orb_assoc.
    + rewrite Hr2, Hr1, Hrun. by destruct (in_run (i + 1) n k), (in_run i 1 k).
Qed.

Lemma is_allocated_ok s i : inv s → (i < frame_count s)%nat → is_frame_allocated s i = Ret (used (bitmap s) i).
Proof.
  intros [] Hi. unfold is_frame_allocated. rewrite (proj2 (Nat.leb_gt _ _)) by lia.
  rewrite byte_at_ok by (apply div8_lt; lia). cbn [mbind outcome_bind]. by rewrite land_mask, negb_involutive.
Qed.

(** ** Single frames *)

Lemma find_free_frame_spec s : inv s →
  ∃ r h, find_free_frame s = Ret (r, set_hint s h) ∧ scan_answer s 0 None ∧ r = None ∨
  ∃ i h, find_free_frame s = Ret (Some i, set_hint s h) ∧ (i < frame_count s)%nat ∧ used (bitmap s) i = false.
Proof.
  intros Hinv. unfold find_free_frame.
  destruct (scan_free_from_spec s (next_free_hint s) Hinv) as (r & -> & Hr). cbn [mbind outcome_bind].
  assert (Hid : s = set_hint s (next_free_hint s)) by by destruct s.
  destruct r as [i|]; [exists None, O; right; exists i, (i + 1)%nat; destruct Hr as (? & ? & _); split_and!; (done || lia)|].
  destruct (Nat.ltb_spec 0 (next_free_hint s)).
  - destruct (scan_free_from_spec s 0 Hinv) as (r & -> & Hr0). cbn [mbind outcome_bind].
    destruct r as [i|]; [exists None, O; right; exists i, (i + 1)%nat; destruct Hr0 as (? & ? & _); split_and!; (done || lia)|].
    exists None, (next_free_hint s). left. rewrite <- Hid. done.
  - exists None, (next_free_hint s). left. rewrite <- Hid. split_and!; try done. intros j Hj. apply Hr. lia.
Qed.

(** What an allocation of [n] consecutive frames promises. *)
Definition alloc_post (s : BitmapFrameAllocator) (n : nat) (r : option Z) (s' : BitmapFrameAllocator) : Prop :=
  match r with
  | Some f => ∃ i, f = start_frame s + Z.of_nat i * 4096 ∧ (i + n <= frame_count s)%nat ∧
                free_range (bitmap s) i n ∧ claimed s s' i n
  | None => bitmap s' = bitmap s ∧ refcounts s' = refcounts s ∧
            ∀ i, (i + n <= frame_count s)%nat → ¬ free_range (bitmap s) i n
  end.

Lemma allocate_frame_spec s : inv s → ∃ r s', allocate_frame s = Ret (r, s') ∧ alloc_post s 1 r s'.
Proof.
  intros Hinv. unfold allocate_frame.
  destruct (find_free_frame_spec s Hinv) as (r & h & [(-> & Hall & ->)|(i & h' & -> & Hi & Hu)]); cbn [mbind outcome_bind].
  - eexists _, _. split; [done|]. split_and!; try done. intros i Hi Hr.
    specialize (Hall i ltac:(lia)). by rewrite Hr in Hall by lia.
  - assert (Hinv' : inv (set_hint s h')) by (destruct Hinv; by split).
    destruct (claim_frame_spec (set_hint s h') i Hinv' Hi Hu) as (s1 & -> & Hcl). cbn [mbind outcome_bind].
    pose proof (cl_geometry _ _ _ _ Hcl) as [Hs Hf]. unfold index_to_frame. rewrite Hf, Hs.
    cbn [set_hint start_frame frame_count]. rewrite (proj2 (Nat.leb_gt _ _)) by done.
    eexists _, _. split; [done|]. exists i. split_and!; [done|lia| |].
    + intros k Hk. by replace k with i by lia.
    + destruct Hcl as [? ? Hcu Hcr]. by split.
Qed.

(** ** Contiguous frames *)

Lemma zero_byte bm pos : (pos mod 8 = 0)%nat → bm !!! (pos / 8)%nat = 0 →
  ∀ k, (pos <= k < pos + 8)%nat → used bm k = false.
Proof.
  intros Hm Hv k Hk. pose proof (Nat.div_mod_eq pos 8).
  replace k with (pos / 8 * 8 + (k - pos))%nat by lia. rewrite used_byte by lia. rewrite Hv. apply Z.bits_0.
Qed.

(** The inner loop either completes the run or stops at a taken frame. *)
Lemma extend_run_spec s idx count : inv s → (idx + count <= frame_count s)%nat → ∀ fuel run,
  (count < fuel + run)%nat → (0 < fuel)%nat → (run <= count)%nat → free_range (bitmap s) idx run →
  ∃ run' idx', extend_run fuel s idx count run = Ret (run', idx') ∧
    ((run' = count ∧ idx' = idx ∧ free_range (bitmap s) idx count) ∨
     ((run' < count)%nat ∧ idx' = (idx + run' + 1)%nat ∧ used (bitmap s) (idx + run') = true)).
Proof.
  intros Hinv Hfit. pose proof (inv_bitmap s Hinv).
  induction fuel as [|fuel IH]; intros run Hf Hpos Hrun Hr; [lia|]. cbn [extend_run].
  destruct (Nat.ltb_spec run count) as [Hlt|Hge].
  2: { eexists _, _. split; [done|]. left. replace run with count in * by lia. done. }
  assert (Hwhole : (if ((idx + run) mod 8 =? 0)%nat && (run + 8 <=? count)%nat
      then v ← byte_at (bitmap s) ((idx + run) / 8); Ret (v =? 0) else Ret false) =
      Ret (((idx + run) mod 8 =? 0)%nat && (run + 8 <=? count)%nat && (bitmap s !!! ((idx + run) / 8)%nat =? 0))).
  { destruct (_ && _); [|done]. by rewrite byte_at_ok by (apply div8_lt; lia). }
  rewrite Hwhole. cbn [mbind outcome_bind]. destruct (_ && _ && _) eqn:Ew.
  - apply andb_prop in Ew as [Ew Ev]. apply andb_prop in Ew as [Em Ec].
    apply Nat.eqb_eq in Em. apply Nat.leb_le in Ec. apply Z.eqb_eq in Ev. apply IH; try lia.
    intros k Hk. destruct (Nat.lt_ge_cases k (idx + run)); [apply Hr; lia|].
    apply (zero_byte (bitmap s) (idx + run) Em Ev). lia.
  - rewrite is_allocated_ok by (done || lia). cbn [mbind outcome_bind].
    destruct (used (bitmap s) (idx + run)) eqn:Eu.
    + eexists _, _. split; [done|]. right. done.
    + apply IH; try lia. intros k Hk. destruct (Nat.eq_dec k (idx + run)%nat) as [->|]; [done|]. apply Hr. lia.
Qed.

Lemma contiguous_loop_spec s count : inv s → (1 <= count <= frame_count s)%nat → ∀ fuel idx,
  (frame_count s - count + 1 < fuel + idx)%nat → (0 < fuel)%nat →
  (∀ i, (i < idx)%nat → (i + count <= frame_count s)%nat → ¬ free_range (bitmap s) i count) →
  ∃ r s', contiguous_loop fuel s count (frame_count s - count) idx = Ret (r, s') ∧ alloc_post s count r s'.
Proof.
  intros Hinv Hcount. pose proof (inv_bitmap s Hinv).
  induction fuel as [|fuel IH]; intros idx Hf Hpos Hprev; [lia|]. cbn [contiguous_loop].
  destruct (Nat.leb_spec idx (frame_count s - count)) as [Hle|Hgt].
  2: { eexists _, _. split; [done|]. split_and!; try done. intros i Hi. apply Hprev; lia. }
  assert (Hskip : ∀ n, (0 < n)%nat → (∀ k, (idx <= k < idx + n)%nat → used (bitmap s) k = true) →
    ∀ i, (i < idx + n)%nat → (i + count <= frame_count s)%nat → ¬ free_range (bitmap s) i count).
  { intros n Hn Hu i Hi Hic Hr. destruct (Nat.lt_ge_cases i idx); [by eapply Hprev|].
    specialize (Hu i ltac:(lia)). by rewrite Hr in Hu by lia. }
  assert (Hfull : (if (idx mod 8 =? 0)%nat then v ← byte_at (bitmap s) (idx / 8); Ret (v =? 255) else Ret false) =
      Ret ((idx mod 8 =? 0)%nat && (bitmap s !!! (idx / 8)%nat =? 255))).
  { destruct (idx mod 8 =? 0)%nat; [|done]. by rewrite byte_at_ok by (apply div8_lt; lia). }
  rewrite Hfull. cbn [mbind outcome_bind]. destruct (_ && _) eqn:Ef.
  { apply andb_prop in Ef as [Em Ev]. apply Nat.eqb_eq in Em. apply Z.eqb_eq in Ev.
    apply IH; [lia|lia|]. apply Hskip; [lia|]. by apply full_byte. }
  rewrite is_allocated_ok by (done || lia). cbn [mbind outcome_bind].
  destruct (used (bitmap s) idx) eqn:Eu.
  { apply IH; [lia|lia|]. apply Hskip; [lia|]. intros k Hk. by replace k with idx by lia. }
  destruct (extend_run_spec s idx count Hinv ltac:(lia) (S count) 1) as (run & idx' & -> & Hrun); [lia|lia|lia| |].
  { intros k Hk. by replace k with idx by lia. }
  cbn [mbind outcome_bind]. destruct Hrun as [(-> & -> & Hr)|(Hlt & -> & Hu)].
  - rewrite (proj2 (Nat.leb_le _ _)) by done.
    destruct (claim_frames_spec count s idx Hinv ltac:(lia) Hr) as (s1 & -> & Hcl). cbn [mbind outcome_bind].
    pose proof (cl_geometry _ _ _ _ Hcl) as [Hs Hfc]. unfold index_to_frame.
    cbn [set_hint start_frame frame_count]. rewrite Hfc, Hs, (proj2 (Nat.leb_gt _ _)) by lia.
    eexists _, _. split; [done|]. exists idx. split_and!; [done|lia|done|by apply claimed_hint].
  - rewrite (proj2 (Nat.leb_gt _ _)) by done. apply IH; [lia|lia|].
    intros i Hi Hic Hr. destruct (Nat.lt_ge_cases i idx); [by eapply Hprev|]. by rewrite Hr in Hu by lia.
Qed.

(** Frame allocation is safe and complete: for any run length that fits
    the memory, the allocator never panics and either returns the first frame of
    consecutive frames that were all free, now marked and owned once with every
    other frame untouched, or reports failure exactly when no run of that length
    is free. The byte-level skips and the search hint lose nothing. *)
Theorem allocate_contiguous_correct s count :
  inv s → (1 <= count <= frame_count s)%nat →
  ∃ r s', allocate_contiguous_frames s count = Ret (r, s') ∧ alloc_post s count r s'.
Proof.
  intros Hinv Hc. unfold allocate_contiguous_frames.
  rewrite (proj2 (Nat.eqb_neq count 0)) by lia. destruct (Nat.eqb_spec count 1) as [->|Hne].
  - by apply allocate_frame_spec.
  - apply contiguous_loop_spec; try done; try lia; intros; lia.
Qed.

(** Freeing keeps the invariant and clears at most the released frame. *)
Lemma release_spec s i : inv s → (i < frame_count s)%nat →
  ∃ s', release s i = Ret s' ∧ inv s' ∧
    ∀ k, used (bitmap s') k = if (k =? i)%nat && (refcounts s !!! i <=? 1) then false else used (bitmap s) k.
Proof.
  intros Hinv Hi. pose proof Hinv as []. unfold release, refcount_at.
  rewrite (list_lookup_lookup_total_lt (refcounts s) i) by lia. cbn [mbind outcome_bind].
  destruct (Z.ltb_spec 1 (refcounts s !!! i)) as [Hgt|Hle].
  - eexists. split; [done|]. split.
    + split; cbn [set_refcount bitmap refcounts frame_count]; try done; [by rewrite length_insert|].
      intros k Hk Hu. destruct (Nat.eq_dec k i) as [->|].
      * specialize (inv_free0 i Hi Hu). lia.
      * rewrite list_lookup_total_insert_ne by done. by apply inv_free0.
    + intros k. rewrite (proj2 (Z.leb_gt _ _)) by lia. by rewrite andb_false_r.
  - unfold set_frame_free. cbn [set_refcount frame_count bitmap]. rewrite (proj2 (Nat.leb_gt _ _)) by lia.
    destruct (clear_bit_spec (bitmap s) i) as (bm & Hc & Hlen & Hus); [lia|]. rewrite Hc. cbn [mbind outcome_bind].
    eexists. split; [done|]. split.
    + split; cbn [set_bitmap set_refcount bitmap refcounts frame_count].
      * by eapply clear_bit_bytes.
      * by rewrite Hlen.
      * by rewrite length_insert.
      * intros k Hk. rewrite Hus. destruct (Nat.eqb_spec k i) as [->|].
        -- intros _. by rewrite list_lookup_total_insert_eq by lia.
        -- rewrite list_lookup_total_insert_ne by done. by apply inv_free0.
    + intros k. cbn [set_bitmap bitmap]. rewrite Hus, (proj2 (Z.leb_le _ _)) by lia. by rewrite andb_true_r.
Qed.

(** The padding bits past the last frame are set and counted as allocated, so
    the statistics of a full allocator underflow. *)
Example stats_full_panics : stats (mk_fa [255; 255] (replicate 10 1) 0 10 0) = Panic.
Proof. reflexivity. Qed.

(** Twenty frames, of which 3, 6 and 8 to 17 are free. *)
Definition demo_frames : BitmapFrameAllocator :=
  mk_fa [183; 0; 252] [1; 1; 1; 0; 1; 1; 0; 1; 0; 0; 0; 0; 0; 0; 0; 0; 0; 0; 1; 1] 0x100000 20 5.

Lemma demo_frames_inv : inv demo_frames.
Proof.
  split.
  - repeat constructor; vm_compute; congruence.
  - cbn. lia.
  - cbn. lia.
  - intros i Hi. cbn [demo_frames frame_count] in Hi.
    do 20 (destruct i as [|i]; [vm_compute; congruence|]). lia.
Qed.

Lemma allocate_contiguous_correct_witness :
  ∃ r s', allocate_contiguous_frames demo_frames 10 = Ret (r, s') ∧ alloc_post demo_frames 10 r s' ∧
    r = Some (0x100000 + 8 * 4096).
Proof.
  destruct (allocate_contiguous_correct demo_frames 10 demo_frames_inv) as (r & s' & E & Hp); [cbn; lia|].
  exists r, s'. split_and!; [done|done|]. vm_compute in E. by injection E as <- _.
Defined.

End FrameAlloc.
