(* ===== verification/FrameOwner.v ===== *)
(** * Who owns a physical frame

    The interface the address-space code uses the frame allocator through: the
    reference count of a frame is the number of owners in a list, and frames
    that are marked but owned by nobody are listed apart. [BitmapFrameAllocator]
    implements it. *)

From S2P Require Import Prelude EfsBitmap FrameAlloc.
Import EfsBitmap.

Module FrameOwner.

(** The number of references to [f] in a list of owners. *)
Definition refs (f : Z) (H : list Z) : Z := Z.of_nat (count_occ Z.eq_dec H f).

Lemma refs_nil f : refs f [] = 0.
Proof. done. Qed.

Lemma refs_cons f g H : refs f (g :: H) = (if decide (f = g) then 1 else 0) + refs f H.
Proof. unfold refs. cbn. destruct (Z.eq_dec g f), (decide (f = g)); subst; try done; lia. Qed.

Lemma refs_app f H1 H2 : refs f (H1 ++ H2) = refs f H1 + refs f H2.
Proof. unfold refs. rewrite count_occ_app. lia. Qed.

Lemma refs_nonneg f H : 0 <= refs f H.
Proof. unfold refs. lia. Qed.

Lemma refs_pos f H : f ∈ H ↔ 0 < refs f H.
Proof. unfold refs. rewrite list_elem_of_In, (count_occ_In Z.eq_dec). lia. Qed.

Lemma refs_zero f H : f ∉ H ↔ refs f H = 0.
Proof. rewrite refs_pos. pose proof (refs_nonneg f H). lia. Qed.

#[export] Instance refs_perm f : Proper ((≡ₚ) ==> eq) (refs f).
Proof. intros H1 H2 E. unfold refs. f_equal. by apply (Permutation_count_occ Z.eq_dec). Qed.

(** [acct a H R]: the reference counts of [a] are those of the owners [H], and
    the frames in use are those of [H] and the ownerless ones of [R], which are
    not among the former. *)
Class FrameOwner (A : Type) := {
  allocate_frame : A → outcome (option Z * A);
  deallocate_frame : A → Z → outcome A;
  inc_refcount : A → Z → outcome A;
  dec_refcount : A → Z → outcome (Z * A);
  refcount : A → Z → outcome Z;
  owned : Z → Prop;
  acct : A → list Z → list Z → Prop;
  acct_perm a H H' R : H ≡ₚ H' → acct a H R → acct a H' R;
  acct_alloc a H R : acct a H R →
    ∃ r a', allocate_frame a = Ret (r, a') ∧
      match r with Some f => acct a' (f :: H) R ∧ (f ∉ H) ∧ owned f | None => acct a' H R end;
  acct_free a f H R : acct a (f :: H) R → ∃ a', deallocate_frame a f = Ret a' ∧ acct a' H R;
  acct_inc a f H R : acct a H R → f ∈ H → refs f H < U16_MAX → ∃ a', inc_refcount a f = Ret a' ∧ acct a' (f :: H) R;
  acct_dec a f H R : acct a (f :: H) R →
    ∃ n a', dec_refcount a f = Ret (n, a') ∧ acct a' H (if bool_decide (f ∈ H) then R else f :: R);
  acct_count a f H R : acct a H R → owned f → refcount a f = Ret (refs f H)
}.

(** ** The bitmap allocator *)

Section Bitmap.

(** The memory the allocator manages: [n] frames from [lo]. *)
Context (lo : Z) (n : nat).

Abbreviation fa := FrameAlloc.BitmapFrameAllocator.

Definition nth_frame (i : nat) : Z := lo + Z.of_nat i * 4096.
Definition in_range (f : Z) : Prop := lo <= f < lo + Z.of_nat n * 4096.

Record books (a : fa) (H R : list Z) : Prop := {
  b_inv : FrameAlloc.inv a;
  b_lo : FrameAlloc.start_frame a = lo;
  b_n : FrameAlloc.frame_count a = n;
  b_aligned : Forall (λ f, (f - lo) mod 4096 = 0) H;
  b_refs : ∀ i, (i < n)%nat → FrameAlloc.refcounts a !!! i = refs (nth_frame i) H;
  b_used : ∀ i, (i < n)%nat → used (FrameAlloc.bitmap a) i = true ↔ nth_frame i ∈ H ∨ nth_frame i ∈ R;
  b_apart : ∀ f, f ∈ H → f ∉ R
}.

Lemma nth_frame_inj i j : nth_frame i = nth_frame j → i = j.
Proof. unfold nth_frame. lia. Qed.

Lemma in_range_nth f : in_range f → (f - lo) mod 4096 = 0 → ∃ i, (i < n)%nat ∧ f = nth_frame i.
Proof.
  intros Hr Hm. exists (Z.to_nat ((f - lo) / 4096)). unfold in_range, nth_frame in *.
  pose proof (Z.div_mod (f - lo) 4096 ltac:(lia)). pose proof (Z.div_pos (f - lo) 4096). split; lia.
Qed.

Lemma index_nth a i : FrameAlloc.start_frame a = lo → FrameAlloc.frame_count a = n → (i < n)%nat →
  FrameAlloc.frame_to_index a (nth_frame i) = Some i.
Proof.
  intros H1 H2 Hi. unfold FrameAlloc.frame_to_index, nth_frame. rewrite H1, H2, (proj2 (Z.ltb_ge _ _)) by lia.
  replace (lo + Z.of_nat i * 4096 - lo) with (Z.of_nat i * 4096) by lia. rewrite Z.div_mul, Nat2Z.id by lia.
  by rewrite (proj2 (Nat.leb_gt _ _)).
Qed.

Lemma index_out a f : FrameAlloc.start_frame a = lo → FrameAlloc.frame_count a = n → ¬ in_range f → FrameAlloc.frame_to_index a f = None.
Proof.
  intros H1 H2 Hf. unfold FrameAlloc.frame_to_index, in_range in *. rewrite H1, H2. destruct (Z.ltb_spec f lo); [done|].
  assert (Hd : Z.of_nat n <= (f - lo) / 4096) by (apply Z.div_le_lower_bound; lia).
  by rewrite (proj2 (Nat.leb_le _ _)) by lia.
Qed.

(** The index of an owner, if the allocator manages it. *)
Lemma books_index a f H R : books a (f :: H) R →
  (∃ i, (i < n)%nat ∧ f = nth_frame i ∧ FrameAlloc.frame_to_index a f = Some i) ∨
  (¬ in_range f ∧ FrameAlloc.frame_to_index a f = None).
Proof.
  intros [_ Hl Hn Ha _ _ _]. apply Forall_cons in Ha as [Ha _].
  assert (Hdec : in_range f ∨ ¬ in_range f) by (unfold in_range; lia). destruct Hdec as [Hr|Hr].
  - destruct (in_range_nth f Hr Ha) as (i & Hi & ->). left. exists i. split_and!; try done. by apply index_nth.
  - right. split; [done|]. by apply index_out.
Qed.

Lemma nth_in_range i : (i < n)%nat → in_range (nth_frame i).
Proof. unfold in_range, nth_frame. lia. Qed.

Lemma books_perm a H H' R : H ≡ₚ H' → books a H R → books a H' R.
Proof.
  intros E [H1 H2 H3 H4 H5 H6 H7]. split; try done.
  - by rewrite <- E.
  - intros i Hi. rewrite <- E. by apply H5.
  - intros i Hi. rewrite <- E. by apply H6.
  - intros f. rewrite <- E. apply H7.
Qed.

(** An owner outside the managed memory does not count. *)
Lemma books_foreign a f H R : ¬ in_range f → books a (f :: H) R → books a H R.
Proof.
  intros Hf [H1 H2 H3 H4 H5 H6 H7]. apply Forall_cons in H4 as [_ H4].
  assert (Hne : ∀ i, (i < n)%nat → nth_frame i ≠ f) by (intros i Hi <-; by apply Hf, nth_in_range).
  split; try done.
  - intros i Hi. rewrite H5, refs_cons, decide_False by auto. lia.
  - intros i Hi. rewrite H6, elem_of_cons by done. split; [intros [[?|?]|?]; [by destruct (Hne i)|auto..]|intros [?|?]; auto].
  - intros g Hg. apply H7. by right.
Qed.

Lemma books_alloc a H R : books a H R →
  ∃ r a', FrameAlloc.allocate_frame a = Ret (r, a') ∧
    match r with Some f => books a' (f :: H) R ∧ (f ∉ H) ∧ in_range f | None => books a' H R end.
Proof.
  intros [H1 H2 H3 H4 H5 H6 H7]. destruct (FrameAlloc.allocate_frame_spec a H1) as (r & a' & E & Hp). exists r, a'. split; [done|].
  destruct r as [f|].
  - destruct Hp as (i & -> & Hi & Hfree & [Hinv [Hl Hn] Hu Hr]). rewrite H2 in *. fold (nth_frame i).
    assert (Hif : (i < n)%nat) by lia. specialize (Hfree i ltac:(lia)).
    assert (Hno : ¬ (nth_frame i ∈ H ∨ nth_frame i ∈ R)) by (rewrite <- H6, Hfree by done; done).
    assert (Hrun : ∀ k, FrameAlloc.in_run i 1 k = bool_decide (k = i)).
    { intros k. unfold FrameAlloc.in_run. symmetry. destruct (Nat.leb_spec i k), (Nat.ltb_spec k (i + 1)); first [apply bool_decide_eq_true_2; lia|apply bool_decide_eq_false_2; lia]. }
    split; [|split_and!; [tauto|by apply nth_in_range]]. split; try congruence.
    + constructor; [|done]. unfold nth_frame. replace (lo + Z.of_nat i * 4096 - lo) with (Z.of_nat i * 4096) by lia. by rewrite Z.mod_mul by lia.
    + intros k Hk. rewrite Hr, Hrun, refs_cons. destruct (decide (k = i)) as [->|Hne].
      * rewrite bool_decide_true, decide_True by done. rewrite (proj1 (refs_zero _ _)) by tauto. lia.
      * rewrite bool_decide_false, decide_False by (done || (intros ?%nth_frame_inj; done)). rewrite H5 by done. lia.
    + intros k Hk. rewrite Hu, Hrun, elem_of_cons. destruct (decide (k = i)) as [->|Hne].
      * rewrite bool_decide_true by done. by split; auto.
      * rewrite bool_decide_false by done. cbn [orb]. rewrite H6 by done. split; [intros [?|?]; auto|].
        intros [[?%nth_frame_inj|?]|?]; auto; done.
    + intros g [->|Hg]%elem_of_cons; [tauto|by apply H7].
  - revert E. unfold FrameAlloc.allocate_frame.
    destruct (FrameAlloc.find_free_frame_spec a H1) as (r & h & [(-> & _ & ->)|(i & h' & -> & Hi & Hu)]); cbn [mbind outcome_bind].
    + intros [= <-]. destruct H1. by split.
    + destruct (FrameAlloc.claim_frame _ i) as [s1|] eqn:Ec; [|done]. cbn [mbind outcome_bind]. unfold FrameAlloc.index_to_frame.
      assert (Hf : FrameAlloc.frame_count s1 = FrameAlloc.frame_count a).
      { assert (Hinv' : FrameAlloc.inv (FrameAlloc.set_hint a h')) by (destruct H1; by split).
        destruct (FrameAlloc.claim_frame_spec (FrameAlloc.set_hint a h') i Hinv' Hi Hu) as (s2 & E2 & Hcl). rewrite Ec in E2.
        injection E2 as <-. by destruct (FrameAlloc.cl_geometry _ _ _ _ Hcl). }
      rewrite Hf, (proj2 (Nat.leb_gt _ _)) by done. done.
Qed.

(** A new count for one frame in use. *)
Lemma books_set a i m H R H' R' : books a H R → (i < n)%nat → used (FrameAlloc.bitmap a) i = true →
  Forall (λ f, (f - lo) mod 4096 = 0) H' → m = refs (nth_frame i) H' →
  (∀ f, f ≠ nth_frame i → refs f H' = refs f H) → (∀ f, f ∈ H ∨ f ∈ R ↔ f ∈ H' ∨ f ∈ R') → (∀ f, f ∈ H' → f ∉ R') →
  books (FrameAlloc.set_refcount a i m) H' R'.
Proof.
  intros [Hinv Hl Hn Ha Hr Hu Hap] Hi Hui Ha' -> Hother Hsame Hap'. pose proof Hinv as [Hb1 Hb2 Hb3 Hb4].
  assert (Hget : ∀ k, (k < n)%nat → FrameAlloc.refcounts (FrameAlloc.set_refcount a i (refs (nth_frame i) H')) !!! k = refs (nth_frame k) H').
  { intros k Hk. cbn. destruct (decide (k = i)) as [->|Hne]; [by rewrite list_lookup_total_insert_eq by lia|].
    rewrite list_lookup_total_insert_ne, Hr by done. symmetry. apply Hother. by intros ?%nth_frame_inj. }
  split; try done.
  - split; cbn; try done; [by rewrite length_insert|]. intros k Hk Huk. destruct (decide (k = i)) as [->|Hne]; [congruence|].
    rewrite list_lookup_total_insert_ne by done. by apply Hb4.
  - intros k Hk. cbn. rewrite Hu by done. apply Hsame.
Qed.

Lemma books_refs_at a i H R : books a H R → (i < n)%nat → FrameAlloc.refcount_at a i = Ret (refs (nth_frame i) H).
Proof.
  intros [[] _ Hn _ Hr _ _] Hi. unfold FrameAlloc.refcount_at. by rewrite (list_lookup_lookup_total_lt (FrameAlloc.refcounts a) i), Hr by lia.
Qed.

Lemma books_inc a f H R : books a H R → f ∈ H → refs f H < U16_MAX → ∃ a', FrameAlloc.inc_refcount a f = Ret a' ∧ books a' (f :: H) R.
Proof.
  intros Hb Hf Hmax. pose proof Hf as Hf2. apply elem_of_Permutation in Hf2 as [H' E]. pose proof (b_aligned a H R Hb) as Ha.
  assert (Haf : (f - lo) mod 4096 = 0) by (by eapply Forall_forall in Ha).
  unfold FrameAlloc.inc_refcount. destruct (books_index a f H' R (books_perm _ _ _ _ E Hb)) as [(i & Hi & -> & ->)|[Hr ->]].
  - rewrite (books_refs_at a i H R Hb Hi). cbn [mbind outcome_bind]. rewrite (proj2 (Z.leb_le _ _)) by lia.
    eexists. split; [done|]. eapply books_set; try done; [by apply (b_used a H R Hb); auto|by constructor|by rewrite refs_cons, decide_True; lia| | |].
    + intros g Hg. rewrite refs_cons, decide_False by done. lia.
    + intros g. rewrite elem_of_cons. split; [intros [?|?]; auto|intros [[->|?]|?]; auto].
    + intros g [->|Hg]%elem_of_cons; by apply (b_apart a H R Hb).
  - eexists. split; [done|]. destruct Hb as [H1 H2 H3 H4 H5 H6 H7]. split; try done; [by constructor| | |].
    + intros k Hk. rewrite H5, refs_cons, decide_False; [lia|intros <-; by apply Hr, nth_in_range|done].
    + intros k Hk. rewrite H6, elem_of_cons by done. split; [intros [?|?]; auto|intros [[<-|?]|?]; auto].
    + intros g [->|Hg]%elem_of_cons; by apply H7.
Qed.

Lemma books_dec a f H R : books a (f :: H) R →
  ∃ m a', FrameAlloc.dec_refcount a f = Ret (m, a') ∧ books a' H (if bool_decide (f ∈ H) then R else f :: R).
Proof.
  intros Hb. unfold FrameAlloc.dec_refcount. destruct (books_index a f H R Hb) as [(i & Hi & -> & ->)|[Hr ->]].
  - rewrite (books_refs_at a i _ R Hb Hi). cbn [mbind outcome_bind]. rewrite refs_cons, decide_True by done.
    pose proof (refs_nonneg (nth_frame i) H). rewrite (proj2 (Z.ltb_lt _ _)) by lia. eexists _, _. split; [done|].
    pose proof (b_aligned _ _ _ Hb) as Ha. apply Forall_cons in Ha as [_ Ha].
    eapply books_set; try done; [apply (b_used _ _ _ Hb); [done|left; by left]|lia| | |].
    + intros g Hg. rewrite refs_cons, decide_False by done. lia.
    + intros g. rewrite elem_of_cons. case_bool_decide as Hin; [split; [intros [[->|?]|?]; auto|intros [?|?]; auto]|].
      rewrite elem_of_cons. split; [intros [[->|?]|?]; auto|intros [?|[->|?]]; auto].
    + intros g Hg. case_bool_decide as Hin; [apply (b_apart _ _ _ Hb); by right|].
      intros [->|HR]%elem_of_cons; [done|]. apply (b_apart _ _ _ Hb g); [by right|done].
  - eexists _, _. split; [done|]. apply books_foreign in Hb; [|done]. case_bool_decide; [done|].
    destruct Hb as [H1 H2 H3 H4 H5 H6 H7]. split; try done.
    2: { intros g Hg [->|HR]%elem_of_cons; [done|]. by apply (H7 g). }
    intros k Hk. rewrite H6, elem_of_cons by done.
    split; [intros [?|?]; auto|intros [?|[<-|?]]; auto]. by destruct Hr; apply nth_in_range.
Qed.

Lemma books_free a f H R : books a (f :: H) R → ∃ a', FrameAlloc.deallocate_frame a f = Ret a' ∧ books a' H R.
Proof.
  intros Hb. assert (HR : f ∉ R) by (apply (b_apart _ _ _ Hb); by left). unfold FrameAlloc.deallocate_frame. destruct (books_index a f H R Hb) as [(i & Hi & -> & ->)|[Hr ->]].
  2: { eexists. split; [done|]. by eapply books_foreign. }
  pose proof (b_aligned _ _ _ Hb) as Ha. apply Forall_cons in Ha as [_ Ha].
  assert (Hui : used (FrameAlloc.bitmap a) i = true) by (apply (b_used _ _ _ Hb); [done|left; by left]).
  rewrite (books_refs_at a i _ R Hb Hi). cbn [mbind outcome_bind]. rewrite refs_cons, decide_True by done.
  pose proof (refs_nonneg (nth_frame i) H). rewrite (proj2 (Z.ltb_lt _ _)) by lia.
  unfold FrameAlloc.release. rewrite (books_refs_at a i _ R Hb Hi). cbn [mbind outcome_bind]. rewrite refs_cons, decide_True by done.
  destruct (Z.ltb_spec 1 (1 + refs (nth_frame i) H)) as [Hgt|Hle].
  - eexists. split; [done|]. eapply books_set; try done; [lia| | |by intros g Hg; apply (b_apart _ _ _ Hb); right].
    + intros g Hg. rewrite refs_cons, decide_False by done. lia.
    + assert (nth_frame i ∈ H) by (apply refs_pos; lia). intros g. rewrite elem_of_cons. split; [intros [[->|?]|?]; auto|intros [?|?]; auto].
  - assert (Hno : nth_frame i ∉ H) by (apply refs_zero; lia).
    assert (Hz : books (FrameAlloc.set_refcount a i 0) H (nth_frame i :: R)).
    { eapply books_set; try done; [lia| | |].
      - intros g Hg. rewrite refs_cons, decide_False by done. lia.
      - intros g. rewrite !elem_of_cons. split; [intros [[->|?]|?]; auto|intros [?|[->|?]]; auto].
      - intros g Hg [->|Hg2]%elem_of_cons; [done|]. apply (b_apart _ _ _ Hb g); [by right|done]. }
    pose proof Hz as [[Hb1 Hb2 Hb3 Hb4] H2 H3 H4 H5 H6 H7]. unfold FrameAlloc.set_frame_free. rewrite H3, (proj2 (Nat.leb_gt _ _)) by done.
    destruct (clear_bit_spec (FrameAlloc.bitmap (FrameAlloc.set_refcount a i 0)) i) as (bm & Hc & Hlen & Hus); [lia|]. rewrite Hc. cbn [mbind outcome_bind].
    eexists. split; [done|]. split; try done.
    + split; cbn [FrameAlloc.set_bitmap FrameAlloc.bitmap FrameAlloc.refcounts FrameAlloc.frame_count]; [by eapply clear_bit_bytes|by rewrite Hlen|done|].
      intros k Hk. rewrite Hus. destruct (Nat.eqb_spec k i) as [->|]; [|by apply Hb4]. intros _. rewrite H5 by done. lia.
    + intros k Hk. cbn [FrameAlloc.set_bitmap FrameAlloc.bitmap]. rewrite Hus. destruct (Nat.eqb_spec k i) as [->|Hne].
      * split; [done|]. tauto.
      * rewrite H6, elem_of_cons by done. split; [intros [?|[?%nth_frame_inj|?]]; auto; done|intros [?|?]; auto].
    + intros g Hg HgR. apply (H7 g Hg). by right.
Qed.

Lemma books_count a f H R : books a H R → in_range f → (f - lo) mod 4096 = 0 → FrameAlloc.refcount a f = Ret (refs f H).
Proof.
  intros Hb Hf Ha. destruct (in_range_nth f Hf Ha) as (i & Hi & ->). unfold FrameAlloc.refcount.
  rewrite (index_nth a i (b_lo _ _ _ Hb) (b_n _ _ _ Hb) Hi). by eapply books_refs_at.
Qed.

(** ** The interface *)

Definition in_range_aligned (f : Z) : Prop := in_range f ∧ (f - lo) mod 4096 = 0.

#[export] Program Instance bitmap_owner : FrameOwner fa := {
  allocate_frame := FrameAlloc.allocate_frame;
  deallocate_frame := FrameAlloc.deallocate_frame;
  inc_refcount := FrameAlloc.inc_refcount;
  dec_refcount := FrameAlloc.dec_refcount;
  refcount := FrameAlloc.refcount;
  owned := in_range_aligned;
  acct := books
}.
Next Obligation. intros a H H' R ? ?. by apply (books_perm a H H' R). Qed.
Next Obligation.
  intros a H R Hb. destruct (books_alloc a H R Hb) as (r & a' & E & Hp). exists r, a'. split; [done|].
  destruct r as [f|]; [|done]. destruct Hp as (H1 & H2 & H3). split_and!; try done. split; [done|].
  pose proof (b_aligned _ _ _ H1) as Ha. by apply Forall_cons in Ha as [? _].
Qed.
Next Obligation. intros a f H R ?. by apply (books_free a f H R). Qed.
Next Obligation. intros a f H R ? ? ?. by apply (books_inc a f H R). Qed.
Next Obligation. intros a f H R ?. by apply (books_dec a f H R). Qed.
Next Obligation. intros a f H R Hb [Hf Ha]. by apply (books_count a f H R). Qed.

End Bitmap.

End FrameOwner.
