(* ===== verification/PageTable.v ===== *)
(** * Page tables

    The four levels of an x86-64 page table as a tree. A table owns the frame it
    lies in and, through its entries, the next level or the frames it maps; an
    entry is in the map when its PRESENT bit is set. Every level is a [dir], and
    [Level] is what holds at each of them. *)

From S2P Require Import Prelude FrameOwner.

Module PageTable.

Import FrameOwner.

(** ** Entries *)

(** Flag bits of an entry ([PageTableFlags]; [COW_BIT] in memory/mapper.rs). *)
Definition PRESENT : Z := 1.
Definition WRITABLE : Z := 2.
Definition USER_ACCESSIBLE : Z := 4.
Definition COW_BIT : Z := 2 ^ 9.
Definition NO_EXECUTE : Z := 2 ^ 63.

Definition has (flags bit : Z) : bool := Z.land flags bit =? bit.

Lemma has_bit flags k : 0 <= k → has flags (2 ^ k) = Z.testbit flags k.
Proof.
  intros Hk. unfold has. destruct (Z.testbit flags k) eqn:E.
  - apply Z.eqb_eq, Z.bits_inj'. intros i Hi. rewrite Z.land_spec, Z.pow2_bits_eqb by done.
    destruct (Z.eqb_spec k i) as [<-|]; [by rewrite E|by rewrite andb_false_r].
  - apply Z.eqb_neq. intros H. assert (Hb : Z.testbit (Z.land flags (2 ^ k)) k = true) by (by rewrite H, Z.pow2_bits_true).
    by rewrite Z.land_spec, E in Hb.
Qed.

Lemma has_WRITABLE flags : has flags WRITABLE = Z.testbit flags 1.
Proof. by apply (has_bit flags 1). Qed.

Lemma has_COW flags : has flags COW_BIT = Z.testbit flags 9.
Proof. by apply (has_bit flags 9). Qed.

(** Flags and frame of a leaf entry. *)
Abbreviation pte := (Z * Z)%type.

(** A table in frame [dframe], with its present entries. *)
Record dir (A : Type) := mk_dir { dframe : Z; dents : gmap nat (Z * A) }.
Arguments mk_dir {A} dframe dents.
Arguments dframe {A} d.
Arguments dents {A} d.

Definition set_ent {A} (d : dir A) (i : nat) (e : Z * A) : dir A := mk_dir (dframe d) (<[i := e]> (dents d)).
Definition del_ent {A} (d : dir A) (i : nat) : dir A := mk_dir (dframe d) (delete i (dents d)).

(** A table just zeroed. *)
Definition zeroed {A} (f : Z) : dir A := mk_dir f ∅.

(** ** What holds at every level *)

Class Level (A : Type) := {
  key : Type;
  key_dec :: EqDecision key;
  frames : A → list Z;               (** the table frames and the mapped frames *)
  leaf : A → key → option pte;       (** the leaf entry of an address *)
  put : A → key → pte → A;           (** overwrite a leaf entry that is there *)
  bounded : A → Prop;                (** 512 entries per table *)
  leaf_frame a k e : leaf a k = Some e →
    ∃ rest, frames a ≡ₚ e.2 :: rest ∧ ∀ k' e', k' ≠ k → leaf a k' = Some e' → e'.2 ∈ rest;
  leaf_put a k e0 e k' : leaf a k = Some e0 → leaf (put a k e) k' = if decide (k' = k) then Some e else leaf a k';
  frames_put a k e0 e : leaf a k = Some e0 → e0.2 :: frames (put a k e) ≡ₚ e.2 :: frames a;
  bounded_put a k e0 e : leaf a k = Some e0 → bounded a → bounded (put a k e)
}.

(** The frames of a table and below, given those of the entries. *)
Definition below {A} (sub : A → list Z) (m : gmap nat (Z * A)) : list Z := map_to_list m ≫= (λ x, sub x.2.2).
Definition frames_of {A} (sub : A → list Z) (d : dir A) : list Z := dframe d :: below sub (dents d).

Lemma below_insert {A} (sub : A → list Z) m i e : m !! i = None → below sub (<[i := e]> m) ≡ₚ sub e.2 ++ below sub m.
Proof. intros Hi. unfold below. by rewrite map_to_list_insert by done. Qed.

Lemma below_delete {A} (sub : A → list Z) m i e : m !! i = Some e → below sub m ≡ₚ sub e.2 ++ below sub (delete i m).
Proof.
  intros Hi. rewrite <- (insert_delete_id m i e Hi) at 1. by rewrite below_insert by apply lookup_delete_eq.
Qed.

Lemma below_replace {A} (sub : A → list Z) m i e e' : m !! i = Some e →
  sub e.2 ++ below sub (<[i := e']> m) ≡ₚ sub e'.2 ++ below sub m.
Proof.
  intros Hi. rewrite <- insert_delete_eq, below_insert by apply lookup_delete_eq. rewrite (below_delete sub m i e Hi).
  rewrite !(assoc (++)). by rewrite (Permutation_app_comm (sub e.2)).
Qed.

Lemma elem_below {A} (sub : A → list Z) m i e f : m !! i = Some e → f ∈ sub e.2 → f ∈ below sub m.
Proof. intros Hi Hf. rewrite (below_delete sub m i e Hi). apply elem_of_app. by left. Qed.

Definition within {A} (n : nat) (d : dir A) : Prop := ∀ i e, dents d !! i = Some e → (i < n)%nat.

Lemma within_set {A} n (d : dir A) i e : (i < n)%nat → within n d → within n (set_ent d i e).
Proof. intros Hi Hd j e'. cbn. destruct (decide (j = i)) as [->|Hne]; [done|]. rewrite lookup_insert_ne by done. apply Hd. Qed.

(** The last level maps frames. *)
#[export] Program Instance level_pt : Level (dir Z) := {
  key := nat;
  frames := frames_of (λ f, [f]);
  leaf d i := dents d !! i;
  put d i e := set_ent d i e;
  bounded := within 512
}.
Next Obligation.
  intros d i e Hi. exists (dframe d :: below (λ f, [f]) (delete i (dents d))). split.
  - unfold frames_of. rewrite (below_delete _ _ _ _ Hi). cbn. by constructor.
  - intros k' e' Hne Hk'. right. eapply (elem_below _ _ k' e'); [by rewrite lookup_delete_ne|by left].
Qed.
Next Obligation. intros d i e0 e k' _. cbn. case_decide; [subst; by rewrite lookup_insert_eq|by rewrite lookup_insert_ne]. Qed.
Next Obligation.
  intros d i e0 e Hi. unfold frames_of. cbn [set_ent dframe dents]. pose proof (below_replace (λ f, [f]) (dents d) i e0 e Hi) as E.
  cbn in E. rewrite (Permutation_swap (dframe d) e0.2), (Permutation_swap (dframe d) e.2). by constructor.
Qed.
Next Obligation. intros d i e0 e Hi Hb. apply within_set; [by eapply Hb|done]. Qed.

(** A level above another. *)
#[export] Program Instance level_dir (A : Type) `{Level A} : Level (dir A) := {
  key := nat * key;
  frames := frames_of frames;
  leaf (d : dir A) (ik : nat * key) := match (dents d !! ik.1 : option (Z * A)) with Some (_, a) => leaf a ik.2 | None => None end;
  put (d : dir A) (ik : nat * key) e := match (dents d !! ik.1 : option (Z * A)) with Some (fl, a) => set_ent d ik.1 (fl, put a ik.2 e) | None => d end;
  bounded d := within 512 d ∧ ∀ i e, dents d !! i = Some e → bounded e.2
}.
Next Obligation.
  intros A HA d [i k] e Hi. cbn in Hi. destruct (dents d !! i) as [[fl a]|] eqn:Ei; [|done]. cbn in Hi.
  destruct (leaf_frame a k e Hi) as (rest & Hp & Ho). exists (dframe d :: rest ++ below frames (delete i (dents d))). split.
  - unfold frames_of. rewrite (below_delete _ _ _ _ Ei). cbn [snd]. rewrite Hp. cbn. by constructor.
  - intros [i' k'] e' Hne Hk'. cbn in Hk'. right. apply elem_of_app. destruct (decide (i' = i)) as [->|Hi'].
    + left. rewrite Ei in Hk'. cbn in Hk'. eapply (Ho k'); [congruence|done].
    + right. destruct (dents d !! i') as [[fl' a']|] eqn:Ei'; [|done]. cbn in Hk'. eapply (elem_below _ _ i' (fl', a')); [by rewrite lookup_delete_ne|].
      destruct (leaf_frame a' k' e' Hk') as (rest' & Hp' & _). cbn. rewrite Hp'. by left.
Qed.
Next Obligation.
  intros A HA d [i k] e0 e [i' k'] Hi. cbn in *. destruct (dents d !! i) as [[fl a]|] eqn:Ei; [|done]. cbn in Hi. cbn.
  destruct (decide (i' = i)) as [->|Hne].
  - rewrite lookup_insert_eq, Ei. cbn. rewrite (leaf_put a k e0 e k' Hi). repeat case_decide; congruence.
  - rewrite lookup_insert_ne by done. rewrite decide_False; [done|congruence].
Qed.
Next Obligation.
  intros A HA d [i k] e0 e Hi. cbn in *. destruct (dents d !! i) as [[fl a]|] eqn:Ei; [|done]. cbn in Hi.
  unfold frames_of. cbn [set_ent dframe dents]. pose proof (below_replace frames (dents d) i _ (fl, put a k e) Ei) as E. cbn [snd] in E.
  pose proof (frames_put a k e0 e Hi) as Ep. rewrite (Permutation_swap (dframe d) e0.2), (Permutation_swap (dframe d) e.2). constructor.
  apply (Permutation_app_inv_l (frames a)). rewrite <- !Permutation_middle. rewrite E.
  change (e0.2 :: frames (put a k e) ++ below frames (dents d)) with ((e0.2 :: frames (put a k e)) ++ below frames (dents d)). by rewrite Ep.
Qed.

Next Obligation.
  intros A HA d [i k] e0 e Hi [Hw Hb]. cbn in *. destruct (dents d !! i) as [[fl a]|] eqn:Ei; [|done]. cbn in Hi.
  split; [apply within_set; [by eapply Hw|done]|]. intros j e'. cbn. destruct (decide (j = i)) as [->|Hne].
  - rewrite lookup_insert_eq. intros [= <-]. cbn. eapply bounded_put; [exact Hi|]. by apply (Hb i (fl, a)).
  - rewrite lookup_insert_ne by done. apply Hb.
Qed.

End PageTable.
