(* ===== verification/Cow.v ===== *)
(** * Fork and page faults

    Copy-on-write cloning of an address space and the two page-fault handlers
    (kernel/src/memory/cow.rs, kernel/src/memory/fault.rs), over the page tables
    of [PageTable] and any frame allocator with the interface of [FrameOwner].
    The upper half of the top-level table, shared by all processes, and the TLB
    are left out. *)

From stdpp Require Import functions.
From S2P Require Import Prelude BTree FrameOwner PageTable Vma.

Module Cow.

Import FrameOwner PageTable.

Abbreviation pt := (dir Z).
Abbreviation pd := (dir pt).
Abbreviation pdpt := (dir pd).
Abbreviation pml4 := (dir pdpt).

(** ** Addresses *)

Definition pml4_idx (addr : Z) : nat := Z.to_nat (Z.land (Z.shiftr addr 39) 0x1FF).
Definition pml3_idx (addr : Z) : nat := Z.to_nat (Z.land (Z.shiftr addr 30) 0x1FF).
Definition pml2_idx (addr : Z) : nat := Z.to_nat (Z.land (Z.shiftr addr 21) 0x1FF).
Definition pml1_idx (addr : Z) : nat := Z.to_nat (Z.land (Z.shiftr addr 12) 0x1FF).

Definition path (addr : Z) : nat * (nat * (nat * nat)) := (pml4_idx addr, (pml3_idx addr, (pml2_idx addr, pml1_idx addr))).

(** The walk of the four levels; [None] when an entry on the way is absent. *)
Definition walk (t : pml4) (addr : Z) : option pte := leaf t (path addr).

(** ** Virtual memory areas *)

Definition WRITE : Z := 2.
Definition EXEC : Z := 4.
Definition LAZY : Z := 8.

Definition is_special_mapping (virt : Z) (vmas : Vma.VmaSet) : bool :=
  match Vma.find vmas virt with
  | Some vma => match Vma.backing vma with
      | Vma.SharedMemory _ | Vma.Physical _ => true
      | Vma.FileBacked _ _ shared _ _ => shared
      | _ => false
      end
  | None => false
  end.

Definition fault_addr_is_writable (vmas : Vma.VmaSet) (addr : Z) : bool :=
  match Vma.find vmas addr with Some vma => has (Vma.prot vma) WRITE | None => false end.

(** The page of a fault is kept on its area, in the slot its address has now. *)
Definition store_cached_page_on_vma (vmas : Vma.VmaSet) (addr cached_page : Z) : Vma.VmaSet :=
  match Vma.last_le (Vma.vmas vmas) addr with
  | Some (k, vma) =>
      if Vma.contains vma addr then
        let page_addr := Vma.align_down addr in
        if page_addr <? Vma.start vma then vmas
        else
          let slot := Z.to_nat ((page_addr - Vma.start vma) / 4096) in
          match Vma.backing vma with
          | Vma.FileBacked ino off sh wr pages =>
              if (slot <? length pages)%nat then
                Vma.set_vmas vmas (binsert k (Vma.mk_vma (Vma.start vma) (Vma.end_ vma) (Vma.prot vma) (Vma.flags vma)
                  (Vma.FileBacked ino off sh wr (<[slot := Some cached_page]> pages))) (Vma.vmas vmas))
              else vmas
          | _ => vmas
          end
      else vmas
  | None => vmas
  end.

Section Ops.

Context {F : Type} `{FO : FrameOwner F}.

(** ** Fork *)

(** What the walk writes to both tables for one leaf entry. *)
Definition cow_entry (vmas : Vma.VmaSet) (virt : Z) (e : pte) : pte :=
  if is_special_mapping virt vmas then e else (Z.lor (Z.ldiff e.1 WRITABLE) COW_BIT, e.2).

Fixpoint clone_pml1 (vmas : Vma.VmaSet) (idxs : list nat) (base : Z) (parent child : pt) (a : F) : outcome (pt * pt * F) :=
  match idxs with
  | [] => Ret (parent, child, a)
  | i :: idxs =>
      match dents parent !! i with
      | None => clone_pml1 vmas idxs base parent child a
      | Some e =>
          let e' := cow_entry vmas (Z.lor base (Z.shiftl (Z.of_nat i) 12)) e in
          a ← inc_refcount a e.2;
          clone_pml1 vmas idxs base (set_ent parent i e') (set_ent child i e') a
      end
  end.

(** One of the three upper loops; [false] is a table that could not be
    allocated, after which every loop returns. *)
Fixpoint clone_dir {A} (inner : Z → A → Z → F → outcome (A * A * bool * F)) (shift : Z) (idxs : list nat) (base : Z)
    (parent child : dir A) (a : F) : outcome (dir A * dir A * bool * F) :=
  match idxs with
  | [] => Ret (parent, child, true, a)
  | i :: idxs =>
      match dents parent !! i with
      | None => clone_dir inner shift idxs base parent child a
      | Some (flags, sub) =>
          '(r, a) ← allocate_frame a;
          match r with
          | None => Ret (parent, child, false, a)
          | Some frame =>
              '(sub, csub, ok, a) ← inner (Z.lor base (Z.shiftl (Z.of_nat i) shift)) sub frame a;
              let parent := set_ent parent i (flags, sub) in
              let child := set_ent child i (flags, csub) in
              if ok : bool then clone_dir inner shift idxs base parent child a else Ret (parent, child, false, a)
          end
      end
  end.

Definition clone1 (vmas : Vma.VmaSet) (base : Z) (parent : pt) (frame : Z) (a : F) : outcome (pt * pt * bool * F) :=
  '(parent, child, a) ← clone_pml1 vmas (seq 0 512) base parent (zeroed frame) a; Ret (parent, child, true, a).
Definition clone2 (vmas : Vma.VmaSet) (base : Z) (parent : pd) (frame : Z) (a : F) : outcome (pd * pd * bool * F) :=
  clone_dir (clone1 vmas) 21 (seq 0 512) base parent (zeroed frame) a.
Definition clone3 (vmas : Vma.VmaSet) (base : Z) (parent : pdpt) (frame : Z) (a : F) : outcome (pdpt * pdpt * bool * F) :=
  clone_dir (clone2 vmas) 30 (seq 0 512) base parent (zeroed frame) a.

Definition clone_user_half (vmas : Vma.VmaSet) (parent : pml4) (frame : Z) (a : F) : outcome (pml4 * pml4 * bool * F) :=
  clone_dir (clone3 vmas) 39 (seq 0 256) 0 parent (zeroed frame) a.

Fixpoint free_pml1 (idxs : list nat) (d : pt) (a : F) : outcome F :=
  match idxs with
  | [] => Ret a
  | i :: idxs =>
      match dents d !! i with
      | Some (_, frame) => '(_, a) ← dec_refcount a frame; free_pml1 idxs d a
      | None => free_pml1 idxs d a
      end
  end.

(** The level below is given back, then the frame of its table. *)
Fixpoint free_dir {A} (inner : dir A → F → outcome F) (idxs : list nat) (d : dir (dir A)) (a : F) : outcome F :=
  match idxs with
  | [] => Ret a
  | i :: idxs =>
      match dents d !! i with
      | Some (_, sub) => a ← inner sub a; a ← deallocate_frame a (dframe sub); free_dir inner idxs d a
      | None => free_dir inner idxs d a
      end
  end.

Definition free_child_user_half (child : pml4) (a : F) : outcome F :=
  free_dir (free_dir (free_dir (free_pml1 (seq 0 512)) (seq 0 512)) (seq 0 512)) (seq 0 256) child a.

(** The parent's tables, the child's if there was memory for them, and the
    allocator. *)
Definition clone_user_page_tables_cow (vmas : Vma.VmaSet) (parent : pml4) (a : F) : outcome (pml4 * option pml4 * F) :=
  '(r, a) ← allocate_frame a;
  match r with
  | None => Ret (parent, None, a)
  | Some frame =>
      '(parent, child, built, a) ← clone_user_half vmas parent frame a;
      if built : bool then Ret (parent, Some child, a)
      else a ← free_child_user_half child a; a ← deallocate_frame a frame; Ret (parent, None, a)
  end.

(** ** Copy-on-write faults *)

(** The bytes of every frame. *)
Abbreviation memory := (Z → list Z).

Definition handle_cow_fault (vmas : Vma.VmaSet) (t : pml4) (mem : memory) (a : F) (addr : Z)
    : outcome (bool * pml4 * memory * F) :=
  if negb (fault_addr_is_writable vmas addr) then Ret (false, t, mem, a)
  else
    match walk t addr with
    | None => Ret (false, t, mem, a)
    | Some (flags, old) =>
        if negb (has flags COW_BIT) then Ret (false, t, mem, a)
        else
          let new_flags := Z.lor (Z.ldiff flags COW_BIT) WRITABLE in
          rc ← refcount a old;
          if rc <=? 1 then Ret (true, put t (path addr) (new_flags, old), mem, a)
          else
            '(r, a) ← allocate_frame a;
            match r with
            | None => Ret (false, t, mem, a)
            | Some new =>
                let mem := <[new := mem old]> mem in
                '(_, a) ← dec_refcount a old;
                Ret (true, put t (path addr) (new_flags, new), mem, a)
            end
    end.

(** ** Demand faults *)

Inductive FaultReject :=
| Protection | NoUserThread | NoVma | NotFaultable | WriteToReadOnly | ExecOnNoExec | MountGone
| PastEof (page_idx file_size : Z) | FillFailed (page_idx : Z) | NoFrame | MapFailed | RelocFailed.

Inductive FaultSource := Zero | FileSource (inode page_idx : Z) (vma_page_slot : nat) (shared : bool).

Definition lookup_fault_vma (vmas : Vma.VmaSet) (addr : Z) : option (Z * FaultSource) :=
  match Vma.find vmas addr with
  | None => None
  | Some vma =>
      if negb (has (Vma.flags vma) LAZY) then None
      else
        let fl := Z.lor PRESENT USER_ACCESSIBLE in
        let fl := if has (Vma.prot vma) WRITE then Z.lor fl WRITABLE else fl in
        let fl := if negb (has (Vma.prot vma) EXEC) then Z.lor fl NO_EXECUTE else fl in
        match Vma.backing vma with
        | Vma.Anonymous | Vma.Stack => Some (fl, Zero)
        | Vma.FileBacked ino file_offset shared _ _ =>
            let vma_byte_offset := Vma.align_down addr - Vma.start vma in
            Some (if shared : bool then fl else Z.lor (Z.ldiff fl WRITABLE) COW_BIT,
                  FileSource ino ((file_offset + vma_byte_offset) / 4096) (Z.to_nat (vma_byte_offset / 4096)) shared)
        | _ => None
        end
  end.

(** [ensure_table_entry] and what is done with the table it returns. *)
Definition map_dir {A} (inner : dir A → F → outcome (bool * dir A * F)) (flags : Z) (i : nat) (d : dir (dir A)) (a : F)
    : outcome (bool * dir (dir A) * F) :=
  match dents d !! i with
  | Some (fl, sub) =>
      let fl := Z.lor fl flags in
      '(ok, sub, a) ← inner sub a; Ret (ok, set_ent d i (fl, sub), a)
  | None =>
      '(r, a) ← allocate_frame a;
      match r with
      | None => Ret (false, d, a)
      | Some frame => '(ok, sub, a) ← inner (zeroed frame) a; Ret (ok, set_ent d i (flags, sub), a)
      end
  end.

Definition map_leaf (i : nat) (e : pte) (d : pt) (a : F) : outcome (bool * pt * F) :=
  match dents d !! i with Some _ => Ret (false, d, a) | None => Ret (true, set_ent d i e, a) end.

Definition map_page_direct (t : pml4) (addr frame flags : Z) (a : F) : outcome (bool * pml4 * F) :=
  let fl := Z.lor (Z.lor PRESENT WRITABLE) USER_ACCESSIBLE in
  map_dir (map_dir (map_dir (map_leaf (pml1_idx addr) (flags, frame)) fl (pml2_idx addr)) fl (pml3_idx addr)) fl (pml4_idx addr) t a.

Definition is_page_present (t : pml4) (addr : Z) : bool := bool_decide (is_Some (walk t addr)).

(** Maps a frame the fault has taken a reference to, and says whether it did;
    [undo] gives the reference back when it did not, which is no failure if the
    page is there. *)
Definition install (undo : F → Z → outcome F) (t : pml4) (mem : memory) (addr frame flags : Z) (a : F)
    : outcome (bool * option FaultReject * pml4 * memory * F) :=
  '(ok, t, a) ← map_page_direct t addr frame flags a;
  if ok : bool then Ret (true, None, t, mem, a)
  else a ← undo a frame; Ret (false, if is_page_present t addr then None else Some MapFailed, t, mem, a).

Definition drop_reference (a : F) (frame : Z) : outcome F := '(_, a) ← dec_refcount a frame; Ret a.

Definition zero_page : list Z := replicate 4096 0.

(** What the file system answers: whether the mount is there, the size of a
    file, and the frame of a page of it in the page cache. *)
Record Files := mk_files { mounted : Z → bool; file_size_ino : Z → option Z; get_or_fill_page : Z → Z → option Z }.

Definition file_page (fs : Files) (ino page_idx : Z) : result FaultReject Z :=
  if negb (mounted fs ino) then Err MountGone
  else
    let past_eof := match file_size_ino fs ino with Some file_size => if file_size <=? page_idx * 4096 then Some file_size else None | None => None end in
    match past_eof with
    | Some file_size => Err (PastEof page_idx file_size)
    | None => match get_or_fill_page fs ino page_idx with Some frame => Ok frame | None => Err (FillFailed page_idx) end
    end.

(** The outcome, with the cached page to be kept on the area. *)
Definition fault_in_page (source : FaultSource) (flags : Z) (fs : Files) (t : pml4) (mem : memory) (a : F) (addr : Z)
    : outcome (option FaultReject * option Z * pml4 * memory * F) :=
  match source with
  | FileSource ino page_idx _ _ =>
      match file_page fs ino page_idx with
      | Err r => Ret (Some r, None, t, mem, a)
      | Ok frame =>
          a ← inc_refcount a frame;
          '(ok, r, t, mem, a) ← install drop_reference t mem addr frame flags a;
          Ret (r, if ok : bool then Some frame else None, t, mem, a)
      end
  | Zero =>
      '(r, a) ← allocate_frame a;
      match r with
      | None => Ret (Some NoFrame, None, t, mem, a)
      | Some frame => '(_, r, t, mem, a) ← install deallocate_frame t (<[frame := zero_page]> mem) addr frame flags a; Ret (r, None, t, mem, a)
      end
  end.

(** A page of a private file mapping with relocations: a copy of the cached
    page, patched, is mapped writable. *)
Definition fault_in_reloc_page (patch : list Z → list Z) (ino page_idx flags : Z) (fs : Files) (t : pml4) (mem : memory) (a : F) (addr : Z)
    : outcome (option FaultReject * pml4 * memory * F) :=
  match file_page fs ino page_idx with
  | Err _ => Ret (Some RelocFailed, t, mem, a)
  | Ok cached =>
      '(r, a) ← allocate_frame a;
      match r with
      | None => Ret (Some RelocFailed, t, mem, a)
      | Some frame =>
          '(_, reject, t, mem, a) ← install deallocate_frame t (<[frame := patch (mem cached)]> mem) addr frame (Z.lor (Z.ldiff flags COW_BIT) WRITABLE) a;
          Ret (match reject with Some _ => Some RelocFailed | None => None end, t, mem, a)
      end
  end.

(** The error code of a page fault. *)
Record ErrorCode := mk_code { protection : bool; caused_by_write : bool; instruction_fetch : bool }.

(** [reloc] is the relocation of the page, if the fault lies in the range that
    has a relocation table. *)
Definition handle_demand_fault (reloc : option (list Z → list Z)) (fs : Files) (code : ErrorCode)
    (vmas : Vma.VmaSet) (t : pml4) (mem : memory) (a : F) (addr : Z) : outcome (option FaultReject * Vma.VmaSet * pml4 * memory * F) :=
  if protection code then Ret (Some Protection, vmas, t, mem, a)
  else
    match Vma.find vmas addr with
    | None => Ret (Some NoVma, vmas, t, mem, a)
    | Some vma =>
        if caused_by_write code && negb (has (Vma.prot vma) WRITE) then Ret (Some WriteToReadOnly, vmas, t, mem, a)
        else if instruction_fetch code && negb (has (Vma.prot vma) EXEC) then Ret (Some ExecOnNoExec, vmas, t, mem, a)
        else
          match lookup_fault_vma vmas addr with
          | None => Ret (Some NotFaultable, vmas, t, mem, a)
          | Some (flags, source) =>
              match reloc, source with
              | Some patch, FileSource ino page_idx _ false =>
                  '(r, t, mem, a) ← fault_in_reloc_page patch ino page_idx flags fs t mem a addr; Ret (r, vmas, t, mem, a)
              | _, _ =>
                  '(r, cached, t, mem, a) ← fault_in_page source flags fs t mem a addr;
                  Ret (r, match cached with Some frame => store_cached_page_on_vma vmas addr frame | None => vmas end, t, mem, a)
              end
          end
    end.

End Ops.

End Cow.
