(* ===== verification/CowFork.v ===== *)
(** * Fork: the cloned address space

    What [clone_user_page_tables_cow] builds and what a clone that runs out of
    frames gives back. *)

From stdpp Require Import functions.
From S2P Require Import Prelude FrameOwner PageTable Vma Cow.

Module CowFork.

Import FrameOwner PageTable Cow.

Section Fork.

Context {F : Type} `{FO : FrameOwner F} (vmas : Vma.VmaSet).

Lemma cow_entry_frame virt e : (cow_entry vmas virt e).2 = e.2.
Proof. unfold cow_entry. by case_match. Qed.

(** The outcome of cloning [x]: [x'] is what it becomes and [c] the copy; [ok]
    says that nothing is missing. *)
Record cloned {A} `{LA : Level A} (v : key → Z) (ok : bool) (x x' c : A) : Prop := {
  c_parent : ∀ k, leaf x' k = leaf x k ∨ leaf x' k = cow_entry vmas (v k) <$> leaf x k;
  c_child : ∀ k e, leaf c k = Some e → leaf x' k = Some e ∧ cow_entry vmas (v k) <$> leaf x k = Some e;
  c_ok : ok = true → ∀ k, leaf x' k = cow_entry vmas (v k) <$> leaf x k ∧ leaf c k = leaf x' k;
  c_frames : frames x' ≡ₚ frames x;
  c_bounded : bounded c ∧ bounded x'
}.

(** What the body of one of the loops promises: everything the copy is made of
    is accounted for, and the parent's frames gain at most one owner each. *)
Definition CloneSpec {B} `{LB : Level (dir B)} (inner : Z → dir B → Z → F → outcome (dir B * dir B * bool * F)) (v : Z → key → Z) : Prop :=
  ∀ base x cf a H R, acct a (cf :: H) R → cf ∉ H → bounded x → (∀ f, f ∈ frames x → f ∈ H) →
    (∀ f, f ∈ frames x → refs f H + refs f (frames x) <= U16_MAX) →
    ∃ x' c ok a', inner base x cf a = Ret (x', c, ok, a') ∧ acct a' (frames c ++ H) R ∧ dframe c = cf ∧
      (∀ f, f ∈ H → refs f (frames c) <= refs f (frames x)) ∧ cloned (v base) ok x x' c.

(** ** Loops *)

(** The frames below the entries a loop has still to visit. *)
Definition todo {A} (sub : A → list Z) (idxs : list nat) (m : gmap nat (Z * A)) : list Z :=
  idxs ≫= λ i, match m !! i with Some e => sub e.2 | None => [] end.

Lemma todo_other {A} (sub : A → list Z) idxs m m' : (∀ i, i ∈ idxs → m' !! i = m !! i) → todo sub idxs m' = todo sub idxs m.
Proof.
  induction idxs as [|i idxs IH]; intros Hm; [done|]. unfold todo in *. cbn. rewrite (Hm i) by (by left).
  rewrite IH; [done|]. intros j Hj. apply Hm. by right.
Qed.

Lemma todo_le {A} (sub : A → list Z) idxs m f : NoDup idxs → refs f (todo sub idxs m) <= refs f (below sub m).
Proof.
  revert m. induction idxs as [|i idxs IH]; intros m Hnd; [cbn; apply refs_nonneg|]. apply NoDup_cons in Hnd as [Hi Hnd].
  unfold todo. cbn. destruct (m !! i) as [e|] eqn:E; [|by apply IH]. rewrite refs_app, (below_delete sub m i e E), refs_app.
  specialize (IH (delete i m) Hnd). rewrite (todo_other sub idxs m) in IH.
  - fold (todo sub idxs m). lia.
  - intros j Hj. rewrite lookup_delete_ne; [done|]. intros ->. done.
Qed.

Lemma elem_todo {A} (sub : A → list Z) i idxs m e f : m !! i = Some e → f ∈ sub e.2 → f ∈ todo sub (i :: idxs) m.
Proof. intros Hi Hf. unfold todo. cbn. rewrite Hi. apply elem_of_app. by left. Qed.

Lemma todo_cons {A} (sub : A → list Z) i idxs m e : m !! i = Some e → todo sub (i :: idxs) m = sub e.2 ++ todo sub idxs m.
Proof. intros Hi. unfold todo. cbn. by rewrite Hi. Qed.

Lemma todo_pte i idxs (m : gmap nat pte) e : m !! i = Some e → todo (λ f, [f]) (i :: idxs) m = e.2 :: todo (λ f, [f]) idxs m.
Proof. apply (todo_cons (λ f, [f])). Qed.

Lemma frames_set_new {A} (sub : A → list Z) (d : dir A) i e : dents d !! i = None →
  frames_of sub (set_ent d i e) ≡ₚ sub e.2 ++ frames_of sub d.
Proof.
  intros Hi. unfold frames_of. cbn [set_ent dframe dents]. rewrite (below_insert sub _ i e Hi). by rewrite <- Permutation_middle.
Qed.

Lemma frames_set_same {A} (sub : A → list Z) (d : dir A) i e e' : dents d !! i = Some e → sub e'.2 ≡ₚ sub e.2 →
  frames_of sub (set_ent d i e') ≡ₚ frames_of sub d.
Proof.
  intros Hi Hs. unfold frames_of. cbn [set_ent dframe dents]. constructor. apply (Permutation_app_inv_l (sub e.2)).
  rewrite (below_replace sub (dents d) i e e' Hi). by rewrite Hs.
Qed.

Lemma set_ent_other {A} (d : dir A) i j e : j ≠ i → dents (set_ent d i e) !! j = dents d !! j.
Proof. intros Hj. cbn. by rewrite lookup_insert_ne. Qed.

Lemma set_ent_same {A} (d : dir A) i e : dents (set_ent d i e) !! i = Some e.
Proof. cbn. apply lookup_insert_eq. Qed.

(** ** The last level *)

Lemma clone_pml1_spec idxs : ∀ base (x c : pt) a H R, NoDup idxs → acct a (frames c ++ H) R →
  (∀ i, i ∈ idxs → dents c !! i = None) → (∀ f, f ∈ frames x → f ∈ H) →
  (∀ f, f ∈ frames x → refs f (frames c ++ H) + refs f (todo (λ f, [f]) idxs (dents x)) <= U16_MAX) →
  ∃ x' c' a', clone_pml1 vmas idxs base x c a = Ret (x', c', a') ∧ acct a' (frames c' ++ H) R ∧
    dframe c' = dframe c ∧ frames x' ≡ₚ frames x ∧
    (∀ f, refs f (frames c') = refs f (frames c) + refs f (todo (λ f, [f]) idxs (dents x))) ∧
    (∀ i, i ∈ idxs → dents x' !! i = cow_entry vmas (Z.lor base (Z.shiftl (Z.of_nat i) 12)) <$> dents x !! i ∧ dents c' !! i = dents x' !! i) ∧
    (∀ i, i ∉ idxs → dents x' !! i = dents x !! i ∧ dents c' !! i = dents c !! i).
Proof.
  induction idxs as [|i idxs IH]; intros base x c a H R Hnd Ha Hc Hx Hmax; cbn [clone_pml1].
  { eexists _, _, _. split_and!; try done; [intros f; rewrite refs_nil; lia|intros i Hi; by apply elem_of_nil in Hi]. }
  apply NoDup_cons in Hnd as [Hi Hnd]. destruct (dents x !! i) as [e|] eqn:Ei.
  - assert (He : e.2 ∈ frames x) by (right; eapply (elem_below _ _ i e); [done|by left]).
    destruct (acct_inc a e.2 (frames c ++ H) R Ha) as (a1 & -> & Ha1).
    { apply elem_of_app. right. by apply Hx. }
    { specialize (Hmax e.2 He). rewrite (todo_pte _ _ _ e Ei), refs_cons, decide_True in Hmax by done.
      pose proof (refs_nonneg e.2 (todo (λ f, [f]) idxs (dents x))). lia. }
    cbn [mbind outcome_bind]. set (e' := cow_entry vmas _ e). assert (He' : e'.2 = e.2) by apply cow_entry_frame.
    assert (Hfc : frames (set_ent c i e') ≡ₚ e.2 :: frames c).
    { cbn [frames level_pt]. rewrite (frames_set_new (λ f, [f]) c i e') by (apply Hc; by left). by rewrite He'. }
    assert (Hfx : frames (set_ent x i e') ≡ₚ frames x) by (apply (frames_set_same (λ f, [f]) x i e e' Ei); by rewrite He').
    assert (Htodo : todo (λ f, [f]) idxs (dents (set_ent x i e')) = todo (λ f, [f]) idxs (dents x)).
    { apply todo_other. intros j Hj. apply set_ent_other. by intros ->. }
    destruct (IH base (set_ent x i e') (set_ent c i e') a1 H R) as (x' & c' & a' & -> & H1 & H2 & H3 & H4 & H5 & H6).
    { done. }
    { eapply acct_perm; [|exact Ha1]. by rewrite Hfc. }
    { intros j Hj. rewrite set_ent_other by (by intros ->). apply Hc. by right. }
    { intros f Hf. apply Hx. by rewrite Hfx in Hf. }
    { intros f Hf. rewrite Hfx in Hf. specialize (Hmax f Hf). rewrite Htodo. rewrite (todo_pte _ _ _ e Ei), refs_cons in Hmax.
      rewrite Hfc. rewrite <- app_comm_cons, refs_cons. lia. }
    eexists _, _, _. split_and!; [done|done|done|by rewrite H3| | |].
    + intros f. rewrite H4, Hfc, Htodo, (todo_pte _ _ _ e Ei), !refs_cons. lia.
    + intros j [->|Hj]%elem_of_cons.
      * destruct (H6 i Hi) as [-> ->]. rewrite !set_ent_same, Ei. done.
      * destruct (H5 j Hj) as [-> ->]. rewrite set_ent_other by (by intros ->). done.
    + intros j Hj. apply not_elem_of_cons in Hj as [Hj1 Hj2]. destruct (H6 j Hj2) as [-> ->]. by rewrite !set_ent_other.
  - destruct (IH base x c a H R Hnd Ha) as (x' & c' & a' & -> & H1 & H2 & H3 & H4 & H5 & H6); try done.
    { intros j Hj. apply Hc. by right. }
    { intros f Hf. specialize (Hmax f Hf). unfold todo in Hmax. cbn in Hmax. by rewrite Ei in Hmax. }
    eexists _, _, _. split_and!; try done.
    + intros f. rewrite H4. unfold todo. cbn. by rewrite Ei.
    + intros j [->|Hj]%elem_of_cons; [|by apply H5]. destruct (H6 i Hi) as [-> ->]. rewrite Ei. split; [done|]. apply Hc. by left.
    + intros j Hj. apply not_elem_of_cons in Hj as [_ Hj]. by apply H6.
Qed.

(** The virtual addresses of the entries at each level. *)
Definition virt1 (base : Z) (i : nat) : Z := Z.lor base (Z.shiftl (Z.of_nat i) 12).
Definition virt_dir {K} (v : Z → K → Z) (shift base : Z) (ik : nat * K) : Z := v (Z.lor base (Z.shiftl (Z.of_nat ik.1) shift)) ik.2.

Lemma elem_of_seq i n : (i < n)%nat → i ∈ seq 0 n.
Proof. intros Hi. apply elem_of_seq. lia. Qed.

Lemma clone1_spec : CloneSpec (clone1 vmas) virt1.
Proof.
  intros base x cf a H R Ha Hcf Hb Hx Hmax. unfold clone1.
  destruct (clone_pml1_spec (seq 0 512) base x (zeroed cf) a H R) as (x' & c & a' & -> & H1 & H2 & H3 & H4 & H5 & H6); try done.
  { apply NoDup_seq. }
  { intros f Hf. pose proof (todo_le (λ f, [f]) (seq 0 512) (dents x) f (NoDup_seq _ _)) as Hle. specialize (Hmax f Hf).
    change (frames (zeroed cf : pt) ++ H) with (cf :: H). rewrite refs_cons, decide_False by (intros ->; by apply Hcf, Hx).
    cbn [frames level_pt] in Hmax. unfold frames_of in Hmax. rewrite refs_cons in Hmax. case_decide; lia. }
  cbn [mbind outcome_bind]. eexists _, _, _, _. split_and!; [done|done|done| |].
  - intros f Hf. rewrite H4. change (frames (zeroed cf : pt)) with [cf]. rewrite refs_cons, decide_False, refs_nil by (intros ->; done).
    pose proof (todo_le (λ f, [f]) (seq 0 512) (dents x) f (NoDup_seq _ _)) as Hle. cbn [frames level_pt]. unfold frames_of. rewrite refs_cons.
    case_decide; lia.
  - assert (Hall : ∀ i, dents x' !! i = cow_entry vmas (virt1 base i) <$> dents x !! i ∧ dents c !! i = dents x' !! i).
    { intros i. destruct (decide (i ∈ seq 0 512)) as [Hi|Hi]; [by apply H5|]. destruct (H6 i Hi) as [E1 E2]. rewrite E1, E2.
      destruct (dents x !! i) as [e|] eqn:Ei; [|done]. destruct Hi. apply elem_of_seq. by eapply Hb. }
    split; cbn [leaf level_pt bounded]; try done.
    + intros k. right. apply Hall.
    + intros k e Hk. destruct (Hall k) as [E1 E2]. rewrite <- E1, <- E2. done.
    + split; intros i e Hi; destruct (Hall i) as [E1 E2]; rewrite ?E2, E1 in Hi; destruct (dents x !! i) as [e0|] eqn:Ei; [by eapply Hb|done|by eapply Hb|done].
Qed.

(** One entry of an upper table after the loop. *)
Definition entry_ok {B} `{LB : Level (dir B)} (v : key → Z) (ok : bool) (ox ox' oc : option (Z * dir B)) : Prop :=
  match ox with
  | None => ox' = None ∧ oc = None
  | Some (fl, s) =>
      (ok = false ∧ ox' = Some (fl, s) ∧ oc = None) ∨
      ∃ oki s' cs, ox' = Some (fl, s') ∧ oc = Some (fl, cs) ∧ cloned v oki s s' cs ∧ (ok = true → oki = true)
  end.

Lemma clone_dir_spec {B} `{LB : Level (dir B)} (inner : Z → dir B → Z → F → outcome (dir B * dir B * bool * F)) v shift : CloneSpec inner v →
  ∀ idxs base (x c : dir (dir B)) a H R, NoDup idxs → acct a (frames c ++ H) R →
  (∀ i, i ∈ idxs → dents c !! i = None) → (∀ f, f ∈ frames x → f ∈ H) → (∀ i e, dents x !! i = Some e → bounded e.2) →
  (∀ f, f ∈ frames x → refs f (frames c ++ H) + refs f (todo frames idxs (dents x)) <= U16_MAX) →
  ∃ x' c' ok a', clone_dir inner shift idxs base x c a = Ret (x', c', ok, a') ∧ acct a' (frames c' ++ H) R ∧
    dframe c' = dframe c ∧ frames x' ≡ₚ frames x ∧
    (∀ f, f ∈ H → refs f (frames c') <= refs f (frames c) + refs f (todo frames idxs (dents x))) ∧
    (∀ i, i ∈ idxs → entry_ok (v (Z.lor base (Z.shiftl (Z.of_nat i) shift))) ok (dents x !! i) (dents x' !! i) (dents c' !! i)) ∧
    (∀ i, i ∉ idxs → dents x' !! i = dents x !! i ∧ dents c' !! i = dents c !! i).
Proof.
  intros Hin. induction idxs as [|i idxs IH]; intros base x c a H R Hnd Ha Hc Hx Hbs Hmax; cbn [clone_dir].
  { eexists _, _, _, _. split_and!; try done; [intros f _; rewrite refs_nil; lia|intros i Hi; by apply elem_of_nil in Hi]. }
  apply NoDup_cons in Hnd as [Hi Hnd]. destruct (dents x !! i) as [[fl s]|] eqn:Ei.
  - assert (Hsx : ∀ f, f ∈ frames s → f ∈ frames x) by (intros f Hf; right; by eapply (elem_below _ _ i (fl, s))).
    destruct (acct_alloc a (frames c ++ H) R Ha) as (r & a1 & -> & Hr). cbn [mbind outcome_bind]. destruct r as [cf|].
    2: { eexists _, _, _, _. split_and!; try done.
         - intros f _. pose proof (refs_nonneg f (todo frames (i :: idxs) (dents x))). lia.
         - intros j Hj. unfold entry_ok. destruct (dents x !! j) as [[fl' s']|]; [left; split_and!; try done; by apply Hc|split; [done|by apply Hc]]. }
    destruct Hr as (Ha1 & Hcf & _).
    destruct (Hin (Z.lor base (Z.shiftl (Z.of_nat i) shift)) s cf a1 (frames c ++ H) R Ha1 Hcf) as (s' & cs & oki & a2 & -> & Ha2 & Hdf & Hle & Hcl).
    { by apply (Hbs i (fl, s)). }
    { intros f Hf. apply elem_of_app. right. by apply Hx, Hsx. }
    { intros f Hf. specialize (Hmax f (Hsx f Hf)). rewrite (todo_cons _ _ _ _ (fl, s) Ei), (refs_app f (frames s)) in Hmax.
      pose proof (refs_nonneg f (todo frames idxs (dents x))). lia. }
    cbn [mbind outcome_bind]. set (x1 := set_ent x i (fl, s')). set (c1 := set_ent c i (fl, cs)).
    assert (Hfc : frames c1 ≡ₚ frames cs ++ frames c) by (apply (frames_set_new frames c i (fl, cs)), Hc; by left).
    assert (Hfx : frames x1 ≡ₚ frames x) by (apply (frames_set_same frames x i (fl, s) (fl, s') Ei); apply (c_frames _ _ _ _ _ Hcl)).
    assert (Ha3 : acct a2 (frames c1 ++ H) R) by (eapply acct_perm; [|exact Ha2]; by rewrite Hfc, <- (assoc (++))).
    assert (Hle1 : ∀ f, f ∈ H → refs f (frames c1) <= refs f (frames c) + refs f (frames s)).
    { intros f Hf. rewrite Hfc, refs_app. specialize (Hle f ltac:(apply elem_of_app; by right)). lia. }
    destruct oki.
    + assert (Htodo : todo frames idxs (dents x1) = todo frames idxs (dents x)) by (apply todo_other; intros j Hj; apply set_ent_other; by intros ->).
      destruct (IH base x1 c1 a2 H R Hnd Ha3) as (x' & c' & ok & a' & -> & H1 & H2 & H3 & H4 & H5 & H6).
      { intros j Hj. unfold c1. rewrite set_ent_other by (by intros ->). apply Hc. by right. }
      { intros f Hf. apply Hx. by rewrite Hfx in Hf. }
      { intros j e. destruct (decide (j = i)) as [->|Hj].
        - unfold x1. rewrite set_ent_same. intros [= <-]. apply (c_bounded _ _ _ _ _ Hcl).
        - unfold x1. rewrite set_ent_other by done. apply Hbs. }
      { intros f Hf. rewrite Hfx in Hf. specialize (Hmax f Hf). rewrite (todo_cons _ _ _ _ (fl, s) Ei), (refs_app f (frames s)), refs_app in Hmax.
        rewrite Htodo, refs_app. cbn [snd] in Hmax. specialize (Hle1 f (Hx f Hf)). lia. }
      eexists _, _, _, _. split_and!; [done|done|by rewrite H2|by rewrite H3| | |].
      * intros f Hf. specialize (H4 f Hf). specialize (Hle1 f Hf). rewrite Htodo in H4. rewrite (todo_cons _ _ _ _ (fl, s) Ei), (refs_app f (frames s)). cbn [snd]. lia.
      * intros j [->|Hj]%elem_of_cons.
        -- destruct (H6 i Hi) as [-> ->]. unfold x1, c1. rewrite !set_ent_same, Ei. right. by exists true, s', cs.
        -- specialize (H5 j Hj). unfold x1 in H5. by rewrite set_ent_other in H5 by (by intros ->).
      * intros j Hj. apply not_elem_of_cons in Hj as [Hj1 Hj2]. destruct (H6 j Hj2) as [-> ->]. unfold x1, c1. by rewrite !set_ent_other.
    + eexists _, _, _, _. split_and!; [done|done|done|done| | |].
      * intros f Hf. specialize (Hle1 f Hf). rewrite (todo_cons _ _ _ _ (fl, s) Ei), (refs_app f (frames s)). cbn [snd].
        pose proof (refs_nonneg f (todo frames idxs (dents x))). lia.
      * intros j [->|Hj]%elem_of_cons.
        -- unfold x1, c1. rewrite !set_ent_same, Ei. right. by exists false, s', cs.
        -- unfold x1, c1. rewrite !set_ent_other by (by intros ->). unfold entry_ok. specialize (Hc j ltac:(by right)).
           destruct (dents x !! j) as [[fl' s'']|]; [by left|by split].
      * intros j Hj. apply not_elem_of_cons in Hj as [Hj1 Hj2]. unfold x1, c1. by rewrite !set_ent_other.
  - destruct (IH base x c a H R Hnd Ha) as (x' & c' & ok & a' & -> & H1 & H2 & H3 & H4 & H5 & H6); try done.
    { intros j Hj. apply Hc. by right. }
    { intros f Hf. specialize (Hmax f Hf). unfold todo in Hmax. cbn in Hmax. by rewrite Ei in Hmax. }
    eexists _, _, _, _. split_and!; try done.
    + intros f Hf. specialize (H4 f Hf). unfold todo. cbn. by rewrite Ei.
    + intros j [->|Hj]%elem_of_cons; [|by apply H5]. destruct (H6 i Hi) as [-> ->]. rewrite Ei. split; [done|]. apply Hc. by left.
    + intros j Hj. apply not_elem_of_cons in Hj as [_ Hj]. by apply H6.
Qed.

(** From the entries to the whole table. *)
Lemma entries_cloned {B} `{LB : Level (dir B)} v shift base ok n (x x' c : dir (dir B)) : (n <= 512)%nat → within n x → bounded x →
  frames x' ≡ₚ frames x →
  (∀ i, i ∈ seq 0 n → entry_ok (v (Z.lor base (Z.shiftl (Z.of_nat i) shift))) ok (dents x !! i) (dents x' !! i) (dents c !! i)) →
  (∀ i, i ∉ seq 0 n → dents x' !! i = dents x !! i ∧ dents c !! i = None) →
  cloned (LA := level_dir (dir B)) (virt_dir v shift base) ok x x' c ∧ within n c ∧ within n x'.
Proof.
  intros Hn Hw Hb Hf Hin Hout.
  assert (Hent : ∀ i, entry_ok (v (Z.lor base (Z.shiftl (Z.of_nat i) shift))) ok (dents x !! i) (dents x' !! i) (dents c !! i) ∧
    (is_Some (dents x' !! i) ∨ is_Some (dents c !! i) → (i < n)%nat)).
  { intros i. destruct (decide (i ∈ seq 0 n)) as [Hi|Hi].
    - split; [by apply Hin|]. apply list_elem_of_In, in_seq in Hi. lia.
    - destruct (Hout i Hi) as [-> ->]. assert (E : dents x !! i = None).
      { destruct (dents x !! i) as [e|] eqn:E; [|done]. destruct Hi. apply elem_of_seq. by eapply Hw. }
      rewrite E. split; [done|]. intros [[? ?]|[? ?]]; done. }
  assert (Hwc : within n c) by (intros i e He; apply Hent; right; by exists e).
  assert (Hwx : within n x') by (intros i e He; apply Hent; left; by exists e).
  split; [|done]. split.
  - intros [i k]. destruct (Hent i) as [Hi _]. cbn [leaf level_dir fst snd virt_dir]. unfold entry_ok in Hi.
    destruct (dents x !! i) as [[fl s]|]; [|destruct Hi as [-> _]; by left].
    destruct Hi as [(_ & -> & _)|(oki & s' & cs & -> & _ & Hcl & _)]; [by left|]. apply (c_parent _ _ _ _ _ Hcl).
  - intros [i k] e. destruct (Hent i) as [Hi _]. cbn [leaf level_dir fst snd virt_dir]. unfold entry_ok in Hi.
    destruct (dents x !! i) as [[fl s]|]; [|by destruct Hi as [_ ->]].
    destruct Hi as [(_ & _ & ->)|(oki & s' & cs & -> & -> & Hcl & _)]; [done|]. apply (c_child _ _ _ _ _ Hcl).
  - intros Hok [i k]. destruct (Hent i) as [Hi _]. cbn [leaf level_dir fst snd virt_dir]. unfold entry_ok in Hi.
    destruct (dents x !! i) as [[fl s]|]; [|destruct Hi as [-> ->]; done].
    destruct Hi as [(? & _)|(oki & s' & cs & -> & -> & Hcl & Hk)]; [congruence|]. apply (c_ok _ _ _ _ _ Hcl). auto.
  - done.
  - assert (Hs : ∀ i e, dents c !! i = Some e ∨ dents x' !! i = Some e → bounded e.2).
    { intros i e He. destruct (Hent i) as [Hi _]. unfold entry_ok in Hi. destruct (dents x !! i) as [[fl s]|] eqn:Ei.
      - destruct Hi as [(_ & E1 & E2)|(oki & s' & cs & E1 & E2 & Hcl & _)]; rewrite E1, E2 in He.
        + destruct He as [?|[= <-]]; [done|]. by apply (proj2 Hb i (fl, s)).
        + destruct He as [[= <-]|[= <-]]; apply (c_bounded _ _ _ _ _ Hcl).
      - destruct Hi as [E1 E2]. rewrite E1, E2 in He. by destruct He. }
    split; (split; [intros i e He|intros i e He; apply (Hs i); auto]); [specialize (Hwc i e He)|specialize (Hwx i e He)]; lia.
Qed.

Lemma clone_level {B} `{LB : Level (dir B)} (inner : Z → dir B → Z → F → outcome (dir B * dir B * bool * F)) v shift n : CloneSpec inner v →
  (n <= 512)%nat → ∀ base (x : dir (dir B)) cf a H R, acct a (cf :: H) R → cf ∉ H → within n x → bounded x → (∀ f, f ∈ frames x → f ∈ H) →
    (∀ f, f ∈ frames x → refs f H + refs f (frames x) <= U16_MAX) →
    ∃ x' c ok a', clone_dir inner shift (seq 0 n) base x (zeroed cf) a = Ret (x', c, ok, a') ∧ acct a' (frames c ++ H) R ∧ dframe c = cf ∧
      (∀ f, f ∈ H → refs f (frames c) <= refs f (frames x)) ∧ cloned (LA := level_dir (dir B)) (virt_dir v shift base) ok x x' c ∧ within n c ∧ within n x'.
Proof.
  intros Hin Hn base x cf a H R Ha Hcf Hw Hb Hx Hmax.
  assert (Hle : ∀ f, refs f (todo frames (seq 0 n) (dents x)) <= refs f (frames x)).
  { intros f. pose proof (todo_le frames (seq 0 n) (dents x) f (NoDup_seq _ _)). cbn [frames level_dir]. unfold frames_of. rewrite refs_cons. case_decide; lia. }
  destruct (clone_dir_spec inner v shift Hin (seq 0 n) base x (zeroed cf) a H R) as (x' & c & ok & a' & E & H1 & H2 & H3 & H4 & H5 & H6); try done.
  { apply NoDup_seq. }
  { apply Hb. }
  { intros f Hf. specialize (Hmax f Hf). specialize (Hle f). change (frames (zeroed cf : dir (dir B)) ++ H) with (cf :: H).
    rewrite refs_cons, decide_False by (intros ->; by apply Hcf, Hx). lia. }
  destruct (entries_cloned v shift base ok n x x' c) as (Hcl & Hwc & Hwx); try done.
  exists x', c, ok, a'. split_and!; [done|done|done| |done|done|done].
  intros f Hf. specialize (H4 f Hf). specialize (Hle f). change (frames (zeroed cf : dir (dir B))) with [cf] in H4.
  rewrite refs_cons, decide_False, refs_nil in H4 by (intros ->; done). lia.
Qed.

Lemma clone2_spec : CloneSpec (clone2 vmas) (virt_dir virt1 21).
Proof.
  intros base x cf a H R Ha Hcf Hb Hx Hmax.
  destruct (clone_level (LB := level_pt) (clone1 vmas) virt1 21 512 clone1_spec ltac:(lia) base x cf a H R) as (x' & c & ok & a' & E & ? & ? & ? & ? & _); try done; [apply Hb|].
  by exists x', c, ok, a'.
Qed.

Lemma clone3_spec : CloneSpec (clone3 vmas) (virt_dir (virt_dir virt1 21) 30).
Proof.
  intros base x cf a H R Ha Hcf Hb Hx Hmax.
  destruct (clone_level (LB := level_dir pt) (clone2 vmas) _ 30 512 clone2_spec ltac:(lia) base x cf a H R) as (x' & c & ok & a' & E & ? & ? & ? & ? & _); try done; [apply Hb|].
  by exists x', c, ok, a'.
Qed.

(** The address of a leaf entry of the whole tree. *)
Definition virt (k : nat * (nat * (nat * nat))) : Z := virt_dir (virt_dir (virt_dir virt1 21) 30) 39 0 k.

(** A user address space: 256 entries at the top. *)
Definition user_half (t : pml4) : Prop := within 256 t ∧ bounded t.

Lemma clone_user_half_spec (x : pml4) cf (a : F) H R : acct a (cf :: H) R → cf ∉ H → user_half x → (∀ f, f ∈ frames x → f ∈ H) →
  (∀ f, f ∈ frames x → refs f H + refs f (frames x) <= U16_MAX) →
  ∃ x' c ok a', clone_user_half vmas x cf a = Ret (x', c, ok, a') ∧ acct a' (frames c ++ H) R ∧ dframe c = cf ∧
    (∀ f, f ∈ H → refs f (frames c) <= refs f (frames x)) ∧ cloned (LA := level_dir pdpt) virt ok x x' c ∧ within 256 c ∧ within 256 x'.
Proof.
  intros Ha Hcf [Hw Hb] Hx Hmax.
  destruct (clone_level (LB := level_dir pd) (clone3 vmas) _ 39 256 clone3_spec ltac:(lia) 0 x cf a H R) as (x' & c & ok & a' & E & ? & ? & ? & ? & ? & ?); try done.
  by exists x', c, ok, a'.
Qed.

(** ** Giving a copy back *)

Lemma todo_all {A} (sub : A → list Z) idxs m : NoDup idxs → (∀ i e, m !! i = Some e → i ∈ idxs) → todo sub idxs m ≡ₚ below sub m.
Proof.
  revert m. induction idxs as [|i idxs IH]; intros m Hnd Hm.
  - assert (m = ∅) as ->; [|done]. apply map_empty. intros i. destruct (m !! i) as [e|] eqn:E; [|done].
    specialize (Hm i e E). by apply elem_of_nil in Hm.
  - apply NoDup_cons in Hnd as [Hi Hnd]. assert (Hrest : ∀ j e, delete i m !! j = Some e → j ∈ idxs).
    { intros j e Hj. apply lookup_delete_Some in Hj as [Hne Hj]. specialize (Hm j e Hj). apply elem_of_cons in Hm as [->|?]; done. }
    assert (Hother : todo sub idxs (delete i m) = todo sub idxs m) by (apply todo_other; intros j Hj; rewrite lookup_delete_ne; [done|by intros ->]).
    specialize (IH (delete i m) Hnd Hrest). rewrite Hother in IH. destruct (m !! i) as [e|] eqn:E.
    + by rewrite (todo_cons sub i idxs m e E), (below_delete sub m i e E), IH.
    + unfold todo. cbn. rewrite E. cbn. fold (todo sub idxs m). rewrite IH. by rewrite delete_id.
Qed.

(** A function that gives back everything below a table, but not its frame: the
    mapped frames have other owners. *)
Definition FreeSpec {B} `{LB : Level (dir B)} (inner : dir B → F → outcome F) : Prop :=
  ∀ d l a H R, frames d = dframe d :: l → bounded d → acct a (l ++ H) R → (∀ k e, leaf d k = Some e → e.2 ∈ H) →
    ∃ a', inner d a = Ret a' ∧ acct a' H R.

Lemma free_pml1_loop idxs (d : pt) : ∀ a H R, acct a (todo (λ f, [f]) idxs (dents d) ++ H) R → (∀ i e, dents d !! i = Some e → e.2 ∈ H) →
  ∃ a', free_pml1 idxs d a = Ret a' ∧ acct a' H R.
Proof.
  induction idxs as [|i idxs IH]; intros a H R Ha Hl; cbn [free_pml1]; [by exists a|].
  destruct (dents d !! i) as [[fl f]|] eqn:E.
  - rewrite (todo_pte i idxs _ (fl, f) E) in Ha. cbn in Ha. destruct (acct_dec a f _ R Ha) as (m & a1 & -> & Ha1). cbn [mbind outcome_bind].
    rewrite bool_decide_true in Ha1 by (apply elem_of_app; right; by apply (Hl i (fl, f))). by apply IH.
  - unfold todo in Ha. cbn in Ha. rewrite E in Ha. by apply IH.
Qed.

Lemma free_pml1_spec : FreeSpec (free_pml1 (seq 0 512)).
Proof.
  intros d l a H R Hl Hb Ha Hin. apply (free_pml1_loop _ _ _ H R); [|exact Hin]. eapply acct_perm; [|exact Ha]. cbn in Hl. injection Hl as <-.
  rewrite (todo_all (λ f, [f]) (seq 0 512) (dents d)); [done|apply NoDup_seq|]. intros i e Hi. apply elem_of_seq. by eapply Hb.
Qed.

Lemma free_dir_loop {B} `{LB : Level (dir B)} (inner : dir B → F → outcome F) idxs (d : dir (dir B)) : FreeSpec inner →
  (∀ s : dir B, ∃ l, frames s = dframe s :: l) → (∀ i e, dents d !! i = Some e → bounded e.2) →
  ∀ a H R, acct a (todo frames idxs (dents d) ++ H) R → (∀ ik e, leaf d ik = Some e → e.2 ∈ H) →
  ∃ a', free_dir inner idxs d a = Ret a' ∧ acct a' H R.
Proof.
  intros Hin Hfr Hb. induction idxs as [|i idxs IH]; intros a H R Ha Hl; cbn [free_dir]; [by exists a|].
  destruct (dents d !! i) as [[fl s]|] eqn:E.
  - rewrite (todo_cons frames i idxs _ (fl, s) E) in Ha. cbn [snd] in Ha. destruct (Hfr s) as [l El]. rewrite El in Ha.
    destruct (Hin s l a (dframe s :: todo frames idxs (dents d) ++ H) R El) as (a1 & -> & Ha1).
    { by apply (Hb i (fl, s)). }
    { eapply acct_perm; [|exact Ha]. rewrite <- !(assoc (++)). cbn. by rewrite Permutation_middle. }
    { intros k e Hk. right. apply elem_of_app. right. apply (Hl (i, k)). cbn. by rewrite E. }
    cbn [mbind outcome_bind]. destruct (acct_free a1 (dframe s) _ R Ha1) as (a2 & -> & Ha2). cbn [mbind outcome_bind]. by apply IH.
  - unfold todo in Ha. cbn in Ha. rewrite E in Ha. by apply IH.
Qed.

Lemma free_dir_spec {B} `{LB : Level (dir B)} (inner : dir B → F → outcome F) n : FreeSpec inner →
  (∀ s : dir B, ∃ l, frames s = dframe s :: l) →
  ∀ (d : dir (dir B)) l a H R, frames d = dframe d :: l → within n d → bounded d → acct a (l ++ H) R → (∀ k e, leaf d k = Some e → e.2 ∈ H) →
    ∃ a', free_dir inner (seq 0 n) d a = Ret a' ∧ acct a' H R.
Proof.
  intros Hin Hfr d l a H R Hl Hw Hb Ha Hleaf. eapply (free_dir_loop inner); [done|done|apply Hb| |exact Hleaf].
  eapply acct_perm; [|exact Ha]. cbn in Hl. injection Hl as <-.
  rewrite (todo_all frames (seq 0 n) (dents d)); [done|apply NoDup_seq|]. intros i e Hi. apply elem_of_seq. by eapply Hw.
Qed.

Lemma free_child_user_half_spec (c : pml4) l (a : F) H R : frames c = dframe c :: l → user_half c → acct a (l ++ H) R →
  (∀ k e, leaf c k = Some e → e.2 ∈ H) → ∃ a', free_child_user_half c a = Ret a' ∧ acct a' H R.
Proof.
  intros Hl [Hw Hb] Ha Hin. unfold free_child_user_half.
  assert (S2 : FreeSpec (free_dir (free_pml1 (seq 0 512)) (seq 0 512))).
  { intros d' l' a' H' R' ? Hb'. apply (free_dir_spec _ 512 free_pml1_spec); [eauto|done|apply Hb'|done]. }
  assert (S3 : FreeSpec (free_dir (free_dir (free_pml1 (seq 0 512)) (seq 0 512)) (seq 0 512))).
  { intros d' l' a' H' R' ? Hb'. apply (free_dir_spec _ 512 S2); [eauto|done|apply Hb'|done]. }
  apply (free_dir_spec _ 256 S3) with (l := l); [eauto|done..].
Qed.

(** [clone_user_page_tables_cow] with no frame near the end of its count: it
    does not panic; the parent keeps its frames, each of its leaf entries at
    most turned into a copy-on-write one; a copy that was built has the parent's
    new entries and is accounted for; one that was not is given back. *)
Lemma clone_tables_spec (x : pml4) (a : F) H R : acct a H R → user_half x → (∀ f, f ∈ frames x → f ∈ H) →
  (∀ f, f ∈ frames x → refs f H + refs f (frames x) <= U16_MAX) →
  ∃ x' r a', clone_user_page_tables_cow vmas x a = Ret (x', r, a') ∧ user_half x' ∧ frames x' ≡ₚ frames x ∧
    (∀ k, leaf x' k = leaf x k ∨ leaf x' k = cow_entry vmas (virt k) <$> leaf x k) ∧
    match r with
    | Some c => acct a' (frames c ++ H) R ∧ user_half c ∧ (∀ f, f ∈ H → refs f (frames c) <= refs f (frames x)) ∧ ∀ k, leaf x' k = cow_entry vmas (virt k) <$> leaf x k ∧ leaf c k = leaf x' k
    | None => acct a' H R
    end.
Proof.
  intros Ha Hu Hx Hmax. unfold clone_user_page_tables_cow. destruct (acct_alloc a H R Ha) as (r & a1 & -> & Hr). cbn [mbind outcome_bind].
  destruct r as [cf|]; [|eexists _, _, _; split_and!; try done; by left]. destruct Hr as (Ha1 & Hcf & _).
  destruct (clone_user_half_spec x cf a1 H R Ha1 Hcf Hu Hx Hmax) as (x' & c & ok & a2 & -> & Ha2 & Hdf & Hle & Hcl & Hwc & Hwx). cbn [mbind outcome_bind].
  destruct Hcl as [H1 H2 H3 H4 [H5 H6]]. destruct ok.
  - eexists _, _, _. split; [done|]. split; [done|]. split; [done|]. split; [done|]. split; [done|]. split; [done|]. split; [done|by apply H3].
  - destruct (free_child_user_half_spec c (below frames (dents c)) a2 (cf :: H) R) as (a3 & -> & Ha3); [done|done| | |].
    { eapply acct_perm; [|exact Ha2]. cbn [frames level_dir]. unfold frames_of. rewrite Hdf. cbn. by rewrite Permutation_middle. }
    { intros k e Hk. right. destruct (H2 k e Hk) as [Hk' _]. apply Hx. rewrite <- H4.
      destruct (leaf_frame x' k e Hk') as (rest & -> & _). by left. }
    cbn [mbind outcome_bind]. destruct (acct_free a3 cf H R Ha3) as (a4 & -> & Ha4). cbn [mbind outcome_bind].
    eexists _, _, _. split_and!; try done.
Qed.

End Fork.

End CowFork.
