(* ===== verification/AddressSpace.v ===== *)
(** * Address spaces

    Processes with their page tables and memory areas, the physical memory and
    the frame allocator: fork, faults and user stores, and what each of them
    does to what the other processes see. *)

From stdpp Require Import functions.
From S2P Require Import Prelude BTree FrameOwner PageTable Vma Cow CowFork.

Module AddressSpace.

Import FrameOwner PageTable Cow CowFork.

Section Space.

Context {F : Type} `{FO : FrameOwner F}.

(** ** Mapping a page *)

(** The references beside those of the tables: a frame that could not be mapped
    is still held. *)
Definition still (ok : bool) (e : pte) (H : list Z) : list Z := if ok then H else e.2 :: H.

(** A function that enters [e] at [k0], which is a reference to the frame of
    [e]; the tables it adds lie in frames that had no owner. *)
Definition MapSpec {B} `{LB : Level (dir B)} (inner : dir B → F → outcome (bool * dir B * F)) (k0 : key) (e : pte) : Prop :=
  ∀ x a H R, bounded x → acct a (frames x ++ e.2 :: H) R →
    ∃ ok x' a', inner x a = Ret (ok, x', a') ∧ bounded x' ∧ acct a' (frames x' ++ still ok e H) R ∧
      (∀ f, f ∈ frames x ++ e.2 :: H → refs f (frames x' ++ still ok e H) = refs f (frames x ++ e.2 :: H)) ∧
      if ok : bool then leaf x k0 = None ∧ ∀ k, leaf x' k = if decide (k = k0) then Some e else leaf x k
      else ∀ k, leaf x' k = leaf x k.

Lemma map_leaf_spec i e : (i < 512)%nat → MapSpec (LB := level_pt) (map_leaf i e) i e.
Proof.
  intros Hi x a H R Hb Ha. unfold map_leaf. destruct (dents x !! i) as [e0|] eqn:E; eexists _, _, _; (split; [done|]).
  - done.
  - assert (Hx : frames (set_ent x i e) ++ H ≡ₚ frames x ++ e.2 :: H).
    { cbn [frames level_pt]. rewrite (frames_set_new (λ f, [f]) x i e E). cbn. solve_Permutation. }
    split; [by apply within_set|]. cbn [still]. split; [by eapply acct_perm; [symmetry; exact Hx|]|]. split; [intros f _; by rewrite Hx|].
    split; [done|]. intros k. cbn [leaf level_pt]. case_decide; [subst; by rewrite set_ent_same|by rewrite set_ent_other].
Qed.

(** A table just zeroed maps nothing. *)
Definition ZeroedSpec B `{LB : Level (dir B)} : Prop :=
  ∀ f, frames (zeroed f : dir B) = [f] ∧ bounded (zeroed f : dir B) ∧ ∀ k, leaf (zeroed f : dir B) k = None.

Lemma zeroed_pt : ZeroedSpec Z.
Proof. intros f. split; [done|]. split; [by intros i e|done]. Qed.

Lemma zeroed_dir B `{LB : Level (dir B)} : ZeroedSpec (dir B).
Proof. intros f. split; [done|]. split; [split; by intros i e|done]. Qed.

Lemma set_sub_leaf {B} `{LB : Level (dir B)} (d : dir (dir B)) i fl s ik :
  leaf (set_ent d i (fl, s)) ik = if decide (ik.1 = i) then leaf s ik.2 else leaf d ik.
Proof. cbn [leaf level_dir]. case_decide as Hi; [rewrite Hi, set_ent_same; done|by rewrite set_ent_other]. Qed.

Lemma set_sub_bounded {B} `{LB : Level (dir B)} (d : dir (dir B)) i fl s : (i < 512)%nat → bounded s → bounded d → bounded (set_ent d i (fl, s)).
Proof.
  intros Hi Hs [Hw Hb]. split; [by apply within_set|]. intros j e. destruct (decide (j = i)) as [->|Hj].
  - rewrite set_ent_same. by intros [= <-].
  - rewrite set_ent_other by done. apply Hb.
Qed.

(** The leaves of a table one of whose subtables had [e] entered. *)
Lemma entered_leaves {B} `{LB : Level (dir B)} (x : dir (dir B)) i fl s s' (ok : bool) k0 e :
  (∀ k, leaf x (i, k) = leaf s k) →
  (if ok then leaf s k0 = None ∧ ∀ k, leaf s' k = if decide (k = k0) then Some e else leaf s k else ∀ k, leaf s' k = leaf s k) →
  if ok then leaf x (i, k0) = None ∧ ∀ ik, leaf (set_ent x i (fl, s')) ik = if decide (ik = (i, k0)) then Some e else leaf x ik
  else ∀ ik, leaf (set_ent x i (fl, s')) ik = leaf x ik.
Proof.
  intros Hx. destruct ok.
  - intros [Hn Hl]. split; [by rewrite Hx|]. intros [j k]. rewrite set_sub_leaf. cbn [fst snd]. destruct (decide (j = i)) as [->|Hj].
    + rewrite Hl, Hx. repeat case_decide; congruence.
    + by rewrite decide_False by congruence.
  - intros Hl [j k]. rewrite set_sub_leaf. cbn [fst snd]. destruct (decide (j = i)) as [->|Hj]; [|done]. by rewrite Hl, Hx.
Qed.

Lemma map_dir_old {B} `{LB : Level (dir B)} (inner : dir B → F → outcome (bool * dir B * F)) k0 e fl i (x : dir (dir B)) fl0 s a H R :
  MapSpec inner k0 e → (i < 512)%nat → dents x !! i = Some (fl0, s) → bounded x → acct a (frames x ++ e.2 :: H) R →
  ∃ ok s' a', inner s a = Ret (ok, s', a') ∧ bounded (set_ent x i (fl, s')) ∧ acct a' (frames (set_ent x i (fl, s')) ++ still ok e H) R ∧
    (∀ f, f ∈ frames x ++ e.2 :: H → refs f (frames (set_ent x i (fl, s')) ++ still ok e H) = refs f (frames x ++ e.2 :: H)) ∧
    if ok then leaf x (i, k0) = None ∧ ∀ ik, leaf (set_ent x i (fl, s')) ik = if decide (ik = (i, k0)) then Some e else leaf x ik
    else ∀ ik, leaf (set_ent x i (fl, s')) ik = leaf x ik.
Proof.
  intros Hin Hi Ei Hb Ha. pose proof (below_delete frames (dents x) i (fl0, s) Ei) as Hx. cbn [snd] in Hx.
  set (H' := dframe x :: below frames (delete i (dents x)) ++ H).
  assert (Hold : frames x ++ e.2 :: H ≡ₚ frames s ++ e.2 :: H').
  { unfold H'. cbn [frames level_dir]. unfold frames_of. rewrite Hx. solve_Permutation. }
  destruct (Hin s a H' R) as (ok & s' & a' & E & Hbs & Ha' & Hr & Hok).
  { by apply (proj2 Hb i (fl0, s)). }
  { by eapply acct_perm; [exact Hold|]. }
  assert (Hnew : frames (set_ent x i (fl, s')) ++ still ok e H ≡ₚ frames s' ++ still ok e H').
  { unfold H'. cbn [frames level_dir]. unfold frames_of. cbn [set_ent dframe dents]. rewrite <- insert_delete_eq.
    rewrite below_insert by apply lookup_delete_eq. cbn [snd]. destruct ok; cbn [still]; solve_Permutation. }
  exists ok, s', a'. split; [done|]. split; [by apply set_sub_bounded|]. split; [by eapply acct_perm; [symmetry; exact Hnew|]|].
  split; [intros f Hf; rewrite Hnew, Hold; apply Hr; by rewrite <- Hold|]. apply (entered_leaves x i fl s); [|done]. intros k. cbn. by rewrite Ei.
Qed.

Lemma map_dir_new {B} `{LB : Level (dir B)} (inner : dir B → F → outcome (bool * dir B * F)) k0 e fl i (x : dir (dir B)) g a H R :
  MapSpec inner k0 e → ZeroedSpec B → (i < 512)%nat → dents x !! i = None → bounded x →
  acct a (g :: frames x ++ e.2 :: H) R → g ∉ frames x ++ e.2 :: H →
  ∃ ok s' a', inner (zeroed g) a = Ret (ok, s', a') ∧ bounded (set_ent x i (fl, s')) ∧ acct a' (frames (set_ent x i (fl, s')) ++ still ok e H) R ∧
    (∀ f, f ∈ frames x ++ e.2 :: H → refs f (frames (set_ent x i (fl, s')) ++ still ok e H) = refs f (frames x ++ e.2 :: H)) ∧
    if ok then leaf x (i, k0) = None ∧ ∀ ik, leaf (set_ent x i (fl, s')) ik = if decide (ik = (i, k0)) then Some e else leaf x ik
    else ∀ ik, leaf (set_ent x i (fl, s')) ik = leaf x ik.
Proof.
  intros Hin Hz Hi Ei Hb Ha Hg. destruct (Hz g) as (Hzf & Hzb & Hzl).
  assert (Hold : g :: frames x ++ e.2 :: H ≡ₚ frames (zeroed g : dir B) ++ e.2 :: frames x ++ H) by (rewrite Hzf; solve_Permutation).
  destruct (Hin (zeroed g) a (frames x ++ H) R Hzb) as (ok & s' & a' & E & Hbs & Ha' & Hr & Hok); [by eapply acct_perm; [exact Hold|]|].
  assert (Hnew : frames (set_ent x i (fl, s')) ++ still ok e H ≡ₚ frames s' ++ still ok e (frames x ++ H)).
  { cbn [frames level_dir]. rewrite (frames_set_new frames x i (fl, s') Ei). cbn [snd]. destruct ok; cbn [still]; solve_Permutation. }
  exists ok, s', a'. split; [done|]. split; [by apply set_sub_bounded|]. split; [by eapply acct_perm; [symmetry; exact Hnew|]|]. split.
  - intros f Hf. rewrite Hnew, Hr by (rewrite <- Hold; by right). rewrite <- Hold, refs_cons, decide_False; [lia|]. by intros ->.
  - apply (entered_leaves x i fl (zeroed g)); [|done]. intros k. rewrite Hzl. cbn. by rewrite Ei.
Qed.

Lemma map_dir_spec {B} `{LB : Level (dir B)} (inner : dir B → F → outcome (bool * dir B * F)) k0 e fl i :
  MapSpec inner k0 e → ZeroedSpec B → (i < 512)%nat → MapSpec (LB := level_dir (dir B)) (map_dir inner fl i) (i, k0) e.
Proof.
  intros Hin Hz Hi x a H R Hb Ha. unfold map_dir. destruct (dents x !! i) as [[fl0 s]|] eqn:Ei.
  - destruct (map_dir_old inner k0 e (Z.lor fl0 fl) i x fl0 s a H R Hin Hi Ei Hb Ha) as (ok & s' & a' & -> & Hres). cbn [mbind outcome_bind].
    eexists _, _, _. by split.
  - destruct (acct_alloc a _ R Ha) as (r & a1 & -> & Hr). cbn [mbind outcome_bind]. destruct r as [g|]; [|by eexists _, _, _].
    destruct Hr as (Ha1 & Hg & _). destruct (map_dir_new inner k0 e fl i x g a1 H R Hin Hz Hi Ei Hb Ha1 Hg) as (ok & s' & a' & -> & Hres).
    cbn [mbind outcome_bind]. eexists _, _, _. by split.
Qed.

Lemma idx_bound a k : (Z.to_nat (Z.land (Z.shiftr a k) 0x1FF) < 512)%nat.
Proof.
  change 0x1FF with (Z.ones 9). rewrite Z.land_ones by lia. pose proof (Z.mod_pos_bound (Z.shiftr a k) (2 ^ 9) ltac:(lia)). lia.
Qed.

Lemma pml4_idx_user addr : 0 <= addr < 2 ^ 47 → (pml4_idx addr < 256)%nat.
Proof.
  intros Ha. unfold pml4_idx. change 0x1FF with (Z.ones 9). rewrite Z.land_ones, Z.shiftr_div_pow2 by lia.
  assert (0 <= addr / 2 ^ 39 < 256) by (split; [apply Z.div_pos; lia|apply Z.div_lt_upper_bound; lia]).
  rewrite Z.mod_small by lia. lia.
Qed.

Lemma map_dir_within {B} (inner : dir B → F → outcome (bool * dir B * F)) fl i (d : dir (dir B)) a ok d' a' n :
  map_dir inner fl i d a = Ret (ok, d', a') → (i < n)%nat → within n d → within n d'.
Proof.
  unfold map_dir. intros E Hi Hw. destruct (dents d !! i) as [[fl0 s]|].
  - destruct (inner s a) as [[[ok1 s1] a1]|]; cbn in E; [|done]. injection E as <- <- <-. by apply within_set.
  - destruct (allocate_frame a) as [[r a1]|]; cbn in E; [|done]. destruct r as [f|]; [|by injection E as <- <- <-].
    destruct (inner (zeroed f) a1) as [[[ok1 s1] a2]|]; cbn in E; [|done]. injection E as <- <- <-. by apply within_set.
Qed.

Lemma map_page_spec (t : pml4) addr f fl (a : F) H R : 0 <= addr < 2 ^ 47 → user_half t → acct a (frames t ++ f :: H) R →
  ∃ ok t' a', map_page_direct t addr f fl a = Ret (ok, t', a') ∧ user_half t' ∧ acct a' (frames t' ++ still ok (fl, f) H) R ∧
    (∀ g, g ∈ frames t ++ f :: H → refs g (frames t' ++ still ok (fl, f) H) = refs g (frames t ++ f :: H)) ∧
    if ok : bool then walk t addr = None ∧ ∀ k, leaf t' k = if decide (k = path addr) then Some (fl, f) else leaf t k
    else ∀ k, leaf t' k = leaf t k.
Proof.
  intros Haddr [Hw Hb] Ha. unfold map_page_direct. set (ifl := Z.lor _ _).
  pose proof (map_leaf_spec (pml1_idx addr) (fl, f) (idx_bound _ _)) as S1.
  pose proof (map_dir_spec _ _ _ ifl (pml2_idx addr) S1 zeroed_pt (idx_bound _ _)) as S2.
  pose proof (map_dir_spec _ _ _ ifl (pml3_idx addr) S2 (zeroed_dir Z) (idx_bound _ _)) as S3.
  pose proof (map_dir_spec _ _ _ ifl (pml4_idx addr) S3 (zeroed_dir pt) (idx_bound _ _)) as S4.
  destruct (S4 t a H R Hb Ha) as (ok & t' & a' & E & Hb' & Hok). exists ok, t', a'. split; [done|].
  split; [split; [by eapply map_dir_within; [exact E|apply pml4_idx_user|]|done]|]. exact Hok.
Qed.

(** ** The machine *)

Record Proc := mk_proc { tables : pml4; areas : Vma.VmaSet }.

(** The processes, the bytes of the frames, the allocator, and the frames the
    page cache has a reference to. *)
Record Machine := mk_machine { procs : gmap nat Proc; mem : Z → list Z; falloc : F; cache : list Z }.

Definition set_proc (m : Machine) (p : nat) (pr : Proc) : Machine := mk_machine (<[p := pr]> (procs m)) (mem m) (falloc m) (cache m).
Definition set_space (m : Machine) (p : nat) (pr : Proc) (t : pml4) (mm : Z → list Z) (a : F) : Machine :=
  mk_machine (<[p := mk_proc t (areas pr)]> (procs m)) mm a (cache m).

(** [sys_fork]'s copy of the areas: a file mapping starts with no cached pages. *)
Definition clone_vma (v : Vma.Vma) : Vma.Vma :=
  match Vma.backing v with
  | Vma.FileBacked ino off sh wr pages =>
      Vma.mk_vma (Vma.start v) (Vma.end_ v) (Vma.prot v) (Vma.flags v) (Vma.FileBacked ino off sh wr (replicate (length pages) None))
  | _ => v
  end.

Definition clone_areas (s : Vma.VmaSet) : outcome Vma.VmaSet :=
  foldl (λ acc e, c ← acc; Vma.insert_validated c (clone_vma e.2)) (Ret Vma.new) (Vma.vmas s).

(** [sys_fork] of process [p] as [child]; [false] is ENOMEM. *)
Definition fork (m : Machine) (p child : nat) : outcome (bool * Machine) :=
  match procs m !! p with
  | None => Ret (false, m)
  | Some pr =>
      '(t, r, a) ← clone_user_page_tables_cow (areas pr) (tables pr) (falloc m);
      let m := set_space m p pr t (mem m) a in
      match r with
      | None => Ret (false, m)
      | Some ct => ca ← clone_areas (areas pr); Ret (true, set_proc m child (mk_proc ct ca))
      end
  end.

(** What a fault in a file mapping is answered by. *)
Record Answer := mk_answer { reloc : option (list Z → list Z); files : Files }.

Definition set_process (m : Machine) (p : nat) (pr : Proc) (mm : Z → list Z) (a : F) : Machine :=
  mk_machine (<[p := pr]> (procs m)) mm a (cache m).

(** One store of byte [b] at [addr] by process [p], with the faults it takes: a
    page that is not there is demanded, a page that is there but not writable is
    a copy-on-write candidate, and the store is tried again; a fault nobody
    resolves kills the process ([false]). *)
Fixpoint store (fuel : nat) (ans : Answer) (m : Machine) (p : nat) (addr b : Z) : outcome (option bool * Machine) :=
  match fuel, procs m !! p with
  | O, _ => Ret (None, m)
  | _, None => Ret (Some false, m)
  | S fuel, Some pr =>
      match walk (tables pr) addr with
      | Some (flags, f) =>
          if has flags WRITABLE then
            Ret (Some true, mk_machine (procs m) (<[f := <[Z.to_nat (addr mod 4096) := b]> (mem m f)]> (mem m)) (falloc m) (cache m))
          else
            '(ok, t, mm, a) ← handle_cow_fault (areas pr) (tables pr) (mem m) (falloc m) addr;
            if ok : bool then store fuel ans (set_space m p pr t mm a) p addr b else Ret (Some false, set_space m p pr t mm a)
      | None =>
          '(reject, ar, t, mm, a) ← handle_demand_fault (reloc ans) (files ans) (mk_code false true false) (areas pr) (tables pr) (mem m) (falloc m) addr;
          let m := set_process m p (mk_proc t ar) mm a in
          match reject with
          | None => store fuel ans m p addr b
          | Some _ => Ret (Some false, m)
          end
      end
  end.

(** What a process sees at a page. *)
Definition page (m : Machine) (p : nat) (k : nat * (nat * (nat * nat))) : option (list Z) :=
  match procs m !! p with
  | Some pr => match leaf (tables pr) k with Some e => Some (mem m e.2) | None => None end
  | None => None
  end.

End Space.

End AddressSpace.
