(* ===== verification/SpaceSafety.v ===== *)
(** * Isolation of address spaces

    The invariant of the processes, the frames and the allocator; that fork,
    copy-on-write faults, demand faults and stores keep it; and that a process
    sees another's private pages only as they were when it was forked. *)

From stdpp Require Import functions.
From S2P Require Import Prelude BTree FrameAlloc FrameOwner PageTable Vma Cow CowFork AddressSpace.

Module SpaceSafety.

Import FrameOwner PageTable Cow CowFork AddressSpace.

Abbreviation pkey := (nat * (nat * (nat * nat)))%type.

(** The leaf entry of a process's tables. *)
Abbreviation L4 := (@level_dir pdpt (@level_dir pd (@level_dir pt level_pt))).
Abbreviation entry := (@leaf pml4 L4).

(** ** Addresses and the areas that cover them *)

Lemma field_bits a s n : 0 <= s → 0 <= n →
  Z.testbit (Z.shiftl (Z.of_nat (Z.to_nat (Z.land (Z.shiftr a s) 0x1FF))) s) n = (s <=? n) && (n <? s + 9) && Z.testbit a n.
Proof.
  intros Hs Hn. change 0x1FF with (Z.ones 9). rewrite Z2Nat.id by (rewrite Z.land_ones by lia; apply Z.mod_pos_bound; lia).
  rewrite Z.shiftl_spec by done. destruct (Z.leb_spec s n); cbn [andb].
  - rewrite Z.land_spec, Z.shiftr_spec by lia. replace (n - s + s) with n by lia. rewrite Z.testbit_ones_nonneg by lia.
    rewrite andb_comm. f_equal. destruct (Z.ltb_spec (n - s) 9), (Z.ltb_spec n (s + 9)); lia.
  - by rewrite Z.testbit_neg_r by lia.
Qed.

(** The address of the entry an address is walked to is its page. *)
Lemma virt_path addr : 0 <= addr < 2 ^ 47 → virt (path addr) = Vma.align_down addr.
Proof.
  intros Ha. unfold Vma.align_down, Vma.PAGE_SIZE. replace (addr - addr mod 4096) with (Z.shiftl (Z.shiftr addr 12) 12).
  2: { rewrite Z.shiftl_mul_pow2, Z.shiftr_div_pow2 by lia. change (2 ^ 12) with 4096. pose proof (Z.div_mod addr 4096). lia. }
  apply Z.bits_inj'. intros n Hn. unfold virt, virt_dir, virt1, path, pml4_idx, pml3_idx, pml2_idx, pml1_idx. cbn [fst snd].
  rewrite !Z.lor_spec, !field_bits by lia. rewrite Z.bits_0. rewrite Z.shiftl_spec by done.
  assert (Hhi : 47 <= n → Z.testbit addr n = false).
  { intros H. apply Z.bits_above_log2; [lia|]. destruct (decide (addr = 0)) as [->|]; [cbn; lia|]. assert (Z.log2 addr < 47) by (apply Z.log2_lt_pow2; lia). lia. }
  destruct (Z.leb_spec 12 n).
  - rewrite Z.shiftr_spec by lia. replace (n - 12 + 12) with n by lia. destruct (Z.testbit addr n) eqn:E; [|by rewrite !andb_false_r].
    rewrite !andb_true_r. assert (n < 47) by (destruct (Z.ltb_spec n 47) as [|Hge]; [done|]; by specialize (Hhi Hge)). lia.
  - rewrite (proj2 (Z.leb_gt 39 n)), (proj2 (Z.leb_gt 30 n)), (proj2 (Z.leb_gt 21 n)) by lia. by rewrite (Z.testbit_neg_r _ (n - 12)) by lia.
Qed.

Lemma align_down_bounds a : Vma.align_down a <= a < Vma.align_down a + 4096.
Proof. unfold Vma.align_down, Vma.PAGE_SIZE. pose proof (Z.mod_pos_bound a 4096). lia. Qed.

Lemma aligned_le s a : s mod Vma.PAGE_SIZE = 0 → s <= a → s <= Vma.align_down a.
Proof.
  unfold Vma.align_down, Vma.PAGE_SIZE. intros Hs Ha. pose proof (Z.div_mod s 4096). pose proof (Z.div_mod a 4096).
  pose proof (Z.div_le_mono s a 4096). lia.
Qed.

Lemma vfind_page lo m a v : Vma.chain lo m → Vma.vfind (snd <$> m) a = Some v → lo <= Vma.align_down a ∧ Vma.vfind (snd <$> m) (Vma.align_down a) = Some v.
Proof.
  revert lo. induction m as [|[k w] m IH]; intros lo; [done|]. cbn [Vma.chain fmap list_fmap Vma.vfind snd]. intros (_ & Hlo & Hok & Hm).
  destruct Hok as [Hr Hal _]. pose proof (align_down_bounds a). unfold Vma.contains. destruct (Z.leb_spec (Vma.start w) a); cbn [andb].
  - pose proof (aligned_le _ _ Hal H0). destruct (Z.ltb_spec a (Vma.end_ w)).
    + intros [= ->]. split; [lia|]. by rewrite (proj2 (Z.leb_le _ _)), (proj2 (Z.ltb_lt _ _)) by lia.
    + intros Hv. destruct (IH _ Hm Hv) as [H3 H4]. split; [lia|]. by rewrite (proj2 (Z.ltb_ge _ _)), andb_false_r by lia.
  - intros Hv. destruct (IH _ Hm Hv) as [H3 H4]. lia.
Qed.

(** The area that covers an address covers its page. *)
Lemma find_page s a v : Vma.wf s → 0 <= a < 2 ^ 47 → Vma.find s a = Some v → Vma.find s (virt (path a)) = Some v.
Proof.
  intros Hwf Ha. rewrite virt_path, !Vma.find_vfind by done. intros Hv. by apply (vfind_page 0 (Vma.vmas s)).
Qed.

(** A private page: what fork turns into a copy-on-write one. *)
Definition private (s : Vma.VmaSet) (k : pkey) : Prop := is_special_mapping (virt k) s = false.

Lemma special_at s a v : Vma.wf s → 0 <= a < 2 ^ 47 → Vma.find s a = Some v →
  is_special_mapping (virt (path a)) s = match Vma.backing v with
    | Vma.SharedMemory _ | Vma.Physical _ => true | Vma.FileBacked _ _ shared _ _ => shared | _ => false end.
Proof. intros Hwf Ha Hv. unfold is_special_mapping. by rewrite (find_page s a v). Qed.

Lemma chain_ok_elem lo m k v : Vma.chain lo m → (k, v) ∈ m → Vma.vma_ok v.
Proof. intros Hc Hin. destruct (Vma.vchain_bounds _ _ Hc) as [_ Hb]. rewrite Forall_forall in Hb. by destruct (Hb _ Hin) as (_ & _ & _ & ?). Qed.

(** ** The copy of the areas *)

Definition clone_entry (e : Z * Vma.Vma) : Z * Vma.Vma := (e.1, clone_vma e.2).

Lemma clone_vma_range v : Vma.start (clone_vma v) = Vma.start v ∧ Vma.end_ (clone_vma v) = Vma.end_ v.
Proof. unfold clone_vma. by destruct (Vma.backing v). Qed.

Lemma clone_vma_ok v : Vma.vma_ok v → Vma.vma_ok (clone_vma v).
Proof. intros [H1 H2 H3]. unfold clone_vma. destruct (Vma.backing v) eqn:E; split; rewrite ?E; cbn; try done. by rewrite length_replicate. Qed.

Lemma clone_chain lo m : Vma.chain lo m → Vma.chain lo (clone_entry <$> m).
Proof.
  revert lo. induction m as [|[k v] m IH]; intros lo; [done|]. cbn. destruct (clone_vma_range v) as [E1 E2]. rewrite E1, E2. intros (? & ? & ? & ?).
  split_and!; try done; [by apply clone_vma_ok|by apply IH].
Qed.

Lemma clone_contains v a : Vma.contains (clone_vma v) a = Vma.contains v a.
Proof. unfold Vma.contains. by destruct (clone_vma_range v) as [-> ->]. Qed.

Lemma clone_vfind m a : Vma.vfind (snd <$> (clone_entry <$> m)) a = clone_vma <$> Vma.vfind (snd <$> m) a.
Proof. induction m as [|[k v] m IH]; [done|]. cbn. rewrite clone_contains. by destruct (Vma.contains v a). Qed.

Lemma clone_areas_loop post : ∀ pre c, Vma.chain 0 (pre ++ (clone_entry <$> post)) → Vma.vmas c = pre →
  ∃ c', foldl (λ acc e, c ← acc; Vma.insert_validated c (clone_vma e.2)) (Ret c) post = Ret c' ∧ Vma.vmas c' = pre ++ (clone_entry <$> post).
Proof.
  induction post as [|[k v] post IH]; intros pre c Hc Ec; [by exists c; rewrite app_nil_r|]. cbn [foldl mbind outcome_bind snd].
  pose proof Hc as Hc'. cbn [fmap list_fmap] in Hc. apply Vma.vchain_app in Hc as [Hpre (Hk & Hlo & Hok & _)]. cbn [clone_entry fst snd] in Hk, Hlo, Hok.
  pose proof (Vma.vo_range _ Hok) as Hr. unfold Vma.insert_validated. rewrite (proj2 (Z.leb_le _ _)), (proj2 (Z.leb_le _ _)) by lia. cbn [andb].
  destruct (IH (pre ++ [clone_entry (k, v)]) (Vma.set_vmas c (binsert (Vma.start (clone_vma v)) (clone_vma v) (Vma.vmas c)))) as (c' & E & Ec').
  - by rewrite <- (assoc (++)).
  - cbn [Vma.vmas Vma.set_vmas]. rewrite Ec, <- (app_nil_r pre) at 1. rewrite binsert_at; [|by eapply Vma.chain_keys_lt|done].
    unfold clone_entry. cbn [fst snd]. by rewrite Hk.
  - exists c'. split; [exact E|]. by rewrite Ec', <- (assoc (++)).
Qed.

(** The child has the parent's areas, its file mappings with no page yet. *)
Lemma clone_areas_spec s : Vma.wf s → ∃ s', clone_areas s = Ret s' ∧ Vma.wf s' ∧ ∀ a, Vma.find s' a = clone_vma <$> Vma.find s a.
Proof.
  intros Hwf. destruct (clone_areas_loop (Vma.vmas s) [] Vma.new) as (s' & E & Es); [by apply clone_chain|done|]. exists s'. split; [exact E|].
  assert (Hwf' : Vma.wf s') by (unfold Vma.wf; rewrite Es; by apply clone_chain). split; [done|]. intros a.
  rewrite !Vma.find_vfind, Es by done. apply clone_vfind.
Qed.

Lemma clone_vma_twice v : clone_vma (clone_vma v) = clone_vma v.
Proof. unfold clone_vma. destruct (Vma.backing v) eqn:E; rewrite ?E; try done. cbn. by rewrite length_replicate. Qed.

(** The same areas, but for the pages the file mappings have in hand. *)
Definition alike (s s' : Vma.VmaSet) : Prop := ∀ a, clone_vma <$> Vma.find s' a = clone_vma <$> Vma.find s a.

#[export] Instance alike_equiv : Equivalence alike.
Proof. split; [by intros s a|by intros s s' H a; rewrite H|]. intros s1 s2 s3 H1 H2 a. by rewrite H2, H1. Qed.

Lemma clone_alike s s' : (∀ a, Vma.find s' a = clone_vma <$> Vma.find s a) → alike s s'.
Proof. intros H a. rewrite H. destruct (Vma.find s a); [|done]. cbn. by rewrite clone_vma_twice. Qed.

Lemma special_clone v : match Vma.backing (clone_vma v) with Vma.SharedMemory _ | Vma.Physical _ => true | Vma.FileBacked _ _ shared _ _ => shared | _ => false end =
  match Vma.backing v with Vma.SharedMemory _ | Vma.Physical _ => true | Vma.FileBacked _ _ shared _ _ => shared | _ => false end.
Proof. unfold clone_vma. by destruct (Vma.backing v) eqn:E; rewrite ?E. Qed.

Lemma alike_special s s' : alike s s' → ∀ a, is_special_mapping a s' = is_special_mapping a s.
Proof.
  intros H a. specialize (H a). unfold is_special_mapping. destruct (Vma.find s' a) as [v'|], (Vma.find s a) as [v|]; try done.
  injection H as H. by rewrite <- special_clone, H, special_clone.
Qed.

Lemma vfind_replace (pre post : bmap Z Vma.Vma) k v v' a : Vma.start v' = Vma.start v → Vma.end_ v' = Vma.end_ v → clone_vma v' = clone_vma v →
  clone_vma <$> Vma.vfind (snd <$> pre ++ (k, v') :: post) a = clone_vma <$> Vma.vfind (snd <$> pre ++ (k, v) :: post) a.
Proof.
  intros Hs He Hc. rewrite !fmap_app, !Vma.vfind_app. destruct (Vma.vfind (snd <$> pre) a); [done|]. cbn [fmap list_fmap Vma.vfind snd].
  unfold Vma.contains. rewrite Hs, He. destruct (_ && _); [|done]. cbn. by rewrite Hc.
Qed.

(** Keeping a cached page on its area changes nothing else. *)
Lemma store_cached_alike s addr f : Vma.wf s → Vma.wf (store_cached_page_on_vma s addr f) ∧ alike s (store_cached_page_on_vma s addr f).
Proof.
  intros Hwf. unfold store_cached_page_on_vma. destruct (Vma.last_le (Vma.vmas s) addr) as [[k v]|] eqn:E; [|done].
  destruct (Vma.contains v addr); [|done]. destruct (_ <? Vma.start v); [done|]. destruct (Vma.backing v) as [| | | | |ino off sh wr pages] eqn:Eb; try done.
  case_match eqn:Hs; [|done]. apply Vma.last_le_elem in E. destruct (Vma.chain_replace (Vma.vmas s) k v Hwf E) as (pre & post & Em & Hrep).
  set (v' := Vma.mk_vma _ _ _ _ _). assert (Hok : Vma.vma_ok v').
  { pose proof (chain_ok_elem 0 _ k v Hwf E) as [H1 H2 H3]. split; [done|done|]. cbn. rewrite Eb in H3. by rewrite length_insert. }
  destruct (Hrep v' eq_refl eq_refl Hok) as [Hins Hchain].
  assert (Hwf' : Vma.wf (Vma.set_vmas s (binsert k v' (Vma.vmas s)))) by (unfold Vma.wf; cbn; by rewrite Hins). split; [done|].
  intros a. rewrite !Vma.find_vfind by done. cbn [Vma.vmas Vma.set_vmas]. rewrite Hins, Em. apply vfind_replace; [done|done|].
  unfold clone_vma. cbn. rewrite Eb. by rewrite length_insert.
Qed.

Lemma clone_special s s' : (∀ a, Vma.find s' a = clone_vma <$> Vma.find s a) → ∀ a, is_special_mapping a s' = is_special_mapping a s.
Proof. intros H. by apply alike_special, clone_alike. Qed.

#[local] Opaque zero_page.

Section Safety.

Context {F : Type} `{FO : FrameOwner F}.

Abbreviation machine := (Machine (F := F)).

(** ** The invariant *)

Definition space_frames (ps : gmap nat Proc) : list Z := map_to_list ps ≫= (λ x, frames (tables x.2)).

(** Every reference to a frame: the tables and entries of the processes, and
    the page cache. *)
Definition all_frames (m : machine) : list Z := space_frames (procs m) ++ cache m.

(** A private page is copy-on-write and cannot be written, or has one owner; a
    page that is not private is not copy-on-write. *)
Definition leaf_ok (H : list Z) (s : Vma.VmaSet) (k : pkey) (e : pte) : Prop :=
  if is_special_mapping (virt k) s then has e.1 COW_BIT = false
  else owned e.2 ∧ if has e.1 COW_BIT then has e.1 WRITABLE = false else refs e.2 H = 1.

Record proc_ok (H : list Z) (pr : Proc) : Prop := {
  po_half : user_half (tables pr);
  po_wf : Vma.wf (areas pr);
  po_leaf : ∀ k e, leaf (tables pr) k = Some e → leaf_ok H (areas pr) k e
}.

(** [R] are the frames in use that nobody owns. *)
Record inv (R : list Z) (m : machine) : Prop := {
  i_acct : acct (falloc m) (all_frames m) R;
  i_proc : map_Forall (λ _, proc_ok (all_frames m)) (procs m)
}.

Lemma space_insert ps p pr : ps !! p = None → space_frames (<[p := pr]> ps) ≡ₚ frames (tables pr) ++ space_frames ps.
Proof. intros Hp. unfold space_frames. by rewrite map_to_list_insert. Qed.

Lemma space_delete ps p pr : ps !! p = Some pr → space_frames ps ≡ₚ frames (tables pr) ++ space_frames (delete p ps).
Proof. intros Hp. rewrite <- (insert_delete_id ps p pr Hp) at 1. by rewrite space_insert by apply lookup_delete_eq. Qed.

Lemma space_replace ps p pr pr' : ps !! p = Some pr →
  space_frames (<[p := pr']> ps) ≡ₚ frames (tables pr') ++ space_frames (delete p ps).
Proof. intros Hp. rewrite <- insert_delete_eq. by rewrite space_insert by apply lookup_delete_eq. Qed.

(** The frames a process shares the machine with. *)
Definition rest (m : machine) (p : nat) : list Z := space_frames (delete p (procs m)) ++ cache m.

Lemma all_frames_proc m p pr : procs m !! p = Some pr → all_frames m ≡ₚ frames (tables pr) ++ rest m p.
Proof. intros Hp. unfold all_frames, rest. rewrite (space_delete _ p pr Hp). by rewrite <- (assoc (++)). Qed.

Lemma leaf_elem {A} `{LA : Level A} (t : A) k e : leaf t k = Some e → e.2 ∈ frames t.
Proof. intros Hk. destruct (leaf_frame t k e Hk) as (r & -> & _). by left. Qed.

Lemma rest_elem (m : machine) p q pr k e : procs m !! q = Some pr → q ≠ p → leaf (tables pr) k = Some e → e.2 ∈ space_frames (delete p (procs m)).
Proof.
  intros Hq Hne Hk. rewrite (space_delete _ q pr) by (by rewrite lookup_delete_ne).
  apply elem_of_app. left. by eapply leaf_elem.
Qed.

(** ** Replacing the tables of one process *)

Lemma leaf_ok_mono H H' s k e : (refs e.2 H = 1 → refs e.2 H' = 1) → leaf_ok H s k e → leaf_ok H' s k e.
Proof. intros HH. unfold leaf_ok. destruct (is_special_mapping _ _); [done|]. intros [? Hm]. split; [done|]. destruct (has e.1 COW_BIT); auto. Qed.

Lemma leaf_ok_perm H H' s k e : H ≡ₚ H' → leaf_ok H s k e → leaf_ok H' s k e.
Proof. intros E. apply leaf_ok_mono. by rewrite E. Qed.

(** What the invariant says of a page that is private and can be written, or
    turned into one that can. *)
Lemma leaf_private H s k e : leaf_ok H s k e → private s k → owned e.2 ∧ (has e.1 WRITABLE = true → refs e.2 H = 1).
Proof. unfold leaf_ok, private. intros Hl Hp. rewrite Hp in Hl. destruct Hl as [? Hm]. split; [done|]. intros Hw. destruct (has e.1 COW_BIT); congruence. Qed.

(** A process and the allocator change. *)
Lemma all_frames_replace (m : machine) p pr pr' mm a : procs m !! p = Some pr → all_frames (set_process m p pr' mm a) ≡ₚ frames (tables pr') ++ rest m p.
Proof. intros Hp. unfold all_frames, rest. cbn [procs cache set_process]. rewrite (space_replace _ p pr _ Hp). by rewrite <- (assoc (++)). Qed.

(** Others keep their pages if the frames they alone own stay theirs. *)
Lemma inv_replace R R' (m : machine) p pr pr' mm a : inv R m → procs m !! p = Some pr → acct a (frames (tables pr') ++ rest m p) R' →
  proc_ok (frames (tables pr') ++ rest m p) pr' →
  (∀ f, f ∈ space_frames (delete p (procs m)) → refs f (all_frames m) = 1 → refs f (frames (tables pr') ++ rest m p) = 1) →
  inv R' (set_process m p pr' mm a).
Proof.
  intros [Ha Hp] Epr Hacct Hok Ho. pose proof (all_frames_replace m p pr pr' mm a Epr) as HH. split.
  - by eapply acct_perm; [symmetry; exact HH|].
  - intros q pq. cbn [procs set_process]. intros [[<- <-]|[Hne Hq]]%lookup_insert_Some.
    + destruct Hok as [H1 H2 H3]. split; [done|done|]. intros k e Hk. eapply leaf_ok_perm; [symmetry; exact HH|]. by apply H3.
    + destruct (Hp q pq Hq) as [H1 H2 H3]. split; [done|done|]. intros k e Hk. eapply leaf_ok_mono; [|by apply H3].
      rewrite HH. apply Ho. by eapply rest_elem.
Qed.

Lemma inv_change R (m : machine) p pr t mm a : inv R m → procs m !! p = Some pr → user_half t → acct a (frames t ++ rest m p) R →
  (∀ k e, leaf t k = Some e → leaf_ok (frames t ++ rest m p) (areas pr) k e) →
  (∀ f, f ∈ space_frames (delete p (procs m)) → refs f (all_frames m) = 1 → refs f (frames t ++ rest m p) = 1) →
  inv R (set_space m p pr t mm a).
Proof.
  intros Hinv Hp Ht Ha Hl Ho. apply (inv_replace R R m p pr (mk_proc t (areas pr))); try done. split; [done| |done]. apply (po_wf _ _ (i_proc R m Hinv p pr Hp)).
Qed.

Lemma set_space_id (m : machine) p pr : procs m !! p = Some pr → set_space m p pr (tables pr) (mem m) (falloc m) = m.
Proof. intros Hp. destruct m as [ps mm a c], pr. unfold set_space. cbn in *. by rewrite insert_id. Qed.

Lemma set_space_areas (m : machine) p pr t mm a q : procs m !! p = Some pr → areas <$> procs (set_space m p pr t mm a) !! q = areas <$> procs m !! q.
Proof. intros Hp. cbn [procs set_space]. destruct (decide (q = p)) as [->|Hq]; [by rewrite lookup_insert_eq, Hp|by rewrite lookup_insert_ne]. Qed.

Lemma page_other (m : machine) p pr t mm a q k : (∀ f, f ∈ rest m p → mm f = mem m f) → q ≠ p → page (set_space m p pr t mm a) q k = page m q k.
Proof.
  intros Hm Hq. unfold page. cbn [procs mem set_space]. rewrite lookup_insert_ne by done. destruct (procs m !! q) as [pq|] eqn:E; [|done].
  destruct (entry (tables pq) k) as [e|] eqn:Ek; [|done]. f_equal. apply Hm, elem_of_app. left. by eapply rest_elem.
Qed.

Lemma page_self (m : machine) p pr t mm a k : page (set_space m p pr t mm a) p k = match leaf t k with Some e => Some (mm e.2) | None => None end.
Proof. unfold page. cbn [procs mem set_space]. by rewrite lookup_insert_eq. Qed.

Lemma page_at (m : machine) p pr k : procs m !! p = Some pr → page m p k = match entry (tables pr) k with Some e => Some (mem m e.2) | None => None end.
Proof. intros Hp. unfold page. by rewrite Hp. Qed.

Lemma elem_all (m : machine) p pr f : procs m !! p = Some pr → f ∈ frames (tables pr) → f ∈ all_frames m.
Proof. intros Hp Hf. rewrite (all_frames_proc m p pr Hp). apply elem_of_app. by left. Qed.

Lemma elem_rest (m : machine) p pr f : procs m !! p = Some pr → f ∈ rest m p → f ∈ all_frames m.
Proof. intros Hp Hf. rewrite (all_frames_proc m p pr Hp). apply elem_of_app. by right. Qed.

(** ** Copy-on-write faults *)

Lemma put_within {A} `{LA : Level A} n (d : dir A) ik e0 e : leaf d ik = Some e0 → within n d → within n (put d ik e).
Proof.
  destruct ik as [i k]. cbn. intros Hl Hw. destruct (dents d !! i) as [[fl a]|] eqn:E; [|done]. apply within_set; [by eapply Hw|done].
Qed.

(** Rewriting the entry of one private page: its owner is the only one of the
    frame in the new entry. *)
Lemma inv_put R (m : machine) p pr addr e0 e mm a H : inv R m → procs m !! p = Some pr → walk (tables pr) addr = Some e0 →
  private (areas pr) (path addr) → owned e.2 → all_frames m ≡ₚ e0.2 :: H → acct a (e.2 :: H) R → e.2 ∉ H → has e.1 COW_BIT = false →
  inv R (set_space m p pr (@put pml4 L4 (tables pr) (path addr) e) mm a).
Proof.
  intros Hinv Hp Hw Hpriv Hown HH Ha Hne Hcow. destruct (i_proc R m Hinv p pr Hp) as [[Hw4 Hb] Hwf Hleaf].
  destruct (@leaf_frame _ L4 (tables pr) (path addr) e0 Hw) as (r & Hr & Hother). pose proof (@frames_put _ L4 (tables pr) (path addr) e0 e Hw) as Hput.
  assert (EH : H ≡ₚ r ++ rest m p).
  { apply (Permutation_cons_inv (a := e0.2)). rewrite <- HH, (all_frames_proc m p pr Hp), Hr. done. }
  assert (HG : frames (@put pml4 L4 (tables pr) (path addr) e) ++ rest m p ≡ₚ e.2 :: H).
  { apply (Permutation_cons_inv (a := e0.2)). rewrite EH, (app_comm_cons (@frames pml4 L4 _)), Hput, Hr. apply Permutation_swap. }
  assert (Hkeep : ∀ f, f ∈ H → refs f (all_frames m) = 1 → refs f (frames (@put pml4 L4 (tables pr) (path addr) e) ++ rest m p) = 1).
  { intros f Hf. rewrite HH, HG, !refs_cons. apply refs_pos in Hf as Hpos. rewrite (decide_False (P := f = e.2)) by (by intros ->). case_decide; lia. }
  apply inv_change; [done|done| | | |].
  - split; [by eapply put_within|by eapply bounded_put].
  - by eapply acct_perm; [symmetry; exact HG|].
  - intros k e1. rewrite (@leaf_put _ L4 _ _ e0 e k Hw). case_decide as Hk; intros Hl.
    + injection Hl as <-. unfold leaf_ok. rewrite Hk, Hpriv. split; [done|]. rewrite Hcow, HG, refs_cons, decide_True by done.
      apply refs_zero in Hne. lia.
    + eapply leaf_ok_mono; [|by apply Hleaf]. apply Hkeep. rewrite EH. apply elem_of_app. left. by eapply Hother.
  - intros f Hf. apply Hkeep. rewrite EH. apply elem_of_app. right. apply elem_of_app. by left.
Qed.

Lemma page_put (m : machine) p pr addr e0 e mm a : procs m !! p = Some pr → walk (tables pr) addr = Some e0 →
  mm e.2 = mem m e0.2 → (∀ f, f ∈ all_frames m → mm f = mem m f) →
  ∀ q k, page (set_space m p pr (@put pml4 L4 (tables pr) (path addr) e) mm a) q k = page m q k.
Proof.
  intros Hp Hw He Hmm q k. destruct (decide (q = p)) as [->|Hq].
  - rewrite page_self, (page_at m p pr k Hp), (@leaf_put _ L4 _ _ e0 e k Hw). case_decide as Hk.
    + subst k. unfold walk in Hw. rewrite Hw. by rewrite He.
    + destruct (entry (tables pr) k) as [e1|] eqn:E; [|done]. f_equal. apply Hmm. eapply elem_all; [done|]. by eapply leaf_elem.
  - apply page_other; [|done]. intros f Hf. by apply Hmm, (elem_rest m p pr).
Qed.

Lemma walk_put (t : pml4) addr e0 e : walk t addr = Some e0 → walk (@put pml4 L4 t (path addr) e) addr = Some e.
Proof. intros Hw. unfold walk. rewrite (@leaf_put _ L4 _ _ e0 e (path addr) Hw). by rewrite decide_True. Qed.

Lemma has_lor_WRITABLE fl : has (Z.lor fl WRITABLE) WRITABLE = true.
Proof. rewrite has_WRITABLE, Z.lor_spec. by rewrite orb_true_r. Qed.

Lemma has_uncow fl : has (Z.lor (Z.ldiff fl COW_BIT) WRITABLE) COW_BIT = false.
Proof. rewrite has_COW, Z.lor_spec, Z.ldiff_spec. change (Z.testbit COW_BIT 9) with true. by rewrite andb_false_r. Qed.

(** A step that leaves the tables of the process and the bytes as they are. *)
Lemma space_stays R (m : machine) p pr a : inv R m → procs m !! p = Some pr → acct a (all_frames m) R →
  inv R (set_space m p pr (tables pr) (mem m) a) ∧ ∀ q k, page (set_space m p pr (tables pr) (mem m) a) q k = page m q k.
Proof.
  intros Hinv Hp Ha. pose proof (all_frames_proc m p pr Hp) as Hall. destruct (i_proc R m Hinv p pr Hp) as [Hu Hwf Hl]. split.
  - apply inv_change; [done|done|done|by eapply acct_perm; [exact Hall|]| |].
    + intros k e Hk. eapply leaf_ok_perm; [exact Hall|]. by apply Hl.
    + intros f _. by rewrite <- Hall.
  - intros q k. destruct (decide (q = p)) as [->|Hq]; [by rewrite page_self, (page_at m p pr k Hp)|by apply page_other].
Qed.

(** The copy a copy-on-write fault makes of a page with several owners. *)
Lemma cow_copies R (m : machine) p pr addr fl fl' old new a1 : inv R m → procs m !! p = Some pr → walk (tables pr) addr = Some (fl, old) →
  private (areas pr) (path addr) → has fl' COW_BIT = false → refs old (all_frames m) > 1 → acct a1 (new :: all_frames m) R → new ∉ all_frames m → owned new →
  ∃ n a, dec_refcount a1 old = Ret (n, a) ∧
    let m' := set_space m p pr (@put pml4 L4 (tables pr) (path addr) (fl', new)) (<[new := mem m old]> (mem m)) a in
    inv R m' ∧ ∀ q k, page m' q k = page m q k.
Proof.
  intros Hinv Hp Hw Hpriv Hcow Hrc Ha Hnew Hown. assert (Hold : old ∈ all_frames m) by (eapply elem_all; [done|by eapply (leaf_elem _ _ (fl, old))]).
  destruct (proj1 (elem_of_Permutation _ _) Hold) as [H HH].
  assert (Hin : old ∈ H) by (rewrite HH, refs_cons, decide_True in Hrc by done; apply refs_pos; lia).
  destruct (acct_dec a1 old (new :: H) R) as (n & a & E & Ha').
  { eapply acct_perm; [|exact Ha]. rewrite HH. apply Permutation_swap. }
  rewrite bool_decide_true in Ha' by (by right). exists n, a. split; [done|]. rewrite HH in Hnew. split.
  - apply (inv_put R m p pr addr (fl, old) (fl', new) _ a H); try done. intros ?; apply Hnew; by right.
  - apply (page_put m p pr addr (fl, old)); [done|done| |].
    + cbn [snd]. by rewrite fn_lookup_insert.
    + intros f Hf. apply fn_lookup_insert_ne. intros ->. rewrite HH in Hf. done.
Qed.

(** A write to a page that is present and not writable: nobody sees anything of
    the fault, and a page it resolves can be written. *)
Lemma cow_step R (m : machine) p pr addr : inv R m → procs m !! p = Some pr →
  ∃ ok t mm a, handle_cow_fault (areas pr) (tables pr) (mem m) (falloc m) addr = Ret (ok, t, mm, a) ∧
    let m' := set_space m p pr t mm a in
    inv R m' ∧ (∀ q k, page m' q k = page m q k) ∧ (ok = true → ∃ e, walk t addr = Some e ∧ has e.1 WRITABLE = true).
Proof.
  intros Hinv Hp. pose proof (i_acct R m Hinv) as Ha. unfold handle_cow_fault. pose proof (space_stays R m p pr (falloc m) Hinv Hp Ha) as [Hs1 Hs2].
  destruct (fault_addr_is_writable (areas pr) addr); cbn [negb]; [|by eexists _, _, _, _].
  destruct (walk (tables pr) addr) as [[fl old]|] eqn:Ew; [|by eexists _, _, _, _].
  destruct (has fl COW_BIT) eqn:Ec; cbn [negb]; [|by eexists _, _, _, _].
  assert (Hl : private (areas pr) (path addr) ∧ owned old).
  { pose proof (po_leaf _ _ (i_proc R m Hinv p pr Hp) (path addr) (fl, old) Ew) as Hl. unfold leaf_ok, private in *.
    destruct (is_special_mapping _ _); [|by destruct Hl]. cbn [fst] in Hl. congruence. }
  destruct Hl as [Hpriv Hown]. rewrite (acct_count (falloc m) old _ R Ha Hown). cbn [mbind outcome_bind].
  set (fl' := Z.lor _ WRITABLE). assert (Hwr : has fl' WRITABLE = true) by apply has_lor_WRITABLE.
  assert (Hnc : has fl' COW_BIT = false) by (by apply has_uncow). destruct (Z.leb_spec (refs old (all_frames m)) 1) as [Hrc|Hrc].
  - assert (Hold : old ∈ all_frames m) by (eapply elem_all; [done|by eapply (leaf_elem _ _ (fl, old))]).
    destruct (proj1 (elem_of_Permutation _ _) Hold) as [H HH]. eexists _, _, _, _. split; [done|]. split; [|split].
    + apply (inv_put R m p pr addr (fl, old) (fl', old) _ _ H); try done; [by eapply acct_perm|].
      cbn [snd]. apply refs_zero. rewrite HH, refs_cons, decide_True in Hrc by done. pose proof (refs_nonneg old H). lia.
    + by apply (page_put m p pr addr (fl, old)).
    + intros _. exists (fl', old). by erewrite walk_put.
  - destruct (acct_alloc (falloc m) _ R Ha) as (r & a1 & -> & Hr). cbn [mbind outcome_bind]. destruct r as [new|].
    2: { eexists _, _, _, _. split; [done|]. destruct (space_stays R m p pr a1 Hinv Hp Hr) as [H1 H2]. by split_and!. }
    destruct Hr as (Ha1 & Hnew & Hon).
    destruct (cow_copies R m p pr addr fl fl' old new a1 Hinv Hp Ew Hpriv Hnc ltac:(lia) Ha1 Hnew Hon) as (n & a & -> & H1 & H2). cbn [mbind outcome_bind].
    eexists _, _, _, _. split; [done|]. split; [exact H1|]. split; [exact H2|]. intros _. exists (fl', new). by erewrite walk_put.
Qed.

(** ** Demand faults *)

(** The page cache owns a frame it answers with; any other frame a fault maps
    has just been allocated. *)
Definition arriving (m : machine) (f : Z) : Prop := f ∉ all_frames m ∨ f ∈ cache m.

Lemma arriving_shared (m : machine) f g : arriving m f → g ∈ space_frames (procs m) → refs g (all_frames m) = 1 → g ≠ f.
Proof.
  intros Hf Hg Hr ->. destruct Hf as [Hf|Hf]; [apply Hf, elem_of_app; by left|].
  unfold all_frames in Hr. rewrite refs_app in Hr. apply refs_pos in Hf, Hg. lia.
Qed.

Lemma space_elem (ps : gmap nat Proc) p pr f : ps !! p = Some pr → f ∈ frames (tables pr) → f ∈ space_frames ps.
Proof. intros Hp Hf. rewrite (space_delete ps p pr Hp). apply elem_of_app. by left. Qed.

Lemma space_sub (ps : gmap nat Proc) p f : f ∈ space_frames (delete p ps) → f ∈ space_frames ps.
Proof.
  intros Hf. destruct (ps !! p) as [pr|] eqn:E; [|by rewrite delete_id in Hf]. rewrite (space_delete ps p pr E). apply elem_of_app. by right.
Qed.

(** What a fault leaves behind: the page of the address at most, and that only
    if it was not there. *)
Record faulted (R : list Z) (m : machine) (p : nat) (pr : Proc) (addr : Z) (bytes : list Z) (r : option FaultReject) (m' : machine) : Prop := {
  f_inv : inv R m';
  f_view : ∀ q k, page m' q k = if decide (q = p ∧ k = path addr ∧ walk (tables pr) addr = None ∧ r = None) then Some bytes else page m q k;
  f_done : r = None → is_Some (page m' p (path addr))
}.

Lemma install_ok R (m : machine) p pr mm addr frame fl a t' : inv R m → procs m !! p = Some pr → user_half t' →
  acct a (frames t' ++ rest m p) R → arriving m frame → (∀ f, f ∈ all_frames m → mm f = mem m f) →
  (∀ g, g ∈ frame :: all_frames m → refs g (frames t' ++ rest m p) = refs g (frame :: all_frames m)) →
  leaf_ok (frame :: all_frames m) (areas pr) (path addr) (fl, frame) → walk (tables pr) addr = None →
  (∀ k, entry t' k = if decide (k = path addr) then Some (fl, frame) else entry (tables pr) k) →
  faulted R m p pr addr (mm frame) None (set_space m p pr t' mm a).
Proof.
  intros Hinv Hp Hu Ha Harr Hmm Hrefs Hnew Hw Hl. destruct (i_proc R m Hinv p pr Hp) as [_ _ Hleaf].
  assert (Hkeep : ∀ f, f ∈ space_frames (procs m) → refs f (all_frames m) = 1 → refs f (frames t' ++ rest m p) = 1).
  { intros f Hf Hr. rewrite Hrefs by (right; apply elem_of_app; by left). rewrite refs_cons, decide_False; [lia|by eapply arriving_shared]. }
  split.
  - apply inv_change; try done.
    + intros k e. rewrite Hl. case_decide as Hk.
      * intros [= <-]. subst k. eapply leaf_ok_mono; [|exact Hnew]. cbn [snd]. by rewrite Hrefs by (by left).
      * intros He. eapply leaf_ok_mono; [|by apply Hleaf]. apply Hkeep. eapply space_elem; [done|by eapply leaf_elem].
    + intros f Hf. by apply Hkeep, (space_sub _ p).
  - intros q k. destruct (decide (q = p)) as [->|Hq].
    + rewrite page_self, Hl. case_decide as Hk; [subst k; by rewrite decide_True|]. rewrite decide_False by (by intros (? & ? & _)).
      rewrite (page_at m p pr k Hp). destruct (entry (tables pr) k) as [e|] eqn:E; [|done]. f_equal. apply Hmm. eapply elem_all; [done|by eapply leaf_elem].
    + rewrite decide_False by (by intros (? & ? & _)). apply page_other; [|done]. intros f Hf. by apply Hmm, (elem_rest m p pr).
  - intros _. rewrite page_self, Hl, decide_True by done. done.
Qed.

Lemma install_failed R (m : machine) p pr mm addr bytes a t' : inv R m → procs m !! p = Some pr → user_half t' →
  acct a (frames t' ++ rest m p) R → (∀ f, f ∈ all_frames m → mm f = mem m f) →
  (∀ g, g ∈ all_frames m → refs g (frames t' ++ rest m p) = refs g (all_frames m)) →
  (∀ k, entry t' k = entry (tables pr) k) →
  faulted R m p pr addr bytes (if is_page_present t' addr then None else Some MapFailed) (set_space m p pr t' mm a).
Proof.
  intros Hinv Hp Hu Ha Hmm Hrefs Hl. destruct (i_proc R m Hinv p pr Hp) as [_ _ Hleaf].
  assert (Hpres : is_page_present t' addr = is_page_present (tables pr) addr) by (unfold is_page_present, walk; by rewrite Hl). split.
  - apply inv_change; try done.
    + intros k e. rewrite Hl. intros He. eapply leaf_ok_mono; [|by apply Hleaf]. rewrite Hrefs; [done|].
      eapply elem_all; [done|by eapply leaf_elem].
    + intros f Hf Hr. rewrite Hrefs; [done|]. eapply elem_rest; [done|]. apply elem_of_app. by left.
  - intros q k. rewrite decide_False. 2: { intros (_ & _ & Hn & Hr). rewrite Hpres in Hr. unfold is_page_present in Hr. by rewrite Hn in Hr. }
    destruct (decide (q = p)) as [->|Hq].
    + rewrite page_self, Hl, (page_at m p pr k Hp). destruct (entry (tables pr) k) as [e|] eqn:E; [|done].
      f_equal. apply Hmm. eapply elem_all; [done|by eapply leaf_elem].
    + apply page_other; [|done]. intros f Hf. by apply Hmm, (elem_rest m p pr).
  - intros Hr. unfold is_page_present in Hr. destruct (bool_decide_reflect (is_Some (walk t' addr))) as [[e He]|]; [|done].
    rewrite page_self. unfold walk in He. rewrite He. done.
Qed.

Lemma install_spec undo R (m : machine) p pr mm addr frame fl a : inv R m → procs m !! p = Some pr → 0 <= addr < 2 ^ 47 →
  acct a (frame :: all_frames m) R → arriving m frame → (∀ f, f ∈ all_frames m → mm f = mem m f) →
  leaf_ok (frame :: all_frames m) (areas pr) (path addr) (fl, frame) →
  (∀ a H, acct a (frame :: H) R → (frame ∈ cache m → frame ∈ H) → frame ∈ H ∨ frame ∉ all_frames m → ∃ a', undo a frame = Ret a' ∧ acct a' H R) →
  ∃ ok r t a', install undo (tables pr) mm addr frame fl a = Ret (ok, r, t, mm, a') ∧
    faulted R m p pr addr (mm frame) r (set_space m p pr t mm a').
Proof.
  intros Hinv Hp Haddr Ha Harr Hmm Hnew Hundo. pose proof (all_frames_proc m p pr Hp) as Hall.
  destruct (i_proc R m Hinv p pr Hp) as [Hu _ _].
  assert (Hold : frames (tables pr) ++ frame :: rest m p ≡ₚ frame :: all_frames m) by (rewrite Hall; solve_Permutation).
  unfold install. destruct (map_page_spec (tables pr) addr frame fl a (rest m p) R Haddr Hu) as (ok & t' & a1 & -> & Hu' & Ha1 & Hr & Hok).
  { by eapply acct_perm; [symmetry; exact Hold|]. }
  cbn [mbind outcome_bind]. destruct ok; cbn [still] in *.
  - destruct Hok as [Hw Hl]. eexists _, _, _, _. split; [done|]. eapply install_ok; try done.
    intros g Hg. rewrite <- Hold in Hg |- *. by apply Hr.
  - assert (Hcache : frame ∈ cache m → frame ∈ frames t' ++ rest m p) by (intros ?; apply elem_of_app; right; apply elem_of_app; by right).
    destruct (Hundo a1 (frames t' ++ rest m p)) as (a2 & -> & Ha2).
    { eapply acct_perm; [|exact Ha1]. solve_Permutation. }
    { done. }
    { destruct Harr; auto. }
    cbn [mbind outcome_bind]. eexists _, _, _, _. split; [done|]. apply install_failed; try done.
    intros g Hg. cbn [snd] in Hr. assert (Hg' : g ∈ frames (tables pr) ++ frame :: rest m p) by (rewrite Hold; by right). specialize (Hr g Hg').
    rewrite Hold, refs_cons in Hr. rewrite <- Permutation_middle, refs_cons in Hr. lia.
Qed.

(** ** What a fault is answered by *)

(** The page cache answers with a frame of its own, not at the end of its
    count. *)
Definition answer_ok (ans : Answer) (m : machine) : Prop :=
  ∀ ino idx, match file_page (files ans) ino idx with Ok f => f ∈ cache m ∧ owned f ∧ refs f (all_frames m) < U16_MAX | Err _ => True end.

(** What a page holds when it is touched for the first time: zeros, or the page
    of the file at the offset the area gives it, relocated if it has to be. *)
Definition first_bytes (ans : Answer) (m : machine) (pr : Proc) (addr : Z) : list Z :=
  match Vma.find (areas pr) addr with
  | Some v =>
      match Vma.backing v with
      | Vma.FileBacked ino off shared _ _ =>
          match file_page (files ans) ino ((off + (Vma.align_down addr - Vma.start v)) / 4096), shared, reloc ans with
          | Ok f, false, Some patch => patch (mem m f)
          | Ok f, _, _ => mem m f
          | Err _, _, _ => []
          end
      | _ => zero_page
      end
  | None => []
  end.

Lemma fresh_leaf_ok H s k f fl : f ∉ H → owned f → private s k → has fl COW_BIT = false → leaf_ok (f :: H) s k (fl, f).
Proof.
  intros Hf Hown Hp Hc. unfold leaf_ok. rewrite Hp. split; [done|]. cbn [fst snd]. rewrite Hc, refs_cons, decide_True by done.
  apply refs_zero in Hf. lia.
Qed.

Lemma free_undoes (m : machine) frame R : ∀ a H, acct a (frame :: H) R → (frame ∈ cache m → frame ∈ H) → frame ∈ H ∨ frame ∉ all_frames m →
  ∃ a', deallocate_frame a frame = Ret a' ∧ acct a' H R.
Proof. intros a H Ha _ _. by apply acct_free. Qed.

(** A page of zeros, or the patched copy of a cached page. *)
Lemma fresh_install R (m : machine) p pr addr fl bytes : inv R m → procs m !! p = Some pr → 0 <= addr < 2 ^ 47 → private (areas pr) (path addr) → has fl COW_BIT = false →
  ∃ r a, allocate_frame (falloc m) = Ret (r, a) ∧
    match r with
    | None => acct a (all_frames m) R
    | Some frame => ∃ ok r t mm a', install deallocate_frame (tables pr) (<[frame := bytes]> (mem m)) addr frame fl a = Ret (ok, r, t, mm, a') ∧
        faulted R m p pr addr bytes r (set_space m p pr t mm a')
    end.
Proof.
  intros Hinv Hp Haddr Hpriv Hcow. destruct (acct_alloc (falloc m) _ R (i_acct R m Hinv)) as (r & a & E & Hr). exists r, a. split; [done|].
  destruct r as [f|]; [|done]. destruct Hr as (Ha & Hf & Hown).
  destruct (install_spec deallocate_frame R m p pr (<[f := bytes]> (mem m)) addr f fl a) as (ok & r & t & a' & E' & Hres); try done.
  - by left.
  - intros g Hg. apply fn_lookup_insert_ne. by intros ->.
  - by apply fresh_leaf_ok.
  - by apply free_undoes.
  - rewrite fn_lookup_insert in Hres. by exists ok, r, t, (<[f := bytes]> (mem m)), a'.
Qed.

Lemma fault_rejected R (m : machine) p pr addr bytes r a : inv R m → procs m !! p = Some pr → acct a (all_frames m) R →
  faulted R m p pr addr bytes (Some r) (set_space m p pr (tables pr) (mem m) a).
Proof.
  intros Hinv Hp Ha. destruct (space_stays R m p pr a Hinv Hp Ha) as [H1 H2]. split; [done| |done].
  intros q k. by rewrite H2, decide_False by (by intros (_ & _ & _ & ?)).
Qed.

(** The entry of a file page: copy-on-write if the mapping is private. *)
Lemma file_flags s addr v fl ino idx slot sh : Vma.find s addr = Some v → lookup_fault_vma s addr = Some (fl, FileSource ino idx slot sh) →
  has fl COW_BIT = negb sh ∧ (sh = false → has fl WRITABLE = false) ∧
  (∃ off wr pages, Vma.backing v = Vma.FileBacked ino off sh wr pages ∧ idx = (off + (Vma.align_down addr - Vma.start v)) / 4096).
Proof.
  unfold lookup_fault_vma. intros ->. destruct (has (Vma.flags v) LAZY); [|done]. cbn [negb]. destruct (Vma.backing v) as [| | | | |ino' off sh' wr pages]; try done.
  destruct (has (Vma.prot v) WRITE), (has (Vma.prot v) EXEC), sh'; cbn [negb]; intros [= <- -> <- <- <-]; rewrite has_COW, has_WRITABLE; (split; [done|]); (split; [done|]); eauto.
Qed.

Lemma zero_backing s addr v fl : Vma.find s addr = Some v → lookup_fault_vma s addr = Some (fl, Zero) →
  (Vma.backing v = Vma.Anonymous ∨ Vma.backing v = Vma.Stack) ∧ has fl COW_BIT = false.
Proof.
  unfold lookup_fault_vma. intros ->. destruct (has (Vma.flags v) LAZY); [|done]. cbn [negb].
  destruct (Vma.backing v); try done; destruct (has (Vma.prot v) WRITE), (has (Vma.prot v) EXEC); cbn [negb]; intros [= <-]; rewrite has_COW; split; auto.
Qed.

Lemma cached_install R (m : machine) p pr addr fl f : inv R m → procs m !! p = Some pr → 0 <= addr < 2 ^ 47 →
  f ∈ cache m → refs f (all_frames m) < U16_MAX → leaf_ok (f :: all_frames m) (areas pr) (path addr) (fl, f) →
  ∃ a, inc_refcount (falloc m) f = Ret a ∧ ∃ ok r t mm a', install drop_reference (tables pr) (mem m) addr f fl a = Ret (ok, r, t, mm, a') ∧
    faulted R m p pr addr (mem m f) r (set_space m p pr t mm a').
Proof.
  intros Hinv Hp Haddr Hc Hmax Hleaf. destruct (acct_inc (falloc m) f _ R (i_acct R m Hinv)) as (a & E & Ha); [apply elem_of_app; by right|done|].
  exists a. split; [done|]. destruct (install_spec drop_reference R m p pr (mem m) addr f fl a) as (ok & r & t & a' & E' & Hres); try done.
  - by right.
  - intros a0 H Ha0 Hin _. unfold drop_reference. destruct (acct_dec a0 f H R Ha0) as (n & a1 & -> & Ha1). cbn [mbind outcome_bind].
    rewrite bool_decide_true in Ha1 by auto. by exists a1.
  - by exists ok, r, t, (mem m), a'.
Qed.

Lemma fault_in_page_step R (m : machine) p pr ans addr v fl src : inv R m → procs m !! p = Some pr → 0 <= addr < 2 ^ 47 →
  answer_ok ans m → Vma.find (areas pr) addr = Some v → lookup_fault_vma (areas pr) addr = Some (fl, src) →
  (∀ ino idx slot, src = FileSource ino idx slot false → reloc ans = None) →
  ∃ r c t mm a, fault_in_page src fl (files ans) (tables pr) (mem m) (falloc m) addr = Ret (r, c, t, mm, a) ∧
    faulted R m p pr addr (first_bytes ans m pr addr) r (set_space m p pr t mm a).
Proof.
  intros Hinv Hp Haddr Hans Hv Hl Hrel. pose proof (i_acct R m Hinv) as Ha. pose proof (po_wf _ _ (i_proc R m Hinv p pr Hp)) as Hwf.
  pose proof (special_at (areas pr) addr v Hwf Haddr Hv) as Hsp. unfold first_bytes. rewrite Hv. unfold fault_in_page. destruct src as [|ino idx slot sh].
  - destruct (zero_backing _ _ _ _ Hv Hl) as [Hb Hc]. assert (Hpriv : private (areas pr) (path addr)) by (unfold private; rewrite Hsp; by destruct Hb as [-> | ->]).
    destruct (fresh_install R m p pr addr fl zero_page Hinv Hp Haddr Hpriv Hc) as (r & a & -> & Hr). cbn [mbind outcome_bind].
    destruct r as [f|]; [|eexists _, _, _, _, _; split; [done|by apply fault_rejected]].
    destruct Hr as (ok & r & t & mm & a' & -> & Hres). cbn [mbind outcome_bind]. eexists _, _, _, _, _. split; [done|]. by destruct Hb as [-> | ->].
  - destruct (file_flags _ _ _ _ _ _ _ _ Hv Hl) as (Hc & Hw & off & wr & pages & Hb & ->). rewrite Hb in Hsp |- *. specialize (Hans ino ((off + (Vma.align_down addr - Vma.start v)) / 4096)).
    destruct (file_page (files ans) ino _) as [f|rj]; [|eexists _, _, _, _, _; split; [done|by apply fault_rejected]]. destruct Hans as (Hf & Hown & Hmax).
    destruct (cached_install R m p pr addr fl f Hinv Hp Haddr Hf Hmax) as (a & -> & ok & r & t & mm & a' & Hi & Hres).
    { unfold leaf_ok. rewrite Hsp. cbn [fst snd]. destruct sh; [done|]. split; [done|]. rewrite Hc. by apply Hw. }
    cbn [mbind outcome_bind]. rewrite Hi. cbn [mbind outcome_bind]. eexists _, _, _, _, _. split; [done|]. destruct sh; [done|]. by erewrite Hrel.
Qed.

Lemma reloc_page_step R (m : machine) p pr ans patch addr v fl ino idx slot : inv R m → procs m !! p = Some pr → 0 <= addr < 2 ^ 47 →
  reloc ans = Some patch → Vma.find (areas pr) addr = Some v → lookup_fault_vma (areas pr) addr = Some (fl, FileSource ino idx slot false) →
  ∃ r t mm a, fault_in_reloc_page patch ino idx fl (files ans) (tables pr) (mem m) (falloc m) addr = Ret (r, t, mm, a) ∧
    faulted R m p pr addr (first_bytes ans m pr addr) r (set_space m p pr t mm a).
Proof.
  intros Hinv Hp Haddr Hrel Hv Hl. pose proof (i_acct R m Hinv) as Ha. pose proof (po_wf _ _ (i_proc R m Hinv p pr Hp)) as Hwf.
  destruct (file_flags _ _ _ _ _ _ _ _ Hv Hl) as (_ & _ & off & wr & pages & Hb & ->). unfold first_bytes, fault_in_reloc_page.
  rewrite Hv, Hb, Hrel. destruct (file_page (files ans) ino _) as [f|rj]; [|eexists _, _, _, _; split; [done|by apply fault_rejected]].
  destruct (fresh_install R m p pr addr (Z.lor (Z.ldiff fl COW_BIT) WRITABLE) (patch (mem m f)) Hinv Hp Haddr) as (r & a & -> & Hr).
  { unfold private. rewrite (special_at _ _ v Hwf Haddr Hv). by rewrite Hb. }
  { apply has_uncow. }
  cbn [mbind outcome_bind]. destruct r as [g|]; [|eexists _, _, _, _; split; [done|by apply fault_rejected]].
  destruct Hr as (ok & r & t & mm & a' & -> & Hres). cbn [mbind outcome_bind]. eexists _, _, _, _. split; [done|].
  destruct r as [rj|]; [|done]. destruct Hres as [H1 H2 H3]. split; [done| |done].
  intros q k. rewrite H2. by rewrite !decide_False by (by intros (_ & _ & _ & ?)).
Qed.

(** Areas that differ in the pages in hand only. *)
Lemma faulted_alike R (m : machine) p pr addr bytes r t ar mm a : procs m !! p = Some pr → Vma.wf ar → alike (areas pr) ar →
  faulted R m p pr addr bytes r (set_space m p pr t mm a) → faulted R m p pr addr bytes r (set_process m p (mk_proc t ar) mm a).
Proof.
  intros Hp Hwf Hal [[H1 H1'] H2 H3]. assert (Hpg : ∀ q k, page (set_process m p (mk_proc t ar) mm a) q k = page (set_space m p pr t mm a) q k).
  { intros q k. unfold page. cbn [procs mem set_process set_space]. by destruct (decide (q = p)) as [->|Hq]; [rewrite !lookup_insert_eq|rewrite !lookup_insert_ne by done]. }
  split; [|intros q k; by rewrite Hpg, H2|by rewrite Hpg].
  assert (HG : all_frames (set_process m p (mk_proc t ar) mm a) ≡ₚ all_frames (set_space m p pr t mm a)).
  { change (set_space m p pr t mm a) with (set_process m p (mk_proc t (areas pr)) mm a). by rewrite !(all_frames_replace m p pr _ _ _ Hp). }
  split; [by eapply acct_perm; [symmetry; exact HG|]|]. intros q pq. cbn [procs set_process]. intros [[<- <-]|[Hne Hq]]%lookup_insert_Some.
  - destruct (H1' p (mk_proc t (areas pr))) as [G1 G2 G3]; [cbn [procs set_space]; by rewrite lookup_insert_eq|]. split; [done|done|]. cbn [tables areas] in *.
    intros k e Hk. eapply leaf_ok_perm; [symmetry; exact HG|]. specialize (G3 k e Hk). unfold leaf_ok in *. by rewrite (alike_special _ _ Hal).
  - destruct (H1' q pq) as [G1 G2 G3]; [cbn [procs set_space]; by rewrite lookup_insert_ne|]. split; [done|done|].
    intros k e Hk. eapply leaf_ok_perm; [symmetry; exact HG|]. by apply G3.
Qed.

Lemma demand_step R (m : machine) p pr ans code addr : inv R m → procs m !! p = Some pr → 0 <= addr < 2 ^ 47 → answer_ok ans m →
  ∃ r ar t mm a, handle_demand_fault (reloc ans) (files ans) code (areas pr) (tables pr) (mem m) (falloc m) addr = Ret (r, ar, t, mm, a) ∧
    alike (areas pr) ar ∧ faulted R m p pr addr (first_bytes ans m pr addr) r (set_process m p (mk_proc t ar) mm a).
Proof.
  intros Hinv Hp Haddr Hans. pose proof (i_acct R m Hinv) as Ha. pose proof (po_wf _ _ (i_proc R m Hinv p pr Hp)) as Hwf.
  assert (Hrej : ∀ r, ∃ r0 ar t mm a, Ret (Some r, areas pr, tables pr, mem m, falloc m) = Ret (r0, ar, t, mm, a) ∧
    alike (areas pr) ar ∧ faulted R m p pr addr (first_bytes ans m pr addr) r0 (set_process m p (mk_proc t ar) mm a)).
  { intros r. eexists _, _, _, _, _. split; [done|]. split; [done|]. by apply fault_rejected. }
  unfold handle_demand_fault. destruct (protection code); [apply Hrej|]. destruct (Vma.find (areas pr) addr) as [v|] eqn:Hv; [|apply Hrej].
  destruct (_ && _); [apply Hrej|]. destruct (_ && _); [apply Hrej|]. destruct (lookup_fault_vma (areas pr) addr) as [[fl src]|] eqn:Hl; [|apply Hrej].
  assert (Hother : (∀ ino idx slot, src = FileSource ino idx slot false → reloc ans = None) →
    ∃ r ar t mm a, ('(r, cached, t, mem, a) ← fault_in_page src fl (files ans) (tables pr) (mem m) (falloc m) addr;
      Ret (r, match cached with Some frame => store_cached_page_on_vma (areas pr) addr frame | None => areas pr end, t, mem, a)) = Ret (r, ar, t, mm, a) ∧
    alike (areas pr) ar ∧ faulted R m p pr addr (first_bytes ans m pr addr) r (set_process m p (mk_proc t ar) mm a)).
  { intros Hrel. destruct (fault_in_page_step R m p pr ans addr v fl src Hinv Hp Haddr Hans Hv Hl Hrel) as (r & c & t & mm & a & -> & Hres). cbn [mbind outcome_bind].
    eexists _, _, _, _, _. split; [done|]. destruct c as [f|]; [|split; [done|exact Hres]]. destruct (store_cached_alike (areas pr) addr f Hwf) as [Hwf' Hal].
    split; [done|]. by eapply faulted_alike. }
  destruct (reloc ans) as [patch|] eqn:Hrel; [|by apply Hother]. destruct src as [|ino idx slot []]; [by apply Hother|by apply Hother|].
  destruct (reloc_page_step R m p pr ans patch addr v fl ino idx slot Hinv Hp Haddr Hrel Hv Hl) as (r & t & mm & a & -> & Hres). cbn [mbind outcome_bind].
  eexists _, _, _, _, _. split; [done|]. split; [done|exact Hres].
Qed.

(** ** Fork *)

Lemma cow_leaf_ok H H' s k e : leaf_ok H s k e → leaf_ok H' s k (cow_entry s (virt k) e).
Proof.
  unfold leaf_ok, cow_entry. destruct (is_special_mapping (virt k) s); [done|]. cbn [fst snd]. intros [Hown _]. split; [done|].
  rewrite has_COW, has_WRITABLE, !Z.lor_spec, !Z.ldiff_spec. change (Z.testbit COW_BIT 9) with true. change (Z.testbit WRITABLE 1) with true.
  by rewrite orb_true_r, andb_false_r.
Qed.

(** No frame of the parent comes near the end of its count. *)
Definition roomy (m : machine) (pr : Proc) : Prop :=
  ∀ f, f ∈ frames (tables pr) → refs f (all_frames m) + refs f (frames (tables pr)) <= U16_MAX.

Lemma fork_failed R (m : machine) p pr t a : inv R m → procs m !! p = Some pr → user_half t → frames t ≡ₚ frames (tables pr) →
  (∀ k, entry t k = entry (tables pr) k ∨ entry t k = cow_entry (areas pr) (virt k) <$> entry (tables pr) k) → acct a (all_frames m) R →
  inv R (set_space m p pr t (mem m) a) ∧ ∀ q k, page (set_space m p pr t (mem m) a) q k = page m q k.
Proof.
  intros Hinv Hp Hu Hf Hl Ha. pose proof (all_frames_proc m p pr Hp) as Hall. destruct (i_proc R m Hinv p pr Hp) as [_ _ Hleaf].
  assert (HG : frames t ++ rest m p ≡ₚ all_frames m) by (by rewrite Hall, Hf). split.
  - apply inv_change; try done; [by eapply acct_perm; [symmetry; exact HG|]| |intros f _; by rewrite HG].
    intros k e He. eapply leaf_ok_perm; [symmetry; exact HG|]. destruct (Hl k) as [E|E]; rewrite E in He; [by apply Hleaf|].
    destruct (entry (tables pr) k) as [e0|] eqn:E0; [|done]. injection He as <-. eapply cow_leaf_ok. by apply Hleaf.
  - intros q k. destruct (decide (q = p)) as [->|Hq]; [|by apply page_other]. rewrite page_self, (page_at m p pr k Hp).
    destruct (Hl k) as [-> | ->]; [done|]. destruct (entry (tables pr) k) as [e0|]; [|done]. cbn [fmap option_fmap option_map]. by rewrite cow_entry_frame.
Qed.

Lemma fork_done R (m : machine) p pr t ct ca a child : inv R m → procs m !! p = Some pr → procs m !! child = None →
  user_half t → user_half ct → frames t ≡ₚ frames (tables pr) →
  (∀ k, entry t k = cow_entry (areas pr) (virt k) <$> entry (tables pr) k ∧ entry ct k = entry t k) →
  Vma.wf ca → (∀ b, is_special_mapping b ca = is_special_mapping b (areas pr)) →
  acct a (frames ct ++ all_frames m) R → (∀ f, f ∈ all_frames m → refs f (frames ct) <= refs f (frames (tables pr))) →
  inv R (set_proc (set_space m p pr t (mem m) a) child (mk_proc ct ca)).
Proof.
  intros Hinv Hp Hchild Hu Huc Hf Hl Hca Hsp Ha Hle. assert (Hcp : child ≠ p) by (intros ->; congruence).
  assert (HG : all_frames (set_proc (set_space m p pr t (mem m) a) child (mk_proc ct ca)) ≡ₚ frames ct ++ all_frames m).
  { unfold all_frames, set_proc, set_space. cbn [procs cache]. rewrite space_insert by (by rewrite lookup_insert_ne).
    cbn [tables]. rewrite (space_replace _ p pr _ Hp). cbn [tables]. rewrite Hf, <- (space_delete _ p pr Hp). by rewrite <- (assoc (++)). }
  destruct (i_proc R m Hinv p pr Hp) as [_ Hwf Hleaf]. split; [by eapply acct_perm; [symmetry; exact HG|]|].
  assert (Hcow : ∀ k e, entry t k = Some e → leaf_ok (frames ct ++ all_frames m) (areas pr) k e).
  { intros k e He. destruct (Hl k) as [E _]. rewrite E in He. destruct (entry (tables pr) k) as [e0|] eqn:E0; [|done].
    injection He as <-. eapply cow_leaf_ok. by apply Hleaf. }
  intros q pq. unfold set_proc, set_space at 1. cbn [procs]. intros [[<- <-]|[Hqc [[<- <-]|[Hqp Hq]]%lookup_insert_Some]]%lookup_insert_Some.
  - split; [done|done|]. cbn [tables areas]. intros k e He. eapply leaf_ok_perm; [symmetry; exact HG|]. rewrite (proj2 (Hl k)) in He.
    specialize (Hcow k e He). unfold leaf_ok in *. by rewrite Hsp.
  - split; [done|done|]. cbn [tables areas]. intros k e He. eapply leaf_ok_perm; [symmetry; exact HG|]. by apply Hcow.
  - destruct (i_proc R m Hinv q pq Hq) as [H1 H2 H3]. split; [done|done|]. intros k e He. eapply leaf_ok_perm; [symmetry; exact HG|].
    eapply leaf_ok_mono; [intros Hw|by apply H3].
    assert (Hin : e.2 ∈ rest m p) by (apply elem_of_app; left; by eapply rest_elem). apply refs_pos in Hin as Hpos.
    specialize (Hle e.2 (elem_rest m p pr _ Hp Hin)). rewrite (all_frames_proc m p pr Hp), refs_app in Hw. rewrite refs_app, (all_frames_proc m p pr Hp), refs_app.
    pose proof (refs_nonneg e.2 (frames ct)). pose proof (refs_nonneg e.2 (frames (tables pr))). lia.
Qed.

(** The walk of a fork keeps every frame where it is mapped. *)
Lemma set_space_frames (m : machine) p pr t mm a q pq : procs m !! p = Some pr → procs m !! q = Some pq →
  (∀ k, entry t k = entry (tables pr) k ∨ entry t k = cow_entry (areas pr) (virt k) <$> entry (tables pr) k) →
  ∃ pq', procs (set_space m p pr t mm a) !! q = Some pq' ∧ areas pq' = areas pq ∧ ∀ k, snd <$> entry (tables pq') k = snd <$> entry (tables pq) k.
Proof.
  intros Hp Hq Hl. cbn [procs set_space]. destruct (decide (q = p)) as [->|Hne]; [|rewrite lookup_insert_ne by done; by exists pq].
  rewrite Hp in Hq. injection Hq as <-. rewrite lookup_insert_eq. eexists. split; [done|]. split; [done|]. intros k. cbn [tables].
  destruct (Hl k) as [-> | ->]; [done|]. destruct (entry (tables pr) k) as [e|]; [|done]. cbn [fmap option_fmap option_map]. by rewrite cow_entry_frame.
Qed.

(** A fork that succeeds gives the child what the parent sees; one that fails
    changes what nobody sees and keeps no frame. *)
Lemma fork_step R (m : machine) p pr child : inv R m → procs m !! p = Some pr → procs m !! child = None → roomy m pr →
  ∃ ok m', fork m p child = Ret (ok, m') ∧ inv R m' ∧ (∀ q k, page m' q k = if ok && bool_decide (q = child) then page m p k else page m q k) ∧
    (ok = true → ∃ pc, procs m' !! child = Some pc ∧ ∀ b, Vma.find (areas pc) b = clone_vma <$> Vma.find (areas pr) b) ∧
    (ok = false → procs m' !! child = None) ∧
    (∀ q pq, procs m !! q = Some pq → ∃ pq', procs m' !! q = Some pq' ∧ areas pq' = areas pq ∧ ∀ k, snd <$> entry (tables pq') k = snd <$> entry (tables pq) k) ∧
    (ok = true → ∃ pr' pc, procs m' !! p = Some pr' ∧ procs m' !! child = Some pc ∧
       ∀ k, entry (tables pr') k = cow_entry (areas pr) (virt k) <$> entry (tables pr) k ∧ entry (tables pc) k = entry (tables pr') k).
Proof.
  intros Hinv Hp Hc Hroom. destruct (i_proc R m Hinv p pr Hp) as [Hu Hwf _]. assert (Hcp : child ≠ p) by (intros ->; congruence).
  unfold fork. rewrite Hp. destruct (clone_tables_spec (areas pr) (tables pr) (falloc m) (all_frames m) R) as (t & r & a & -> & Hu' & Hf & Hl & Hr); try done.
  { apply (i_acct R m Hinv). }
  { intros f. by apply (elem_all m p pr). }
  cbn [mbind outcome_bind]. destruct r as [ct|].
  - destruct Hr as (Ha & Huc & Hle & Hl'). destruct (clone_areas_spec (areas pr) Hwf) as (ca & -> & Hwfc & Hfind). cbn [mbind outcome_bind].
    eexists true, _. split; [done|]. split; [by apply fork_done; try done; apply clone_special|]. split; [|split; [|split; [done|split]]].
    + intros q k. cbn [andb]. unfold page at 1. cbn [procs mem set_proc set_space]. case_bool_decide as Hq.
      * subst q. rewrite lookup_insert_eq. cbn [tables]. rewrite (page_at m p pr k Hp), (proj2 (Hl' k)), (proj1 (Hl' k)).
        destruct (entry (tables pr) k) as [e0|]; [|done]. cbn [fmap option_fmap option_map]. by rewrite cow_entry_frame.
      * rewrite lookup_insert_ne by done. change (page (set_space m p pr t (mem m) a) q k = page m q k).
        destruct (decide (q = p)) as [->|Hqp]; [|by apply page_other]. rewrite page_self, (page_at m p pr k Hp), (proj1 (Hl' k)).
        destruct (entry (tables pr) k) as [e0|]; [|done]. cbn [fmap option_fmap option_map]. by rewrite cow_entry_frame.
    + intros _. eexists. cbn [procs set_proc]. rewrite lookup_insert_eq. split; [done|]. exact Hfind.
    + intros q pq Hq. unfold set_proc. cbn [procs]. rewrite lookup_insert_ne by (intros ->; congruence). eapply set_space_frames; [done|done|]. intros k. right. apply Hl'.
    + intros _. exists (mk_proc t (areas pr)), (mk_proc ct ca). cbn [procs set_proc set_space]. rewrite lookup_insert_ne, !lookup_insert_eq by done. split; [done|]. split; [done|]. exact Hl'.
  - destruct (fork_failed R m p pr t a Hinv Hp Hu' Hf Hl Hr) as [H1 H2]. eexists false, _. split; [done|]. split; [done|]. split; [done|].
    split; [done|]. split; [intros _; cbn [procs set_space]; by rewrite lookup_insert_ne|]. split; [|done]. intros q pq Hq. by eapply set_space_frames.
Qed.

(** ** Stores *)

Definition poke (bytes : list Z) (addr b : Z) : list Z := <[Z.to_nat (addr mod 4096) := b]> bytes.

(** Nobody else has the frame of a private page that can be written. *)
Lemma poke_step R (m : machine) p pr addr b fl f : inv R m → procs m !! p = Some pr → walk (tables pr) addr = Some (fl, f) → has fl WRITABLE = true →
  private (areas pr) (path addr) →
  let m' := mk_machine (procs m) (<[f := poke (mem m f) addr b]> (mem m)) (falloc m) (cache m) in
  inv R m' ∧ ∀ q k, page m' q k = if decide (q = p ∧ k = path addr) then Some (poke (mem m f) addr b) else page m q k.
Proof.
  intros Hinv Hp Hw Hwr Hpriv m'. destruct Hinv as [Ha Hproc]. split; [by split|].
  destruct (Hproc p pr Hp) as [_ _ Hleaf]. destruct (leaf_private _ _ _ _ (Hleaf (path addr) (fl, f) Hw) Hpriv) as [_ Href]. specialize (Href Hwr). cbn [fst snd] in Href.
  destruct (@leaf_frame _ L4 (tables pr) (path addr) (fl, f) Hw) as (r & Hr & Hother). cbn [snd] in Hr.
  assert (Hno : f ∉ r ++ rest m p).
  { rewrite (all_frames_proc m p pr Hp), Hr, <- app_comm_cons, refs_cons, decide_True in Href by done. apply refs_zero. lia. }
  intros q k. unfold page. cbn [procs mem m']. destruct (decide (q = p)) as [->|Hq].
  - rewrite Hp. destruct (decide (k = path addr)) as [->|Hk].
    + rewrite decide_True by done. unfold walk in Hw. rewrite Hw. cbn [snd]. by rewrite fn_lookup_insert.
    + rewrite decide_False by (by intros [_ ?]). destruct (entry (tables pr) k) as [e|] eqn:E; [|done]. rewrite fn_lookup_insert_ne; [done|].
      intros ->. apply Hno, elem_of_app. left. by eapply Hother.
  - rewrite decide_False by (by intros [? _]). destruct (procs m !! q) as [pq|] eqn:Eq; [|done]. destruct (entry (tables pq) k) as [e|] eqn:E; [|done].
    rewrite fn_lookup_insert_ne; [done|]. intros ->. apply Hno, elem_of_app. right. apply elem_of_app. left. by eapply rest_elem.
Qed.

(** The outcome of a store: only the page of the address changes, and it holds
    the byte if the store went through. [old] is what it held. *)
Record stored (R : list Z) (m : machine) (p : nat) (addr b : Z) (old : list Z) (ok : bool) (m' : machine) : Prop := {
  s_inv : inv R m';
  s_other : ∀ q k, ¬ (q = p ∧ k = path addr) → page m' q k = page m q k;
  s_page : if ok then page m' p (path addr) = Some (poke old addr b)
           else page m' p (path addr) = page m p (path addr) ∨ page m' p (path addr) = Some old;
  s_procs : ∀ q pq, procs m !! q = Some pq → ∃ pq', procs m' !! q = Some pq' ∧ alike (areas pq) (areas pq');
  s_tables : ∀ q, q ≠ p → procs m' !! q = procs m !! q
}.

Lemma page_walk (m : machine) p pr addr bytes : procs m !! p = Some pr → page m p (path addr) = Some bytes →
  ∃ fl f, walk (tables pr) addr = Some (fl, f) ∧ bytes = mem m f.
Proof. intros Hp. rewrite (page_at m p pr _ Hp). unfold walk. destruct (entry (tables pr) (path addr)) as [[fl f]|]; [|done]. intros [= <-]. by exists fl, f. Qed.

Lemma set_process_areas (m : machine) p pr t ar mm a : procs m !! p = Some pr → alike (areas pr) ar →
  ∀ q pq, procs m !! q = Some pq → ∃ pq', procs (set_process m p (mk_proc t ar) mm a) !! q = Some pq' ∧ alike (areas pq) (areas pq').
Proof.
  intros Hp Hal q pq Hq. cbn [procs set_process]. destruct (decide (q = p)) as [->|Hne].
  - rewrite lookup_insert_eq. eexists. split; [done|]. rewrite Hp in Hq. by injection Hq as <-.
  - rewrite lookup_insert_ne by done. by exists pq.
Qed.

Lemma store_writable n ans R (m : machine) p pr addr b fl f : inv R m → procs m !! p = Some pr → walk (tables pr) addr = Some (fl, f) →
  has fl WRITABLE = true → private (areas pr) (path addr) →
  ∃ m', store (S n) ans m p addr b = Ret (Some true, m') ∧ stored R m p addr b (mem m f) true m'.
Proof.
  intros Hinv Hp Hw Hwr Hpriv. destruct (poke_step R m p pr addr b fl f Hinv Hp Hw Hwr Hpriv) as [H1 H2]. cbn [store]. rewrite Hp, Hw, Hwr.
  eexists. split; [done|]. split; [exact H1| | | |done].
  - intros q k Hne. by rewrite H2, decide_False.
  - by rewrite H2, decide_True.
  - intros q pq Hq. by exists pq.
Qed.

Lemma store_present n ans R (m : machine) p pr addr b old : inv R m → procs m !! p = Some pr → page m p (path addr) = Some old →
  private (areas pr) (path addr) →
  ∃ ok m', store (S (S n)) ans m p addr b = Ret (Some ok, m') ∧ stored R m p addr b old ok m'.
Proof.
  intros Hinv Hp Hpg Hpriv. destruct (page_walk m p pr addr old Hp Hpg) as (fl & f & Hw & ->). destruct (has fl WRITABLE) eqn:Hwr.
  { destruct (store_writable (S n) ans R m p pr addr b fl f) as (m' & E & H); try done. by exists true, m'. }
  cbn [store]. rewrite Hp, Hw, Hwr. destruct (cow_step R m p pr addr Hinv Hp) as (ok & t & mm & a & -> & Hinv' & Hview & Hok). cbn [mbind outcome_bind].
  pose proof (set_process_areas m p pr t (areas pr) mm a Hp ltac:(done)) as Har. destruct ok.
  - destruct (Hok eq_refl) as ([fl' f'] & Hw' & Hwr').
    destruct (store_writable n ans R (set_space m p pr t mm a) p (mk_proc t (areas pr)) addr b fl' f') as (m' & E & [S1 S2 S3 S4 S5]); try done.
    { cbn [procs set_space]. by rewrite lookup_insert_eq. }
    exists true, m'. split; [exact E|]. split; [done| | | |intros q Hq; rewrite S5 by done; by apply lookup_insert_ne].
    + intros q k Hne. by rewrite S2, Hview.
    + rewrite S3. do 2 f_equal. specialize (Hview p (path addr)). rewrite page_self, Hpg in Hview. unfold walk in Hw'. rewrite Hw' in Hview. by injection Hview.
    + intros q pq Hq. destruct (Har q pq Hq) as (pq1 & Hq1 & Ha1). destruct (S4 q pq1 Hq1) as (pq2 & Hq2 & Ha2). exists pq2. split; [done|]. by etransitivity.
  - eexists false, _. split; [done|]. split; [done|auto|left; by rewrite Hview|exact Har|intros q Hq; by apply lookup_insert_ne].
Qed.

(** Three attempts are enough: a fault that brings the page, one that makes it
    writable, and the store. *)
Lemma store_step R (m : machine) p pr ans addr b : inv R m → procs m !! p = Some pr → 0 <= addr < 2 ^ 47 → answer_ok ans m →
  private (areas pr) (path addr) →
  ∃ ok m', store 3 ans m p addr b = Ret (Some ok, m') ∧
    stored R m p addr b (default (first_bytes ans m pr addr) (page m p (path addr))) ok m'.
Proof.
  intros Hinv Hp Haddr Hans Hpriv. destruct (page m p (path addr)) as [old|] eqn:Hpg; cbn [default]; [by eapply store_present|].
  assert (Hw : walk (tables pr) addr = None).
  { rewrite (page_at m p pr _ Hp) in Hpg. unfold walk. by destruct (entry (tables pr) (path addr)). }
  set (n := 2%nat). change 3%nat with (S n). cbn [store]. rewrite Hp, Hw.
  destruct (demand_step R m p pr ans (mk_code false true false) addr Hinv Hp Haddr Hans) as (r & ar & t & mm & a & -> & Hal & [F1 F2 F3]). cbn [mbind outcome_bind].
  pose proof (set_process_areas m p pr t ar mm a Hp Hal) as Har. set (m1 := set_process m p (mk_proc t ar) mm a) in *.
  assert (Hv : ∀ q k, ¬ (q = p ∧ k = path addr) → page m1 q k = page m q k) by (intros q k Hne; rewrite F2, decide_False; [done|tauto]).
  destruct r as [rj|].
  - exists false, m1. split; [done|]. split; [done|done| |done|intros q Hq; by apply lookup_insert_ne]. left. rewrite F2, decide_False; [done|]. by intros (_ & _ & _ & ?).
  - assert (Hpg1 : page m1 p (path addr) = Some (first_bytes ans m pr addr)) by (by rewrite F2, decide_True).
    destruct (store_present 0 ans R m1 p (mk_proc t ar) addr b (first_bytes ans m pr addr) F1) as (ok & m' & E & [S1 S2 S3 S4 S5]); try done.
    { unfold m1. cbn [procs set_process]. by rewrite lookup_insert_eq. }
    { unfold private. cbn [areas]. by rewrite (alike_special _ _ Hal). }
    exists ok, m'. split; [exact E|]. split; [done| | | |intros q Hq; rewrite S5 by done; by apply lookup_insert_ne].
    + intros q k Hne. by rewrite S2, Hv.
    + destruct ok; [done|]. right. rewrite Hpg1 in S3. by destruct S3.
    + intros q pq Hq. destruct (Har q pq Hq) as (pq1 & Hq1 & Ha1). destruct (S4 q pq1 Hq1) as (pq2 & Hq2 & Ha2). exists pq2. split; [done|]. by etransitivity.
Qed.

(** *** Shared pages *)

(** The outcome of a store to any page: the tables of the other processes stay,
    and what they see changes at most where they map the frame stored to. *)
Record touched (R : list Z) (m : machine) (p : nat) (addr : Z) (ok : bool) (m' : machine) : Prop := {
  t_inv : inv R m';
  t_proc : is_Some (procs m' !! p);
  t_tables : ∀ q, q ≠ p → procs m' !! q = procs m !! q;
  t_pages : ∀ q pq k, q ≠ p → procs m !! q = Some pq →
    (∀ pr' e e', ok = true → procs m' !! p = Some pr' → walk (tables pr') addr = Some e' → entry (tables pq) k = Some e → e.2 ≠ e'.2) →
    page m' q k = page m q k
}.

Lemma touch_writable n ans R (m : machine) p pr addr b fl f : inv R m → procs m !! p = Some pr → walk (tables pr) addr = Some (fl, f) → has fl WRITABLE = true →
  ∃ m', store (S n) ans m p addr b = Ret (Some true, m') ∧ touched R m p addr true m'.
Proof.
  intros Hinv Hp Hw Hwr. cbn [store]. rewrite Hp, Hw, Hwr. eexists. split; [done|]. destruct Hinv as [Ha Hproc].
  split; [by split|cbn [procs]; by rewrite Hp|done|]. intros q pq k Hq Eq Hno. cbn [procs] in Hno. unfold page. cbn [procs mem]. rewrite Eq.
  destruct (entry (tables pq) k) as [e|]; [|done]. rewrite fn_lookup_insert_ne; [done|]. intros ->. by eapply (Hno pr e (fl, e.2)).
Qed.

Lemma touched_after R (m : machine) p addr ok t ar mm a m' : (∀ q k, q ≠ p → page (set_process m p (mk_proc t ar) mm a) q k = page m q k) →
  touched R (set_process m p (mk_proc t ar) mm a) p addr ok m' → touched R m p addr ok m'.
Proof.
  intros Hv [T1 T2 T3 T4]. split; [done|done| |].
  - intros q Hq. rewrite T3 by done. by apply lookup_insert_ne.
  - intros q pq k Hq Eq Hno. rewrite (T4 q pq k Hq); [by apply Hv|cbn [procs set_process]; by rewrite lookup_insert_ne|done].
Qed.

Lemma touched_refused R (m : machine) p t ar mm a addr : inv R (set_process m p (mk_proc t ar) mm a) → (∀ q k, q ≠ p → page (set_process m p (mk_proc t ar) mm a) q k = page m q k) →
  touched R m p addr false (set_process m p (mk_proc t ar) mm a).
Proof.
  intros Hinv Hv. split; [done|cbn [procs set_process]; by rewrite lookup_insert_eq|intros q Hq; by apply lookup_insert_ne|]. intros q pq k Hq _ _. by apply Hv.
Qed.

Lemma touch_present n ans R (m : machine) p pr addr b old : inv R m → procs m !! p = Some pr → page m p (path addr) = Some old →
  ∃ ok m', store (S (S n)) ans m p addr b = Ret (Some ok, m') ∧ touched R m p addr ok m'.
Proof.
  intros Hinv Hp Hpg. destruct (page_walk m p pr addr old Hp Hpg) as (fl & f & Hw & ->). destruct (has fl WRITABLE) eqn:Hwr.
  { destruct (touch_writable (S n) ans R m p pr addr b fl f) as (m' & E & H); try done. by exists true, m'. }
  cbn [store]. rewrite Hp, Hw, Hwr. destruct (cow_step R m p pr addr Hinv Hp) as (ok & t & mm & a & -> & Hinv' & Hview & Hok). cbn [mbind outcome_bind].
  change (set_space m p pr t mm a) with (set_process m p (mk_proc t (areas pr)) mm a) in *. destruct ok.
  - destruct (Hok eq_refl) as ([fl' f'] & Hw' & Hwr').
    destruct (touch_writable n ans R (set_process m p (mk_proc t (areas pr)) mm a) p (mk_proc t (areas pr)) addr b fl' f') as (m' & E & H); try done.
    { cbn [procs set_process]. by rewrite lookup_insert_eq. }
    exists true, m'. split; [exact E|]. eapply touched_after; [|exact H]. intros q k _. by apply Hview.
  - eexists false, _. split; [done|]. apply touched_refused; [done|]. intros q k _. by apply Hview.
Qed.

(** A store to any page, shared ones included, ends. *)
Lemma touch_step R (m : machine) p pr ans addr b : inv R m → procs m !! p = Some pr → 0 <= addr < 2 ^ 47 → answer_ok ans m →
  ∃ ok m', store 3 ans m p addr b = Ret (Some ok, m') ∧ touched R m p addr ok m'.
Proof.
  intros Hinv Hp Haddr Hans. destruct (page m p (path addr)) as [old|] eqn:Hpg; [by eapply touch_present|].
  assert (Hw : walk (tables pr) addr = None).
  { rewrite (page_at m p pr _ Hp) in Hpg. unfold walk. by destruct (entry (tables pr) (path addr)). }
  set (n := 2%nat). change 3%nat with (S n). cbn [store]. rewrite Hp, Hw.
  destruct (demand_step R m p pr ans (mk_code false true false) addr Hinv Hp Haddr Hans) as (r & ar & t & mm & a & -> & Hal & [F1 F2 F3]). cbn [mbind outcome_bind].
  assert (Hv : ∀ q k, q ≠ p → page (set_process m p (mk_proc t ar) mm a) q k = page m q k) by (intros q k Hne; rewrite F2, decide_False; [done|tauto]).
  destruct r as [rj|]; [eexists false, _; split; [done|by apply touched_refused]|].
  destruct (F3 eq_refl) as [bytes Hpg1]. destruct (touch_present 0 ans R _ p (mk_proc t ar) addr b bytes F1) as (ok & m' & E & H); [cbn [procs set_process]; by rewrite lookup_insert_eq|done|].
  exists ok, m'. split; [exact E|]. by eapply touched_after.
Qed.

(** ** Runs *)

(** [f] is the frame a store through a shared mapping went to, if it went
    through. *)
Inductive event :=
| Forked (p child : nat) (ok : bool)
| Stored (p : nat) (addr b : Z) (ok : bool)
| Shared (p : nat) (addr b : Z) (f : option Z).

(** One operation of one process: a fork under a number nobody has, a store to a
    private page, or a store to a page of a shared mapping. *)
Inductive step (m : machine) : event → machine → Prop :=
| step_fork p pr child ok m' : procs m !! p = Some pr → procs m !! child = None → roomy m pr →
    fork m p child = Ret (ok, m') → step m (Forked p child ok) m'
| step_store p pr ans addr b ok m' : procs m !! p = Some pr → 0 <= addr < 2 ^ 47 → answer_ok ans m → private (areas pr) (path addr) →
    store 3 ans m p addr b = Ret (Some ok, m') → step m (Stored p addr b ok) m'
| step_shared p pr ans addr b ok m' pr' : procs m !! p = Some pr → 0 <= addr < 2 ^ 47 → answer_ok ans m → ¬ private (areas pr) (path addr) →
    store 3 ans m p addr b = Ret (Some ok, m') → procs m' !! p = Some pr' →
    step m (Shared p addr b (if ok then snd <$> walk (tables pr') addr else None)) m'.

Inductive steps : machine → list event → machine → Prop :=
| steps_nil m : steps m [] m
| steps_cons m ev m1 evs m2 : step m ev m1 → steps m1 evs m2 → steps m (ev :: evs) m2.

(** Stores of the process itself. *)
Definition by_process (p : nat) (ev : event) : bool :=
  match ev with Forked _ _ _ => false | Stored q _ _ _ | Shared q _ _ _ => bool_decide (q = p) end.

(** A store through a shared mapping of the frame. *)
Definition hits (f : Z) (ev : event) : bool :=
  match ev with Shared _ _ _ (Some g) => bool_decide (g = f) | _ => false end.

Lemma step_keeps R m ev m' : inv R m → step m ev m' →
  inv R m' ∧ ∀ p pr, procs m !! p = Some pr → by_process p ev = false →
    ∃ pr', procs m' !! p = Some pr' ∧ ∀ k, snd <$> entry (tables pr') k = snd <$> entry (tables pr) k ∧
      ((∀ e, entry (tables pr) k = Some e → hits e.2 ev = false) → page m' p k = page m p k).
Proof.
  intros Hinv Hst. destruct Hst as [p pr child ok m' Hp Hc Hroom E|p pr ans addr b ok m' Hp Haddr Hans Hpriv E|p pr ans addr b ok m' pr' Hp Haddr Hans Hpriv E Hp'].
  - destruct (fork_step R m p pr child Hinv Hp Hc Hroom) as (ok' & m1 & E' & Hinv' & Hview & _ & _ & Har & _). rewrite E in E'. injection E' as <- <-.
    split; [done|]. intros q pq Hq _. assert (Hqc : q ≠ child) by (intros ->; congruence). destruct (Har q pq Hq) as (pq' & Hq' & _ & Hfr). exists pq'. split; [done|].
    intros k. split; [done|]. intros _. rewrite Hview, bool_decide_false by done. by rewrite andb_false_r.
  - destruct (store_step R m p pr ans addr b Hinv Hp Haddr Hans Hpriv) as (ok' & m1 & E' & [S1 S2 S3 S4 S5]). rewrite E in E'. injection E' as <- <-.
    split; [done|]. intros q pq Hq Hne%bool_decide_eq_false. exists pq. rewrite S5 by done. split; [done|]. intros k. split; [done|]. intros _. apply S2. by intros [-> _].
  - destruct (touch_step R m p pr ans addr b Hinv Hp Haddr Hans) as (ok' & m1 & E' & [S1 S2 S3 S4]). rewrite E in E'. injection E' as <- <-.
    split; [done|]. intros q pq Hq Hne%bool_decide_eq_false. exists pq. rewrite S3 by done. split; [done|]. intros k. split; [done|].
    intros Hh. apply (S4 q pq k); [done|done|]. intros pr1 e e' -> H1 H2 He. rewrite Hp' in H1. injection H1 as <-. specialize (Hh e He). cbn [hits] in Hh.
    rewrite H2 in Hh. cbn [fmap option_fmap option_map] in Hh. apply bool_decide_eq_false in Hh. congruence.
Qed.

Lemma steps_keep R m evs m' : steps m evs m' → inv R m →
  inv R m' ∧ ∀ p pr, procs m !! p = Some pr → Forall (λ ev, by_process p ev = false) evs →
    ∀ k, (∀ e, entry (tables pr) k = Some e → Forall (λ ev, hits e.2 ev = false) evs) → page m' p k = page m p k.
Proof.
  induction 1 as [m|m ev m1 evs m2 Hst _ IH]; intros Hinv; [done|]. destruct (step_keeps R m ev m1 Hinv Hst) as [Hinv1 H1].
  destruct (IH Hinv1) as [Hinv2 H2]. split; [done|]. intros p pr Hp [Hev Hevs]%Forall_cons k Hh. destruct (H1 p pr Hp Hev) as (pr1 & Hp1 & Hk). destruct (Hk k) as [Hfr Hv].
  rewrite (H2 p pr1 Hp1 Hevs k).
  - apply Hv. intros e He. by apply Hh, Forall_cons in He as [? _].
  - intros e He. rewrite He in Hfr. destruct (entry (tables pr) k) as [e0|]; [|done]. injection Hfr as Hfr. rewrite Hfr. by specialize (Hh e0 eq_refl) as [_ ?]%Forall_cons.
Qed.

(** ** Theorems *)

(** C13 fork ([sys_fork] with [clone_user_page_tables_cow]), by a process none of
    whose frames comes near the end of its 16-bit count of owners, returns. If it
    succeeds, the child has the parent's areas and sees at every page what the
    parent sees, without a copy: parent and child map the same frame, a private
    page without write permission and marked copy-on-write in both, a page of a
    shared mapping with the entry it had. If it runs out of memory there is no
    child. No process sees any change, every frame stays accounted for and no
    frame is leaked. *)
Theorem fork_correct R (m : machine) p pr child : inv R m → procs m !! p = Some pr → procs m !! child = None → roomy m pr →
  ∃ ok m', fork m p child = Ret (ok, m') ∧ inv R m' ∧ (∀ q k, page m' q k = if ok && bool_decide (q = child) then page m p k else page m q k) ∧
    (ok = true → ∃ pr' pc, procs m' !! p = Some pr' ∧ procs m' !! child = Some pc ∧
       (∀ b, Vma.find (areas pc) b = clone_vma <$> Vma.find (areas pr) b) ∧
       ∀ k e, entry (tables pr) k = Some e → ∃ fl, entry (tables pr') k = Some (fl, e.2) ∧ entry (tables pc) k = Some (fl, e.2) ∧
         if is_special_mapping (virt k) (areas pr) then fl = e.1 else has fl WRITABLE = false ∧ has fl COW_BIT = true) ∧
    (ok = false → procs m' !! child = None).
Proof.
  intros Hinv Hp Hc Hroom. destruct (fork_step R m p pr child Hinv Hp Hc Hroom) as (ok & m' & H1 & H2 & H3 & H4 & H5 & _ & H6). exists ok, m'.
  split; [done|]. split; [done|]. split; [done|]. split; [|done]. intros ->. destruct (H4 eq_refl) as (pc & Hpc & Hf), (H6 eq_refl) as (pr' & pc' & Hp' & Hpc' & Hk).
  rewrite Hpc in Hpc'. injection Hpc' as <-. exists pr', pc. split; [done|]. split; [done|]. split; [done|]. intros k e He. destruct (Hk k) as [K1 K2].
  rewrite K2, K1, He. cbn [fmap option_fmap option_map]. unfold cow_entry. destruct (is_special_mapping (virt k) (areas pr)); [exists e.1; by rewrite <- surjective_pairing|].
  eexists. split; [done|]. split; [done|]. rewrite has_WRITABLE, has_COW, !Z.lor_spec, !Z.ldiff_spec. change (Z.testbit COW_BIT 9) with true. change (Z.testbit WRITABLE 1) with true.
  by rewrite orb_true_r, andb_false_r.
Qed.


(** C4 Isolation. In any run of stores by any processes, to private pages and
    through shared mappings, and of forks by processes whose frames stay within
    their 16-bit counts, with a page cache that answers with frames it owns: what
    a process sees at a page changes only by a store of the process itself, or by
    a store of another through a shared mapping of the very frame the process
    maps there; and the accounting of frames stays exact. *)
Theorem isolation R m evs m' p pr : inv R m → steps m evs m' → procs m !! p = Some pr → Forall (λ ev, by_process p ev = false) evs →
  inv R m' ∧ ∀ k, (∀ e, entry (tables pr) k = Some e → Forall (λ ev, hits e.2 ev = false) evs) → page m' p k = page m p k.
Proof. intros Hinv Hst Hp Hev. destruct (steps_keep R m evs m' Hst Hinv) as [H1 H2]. split; [done|]. by eapply H2. Qed.

End Safety.

(** ** A machine *)

(** Sixteen frames from one megabyte; process 0 has one lazily mapped anonymous
    area of two pages and nothing mapped yet. *)
Definition demo_falloc : FrameAlloc.BitmapFrameAllocator := FrameAlloc.mk_fa [1; 0] (1 :: replicate 15 0) 0x100000 16 0.
Definition demo_areas : Vma.VmaSet := Vma.mk_set [(0x400000, Vma.mk_vma 0x400000 0x402000 3 8 Vma.Anonymous)] 0.
Definition demo_proc : Proc := mk_proc (zeroed 0x100000) demo_areas.
Definition demo_machine : Machine (F := FrameAlloc.BitmapFrameAllocator) :=
  mk_machine {[ 0%nat := demo_proc ]} (λ _, []) demo_falloc [].
Definition demo_answer : Answer := mk_answer None (mk_files (λ _, false) (λ _, None) (λ _ _, None)).

Abbreviation demo_owner := (bitmap_owner 0x100000 16).

Lemma refs_le_length f H : refs f H <= Z.of_nat (length H).
Proof. induction H as [|g H IH]; [done|]. rewrite refs_cons. cbn [length]. case_decide; lia. Qed.

Lemma demo_falloc_inv : FrameAlloc.inv demo_falloc.
Proof.
  split; [repeat constructor; vm_compute; congruence|cbn; lia|cbn; lia|]. intros i Hi. cbn [demo_falloc FrameAlloc.frame_count] in Hi.
  do 16 (destruct i as [|i]; [vm_compute; congruence|]). lia.
Qed.

Lemma demo_books : books 0x100000 16 demo_falloc [0x100000] [].
Proof.
  split; [exact demo_falloc_inv|done|done|by repeat constructor| | |].
  - intros i Hi. do 16 (destruct i as [|i]; [done|]). lia.
  - intros i Hi. unfold nth_frame. rewrite list_elem_of_singleton. destruct i as [|i]; [vm_compute; tauto|].
    split; [|intros [?|?%elem_of_nil]; [lia|done]]. do 15 (destruct i as [|i]; [done|]). lia.
  - intros f _ Hf. by apply elem_of_nil in Hf.
Qed.

Lemma demo_areas_wf : Vma.wf demo_areas.
Proof. cbn. split_and!; [done|done| |done]. split; done. Qed.

Lemma demo_inv : inv (FO := demo_owner) [] demo_machine.
Proof.
  split; [exact demo_books|]. intros p pr. cbn. intros [<- <-]%lookup_singleton_Some. split; [by split; [intros i e|split; intros i e]|exact demo_areas_wf|done].
Qed.

(** The process stores, forks, and its child stores at the same address. *)
Definition demo_addr : Z := 0x400005.
Abbreviation demo_store m p b := (store (FO := demo_owner) 3 demo_answer m p demo_addr b).
Definition after_store {A} (d : A) (r : outcome (option bool * A)) : A := match r with Ret (_, m) => m | Panic => d end.
Definition after_fork {A} (d : A) (r : outcome (bool * A)) : A := match r with Ret (_, m) => m | Panic => d end.
Definition demo1 := after_store demo_machine (demo_store demo_machine 0 7).
Definition demo2 := after_fork demo_machine (fork (FO := demo_owner) demo1 0 1).
Definition demo3 := after_store demo_machine (demo_store demo2 1 9).
Definition byte_at (m : Machine (F := FrameAlloc.BitmapFrameAllocator)) (p : nat) : option Z := page m p (path demo_addr) ≫= λ l, l !! 5%nat.
Definition proc_of (m : Machine (F := FrameAlloc.BitmapFrameAllocator)) (p : nat) : Proc := default demo_proc (procs m !! p).

Lemma proc_of_Some m p : is_Some (procs m !! p) → procs m !! p = Some (proc_of m p).
Proof. unfold proc_of. by intros [pr ->]. Qed.

Lemma demo_private m p : Vma.find (areas (proc_of m p)) (virt (path demo_addr)) = Some (Vma.mk_vma 0x400000 0x402000 3 8 Vma.Anonymous) →
  private (areas (proc_of m p)) (path demo_addr).
Proof. unfold private, is_special_mapping. by intros ->. Qed.

Lemma few_frames m pr : Z.of_nat (length (all_frames m)) + Z.of_nat (length (frames (tables pr))) <= U16_MAX → roomy (F := FrameAlloc.BitmapFrameAllocator) m pr.
Proof. intros H f _. pose proof (refs_le_length f (all_frames m)). pose proof (refs_le_length f (frames (tables pr))). lia. Qed.

Lemma demo1_stored : demo_store demo_machine 0 7 = Ret (Some true, demo1) ∧ inv (FO := demo_owner) [] demo1.
Proof.
  destruct (store_step (FO := demo_owner) [] demo_machine 0 demo_proc demo_answer demo_addr 7 demo_inv) as (ok & m' & E & H);
    [vm_compute; reflexivity|unfold demo_addr; lia|by intros ino idx|vm_compute; reflexivity|].
  assert (Hok : match demo_store demo_machine 0 7 with Ret (Some b, _) => b | _ => false end = true) by (vm_compute; reflexivity).
  unfold demo1. rewrite E in *. cbn in Hok. subst ok. split; [done|apply H].
Qed.

Lemma demo2_forked : fork (FO := demo_owner) demo1 0 1 = Ret (true, demo2) ∧ inv (FO := demo_owner) [] demo2.
Proof.
  destruct demo1_stored as [_ Hinv]. assert (Hp : procs demo1 !! 0%nat = Some (proc_of demo1 0)) by (apply proc_of_Some; vm_compute; eauto).
  destruct (fork_step (FO := demo_owner) [] demo1 0 (proc_of demo1 0) 1 Hinv Hp) as (ok & m' & E & H & _); [vm_compute; reflexivity|apply few_frames; vm_compute; congruence|].
  assert (Hok : match fork (FO := demo_owner) demo1 0 1 with Ret (b, _) => b | _ => false end = true) by (vm_compute; reflexivity).
  unfold demo2. rewrite E in *. cbn in Hok. subst ok. split; [reflexivity|exact H].
Qed.

Lemma fork_correct_witness : ∃ ok m', fork (FO := demo_owner) demo1 0 1 = Ret (ok, m') ∧ inv (FO := demo_owner) [] m' ∧ byte_at demo1 0 = Some 7 ∧
  ∀ k, page m' 0 k = page demo1 0 k.
Proof.
  destruct demo1_stored as [_ Hinv]. assert (Hp : procs demo1 !! 0%nat = Some (proc_of demo1 0)) by (apply proc_of_Some; vm_compute; eauto).
  destruct (fork_correct (FO := demo_owner) [] demo1 0 (proc_of demo1 0) 1 Hinv Hp) as (ok & m' & E & H & Hv & _); [vm_compute; reflexivity|apply few_frames; vm_compute; congruence|].
  exists ok, m'. split; [exact E|]. split; [exact H|]. split; [vm_compute; reflexivity|]. intros k. rewrite Hv. by rewrite andb_false_r.
Defined.


(** After the fork the child writes 9 where the parent has 7. *)
Lemma isolation_witness : steps (FO := demo_owner) demo1 [Forked 0 1 true; Stored 1 demo_addr 9 true] demo3 ∧
  byte_at demo3 0 = Some 7 ∧ byte_at demo3 1 = Some 9 ∧ inv (FO := demo_owner) [] demo3 ∧ ∀ k, page demo3 0 k = page demo1 0 k.
Proof.
  destruct demo1_stored as [_ Hinv1], demo2_forked as [E2 Hinv2].
  assert (Hp1 : procs demo1 !! 0%nat = Some (proc_of demo1 0)) by (apply proc_of_Some; vm_compute; eauto).
  assert (Hst : steps (FO := demo_owner) demo1 [Forked 0 1 true; Stored 1 demo_addr 9 true] demo3).
  { econstructor; [|econstructor; [|constructor]].
    - eapply (step_fork _ 0 (proc_of demo1 0)); [done|vm_compute; reflexivity|apply few_frames; vm_compute; congruence|exact E2].
    - eapply (step_store _ 1 (proc_of demo2 1) demo_answer); [apply proc_of_Some; vm_compute; eauto|unfold demo_addr; lia|by intros ino idx|apply demo_private; vm_compute; reflexivity|].
      assert (Hok : match demo_store demo2 1 9 with Ret (Some b, _) => b | _ => false end = true) by (vm_compute; reflexivity).
      unfold demo3. destruct (demo_store demo2 1 9) as [[[b|] m']|]; [|done|done]. by subst b. }
  split; [exact Hst|]. split; [vm_compute; reflexivity|]. split; [vm_compute; reflexivity|].
  destruct (isolation (FO := demo_owner) [] demo1 _ demo3 0 (proc_of demo1 0) Hinv1 Hst Hp1) as [H1 H2]; [by repeat constructor|].
  split; [exact H1|]. intros k. apply H2. intros e _. by repeat constructor.
Defined.

End SpaceSafety.
