(* ===== verification/Mapper.v ===== *)
(** * The page-table editor

    What the kernel uses of the [Mapper] of the [x86_64] crate, as an interface
    with its documented behaviour as laws, and tables that have it. *)

From S2P Require Import Prelude FrameOwner PageTable Cow CowFork AddressSpace SpaceSafety.

Module Mapper.

Import FrameOwner PageTable Cow CowFork AddressSpace SpaceSafety.

(** [translate_page] answers with the frame a page is mapped to and [translate]
    with its flags too; [update_flags] and [unmap] edit a mapping that is there
    and fail with [PageNotMapped] ([None]) otherwise; [unmap] frees nothing. *)
Class Mapper := {
  translate_page : pml4 → Z → option Z;
  translate : pml4 → Z → option pte;
  update_flags : pml4 → Z → Z → option pml4;
  unmap : pml4 → Z → option (Z * pml4);
  translate_page_walk t a : 0 <= a < 2 ^ 47 → translate_page t a = snd <$> walk t a;
  translate_walk t a : 0 <= a < 2 ^ 47 → translate t a = walk t a;
  update_absent t a fl : 0 <= a < 2 ^ 47 → walk t a = None → update_flags t a fl = None;
  update_present t a fl e : 0 <= a < 2 ^ 47 → walk t a = Some e →
    ∃ t', update_flags t a fl = Some t' ∧ frames t' ≡ₚ frames t ∧ (user_half t → user_half t') ∧
      ∀ k : pkey, entry t' k = if decide (k = path a) then Some (fl, e.2) else entry t k;
  unmap_absent t a : 0 <= a < 2 ^ 47 → walk t a = None → unmap t a = None;
  unmap_present t a e : 0 <= a < 2 ^ 47 → walk t a = Some e →
    ∃ t', unmap t a = Some (e.2, t') ∧ frames t ≡ₚ e.2 :: frames t' ∧ (user_half t → user_half t') ∧
      ∀ k : pkey, entry t' k = if decide (k = path a) then None else entry t k
}.

(** ** Tables with these operations *)

(** Removal of a leaf entry at one level, given that of the level below. *)
Definition del_dir {A K} (del : A → K → A) (d : dir A) (ik : nat * K) : dir A :=
  match dents d !! ik.1 with Some (fl, a) => set_ent d ik.1 (fl, del a ik.2) | None => d end.

Record del_spec {A} `{LA : Level A} (del : A → key → A) : Prop := {
  d_leaf a k k' : leaf (del a k) k' = if decide (k' = k) then None else leaf a k';
  d_frames a k e : leaf a k = Some e → frames a ≡ₚ e.2 :: frames (del a k);
  d_bounded a k : bounded a → bounded (del a k)
}.

Lemma del_ent_spec : del_spec (A := dir Z) del_ent.
Proof.
  split.
  - intros d i j. cbn. case_decide; [subst; by rewrite lookup_delete_eq|by rewrite lookup_delete_ne].
  - intros d i e Hi. cbn [frames level_pt]. unfold frames_of. cbn [del_ent dframe dents]. rewrite (below_delete _ _ _ _ Hi). cbn. apply Permutation_swap.
  - intros d i Hb j e. cbn. intros [_ Hj]%lookup_delete_Some. by eapply Hb.
Qed.

Lemma del_dir_spec {A} `{LA : Level A} (del : A → key → A) : del_spec del → del_spec (LA := level_dir A) (del_dir del).
Proof.
  intros [H1 H2 H3]. split.
  - intros d [i k] [j k']. unfold del_dir. cbn [fst snd]. cbn. destruct (dents d !! i) as [[fl a]|] eqn:Ei; cbn.
    + destruct (decide (j = i)) as [->|Hj].
      * rewrite lookup_insert_eq, Ei. cbn. rewrite H1. repeat case_decide; congruence.
      * rewrite lookup_insert_ne by done. rewrite decide_False; [done|congruence].
    + case_decide as E; [|done]. injection E as -> ->. by rewrite Ei.
  - intros d [i k] e. unfold del_dir. cbn. destruct (dents d !! i) as [[fl a]|] eqn:Ei; [|done]. intros Hk. cbn in Hk.
    pose proof (below_replace frames (dents d) i _ (fl, del a k) Ei) as E. cbn [snd] in E. unfold frames_of. cbn [set_ent dframe dents].
    rewrite Permutation_swap. constructor. apply (Permutation_app_inv_l (frames (del a k))). rewrite <- E, (H2 a k e Hk).
    rewrite <- app_comm_cons. apply Permutation_middle.
  - intros d [i k] [Hw Hb]. unfold del_dir. cbn [fst snd]. destruct (dents d !! i) as [[fl a]|] eqn:Ei; [|done].
    split; [apply within_set; [by eapply Hw|done]|]. intros j e. destruct (decide (j = i)) as [->|Hj].
    + rewrite set_ent_same. intros [= <-]. apply H3. by apply (Hb i (fl, a)).
    + rewrite set_ent_other by done. apply Hb.
Qed.

Definition del4 : pml4 → pkey → pml4 := del_dir (del_dir (del_dir del_ent)).

Lemma del4_spec : del_spec (LA := L4) del4.
Proof.
  unfold del4. apply (del_dir_spec (LA := @level_dir pd (@level_dir pt level_pt))), (del_dir_spec (LA := @level_dir pt level_pt)), (del_dir_spec (LA := level_pt)).
  exact del_ent_spec.
Qed.

Lemma del4_half t k : user_half t → user_half (del4 t k).
Proof.
  intros [Hw Hb]. split; [|by apply (d_bounded _ del4_spec)]. unfold del4, del_dir at 1. destruct (dents t !! k.1) as [[fl a]|] eqn:E; [|done].
  apply within_set; [by eapply Hw|done].
Qed.

(** The editor on these tables. *)
Definition tree_update (t : pml4) (a fl : Z) : option pml4 :=
  match walk t a with Some e => Some (@put pml4 L4 t (path a) (fl, e.2)) | None => None end.
Definition tree_unmap (t : pml4) (a : Z) : option (Z * pml4) :=
  match walk t a with Some e => Some (e.2, del4 t (path a)) | None => None end.

Lemma tree_update_present t a fl e : walk t a = Some e →
  ∃ t', tree_update t a fl = Some t' ∧ frames t' ≡ₚ frames t ∧ (user_half t → user_half t') ∧
    ∀ k : pkey, entry t' k = if decide (k = path a) then Some (fl, e.2) else entry t k.
Proof.
  intros Hw. unfold tree_update. rewrite Hw. eexists. split; [reflexivity|]. split; [|split].
  - apply (Permutation_cons_inv (a := e.2)). exact (@frames_put _ L4 t (path a) e (fl, e.2) Hw).
  - intros [H1 H2]. split; [by eapply put_within|by eapply bounded_put].
  - intros k. apply (@leaf_put _ L4 t (path a) e (fl, e.2) k Hw).
Qed.

Lemma tree_unmap_present t a e : walk t a = Some e →
  ∃ t', tree_unmap t a = Some (e.2, t') ∧ frames t ≡ₚ e.2 :: frames t' ∧ (user_half t → user_half t') ∧
    ∀ k : pkey, entry t' k = if decide (k = path a) then None else entry t k.
Proof.
  intros Hw. unfold tree_unmap. rewrite Hw. eexists. split; [reflexivity|]. split; [by apply (d_frames _ del4_spec)|]. split; [apply del4_half|].
  intros k. apply (d_leaf _ del4_spec).
Qed.

Lemma tree_update_absent t a fl : walk t a = None → tree_update t a fl = None.
Proof. unfold tree_update. by intros ->. Qed.

Lemma tree_unmap_absent t a : walk t a = None → tree_unmap t a = None.
Proof. unfold tree_unmap. by intros ->. Qed.

#[export] Instance tree_mapper : Mapper := {|
  translate_page t a := snd <$> walk t a;
  translate := walk;
  update_flags := tree_update;
  unmap := tree_unmap;
  translate_page_walk t a _ := eq_refl;
  translate_walk t a _ := eq_refl;
  update_absent t a fl _ := tree_update_absent t a fl;
  update_present t a fl e _ := tree_update_present t a fl e;
  unmap_absent t a _ := tree_unmap_absent t a;
  unmap_present t a e _ := tree_unmap_present t a e
|}.

End Mapper.
