(* ===== verification/Teardown.v ===== *)
(** * Unmapping and teardown

    [sys_munmap] (kernel/src/syscalls/memory.rs), [unmap_memory]
    (kernel/src/memory/mapper.rs) and the loops of [release_mappings] and
    [thread_stack_free] that an exiting process runs (kernel/src/thread). The
    page-table editor is that of [Mapper]. *)

From stdpp Require Import functions.
From S2P Require Import Prelude BTree FrameAlloc FrameOwner PageTable Vma Cow CowFork AddressSpace SpaceSafety Mapper.

Module Teardown.

Import FrameOwner PageTable Cow CowFork AddressSpace SpaceSafety Mapper.

Section Ops.

Context {F : Type} `{FO : FrameOwner F} `{MP : Mapper} (canonical : Z → bool).

(** ** Operations *)

Definition div_ceil (a b : Z) : Z := (a + b - 1) / b.

(** [vma_start + i * 4096] for the pages of an area. *)
Definition pages_of (start size : Z) : list Z := (λ i, start + i * 4096) <$> seqZ 0 (div_ceil size 4096).

(** The loop that unmaps an area and collects the frames that were there. *)
Fixpoint unmap_pages (addrs : list Z) (t : pml4) : list Z * pml4 :=
  match addrs with
  | [] => ([], t)
  | v :: addrs =>
      match translate_page t v with
      | Some phys =>
          match unmap t v with
          | Some (_, t) => let '(fs, t) := unmap_pages addrs t in (phys :: fs, t)
          | None => unmap_pages addrs t
          end
      | None => unmap_pages addrs t
      end
  end.

(** [if let Ok((_, flush)) = mapper.unmap(page)]: the frames are not looked at. *)
Fixpoint unmap_only (addrs : list Z) (t : pml4) : pml4 :=
  match addrs with
  | [] => t
  | v :: addrs => match unmap t v with Some (_, t) => unmap_only addrs t | None => unmap_only addrs t end
  end.

Fixpoint free_frames (fs : list Z) (a : F) : outcome F :=
  match fs with [] => Ret a | f :: fs => a ← deallocate_frame a f; free_frames fs a end.
Fixpoint drop_frames (fs : list Z) (a : F) : outcome F :=
  match fs with [] => Ret a | f :: fs => '(_, a) ← dec_refcount a f; drop_frames fs a end.

(** A process, the tables of the kernel's own mapper, and the allocator. *)
Record State := mk_state { sp : Proc; kernel_tables : pml4; fa : F }.

(** One removed area: whether it had to be put back, and the new state. *)
Definition unmap_vma (v : Vma.Vma) (s : State) : outcome (bool * State) :=
  let addrs := pages_of (Vma.start v) (Vma.end_ v - Vma.start v) in
  let 'mk_state (mk_proc t ar) kt a := s in
  match Vma.backing v with
  | Vma.Anonymous =>
      let '(fs, t) := unmap_pages addrs t in
      a ← free_frames fs a; Ret (false, mk_state (mk_proc t ar) kt a)
  | Vma.Physical _ => Ret (false, mk_state (mk_proc t ar) (unmap_only addrs kt) a)
  | Vma.FileBacked _ _ _ _ _ =>
      let '(fs, t) := unmap_pages addrs t in
      a ← drop_frames fs a; Ret (false, mk_state (mk_proc t ar) kt a)
  | Vma.SharedMemory _ | Vma.Tls | Vma.Stack =>
      ar ← Vma.insert_validated ar v; Ret (true, mk_state (mk_proc t ar) kt a)
  end.

Fixpoint unmap_vmas (vs : list Vma.Vma) (err : bool) (s : State) : outcome (bool * State) :=
  match vs with
  | [] => Ret (err, s)
  | v :: vs => '(e, s) ← unmap_vma v s; unmap_vmas vs (err || e) s
  end.

(** [Err] is EINVAL, the only error of the call. *)
Definition sys_munmap (addr length : Z) (s : State) : outcome (result unit Z * State) :=
  if (length =? 0) || negb (addr mod 4096 =? 0) then Ret (Err tt, s)
  else
    map_addr ← Vma.virt_addr canonical addr;
    match Vma.page_round_up length with
    | None => Ret (Err tt, s)
    | Some len =>
        if addr + len <=? U64_MAX then
          unmap_end ← Vma.virt_addr canonical (addr + len);
          '(removed, ar) ← Vma.remove_range (areas (sp s)) map_addr unmap_end;
          let s := mk_state (mk_proc (tables (sp s)) ar) (kernel_tables s) (fa s) in
          match removed with
          | [] => Ret (Err tt, s)
          | _ => '(err, s) ← unmap_vmas removed false s; Ret (if err : bool then Err tt else Ok 0, s)
          end
        else Ret (Err tt, s)
    end.

Definition get_page_range (addr size : Z) : list Z :=
  (λ i, i * 4096) <$> seqZ (addr / 4096) ((addr + size - 1) / 4096 - addr / 4096 + 1).

(** The loop of [unmap_memory]: [false] is the error of [unmap] that [?] returns
    with. *)
Fixpoint unmap_memory_loop (addrs : list Z) (t : pml4) (a : F) : outcome (bool * pml4 * F) :=
  match addrs with
  | [] => Ret (true, t, a)
  | v :: addrs =>
      match translate_page t v, unmap t v with
      | _, None => Ret (false, t, a)
      | Some frame, Some (_, t) => a ← deallocate_frame a frame; unmap_memory_loop addrs t a
      | None, Some (_, t) => unmap_memory_loop addrs t a
      end
  end.
Definition unmap_memory (addr size : Z) (t : pml4) (a : F) : outcome (bool * pml4 * F) := unmap_memory_loop (get_page_range addr size) t a.

(** The arms of [release_mappings]. *)
Definition release_vma (v : Vma.Vma) (t : pml4) (a : F) : outcome (pml4 * F) :=
  let size := Vma.end_ v - Vma.start v in
  let addrs := pages_of (Vma.start v) size in
  match Vma.backing v with
  | Vma.Anonymous => '(_, t, a) ← unmap_memory (Vma.start v) size t a; Ret (t, a)
  | Vma.Tls | Vma.Stack => Ret (t, a)
  | Vma.SharedMemory _ | Vma.Physical _ => Ret (unmap_only addrs t, a)
  | Vma.FileBacked _ _ _ _ _ => let '(fs, t) := unmap_pages addrs t in a ← drop_frames fs a; Ret (t, a)
  end.

Fixpoint release_vmas (vs : list Vma.Vma) (t : pml4) (a : F) : outcome (pml4 * F) :=
  match vs with [] => Ret (t, a) | v :: vs => '(t, a) ← release_vma v t a; release_vmas vs t a end.

Definition USER_STACK_SIZE : Z := 1024 * 1024 * 8.

(** The loop of [thread_stack_free]. *)
Fixpoint free_stack_pages (addrs : list Z) (t : pml4) (a : F) : outcome (pml4 * F) :=
  match addrs with
  | [] => Ret (t, a)
  | v :: addrs =>
      match translate_page t v with
      | Some phys =>
          let t := match unmap t v with Some (_, t) => t | None => t end in
          a ← deallocate_frame a phys; free_stack_pages addrs t a
      | None => free_stack_pages addrs t a
      end
  end.
Definition thread_stack_free (stack_top : Z) (t : pml4) (a : F) : outcome (pml4 * F) :=
  let stack_bottom := stack_top - USER_STACK_SIZE in
  free_stack_pages ((λ i, stack_bottom + i * 4096) <$> seqZ 0 (USER_STACK_SIZE / 4096)) t a.

(** [release_mappings], but for the windows of the process and the empty tables. *)
Definition release_mappings (vmas : Vma.VmaSet) (stack_top : Z) (t : pml4) (a : F) : outcome (pml4 * F) :=
  '(t, a) ← release_vmas (snd <$> Vma.vmas vmas) t a; thread_stack_free stack_top t a.

(** ** Unmapping a list of pages *)

Abbreviation user_addr a := (0 <= a < 2 ^ 47) (only parsing).

Lemma unmap_pages_spec addrs : ∀ t, Forall (λ a, user_addr a) addrs →
  ∃ fs t', unmap_pages addrs t = (fs, t') ∧ frames t ≡ₚ fs ++ frames t' ∧ (user_half t → user_half t') ∧
    (∀ k : pkey, entry t' k = if bool_decide (k ∈ path <$> addrs) then None else entry t k) ∧
    (∀ f, f ∈ fs ↔ ∃ a e, a ∈ addrs ∧ walk t a = Some e ∧ e.2 = f).
Proof.
  induction addrs as [|a addrs IH]; intros t Hall.
  { exists [], t. split_and!; try done. intros f. split; [by intros ?%elem_of_nil|]. by intros (a & e & ?%elem_of_nil & _). }
  apply Forall_cons in Hall as [Ha Hall]. cbn [unmap_pages]. rewrite translate_page_walk by done. destruct (walk t a) as [e|] eqn:Hw; cbn [fmap option_fmap option_map].
  - destruct (unmap_present t a e Ha Hw) as (t1 & -> & Hf & Hu & Hl). destruct (IH t1 Hall) as (fs & t' & -> & Hf' & Hu' & Hl' & Hm).
    exists (e.2 :: fs), t'. split; [done|]. split; [by rewrite Hf, Hf'|]. split; [auto|]. split.
    + intros k. rewrite Hl', Hl. rewrite fmap_cons. destruct (decide (k = path a)) as [->|Hk].
      * rewrite (bool_decide_true (_ ∈ _ :: _)) by (by left). by destruct (bool_decide _).
      * rewrite (bool_decide_ext (k ∈ path a :: (path <$> addrs)) (k ∈ path <$> addrs)); [done|]. rewrite elem_of_cons. tauto.
    + intros f. rewrite elem_of_cons, Hm. split.
      * intros [->|(b & e' & Hb & Hwb & <-)]; [exists a, e; split_and!; [by left|done|done]|]. unfold walk in Hwb. rewrite Hl in Hwb.
        case_decide; [done|]. exists b, e'. split_and!; [by right|done|done].
      * intros (b & e' & Hb & Hwb & <-). unfold walk in Hwb, Hw. destruct (decide (path b = path a)) as [E|E].
        -- left. rewrite E, Hw in Hwb. by injection Hwb as <-.
        -- right. exists b, e'. split_and!; [|unfold walk; by rewrite Hl, decide_False|done]. apply elem_of_cons in Hb as [->|?]; done.
  - destruct (IH t Hall) as (fs & t' & -> & Hf' & Hu' & Hl' & Hm). exists fs, t'. split; [done|]. split; [done|]. split; [done|]. split.
    + intros k. rewrite Hl', fmap_cons. destruct (decide (k = path a)) as [->|Hk].
      * rewrite (bool_decide_true (_ ∈ _ :: _)) by (by left). unfold walk in Hw. rewrite Hw. by destruct (bool_decide _).
      * rewrite (bool_decide_ext (k ∈ path a :: (path <$> addrs)) (k ∈ path <$> addrs)); [done|]. rewrite elem_of_cons. tauto.
    + intros f. rewrite Hm. split; intros (b & e' & Hb & Hwb & <-); exists b, e'; (split_and!; [|done|done]); [by right|].
      apply elem_of_cons in Hb as [->|?]; [congruence|done].
Qed.

Lemma free_frames_spec fs : ∀ (a : F) H R, acct a (fs ++ H) R → ∃ a', free_frames fs a = Ret a' ∧ acct a' H R.
Proof.
  induction fs as [|f fs IH]; intros a H R Ha; [by exists a|]. cbn [free_frames]. destruct (acct_free a f _ R Ha) as (a1 & -> & Ha1). by apply IH.
Qed.

(** Dropping a reference never frees the frame: one that has lost its last owner
    stays marked. *)
Lemma drop_frames_spec fs : ∀ (a : F) H R, acct a (fs ++ H) R →
  ∃ a' R', drop_frames fs a = Ret a' ∧ acct a' H R' ∧ ∀ f, f ∈ R' ↔ f ∈ R ∨ (f ∈ fs ∧ f ∉ H).
Proof.
  induction fs as [|f fs IH]; intros a H R Ha.
  { exists a, R. split_and!; try done. intros f. split; [auto|]. by intros [?|[?%elem_of_nil _]]. }
  cbn [drop_frames]. destruct (acct_dec a f _ R Ha) as (n & a1 & -> & Ha1). cbn [mbind outcome_bind]. destruct (IH a1 H _ Ha1) as (a' & R' & -> & Ha' & Hm).
  exists a', R'. split_and!; try done. intros g. rewrite Hm. case_bool_decide as Hf; rewrite ?elem_of_cons; [|rewrite not_elem_of_app in Hf].
  - apply elem_of_app in Hf. split; [tauto|]. intros [?|[[->|?] ?]]; tauto.
  - split; [|tauto]. intros [[->|?]|?]; tauto.
Qed.

(** ** The pages of an area *)

Lemma elem_pages_of start size y : start mod 4096 = 0 → 0 <= size → y ∈ pages_of start size ↔ start <= y < start + size ∧ y mod 4096 = 0.
Proof.
  intros Hs Hsz. unfold pages_of, div_ceil. rewrite list_elem_of_fmap. setoid_rewrite elem_of_seqZ.
  pose proof (Z.div_mod start 4096). pose proof (Z.div_mod (size + 4096 - 1) 4096). pose proof (Z.mod_pos_bound (size + 4096 - 1) 4096).
  pose proof (Z.div_mod y 4096). split.
  - intros (i & -> & Hi). split; [lia|]. rewrite Z.add_mod, Hs, Z.mod_mul by lia. done.
  - intros [Hy Hm]. exists (y / 4096 - start / 4096). split; [lia|]. nia.
Qed.

Definition vpages (v : Vma.Vma) : list Z := pages_of (Vma.start v) (Vma.end_ v - Vma.start v).

Lemma elem_vpages v y : Vma.vma_ok v → y ∈ vpages v ↔ Vma.contains v y = true ∧ y mod 4096 = 0.
Proof.
  intros [Hr Ha _]. unfold vpages. rewrite elem_pages_of by (done || lia). unfold Vma.contains. rewrite andb_true_iff, Z.leb_le, Z.ltb_lt.
  by replace (Vma.start v + (Vma.end_ v - Vma.start v)) with (Vma.end_ v) by lia.
Qed.

Lemma vpages_user v : Vma.vma_ok v → Forall (λ a, user_addr a) (vpages v).
Proof.
  intros Hv. apply Forall_forall. intros y Hy. apply elem_vpages in Hy as [Hc _]; [|done]. destruct Hv as [Hr _ _]. unfold Vma.contains, Vma.USER_VA_END in *.
  to_lia. lia.
Qed.

Lemma align_down_page a : Vma.align_down a mod 4096 = 0.
Proof. unfold Vma.align_down, Vma.PAGE_SIZE. rewrite Zminus_mod, Z.mod_mod, Z.sub_diag by lia. done. Qed.

Lemma align_down_fix a : a mod 4096 = 0 → Vma.align_down a = a.
Proof. unfold Vma.align_down, Vma.PAGE_SIZE. lia. Qed.

Lemma path_align x : 0 <= x → path (Vma.align_down x) = path x.
Proof.
  intros Hx. assert (E : ∀ s, 12 <= s → Z.shiftr (Vma.align_down x) s = Z.shiftr x s).
  { intros s Hs. rewrite !Z.shiftr_div_pow2 by lia. replace (2 ^ s) with (4096 * 2 ^ (s - 12)).
    2: { change 4096 with (2 ^ 12). rewrite <- Z.pow_add_r by lia. f_equal. lia. }
    rewrite <- !Z.div_div by lia. f_equal. unfold Vma.align_down, Vma.PAGE_SIZE.
    pose proof (Z.div_mod x 4096). pose proof (Z.mod_pos_bound x 4096). symmetry. apply (Z.div_unique _ _ _ 0); lia. }
  unfold path, pml4_idx, pml3_idx, pml2_idx, pml1_idx. by rewrite !E by lia.
Qed.

Lemma path_eq x y : user_addr x → user_addr y → path x = path y ↔ Vma.align_down x = Vma.align_down y.
Proof.
  intros Hx Hy. split; intros E.
  - rewrite <- !virt_path by done. by rewrite E.
  - rewrite <- (path_align x), <- (path_align y) by lia. by rewrite E.
Qed.

(** The entries a list of areas covers. *)
Lemma elem_area_path vs x : Forall Vma.vma_ok vs → user_addr x → path x ∈ path <$> (vs ≫= vpages) ↔ is_Some (Vma.vfind vs (Vma.align_down x)).
Proof.
  intros Hvs Hx. induction Hvs as [|v vs Hv Hvs IH]; cbn.
  - split; [by intros ?%elem_of_nil|]. by intros [? ?].
  - rewrite fmap_app, elem_of_app, IH. assert (Hp : path x ∈ path <$> vpages v ↔ Vma.contains v (Vma.align_down x) = true).
    { rewrite list_elem_of_fmap. split.
      - intros (y & E & Hy). pose proof (vpages_user v Hv) as Hu. rewrite Forall_forall in Hu. specialize (Hu y Hy). apply elem_vpages in Hy as [Hc Hm]; [|done].
        apply path_eq in E; [|done|done]. rewrite E. by rewrite align_down_fix.
      - intros Hc. exists (Vma.align_down x). split; [by rewrite path_align by lia|]. apply elem_vpages; [done|]. split; [done|apply align_down_page]. }
    rewrite Hp. destruct (Vma.contains v (Vma.align_down x)); [split; eauto|]. split; [intros [?|?]; done|auto].
Qed.

(** ** The loop over the removed areas *)

Lemma elem_fmap_app {A B} (f : A → B) l1 l2 (k : B) `{EqDecision B} :
  bool_decide (k ∈ f <$> l1 ++ l2) = bool_decide (k ∈ f <$> l1) || bool_decide (k ∈ f <$> l2).
Proof. rewrite <- bool_decide_or. apply bool_decide_ext. by rewrite fmap_app, elem_of_app. Qed.

(** What unmapping the areas [vs] does to the tables. *)
Record unmapped (vs : list Vma.Vma) (fs : list Z) (t t' : pml4) : Prop := {
  u_frames : frames t ≡ₚ fs ++ frames t';
  u_half : user_half t → user_half t';
  u_entry : ∀ k : pkey, entry t' k = if bool_decide (k ∈ path <$> (vs ≫= vpages)) then None else entry t k;
  u_given : ∀ f, f ∈ fs ↔ ∃ a e, a ∈ vs ≫= vpages ∧ walk t a = Some e ∧ e.2 = f
}.

Lemma unmapped_cons v vs fs fs' t t1 t' : unmapped [v] fs t t1 → unmapped vs fs' t1 t' → unmapped (v :: vs) (fs ++ fs') t t'.
Proof.
  intros [H1 H2 H3 H4] [G1 G2 G3 G4]. change ([v] ≫= vpages) with (vpages v ++ []) in H3, H4.
  rewrite app_nil_r in H3, H4. split; change ((v :: vs) ≫= vpages) with (vpages v ++ (vs ≫= vpages)).
  - by rewrite H1, G1, <- (assoc (++)).
  - auto.
  - intros k. rewrite G3, H3, elem_fmap_app. by destruct (bool_decide _), (bool_decide _).
  - intros f. rewrite elem_of_app, H4, G4. split.
    + intros [(a & e & Ha & Hw & <-)|(a & e & Ha & Hw & <-)].
      * exists a, e. split_and!; [|done|done]. apply elem_of_app. by left.
      * unfold walk in Hw. rewrite H3 in Hw. case_bool_decide; [done|]. exists a, e. split_and!; [|done|done]. apply elem_of_app. by right.
    + intros (a & e & Ha & Hw & <-). destruct (decide (path a ∈ path <$> vpages v)) as [Hin|Hout].
      * left. apply list_elem_of_fmap in Hin as (b & E & Hb). exists b, e. split_and!; [done| |done]. unfold walk in *. by rewrite <- E.
      * right. exists a, e. split_and!; [| |done].
        -- apply elem_of_app in Ha as [Ha|Ha]; [|done]. destruct Hout. apply list_elem_of_fmap. by exists a.
        -- unfold walk in *. by rewrite H3, bool_decide_false.
Qed.

Lemma unmapped_one v t : Vma.vma_ok v → ∃ fs t', unmap_pages (vpages v) t = (fs, t') ∧ unmapped [v] fs t t'.
Proof.
  intros Hv. destruct (unmap_pages_spec (vpages v) t (vpages_user v Hv)) as (fs & t' & E & H1 & H2 & H3 & H4). exists fs, t'. split; [done|].
  split; change ([v] ≫= vpages) with (vpages v ++ []); rewrite ?app_nil_r; done.
Qed.

Lemma unmapped_nil t : unmapped [] [] t t.
Proof. split; try done. intros f. split; [by intros ?%elem_of_nil|]. by intros (a & e & ?%elem_of_nil & _). Qed.

Lemma unmap_vmas_anonymous vs : ∀ t ar kt a H R, Forall Vma.vma_ok vs → Forall (λ v, Vma.backing v = Vma.Anonymous) vs → acct a (frames t ++ H) R →
  ∃ fs t' a', unmap_vmas vs false (mk_state (mk_proc t ar) kt a) = Ret (false, mk_state (mk_proc t' ar) kt a') ∧
    unmapped vs fs t t' ∧ acct a' (frames t' ++ H) R.
Proof.
  induction vs as [|v vs IH]; intros t ar kt a H R Hok Hb Ha; [exists [], t, a; split_and!; [done|apply unmapped_nil|done]|].
  apply Forall_cons in Hok as [Hv Hok], Hb as [Hbv Hb]. cbn [unmap_vmas]. unfold unmap_vma. rewrite Hbv. fold (vpages v).
  destruct (unmapped_one v t Hv) as (fs & t1 & -> & Hu). destruct (free_frames_spec fs a (frames t1 ++ H) R) as (a1 & -> & Ha1).
  { eapply acct_perm; [|exact Ha]. rewrite (u_frames _ _ _ _ Hu). by rewrite <- (assoc (++)). }
  cbn [mbind outcome_bind orb]. destruct (IH t1 ar kt a1 H R Hok Hb Ha1) as (fs' & t' & a' & -> & Hu' & Ha'). exists (fs ++ fs'), t', a'.
  split; [done|]. split; [by eapply unmapped_cons|done].
Qed.

Definition file_area (v : Vma.Vma) : Prop := match Vma.backing v with Vma.FileBacked _ _ _ _ _ => True | _ => False end.

Lemma unmap_vmas_file vs : ∀ t ar kt a H R, Forall Vma.vma_ok vs → Forall file_area vs → acct a (frames t ++ H) R →
  ∃ fs t' a' R', unmap_vmas vs false (mk_state (mk_proc t ar) kt a) = Ret (false, mk_state (mk_proc t' ar) kt a') ∧
    unmapped vs fs t t' ∧ acct a' (frames t' ++ H) R' ∧ ∀ f, f ∈ R' ↔ f ∈ R ∨ (f ∈ fs ∧ f ∉ frames t' ++ H).
Proof.
  induction vs as [|v vs IH]; intros t ar kt a H R Hok Hb Ha.
  { exists [], t, a, R. split_and!; [done|apply unmapped_nil|done|]. intros f. split; [auto|]. by intros [?|[?%elem_of_nil _]]. }
  apply Forall_cons in Hok as [Hv Hok], Hb as [Hbv Hb]. cbn [unmap_vmas]. unfold unmap_vma. fold (vpages v). unfold file_area in Hbv.
  destruct (Vma.backing v); try done.
  destruct (unmapped_one v t Hv) as (fs & t1 & -> & Hu). destruct (drop_frames_spec fs a (frames t1 ++ H) R) as (a1 & R1 & -> & Ha1 & Hm1).
  { eapply acct_perm; [|exact Ha]. rewrite (u_frames _ _ _ _ Hu). by rewrite <- (assoc (++)). }
  cbn [mbind outcome_bind orb]. destruct (IH t1 ar kt a1 H R1 Hok Hb Ha1) as (fs' & t' & a' & R' & -> & Hu' & Ha' & Hm'). exists (fs ++ fs'), t', a', R'.
  split; [done|]. split; [by eapply unmapped_cons|]. split; [done|]. intros f. rewrite Hm', Hm1. rewrite (u_frames _ _ _ _ Hu'). rewrite !elem_of_app.
  destruct (decide (f ∈ fs')); tauto.
Qed.

(** ** The system call *)

Definition special_backing (bk : Vma.VmaBacking) : bool :=
  match bk with Vma.SharedMemory _ | Vma.Physical _ => true | Vma.FileBacked _ _ shared _ _ => shared | _ => false end.

Lemma special_view s x : is_special_mapping x s = match Vma.view s x with Some (_, _, bk) => special_backing bk | None => false end.
Proof. unfold is_special_mapping, Vma.view. destruct (Vma.find s x) as [v|]; [|done]. cbn. unfold Vma.page_backing. by destruct (Vma.backing v). Qed.

Lemma vfind_start lo m v : Vma.chain lo m → v ∈ snd <$> m → Vma.vfind (snd <$> m) (Vma.start v) = Some v.
Proof.
  revert lo. induction m as [|[k w] m IH]; intros lo; [by intros _ ?%elem_of_nil|]. cbn [Vma.chain fmap list_fmap Vma.vfind snd]. intros (_ & Hlo & Hok & Hm).
  destruct Hok as [Hr _ _]. unfold Vma.contains. intros [->|Hv]%elem_of_cons; [by rewrite (proj2 (Z.leb_le _ _)), (proj2 (Z.ltb_lt _ _)) by lia|].
  assert (Hs : Vma.end_ w <= Vma.start v).
  { destruct (Vma.vchain_bounds _ _ Hm) as [_ Hb]. apply list_elem_of_fmap in Hv as (e & -> & He). rewrite Forall_forall in Hb. by destruct (Hb e He) as (_ & ? & _). }
  rewrite (proj2 (Z.ltb_ge _ _)), andb_false_r by lia. by eapply IH.
Qed.

Lemma chain_ok lo m : Vma.chain lo m → Forall Vma.vma_ok (snd <$> m).
Proof. intros Hc. destruct (Vma.vchain_bounds _ _ Hc) as [_ Hb]. apply Forall_fmap. eapply Forall_impl; [exact Hb|]. by intros e (_ & _ & _ & ?). Qed.

Record munmap_args (s : Vma.VmaSet) (addr length : Z) : Prop := {
  ma_wf : Vma.wf s;
  ma_aligned : addr mod 4096 = 0;
  ma_pos : 0 <= addr ∧ 0 < length;
  ma_end : addr + Vma.round_up length <= Vma.USER_VA_END;
  ma_canonical : canonical addr = true ∧ canonical (addr + Vma.round_up length) = true;
  ma_some : ∃ x, addr <= x < addr + Vma.round_up length ∧ is_Some (Vma.view s x)
}.

(** Whether the page of [x] belongs to an area of the range. *)
Definition gone (s : Vma.VmaSet) (lo hi x : Z) : bool :=
  (lo <=? Vma.align_down x) && (Vma.align_down x <? hi) && bool_decide (is_Some (Vma.view s (Vma.align_down x))).

Lemma munmap_reduces s addr length : munmap_args (areas (sp s)) addr length →
  let hi := addr + Vma.round_up length in
  ∃ removed ar, sys_munmap addr length s =
      ('(err, s) ← unmap_vmas removed false (mk_state (mk_proc (tables (sp s)) ar) (kernel_tables s) (fa s)); Ret (if err : bool then Err tt else Ok 0, s)) ∧
    Vma.wf ar ∧ (∀ x, Vma.view ar x = if (addr <=? x) && (x <? hi) then None else Vma.view (areas (sp s)) x) ∧ Forall Vma.vma_ok removed ∧
    (∀ v, v ∈ removed → addr <= Vma.start v < hi ∧ Vma.view (areas (sp s)) (Vma.start v) = Some (Vma.vview v (Vma.start v))) ∧
    (∀ x, user_addr x → bool_decide (path x ∈ path <$> (removed ≫= vpages)) = gone (areas (sp s)) addr hi x).
Proof.
  intros [Hwf Hal [Hpos Hlen] Hend [Hc1 Hc2] (x0 & Hx0 & Hv0)] hi. destruct (Vma.round_up_bounds length) as [Hru Hrm].
  assert (Hhi : hi mod Vma.PAGE_SIZE = 0) by (unfold hi, Vma.PAGE_SIZE in *; by rewrite Z.add_mod, Hal, Hrm by lia).
  destruct (Vma.remove_range_spec (areas (sp s)) addr hi Hwf Hal Hhi ltac:(unfold hi; lia)) as (removed & ar & Er & Hwf' & _ & Hin & (mid & -> & Hmid) & Hv).
  pose proof (chain_ok 0 mid Hmid) as Hok. exists (snd <$> mid), ar. split.
  - unfold sys_munmap. rewrite (proj2 (Z.eqb_neq _ _)) by lia. rewrite Hal. cbn [orb negb Z.eqb]. unfold Vma.virt_addr. rewrite Hc1. cbn [mbind outcome_bind].
    rewrite Vma.page_round_up_user by (unfold Vma.USER_VA_END in *; lia). rewrite (proj2 (Z.leb_le _ _)) by (unfold Vma.USER_VA_END, U64_MAX in *; lia). rewrite Hc2. fold hi. cbn [mbind outcome_bind].
    rewrite Er. cbn [mbind outcome_bind]. destruct (snd <$> mid) eqn:E; [|done]. exfalso. destruct (Hv x0) as [_ Hx]. specialize (Hx Hx0).
    rewrite <- Vma.view_lview in Hx by done. rewrite <- Hx in Hv0. by destruct Hv0.
  - split; [done|]. split; [intros x; rewrite !Vma.view_lview by done; apply Hv|]. split; [done|]. split.
    + intros v Hvin. rewrite Forall_forall in Hin, Hok. destruct (Hin v Hvin) as [H1 H2]. destruct (Hok v Hvin) as [Hr _ _]. split; [lia|].
      destruct (Hv (Vma.start v)) as [_ Hx]. rewrite Vma.view_lview, <- Hx by (done || lia). unfold Vma.lview. by rewrite (vfind_start 0 mid v).
    + intros x Hx. unfold gone. rewrite (bool_decide_ext _ _ (elem_area_path (snd <$> mid) x Hok Hx)).
      destruct (Hv (Vma.align_down x)) as [_ Hy].
      assert (Hout : Vma.align_down x < addr ∨ hi <= Vma.align_down x → bool_decide (is_Some (Vma.vfind (snd <$> mid) (Vma.align_down x))) = false).
      { intros Ho. apply bool_decide_eq_false. rewrite Vma.vfind_none; [by intros [? ?]|]. eapply Forall_impl; [exact Hin|]. cbn. lia. }
      destruct (Z.leb_spec addr (Vma.align_down x)), (Z.ltb_spec (Vma.align_down x) hi); cbn [andb]; [|by apply Hout; lia..].
      apply bool_decide_ext. rewrite Vma.view_lview, <- Hy by (done || lia). unfold Vma.lview. by rewrite fmap_is_Some.
Qed.

(** What unmapping does to the machine. *)
Record munmapped (R' : list Z) (m : Machine (F := F)) (p : nat) (pr : Proc) (lo hi : Z) (pr' : Proc) (m' : Machine (F := F)) : Prop := {
  mu_inv : inv R' m';
  mu_other : ∀ q k, q ≠ p → page m' q k = page m q k;
  mu_page : ∀ x, user_addr x → page m' p (path x) = if gone (areas pr) lo hi x then None else page m p (path x);
  mu_view : ∀ x, Vma.view (areas pr') x = if (lo <=? x) && (x <? hi) then None else Vma.view (areas pr) x
}.

Lemma munmap_space R R' (m : Machine (F := F)) p pr lo hi vs fs t' ar a' : inv R m → procs m !! p = Some pr → unmapped vs fs (tables pr) t' →
  acct a' (frames t' ++ rest m p) R' → Vma.wf ar → (∀ x, is_special_mapping x ar = is_special_mapping x (areas pr)) →
  (∀ x, Vma.view ar x = if (lo <=? x) && (x <? hi) then None else Vma.view (areas pr) x) →
  (∀ x, user_addr x → bool_decide (path x ∈ path <$> (vs ≫= vpages)) = gone (areas pr) lo hi x) →
  munmapped R' m p pr lo hi (mk_proc t' ar) (set_process m p (mk_proc t' ar) (mem m) a').
Proof.
  intros Hinv Hp [Hf Hu He _] Ha Hwf Hsp Hview Hgone. destruct (i_proc R m Hinv p pr Hp) as [Hhalf _ Hleaf].
  assert (Hall : all_frames m ≡ₚ fs ++ frames t' ++ rest m p) by (rewrite (all_frames_proc m p pr Hp), Hf; by rewrite <- (assoc (++))).
  assert (Hkeep : ∀ f, f ∈ frames t' ++ rest m p → refs f (all_frames m) = 1 → refs f (frames t' ++ rest m p) = 1).
  { intros f Hin. rewrite Hall, (refs_app f fs). apply refs_pos in Hin. pose proof (refs_nonneg f fs). lia. }
  assert (Hsome : ∀ k e, entry t' k = Some e → entry (tables pr) k = Some e) by (intros k e; rewrite He; by destruct (bool_decide _)). split.
  - eapply (inv_replace R R' m p pr); [done|done|done| |].
    + split; cbn [tables areas]; [auto|done|]. intros k e Hk. assert (Hlo : leaf_ok (frames t' ++ rest m p) (areas pr) k e).
      { eapply leaf_ok_mono; [|by apply Hleaf, Hsome]. apply Hkeep, elem_of_app. left. by eapply leaf_elem. }
      unfold leaf_ok in *. by rewrite Hsp.
    + cbn [tables]. intros f Hin. apply Hkeep, elem_of_app. right. apply elem_of_app. by left.
  - intros q k Hq. unfold page. cbn [procs mem set_process]. by rewrite lookup_insert_ne.
  - intros x Hx. unfold page. cbn [procs mem set_process]. rewrite lookup_insert_eq, Hp. cbn [tables]. rewrite He, Hgone by done. by destruct (gone _ _ _ _).
  - done.
Qed.

Lemma special_after s ar lo hi : (∀ x, Vma.view ar x = if (lo <=? x) && (x <? hi) then None else Vma.view s x) →
  (∀ x, lo <= x < hi → match Vma.view s x with Some (_, _, bk) => special_backing bk = false | None => True end) →
  ∀ x, is_special_mapping x ar = is_special_mapping x s.
Proof.
  intros Hv Hs x. rewrite !special_view, Hv. destruct (Z.leb_spec lo x), (Z.ltb_spec x hi); cbn [andb]; try done.
  specialize (Hs x ltac:(lia)). by destruct (Vma.view s x) as [[[? ?] ?]|].
Qed.

(** C25 [munmap] of a range that holds anonymous areas only: it returns success;
    the pages of the range are gone and every other page of every process, and
    every other area, is as it was; each frame loses exactly this owner, so the
    accounting stays exact and nothing leaks. *)
Theorem munmap_anonymous_exact R (m : Machine (F := F)) p pr kt addr length : inv R m → procs m !! p = Some pr → munmap_args (areas pr) addr length →
  (∀ x, addr <= x < addr + Vma.round_up length → match Vma.view (areas pr) x with Some (_, _, bk) => bk = Vma.Anonymous | None => True end) →
  ∃ pr' a', sys_munmap addr length (mk_state pr kt (falloc m)) = Ret (Ok 0, mk_state pr' kt a') ∧
    munmapped R m p pr addr (addr + Vma.round_up length) pr' (set_process m p pr' (mem m) a').
Proof.
  intros Hinv Hp Hargs Hanon. destruct (munmap_reduces (mk_state pr kt (falloc m)) addr length Hargs) as (vs & ar & -> & Hwf & Hview & Hok & Hstart & Hgone).
  cbn [sp kernel_tables fa] in *. destruct (unmap_vmas_anonymous vs (tables pr) ar kt (falloc m) (rest m p) R Hok) as (fs & t' & a' & -> & Hu & Ha).
  { apply Forall_forall. intros v Hv. destruct (Hstart v Hv) as [Hr Hvw]. specialize (Hanon _ Hr). rewrite Hvw in Hanon. cbn in Hanon.
    unfold Vma.page_backing in Hanon. by destruct (Vma.backing v). }
  { eapply acct_perm; [apply (all_frames_proc m p pr Hp)|apply (i_acct R m Hinv)]. }
  cbn [mbind outcome_bind]. eexists _, _. split; [done|]. apply (munmap_space R R m p pr _ _ vs fs); try done. eapply special_after; [exact Hview|].
  intros x Hx. specialize (Hanon x Hx). by destruct (Vma.view (areas pr) x) as [[[? ?] bk]|]; [subst bk|].
Qed.

(** [munmap] of private file mappings drops a reference of each resident page
    and never frees: a frame this process was the last owner of (its own copy of
    a written or relocated page) stays marked in use with no owner, and these
    are the only frames it leaks. *)
Theorem munmap_file_leaks R (m : Machine (F := F)) p pr kt addr length : inv R m → procs m !! p = Some pr → munmap_args (areas pr) addr length →
  (∀ x, addr <= x < addr + Vma.round_up length →
    match Vma.view (areas pr) x with Some (_, _, Vma.FileBacked _ _ shared _ _) => shared = false | Some _ => False | None => True end) →
  ∃ pr' a' R', sys_munmap addr length (mk_state pr kt (falloc m)) = Ret (Ok 0, mk_state pr' kt a') ∧
    let m' := set_process m p pr' (mem m) a' in
    munmapped R' m p pr addr (addr + Vma.round_up length) pr' m' ∧
    ∀ f, f ∈ R' ↔ f ∈ R ∨ ((f ∉ all_frames m') ∧ ∃ x e, user_addr x ∧ gone (areas pr) addr (addr + Vma.round_up length) x = true ∧ walk (tables pr) x = Some e ∧ e.2 = f).
Proof.
  intros Hinv Hp Hargs Hfile. destruct (munmap_reduces (mk_state pr kt (falloc m)) addr length Hargs) as (vs & ar & -> & Hwf & Hview & Hok & Hstart & Hgone).
  cbn [sp kernel_tables fa] in *. destruct (unmap_vmas_file vs (tables pr) ar kt (falloc m) (rest m p) R Hok) as (fs & t' & a' & R' & -> & Hu & Ha & HR).
  { apply Forall_forall. intros v Hv. destruct (Hstart v Hv) as [Hr Hvw]. specialize (Hfile _ Hr). rewrite Hvw in Hfile. cbn in Hfile.
    unfold file_area. unfold Vma.page_backing in Hfile. by destruct (Vma.backing v). }
  { eapply acct_perm; [apply (all_frames_proc m p pr Hp)|apply (i_acct R m Hinv)]. }
  cbn [mbind outcome_bind]. eexists _, _, R'. split; [done|]. split.
  - apply (munmap_space R R' m p pr _ _ vs fs); try done. eapply special_after; [exact Hview|]. intros x Hx. specialize (Hfile x Hx).
    destruct (Vma.view (areas pr) x) as [[[? ?] bk]|]; [|done]. by destruct bk.
  - intros f. rewrite HR, (u_given _ _ _ _ Hu), (all_frames_replace m p pr) by done. cbn [tables]. split; (intros [?|H]; [by left|right]).
    + destruct H as [(a & e & Hin & Hw & <-) Hno]. split; [done|]. exists a, e. assert (Ha' : user_addr a).
      { apply list_elem_of_bind in Hin as (v & Hin & Hv). rewrite Forall_forall in Hok. pose proof (vpages_user v (Hok v Hv)) as Hpu.
        rewrite Forall_forall in Hpu. by apply Hpu. }
      split; [done|]. split; [|done]. rewrite <- Hgone by done. apply bool_decide_eq_true, list_elem_of_fmap. by exists a.
    + destruct H as [Hno (x & e & Hx & Hg & Hw & <-)]. split; [|done]. rewrite <- Hgone in Hg by done. apply bool_decide_eq_true, list_elem_of_fmap in Hg as (y & E & Hy).
      exists y, e. split; [done|]. split; [|done]. unfold walk in *. by rewrite <- E.
Qed.

Lemma unmap_vmas_physical vs : ∀ t ar kt a, Forall (λ v, ∃ base, Vma.backing v = Vma.Physical base) vs →
  ∃ kt', unmap_vmas vs false (mk_state (mk_proc t ar) kt a) = Ret (false, mk_state (mk_proc t ar) kt' a).
Proof.
  induction vs as [|v vs IH]; intros t ar kt a Hb; [by exists kt|]. apply Forall_cons in Hb as [[base Hv] Hb]. cbn [unmap_vmas]. unfold unmap_vma.
  rewrite Hv. cbn [mbind outcome_bind orb]. by apply IH.
Qed.

(** [munmap] of a mapping of physical memory edits the kernel's own tables
    and not those of the process: it reports success and forgets the area, and
    the process keeps every page of it mapped. *)
Theorem munmap_physical_stays pr kt (a : F) addr length : munmap_args (areas pr) addr length →
  (∀ x, addr <= x < addr + Vma.round_up length → match Vma.view (areas pr) x with Some (_, _, Vma.Physical _) | None => True | _ => False end) →
  ∃ pr' kt', sys_munmap addr length (mk_state pr kt a) = Ret (Ok 0, mk_state pr' kt' a) ∧ tables pr' = tables pr ∧
    ∀ x, Vma.view (areas pr') x = if (addr <=? x) && (x <? addr + Vma.round_up length) then None else Vma.view (areas pr) x.
Proof.
  intros Hargs Hphys. destruct (munmap_reduces (mk_state pr kt a) addr length Hargs) as (vs & ar & -> & _ & Hview & _ & Hstart & _).
  cbn [sp kernel_tables fa] in *. destruct (unmap_vmas_physical vs (tables pr) ar kt a) as (kt' & ->).
  { apply Forall_forall. intros v Hv. destruct (Hstart v Hv) as [Hr Hvw]. specialize (Hphys _ Hr). rewrite Hvw in Hphys. cbn in Hphys.
    unfold Vma.page_backing in Hphys. destruct (Vma.backing v) as [|base| | | |]; try done. by exists base. }
  cbn [mbind outcome_bind]. eexists _, _. split; [done|]. done.
Qed.

(** ** Exit *)

(** The loop ends at a page that is not there; the entries it has not reached
    stay. *)
Lemma unmap_memory_stops l1 h l2 : ∀ t (a : F) H R, Forall (λ a, user_addr a) l1 → user_addr h → walk t h = None → acct a (frames t ++ H) R →
  ∃ t' a', unmap_memory_loop (l1 ++ h :: l2) t a = Ret (false, t', a') ∧ acct a' (frames t' ++ H) R ∧
    ∀ k : pkey, k ∉ path <$> l1 → entry t' k = entry t k.
Proof.
  induction l1 as [|v l1 IH]; intros t a H R Hall Hh Hw Ha; cbn [app unmap_memory_loop].
  { rewrite (unmap_absent t h Hh Hw). eexists _, _. split; [by destruct (translate_page t h)|]. done. }
  apply Forall_cons in Hall as [Hv Hall]. rewrite translate_page_walk by done. destruct (walk t v) as [e|] eqn:Hwv; cbn [fmap option_fmap option_map].
  - destruct (unmap_present t v e Hv Hwv) as (t1 & -> & Hf & _ & Hl). destruct (acct_free a e.2 (frames t1 ++ H) R) as (a1 & -> & Ha1).
    { eapply acct_perm; [|exact Ha]. by rewrite Hf. }
    cbn [mbind outcome_bind]. destruct (IH t1 a1 H R Hall Hh) as (t' & a' & -> & Ha' & Hk); [|done|].
    { unfold walk in *. rewrite Hl. by case_decide. }
    eexists _, _. split; [done|]. split; [done|]. intros k Hn. rewrite fmap_cons, not_elem_of_cons in Hn. destruct Hn as [Hn1 Hn2].
    by rewrite Hk, Hl, decide_False.
  - rewrite (unmap_absent t v Hv Hwv). by eexists _, _.
Qed.

Lemma page_range_split addr size h : addr mod 4096 = 0 → h mod 4096 = 0 → addr <= h < addr + size →
  ∃ l2, get_page_range addr size = ((λ i, i * 4096) <$> seqZ (addr / 4096) (h / 4096 - addr / 4096)) ++ h :: l2.
Proof.
  intros Ha Hh Hr. unfold get_page_range. pose proof (Z.div_mod h 4096). pose proof (Z.div_mod addr 4096). pose proof (Z.div_mod (addr + size - 1) 4096).
  pose proof (Z.mod_pos_bound (addr + size - 1) 4096). set (n := (addr + size - 1) / 4096) in *.
  replace (n - addr / 4096 + 1) with ((h / 4096 - addr / 4096) + (1 + (n - h / 4096))) by lia. rewrite seqZ_app, fmap_app by lia.
  replace (addr / 4096 + (h / 4096 - addr / 4096)) with (h / 4096) by lia. rewrite (seqZ_cons (h / 4096)) by lia. eexists. rewrite fmap_cons.
  replace (h / 4096 * 4096) with h by lia. done.
Qed.

(** When a process exits or executes another program, the pages of an
    anonymous area above the first page that was never touched are neither
    unmapped nor given back: [unmap_memory] ends with the error of that page,
    which [release_mappings] discards. *)
Theorem release_stops_at_hole R v t (a : F) H h : Vma.vma_ok v → Vma.backing v = Vma.Anonymous → acct a (frames t ++ H) R →
  h mod 4096 = 0 → Vma.start v <= h < Vma.end_ v → walk t h = None →
  ∃ t' a', release_vma v t a = Ret (t', a') ∧ acct a' (frames t' ++ H) R ∧ ∀ x, h <= x < Vma.end_ v → walk t' x = walk t x.
Proof.
  intros [Hr Hal _] Hb Ha Hh Hin Hw. unfold Vma.USER_VA_END, Vma.PAGE_SIZE in *. unfold release_vma, unmap_memory. rewrite Hb.
  destruct (page_range_split (Vma.start v) (Vma.end_ v - Vma.start v) h Hal Hh ltac:(lia)) as (l2 & ->).
  pose proof (Z.div_mod (Vma.start v) 4096). pose proof (Z.div_mod h 4096). set (l1 := _ <$> seqZ _ _).
  assert (Hl1 : ∀ y, y ∈ l1 → y mod 4096 = 0 ∧ 0 <= y ∧ y + 4096 <= h).
  { intros y Hy. apply list_elem_of_fmap in Hy as (i & -> & Hi%elem_of_seqZ). rewrite Z.mod_mul by lia. lia. }
  destruct (unmap_memory_stops l1 h l2 t a H R) as (t' & a' & -> & Ha' & Hk); [| |done|done|].
  { apply Forall_forall. intros y Hy%Hl1. lia. }
  { lia. }
  cbn [mbind outcome_bind]. eexists _, _. split; [done|]. split; [done|]. intros x Hx. unfold walk. apply Hk. intros Hp.
  apply list_elem_of_fmap in Hp as (y & E & Hy). destruct (Hl1 y Hy) as (Hm & Hy1 & Hy2). apply path_eq in E; [|lia|lia].
  rewrite (align_down_fix y) in E by done. pose proof (align_down_bounds x). lia.
Qed.

(** An address that is not canonical reaches [VirtAddr::new] before anything
    checks it. *)
Lemma munmap_panics addr length s : length ≠ 0 → addr mod 4096 = 0 → canonical addr = false → sys_munmap addr length s = Panic.
Proof. intros H1 H2 H3. unfold sys_munmap. rewrite (proj2 (Z.eqb_neq _ _)), H2 by done. cbn [orb negb Z.eqb]. unfold Vma.virt_addr. by rewrite H3. Qed.

End Ops.

(** ** Witnesses *)

Abbreviation demo_munmap := (sys_munmap (FO := demo_owner) (MP := tree_mapper) Vma.canonical48).

Lemma demo_args : munmap_args Vma.canonical48 (areas (proc_of demo1 0)) 0x400000 0x2000.
Proof.
  assert (E : areas (proc_of demo1 0) = demo_areas) by (vm_compute; reflexivity). rewrite E.
  split; [exact demo_areas_wf|reflexivity|lia|apply Z.leb_le; vm_compute; reflexivity|split; vm_compute; reflexivity|].
    exists 0x400000. split; [split; [apply Z.leb_le|apply Z.ltb_lt]; vm_compute; reflexivity|vm_compute; eauto].
Qed.

Lemma demo_view s lo len bk : Vma.vmas s = [(lo, Vma.mk_vma lo (lo + len) 3 8 bk)] → Vma.wf s → ∀ x,
  Vma.view s x = if (lo <=? x) && (x <? lo + len) then Some (Vma.vview (Vma.mk_vma lo (lo + len) 3 8 bk) x) else None.
Proof. intros E Hwf x. rewrite Vma.view_lview, E by done. unfold Vma.lview. cbn [fmap list_fmap Vma.vfind snd]. unfold Vma.contains. cbn. by destruct (_ && _). Qed.

Lemma munmap_anonymous_exact_witness : ∃ pr' a', demo_munmap 0x400000 0x2000 (mk_state (proc_of demo1 0) (zeroed 0) (falloc demo1)) = Ret (Ok 0, mk_state pr' (zeroed 0) a') ∧
  inv (FO := demo_owner) [] (set_process demo1 0 pr' (mem demo1) a').
Proof.
  destruct demo1_stored as [_ Hinv]. assert (Hp : procs demo1 !! 0%nat = Some (proc_of demo1 0)) by (apply proc_of_Some; vm_compute; eauto).
  assert (E : areas (proc_of demo1 0) = demo_areas) by (vm_compute; reflexivity).
  destruct (munmap_anonymous_exact (FO := demo_owner) (MP := tree_mapper) Vma.canonical48 [] demo1 0 (proc_of demo1 0) (zeroed 0) 0x400000 0x2000 Hinv Hp demo_args)
    as (pr' & a' & E' & H).
  - intros x _. rewrite E, (demo_view demo_areas 0x400000 0x2000 Vma.Anonymous eq_refl demo_areas_wf). by destruct (_ && _).
  - exists pr', a'. split; [exact E'|apply H].
Defined.

(** A process with one private page of a file, whose frame is in the page cache;
    it has written to the page. *)
Definition file_falloc : FrameAlloc.BitmapFrameAllocator := FrameAlloc.mk_fa [3; 0] (1 :: 1 :: replicate 14 0) 0x100000 16 0.
Definition file_areas : Vma.VmaSet := Vma.mk_set [(0x400000, Vma.mk_vma 0x400000 0x401000 3 8 (Vma.FileBacked 5 0 false true [None]))] 0.
Definition file_proc : Proc := mk_proc (zeroed 0x100000) file_areas.
Definition file_machine : Machine (F := FrameAlloc.BitmapFrameAllocator) := mk_machine {[ 0%nat := file_proc ]} (λ _, []) file_falloc [0x101000].
Definition file_answer : Answer := mk_answer None (mk_files (λ _, true) (λ _, Some 4096) (λ _ _, Some 0x101000)).
Abbreviation file_store := (store (FO := demo_owner) 3 file_answer file_machine 0 demo_addr 7).
Definition file1 := after_store file_machine file_store.

Lemma file_books : books 0x100000 16 file_falloc [0x100000; 0x101000] [].
Proof.
  split; [split; [repeat constructor; vm_compute; congruence|cbn; lia|cbn; lia|]|done|done|by repeat constructor| | |].
  - intros i Hi. cbn [file_falloc FrameAlloc.frame_count] in Hi. do 16 (destruct i as [|i]; [vm_compute; congruence|]). lia.
  - intros i Hi. do 16 (destruct i as [|i]; [done|]). lia.
  - intros i Hi. unfold nth_frame. rewrite elem_of_cons, list_elem_of_singleton. destruct i as [|[|i]]; [vm_compute; tauto|vm_compute; tauto|].
    split; [|intros [[?|?]|?%elem_of_nil]; [lia|lia|done]]. do 14 (destruct i as [|i]; [done|]). lia.
  - intros f _ Hf. by apply elem_of_nil in Hf.
Qed.

Lemma file_areas_wf : Vma.wf file_areas.
Proof. cbn. split_and!; [done|done| |done]. split; done. Qed.

Lemma file_inv : inv (FO := demo_owner) [] file_machine.
Proof.
  split; [exact file_books|]. intros p pr. cbn. intros [<- <-]%lookup_singleton_Some. split; [by split; [intros i e|split; intros i e]|exact file_areas_wf|done].
Qed.

Lemma file1_inv : inv (FO := demo_owner) [] file1.
Proof.
  destruct (store_step (FO := demo_owner) [] file_machine 0 file_proc file_answer demo_addr 7 file_inv) as (ok & m' & E & H);
    [vm_compute; reflexivity|unfold demo_addr; lia| |vm_compute; reflexivity|].
  - intros ino idx. unfold file_page. cbn [files file_answer mounted file_size_ino get_or_fill_page negb]. destruct (4096 <=? idx * 4096); [done|].
    split; [by left|]. split; [|vm_compute; reflexivity]. split; [vm_compute; split; congruence|done].
  - unfold file1. rewrite E. apply H.
Qed.

Definition file_areas1 : Vma.VmaSet := Vma.mk_set [(0x400000, Vma.mk_vma 0x400000 0x401000 3 8 (Vma.FileBacked 5 0 false true [Some 0x101000]))] 0.

Lemma file_areas1_wf : Vma.wf file_areas1.
Proof. cbn. split_and!; [done|done| |done]. split; done. Qed.

(** The copy the write made is in no table and in no cache, and not free. *)
Lemma munmap_file_leaks_witness : ∃ pr' a' R', demo_munmap 0x400000 0x1000 (mk_state (proc_of file1 0) (zeroed 0) (falloc file1)) = Ret (Ok 0, mk_state pr' (zeroed 0) a') ∧
  inv (FO := demo_owner) R' (set_process file1 0 pr' (mem file1) a') ∧ ∃ f, f ∈ R'.
Proof.
  assert (Hp : procs file1 !! 0%nat = Some (proc_of file1 0)) by (apply proc_of_Some; vm_compute; eauto).
  assert (E : areas (proc_of file1 0) = file_areas1) by (vm_compute; reflexivity).
  destruct (munmap_file_leaks (FO := demo_owner) (MP := tree_mapper) Vma.canonical48 [] file1 0 (proc_of file1 0) (zeroed 0) 0x400000 0x1000 file1_inv Hp)
    as (pr' & a' & R' & E' & H & HR).
  - rewrite E. split; [exact file_areas1_wf|reflexivity|lia|apply Z.leb_le; vm_compute; reflexivity|split; vm_compute; reflexivity|].
    exists 0x400000. split; [split; [apply Z.leb_le|apply Z.ltb_lt]; vm_compute; reflexivity|vm_compute; eauto].
  - intros x _. rewrite E, (demo_view file_areas1 0x400000 0x1000 (Vma.FileBacked 5 0 false true [Some 0x101000]) eq_refl file_areas1_wf). by destruct (_ && _).
  - exists pr', a', R'. split; [exact E'|]. split; [apply H|]. exists (default 0 (snd <$> walk (tables (proc_of file1 0)) demo_addr)). apply HR. right. split.
    + assert (Hf : match demo_munmap 0x400000 0x1000 (mk_state (proc_of file1 0) (zeroed 0) (falloc file1)) with
        | Ret (_, s) => bool_decide (default 0 (snd <$> walk (tables (proc_of file1 0)) demo_addr) ∈ all_frames (set_process file1 0 (sp s) (mem file1) (fa s))) | Panic => true end = false)
        by (vm_compute; reflexivity).
      rewrite E' in Hf. cbn [sp fa] in Hf. by apply bool_decide_eq_false in Hf.
    + exists demo_addr, (default (0, 0) (walk (tables (proc_of file1 0)) demo_addr)). split; [unfold demo_addr; lia|].
      split; [rewrite E; vm_compute; reflexivity|]. split; vm_compute; reflexivity.
Defined.

(** A device page mapped at four megabytes. *)
Definition phys_areas : Vma.VmaSet := Vma.mk_set [(0x400000, Vma.mk_vma 0x400000 0x401000 3 8 (Vma.Physical 0xFD000000))] 0.
Definition phys_tables : pml4 :=
  match map_page_direct (FO := demo_owner) (zeroed 0x100000) 0x400000 0xFD000000 7 demo_falloc with Ret (_, t, _) => t | Panic => zeroed 0 end.

Lemma munmap_physical_stays_witness : ∃ pr' kt', demo_munmap 0x400000 0x1000 (mk_state (mk_proc phys_tables phys_areas) (zeroed 0) demo_falloc) = Ret (Ok 0, mk_state pr' kt' demo_falloc) ∧
  walk (tables pr') 0x400000 = Some (7, 0xFD000000) ∧ Vma.view (areas pr') 0x400000 = None.
Proof.
  assert (Hwf : Vma.wf phys_areas) by (cbn; split_and!; [done|done|split; done|done]).
  destruct (munmap_physical_stays (FO := demo_owner) (MP := tree_mapper) Vma.canonical48 (mk_proc phys_tables phys_areas) (zeroed 0) demo_falloc 0x400000 0x1000)
    as (pr' & kt' & E & Ht & Hv).
  - split; [exact Hwf|reflexivity|lia|apply Z.leb_le; vm_compute; reflexivity|split; vm_compute; reflexivity|].
    exists 0x400000. split; [split; [apply Z.leb_le|apply Z.ltb_lt]; vm_compute; reflexivity|vm_compute; eauto].
  - intros x _. cbn [areas]. rewrite (demo_view phys_areas 0x400000 0x1000 (Vma.Physical 0xFD000000) eq_refl Hwf). by destruct (_ && _).
  - exists pr', kt'. split; [exact E|]. split; [rewrite Ht; vm_compute; reflexivity|]. by rewrite Hv.
Defined.

(** The second page of the area has been touched and the first has not. *)
Definition hole_store := store (FO := demo_owner) 3 demo_answer demo_machine 0 0x401000 7.
Definition hole1 := after_store demo_machine hole_store.

Lemma hole1_inv : inv (FO := demo_owner) [] hole1.
Proof.
  destruct (store_step (FO := demo_owner) [] demo_machine 0 demo_proc demo_answer 0x401000 7 demo_inv) as (ok & m' & E & H);
    [vm_compute; reflexivity|lia|by intros ino idx|vm_compute; reflexivity|]. unfold hole1, hole_store. rewrite E. apply H.
Qed.

Lemma demo_area_ok : Vma.vma_ok (Vma.mk_vma 0x400000 0x402000 3 8 Vma.Anonymous).
Proof. split; done. Qed.

Lemma release_stops_at_hole_witness : ∃ t' a', release_vma (FO := demo_owner) (MP := tree_mapper) (Vma.mk_vma 0x400000 0x402000 3 8 Vma.Anonymous) (tables (proc_of hole1 0)) (falloc hole1) = Ret (t', a') ∧
  is_Some (walk t' 0x401000).
Proof.
  assert (Hp : procs hole1 !! 0%nat = Some (proc_of hole1 0)) by (apply proc_of_Some; vm_compute; eauto).
  destruct (release_stops_at_hole (FO := demo_owner) (MP := tree_mapper) [] (Vma.mk_vma 0x400000 0x402000 3 8 Vma.Anonymous) (tables (proc_of hole1 0)) (falloc hole1) (rest hole1 0) 0x400000)
    as (t' & a' & E & _ & H).
  - exact demo_area_ok.
  - reflexivity.
  - eapply acct_perm; [apply (all_frames_proc hole1 0 _ Hp)|apply (i_acct [] hole1 hole1_inv)].
  - reflexivity.
  - cbn [Vma.start Vma.end_]. lia.
  - vm_compute. reflexivity.
  - exists t', a'. split; [exact E|]. rewrite H by (cbn [Vma.end_]; lia). vm_compute. eauto.
Defined.

End Teardown.
