(* ===== verification/Mprotect.v ===== *)
(** * Changing protection (kernel/src/syscalls/memory.rs)

    [sys_mprotect]: the areas are split at both ends of the range and retagged
    if they cover it, and the entries of the pages already present are brought
    into line. *)

From stdpp Require Import functions.
From S2P Require Import Prelude BTree FrameAlloc FrameOwner PageTable Vma Cow CowFork AddressSpace SpaceSafety Mapper Teardown.

Module Mprotect.

Import FrameOwner PageTable Cow CowFork AddressSpace SpaceSafety Mapper Teardown.

(** ** Operations *)

Definition vma_prot_from (prot : Z) : Z :=
  let p := 0 in
  let p := if negb (Z.land prot 1 =? 0) then Z.lor p 1 else p in
  let p := if negb (Z.land prot 2 =? 0) then Z.lor p 2 else p in
  if negb (Z.land prot 4 =? 0) then Z.lor p 4 else p.

(** [find_mut] and the assignment to [prot]. *)
Definition with_prot (v : Vma.Vma) (prot : Z) : Vma.Vma := Vma.mk_vma (Vma.start v) (Vma.end_ v) prot (Vma.flags v) (Vma.backing v).
Definition set_prot_at (s : Vma.VmaSet) (addr prot : Z) : Vma.VmaSet :=
  match Vma.last_le (Vma.vmas s) addr with
  | Some (k, v) => if Vma.contains v addr then Vma.set_vmas s (binsert k (with_prot v prot) (Vma.vmas s)) else s
  | None => s
  end.

(** How far the spans reach from [cursor] without a hole. *)
Fixpoint reach (cursor : Z) (spans : list (Z * Z)) : Z :=
  match spans with
  | [] => cursor
  | (vma_start, vma_end) :: spans => if negb (vma_start =? cursor) then cursor else reach vma_end spans
  end.

(** The part under the lock of the areas: the spans retagged, if they cover the
    range. *)
Definition retag (s : Vma.VmaSet) (lo hi prot : Z) : outcome (option (list (Z * Z)) * Vma.VmaSet) :=
  s ← Vma.split_at s lo;
  s ← Vma.split_at s hi;
  let spans := (λ e : Z * Vma.Vma, (Vma.start e.2, Vma.end_ e.2)) <$> filter (λ e, (lo <=? Vma.start e.2) && (Vma.end_ e.2 <=? hi) = true) (Vma.vmas s) in
  if negb (reach lo spans =? hi) then Ret (None, s)
  else Ret (Some spans, foldl (λ s sp, set_prot_at s sp.1 prot) s spans).

(** The flags of a present page. *)
Definition new_flags (prot flags : Z) : Z :=
  let fl := if has prot WRITE && negb (has flags COW_BIT) then Z.lor flags WRITABLE else Z.ldiff flags WRITABLE in
  if has prot EXEC then Z.ldiff fl NO_EXECUTE else Z.lor fl NO_EXECUTE.

(** ** Retagging *)

Lemma filter_true {A} (P : A → Prop) `{∀ x, Decision (P x)} l : Forall P l → filter P l = l.
Proof. induction 1 as [|x l Hx _ IH]; [done|]. rewrite filter_cons_True by done. by rewrite IH. Qed.

Lemma filter_false {A} (P : A → Prop) `{∀ x, Decision (P x)} l : Forall (λ x, ¬ P x) l → filter P l = [].
Proof. induction 1 as [|x l Hx _ IH]; [done|]. by rewrite filter_cons_False. Qed.

Lemma set_prot_at_spec s prot pre v post : Vma.chain 0 (pre ++ (Vma.start v, v) :: post) → Vma.vmas s = pre ++ (Vma.start v, v) :: post →
  Vma.vmas (set_prot_at s (Vma.start v) prot) = pre ++ (Vma.start v, with_prot v prot) :: post.
Proof.
  intros Hc Es. apply Vma.vchain_app in Hc as [Hpre (_ & Hlo & Hok & Hpost)]. pose proof (Vma.vo_range _ Hok) as Hr.
  pose proof (Vma.chain_keys_lt 0 pre (Vma.start v) Hpre Hlo) as Hk1. pose proof (Vma.chain_keys_gt _ post (Vma.start v) Hpost ltac:(lia)) as Hk2.
  unfold set_prot_at, Vma.last_le. rewrite Es, filter_app, filter_true, filter_cons_True, filter_false.
  - rewrite last_snoc. unfold Vma.contains. rewrite (proj2 (Z.leb_le _ _)), (proj2 (Z.ltb_lt _ _)) by lia. cbn [andb Vma.vmas Vma.set_vmas]. by apply binsert_replace.
  - eapply Forall_impl; [exact Hk2|]. cbn. intros e He. to_lia. rewrite Z.leb_le. lia.
  - cbn. lia.
  - eapply Forall_impl; [exact Hk1|]. cbn. intros e He. to_lia. lia.
Qed.

Definition retagged (prot : Z) (e : Z * Vma.Vma) : Z * Vma.Vma := (e.1, with_prot e.2 prot).
Definition span (e : Z * Vma.Vma) : Z * Z := (Vma.start e.2, Vma.end_ e.2).

Lemma with_prot_ok prot v : Vma.vma_ok v → Vma.vma_ok (with_prot v prot).
Proof. by intros [H1 H2 H3]. Qed.

Lemma retagged_chain prot lo m : Vma.chain lo m ↔ Vma.chain lo (retagged prot <$> m).
Proof.
  revert lo. induction m as [|[k v] m IH]; intros lo; [done|]. cbn. rewrite IH. cbn. split; intros (? & ? & [H1 H2 H3] & ?); split_and!; try done.
Qed.

Lemma retag_all prot post mid : ∀ pre s, Vma.chain 0 (pre ++ mid ++ post) → Vma.vmas s = pre ++ mid ++ post →
  Vma.vmas (foldl (λ s sp, set_prot_at s sp.1 prot) s (span <$> mid)) = pre ++ (retagged prot <$> mid) ++ post.
Proof.
  induction mid as [|[k v] mid IH]; intros pre s Hc Es; [done|]. assert (Hk : k = Vma.start v) by (apply Vma.vchain_app in Hc as [_ (? & _)]; done). subst k.
  cbn [fmap list_fmap foldl span fst snd]. pose proof (set_prot_at_spec s prot pre v (mid ++ post) Hc Es) as E1.
  change ((Vma.start v, with_prot v prot) :: mid ++ post) with ([(Vma.start v, with_prot v prot)] ++ mid ++ post) in E1. rewrite (assoc (++)) in E1.
  etransitivity; [eapply IH; [|exact E1]|by rewrite <- (assoc (++))].
  - rewrite <- (assoc (++)). apply Vma.vchain_app in Hc as [H1 (? & ? & Hv & ?)]. apply Vma.vchain_app. split; [done|]. cbn. split_and!; try done. by apply with_prot_ok.
Qed.

(** The spans cover the range when no address of it is without an area. *)
Lemma reach_spec hi mid : ∀ lo, Vma.chain lo mid → Forall (λ e, Vma.end_ e.2 <= hi) mid → lo <= hi →
  reach lo (span <$> mid) = hi ↔ ∀ x, lo <= x < hi → is_Some (Vma.vfind (snd <$> mid) x).
Proof.
  induction mid as [|[k v] mid IH]; intros lo; cbn [fmap list_fmap reach span fst snd Vma.chain Vma.vfind].
  - intros _ _ Hle. split; [intros -> x Hx; lia|]. intros H. destruct (Z.eq_dec lo hi) as [|Hne]; [done|]. destruct (H lo ltac:(lia)). done.
  - intros (_ & Hlo & Hok & Hc) [Hv Hm]%Forall_cons Hle. cbn [snd] in Hv. pose proof (Vma.vo_range _ Hok) as Hr. destruct (Z.eqb_spec (Vma.start v) lo) as [Es|Es]; cbn [negb].
    + rewrite (IH _ Hc Hm Hv). unfold Vma.contains. split.
      * intros H x Hx. rewrite (proj2 (Z.leb_le _ _)) by lia. destruct (Z.ltb_spec x (Vma.end_ v)); cbn [andb]; [done|]. apply H. lia.
      * intros H x Hx. specialize (H x ltac:(lia)). by rewrite (proj2 (Z.ltb_ge x (Vma.end_ v))), andb_false_r in H by lia.
    + split; [lia|]. intros H. specialize (H lo ltac:(lia)). unfold Vma.contains in H. rewrite (proj2 (Z.leb_gt _ _)) in H by lia. cbn [andb] in H.
      fold (snd <$> mid) in H. rewrite (Vma.vfind_above (Vma.end_ v) mid lo Hc) in H by lia. by destruct H.
Qed.

Definition view_prot (prot : Z) (o : option (Z * Z * Vma.VmaBacking)) : option (Z * Z * Vma.VmaBacking) := (λ x, (prot, x.1.2, x.2)) <$> o.

Lemma retagged_lview prot m x : Vma.lview (snd <$> (retagged prot <$> m)) x = view_prot prot (Vma.lview (snd <$> m) x).
Proof.
  unfold Vma.lview. induction m as [|[k v] m IH]; [done|]. cbn [fmap list_fmap retagged snd Vma.vfind]. unfold Vma.contains in *. cbn [with_prot Vma.start Vma.end_].
  by destruct (_ && _).
Qed.

Lemma chain_raise c lo m : Vma.chain c m → Forall (λ e, lo <= Vma.start e.2) m → Vma.chain lo m.
Proof. destruct m as [|[k v] m]; [done|]. cbn. intros (? & ? & ? & ?) [Hv _]%Forall_cons. done. Qed.

Lemma chain_spans lo m : Vma.chain lo m → Forall (λ e, Vma.start e.2 < Vma.end_ e.2) m.
Proof. intros Hc. destruct (Vma.vchain_bounds _ _ Hc) as [_ Hb]. eapply Forall_impl; [exact Hb|]. intros e (_ & _ & _ & Hok). pose proof (Vma.vo_range _ Hok). lia. Qed.

Lemma retagged_end prot lo m : Vma.chain_end lo (retagged prot <$> m) = Vma.chain_end lo m.
Proof. revert lo. induction m as [|[k v] m IH]; intros lo; [done|]. cbn. apply IH. Qed.

(** The view of three runs of areas, the middle one in the range. *)
Lemma lview_three lo hi (pre mid post : bmap Z Vma.Vma) x : Forall (λ e, Vma.end_ e.2 <= lo) pre →
  Forall (λ e, lo <= Vma.start e.2 ∧ Vma.end_ e.2 <= hi) mid → Forall (λ e, hi <= Vma.start e.2) post →
  Vma.lview (snd <$> pre ++ mid ++ post) x = if (lo <=? x) && (x <? hi) then Vma.lview (snd <$> mid) x else Vma.lview (snd <$> pre ++ post) x.
Proof.
  intros Hpre Hmid Hpost. assert (Hskip : ∀ (P : Z * Vma.Vma → Prop) l, Forall P l → (∀ e, P e → x < Vma.start e.2 ∨ Vma.end_ e.2 <= x) → Vma.lview (snd <$> l) x = None).
  { intros P l Hl HP. unfold Vma.lview. rewrite Vma.vfind_none; [done|]. apply Forall_fmap. eapply Forall_impl; [exact Hl|]. exact HP. }
  rewrite !fmap_app, !Vma.lview_app. destruct ((lo <=? x) && (x <? hi)) eqn:Ex; to_lia.
  - rewrite (Hskip _ pre Hpre) by lia. rewrite (Hskip _ post Hpost) by lia. by destruct (Vma.lview (snd <$> mid) x).
  - rewrite (Hskip _ mid Hmid); [done|]. intros e He. lia.
Qed.

(** The areas of a range after the splits. *)
Lemma split_both s lo hi : Vma.wf s → lo mod Vma.PAGE_SIZE = 0 → hi mod Vma.PAGE_SIZE = 0 → lo <= hi →
  ∃ s1 s2 pre mid post, Vma.split_at s lo = Ret s1 ∧ Vma.split_at s1 hi = Ret s2 ∧ Vma.chain 0 (pre ++ mid ++ post) ∧ Vma.vmas s2 = pre ++ mid ++ post ∧
    (∀ x, Vma.lview (snd <$> Vma.vmas s2) x = Vma.lview (snd <$> Vma.vmas s) x) ∧
    Forall (λ e, Vma.end_ e.2 <= lo) pre ∧ Forall (λ e, lo <= Vma.start e.2 ∧ Vma.end_ e.2 <= hi) mid ∧ Forall (λ e, hi <= Vma.start e.2) post.
Proof.
  intros Hwf Hlo Hhi Hle. destruct (Vma.split_at_spec s lo Hwf Hlo) as (s1 & E1 & Hwf1 & _ & Hv1 & Hc1 & _).
  destruct (Vma.split_at_spec s1 hi Hwf1 Hhi) as (s2 & E2 & Hwf2 & _ & Hv2 & Hc2 & Hk). apply Hk in Hc1. unfold Vma.wf in Hwf2.
  destruct (Vma.chain_cut_range 0 (Vma.vmas s2) lo hi Hwf2 Hle) as (pre & mid & post & E & _ & H1 & H2 & H3). exists s1, s2, pre, mid, post.
  rewrite E in *. pose proof (Vma.vchain_bounds _ _ Hwf2) as [_ Hb]. unfold Vma.clear_at in Hc1, Hc2. rewrite !Forall_app in Hc1, Hc2, Hb.
  destruct Hb as (Hbp & Hbm & Hbt), Hc1 as (Hc1p & _ & _), Hc2 as (_ & Hc2m & _). split; [done|]. split; [done|]. split; [done|]. split; [done|].
  split; [intros x; by rewrite Hv2, Hv1|]. rewrite !Forall_forall in *. split; [|split]; intros e He.
  - specialize (H1 e He). specialize (Hc1p e He). destruct (Hbp e He) as (Ek & _). lia.
  - specialize (H2 e He). specialize (Hc2m e He). destruct (Hbm e He) as (Ek & _). lia.
  - specialize (H3 e He). destruct (Hbt e He) as (Ek & _). lia.
Qed.

(** All or nothing: the areas are retagged when they cover the range, and not
    touched when they do not. *)
Lemma retag_spec s lo hi prot : Vma.wf s → lo mod Vma.PAGE_SIZE = 0 → hi mod Vma.PAGE_SIZE = 0 → lo <= hi →
  ∃ r s', retag s lo hi prot = Ret (r, s') ∧ Vma.wf s' ∧
    match r with
    | None => (¬ ∀ x, lo <= x < hi → is_Some (Vma.view s x)) ∧ ∀ x, Vma.view s' x = Vma.view s x
    | Some spans => ∃ vs, spans = (λ v, (Vma.start v, Vma.end_ v)) <$> vs ∧ Forall Vma.vma_ok vs ∧ (∀ x, is_Some (Vma.vfind vs x) ↔ lo <= x < hi) ∧
        (∀ x, lo <= x < hi → is_Some (Vma.view s x)) ∧
        ∀ x, Vma.view s' x = if (lo <=? x) && (x <? hi) then view_prot prot (Vma.view s x) else Vma.view s x
    end.
Proof.
  intros Hwf Hlo Hhi Hle. destruct (split_both s lo hi Hwf Hlo Hhi Hle) as (s1 & s2 & pre & mid & post & E1 & E2 & Hc & Es & Hv & Hpre & Hmid & Hpost).
  assert (Hin : ∀ x, lo <= x < hi → Vma.lview (snd <$> Vma.vmas s) x = Vma.lview (snd <$> mid) x).
  { intros x Hx. rewrite <- Hv, Es, (lview_three lo hi) by done. by rewrite (proj2 (Z.leb_le _ _)), (proj2 (Z.ltb_lt _ _)) by lia. }
  assert (Hsome : ∀ x, lo <= x < hi → is_Some (Vma.vfind (snd <$> mid) x) ↔ is_Some (Vma.view s x)).
  { intros x Hx. rewrite Vma.view_lview, Hin by done. unfold Vma.lview. by rewrite fmap_is_Some. }
  assert (Hcm : Vma.chain lo mid).
  { apply Vma.vchain_app in Hc as [_ Hc]. apply Vma.vchain_app in Hc as [Hc _]. eapply chain_raise; [exact Hc|]. eapply Forall_impl; [exact Hmid|]. cbn. lia. }
  unfold retag. rewrite E1. cbn [mbind outcome_bind]. rewrite E2. cbn [mbind outcome_bind].
  assert (Hf : filter (λ e : Z * Vma.Vma, (lo <=? Vma.start e.2) && (Vma.end_ e.2 <=? hi) = true) (Vma.vmas s2) = mid).
  { pose proof (chain_spans _ _ Hc) as Hsp. rewrite !Forall_app in Hsp. destruct Hsp as (Hs1 & _ & Hs3). rewrite !Forall_forall in *.
    rewrite Es, !filter_app, filter_false, filter_true, filter_false, app_nil_r; [done|..]; apply Forall_forall; intros e He.
    - specialize (Hpost e He). specialize (Hs3 e He). rewrite andb_true_iff, !Z.leb_le. lia.
    - specialize (Hmid e He). rewrite andb_true_iff, !Z.leb_le. lia.
    - specialize (Hpre e He). specialize (Hs1 e He). rewrite andb_true_iff, !Z.leb_le. lia. }
  rewrite Hf. change (λ e : Z * Vma.Vma, (Vma.start e.2, Vma.end_ e.2)) with span.
  pose proof (reach_spec hi mid lo Hcm ltac:(eapply Forall_impl; [exact Hmid|]; cbn; lia) Hle) as Hreach. destruct (Z.eqb_spec (reach lo (span <$> mid)) hi) as [Er|Er]; cbn [negb].
  - pose proof (proj1 Hreach Er) as Hcov. pose proof (retag_all prot post mid pre s2 Hc Es) as Hs'. eexists _, _. split; [done|].
    assert (Hwf' : Vma.wf (foldl (λ s sp, set_prot_at s sp.1 prot) s2 (span <$> mid))).
    { unfold Vma.wf. rewrite Hs'. rewrite !Vma.vchain_app, retagged_end, <- retagged_chain in *. done. }
    split; [done|]. exists (snd <$> mid). split; [by rewrite <- list_fmap_compose|]. split; [by eapply chain_ok|]. split; [|split; [intros x Hx; by apply Hsome, Hcov|]].
    + intros x. split; [|apply Hcov]. intros Hx. destruct (decide (lo <= x < hi)) as [|Hn]; [done|]. rewrite Vma.vfind_none in Hx; [by destruct Hx|].
      apply Forall_fmap. eapply Forall_impl; [exact Hmid|]. cbn. lia.
    + intros x. rewrite !Vma.view_lview, Hs' by done. rewrite <- Hv, Es, !(lview_three lo hi) by (done || by apply Forall_fmap).
      rewrite retagged_lview. by destruct (_ && _).
  - eexists _, _. split; [done|]. assert (Hwf2 : Vma.wf s2) by (unfold Vma.wf; by rewrite Es). split; [done|]. split.
    + intros H. apply Er, Hreach. intros x Hx. by apply Hsome, H.
    + intros x. by rewrite !Vma.view_lview, Hv by done.
Qed.

Section Ops.

Context {F : Type} `{FO : FrameOwner F} `{MP : Mapper} (canonical : Z → bool).

Fixpoint protect_pages (prot : Z) (addrs : list Z) (t : pml4) : pml4 :=
  match addrs with
  | [] => t
  | v :: addrs =>
      protect_pages prot addrs
        match translate t v with
        | None => t
        | Some (flags, _) =>
            if new_flags prot flags =? flags then t
            else match update_flags t v (new_flags prot flags) with Some t => t | None => t end
        end
  end.

Inductive Errno := EINVAL | ENOMEM.

Definition sys_mprotect (addr length prot : Z) (pr : Proc) : outcome (result Errno Z * Proc) :=
  if (length =? 0) || negb (addr mod 4096 =? 0) || negb (Z.ldiff prot 7 =? 0) then Ret (Err EINVAL, pr)
  else
    match Vma.page_round_up length with
    | None => Ret (Err EINVAL, pr)
    | Some len =>
        if negb (addr + len <=? U64_MAX) then Ret (Err EINVAL, pr)
        else if Vma.USER_VA_END <? addr + len then Ret (Err EINVAL, pr)
        else
          lo ← Vma.virt_addr canonical addr;
          hi ← Vma.virt_addr canonical (addr + len);
          let np := vma_prot_from prot in
          '(r, ar) ← retag (areas pr) lo hi np;
          match r with
          | None => Ret (Err ENOMEM, mk_proc (tables pr) ar)
          | Some spans =>
              let t := foldl (λ t sp, protect_pages np (pages_of sp.1 (sp.2 - sp.1)) t) (tables pr) spans in
              Ret (Ok 0, mk_proc t ar)
          end
    end.

(** ** The entries *)

Abbreviation user_addr a := (0 <= a < 2 ^ 47) (only parsing).

Definition protect (prot : Z) (e : pte) : pte := (new_flags prot e.1, e.2).

Lemma new_flags_COW prot fl : has (new_flags prot fl) COW_BIT = has fl COW_BIT.
Proof.
  rewrite !has_COW. unfold new_flags. assert (B1 : Z.testbit NO_EXECUTE 9 = false) by done. assert (B2 : Z.testbit WRITABLE 9 = false) by done.
  destruct (has prot EXEC), (has prot WRITE && negb (has fl COW_BIT)); rewrite ?Z.lor_spec, ?Z.ldiff_spec, ?Z.lor_spec, ?Z.ldiff_spec, ?B1, ?B2; by destruct (Z.testbit fl 9).
Qed.

Lemma new_flags_WRITABLE prot fl : has (new_flags prot fl) WRITABLE = has prot WRITE && negb (has fl COW_BIT).
Proof.
  rewrite has_WRITABLE. unfold new_flags. assert (B1 : Z.testbit NO_EXECUTE 1 = false) by done. assert (B2 : Z.testbit WRITABLE 1 = true) by done.
  destruct (has prot EXEC), (has prot WRITE && negb (has fl COW_BIT)); rewrite ?Z.lor_spec, ?Z.ldiff_spec, ?Z.lor_spec, ?Z.ldiff_spec, ?B1, ?B2; by destruct (Z.testbit fl 1).
Qed.

Lemma new_flags_twice prot fl : new_flags prot (new_flags prot fl) = new_flags prot fl.
Proof.
  unfold new_flags at 1. rewrite new_flags_COW. unfold new_flags.
  destruct (has prot EXEC), (has prot WRITE && negb (has fl COW_BIT)); apply Z.bits_inj'; intros n Hn; rewrite ?Z.lor_spec, ?Z.ldiff_spec, ?Z.lor_spec, ?Z.ldiff_spec, ?Z.lor_spec, ?Z.ldiff_spec;
    destruct (Z.testbit fl n), (Z.testbit WRITABLE n), (Z.testbit NO_EXECUTE n); done.
Qed.

(** One page of the loop. *)
Lemma protect_page prot v t : user_addr v →
  let t' := match translate t v with
    | None => t
    | Some (flags, _) => if new_flags prot flags =? flags then t else match update_flags t v (new_flags prot flags) with Some t => t | None => t end
    end in
  frames t' ≡ₚ frames t ∧ (user_half t → user_half t') ∧ ∀ k : pkey, entry t' k = if decide (k = path v) then protect prot <$> entry t k else entry t k.
Proof.
  intros Hv. rewrite translate_walk by done. destruct (walk t v) as [[fl f]|] eqn:Hw.
  2: { split; [done|]. split; [done|]. intros k. case_decide; [|done]. subst k. unfold walk in Hw. by rewrite Hw. }
  destruct (Z.eqb_spec (new_flags prot fl) fl) as [E|E].
  - split; [done|]. split; [done|]. intros k. case_decide; [|done]. subst k. unfold walk in Hw. rewrite Hw. cbn. unfold protect. cbn. by rewrite E.
  - destruct (update_present t v (new_flags prot fl) (fl, f) Hv Hw) as (t' & -> & H1 & H2 & H3). split; [done|]. split; [done|]. intros k. rewrite H3.
    case_decide; [|done]. subst k. unfold walk in Hw. by rewrite Hw.
Qed.

Record protected (prot : Z) (addrs : list Z) (t t' : pml4) : Prop := {
  pt_frames : frames t' ≡ₚ frames t;
  pt_half : user_half t → user_half t';
  pt_entry : ∀ k : pkey, entry t' k = if bool_decide (k ∈ path <$> addrs) then protect prot <$> entry t k else entry t k
}.

Lemma protected_nil prot t : protected prot [] t t.
Proof. by split. Qed.

Lemma protected_app prot l1 l2 t t1 t' : protected prot l1 t t1 → protected prot l2 t1 t' → protected prot (l1 ++ l2) t t'.
Proof.
  intros [H1 H2 H3] [G1 G2 G3]. split; [by rewrite G1, H1|auto|]. intros k. rewrite G3, H3, elem_fmap_app.
  destruct (bool_decide (k ∈ path <$> l1)), (bool_decide (k ∈ path <$> l2)); cbn [orb]; try done.
  destruct (entry t k) as [e|]; [|done]. cbn. unfold protect. cbn. by rewrite new_flags_twice.
Qed.

Lemma protect_pages_spec prot addrs : ∀ t, Forall (λ a, user_addr a) addrs → protected prot addrs t (protect_pages prot addrs t).
Proof.
  induction addrs as [|v addrs IH]; intros t Hall; [done|]. apply Forall_cons in Hall as [Hv Hall]. cbn [protect_pages].
  change (v :: addrs) with ([v] ++ addrs). eapply protected_app; [|by apply IH]. destruct (protect_page prot v t Hv) as (H1 & H2 & H3). split; [done|done|].
  intros k. rewrite H3. cbn. destruct (decide (k = path v)) as [->|Hk]; [by rewrite bool_decide_true by (by left)|].
  rewrite bool_decide_false; [done|]. by intros ?%list_elem_of_singleton.
Qed.

Lemma protect_spans prot vs : ∀ t, Forall Vma.vma_ok vs →
  protected prot (vs ≫= vpages) t (foldl (λ t sp, protect_pages prot (pages_of sp.1 (sp.2 - sp.1)) t) t ((λ v, (Vma.start v, Vma.end_ v)) <$> vs)).
Proof.
  induction vs as [|v vs IH]; intros t Hok; [done|]. apply Forall_cons in Hok as [Hv Hok]. cbn [fmap list_fmap foldl fst snd].
  change ((v :: vs) ≫= vpages) with (vpages v ++ (vs ≫= vpages)). eapply protected_app; [|by apply IH]. apply protect_pages_spec. by apply vpages_user.
Qed.

Lemma protect_leaf_ok H s s' k e prot : is_special_mapping (virt k) s' = is_special_mapping (virt k) s → leaf_ok H s k e → leaf_ok H s' k (protect prot e).
Proof.
  intros Hs. unfold leaf_ok. rewrite Hs. cbn [protect fst snd]. rewrite new_flags_COW, new_flags_WRITABLE. destruct (is_special_mapping (virt k) s); [done|].
  intros [? Hm]. split; [done|]. destruct (has e.1 COW_BIT); [by rewrite andb_false_r|done].
Qed.

(** ** The call *)

(** What the call leaves: the invariant, what every process reads, and, when it
    succeeds, the new protection on exactly the range. *)
Record mprotected (R : list Z) (m : Machine (F := F)) (p : nat) (pr : Proc) (lo hi np : Z) (ok : bool) (pr' : Proc) (m' : Machine (F := F)) : Prop := {
  mp_inv : inv R m';
  mp_page : ∀ q k, page m' q k = page m q k;
  mp_cover : ok = true ↔ ∀ x, lo <= x < hi → is_Some (Vma.view (areas pr) x);
  mp_view : ∀ x, Vma.view (areas pr') x = if ok && (lo <=? x) && (x <? hi) then view_prot np (Vma.view (areas pr) x) else Vma.view (areas pr) x;
  mp_walk : ∀ x, user_addr x → walk (tables pr') x = if ok && (lo <=? x) && (x <? hi) then protect np <$> walk (tables pr) x else walk (tables pr) x
}.

Lemma page_in_range lo hi x : lo mod 4096 = 0 → hi mod 4096 = 0 → lo <= Vma.align_down x < hi ↔ lo <= x < hi.
Proof.
  intros Hlo Hhi. pose proof (align_down_bounds x) as Hb. split; intros Hx.
  - split; [lia|]. destruct (Z.lt_ge_cases x hi); [done|]. pose proof (aligned_le hi x Hhi). lia.
  - pose proof (aligned_le lo x Hlo). lia.
Qed.

Lemma mprotect_space R (m : Machine (F := F)) p pr t' ar addrs prot : inv R m → procs m !! p = Some pr → protected prot addrs (tables pr) t' →
  Vma.wf ar → (∀ x, is_special_mapping x ar = is_special_mapping x (areas pr)) →
  inv R (set_process m p (mk_proc t' ar) (mem m) (falloc m)) ∧ ∀ q k, page (set_process m p (mk_proc t' ar) (mem m) (falloc m)) q k = page m q k.
Proof.
  intros Hinv Hp [Hf Hu He] Hwf Hsp. destruct (i_proc R m Hinv p pr Hp) as [Hhalf _ Hleaf].
  assert (HG : frames t' ++ rest m p ≡ₚ all_frames m) by (by rewrite Hf, (all_frames_proc m p pr Hp)). split.
  - eapply (inv_replace R R m p pr); cbn [tables]; [done|done| | |].
    + eapply acct_perm; [symmetry; exact HG|apply (i_acct R m Hinv)].
    + split; cbn [tables areas]; [auto|done|]. intros k e Hk. eapply leaf_ok_perm; [symmetry; exact HG|]. rewrite He in Hk. destruct (bool_decide _).
      * destruct (entry (tables pr) k) as [e0|] eqn:E0; [|done]. injection Hk as <-. eapply protect_leaf_ok; [apply Hsp|by apply Hleaf].
      * specialize (Hleaf k e Hk). unfold leaf_ok in *. by rewrite Hsp.
    + intros f _. by rewrite HG.
  - intros q k. unfold page. cbn [procs mem set_process]. destruct (decide (q = p)) as [->|Hq]; [|by rewrite lookup_insert_ne].
    rewrite lookup_insert_eq, Hp. cbn [tables]. rewrite He. destruct (bool_decide _); [|done]. by destruct (entry (tables pr) k).
Qed.


End Ops.

(** ** Witness *)


End Mprotect.
