(* ===== verification/EditBuffer.v ===== *)
(** * The editor's document (programs/edos-edit/src/buffer.rs)

    A document is a vector of lines; positions are a line and a column in
    characters; every change goes through [insert_text] and [delete_range] and
    is recorded in a log of reversible edits.  Characters are their code
    points.  The syntax tokens cached on a line, the scroll offsets and the
    language only serve drawing and are left out.

    The second half is the theory that makes the line arithmetic tractable: a
    document is the string its lines join to, and a position is a prefix of
    that string. *)

From S2P Require Import Prelude.

Module EditBuffer.

Abbreviation str := (list Z).
Definition NL : Z := 10.
Definition CR : Z := 13.

(** [str::split] at newlines and [join]. *)
Fixpoint split (s : str) : list str :=
  match s with
  | [] => [[]]
  | c :: s => if c =? NL then [] :: split s else match split s with [] => [[c]] | l :: ls => (c :: l) :: ls end
  end.

Fixpoint join (sep : str) (ls : list str) : str :=
  match ls with [] => [] | [l] => l | l :: ls => l ++ sep ++ join sep ls end.

(** Indexing and slicing, which panic out of range. *)
Definition index {A} (l : list A) (i : nat) : outcome A := match l !! i with Some x => Ret x | None => Panic end.
Definition slice {A} (l : list A) (i j : nat) : outcome (list A) :=
  if (i <=? j)%nat && (j <=? length l)%nat then Ret (take (j - i) (drop i l)) else Panic.

(** ** Data *)

Record Line := mk_line { text : str; changed : bool }.
Record Position := mk_pos { line : nat; col : nat }.
#[export] Instance Position_eq_dec : EqDecision Position.
Proof. solve_decision. Defined.
Inductive Eol := Lf | CrLf.
Inductive Edit :=
| Insert (at_ : Position) (text : str)
| Delete (at_ : Position) (text : str)
| Replace (at_ : Position) (old new : str).
Record LogEntry := mk_entry { edit : Edit; cursor_before : Position }.

Record Buffer := mk_buffer {
  path : option str;
  lines : list Line;
  cursor : Position;
  anchor : option Position;
  eol : Eol;
  trailing_newline : bool;
  dirty : bool;
  log : list LogEntry;
  log_at : nat;
  saved_log_at : nat;
  coalescing : bool }.

Definition origin : Position := mk_pos 0 0.

(** Assignments to the fields. *)
Definition set_lines (b : Buffer) (ls : list Line) (d : bool) : Buffer :=
  mk_buffer (path b) ls (cursor b) (anchor b) (eol b) (trailing_newline b) d (log b) (log_at b) (saved_log_at b) (coalescing b).
Definition set_cur (b : Buffer) (p : Position) : Buffer :=
  mk_buffer (path b) (lines b) p (anchor b) (eol b) (trailing_newline b) (dirty b) (log b) (log_at b) (saved_log_at b) (coalescing b).
Definition set_anchor (b : Buffer) (a : option Position) : Buffer :=
  mk_buffer (path b) (lines b) (cursor b) a (eol b) (trailing_newline b) (dirty b) (log b) (log_at b) (saved_log_at b) (coalescing b).
Definition set_log (b : Buffer) (l : list LogEntry) (n : nat) (c : bool) : Buffer :=
  mk_buffer (path b) (lines b) (cursor b) (anchor b) (eol b) (trailing_newline b) (dirty b) l n (saved_log_at b) c.
Definition set_saved (b : Buffer) (n : nat) : Buffer :=
  mk_buffer (path b) (lines b) (cursor b) (anchor b) (eol b) (trailing_newline b) (dirty b) (log b) (log_at b) n (coalescing b).

(** ** Operations *)

Definition end_position (p : Position) (s : str) : Position :=
  match split s with
  | [] => p
  | part :: parts =>
      fold_left (λ pos part, mk_pos (S (line pos)) (length part)) parts (mk_pos (line p) (col p + length part))
  end.

Definition empty : Buffer := mk_buffer None [mk_line [] false] origin None Lf true false [] 0 0 false.

Fixpoint contains_crlf (s : str) : bool :=
  match s with
  | a :: (b :: _) as s' => ((a =? CR) && (b =? NL)) || contains_crlf s'
  | _ => false
  end.

(** [raw.replace("\r\n", "\n")]. *)
Fixpoint normalize (s : str) : str :=
  match s with
  | a :: (b :: s'') as s' => if (a =? CR) && (b =? NL) then NL :: normalize s'' else a :: normalize s'
  | _ => s
  end.

Definition ends_with_nl (s : str) : bool := match last s with Some c => c =? NL | None => false end.
Definition strip_nl (s : str) : str := if ends_with_nl s then take (length s - 1) s else s.

(** [open], from the decoded text of the file on. *)
Definition open_text (p raw : str) : Buffer :=
  let e := if contains_crlf raw then CrLf else Lf in
  let normalized := normalize raw in
  let body := strip_nl normalized in
  let ls := match body with [] => [mk_line [] false] | _ => (λ t, mk_line t false) <$> split body end in
  mk_buffer (Some p) ls origin None e (ends_with_nl normalized) false [] 0 0 false.

Definition line_chars (b : Buffer) (i : nat) : nat := match lines b !! i with Some l => length (text l) | None => 0 end.

Definition clamp_cursor (b : Buffer) : Buffer :=
  let l := Nat.min (line (cursor b)) (length (lines b) - 1) in
  set_cur b (mk_pos l (Nat.min (col (cursor b)) (line_chars b l))).

Definition pos_ltb (p q : Position) : bool := (line p <? line q)%nat || ((line p =? line q)%nat && (col p <? col q)%nat).

Definition selection_range (b : Buffer) : option (Position * Position) :=
  match anchor b with
  | None => None
  | Some a => if decide (a = cursor b) then None else Some (if pos_ltb a (cursor b) then (a, cursor b) else (cursor b, a))
  end.

Definition text_between (b : Buffer) (from to : Position) : outcome str :=
  if decide (from = to) then Ret [] else
  lf ← index (lines b) (line from);
  if (line from =? line to)%nat then slice (text lf) (col from) (col to) else
  first ← slice (text lf) (col from) (length (text lf));
  mid ← slice (lines b) (S (line from)) (line to);
  lt ← index (lines b) (line to);
  rest ← slice (text lt) 0 (col to);
  Ret (first ++ (mid ≫= λ l, NL :: text l) ++ NL :: rest).

Definition selected_text (b : Buffer) : outcome (option str) :=
  match selection_range b with
  | None => Ret None
  | Some (from, to) => s ← text_between b from to; Ret (Some s)
  end.

Definition insert_text (b : Buffer) (p : Position) (s : str) : outcome (Position * Buffer) :=
  match s with
  | [] => Ret (p, b)
  | _ =>
      l ← index (lines b) (line p);
      before ← slice (text l) 0 (col p);
      after ← slice (text l) (col p) (length (text l));
      let parts := split s in
      let new_lines := imap (λ i part, mk_line (if (i =? 0)%nat then before ++ part else part) true) parts in
      let new_lines := alter (λ l, mk_line (text l ++ after) (changed l)) (length parts - 1)%nat new_lines in
      Ret (end_position p s, set_lines b (take (line p) (lines b) ++ new_lines ++ drop (S (line p)) (lines b)) true)
  end.

Definition delete_range (b : Buffer) (from to : Position) : outcome (str * Buffer) :=
  if decide (from = to) then Ret ([], b) else
  lf ← index (lines b) (line from);
  before ← slice (text lf) 0 (col from);
  lt ← index (lines b) (line to);
  after ← slice (text lt) (col to) (length (text lt));
  removed ←
    (if (line from =? line to)%nat then slice (text lf) (col from) (col to) else
     first ← slice (text lf) (col from) (length (text lf));
     mid ← slice (lines b) (S (line from)) (line to);
     rest ← slice (text lt) 0 (col to);
     Ret (first ++ (mid ≫= λ l, NL :: text l) ++ NL :: rest));
  Ret (removed, set_lines b (take (line from) (lines b) ++ [mk_line (before ++ after) true] ++ drop (S (line to)) (lines b)) true).

Definition break_coalesce (b : Buffer) : Buffer := set_log b (log b) (log_at b) false.

Definition merges (c : bool) (e : Edit) (prev : option LogEntry) : bool :=
  c && match e, prev with
       | Insert p s, Some (mk_entry (Insert prev_at prev_text) _) =>
           (length s =? 1)%nat && bool_decide (p = end_position prev_at prev_text)
       | _, _ => false
       end.

(** [prev_text.push_str(&text)] on the last entry. *)
Definition append_to (prev : LogEntry) (e : Edit) : LogEntry :=
  match edit prev, e with
  | Insert p t, Insert _ s => mk_entry (Insert p (t ++ s)) (cursor_before prev)
  | _, _ => prev
  end.

Definition push_edit (b : Buffer) (e : Edit) (cb : Position) : Buffer :=
  let l := take (log_at b) (log b) in
  match last l with
  | Some prev =>
      if merges (coalescing b) e (Some prev)
      then set_log b (take (length l - 1) l ++ [append_to prev e]) (log_at b) true
      else set_log b (l ++ [mk_entry e cb]) (S (log_at b)) true
  | None => set_log b (l ++ [mk_entry e cb]) (S (log_at b)) true
  end.

Definition delete_selection (b : Buffer) : outcome (bool * Buffer) :=
  match selection_range b with
  | None => Ret (false, b)
  | Some (from, to) =>
      let cb := cursor b in
      '(removed, b) ← delete_range b from to;
      let b := push_edit b (Delete from removed) cb in
      Ret (true, break_coalesce (set_anchor (set_cur b from) None))
  end.

Definition replace_selection (b : Buffer) (s : str) : outcome (option Position * Buffer) :=
  match selection_range b with
  | None => Ret (None, b)
  | Some (from, to) =>
      let cb := cursor b in
      '(old, b) ← delete_range b from to;
      '(end_, b) ← insert_text b from s;
      let b := push_edit b (Replace from old s) cb in
      Ret (Some end_, break_coalesce (set_anchor (set_cur b end_) None))
  end.

Definition apply (b : Buffer) (e : Edit) : outcome (Position * Buffer) :=
  match e with
  | Insert p s => insert_text b p s
  | Delete p s => '(_, b) ← delete_range b p (end_position p s); Ret (p, b)
  | Replace p old new => '(_, b) ← delete_range b p (end_position p old); insert_text b p new
  end.

Definition invert (e : Edit) : Edit :=
  match e with
  | Insert p s => Delete p s
  | Delete p s => Insert p s
  | Replace p old new => Replace p new old
  end.

Definition unmark (ls : list Line) : list Line := (λ l, mk_line (text l) false) <$> ls.

Definition clear_ribbon_if_saved (b : Buffer) : Buffer :=
  if (log_at b =? saved_log_at b)%nat then set_lines b (unmark (lines b)) (dirty b) else b.

(** The common end of [undo] and [redo]. *)
Definition landed (b : Buffer) (p : Position) : Buffer :=
  let b := clear_ribbon_if_saved (clamp_cursor (set_cur b p)) in
  break_coalesce (set_lines b (lines b) (negb (log_at b =? saved_log_at b)%nat)).

Definition undo (b : Buffer) : outcome (bool * Buffer) :=
  match log_at b with
  | O => Ret (false, b)
  | S n =>
      let b := set_log b (log b) n (coalescing b) in
      en ← index (log b) n;
      '(_, b) ← apply b (invert (edit en));
      Ret (true, landed b (cursor_before en))
  end.

Definition redo (b : Buffer) : outcome (bool * Buffer) :=
  if (length (log b) <=? log_at b)%nat then Ret (false, b) else
  en ← index (log b) (log_at b);
  '(p, b) ← apply b (edit en);
  Ret (true, landed (set_log b (log b) (S (log_at b)) (coalescing b)) p).

(** The bytes [save] writes. *)
Definition body (b : Buffer) : str :=
  let sep := match eol b with Lf => [NL] | CrLf => [CR; NL] end in
  let body := join sep (text <$> lines b) in
  if trailing_newline b then body ++ sep else body.

Inductive SaveError := NoPath | WriteFailed.

(** [written] is whether [fs::write] succeeds; the answer carries the bytes
    written. *)
Definition save (written : bool) (b : Buffer) : result SaveError str * Buffer :=
  match path b with
  | None => (Err NoPath, b)
  | Some _ =>
      if written
      then (Ok (body b), break_coalesce (set_saved (set_lines b (unmark (lines b)) false) (log_at b)))
      else (Err WriteFailed, b)
  end.

(** ** Lines and strings *)

Lemma split_ne s : split s ≠ [].
Proof. destruct s as [|c s]; simpl; [done|]. destruct (c =? NL); [done|]. by destruct (split s). Qed.

Lemma split_cons c s l ls : c ≠ NL → split s = l :: ls → split (c :: s) = (c :: l) :: ls.
Proof. intros Hc Hs. simpl. rewrite Hs. by destruct (Z.eqb_spec c NL). Qed.

Lemma split_nl s : split (NL :: s) = [] :: split s.
Proof. reflexivity. Qed.

Lemma join_split s : join [NL] (split s) = s.
Proof.
  induction s as [|c s IH]; [done|]. simpl. destruct (Z.eqb_spec c NL) as [->|Hc].
  - pose proof (split_ne s). destruct (split s) eqn:E; [done|]. rewrite <- E in *. simpl. rewrite E in *. simpl in *. by rewrite IH.
  - pose proof (split_ne s). destruct (split s) as [|l ls]; [done|]. destruct ls; simpl in *; by rewrite IH.
Qed.

(** Putting two runs of lines together: the last line of the first continues
    in the first line of the second. *)
Fixpoint glue (a b : list str) : list str :=
  match a with
  | [] => b
  | [x] => match b with [] => [x] | y :: b => (x ++ y) :: b end
  | x :: a => x :: glue a b
  end.

Lemma glue_snoc a x y b : glue (a ++ [x]) (y :: b) = a ++ (x ++ y) :: b.
Proof. induction a as [|z a IH]; [done|]. destruct a as [|w a]; [done|]. simpl in *. by rewrite IH. Qed.

Lemma split_app a b : split (a ++ b) = glue (split a) (split b).
Proof.
  induction a as [|c a IH]; [simpl; pose proof (split_ne b); by destruct (split b)|].
  simpl. rewrite IH. pose proof (split_ne a). pose proof (split_ne b).
  destruct (c =? NL); destruct (split a) as [|x [|x' l]], (split b); done.
Qed.

Lemma split_last s : ∃ a x, split s = a ++ [x].
Proof. destruct (exists_last (split_ne s)) as (a & x & Hs). eauto. Qed.

Lemma split_head s : ∃ y d, split s = y :: d.
Proof. pose proof (split_ne s). destruct (split s); [done|eauto]. Qed.

Lemma glue_app_r a y d : a ≠ [] → glue a (y :: d) = glue a [y] ++ d.
Proof. intros Ha. destruct (exists_last Ha) as (a' & x & ->). by rewrite !glue_snoc, <- app_assoc. Qed.

(** ** Positions are prefixes *)

Definition step_pos (p : Position) (c : Z) : Position := if c =? NL then mk_pos (S (line p)) 0 else mk_pos (line p) (S (col p)).

Lemma end_position_cons p c s : end_position p (c :: s) = end_position (step_pos p c) s.
Proof.
  unfold end_position, step_pos. simpl. destruct (c =? NL); destruct (split_head s) as (y & d & ->); simpl.
  - done.
  - by rewrite Nat.add_succ_r.
Qed.

Lemma end_position_nil p : end_position p [] = p.
Proof. destruct p. unfold end_position. simpl. by rewrite Nat.add_0_r. Qed.

Lemma end_position_app p a b : end_position p (a ++ b) = end_position (end_position p a) b.
Proof.
  revert p; induction a as [|c a IH]; intros p; [by rewrite end_position_nil|].
  change ((c :: a) ++ b) with (c :: (a ++ b)). by rewrite !end_position_cons.
Qed.

Definition at_prefix (pre : str) : Position := end_position origin pre.

Lemma fold_lines (parts : list str) p : parts ≠ [] →
  fold_left (λ pos part, mk_pos (S (line pos)) (length part)) parts p = mk_pos (line p + length parts) (length (default [] (last parts))).
Proof.
  revert p; induction parts as [|x parts IH]; intros p H; [done|].
  destruct parts as [|y parts]; [simpl; f_equal; lia|]. etrans; [exact (IH (mk_pos (S (line p)) (length x)) ltac:(done))|].
  simpl. f_equal. lia.
Qed.

(** Where a prefix ends: after its whole lines, at the length of its last. *)
Lemma end_position_split p s a x : split s = a ++ [x] →
  end_position p s = mk_pos (line p + length a) ((if decide (a = []) then col p else 0) + length x).
Proof.
  intros Hs. unfold end_position. rewrite Hs. destruct a as [|y a]; simpl.
  - by rewrite Nat.add_0_r.
  - rewrite fold_lines by (by destruct a). rewrite last_snoc, length_app. simpl. f_equal. lia.
Qed.

Lemma at_split pre a x : split pre = a ++ [x] → at_prefix pre = mk_pos (length a) (length x).
Proof. intros Hs. unfold at_prefix. rewrite (end_position_split _ _ _ _ Hs). simpl. by destruct (decide _). Qed.

Definition pos_lt (p q : Position) : Prop := (line p < line q ∨ line p = line q ∧ col p < col q)%nat.

Lemma end_position_lt p s : s ≠ [] → pos_lt p (end_position p s).
Proof.
  assert (Hs : ∀ q c, pos_lt q (step_pos q c)) by (intros q c; unfold pos_lt, step_pos; destruct (c =? NL); simpl; lia).
  revert p; induction s as [|c s IH]; intros p H; [done|]. rewrite end_position_cons.
  destruct s as [|d s]; [rewrite end_position_nil; apply Hs|].
  specialize (IH (step_pos p c) ltac:(done)). specialize (Hs p c). unfold pos_lt in *. lia.
Qed.

Lemma pos_lt_irrefl p : ¬ pos_lt p p.
Proof. unfold pos_lt. lia. Qed.

Lemma pos_ltb_lt p q : pos_ltb p q = true ↔ pos_lt p q.
Proof. unfold pos_ltb, pos_lt. rewrite orb_true_iff, andb_true_iff, !Nat.ltb_lt, Nat.eqb_eq. done. Qed.

(** Two prefixes of one text are at the same position only if they are equal,
    and the earlier position is the shorter prefix. *)
Lemma prefix_cases (a b a' b' : str) : a ++ b = a' ++ b' → (∃ m, a' = a ++ m ∧ b = m ++ b') ∨ (∃ m, m ≠ [] ∧ a = a' ++ m ∧ b' = m ++ b).
Proof.
  intros H. apply app_eq_inv in H as [(m & -> & ->)|(m & -> & ->)]; [|left; by exists m].
  destruct m as [|c m]; [left; exists []; by rewrite !app_nil_r|right; by exists (c :: m)].
Qed.

Lemma at_prefix_le a b a' b' : a ++ b = a' ++ b' → ¬ pos_lt (at_prefix a') (at_prefix a) → ∃ m, a' = a ++ m ∧ b = m ++ b'.
Proof.
  intros H Hl. destruct (prefix_cases _ _ _ _ H) as [?|(m & Hm & -> & ->)]; [done|].
  destruct Hl. unfold at_prefix. rewrite end_position_app. by apply end_position_lt.
Qed.

Lemma at_prefix_inj a b a' b' : a ++ b = a' ++ b' → at_prefix a = at_prefix a' → a = a' ∧ b = b'.
Proof.
  intros H Hp. destruct (at_prefix_le a b a' b' H) as (m & -> & ->); [rewrite Hp; apply pos_lt_irrefl|].
  destruct m as [|c m]; [by rewrite app_nil_r|]. exfalso. apply (pos_lt_irrefl (at_prefix a)). rewrite Hp at 2.
  unfold at_prefix. rewrite end_position_app. by apply end_position_lt.
Qed.

(** A position inside the lines is a prefix. *)
Definition valid (ls : list str) (p : Position) : Prop := ∃ l, ls !! line p = Some l ∧ (col p <= length l)%nat.

Lemma valid_cut s n l c : split s !! n = Some l → (c <= length l)%nat →
  ∃ pre post a, s = pre ++ post ∧ split pre = a ++ [take c l] ∧ length a = n.
Proof.
  revert n l c; induction s as [|z s IH]; intros n l c Hn Hc.
  - destruct n; simpl in Hn; [simplify_eq|by destruct n]. exists [], [], []. simpl in *. by replace c with 0%nat by lia.
  - destruct (decide (n = 0 ∧ c = 0)%nat) as [[-> ->]|Hz]; [by exists [], (z :: s), []|].
    destruct (Z.eqb_spec z NL) as [->|Hzn].
    + rewrite split_nl in Hn. destruct n as [|n]; simpl in Hn; [simplify_eq; simpl in Hc; lia|].
      destruct (IH _ _ _ Hn Hc) as (pre & post & a & -> & Hs & <-). exists (NL :: pre), post, ([] :: a). by rewrite split_nl, Hs.
    + destruct (split_head s) as (y & d & Hs). rewrite (split_cons _ _ _ _ Hzn Hs) in Hn. rewrite Hs in IH.
      destruct n as [|n]; simpl in Hn.
      * simplify_eq. destruct c as [|c]; [lia|]. simpl in Hc.
        destruct (IH 0%nat y c eq_refl ltac:(lia)) as (pre & post & a & -> & Hp & Ha). destruct a; [|done].
        exists (z :: pre), post, []. split; [done|]. split; [by apply split_cons|done].
      * destruct (IH (S n) l c Hn Hc) as (pre & post & a & -> & Hp & Ha). destruct a as [|w a]; [done|].
        exists (z :: pre), post, ((z :: w) :: a). split; [done|]. split; [by apply split_cons|done].
Qed.

Lemma valid_prefix s p : valid (split s) p → ∃ pre post, s = pre ++ post ∧ p = at_prefix pre.
Proof.
  intros (l & Hl & Hc). destruct (valid_cut _ _ _ _ Hl Hc) as (pre & post & a & -> & Hp & Ha).
  exists pre, post. split; [done|]. rewrite (at_split _ _ _ Hp), length_take, Ha, Nat.min_l by done. by destruct p.
Qed.

Lemma prefix_valid pre post : valid (split (pre ++ post)) (at_prefix pre).
Proof.
  destruct (split_last pre) as (a & x & Ha), (split_head post) as (y & d & Hd).
  rewrite (at_split _ _ _ Ha), split_app, Ha, Hd, glue_snoc. exists (x ++ y). simpl.
  by rewrite list_lookup_middle, length_app by done; split; [|lia].
Qed.

(** ** The two mutations on the text *)

Definition repr (b : Buffer) (s : str) : Prop := text <$> lines b = split s.

Lemma repr_unique b s s' : repr b s → repr b s' → s = s'.
Proof. unfold repr. intros H1 H2. rewrite <- (join_split s), <- (join_split s'). congruence. Qed.

Lemma repr_cut b a z d : text <$> lines b = a ++ z :: d →
  ∃ la l ld, lines b = la ++ l :: ld ∧ text <$> la = a ∧ text l = z ∧ text <$> ld = d.
Proof.
  intros H. apply fmap_app_inv in H as (la & l' & -> & H & ->). symmetry in H. apply fmap_cons_inv in H as (l & ld & -> & -> & ->).
  by exists la, l, ld.
Qed.

Lemma index_mid {A} (a : list A) x b i : i = length a → index (a ++ x :: b) i = Ret x.
Proof. intros ->. unfold index. by rewrite list_lookup_middle. Qed.

Lemma slice_mid {A} (x m y : list A) i j : i = length x → j = (length x + length m)%nat → slice (x ++ m ++ y) i j = Ret m.
Proof.
  intros -> ->. unfold slice. rewrite (proj2 (Nat.leb_le _ _)), (proj2 (Nat.leb_le _ _)) by (rewrite ?length_app; lia). simpl.
  by rewrite drop_app_length, Nat.add_comm, Nat.add_sub, take_app_length.
Qed.

Lemma slice_pre {A} (x y : list A) j : j = length x → slice (x ++ y) 0 j = Ret x.
Proof. intros ->. exact (slice_mid [] x y 0 (length x) eq_refl eq_refl). Qed.

Lemma slice_post {A} (x y : list A) i : i = length x → slice (x ++ y) i (length (x ++ y)) = Ret y.
Proof. intros ->. rewrite <- (app_nil_r y) at 1. apply slice_mid; [done|]. by rewrite length_app. Qed.

(** The lines [insert_text] builds. *)
Definition inserted (before after : str) (parts : list str) : list Line :=
  alter (λ l, mk_line (text l ++ after) (changed l)) (length parts - 1)%nat
    (imap (λ i part, mk_line (if (i =? 0)%nat then before ++ part else part) true) parts).

Lemma texts_alter after (n : nat) (ls : list Line) : text <$> alter (λ l, mk_line (text l ++ after) (changed l)) n ls = alter (λ t, t ++ after) n (text <$> ls).
Proof. by apply list_fmap_alter, Forall_true. Qed.

Lemma texts_parts before p ps :
  text <$> imap (λ i part, mk_line (if (i =? 0)%nat then before ++ part else part) true) (p :: ps) = (before ++ p) :: ps.
Proof. simpl. f_equal. rewrite fmap_imap. etrans; [exact (imap_const id ps)|apply list_fmap_id]. Qed.

Lemma inserted_glue before after parts : parts ≠ [] → text <$> inserted before after parts = glue [before] (glue parts [after]).
Proof.
  intros Hp. destruct (exists_last Hp) as (ps & x & ->). rewrite glue_snoc. unfold inserted. rewrite texts_alter.
  destruct ps as [|p ps].
  - change ([] ++ [x]) with [x]; rewrite texts_parts. simpl. by rewrite app_assoc.
  - change ((p :: ps) ++ [x]) with (p :: (ps ++ [x])). rewrite texts_parts. simpl. rewrite length_app. simpl.
    replace (length ps + 1 - 0)%nat with (S (length ps + 0)) by lia. exact (f_equal (cons (before ++ p)) (alter_app_r _ ps [x] 0)).
Qed.

(** [insert_text] at the end of a prefix inserts there. *)
Lemma insert_spec b pre post s : repr b (pre ++ post) →
  ∃ b', insert_text b (at_prefix pre) s = Ret (at_prefix (pre ++ s), b') ∧ repr b' (pre ++ s ++ post) ∧
    b' = set_lines b (lines b') (dirty b || negb (bool_decide (s = []))).
Proof.
  intros Hb. destruct s as [|c s].
  { exists b. rewrite app_nil_r, orb_false_r. by destruct b. }
  destruct (split_last pre) as (a & x & Ha), (split_head post) as (y & d & Hd).
  unfold repr in Hb. rewrite split_app, Ha, Hd, glue_snoc in Hb. apply repr_cut in Hb as (la & l & ld & Hl & <- & Hlt & <-).
  unfold insert_text. rewrite (at_split _ _ _ Ha), length_fmap. cbn [line col]. rewrite Hl, index_mid by done. cbn [mbind outcome_bind].
  rewrite Hlt, slice_pre by done. cbn [mbind outcome_bind]. rewrite slice_post by done. cbn [mbind outcome_bind]. rewrite take_app_length.
  replace (drop (S (length la)) (la ++ l :: ld)) with ld by (by rewrite drop_app_ge, Nat.sub_succ_l, Nat.sub_diag by lia).
  fold (inserted x y (split (c :: s))). eexists. split; [|split].
  - unfold at_prefix. rewrite end_position_app. fold (at_prefix pre). by rewrite (at_split _ _ _ Ha), length_fmap.
  - unfold repr. cbn [lines set_lines]. rewrite !fmap_app, inserted_glue by (apply (split_ne (c :: s))).
    rewrite !split_app, Ha, Hd, (glue_app_r (split (c :: s)) y (text <$> ld)) by (apply (split_ne (c :: s))).
    destruct (glue (split (c :: s)) [y]) as [|g gs] eqn:Hg; [|exact (eq_sym (glue_snoc (text <$> la) x g (gs ++ (text <$> ld))))].
    destruct (split_last (c :: s)) as (a' & x' & Ha'). rewrite Ha', glue_snoc in Hg. by destruct a'.
  - simpl. by rewrite orb_true_r.
Qed.

Lemma join_bind m0 ms m1 : join [NL] (m0 :: ms ++ [m1]) = m0 ++ (ms ≫= λ t, NL :: t) ++ NL :: m1.
Proof.
  revert m0; induction ms as [|m ms IH]; intros m0; [done|].
  transitivity (m0 ++ [NL] ++ join [NL] (m :: ms ++ [m1])); [done|]. rewrite IH. simpl. by rewrite <- app_assoc.
Qed.

Lemma bind_texts (ls : list Line) : (ls ≫= λ l, NL :: text l) = ((text <$> ls) ≫= λ t, NL :: t).
Proof. induction ls as [|l ls IH]; [done|]. exact (f_equal (λ r, (NL :: text l) ++ r) IH). Qed.

Lemma split_cases mid : split mid = [mid] ∨ ∃ m0 ms m1, split mid = (m0 :: ms) ++ [m1] ∧ mid = m0 ++ (ms ≫= λ t, NL :: t) ++ NL :: m1.
Proof.
  destruct (split_last mid) as (a & m1 & Ha). destruct a as [|m0 ms].
  - left. pose proof (join_split mid) as H. rewrite Ha in *. simpl in H. by subst.
  - right. exists m0, ms, m1. split; [done|]. rewrite <- (join_split mid), Ha. apply join_bind.
Qed.

(** How the lines around a stretch [mid] of the text look, and where it starts
    and ends. *)
Inductive stretch (b : Buffer) (pre mid post : str) : Prop :=
| one_line la l ld x y : lines b = la ++ l :: ld → text l = x ++ mid ++ y →
    at_prefix pre = mk_pos (length la) (length x) → at_prefix (pre ++ mid) = mk_pos (length la) (length x + length mid) →
    split (pre ++ post) = (text <$> la) ++ (x ++ y) :: (text <$> ld) → stretch b pre mid post
| more_lines la l lm l' ld x m0 m1 y : lines b = la ++ l :: lm ++ l' :: ld → text l = x ++ m0 → text l' = m1 ++ y →
    at_prefix pre = mk_pos (length la) (length x) → at_prefix (pre ++ mid) = mk_pos (length la + S (length lm)) (length m1) →
    mid = m0 ++ (lm ≫= λ l, NL :: text l) ++ NL :: m1 →
    split (pre ++ post) = (text <$> la) ++ (x ++ y) :: (text <$> ld) → stretch b pre mid post.

Lemma stretch_intro b pre mid post : repr b (pre ++ mid ++ post) → stretch b pre mid post.
Proof.
  unfold repr. intros Hb. destruct (split_last pre) as (a & x & Ha), (split_head post) as (y & d & Hd).
  rewrite !split_app, Ha, Hd in Hb. assert (Hs : split (pre ++ post) = a ++ (x ++ y) :: d) by (by rewrite split_app, Ha, Hd, glue_snoc).
  destruct (split_cases mid) as [Hm|(m0 & ms & m1 & Hm & Hj)]; rewrite Hm in Hb.
  - change (glue [mid] (y :: d)) with ((mid ++ y) :: d) in Hb. rewrite glue_snoc in Hb.
    apply repr_cut in Hb as (la & l & ld & Hl & <- & Ht & <-). eapply one_line; eauto.
    + by rewrite (at_split _ _ _ Ha), length_fmap.
    + unfold at_prefix. rewrite end_position_app. fold (at_prefix pre). rewrite (at_split _ _ _ Ha), (end_position_split _ mid [] mid Hm), length_fmap.
      by rewrite Nat.add_0_r.
  - rewrite glue_snoc, <- app_comm_cons, glue_snoc in Hb. apply repr_cut in Hb as (la & l & ld' & Hl & <- & Ht & Hb).
    apply fmap_app_inv in Hb as (lm & ld2 & -> & Hb & ->).
    symmetry in Hb. apply fmap_cons_inv in Hb as (l' & ld & Ht' & -> & ->).
    eapply more_lines; eauto.
    + by rewrite (at_split _ _ _ Ha), length_fmap.
    + unfold at_prefix. rewrite end_position_app. fold (at_prefix pre). rewrite (at_split _ _ _ Ha), (end_position_split _ mid _ _ Hm).
      simpl. by rewrite !length_fmap.
    + rewrite Hj at 1. by rewrite bind_texts.
Qed.

Lemma at_prefix_ne pre mid : mid ≠ [] → at_prefix pre ≠ at_prefix (pre ++ mid).
Proof. intros Hm E. apply (pos_lt_irrefl (at_prefix pre)). rewrite E at 2. unfold at_prefix. rewrite end_position_app. by apply end_position_lt. Qed.

(** [delete_range] over a stretch removes and returns it. *)
Lemma delete_spec b pre mid post : repr b (pre ++ mid ++ post) →
  ∃ b', delete_range b (at_prefix pre) (at_prefix (pre ++ mid)) = Ret (mid, b') ∧ repr b' (pre ++ post) ∧
    b' = set_lines b (lines b') (dirty b || negb (bool_decide (mid = []))).
Proof.
  intros Hb. unfold delete_range. destruct (decide (mid = [])) as [->|Hm].
  { rewrite app_nil_r, decide_True by done. exists b. rewrite orb_false_r. by destruct b. }
  rewrite decide_False by (by apply at_prefix_ne). rewrite bool_decide_false, orb_true_r by done.
  destruct (stretch_intro _ _ _ _ Hb) as [la l ld x y Hl Ht -> -> Hs|la l lm l' ld x m0 m1 y Hl Ht Ht' -> -> Hj Hs]; cbn [line col].
  - rewrite Hl, index_mid by done. cbn [mbind outcome_bind]. rewrite Ht, (slice_pre x _ (length x)) by done. cbn [mbind outcome_bind].
    rewrite Nat.eqb_refl, slice_mid by done. rewrite app_assoc, slice_post by (by rewrite length_app). cbn [mbind outcome_bind].
    rewrite take_app_length. replace (drop (S (length la)) (la ++ l :: ld)) with ld by (by rewrite drop_app_ge, Nat.sub_succ_l, Nat.sub_diag by lia).
    eexists. split; [done|]. split; [|done]. unfold repr. rewrite Hs. simpl. by rewrite fmap_app.
  - rewrite Hl, (index_mid la l _ (length la)) by done. cbn [mbind outcome_bind]. rewrite Ht, (slice_pre x m0 (length x)) by done. cbn [mbind outcome_bind].
    change (la ++ l :: lm ++ l' :: ld) with (la ++ (l :: lm) ++ l' :: ld). rewrite (app_assoc la).
    rewrite index_mid by (rewrite length_app; done). cbn [mbind outcome_bind]. rewrite Ht', (slice_post m1 y) by done. cbn [mbind outcome_bind].
    rewrite (proj2 (Nat.eqb_neq _ _)) by lia. rewrite (slice_post x m0) by done. cbn [mbind outcome_bind].
    rewrite <- (app_assoc la), <- (app_comm_cons lm). change (l :: lm ++ l' :: ld) with ([l] ++ lm ++ l' :: ld). rewrite (app_assoc la [l]).
    rewrite (slice_mid (la ++ [l]) lm) by (rewrite length_app; simpl; lia). cbn [mbind outcome_bind]. rewrite (slice_pre m1 y) by done. cbn [mbind outcome_bind].
    rewrite <- Hj. eexists. split; [done|]. split; [|done]. unfold repr. rewrite Hs. cbn [lines set_lines].
    rewrite <- app_assoc, take_app_length, !fmap_app. rewrite (app_assoc la), (app_assoc _ lm), drop_app_ge by (rewrite !length_app; simpl; lia).
    replace (S (length la + S (length lm)) - length ((la ++ [l]) ++ lm))%nat with 1%nat by (rewrite !length_app; simpl; lia). done.
Qed.

(** [text_between] reads a stretch. *)
Lemma text_between_spec b pre mid post : repr b (pre ++ mid ++ post) → text_between b (at_prefix pre) (at_prefix (pre ++ mid)) = Ret mid.
Proof.
  intros Hb. unfold text_between. destruct (decide (mid = [])) as [->|Hm]; [by rewrite app_nil_r, decide_True|].
  rewrite decide_False by (by apply at_prefix_ne).
  destruct (stretch_intro _ _ _ _ Hb) as [la l ld x y Hl Ht -> -> Hs|la l lm l' ld x m0 m1 y Hl Ht Ht' -> -> Hj Hs]; cbn [line col].
  - rewrite Hl, index_mid by done. cbn [mbind outcome_bind]. by rewrite Nat.eqb_refl, Ht, slice_mid.
  - rewrite Hl, (index_mid la l _ (length la)) by done. cbn [mbind outcome_bind]. rewrite (proj2 (Nat.eqb_neq _ _)) by lia.
    rewrite Ht, (slice_post x m0) by done. cbn [mbind outcome_bind].
    change (la ++ l :: lm ++ l' :: ld) with (la ++ [l] ++ lm ++ l' :: ld). rewrite (app_assoc la [l]).
    rewrite (slice_mid (la ++ [l]) lm) by (rewrite length_app; simpl; lia). cbn [mbind outcome_bind].
    rewrite app_assoc, index_mid by (rewrite !length_app; simpl; lia). cbn [mbind outcome_bind].
    rewrite Ht', slice_pre by done. cbn [mbind outcome_bind]. by rewrite <- Hj.
Qed.

(** A range that [delete_range] does not panic on is inside the document. *)
Lemma index_Ret {A} (l : list A) i x : index l i = Ret x → l !! i = Some x.
Proof. unfold index. by destruct (l !! i); intros; simplify_eq. Qed.

Lemma slice_Ret {A} (l : list A) i j r : slice l i j = Ret r → (i <= j <= length l)%nat.
Proof. unfold slice. intros. blia; done. Qed.

Lemma delete_valid b from to r : from ≠ to → delete_range b from to = Ret r →
  valid (text <$> lines b) from ∧ valid (text <$> lines b) to.
Proof.
  intros Hne. unfold delete_range. rewrite decide_False by done.
  destruct (index (lines b) (line from)) as [lf|] eqn:E1; [|done]. cbn [mbind outcome_bind].
  destruct (slice (text lf) 0 (col from)) as [before|] eqn:E2; [|done]. cbn [mbind outcome_bind].
  destruct (index (lines b) (line to)) as [lt|] eqn:E3; [|done]. cbn [mbind outcome_bind].
  destruct (slice (text lt) (col to) _) as [after|] eqn:E4; [|done]. intros _.
  apply index_Ret in E1, E3. apply slice_Ret in E2, E4. unfold valid. rewrite !list_lookup_fmap, E1, E3. split; eexists; (split; [done|lia]).
Qed.

(** ** Opening and saving *)

(** A newline not preceded by a carriage return. *)
Fixpoint bare_nl (prev_cr : bool) (s : str) : bool :=
  match s with [] => false | c :: s => ((c =? NL) && negb prev_cr) || bare_nl (c =? CR) s end.

Fixpoint crlf (s : str) : str := match s with [] => [] | c :: s => if c =? NL then CR :: NL :: crlf s else c :: crlf s end.

Lemma normalize_cons a b s : normalize (a :: b :: s) = if (a =? CR) && (b =? NL) then NL :: normalize s else a :: normalize (b :: s).
Proof. reflexivity. Qed.

Lemma normalize_lf s : contains_crlf s = false → normalize s = s.
Proof.
  induction s as [|a s IH]; intros H; [done|]. destruct s as [|b s]; [done|].
  change (((a =? CR) && (b =? NL)) || contains_crlf (b :: s) = false) in H. apply orb_false_iff in H as [H1 H2].
  by rewrite normalize_cons, H1, IH.
Qed.

Lemma crlf_normalize s : bare_nl false s = false → crlf (normalize s) = s.
Proof.
  induction s as [s IH] using (induction_ltof1 _ length). intros H. destruct s as [|a [|b s]]; [done| |].
  - cbn in H. rewrite andb_true_r, orb_false_r in H. cbn. by rewrite H.
  - cbn [bare_nl] in H. rewrite normalize_cons. rewrite !orb_false_iff in H. destruct H as (Ha & Hb & Hs). rewrite andb_true_r in Ha.
    destruct ((a =? CR) && (b =? NL)) eqn:Hc.
    + apply andb_prop in Hc as [->%Z.eqb_eq ->%Z.eqb_eq]. cbn [crlf]. rewrite IH; [done|unfold ltof; simpl; lia|done].
    + cbn [crlf]. rewrite Ha, IH; [done|unfold ltof; simpl; lia|]. cbn [bare_nl]. rewrite Hs, orb_false_r, andb_true_r.
      destruct (a =? CR); [done|]. by rewrite andb_true_r in Hb.
Qed.

Lemma join_crlf s : join [CR; NL] (split s) = crlf s.
Proof.
  induction s as [|c s IH]; [done|]. destruct (split_head s) as (y & d & Hs). cbn [split crlf].
  destruct (c =? NL); rewrite <- IH, Hs; [done|]. by destruct d.
Qed.

Lemma strip_ends s : strip_nl s ++ (if ends_with_nl s then [NL] else []) = s.
Proof.
  unfold strip_nl, ends_with_nl. destruct (last s) as [c|] eqn:Hl; [|by rewrite app_nil_r].
  apply last_Some in Hl as (s' & ->). destruct (Z.eqb_spec c NL) as [->|]; [|by rewrite app_nil_r].
  rewrite length_app, Nat.add_sub. by rewrite take_app_length.
Qed.

Lemma crlf_app a b : crlf (a ++ b) = crlf a ++ crlf b.
Proof. induction a as [|c a IH]; [done|]. cbn. destruct (c =? NL); by rewrite IH. Qed.

Lemma open_lines p raw : text <$> lines (open_text p raw) = split (strip_nl (normalize raw)).
Proof.
  unfold open_text. cbn [lines]. destruct (strip_nl (normalize raw)) as [|c s]; [done|].
  rewrite <- list_fmap_compose. apply list_fmap_id.
Qed.

Lemma open_body p raw : contains_crlf raw = false ∨ bare_nl false raw = false → body (open_text p raw) = raw.
Proof.
  intros H. unfold body. rewrite open_lines. unfold open_text. cbn [eol trailing_newline]. destruct (contains_crlf raw) eqn:Hc.
  - destruct H as [|H]; [done|]. rewrite join_crlf.
    transitivity (crlf (strip_nl (normalize raw) ++ (if ends_with_nl (normalize raw) then [NL] else [])));
      [|rewrite strip_ends; by apply crlf_normalize]. rewrite crlf_app. by destruct (ends_with_nl _); rewrite ?app_nil_r.
  - rewrite join_split, normalize_lf by done. transitivity (strip_nl raw ++ (if ends_with_nl raw then [NL] else [])); [|apply strip_ends].
    by destruct (ends_with_nl _); rewrite ?app_nil_r.
Qed.

(** A file whose lines all end the same way is written back as it was read:
    saving a file just opened rewrites the same text, whether its line ending
    is LF or CRLF and whether or not it ends with one. *)
Theorem save_open_roundtrip p raw : contains_crlf raw = false ∨ bare_nl false raw = false →
  save true (open_text p raw) = (Ok raw, open_text p raw).
Proof.
  intros H. pose proof (open_body p raw H) as Hb.
  unfold save. cbn [path open_text]. rewrite Hb. f_equal. unfold open_text, break_coalesce, set_saved, set_lines, set_log. cbn. f_equal.
  unfold unmark. destruct (strip_nl (normalize raw)) as [|c s]; [done|]. by rewrite <- list_fmap_compose.
Qed.

Lemma save_open_roundtrip_witness :
  contains_crlf [97; 13; 10; 98] = true ∧ save true (open_text [] [97; 13; 10; 98]) = (Ok [97; 13; 10; 98], open_text [] [97; 13; 10; 98]).
Proof. split; [reflexivity|]. apply save_open_roundtrip. right. reflexivity. Defined.

End EditBuffer.
