(* ===== verification/EditHistory.v ===== *)
(** * The editor's commands and its undo history (programs/edos-edit/src/main.rs)

    The commands a key or the pointer runs on the active buffer, and what the
    log of edits promises across any sequence of them: the document never
    drifts from the log, undoing everything gives the file back, and what the
    dirty flag means.  Where the editor goes wrong is shown by runs of it. *)

From S2P Require Import Prelude EditBuffer.

Module EditHistory.

Import EditBuffer.

(** ** Commands *)

Definition set_cursor (b : Buffer) (p : Position) : Buffer := break_coalesce (clamp_cursor (set_cur b p)).

Definition move_cursor_col (b : Buffer) (delta : Z) : Buffer :=
  let pos := cursor b in
  let pos :=
    if delta <? 0 then
      match col pos, line pos with
      | S c, l => mk_pos l c
      | O, S l => mk_pos l (line_chars b l)
      | O, O => pos
      end
    else if 0 <? delta then
      if (col pos <? line_chars b (line pos))%nat then mk_pos (line pos) (S (col pos))
      else if (S (line pos) <? length (lines b))%nat then mk_pos (S (line pos)) 0 else pos
    else pos in
  break_coalesce (set_cur b pos).

Definition move_cursor_line (b : Buffer) (delta : Z) : Buffer :=
  let last := Z.of_nat (length (lines b)) - 1 in
  let l := Z.max 0 (Z.min (Z.of_nat (line (cursor b)) + delta) (Z.max last 0)) in
  break_coalesce (clamp_cursor (set_cur b (mk_pos (Z.to_nat l) (col (cursor b))))).

Definition insert_str (b : Buffer) (s : str) : outcome Buffer :=
  '(replaced, b) ← replace_selection b s;
  match replaced with
  | Some end_ => Ret (set_cur b end_)
  | None =>
      let cb := cursor b in
      '(end_, b) ← insert_text b cb s;
      let b := set_cur (push_edit b (Insert cb s) cb) end_ in
      Ret (if decide (s = [NL]) then break_coalesce b else b)
  end.

Definition backspace (b : Buffer) : outcome Buffer :=
  '(deleted, b) ← delete_selection b;
  if deleted : bool then Ret b else
  let c := cursor b in
  let from := match col c, line c with
              | S k, l => Some (mk_pos l k)
              | O, S l => Some (mk_pos l (line_chars b l))
              | O, O => None
              end in
  match from with
  | None => Ret b
  | Some from =>
      '(removed, b) ← delete_range b from c;
      Ret (break_coalesce (set_cur (push_edit b (Delete from removed) c) from))
  end.

Definition delete_forward (b : Buffer) : outcome Buffer :=
  '(deleted, b) ← delete_selection b;
  if deleted : bool then Ret b else
  let c := cursor b in
  let last_line := (length (lines b) - 1)%nat in
  let to := if (col c <? line_chars b (line c))%nat then Some (mk_pos (line c) (S (col c)))
            else if (line c <? last_line)%nat then Some (mk_pos (S (line c)) 0) else None in
  match to with
  | None => Ret b
  | Some to =>
      '(removed, b) ← delete_range b c to;
      Ret (break_coalesce (push_edit b (Delete c removed) c))
  end.

Definition doc_end (b : Buffer) : Position := let l := (length (lines b) - 1)%nat in mk_pos l (line_chars b l).
Definition select_all (b : Buffer) : Buffer := let b := set_anchor b (Some origin) in set_cursor b (doc_end b).

(** [cut], the clipboard apart. *)
Definition cut (b : Buffer) : outcome Buffer :=
  t ← selected_text b;
  match t with None => Ret b | Some _ => '(_, b) ← delete_selection b; Ret b end.

(** The position under the pointer, from the line and column it points at. *)
Definition pane_position (b : Buffer) (l c : nat) : Position :=
  let l := Nat.min l (length (lines b) - 1) in mk_pos l (Nat.min c (line_chars b l)).

Definition submit_goto (b : Buffer) (n : nat) : Buffer :=
  match n with
  | O => b
  | S k => set_cursor (set_anchor b None) (mk_pos (Nat.min k (length (lines b) - 1)) 0)
  end.

Inductive Motion := Cols (delta : Z) | Lines (delta : Z) | DocStart | DocEnd | LineStart | LineEnd.

Definition move (b : Buffer) (m : Motion) : Buffer :=
  match m with
  | Cols d => move_cursor_col b d
  | Lines d => move_cursor_line b d
  | DocStart => set_cursor b origin
  | DocEnd => set_cursor b (doc_end b)
  | LineStart => set_cursor b (mk_pos (line (cursor b)) 0)
  | LineEnd => set_cursor b (mk_pos (line (cursor b)) (line_chars b (line (cursor b))))
  end.

Inductive Command :=
| Move (shift : bool) (m : Motion)
| InsertStr (s : str)
| Backspace | DeleteForward | Cut | SelectAll | Undo | Redo
| Save (written : bool)
| Click (l c : nat)
| Drag (l c : nat)
| GoTo (n : nat).

(** One command on the buffer and the file behind it. *)
Definition exec (c : Command) (st : Buffer * str) : outcome (Buffer * str) :=
  let '(b, disk) := st in
  let keep (r : outcome Buffer) : outcome (Buffer * str) := b ← r; Ret (b, disk) in
  match c with
  | Move shift m =>
      let b := if shift then set_anchor b (Some (default (cursor b) (anchor b))) else set_anchor b None in
      Ret (move b m, disk)
  | InsertStr s => keep (insert_str b s)
  | Backspace => keep (backspace b)
  | DeleteForward => keep (delete_forward b)
  | Cut => keep (cut b)
  | SelectAll => Ret (select_all b, disk)
  | Undo => keep ('(_, b) ← undo b; Ret b)
  | Redo => keep ('(_, b) ← redo b; Ret b)
  | Save written =>
      let '(r, b) := save written b in
      Ret (b, match r with Ok bytes => bytes | Err _ => disk end)
  | Click l c => let p := pane_position b l c in Ret (set_cursor (set_anchor b (Some p)) p, disk)
  | Drag l c => Ret (set_cursor b (pane_position b l c), disk)
  | GoTo n => Ret (submit_goto b n, disk)
  end.

Fixpoint run (cs : list Command) (st : Buffer * str) : outcome (Buffer * str) :=
  match cs with [] => Ret st | c :: cs => st ← exec c st; run cs st end.

Fixpoint undo_n (n : nat) (b : Buffer) : outcome Buffer :=
  match n with O => Ret b | S n => '(_, b) ← undo b; undo_n n b end.
Fixpoint redo_n (n : nat) (b : Buffer) : outcome Buffer :=
  match n with O => Ret b | S n => '(_, b) ← redo b; redo_n n b end.

(** ** Edits on the text *)

Inductive edit_ok : str → Edit → str → Prop :=
| ok_insert pre post t : edit_ok (pre ++ post) (Insert (at_prefix pre) t) (pre ++ t ++ post)
| ok_delete pre post t : edit_ok (pre ++ t ++ post) (Delete (at_prefix pre) t) (pre ++ post)
| ok_replace pre post old new : edit_ok (pre ++ old ++ post) (Replace (at_prefix pre) old new) (pre ++ new ++ post).

Lemma invert_ok s e s' : edit_ok s e s' → edit_ok s' (invert e) s.
Proof. destruct 1; constructor. Qed.

Lemma edit_fun s e s1 s2 : edit_ok s e s1 → edit_ok s e s2 → s1 = s2.
Proof.
  intros H1 H2. inversion H1; subst; inversion H2; subst;
    match goal with H : ?a ++ ?b = ?a' ++ ?b', E : at_prefix _ = at_prefix _ |- _ =>
      first [destruct (at_prefix_inj _ _ _ _ H E)|destruct (at_prefix_inj _ _ _ _ H (eq_sym E))] end; by simplify_list_eq.
Qed.

(** [apply] does to the document what the edit does to the text. *)
Lemma apply_spec b s e s' : repr b s → edit_ok s e s' →
  ∃ p b', apply b e = Ret (p, b') ∧ repr b' s' ∧ valid (split s') p ∧ b' = set_lines b (lines b') (dirty b').
Proof.
  intros Hb He. destruct He as [pre post t|pre post t|pre post old new]; unfold apply.
  - destruct (insert_spec b pre post t Hb) as (b' & -> & Hr & E). eexists _, b'. split; [done|]. split; [done|].
    split; [rewrite app_assoc; apply prefix_valid|by rewrite E].
  - destruct (delete_spec b pre t post Hb) as (b' & Hd & Hr & E). change (end_position (at_prefix pre) t) with (end_position (end_position origin pre) t).
    rewrite <- end_position_app. fold (at_prefix (pre ++ t)). rewrite Hd. eexists _, b'. split; [done|]. split; [done|].
    split; [apply prefix_valid|by rewrite E].
  - destruct (delete_spec b pre old post Hb) as (b1 & Hd & Hr & E). change (end_position (at_prefix pre) old) with (end_position (end_position origin pre) old).
    rewrite <- end_position_app. fold (at_prefix (pre ++ old)). rewrite Hd. cbn [mbind outcome_bind].
    destruct (insert_spec b1 pre post new Hr) as (b' & -> & Hr' & E'). eexists _, b'. split; [done|]. split; [done|].
    split; [rewrite app_assoc; apply prefix_valid|by rewrite E', E].
Qed.

(** The text a run of log entries leads to. *)
Inductive hist : str → list LogEntry → str → Prop :=
| hist_nil s : hist s [] s
| hist_cons s en s' l s'' : edit_ok s (edit en) s' → hist s' l s'' → hist s (en :: l) s''.

Lemma hist_app s l1 l2 s'' : hist s (l1 ++ l2) s'' ↔ ∃ s', hist s l1 s' ∧ hist s' l2 s''.
Proof.
  split.
  - revert s; induction l1 as [|en l1 IH]; intros s H; [exists s; split; [constructor|done]|].
    inversion H as [|? ? s1 ? ? He Hr]; subst. destruct (IH _ Hr) as (s' & ? & ?). exists s'. split; [by econstructor|done].
  - intros (s' & H1 & H2). induction H1; [done|]. simpl. econstructor; eauto.
Qed.

Lemma hist_one s en s' : hist s [en] s' ↔ edit_ok s (edit en) s'.
Proof. split; [intros H; inversion H as [|? ? ? ? ? He Hn]; subst; by inversion Hn; subst|intros; econstructor; [done|constructor]]. Qed.

Lemma hist_fun s l s1 s2 : hist s l s1 → hist s l s2 → s1 = s2.
Proof.
  intros H1; revert s2; induction H1 as [|s en s' l s'' He _ IH]; intros s2 H2; inversion H2; subst; [done|].
  apply IH. by rewrite (edit_fun _ _ _ _ He ltac:(eassumption)).
Qed.

(** ** The invariant *)

(** [s0] is the text the buffer was opened with, [s] its text now. *)
Record inv (s0 : str) (b : Buffer) (s : str) : Prop := {
  inv_repr : repr b s;
  inv_at : (log_at b <= length (log b))%nat;
  inv_past : hist s0 (take (log_at b) (log b)) s;
  inv_future : ∃ e, hist s (drop (log_at b) (log b)) e;
  inv_cursor : valid (split s) (cursor b) }.

(** The file is the text [d] the log leads to at the last save, and the buffer
    is not marked dirty only if its text is [d]. *)
Record saved (s0 : str) (b : Buffer) (s d : str) : Prop := {
  saved_at : (saved_log_at b <= length (log b))%nat;
  saved_text : hist s0 (take (saved_log_at b) (log b)) d;
  saved_clean : dirty b = false → s = d;
  saved_open : coalescing b = true → (saved_log_at b < log_at b)%nat }.

(** Everything but the cursor, the anchor and the coalescing flag. *)
Definition core (b : Buffer) := (path b, lines b, eol b, trailing_newline b, dirty b, log b, log_at b, saved_log_at b).

Lemma inv_core s0 b b' s : core b' = core b → inv s0 b s → valid (split s) (cursor b') → inv s0 b' s.
Proof. intros E [] Hc. injection E as ? E1 ? ? ? E2 E3 ?. split; unfold repr in *; by rewrite ?E1, ?E2, ?E3. Qed.

Lemma saved_core s0 b b' s d : core b' = core b → (coalescing b' = true → coalescing b = true) → saved s0 b s d → saved s0 b' s d.
Proof. intros E Hc []. injection E as ? E1 ? ? E4 E2 E3 E5. split; rewrite ?E2, ?E3, ?E4, ?E5; auto. Qed.

(** What a command does, seen from the text and the log; [ed] is whether it may
    record a new edit. *)
Inductive effect (ed : bool) (b : Buffer) (s : str) (b' : Buffer) (s' : str) : Prop :=
| quiet : s' = s → core b' = core b → (coalescing b' = true → coalescing b = true) → valid (split s) (cursor b') → effect ed b s b' s'
| edited b1 e cb : ed = true → edit_ok s e s' → repr b1 s' → b1 = set_lines b (lines b1) (dirty b1) →
    (dirty b1 = false → s' = s ∧ dirty b = false) → core b' = core (push_edit b1 e cb) →
    valid (split s') (cursor b') → effect ed b s b' s'
| landed_at b1 p : repr b1 s' → b' = landed b1 p → eol b1 = eol b → trailing_newline b1 = trailing_newline b → log b1 = log b →
    saved_log_at b1 = saved_log_at b →
    (log_at b1 <= length (log b))%nat →
    (∀ s0, hist s0 (take (log_at b) (log b)) s → hist s0 (take (log_at b1) (log b)) s') →
    (∀ e, hist s (drop (log_at b) (log b)) e → ∃ e', hist s' (drop (log_at b1) (log b)) e') → effect ed b s b' s'.

(** *** Recording an edit *)

Lemma push_core b e cb : ∃ l n, push_edit b e cb = set_log b l n true.
Proof. unfold push_edit. destruct (last _); [destruct (merges _ _ _)|]; eauto. Qed.

(** Either a new entry, or the last one extended; the text agrees. *)
Lemma push_cases s0 b e cb s s' : (log_at b <= length (log b))%nat → hist s0 (take (log_at b) (log b)) s → edit_ok s e s' →
  let b' := push_edit b e cb in
  hist s0 (log b') s' ∧ log_at b' = length (log b') ∧
  ((log_at b' = S (log_at b) ∧ log b' = take (log_at b) (log b) ++ [mk_entry e cb]) ∨
   (coalescing b = true ∧ log_at b' = log_at b ∧ ∃ en, log b' = take (log_at b - 1) (log b) ++ [en])).
Proof.
  intros Hat Hh He. unfold push_edit. set (l := take (log_at b) (log b)) in *.
  assert (Hl : length l = log_at b) by (unfold l; rewrite length_take; lia).
  assert (Hnew : hist s0 (l ++ [mk_entry e cb]) s') by (apply hist_app; exists s; split; [done|by apply hist_one]).
  assert (Hpush : log_at b = length l → S (log_at b) = length (l ++ [mk_entry e cb])) by (rewrite length_app; simpl; lia).
  destruct (last l) as [prev|] eqn:Hlast; [destruct (merges (coalescing b) e (Some prev)) eqn:Hm|]; cbn;
    [|split; [done|]; split; [by apply Hpush|by left]..].
  apply last_Some in Hlast as (l' & Hl'). apply andb_prop in Hm as [Hc Hm]. destruct e as [p t| |], prev as [[pa pt| |] cb']; try done.
  apply andb_prop in Hm as [_ Hp%bool_decide_eq_true].
  assert (Htl : take (length l - 1) l = l') by (rewrite Hl', length_app, Nat.add_sub; apply take_app_length).
  rewrite Htl. unfold append_to. cbn [edit cursor_before]. split; [|split; [rewrite Hl', length_app in Hl; rewrite length_app; simpl in *; lia|]].
  - rewrite Hl' in Hh. apply hist_app in Hh as (sm & Hh' & Hone%hist_one). apply hist_app. exists sm. split; [done|]. apply hist_one.
    cbn in *. inversion Hone as [pre post t'| |]; subst. inversion He as [pre' post' t' Heq| |]; subst.
    rewrite app_assoc in Heq. symmetry in Heq. destruct (at_prefix_inj (pre ++ pt) post pre' post' Heq) as [<- <-].
    + unfold at_prefix in *. by rewrite end_position_app.
    + rewrite <- app_assoc, (app_assoc pt). constructor.
  - right. split; [done|]. split; [done|]. eexists. f_equal. rewrite <- Htl, Hl. unfold l. rewrite take_take. f_equal. lia.
Qed.

(** *** Landing on an entry of the log *)

Lemma texts_unmark ls : text <$> unmark ls = text <$> ls.
Proof. unfold unmark. by rewrite <- list_fmap_compose. Qed.

Lemma clear_ribbon_texts b : text <$> lines (clear_ribbon_if_saved b) = text <$> lines b.
Proof. unfold clear_ribbon_if_saved. destruct (_ =? _)%nat; [apply texts_unmark|done]. Qed.

Lemma clear_ribbon_rest b : clear_ribbon_if_saved b = set_lines b (lines (clear_ribbon_if_saved b)) (dirty b).
Proof. unfold clear_ribbon_if_saved. destruct b. by destruct (_ =? _)%nat. Qed.

Lemma clamp_valid b : lines b ≠ [] → valid (text <$> lines b) (cursor (clamp_cursor b)).
Proof.
  intros Hne. unfold clamp_cursor, line_chars. cbn. set (n := Nat.min _ _).
  assert (n < length (lines b))%nat as [l Hl]%lookup_lt_is_Some by (destruct (lines b); [done|]; unfold n; simpl; lia).
  exists (text l). cbn. rewrite list_lookup_fmap, Hl. split; [done|]. lia.
Qed.

Lemma repr_ne b s : repr b s → lines b ≠ [].
Proof. intros H E. unfold repr in H. rewrite E in H. by apply (split_ne s). Qed.

Lemma landed_facts b p s : repr b s →
  let b' := landed b p in
  repr b' s ∧ valid (split s) (cursor b') ∧ log b' = log b ∧ log_at b' = log_at b ∧ saved_log_at b' = saved_log_at b ∧
  eol b' = eol b ∧ trailing_newline b' = trailing_newline b ∧ path b' = path b ∧
  dirty b' = negb (log_at b =? saved_log_at b)%nat ∧ coalescing b' = false.
Proof.
  intros Hr. unfold landed. rewrite clear_ribbon_rest. set (b1 := clamp_cursor (set_cur b p)).
  assert (Ht : text <$> lines (clear_ribbon_if_saved b1) = text <$> lines b) by exact (clear_ribbon_texts b1).
  split; [unfold repr; cbn; by rewrite Ht|]. split; [|done]. rewrite <- Hr. apply (clamp_valid (set_cur b p)). by eapply repr_ne.
Qed.

(** *** Commands preserve the invariant *)

Lemma effect_inv ed s0 b s b' s' : inv s0 b s → effect ed b s b' s' → inv s0 b' s'.
Proof.
  intros HI Hf. destruct Hf as [-> Hc _ Hv|b1 e cb _ He Hr E _ Hc Hv|b1 p Hr -> _ _ Hl _ Hle Hp Hf].
  - by eapply inv_core.
  - apply (inv_core _ (set_cur (push_edit b1 e cb) (cursor b'))); [by rewrite Hc| |done].
    pose proof (inv_past _ _ _ HI) as Hh. pose proof (inv_at _ _ _ HI) as Hat.
    assert (log b1 = log b ∧ log_at b1 = log_at b) as [El Ea] by (by rewrite E).
    rewrite <- El, <- Ea in *. destruct (push_cases s0 b1 e cb s s' Hat Hh He) as (H1 & H2 & _).
    split; cbn; [|lia|rewrite H2, firstn_all; done|rewrite H2, drop_all; eexists; constructor|done].
    destruct (push_core b1 e cb) as (l & n & ->). done.
  - destruct (landed_facts b1 p s' Hr) as (H1 & H2 & H3 & H4 & _). split; [done| | | |done]; rewrite ?H4, H3, Hl; [done|apply Hp, HI|].
    destruct (inv_future _ _ _ HI) as [e He]. by eapply Hf.
Qed.

Lemma effect_kept ed b s b' s' : effect ed b s b' s' → eol b' = eol b ∧ trailing_newline b' = trailing_newline b ∧ saved_log_at b' = saved_log_at b.
Proof.
  destruct 1 as [_ Hc _ _|b1 e cb _ _ _ E _ Hc _|b1 p Hr -> He Ht _ Hs _ _ _].
  - by injection Hc as _ _ -> -> _ _ _ ->.
  - destruct (push_core b1 e cb) as (l & n & Hp). rewrite Hp in Hc. injection Hc as _ _ -> -> _ _ _ ->. by rewrite E.
  - destruct (landed_facts b1 p s' Hr) as (_ & _ & _ & _ & -> & -> & -> & _). done.
Qed.

Lemma effect_saved ed s0 b s b' s' d : inv s0 b s → saved s0 b s d → (ed = true → saved_log_at b <= log_at b)%nat →
  effect ed b s b' s' → saved s0 b' s' d.
Proof.
  intros HI HS Hed Hf. pose proof (effect_inv _ _ _ _ _ _ HI Hf) as HI'. destruct Hf as [-> Hc Hco _|b1 e cb Hedt He Hr E Hd Hc _|b1 p Hr Hb' _ _ Hl Hsv Hle Hp Hf].
  - by eapply saved_core.
  - specialize (Hed Hedt). pose proof (inv_past _ _ _ HI) as Hh. pose proof (inv_at _ _ _ HI) as Hat.
    assert (log b1 = log b ∧ log_at b1 = log_at b ∧ saved_log_at b1 = saved_log_at b ∧ coalescing b1 = coalescing b) as (El & Ea & Es & Eco) by (by rewrite E).
    rewrite <- El, <- Ea, <- Es in *. apply (saved_core _ (push_edit b1 e cb)); [done|by destruct (push_core b1 e cb) as (? & ? & ->)|].
    destruct (push_cases s0 b1 e cb s s' Hat Hh He) as (H1 & H2 & H3).
    assert (Hsd : saved_log_at (push_edit b1 e cb) = saved_log_at b1 ∧ dirty (push_edit b1 e cb) = dirty b1) by (by destruct (push_core b1 e cb) as (? & ? & ->)).
    destruct Hsd as [Hsa Hdd]. destruct HS as [S1 S2 S3 S4]. rewrite <- ?El, <- ?Ea, <- ?Es, <- ?Eco in *.
    assert (Hk : ∃ k, (saved_log_at b1 <= k)%nat ∧ ∃ en, log (push_edit b1 e cb) = take k (log b1) ++ [en] ∧ (k <= length (log b1))%nat).
    { destruct H3 as [[_ ->]|(Hco & Hla & en & ->)]; [exists (log_at b1); eauto|]. exists (log_at b1 - 1)%nat. specialize (S4 Hco). split; [lia|]. exists en. split; [done|lia]. }
    destruct Hk as (k & Hk & en & Hlog & Hkl).
    split; rewrite ?Hsa, ?Hdd, ?H2, ?Hlog, ?length_app, ?length_take; simpl; [lia| |intros Hdf; destruct (Hd Hdf) as [-> ?]; auto|intros _; lia].
    rewrite take_app_le, take_take, Nat.min_l by (rewrite ?length_take; lia). done.
  - destruct (landed_facts b1 p s' Hr) as (_ & _ & H3 & H4 & H5 & _ & _ & _ & H9 & H10). destruct HS as [S1 S2 S3 S4]. subst b'.
    split; rewrite ?H3, ?H5, ?Hl, ?Hsv, ?H10; [done|done| |done].
    rewrite H9, Hsv. intros Hn%negb_false_iff%Nat.eqb_eq. eapply hist_fun; [|exact S2]. pose proof (inv_past _ _ _ HI') as Hpast. by rewrite H3, H4, Hl, Hn in Hpast.
Qed.

(** ** Undo and redo *)

Lemma undo_effect s0 b s : inv s0 b s → ∃ r b' s', undo b = Ret (r, b') ∧ effect false b s b' s' ∧ log b' = log b ∧ log_at b' = (log_at b - 1)%nat.
Proof.
  intros HI. unfold undo. destruct (log_at b) as [|n] eqn:Hn.
  { exists false, b, s. split; [done|]. split; [by constructor; [..|apply HI]|]. by rewrite Hn. }
  pose proof (inv_at _ _ _ HI) as Hat. pose proof (inv_past _ _ _ HI) as Hp. rewrite Hn in Hat, Hp.
  destruct (lookup_lt_is_Some_2 (log b) n) as [en Hen]; [lia|]. rewrite (take_S_r _ _ _ Hen) in Hp.
  apply hist_app in Hp as (sm & Hp & He%hist_one). cbn [log set_log]. unfold index. rewrite Hen. cbn [mbind outcome_bind].
  set (b0 := set_log b (log b) n (coalescing b)).
  destruct (apply_spec b0 s (invert (edit en)) sm) as (p & b1 & -> & Hr & _ & E); [apply HI|by apply invert_ok|].
  cbn [mbind outcome_bind]. eexists _, _, sm. split; [done|].
  assert (log b1 = log b ∧ log_at b1 = n) as [El Ea] by (by rewrite E).
  destruct (landed_facts b1 (cursor_before en) sm Hr) as (_ & _ & H3 & H4 & _). rewrite H3, H4, El, Ea. split; [|split; [done|lia]].
  eapply (landed_at _ _ _ _ _ b1); [done|done|by rewrite E..| | |]; rewrite ?Ea; [lia| |].
  - intros s1. rewrite Hn, (take_S_r _ _ _ Hen). intros (sm' & Hh & He'%hist_one)%hist_app.
    by rewrite (edit_fun _ _ _ _ (invert_ok _ _ _ He) (invert_ok _ _ _ He')).
  - intros e He2. rewrite Hn in He2. exists e. rewrite (drop_S _ _ _ Hen). econstructor; eauto.
Qed.

Lemma redo_effect s0 b s : inv s0 b s → ∃ r b' s', redo b = Ret (r, b') ∧ effect false b s b' s' ∧ log b' = log b ∧ log_at b' = Nat.min (S (log_at b)) (length (log b)).
Proof.
  intros HI. unfold redo. pose proof (inv_at _ _ _ HI) as Hat. destruct (Nat.leb_spec (length (log b)) (log_at b)) as [Hl|Hl].
  { exists false, b, s. split; [done|]. split; [by constructor; [..|apply HI]|]. split; [done|lia]. }
  destruct (lookup_lt_is_Some_2 _ _ Hl) as [en Hen]. destruct (inv_future _ _ _ HI) as [e Hf]. rewrite (drop_S _ _ _ Hen) in Hf.
  inversion Hf as [|? ? s' ? ? He Hf']; subst. unfold index. rewrite Hen. cbn [mbind outcome_bind].
  destruct (apply_spec b s (edit en) s') as (p & b1 & -> & Hr & _ & E); [apply HI|done|]. cbn [mbind outcome_bind].
  eexists _, _, s'. split; [done|]. set (b2 := set_log b1 _ _ _).
  assert (log b2 = log b ∧ log_at b2 = S (log_at b)) as [El Ea] by (by unfold b2; cbn; rewrite E).
  destruct (landed_facts b2 p s' Hr) as (_ & _ & H3 & H4 & _). rewrite H3, H4, El, Ea. split; [|split; [done|lia]].
  eapply (landed_at _ _ _ _ _ b2); [done|done|by unfold b2; cbn; rewrite E..| | |]; rewrite ?Ea; [lia| |].
  - intros s1 Hh. rewrite (take_S_r _ _ _ Hen). apply hist_app. exists s. split; [done|by apply hist_one].
  - intros e' He2. rewrite (drop_S _ _ _ Hen) in He2. inversion He2 as [|? ? s1 ? ? He' Hf2]; subst. exists e'. by rewrite (edit_fun _ _ _ _ He He').
Qed.

(** ** Editing commands *)

Definition stale (b : Buffer) : Prop := ∃ a, anchor b = Some a ∧ ¬ valid (text <$> lines b) a.

Lemma between s p q : valid (split s) p → valid (split s) q → ¬ pos_lt q p → p ≠ q →
  ∃ pre mid post, s = pre ++ mid ++ post ∧ mid ≠ [] ∧ p = at_prefix pre ∧ q = at_prefix (pre ++ mid).
Proof.
  intros Hp Hq Hl Hne. destruct (valid_prefix _ _ Hp) as (a & b & -> & ->), (valid_prefix _ _ Hq) as (a' & b' & Hs & ->).
  destruct (at_prefix_le a b a' b' Hs Hl) as (m & -> & ->). exists a, m, b'. split; [done|]. split; [|done].
  intros ->. by rewrite app_nil_r in Hne.
Qed.

Lemma selection_order b from to : selection_range b = Some (from, to) → from ≠ to ∧ ¬ pos_lt to from ∧
  ∃ a, anchor b = Some a ∧ (from = a ∧ to = cursor b ∨ from = cursor b ∧ to = a).
Proof.
  unfold selection_range. destruct (anchor b) as [a|]; [|done]. destruct (decide (a = cursor b)) as [|Hne]; [done|].
  destruct (pos_ltb a (cursor b)) eqn:Hlt; intros; simplify_eq.
  - apply pos_ltb_lt in Hlt. split; [done|]. split; [unfold pos_lt in *; lia|eauto].
  - split; [done|]. split; [|eauto]. intros H%pos_ltb_lt. congruence.
Qed.

(** Deleting the selection: the range is a stretch of the text, unless the
    anchor is outside it. *)
Lemma selection_delete b s from to : repr b s → valid (split s) (cursor b) → selection_range b = Some (from, to) →
  match delete_range b from to with
  | Ret (removed, b1) => ∃ pre post, s = pre ++ removed ++ post ∧ removed ≠ [] ∧ from = at_prefix pre ∧ repr b1 (pre ++ post) ∧ b1 = set_lines b (lines b1) true
  | Panic => stale b
  end.
Proof.
  intros Hr Hc Hs. destruct (selection_order _ _ _ Hs) as (Hne & Hle & a & Ha & Hft).
  assert (Hok : valid (split s) from → valid (split s) to → ∃ pre mid post b1, s = pre ++ mid ++ post ∧ mid ≠ [] ∧ from = at_prefix pre ∧
    delete_range b from to = Ret (mid, b1) ∧ repr b1 (pre ++ post) ∧ b1 = set_lines b (lines b1) true).
  { intros Hf Ht. destruct (between _ _ _ Hf Ht Hle Hne) as (pre & mid & post & -> & Hm & -> & ->).
    destruct (delete_spec b pre mid post Hr) as (b1 & -> & Hr1 & E). exists pre, mid, post, b1.
    rewrite bool_decide_false, orb_true_r in E by done. done. }
  destruct (delete_range b from to) as [[removed b1]|] eqn:Hd.
  - destruct (delete_valid _ _ _ _ Hne Hd) as [Hf Ht]. rewrite Hr in Hf, Ht. destruct (Hok Hf Ht) as (pre & mid & post & b2 & -> & Hm & -> & E & Hr1 & E1).
    injection E as -> ->. exists pre, post. done.
  - exists a. split; [done|]. rewrite Hr. intros Hv. destruct Hok as (? & ? & ? & ? & _ & _ & _ & E & _); [by destruct Hft as [[-> ->]|[-> ->]]..|done].
Qed.

(** A deletion recorded in the log is an edit. *)
Lemma delete_effect b pre mid post b1 b' cb : repr b1 (pre ++ post) → b1 = set_lines b (lines b1) true →
  core b' = core (push_edit b1 (Delete (at_prefix pre) mid) cb) → cursor b' = at_prefix pre →
  effect true b (pre ++ mid ++ post) b' (pre ++ post).
Proof.
  intros Hr E Hc Hcu. eapply (edited _ _ _ _ _ b1); [done|constructor|done| | |done|rewrite Hcu; apply prefix_valid]; by rewrite E.
Qed.

Lemma delete_selection_effect s0 b s : inv s0 b s →
  match delete_selection b with
  | Ret (true, b') => ∃ s', effect true b s b' s'
  | Ret (false, b') => b' = b
  | Panic => stale b
  end.
Proof.
  intros HI. unfold delete_selection. destruct (selection_range b) as [[from to]|] eqn:Hs; [|done].
  pose proof (selection_delete b s from to (inv_repr _ _ _ HI) (inv_cursor _ _ _ HI) Hs) as Hd.
  destruct (delete_range b from to) as [[removed b1]|]; [|done]. destruct Hd as (pre & post & -> & Hm & -> & Hr & E). cbn [mbind outcome_bind].
  exists (pre ++ post). by eapply delete_effect.
Qed.

Lemma valid_line b s l c : repr b s → valid (split s) (mk_pos l c) ↔ (l < length (lines b) ∧ c <= line_chars b l)%nat.
Proof.
  intros Hr. unfold valid, line_chars. rewrite <- Hr. cbn [line col]. rewrite list_lookup_fmap.
  destruct (lines b !! l) as [x|] eqn:Hl; simpl.
  - apply lookup_lt_Some in Hl. split; [intros (t & ? & ?); simplify_eq; lia|intros [_ ?]; eauto].
  - apply lookup_ge_None in Hl. split; [intros (t & ? & _); done|lia].
Qed.

(** A deletion between two valid positions, recorded. *)
Lemma delete_between s0 b s p q b' : inv s0 b s → valid (split s) p → valid (split s) q → pos_lt p q →
  (∀ removed b1, cursor b1 = cursor b → core (b' removed b1) = core (push_edit b1 (Delete p removed) (cursor b)) ∧ cursor (b' removed b1) = p) →
  match ('(removed, b1) ← delete_range b p q; Ret (b' removed b1)) with
  | Ret r => ∃ s', effect true b s r s'
  | Panic => stale b
  end.
Proof.
  intros HI Hp Hq Hlt Hb'.
  destruct (between s p q Hp Hq) as (pre & mid & post & -> & Hm & -> & ->); [unfold pos_lt in *; lia|intros ->; by apply (pos_lt_irrefl q)|].
  destruct (delete_spec b pre mid post (inv_repr _ _ _ HI)) as (b1 & -> & Hr & E). rewrite bool_decide_false, orb_true_r in E by done.
  cbn [mbind outcome_bind]. destruct (Hb' mid b1) as [Hc Hcu]; [by rewrite E|]. exists (pre ++ post). by eapply delete_effect.
Qed.

Lemma push_cursor b e cb : cursor (push_edit b e cb) = cursor b.
Proof. by destruct (push_core b e cb) as (l & n & ->). Qed.

Lemma backspace_effect s0 b s : inv s0 b s →
  match backspace b with Ret b' => ∃ s', effect true b s b' s' | Panic => stale b end.
Proof.
  intros HI. unfold backspace. pose proof (delete_selection_effect _ _ _ HI) as Hd.
  destruct (delete_selection b) as [[[|] b1]|]; [exact Hd| |exact Hd]. subst b1. cbn [mbind outcome_bind].
  pose proof (inv_cursor _ _ _ HI) as Hc. pose proof (inv_repr _ _ _ HI) as Hr. destruct (cursor b) as [l c] eqn:Hcu. cbn [line col].
  pose proof (proj1 (valid_line b s l c Hr) Hc) as [Hl Hlc].
  destruct c as [|k]; [destruct l as [|l]|].
  - exists s. apply quiet; [done..|by rewrite Hcu].
  - apply (delete_between s0); [done|apply (valid_line b s _ _ Hr); lia|done|left; simpl; lia|by rewrite Hcu].
  - apply (delete_between s0); [done|apply (valid_line b s _ _ Hr); lia|done|right; simpl; lia|by rewrite Hcu].
Qed.

Lemma delete_forward_effect s0 b s : inv s0 b s →
  match delete_forward b with Ret b' => ∃ s', effect true b s b' s' | Panic => stale b end.
Proof.
  intros HI. unfold delete_forward. pose proof (delete_selection_effect _ _ _ HI) as Hd.
  destruct (delete_selection b) as [[[|] b1]|]; [exact Hd| |exact Hd]. subst b1. cbn [mbind outcome_bind].
  pose proof (inv_cursor _ _ _ HI) as Hc. pose proof (inv_repr _ _ _ HI) as Hr. destruct (cursor b) as [l c] eqn:Hcu. cbn [line col].
  pose proof (proj1 (valid_line b s l c Hr) Hc) as [Hl Hlc].
  destruct (Nat.ltb_spec c (line_chars b l)) as [Hlt|Hge]; [|destruct (Nat.ltb_spec l (length (lines b) - 1)) as [Hlt|Hge']].
  - apply (delete_between s0); [done|done|apply (valid_line b s _ _ Hr); lia|right; simpl; lia|].
    intros removed b1 E. cbn. by rewrite push_cursor, E, Hcu.
  - apply (delete_between s0); [done|done|apply (valid_line b s _ _ Hr); lia|left; simpl; lia|].
    intros removed b1 E. cbn. by rewrite push_cursor, E, Hcu.
  - exists s. apply quiet; [done..|apply HI].
Qed.

Lemma insert_str_effect s0 b s t : inv s0 b s →
  match insert_str b t with Ret b' => ∃ s', effect true b s b' s' | Panic => stale b end.
Proof.
  intros HI. unfold insert_str, replace_selection. pose proof (inv_cursor _ _ _ HI) as Hc. pose proof (inv_repr _ _ _ HI) as Hr.
  destruct (selection_range b) as [[from to]|] eqn:Hs; cbn [mbind outcome_bind].
  - pose proof (selection_delete b s from to Hr Hc Hs) as Hd.
    destruct (delete_range b from to) as [[removed b1]|]; [|done]. destruct Hd as (pre & post & -> & Hm & -> & Hr1 & E). cbn [mbind outcome_bind].
    destruct (insert_spec b1 pre post t Hr1) as (b2 & -> & Hr2 & E2). cbn [mbind outcome_bind]. exists (pre ++ t ++ post).
    apply (edited _ _ _ _ _ b2 (Replace (at_prefix pre) removed t) (cursor b)); [done|constructor|done|by rewrite E2, E|by rewrite E2, E| |].
    + by destruct (push_core b2 (Replace (at_prefix pre) removed t) (cursor b)) as (lg & n & ->).
    + cbn. rewrite app_assoc. apply prefix_valid.
  - destruct (valid_prefix _ _ Hc) as (pre & post & -> & Hp). rewrite Hp.
    destruct (insert_spec b pre post t Hr) as (b1 & -> & Hr1 & E). cbn [mbind outcome_bind]. exists (pre ++ t ++ post).
    set (b2 := set_cur _ _).
    apply (edited _ _ _ _ _ b1 (Insert (at_prefix pre) t) (at_prefix pre)); [done|constructor|done|by rewrite E| | |].
    + rewrite E. cbn. intros [Hd Ht]%orb_false_iff. apply negb_false_iff, bool_decide_eq_true in Ht. by subst.
    + by destruct (decide (t = [NL])).
    + assert (Hcu : cursor (if decide (t = [NL]) then break_coalesce b2 else b2) = at_prefix (pre ++ t)) by (by destruct (decide _)).
      rewrite Hcu, app_assoc. apply prefix_valid.
Qed.

Lemma cut_effect s0 b s : inv s0 b s →
  match cut b with Ret b' => ∃ s', effect true b s b' s' | Panic => stale b end.
Proof.
  intros HI. unfold cut, selected_text. pose proof (delete_selection_effect _ _ _ HI) as Hd.
  assert (Hq : ∃ s', effect true b s b s') by (exists s; apply quiet; [done..|apply HI]).
  destruct (selection_range b) as [[from to]|] eqn:Hs; [|done].
  destruct (text_between b from to) as [t|] eqn:Ht; cbn [mbind outcome_bind].
  - destruct (delete_selection b) as [[[|] b1]|]; [done|by subst|done].
  - destruct (selection_order _ _ _ Hs) as (Hne & Hle & a & Ha & Hft). exists a. split; [done|]. pose proof (inv_repr _ _ _ HI) as Hr. rewrite Hr. intros Hv.
    pose proof (inv_cursor _ _ _ HI) as Hc.
    destruct (between s from to) as (pre & mid & post & -> & Hm & -> & ->); [by destruct Hft as [[-> ->]|[-> ->]]..|done|done|].
    by rewrite (text_between_spec b pre mid post Hr) in Ht.
Qed.

(** ** Every command *)

Definition is_edit (c : Command) : bool :=
  match c with InsertStr _ | Backspace | DeleteForward | Cut => true | _ => false end.

Lemma set_cursor_quiet s0 b b1 s p : inv s0 b s → core b1 = core b → effect false b s (set_cursor b1 p) s.
Proof.
  intros HI Hc. apply quiet; [done|done|done|]. injection Hc as _ El _ _ _ _ _ _. pose proof (inv_repr _ _ _ HI) as Hr. rewrite <- Hr, <- El.
  apply (clamp_valid (set_cur b1 p)). cbn. rewrite El. by eapply repr_ne.
Qed.

Lemma move_quiet s0 b b1 s m : inv s0 b s → core b1 = core b → cursor b1 = cursor b → effect false b s (move b1 m) s.
Proof.
  intros HI Hc Hcu. destruct m; try by eapply set_cursor_quiet.
  - apply quiet; [done|done|done|]. injection Hc as _ El _ _ _ _ _ _.
    pose proof (inv_cursor _ _ _ HI) as Hv. pose proof (inv_repr _ _ _ HI) as Hr. rewrite <- Hcu in Hv.
    assert (Hr1 : repr b1 s) by (unfold repr in *; by rewrite El). cbn [cursor move move_cursor_col break_coalesce set_cur set_log]. destruct (cursor b1) as [l c]. cbn [line col].
    pose proof (proj1 (valid_line b1 s l c Hr1) Hv) as [? ?].
    destruct (delta <? 0); [|destruct (0 <? delta); [|done]].
    + destruct c; [destruct l|]; [done|apply (valid_line b1 s _ _ Hr1); lia..].
    + destruct (Nat.ltb_spec c (line_chars b1 l)); [apply (valid_line b1 s _ _ Hr1); lia|].
      destruct (Nat.ltb_spec (S l) (length (lines b1))); [apply (valid_line b1 s _ _ Hr1); lia|done].
Qed.

(** A saved buffer: nothing but the flags and the mark of the save changes. *)
Lemma save_inv s0 b s w : inv s0 b s → inv s0 (save w b).2 s.
Proof.
  intros HI. unfold save. destruct (path b); [destruct w|]; [|done..]. destruct HI. split; try done. unfold repr. cbn. by rewrite texts_unmark.
Qed.

Lemma exec_effect s0 b s c disk : inv s0 b s → (∀ w, c ≠ Save w) →
  match exec c (b, disk) with
  | Ret (b', disk') => disk' = disk ∧ ∃ s', effect (is_edit c) b s b' s'
  | Panic => is_edit c = true ∧ stale b
  end.
Proof.
  intros HI Hs. destruct c as [sh m|t| | | | | | |w|l c|l c|n]; cbn [exec is_edit].
  - split; [done|]. exists s. by destruct sh; apply (move_quiet s0).
  - pose proof (insert_str_effect s0 b s t HI) as H. by destruct (insert_str b t).
  - pose proof (backspace_effect s0 b s HI) as H. by destruct (backspace b).
  - pose proof (delete_forward_effect s0 b s HI) as H. by destruct (delete_forward b).
  - pose proof (cut_effect s0 b s HI) as H. by destruct (cut b).
  - split; [done|]. exists s. by apply (set_cursor_quiet s0).
  - destruct (undo_effect s0 b s HI) as (r & b' & s' & -> & He & _). cbn. eauto.
  - destruct (redo_effect s0 b s HI) as (r & b' & s' & -> & He & _). cbn. eauto.
  - by destruct (Hs w).
  - split; [done|]. exists s. by apply (set_cursor_quiet s0).
  - split; [done|]. exists s. by apply (set_cursor_quiet s0).
  - split; [done|]. exists s. destruct n; [apply quiet; [done..|apply HI]|]. by apply (set_cursor_quiet s0).
Qed.

Lemma save_or c : (∃ w, c = Save w) ∨ ∀ w, c ≠ Save w.
Proof. destruct c; eauto. Qed.

Lemma exec_inv s0 b s c disk b' disk' : inv s0 b s → exec c (b, disk) = Ret (b', disk') → ∃ s', inv s0 b' s'.
Proof.
  intros HI He. destruct (save_or c) as [[w ->]|Hn].
  - cbn in He. pose proof (save_inv s0 b s w HI) as Hs. destruct (save w b) as [r b1]. simplify_eq. eauto.
  - pose proof (exec_effect s0 b s c disk HI Hn) as H. rewrite He in H. destruct H as (_ & s' & Hf). exists s'. by eapply effect_inv.
Qed.

Lemma run_inv s0 cs b s disk b' disk' : inv s0 b s → run cs (b, disk) = Ret (b', disk') → ∃ s', inv s0 b' s'.
Proof.
  revert b s disk; induction cs as [|c cs IH]; intros b s disk HI Hr; cbn [run mbind outcome_bind] in Hr; [simplify_eq; eauto|].
  destruct (exec c (b, disk)) as [[b1 disk1]|] eqn:He; [|done]. destruct (exec_inv _ _ _ _ _ _ _ HI He) as (s1 & HI1). by eapply IH.
Qed.

Lemma open_inv p raw : inv (strip_nl (normalize raw)) (open_text p raw) (strip_nl (normalize raw)).
Proof.
  split; [apply open_lines|done|constructor|eexists; constructor|]. exact (prefix_valid [] (strip_nl (normalize raw))).
Qed.

Lemma undo_all s0 b s n : inv s0 b s → log_at b = n → ∃ b', undo_n n b = Ret b' ∧ inv s0 b' s0 ∧ log b' = log b ∧ log_at b' = 0%nat.
Proof.
  revert b s; induction n as [|n IH]; intros b s HI Hn.
  - exists b. split; [done|]. assert (s = s0) as ->; [|done]. pose proof (inv_past _ _ _ HI) as H. rewrite Hn in H. by inversion H.
  - destruct (undo_effect _ _ _ HI) as (r & b1 & s1 & Hu & He & Hl & Ha). cbn [undo_n]. rewrite Hu. cbn [mbind outcome_bind].
    destruct (IH b1 s1) as (b' & -> & HI' & Hl' & Ha'); [by eapply effect_inv|lia|]. exists b'. split; [done|]. by rewrite Hl', Hl.
Qed.

Lemma redo_all s0 b s n : inv s0 b s → (log_at b + n <= length (log b))%nat →
  ∃ b' s', redo_n n b = Ret b' ∧ inv s0 b' s' ∧ log b' = log b ∧ log_at b' = (log_at b + n)%nat.
Proof.
  revert b s; induction n as [|n IH]; intros b s HI Hn.
  - exists b, s. split; [done|]. split; [done|]. split; [done|lia].
  - destruct (redo_effect _ _ _ HI) as (r & b1 & s1 & Hu & He & Hl & Ha). cbn [redo_n]. rewrite Hu. cbn [mbind outcome_bind].
    destruct (IH b1 s1) as (b' & s' & -> & HI' & Hl' & Ha'); [by eapply effect_inv|rewrite Hl; lia|]. exists b', s'. split; [done|]. split; [done|].
    rewrite Hl', Hl, Ha'. split; [done|lia].
Qed.

(** ** The history *)

(** C17 The log is the document's history: after any commands on an opened file
    that do not panic, undoing every entry gives exactly the lines that were
    opened, and redoing them gives back exactly the lines there were, whatever
    was typed, deleted, replaced, coalesced, undone, redone or saved. *)
Theorem undo_redo_restore p raw cs b disk : run cs (open_text p raw, raw) = Ret (b, disk) →
  ∃ b1 b2, undo_n (log_at b) b = Ret b1 ∧ text <$> lines b1 = text <$> lines (open_text p raw) ∧
    redo_n (log_at b) b1 = Ret b2 ∧ text <$> lines b2 = text <$> lines b.
Proof.
  intros Hr. destruct (run_inv _ _ _ _ _ _ _ (open_inv p raw) Hr) as (s & HI).
  destruct (undo_all _ _ _ _ HI eq_refl) as (b1 & Hu & HI1 & Hl1 & Ha1).
  destruct (redo_all _ _ _ (log_at b) HI1) as (b2 & s2 & Hd & HI2 & Hl2 & Ha2); [rewrite Ha1, Hl1; apply HI|].
  exists b1, b2. split; [done|]. split; [by rewrite (inv_repr _ _ _ HI1), open_lines|]. split; [done|].
  rewrite (inv_repr _ _ _ HI2), (inv_repr _ _ _ HI). f_equal. eapply hist_fun; [apply HI2|].
  rewrite Hl2, Ha2, Hl1, Ha1. apply HI.
Qed.

Definition demo_file : str := [120; NL].
Definition buffer_of (r : outcome (Buffer * str)) : Buffer := match r with Ret (b, _) => b | Panic => empty end.
Definition demo_cs : list Command := [InsertStr [97]; InsertStr [98]; InsertStr [NL]; SelectAll; InsertStr [99]].
Definition demo_buffer : Buffer := buffer_of (run demo_cs (open_text [] demo_file, demo_file)).

Lemma undo_redo_restore_witness :
  run demo_cs (open_text [] demo_file, demo_file) = Ret (demo_buffer, demo_file) ∧ log_at demo_buffer = 2%nat ∧
  ∃ b1 b2, undo_n (log_at demo_buffer) demo_buffer = Ret b1 ∧ text <$> lines b1 = text <$> lines (open_text [] demo_file) ∧
    redo_n (log_at demo_buffer) b1 = Ret b2 ∧ text <$> lines b2 = text <$> lines demo_buffer.
Proof.
  split; [vm_compute; reflexivity|]. split; [vm_compute; reflexivity|].
  apply (undo_redo_restore [] demo_file demo_cs demo_buffer demo_file). vm_compute; reflexivity.
Defined.

Record well_formed (b : Buffer) : Prop := {
  wf_lines : lines b ≠ [];
  wf_text : ∀ l, l ∈ lines b → NL ∉ text l;
  wf_cursor : valid (text <$> lines b) (cursor b);
  wf_log : (log_at b <= length (log b))%nat }.

Lemma split_no_nl s l : l ∈ split s → NL ∉ l.
Proof.
  revert l; induction s as [|c s IH]; intros l; simpl; [rewrite list_elem_of_singleton; intros ->; apply not_elem_of_nil|].
  destruct (Z.eqb_spec c NL) as [_|Hc]; [rewrite elem_of_cons; intros [->|?]; [apply not_elem_of_nil|by apply IH]|].
  destruct (split s) as [|y d]; [rewrite list_elem_of_singleton; intros ->; set_solver|].
  rewrite elem_of_cons. intros [->|Hl]; [|apply IH; set_solver]. specialize (IH y ltac:(set_solver)). set_solver.
Qed.

Lemma inv_well_formed s0 b s : inv s0 b s → well_formed b.
Proof.
  intros HI. pose proof (inv_repr _ _ _ HI) as Hr. split; [by eapply repr_ne| |rewrite Hr|]; [|apply HI..].
  intros l Hl. apply (split_no_nl s). rewrite <- Hr. by apply list_elem_of_fmap_2.
Qed.

(** C28 Every document a run of commands leads to is well formed: it has a line, no
    line holds a newline, the cursor is inside it and the log position inside
    the log.  On it no command panics, unless the selection's anchor lies
    outside the document: every slice and index of the line arithmetic is in
    range. *)
Theorem editor_well_formed p raw cs b disk : run cs (open_text p raw, raw) = Ret (b, disk) →
  well_formed b ∧ ∀ c, exec c (b, disk) = Panic → ∃ a, anchor b = Some a ∧ ¬ valid (text <$> lines b) a.
Proof.
  intros Hr. destruct (run_inv _ _ _ _ _ _ _ (open_inv p raw) Hr) as (s & HI). split; [by eapply inv_well_formed|].
  intros c Hp. destruct (save_or c) as [[w ->]|Hn].
  - cbn [exec] in Hp. by destruct (save w b).
  - pose proof (exec_effect _ b s c disk HI Hn) as H. rewrite Hp in H. apply H.
Qed.

Definition strand : list Command := [InsertStr [NL]; Move true (Cols (-1)); Undo].
Definition stranded : Buffer := buffer_of (run strand (open_text [] [], [])).

Lemma editor_well_formed_witness : well_formed stranded ∧ ∀ c, exec c (stranded, []) = Panic → ∃ a, anchor stranded = Some a ∧ ¬ valid (text <$> lines stranded) a.
Proof. apply (editor_well_formed [] [] strand). vm_compute; reflexivity. Defined.

(** Undo moves the cursor back into the document but leaves the anchor of a
    selection where it is: select back over a line just opened, undo, and the
    next character typed indexes a line that no longer exists and panics. *)
Theorem undo_strands_anchor : run strand (open_text [] [], []) = Ret (stranded, []) ∧ exec (InsertStr [97]) (stranded, []) = Panic.
Proof. split; vm_compute; reflexivity. Qed.

(** ** Typing after a click *)

Lemma pane_valid b s l c : repr b s → valid (split s) (pane_position b l c).
Proof. intros Hr. pose proof (clamp_valid (set_cur b (mk_pos l c)) (repr_ne _ _ Hr)) as H. by rewrite Hr in H. Qed.

Lemma clamp_id b s : repr b s → valid (split s) (cursor b) → clamp_cursor b = b.
Proof.
  intros Hr Hv. destruct b as [pa ls [l c] an eo tn di lg la sa co]. unfold clamp_cursor. pose proof (proj1 (valid_line _ s l c Hr) Hv) as [H1 H2].
  cbn in *. rewrite (Nat.min_l l) by lia. by rewrite Nat.min_l.
Qed.

(** Typing without and over a selection. *)
Lemma type_plain b pre post t : repr b (pre ++ post) → cursor b = at_prefix pre → selection_range b = None →
  ∃ b', insert_str b t = Ret b' ∧ repr b' (pre ++ t ++ post) ∧ anchor b' = anchor b ∧ cursor b' = at_prefix (pre ++ t).
Proof.
  intros Hr Hc Hs. unfold insert_str, replace_selection. rewrite Hs. cbn [mbind outcome_bind]. rewrite Hc.
  destruct (insert_spec b pre post t Hr) as (b1 & -> & Hr1 & E1). cbn [mbind outcome_bind].
  assert (H2 : ∀ e cb, lines (push_edit b1 e cb) = lines b1 ∧ anchor (push_edit b1 e cb) = anchor b1) by (intros e cb; by destruct (push_core b1 e cb) as (? & ? & ->)).
  assert (Ha : anchor b1 = anchor b) by (by rewrite E1). rewrite <- Ha.
  eexists. split; [done|]. destruct (decide (t = [NL])); unfold repr; cbn; rewrite (proj1 (H2 _ _)), (proj2 (H2 _ _)); done.
Qed.

Lemma type_over b pre old post t : repr b (pre ++ old ++ post) → old ≠ [] → anchor b = Some (at_prefix pre) → cursor b = at_prefix (pre ++ old) →
  ∃ b', insert_str b t = Ret b' ∧ repr b' (pre ++ t ++ post).
Proof.
  intros Hr Ho Ha Hc. unfold insert_str, replace_selection, selection_range. rewrite Ha, Hc.
  rewrite decide_False by (by apply at_prefix_ne). rewrite (proj2 (pos_ltb_lt _ _)) by (unfold at_prefix; rewrite end_position_app; by apply end_position_lt).
  destruct (delete_spec b pre old post Hr) as (b4 & -> & Hr4 & _). cbn [mbind outcome_bind].
  destruct (insert_spec b4 pre post t Hr4) as (b5 & -> & Hr5 & _). cbn [mbind outcome_bind].
  eexists. split; [done|]. unfold repr. cbn. by destruct (push_core b5 (Replace (at_prefix pre) old t) (at_prefix (pre ++ old))) as (? & ? & ->).
Qed.

(** Clicking puts the anchor under the cursor and typing does not lift it, so
    the first character typed after a click is the selection the second one
    replaces: on any document a run leads to, clicking and typing two characters
    inserts only the second. *)
Theorem click_then_type p raw cs b disk l c x y : run cs (open_text p raw, raw) = Ret (b, disk) →
  ∃ b' pre post, run [Click l c; InsertStr [x]; InsertStr [y]] (b, disk) = Ret (b', disk) ∧
    text <$> lines b = split (pre ++ post) ∧ pane_position b l c = at_prefix pre ∧ text <$> lines b' = split (pre ++ [y] ++ post).
Proof.
  intros Hr. destruct (run_inv _ _ _ _ _ _ _ (open_inv p raw) Hr) as (s & HI). pose proof (inv_repr _ _ _ HI) as Hs.
  pose proof (pane_valid b s l c Hs) as Hv. destruct (valid_prefix _ _ Hv) as (pre & post & -> & Hp).
  cbn [run exec]. cbn [mbind outcome_bind]. rewrite Hp in *. unfold set_cursor.
  rewrite (clamp_id (set_cur (set_anchor b (Some (at_prefix pre))) (at_prefix pre)) (pre ++ post)) by done. set (b0 := break_coalesce _).
  destruct (type_plain b0 pre post [x]) as (b1 & Hi & Hr1 & Ha & Hc); [done|done|unfold selection_range; cbn; by rewrite decide_True|].
  destruct (type_over b1 pre [x] post [y] Hr1) as (b2 & Hi2 & Hr2); [done|by rewrite Ha|done|].
  exists b2, pre, post. cbn [exec]. rewrite Hi. cbn [mbind outcome_bind exec]. by rewrite Hi2.
Qed.

Lemma click_then_type_witness :
  ∃ b' pre post, run [Click 0 1; InsertStr [65]; InsertStr [66]] (open_text [] [120; 121], [120; 121]) = Ret (b', [120; 121]) ∧
    text <$> lines (open_text [] [120; 121]) = split (pre ++ post) ∧ pane_position (open_text [] [120; 121]) 0 1 = at_prefix pre ∧
    text <$> lines b' = split (pre ++ [66] ++ post).
Proof. apply (click_then_type [] [120; 121] []). reflexivity. Defined.

(** ** The dirty flag *)

(** The bytes of a text under the buffer's line ending. *)
Definition render (e : Eol) (tn : bool) (s : str) : str :=
  let sep := match e with Lf => [NL] | CrLf => [CR; NL] end in
  let body := join sep (split s) in
  if tn then body ++ sep else body.

Lemma body_render b s : repr b s → body b = render (eol b) (trailing_newline b) s.
Proof. unfold repr, body, render. intros ->. reflexivity. Qed.

(** Every edit is made at or past the entry of the last save. *)
Fixpoint forward (cs : list Command) (st : Buffer * str) : bool :=
  match cs with
  | [] => true
  | c :: cs => (negb (is_edit c) || (saved_log_at st.1 <=? log_at st.1)%nat) && match exec c st with Ret st => forward cs st | Panic => true end
  end.

(** The file holds the text of the last save. *)
Definition synced (s0 : str) (b : Buffer) (disk : str) : Prop :=
  ∃ s d, inv s0 b s ∧ saved s0 b s d ∧ disk = render (eol b) (trailing_newline b) d.

Lemma save_synced s0 b disk w b' disk' : synced s0 b disk → exec (Save w) (b, disk) = Ret (b', disk') → synced s0 b' disk'.
Proof.
  intros (s & d & HI & HS & Hd) He. pose proof (save_inv s0 b s w HI) as HI'. cbn [exec] in He. unfold save in *.
  destruct (path b); [destruct w|]; simplify_eq; [|by exists s, d..]. exists s, s. split; [done|]. split; [|exact (body_render b s (inv_repr _ _ _ HI))].
  split; cbn; [apply HI|apply HI|done|done].
Qed.

Lemma run_synced s0 cs b disk b' disk' : synced s0 b disk → forward cs (b, disk) = true → run cs (b, disk) = Ret (b', disk') → synced s0 b' disk'.
Proof.
  revert b disk; induction cs as [|c cs IH]; intros b disk HS Hf Hr; cbn [run forward mbind outcome_bind] in Hf, Hr; [by simplify_eq|].
  apply andb_prop in Hf as [Hf1 Hf2]. destruct (exec c (b, disk)) as [[b1 disk1]|] eqn:He; [|done]. apply (IH b1 disk1); [|done|done].
  destruct (save_or c) as [[w ->]|Hn]; [by eapply save_synced|]. destruct HS as (s & d & HI & HS & ->).
  pose proof (exec_effect s0 b s c (render (eol b) (trailing_newline b) d) HI Hn) as H. rewrite He in H. destruct H as (-> & s' & Heff).
  exists s', d. split; [by eapply effect_inv|]. destruct (effect_kept _ _ _ _ _ Heff) as (-> & -> & _). split; [|done].
  eapply effect_saved; [done|done| |done]. intros Hed. rewrite Hed in Hf1. by apply Nat.leb_le.
Qed.

(** C29 For a file opened with uniform line endings (no carriage return before a
    newline, or one before every newline), as long as no edit is made behind the
    last save, a buffer not marked dirty is exactly the file: whatever is typed,
    undone, redone and saved, when [dirty] is false the bytes a save would write
    are the bytes on disk. A file of mixed endings opens as not dirty and would
    be saved with one ending ([mixed_opens_clean]); an edit behind the save can
    leave the flag wrong ([dirty_flag_lies]). *)
Theorem clean_means_saved p raw cs b disk : contains_crlf raw = false ∨ bare_nl false raw = false →
  forward cs (open_text p raw, raw) = true → run cs (open_text p raw, raw) = Ret (b, disk) → dirty b = false → body b = disk.
Proof.
  intros Hraw Hf Hr Hd. destruct (run_synced (strip_nl (normalize raw)) cs (open_text p raw) raw b disk) as (s & d & HI & HS & ->); [|done|done|].
  - exists (strip_nl (normalize raw)), (strip_nl (normalize raw)). split; [apply open_inv|]. split; [split; [done|constructor|done|done]|].
    rewrite <- body_render by apply open_inv. by rewrite open_body.
  - rewrite (body_render b s) by apply HI. by rewrite (saved_clean _ _ _ _ HS Hd).
Qed.

Definition clean_cs : list Command := [InsertStr [97]; Save true; InsertStr [98]; Undo].
Definition clean_buffer : Buffer := buffer_of (run clean_cs (open_text [102] demo_file, demo_file)).

Lemma clean_means_saved_witness : dirty clean_buffer = false ∧ body clean_buffer = [97; 120; NL].
Proof.
  split; [vm_compute; reflexivity|].
  apply (clean_means_saved [102] demo_file clean_cs); [left|..]; vm_compute; reflexivity.
Defined.

(** Two lines, one ending in CR LF and one in LF: nothing was edited, and a save
    would write both with CR LF. *)
Lemma mixed_opens_clean : let raw := [97; 13; NL; 98; NL] in
  dirty (open_text [102] raw) = false ∧ body (open_text [102] raw) = [97; 13; NL; 98; 13; NL].
Proof. split; vm_compute; reflexivity. Qed.

Definition lost : list Command := [InsertStr [97]; Save true; Undo; InsertStr [98]; Undo; Redo].
Definition lost_buffer : Buffer := buffer_of (run lost (open_text [102] demo_file, demo_file)).

(** A new edit made after undoing past the save drops the saved entries from
    the log but keeps the mark of the save: when the new log reaches that
    length again the buffer is shown unmodified, and its tab closes without a
    question, although the file holds another text. *)
Theorem dirty_flag_lies :
  run lost (open_text [102] demo_file, demo_file) = Ret (lost_buffer, [97; 120; NL]) ∧ dirty lost_buffer = false ∧
  body lost_buffer = [98; 120; NL] ∧ changed <$> lines lost_buffer = [false].
Proof. split; [|split; [|split]]; vm_compute; reflexivity. Qed.

(** A newline typed in a run of typing joins the entry of that run. *)
Lemma newline_joins_run :
  ∃ b, run [InsertStr [97]; InsertStr [NL]] (empty, []) = Ret (b, []) ∧ edit <$> log b = [Insert origin [97; NL]].
Proof. eexists. split; vm_compute; reflexivity. Qed.

End EditHistory.
