(* ===== verification/Regex.v ===== *)
(** * The regular expression matcher of sed (programs/sed/src/regex.rs)

    A backtracking matcher in continuation-passing style over an expression
    tree, threading the capture slots.  The matcher is compared with the usual
    meaning of regular expressions as a relation between positions of the text.

    [m_rep] recurses on its own result and not on the tree; the number of
    repetitions it can make is bounded by the length of the text, since an
    empty one is refused, and [S (length t)] is the fuel it is given. *)

From S2P Require Import Prelude.

Module Regex.

(** ** Data *)

(** The names of the bracket classes. *)
Inductive ClassName := Alpha | Digit | Alnum | Space | Upper | Lower | Punct | Xdigit | Blank | Print_ | Graph | Cntrl.
#[export] Instance ClassName_eq_dec : EqDecision ClassName.
Proof. solve_decision. Defined.

Inductive ClassItem := Ch (c : Z) | Range (lo hi : Z) | Named (n : ClassName).

Inductive Node :=
| Char (c : Z)
| Any
| Class_ (neg : bool) (items : list ClassItem)
| Bol
| Eol
| Group (idx : nat) (alt : list (list Node))
| Repeat (node : Node) (min : nat) (max : option nat).

Abbreviation Seq := (list Node).
Abbreviation Alt := (list Seq).
Abbreviation Caps := (list (option (nat * nat))).

Record Regex := mk_regex { alt : Alt; ngroups : nat; icase : bool }.

(** The Unicode tables behind the methods of [char]. *)
Record Unicode := mk_unicode {
  to_lowercase : Z → list Z;
  to_uppercase : Z → list Z;
  is_alphabetic : Z → bool;
  is_alphanumeric : Z → bool;
  is_whitespace : Z → bool;
  is_uppercase : Z → bool;
  is_lowercase : Z → bool;
  is_control : Z → bool }.

(** ** The matcher *)

Section Matcher.

Context (U : Unicode) (t : list Z) (ic : bool).

Definition eqc (a b : Z) : bool := (a =? b) || (ic && bool_decide (to_lowercase U a = to_lowercase U b)).

Definition between (lo x hi : Z) : bool := (lo <=? x) && (x <=? hi).
Definition is_ascii_digit (c : Z) : bool := between 48 c 57.
Definition is_ascii_punctuation (c : Z) : bool := between 33 c 47 || between 58 c 64 || between 91 c 96 || between 123 c 126.
Definition is_ascii_hexdigit (c : Z) : bool := is_ascii_digit c || between 65 c 70 || between 97 c 102.

Definition named_match (n : ClassName) (c : Z) : bool :=
  match n with
  | Alpha => is_alphabetic U c
  | Digit => is_ascii_digit c
  | Alnum => is_alphanumeric U c
  | Space => is_whitespace U c
  | Upper => is_uppercase U c
  | Lower => is_lowercase U c
  | Punct => is_ascii_punctuation c
  | Xdigit => is_ascii_hexdigit c
  | Blank => (c =? 32) || (c =? 9)
  | Print_ => negb (is_control U c)
  | Graph => negb (is_control U c) && negb (is_whitespace U c)
  | Cntrl => is_control U c
  end.

Definition class_match (items : list ClassItem) (c : Z) : bool :=
  let folded := if ic then to_lowercase U c ++ to_uppercase U c else [c] in
  existsb (λ it, existsb (λ f, match it with Ch x => x =? f | Range lo hi => (lo <=? f) && (f <=? hi) | Named n => named_match n f end) folded) items.

(** The answer of a call: the end of the match if there is one, and the slots,
    which the caller sees either way. *)
Abbreviation answer := (outcome (option nat * Caps)).
Abbreviation Cont := (nat → Caps → answer).

(** [pos < t.len() && test(t[pos]) && k(pos + 1, caps)]. *)
Definition on_char (test : Z → bool) (pos : nat) (caps : Caps) (k : Cont) : answer :=
  match t !! pos with
  | Some c => if test c then k (S pos) caps else Ret (None, caps)
  | None => Ret (None, caps)
  end.

Fixpoint m_seq (m_node : Node → nat → Caps → Cont → answer) (nodes : Seq) (pos : nat) (caps : Caps) (k : Cont) : answer :=
  match nodes with
  | [] => k pos caps
  | n :: rest => m_node n pos caps (λ p c, m_seq m_node rest p c k)
  end.

Fixpoint m_alt (m_node : Node → nat → Caps → Cont → answer) (alt : Alt) (pos : nat) (caps : Caps) (k : Cont) : answer :=
  match alt with
  | [] => Ret (None, caps)
  | seq :: alt =>
      '(r, c) ← m_seq m_node seq pos caps k;
      match r with Some e => Ret (Some e, c) | None => m_alt m_node alt pos caps k end
  end.

(** [body] is [m_node(node, ...)]. *)
Fixpoint m_rep (fuel : nat) (body : nat → Caps → Cont → answer) (min : nat) (max : option nat) (pos : nat) (caps : Caps) (count : nat) (k : Cont) : answer :=
  match fuel with
  | O => Panic
  | S fuel =>
      let stop c := if (min <=? count)%nat then k pos c else Ret (None, c) in
      if match max with None => true | Some m => (count <? m)%nat end then
        '(r, c) ← body pos caps (λ p c, if negb (p =? pos)%nat then m_rep fuel body min max p c (S count) k else Ret (None, c));
        match r with Some e => Ret (Some e, c) | None => stop caps end
      else stop caps
  end.

(** [c[idx]] panics past the end of the slots. *)
Fixpoint m_node (n : Node) (pos : nat) (caps : Caps) (k : Cont) {struct n} : answer :=
  match n with
  | Char c => on_char (λ x, eqc x c) pos caps k
  | Any => on_char (λ _, true) pos caps k
  | Class_ neg items => on_char (λ x, negb (Bool.eqb (class_match items x) neg)) pos caps k
  | Bol => if (pos =? 0)%nat then k pos caps else Ret (None, caps)
  | Eol => if (pos =? length t)%nat then k pos caps else Ret (None, caps)
  | Group idx alt =>
      m_alt m_node alt pos caps (λ p c,
        match c !! idx with
        | None => Panic
        | Some old =>
            '(r, c) ← k p (<[idx := Some (pos, p)]> c);
            match r with
            | Some e => Ret (Some e, c)
            | None => match c !! idx with None => Panic | Some _ => Ret (None, <[idx := old]> c) end
            end
        end)
  | Repeat node min max => m_rep (S (length t)) (m_node node) min max pos caps 0 k
  end.

End Matcher.

(** The loop over the start positions. *)
Fixpoint find_from (U : Unicode) (re : Regex) (text : list Z) (s todo : nat) : outcome (option Caps) :=
  match todo with
  | O => Ret None
  | S todo =>
      '(r, caps) ← m_alt (m_node U text (icase re)) (alt re) s (replicate (S (ngroups re)) None) (λ p c, Ret (Some p, c));
      match r with
      | Some e => Ret (Some (<[0%nat := Some (s, e)]> caps))
      | None => find_from U re text (S s) todo
      end
  end.

Definition find_at (U : Unicode) (re : Regex) (text : list Z) (start : nat) : outcome (option Caps) :=
  find_from U re text start (S (length text) - start).

Definition is_match (U : Unicode) (re : Regex) (text : list Z) : outcome bool :=
  r ← find_at U re text 0; Ret (match r with Some _ => true | None => false end).

(** ** What an expression means *)

Section Meaning.

Context (U : Unicode) (t : list Z) (ic : bool).

Fixpoint seq_rel {A} (R : A → nat → nat → Prop) (l : list A) (p q : nat) : Prop :=
  match l with [] => p = q | n :: l => ∃ m, R n p m ∧ seq_rel R l m q end.

Fixpoint alt_rel {A} (R : A → nat → nat → Prop) (l : list (list A)) (p q : nat) : Prop :=
  match l with [] => False | s :: l => seq_rel R s p q ∨ alt_rel R l p q end.

Fixpoint iter_rel (R : nat → nat → Prop) (n p q : nat) : Prop :=
  match n with O => p = q | S n => ∃ m, R p m ∧ iter_rel R n m q end.

Definition char_rel (test : Z → bool) (p q : nat) : Prop := ∃ x, t !! p = Some x ∧ test x = true ∧ q = S p.

Definition at_most (max : option nat) (n : nat) : Prop := match max with None => True | Some m => (n <= m)%nat end.

(** [denotes n p q]: the text from [p] to [q] is in the language of [n]. *)
Fixpoint denotes (n : Node) (p q : nat) {struct n} : Prop :=
  match n with
  | Char c => char_rel (λ x, eqc U ic x c) p q
  | Any => char_rel (λ _, true) p q
  | Class_ neg items => char_rel (λ x, negb (Bool.eqb (class_match U ic items x) neg)) p q
  | Bol => p = 0%nat ∧ p = q
  | Eol => p = length t ∧ p = q
  | Group _ alt => alt_rel denotes alt p q
  | Repeat node min max => ∃ n, (min <= n)%nat ∧ at_most max n ∧ iter_rel (denotes node) n p q
  end.

End Meaning.

(** Structural induction through the two lists of a group. *)
Section NodeInd.

Context (P : Node → Prop) (HChar : ∀ c, P (Char c)) (HAny : P Any) (HClass : ∀ neg items, P (Class_ neg items)) (HBol : P Bol) (HEol : P Eol)
  (HGroup : ∀ idx alt, Forall (Forall P) alt → P (Group idx alt)) (HRepeat : ∀ n min max, P n → P (Repeat n min max)).

Fixpoint node_ind (n : Node) : P n :=
  match n with
  | Char c => HChar c
  | Any => HAny
  | Class_ neg items => HClass neg items
  | Bol => HBol
  | Eol => HEol
  | Group idx alt =>
      HGroup idx alt ((fix go_alt (alt : Alt) : Forall (Forall P) alt :=
        match alt with
        | [] => Forall_nil_2 _
        | s :: alt => Forall_cons_2 _ s alt ((fix go_seq (s : Seq) : Forall P s :=
            match s with [] => Forall_nil_2 _ | n :: s => Forall_cons_2 _ n s (node_ind n) (go_seq s) end) s) (go_alt alt)
        end) alt)
  | Repeat n min max => HRepeat n min max (node_ind n)
  end.

End NodeInd.

(** The groups of an expression, with their slots. *)
Fixpoint groups (n : Node) : list (nat * Alt) :=
  match n with
  | Group idx alt => (idx, alt) :: (alt ≫= λ s, s ≫= groups)
  | Repeat n _ _ => groups n
  | _ => []
  end.
Definition alt_groups (a : Alt) : list (nat * Alt) := a ≫= λ s, s ≫= groups.

(** Whether the empty text can match, anchors counting as empty. *)
Fixpoint nullable (n : Node) : bool :=
  match n with
  | Char _ | Any | Class_ _ _ => false
  | Bol | Eol => true
  | Group _ alt => existsb (forallb nullable) alt
  | Repeat n min _ => (min =? 0)%nat || nullable n
  end.

(** No repetition demands a minimum of a body that can match the empty text. *)
Fixpoint regular (n : Node) : bool :=
  match n with
  | Group _ alt => forallb (forallb regular) alt
  | Repeat n min _ => regular n && ((min =? 0)%nat || negb (nullable n))
  | _ => true
  end.
Definition regular_alt (a : Alt) : bool := forallb (forallb regular) a.

(** ** The matcher against the meaning *)

Section Correct.

Context (U : Unicode) (t : list Z) (ic : bool).

Abbreviation mat := (denotes U t ic).
Abbreviation answer := (outcome (option nat * Caps)).
Abbreviation Cont := (nat → Caps → answer).

(** A relation that only moves forward inside the text. *)
Definition moves (R : nat → nat → Prop) : Prop := ∀ p q, (p <= length t)%nat → R p q → (p <= q <= length t)%nat.

Lemma moves_char test : moves (char_rel t test).
Proof. intros p q _ (x & Hx & _ & ->). apply lookup_lt_Some in Hx. lia. Qed.

Lemma moves_seq (s : Seq) : Forall (λ n, moves (mat n)) s → moves (seq_rel mat s).
Proof.
  induction 1 as [|n s Hn _ IH]; intros p q Hp; simpl; [intros <-; lia|]. intros (m & Hm & Hq).
  specialize (Hn p m Hp Hm). specialize (IH m q ltac:(lia) Hq). lia.
Qed.

Lemma moves_alt (a : Alt) : Forall (Forall (λ n, moves (mat n))) a → moves (alt_rel mat a).
Proof. induction 1 as [|s a Hs _ IH]; intros p q Hp; simpl; [done|]. intros [H|H]; [by apply (moves_seq s)|by apply IH]. Qed.

Lemma moves_iter R n : moves R → moves (iter_rel R n).
Proof.
  intros HR. induction n as [|n IH]; intros p q Hp; simpl; [intros <-; lia|]. intros (m & Hm & Hq).
  specialize (HR p m Hp Hm). specialize (IH m q ltac:(lia) Hq). lia.
Qed.

Lemma moves_node n : moves (mat n).
Proof.
  induction n as [c| |neg items| | |idx a IH|n min max IH] using node_ind; try apply moves_char.
  - intros p q Hp [_ <-]; lia.
  - intros p q Hp [_ <-]; lia.
  - by apply moves_alt.
  - intros p q Hp (k & _ & _ & Hk). by apply (moves_iter (mat n) k).
Qed.

(** An expression that is not nullable consumes a character. *)
Definition eats (R : nat → nat → Prop) : Prop := ∀ p q, (p <= length t)%nat → R p q → (p < q)%nat.

Lemma eats_seq s : Forall (λ n, nullable n = false → eats (mat n)) s → forallb nullable s = false → eats (seq_rel mat s).
Proof.
  induction 1 as [|n s Hn _ IH]; simpl; intros Hs p q Hp; [done|]. intros (m & Hm & Hq).
  pose proof (moves_node n p m Hp Hm) as Hmo. apply andb_false_iff in Hs as [Hs|Hs].
  - specialize (Hn Hs p m Hp Hm). assert (moves (seq_rel mat s)) as Hms by (apply moves_seq, Forall_forall; intros; apply moves_node).
    specialize (Hms m q ltac:(lia) Hq). lia.
  - specialize (IH Hs m q ltac:(lia) Hq). lia.
Qed.

Lemma eats_node n : nullable n = false → eats (mat n).
Proof.
  induction n as [c| |neg items| | |idx a IH|n min max IH] using node_ind; simpl; intros Hn p q Hp; try done; try (intros (x & _ & _ & ->); lia).
  - induction IH as [|s a Hs _ IHa]; simpl in *; [done|]. apply orb_false_iff in Hn as [Hn1 Hn2].
    intros [H|H]; [by apply (eats_seq s Hs Hn1)|by apply IHa].
  - apply orb_false_iff in Hn as [Hm%Nat.eqb_neq Hn]. intros (k & Hk & _ & Hr). destruct k as [|k]; [lia|]. destruct Hr as (m & Hm1 & Hr).
    specialize (IH Hn p m Hp Hm1). pose proof (moves_node n p m Hp Hm1). pose proof (moves_iter _ k (moves_node n) m q ltac:(lia) Hr). lia.
Qed.

(** The slots during a match: as many as there should be, and each that is set
    holds a stretch that its group matches.  [gs] are the groups of the whole
    expression. *)
Context (N : nat) (gs : list (nat * Alt)).

Record slots (c : Caps) : Prop := {
  slots_len : length c = N;
  slots_group : ∀ idx a b, c !! idx = Some (Some (a, b)) → ∃ g, (idx, g) ∈ gs ∧ alt_rel mat g a b }.

Lemma slots_set c idx g a b : slots c → (idx, g) ∈ gs → alt_rel mat g a b → slots (<[idx := Some (a, b)]> c).
Proof.
  intros [H1 H2] Hg Hr. split; [by rewrite length_insert|]. intros i x y Hi.
  destruct (decide (i = idx)) as [->|Hne]; [|rewrite list_lookup_insert_ne in Hi by done; eauto].
  apply list_lookup_insert_Some in Hi as [(_ & Hi & _)|(? & _)]; [|done]. simplify_eq. eauto.
Qed.

Lemma slots_back c c' idx old : slots c → slots c' → c' !! idx = Some old → slots (<[idx := old]> c).
Proof.
  intros [H1 H2] [H3 H4] Ho. split; [by rewrite length_insert|]. intros i x y Hi.
  destruct (decide (i = idx)) as [->|Hne]; [|rewrite list_lookup_insert_ne in Hi by done; eauto].
  apply list_lookup_insert_Some in Hi as [(_ & Hi & _)|(? & _)]; [|done]. simplify_eq. eauto.
Qed.

(** An answer: no panic, the slots in order after a failure, [S] of a success. *)
Definition fine (S : nat → Caps → Prop) (r : answer) : Prop :=
  match r with Ret (Some e, c) => S e c | Ret (None, c) => slots c | Panic => False end.
Definition hit (r : answer) : Prop := match r with Ret (Some _, _) => True | _ => False end.

(** [f] calls its continuation only where [R] leads. *)
Definition Sound (f : nat → Caps → Cont → answer) (R : nat → nat → Prop) : Prop :=
  ∀ S pos caps k, (pos <= length t)%nat → slots caps → (∀ p c, R pos p → slots c → fine S (k p c)) → fine S (f pos caps k).

(** [f] succeeds if the continuation does at some place [R] leads to. *)
Definition Complete (f : nat → Caps → Cont → answer) (R : nat → nat → Prop) : Prop :=
  ∀ S pos caps k q, (pos <= length t)%nat → slots caps → (∀ p c, R pos p → slots c → fine S (k p c)) →
    R pos q → (∀ c, slots c → hit (k q c)) → hit (f pos caps k).

(** *** Single characters and anchors *)

Lemma char_sound test : Sound (on_char t test) (char_rel t test).
Proof.
  intros S pos caps k Hp Hs Hk. unfold on_char. destruct (t !! pos) as [x|] eqn:Hx; [|done].
  destruct (test x) eqn:Ht; [|done]. apply Hk; [|done]. by exists x.
Qed.

Lemma char_complete test : Complete (on_char t test) (char_rel t test).
Proof. intros S pos caps k q _ Hs _ (x & Hx & Ht & ->) Hh. unfold on_char. rewrite Hx, Ht. by apply Hh. Qed.

(** *** Sequences and alternatives *)

Abbreviation mn := (m_node U t ic).

Lemma seq_sound (s : Seq) : Forall (λ n, Sound (mn n) (mat n)) s → Sound (m_seq mn s) (seq_rel mat s).
Proof.
  induction 1 as [|n s Hn _ IH]; intros S pos caps k Hp Hs Hk; simpl; [by apply Hk|].
  apply Hn; [done..|]. intros p c Hm Hc. apply IH; [by apply (moves_node n pos p)|done|].
  intros q c' Hq Hc'. apply Hk; [by exists p|done].
Qed.

Lemma seq_complete (s : Seq) : Forall (λ n, Sound (mn n) (mat n) ∧ Complete (mn n) (mat n)) s → Complete (m_seq mn s) (seq_rel mat s).
Proof.
  induction 1 as [|n s [Hn Hn'] Hrest IH]; intros S pos caps k q Hp Hs Hk Hq Hh; simpl in *; [subst; by apply Hh|].
  destruct Hq as (m & Hm & Hq). assert (Hs' : Sound (m_seq mn s) (seq_rel mat s)) by (apply seq_sound; eapply Forall_impl; [exact Hrest|by intros ? []]).
  assert (Hk' : ∀ p c, mat n pos p → slots c → fine S (m_seq mn s p c k)).
  { intros p c Hp' Hc. apply Hs'; [by apply (moves_node n pos p)|done|]. intros q' c' Hq' Hc'. apply Hk; [by exists p|done]. }
  apply (Hn' S pos caps _ m); [done|done|exact Hk'|done|]. intros c Hc. apply (IH S m c k q); [by apply (moves_node n pos m)|done| |done|done].
  intros p c' Hp' Hc'. apply Hk; [by exists m|done].
Qed.

Lemma alt_sound (a : Alt) : Forall (Forall (λ n, Sound (mn n) (mat n))) a → Sound (m_alt mn a) (alt_rel mat a).
Proof.
  induction 1 as [|s a Hs _ IH]; intros S pos caps k Hp Hc Hk; simpl; [done|].
  pose proof (seq_sound s Hs S pos caps k Hp Hc) as H. specialize (H (λ p c Hr, Hk p c (or_introl Hr))).
  destruct (m_seq mn s pos caps k) as [[[e|] c]|]; cbn in *; [done| |done]. apply IH; [done|done|]. intros p c' Hr. apply Hk. by right.
Qed.

Lemma alt_complete (a : Alt) : Forall (Forall (λ n, Sound (mn n) (mat n) ∧ Complete (mn n) (mat n))) a → Complete (m_alt mn a) (alt_rel mat a).
Proof.
  induction 1 as [|s a Hs _ IH]; intros S pos caps k q Hp Hc Hk Hq Hh; simpl in *; [done|].
  assert (Hs' : fine S (m_seq mn s pos caps k)).
  { apply seq_sound; [eapply Forall_impl; [exact Hs|by intros ? []]|done|done|]. intros p c Hr. apply Hk. by left. }
  assert (Hhit : seq_rel mat s pos q → hit (m_seq mn s pos caps k)).
  { intros Hr. apply (seq_complete s Hs S pos caps k q); [done|done| |done|done]. intros p c Hr'. apply Hk. by left. }
  destruct (m_seq mn s pos caps k) as [[[e|] c]|]; cbn in *; [done| |done].
  destruct Hq as [Hq|Hq]; [by destruct (Hhit Hq)|]. apply (IH S pos caps k q); [done|done| |done|done]. intros p c' Hr. apply Hk. by right.
Qed.

(** *** Repetition *)

Section Rep.

Context (body : nat → Caps → Cont → answer) (R : nat → nat → Prop) (HR : moves R) (Hb : Sound body R) (min : nat) (max : option nat).

(** The places the continuation of a repetition is called at. *)
Definition after (count pos p : nat) : Prop := ∃ n, iter_rel R n pos p ∧ (min <= count + n)%nat ∧ at_most max (count + n).

Lemma rep_sound S fuel : ∀ count pos caps k, (length t - pos < fuel)%nat → (pos <= length t)%nat → slots caps → at_most max count →
  (∀ p c, after count pos p → slots c → fine S (k p c)) → fine S (m_rep fuel body min max pos caps count k).
Proof.
  induction fuel as [|fuel IH]; intros count pos caps k Hf Hp Hs Hm Hk; [lia|]. simpl.
  assert (Hstop : fine S (if (min <=? count)%nat then k pos caps else Ret (None, caps))).
  { destruct (Nat.leb_spec min count); [|done]. apply Hk; [|done]. exists 0%nat. rewrite Nat.add_0_r. done. }
  destruct (match max with None => true | Some m => (count <? m)%nat end) eqn:Hmax; [|done].
  set (k' := λ p c, _).
  assert (Hb' : fine S (body pos caps k')).
  { apply Hb; [done|done|]. intros p c Hr Hc. unfold k'. destruct (Nat.eqb_spec p pos) as [|Hne]; simpl; [done|].
    pose proof (HR pos p Hp Hr). apply IH; [lia|lia|done|destruct max; simpl in *; [by apply Nat.ltb_lt in Hmax|done]|].
    intros q c' (n & Hn & Hmin & Hmx) Hc'. apply Hk; [|done]. exists (Datatypes.S n). rewrite <- Nat.add_succ_comm. split; [by exists p|done]. }
  destruct (body pos caps k') as [[[e|] c]|]; cbn in *; done.
Qed.

Lemma rep_complete S (Hb' : Complete body R) (Hreg : min = 0%nat ∨ eats R) fuel : ∀ n count pos caps k q,
  (length t - pos < fuel)%nat → (pos <= length t)%nat → slots caps → at_most max count →
  (∀ p c, after count pos p → slots c → fine S (k p c)) →
  iter_rel R n pos q → (min <= count + n)%nat → at_most max (count + n) → (∀ c, slots c → hit (k q c)) →
  hit (m_rep fuel body min max pos caps count k).
Proof.
  induction fuel as [|fuel IH]; [intros; lia|]. induction n as [|n IHn]; intros count pos caps k q Hf Hp Hs Hm Hk Hn Hmin Hmx Hh.
  - pose proof (rep_sound S (Datatypes.S fuel) count pos caps k Hf Hp Hs Hm Hk) as Hfine. simpl in Hn. subst q. rewrite Nat.add_0_r in Hmin. simpl in *.
    rewrite (proj2 (Nat.leb_le _ _) Hmin) in *. destruct (match max with None => true | Some m => (count <? m)%nat end); [|by apply Hh].
    set (k' := λ p c, _) in *. destruct (body pos caps k') as [[[e|] c]|]; cbn in *; [done|by apply Hh|done].
  - destruct Hn as (p & Hr & Hn). pose proof (HR pos p Hp Hr) as Hpp. destruct (decide (p = pos)) as [->|Hne].
    { destruct Hreg as [->|He]; [|specialize (He pos pos Hp Hr); lia].
      apply (IHn count pos caps k q); [done|done|done|done|done|done|lia|destruct max; simpl in *; [lia|done]|done]. }
    simpl. assert (Hmax : match max with None => true | Some m => (count <? m)%nat end = true)
      by (destruct max; simpl in *; [apply Nat.ltb_lt; lia|done]). rewrite Hmax. set (k' := λ p c, _).
    assert (Hafter : ∀ p1 q1, R pos p1 → after (Datatypes.S count) p1 q1 → after count pos q1)
      by (intros p1 q1 Hr1 (n1 & Hn1 & ? & ?); exists (Datatypes.S n1); rewrite <- Nat.add_succ_comm; split; [by exists p1|done]).
    assert (Hm' : at_most max (Datatypes.S count)) by (destruct max; simpl in *; lia).
    assert (Hhit : hit (body pos caps k')).
    { apply (Hb' S pos caps k' p); [done|done| |done|].
      - intros p1 c Hr1 Hc. unfold k'. destruct (Nat.eqb_spec p1 pos); simpl; [done|]. pose proof (HR pos p1 Hp Hr1).
        apply rep_sound; [lia|lia|done|done|]. intros q1 c1 Ha. apply Hk. by eapply Hafter.
      - intros c Hc. unfold k'. rewrite (proj2 (Nat.eqb_neq _ _)) by done. simpl.
        apply (IH n (Datatypes.S count) p c k q); [lia|lia|done|done| |done|lia|by rewrite Nat.add_succ_comm|done].
        intros q1 c1 Ha. apply Hk. by eapply Hafter. }
    destruct (body pos caps k') as [[[e|] c]|]; cbn in *; done.
Qed.

End Rep.

(** *** Groups *)

Lemma group_cont S k pos p idx g c : slots c → (idx, g) ∈ gs → (idx < N)%nat → alt_rel mat g pos p →
  (∀ c', slots c' → fine S (k p c')) →
  fine S (match c !! idx with
    | None => Panic
    | Some old => '(r, c) ← k p (<[idx := Some (pos, p)]> c);
        match r with Some e => Ret (Some e, c) | None => match c !! idx with None => Panic | Some _ => Ret (None, <[idx := old]> c) end end
    end).
Proof.
  intros Hc Hg HN Hr Hk. destruct (lookup_lt_is_Some_2 c idx) as [old Ho]; [by rewrite (slots_len _ Hc)|]. rewrite Ho.
  specialize (Hk _ (slots_set c idx g pos p Hc Hg Hr)). destruct (k p _) as [[[e|] c']|]; cbn in *; [done| |done].
  destruct (lookup_lt_is_Some_2 c' idx) as [x ->]; [by rewrite (slots_len _ Hk)|]. by apply (slots_back c' c).
Qed.

Lemma group_hit k pos p idx g c : slots c → (idx, g) ∈ gs → (idx < N)%nat → alt_rel mat g pos p → (∀ c', slots c' → hit (k p c')) →
  hit (match c !! idx with
    | None => Panic
    | Some old => '(r, c) ← k p (<[idx := Some (pos, p)]> c);
        match r with Some e => Ret (Some e, c) | None => match c !! idx with None => Panic | Some _ => Ret (None, <[idx := old]> c) end end
    end).
Proof.
  intros Hc Hg HN Hr Hh. destruct (lookup_lt_is_Some_2 c idx) as [old Ho]; [by rewrite (slots_len _ Hc)|]. rewrite Ho.
  specialize (Hh _ (slots_set c idx g pos p Hc Hg Hr)). by destruct (k p _) as [[[e|] c']|].
Qed.

(** *** Every node *)

Definition in_range (n : Node) : Prop := ∀ idx g, (idx, g) ∈ groups n → (idx, g) ∈ gs ∧ (idx < N)%nat.

Lemma in_range_group idx (a : Alt) : in_range (Group idx a) → (idx, a) ∈ gs ∧ (idx < N)%nat ∧ Forall (Forall in_range) a.
Proof.
  intros H. destruct (H idx a) as [H1 H2]; [by left|]. split; [done|]. split; [done|]. apply Forall_forall. intros s Hs. apply Forall_forall. intros n Hn i g Hg.
  apply H. right. apply list_elem_of_bind. exists s. split; [|done]. apply list_elem_of_bind. by exists n.
Qed.

Lemma Forall2_mp {A} (P Q : A → Prop) (a : list (list A)) : Forall (Forall (λ n, P n → Q n)) a → Forall (Forall P) a → Forall (Forall Q) a.
Proof. intros H1 H2. rewrite Forall_forall in *. intros s Hs. specialize (H1 s Hs). specialize (H2 s Hs). rewrite Forall_forall in *. auto. Qed.

Lemma node_sound n : in_range n → Sound (mn n) (mat n).
Proof.
  induction n as [c| |neg items| | |idx a IH|n min max IH] using node_ind; intros Hin; try apply char_sound.
  - intros S pos caps k Hp Hs Hk. simpl. destruct (Nat.eqb_spec pos 0); [by apply Hk|done].
  - intros S pos caps k Hp Hs Hk. simpl. destruct (Nat.eqb_spec pos (length t)); [by apply Hk|done].
  - destruct (in_range_group _ _ Hin) as (Hg & HN & Hall). intros S pos caps k Hp Hs Hk. simpl.
    apply alt_sound; [by eapply Forall2_mp|done|done|]. intros p c Hr Hc. apply (group_cont S k pos p idx a c); [done..|]. intros c'. by apply Hk.
  - intros S pos caps k Hp Hs Hk. change (mn (Repeat n min max) pos caps k) with (m_rep (Datatypes.S (length t)) (mn n) min max pos caps 0 k). apply (rep_sound (mn n) (mat n) (moves_node n) (IH Hin)); [lia|done|done|by destruct max; simpl; lia|].
    intros p c (j & Hj & Hmin & Hmax) Hc. apply Hk; [|done]. by exists j.
Qed.

Lemma node_complete n : in_range n → regular n = true → Complete (mn n) (mat n).
Proof.
  induction n as [c| |neg items| | |idx a IH|n min max IH] using node_ind; intros Hin Hreg; try apply char_complete.
  - intros S pos caps k q Hp Hs Hk [-> <-] Hh. simpl. by apply Hh.
  - intros S pos caps k q Hp Hs Hk [-> <-] Hh. simpl. rewrite Nat.eqb_refl. by apply Hh.
  - destruct (in_range_group _ _ Hin) as (Hg & HN & Hall). intros S pos caps k q Hp Hs Hk Hq Hh. simpl.
    assert (Hregs : Forall (Forall (λ n, regular n = true)) a).
    { simpl in Hreg. apply Forall_forall. intros s Hs'. apply Forall_forall. intros n Hn.
      rewrite forallb_forall in Hreg. specialize (Hreg s (proj1 (list_elem_of_In _ _) Hs')). rewrite forallb_forall in Hreg. apply Hreg. by apply list_elem_of_In. }
    assert (Hboth : Forall (Forall (λ n, Sound (mn n) (mat n) ∧ Complete (mn n) (mat n))) a).
    { rewrite Forall_forall in *. intros s Hs'. specialize (IH s Hs'). specialize (Hall s Hs'). specialize (Hregs s Hs'). rewrite Forall_forall in *.
      intros n Hn. split; [apply node_sound; auto|auto]. }
    apply (alt_complete a Hboth S pos caps _ q); [done|done| |done|].
    + intros p c Hr Hc. apply (group_cont S k pos p idx a c); [done..|]. intros c'. by apply Hk.
    + intros c Hc. by apply (group_hit k pos q idx a c).
  - simpl in Hreg. apply andb_prop in Hreg as [Hr1 Hr2]. intros S pos caps k q Hp Hs Hk (j & Hj1 & Hj2 & Hj) Hh.
    change (mn (Repeat n min max) pos caps k) with (m_rep (Datatypes.S (length t)) (mn n) min max pos caps 0 k).
    apply (rep_complete (mn n) (mat n) (moves_node n) (node_sound n Hin) min max S (IH Hin Hr1)) with j q; [|lia|done|done|by destruct max; simpl; lia| |done|done|done|done].
    + apply orb_prop in Hr2 as [Hr2|Hr2]; [left; by apply Nat.eqb_eq|right]. apply (eats_node). by apply negb_true_iff.
    + intros p c (i & Hi & Hmin & Hmax) Hc. apply Hk; [|done]. by exists i.
Qed.

End Correct.

(** ** Searching *)

(** The group numbers the parser gives out: from 1 to [ngroups]. *)
Definition numbered (re : Regex) : Prop := ∀ idx g, (idx, g) ∈ alt_groups (alt re) → (1 <= idx <= ngroups re)%nat.

Definition reaches (U : Unicode) (re : Regex) (t : list Z) (s e : nat) : Prop := alt_rel (denotes U t (icase re)) (alt re) s e.

(** The slots of a match that starts at or after [start]. *)
Definition reported (U : Unicode) (re : Regex) (t : list Z) (start : nat) (caps : Caps) (s e : nat) : Prop :=
  length caps = S (ngroups re) ∧ caps !! 0%nat = Some (Some (s, e)) ∧ (start <= s <= e)%nat ∧ (e <= length t)%nat ∧ reaches U re t s e ∧
  ∀ idx a b, (1 <= idx)%nat → caps !! idx = Some (Some (a, b)) → ∃ g, (idx, g) ∈ alt_groups (alt re) ∧ alt_rel (denotes U t (icase re)) g a b.

Lemma alt_in_range re : numbered re → Forall (Forall (in_range (S (ngroups re)) (alt_groups (alt re)))) (alt re).
Proof.
  intros Hn. apply Forall_forall. intros s Hs. apply Forall_forall. intros n Hi idx g Hg.
  assert ((idx, g) ∈ alt_groups (alt re)) as H; [|split; [done|specialize (Hn _ _ H); lia]].
  apply list_elem_of_bind. exists s. split; [|done]. apply list_elem_of_bind. by exists n.
Qed.

Lemma moves_reaches U re t : moves t (reaches U re t).
Proof. apply moves_alt. apply Forall_forall. intros s _. apply Forall_forall. intros n _. apply moves_node. Qed.

Lemma slots_start U t ic N gs : slots U t ic N gs (replicate N None).
Proof. split; [by rewrite length_replicate|]. intros idx a b H. apply lookup_replicate in H as [? _]. done. Qed.

(** One start position. *)
Lemma try_correct U re t s : numbered re → (s <= length t)%nat →
  match m_alt (m_node U t (icase re)) (alt re) s (replicate (S (ngroups re)) None) (λ p c, Ret (Some p, c)) with
  | Ret (Some e, c) => reaches U re t s e ∧ slots U t (icase re) (S (ngroups re)) (alt_groups (alt re)) c
  | Ret (None, _) => regular_alt (alt re) = true → ∀ e, ¬ reaches U re t s e
  | Panic => False
  end.
Proof.
  intros Hn Hs. set (N := S (ngroups re)). set (gs := alt_groups (alt re)). pose proof (alt_in_range re Hn) as Hin.
  set (P := λ e c, reaches U re t s e ∧ slots U t (icase re) N gs c). set (k := λ p c, Ret (Some p, c)).
  assert (Hk : ∀ p c, reaches U re t s p → slots U t (icase re) N gs c → fine U t (icase re) N gs P (k p c)) by done.
  assert (Hsound : fine U t (icase re) N gs P (m_alt (m_node U t (icase re)) (alt re) s (replicate N None) k)).
  { apply alt_sound; [|done|apply slots_start|done]. eapply Forall_impl; [exact Hin|]. intros x Hx. eapply Forall_impl; [exact Hx|]. intros n. apply node_sound. }
  assert (Hhit : regular_alt (alt re) = true → ∀ e, reaches U re t s e → hit (m_alt (m_node U t (icase re)) (alt re) s (replicate N None) k)).
  { intros Hr e He. unfold regular_alt in Hr. apply (alt_complete U t (icase re) N gs (alt re)) with P e; [|done|apply slots_start|done|done|done].
    rewrite Forall_forall in *. intros x Hx. specialize (Hin x Hx). rewrite Forall_forall in *. intros n Hxn.
    rewrite forallb_forall in Hr. specialize (Hr x (proj1 (list_elem_of_In _ _) Hx)). rewrite forallb_forall in Hr.
    split; [by apply node_sound, Hin|]. apply node_complete; [by apply Hin|]. apply Hr. by apply list_elem_of_In. }
  destruct (m_alt _ _ _ _ _) as [[[e|] c]|]; [exact Hsound| |done]. intros Hr e He. by destruct (Hhit Hr e He).
Qed.

Lemma find_from_correct U re t todo : numbered re → ∀ s, (todo = 0 ∨ s + todo = S (length t))%nat →
  ∃ r, find_from U re t s todo = Ret r ∧
    match r with
    | Some caps => ∃ s' e, reported U re t s caps s' e ∧ (regular_alt (alt re) = true → ∀ s1 e1, (s <= s1 < s')%nat → ¬ reaches U re t s1 e1)
    | None => regular_alt (alt re) = true → ∀ s1 e1, (s <= s1 < s + todo)%nat → ¬ reaches U re t s1 e1
    end.
Proof.
  intros Hn. induction todo as [|todo IH]; intros s Ht; [exists None; split; [done|intros; lia]|].
  pose proof (try_correct U re t s Hn ltac:(lia)) as H. cbn [find_from].
  destruct (m_alt _ _ _ _ _) as [[[e|] c]|]; cbn [mbind outcome_bind]; [| |done].
  - destruct H as [Hr [Hl Hg]]. eexists. split; [done|]. exists s, e. pose proof (moves_reaches U re t s e ltac:(lia) Hr).
    split; [|intros _ s1 e1 ?; lia]. split; [by rewrite length_insert|]. split; [apply list_lookup_insert_eq; lia|]. split; [lia|]. split; [lia|]. split; [done|].
    intros idx a b Hi Hx. rewrite list_lookup_insert_ne in Hx by lia. by eapply Hg.
  - destruct (IH (S s) ltac:(lia)) as (r & -> & Hr). exists r. split; [done|]. destruct r as [caps|].
    + destruct Hr as (s' & e & Hrep & Hleft). exists s', e. split; [destruct Hrep as (? & ? & ? & ?); split; [done|]; split; [done|]; split; [lia|done]|].
      intros Hreg s1 e1 Hs1. destruct (decide (s1 = s)) as [->|]; [by apply H|]. apply Hleft; [done|lia].
    + intros Hreg s1 e1 Hs1. destruct (decide (s1 = s)) as [->|]; [by apply H|]. apply Hr; [done|lia].
Qed.

(** The search is total and right: it never panics and always ends; a match
    it reports lies at or after the start, is in the language of the
    expression, and every capture slot that is set holds a stretch its group
    matches.  If no repetition demands a minimum of a body that can be empty,
    it is the leftmost: nothing matches at an earlier position, and when
    nothing is reported nothing matches at all. *)
Lemma find_at_correct U re t start : numbered re → ∃ r, find_at U re t start = Ret r ∧
  match r with
  | Some caps => ∃ s e, reported U re t start caps s e ∧ (regular_alt (alt re) = true → ∀ s1 e1, (start <= s1 < s)%nat → ¬ reaches U re t s1 e1)
  | None => regular_alt (alt re) = true → ∀ s1 e1, (start <= s1 <= length t)%nat → ¬ reaches U re t s1 e1
  end.
Proof.
  intros Hn. destruct (find_from_correct U re t (S (length t) - start) Hn start ltac:(lia)) as (r & Hr & H). exists r. split; [done|].
  destruct r; [done|]. intros Hreg s1 e1 ?. apply H; [done|lia].
Qed.

(** The expression [\(a*\)\{2\}]. *)
Definition empty_twice : Regex := mk_regex [[Repeat (Group 1 [[Repeat (Char 97) 0 None]]) 2 (Some 2%nat)]] 1 false.

(** A repetition whose body matches the empty text does not count the empty
    repetitions its minimum needs: two of [a*] match the empty text, and the
    matcher says they do not. *)
Theorem empty_repetition_refused U : reaches U empty_twice [] 0 0 ∧ find_at U empty_twice [] 0 = Ret None.
Proof.
  split; [|reflexivity]. left. exists 0%nat. split; [|done]. exists 2%nat. split; [lia|]. split; [simpl; lia|].
  assert (H : alt_rel (denotes U [] false) [[Repeat (Char 97) 0 None]] 0 0) by (left; exists 0%nat; split; [|done]; exists 0%nat; simpl; split; [lia|done]).
  exists 0%nat. split; [exact H|]. exists 0%nat. split; [exact H|done].
Qed.

End Regex.
