(* ===== verification/RegexParse.v ===== *)
(** * The regular expression parser of sed (programs/sed/src/regex.rs)

    [Regex::new] for basic and extended expressions: a recursive-descent parser
    over the pattern, with its position and group counter as state.  The loops
    of the code are recursion on fuel; each round consumes a character, so
    [S (length src)] rounds are enough, which is part of what is proved. *)

From Stdlib Require Import Strings.String Strings.Ascii.
From S2P Require Import Prelude Regex.

Module RegexParse.

Import Regex.

Definition codes (s : string) : list Z := (λ a, Z.of_nat (nat_of_ascii a)) <$> list_ascii_of_string s.
Definition code (a : ascii) : Z := Z.of_nat (nat_of_ascii a).

(** ** State, errors and their monad *)

Record PState := mk_ps { pos : nat; ng : nat }.

Inductive ParseError :=
| UnmatchedClose (offset : nat)
| TrailingBackslash
| UnmatchedOpen
| UnterminatedBracket
| TrailingBackslashInBracket
| BadInterval
| UnterminatedInterval.

Definition P (A : Type) : Type := PState → outcome (result ParseError (A * PState)).

#[export] Instance P_ret : MRet P := λ A a st, Ret (Ok (a, st)).
#[export] Instance P_bind : MBind P := λ A B f m st,
  match m st with
  | Panic => Panic
  | Ret (Err e) => Ret (Err e)
  | Ret (Ok (a, st)) => f a st
  end.

Definition fail {A} (e : ParseError) : P A := λ _, Ret (Err e).
Definition panic {A} : P A := λ _, Panic.
(** [self.pos += n]. *)
Definition skip (n : nat) : P unit := λ st, Ret (Ok (tt, mk_ps (pos st + n) (ng st))).
(** A read of the state. *)
Definition gets {A} (f : PState → A) : P A := λ st, Ret (Ok (f st, st)).
Definition or_fail {A} (o : option A) (e : ParseError) : P A := match o with Some a => mret a | None => fail e end.

Section Parser.

Context (src : list Z) (ere : bool).

(** [self.src[self.pos]]. *)
Definition current : P Z := λ st, match src !! pos st with Some c => Ret (Ok (c, st)) | None => Panic end.

Definition peek (st : PState) : option Z := src !! pos st.
Definition peek2 (st : PState) : option Z := src !! S (pos st).
Definition is_ (o : option Z) (a : ascii) : bool := bool_decide (o = Some (code a)).

Definition at_alt (st : PState) : bool := if ere then is_ (peek st) "|" else is_ (peek st) "092" && is_ (peek2 st) "|".
Definition at_group_close (st : PState) : bool := if ere then is_ (peek st) ")" else is_ (peek st) "092" && is_ (peek2 st) ")".

Definition bre_dollar_is_anchor (st : PState) : bool :=
  match src !! (pos st + 1)%nat with
  | None => true
  | Some c => if c =? code "092" then is_ (src !! (pos st + 2)%nat) ")" || is_ (src !! (pos st + 2)%nat) "|" else false
  end.

(** ** Bracket expressions *)

Definition known : list (list Z * ClassName) :=
  [(codes "alpha", Alpha); (codes "digit", Digit); (codes "alnum", Alnum); (codes "space", Space); (codes "upper", Upper); (codes "lower", Lower);
   (codes "punct", Punct); (codes "xdigit", Xdigit); (codes "blank", Blank); (codes "print", Print_); (codes "graph", Graph); (codes "cntrl", Cntrl)].

(** [rest.find(":]")]: the text before the first occurrence. *)
Fixpoint before_close (rest : list Z) : option (list Z) :=
  match rest with
  | a :: (b :: _) as rest' => if (a =? code ":") && (b =? code "]") then Some [] else (cons a) <$> before_close rest'
  | _ => None
  end.

(** A class name [[:name:]] at the position, and the characters it takes. *)
Definition class_name (st : PState) : option (ClassName * nat) :=
  if is_ (peek st) "[" && is_ (peek2 st) ":" then
    match before_close (drop (pos st + 2) src) with
    | Some name => match list_find (λ k, k.1 = name) known with Some (_, (_, n)) => Some (n, 2 + length name + 2)%nat | None => None end
    | None => None
    end
  else None.

Definition unescape (n : Z) : Z := if n =? code "n" then 10 else if n =? code "t" then 9 else if n =? code "r" then 13 else n.

(** One character or range. *)
Definition class_item (c : Z) : P ClassItem :=
  skip 1;;
  lo ← (if c =? code "092" then n ← gets peek; n ← or_fail n TrailingBackslashInBracket; skip 1;; mret (unescape n) else mret c);
  dash ← gets (λ st, is_ (peek st) "-" && match peek2 st with Some n => negb (n =? code "]") | None => false end);
  if dash : bool then skip 1;; hi ← current; skip 1;; mret (Range lo hi) else mret (Ch lo).

Fixpoint class_loop (fuel : nat) (first : bool) (items : list ClassItem) : P (list ClassItem) :=
  match fuel with
  | O => panic
  | S fuel =>
      c ← gets peek;
      c ← or_fail c UnterminatedBracket;
      if (c =? code "]") && negb first then skip 1;; mret items
      else
        named ← gets class_name;
        match named with
        | Some (n, len) => skip len;; class_loop fuel false (items ++ [Named n])
        | None => it ← class_item c; class_loop fuel false (items ++ [it])
        end
  end.

Definition parse_class : P Node :=
  neg ← gets (λ st, is_ (peek st) "^");
  (if neg : bool then skip 1 else mret tt);;
  items ← class_loop (S (length src)) true [];
  mret (Class_ neg items).

(** ** Repetition operators *)

Fixpoint digits (l : list Z) : list Z := match l with c :: l => if is_ascii_digit c then c :: digits l else [] | [] => [] end.
Definition number (ds : list Z) : Z := foldl (λ n d, n * 10 + (d - 48)) 0 ds.
(** [parse::<u32>()] of a run of digits. *)
Definition parse_u32 (ds : list Z) : option nat :=
  match ds with [] => None | _ => if number ds <=? U32_MAX then Some (Z.to_nat (number ds)) else None end.

Definition take_digits : P (list Z) := ds ← gets (λ st, digits (drop (pos st) src)); skip (length ds);; mret ds.

Definition parse_interval (close_len : nat) : P (option (nat * option nat)) :=
  ds ← take_digits;
  min ← or_fail (parse_u32 ds) BadInterval;
  comma ← gets (λ st, is_ (peek st) ",");
  max ← (if comma : bool then
           skip 1;;
           hi ← take_digits;
           match hi with [] => mret None | _ => m ← or_fail (parse_u32 hi) BadInterval; mret (Some m) end
         else mret (Some min));
  closer_ok ← gets (λ st, if (close_len =? 1)%nat then is_ (peek st) "}" else is_ (peek st) "092" && is_ (peek2 st) "}");
  if negb closer_ok then fail UnterminatedInterval else skip close_len;; mret (Some (min, max)).

Definition parse_postfix : P (option (nat * option nat)) :=
  c ← gets peek;
  d ← gets peek2;
  if is_ c "*" then skip 1;; mret (Some (0%nat, None))
  else if ere then
    if is_ c "+" then skip 1;; mret (Some (1%nat, None))
    else if is_ c "?" then skip 1;; mret (Some (0%nat, Some 1%nat))
    else if is_ c "{" then skip 1;; parse_interval 1
    else mret None
  else if is_ c "092" then
    if is_ d "+" then skip 2;; mret (Some (1%nat, None))
    else if is_ d "?" then skip 2;; mret (Some (0%nat, Some 1%nat))
    else if is_ d "{" then skip 2;; parse_interval 2
    else mret None
  else mret None.

Fixpoint postfix_loop (fuel : nat) (atom : Node) : P Node :=
  match fuel with
  | O => panic
  | S fuel => r ← parse_postfix; match r with Some (min, max) => postfix_loop fuel (Repeat atom min max) | None => mret atom end
  end.

(** ** Atoms, sequences and alternatives *)

(** [parse_alt] is the parser of what is inside a group. *)
Section Inner.

Context (inner : P Alt).

Definition parse_group (open_len : nat) : P Node :=
  idx ← (λ st, Ret (Ok (S (ng st), mk_ps (pos st) (S (ng st)))));
  a ← inner;
  close ← gets at_group_close;
  if negb close then fail UnmatchedOpen else skip open_len;; mret (Group idx a).

Definition parse_atom : P Node :=
  c ← current;
  skip 1;;
  if c =? code "." then mret Any
  else if c =? code "[" then parse_class
  else if (c =? code "(") && ere then parse_group 1
  else if c =? code "092" then
    n ← gets peek;
    n ← or_fail n TrailingBackslash;
    skip 1;;
    if (n =? code "(") && negb ere then parse_group 2
    else if n =? code "n" then mret (Char 10)
    else if n =? code "t" then mret (Char 9)
    else if n =? code "r" then mret (Char 13)
    else if (n =? code "w") || (n =? code "W") then mret (Class_ (n =? code "W") [Named Alnum; Ch (code "_")])
    else if (n =? code "s") || (n =? code "S") then mret (Class_ (n =? code "S") [Named Space])
    else mret (Char n)
  else mret (Char c).

Fixpoint seq_loop (fuel : nat) (out : Seq) : P Seq :=
  match fuel with
  | O => panic
  | S fuel =>
      more ← gets (λ st, (pos st <? length src)%nat && negb (at_alt st) && negb (at_group_close st));
      if negb more then mret out
      else
        c ← current;
        dollar ← gets bre_dollar_is_anchor;
        if (c =? code "^") && (ere || bool_decide (out = [])) then skip 1;; seq_loop fuel (out ++ [Bol])
        else if (c =? code "$") && (ere || dollar) then skip 1;; seq_loop fuel (out ++ [Eol])
        else
          atom ← (if (c =? code "*") && negb ere && bool_decide (out = []) then skip 1;; mret (Char (code "*")) else parse_atom);
          atom ← postfix_loop (S (length src)) atom;
          seq_loop fuel (out ++ [atom])
  end.

Definition parse_seq : P Seq := seq_loop (S (length src)) [].

Fixpoint alt_loop (fuel : nat) (branches : Alt) : P Alt :=
  match fuel with
  | O => panic
  | S fuel =>
      more ← gets at_alt;
      if negb more then mret branches
      else skip (if ere then 1%nat else 2%nat);; s ← parse_seq; alt_loop fuel (branches ++ [s])
  end.

End Inner.

Fixpoint parse_alt (fuel : nat) : P Alt :=
  match fuel with
  | O => panic
  | S fuel => s ← parse_seq (parse_alt fuel); alt_loop (parse_alt fuel) (S (length src)) [s]
  end.

End Parser.

Definition new (pattern : list Z) (ere icase : bool) : outcome (result ParseError Regex) :=
  match parse_alt pattern ere (S (length pattern)) (mk_ps 0 0) with
  | Panic => Panic
  | Ret (Err e) => Ret (Err e)
  | Ret (Ok (a, st)) => if (pos st <? length pattern)%nat then Ret (Err (UnmatchedClose (pos st))) else Ret (Ok (mk_regex a (ng st) icase))
  end.

(** ** Totality and the numbering of groups *)

(** What [m] leads to from [st]: no panic, and [Q] of a result. *)
Definition spec {A} (m : P A) (st : PState) (Q : A → PState → Prop) : Prop :=
  match m st with Panic => False | Ret (Err _) => True | Ret (Ok (a, st')) => Q a st' end.

Lemma spec_bind {A B} (m : P A) (f : A → P B) st Q : spec m st (λ a st', spec (f a) st' Q) → spec (m ≫= f) st Q.
Proof. unfold spec, mbind, P_bind. by destruct (m st) as [[[a st']|e]|]. Qed.

Lemma spec_weaken {A} (m : P A) st (Q Q' : A → PState → Prop) : spec m st Q → (∀ a st', Q a st' → Q' a st') → spec m st Q'.
Proof. unfold spec. destruct (m st) as [[[a st']|e]|]; auto. Qed.

Lemma spec_then {A B} (m : P A) (f : A → P B) st Q Q' : spec m st Q → (∀ a st', Q a st' → spec (f a) st' Q') → spec (m ≫= f) st Q'.
Proof. intros H1 H2. apply spec_bind. by eapply spec_weaken. Qed.

Lemma spec_gets {A B} (g : PState → A) (f : A → P B) st Q : spec (f (g st)) st Q → spec (gets g ≫= f) st Q.
Proof. done. Qed.

Lemma spec_skip {B} n (f : unit → P B) st Q : spec (f tt) (mk_ps (pos st + n) (ng st)) Q → spec (skip n ≫= f) st Q.
Proof. done. Qed.

Lemma spec_or_fail {A B} (o : option A) e (f : A → P B) st Q : (∀ a, o = Some a → spec (f a) st Q) → spec (or_fail o e ≫= f) st Q.
Proof. destruct o; [intros H; by apply H|done]. Qed.

Section Total.

Context (src : list Z) (ere : bool).

Abbreviation len := (length src).

Lemma spec_current {B} c (f : Z → P B) st Q : src !! pos st = Some c → spec (f c) st Q → spec (current src ≫= f) st Q.
Proof. unfold spec, mbind, P_bind, current. by intros ->. Qed.

(** A parser that numbers the groups it opens [l] and stays in the pattern. *)
Definition grown (st st' : PState) (l : list nat) : Prop := (pos st <= pos st' <= len)%nat ∧ (ng st <= ng st')%nat ∧ l = seq (S (ng st)) (ng st' - ng st).

Lemma grown_refl st : (pos st <= len)%nat → grown st st [].
Proof. intros. split; [lia|]. by rewrite Nat.sub_diag. Qed.

Lemma grown_trans st st1 st2 l1 l2 : grown st st1 l1 → grown st1 st2 l2 → grown st st2 (l1 ++ l2).
Proof.
  intros (? & ? & ->) (? & ? & ->). split; [lia|]. split; [lia|].
  replace (S (ng st1)) with (S (ng st) + (ng st1 - ng st))%nat by lia. rewrite <- seq_app. f_equal. lia.
Qed.

Lemma grown_skip st n : (pos st + n <= len)%nat → grown st (mk_ps (pos st + n) (ng st)) [].
Proof. intros. split; simpl; [lia|]. by rewrite Nat.sub_diag. Qed.

(** The quiet parsers: they move the position only. *)
Definition moved (st st' : PState) : Prop := (pos st <= pos st' <= len)%nat ∧ ng st' = ng st.

Lemma moved_grown st st' : moved st st' → grown st st' [].
Proof. intros [? E]. split; [done|]. rewrite E, Nat.sub_diag. done. Qed.

Lemma is_true o a : is_ o a = true → ∃ c, o = Some c.
Proof. unfold is_. intros ->%bool_decide_eq_true. eauto. Qed.

Lemma peek_lt st c : peek src st = Some c → (pos st < len)%nat.
Proof. apply lookup_lt_Some. Qed.
Lemma peek2_lt st c : peek2 src st = Some c → (S (pos st) < len)%nat.
Proof. apply lookup_lt_Some. Qed.

(** *** Brackets *)

Lemma before_close_len rest name : before_close rest = Some name → (length name + 2 <= length rest)%nat.
Proof.
  revert name; induction rest as [|a rest IH]; intros name H; [done|]. destruct rest as [|b rest]; [done|].
  change (before_close (a :: b :: rest)) with (if (a =? code ":") && (b =? code "]") then Some [] else cons a <$> before_close (b :: rest)) in H.
  destruct (_ && _); [simplify_eq; simpl; lia|]. destruct (before_close (b :: rest)) as [name'|]; [|done]. simpl in H. simplify_eq.
  specialize (IH _ eq_refl). simpl in *. lia.
Qed.

Lemma class_name_len st n k : class_name src st = Some (n, k) → (1 <= k)%nat ∧ (pos st + k <= len)%nat.
Proof.
  unfold class_name. destruct (_ && _); [|done]. destruct (before_close _) as [name|] eqn:Hb; [|done].
  destruct (list_find _ _) as [[? [? ?]]|]; [|done]. intros; simplify_eq. apply before_close_len in Hb. rewrite length_drop in Hb. lia.
Qed.

Lemma class_item_spec c st : (pos st < len)%nat → spec (class_item src c) st (λ _ st', moved st st' ∧ (pos st < pos st')%nat).
Proof.
  intros Hp. unfold class_item. apply spec_skip. set (st1 := mk_ps _ _).
  apply (spec_then _ _ _ (λ _ st', moved st1 st')).
  { destruct (c =? _); [|split; [simpl; lia|done]]. apply spec_gets, spec_or_fail. intros n Hn%peek_lt. apply spec_skip. split; [simpl in *; lia|done]. }
  intros lo st2 [Hm Hg]. apply spec_gets. destruct (is_ (peek src st2) _ && _) eqn:Hd; [|split; [split; [simpl in *; lia|done]|simpl in *; lia]].
  apply andb_prop in Hd as [_ Hd]. destruct (peek2 src st2) as [hi|] eqn:H2; [|done]. pose proof (peek2_lt _ _ H2) as Hlt.
  apply spec_skip. apply (spec_current hi); [simpl; by rewrite Nat.add_1_r|]. apply spec_skip. split; [split; [simpl in *; lia|done]|simpl in *; lia].
Qed.

Lemma class_loop_spec fuel : ∀ first items st, (pos st <= len)%nat → (len - pos st < fuel)%nat → spec (class_loop src fuel first items) st (λ _, moved st).
Proof.
  induction fuel as [|fuel IH]; intros first items st Hp Hf; [lia|]. simpl. apply spec_gets, spec_or_fail. intros c Hc%peek_lt.
  destruct (_ && _); [split; [simpl; lia|done]|]. apply spec_gets. destruct (class_name src st) as [[n k]|] eqn:Hn.
  - apply class_name_len in Hn as [? ?]. apply spec_skip. eapply spec_weaken; [apply IH; simpl; lia|]. intros _ st' [? ?]. split; [simpl in *; lia|done].
  - eapply spec_then; [by apply class_item_spec|]. intros it st1 [[? ?] ?]. eapply spec_weaken; [apply IH; lia|]. intros _ st' [? ?]. split; [lia|congruence].
Qed.

Lemma parse_class_spec st : (pos st <= len)%nat → spec (parse_class src) st (λ n st', moved st st' ∧ groups n = []).
Proof.
  intros Hp. unfold parse_class. apply spec_gets. apply (spec_then _ _ _ (λ _ st', moved st st')).
  { destruct (is_ _ _) eqn:Hi; [|by split]. apply is_true in Hi as (c & Hc%peek_lt). split; [simpl; lia|done]. }
  intros _ st1 [H1 H2]. eapply spec_then; [apply class_loop_spec; lia|]. intros items st2 [? ?]. split; [split; [lia|congruence]|done].
Qed.

(** *** Repetition operators *)

Lemma digits_len l : (length (digits l) <= length l)%nat.
Proof. induction l as [|c l IH]; simpl; [lia|]. destruct (is_ascii_digit c); simpl; lia. Qed.

Lemma take_digits_spec st : (pos st <= len)%nat → spec (take_digits src) st (λ _, moved st).
Proof. intros Hp. unfold take_digits. apply spec_gets, spec_skip. pose proof (digits_len (drop (pos st) src)) as H. rewrite length_drop in H. split; [simpl; lia|done]. Qed.

Lemma parse_interval_spec k st : (k = 1 ∨ k = 2)%nat → (pos st <= len)%nat → spec (parse_interval src k) st (λ _, moved st).
Proof.
  intros Hk Hp. unfold parse_interval. eapply spec_then; [by apply take_digits_spec|]. intros ds st1 [H1 G1]. apply spec_or_fail. intros min _. apply spec_gets.
  apply (spec_then _ _ _ (λ _ st', moved st st')).
  { destruct (is_ (peek src st1) _) eqn:Hi; [|done]. apply is_true in Hi as (c & Hc%peek_lt). apply spec_skip. eapply spec_then; [apply take_digits_spec; simpl; lia|].
    intros hi st2 [H2 G2]. simpl in *. destruct hi; [split; [lia|congruence]|]. apply spec_or_fail. intros m _. split; [lia|congruence]. }
  intros max st2 [H2 G2]. apply spec_gets. destruct (if (k =? 1)%nat then _ else _) eqn:Hc; [|done]. apply spec_skip. split; [|done]. simpl.
  destruct Hk as [-> | ->]; simpl in Hc.
  - apply is_true in Hc as (c & Hc%peek_lt). lia.
  - apply andb_prop in Hc as [_ Hc]. apply is_true in Hc as (c & Hc%peek2_lt). lia.
Qed.

Lemma parse_postfix_spec st : (pos st <= len)%nat →
  spec (parse_postfix src ere) st (λ r st', moved st st' ∧ (r = None ∨ (pos st < pos st')%nat)).
Proof.
  intros Hp. unfold parse_postfix. apply spec_gets, spec_gets.
  assert (Hnone : spec (mret None : P (option (nat * option nat))) st (λ r st', moved st st' ∧ (r = None ∨ (pos st < pos st')%nat))) by (by split; [|left]).
  assert (Hsome : ∀ n x, (pos st + n <= len)%nat → (1 <= n)%nat → spec (skip n;; mret x) st (λ (r : option (nat * option nat)) st', moved st st' ∧ (r = None ∨ (pos st < pos st')%nat)))
    by (intros n x ? ?; split; [split; [simpl; lia|done]|right; simpl; lia]).
  assert (Hint : ∀ n, (pos st + n <= len)%nat → (n = 1 ∨ n = 2)%nat → spec (skip n;; parse_interval src n) st (λ r st', moved st st' ∧ (r = None ∨ (pos st < pos st')%nat))).
  { intros n ? Hn. apply spec_skip. eapply spec_weaken; [by apply parse_interval_spec|]. intros r st' [? ?]. simpl in *. split; [split; [lia|done]|right; lia]. }
  assert (H1 : ∀ a, is_ (peek src st) a = true → (pos st + 1 <= len)%nat) by (intros a (c & Hc%peek_lt)%is_true; lia).
  assert (H2 : ∀ a, is_ (peek2 src st) a = true → (pos st + 2 <= len)%nat) by (intros a (c & Hc%peek2_lt)%is_true; lia).
  destruct (is_ (peek src st) "*") eqn:E1; [eauto|]. destruct ere.
  - destruct (is_ (peek src st) "+") eqn:E2; [eauto|]. destruct (is_ (peek src st) "?") eqn:E3; [eauto|]. destruct (is_ (peek src st) "{") eqn:E4; eauto.
  - destruct (is_ (peek src st) "092"); [|done]. destruct (is_ (peek2 src st) "+") eqn:E2; [eauto|]. destruct (is_ (peek2 src st) "?") eqn:E3; [eauto|].
    destruct (is_ (peek2 src st) "{") eqn:E4; eauto.
Qed.

Lemma postfix_loop_spec fuel : ∀ atom st, (pos st <= len)%nat → (len - pos st < fuel)%nat →
  spec (postfix_loop src ere fuel atom) st (λ n st', moved st st' ∧ groups n = groups atom).
Proof.
  induction fuel as [|fuel IH]; intros atom st Hp Hf; [lia|]. simpl. eapply spec_then; [by apply parse_postfix_spec|].
  intros [[min max]|] st1 [[? ?] Hs]; [|by split]. destruct Hs as [|Hs]; [done|]. eapply spec_weaken; [apply IH; lia|].
  intros n st' [[? ?] ?]. split; [split; [lia|congruence]|done].
Qed.

(** *** Groups, sequences and alternatives *)

Definition nums (l : list (nat * Alt)) : list nat := fst <$> l.
Definition seq_nums (s : Seq) : list nat := nums (s ≫= groups).
Definition alt_nums (a : Alt) : list nat := nums (alt_groups a).

Lemma seq_nums_snoc s n : seq_nums (s ++ [n]) = seq_nums s ++ nums (groups n).
Proof. unfold seq_nums, nums. rewrite bind_app. simpl. by rewrite app_nil_r, fmap_app. Qed.

Lemma alt_nums_snoc a s : alt_nums (a ++ [s]) = alt_nums a ++ seq_nums s.
Proof. unfold alt_nums, seq_nums, nums, alt_groups. rewrite bind_app. simpl. by rewrite app_nil_r, fmap_app. Qed.

Section Inner.

Context (inner : P Alt) (f : nat)
  (Hin : ∀ st, (pos st <= len)%nat → (len - pos st < f)%nat → spec inner st (λ a st', grown st st' (alt_nums a))).

Lemma parse_group_spec k st : (k <= 1 ∨ k = 2 ∧ ere = false)%nat → (pos st <= len)%nat → (len - pos st < f)%nat →
  spec (parse_group src ere inner k) st (λ n st', grown st st' (nums (groups n))).
Proof.
  intros Hk Hp Hf. unfold parse_group. apply spec_bind. unfold spec at 1. eapply spec_then; [by apply Hin|]. intros a st1 (H1 & H2 & H3). simpl in *.
  apply spec_gets. destruct (at_group_close src ere st1) eqn:Hc; [|done]. apply spec_skip.
  assert (Hle : (pos st1 + k <= len)%nat).
  { unfold at_group_close in Hc. destruct ere; [apply is_true in Hc as (c & Hc%peek_lt); lia|].
    apply andb_prop in Hc as [_ Hc]. apply is_true in Hc as (c & Hc%peek2_lt). lia. }
  split; [simpl; lia|]. split; [simpl; lia|]. cbn [ng].
  replace (ng st1 - ng st)%nat with (S (ng st1 - S (ng st))) by lia. exact (f_equal (cons (S (ng st))) H3).
Qed.

Lemma parse_atom_spec st : (pos st < len)%nat → (len - pos st <= f)%nat →
  spec (parse_atom src ere inner) st (λ n st', grown st st' (nums (groups n)) ∧ (pos st < pos st')%nat).
Proof.
  intros Hp Hf. unfold parse_atom. destruct (lookup_lt_is_Some_2 src (pos st) Hp) as [c Hc]. apply (spec_current c); [done|]. apply spec_skip.
  set (st1 := mk_ps _ _).
  assert (Hleaf : ∀ n st2, moved st1 st2 → groups n = [] → grown st st2 (nums (groups n)) ∧ (pos st < pos st2)%nat).
  { intros n st2 [H1 H2] ->. split; [apply moved_grown; split; [simpl in *; lia|done]|simpl in *; lia]. }
  assert (H11 : moved st1 st1) by (split; [simpl; lia|done]).
  assert (Hgroup : ∀ st2 k, moved st1 st2 → (k <= 1 ∨ k = 2 ∧ ere = false)%nat → spec (parse_group src ere inner k) st2 (λ n st', grown st st' (nums (groups n)) ∧ (pos st < pos st')%nat)).
  { intros st2 k [H1 H2] Hk. eapply spec_weaken; [apply parse_group_spec; simpl in *; [done|lia|lia]|]. intros n st' Hg. split; [|destruct Hg as [? _]; simpl in *; lia].
    apply (grown_trans st st2 st' []); [apply moved_grown; split; [simpl in *; lia|done]|done]. }
  destruct (c =? code "."); [by apply Hleaf|]. destruct (c =? code "[").
  { eapply spec_weaken; [apply parse_class_spec; simpl; lia|]. intros n st' [? ?]. by apply Hleaf. }
  destruct (_ && _); [apply Hgroup; [done|lia]|]. destruct (c =? code "092"); [|by apply Hleaf].
  apply spec_gets, spec_or_fail. intros n Hn%peek_lt. apply spec_skip. set (st2 := mk_ps _ _).
  assert (H12 : moved st1 st2) by (split; [simpl in *; lia|done]).
  destruct (_ && negb ere) eqn:Hg; [apply Hgroup; [done|right; split; [done|]; apply andb_prop in Hg as [_ ?]; by apply negb_true_iff]|].
  repeat match goal with |- spec (if ?b then _ else _) _ _ => destruct b end; by apply Hleaf.
Qed.

Lemma seq_loop_spec fuel : ∀ out st, (pos st <= len)%nat → (len - pos st < fuel)%nat → (len - pos st <= f)%nat →
  spec (seq_loop src ere inner fuel out) st (λ s st', ∃ l, seq_nums s = seq_nums out ++ l ∧ grown st st' l).
Proof.
  induction fuel as [|fuel IH]; intros out st Hp Hf Hff; [lia|]. cbn [seq_loop]. apply spec_gets.
  destruct (Nat.ltb_spec (pos st) len) as [Hlt|]; [|exists []; rewrite app_nil_r; split; [done|by apply grown_refl]].
  destruct (_ && _) eqn:Hm; [|exists []; rewrite app_nil_r; split; [done|by apply grown_refl]]. clear Hm. cbn [negb].
  destruct (lookup_lt_is_Some_2 src (pos st) Hlt) as [c Hc]. apply (spec_current c); [done|]. apply spec_gets.
  assert (Hnext : ∀ n st1, grown st st1 (nums (groups n)) → (pos st < pos st1)%nat →
    spec (seq_loop src ere inner fuel (out ++ [n])) st1 (λ s st', ∃ l, seq_nums s = seq_nums out ++ l ∧ grown st st' l)).
  { intros n st1 Hg Hlt1. pose proof Hg as ([H1 H2] & H3 & _). eapply spec_weaken; [apply IH; lia|]. intros s st' (l & Hs & Hg'). exists (nums (groups n) ++ l).
    rewrite Hs, seq_nums_snoc, <- app_assoc. split; [done|]. by eapply grown_trans. }
  destruct (_ && _); [apply spec_skip, Hnext; [apply grown_skip; lia|simpl; lia]|].
  destruct (_ && _); [apply spec_skip, Hnext; [apply grown_skip; lia|simpl; lia]|].
  apply (spec_then _ _ _ (λ n st', grown st st' (nums (groups n)) ∧ (pos st < pos st')%nat)).
  { destruct (_ && _); [split; [apply grown_skip; simpl; lia|simpl; lia]|by apply parse_atom_spec]. }
  intros atom st1 [Hg Hlt1]. pose proof Hg as ([H1 H2] & H3 & _). eapply spec_then; [apply postfix_loop_spec; lia|].
  intros n st2 [Hm2 Hgr]. apply Hnext; [|destruct Hm2; lia]. rewrite Hgr, <- (app_nil_r (nums _)). eapply grown_trans; [done|by apply moved_grown].
Qed.

Lemma parse_seq_spec st : (pos st <= len)%nat → (len - pos st <= f)%nat → spec (parse_seq src ere inner) st (λ s st', grown st st' (seq_nums s)).
Proof. intros Hp Hf. eapply spec_weaken; [apply seq_loop_spec; lia|]. intros s st' (l & Hs & Hg). by rewrite Hs. Qed.

Lemma alt_loop_spec fuel : ∀ branches st, (pos st <= len)%nat → (len - pos st < fuel)%nat → (len - pos st <= f)%nat →
  spec (alt_loop src ere inner fuel branches) st (λ a st', ∃ l, alt_nums a = alt_nums branches ++ l ∧ grown st st' l).
Proof.
  induction fuel as [|fuel IH]; intros branches st Hp Hf Hff; [lia|]. simpl. apply spec_gets.
  destruct (at_alt src ere st) eqn:Ha; [|exists []; rewrite app_nil_r; split; [done|by apply grown_refl]]. apply spec_skip.
  assert (Hle : (pos st + (if ere then 1 else 2) <= len)%nat).
  { unfold at_alt in Ha. destruct ere; [apply is_true in Ha as (c & Hc%peek_lt); lia|]. apply andb_prop in Ha as [_ Ha]. apply is_true in Ha as (c & Hc%peek2_lt). lia. }
  set (k := if ere then 1%nat else 2%nat) in *. assert (1 <= k)%nat by (unfold k; destruct ere; lia).
  eapply spec_then; [apply parse_seq_spec; simpl; lia|]. intros s st1 Hg. pose proof Hg as ([H1 H2] & H3 & _). simpl in *.
  eapply spec_weaken; [apply IH; lia|]. intros a st' (l & Hl & Hg'). exists (seq_nums s ++ l). rewrite Hl, alt_nums_snoc, <- app_assoc. split; [done|].
  apply (grown_trans st (mk_ps (pos st + k) (ng st)) st' []); [by apply grown_skip|]. by eapply grown_trans.
Qed.

End Inner.

Lemma parse_alt_spec fuel : ∀ st, (pos st <= len)%nat → (len - pos st < fuel)%nat → spec (parse_alt src ere fuel) st (λ a st', grown st st' (alt_nums a)).
Proof.
  induction fuel as [|fuel IH]; intros st Hp Hf; [lia|]. cbn [parse_alt].
  eapply spec_then; [apply (parse_seq_spec _ fuel IH); lia|]. intros s st1 Hg. pose proof Hg as ([H1 H2] & H3 & _).
  eapply spec_weaken; [apply (alt_loop_spec _ fuel IH); lia|]. intros a st' (l & Hl & Hg'). rewrite Hl, (alt_nums_snoc [] s : alt_nums [s] = seq_nums s).
  exact (grown_trans _ _ _ _ _ Hg Hg').
Qed.

End Total.

Lemma new_spec pattern ere ic : ∃ r, new pattern ere ic = Ret r ∧
  match r with Ok re => icase re = ic ∧ fst <$> alt_groups (alt re) = seq 1 (ngroups re) | Err _ => True end.
Proof.
  pose proof (parse_alt_spec pattern ere (S (length pattern)) (mk_ps 0 0) ltac:(simpl; lia) ltac:(simpl; lia)) as H. unfold spec in H. unfold new.
  destruct (parse_alt pattern ere (S (length pattern)) (mk_ps 0 0)) as [[[a st]|e]|]; [|by eexists (Err _)|done].
  destruct (pos st <? length pattern)%nat; [by eexists (Err _)|].
  exists (Ok (mk_regex a (ng st) ic)). split; [done|]. split; [done|]. destruct H as (_ & _ & H). simpl in H. by rewrite Nat.sub_0_r in H.
Qed.

(** [Regex::new] is total: on every pattern, basic or extended, it ends
    without a panic in an expression or an error, and the groups of the
    expression are numbered 1, 2, ... in the order they open, one capture slot
    for each. *)
Theorem new_total pattern ere ic : ∃ r, new pattern ere ic = Ret r ∧
  match r with Ok re => icase re = ic ∧ fst <$> alt_groups (alt re) = seq 1 (ngroups re) | Err _ => True end.
Proof. apply new_spec. Qed.

Lemma numbered_seq re : fst <$> alt_groups (alt re) = seq 1 (ngroups re) → numbered re.
Proof.
  intros Hn idx g Hg. assert (Hi : idx ∈ seq 1 (ngroups re)) by (rewrite <- Hn; apply list_elem_of_fmap; by exists (idx, g)).
  apply elem_of_seq in Hi. lia.
Qed.

(** C19 Searching with a parsed pattern is total and right: it never panics and
    always ends; a match it reports lies at or after the start, is in the
    language of the expression, and every capture slot that is set holds a
    stretch its group matches.  If no repetition demands a minimum of a body
    that can be empty, it is the leftmost: nothing matches at an earlier
    position, and when nothing is reported nothing matches at all. *)
Theorem search_correct U pattern ere ic re t start : new pattern ere ic = Ret (Ok re) → ∃ r, find_at U re t start = Ret r ∧
  match r with
  | Some caps => ∃ s e, reported U re t start caps s e ∧ (regular_alt (alt re) = true → ∀ s1 e1, (start <= s1 < s)%nat → ¬ reaches U re t s1 e1)
  | None => regular_alt (alt re) = true → ∀ s1 e1, (start <= s1 <= length t)%nat → ¬ reaches U re t s1 e1
  end.
Proof.
  intros Hnew. apply find_at_correct, numbered_seq. pose proof (new_spec pattern ere ic) as (r & Hr & H).
  rewrite Hnew in Hr. apply Ret_inj in Hr. subst r. apply H.
Qed.

(** The expression [(b)*c] in the text [abbc]. *)
Definition demo_tables : Unicode :=
  mk_unicode (λ c, [c]) (λ c, [c]) (λ c, between 97 c 122) (λ c, between 97 c 122) (λ c, c =? 32) (λ _, false) (λ c, between 97 c 122) (λ _, false).
Definition demo_re : Regex := mk_regex [[Repeat (Group 1 [[Char 98]]) 0 None; Char 99]] 1 false.

Lemma search_correct_witness :
  new (codes "(b)*c") true false = Ret (Ok demo_re) ∧ regular_alt (alt demo_re) = true ∧
  find_at demo_tables demo_re (codes "abbc") 0 = Ret (Some [Some (1, 4); Some (2, 3)]%nat) ∧
  ∃ r, find_at demo_tables demo_re (codes "abbc") 0 = Ret r ∧
  match r with
  | Some caps => ∃ s e, reported demo_tables demo_re (codes "abbc") 0 caps s e ∧
      (regular_alt (alt demo_re) = true → ∀ s1 e1, (0 <= s1 < s)%nat → ¬ reaches demo_tables demo_re (codes "abbc") s1 e1)
  | None => regular_alt (alt demo_re) = true → ∀ s1 e1, (0 <= s1 <= length (codes "abbc"))%nat → ¬ reaches demo_tables demo_re (codes "abbc") s1 e1
  end.
Proof.
  split; [vm_compute; reflexivity|]. split; [reflexivity|]. split; [vm_compute; reflexivity|].
  apply (search_correct demo_tables (codes "(b)*c") true false). vm_compute; reflexivity.
Defined.

End RegexParse.
