(* ===== verification/ShArith.v ===== *)
(** * Shell arithmetic (programs/edos-sh/src/arith.rs)

    [eval_arithmetic], which the shell runs for [$(( ... ))]: a recursive-descent
    parser over the bytes of the expression that computes as it reads, with the
    process environment as its variables.  A string is the list of its UTF-8
    bytes; the parser only stops at ASCII bytes, so its slices fall on character
    boundaries.  The recursion through parentheses and assignments, and the loops
    of the binary operators, run on fuel; every round consumes a byte, so
    [S (length input)] is enough, which is part of what is proved.  The depth of
    the machine stack is not modelled.

    The reference is an abstract syntax with its denotation: written out with any
    blanks between the tokens and parentheses where the precedence asks for them,
    an expression evaluates to what it denotes, errors and assignments included. *)

From S2P Require Import Prelude.

Module ShArith.

(** ** Integers and strings *)

Definition I64_MIN : Z := - 2 ^ 63.
Definition I64_MAX : Z := 2 ^ 63 - 1.
Definition is_i64 (x : Z) : bool := (I64_MIN <=? x) && (x <=? I64_MAX).
Definition wrap_i64 (x : Z) : Z := (x - I64_MIN) mod 2 ^ 64 + I64_MIN.

Definition is_ascii_whitespace (b : Z) : bool := (b =? 32) || (b =? 9) || (b =? 10) || (b =? 12) || (b =? 13).
Definition is_ascii_digit (b : Z) : bool := (48 <=? b) && (b <=? 57).
Definition is_ascii_alphabetic (b : Z) : bool := ((65 <=? b) && (b <=? 90)) || ((97 <=? b) && (b <=? 122)).
Definition is_ascii_alphanumeric (b : Z) : bool := is_ascii_alphabetic b || is_ascii_digit b.

(** [i64::to_string]; nineteen digits are the most an [i64] has. *)
Fixpoint show (fuel : nat) (n : Z) : list Z :=
  match fuel with
  | O => []
  | S fuel => if n <? 10 then [48 + n] else show fuel (n / 10) ++ [48 + n mod 10]
  end.
Definition to_string (v : Z) : list Z := if v <? 0 then 45 :: show 19 (- v) else show 19 v.

(** [str::parse::<i64>]: an optional sign, at least one digit, and no step that
    leaves the type. *)
Fixpoint parse_digits (neg : bool) (acc : Z) (l : list Z) : option Z :=
  match l with
  | [] => Some acc
  | b :: l =>
      if negb (is_ascii_digit b) then None
      else
        let acc := if neg then 10 * acc - (b - 48) else 10 * acc + (b - 48) in
        if is_i64 acc then parse_digits neg acc l else None
  end.
Definition parse_i64 (l : list Z) : option Z :=
  match l with
  | [] => None
  | b :: r =>
      if b =? 45 then match r with [] => None | _ => parse_digits true 0 r end
      else if b =? 43 then match r with [] => None | _ => parse_digits false 0 r end
      else parse_digits false 0 l
  end.

(** [str::trim]: the characters Unicode calls white space, in their encoding. *)
Definition white_space : list (list Z) :=
  [9] :: [10] :: [11] :: [12] :: [13] :: [32] :: [194; 133] :: [194; 160] :: [225; 154; 128] ::
  ((λ k, [226; 128; 128 + Z.of_nat k]) <$> seq 0 11) ++ [[226; 128; 168]; [226; 128; 169]; [226; 128; 175]; [226; 129; 159]; [227; 128; 128]].

Fixpoint strip (p l : list Z) : option (list Z) :=
  match p, l with
  | [], _ => Some l
  | a :: p, b :: l => if a =? b then strip p l else None
  | _ :: _, [] => None
  end.

Fixpoint strip_any (ps : list (list Z)) (l : list Z) : option (list Z) :=
  match ps with [] => None | p :: ps => match strip p l with Some r => Some r | None => strip_any ps l end end.

Fixpoint trim_with (ps : list (list Z)) (fuel : nat) (l : list Z) : list Z :=
  match fuel with
  | O => l
  | S fuel => match strip_any ps l with Some r => trim_with ps fuel r | None => l end
  end.

Definition trim_start (l : list Z) : list Z := trim_with white_space (length l) l.
Definition trim_end (l : list Z) : list Z := reverse (trim_with (reverse <$> white_space) (length l) (reverse l)).
Definition trim (l : list Z) : list Z := trim_end (trim_start l).

(** ** The parser *)

Inductive ArithError :=
| DivisionByZero
| ExpectedClose (pos : nat)
| IntegerOverflow (s : list Z)
| UnexpectedCharacter (b : Z) (pos : nat)
| UnexpectedEnd
| ExpectedIdentifier (pos : nat)
| UnexpectedTail (pos : nat)
| OutOfFuel.

Definition Env := gmap (list Z) (list Z).
Record State := mk_st { pos : nat; env : Env }.

(** What was assigned stays assigned when the rest fails. *)
Definition P (A : Type) : Type := State → outcome (result ArithError A * State).

#[export] Instance P_ret : MRet P := λ A a s, Ret (Ok a, s).
#[export] Instance P_bind : MBind P := λ A B f m s,
  match m s with
  | Panic => Panic
  | Ret (Err e, s) => Ret (Err e, s)
  | Ret (Ok a, s) => f a s
  end.

Definition fail {A} (e : ArithError) : P A := λ s, Ret (Err e, s).
Definition gets {A} (f : State → A) : P A := λ s, Ret (Ok (f s), s).
Definition advance (n : nat) : P unit := λ s, Ret (Ok (), mk_st (pos s + n) (env s)).
Definition seek (n : nat) : P unit := λ s, Ret (Ok (), mk_st n (env s)).
Definition set_var (name val : list Z) : P unit := λ s, Ret (Ok (), mk_st (pos s) (<[name := val]> (env s))).

Definition lookup_var (e : Env) (name : list Z) : Z := default 0 (e !! name ≫= parse_i64).

(** How many bytes a [while] over a class of bytes steps over. *)
Fixpoint run (f : Z → bool) (l : list Z) : nat :=
  match l with b :: l => if f b then S (run f l) else O | [] => O end.

Definition is_word (b : Z) : bool := is_ascii_alphanumeric b || (b =? 95).

(** [left / right] and [left % right]: zero is an error of the expression, the
    one quotient that does not fit stops the program. *)
Definition checked_div (f : Z → Z → Z) (left right : Z) : P Z :=
  if right =? 0 then fail DivisionByZero
  else if (left =? I64_MIN) && (right =? -1) then λ _, Panic
  else mret (f left right).

Definition b2z (b : bool) : Z := if b then 1 else 0.

Section Parser.

Context (input : list Z).

Definition peek (s : State) : option Z := input !! pos s.
Definition peek1 (s : State) : option Z := input !! S (pos s).
Definition is_ (o : option Z) (c : Z) : bool := bool_decide (o = Some c).

Definition skip_while (f : Z → bool) : P unit := λ s, advance (run f (drop (pos s) input)) s.
Definition skip_whitespace : P unit := skip_while is_ascii_whitespace.
Definition slice (a b : nat) : list Z := sub a (b - a) input.

Definition parse_identifier : P (list Z) :=
  skip_whitespace;;
  start ← gets pos;
  skip_while is_word;;
  stop ← gets pos;
  if (stop =? start)%nat then fail (ExpectedIdentifier stop) else mret (slice start stop).

Section Levels.

(** [parse_assignment], which parentheses and assignments come back to. *)
Context (parse_assignment : P Z).

Definition parse_primary : P Z :=
  skip_whitespace;;
  c ← gets peek;
  match c with
  | None => fail UnexpectedEnd
  | Some b =>
      if b =? 40 then
        advance 1;;
        val ← parse_assignment;
        skip_whitespace;;
        close ← gets peek;
        if is_ close 41 then advance 1;; mret val else p ← gets pos; fail (ExpectedClose p)
      else if b =? 36 then
        advance 1;;
        name ← parse_identifier;
        gets (λ s, lookup_var (env s) name)
      else if is_ascii_digit b then
        start ← gets pos;
        skip_while is_ascii_digit;;
        stop ← gets pos;
        let s := slice start stop in
        match parse_i64 s with Some v => mret v | None => fail (IntegerOverflow s) end
      else if is_ascii_alphabetic b || (b =? 95) then
        name ← parse_identifier;
        skip_whitespace;;
        c0 ← gets peek;
        c1 ← gets peek1;
        if is_ c0 61 && negb (is_ c1 61) then
          advance 1;;
          val ← parse_assignment;
          set_var name (to_string val);;
          mret val
        else gets (λ s, lookup_var (env s) name)
      else p ← gets pos; fail (UnexpectedCharacter b p)
  end.

Definition parse_unary : P Z :=
  skip_whitespace;;
  c ← gets peek;
  if is_ c 45 then advance 1;; v ← parse_primary; mret (wrap_i64 (- v))
  else if is_ c 43 then advance 1;; parse_primary
  else parse_primary.

Fixpoint mul_loop (fuel : nat) (left : Z) : P Z :=
  match fuel with
  | O => fail OutOfFuel
  | S fuel =>
      skip_whitespace;;
      c ← gets peek;
      if is_ c 42 then advance 1;; right ← parse_unary; mul_loop fuel (wrap_i64 (left * right))
      else if is_ c 47 then advance 1;; right ← parse_unary; v ← checked_div Z.quot left right; mul_loop fuel v
      else if is_ c 37 then advance 1;; right ← parse_unary; v ← checked_div Z.rem left right; mul_loop fuel v
      else mret left
  end.
Definition parse_multiplicative : P Z := left ← parse_unary; mul_loop (S (length input)) left.

Fixpoint add_loop (fuel : nat) (left : Z) : P Z :=
  match fuel with
  | O => fail OutOfFuel
  | S fuel =>
      skip_whitespace;;
      c ← gets peek;
      if is_ c 43 then advance 1;; right ← parse_multiplicative; add_loop fuel (wrap_i64 (left + right))
      else if is_ c 45 then advance 1;; right ← parse_multiplicative; add_loop fuel (wrap_i64 (left - right))
      else mret left
  end.
Definition parse_additive : P Z := left ← parse_multiplicative; add_loop (S (length input)) left.

Inductive cmp_op := CEq | CNe | CLe | CGe | CLt | CGt.
Definition cmp_len (op : cmp_op) : nat := match op with CLt | CGt => 1 | _ => 2 end.
Definition cmp_at (b0 b1 : option Z) : option cmp_op :=
  if is_ b0 61 && is_ b1 61 then Some CEq
  else if is_ b0 33 && is_ b1 61 then Some CNe
  else if is_ b0 60 && is_ b1 61 then Some CLe
  else if is_ b0 62 && is_ b1 61 then Some CGe
  else if is_ b0 60 then Some CLt
  else if is_ b0 62 then Some CGt
  else None.
Definition compare (op : cmp_op) (left right : Z) : Z :=
  b2z match op with
      | CEq => left =? right | CNe => negb (left =? right) | CLt => left <? right
      | CGt => right <? left | CLe => left <=? right | CGe => right <=? left
      end.

Fixpoint cmp_loop (fuel : nat) (left : Z) : P Z :=
  match fuel with
  | O => fail OutOfFuel
  | S fuel =>
      skip_whitespace;;
      b0 ← gets peek;
      b1 ← gets peek1;
      match cmp_at b0 b1 with
      | Some op => advance (cmp_len op);; right ← parse_additive; cmp_loop fuel (compare op left right)
      | None => mret left
      end
  end.
Definition parse_comparison : P Z := left ← parse_additive; cmp_loop (S (length input)) left.

End Levels.

Fixpoint parse_assignment (fuel : nat) : P Z :=
  match fuel with
  | O => fail OutOfFuel
  | S fuel =>
      saved_pos ← gets pos;
      skip_whitespace;;
      ident_start ← gets pos;
      skip_while is_word;;
      ident_end ← gets pos;
      (if (ident_start <? ident_end)%nat then skip_whitespace else mret ());;
      c0 ← gets peek;
      c1 ← gets peek1;
      if (ident_start <? ident_end)%nat && is_ c0 61 && negb (is_ c1 61) then
        advance 1;;
        val ← parse_assignment fuel;
        set_var (slice ident_start ident_end) (to_string val);;
        mret val
      else
        seek saved_pos;;
        parse_comparison (parse_assignment fuel)
  end.

Definition eval_input : P Z :=
  result ← parse_assignment (S (length input));
  skip_whitespace;;
  p ← gets pos;
  if (p <? length input)%nat then fail (UnexpectedTail p) else mret result.

End Parser.

Definition eval_arithmetic (e : Env) (expr : list Z) : outcome (result ArithError Z * Env) :=
  '(r, s) ← eval_input (trim expr) (mk_st 0 e); Ret (r, env s).

End ShArith.
