(* ===== verification/ShArithSpec.v ===== *)
(** * What shell arithmetic computes

    The abstract syntax of an expression, its denotation, and its rendering as
    text: [eval_arithmetic] of the rendering is the denotation.  Then what holds
    of any text at all: evaluation ends, stays in the type, and stops the program
    only in a division. *)

From stdpp Require Import strings.
From S2P Require Import Prelude ShArith.

Module ShArithSpec.

Import ShArith.

(** ** Expressions *)

Inductive mul_op := OMul | ODiv | ORem.
Inductive add_op := OAdd | OSub.
Inductive sign := Minus | Plus.

Inductive expr :=
| Num (digits : list Z)
| Var (dollar : bool) (name : list Z)
| Sign (s : sign) (e : expr)
| Mul (o : mul_op) (e1 e2 : expr)
| Add (o : add_op) (e1 e2 : expr)
| Cmp (o : cmp_op) (e1 e2 : expr)
| Assign (name : list Z) (e : expr).

(** The level of the grammar an expression belongs to. *)
Definition prec (e : expr) : nat :=
  match e with Assign _ _ => 0 | Cmp _ _ _ => 1 | Add _ _ _ => 2 | Mul _ _ _ => 3 | Sign _ _ => 4 | Num _ | Var _ _ => 5 end.

Definition is_name (l : list Z) : bool := match l with [] => false | _ => forallb is_word l end.
Definition starts_letter (l : list Z) : bool := match l with b :: _ => is_ascii_alphabetic b || (b =? 95) | [] => false end.

(** A variable read without [$] starts with a letter; nothing else is asked of a
    name, so a number can be assigned to. *)
Fixpoint expr_ok (e : expr) : bool :=
  match e with
  | Num ds => match ds with [] => false | _ => forallb is_ascii_digit ds end
  | Var dollar name => is_name name && (dollar || starts_letter name)
  | Sign _ e => expr_ok e
  | Mul _ e1 e2 | Add _ e1 e2 | Cmp _ e1 e2 => expr_ok e1 && expr_ok e2
  | Assign name e => is_name name && expr_ok e
  end.

(** ** Denotation *)

Definition D := outcome (result ArithError Z * Env).
Definition D_bind (m : D) (k : Z → Env → D) : D :=
  match m with Panic => Panic | Ret (Err x, r) => Ret (Err x, r) | Ret (Ok v, r) => k v r end.

Definition mul_sem (o : mul_op) (a b : Z) (r : Env) : D :=
  match o with
  | OMul => Ret (Ok (wrap_i64 (a * b)), r)
  | ODiv => if b =? 0 then Ret (Err DivisionByZero, r) else if (a =? I64_MIN) && (b =? -1) then Panic else Ret (Ok (Z.quot a b), r)
  | ORem => if b =? 0 then Ret (Err DivisionByZero, r) else if (a =? I64_MIN) && (b =? -1) then Panic else Ret (Ok (Z.rem a b), r)
  end.
Definition add_sem (o : add_op) (a b : Z) : Z := match o with OAdd => wrap_i64 (a + b) | OSub => wrap_i64 (a - b) end.

(** Operands left to right; an error ends the evaluation where it is met. *)
Fixpoint denote (e : expr) (r : Env) : D :=
  match e with
  | Num ds => match parse_i64 ds with Some v => Ret (Ok v, r) | None => Ret (Err (IntegerOverflow ds), r) end
  | Var _ name => Ret (Ok (lookup_var r name), r)
  | Sign s e => D_bind (denote e r) (λ v r, Ret (Ok match s with Minus => wrap_i64 (- v) | Plus => v end, r))
  | Mul o e1 e2 => D_bind (denote e1 r) (λ a r, D_bind (denote e2 r) (λ b r, mul_sem o a b r))
  | Add o e1 e2 => D_bind (denote e1 r) (λ a r, D_bind (denote e2 r) (λ b r, Ret (Ok (add_sem o a b), r)))
  | Cmp o e1 e2 => D_bind (denote e1 r) (λ a r, D_bind (denote e2 r) (λ b r, Ret (Ok (compare o a b), r)))
  | Assign name e => D_bind (denote e r) (λ v r, Ret (Ok v, <[name := to_string v]> r))
  end.

(** ** Rendering *)

Definition mul_tok (o : mul_op) : list Z := [match o with OMul => 42 | ODiv => 47 | ORem => 37 end].
Definition add_tok (o : add_op) : list Z := [match o with OAdd => 43 | OSub => 45 end].
Definition sign_tok (s : sign) : list Z := [match s with Minus => 45 | Plus => 43 end].
Definition cmp_tok (o : cmp_op) : list Z :=
  match o with CEq => [61; 61] | CNe => [33; 61] | CLe => [60; 61] | CGe => [62; 61] | CLt => [60] | CGt => [62] end.

Section Render.

(** The blanks written before every token. *)
Context (w : list Z).

(** The text of [e] where level [l] is expected. *)
Fixpoint render (l : nat) (e : expr) : list Z :=
  let body :=
    match e with
    | Num ds => w ++ ds
    | Var dollar name => w ++ (if dollar then [36] else []) ++ name
    | Sign s e => w ++ sign_tok s ++ render 5 e
    | Mul o e1 e2 => render 3 e1 ++ w ++ mul_tok o ++ render 4 e2
    | Add o e1 e2 => render 2 e1 ++ w ++ add_tok o ++ render 3 e2
    | Cmp o e1 e2 => render 1 e1 ++ w ++ cmp_tok o ++ render 2 e2
    | Assign name e => w ++ name ++ w ++ [61] ++ render 0 e
    end in
  if (prec e <? l)%nat then w ++ [40] ++ body ++ w ++ [41] else body.

End Render.

(** ** Blanks and words *)

Definition blank (w : list Z) : bool := forallb is_ascii_whitespace w.
Definition skip (l : list Z) : list Z := drop (run is_ascii_whitespace l) l.

Lemma run_app f a b : forallb f a = true → run f (a ++ b) = (length a + run f b)%nat.
Proof. induction a as [|x a IH]; [done|]. cbn. intros [-> Ha]%andb_prop. by rewrite IH. Qed.

Lemma run_le f l : (run f l <= length l)%nat.
Proof. induction l as [|b l IH]; cbn; [lia|]. destruct (f b); cbn; lia. Qed.

Lemma skip_blank w l : blank w = true → skip (w ++ l) = skip l.
Proof. intros Hw. unfold skip. rewrite run_app by done. by rewrite drop_app_add. Qed.

Lemma skip_here b l : is_ascii_whitespace b = false → skip (b :: l) = b :: l.
Proof. unfold skip. cbn. by intros ->. Qed.

Lemma run_skip l : run is_ascii_whitespace (skip l) = 0%nat.
Proof. unfold skip. induction l as [|b l IH]; [done|]. cbn. destruct (is_ascii_whitespace b) eqn:E; [done|]. cbn. by rewrite E. Qed.

Lemma skip_skip l : skip (skip l) = skip l.
Proof. unfold skip at 1. by rewrite run_skip. Qed.

(** What may follow an expression of level [l]: nothing that would continue it. *)
Definition stops (l : nat) (rest : list Z) : bool :=
  match rest with b :: _ => negb (is_word b) | [] => true end &&
  match skip rest with
  | [] => true
  | c :: r =>
      negb ((c =? 61) && negb (is_ (r !! 0%nat) 61)) &&
      ((3 <? l)%nat || negb ((c =? 42) || (c =? 47) || (c =? 37))) &&
      ((2 <? l)%nat || negb ((c =? 43) || (c =? 45))) &&
      ((1 <? l)%nat || match cmp_at (Some c) (r !! 0%nat) with Some _ => false | None => true end)
  end.

Lemma stops_mono l l' rest : (l <= l')%nat → stops l rest = true → stops l' rest = true.
Proof.
  intros Hl. unfold stops. intros [-> H]%andb_prop. cbn [andb]. destruct (skip rest) as [|c r]; [done|].
  rewrite !andb_true_iff, !orb_true_iff, !Nat.ltb_lt in *. destruct H as [[[? H1] H2] H3]. split_and!; [done|destruct H1|destruct H2|destruct H3]; auto; left; lia.
Qed.
(** ** Rendered text *)

Lemma render_eq w l e : render w l e = if (prec e <? l)%nat then w ++ [40] ++ render w 0 e ++ w ++ [41] else render w 0 e.
Proof. by destruct e. Qed.

Lemma render_paren w l e : (prec e < l)%nat → render w l e = w ++ 40 :: render w 0 e ++ w ++ [41].
Proof. intros H. rewrite render_eq. by rewrite (proj2 (Nat.ltb_lt _ _) H). Qed.

Lemma render_up w l e : (prec e ≠ l)%nat → render w l e = render w (S l) e.
Proof. intros H. rewrite render_eq, (render_eq w (S l)). destruct (Nat.ltb_spec (prec e) l), (Nat.ltb_spec (prec e) (S l)); done || lia. Qed.

Lemma render_bare w l e : (l <= prec e)%nat → render w l e = render w 0 e.
Proof. intros H. rewrite render_eq. by rewrite (proj2 (Nat.ltb_ge _ _) H). Qed.

(** The byte a text goes on with: a blank, or the first of a token. *)
Definition token_start (c : Z) : bool := is_ascii_digit c || is_word c || (c =? 36) || (c =? 40) || (c =? 43) || (c =? 45).

Lemma token_start_not_blank c : token_start c = true → is_ascii_whitespace c = false.
Proof. unfold token_start, is_word, is_ascii_alphanumeric, is_ascii_alphabetic, is_ascii_digit, is_ascii_whitespace. intros. blia. Qed.

Lemma name_head name : is_name name = true → ∃ c r, name = c :: r ∧ is_word c = true ∧ forallb is_word r = true.
Proof. destruct name as [|c r]; [done|]. cbn. intros [? ?]%andb_prop. eauto. Qed.

Definition headed (w t : list Z) : Prop := ∃ c r, t = w ++ c :: r ∧ token_start c = true.

Lemma left_head w l e rest : headed w (render w 0 e) → headed w (render w l e ++ rest).
Proof.
  intros (c & r & E & Hc). destruct (decide (prec e < l)%nat) as [Hl|Hl].
  - rewrite render_paren by done. exists 40. eexists. rewrite <- app_assoc. by split.
  - rewrite render_bare, E by lia. exists c. eexists. rewrite <- app_assoc. by split.
Qed.

(** After its blanks a rendered expression starts with a token. *)
Lemma render_head w l e : expr_ok e = true → headed w (render w l e).
Proof.
  revert l. assert (H0 : expr_ok e = true → headed w (render w 0 e)).
  { induction e as [ds|dollar name|s e IH|o e1 IH1 e2 IH2|o e1 IH1 e2 IH2|o e1 IH1 e2 IH2|name e IH]; cbn [expr_ok]; intros Hok.
    - destruct ds as [|d ds]; [done|]. cbn in Hok. apply andb_prop in Hok as [Hd _]. exists d, ds. split; [done|]. unfold token_start. by rewrite Hd.
    - apply andb_prop in Hok as [Hn _]. destruct (name_head name Hn) as (c & r & -> & Hc & _). cbn. destruct dollar; [by exists 36, (c :: r)|]. exists c, r. split; [done|]. unfold token_start. rewrite Hc. by rewrite orb_true_r.
    - cbn. destruct s; by do 2 eexists.
    - apply andb_prop in Hok as [H1 _]. cbn. by apply left_head, IH1.
    - apply andb_prop in Hok as [H1 _]. cbn. by apply left_head, IH1.
    - apply andb_prop in Hok as [H1 _]. cbn. by apply left_head, IH1.
    - apply andb_prop in Hok as [Hn _]. destruct (name_head name Hn) as (c & r & -> & Hc & _). cbn. exists c. eexists. split; [done|]. unfold token_start. rewrite Hc. by rewrite orb_true_r. }
  intros l Hok. destruct (decide (prec e < l)%nat); [rewrite render_paren by done; by do 2 eexists|rewrite render_bare by lia; by apply H0].
Qed.

(** *** What follows a rendered operand *)

Lemma stops_blank w l c r : blank w = true → stops l (c :: r) = true → stops l (w ++ c :: r) = true.
Proof.
  intros Hw. unfold stops. rewrite skip_blank by done. intros [Hc H]%andb_prop. rewrite H, andb_true_r. destruct w as [|b w]; [done|]. cbn in *. apply andb_prop in Hw as [Hb _].
  revert Hb. clear. unfold is_word, is_ascii_alphanumeric, is_ascii_alphabetic, is_ascii_digit, is_ascii_whitespace. intros. blia.
Qed.

(** The text is not taken for an assignment. *)
Definition no_assign (t : list Z) : Prop :=
  let t1 := skip t in
  let t2 := skip (drop (run is_word t1) t1) in
  run is_word t1 = 0%nat ∨ is_ (t2 !! 0%nat) 61 && negb (is_ (t2 !! 1%nat) 61) = false.

Lemma stops_not_assign l rest : stops l rest = true → is_ (skip rest !! 0%nat) 61 && negb (is_ (skip rest !! 1%nat) 61) = false.
Proof.
  unfold stops. intros [_ H]%andb_prop. destruct (skip rest) as [|c r]; [done|]. rewrite !andb_true_iff in H. destruct H as [[[H _] _] _].
  change ((c :: r) !! 1%nat) with (r !! 0%nat). change ((c :: r) !! 0%nat) with (Some c). unfold is_ in *. destruct (Z.eqb_spec c 61) as [->|Hc]; [|rewrite bool_decide_eq_false_2 by congruence; done].
  cbn [andb negb] in H. apply negb_true_iff in H. by rewrite bool_decide_eq_true_2, H.
Qed.

Lemma run_word_rest l a rest : forallb is_word a = true → stops l rest = true → run is_word (a ++ rest) = length a.
Proof.
  intros Ha Hs. rewrite run_app by done. destruct rest as [|b rest]; [cbn; lia|]. unfold stops in Hs. apply andb_prop in Hs as [Hb _]. cbn. apply negb_true_iff in Hb. rewrite Hb. lia.
Qed.

Lemma word_no_assign w l a rest : blank w = true → is_name a = true → stops l rest = true → no_assign (w ++ a ++ rest).
Proof.
  intros Hw Ha Hs. unfold no_assign. rewrite skip_blank by done. destruct (name_head a Ha) as (c & r & -> & Hc & Hr). cbn [app].
  rewrite skip_here by (apply token_start_not_blank; unfold token_start; by rewrite Hc, orb_true_r).
  right. change (c :: r ++ rest) with ((c :: r) ++ rest). rewrite (run_word_rest l) by (done || by cbn; rewrite Hc). rewrite drop_app_length. by eapply stops_not_assign.
Qed.

Lemma mark_no_assign w c r : blank w = true → is_word c = false → is_ascii_whitespace c = false → no_assign (w ++ c :: r).
Proof. intros Hw Hc Hb. left. rewrite skip_blank by done. rewrite skip_here by done. cbn. by rewrite Hc. Qed.

Lemma digits_name ds : match ds with [] => false | _ => forallb is_ascii_digit ds end = true → is_name ds = true.
Proof.
  destruct ds as [|d ds]; [done|]. intros H. cbn [is_name]. apply forallb_forall. intros x Hx. rewrite forallb_forall in H. specialize (H x Hx). unfold is_word, is_ascii_alphanumeric. rewrite H. by rewrite orb_true_r.
Qed.

Lemma render_no_assign w : blank w = true → ∀ e l rest, expr_ok e = true → (1 <= l)%nat → stops 5 rest = true → no_assign (render w l e ++ rest).
Proof.
  intros Hw. induction e as [ds|dollar name|s e IH|o e1 IH1 e2 IH2|o e1 IH1 e2 IH2|o e1 IH1 e2 IH2|name e IH]; intros l rest Hok Hl Hs;
    (match goal with |- context [render w l ?e] => destruct (decide (prec e < l)%nat) as [Hp|Hp] end; [rewrite render_paren by done; rewrite <- app_assoc; by apply mark_no_assign|rewrite render_bare by lia]); cbn [prec expr_ok] in *.
  - cbn [render prec Nat.ltb Nat.leb]. rewrite <- app_assoc. eapply word_no_assign; [done|by apply digits_name|done].
  - apply andb_prop in Hok as [Hn _]. cbn [render prec Nat.ltb Nat.leb]. rewrite <- !app_assoc. destruct dollar; cbn [app]; [by apply mark_no_assign|]. by eapply word_no_assign.
  - cbn [render prec Nat.ltb Nat.leb]. rewrite <- !app_assoc. cbn [sign_tok app]. destruct s; by apply mark_no_assign.
  - apply andb_prop in Hok as [H1 H2]. cbn [render prec Nat.ltb Nat.leb]. rewrite <- !app_assoc. apply IH1; [done|lia|]. destruct o; cbn [mul_tok add_tok cmp_tok app]; by apply stops_blank.
  - apply andb_prop in Hok as [H1 H2]. cbn [render prec Nat.ltb Nat.leb]. rewrite <- !app_assoc. apply IH1; [done|lia|]. destruct o; cbn [mul_tok add_tok cmp_tok app]; by apply stops_blank.
  - apply andb_prop in Hok as [H1 H2]. cbn [render prec Nat.ltb Nat.leb]. rewrite <- !app_assoc. apply IH1; [done|lia|]. destruct o; cbn [mul_tok add_tok cmp_tok app]; by apply stops_blank.
  - lia.
Qed.

(** ** The parser at a place in the text *)

Section Place.

Context (input w : list Z) (Hw : blank w = true).

Abbreviation len := (length input).

(** The text from [p] on is [l], blanks perhaps already skipped. *)
Definition at_ (p : nat) (l : list Z) : Prop := (p <= len)%nat ∧ (drop p input = l ∨ drop p input = skip l).

(** The parse [r] of what denotes [d]: the same failure, or [ok] of the same
    value and environment. *)
Definition post (ok : Z → Env → outcome (result ArithError Z * State) → Prop) (r : outcome (result ArithError Z * State)) (d : D) : Prop :=
  match d with
  | Panic => r = Panic
  | Ret (Err x, e) => ∃ p, r = Ret (Err x, mk_st p e)
  | Ret (Ok v, e) => ok v e r
  end.

(** The value, with the parser at [rest]. *)
Definition done_ (p0 : nat) (rest : list Z) (v : Z) (e : Env) (r : outcome (result ArithError Z * State)) : Prop :=
  ∃ p, (p0 <= p)%nat ∧ at_ p rest ∧ r = Ret (Ok v, mk_st p e).

Lemma post_bind ok p0 rest (m : P Z) (k : Z → P Z) s d K : post (done_ p0 rest) (m s) d →
  (∀ v e p, (p0 <= p)%nat → at_ p rest → post ok (k v (mk_st p e)) (K v e)) → post ok ((m ≫= k) s) (D_bind d K).
Proof.
  unfold post at 1. unfold mbind, P_bind. destruct d as [[[v|x] e]|]; cbn [D_bind].
  - intros (p & Hp & Ha & ->) Hk. by apply Hk.
  - intros (p & ->) _. by exists p.
  - by intros -> _.
Qed.

Lemma skip_ws_eq {A} (k : unit → P A) p e l : at_ p l →
  ∃ p', (p <= p' <= len)%nat ∧ drop p' input = skip l ∧ (skip_whitespace input ≫= k) (mk_st p e) = k () (mk_st p' e).
Proof.
  intros [Hp Hl]. exists (p + run is_ascii_whitespace (drop p input))%nat. pose proof (run_le is_ascii_whitespace (drop p input)) as Hr. rewrite length_drop in Hr.
  split; [lia|]. split; [|done]. rewrite <- drop_drop. change (skip (drop p input) = skip l). destruct Hl as [-> | ->]; [done|apply skip_skip].
Qed.

Lemma peek_drop p e l : drop p input = l → peek input (mk_st p e) = l !! 0%nat.
Proof. intros <-. unfold peek. cbn [pos]. by rewrite lookup_drop, Nat.add_0_r. Qed.
Lemma peek1_drop p e l : drop p input = l → peek1 input (mk_st p e) = l !! 1%nat.
Proof. intros <-. unfold peek1. cbn [pos]. by rewrite lookup_drop, Nat.add_1_r. Qed.

Lemma is_some c b : is_ (Some c) b = (c =? b).
Proof. unfold is_. destruct (Z.eqb_spec c b); [by apply bool_decide_eq_true_2; f_equal|apply bool_decide_eq_false_2; congruence]. Qed.

Lemma gets_bind {A B} (g : State → A) (k : A → P B) s : (gets g ≫= k) s = k (g s) s.
Proof. done. Qed.
Lemma advance_bind {B} n (k : unit → P B) p e : (advance n ≫= k) (mk_st p e) = k () (mk_st (p + n) e).
Proof. done. Qed.

(** Step over blanks, then look at the next bytes. *)
Ltac skip_blanks Ha :=
  match goal with |- context [(skip_whitespace input ≫= ?k) (mk_st ?p ?e)] =>
    let p' := fresh "p'" in let Hp := fresh "Hp'" in let Hd := fresh "Hd" in let E := fresh "E" in
    destruct (skip_ws_eq k p e _ Ha) as (p' & Hp & Hd & E); rewrite E; clear E; cbv beta
  end.
Ltac look := rewrite gets_bind; cbv beta; match goal with Hd : drop ?p input = _ |- context [peek input (mk_st ?p ?e)] => rewrite (peek_drop p e _ Hd) end.
Ltac look1 := try (rewrite gets_bind; cbv beta; match goal with Hd : drop ?p input = _ |- context [peek1 input (mk_st ?p ?e)] => rewrite (peek1_drop p e _ Hd) end).

Lemma past p a l : a ≠ [] → drop p input = a ++ l → drop (p + length a) input = l ∧ (p + length a <= len)%nat.
Proof.
  intros Ha E. split; [by rewrite <- drop_drop, E, drop_app_length|]. apply (f_equal length) in E. rewrite length_drop, length_app in E. destruct a; [done|]. cbn [length] in *. lia.
Qed.

Lemma at_exact p l : (p <= len)%nat → drop p input = l → at_ p l.
Proof. by split; [|left]. Qed.
Lemma at_skipped p l : (p <= len)%nat → drop p input = skip l → at_ p l.
Proof. by split; [|right]. Qed.

(** *** Levels of the grammar *)

Definition level (f l : nat) : P Z :=
  let pa := parse_assignment input f in
  match l with
  | 0%nat => parse_assignment input (S f)
  | 1%nat => parse_comparison input pa
  | 2%nat => parse_additive input pa
  | 3%nat => parse_multiplicative input pa
  | 4%nat => parse_unary input pa
  | _ => parse_primary input pa
  end.

Definition loop (f l n : nat) (v : Z) : P Z :=
  let pa := parse_assignment input f in
  match l with
  | 1%nat => cmp_loop input pa n v
  | 2%nat => add_loop input pa n v
  | _ => mul_loop input pa n v
  end.

(** Level [l] reads [e]. *)
Definition GL (l : nat) (e : expr) : Prop := ∀ f p r rest, at_ p (render w l e ++ rest) → stops l rest = true → (len <= f + p)%nat →
  post (done_ p rest) (level f l (mk_st p r)) (denote e r).

(** Level [l] reads [e] as the left operand of what follows. *)
Definition looping (f l p0 : nat) (rest : list Z) (v : Z) (e : Env) (r : outcome (result ArithError Z * State)) : Prop :=
  ∃ p n, (p0 <= p)%nat ∧ at_ p rest ∧ (len < n + p)%nat ∧ r = loop f l n v (mk_st p e).
Definition LL (l : nat) (e : expr) : Prop := ∀ f p r rest, at_ p (render w l e ++ rest) → stops (S l) rest = true → (len <= f + p)%nat →
  post (looping f l p rest) (level f l (mk_st p r)) (denote e r).

Lemma D_bind_ret d : D_bind d (λ v r, Ret (Ok v, r)) = d.
Proof. by destruct d as [[[v|x] e]|]. Qed.

(** An operator level starts with the level above. *)
Lemma GL_LL l e : (1 <= l <= 3)%nat → prec e ≠ l → GL (S l) e → LL l e.
Proof.
  intros Hl Hp HG f p r rest Ha Hs Hf. rewrite render_up in Ha by done. specialize (HG f p r rest Ha Hs Hf).
  assert (E : level f l = level f (S l) ≫= loop f l (S len)) by (destruct l as [|[|[|[|l]]]]; done || lia). rewrite E. rewrite <- (D_bind_ret (denote e r)).
  eapply post_bind; [exact HG|]. intros v e' p' Hp' Ha'. exists p', (S len). split; [done|]. split; [done|]. split; [lia|done].
Qed.

(** What stops the level stops its loop. *)
Lemma loop_stops f l n v p e rest : (1 <= l <= 3)%nat → at_ p rest → stops l rest = true → (len < n + p)%nat →
  done_ p rest v e (loop f l n v (mk_st p e)).
Proof.
  intros Hl Ha Hs Hn. pose proof (proj1 Ha) as Hp. destruct n as [|n]; [lia|]. unfold stops in Hs. apply andb_prop in Hs as [_ Hs].
  assert (Hq : ∀ (p' : nat) r, (p <= p' <= len)%nat → drop p' input = skip rest → r = Ret (Ok v, mk_st p' e) → done_ p rest v e r).
  { intros p' r ? ? ->. exists p'. split; [lia|]. split; [apply at_skipped; [lia|done]|done]. }
  destruct l as [|[|[|[|l]]]]; try lia; cbn [loop cmp_loop add_loop mul_loop]; skip_blanks Ha; apply (Hq p'); try done; look; look1;
    destruct (skip rest) as [|c t]; try done; rewrite !andb_true_iff in Hs; destruct Hs as [[[H1 H2] H3] H4]; cbn [Nat.ltb Nat.leb orb] in *; change ((c :: t) !! 0%nat) with (Some c).
  - change ((c :: t) !! 1%nat) with (t !! 0%nat). destruct (cmp_at (Some c) (t !! 0%nat)); done.
  - rewrite !is_some. by destruct (c =? 43), (c =? 45).
  - rewrite !is_some. by destruct (c =? 42), (c =? 47), (c =? 37).
Qed.

Lemma LL_GL l e : (1 <= l <= 3)%nat → LL l e → GL l e.
Proof.
  intros Hl HL f p r rest Ha Hs Hf. specialize (HL f p r rest Ha (stops_mono l (S l) rest ltac:(lia) Hs) Hf).
  unfold post in *. destruct (denote e r) as [[[v|x] e']|]; [|done|done]. destruct HL as (p' & n & Hp & Ha' & Hn & ->).
  destruct (loop_stops f l n v p' e' rest Hl Ha' Hs Hn) as (p2 & H2 & Ha2 & ->). exists p2. split; [lia|done].
Qed.

(** *** Operators *)

(** One round of the loop of level [l] on operator [tok]: it reads the right
    operand, which does not start with an equals sign, and goes on with what
    [sem] makes of the two. *)
Definition round (l : nat) (tok : list Z) (sem : Z → Z → Env → D) : Prop :=
  ∀ f n v p r t, at_ p (w ++ tok ++ t) → t !! 0%nat ≠ Some 61 → ∃ p' k, (p < p')%nat ∧ at_ p' t ∧
    loop f l (S n) v (mk_st p r) = (level f (S l) ≫= k) (mk_st p' r) ∧
    ∀ b p2 r2, post (λ v' r' o, o = loop f l n v' (mk_st p2 r')) (k b (mk_st p2 r2)) (sem v b r2).

Lemma operand_head l e rest : expr_ok e = true → (render w l e ++ rest) !! 0%nat ≠ Some 61.
Proof.
  intros Hok. destruct (render_head w l e Hok) as (c & r & -> & Hc). destruct w as [|b w']; cbn.
  - intros [= ->]. done.
  - cbn in Hw. intros [= ->]. done.
Qed.

Lemma LL_binary l d e1 e2 tok sem : (1 <= l <= 3)%nat → expr_ok e2 = true → LL l e1 → GL (S l) e2 → (∀ t, stops (S l) (w ++ tok ++ t) = true) → round l tok sem →
  render w l d = render w l e1 ++ w ++ tok ++ render w (S l) e2 →
  (∀ r, denote d r = D_bind (denote e1 r) (λ a r, D_bind (denote e2 r) (sem a))) → LL l d.
Proof.
  intros Hl Hok H1 H2 Hs Hround Er Ed f p r rest Ha Hr Hf. rewrite Er, <- !app_assoc in Ha. specialize (H1 f p r _ Ha (Hs _) Hf). rewrite Ed.
  unfold post in H1 |- *. destruct (denote e1 r) as [[[a|x] r1]|]; cbn [D_bind]; [|done|done].
  destruct H1 as (p1 & n & Hp1 & Ha1 & Hn & E). destruct n as [|n]; [destruct Ha1; lia|]. destruct (Hround f n a p1 r1 _ Ha1 (operand_head _ _ _ Hok)) as (p' & k & Hp' & Ha' & E' & Hk).
  specialize (H2 f p' r1 rest Ha' Hr ltac:(lia)). rewrite E, E'. change (post (looping f l p rest) ((level f (S l) ≫= k) (mk_st p' r1)) (D_bind (denote e2 r1) (sem a))).
  eapply post_bind; [exact H2|]. intros b r2 p2 Hp2 Ha2. specialize (Hk b p2 r2). unfold post in Hk |- *. destruct (sem a b r2) as [[[v|x] r3]|]; [|done|done].
  exists p2, n. split; [lia|]. split; [done|]. split; [lia|done].
Qed.

(** The bytes of the operator are consumed. *)
Lemma operator_at p c tok t : is_ascii_whitespace c = false → at_ p (w ++ (c :: tok) ++ t) → ∀ p', drop p' input = skip (w ++ (c :: tok) ++ t) →
  drop p' input = c :: tok ++ t ∧ at_ (p' + S (length tok)) t.
Proof.
  intros Hc Ha p' Hd. rewrite skip_blank in Hd by done. cbn [app] in Hd. rewrite skip_here in Hd by done. split; [done|].
  destruct (past p' (c :: tok) t) as [? ?]; [done|done|]. by apply at_exact.
Qed.

Lemma mul_round o : round 3 (mul_tok o) (mul_sem o).
Proof.
  intros f n v p r t Ha _. assert (Hb : is_ascii_whitespace match o with OMul => 42 | ODiv => 47 | ORem => 37 end = false) by (by destruct o).
  cbn [loop mul_loop]. skip_blanks Ha. destruct (operator_at p _ [] t Hb Ha p' Hd) as [Hd' Ha']. clear Hd. look. change ((_ :: [] ++ t) !! 0%nat) with (Some match o with OMul => 42 | ODiv => 47 | ORem => 37 end). rewrite !is_some.
  exists (p' + 1)%nat. destruct o; cbn [Z.eqb Pos.eqb]; rewrite advance_bind; cbv beta; eexists; (split; [lia|]); (split; [exact Ha'|]); (split; [reflexivity|]); intros b p2 r2; cbn [mul_sem]; [done| |];
    unfold checked_div, mbind, P_bind; destruct (b =? 0); [by exists p2| |by exists p2|]; destruct (_ && _); done.
Qed.

Lemma add_round o : round 2 (add_tok o) (λ a b r, Ret (Ok (add_sem o a b), r)).
Proof.
  intros f n v p r t Ha _. assert (Hb : is_ascii_whitespace match o with OAdd => 43 | OSub => 45 end = false) by (by destruct o).
  cbn [loop add_loop]. skip_blanks Ha. destruct (operator_at p _ [] t Hb Ha p' Hd) as [Hd' Ha']. clear Hd. look. change ((_ :: [] ++ t) !! 0%nat) with (Some match o with OAdd => 43 | OSub => 45 end). rewrite !is_some.
  exists (p' + 1)%nat. destruct o; cbn [Z.eqb Pos.eqb]; rewrite advance_bind; cbv beta; eexists; (split; [lia|]); (split; [exact Ha'|]); (split; [reflexivity|]); done.
Qed.

Lemma cmp_at_tok o t : t !! 0%nat ≠ Some 61 → cmp_at ((cmp_tok o ++ t) !! 0%nat) ((cmp_tok o ++ t) !! 1%nat) = Some o ∧ length (cmp_tok o) = cmp_len o.
Proof.
  intros Ht. split; [|by destruct o]. assert (E : ∀ c, is_ ((c :: t) !! 1%nat) 61 = false) by (intros c; by apply bool_decide_eq_false_2).
  destruct o; try done; unfold cmp_at; cbn [cmp_tok app]; by rewrite !E, !andb_false_r.
Qed.

Lemma cmp_round o : round 1 (cmp_tok o) (λ a b r, Ret (Ok (compare o a b), r)).
Proof.
  intros f n v p r t Ha Ht. cbn [loop cmp_loop]. skip_blanks Ha.
  assert (Hd' : drop p' input = cmp_tok o ++ t) by (rewrite Hd, skip_blank by done; by destruct o). clear Hd. look. look1. destruct (cmp_at_tok o t Ht) as [-> El].
  rewrite advance_bind. cbv beta. exists (p' + cmp_len o)%nat. eexists. split; [destruct o; cbn; lia|]. split; [|by split].
  rewrite <- El. destruct (past p' (cmp_tok o) t) as [? ?]; [by destruct o|done|]. by apply at_exact.
Qed.

(** *** Signs and operands *)

Lemma head_skip l e rest : expr_ok e = true → ∃ c t, skip (render w l e ++ rest) = c :: t ∧ token_start c = true ∧ (l = 5%nat → c ≠ 43 ∧ c ≠ 45).
Proof.
  intros Hok. destruct (render_head w l e Hok) as (c & r & E & Hc). exists c, (r ++ rest). split; [|split; [done|]].
  - rewrite E, <- app_assoc, skip_blank by done. cbn [app]. apply skip_here. by apply token_start_not_blank.
  - intros ->. destruct (decide (prec e < 5)%nat) as [Hp|Hp].
    + rewrite render_paren in E by done. apply app_inv_head in E. by injection E as <- _.
    + rewrite render_bare in E by lia. destruct e; cbn [prec] in Hp; try lia; cbn [render prec Nat.ltb Nat.leb expr_ok] in *; apply app_inv_head in E.
      * subst. cbn in Hok. apply andb_prop in Hok as [Hok _]. clear - Hok. unfold is_ascii_digit in Hok. blia.
      * apply andb_prop in Hok as [Hn _]. destruct dollar; [by injection E as <- _|]. cbn [app] in E. subst. cbn in Hn. apply andb_prop in Hn as [Hn _]. clear - Hn.
        unfold is_word, is_ascii_alphanumeric, is_ascii_alphabetic, is_ascii_digit in Hn. blia.
Qed.

Lemma GL_unary e : expr_ok e = true → prec e ≠ 4%nat → GL 5 e → GL 4 e.
Proof.
  intros Hok Hp HG f p r rest Ha Hs Hf. rewrite render_up in Ha by done. destruct (head_skip 5 e rest Hok) as (c & t & E & _ & Hc). destruct (Hc eq_refl) as [H43 H45].
  change (level f 4) with (parse_unary input (parse_assignment input f)). unfold parse_unary. skip_blanks Ha. pose proof (at_skipped p' _ (proj2 Hp') Hd) as Ha'. rewrite E in Hd. look.
  change ((c :: t) !! 0%nat) with (Some c). rewrite !is_some, (proj2 (Z.eqb_neq c 45)), (proj2 (Z.eqb_neq c 43)) by done.
  specialize (HG f p' r rest Ha' (stops_mono 4 5 rest ltac:(lia) Hs) ltac:(lia)). unfold post in *. destruct (denote e r) as [[[v|x] e']|]; [|done|done].
  destruct HG as (p2 & ? & ? & E2). exists p2. split; [lia|]. by split.
Qed.

Lemma GL_sign s e : expr_ok e = true → GL 5 e → GL 4 (Sign s e).
Proof.
  intros Hok HG f p r rest Ha Hs Hf. cbn [render prec Nat.ltb Nat.leb] in Ha. rewrite <- !app_assoc in Ha.
  change (level f 4) with (parse_unary input (parse_assignment input f)). unfold parse_unary. cbn [denote].
  skip_blanks Ha. assert (Hb : is_ascii_whitespace match s with Minus => 45 | Plus => 43 end = false) by (by destruct s).
  destruct (operator_at p _ [] _ Hb Ha p' Hd) as [Hd' Ha']. clear Hd. look. change ((_ :: [] ++ ?t) !! 0%nat) with (Some match s with Minus => 45 | Plus => 43 end).
  specialize (HG f (p' + 1)%nat r rest Ha' (stops_mono 4 5 rest ltac:(lia) Hs) ltac:(lia)). change (level f 5) with (parse_primary input (parse_assignment input f)) in HG.
  destruct s; cbn [lookup list_lookup app]; rewrite !is_some; cbn [Z.eqb Pos.eqb]; rewrite advance_bind; cbv beta.
  - eapply post_bind; [exact HG|]. intros v e' p2 Hp2 Ha2. exists p2. split; [lia|]. by split.
  - rewrite D_bind_ret. unfold post in *. destruct (denote e r) as [[[v|x] e']|]; [|done|done]. destruct HG as (p2 & ? & ? & E2). exists p2. split; [lia|]. by split.
Qed.

Lemma skip_while_eq {A} f (k : unit → P A) p e a t : drop p input = a ++ t → forallb f a = true → match t with b :: _ => f b = false | [] => True end →
  (skip_while input f ≫= k) (mk_st p e) = k () (mk_st (p + length a) e).
Proof.
  intros E Ha Ht. unfold skip_while, mbind, P_bind, advance. cbn [pos env]. rewrite E, run_app by done. destruct t as [|b t]; cbn; [|rewrite Ht]; by rewrite Nat.add_0_r.
Qed.

Lemma slice_word p a t : drop p input = a ++ t → slice input p (p + length a) = a.
Proof. intros E. unfold slice, sub. rewrite E. replace (p + length a - p)%nat with (length a) by lia. apply take_app_length. Qed.

Lemma stops_digit l rest : stops l rest = true → match rest with b :: _ => is_ascii_digit b = false | [] => True end.
Proof.
  unfold stops. intros [H _]%andb_prop. destruct rest as [|b rest]; [done|]. revert H. clear. unfold is_word, is_ascii_alphanumeric. by destruct (is_ascii_digit b); rewrite ?orb_true_r.
Qed.

Lemma stops_word l rest : stops l rest = true → match rest with b :: _ => is_word b = false | [] => True end.
Proof. unfold stops. intros [H _]%andb_prop. destruct rest as [|b rest]; [done|]. by apply negb_true_iff in H. Qed.

Lemma GL_num ds : expr_ok (Num ds) = true → GL 5 (Num ds).
Proof.
  intros Hok f p r rest Ha Hs Hf. cbn [expr_ok] in Hok. cbn [render prec Nat.ltb Nat.leb] in Ha. rewrite <- app_assoc in Ha.
  change (level f 5) with (parse_primary input (parse_assignment input f)). unfold parse_primary. skip_blanks Ha.
  destruct ds as [|d ds]; [done|]. pose proof Hok as Hd0. cbn in Hd0. apply andb_prop in Hd0 as [Hd0 _].
  rewrite skip_blank in Hd by done. cbn [app] in Hd. rewrite skip_here in Hd by (apply token_start_not_blank; unfold token_start; by rewrite Hd0). look. change ((d :: ds ++ rest) !! 0%nat) with (Some d). cbv iota.
  rewrite (proj2 (Z.eqb_neq d 40)), (proj2 (Z.eqb_neq d 36)), Hd0 by (clear - Hd0; unfold is_ascii_digit in Hd0; blia). rewrite gets_bind. cbv beta.
  rewrite (skip_while_eq _ _ p' r (d :: ds) rest Hd Hok (stops_digit 5 rest Hs)). rewrite gets_bind. cbv beta. cbn [pos]. rewrite (slice_word p' (d :: ds) rest Hd). cbn [denote].
  destruct (past p' (d :: ds) rest) as [Hp2 Hl]; [done|done|].
  destruct (parse_i64 (d :: ds)) as [v|]; [|by eexists]. exists (p' + length (d :: ds))%nat. split; [lia|]. split; [by apply at_exact|done].
Qed.
(** A name, read where it stands. *)
Lemma identifier_eq {A} (k : list Z → P A) p e name rest : is_name name = true → stops 5 rest = true → at_ p (name ++ rest) →
  ∃ p', (p <= p' <= len)%nat ∧ drop p' input = rest ∧ (parse_identifier input ≫= k) (mk_st p e) = k name (mk_st p' e).
Proof.
  intros Hn Hs Ha. destruct (name_head name Hn) as (c & r & -> & Hc & Hr).
  assert (Ec : skip ((c :: r) ++ rest) = (c :: r) ++ rest) by (cbn [app]; apply skip_here, token_start_not_blank; unfold token_start; by rewrite Hc, orb_true_r).
  assert (Hw1 : forallb is_word (c :: r) = true) by (cbn; by rewrite Hc). assert (Hd : drop p input = (c :: r) ++ rest) by (destruct Ha as [_ [H|H]]; [done|by rewrite H, Ec]).
  destruct (past p (c :: r) rest) as [Hd2 Hl]; [done|done|]. exists (p + length (c :: r))%nat. split; [lia|]. split; [done|].
  unfold parse_identifier, skip_whitespace, mbind at 1, P_bind at 1.
  rewrite (skip_while_eq is_ascii_whitespace _ p e [] ((c :: r) ++ rest)); [|done|done|by apply token_start_not_blank; unfold token_start; rewrite Hc, orb_true_r].
  rewrite gets_bind. cbv beta. cbn [pos length]. rewrite Nat.add_0_r. rewrite (skip_while_eq is_word _ p e (c :: r) rest Hd Hw1 (stops_word 5 rest Hs)). rewrite gets_bind. cbv beta. cbn [pos].
  rewrite (slice_word p (c :: r) rest Hd). destruct (Nat.eqb_spec (p + length (c :: r)) p) as [H|H]; [cbn in H; lia|done].
Qed.

Lemma GL_var dollar name : expr_ok (Var dollar name) = true → GL 5 (Var dollar name).
Proof.
  intros Hok f p r rest Ha Hs Hf. cbn [expr_ok] in Hok. apply andb_prop in Hok as [Hn Hl]. cbn [render prec Nat.ltb Nat.leb] in Ha. rewrite <- !app_assoc in Ha.
  change (level f 5) with (parse_primary input (parse_assignment input f)). unfold parse_primary. skip_blanks Ha. rewrite skip_blank in Hd by done. cbn [denote]. destruct dollar.
  - cbn [app] in Hd. rewrite skip_here in Hd by done. look. change ((36 :: name ++ rest) !! 0%nat) with (Some 36). cbn [Z.eqb Pos.eqb]. cbv iota. rewrite advance_bind. cbv beta.
    destruct (past p' [36] (name ++ rest)) as [Hd1 Hl1]; [done|done|]. cbn [length] in *.
    match goal with |- context [(parse_identifier input ≫= ?k) _] => destruct (identifier_eq k (p' + 1) r name rest Hn Hs (at_exact _ _ Hl1 Hd1)) as (p2 & Hp2 & Hd2 & ->) end.
    exists p2. split; [lia|]. split; [apply at_exact; [lia|done]|done].
  - cbn [app orb] in *. destruct (name_head name Hn) as (c & t & -> & Hc & Ht). cbn [starts_letter] in Hl.
    assert (Ec : skip ((c :: t) ++ rest) = (c :: t) ++ rest) by (cbn [app]; apply skip_here, token_start_not_blank; unfold token_start; by rewrite Hc, orb_true_r).
    rewrite Ec in Hd. look. change (((c :: t) ++ rest) !! 0%nat) with (Some c). cbv iota.
    assert (Hcc : (c =? 40) = false ∧ (c =? 36) = false ∧ is_ascii_digit c = false) by (clear - Hl; unfold is_ascii_alphabetic, is_ascii_digit in *; blia).
    destruct Hcc as (-> & -> & ->). rewrite Hl.
    match goal with |- context [(parse_identifier input ≫= ?k) _] => destruct (identifier_eq k p' r (c :: t) rest Hn Hs (at_exact _ _ (proj2 Hp') Hd)) as (p2 & Hp2 & Hd2 & ->) end.
    cbv beta. pose proof (at_exact _ _ (proj2 Hp2) Hd2) as Ha2. clear Hd Hd2. skip_blanks Ha2. look. look1. rewrite (stops_not_assign 5 rest Hs).
    exists p'0. split; [lia|]. split; [apply at_skipped; [lia|done]|done].
Qed.

Lemma GL_paren e : (prec e < 5)%nat → GL 0 e → GL 5 e.
Proof.
  intros Hp HG f p r rest Ha Hs Hf. rewrite render_paren in Ha by done. rewrite <- app_assoc in Ha. cbn [app] in Ha. rewrite <- !app_assoc in Ha. cbn [app] in Ha.
  change (level f 5) with (parse_primary input (parse_assignment input f)). unfold parse_primary. skip_blanks Ha. rewrite skip_blank, skip_here in Hd by done. look.
  change ((40 :: render w 0 e ++ w ++ 41 :: rest) !! 0%nat) with (Some 40). cbn [Z.eqb Pos.eqb]. cbv iota. rewrite advance_bind. cbv beta.
  destruct (past p' [40] (render w 0 e ++ w ++ 41 :: rest)) as [Hd1 Hl1]; [done|done|]. cbn [length] in *.
  destruct f as [|f]; [lia|]. assert (Hc : stops 0 (w ++ 41 :: rest) = true) by (by apply stops_blank).
  specialize (HG f (p' + 1)%nat r (w ++ 41 :: rest) (at_exact _ _ Hl1 Hd1) Hc ltac:(lia)). change (level f 0) with (parse_assignment input (S f)) in HG.
  rewrite <- (D_bind_ret (denote e r)). eapply post_bind; [exact HG|]. intros v e' p2 Hp2 Ha2. cbv beta. clear Hd. skip_blanks Ha2. rewrite skip_blank, skip_here in Hd by done. look.
  change ((41 :: rest) !! 0%nat) with (Some 41). rewrite is_some. cbn [Z.eqb Pos.eqb]. rewrite advance_bind. destruct (past p'0 [41] rest) as [Hd2 Hl2]; [done|done|]. cbn [length] in *.
  exists (p'0 + 1)%nat. split; [lia|]. split; [by apply at_exact|done].
Qed.

(** *** Assignments *)

(** The look-ahead of [parse_assignment] finds no assignment and goes back. *)
Lemma GL_compare e : expr_ok e = true → prec e ≠ 0%nat → GL 1 e → GL 0 e.
Proof.
  intros Hok Hp HG f p r rest Ha Hs Hf. rewrite render_up in Ha by done. pose proof (render_no_assign w Hw e 1 rest Hok ltac:(lia) (stops_mono 0 5 rest ltac:(lia) Hs)) as Hno.
  specialize (HG f p r rest Ha (stops_mono 0 1 rest ltac:(lia) Hs) Hf). change (level f 1) with (parse_comparison input (parse_assignment input f)) in HG.
  enough (level f 0 (mk_st p r) = parse_comparison input (parse_assignment input f) (mk_st p r)) as -> by done. clear HG.
  change (level f 0) with (parse_assignment input (S f)). cbn [parse_assignment]. rewrite gets_bind. cbv beta. cbn [pos]. skip_blanks Ha. rewrite gets_bind. cbv beta. cbn [pos].
  set (t1 := skip (render w 1 e ++ rest)) in *. set (n := run is_word t1) in *.
  match goal with |- (skip_while input is_word ≫= ?k) _ = _ => change ((skip_while input is_word ≫= k) (mk_st p' r)) with (k () (mk_st (p' + run is_word (drop p' input)) r)) end.
  rewrite Hd. fold n. cbv beta. rewrite gets_bind. cbv beta. cbn [pos]. destruct (Nat.ltb_spec p' (p' + n)) as [Hlt|Hge]; [|done].
  assert (Hd2 : drop (p' + n) input = drop n t1) by (rewrite <- drop_drop; by rewrite Hd). pose proof (run_le is_word t1) as Hn. fold n in Hn.
  assert (Ha2 : at_ (p' + n) (drop n t1)) by (apply at_exact; [|done]; rewrite <- Hd, length_drop in Hn; lia).
  clear Hd. skip_blanks Ha2. look. look1. unfold no_assign in Hno. fold t1 n in Hno. destruct Hno as [Hno|Hno]; [lia|]. cbn [andb]. rewrite Hno. done.
Qed.

Lemma GL_assign name e : expr_ok (Assign name e) = true → GL 0 e → GL 0 (Assign name e).
Proof.
  intros Hok HG f p r rest Ha Hs Hf. cbn [expr_ok] in Hok. apply andb_prop in Hok as [Hn Hok]. cbn [render prec Nat.ltb Nat.leb] in Ha. rewrite <- !app_assoc in Ha. cbn [app] in Ha.
  change (level f 0) with (parse_assignment input (S f)). cbn [parse_assignment denote]. rewrite gets_bind. cbv beta. cbn [pos]. skip_blanks Ha. rewrite gets_bind. cbv beta. cbn [pos].
  destruct (name_head name Hn) as (c & t & -> & Hc & Ht). rewrite skip_blank in Hd by done. cbn [app] in Hd.
  rewrite skip_here in Hd by (apply token_start_not_blank; unfold token_start; by rewrite Hc, orb_true_r).
  assert (Hw1 : forallb is_word (c :: t) = true) by (cbn; by rewrite Hc).
  assert (Hb : match w ++ 61 :: render w 0 e ++ rest with b :: _ => is_word b = false | [] => True end).
  { destruct w as [|b w']; [done|]. cbn in *. apply andb_prop in Hw as [Hb _]. clear - Hb. unfold is_word, is_ascii_alphanumeric, is_ascii_alphabetic, is_ascii_digit, is_ascii_whitespace in *. blia. }
  rewrite (skip_while_eq is_word _ p' r (c :: t) (w ++ 61 :: render w 0 e ++ rest) Hd Hw1 Hb). rewrite gets_bind. cbv beta. cbn [pos].
  rewrite (slice_word p' (c :: t) _ Hd). destruct (past p' (c :: t) (w ++ 61 :: render w 0 e ++ rest)) as [Hd1 Hl1]; [done|done|].
  rewrite (proj2 (Nat.ltb_lt p' (p' + length (c :: t)))) by (cbn; lia). pose proof (at_exact _ _ Hl1 Hd1) as Ha1. clear Hd Hd1. skip_blanks Ha1. rewrite skip_blank, skip_here in Hd by done. look. look1.
  change ((61 :: render w 0 e ++ rest) !! 0%nat) with (Some 61). change ((61 :: render w 0 e ++ rest) !! 1%nat) with ((render w 0 e ++ rest) !! 0%nat). rewrite is_some.
  assert (is_ ((render w 0 e ++ rest) !! 0%nat) 61 = false) as -> by (by apply bool_decide_eq_false_2, operand_head). cbn [Z.eqb Pos.eqb andb negb]. rewrite advance_bind. cbv beta.
  destruct (past p'0 [61] (render w 0 e ++ rest)) as [Hd2 Hl2]; [done|done|]. cbn [length] in *. destruct f as [|f]; [lia|].
  specialize (HG f (p'0 + 1)%nat r rest (at_exact _ _ Hl2 Hd2) Hs ltac:(lia)). change (level f 0) with (parse_assignment input (S f)) in HG.
  eapply post_bind; [exact HG|]. intros v e' p2 Hp2 Ha2. exists p2. split; [lia|]. by split.
Qed.

(** *** All levels *)

Lemma GL_down e l : expr_ok e = true → (l <= 4)%nat → prec e ≠ l → GL (S l) e → GL l e.
Proof.
  intros Hok Hl Hp HG. destruct (decide (l = 0%nat)) as [->|H0]; [by apply GL_compare|]. destruct (decide (l = 4%nat)) as [->|H4]; [by apply GL_unary|].
  apply LL_GL; [lia|]. apply GL_LL; [lia|done|done].
Qed.

Lemma GL_below e q : expr_ok e = true → (q <= 5)%nat → GL q e → ∀ l, (l <= q)%nat → (∀ m, (l <= m < q)%nat → prec e ≠ m) → GL l e.
Proof.
  intros Hok Hq HG l Hl. remember (q - l)%nat as k eqn:Ek. revert l Hl Ek. induction k as [|k IH]; intros l Hl Ek Hm; [by replace l with q by lia|].
  apply GL_down; [done|lia|apply Hm; lia|]. apply IH; [lia|lia|]. intros m Hm'. apply Hm. lia.
Qed.

Definition reads (e : expr) : Prop := (∀ l, (l <= 5)%nat → GL l e) ∧ ∀ l, (1 <= l <= 3)%nat → LL l e.

(** Its own level, then those below, then parentheses for those above. *)
Lemma reads_from e : expr_ok e = true → GL (prec e) e → ((1 <= prec e <= 3)%nat → LL (prec e) e) → reads e.
Proof.
  intros Hok HG HL. assert (Hq : (prec e <= 5)%nat) by (destruct e; cbn; lia).
  assert (Hlow : ∀ l, (l <= prec e)%nat → GL l e) by (intros l Hl; apply (GL_below e (prec e)); try done; intros m ?; lia).
  assert (Hall : ∀ l, (l <= 5)%nat → GL l e).
  { intros l Hl. destruct (decide (l <= prec e)%nat); [by apply Hlow|]. apply (GL_below e 5); [done|done| |done|intros m ?; lia]. apply GL_paren; [lia|]. apply Hlow. lia. }
  split; [done|]. intros l Hl. destruct (decide (prec e = l)) as [<-|Hne]; [by apply HL|]. apply GL_LL; [done|done|]. apply Hall. lia.
Qed.

Lemma reads_all e : expr_ok e = true → reads e.
Proof.
  induction e as [ds|dollar name|s e IH|o e1 IH1 e2 IH2|o e1 IH1 e2 IH2|o e1 IH1 e2 IH2|name e IH]; intros Hok.
  - apply reads_from; [done|by apply GL_num|cbn; lia].
  - apply reads_from; [done|by apply GL_var|cbn; lia].
  - apply reads_from; [done| |cbn; lia]. apply GL_sign; [done|]. apply IH; [done|lia].
  - pose proof Hok as H. cbn in H. apply andb_prop in H as [Ho1 Ho2]. assert (HL : LL 3 (Mul o e1 e2)).
    { apply (LL_binary 3 _ e1 e2 (mul_tok o) (mul_sem o)); [lia|done|apply IH1; [done|lia]|apply IH2; [done|lia]| |apply mul_round|done|done]. intros t. destruct o; by apply stops_blank. }
    apply reads_from; [done|apply LL_GL; [cbn; lia|done]|done].
  - pose proof Hok as H. cbn in H. apply andb_prop in H as [Ho1 Ho2]. assert (HL : LL 2 (Add o e1 e2)).
    { apply (LL_binary 2 _ e1 e2 (add_tok o) (λ a b r, Ret (Ok (add_sem o a b), r))); [lia|done|apply IH1; [done|lia]|apply IH2; [done|lia]| |apply add_round|done|done]. intros t. destruct o; by apply stops_blank. }
    apply reads_from; [done|apply LL_GL; [cbn; lia|done]|done].
  - pose proof Hok as H. cbn in H. apply andb_prop in H as [Ho1 Ho2]. assert (HL : LL 1 (Cmp o e1 e2)).
    { apply (LL_binary 1 _ e1 e2 (cmp_tok o) (λ a b r, Ret (Ok (compare o a b), r))); [lia|done|apply IH1; [done|lia]|apply IH2; [done|lia]| |apply cmp_round|done|done]. intros t. destruct o; by apply stops_blank. }
    apply reads_from; [done|apply LL_GL; [cbn; lia|done]|done].
  - apply reads_from; [done| |cbn; lia]. apply GL_assign; [done|]. cbn in Hok. apply andb_prop in Hok as [_ Hok]. apply IH; [done|lia].
Qed.

End Place.

(** ** The whole expression *)

(** [trim] takes the blanks around the text and nothing else. *)
Lemma strip_any_head (ps : list (list Z)) c t : forallb (λ p, match p with [] => false | b :: _ => negb (b =? c) end) ps = true → strip_any ps (c :: t) = None.
Proof.
  induction ps as [|p ps IH]; [done|]. cbn. intros [Hp H]%andb_prop. destruct p as [|b p]; [done|]. cbn. apply negb_true_iff in Hp. rewrite Hp. by apply IH.
Qed.

Lemma trim_with_spec ps c t fuel : (∀ b l, is_ascii_whitespace b = true → strip_any ps (b :: l) = Some l) →
  forallb (λ p, match p with [] => false | b :: _ => negb (b =? c) end) ps = true →
  ∀ w, blank w = true → (length w <= fuel)%nat → trim_with ps fuel (w ++ c :: t) = c :: t.
Proof.
  intros Hws Hc. induction fuel as [|fuel IH]; intros w Hw Hf.
  - destruct w; [done|cbn in Hf; lia].
  - destruct w as [|b w]; cbn [app trim_with]; [by rewrite strip_any_head|]. cbn in Hw. apply andb_prop in Hw as [Hb Hw]. rewrite Hws by done. apply IH; [done|cbn in Hf; lia].
Qed.

Lemma ws_cases b : is_ascii_whitespace b = true → b = 32 ∨ b = 9 ∨ b = 10 ∨ b = 12 ∨ b = 13.
Proof. unfold is_ascii_whitespace. intros. blia. Qed.

Lemma white_space_blank b l : is_ascii_whitespace b = true → strip_any white_space (b :: l) = Some l ∧ strip_any (reverse <$> white_space) (b :: l) = Some l.
Proof. intros [->|[->|[->|[->| ->]]]]%ws_cases; split; reflexivity. Qed.

Lemma heads_differ ps c : 32 < c < 128 → forallb (λ p : list Z, match p with [] => false | b :: _ => (b <=? 32) || (128 <=? b) end) ps = true →
  forallb (λ p : list Z, match p with [] => false | b :: _ => negb (b =? c) end) ps = true.
Proof.
  intros Hc H. rewrite forallb_forall in H. apply forallb_forall. intros [|b p] Hp; [by specialize (H [] Hp)|]. specialize (H _ Hp). cbn in H. clear Hp. blia.
Qed.

Lemma white_space_ends : let outside := forallb (λ p : list Z, match p with [] => false | b :: _ => (b <=? 32) || (128 <=? b) end) in
  outside white_space = true ∧ outside (reverse <$> white_space) = true.
Proof. split; reflexivity. Qed.

Lemma trim_spec w c t d w2 : blank w = true → blank w2 = true → 32 < c < 128 → 32 < d < 128 → ∀ m, c :: t = m ++ [d] → trim (w ++ (c :: t) ++ w2) = c :: t.
Proof.
  intros Hw Hw2 Hc Hd m Em. unfold trim, trim_start, trim_end. cbn [app].
  rewrite (trim_with_spec white_space c (t ++ w2) _ (λ b l Hb, proj1 (white_space_blank b l Hb)) (heads_differ white_space c Hc (proj1 white_space_ends)) w Hw) by (rewrite length_app; lia).
  change (c :: t ++ w2) with ((c :: t) ++ w2). rewrite Em, !reverse_app. change (reverse [d]) with [d]. cbn [app].
  rewrite (trim_with_spec (reverse <$> white_space) d (reverse m) _ (λ b l Hb, proj2 (white_space_blank b l Hb)) (heads_differ (reverse <$> white_space) d Hd (proj2 white_space_ends))).
  - rewrite reverse_cons, reverse_involutive. done.
  - unfold blank in *. rewrite forallb_forall in *. intros x Hx. apply Hw2. rewrite <- list_elem_of_In in *. by rewrite elem_of_reverse in Hx.
  - rewrite length_reverse, !length_app. lia.
Qed.

(** A rendered expression ends with a token. *)
Definition ended (t : list Z) : Prop := ∃ m d, t = m ++ [d] ∧ 32 < d < 128.

Lemma ended_app a b : ended b → ended (a ++ b).
Proof. intros (m & d & -> & Hd). exists (a ++ m), d. split; [by rewrite app_assoc|done]. Qed.

Lemma word_ended name : is_name name = true → ended name.
Proof.
  intros Hn. destruct (name_head name Hn) as (c & r & E & _). destruct (exists_last (l := name)) as (m & d & ->); [by rewrite E|]. exists m, d. split; [done|].
  assert (is_word d = true) as Hd; [|revert Hd; clear; unfold is_word, is_ascii_alphanumeric, is_ascii_alphabetic, is_ascii_digit; intros; blia].
  assert (Hf : forallb is_word (m ++ [d]) = true) by (clear E; destruct m; exact Hn). rewrite forallb_app in Hf. apply andb_prop in Hf as [_ Hf]. cbn in Hf. by apply andb_prop in Hf as [Hf _].
Qed.

Lemma render_ended w e : expr_ok e = true → ∀ l, ended (render w l e).
Proof.
  assert (Hp : ∀ e l, ended (render w 0 e) → ended (render w l e)).
  { intros e0 l H. destruct (decide (prec e0 < l)%nat); [|by rewrite render_bare by lia]. rewrite render_paren by done. apply ended_app. change (?c :: ?t) with ([c] ++ t). do 2 apply ended_app. exists w, 41. split; [done|lia]. }
  induction e as [ds|dollar name|s e IH|o e1 IH1 e2 IH2|o e1 IH1 e2 IH2|o e1 IH1 e2 IH2|name e IH]; intros Hok l; apply Hp; cbn [expr_ok render prec Nat.ltb Nat.leb] in *.
  - apply ended_app, word_ended. by apply digits_name.
  - apply andb_prop in Hok as [Hn _]. do 2 apply ended_app. by apply word_ended.
  - do 2 apply ended_app. by apply IH.
  - apply andb_prop in Hok as [_ Hok]. do 3 apply ended_app. by apply IH2.
  - apply andb_prop in Hok as [_ Hok]. do 3 apply ended_app. by apply IH2.
  - apply andb_prop in Hok as [_ Hok]. do 3 apply ended_app. by apply IH2.
  - apply andb_prop in Hok as [_ Hok]. do 3 apply ended_app. change (61 :: ?t) with ([61] ++ t). apply ended_app. by apply IH.
Qed.

Lemma trim_render w w2 e : blank w = true → blank w2 = true → expr_ok e = true → trim (render w 0 e ++ w2) = skip (render w 0 e).
Proof.
  intros Hw Hw2 Hok. destruct (render_head w 0 e Hok) as (c & t & E & Hc). destruct (render_ended w e Hok 0) as (m & d & E2 & Hd).
  rewrite E, <- app_assoc. rewrite skip_blank, skip_here by (done || by apply token_start_not_blank).
  assert (Hr : 32 < c < 128) by (clear - Hc; unfold token_start, is_word, is_ascii_alphanumeric, is_ascii_alphabetic, is_ascii_digit in Hc; blia).
  assert (Em : ∃ m', c :: t = m' ++ [d]).
  { destruct (exists_last (l := c :: t)) as (m' & d' & Em); [done|]. exists m'. rewrite Em. do 2 f_equal. rewrite E, Em, app_assoc in E2. by apply app_inj_tail in E2 as [_ ->]. }
  destruct Em as [m' Em]. by apply (trim_spec w c t d w2 Hw Hw2 Hr Hd m').
Qed.

Lemma denotes w w2 e r : blank w = true → blank w2 = true → expr_ok e = true →
  eval_arithmetic r (render w 0 e ++ w2) = denote e r.
Proof.
  intros Hw Hw2 Hok. unfold eval_arithmetic. rewrite trim_render by done. set (input := skip (render w 0 e)).
  assert (Ha : at_ input 0 (render w 0 e ++ [])) by (apply at_skipped; [lia|]; by rewrite app_nil_r).
  pose proof (proj1 (reads_all input w Hw e Hok) 0%nat ltac:(lia) (length input) 0%nat r [] Ha eq_refl ltac:(lia)) as H.
  change (level input (length input) 0) with (parse_assignment input (S (length input))) in H. unfold eval_input, mbind at 2, P_bind at 1.
  unfold post in H. destruct (denote e r) as [[[v|x] r']|].
  - destruct H as (p & _ & Hp & ->). match goal with |- context [(skip_whitespace input ≫= ?k) _] => destruct (skip_ws_eq input k p r' [] Hp) as (p' & Hp' & Hd & ->) end.
    assert (p' = length input) as -> by (apply (f_equal length) in Hd; rewrite length_drop in Hd; cbn in Hd; lia).
    rewrite gets_bind. cbv beta. cbn [pos]. rewrite Nat.ltb_irrefl. done.
  - destruct H as (p & ->). done.
  - by rewrite H.
Qed.

(** C20 [eval_arithmetic] computes what the expression says. An expression
    written with any blanks between its tokens, and parentheses where the
    precedence of the operators asks for them, evaluates to its denotation:
    operands from left to right, operators of one level grouped to the left,
    64-bit wrap-around, assignments made on the way and kept, and the same error,
    or the same stop of the program, where the denotation has one. *)
Theorem eval_arithmetic_denotes w w2 e r : blank w = true → blank w2 = true → expr_ok e = true →
  eval_arithmetic r (render w 0 e ++ w2) = denote e r.
Proof. apply denotes. Qed.

(** ** Any text at all *)

Section Total.

Context (input : list Z).

(** From [s] the parser does not run out of fuel, panics only where the text has
    a division, and otherwise ends in [Q]. *)
Definition tot {A} (m : P A) (s : State) (Q : A → State → Prop) : Prop :=
  match m s with
  | Panic => 47 ∈ input ∨ 37 ∈ input
  | Ret (Err x, _) => x ≠ OutOfFuel
  | Ret (Ok a, s') => Q a s'
  end.

Lemma tot_then {A B} (m : P A) (k : A → P B) s Q Q' : tot m s Q → (∀ a s', Q a s' → tot (k a) s' Q') → tot (m ≫= k) s Q'.
Proof. unfold tot, mbind, P_bind. intros H Hk. destruct (m s) as [[[a|x] s']|]; [by apply Hk|done|done]. Qed.

Lemma tot_weaken {A} (m : P A) s (Q Q' : A → State → Prop) : tot m s Q → (∀ a s', Q a s' → Q' a s') → tot m s Q'.
Proof. unfold tot. intros H Hk. destruct (m s) as [[[a|x] s']|]; [by apply Hk|done|done]. Qed.

Lemma tot_gets {A B} (g : State → A) (k : A → P B) s Q : tot (k (g s)) s Q → tot (gets g ≫= k) s Q.
Proof. done. Qed.
Lemma tot_advance {B} n (k : unit → P B) s Q : tot (k ()) (mk_st (pos s + n) (env s)) Q → tot (advance n ≫= k) s Q.
Proof. done. Qed.

(** Forward, and not past the end. *)
Definition fwd (s s' : State) : Prop := (pos s <= pos s' <= length input)%nat.
Definition value (s : State) (v : Z) (s' : State) : Prop := fwd s s' ∧ is_i64 v = true.

Lemma tot_skip {B} f (k : unit → P B) s Q : (pos s <= length input)%nat → (∀ s', fwd s s' → env s' = env s → tot (k ()) s' Q) → tot (skip_while input f ≫= k) s Q.
Proof.
  intros Hp Hk. apply (Hk (mk_st (pos s + run f (drop (pos s) input)) (env s))); [|done]. unfold fwd. cbn [pos]. pose proof (run_le f (drop (pos s) input)) as H. rewrite length_drop in H. lia.
Qed.

Lemma peek_some s c : is_ (peek input s) c = true → (S (pos s) <= length input)%nat ∧ c ∈ input.
Proof. unfold is_, peek. intros H%bool_decide_eq_true. split; [by apply lookup_lt_Some in H|by eapply list_elem_of_lookup_2]. Qed.

Lemma wrap_is_i64 x : is_i64 (wrap_i64 x) = true.
Proof. unfold is_i64, wrap_i64, I64_MIN, I64_MAX. pose proof (Z.mod_pos_bound (x - - 2 ^ 63) (2 ^ 64) eq_refl). apply andb_true_intro. split; apply Z.leb_le; lia. Qed.

Lemma parse_digits_range neg l : ∀ acc v, is_i64 acc = true → parse_digits neg acc l = Some v → is_i64 v = true.
Proof.
  induction l as [|b l IH]; cbn [parse_digits]; intros acc v Ha; [by intros [= <-]|]. destruct (negb _); [done|]. cbv zeta. destruct (is_i64 (if neg then _ else _)) eqn:E; [|done]. by apply IH.
Qed.
Lemma parse_i64_range l v : parse_i64 l = Some v → is_i64 v = true.
Proof.
  unfold parse_i64. destruct l as [|b r]; [done|]. destruct (b =? 45); [destruct r; [done|]; by apply parse_digits_range|]. destruct (b =? 43); [destruct r; [done|]|]; by apply parse_digits_range.
Qed.
Lemma lookup_var_range e name : is_i64 (lookup_var e name) = true.
Proof. unfold lookup_var. destruct (e !! name) as [l|]; [|done]. cbn. destruct (parse_i64 l) as [v|] eqn:E; [|done]. cbn. by eapply parse_i64_range. Qed.

Lemma quot_range a b : is_i64 a = true → is_i64 b = true → b ≠ 0 → ¬ (a = I64_MIN ∧ b = -1) → is_i64 (Z.quot a b) = true ∧ is_i64 (Z.rem a b) = true.
Proof.
  unfold is_i64, I64_MIN, I64_MAX. intros Ha Hb H0 Hm. rewrite !andb_true_iff, !Z.leb_le in *.
  pose proof (Z.rem_bound_abs a b H0). assert (Hq : Z.abs (Z.quot a b) * Z.abs b <= Z.abs a) by (rewrite <- Z.quot_abs, Z.quot_div_nonneg by lia; pose proof (Z.mul_div_le (Z.abs a) (Z.abs b)); lia).
  split; [|lia]. destruct (decide (Z.abs b = 1)); [|nia]. assert (b = 1 ∨ b = -1) as [->| ->] by lia; [rewrite Z.quot_1_r; lia|].
  change (-1) with (- (1)). rewrite Z.quot_opp_r, Z.quot_1_r by lia. lia.
Qed.

Lemma div_total f a b s : (∀ x y, is_i64 x = true → is_i64 y = true → y ≠ 0 → ¬ (x = I64_MIN ∧ y = -1) → is_i64 (f x y) = true) →
  is_i64 a = true → is_i64 b = true → (pos s <= length input)%nat → (47 ∈ input ∨ 37 ∈ input) → tot (checked_div f a b) s (λ v s', s' = s ∧ is_i64 v = true).
Proof.
  intros Hf Ha Hb Hp Hin. unfold checked_div. destruct (Z.eqb_spec b 0); [done|]. destruct ((a =? I64_MIN) && (b =? -1)) eqn:E; [done|]. split; [done|]. apply Hf; try done. intros [-> ->]. done.
Qed.

Lemma compare_range o a b : is_i64 (compare o a b) = true.
Proof. unfold compare, b2z. by destruct o; case_match. Qed.

Lemma identifier_total s : (pos s <= length input)%nat → tot (parse_identifier input) s (λ _ s', fwd s s').
Proof.
  intros Hp. unfold parse_identifier, skip_whitespace. apply tot_skip; [done|]. intros s1 H1 _. apply tot_gets. apply tot_skip; [apply H1|]. intros s2 H2 _. apply tot_gets.
  destruct (_ =? _)%nat; [done|]. unfold fwd in *. cbn. lia.
Qed.

Section WithRecursion.

(** The recursion answers from the positions its fuel [f] is enough for. *)
Context (f : nat) (pa : P Z) (Hpa : ∀ s, (pos s <= length input)%nat → (length input < f + pos s)%nat → tot pa s (value s)).

Definition ready (s : State) : Prop := (pos s <= length input <= f + pos s)%nat.

Lemma ready_fwd s s' : ready s → fwd s s' → ready s'.
Proof. unfold ready, fwd. lia. Qed.
Lemma value_fwd s s' v s2 : fwd s s' → value s' v s2 → value s v s2.
Proof. unfold value, fwd. intuition lia. Qed.

Lemma primary_total s : ready s → tot (parse_primary input pa) s (value s).
Proof.
  intros Hr. unfold parse_primary, skip_whitespace. apply tot_skip; [apply Hr|]. intros s1 H1 _. pose proof (ready_fwd _ _ Hr H1) as Hr1. apply (tot_weaken _ _ (value s1)); [|intros; by eapply value_fwd].
  apply tot_gets. destruct (peek input s1) as [b|] eqn:Eb; [|done]. assert (Hb : (S (pos s1) <= length input)%nat) by (by apply lookup_lt_Some in Eb).
  destruct (b =? 40).
  { apply tot_advance. eapply tot_then; [apply Hpa; unfold ready in *; cbn; lia|]. intros v s2 [H2 Hv]. apply tot_skip; [apply H2|]. intros s3 H3 _. apply tot_gets.
    destruct (is_ _ 41) eqn:E; [|by apply tot_gets]. apply peek_some in E as [E _]. apply tot_advance. split; [unfold fwd in *; cbn in *; lia|done]. }
  destruct (b =? 36).
  { apply tot_advance. eapply tot_then; [apply identifier_total; cbn; lia|]. intros name s2 H2. split; [unfold fwd in *; cbn in *; lia|apply lookup_var_range]. }
  destruct (is_ascii_digit b).
  { apply tot_gets. apply tot_skip; [lia|]. intros s2 H2 _. apply tot_gets. cbv zeta. destruct (parse_i64 _) as [v|] eqn:Ev; [|done]. split; [done|by eapply parse_i64_range]. }
  destruct (is_ascii_alphabetic b || (b =? 95)); [|by apply tot_gets].
  eapply tot_then; [apply identifier_total; lia|]. intros name s2 H2. apply tot_skip; [apply H2|]. intros s3 H3 _. do 2 apply tot_gets. destruct (_ && _) eqn:E.
  - apply andb_prop in E as [E _]. apply peek_some in E as [E _]. apply tot_advance. eapply tot_then; [apply Hpa; unfold ready, fwd in *; cbn; lia|]. intros v s4 [H4 Hv]. split; [unfold fwd in *; cbn in *; lia|done].
  - split; [unfold fwd in *; cbn; lia|apply lookup_var_range].
Qed.

Lemma unary_total s : ready s → tot (parse_unary input pa) s (value s).
Proof.
  intros Hr. unfold parse_unary, skip_whitespace. apply tot_skip; [apply Hr|]. intros s1 H1 _. pose proof (ready_fwd _ _ Hr H1) as Hr1. apply tot_gets.
  destruct (is_ _ 45) eqn:E; [|destruct (is_ _ 43) eqn:E2].
  - apply peek_some in E as [E _]. apply tot_advance. eapply tot_then; [apply primary_total; unfold ready in *; cbn; lia|]. intros v s2 [H2 _]. split; [unfold fwd in *; cbn in *; lia|apply wrap_is_i64].
  - apply peek_some in E2 as [E2 _]. apply tot_advance. eapply tot_weaken; [apply primary_total; unfold ready in *; cbn; lia|]. intros v s2 [H2 Hv]. split; [unfold fwd in *; cbn in *; lia|done].
  - eapply tot_weaken; [by apply primary_total|]. intros v s2. by apply value_fwd.
Qed.

(** An operator read, its right operand parsed, and the loop again. *)
Lemma tot_operand (m : P Z) (k : Z → P Z) c n s s1 : (∀ s, ready s → tot m s (value s)) → ready s → fwd s s1 → is_ (peek input s1) c = true ∧ n = 1%nat ∨ (pos s1 + n <= length input)%nat →
  (1 <= n)%nat → (∀ v s', (S (pos s) <= pos s')%nat → ready s' → is_i64 v = true → tot (k v) s' (value s')) → tot (advance n;; v ← m; k v) s1 (value s).
Proof.
  intros Hm Hr H1 Hc Hn Hk. assert (Hl : (pos s1 + n <= length input)%nat) by (destruct Hc as [[Hc ->]|Hc]; [apply peek_some in Hc; lia|done]).
  apply tot_advance. eapply tot_then; [apply Hm; unfold ready, fwd in *; cbn; lia|]. intros v s2 [H2 Hv]. eapply tot_weaken; [apply Hk; [unfold fwd in *; cbn in *; lia|unfold ready, fwd in *; cbn in *; lia|done]|].
  intros v2 s3 [H3 ?]. split; [unfold fwd in *; cbn in *; lia|done].
Qed.

Lemma mul_loop_total n : ∀ v s, ready s → (length input < n + pos s)%nat → is_i64 v = true → tot (mul_loop input pa n v) s (value s).
Proof.
  induction n as [|n IH]; intros v s Hr Hn Hv; [unfold ready in Hr; lia|]. cbn [mul_loop]. unfold skip_whitespace. apply tot_skip; [apply Hr|]. intros s1 H1 _. apply tot_gets.
  destruct (is_ _ 42) eqn:E1; [|destruct (is_ _ 47) eqn:E2; [|destruct (is_ _ 37) eqn:E3; [|by split]]].
  - apply (tot_operand _ _ 42 1 s s1); [by apply unary_total|done|done|by left|done|]. intros b s2 Hp2 Hr2 Hb. apply IH; [done|lia|apply wrap_is_i64].
  - apply (tot_operand _ _ 47 1 s s1); [by apply unary_total|done|done|by left|done|]. intros b s2 Hp2 Hr2 Hb.
    eapply tot_then; [apply div_total; [intros; by apply quot_range|done|done|apply Hr2|left; by eapply peek_some]|]. intros q s3 [-> Hq]. apply IH; [done|lia|done].
  - apply (tot_operand _ _ 37 1 s s1); [by apply unary_total|done|done|by left|done|]. intros b s2 Hp2 Hr2 Hb.
    eapply tot_then; [apply div_total; [intros; by apply quot_range|done|done|apply Hr2|right; by eapply peek_some]|]. intros q s3 [-> Hq]. apply IH; [done|lia|done].
Qed.

(** A level: its first operand, then its loop. *)
Lemma level_total (m : P Z) (k : nat → Z → P Z) s : (∀ s, ready s → tot m s (value s)) → (∀ n v s, ready s → (length input < n + pos s)%nat → is_i64 v = true → tot (k n v) s (value s)) → ready s →
  tot (v ← m; k (S (length input)) v) s (value s).
Proof.
  intros Hm Hk Hr. eapply tot_then; [by apply Hm|]. intros v s1 [H1 Hv]. eapply tot_weaken; [apply Hk; [by eapply ready_fwd|lia|done]|]. intros v2 s2. by apply value_fwd.
Qed.

Lemma multiplicative_total s : ready s → tot (parse_multiplicative input pa) s (value s).
Proof. apply level_total; [apply unary_total|apply mul_loop_total]. Qed.

Lemma add_loop_total n : ∀ v s, ready s → (length input < n + pos s)%nat → is_i64 v = true → tot (add_loop input pa n v) s (value s).
Proof.
  induction n as [|n IH]; intros v s Hr Hn Hv; [unfold ready in Hr; lia|]. cbn [add_loop]. unfold skip_whitespace. apply tot_skip; [apply Hr|]. intros s1 H1 _. apply tot_gets.
  destruct (is_ _ 43) eqn:E1; [|destruct (is_ _ 45) eqn:E2; [|by split]].
  - apply (tot_operand _ _ 43 1 s s1); [by apply multiplicative_total|done|done|by left|done|]. intros b s2 Hp2 Hr2 Hb. apply IH; [done|lia|apply wrap_is_i64].
  - apply (tot_operand _ _ 45 1 s s1); [by apply multiplicative_total|done|done|by left|done|]. intros b s2 Hp2 Hr2 Hb. apply IH; [done|lia|apply wrap_is_i64].
Qed.

Lemma additive_total s : ready s → tot (parse_additive input pa) s (value s).
Proof. apply level_total; [apply multiplicative_total|apply add_loop_total]. Qed.

Lemma cmp_at_fits s o : cmp_at (peek input s) (peek1 input s) = Some o → (pos s + cmp_len o <= length input)%nat.
Proof.
  assert (H1 : ∀ c, is_ (peek input s) c = true → (S (pos s) <= length input)%nat) by (intros c H; by apply peek_some in H as [H _]).
  assert (H2 : ∀ c, is_ (peek1 input s) c = true → (S (S (pos s)) <= length input)%nat) by (intros c H; unfold is_, peek1 in H; apply bool_decide_eq_true, lookup_lt_Some in H; lia).
  unfold cmp_at. repeat (case_match; [intros [= <-]; repeat match goal with H : _ && _ = true |- _ => apply andb_prop in H as [? ?] end; cbn; repeat match goal with H : is_ (peek _ _) _ = true |- _ => apply H1 in H | H : is_ (peek1 _ _) _ = true |- _ => apply H2 in H end; lia|]). done.
Qed.

Lemma cmp_loop_total n : ∀ v s, ready s → (length input < n + pos s)%nat → is_i64 v = true → tot (cmp_loop input pa n v) s (value s).
Proof.
  induction n as [|n IH]; intros v s Hr Hn Hv; [unfold ready in Hr; lia|]. cbn [cmp_loop]. unfold skip_whitespace. apply tot_skip; [apply Hr|]. intros s1 H1 _. do 2 apply tot_gets.
  destruct (cmp_at _ _) as [o|] eqn:E; [|by split]. apply (tot_operand _ _ 0 (cmp_len o) s s1); [by apply additive_total|done|done|right; by apply cmp_at_fits|by destruct o; cbn; lia|].
  intros b s2 Hp2 Hr2 Hb. apply IH; [done|lia|apply compare_range].
Qed.

Lemma comparison_total s : ready s → tot (parse_comparison input pa) s (value s).
Proof. apply level_total; [apply additive_total|apply cmp_loop_total]. Qed.

End WithRecursion.

Lemma assignment_total f : ∀ s, (pos s <= length input)%nat → (length input < f + pos s)%nat → tot (parse_assignment input f) s (value s).
Proof.
  induction f as [|f IH]; intros s Hp Hf; [lia|]. cbn [parse_assignment]. unfold skip_whitespace. apply tot_gets. apply tot_skip; [done|]. intros s1 H1 _. apply tot_gets. apply tot_skip; [apply H1|]. intros s2 H2 _. apply tot_gets.
  apply (tot_then _ _ _ (λ _ s3, fwd s2 s3)).
  { destruct (_ <? _)%nat; [|unfold fwd in *; cbn; lia]. unfold tot, skip_while, advance. unfold fwd. cbn [pos]. pose proof (run_le is_ascii_whitespace (drop (pos s2) input)) as H. rewrite length_drop in H. unfold fwd in *. lia. }
  intros [] s3 H3. do 2 apply tot_gets. destruct (_ && _) eqn:E.
  - apply andb_prop in E as [E _]. apply andb_prop in E as [_ E]. apply peek_some in E as [E _]. apply tot_advance. eapply tot_then; [apply IH; unfold fwd in *; cbn; lia|]. intros v s4 [H4 Hv]. split; [unfold fwd in *; cbn in *; lia|done].
  - apply (comparison_total f (parse_assignment input f) IH (mk_st (pos s) (env s3))). unfold ready. cbn. lia.
Qed.

End Total.

Lemma strip_suffix p : ∀ l r, strip p l = Some r → ∀ x : Z, x ∈ r → x ∈ l.
Proof. induction p as [|a p IH]; intros l r; cbn; [by intros [= <-]|]. destruct l as [|b l]; [done|]. destruct (a =? b); [|done]. intros H x Hx. apply list_elem_of_further. by eapply IH. Qed.

Lemma trim_with_incl ps n : ∀ l (x : Z), x ∈ trim_with ps n l → x ∈ l.
Proof.
  assert (Hs : ∀ qs l r, strip_any qs l = Some r → ∀ x : Z, x ∈ r → x ∈ l).
  { induction qs as [|q qs IH]; intros l r; cbn; [done|]. destruct (strip q l) eqn:E; [intros [= <-]; by apply (strip_suffix q)|apply IH]. }
  induction n as [|n IH]; intros l x; cbn; [done|]. destruct (strip_any ps l) as [r|] eqn:E; [|done]. intros Hx%IH. by eapply Hs.
Qed.

Lemma trim_incl l (x : Z) : x ∈ trim l → x ∈ l.
Proof. unfold trim, trim_end. rewrite elem_of_reverse. intros H%trim_with_incl. rewrite elem_of_reverse in H. by apply trim_with_incl in H. Qed.

Lemma eval_total_value r expr :
  match eval_arithmetic r expr with
  | Ret (Ok v, _) => is_i64 v = true
  | Ret (Err x, _) => x ≠ OutOfFuel
  | Panic => 47 ∈ expr ∨ 37 ∈ expr
  end.
Proof.
  unfold eval_arithmetic. set (input := trim expr). assert (H : tot input (eval_input input) (mk_st 0 r) (λ v _, is_i64 v = true)).
  { unfold eval_input. eapply tot_then; [apply assignment_total; cbn; lia|]. intros v s1 [H1 Hv]. unfold skip_whitespace. apply tot_skip; [apply H1|]. intros s2 H2 _. apply tot_gets. by destruct (_ <? _)%nat. }
  unfold tot in H. destruct (eval_input input (mk_st 0 r)) as [[[v|x] s]|]; cbn.
  - done.
  - done.
  - destruct H as [H|H]; [left|right]; by apply trim_incl.
Qed.

(** Evaluation ends on every text. With as much fuel as the text has bytes no
    parser runs out of it; a value is a 64-bit integer; and the program stops
    only on a text with a division or a remainder in it. *)
Theorem eval_arithmetic_total r expr :
  match eval_arithmetic r expr with
  | Ret (Ok v, _) => I64_MIN <= v <= I64_MAX
  | Ret (Err x, _) => x ≠ OutOfFuel
  | Panic => 47 ∈ expr ∨ 37 ∈ expr
  end.
Proof.
  pose proof (eval_total_value r expr) as H. destruct (eval_arithmetic r expr) as [[[v|x] e]|]; [|done|done]. unfold is_i64 in H. by rewrite andb_true_iff, !Z.leb_le in H.
Qed.

(** ** Assignment and reading back *)

Lemma parse_digits_app neg a : ∀ acc b, parse_digits neg acc (a ++ b) = parse_digits neg acc a ≫= λ acc, parse_digits neg acc b.
Proof. induction a as [|x a IH]; intros acc b; cbn [app parse_digits]; [done|]. destruct (negb _); [done|]. cbv zeta. destruct (is_i64 (if neg then _ else _)); [apply IH|done]. Qed.

Lemma show_parses (neg : bool) fuel : ∀ n, 0 <= n < 10 ^ Z.of_nat fuel → is_i64 (if neg then - n else n) = true → (0 < fuel)%nat →
  parse_digits neg 0 (show fuel n) = Some (if neg then - n else n).
Proof.
  induction fuel as [|fuel IH]; intros n Hn Hi Hf; [lia|]. rewrite Nat2Z.inj_succ, Z.pow_succ_r in Hn by lia. cbn [show].
  assert (Hdig : ∀ d, 0 <= d < 10 → is_ascii_digit (48 + d) = true) by (intros d ?; unfold is_ascii_digit; blia).
  destruct (Z.ltb_spec n 10) as [H|H].
  - cbn [parse_digits]. rewrite Hdig by lia. cbn [negb]. cbv zeta. assert ((if neg then 10 * 0 - (48 + n - 48) else 10 * 0 + (48 + n - 48)) = if neg then - n else n) as -> by (destruct neg; lia). by rewrite Hi.
  - pose proof (Z.div_mod n 10 ltac:(lia)). pose proof (Z.mod_pos_bound n 10 ltac:(lia)). assert (Hq : 1 <= n / 10 < 10 ^ Z.of_nat fuel) by (split; [apply Z.div_le_lower_bound; lia|apply Z.div_lt_upper_bound; lia]).
    rewrite parse_digits_app, IH; [|lia|unfold is_i64, I64_MIN, I64_MAX in *; destruct neg; blia|destruct fuel; [cbn in Hq; lia|lia]].
    cbn [mbind option_bind parse_digits]. rewrite Hdig by lia. cbn [negb]. cbv zeta.
    assert ((if neg then 10 * (if neg then - (n / 10) else n / 10) - (48 + n mod 10 - 48) else 10 * (if neg then - (n / 10) else n / 10) + (48 + n mod 10 - 48)) = if neg then - n else n) as -> by (destruct neg; lia). by rewrite Hi.
Qed.

Lemma show_head fuel : ∀ n, 0 <= n → (0 < fuel)%nat → ∃ b l, show fuel n = b :: l ∧ 48 <= b.
Proof.
  induction fuel as [|fuel IH]; intros n Hn Hf; [lia|]. cbn [show]. destruct (Z.ltb_spec n 10); [by eexists _, []; split; [done|lia]|].
  pose proof (Z.mod_pos_bound n 10 ltac:(lia)). destruct fuel as [|fuel]; [cbn; eexists _, []; split; [done|lia]|]. destruct (IH (n / 10)) as (b & l & -> & Hb); [apply Z.div_pos; lia|lia|]. by eexists b, _.
Qed.

(** [parse] is the inverse of [to_string] on the type. *)
Lemma to_string_parses v : is_i64 v = true → parse_i64 (to_string v) = Some v.
Proof.
  intros Hv. assert (Hr : - 2 ^ 63 <= v < 2 ^ 63) by (unfold is_i64, I64_MIN, I64_MAX in Hv; blia). unfold to_string. destruct (Z.ltb_spec v 0) as [H|H].
  - unfold parse_i64. cbn [Z.eqb Pos.eqb]. destruct (show_head 19 (- v) ltac:(lia) ltac:(lia)) as (b & l & E & _). rewrite E, <- E. rewrite (show_parses true); [f_equal; lia| |by rewrite Z.opp_involutive|lia].
    change (10 ^ Z.of_nat 19) with 10000000000000000000. lia.
  - destruct (show_head 19 v H ltac:(lia)) as (b & l & E & Hb). unfold parse_i64. rewrite E, (proj2 (Z.eqb_neq b 45)), (proj2 (Z.eqb_neq b 43)), <- E by lia. apply (show_parses false); [|done|lia].
    change (10 ^ Z.of_nat 19) with 10000000000000000000. lia.
Qed.

(** What is assigned is what is read back. When an assignment, written with
    any blanks, evaluates to [v], the environment it leaves gives [v] to the
    name: the decimal string stored by one evaluation is the number read by the
    next, over the whole of [i64]. *)
Theorem assigned_value_read_back w w2 name e dollar r v r' : blank w = true → blank w2 = true → is_name name = true → starts_letter name = true → expr_ok e = true →
  eval_arithmetic r (render w 0 (Assign name e) ++ w2) = Ret (Ok v, r') →
  eval_arithmetic r' (render w 0 (Var dollar name) ++ w2) = Ret (Ok v, r').
Proof.
  intros Hw Hw2 Hn Hl Hok He. pose proof (eval_total_value r (render w 0 (Assign name e) ++ w2)) as Hv. rewrite He in Hv.
  rewrite denotes in He by (done || by cbn; rewrite Hn). rewrite denotes by (done || by cbn; rewrite Hn, Hl, orb_true_r). cbn [denote] in *.
  destruct (denote e r) as [[[a|x] r1]|]; cbn [D_bind] in He; [|done|done]. injection He as -> <-. unfold lookup_var. rewrite (lookup_insert_eq (M := gmap (list Z)) r1). cbn [mbind option_bind]. by rewrite to_string_parses.
Qed.

(** ** What the evaluator refuses or stops on *)

Definition text (s : string) : list Z := (λ a, Z.of_nat (Ascii.nat_of_ascii a)) <$> String.list_ascii_of_string s.

(** The smallest integer divided by minus one stops the shell. *)
Lemma min_over_minus_one : eval_arithmetic ∅ (text "(0-9223372036854775807-1)/-1") = Panic ∧ eval_arithmetic ∅ (text "(0-9223372036854775807-1)%-1") = Panic.
Proof. split; vm_compute; reflexivity. Qed.

(** A sign does not take a signed operand, so a negative variable expanded before
    the evaluation cannot be negated. *)
Lemma double_sign_refused : eval_arithmetic ∅ (text "--5") = Ret (Err (UnexpectedCharacter 45 1), ∅) ∧ eval_arithmetic ∅ (text "3--5") = Ret (Ok 8, ∅).
Proof. split; vm_compute; reflexivity. Qed.

(** A number is assigned to, and an assignment is an operand. *)
Lemma number_assigned : eval_arithmetic ∅ (text "5=3") = Ret (Ok 3, <[text "5" := text "3"]> ∅) ∧ eval_arithmetic ∅ (text "1+x=2*3") = Ret (Ok 7, <[text "x" := text "6"]> ∅).
Proof. split; vm_compute; reflexivity. Qed.

(** The smallest integer cannot be written. *)
Lemma min_literal_refused : eval_arithmetic ∅ (text "-9223372036854775808") = Ret (Err (IntegerOverflow (text "9223372036854775808")), ∅).
Proof. vm_compute. reflexivity. Qed.

(** ** Witnesses *)

Definition sample : expr := Assign (text "x") (Cmp CLe (Add OSub (Num (text "10")) (Mul OMul (Num (text "2")) (Add OAdd (Var true (text "y")) (Num (text "1"))))) (Num (text "4"))).

Lemma eval_arithmetic_denotes_witness : eval_arithmetic ∅ (text " x = 10 - 2 * ( $y + 1 ) <= 4 ") = Ret (Ok 0, <[text "x" := text "0"]> ∅).
Proof.
  transitivity (denote sample ∅); [|vm_compute; reflexivity]. exact (eval_arithmetic_denotes [32] [32] sample ∅ eq_refl eq_refl eq_refl).
Defined.

Lemma assigned_value_read_back_witness : ∃ r', eval_arithmetic ∅ (text "n=0-7") = Ret (Ok (-7), r') ∧ eval_arithmetic r' (text "$n") = Ret (Ok (-7), r').
Proof.
  exists (<[text "n" := text "-7"]> ∅). split; [vm_compute; reflexivity|].
  apply (assigned_value_read_back [] [] (text "n") (Add OSub (Num (text "0")) (Num (text "7"))) true ∅ (-7)); try reflexivity.
Defined.

End ShArithSpec.
