(* ===== verification/ByteRing.v ===== *)
(** * Byte FIFO (kernel/src/util/ring.rs)

    The growable ring behind pipes and PTYs, and its refinement to a list of
    bytes. *)

From S2P Require Import Prelude.

Module ByteRing.

(** ** The code *)

Record ByteRing := mk_ring { ring : list Z; head : nat; len : nat }.

Definition MIN_CAPACITY : nat := Z.to_nat 4096.
Definition new : ByteRing := mk_ring [] 0 0.
Definition capacity (r : ByteRing) : nat := length (ring r).
Definition is_empty (r : ByteRing) : bool := (len r =? 0)%nat.

(** [&buf[a..b]], with the slice check. *)
Definition slice (buf : list Z) (a b : nat) : outcome (list Z) :=
  if (a <=? b)%nat && (b <=? length buf)%nat then Ret (sub a (b - a) buf) else Panic.

(** The live bytes, as the one or two runs the ring holds them in. *)
Definition slices (r : ByteRing) : outcome (list Z * list Z) :=
  if (len r =? 0)%nat then Ret ([], [])
  else
    let stop := (head r + len r)%nat in
    if (stop <=? capacity r)%nat then front ← slice (ring r) (head r) stop; Ret (front, [])
    else
      front ← slice (ring r) (head r) (capacity r);
      back ← slice (ring r) 0 (stop - capacity r);
      Ret (front, back).

(** [while capacity < needed { capacity *= 2 }]; it at least doubles from a
    positive start, so [needed] turns are enough. *)
Fixpoint double_until (fuel cap needed : nat) : nat :=
  match fuel with
  | O => cap
  | S fuel' => if (cap <? needed)%nat then double_until fuel' (cap * 2) needed else cap
  end.

Definition grow_for (r : ByteRing) (extra : nat) : outcome ByteRing :=
  let needed := (len r + extra)%nat in
  if (needed <=? capacity r)%nat then Ret r
  else
    let cap := double_until needed (Nat.max (capacity r) MIN_CAPACITY) needed in
    '(front, back) ← slices r;
    next ← write_at 0 front (replicate cap 0);
    next ← write_at (length front) back next;
    Ret (mk_ring next 0 (len r)).

Definition push (r : ByteRing) (data : list Z) : outcome ByteRing :=
  if (length data =? 0)%nat then Ret r
  else
    r ← grow_for r (length data);
    let cap := capacity r in
    if (cap =? 0)%nat then Panic
    else
      let tail := ((head r + len r) mod cap)%nat in
      let first := Nat.min (length data) (cap - tail) in
      buf ← write_at tail (take first data) (ring r);
      buf ← (if (first <? length data)%nat then write_at 0 (drop first data) buf else Ret buf);
      Ret (mk_ring buf (head r) (len r + length data)).

(** The bytes moved out (the filled prefix of [out]), and the ring. *)
Definition pop (r : ByteRing) (out_len : nat) : outcome (list Z * ByteRing) :=
  let taken := Nat.min out_len (len r) in
  if (taken =? 0)%nat then Ret ([], r)
  else
    let cap := capacity r in
    let first := Nat.min taken (cap - head r) in
    a ← slice (ring r) (head r) (head r + first);
    b ← (if (first <? taken)%nat then slice (ring r) 0 (taken - first) else Ret []);
    if (cap =? 0)%nat then Panic
    else
      let head' := ((head r + taken) mod cap)%nat in
      let len' := (len r - taken)%nat in
      Ret (a ++ b, mk_ring (ring r) (if (len' =? 0)%nat then O else head') len').

(** ** Refinement to a list *)

Record wf (r : ByteRing) : Prop := {
  wf_len : (len r <= capacity r)%nat;
  wf_head : (head r < capacity r)%nat ∨ head r = O
}.

(** Byte [i] of the queue sits [i] places past the head, around the end. *)
Definition at_pos (r : ByteRing) (i : nat) : Z := ring r !!! ((head r + i) mod capacity r)%nat.
Definition contents (r : ByteRing) : list Z := at_pos r <$> seq 0 (len r).

Lemma length_contents r : length (contents r) = len r.
Proof. unfold contents. by rewrite length_fmap, length_seq. Qed.

Lemma contents_lookup r i : (i < len r)%nat → contents r !! i = Some (at_pos r i).
Proof. intros Hi. unfold contents. by rewrite list_lookup_fmap, lookup_seq_lt by done. Qed.

(** Two lists of one length with equal elements are equal. *)
Lemma list_eq_total (l k : list Z) :
  length l = length k → (∀ i, (i < length l)%nat → l !!! i = k !!! i) → l = k.
Proof.
  intros Hl H. apply list_eq_same_length with (length k); [done|done|].
  intros i x y Hi Hx Hy. specialize (H i ltac:(lia)).
  apply list_lookup_total_correct in Hx as <-. apply list_lookup_total_correct in Hy as <-. done.
Qed.

Lemma contents_total r i : (i < len r)%nat → contents r !!! i = at_pos r i.
Proof. intros Hi. apply list_lookup_total_correct. by apply contents_lookup. Qed.

Lemma slice_ok buf a b : (a <= b <= length buf)%nat → slice buf a b = Ret (sub a (b - a) buf).
Proof.
  intros H. unfold slice. by rewrite (proj2 (Nat.leb_le _ _)), (proj2 (Nat.leb_le _ _)) by lia.
Qed.

Lemma sub_total (buf : list Z) a n i : (i < n)%nat → (a + n <= length buf)%nat → sub a n buf !!! i = buf !!! (a + i)%nat.
Proof.
  intros Hi Hn. apply list_lookup_total_correct. rewrite lookup_sub by done.
  apply list_lookup_lookup_total_lt. lia.
Qed.

Lemma app_total_l (l k : list Z) i : (i < length l)%nat → (l ++ k) !!! i = l !!! i.
Proof. intros Hi. by apply lookup_total_app_l. Qed.
Lemma app_total_r (l k : list Z) i : (length l <= i)%nat → (l ++ k) !!! i = k !!! (i - length l)%nat.
Proof. intros Hi. by apply lookup_total_app_r. Qed.

Lemma wrap_pos h i cap : (h < cap)%nat → (i <= cap)%nat →
  ((h + i) mod cap = if h + i <? cap then h + i else h + i - cap)%nat.
Proof.
  intros Hh Hi. destruct (Nat.ltb_spec (h + i) cap); [by apply Nat.mod_small|].
  symmetry. apply (Nat.mod_unique _ _ 1); lia.
Qed.

(** The first [n] queued bytes, as the two runs from [head]. *)
Lemma prefix_runs r n : wf r → (0 < n <= len r)%nat →
  let first := Nat.min n (capacity r - head r) in
  sub (head r) first (ring r) ++ sub 0 (n - first) (ring r) = take n (contents r).
Proof.
  intros [Hl Hh] Hn first. unfold capacity in *.
  assert (Hh' : (head r < length (ring r))%nat) by lia.
  apply list_eq_total.
  - rewrite length_app, !length_sub, length_take, length_contents by lia. lia.
  - intros i Hi. rewrite length_app, !length_sub in Hi by lia.
    assert (Hit : take n (contents r) !!! i = at_pos r i).
    { apply list_lookup_total_correct. rewrite lookup_take_lt by lia. apply contents_lookup. lia. }
    rewrite Hit. unfold at_pos, capacity. rewrite wrap_pos by lia.
    destruct (Nat.ltb_spec (head r + i) (length (ring r))).
    + rewrite app_total_l by (rewrite length_sub; lia). by rewrite sub_total by lia.
    + rewrite app_total_r by (rewrite length_sub; lia). rewrite length_sub by lia.
      rewrite sub_total by lia. f_equal. lia.
Qed.

Lemma slices_spec r : wf r → ∃ a b, slices r = Ret (a, b) ∧ a ++ b = contents r.
Proof.
  intros Hwf. pose proof Hwf as [Hl Hh]. unfold slices. destruct (Nat.eqb_spec (len r) 0) as [E|E].
  { exists [], []. split; [done|]. unfold contents. by rewrite E. }
  pose proof (prefix_runs r (len r) Hwf ltac:(lia)) as Hp. rewrite take_ge in Hp by (rewrite length_contents; lia).
  unfold capacity in *. destruct (Nat.leb_spec (head r + len r) (length (ring r))).
  - rewrite slice_ok by lia. cbn [mbind outcome_bind]. eexists _, _. split; [done|].
    rewrite <- Hp, Nat.min_l by lia. rewrite Nat.sub_diag. f_equal. f_equal. lia.
  - rewrite !slice_ok by lia. cbn [mbind outcome_bind]. eexists _, _. split; [done|].
    rewrite <- Hp, Nat.min_r by lia. f_equal. f_equal. lia.
Qed.

Lemma double_until_ge fuel : ∀ cap needed, (0 < cap)%nat → (needed <= fuel + cap)%nat →
  (needed <= double_until fuel cap needed)%nat ∧ (cap <= double_until fuel cap needed)%nat.
Proof.
  induction fuel as [|fuel IH]; intros cap needed Hc Hf; cbn [double_until]; [lia|].
  destruct (Nat.ltb_spec cap needed); [|lia]. destruct (IH (cap * 2)%nat needed); lia.
Qed.

Lemma grow_for_spec r extra : wf r → (0 < extra)%nat →
  ∃ r', grow_for r extra = Ret r' ∧ wf r' ∧ contents r' = contents r ∧ len r' = len r ∧
    (len r + extra <= capacity r')%nat ∧ (head r' < capacity r')%nat.
Proof.
  intros Hwf Hx. pose proof Hwf as [Hl Hh]. unfold grow_for.
  destruct (Nat.leb_spec (len r + extra) (capacity r)) as [Hfit|Hgrow].
  { exists r. split_and!; try done; try lia. }
  destruct (slices_spec r Hwf) as (a & b & -> & Hab). cbn [mbind outcome_bind].
  set (cap := double_until _ _ _).
  destruct (double_until_ge (len r + extra) (Nat.max (capacity r) MIN_CAPACITY) (len r + extra)) as [Hc1 Hc2];
    [unfold MIN_CAPACITY; lia|lia|]. fold cap in Hc1, Hc2.
  assert (Hlab : (length a + length b = len r)%nat) by (rewrite <- length_app, Hab; apply length_contents).
  rewrite write_at_ok by (rewrite length_replicate; lia). cbn [mbind outcome_bind].
  rewrite write_at_ok by (rewrite length_splice; rewrite ?length_replicate; lia). cbn [mbind outcome_bind].
  rewrite (splice_app 0 a b) by (rewrite length_replicate; lia). rewrite Hab.
  assert (Hlen : length (splice 0 (contents r) (replicate cap 0)) = cap).
  { rewrite length_splice; rewrite length_replicate; [done|]. rewrite length_contents. lia. }
  eexists. split; [done|]. unfold capacity; cbn [ring len head]. rewrite Hlen.
  split_and!; try done; try lia; [split; unfold capacity; cbn [ring len head]; rewrite Hlen; lia|].
  apply list_eq_total; rewrite !length_contents; [done|]. cbn [len]. intros i Hi.
  rewrite !contents_total by done. rewrite <- (contents_total r i Hi). unfold at_pos, capacity. cbn [ring head len].
  rewrite Hlen. cbn [Nat.add]. rewrite Nat.mod_small by lia. unfold splice. rewrite take_0. cbn [app].
  by rewrite app_total_l by (rewrite length_contents; done).
Qed.

Lemma splice_total off (src buf : list Z) i : (off + length src <= length buf)%nat → (i < length buf)%nat →
  splice off src buf !!! i =
    if (off <=? i)%nat && (i <? off + length src)%nat then src !!! (i - off)%nat else buf !!! i.
Proof.
  intros Hb Hi. unfold splice. destruct (Nat.leb_spec off i); cbn [andb].
  - rewrite app_total_r by (rewrite length_take; lia). rewrite length_take, Nat.min_l by lia.
    destruct (Nat.ltb_spec i (off + length src)).
    + by rewrite app_total_l by lia.
    + rewrite app_total_r by lia. rewrite lookup_total_drop. f_equal. lia.
  - rewrite app_total_l by (rewrite length_take; lia). by rewrite lookup_total_take_lt by lia.
Qed.

(** A ring holds [q] when its [len] bytes from the head are those of [q]. *)
Lemma contents_eq r q : len r = length q → (∀ i, (i < len r)%nat → at_pos r i = q !!! i) → contents r = q.
Proof.
  intros Hl H. apply list_eq_total; rewrite length_contents; [done|].
  intros i Hi. rewrite contents_total by done. by apply H.
Qed.

(** Writing [data] at the tail of a ring with room for it, around the end. *)
Lemma push_room r data : wf r → (0 < length data)%nat → (head r < capacity r)%nat →
  (len r + length data <= capacity r)%nat →
  let tail := ((head r + len r) mod capacity r)%nat in
  let first := Nat.min (length data) (capacity r - tail) in
  let buf := splice 0 (drop first data) (splice tail (take first data) (ring r)) in
  let r' := mk_ring buf (head r) (len r + length data) in
  (tail < capacity r)%nat ∧ wf r' ∧ contents r' = contents r ++ data.
Proof.
  intros Hwf Hd Hh Hroom tail first buf r'. unfold capacity in *.
  assert (Ht : tail = if (head r + len r <? length (ring r))%nat then (head r + len r)%nat
                      else (head r + len r - length (ring r))%nat) by (apply wrap_pos; lia).
  assert (Hltail : (tail < length (ring r))%nat) by (subst tail; apply Nat.mod_upper_bound; lia).
  assert (Hb1 : (tail + length (take first data) <= length (ring r))%nat) by (rewrite length_take; lia).
  assert (Hl1 : length (splice tail (take first data) (ring r)) = length (ring r)) by (by rewrite length_splice).
  assert (Hb2 : (0 + length (drop first data) <= length (splice tail (take first data) (ring r)))%nat)
    by (rewrite length_drop, Hl1; lia).
  assert (Hl2 : length buf = length (ring r)) by (unfold buf; by rewrite length_splice).
  split; [done|]. split; [split; unfold capacity; cbn [ring len head r']; lia|].
  apply contents_eq; [cbn [len r']; by rewrite length_app, length_contents|].
  cbn [len r']. intros i Hi. unfold at_pos, capacity. cbn [ring head r']. rewrite Hl2, wrap_pos by lia.
  unfold buf. rewrite splice_total, splice_total by (rewrite ?Hl1; try done; destruct (Nat.ltb_spec (head r + i) (length (ring r))); lia).
  rewrite length_drop, length_take.
  destruct (Nat.ltb_spec i (len r)) as [Hold|Hnew].
  - rewrite app_total_l by (by rewrite length_contents). rewrite contents_total by done.
    unfold at_pos, capacity. rewrite wrap_pos by lia.
    repeat match goal with
    | H : context [Nat.ltb ?a ?b] |- _ => destruct (Nat.ltb_spec a b)
    | |- context [Nat.ltb ?a ?b] => destruct (Nat.ltb_spec a b)
    | |- context [Nat.leb ?a ?b] => destruct (Nat.leb_spec a b)
    end; cbn [andb]; try done; lia.
  - rewrite app_total_r by (rewrite length_contents; lia). rewrite length_contents.
    repeat match goal with
    | H : context [Nat.ltb ?a ?b] |- _ => destruct (Nat.ltb_spec a b)
    | |- context [Nat.ltb ?a ?b] => destruct (Nat.ltb_spec a b)
    | |- context [Nat.leb ?a ?b] => destruct (Nat.leb_spec a b)
    end; cbn [andb]; try lia;
    first [rewrite lookup_total_drop | rewrite lookup_total_take_lt by lia]; f_equal; lia.
Qed.

Lemma splice_nil off (buf : list Z) : (off <= length buf)%nat → splice off [] buf = buf.
Proof. intros. unfold splice. cbn [length app]. by rewrite Nat.add_0_r, take_drop. Qed.

(** Pushing appends; it neither fails nor loops, whatever the ring's state. *)
Lemma push_spec r data : wf r → ∃ r', push r data = Ret r' ∧ wf r' ∧ contents r' = contents r ++ data.
Proof.
  intros Hwf. unfold push. destruct (Nat.eqb_spec (length data) 0) as [E|E].
  { destruct data; [|done]. exists r. by rewrite app_nil_r. }
  destruct (grow_for_spec r (length data) Hwf ltac:(lia)) as (g & -> & Hg & Hcg & Hlg & Hroom & Hhd).
  cbn [mbind outcome_bind]. rewrite (proj2 (Nat.eqb_neq (capacity g) 0)) by lia.
  destruct (push_room g data Hg ltac:(lia) Hhd ltac:(lia)) as (Ht & Hw' & Hc').
  set (tail := ((head g + len g) mod capacity g)%nat) in *.
  set (first := Nat.min (length data) (capacity g - tail)) in *. unfold capacity in *.
  rewrite write_at_ok by (rewrite length_take; lia). cbn [mbind outcome_bind].
  rewrite <- Hcg. destruct (Nat.ltb_spec first (length data)).
  - rewrite write_at_ok by (rewrite length_drop, length_splice by (rewrite length_take; lia); lia).
    cbn [mbind outcome_bind]. eauto.
  - cbn [mbind outcome_bind]. rewrite (drop_ge data first), splice_nil in Hw', Hc' by lia. eauto.
Qed.

Lemma pop_spec r n : wf r → ∃ r', pop r n = Ret (take n (contents r), r') ∧ wf r' ∧ contents r' = drop n (contents r).
Proof.
  intros Hwf. pose proof Hwf as [Hl Hh]. unfold pop.
  destruct (Nat.eqb_spec (Nat.min n (len r)) 0) as [E|E].
  { exists r. destruct (Nat.eqb_spec n 0) as [->|]; [by rewrite take_0, drop_0|].
    assert (Hc : contents r = []) by (apply length_zero_iff_nil; rewrite length_contents; lia).
    rewrite Hc. by rewrite take_nil, drop_nil. }
  set (taken := Nat.min n (len r)) in *.
  assert (Htk : take n (contents r) = take taken (contents r)).
  { destruct (Nat.leb_spec n (len r)); [by subst taken; rewrite Nat.min_l by lia|].
    rewrite !take_ge by (rewrite length_contents; lia). done. }
  assert (Hdr : drop n (contents r) = drop taken (contents r)).
  { destruct (Nat.leb_spec n (len r)); [by subst taken; rewrite Nat.min_l by lia|].
    rewrite !drop_ge by (rewrite length_contents; lia). done. }
  rewrite Htk, Hdr. pose proof (prefix_runs r taken Hwf ltac:(lia)) as Hp. cbv zeta in Hp.
  set (first := Nat.min taken (capacity r - head r)) in *. unfold capacity in *.
  rewrite (proj2 (Nat.eqb_neq (length (ring r)) 0)) by lia.
  assert (Hb : (if (first <? taken)%nat then slice (ring r) 0 (taken - first) else Ret []) = Ret (sub 0 (taken - first) (ring r))).
  { destruct (Nat.ltb_spec first taken); [rewrite slice_ok by lia; by rewrite Nat.sub_0_r|].
    by replace (taken - first)%nat with O by lia. }
  rewrite Hb, slice_ok by lia. replace (head r + first - head r)%nat with first by lia.
  cbn [mbind outcome_bind]. rewrite Hp. eexists. split; [done|].
  assert (Hmod : ((head r + taken) mod length (ring r) < length (ring r))%nat) by (apply Nat.mod_upper_bound; lia).
  split; [split; unfold capacity; cbn [ring len head]; [lia|]; destruct (_ =? 0)%nat; lia|].
  apply contents_eq; cbn [len]; [rewrite length_drop, length_contents; lia|]. intros i Hi.
  rewrite lookup_total_drop, contents_total by lia. unfold at_pos, capacity. cbn [ring head].
  rewrite (proj2 (Nat.eqb_neq (len r - taken) 0)) by lia.
  rewrite Nat.Div0.add_mod_idemp_l. f_equal. f_equal. lia.
Qed.

(** ** Traces *)

Inductive op := Push (data : list Z) | Pop (out_len : nat).

(** What each operation hands back, from the ring and from a plain list. *)
Definition step (r : ByteRing) (o : op) : outcome (list Z * ByteRing) :=
  match o with
  | Push data => r' ← push r data; Ret ([], r')
  | Pop n => pop r n
  end.

Fixpoint run (r : ByteRing) (ops : list op) : outcome (list (list Z) * ByteRing) :=
  match ops with
  | [] => Ret ([], r)
  | o :: ops => '(x, r) ← step r o; '(xs, r) ← run r ops; Ret (x :: xs, r)
  end.

Fixpoint fifo (q : list Z) (ops : list op) : list (list Z) * list Z :=
  match ops with
  | [] => ([], q)
  | Push data :: ops => let '(xs, q) := fifo (q ++ data) ops in ([] :: xs, q)
  | Pop n :: ops => let '(xs, q') := fifo (drop n q) ops in (take n q :: xs, q')
  end.

Lemma run_fifo ops : ∀ r, wf r →
  ∃ outs r', run r ops = Ret (outs, r') ∧ wf r' ∧ fifo (contents r) ops = (outs, contents r').
Proof.
  induction ops as [|[data|n] ops IH]; intros r Hwf; cbn [run fifo step].
  - exists [], r. done.
  - destruct (push_spec r data Hwf) as (r1 & -> & H1 & <-). cbn [mbind outcome_bind].
    destruct (IH r1 H1) as (outs & r2 & -> & H2 & ->). cbn [mbind outcome_bind]. eauto.
  - destruct (pop_spec r n Hwf) as (r1 & -> & H1 & <-). cbn [mbind outcome_bind].
    destruct (IH r1 H1) as (outs & r2 & -> & H2 & ->). cbn [mbind outcome_bind]. eauto.
Qed.

Lemma new_wf : wf new.
Proof. split; cbn; lia. Qed.

(** Over any sequence of writes and reads, the ring behaves as a plain byte
    queue: no call panics, each read returns exactly the oldest bytes (up to
    the buffer's length), and what is left is what the queue still holds,
    across every wrap-around and every growth. *)
Theorem byte_ring_refines_fifo (ops : list op) :
  ∃ outs r, run new ops = Ret (outs, r) ∧ wf r ∧ fifo [] ops = (outs, contents r).
Proof. exact (run_fifo ops new new_wf). Qed.

End ByteRing.
