(* ===== verification/Pipe.v ===== *)
(** * Pipes (kernel/src/thread/pipe.rs)

    The pipe over the byte ring: writes, reads, closing, the notifications each
    of them builds and what flushing them wakes. A wait queue is the list of
    threads enrolled on it; the pollers are opaque entries. *)

From S2P Require Import Prelude ByteRing.

Module Pipe.

(** ** Poll states (libs/syscall-abi/src/lib.rs) *)

Record PollState := mk_poll
  { readable : bool; writable : bool; error : bool; hangup : bool; invalid : bool }.

Definition poll_none : PollState := mk_poll false false false false false.

Definition matches (s interests : PollState) : bool :=
  if error s || hangup s || invalid s then true
  else
    let matched := (readable interests && readable s) || (writable interests && writable s) in
    if negb (readable interests) && negb (writable interests) then readable s || writable s
    else matched.

(** ** Wait queues (kernel/src/thread/waitqueue.rs) *)

Definition Tid := Z.
Definition has_waiters (wq : list Tid) : bool := negb (length wq =? 0)%nat.

(** [heapless::Deque::push_back(..).expect(..)] at the queue's capacity. *)
Definition WAITQUEUE_CAP : nat := 64.
Definition enrol (wq : list Tid) (t : Tid) : outcome (list Tid) :=
  if (length wq <? WAITQUEUE_CAP)%nat then Ret (wq ++ [t]) else Panic.

(** A waiter taking itself off the queue once it is running again. *)
Definition leave (wq : list Tid) (t : Tid) : list Tid := List.filter (λ w, negb (w =? t)) wq.

Section WithScheduler.

(** [sched().wake_thread]: whether the handle was live and made runnable. *)
Context (wake_thread : Tid → bool).

(** Pops until a live thread is woken; the woken threads and the queue. *)
Fixpoint wake_one (wq : list Tid) : list Tid * list Tid :=
  match wq with
  | [] => ([], [])
  | t :: wq => if wake_thread t then ([t], wq) else wake_one wq
  end.

Definition wake_all (wq : list Tid) : list Tid * list Tid := (List.filter wake_thread wq, []).

(** ** The pipe *)

Definition PIPE_CAPACITY : nat := Z.to_nat 65536.
Definition PIPE_BUF : nat := Z.to_nat 4096.

Definition PollKey := Z.
Definition PollRef := Z.

Record Pipe := mk_pipe {
  buffer : ByteRing.ByteRing; readers : nat; writers : nat; closed : bool;
  pollers : list (PollKey * PollRef); next_poll_key : PollKey;
  reader_wq : list Tid; writer_wq : list Tid
}.

Definition new : Pipe := mk_pipe ByteRing.new 1 1 false [] 1 [] [].
Definition new_fifo : Pipe := mk_pipe ByteRing.new 0 0 false [] 1 [] [].

Definition with_buffer (p : Pipe) b :=
  mk_pipe b (readers p) (writers p) (closed p) (pollers p) (next_poll_key p) (reader_wq p) (writer_wq p).
Definition with_ends (p : Pipe) r w c :=
  mk_pipe (buffer p) r w c (pollers p) (next_poll_key p) (reader_wq p) (writer_wq p).
Definition with_pollers (p : Pipe) ps k :=
  mk_pipe (buffer p) (readers p) (writers p) (closed p) ps k (reader_wq p) (writer_wq p).
Definition with_queues (p : Pipe) rq wq :=
  mk_pipe (buffer p) (readers p) (writers p) (closed p) (pollers p) (next_poll_key p) rq wq.

Definition space (p : Pipe) : nat := (PIPE_CAPACITY - ByteRing.len (buffer p))%nat.

Definition write_ready (p : Pipe) (len : nat) : bool :=
  if (readers p =? 0)%nat then true
  else let want := Nat.min (Nat.max len 1) PIPE_BUF in (want <=? space p)%nat.

Definition at_eof (p : Pipe) : bool := closed p && ByteRing.is_empty (buffer p).
Definition pipe_readable (p : Pipe) : bool := negb (ByteRing.is_empty (buffer p)) || closed p.

Definition poll_state (p : Pipe) : PollState :=
  mk_poll (negb (ByteRing.is_empty (buffer p)) || closed p)
    ((0 <? readers p)%nat && negb (closed p) && (0 <? space p)%nat)
    ((readers p =? 0)%nat && (0 <? writers p)%nat)
    (closed p && ByteRing.is_empty (buffer p)) false.

(** A notification names the queues to wake; a [Some] there is a clone of the
    pipe's own [Arc], so the wake acts on the pipe's queue. *)
Record PipeNotifications := mk_notif
  { entries : list PollRef; state : PollState; wake_reader : bool; wake_writer : bool }.

Definition EMPTY : PipeNotifications := mk_notif [] poll_none false false.

Definition notify_ends (p : Pipe) : PipeNotifications :=
  let st := poll_state p in
  mk_notif (snd <$> pollers p) st
    ((readable st || hangup st) && has_waiters (reader_wq p))
    ((writable st || (readers p =? 0)%nat) && has_waiters (writer_wq p)).

(** What flushing does: the states delivered to poll entries, the threads
    woken, and the pipe with its queues drained accordingly. *)
Definition flush (n : PipeNotifications) (p : Pipe) : list (PollRef * PollState) * list Tid * Pipe :=
  let '(rw, rq) := if wake_reader n then wake_one (reader_wq p) else ([], reader_wq p) in
  let '(ww, wq) := if wake_writer n then wake_all (writer_wq p) else ([], writer_wq p) in
  ((λ e, (e, state n)) <$> entries n, rw ++ ww, with_queues p rq wq).

Definition close_writer_silent (p : Pipe) : Pipe :=
  let w := (writers p - 1)%nat in
  with_ends p (readers p) w (if (w =? 0)%nat then true else closed p).

Definition close_reader_silent (p : Pipe) : Pipe :=
  with_ends p (readers p - 1)%nat (writers p) (closed p).

Definition close_writer (p : Pipe) : PipeNotifications * Pipe :=
  let p := close_writer_silent p in (notify_ends p, p).

Definition close_reader (p : Pipe) : PipeNotifications * Pipe :=
  let p := close_reader_silent p in (notify_ends p, p).

Definition write (p : Pipe) (data : list Z) : outcome (option nat * PipeNotifications * Pipe) :=
  if (readers p =? 0)%nat then Ret (None, notify_ends p, p)
  else if negb (write_ready p (length data)) then Ret (Some O, EMPTY, p)
  else
    let n := Nat.min (length data) (space p) in
    b ← ByteRing.push (buffer p) (take n data);
    let p := with_buffer p b in Ret (Some n, notify_ends p, p).

(** The bytes taken, in place of the filled prefix of [out] and its length. *)
Definition read_into (p : Pipe) (out_len : nat) : outcome (list Z * PipeNotifications * Pipe) :=
  '(bytes, b) ← ByteRing.pop (buffer p) out_len;
  let p := with_buffer p b in
  if (length bytes =? 0)%nat then Ret ([], EMPTY, p) else Ret (bytes, notify_ends p, p).

(** [wrapping_add(1).max(1)] on a [u64] key. *)
Definition add_poller (p : Pipe) (entry : PollRef) : PollKey * Pipe :=
  let key := next_poll_key p in
  (key, with_pollers p (pollers p ++ [(key, entry)]) (Z.max (wrap 64 (key + 1)) 1)).

Definition remove_poller (p : Pipe) (key : PollKey) : Pipe :=
  with_pollers p (List.filter (λ e, negb (e.1 =? key)) (pollers p)) (next_poll_key p).

(** [PollablePipe::register]: the state reported, and the key if it has to wait. *)
Definition register (p : Pipe) (entry : PollRef) (interests : PollState) : PollState * option PollKey * Pipe :=
  let st := poll_state p in
  if matches st interests then (st, None, p)
  else let '(key, p) := add_poller p entry in (st, Some key, p).

(** ** Descriptors and named pipes *)

Inductive OpenMode := ReadOnly | WriteOnly | ReadWrite.
Definition mode_readable (m : OpenMode) : bool := match m with WriteOnly => false | _ => true end.
Definition mode_writable (m : OpenMode) : bool := match m with ReadOnly => false | _ => true end.

(** [FileDescriptor::inc_refcount] on the three pipe descriptors. *)
Definition inc_refcount_pipe (p : Pipe) (m : OpenMode) : Pipe :=
  with_ends p (if mode_readable m then S (readers p) else readers p)
    (if mode_writable m then S (writers p) else writers p) (closed p).

(** [close_descriptor] on the three pipe descriptors. *)
Definition close_descriptor (p : Pipe) (m : OpenMode) : PipeNotifications * Pipe :=
  match m with
  | ReadOnly => close_reader p
  | WriteOnly => close_writer p
  | ReadWrite => let p := close_writer_silent (close_reader_silent p) in (notify_ends p, p)
  end.

(** [fifo::attach] on the pipe; the [seen] flags are with the FIFO. *)
Definition attach_pipe (p : Pipe) (m : OpenMode) : PipeNotifications * Pipe :=
  let p := if mode_readable m then with_ends p (S (readers p)) (writers p) (closed p) else p in
  let p := if mode_writable m then with_ends p (readers p) (S (writers p)) false else p in
  (notify_ends p, p).

Definition detach_pipe (p : Pipe) (m : OpenMode) : PipeNotifications * Pipe :=
  let p := if mode_readable m then close_reader_silent p else p in
  let p := if mode_writable m then close_writer_silent p else p in
  (notify_ends p, p).

(** ** Runs *)

Inductive op :=
| Write (data : list Z)
| Read (out_len : nat)
| Close (m : OpenMode)
| Dup (m : OpenMode)
| Attach (m : OpenMode)
| Detach (m : OpenMode)
| Register (entry : PollRef) (interests : PollState)
| Unregister (key : PollKey)
| WaitRead (t : Tid)
| WaitWrite (t : Tid)
| LeaveRead (t : Tid)
| LeaveWrite (t : Tid).

(** What a call reports: a write's request and result, or a read's bytes. *)
Inductive event := Wrote (data : list Z) (res : option nat) | Took (bytes : list Z) | Other.

Definition flushed (n : PipeNotifications) (p : Pipe) : Pipe := snd (flush n p).

Definition step (p : Pipe) (o : op) : outcome (event * Pipe) :=
  match o with
  | Write data => '(res, n, p) ← write p data; Ret (Wrote data res, flushed n p)
  | Read k => '(bytes, n, p) ← read_into p k; Ret (Took bytes, flushed n p)
  | Close m => let '(n, p) := close_descriptor p m in Ret (Other, flushed n p)
  | Dup m => Ret (Other, inc_refcount_pipe p m)
  | Attach m => let '(n, p) := attach_pipe p m in Ret (Other, flushed n p)
  | Detach m => let '(n, p) := detach_pipe p m in Ret (Other, flushed n p)
  | Register e i => let '(_, _, p) := register p e i in Ret (Other, p)
  | Unregister k => Ret (Other, remove_poller p k)
  | WaitRead t => q ← enrol (reader_wq p) t; Ret (Other, with_queues p q (writer_wq p))
  | WaitWrite t => q ← enrol (writer_wq p) t; Ret (Other, with_queues p (reader_wq p) q)
  | LeaveRead t => Ret (Other, with_queues p (leave (reader_wq p) t) (writer_wq p))
  | LeaveWrite t => Ret (Other, with_queues p (reader_wq p) (leave (writer_wq p) t))
  end.

Fixpoint run (p : Pipe) (ops : list op) : outcome (list event * Pipe) :=
  match ops with
  | [] => Ret ([], p)
  | o :: ops => '(e, p) ← step p o; '(es, p) ← run p ops; Ret (e :: es, p)
  end.

(** The bytes an event put in or took out, and the atomicity rule. *)
Definition accepted (e : event) : list Z :=
  match e with Wrote data (Some n) => take n data | _ => [] end.
Definition taken (e : event) : list Z := match e with Took bytes => bytes | _ => [] end.
Definition atomic (e : event) : Prop :=
  match e with
  | Wrote data (Some n) => (length data <= PIPE_BUF)%nat → n = O ∨ n = length data
  | _ => True
  end.

(** A wait on a queue that already holds its 64 threads. *)
Definition overfull (p : Pipe) (o : op) : Prop :=
  match o with
  | WaitRead _ => (WAITQUEUE_CAP <= length (reader_wq p))%nat
  | WaitWrite _ => (WAITQUEUE_CAP <= length (writer_wq p))%nat
  | _ => False
  end.

#[local] Instance overfull_dec p o : Decision (overfull p o).
Proof. destruct o; cbn [overfull]; apply _. Defined.

(** ** Invariant *)

Record wf (p : Pipe) : Prop := {
  wf_ring : ByteRing.wf (buffer p);
  wf_cap : (ByteRing.len (buffer p) <= PIPE_CAPACITY)%nat
}.

Definition queued (p : Pipe) : list Z := ByteRing.contents (buffer p).

Lemma is_empty_queued p : ByteRing.is_empty (buffer p) = true ↔ queued p = [].
Proof.
  unfold ByteRing.is_empty, queued. rewrite Nat.eqb_eq, <- ByteRing.length_contents.
  apply length_zero_iff_nil.
Qed.

(** [flush] touches only the wait queues. *)
Lemma flush_keeps n p : ∃ rq wq, flushed n p = with_queues p rq wq.
Proof. unfold flushed, flush. destruct (if wake_reader n then _ else _), (if wake_writer n then _ else _). eauto. Qed.

Lemma min_room a l c : (l <= c)%nat → (Nat.min a (c - l) + l <= c)%nat.
Proof. lia. Qed.

Lemma write_spec p data : wf p → ∃ res n p', write p data = Ret (res, n, p') ∧ wf p' ∧
  reader_wq p' = reader_wq p ∧ writer_wq p' = writer_wq p ∧
  queued p' = queued p ++ accepted (Wrote data res) ∧ atomic (Wrote data res) ∧
  (res = None ↔ readers p = O).
Proof.
  intros [Hr Hc]. unfold write. destruct (Nat.eqb_spec (readers p) 0) as [E|E].
  { eexists _, _, _. split; [done|]. cbn [accepted atomic]. rewrite app_nil_r. by split_and!. }
  destruct (write_ready p (length data)) eqn:Ew; cbn [negb]; cycle 1.
  { eexists _, _, _. split; [done|]. cbn [accepted atomic]. rewrite take_0, app_nil_r.
    split_and!; try done. by left. }
  remember (Nat.min (length data) (space p)) as n eqn:En.
  destruct (ByteRing.push_spec (buffer p) (take n data) Hr) as (b & -> & Hb & Hcb).
  cbn [mbind outcome_bind]. eexists _, _, _. split; [done|].
  assert (Hn : (n + ByteRing.len (buffer p) <= PIPE_CAPACITY)%nat) by (rewrite En; by apply min_room).
  split; [|split; [done|split; [done|split; [exact Hcb|split]]]].
  - split; cbn [buffer with_buffer]; [done|]. rewrite <- ByteRing.length_contents, Hcb, length_app, length_take, ByteRing.length_contents. lia.
  - cbn [atomic]. intros Hs. right. unfold write_ready in Ew.
    rewrite (proj2 (Nat.eqb_neq (readers p) 0) E) in Ew. apply Nat.leb_le in Ew. lia.
  - split; [congruence|intros; by destruct E].
Qed.

Lemma read_into_spec p k : wf p → ∃ n p', read_into p k = Ret (take k (queued p), n, p') ∧ wf p' ∧
  reader_wq p' = reader_wq p ∧ writer_wq p' = writer_wq p ∧ queued p' = drop k (queued p).
Proof.
  intros [Hr Hc]. unfold read_into.
  destruct (ByteRing.pop_spec (buffer p) k Hr) as (b & -> & Hb & Hcb). cbn [mbind outcome_bind].
  assert (Hw : wf (with_buffer p b)).
  { split; cbn [buffer with_buffer]; [done|].
    rewrite <- ByteRing.length_contents, Hcb, length_drop, ByteRing.length_contents. lia. }
  destruct (Nat.eqb_spec (length (take k (ByteRing.contents (buffer p)))) 0) as [E|E].
  - apply length_zero_iff_nil in E. unfold queued. rewrite E. eexists _, _. split; [done|]. by split_and!.
  - eexists _, _. split; [done|]. by split_and!.
Qed.

Lemma buffer_flushed n p : buffer (flushed n p) = buffer p.
Proof. destruct (flush_keeps n p) as (rq & wq & ->). done. Qed.

(** One step: unless it enrols a thread in a full queue it succeeds, keeps the
    invariant, and moves bytes in at the tail and out at the head. *)
Lemma step_spec p o : wf p → ¬ overfull p o →
  ∃ e p', step p o = Ret (e, p') ∧ wf p' ∧ queued p ++ accepted e = taken e ++ queued p' ∧ atomic e.
Proof.
  intros Hwf Hn.
  assert (Hsame : ∀ p', buffer p' = buffer p → ∃ e p'', Ret (Other, p') = Ret (e, p'') ∧ wf p'' ∧
    queued p ++ accepted e = taken e ++ queued p'' ∧ atomic e).
  { intros p' Hb. exists Other, p'. split; [done|]. destruct Hwf as [Hr' Hc'].
    split; [split; by rewrite Hb|]. unfold queued. rewrite Hb. cbn [accepted taken atomic app]. by rewrite app_nil_r. }
  destruct o; cbn [step overfull] in *.
  - destruct (write_spec p data Hwf) as (res & n & p' & -> & [? ?] & _ & _ & Hq & Ha & _).
    cbn [mbind outcome_bind]. eexists _, _. split; [done|]. unfold queued in *. rewrite buffer_flushed.
    split; [split; by rewrite buffer_flushed|]. by split.
  - destruct (read_into_spec p out_len Hwf) as (n & p' & -> & [? ?] & _ & _ & Hq).
    cbn [mbind outcome_bind]. eexists _, _. split; [done|]. unfold queued in *. rewrite buffer_flushed.
    split; [split; by rewrite buffer_flushed|]. cbn [taken accepted]. split; [|done]. by rewrite app_nil_r, Hq, take_drop.
  - destruct m; cbn [close_descriptor close_reader close_writer]; apply Hsame; by rewrite buffer_flushed.
  - by apply Hsame.
  - unfold attach_pipe. apply Hsame. rewrite buffer_flushed. by destruct m.
  - unfold detach_pipe. apply Hsame. rewrite buffer_flushed. by destruct m.
  - unfold register. destruct (matches _ _); [by apply Hsame|]. cbn [add_poller]. by apply Hsame.
  - by apply Hsame.
  - unfold enrol. rewrite (proj2 (Nat.ltb_lt _ _)) by lia. cbn [mbind outcome_bind]. by apply Hsame.
  - unfold enrol. rewrite (proj2 (Nat.ltb_lt (length (writer_wq p)) _)) by lia. cbn [mbind outcome_bind]. by apply Hsame.
  - by apply Hsame.
  - by apply Hsame.
Qed.

Lemma overfull_panics p o : overfull p o → step p o = Panic.
Proof. destruct o; cbn [overfull step]; try done; intros H; unfold enrol; by rewrite (proj2 (Nat.ltb_ge _ _) H). Qed.

(** The bytes that went through a run: taken and still queued are accepted. *)
Definition streamed (p : Pipe) (es : list event) (p' : Pipe) : Prop :=
  queued p ++ concat (accepted <$> es) = concat (taken <$> es) ++ queued p' ∧ wf p' ∧ Forall atomic es.

Lemma run_spec ops : ∀ p, wf p →
  match run p ops with
  | Ret (es, p') => streamed p es p'
  | Panic => ∃ ops1 o ops2 es p1, ops = ops1 ++ o :: ops2 ∧ run p ops1 = Ret (es, p1) ∧ streamed p es p1 ∧ overfull p1 o
  end.
Proof.
  induction ops as [|o ops IH]; intros p Hwf; cbn [run].
  { split; [|done]. cbn [fmap list_fmap concat]. by rewrite app_nil_r. }
  destruct (decide (overfull p o)) as [Ho|Ho].
  { rewrite (overfull_panics p o Ho). cbn [mbind outcome_bind]. exists [], o, ops, [], p. split; [done|]. split; [done|].
    split; [|done]. split; [|done]. cbn [fmap list_fmap concat]. by rewrite app_nil_r. }
  destruct (step_spec p o Hwf Ho) as (e & p1 & Hs & Hwf1 & Hq1 & Ha1). rewrite Hs. cbn [mbind outcome_bind].
  assert (Hcons : ∀ es p2, streamed p1 es p2 → streamed p (e :: es) p2).
  { intros es p2 (Hq2 & Hwf2 & Ha2). split; [|split; [done|by constructor]].
    cbn [fmap list_fmap concat]. by rewrite app_assoc, Hq1, <- !app_assoc, Hq2. }
  specialize (IH p1 Hwf1). destruct (run p1 ops) as [[es p2]|]; cbn [mbind outcome_bind]; [by apply Hcons|].
  destruct IH as (ops1 & o' & ops2 & es & p2 & -> & Hr & Hst & Hov). exists (o :: ops1), o', ops2, (e :: es), p2.
  split; [done|]. split; [cbn [run]; rewrite Hs; cbn [mbind outcome_bind]; by rewrite Hr|]. split; [by apply Hcons|done].
Qed.

Lemma start_wf (fifo : bool) : wf (if fifo then new_fifo else new).
Proof. split; destruct fifo; cbn; try exact ByteRing.new_wf; lia. Qed.

Lemma streamed_start (fifo : bool) es p : streamed (if fifo then new_fifo else new) es p →
  concat (taken <$> es) ++ queued p = concat (accepted <$> es) ∧ (length (queued p) <= PIPE_CAPACITY)%nat ∧ Forall atomic es.
Proof.
  intros (Hq & [_ Hc] & Ha). split; [rewrite <- Hq; by destruct fifo|]. split; [|done]. unfold queued. by rewrite ByteRing.length_contents.
Qed.

(** C30 Whatever processes do with a pipe or a named pipe (writes, reads, closes
    and duplications of either end, poll registrations, waits), the bytes read
    followed by the bytes still buffered are exactly the bytes the writes
    accepted, in order, the buffer never exceeds the pipe capacity, and a write
    of at most [PIPE_BUF] bytes is accepted whole or not at all. A call panics
    only when it parks a thread on a queue of the pipe that already holds 64
    threads, and until then all of this holds. *)
Theorem pipe_stream_correct (fifo : bool) (ops : list op) :
  let good (es : list event) (p : Pipe) :=
    concat (taken <$> es) ++ queued p = concat (accepted <$> es) ∧ (length (queued p) <= PIPE_CAPACITY)%nat ∧ Forall atomic es in
  match run (if fifo then new_fifo else new) ops with
  | Ret (es, p) => good es p
  | Panic => ∃ ops1 o ops2 es p, ops = ops1 ++ o :: ops2 ∧ run (if fifo then new_fifo else new) ops1 = Ret (es, p) ∧ good es p ∧ overfull p o
  end.
Proof.
  intros good. pose proof (run_spec ops _ (start_wf fifo)) as H. destruct (run _ ops) as [[es p]|]; [by apply (streamed_start fifo)|].
  destruct H as (ops1 & o & ops2 & es & p & E & Hr & Hs & Ho). exists ops1, o, ops2, es, p. split; [done|]. split; [done|].
  split; [by apply (streamed_start fifo)|done].
Qed.

(** When the last writer of an empty pipe closes while several readers are
    parked, the notification wakes only the first of them. The read that one
    then makes reports end of file and notifies nobody, so the other readers
    stay parked although a read would return at once. *)
Theorem eof_wakes_one_reader p t rest : wf p → queued p = [] → writers p = 1%nat →
  reader_wq p = t :: rest → wake_thread t = true →
  ∃ updates ww p', flush (close_writer p).1 (close_writer p).2 = (updates, t :: ww, p') ∧
    (∀ w, w ∈ ww → w ∈ writer_wq p) ∧ reader_wq p' = rest ∧ pipe_readable p' = true ∧
    ∀ k, ∃ p'', read_into p' k = Ret ([], EMPTY, p'') ∧ at_eof p'' = true ∧
      flush EMPTY p'' = ([], [], p'') ∧ reader_wq p'' = rest.
Proof.
  intros [Hring Hcap] Hq Hw Hrq Hwake. apply is_empty_queued in Hq. unfold close_writer. cbn [fst snd].
  unfold flush, notify_ends, poll_state, close_writer_silent. cbn [wake_reader wake_writer readable hangup writable
    reader_wq writer_wq with_ends closed buffer readers writers pollers].
  rewrite Hq, Hw, Hrq. cbn [Nat.sub Nat.eqb negb orb andb has_waiters length wake_one]. rewrite Hwake.
  destruct (if _ && _ then _ else _) as [ww wq] eqn:Eww. eexists _, ww, _. split; [done|]. split.
  { intros w Hin. destruct (_ && _) in Eww; unfold wake_all in Eww; injection Eww as <- _; [|by apply not_elem_of_nil in Hin].
    apply list_elem_of_In, filter_In in Hin as [Hin _]. by apply list_elem_of_In. }
  split; [done|]. split; [unfold pipe_readable; cbn; by rewrite Hq|]. intros k.
  unfold read_into. cbn [buffer with_queues with_ends].
  destruct (ByteRing.pop_spec (buffer p) k Hring) as (b & -> & Hb & Hcb). cbn [mbind outcome_bind].
  assert (Hc : ByteRing.contents (buffer p) = []) by (by apply is_empty_queued in Hq).
  rewrite Hc in *. rewrite take_nil. cbn [length Nat.eqb]. eexists. split; [done|].
  split; [|done]. unfold at_eof. cbn [closed buffer with_buffer with_queues with_ends andb].
  apply (is_empty_queued (with_buffer p b)). unfold queued. cbn [buffer with_buffer]. by rewrite Hcb, drop_nil.
Qed.

End WithScheduler.

(** ** Concrete runs *)

(** A small write refused on a nearly full pipe, a large one split, a read and
    an end of file. *)
Definition demo_ops : list op :=
  [ WaitRead 7; Write (replicate 3 1); Read 2; Write (replicate (Z.to_nat 65535) 2);
    Write [3; 3]; Close WriteOnly; Read 4; Close ReadOnly; Write [9] ].

(** A run to its end, and 65 threads waiting at once. *)
Lemma pipe_demo_runs :
  (match run (λ _, true) new demo_ops with Ret _ => true | Panic => false end) = true ∧
  run (λ _, true) new ((λ k, WaitRead (Z.of_nat k)) <$> seq 0 65) = Panic.
Proof. split; vm_compute; reflexivity. Qed.

(** Two parked readers on an empty pipe with one writer. *)
Definition two_readers : Pipe := mk_pipe ByteRing.new 1 1 false [] 1 [11; 12] [].

Lemma eof_wakes_one_reader_witness :
  ∃ updates ww p', flush (λ _, true) (close_writer two_readers).1 (close_writer two_readers).2 = (updates, 11 :: ww, p') ∧
    (∀ w, w ∈ ww → w ∈ writer_wq two_readers) ∧ reader_wq p' = [12] ∧ pipe_readable p' = true ∧
    ∀ k, ∃ p'', read_into p' k = Ret ([], EMPTY, p'') ∧ at_eof p'' = true ∧
      flush (λ _, true) EMPTY p'' = ([], [], p'') ∧ reader_wq p'' = [12].
Proof.
  refine (eof_wakes_one_reader (λ _, true) two_readers 11 [12] _ _ _ _ _).
  - split; [exact ByteRing.new_wf|cbn; lia].
  - reflexivity.
  - reflexivity.
  - reflexivity.
  - reflexivity.
Defined.

(** Poll reports the pipe writable with a single byte of room, and a write of
    two bytes then refuses. *)
Example writable_but_not_ready :
  let p := mk_pipe (ByteRing.mk_ring (replicate (Z.to_nat 65535) 0) 0 (Z.to_nat 65535)) 1 1 false [] 1 [] [] in
  writable (poll_state p) = true ∧ write_ready p 2 = false.
Proof. by vm_compute. Qed.

End Pipe.
