(* ===== verification/Fifo.v ===== *)
(** * Named pipes (kernel/src/fs/fifo.rs)

    The registry of named pipes and the rendezvous in [open], split at the
    point where the opener parks. *)

From S2P Require Import Prelude ByteRing Pipe.

Module Fifo.

Definition FifoKey := (Z * Z)%type.

Record Fifo := mk_fifo
  { pipe : Pipe.Pipe; open_wq : list Pipe.Tid; reader_seen : bool; writer_seen : bool }.

Definition new : Fifo := mk_fifo Pipe.new_fifo [] false false.
Definition registry := gmap FifoKey Fifo.

Definition idle (f : Fifo) : bool :=
  (Pipe.readers (pipe f) =? 0)%nat && (Pipe.writers (pipe f) =? 0)%nat.

(** A key whose last incarnation has an end open keeps it; any other starts
    afresh. *)
Definition incarnation (fifos : registry) (key : FifoKey) : Fifo * registry :=
  match fifos !! key with
  | Some f => if idle f then (new, <[key := new]> fifos) else (f, fifos)
  | None => (new, <[key := new]> fifos)
  end.

Definition forget (fifos : registry) (key : FifoKey) : registry := delete key fifos.

Section WithScheduler.

Context (wake_thread : Pipe.Tid → bool).

(** Both return the openers woken beside the new state. *)
Definition attach (f : Fifo) (m : Pipe.OpenMode) : list Pipe.Tid * Fifo :=
  let '(n, p) := Pipe.attach_pipe (pipe f) m in
  let '(woken, q) := Pipe.wake_all wake_thread (open_wq f) in
  (woken, mk_fifo (Pipe.flushed wake_thread n p) q
    (Pipe.mode_readable m || reader_seen f) (Pipe.mode_writable m || writer_seen f)).

Definition detach (f : Fifo) (m : Pipe.OpenMode) : list Pipe.Tid * Fifo :=
  let '(n, p) := Pipe.detach_pipe (pipe f) m in
  let '(woken, q) := Pipe.wake_all wake_thread (open_wq f) in
  (woken, mk_fifo (Pipe.flushed wake_thread n p) q (reader_seen f) (writer_seen f)).

Inductive Errno := ENXIO | EINTR.

(** The two halves of [open]: up to the point where it returns or parks, and
    from the wake to the return. *)
Inductive opening := Opened (m : Pipe.OpenMode) | Failed (e : Errno) | Parked.

Definition peer_seen (f : Fifo) (m : Pipe.OpenMode) : bool :=
  match m with
  | Pipe.ReadOnly => writer_seen f
  | Pipe.WriteOnly => reader_seen f
  | Pipe.ReadWrite => true
  end.

Definition open_begin (fifos : registry) (key : FifoKey) (m : Pipe.OpenMode) (nonblock : bool) (t : Pipe.Tid)
    : outcome (opening * registry) :=
  let '(f, fifos) := incarnation fifos key in
  let '(_, f) := attach f m in
  if negb (peer_seen f m) then
    if nonblock then
      if Pipe.mode_writable m then let '(_, f) := detach f m in Ret (Failed ENXIO, <[key := f]> fifos)
      else Ret (Opened m, <[key := f]> fifos)
    else
      q ← Pipe.enrol (open_wq f) t;
      Ret (Parked, <[key := mk_fifo (pipe f) q (reader_seen f) (writer_seen f)]> fifos)
  else Ret (Opened m, <[key := f]> fifos).

(** [wait_until_killable] parks once; the caller only tells a kill apart. *)
Definition open_finish (f : Fifo) (m : Pipe.OpenMode) (t : Pipe.Tid) (killed : bool) : opening * Fifo :=
  let f := mk_fifo (pipe f) (Pipe.leave (open_wq f) t) (reader_seen f) (writer_seen f) in
  if killed then let '(_, f) := detach f m in (Failed EINTR, f) else (Opened m, f).

(** A writer that does not wait is refused, and leaves both ends as they were,
    when no reader ever opened the name. *)
Lemma open_nonblock_writer fifos key t f : fifos !! key = None →
  f = new → ∃ f', open_begin fifos key Pipe.WriteOnly true t = Ret (Failed ENXIO, <[key := f']> (<[key := f]> fifos)) ∧
    Pipe.readers (pipe f') = O ∧ Pipe.writers (pipe f') = O.
Proof.
  intros Hk ->. unfold open_begin, incarnation. rewrite Hk. cbn. eauto.
Qed.

End WithScheduler.

(** A reader waiting for a writer is woken by a second reader's open, and its
    own open then returns although no writer ever came. *)
Definition two_openers : outcome (opening * opening * option (list Pipe.Tid * bool * opening)) :=
  let open := open_begin (λ _, true) in
  '(first, fifos) ← open ∅ (0, 5) Pipe.ReadOnly false 1;
  '(second, fifos) ← open fifos (0, 5) Pipe.ReadOnly false 2;
  let after f := (open_wq f, writer_seen f, (open_finish (λ _, true) f Pipe.ReadOnly 1 false).1) in
  Ret (first, second, after <$> fifos !! (0, 5)).

Example reader_open_without_writer :
  two_openers = Ret (Parked, Parked, Some ([2], false, Opened Pipe.ReadOnly)).
Proof. vm_compute. reflexivity. Qed.

End Fifo.
