(* ===== verification/Pty.v ===== *)
(** * Pseudo-terminals (kernel/src/thread/pty.rs)

    The line discipline between two byte rings, the operations of the master
    and slave sides with the notifications each builds, and the loop of
    [sys_read] on a slave (kernel/src/syscalls/io.rs) that blocks on them. *)

From S2P Require Import Prelude ByteRing Pipe.

Module Pty.

Abbreviation Tid := Pipe.Tid.
Abbreviation PollState := Pipe.PollState.

Definition PTY_OUTPUT_CAPACITY : nat := Z.to_nat 65536.
Definition PTY_OUTPUT_MIN_WRITE : nat := 2.
Definition PTY_INPUT_CAPACITY : nat := Z.to_nat 4096.

Definition PTY_IOCTL_SET_RAW : Z := 0x5001.
Definition PTY_IOCTL_SET_CANONICAL : Z := 0x5002.
Definition PTY_IOCTL_GET_MODE : Z := 0x5003.
Definition PTY_IOCTL_SET_WINSIZE : Z := 0x5004.
Definition PTY_IOCTL_GET_WINSIZE : Z := 0x5005.

Definition SIGINT : Z := 2.
Definition SIGTSTP : Z := 20.

(** The bytes of the data read, in place of the filled prefix and its length. *)
Inductive PtySlaveRead := Data (bytes : list Z) | Eof | WouldBlock.
Inductive PtySide := Master | Slave.
Inductive LineAction := ANone | AEof | AInterrupt | ASuspend.

(** ** The line discipline *)

Record LineDiscipline := mk_ld { canonical : bool; echo_on : bool; opost : bool; line_buf : list Z }.

Definition ld_new : LineDiscipline := mk_ld true true true [].
Definition set_line (d : LineDiscipline) (l : list Z) : LineDiscipline := mk_ld (canonical d) (echo_on d) (opost d) l.

Definition NL : Z := 10.
Definition CR : Z := 13.

(** The index of the first byte that does not fit whole in [room]. *)
Fixpoint fit_end (data : list Z) (cost room i : nat) : nat :=
  match data with
  | [] => i
  | byte :: data =>
      let byte_cost := if byte =? NL then 2%nat else 1%nat in
      if (room <? cost + byte_cost)%nat then i else fit_end data (cost + byte_cost) room (S i)
  end.

(** The second pass over [data[..end]]: the run before each newline, then the
    translated newline; [run] is [data[start..i]]. *)
Fixpoint emit (todo run : list Z) (out : ByteRing.ByteRing) : outcome ByteRing.ByteRing :=
  match todo with
  | [] => ByteRing.push out run
  | byte :: todo =>
      if byte =? NL then
        out ← ByteRing.push out run;
        out ← ByteRing.push out [CR; NL];
        emit todo [] out
      else emit todo (run ++ [byte]) out
  end.

Definition write_output (d : LineDiscipline) (data : list Z) (out : ByteRing.ByteRing) (room : nat) : outcome (nat * ByteRing.ByteRing) :=
  if negb (opost d) || negb (existsb (Z.eqb NL) data) then
    let n := Nat.min (length data) room in
    out ← ByteRing.push out (take n data); Ret (n, out)
  else
    let stop := fit_end data 0 room 0 in
    out ← emit (take stop data) [] out; Ret (stop, out).

(** [Self::echo]. *)
Definition echo (out : ByteRing.ByteRing) (bytes : list Z) : outcome ByteRing.ByteRing :=
  if (length bytes <=? PTY_OUTPUT_CAPACITY - ByteRing.len out)%nat then ByteRing.push out bytes else Ret out.

Definition echo_if (d : LineDiscipline) (out : ByteRing.ByteRing) (bytes : list Z) : outcome ByteRing.ByteRing :=
  if echo_on d then echo out bytes else Ret out.

(** A byte that joins the line being edited. *)
Definition line_byte (d : LineDiscipline) (byte : Z) (inp out : ByteRing.ByteRing) :
  outcome (LineAction * LineDiscipline * ByteRing.ByteRing * ByteRing.ByteRing) :=
  out ← echo_if d out [byte]; Ret (ANone, set_line d (line_buf d ++ [byte]), inp, out).

Definition process_input (d : LineDiscipline) (byte : Z) (inp out : ByteRing.ByteRing) :
  outcome (LineAction * LineDiscipline * ByteRing.ByteRing * ByteRing.ByteRing) :=
  if byte =? 0x03 then out ← echo_if d out [94; 67; NL]; Ret (AInterrupt, set_line d [], inp, out)
  else if byte =? 0x1a then out ← echo_if d out [94; 90; NL]; Ret (ASuspend, set_line d [], inp, out)
  else if negb (byte =? 0x04) && (PTY_INPUT_CAPACITY <=? ByteRing.len inp + length (line_buf d))%nat then Ret (ANone, d, inp, out)
  else if negb (canonical d) then
    inp ← ByteRing.push inp [byte]; out ← echo_if d out [byte]; Ret (ANone, d, inp, out)
  else if (byte =? CR) || (byte =? NL) then
    inp ← ByteRing.push inp (line_buf d ++ [NL]);
    out ← echo_if d out (if opost d then [CR; NL] else [NL]);
    Ret (ANone, set_line d [], inp, out)
  else if (byte =? 0x7F) || (byte =? 0x08) then
    match line_buf d with
    | [] => Ret (ANone, d, inp, out)
    | _ => out ← echo_if d out [8; 32; 8]; Ret (ANone, set_line d (removelast (line_buf d)), inp, out)
    end
  else if byte =? 0x04 then
    match line_buf d with
    | [] => Ret (AEof, d, inp, out)
    | _ => inp ← ByteRing.push inp (line_buf d); Ret (ANone, set_line d [], inp, out)
    end
  else if byte =? 9 then line_byte d byte inp out
  else if byte =? 0x1B then line_byte d byte inp out
  else if 0x20 <=? byte then line_byte d byte inp out
  else Ret (ANone, d, inp, out).

(** ** The pseudo-terminal *)

Definition PollKey := Z.
Definition PollRef := Z.

Record Pty := mk_pty {
  input_buf : ByteRing.ByteRing; output_buf : ByteRing.ByteRing;
  masters : nat; slaves : nat; closed_master : bool; closed_slave : bool;
  input_wq : list Tid; output_wq : list Tid; slave_write_wq : list Tid;
  pollers : list (PollKey * PtySide * PollRef); next_poll_key : PollKey;
  line_disc : LineDiscipline; eof_pending : bool; foreground_pgid : option Z;
  cols : Z; rows : Z
}.

Definition new : Pty :=
  mk_pty ByteRing.new ByteRing.new 1 1 false false [] [] [] [] 1 ld_new false None 80 30.

Definition with_io (p : Pty) (i o : ByteRing.ByteRing) (d : LineDiscipline) (e : bool) : Pty :=
  mk_pty i o (masters p) (slaves p) (closed_master p) (closed_slave p) (input_wq p) (output_wq p) (slave_write_wq p)
    (pollers p) (next_poll_key p) d e (foreground_pgid p) (cols p) (rows p).
Definition with_ends (p : Pty) (m s : nat) (cm cs : bool) : Pty :=
  mk_pty (input_buf p) (output_buf p) m s cm cs (input_wq p) (output_wq p) (slave_write_wq p)
    (pollers p) (next_poll_key p) (line_disc p) (eof_pending p) (foreground_pgid p) (cols p) (rows p).
Definition with_queues (p : Pty) (i o w : list Tid) : Pty :=
  mk_pty (input_buf p) (output_buf p) (masters p) (slaves p) (closed_master p) (closed_slave p) i o w
    (pollers p) (next_poll_key p) (line_disc p) (eof_pending p) (foreground_pgid p) (cols p) (rows p).
Definition with_pollers (p : Pty) (l : list (PollKey * PtySide * PollRef)) (k : PollKey) : Pty :=
  mk_pty (input_buf p) (output_buf p) (masters p) (slaves p) (closed_master p) (closed_slave p) (input_wq p) (output_wq p) (slave_write_wq p)
    l k (line_disc p) (eof_pending p) (foreground_pgid p) (cols p) (rows p).
Definition with_size (p : Pty) (c r : Z) : Pty :=
  mk_pty (input_buf p) (output_buf p) (masters p) (slaves p) (closed_master p) (closed_slave p) (input_wq p) (output_wq p) (slave_write_wq p)
    (pollers p) (next_poll_key p) (line_disc p) (eof_pending p) (foreground_pgid p) c r.

Definition with_group (p : Pty) (g : option Z) : Pty :=
  mk_pty (input_buf p) (output_buf p) (masters p) (slaves p) (closed_master p) (closed_slave p) (input_wq p) (output_wq p) (slave_write_wq p)
    (pollers p) (next_poll_key p) (line_disc p) (eof_pending p) g (cols p) (rows p).

Definition set_mode (p : Pty) (on : bool) : Pty :=
  with_io p (input_buf p) (output_buf p) (mk_ld on on on (line_buf (line_disc p))) (eof_pending p).

Definition ioctl_with (p : Pty) (request arg : Z) : result unit Z * Pty :=
  if request =? PTY_IOCTL_SET_WINSIZE then
    let c := Z.land arg 0xFFFF in
    let r := Z.land (Z.shiftr arg 16) 0xFFFF in
    if (c =? 0) || (r =? 0) then (Err (), p) else (Ok 0, with_size p c r)
  else if request =? PTY_IOCTL_GET_WINSIZE then (Ok (Z.lor (Z.shiftl (rows p) 16) (cols p)), p)
  else if request =? PTY_IOCTL_SET_RAW then (Ok 0, set_mode p false)
  else if request =? PTY_IOCTL_SET_CANONICAL then (Ok 0, set_mode p true)
  else if request =? PTY_IOCTL_GET_MODE then (Ok (if canonical (line_disc p) then 1 else 0), p)
  else (Err (), p).

Definition output_space (p : Pty) : nat := (PTY_OUTPUT_CAPACITY - ByteRing.len (output_buf p))%nat.
Definition slave_write_ready (p : Pty) : bool := closed_master p || (PTY_OUTPUT_MIN_WRITE <=? output_space p)%nat.

Definition poll_state_master (p : Pty) : PollState :=
  Pipe.mk_poll (negb (ByteRing.is_empty (output_buf p)) || closed_slave p) ((0 <? slaves p)%nat && negb (closed_slave p)) false
    (closed_slave p && ByteRing.is_empty (output_buf p)) false.

Definition poll_state_slave (p : Pty) : PollState :=
  Pipe.mk_poll (negb (ByteRing.is_empty (input_buf p)) || closed_master p || eof_pending p)
    ((0 <? masters p)%nat && negb (closed_master p) && (PTY_OUTPUT_MIN_WRITE <=? output_space p)%nat) false
    (closed_master p && ByteRing.is_empty (input_buf p)) false.

(** A [Some] queue is a clone of the terminal's own [Arc]. *)
Record PtyNotifications := mk_notif {
  entries : list (PtySide * PollRef); master_state : PollState; slave_state : PollState;
  wake_input : bool; wake_output : bool; wake_slave_writer : bool; signal_pgid : option (Z * Z)
}.

Definition EMPTY : PtyNotifications := mk_notif [] Pipe.poll_none Pipe.poll_none false false false None.

Definition notify_pollers (p : Pty) : PtyNotifications :=
  let m := poll_state_master p in
  let s := poll_state_slave p in
  mk_notif ((λ e, (e.1.2, e.2)) <$> pollers p) m s
    (Pipe.readable s || Pipe.hangup s) (Pipe.readable m || Pipe.hangup m)
    ((Pipe.writable s || closed_master p) && Pipe.has_waiters (slave_write_wq p)) None.

Definition with_signal (n : PtyNotifications) (sg : option (Z * Z)) : PtyNotifications :=
  mk_notif (entries n) (master_state n) (slave_state n) (wake_input n) (wake_output n) (wake_slave_writer n) sg.

(** The loop of [master_write] over the bytes. *)
Fixpoint feed (data : list Z) (p : Pty) (sg : option (Z * Z)) : outcome (Pty * option (Z * Z)) :=
  match data with
  | [] => Ret (p, sg)
  | byte :: data =>
      '(act, d, i, o) ← process_input (line_disc p) byte (input_buf p) (output_buf p);
      let e := match act with AEof => true | _ => eof_pending p end in
      let sg := match act with
                | AInterrupt => (λ pgid, (pgid, SIGINT)) <$> foreground_pgid p
                | ASuspend => (λ pgid, (pgid, SIGTSTP)) <$> foreground_pgid p
                | _ => sg
                end in
      feed data (with_io p i o d e) sg
  end.

Definition master_write (p : Pty) (data : list Z) : outcome (nat * PtyNotifications * Pty) :=
  match data with
  | [] => Ret (O, EMPTY, p)
  | _ =>
      '(p, sg) ← feed data p None;
      Ret (length data, with_signal (notify_pollers p) sg, p)
  end.

Definition master_read (p : Pty) (out_len : nat) : outcome (list Z * PtyNotifications * Pty) :=
  '(bytes, o) ← ByteRing.pop (output_buf p) out_len;
  let p := with_io p (input_buf p) o (line_disc p) (eof_pending p) in
  Ret (bytes, (if (length bytes =? 0)%nat then EMPTY else notify_pollers p), p).

Definition slave_write (p : Pty) (data : list Z) : outcome (option nat * PtyNotifications * Pty) :=
  if closed_master p then Ret (None, EMPTY, p)
  else
    match data with
    | [] => Ret (Some O, EMPTY, p)
    | _ =>
        '(taken, o) ← write_output (line_disc p) data (output_buf p) (output_space p);
        let p := with_io p (input_buf p) o (line_disc p) (eof_pending p) in
        Ret (Some taken, (if (taken =? 0)%nat then EMPTY else notify_pollers p), p)
    end.

Definition slave_read (p : Pty) (out_len : nat) : outcome (PtySlaveRead * PtyNotifications * Pty) :=
  if ByteRing.is_empty (input_buf p) && eof_pending p then
    let p := with_io p (input_buf p) (output_buf p) (line_disc p) false in Ret (Eof, notify_pollers p, p)
  else
    '(bytes, i) ← ByteRing.pop (input_buf p) out_len;
    let p := with_io p i (output_buf p) (line_disc p) (eof_pending p) in
    Ret (if (length bytes =? 0)%nat then (WouldBlock, EMPTY, p) else (Data bytes, notify_pollers p, p)).

Definition close_master (p : Pty) : PtyNotifications * Pty :=
  let m := (masters p - 1)%nat in
  let p := with_ends p m (slaves p) (if (m =? 0)%nat then true else closed_master p) (closed_slave p) in (notify_pollers p, p).

Definition close_slave (p : Pty) : PtyNotifications * Pty :=
  let s := (slaves p - 1)%nat in
  let p := with_ends p (masters p) s (closed_master p) (if (s =? 0)%nat then true else closed_slave p) in (notify_pollers p, p).

Definition add_poller (p : Pty) (side : PtySide) (entry : PollRef) : PollKey * Pty :=
  let key := next_poll_key p in
  (key, with_pollers p (pollers p ++ [(key, side, entry)]) (Z.max (wrap 64 (key + 1)) 1)).

Definition remove_poller (p : Pty) (key : PollKey) : Pty :=
  with_pollers p (List.filter (λ e, negb (e.1.1 =? key)) (pollers p)) (next_poll_key p).

(** [register] of the pollable of either end. *)
Definition register (p : Pty) (side : PtySide) (entry : PollRef) (interests : PollState) : PollState * option PollKey * Pty :=
  let state := match side with Master => poll_state_master p | Slave => poll_state_slave p end in
  if Pipe.matches state interests then (state, None, p)
  else let '(key, p) := add_poller p side entry in (state, Some key, p).

(** [inc_refcount] of a descriptor of either end. *)
Definition dup_end (p : Pty) (side : PtySide) : Pty :=
  match side with
  | Master => with_ends p (S (masters p)) (slaves p) (closed_master p) (closed_slave p)
  | Slave => with_ends p (masters p) (S (slaves p)) (closed_master p) (closed_slave p)
  end.

(** The slave arm of [close_descriptor], for an owner whose group is
    [owner_pgid]. *)
Definition close_slave_fd (p : Pty) (owner_pgid : Z) : PtyNotifications * Pty :=
  close_slave (if bool_decide (foreground_pgid p = Some owner_pgid) then with_group p None else p).

(** [sys_tcsetpgrp] and [sys_tcgetpgrp] on a terminal. *)
Definition tcsetpgrp (p : Pty) (pgid : Z) : Pty := with_group p (Some pgid).
Definition tcgetpgrp (p : Pty) : Z := default 0 (foreground_pgid p).

Section WithScheduler.
Context (wake_thread : Tid → bool).

(** The states delivered, the threads woken, the signal sent, and the terminal
    with its queues drained accordingly. *)
Definition flush (n : PtyNotifications) (p : Pty) : list (PollRef * PollState) * list Tid * option (Z * Z) * Pty :=
  let '(iw, iq) := if wake_input n then Pipe.wake_one wake_thread (input_wq p) else ([], input_wq p) in
  let '(ow, oq) := if wake_output n then Pipe.wake_one wake_thread (output_wq p) else ([], output_wq p) in
  let '(ww, wq) := if wake_slave_writer n then Pipe.wake_all wake_thread (slave_write_wq p) else ([], slave_write_wq p) in
  ((λ e : PtySide * PollRef, (e.2, match e.1 with Master => master_state n | Slave => slave_state n end)) <$> entries n,
   iw ++ ow ++ ww, signal_pgid n, with_queues p iq oq wq).
End WithScheduler.

(** ** Readers of the slave *)

(** Where a thread is in [sys_read]: about to take the lock, about to wait with
    what the read said, parked in the wait, or back with its answer ([None] is
    end of file). *)
Inductive reader := RRead | RWait | RParked | RDone (r : option (list Z)).

(** The predicate the wait is given. *)
Definition read_ready (p : Pty) : bool := negb (ByteRing.is_empty (input_buf p)) || closed_master p.

Record Session := mk_session { pty : Pty; readers : gmap Z reader }.

(** Threads in a wait are always there to wake. *)
Definition flush_all (n : PtyNotifications) (s : Session) : Session :=
  let '(_, woken, _, p) := flush (λ _, true) n (pty s) in
  mk_session p (foldr (λ t m, <[t := RRead]> m) (readers s) woken).

Definition with_pty (s : Session) (p : Pty) : Session := mk_session p (readers s).
Definition set_reader (t : Z) (r : reader) (s : Session) : Session := mk_session (pty s) (<[t := r]> (readers s)).

(** One step of [sys_read] by [t] with a buffer of [n] bytes. *)
Definition sys_read (t : Z) (n : nat) (s : Session) : outcome Session :=
  match readers s !! t with
  | Some RRead =>
      '(r, notif, p) ← slave_read (pty s) n;
      let hangup := closed_master p && ByteRing.is_empty (input_buf p) in
      let s := flush_all notif (with_pty s p) in
      Ret match r with
          | Data bytes => set_reader t (RDone (Some bytes)) s
          | Eof => set_reader t (RDone None) s
          | WouldBlock => set_reader t (if hangup then RDone None else RWait) s
          end
  | Some RWait =>
      if read_ready (pty s) then Ret (set_reader t RRead s)
      else
        q ← Pipe.enrol (input_wq (pty s)) t;
        Ret (set_reader t RParked (with_pty s (with_queues (pty s) q (output_wq (pty s)) (slave_write_wq (pty s)))))
  | _ => Ret s
  end.

Definition key_in (s : Session) (data : list Z) : outcome Session :=
  '(_, notif, p) ← master_write (pty s) data; Ret (flush_all notif (with_pty s p)).

Definition hang_up (s : Session) : Session :=
  let '(notif, p) := close_master (pty s) in flush_all notif (with_pty s p).

End Pty.
