(* ===== verification/PtySafety.v ===== *)
(** * Pseudo-terminals do what a terminal does

    A terminal over plain lists, which the rings and loops of the kernel
    implement; the bounds of its queues; line editing; and what a blocked
    reader can rely on. *)

From S2P Require Import Prelude ByteRing Pipe Pty.

Module PtySafety.

Import Pty.

Opaque PTY_OUTPUT_CAPACITY PTY_INPUT_CAPACITY.

(** ** The terminal over lists *)

Record Tty := mk_tty {
  t_in : list Z; t_out : list Z; t_disc : LineDiscipline; t_eof : bool;
  t_masters : nat; t_slaves : nat; t_cm : bool; t_cs : bool; t_pgid : option Z; t_cols : Z; t_rows : Z;
  t_pollers : list (Z * PtySide * Z); t_next_key : Z
}.

(** What a byte of output costs to store, and what is stored for it. *)
Definition cost (post : bool) (b : Z) : nat := if post && (b =? NL) then 2%nat else 1%nat.
Definition onlcr (post : bool) (data : list Z) : list Z := flat_map (λ b, if post && (b =? NL) then [CR; NL] else [b]) data.

(** How much of [data] fits whole in [room]. *)
Fixpoint longest (post : bool) (room : nat) (data : list Z) : nat :=
  match data with
  | [] => 0
  | b :: data => if (cost post b <=? room)%nat then S (longest post (room - cost post b) data) else 0%nat
  end.

Definition tty_echo (d : LineDiscipline) (out bytes : list Z) : list Z :=
  if echo_on d && (length bytes <=? PTY_OUTPUT_CAPACITY - length out)%nat then out ++ bytes else out.

(** A key: the action, the discipline, and the two queues. *)
Definition tty_key (d : LineDiscipline) (b : Z) (inp out : list Z) : LineAction * LineDiscipline * list Z * list Z :=
  let full := (PTY_INPUT_CAPACITY <=? length inp + length (line_buf d))%nat in
  let joins := (ANone, set_line d (line_buf d ++ [b]), inp, tty_echo d out [b]) in
  if b =? 0x03 then (AInterrupt, set_line d [], inp, tty_echo d out [94; 67; NL])
  else if b =? 0x1a then (ASuspend, set_line d [], inp, tty_echo d out [94; 90; NL])
  else if negb (b =? 0x04) && full then (ANone, d, inp, out)
  else if negb (canonical d) then (ANone, d, inp ++ [b], tty_echo d out [b])
  else if (b =? CR) || (b =? NL) then
    (ANone, set_line d [], inp ++ line_buf d ++ [NL], tty_echo d out (if opost d then [CR; NL] else [NL]))
  else if (b =? 0x7F) || (b =? 0x08) then
    match line_buf d with
    | [] => (ANone, d, inp, out)
    | _ => (ANone, set_line d (removelast (line_buf d)), inp, tty_echo d out [8; 32; 8])
    end
  else if b =? 0x04 then
    match line_buf d with
    | [] => (AEof, d, inp, out)
    | _ => (ANone, set_line d [], inp ++ line_buf d, out)
    end
  else if b =? 9 then joins else if b =? 0x1B then joins else if 0x20 <=? b then joins
  else (ANone, d, inp, out).

Fixpoint tty_feed (data : list Z) (t : Tty) (sg : option (Z * Z)) : Tty * option (Z * Z) :=
  match data with
  | [] => (t, sg)
  | b :: data =>
      let '(act, d, i, o) := tty_key (t_disc t) b (t_in t) (t_out t) in
      tty_feed data
        (mk_tty i o d (match act with AEof => true | _ => t_eof t end) (t_masters t) (t_slaves t) (t_cm t) (t_cs t) (t_pgid t) (t_cols t) (t_rows t) (t_pollers t) (t_next_key t))
        (match act with
         | AInterrupt => (λ g, (g, SIGINT)) <$> t_pgid t
         | ASuspend => (λ g, (g, SIGTSTP)) <$> t_pgid t
         | _ => sg
         end)
  end.

Inductive op :=
| KeyIn (data : list Z)
| MasterRead (n : nat)
| SlaveWrite (data : list Z)
| SlaveRead (n : nat)
| Ioctl (request arg : Z)
| SetGroup (pgid : Z)
| GetGroup
| Dup (side : PtySide)
| CloseMaster
| CloseSlave (owner_pgid : Z)
| Register (side : PtySide) (entry : Z) (interests : PollState)
| Unregister (key : Z).

Inductive answer :=
| RCount (n : nat)
| RBytes (l : list Z)
| RWrote (n : option nat)
| RSlave (r : PtySlaveRead)
| RIoctl (r : result unit Z)
| RGroup (g : Z)
| RRegistered (state : PollState) (key : option Z)
| RUnit.

(** What an operation gives: its answer, what each registered poller is told,
    and the signal sent to the foreground group. *)
Definition response : Type := answer * list (Z * PollState) * option (Z * Z).

Definition tty_set (t : Tty) (i o : list Z) (d : LineDiscipline) (e : bool) : Tty :=
  mk_tty i o d e (t_masters t) (t_slaves t) (t_cm t) (t_cs t) (t_pgid t) (t_cols t) (t_rows t) (t_pollers t) (t_next_key t).
Definition tty_ends (t : Tty) (m s : nat) (cm cs : bool) (g : option Z) : Tty :=
  mk_tty (t_in t) (t_out t) (t_disc t) (t_eof t) m s cm cs g (t_cols t) (t_rows t) (t_pollers t) (t_next_key t).
Definition tty_size (t : Tty) (c r : Z) : Tty :=
  mk_tty (t_in t) (t_out t) (t_disc t) (t_eof t) (t_masters t) (t_slaves t) (t_cm t) (t_cs t) (t_pgid t) c r (t_pollers t) (t_next_key t).
Definition tty_polls (t : Tty) (l : list (Z * PtySide * Z)) (k : Z) : Tty :=
  mk_tty (t_in t) (t_out t) (t_disc t) (t_eof t) (t_masters t) (t_slaves t) (t_cm t) (t_cs t) (t_pgid t) (t_cols t) (t_rows t) l k.
Definition tty_mode (t : Tty) (on : bool) : Tty := tty_set t (t_in t) (t_out t) (mk_ld on on on (line_buf (t_disc t))) (t_eof t).

Definition nonempty (l : list Z) : bool := match l with [] => false | _ => true end.

(** What a poller of each end is to see. *)
Definition tty_state (t : Tty) (side : PtySide) : PollState :=
  match side with
  | Master => Pipe.mk_poll (nonempty (t_out t) || t_cs t) ((0 <? t_slaves t)%nat && negb (t_cs t)) false (t_cs t && negb (nonempty (t_out t))) false
  | Slave =>
      Pipe.mk_poll (nonempty (t_in t) || t_cm t || t_eof t)
        ((0 <? t_masters t)%nat && negb (t_cm t) && (length (t_out t) + 2 <=? PTY_OUTPUT_CAPACITY)%nat) false (t_cm t && negb (nonempty (t_in t))) false
  end.

(** Every registered poller is told the state of its end. *)
Definition told (t : Tty) : list (Z * PollState) := (λ e, (e.2, tty_state t e.1.2)) <$> t_pollers t.

Definition tty_ioctl (t : Tty) (request arg : Z) : result unit Z * Tty :=
  if request =? PTY_IOCTL_SET_WINSIZE then
    let c := arg mod 65536 in
    let r := arg / 65536 mod 65536 in
    if (c =? 0) || (r =? 0) then (Err (), t) else (Ok 0, tty_size t c r)
  else if request =? PTY_IOCTL_GET_WINSIZE then (Ok (t_rows t * 65536 + t_cols t), t)
  else if request =? PTY_IOCTL_SET_RAW then (Ok 0, tty_mode t false)
  else if request =? PTY_IOCTL_SET_CANONICAL then (Ok 0, tty_mode t true)
  else if request =? PTY_IOCTL_GET_MODE then (Ok (if canonical (t_disc t) then 1 else 0), t)
  else (Err (), t).

(** An operation that changed something tells the pollers of the new state. *)
Definition changed (r : answer) (t : Tty) : response * Tty := ((r, told t, None), t).
Definition quiet (r : answer) (t : Tty) : response * Tty := ((r, [], None), t).

Definition tty_exec (t : Tty) (o : op) : response * Tty :=
  match o with
  | KeyIn [] => quiet (RCount 0) t
  | KeyIn data => let '(t', sg) := tty_feed data t None in ((RCount (length data), told t', sg), t')
  | MasterRead n =>
      let bytes := take n (t_out t) in
      let t' := tty_set t (t_in t) (drop n (t_out t)) (t_disc t) (t_eof t) in
      (if nonempty bytes then changed else quiet) (RBytes bytes) t'
  | SlaveWrite data =>
      if t_cm t then quiet (RWrote None) t
      else
        let n := longest (opost (t_disc t)) (PTY_OUTPUT_CAPACITY - length (t_out t)) data in
        let t' := tty_set t (t_in t) (t_out t ++ onlcr (opost (t_disc t)) (take n data)) (t_disc t) (t_eof t) in
        (if (n =? 0)%nat then quiet else changed) (RWrote (Some n)) t'
  | SlaveRead n =>
      match t_in t with
      | [] => if t_eof t then changed (RSlave Eof) (tty_set t [] (t_out t) (t_disc t) false) else quiet (RSlave WouldBlock) t
      | l =>
          match n with
          | O => quiet (RSlave WouldBlock) t
          | _ => changed (RSlave (Data (take n l))) (tty_set t (drop n l) (t_out t) (t_disc t) (t_eof t))
          end
      end
  | Ioctl request arg => let '(r, t') := tty_ioctl t request arg in quiet (RIoctl r) t'
  | SetGroup g => quiet RUnit (tty_ends t (t_masters t) (t_slaves t) (t_cm t) (t_cs t) (Some g))
  | GetGroup => quiet (RGroup (default 0 (t_pgid t))) t
  | Dup Master => quiet RUnit (tty_ends t (S (t_masters t)) (t_slaves t) (t_cm t) (t_cs t) (t_pgid t))
  | Dup Slave => quiet RUnit (tty_ends t (t_masters t) (S (t_slaves t)) (t_cm t) (t_cs t) (t_pgid t))
  | CloseMaster =>
      let m := (t_masters t - 1)%nat in
      changed RUnit (tty_ends t m (t_slaves t) (t_cm t || (m =? 0)%nat) (t_cs t) (t_pgid t))
  | CloseSlave g =>
      let s := (t_slaves t - 1)%nat in
      let pg := match t_pgid t with Some g' => if g' =? g then None else Some g' | None => None end in
      changed RUnit (tty_ends t (t_masters t) s (t_cm t) (t_cs t || (s =? 0)%nat) pg)
  | Register side entry interests =>
      let state := tty_state t side in
      if Pipe.matches state interests then quiet (RRegistered state None) t
      else quiet (RRegistered state (Some (t_next_key t)))
             (tty_polls t (t_pollers t ++ [(t_next_key t, side, entry)]) (Z.max 1 (wrap 64 (t_next_key t + 1))))
  | Unregister key => quiet RUnit (tty_polls t (filter (λ e, e.1.1 ≠ key) (t_pollers t)) (t_next_key t))
  end.

(** The same operations on the kernel's terminal, with what the flush of the
    notifications tells and signals. *)
Definition sent (n : PtyNotifications) (p : Pty) : list (Z * PollState) * option (Z * Z) :=
  let '(told, _, sg, _) := flush (λ _, true) n p in (told, sg).
Definition flushed (r : answer) (n : PtyNotifications) (p : Pty) : response * Pty :=
  let '(l, sg) := sent n p in ((r, l, sg), p).

Definition pty_exec (p : Pty) (o : op) : outcome (response * Pty) :=
  match o with
  | KeyIn data => '(n, notif, p) ← master_write p data; Ret (flushed (RCount n) notif p)
  | MasterRead n => '(bytes, notif, p) ← master_read p n; Ret (flushed (RBytes bytes) notif p)
  | SlaveWrite data => '(n, notif, p) ← slave_write p data; Ret (flushed (RWrote n) notif p)
  | SlaveRead n => '(r, notif, p) ← slave_read p n; Ret (flushed (RSlave r) notif p)
  | Ioctl request arg => let '(r, p) := ioctl_with p request arg in Ret (flushed (RIoctl r) EMPTY p)
  | SetGroup g => Ret (flushed RUnit EMPTY (tcsetpgrp p g))
  | GetGroup => Ret (flushed (RGroup (tcgetpgrp p)) EMPTY p)
  | Dup side => Ret (flushed RUnit EMPTY (dup_end p side))
  | CloseMaster => let '(n, p) := close_master p in Ret (flushed RUnit n p)
  | CloseSlave g => let '(n, p) := close_slave_fd p g in Ret (flushed RUnit n p)
  | Register side entry interests => let '(state, key, p) := register p side entry interests in Ret (flushed (RRegistered state key) EMPTY p)
  | Unregister key => Ret (flushed RUnit EMPTY (remove_poller p key))
  end.

Definition abs (p : Pty) : Tty :=
  mk_tty (ByteRing.contents (input_buf p)) (ByteRing.contents (output_buf p)) (line_disc p) (eof_pending p)
    (masters p) (slaves p) (closed_master p) (closed_slave p) (foreground_pgid p) (cols p) (rows p) (pollers p) (next_poll_key p).

Definition wf (p : Pty) : Prop := ByteRing.wf (input_buf p) ∧ ByteRing.wf (output_buf p).

(** The window size is two 16-bit numbers. *)
Definition sized (p : Pty) : Prop := 0 <= cols p < 65536 ∧ 0 <= rows p < 65536.

(** ** Output *)

Lemma onlcr_app post a b : onlcr post (a ++ b) = onlcr post a ++ onlcr post b.
Proof. unfold onlcr. apply flat_map_app. Qed.

Lemma onlcr_cons post b data : onlcr post (b :: data) = (if post && (b =? NL) then [CR; NL] else [b]) ++ onlcr post data.
Proof. done. Qed.

(** Nothing to translate. *)
Definition plain (post : bool) (data : list Z) : Prop := post = false ∨ existsb (Z.eqb NL) data = false.

Lemma plain_cons post b data : plain post (b :: data) → post && (b =? NL) = false ∧ plain post data.
Proof.
  intros [->|Hp]; [split; [done|by left]|]. cbn [existsb] in Hp. apply orb_false_iff in Hp as [Hb Hp]. rewrite Z.eqb_sym, Hb, andb_false_r. split; [done|by right].
Qed.

Lemma onlcr_plain post data : plain post data → onlcr post data = data.
Proof. induction data as [|b data IH]; [done|]. intros [E Hp]%plain_cons. by rewrite onlcr_cons, E, IH. Qed.

Lemma plain_take post data : ∀ n, plain post data → plain post (take n data).
Proof.
  intros n [?|Hp]; [by left|]. right. revert n. induction data as [|b data IH]; intros [|n]; try done. cbn [existsb take] in *.
  apply orb_false_iff in Hp as [-> Hp]. by rewrite IH.
Qed.

Lemma longest_plain post room data : plain post data → longest post room data = Nat.min (length data) room.
Proof.
  revert room. induction data as [|b data IH]; intros room; [done|]. intros [E Hp]%plain_cons. cbn [longest length]. unfold cost. rewrite E.
  rewrite IH by done. destruct (Nat.leb_spec 1 room); lia.
Qed.

Lemma fit_end_spec data : ∀ c room i, (c <= room)%nat → fit_end data c room i = (i + longest true (room - c) data)%nat.
Proof.
  induction data as [|b data IH]; intros c room i Hc; cbn [fit_end longest]; [lia|].
  change (if b =? NL then 2%nat else 1%nat) with (cost true b).
  destruct (Nat.ltb_spec room (c + cost true b)), (Nat.leb_spec (cost true b) (room - c)); try lia.
  rewrite IH by lia. replace (room - (c + cost true b))%nat with (room - c - cost true b)%nat by lia. lia.
Qed.

Lemma emit_spec todo : ∀ run out, ByteRing.wf out →
  ∃ out', emit todo run out = Ret out' ∧ ByteRing.wf out' ∧ ByteRing.contents out' = ByteRing.contents out ++ run ++ onlcr true todo.
Proof.
  induction todo as [|b todo IH]; intros run out Hw; cbn [emit].
  - destruct (ByteRing.push_spec out run Hw) as (r & -> & Hr & Hc). exists r. split; [done|]. split; [done|]. cbn. by rewrite app_nil_r.
  - rewrite onlcr_cons. cbn [andb]. destruct (Z.eqb_spec b NL) as [->|].
    + destruct (ByteRing.push_spec out run Hw) as (r & -> & Hr & Hc). cbn [mbind outcome_bind].
      destruct (ByteRing.push_spec r [CR; NL] Hr) as (r' & -> & Hr' & Hc'). cbn [mbind outcome_bind].
      destruct (IH [] r' Hr') as (o & -> & Ho & Hco). exists o. split; [done|]. split; [done|]. rewrite Hco, Hc', Hc. by rewrite <- !app_assoc.
    + destruct (IH (run ++ [b]) out Hw) as (o & -> & Ho & Hco). exists o. split; [done|]. split; [done|]. rewrite Hco. by rewrite <- !app_assoc.
Qed.

Lemma write_output_spec d data out room : ByteRing.wf out → let n := longest (opost d) room data in
  ∃ out', write_output d data out room = Ret (n, out') ∧ ByteRing.wf out' ∧ ByteRing.contents out' = ByteRing.contents out ++ onlcr (opost d) (take n data).
Proof.
  intros Hw. cbn zeta. unfold write_output. destruct (opost d) eqn:Ep; cbn [negb orb].
  - destruct (existsb (Z.eqb NL) data) eqn:En; cbn [negb].
    + rewrite fit_end_spec by lia. rewrite Nat.sub_0_r. cbn [plus]. destruct (emit_spec (take (longest true room data) data) [] out Hw) as (o & -> & Ho & Hc).
      cbn [mbind outcome_bind]. by exists o.
    + rewrite longest_plain by (by right). destruct (ByteRing.push_spec out (take (Nat.min (length data) room) data) Hw) as (o & -> & Ho & Hc). cbn [mbind outcome_bind].
      exists o. split; [done|]. split; [done|]. rewrite Hc, onlcr_plain; [done|]. apply plain_take. by right.
  - rewrite longest_plain by (by left). destruct (ByteRing.push_spec out (take (Nat.min (length data) room) data) Hw) as (o & -> & Ho & Hc). cbn [mbind outcome_bind].
    exists o. split; [done|]. split; [done|]. rewrite Hc, onlcr_plain; [done|by left].
Qed.

(** ** Input *)

Lemma echo_spec d out bytes : ByteRing.wf out →
  ∃ out', echo_if d out bytes = Ret out' ∧ ByteRing.wf out' ∧ ByteRing.contents out' = tty_echo d (ByteRing.contents out) bytes.
Proof.
  intros Hw. unfold echo_if, tty_echo, echo. rewrite ByteRing.length_contents. destruct (echo_on d); cbn [andb]; [|by exists out].
  destruct (length bytes <=? _)%nat; [|by exists out]. by apply ByteRing.push_spec.
Qed.

Definition key_result (r : outcome (LineAction * LineDiscipline * ByteRing.ByteRing * ByteRing.ByteRing)) (k : LineAction * LineDiscipline * list Z * list Z) : Prop :=
  ∃ act d i o, r = Ret (act, d, i, o) ∧ ByteRing.wf i ∧ ByteRing.wf o ∧ k = (act, d, ByteRing.contents i, ByteRing.contents o).

Ltac ring_step :=
  match goal with
  | |- context [echo_if ?d ?o ?b] =>
      let o' := fresh "o" in let Ho := fresh "Ho" in let Hc := fresh "Hc" in
      destruct (echo_spec d o b) as (o' & -> & Ho & Hc); [done|]; cbn [mbind outcome_bind]; rewrite <- ?Hc
  | |- context [ByteRing.push ?r ?l] =>
      let r' := fresh "r" in let Hr := fresh "Hr" in let Hc := fresh "Hc" in
      destruct (ByteRing.push_spec r l) as (r' & -> & Hr & Hc); [done|]; cbn [mbind outcome_bind]; rewrite <- ?Hc
  end.

Lemma process_input_spec d b i o : ByteRing.wf i → ByteRing.wf o →
  key_result (process_input d b i o) (tty_key d b (ByteRing.contents i) (ByteRing.contents o)).
Proof.
  intros Hi Ho. unfold process_input, tty_key, line_byte. rewrite !ByteRing.length_contents.
  repeat match goal with |- context [if ?c then _ else _] => lazymatch c with context [opost] => fail | _ => destruct c end end;
    try destruct (line_buf d) eqn:El; repeat ring_step; by do 4 eexists.
Qed.
Lemma feed_spec data : ∀ p sg, wf p → ∃ p' sg', feed data p sg = Ret (p', sg') ∧ wf p' ∧ tty_feed data (abs p) sg = (abs p', sg').
Proof.
  induction data as [|b data IH]; intros p sg Hw; cbn [feed tty_feed]; [by exists p, sg|].
  destruct (process_input_spec (line_disc p) b _ _ (proj1 Hw) (proj2 Hw)) as (act & d & i & o & -> & Hi & Ho & Ek).
  cbn [mbind outcome_bind]. cbn [abs t_disc t_in t_out t_eof t_masters t_slaves t_cm t_cs t_pgid t_cols t_rows t_pollers t_next_key]. rewrite Ek.
  apply (IH (with_io p i o d _)). done.
Qed.

Lemma feed_size data : ∀ p sg p' sg', feed data p sg = Ret (p', sg') → cols p' = cols p ∧ rows p' = rows p.
Proof.
  induction data as [|b data IH]; intros p sg p' sg'; cbn [feed]; [by intros [= <- <-]|].
  destruct (process_input _ _ _ _) as [[[[act d] i] o]|]; [|done]. cbn [mbind outcome_bind]. intros H%IH. exact H.
Qed.

Lemma is_empty_contents r : ByteRing.is_empty r = match ByteRing.contents r with [] => true | _ => false end.
Proof.
  unfold ByteRing.is_empty. rewrite <- ByteRing.length_contents. by destruct (ByteRing.contents r).
Qed.

Lemma poll_state_spec p side : tty_state (abs p) side = match side with Master => poll_state_master p | Slave => poll_state_slave p end.
Proof.
  destruct side; unfold poll_state_master, poll_state_slave, output_space, PTY_OUTPUT_MIN_WRITE; rewrite is_empty_contents;
    cbn [tty_state abs t_in t_out t_eof t_masters t_slaves t_cm t_cs].
  - by destruct (ByteRing.contents (output_buf p)).
  - rewrite ByteRing.length_contents. replace (ByteRing.len (output_buf p) + 2 <=? PTY_OUTPUT_CAPACITY)%nat with (2 <=? PTY_OUTPUT_CAPACITY - ByteRing.len (output_buf p))%nat.
    + by destruct (ByteRing.contents (input_buf p)).
    + apply eq_true_iff_eq. rewrite !Nat.leb_le. lia.
Qed.

(** Flushing what an operation notified tells every poller its state. *)
Lemma flushed_signal r p sg : flushed r (with_signal (notify_pollers p) sg) p = ((r, told (abs p), sg), p).
Proof.
  unfold flushed, sent, flush. destruct (if wake_input _ then _ else _), (if wake_output _ then _ else _), (if wake_slave_writer _ then _ else _).
  do 3 f_equal. cbn [with_signal entries notify_pollers master_state slave_state]. unfold told. rewrite <- list_fmap_compose. cbn [abs t_pollers].
  apply list_fmap_ext. intros i [[k side] e] _. cbn. f_equal. rewrite poll_state_spec. by destruct side.
Qed.

Lemma flushed_changed r p : flushed r (notify_pollers p) p = ((r, told (abs p), None), p).
Proof. exact (flushed_signal r p None). Qed.

Lemma flushed_quiet r p : flushed r EMPTY p = ((r, [], None), p).
Proof. done. Qed.

(** The kernel's operation gives the response of the terminal over lists and
    ends in the state that stands for its state. *)
Definition simulates (x : outcome (response * Pty)) (y : response * Tty) : Prop :=
  ∃ r p, x = Ret (r, p) ∧ wf p ∧ sized p ∧ y = (r, abs p).

Lemma simulates_quiet r p : wf p → sized p → simulates (Ret (flushed r EMPTY p)) (quiet r (abs p)).
Proof. intros Hw Hs. rewrite flushed_quiet. by eexists _, p. Qed.

Lemma simulates_changed r p : wf p → sized p → simulates (Ret (flushed r (notify_pollers p) p)) (changed r (abs p)).
Proof. intros Hw Hs. rewrite flushed_changed. by eexists _, p. Qed.

Lemma key_simulates p data : wf p → sized p → simulates (pty_exec p (KeyIn data)) (tty_exec (abs p) (KeyIn data)).
Proof.
  intros Hw Hs. cbn [pty_exec tty_exec]. unfold master_write. destruct data as [|b data]; [by apply simulates_quiet|].
  destruct (feed_spec (b :: data) p None Hw) as (p' & sg & Ef & Hw' & ->). rewrite Ef. cbn [mbind outcome_bind]. rewrite flushed_signal.
  eexists _, p'. split; [done|]. split; [done|]. split; [|done]. destruct (feed_size _ _ _ _ _ Ef) as [E1 E2]. unfold sized. by rewrite E1, E2.
Qed.

Lemma master_read_simulates p n : wf p → sized p → simulates (pty_exec p (MasterRead n)) (tty_exec (abs p) (MasterRead n)).
Proof.
  intros [Hi Ho] Hs. cbn [pty_exec tty_exec]. unfold master_read. destruct (ByteRing.pop_spec (output_buf p) n Ho) as (r & -> & Hr & Hc). cbn [mbind outcome_bind].
  set (p' := with_io p (input_buf p) r (line_disc p) (eof_pending p)).
  assert (E : tty_set (abs p) (t_in (abs p)) (drop n (t_out (abs p))) (t_disc (abs p)) (t_eof (abs p)) = abs p') by (unfold abs, tty_set; cbn; by rewrite Hc).
  rewrite E. cbn [abs t_out]. destruct (take n (ByteRing.contents (output_buf p))) as [|x l]; cbn [nonempty length Nat.eqb].
  - by apply simulates_quiet.
  - by apply simulates_changed.
Qed.

Lemma slave_write_simulates p data : wf p → sized p → simulates (pty_exec p (SlaveWrite data)) (tty_exec (abs p) (SlaveWrite data)).
Proof.
  intros [Hi Ho] Hs. cbn [pty_exec tty_exec]. unfold slave_write. cbn [abs t_cm]. fold (abs p).
  destruct (closed_master p) eqn:Ec; [by apply simulates_quiet|]. destruct data as [|b data].
  - cbn [longest Nat.eqb mbind outcome_bind take]. assert (E : tty_set (abs p) (t_in (abs p)) (t_out (abs p) ++ onlcr (opost (t_disc (abs p))) []) (t_disc (abs p)) (t_eof (abs p)) = abs p) by (unfold abs, tty_set; cbn; by rewrite app_nil_r).
    rewrite E. by apply simulates_quiet.
  - destruct (write_output_spec (line_disc p) (b :: data) (output_buf p) (output_space p) Ho) as (r & -> & Hr & Hc). cbn [mbind outcome_bind].
    set (p' := with_io p (input_buf p) r (line_disc p) (eof_pending p)). unfold output_space in *. cbn [abs t_disc t_out]. fold (abs p). rewrite ByteRing.length_contents.
    set (n := longest _ _ _) in *.
    assert (E : tty_set (abs p) (t_in (abs p)) (ByteRing.contents (output_buf p) ++ onlcr (opost (line_disc p)) (take n (b :: data))) (line_disc p) (t_eof (abs p)) = abs p') by (unfold abs, tty_set; cbn [p' with_io t_in t_out t_disc t_eof t_masters t_slaves t_cm t_cs t_pgid t_cols t_rows t_pollers t_next_key
        input_buf output_buf line_disc eof_pending masters slaves closed_master closed_slave foreground_pgid cols rows pollers next_poll_key]; by rewrite Hc).
    rewrite E. destruct (n =? 0)%nat; [by apply simulates_quiet|by apply simulates_changed].
Qed.

Lemma slave_read_simulates p n : wf p → sized p → simulates (pty_exec p (SlaveRead n)) (tty_exec (abs p) (SlaveRead n)).
Proof.
  intros [Hi Ho] Hs. cbn [pty_exec tty_exec]. unfold slave_read. rewrite is_empty_contents. cbn [abs t_in t_eof]. fold (abs p).
  destruct (ByteRing.pop_spec (input_buf p) n Hi) as (r & Ep & Hr & Hc). rewrite Ep. set (p' := with_io p r (output_buf p) (line_disc p) (eof_pending p)).
  destruct (ByteRing.contents (input_buf p)) as [|x l] eqn:El; cbn [andb].
  - destruct (eof_pending p) eqn:Ee; cbn [mbind outcome_bind].
    + set (q := with_io p _ _ _ false). assert (E : tty_set (abs p) [] (t_out (abs p)) (t_disc (abs p)) false = abs q) by (unfold abs, tty_set; cbn; by rewrite El).
      rewrite E. by apply simulates_changed.
    + rewrite take_nil. cbn [length Nat.eqb]. assert (E : abs p = abs p') by (unfold abs; cbn; by rewrite Hc, El, drop_nil, Ee). rewrite E. by apply simulates_quiet.
  - cbn [mbind outcome_bind]. destruct n as [|n]; cbn [take length Nat.eqb].
    + assert (E : abs p = abs p') by (unfold abs; cbn; by rewrite Hc, El, drop_0). rewrite E. by apply simulates_quiet.
    + assert (E : tty_set (abs p) (drop (S n) (x :: l)) (t_out (abs p)) (t_disc (abs p)) (eof_pending p) = abs p') by (unfold abs, tty_set; cbn; by rewrite Hc).
      rewrite E. by apply simulates_changed.
Qed.

Lemma ioctl_simulates p request arg : wf p → sized p → simulates (pty_exec p (Ioctl request arg)) (tty_exec (abs p) (Ioctl request arg)).
Proof.
  intros Hw Hs. pose proof Hs as [Hc Hr]. cbn [pty_exec tty_exec]. unfold ioctl_with, tty_ioctl. cbn [abs t_rows t_cols t_disc]. fold (abs p).
  change 0xFFFF with (Z.ones 16). rewrite !Z.land_ones, Z.shiftr_div_pow2 by lia. change (2 ^ 16) with 65536.
  repeat match goal with |- context [if ?c then _ else _] => destruct c; try by apply simulates_quiet end.
  - apply (simulates_quiet (RIoctl (Ok 0)) (with_size p _ _)); [done|]. split; cbn; apply Z.mod_pos_bound; lia.
  - replace (Z.lor (Z.shiftl (rows p) 16) (cols p)) with (rows p * 65536 + cols p); [by apply simulates_quiet|].
    by rewrite (lor_shiftl_add (rows p) (cols p) 16) by lia.
Qed.

Lemma close_simulates p g : wf p → sized p →
  simulates (pty_exec p CloseMaster) (tty_exec (abs p) CloseMaster) ∧ simulates (pty_exec p (CloseSlave g)) (tty_exec (abs p) (CloseSlave g)).
Proof.
  intros Hw Hs. split; cbn [pty_exec tty_exec]; unfold close_slave_fd, close_master, close_slave.
  - set (p' := with_ends _ _ _ _ _). match goal with |- simulates _ (changed _ ?t) => assert (E : t = abs p') end; [|rewrite E; by apply simulates_changed].
    unfold tty_ends, abs. cbn. f_equal. by destruct (_ =? 0)%nat, (closed_master p).
  - set (q := if bool_decide _ then _ else _). set (p' := with_ends q _ _ _ _). match goal with |- simulates _ (changed _ ?t) => assert (E : t = abs p') end.
    + unfold tty_ends, abs. subst p' q. cbn. case_bool_decide as Eg; cbn; [rewrite Eg, Z.eqb_refl; by destruct (_ =? 0)%nat, (closed_slave p)|].
      f_equal; [by destruct (_ =? 0)%nat, (closed_slave p)|]. destruct (foreground_pgid p) as [g'|]; [|done]. rewrite (proj2 (Z.eqb_neq g' g)); [done|congruence].
    + rewrite E. apply simulates_changed; subst p' q; by case_bool_decide.
Qed.

Lemma register_simulates p side entry interests : wf p → sized p →
  simulates (pty_exec p (Register side entry interests)) (tty_exec (abs p) (Register side entry interests)).
Proof.
  intros Hw Hs. cbn [pty_exec tty_exec]. unfold register. rewrite poll_state_spec. set (st := match side with Master => _ | Slave => _ end).
  destruct (Pipe.matches st interests); [by apply simulates_quiet|]. cbn [add_poller]. set (p' := with_pollers _ _ _).
  match goal with |- simulates _ (quiet _ ?t) => assert (E : t = abs p') by (unfold tty_polls, abs; cbn; by rewrite Z.max_comm) end.
  rewrite E. by apply simulates_quiet.
Qed.

Lemma unregister_simulates p key : wf p → sized p → simulates (pty_exec p (Unregister key)) (tty_exec (abs p) (Unregister key)).
Proof.
  intros Hw Hs. cbn [pty_exec tty_exec]. match goal with |- simulates _ (quiet _ ?t) => assert (E : t = abs (remove_poller p key)) end; [|rewrite E; by apply simulates_quiet].
  unfold tty_polls, abs, remove_poller. cbn. f_equal. induction (pollers p) as [|e l IH]; [done|]. rewrite filter_cons. cbn [List.filter]. unfold PollKey, PollRef in *.
  destruct (Z.eq_dec e.1.1 key) as [E|E].
  - rewrite (proj2 (Z.eqb_eq _ _) E), decide_False by (by intros ?). exact IH.
  - rewrite (proj2 (Z.eqb_neq _ _) E), decide_True by done. cbn [negb]. by rewrite IH.
Qed.

Lemma pty_exec_spec p o : wf p → sized p → simulates (pty_exec p o) (tty_exec (abs p) o).
Proof.
  intros Hw Hs. destruct o as [data|n|data|n|req arg|g| |side| |g|side e i|k].
  - by apply key_simulates.
  - by apply master_read_simulates.
  - by apply slave_write_simulates.
  - by apply slave_read_simulates.
  - by apply ioctl_simulates.
  - by apply (simulates_quiet RUnit (tcsetpgrp p g)).
  - by apply simulates_quiet.
  - destruct side; [by apply (simulates_quiet RUnit (dup_end p Master))|by apply (simulates_quiet RUnit (dup_end p Slave))].
  - by apply (close_simulates p 0).
  - by apply (close_simulates p g).
  - by apply register_simulates.
  - by apply unregister_simulates.
Qed.

Fixpoint pty_run (p : Pty) (ops : list op) : outcome (list response * Pty) :=
  match ops with
  | [] => Ret ([], p)
  | o :: ops => '(r, p) ← pty_exec p o; '(rs, p) ← pty_run p ops; Ret (r :: rs, p)
  end.

Fixpoint tty_run (t : Tty) (ops : list op) : list response * Tty :=
  match ops with
  | [] => ([], t)
  | o :: ops => let '(r, t) := tty_exec t o in let '(rs, t) := tty_run t ops in (r :: rs, t)
  end.

Lemma pty_run_spec ops : ∀ p, wf p → sized p →
  ∃ rs p', pty_run p ops = Ret (rs, p') ∧ (wf p' ∧ sized p') ∧ tty_run (abs p) ops = (rs, abs p').
Proof.
  induction ops as [|o ops IH]; intros p Hw Hs; cbn [pty_run tty_run]; [by exists [], p|].
  destruct (pty_exec_spec p o Hw Hs) as (r & p1 & -> & Hw1 & Hs1 & ->). cbn [mbind outcome_bind].
  destruct (IH p1 Hw1 Hs1) as (rs & p2 & -> & Hw2 & ->). cbn [mbind outcome_bind]. by exists (r :: rs), p2.
Qed.

Lemma pty_new_wf : wf new.
Proof. split; apply ByteRing.new_wf. Qed.

Lemma pty_new_sized : sized new.
Proof. done. Qed.

(** C18 A pseudo-terminal is a terminal. From any terminal whose rings are well
    formed and whose window size is two 16-bit numbers, for every sequence of
    operations of both sides, in any order (keys, reads, writes, every ioctl,
    handing the terminal to a process group, duplicating and closing either
    end, registering and removing pollers), the kernel's terminal never panics
    and gives exactly the responses of the terminal over plain lists: reads
    take the oldest bytes in order, a write takes the longest prefix whose
    translation fits whole and stores exactly its translation, keys edit the
    line, deliver it, end the input or signal the foreground group (of several
    signals typed in one write the last), and every registered poller is told
    the state of its end after each change. Which blocked threads are woken is
    not part of the response. *)
Theorem pty_refines_tty p ops : wf p → sized p →
  ∃ rs p', pty_run p ops = Ret (rs, p') ∧ (wf p' ∧ sized p') ∧ tty_run (abs p) ops = (rs, abs p').
Proof. apply pty_run_spec. Qed.

(** ** Bounds *)

Definition bounded (t : Tty) : Prop :=
  (length (t_out t) <= PTY_OUTPUT_CAPACITY)%nat ∧ (length (t_in t) + length (line_buf (t_disc t)) <= PTY_INPUT_CAPACITY)%nat.

(** Ctrl-D is not typed while the terminal is raw. *)
Definition no_raw_eof (t : Tty) (o : op) : Prop :=
  match o with KeyIn data => canonical (t_disc t) = true ∨ 4 ∉ data | _ => True end.

Lemma echo_bound d out bytes : (length out <= PTY_OUTPUT_CAPACITY)%nat → (length (tty_echo d out bytes) <= PTY_OUTPUT_CAPACITY)%nat.
Proof.
  intros H. unfold tty_echo. destruct (echo_on d && _) eqn:E; [|done]. apply andb_prop in E as [_ E%Nat.leb_le]. rewrite length_app. lia.
Qed.

Lemma longest_cost post data : ∀ room, (length (onlcr post (take (longest post room data) data)) <= room)%nat.
Proof.
  induction data as [|b data IH]; intros room; [cbn; lia|]. cbn [longest]. destruct (Nat.leb_spec (cost post b) room); [|cbn; lia].
  cbn [take]. rewrite onlcr_cons, length_app. specialize (IH (room - cost post b)%nat). unfold cost in *. destruct (post && _); cbn [length] in *; lia.
Qed.

Lemma length_removelast (l : list Z) : length (removelast l) = (length l - 1)%nat.
Proof. induction l as [|x [|y l] IH]; [done|done|]. cbn [removelast length] in *. lia. Qed.

Lemma key_bounds d b i o act d' i' o' : tty_key d b i o = (act, d', i', o') →
  (length o <= PTY_OUTPUT_CAPACITY)%nat → (length i + length (line_buf d) <= PTY_INPUT_CAPACITY)%nat → (canonical d = true ∨ b ≠ 4) →
  (length o' <= PTY_OUTPUT_CAPACITY)%nat ∧ (length i' + length (line_buf d') <= PTY_INPUT_CAPACITY)%nat ∧ canonical d' = canonical d.
Proof.
  unfold tty_key. intros E Ho Hi Hm. pose proof (echo_bound d o) as He. cbn zeta in E.
  destruct (b =? 0x03); [injection E as <- <- <- <-; cbn; split; [auto|split; [lia|done]]|].
  destruct (b =? 0x1a); [injection E as <- <- <- <-; cbn; split; [auto|split; [lia|done]]|].
  destruct (negb (b =? 0x04) && _) eqn:Ef; [by injection E as <- <- <- <-|].
  destruct (canonical d) eqn:Ec; cbn [negb] in E.
  2:{ destruct Hm as [?|Hm]; [done|]. rewrite (proj2 (Z.eqb_neq b 4)) in Ef by done. cbn in Ef. apply Nat.leb_gt in Ef. injection E as <- <- <- <-. rewrite length_app. cbn. split; [auto|split; [lia|done]]. }
  destruct ((b =? CR) || (b =? NL)) eqn:En.
  { assert (b ≠ 4) by (unfold CR, NL in En; lia). rewrite (proj2 (Z.eqb_neq b 4)) in Ef by done. cbn in Ef. apply Nat.leb_gt in Ef. injection E as <- <- <- <-. rewrite !length_app. cbn.
    split; [auto|split; [lia|done]]. }
  destruct ((b =? 0x7F) || (b =? 0x08)).
  { destruct (line_buf d) as [|x l] eqn:El; injection E as <- <- <- <-; [by rewrite El|]. cbn [set_line line_buf canonical].
    pose proof (length_removelast (x :: l)) as Hr. cbn [removelast] in Hr. split; [auto|split; [lia|done]]. }
  destruct (Z.eqb_spec b 4) as [->|Hb4].
  { destruct (line_buf d) eqn:El; injection E as <- <- <- <-; [by rewrite El|]. rewrite length_app. cbn in *. split; [auto|split; [lia|done]]. }
  cbn in Ef. apply Nat.leb_gt in Ef.
  destruct (b =? 9); [|destruct (b =? 0x1B); [|destruct (0x20 <=? b); [|by injection E as <- <- <- <-]]];
    (injection E as <- <- <- <-; cbn [set_line line_buf canonical]; rewrite length_app; cbn; split; [auto|split; [lia|done]]).
Qed.

Lemma feed_bounds data : ∀ t sg, bounded t → canonical (t_disc t) = true ∨ 4 ∉ data → bounded (tty_feed data t sg).1.
Proof.
  induction data as [|b data IH]; intros t sg Hb Hm; [done|]. cbn [tty_feed]. destruct (tty_key _ _ _ _) as [[[act d] i] o] eqn:Ek.
  assert (Hm0 : canonical (t_disc t) = true ∨ b ≠ 4) by (destruct Hm as [?|Hm]; [by left|right; intros ->; apply Hm; by left]).
  destruct (key_bounds _ _ _ _ _ _ _ _ Ek (proj1 Hb) (proj2 Hb) Hm0) as (Ho & Hi & Hc). apply IH; [done|]. cbn [t_disc].
  rewrite Hc. destruct Hm as [?|Hm]; [by left|right]. intros Hin. apply Hm. by right.
Qed.

Lemma exec_bounds t o : bounded t → no_raw_eof t o → bounded (tty_exec t o).2.
Proof.
  intros Hb Hn. pose proof Hb as [Ho Hi]. destruct o as [data|n|data|n|req arg|g| |side| |g|side e i|k]; cbn [tty_exec]; try done.
  - destruct data as [|b data]; [done|]. pose proof (feed_bounds (b :: data) t None Hb Hn) as Hf. by destruct (tty_feed (b :: data) t None).
  - match goal with |- bounded (?f ?a ?b).2 => assert (E : (f a b).2 = b) by (by destruct (nonempty _)); rewrite E end. split; cbn; [rewrite length_drop; lia|done].
  - destruct (t_cm t); [done|]. match goal with |- bounded (?f ?a ?b).2 => assert (E : (f a b).2 = b) by (by destruct (_ =? _)%nat); rewrite E end.
    split; cbn; [|done]. rewrite length_app. pose proof (longest_cost (opost (t_disc t)) data (PTY_OUTPUT_CAPACITY - length (t_out t))). lia.
  - destruct (t_in t) as [|x l] eqn:E; [destruct (t_eof t)|destruct n]; split; cbn; rewrite ?E; cbn in *; try done; rewrite ?length_drop; lia.
  - unfold tty_ioctl. repeat match goal with |- context [if ?c then _ else _] => destruct c; try done end.
  - by destruct side.
  - by destruct (Pipe.matches _ _).
Qed.

Inductive reach : Pty → Prop :=
| reach_new : reach new
| reach_op p o r p' : reach p → no_raw_eof (abs p) o → pty_exec p o = Ret (r, p') → reach p'.

Lemma reach_ok p : reach p → (wf p ∧ sized p) ∧ bounded (abs p).
Proof.
  induction 1 as [|p o r p' _ [[Hw Hs] Hb] Hn Hx]; [split; [split; [apply pty_new_wf|done]|split; cbn; lia]|].
  destruct (pty_exec_spec p o Hw Hs) as (r1 & p1 & E1 & Hw1 & Hs1 & E2). rewrite E1 in Hx. injection Hx as <- <-. split; [done|].
  pose proof (exec_bounds (abs p) o Hb Hn) as Hb'. by rewrite E2 in Hb'.
Qed.

(** C39 The queues of a terminal are bounded and its promises are kept. From a
    new terminal, over any operations among which Ctrl-D is not typed in raw
    mode (there the capacity is not checked for it, [raw_ctrl_d_unbounded]), the
    output never holds more than its capacity, echo included, nor the input and
    the unfinished line together more than theirs; and whenever a slave is told
    it can write and the master is open, a write of at least one byte moves at
    least one, translated newlines never split. *)
Theorem pty_bounded_progress p : reach p →
  (ByteRing.len (output_buf p) <= PTY_OUTPUT_CAPACITY)%nat ∧
  (ByteRing.len (input_buf p) + length (line_buf (line_disc p)) <= PTY_INPUT_CAPACITY)%nat ∧
  ∀ data, slave_write_ready p = true → closed_master p = false → data ≠ [] →
    ∃ n notif p', slave_write p data = Ret (Some n, notif, p') ∧ (0 < n)%nat ∧
      ByteRing.contents (output_buf p') = ByteRing.contents (output_buf p) ++ onlcr (opost (line_disc p)) (take n data).
Proof.
  intros [[Hw _] [Ho Hi]]%reach_ok. cbn [abs t_out t_in t_disc] in Ho, Hi. rewrite ByteRing.length_contents in Ho. rewrite ByteRing.length_contents in Hi. split; [done|]. split; [done|].
  intros data Hr Hc Hne. unfold slave_write. rewrite Hc. destruct data as [|b data]; [done|].
  destruct (write_output_spec (line_disc p) (b :: data) (output_buf p) (output_space p) (proj2 Hw)) as (o & -> & _ & Hco). cbn [mbind outcome_bind].
  eexists _, _, _. split; [done|]. split; [|exact Hco]. unfold slave_write_ready in Hr. rewrite Hc in Hr. cbn [orb] in Hr. apply Nat.leb_le in Hr.
  cbn [longest]. rewrite (proj2 (Nat.leb_le _ _)); [lia|]. unfold cost, PTY_OUTPUT_MIN_WRITE in *. destruct (_ && _); lia.
Qed.

(** ** Line editing *)

Inductive key := Char (c : Z) | Erase (b : Z).
Definition key_byte (k : key) : Z := match k with Char c => c | Erase b => b end.
Definition key_ok (k : key) : Prop :=
  match k with Char c => c = 9 ∨ c = 0x1B ∨ (32 <= c ∧ c ≠ 0x7F) | Erase b => b = 0x7F ∨ b = 0x08 end.

(** What a line reads after the keys that typed it. *)
Definition edit (line : list Z) (keys : list key) : list Z :=
  foldl (λ l k, match k with Char c => l ++ [c] | Erase _ => removelast l end) line keys.

Lemma key_edits d k inp out : canonical d = true → key_ok k → (length inp + length (line_buf d) < PTY_INPUT_CAPACITY)%nat →
  ∃ out', tty_key d (key_byte k) inp out = (ANone, set_line d (edit (line_buf d) [k]), inp, out').
Proof.
  intros Hc Hk Hf. unfold tty_key. cbn zeta. rewrite Hc. cbn [negb]. rewrite (proj2 (Nat.leb_gt _ _)) by lia. rewrite andb_false_r. unfold CR, NL.
  destruct k as [c|b]; cbn [key_byte key_ok edit foldl] in *.
  - rewrite (proj2 (Z.eqb_neq c 3)), (proj2 (Z.eqb_neq c 26)), (proj2 (Z.eqb_neq c 13)), (proj2 (Z.eqb_neq c 10)), (proj2 (Z.eqb_neq c 127)), (proj2 (Z.eqb_neq c 8)), (proj2 (Z.eqb_neq c 4)) by lia.
    cbn [orb]. destruct (Z.eqb_spec c 9); [by eexists|]. destruct (Z.eqb_spec c 27); [by eexists|]. rewrite (proj2 (Z.leb_le 32 c)) by lia. by eexists.
  - destruct Hk as [->| ->]; cbn; (destruct (line_buf d) eqn:E; [exists out; unfold set_line; cbn; rewrite <- E; by destruct d|by eexists]).
Qed.

Lemma length_edit line keys : (length (edit line keys) <= length line + length keys)%nat.
Proof.
  revert line. induction keys as [|k keys IH]; intros line; cbn; [lia|]. etransitivity; [apply IH|]. destruct k; [rewrite length_app; cbn; lia|rewrite length_removelast; lia].
Qed.

Lemma feed_keys keys : ∀ t sg, canonical (t_disc t) = true → Forall key_ok keys →
  (length (t_in t) + length (line_buf (t_disc t)) + length keys <= PTY_INPUT_CAPACITY)%nat →
  ∃ out, tty_feed (key_byte <$> keys) t sg = (tty_set t (t_in t) out (set_line (t_disc t) (edit (line_buf (t_disc t)) keys)) (t_eof t), sg).
Proof.
  induction keys as [|k keys IH]; intros t sg Hc Hk Hf; cbn [fmap list_fmap tty_feed].
  - exists (t_out t). unfold tty_set, set_line. cbn. destruct t as [? ? [] ? ? ? ? ? ? ? ? ? ?]. done.
  - apply Forall_cons in Hk as [Hk Hks]. cbn [length] in Hf. destruct (key_edits (t_disc t) k (t_in t) (t_out t) Hc Hk) as [out ->]; [lia|].
    edestruct (IH (mk_tty (t_in t) out (set_line (t_disc t) (edit (line_buf (t_disc t)) [k])) (t_eof t) (t_masters t) (t_slaves t) (t_cm t) (t_cs t) (t_pgid t) (t_cols t) (t_rows t) (t_pollers t) (t_next_key t)) sg) as [out' ->];
      [done|done| |by exists out'].
    cbn [t_in t_disc set_line line_buf]. pose proof (length_edit (line_buf (t_disc t)) [k]). cbn [length] in *. lia.
Qed.

Lemma enter_delivers d inp out : canonical d = true → (length inp + length (line_buf d) < PTY_INPUT_CAPACITY)%nat →
  ∃ out', tty_key d CR inp out = (ANone, set_line d [], inp ++ line_buf d ++ [NL], out').
Proof.
  intros Hc Hf. unfold tty_key. cbn zeta. rewrite Hc. cbn [negb]. rewrite (proj2 (Nat.leb_gt _ _)) by lia. by eexists.
Qed.

Lemma feed_app data1 : ∀ data2 t sg, tty_feed (data1 ++ data2) t sg = let '(t', sg') := tty_feed data1 t sg in tty_feed data2 t' sg'.
Proof. induction data1 as [|b data1 IH]; intros data2 t sg; [done|]. cbn [app tty_feed]. destruct (tty_key _ _ _ _) as [[[? ?] ?] ?]. apply IH. Qed.

(** C32 A line is delivered as edited. At a canonical terminal with an empty line,
    printable characters, tabs, escapes and the two erase keys (no Ctrl-D or
    other control key), fewer than 4096 of them together with the bytes not yet
    read, are not readable until Enter; then the reader gets exactly the line
    the keys leave, erasures applied, with a newline, after what it had not yet
    read, and the next line starts empty. A line that fills the capacity does
    not accept Enter ([full_line_is_stuck]), and Ctrl-D would make the keys
    readable before it. *)
Theorem line_delivered_as_edited p keys : wf p → canonical (line_disc p) = true → line_buf (line_disc p) = [] → Forall key_ok keys →
  (ByteRing.len (input_buf p) + length keys < PTY_INPUT_CAPACITY)%nat →
  (∃ p1 sg, feed (key_byte <$> keys) p None = Ret (p1, sg) ∧ ByteRing.contents (input_buf p1) = ByteRing.contents (input_buf p)) ∧
  ∃ p2 sg, feed ((key_byte <$> keys) ++ [CR]) p None = Ret (p2, sg) ∧
    ByteRing.contents (input_buf p2) = ByteRing.contents (input_buf p) ++ edit [] keys ++ [NL] ∧ line_buf (line_disc p2) = [].
Proof.
  intros Hw Hc Hl Hk Hf. destruct (feed_keys keys (abs p) None) as [out Ek]; [done|done|cbn; rewrite ByteRing.length_contents, Hl; cbn; lia|].
  split.
  - destruct (feed_spec (key_byte <$> keys) p None Hw) as (p1 & sg & -> & _ & E). exists p1, sg. split; [done|]. rewrite Ek in E. by apply (f_equal (λ x, t_in x.1)) in E.
  - destruct (feed_spec ((key_byte <$> keys) ++ [CR]) p None Hw) as (p2 & sg & -> & _ & E). exists p2, sg. split; [done|]. rewrite feed_app, Ek in E. cbn [tty_feed tty_set t_disc t_in t_out abs] in E.
    rewrite Hl in E. destruct (enter_delivers (set_line (line_disc p) (edit [] keys)) (ByteRing.contents (input_buf p)) out Hc) as [out' Ee].
    { cbn. rewrite ByteRing.length_contents. pose proof (length_edit [] keys). cbn in *. lia. }
    rewrite Ee in E. pose proof (f_equal (λ x, t_in x.1) E) as E1. pose proof (f_equal (λ x, line_buf (t_disc x.1)) E) as E2. cbn in E1, E2. by split.
Qed.

(** ** A blocked reader *)

Inductive sevent := SRead (n : nat) | SKeys (data : list Z) | SHangUp | SOutput (data : list Z) | SDrain (n : nat).

(** What can happen around one reader [t] of the slave. *)
Definition sexec (t : Z) (s : Session) (e : sevent) : outcome Session :=
  match e with
  | SRead n => sys_read t n s
  | SKeys data => key_in s data
  | SHangUp => Ret (hang_up s)
  | SOutput data => '(_, notif, p) ← slave_write (pty s) data; Ret (flush_all notif (with_pty s p))
  | SDrain n => '(_, notif, p) ← master_read (pty s) n; Ret (flush_all notif (with_pty s p))
  end.

Definition start (t : Z) : Session := mk_session new {[t := RRead]}.

Inductive sreach (t : Z) : Session → Prop :=
| sreach_start : sreach t (start t)
| sreach_step s e s' : sreach t s → sexec t s e = Ret s' → sreach t s'.

(** The reader is queued exactly when parked, and then has nothing to read. *)
Record RInv (t : Z) (s : Session) : Prop := {
  r_wf : wf (pty s);
  r_others : output_wq (pty s) = [] ∧ slave_write_wq (pty s) = [];
  r_queue : match readers s !! t with
            | Some RParked => input_wq (pty s) = [t] ∧ read_ready (pty s) = false
            | Some _ => input_wq (pty s) = []
            | None => False
            end
}.

Lemma notify_wakes p : wake_input (notify_pollers p) = false → read_ready p = false.
Proof.
  unfold notify_pollers, read_ready, poll_state_slave. cbn. destruct (ByteRing.is_empty (input_buf p)), (closed_master p), (eof_pending p); done.
Qed.

(** With nobody else waiting, a notification wakes the reader or nobody. *)
Lemma flush_alone n s q : input_wq (pty s) = q → output_wq (pty s) = [] → slave_write_wq (pty s) = [] →
  flush_all n s = mk_session (with_queues (pty s) (if wake_input n then tail q else q) [] []) (if wake_input n then match q with [] => readers s | t :: _ => <[t := RRead]> (readers s) end else readers s).
Proof.
  intros Ei Eo Es. unfold flush_all, flush. rewrite Ei, Eo, Es. destruct (wake_output n), (wake_slave_writer n), (wake_input n), q; reflexivity.
Qed.

(** Delivering a notification: whatever changed, the reader is woken or has
    still nothing to read. *)
Lemma pty_flush_inv t s p n : RInv t s → wf p → input_wq p = input_wq (pty s) → output_wq p = [] → slave_write_wq p = [] →
  (wake_input n = true ∨ read_ready p = false ∨ readers s !! t ≠ Some RParked) → RInv t (flush_all n (with_pty s p)).
Proof.
  intros [Hw Ho Hq] Hwp Ei Eo Es Hn. rewrite (flush_alone n (with_pty s p) (input_wq (pty s))) by done. cbn [with_pty pty readers].
  assert (Hk : ∀ q m, (match m !! t with Some RParked => q = [t] ∧ read_ready p = false | Some _ => q = [] | None => False end) → RInv t (mk_session (with_queues p q [] []) m)).
  { intros q m H. split; [exact Hwp|done|exact H]. }
  apply Hk. clear Hk. destruct (readers s !! t) as [[| | |r]|] eqn:Er; [| | | |done].
  all: try (rewrite Hq; destruct (wake_input n); cbn [tail]; rewrite Er; reflexivity).
  destruct Hq as [-> Hr]. destruct (wake_input n); cbn [tail]; [by rewrite lookup_insert_eq|]. rewrite Er. split; [done|]. by destruct Hn as [?|[?|?]].
Qed.

Lemma exec_frame p data q sg sg' : feed data p sg = Ret (q, sg') → input_wq q = input_wq p ∧ output_wq q = output_wq p ∧ slave_write_wq q = slave_write_wq p.
Proof.
  revert p sg. induction data as [|b data IH]; intros p sg; cbn [feed]; [by intros [= <- <-]|].
  destruct (process_input _ _ _ _) as [[[[act d] i] o]|]; [|done]. cbn [mbind outcome_bind]. intros H%IH. exact H.
Qed.

Lemma keys_inv t s data s' : RInv t s → key_in s data = Ret s' → RInv t s'.
Proof.
  intros Hi. pose proof Hi as [Hw [Ho1 Ho2] Hq]. unfold key_in, master_write. destruct data as [|b data].
  - cbn [mbind outcome_bind]. intros [= <-]. apply pty_flush_inv; try done. right. destruct (readers s !! t) as [[| | |r]|]; [by right|by right|left; apply Hq|by right|done].
  - destruct (feed_spec (b :: data) (pty s) None Hw) as (p & sg & Ef & Hwp & _). rewrite Ef. cbn [mbind outcome_bind]. intros [= <-].
    destruct (exec_frame _ _ _ _ _ Ef) as (E1 & E2 & E3). apply pty_flush_inv; [done|done|done|congruence|congruence|].
    change (wake_input (with_signal (notify_pollers p) sg)) with (wake_input (notify_pollers p)). destruct (wake_input (notify_pollers p)) eqn:E; [by left|right; left; by apply notify_wakes].
Qed.

Lemma read_inv t n s s' : RInv t s → sys_read t n s = Ret s' → RInv t s'.
Proof.
  intros Hi. pose proof Hi as [Hw [Ho1 Ho2] Hq]. unfold sys_read. destruct (readers s !! t) as [[| | |r]|] eqn:Er; try by intros [= <-].
  - assert (∃ r notif p, slave_read (pty s) n = Ret (r, notif, p) ∧ wf p ∧ input_wq p = input_wq (pty s) ∧ output_wq p = output_wq (pty s) ∧ slave_write_wq p = slave_write_wq (pty s)) as (r & notif & p & -> & Hwp & E1 & E2 & E3).
    { unfold slave_read. destruct (_ && _); [by do 3 eexists|]. destruct (ByteRing.pop_spec (input_buf (pty s)) n (proj1 Hw)) as (i & -> & Hwi & _). cbn [mbind outcome_bind].
      assert (wf (with_io (pty s) i (output_buf (pty s)) (line_disc (pty s)) (eof_pending (pty s)))) by (split; [done|apply Hw]). destruct (_ =? _)%nat; by do 3 eexists. }
    cbn [mbind outcome_bind]. intros [= <-].
    assert (Hf : RInv t (flush_all notif (with_pty s p))) by (apply pty_flush_inv; [done|done|done|congruence|congruence|right; right; congruence]).
    assert (Hq' : input_wq (pty (flush_all notif (with_pty s p))) = []).
    { unfold flush_all, flush. cbn [with_pty pty readers]. rewrite E1, Hq, E2, E3, Ho1, Ho2. cbn. by destruct (wake_input notif), (wake_output notif), (wake_slave_writer notif). }
    destruct Hf as [Hf1 Hf2 _]. destruct r; [| |destruct (_ && _)]; (split; cbn [set_reader pty readers]; [done|done|by rewrite lookup_insert_eq]).
  - destruct (read_ready (pty s)) eqn:Erd; [intros [= <-]; split; cbn [set_reader pty readers]; [done|done|by rewrite lookup_insert_eq]|].
    rewrite Hq. cbn. intros [= <-]. split; cbn [set_reader with_pty pty readers]; [done|done|]. rewrite lookup_insert_eq. done.
Qed.

Lemma sexec_inv t s e s' : RInv t s → sexec t s e = Ret s' → RInv t s'.
Proof.
  intros Hi. pose proof Hi as [Hw [Ho1 Ho2] Hq].
  assert (Hstay : ∀ p, read_ready p = read_ready (pty s) → read_ready p = false ∨ readers s !! t ≠ Some RParked).
  { intros p E. destruct (readers s !! t) as [[| | |r]|]; [by right|by right|left; rewrite E; apply Hq|by right|done]. }
  destruct e as [n|data| |data|n]; cbn [sexec]; [by apply read_inv|by apply keys_inv| | |].
  - unfold hang_up, close_master. intros [= <-]. apply pty_flush_inv; try done. set (p := with_ends _ _ _ _ _). destruct (wake_input (notify_pollers p)) eqn:E; [by left|right; left; by apply notify_wakes].
  - unfold slave_write. destruct (closed_master (pty s)) eqn:Ec; [intros [= <-]; apply pty_flush_inv; try done; right; by apply Hstay|].
    destruct data as [|b data]; [intros [= <-]; apply pty_flush_inv; try done; right; by apply Hstay|].
    destruct (write_output_spec (line_disc (pty s)) (b :: data) (output_buf (pty s)) (output_space (pty s)) (proj2 Hw)) as (o & -> & Hwo & _). cbn [mbind outcome_bind]. intros [= <-].
    apply pty_flush_inv; [done|split; [apply Hw|done]|done|done|done|]. right. by apply Hstay.
  - unfold master_read. destruct (ByteRing.pop_spec (output_buf (pty s)) n (proj2 Hw)) as (o & -> & Hwo & _). cbn [mbind outcome_bind]. intros [= <-].
    apply pty_flush_inv; [done|split; [apply Hw|done]|done|done|done|]. right. by apply Hstay.
Qed.

Lemma sreach_inv t s : sreach t s → RInv t s.
Proof.
  induction 1 as [|s e s' _ IH He]; [split; [apply pty_new_wf|done|cbn; by rewrite lookup_singleton_eq]|]. eapply sexec_inv; [exact IH|exact He].
Qed.

(** Keys typed while the reader is parked, Ctrl-D included, wake it or leave
    nothing pending. *)
Lemma keys_wake t s data s' : RInv t s → readers s !! t = Some RParked → data ≠ [] → key_in s data = Ret s' →
  readers s' !! t = Some RParked → Pipe.readable (poll_state_slave (pty s')) = false.
Proof.
  intros [Hw [Ho1 Ho2] Hq] Hp Hne. rewrite Hp in Hq. destruct Hq as [Hq _]. unfold key_in, master_write. destruct data as [|b data]; [done|].
  destruct (feed_spec (b :: data) (pty s) None Hw) as (p & sg & Ef & _ & _). rewrite Ef. cbn [mbind outcome_bind]. intros [= <-].
  destruct (exec_frame _ _ _ _ _ Ef) as (E1 & E2 & E3). rewrite (flush_alone _ (with_pty s p) [t]) by (cbn [with_pty pty]; congruence).
  change (wake_input (with_signal (notify_pollers p) sg)) with (Pipe.readable (poll_state_slave p) || Pipe.hangup (poll_state_slave p)).
  cbn [pty readers with_pty]. destruct (_ || _) eqn:E; [by rewrite lookup_insert_eq|]. intros _. apply orb_false_iff in E as [E _]. exact E.
Qed.


(** The run of a list of events. *)
Fixpoint srun (t : Z) (s : Session) (es : list sevent) : outcome Session :=
  match es with [] => Ret s | e :: es => s' ← sexec t s e; srun t s' es end.

Lemma srun_reach t es : ∀ s s', sreach t s → srun t s es = Ret s' → sreach t s'.
Proof.
  induction es as [|e es IH]; cbn [srun]; intros s s' Hs Hr; [by injection Hr as <-|].
  destruct (sexec t s e) as [s1|] eqn:Ex; [|done]. cbn [mbind outcome_bind] in Hr. exact (IH s1 s' (sreach_step t s e s1 Hs Ex) Hr).
Qed.

(** ** What the terminal does not do *)

Definition phase_of (t : Z) (r : outcome Session) : option (option reader * bool) :=
  match r with Ret s => Some (readers s !! t, eof_pending (pty s)) | Panic => None end.

(** Ctrl-D typed between the reader's look and its park is missed: the predicate
    of the wait does not ask for a pending end of file, and the wake-up found
    nobody. The reader sleeps with its answer ready. *)
Lemma ctrl_d_missed : phase_of 7 (srun 7 (start 7) [SRead 10; SKeys [4]; SRead 10]) = Some (Some RParked, true).
Proof. vm_compute. reflexivity. Qed.

(** Typed before the look, or after the park, it is delivered. *)
Lemma ctrl_d_seen : phase_of 7 (srun 7 (start 7) [SKeys [4]; SRead 10]) = Some (Some (RDone None), false) ∧
  phase_of 7 (srun 7 (start 7) [SRead 10; SRead 10; SKeys [4]; SRead 10]) = Some (Some (RDone None), false).
Proof. split; vm_compute; reflexivity. Qed.

(** A full line accepts neither Enter nor an erasure, so with nothing left to
    read only a signal or Ctrl-D gets the terminal out of it. *)
Lemma full_line_is_stuck d byte inp out : (PTY_INPUT_CAPACITY <= ByteRing.len inp + length (line_buf d))%nat →
  byte ≠ 3 → byte ≠ 0x1a → byte ≠ 4 → process_input d byte inp out = Ret (ANone, d, inp, out).
Proof.
  intros Hf H3 H1a H4. unfold process_input. rewrite (proj2 (Z.eqb_neq byte 3)), (proj2 (Z.eqb_neq byte 0x1a)), (proj2 (Z.eqb_neq byte 4)) by done.
  cbn [negb andb]. by rewrite (proj2 (Nat.leb_le _ _)).
Qed.

(** In raw mode the capacity does not hold for the byte 4: it is pushed whatever
    the input already holds. *)
Lemma raw_ctrl_d_unbounded d inp out : canonical d = false → ByteRing.wf inp → ByteRing.wf out →
  ∃ inp' out', process_input d 4 inp out = Ret (ANone, d, inp', out') ∧ ByteRing.contents inp' = ByteRing.contents inp ++ [4].
Proof.
  intros Hc Hi Ho. unfold process_input. cbn [Z.eqb Pos.eqb negb andb]. rewrite Hc. cbn [negb]. destruct (ByteRing.push_spec inp [4] Hi) as (i & -> & _ & Ec). cbn [mbind outcome_bind].
  destruct (echo_spec d out [4] Ho) as (o & -> & _ & _). cbn [mbind outcome_bind]. by exists i, o.
Qed.

(** Of the signals typed in one write only the last is sent. *)
Lemma only_last_signal p b sg : foreground_pgid p = Some b → wf p →
  ∃ p', feed [3; 0x1a] p sg = Ret (p', Some (b, SIGTSTP)).
Proof.
  intros Hp [Hi Ho]. cbn [feed process_input Z.eqb Pos.eqb]. destruct (echo_spec (line_disc p) (output_buf p) [94; 67; NL] Ho) as (o & -> & Ho1 & _). cbn [mbind outcome_bind line_disc with_io output_buf].
  destruct (echo_spec (set_line (line_disc p) []) o [94; 90; NL] Ho1) as (o2 & -> & _ & _). cbn [mbind outcome_bind with_io foreground_pgid]. rewrite Hp. by eexists.
Qed.

Definition reads (p : outcome (nat * PtyNotifications * Pty)) : option (list PtySlaveRead) :=
  match p with
  | Ret (_, _, p) =>
      match slave_read p 100 with
      | Ret (r1, _, p) => match slave_read p 100 with Ret (r2, _, _) => Some [r1; r2] | Panic => None end
      | Panic => None
      end
  | Panic => None
  end.

(** End of file typed between two lines is read after both. *)
Lemma eof_out_of_order : reads (master_write new [97; 10; 4; 98; 10]) = Some [Data [97; 10; 98; 10]; Eof].
Proof. vm_compute. reflexivity. Qed.

(** Enter is echoed as CR LF, the newline after [^C] as a bare LF. *)
Lemma interrupt_echo_bare_newline :
  match master_write new [3] with Ret (_, _, p) => ByteRing.contents (output_buf p) | Panic => [] end = [94; 67; NL] ∧
  match master_write new [CR] with Ret (_, _, p) => ByteRing.contents (output_buf p) | Panic => [] end = [CR; NL].
Proof. split; vm_compute; reflexivity. Qed.

(** A hangup wakes one of two blocked readers; the other sleeps on a terminal
    that is gone until something else notifies it. *)
Lemma hangup_wakes_one :
  match srun 7 (mk_session new {[7 := RRead; 8 := RRead]}) [SRead 10; SRead 10] with
  | Ret s => match srun 8 s [SRead 10; SRead 10; SHangUp; SRead 10] with Ret s => Some (readers s !! 7, readers s !! 8) | Panic => None end
  | Panic => None
  end = Some (Some RRead, Some RParked).
Proof. vm_compute. reflexivity. Qed.

(** ** Witnesses *)


(** A shell hands the terminal to group 5, and a key line is interrupted. *)
Definition demo_ops : list op :=
  [SetGroup 5; Register Slave 9 (Pipe.mk_poll true false false false false); KeyIn [104; 105; 3]; KeyIn [97; CR]; SlaveRead 10;
   Ioctl PTY_IOCTL_SET_WINSIZE (24 * 65536 + 80); Ioctl PTY_IOCTL_GET_WINSIZE 0; CloseSlave 5; GetGroup].

(** What that run answers, tells the poller and signals. *)
Lemma demo_answers :
  (λ r : response, (r.1.1, (λ e, (e.1, Pipe.readable e.2)) <$> r.1.2, r.2)) <$> (tty_run (abs new) demo_ops).1 =
  [(RUnit, [], None); (RRegistered (poll_state_slave new) (Some 1), [], None); (RCount 3, [(9, false)], Some (5, SIGINT)); (RCount 2, [(9, true)], None);
   (RSlave (Data [97; NL]), [(9, false)], None); (RIoctl (Ok 0), [], None); (RIoctl (Ok (24 * 65536 + 80)), [], None);
   (RUnit, [(9, false)], None); (RGroup 0, [], None)].
Proof. vm_compute. reflexivity. Qed.

Lemma pty_refines_tty_witness :
  ∃ rs p', pty_run new demo_ops = Ret (rs, p') ∧ (wf p' ∧ sized p') ∧ tty_run (abs new) demo_ops = (rs, abs p').
Proof. apply (pty_refines_tty new demo_ops); [apply pty_new_wf|apply pty_new_sized]. Defined.

Lemma pty_bounded_progress_witness : ∃ n notif p', slave_write new [104; 10] = Ret (Some n, notif, p') ∧ (0 < n)%nat ∧
  ByteRing.contents (output_buf p') = ByteRing.contents (output_buf new) ++ onlcr (opost (line_disc new)) (take n [104; 10]).
Proof.
  apply (pty_bounded_progress new reach_new); [|reflexivity|discriminate].
  vm_compute. reflexivity.
Defined.

Lemma line_delivered_as_edited_witness : ∃ p2 sg, feed ((key_byte <$> [Char 108; Char 120; Erase 127; Char 115]) ++ [CR]) new None = Ret (p2, sg) ∧
  ByteRing.contents (input_buf p2) = ByteRing.contents (input_buf new) ++ edit [] [Char 108; Char 120; Erase 127; Char 115] ++ [NL] ∧ line_buf (line_disc p2) = [].
Proof.
  apply (line_delivered_as_edited new [Char 108; Char 120; Erase 127; Char 115]); [apply pty_new_wf|reflexivity|reflexivity| |].
  - repeat (constructor; [cbn; lia|]). constructor.
  - apply Nat.ltb_lt. vm_compute. reflexivity.
Defined.

End PtySafety.
