(* ===== verification/RunQueue.v ===== *)
(** * EEVDF run queue (kernel/src/thread/runqueue.rs)

    The weighted average of virtual clocks, placement with bounded lag, and the
    pick of the eligible thread with the earliest virtual deadline. *)

From S2P Require Import Prelude.

Module RunQueue.

(** ** The code *)

Definition I64_MAX : Z := 2 ^ 63 - 1.
Definition I64_MIN : Z := - 2 ^ 63.

(** [x as i64] on a [u64], and the saturating operations. *)
Definition as_i64 (x : Z) : Z := if x <=? I64_MAX then x else x - 2 ^ 64.
Definition sat_mul_u64 (a b : Z) : Z := Z.min U64_MAX (a * b).
Definition sat_sub_i64 (a b : Z) : Z := Z.max I64_MIN (Z.min I64_MAX (a - b)).

Definition PRIORITY_LEVELS : Z := 16.
Definition DEFAULT_PRIORITY : Z := 7.
Definition NICE_0_WEIGHT : Z := 1024.
Definition PRIORITY_WEIGHT : list Z :=
  [215; 268; 336; 419; 524; 655; 819; 1024; 1280; 1600; 2000; 2500; 3125; 3906; 4883; 6104].

(** Durations in nanoseconds. *)
Definition BASE_SLICE : Z := 1000000.
Definition LATENCY_SLICE : Z := 250000.
Definition MIN_SLICE : Z := LATENCY_SLICE.
Definition MAX_SLICE : Z := 10000000.

Definition clamp_slice (slice_ns : Z) : Z := Z.min (Z.max slice_ns MIN_SLICE) MAX_SLICE.
Definition weight_of (priority : Z) : Z := PRIORITY_WEIGHT !!! Z.to_nat (Z.min priority (PRIORITY_LEVELS - 1)).
Definition virtual_delta (delta_ns weight : Z) : Z := sat_mul_u64 delta_ns NICE_0_WEIGHT / Z.max weight 1.

(** The scheduler's view of a thread; [id] stands for its address. *)
Record Thread := mk_thread {
  id : Z; effective_priority : Z; vruntime : Z; vdeadline : Z; vlag : Z;
  ready : bool; linked : bool
}.

Definition with_place (t : Thread) vr vd :=
  mk_thread (id t) (effective_priority t) vr vd 0 (ready t) (linked t).
Definition with_vlag (t : Thread) l :=
  mk_thread (id t) (effective_priority t) (vruntime t) (vdeadline t) l (ready t) (linked t).
Definition with_linked (t : Thread) b :=
  mk_thread (id t) (effective_priority t) (vruntime t) (vdeadline t) (vlag t) (ready t) b.

Definition clamp_lag (t : Thread) (lag : Z) : Z :=
  let limit := as_i64 (virtual_delta BASE_SLICE (weight_of (effective_priority t))) in
  Z.min (Z.max lag (- limit)) limit.

Record RunQueue := mk_rq { queue : list Thread; vtime : Z }.
Definition new : RunQueue := mk_rq [] 0.

(** The two sums of [avg_vruntime]'s pass: how far each clock is ahead of the
    watermark (a clock behind it counts as at it) times its weight, and the
    weights. *)
Fixpoint clock_sums (vtime : Z) (q : list Thread) (weighted total : Z) : Z * Z :=
  match q with
  | [] => (weighted, total)
  | t :: q =>
      let weight := weight_of (effective_priority t) in
      clock_sums vtime q (weighted + sat_sub (vruntime t) vtime * weight) (total + weight)
  end.

Definition avg_vruntime (rq : RunQueue) : Z :=
  let '(weighted, total) := clock_sums (vtime rq) (queue rq) 0 0 in
  if total =? 0 then vtime rq else sat_add64 (vtime rq) (wrap 64 (weighted / total)).

Definition record_lag (rq : RunQueue) (t : Thread) : Thread * RunQueue :=
  let v := avg_vruntime rq in
  let lag := sat_sub_i64 (as_i64 v) (as_i64 (vruntime t)) in
  (with_vlag t (clamp_lag t lag), mk_rq (queue rq) (Z.max (vtime rq) v)).

Definition place (rq : RunQueue) (t : Thread) (request_ns : Z) : Thread * RunQueue :=
  let v := avg_vruntime rq in
  let weight := weight_of (effective_priority t) in
  let lag := clamp_lag t (vlag t) in
  let vr := Z.max (sat_sub_i64 (as_i64 v) lag) 0 in
  (with_place t vr (sat_add64 vr (virtual_delta request_ns weight)), mk_rq (queue rq) (Z.max (vtime rq) v)).

(** The two assertions of [link], and the tail insertion. *)
Definition link (rq : RunQueue) (t : Thread) : outcome RunQueue :=
  if linked t || negb (ready t) then Panic
  else Ret (mk_rq (queue rq ++ [with_linked t true]) (vtime rq)).

Definition enqueue (rq : RunQueue) (t : Thread) : outcome RunQueue := link rq t.

Definition enqueue_waking (rq : RunQueue) (t : Thread) (request_ns : Z) : outcome RunQueue :=
  let '(t, rq) := place rq t request_ns in link rq t.

(** [unlink] of the node at that address; the list is searched only to find
    the node the pointer names. *)
Fixpoint unlink_from (q : list Thread) (ptr : Z) : option (Thread * list Thread) :=
  match q with
  | [] => None
  | t :: q =>
      if id t =? ptr then Some (with_linked t false, q)
      else '(w, q') ← unlink_from q ptr; Some (w, t :: q')
  end.

(** [(a, b) <= (c, d)] on pairs. *)
Definition pair_le (a b c d : Z) : bool := (a <? c) || ((a =? c) && (b <=? d)).

(** The pick's pass: the best eligible thread and the earliest clock. *)
Fixpoint pick_pass (v : Z) (q : list Thread) (best : option (Z * Z * Z)) (earliest : option (Z * Z))
    : option (Z * Z * Z) * option (Z * Z) :=
  match q with
  | [] => (best, earliest)
  | t :: q =>
      let earliest := match earliest with
        | Some (_, seen) => if seen <=? vruntime t then earliest else Some (id t, vruntime t)
        | None => Some (id t, vruntime t)
        end in
      let best := if vruntime t >? v then best
        else match best with
        | Some (_, bd, bv) => if pair_le bd bv (vdeadline t) (vruntime t) then best else Some (id t, vdeadline t, vruntime t)
        | None => Some (id t, vdeadline t, vruntime t)
        end in
      pick_pass v q best earliest
  end.

Definition pick_next (rq : RunQueue) : option Thread * RunQueue :=
  if (length (queue rq) =? 0)%nat then (None, rq)
  else
    let v := avg_vruntime rq in
    let vtime' := Z.max (vtime rq) v in
    let '(best, earliest) := pick_pass v (queue rq) None None in
    let winner := match best with Some (ptr, _, _) => Some ptr | None => fst <$> earliest end in
    match ptr ← winner; unlink_from (queue rq) ptr with
    | Some (t, q) => (Some t, mk_rq q vtime')
    | None => (None, mk_rq (queue rq) vtime')
    end.

Fixpoint steal_pass (allowed : Thread → bool) (q : list Thread) (best : option (Z * Z)) : option (Z * Z) :=
  match q with
  | [] => best
  | t :: q =>
      if negb (allowed t) then steal_pass allowed q best
      else steal_pass allowed q
        match best with
        | Some (_, seen) => if seen >=? vdeadline t then best else Some (id t, vdeadline t)
        | None => Some (id t, vdeadline t)
        end
  end.

Definition steal_victim (rq : RunQueue) (allowed : Thread → bool) : option Thread * RunQueue :=
  match '(ptr, _) ← steal_pass allowed (queue rq) None; unlink_from (queue rq) ptr with
  | Some (t, q) => (Some t, mk_rq q (vtime rq))
  | None => (None, rq)
  end.

(** ** Invariant *)

Record thread_ok (t : Thread) : Prop := {
  ok_prio : 0 <= effective_priority t <= 255;
  ok_vruntime : 0 <= vruntime t <= U64_MAX
}.

Record wf (rq : RunQueue) : Prop := {
  wf_threads : Forall thread_ok (queue rq);
  wf_ids : NoDup (id <$> queue rq);
  wf_vtime : 0 <= vtime rq <= U64_MAX
}.

Lemma weight_of_pos t : 0 <= effective_priority t → 215 <= weight_of (effective_priority t).
Proof.
  intros Hp. unfold weight_of, PRIORITY_LEVELS.
  set (k := Z.to_nat _). assert (Hk : (k < 16)%nat) by lia. clearbody k.
  do 16 (destruct k as [|k]; [cbn; lia|]). lia.
Qed.

(** ** The average *)

Fixpoint weights (q : list Thread) : Z :=
  match q with [] => 0 | t :: q => weight_of (effective_priority t) + weights q end.
Fixpoint weighted (vt : Z) (q : list Thread) : Z :=
  match q with
  | [] => 0
  | t :: q => sat_sub (vruntime t) vt * weight_of (effective_priority t) + weighted vt q
  end.

Lemma clock_sums_eq vt q : ∀ w n, clock_sums vt q w n = (w + weighted vt q, n + weights q).
Proof.
  induction q as [|t q IH]; intros w n; cbn [clock_sums weighted weights]; [f_equal; lia|].
  rewrite IH. f_equal; lia.
Qed.

Lemma weights_pos q : Forall thread_ok q → 0 <= weights q ∧ (q ≠ [] → 0 < weights q).
Proof.
  induction 1 as [|t q [Hp _] _ [IH _]]; cbn [weights]; [done|].
  pose proof (weight_of_pos t ltac:(lia)). split; intros; lia.
Qed.

(** The weighted sum lies between the extreme clocks. *)
Lemma weighted_bounds vt q lo hi : Forall thread_ok q →
  (∀ t, t ∈ q → lo <= sat_sub (vruntime t) vt <= hi) → lo * weights q <= weighted vt q <= hi * weights q.
Proof.
  induction 1 as [|t q [Hp _] _ IH]; intros Hb; cbn [weights weighted]; [lia|].
  pose proof (weight_of_pos t ltac:(lia)). pose proof (Hb t ltac:(left)).
  specialize (IH (λ u Hu, Hb u (list_elem_of_further _ _ _ Hu))). nia.
Qed.

(** A non-empty queue has a slowest clock. *)
Lemma min_clock q : q ≠ [] → ∃ t, t ∈ q ∧ ∀ u, u ∈ q → vruntime t <= vruntime u.
Proof.
  induction q as [|t q IH]; [done|]. intros _. destruct q as [|u q].
  - exists t. split; [left|]. intros u Hu. apply list_elem_of_singleton in Hu as ->. lia.
  - destruct (IH ltac:(done)) as (m & Hm & Hmin). destruct (Z.le_ge_cases (vruntime t) (vruntime m)).
    + exists t. split; [left|]. intros x Hx. apply elem_of_cons in Hx as [->|Hx]; [lia|]. specialize (Hmin x Hx). lia.
    + exists m. split; [by right|]. intros x Hx. apply elem_of_cons in Hx as [->|Hx]; [lia|by apply Hmin].
Qed.

Lemma avg_vruntime_eq rq : wf rq → queue rq ≠ [] →
  0 <= weighted (vtime rq) (queue rq) / weights (queue rq) <= U64_MAX ∧
  avg_vruntime rq = Z.min U64_MAX (vtime rq + weighted (vtime rq) (queue rq) / weights (queue rq)).
Proof.
  intros [Ht _ Hv] Hne. destruct (weights_pos _ Ht) as [_ Hw]. specialize (Hw Hne).
  destruct (weighted_bounds (vtime rq) (queue rq) 0 U64_MAX Ht) as [H0 H1].
  { intros t Hin. rewrite Forall_forall in Ht. destruct (Ht t Hin) as [_ Hr]. unfold sat_sub. lia. }
  assert (Hq : 0 <= weighted (vtime rq) (queue rq) / weights (queue rq) <= U64_MAX).
  { split; [apply Z.div_pos; lia|]. apply Z.div_le_upper_bound; lia. }
  split; [done|]. unfold avg_vruntime. rewrite clock_sums_eq, !Z.add_0_l.
  rewrite (proj2 (Z.eqb_neq _ _)) by lia. unfold sat_add64, wrap. rewrite Z.mod_small; [done|].
  unfold U64_MAX in *. lia.
Qed.

(** The average never runs behind the watermark, nor past 64 bits. *)
Lemma avg_vruntime_ge rq : wf rq → vtime rq <= avg_vruntime rq <= U64_MAX.
Proof.
  intros Hwf. pose proof (wf_vtime _ Hwf). destruct (decide (queue rq = [])) as [E|Hne].
  - unfold avg_vruntime. rewrite E. cbn. lia.
  - destruct (avg_vruntime_eq rq Hwf Hne) as [Hq ->]. lia.
Qed.

(** The slowest clock is never ahead of the average, saturations included. *)
Lemma someone_eligible rq : wf rq → queue rq ≠ [] → ∃ t, t ∈ queue rq ∧ vruntime t <= avg_vruntime rq.
Proof.
  intros Hwf Hne. destruct (min_clock _ Hne) as (t & Hin & Hmin). exists t. split; [done|].
  pose proof Hwf as [Ht _ Hv]. destruct (avg_vruntime_eq rq Hwf Hne) as [Hq ->].
  destruct (weights_pos _ Ht) as [_ Hw]. specialize (Hw Hne).
  rewrite Forall_forall in Ht. destruct (Ht t Hin) as [_ Hr].
  destruct (weighted_bounds (vtime rq) (queue rq) (sat_sub (vruntime t) (vtime rq)) U64_MAX) as [H1 _].
  { by apply Forall_forall. }
  { intros u Hu. specialize (Hmin u Hu). destruct (Ht u Hu) as [_ Hu']. unfold sat_sub. lia. }
  assert (H2 : sat_sub (vruntime t) (vtime rq) <= weighted (vtime rq) (queue rq) / weights (queue rq))
    by (apply Z.div_le_lower_bound; lia).
  unfold sat_sub in H2. lia.
Qed.

(** ** The pick *)

Lemma pair_le_spec a b c d : pair_le a b c d = true ↔ a < c ∨ a = c ∧ b <= d.
Proof. unfold pair_le. rewrite orb_true_iff, andb_true_iff. lia. Qed.

Lemma pair_le_false a b c d : pair_le a b c d = false → pair_le c d a b = true.
Proof. intros H. apply not_true_iff_false in H. rewrite pair_le_spec in *. lia. Qed.

Lemma pair_le_trans a b c d e f : pair_le a b c d = true → pair_le c d e f = true → pair_le a b e f = true.
Proof. rewrite !pair_le_spec. lia. Qed.

Lemma pair_le_refl a b : pair_le a b a b = true.
Proof. apply pair_le_spec. lia. Qed.

Definition best_of (v : Z) (q : list Thread) (b : option (Z * Z * Z)) (r : option (Z * Z * Z)) : Prop :=
  match r with
  | Some (p, d, vr) =>
      (b = Some (p, d, vr) ∨ ∃ t, t ∈ q ∧ id t = p ∧ vdeadline t = d ∧ vruntime t = vr ∧ vr <= v) ∧
      (∀ p' d' r', b = Some (p', d', r') → pair_le d vr d' r' = true) ∧
      (∀ t, t ∈ q → vruntime t <= v → pair_le d vr (vdeadline t) (vruntime t) = true)
  | None => b = None ∧ ∀ t, t ∈ q → v < vruntime t
  end.

(** One thread of the pass: the candidate it leaves dominates both. *)
Lemma best_step v t q b b' r : best_of v q b' r →
  b' = (if vruntime t >? v then b
        else match b with
        | Some (_, bd, bv) => if pair_le bd bv (vdeadline t) (vruntime t) then b else Some (id t, vdeadline t, vruntime t)
        | None => Some (id t, vdeadline t, vruntime t)
        end) → best_of v (t :: q) b r.
Proof.
  intros H Hb'. assert (Ht : vruntime t > v ∧ b' = b ∨
    vruntime t <= v ∧ ∃ p d x, b' = Some (p, d, x) ∧ pair_le d x (vdeadline t) (vruntime t) = true ∧
      (∀ p' d' x', b = Some (p', d', x') → pair_le d x d' x' = true) ∧
      (b' = b ∨ p = id t ∧ d = vdeadline t ∧ x = vruntime t)).
  { destruct (vruntime t >? v) eqn:Ev; [left; split; [lia|done]|right; split; [lia|]].
    destruct b as [[[p bd] bv]|].
    - destruct (pair_le bd bv _ _) eqn:El; subst b'; eexists _, _, _; (split; [done|]); split; auto using pair_le_refl.
      + split; [|by left]. intros ??? [= <- <- <-]. apply pair_le_refl.
      + split; [|by right]. intros ??? [= <- <- <-]. by apply pair_le_false.
    - subst b'. eexists _, _, _. split; [done|]. split; [apply pair_le_refl|]. split; [done|by right]. }
  clear Hb'. unfold best_of in *. destruct r as [[[p d] vr]|].
  - destruct H as (Hsrc & Hold & Hq). destruct Ht as [[Hgt ->]|(Hle & p1 & d1 & x1 & -> & Hd & Hdom & Hor)].
    + split; [|split; [done|]]; [destruct Hsrc as [|(u & Hu & ?)]; [by left|right; exists u; split; [by right|done]]|].
      intros u Hu Hv. apply elem_of_cons in Hu as [->|Hu]; [lia|by apply Hq].
    + specialize (Hold _ _ _ eq_refl). split; [|split].
      * destruct Hsrc as [[= -> -> ->]|(u & Hu & ?)]; [|right; exists u; split; [by right|done]].
        destruct Hor as [Hor|(-> & -> & ->)]; [by left|]. right. exists t. split; [left|done].
      * intros p' d' x' E. eapply pair_le_trans; [exact Hold|by eapply Hdom].
      * intros u Hu Hv. apply elem_of_cons in Hu as [->|Hu]; [by eapply pair_le_trans|by apply Hq].
  - destruct H as (-> & Hq). destruct Ht as [[Hgt <-]|(? & ? & ? & ? & [=] & _)]. split; [done|].
    intros u Hu. apply elem_of_cons in Hu as [->|Hu]; [lia|by apply Hq].
Qed.

Lemma pick_pass_spec v q : ∀ b e, best_of v q b (pick_pass v q b e).1.
Proof.
  induction q as [|t q IH]; intros b e; cbn [pick_pass].
  - destruct b as [[[p d] x]|]; cbn; [|split; [done|intros ? []%not_elem_of_nil]].
    split; [by left|]. split; [intros ??? [= <- <- <-]; apply pair_le_refl|intros ? []%not_elem_of_nil].
  - eapply best_step; [apply IH|done].
Qed.

Lemma unlink_from_spec q t : NoDup (id <$> q) → t ∈ q →
  ∃ l1 l2, q = l1 ++ t :: l2 ∧ unlink_from q (id t) = Some (with_linked t false, l1 ++ l2).
Proof.
  induction q as [|u q IH]; [intros _ []%not_elem_of_nil|]. rewrite fmap_cons, NoDup_cons. intros [Hni Hnd] Hin. cbn [unlink_from].
  destruct (Z.eqb_spec (id u) (id t)) as [E|E].
  - apply elem_of_cons in Hin as [<-|Hin]; [by exists [], q|].
    destruct Hni. rewrite E. by apply list_elem_of_fmap_2.
  - apply elem_of_cons in Hin as [->|Hin]; [done|].
    destruct (IH Hnd Hin) as (l1 & l2 & -> & ->). exists (u :: l1), l2. done.
Qed.

Lemma wf_remove rq t l1 l2 v : wf rq → queue rq = l1 ++ t :: l2 → 0 <= v <= U64_MAX → wf (mk_rq (l1 ++ l2) v).
Proof.
  intros [Ht Hid _] Hq Hv. rewrite Hq in *. split; cbn [queue vtime]; [| |done].
  - apply Forall_app in Ht as [H1 H2]. apply Forall_app. split; [done|by inversion H2].
  - rewrite fmap_app in *. rewrite fmap_cons in Hid. rewrite <- Permutation_middle in Hid. by inversion Hid.
Qed.

Lemma pick_spec rq : wf rq → queue rq ≠ [] →
  ∃ t l1 l2, queue rq = l1 ++ t :: l2 ∧
    pick_next rq = (Some (with_linked t false), mk_rq (l1 ++ l2) (avg_vruntime rq)) ∧
    vruntime t <= avg_vruntime rq ∧
    (∀ u, u ∈ queue rq → vruntime u <= avg_vruntime rq →
       vdeadline t < vdeadline u ∨ vdeadline t = vdeadline u ∧ vruntime t <= vruntime u).
Proof.
  intros Hwf Hne. pose proof (avg_vruntime_ge rq Hwf) as Hge. pose proof Hwf as [Ht Hid Hv].
  destruct (someone_eligible rq Hwf Hne) as (m & Hm & Hmv).
  pose proof (pick_pass_spec (avg_vruntime rq) (queue rq) None None) as Hp. unfold pick_next.
  rewrite (proj2 (Nat.eqb_neq _ _)) by (by destruct (queue rq)).
  destruct (pick_pass _ _ _ _) as [[[[p d] x]|] e]; cbn [fst best_of] in Hp; cycle 1.
  { destruct Hp as [_ Hp]. specialize (Hp m Hm). lia. }
  destruct Hp as ([[=]|(t & Hin & <- & <- & <- & Hle)] & _ & Hbest).
  destruct (unlink_from_spec _ _ Hid Hin) as (l1 & l2 & Hq & Hu).
  exists t, l1, l2. split; [done|]. cbn [mbind option_bind]. rewrite Hu, Z.max_r by lia.
  split; [done|]. split; [done|].
  intros u Hin' Hv'. specialize (Hbest u Hin' Hv'). by apply pair_le_spec in Hbest.
Qed.

(** ** The average against the mean *)

Fixpoint clocks (q : list Thread) : Z :=
  match q with [] => 0 | t :: q => vruntime t * weight_of (effective_priority t) + clocks q end.

(** With no clock behind the watermark, [V] is the weighted mean of the clocks. *)
Lemma avg_is_mean rq : wf rq → queue rq ≠ [] → (∀ t, t ∈ queue rq → vtime rq <= vruntime t) →
  avg_vruntime rq = Z.min U64_MAX (clocks (queue rq) / weights (queue rq)).
Proof.
  intros Hwf Hne Hahead. destruct (avg_vruntime_eq rq Hwf Hne) as [_ ->]. f_equal.
  destruct (weights_pos _ (wf_threads _ Hwf)) as [_ Hw]. specialize (Hw Hne).
  rewrite <- Z.div_add_l by lia. f_equal. clear Hwf Hne Hw.
  induction (queue rq) as [|t q IH]; cbn [weights weighted clocks]; [lia|].
  specialize (IH (λ u Hu, Hahead u (list_elem_of_further _ _ _ Hu))).
  specialize (Hahead t ltac:(left)). unfold sat_sub in *. rewrite Z.max_r by lia. lia.
Qed.

(** C27 Scheduling decision: from a non-empty run queue of distinct threads with
    64-bit clocks, none of which changes during the call, the pick always
    returns a thread; that thread is eligible (its virtual clock is not ahead of
    [V]), it has the earliest (deadline, clock) of all eligible threads, it
    alone leaves the queue, and the watermark moves forward to [V]. [V] is the
    watermark plus the weighted mean, rounded down and capped at 64 bits, of how
    far each clock is ahead of the watermark, a clock behind it counting as at
    it; it is the weighted mean of the clocks only when no clock is behind. The
    fallback to the slowest clock is never taken, against the comment on
    [pick_next], which calls it live. *)
Theorem pick_next_correct rq : wf rq → queue rq ≠ [] →
  avg_vruntime rq = Z.min U64_MAX (vtime rq + weighted (vtime rq) (queue rq) / weights (queue rq)) ∧
  ((∀ u, u ∈ queue rq → vtime rq <= vruntime u) → avg_vruntime rq = Z.min U64_MAX (clocks (queue rq) / weights (queue rq))) ∧
  ∃ t l1 l2, queue rq = l1 ++ t :: l2 ∧
    pick_next rq = (Some (with_linked t false), mk_rq (l1 ++ l2) (avg_vruntime rq)) ∧
    vruntime t <= avg_vruntime rq ∧
    (∀ u, u ∈ queue rq → vruntime u <= avg_vruntime rq →
       vdeadline t < vdeadline u ∨ vdeadline t = vdeadline u ∧ vruntime t <= vruntime u) ∧
    vtime rq <= avg_vruntime rq ∧ wf (mk_rq (l1 ++ l2) (avg_vruntime rq)).
Proof.
  intros Hwf Hne. split; [by apply avg_vruntime_eq|]. split; [by apply avg_is_mean|].
  destruct (pick_spec rq Hwf Hne) as (t & l1 & l2 & Hq & Hp & Hv & Hb).
  pose proof (avg_vruntime_ge rq Hwf) as Hge. pose proof (wf_vtime _ Hwf).
  exists t, l1, l2. split_and!; try done; [lia|]. apply (wf_remove rq t); [done|done|lia].
Qed.

(** ** Placement *)

(** The lag bound of a thread: one base slice at its weight. *)
Definition lag_limit (t : Thread) : Z := virtual_delta BASE_SLICE (weight_of (effective_priority t)).

(** At the lowest weight the bound is 1000000 * 1024 / 215. *)
Lemma lag_limit_range t : 0 <= effective_priority t → 0 <= lag_limit t <= 4762790.
Proof.
  intros Hp. pose proof (weight_of_pos t Hp) as Hw. unfold lag_limit, virtual_delta, sat_mul_u64.
  change (Z.min U64_MAX (BASE_SLICE * NICE_0_WEIGHT)) with 1024000000. rewrite Z.max_l by lia.
  split; [apply Z.div_pos; lia|]. transitivity (1024000000 / 215); [apply Z.div_le_compat_l; lia|by vm_compute].
Qed.

Lemma clamp_lag_eq t lag : 0 <= effective_priority t →
  clamp_lag t lag = Z.min (Z.max lag (- lag_limit t)) (lag_limit t).
Proof.
  intros Hp. pose proof (lag_limit_range t Hp). unfold clamp_lag. fold (lag_limit t).
  unfold as_i64. rewrite (proj2 (Z.leb_le _ _)) by (unfold I64_MAX; lia). done.
Qed.

Lemma clamp_lag_range t lag : 0 <= effective_priority t → - lag_limit t <= clamp_lag t lag <= lag_limit t.
Proof. intros Hp. pose proof (lag_limit_range t Hp). rewrite clamp_lag_eq by done. lia. Qed.

Lemma virtual_delta_range ns w : 0 <= ns → 0 <= virtual_delta ns w <= U64_MAX.
Proof.
  intros Hn. unfold virtual_delta, sat_mul_u64, NICE_0_WEIGHT.
  split; [apply Z.div_pos; unfold U64_MAX; lia|].
  apply Z.div_le_upper_bound; [lia|]. unfold U64_MAX. nia.
Qed.

Lemma place_vruntime rq t ns : wf rq → 0 <= vruntime (place rq t ns).1 <= I64_MAX.
Proof. intros. cbn [place fst vruntime with_place]. unfold sat_sub_i64, I64_MIN, I64_MAX. lia. Qed.

(** Bounded lag: whatever lag a thread carries, and however long it slept, it
    is placed within one base slice of virtual service of the average [V], with
    its deadline exactly its request's virtual length after its clock, no
    arithmetic saturating while [V] is below 2^62; a lag within that bound is
    paid in full, and it is consumed. *)
Theorem place_bounded_lag rq t ns : wf rq → thread_ok t → 0 <= ns <= MAX_SLICE → avg_vruntime rq < 2 ^ 62 →
  let t' := (place rq t ns).1 in
  Z.abs (vruntime t' - avg_vruntime rq) <= lag_limit t ∧
  (Z.abs (vlag t) <= lag_limit t → vlag t <= avg_vruntime rq → vruntime t' = avg_vruntime rq - vlag t) ∧
  vdeadline t' = vruntime t' + ns * NICE_0_WEIGHT / weight_of (effective_priority t) ∧
  vlag t' = 0 ∧ lag_limit t <= 4762790.
Proof.
  intros Hwf [Hp Hr] Hns Hv t'. pose proof (avg_vruntime_ge rq Hwf) as Hge. pose proof (wf_vtime _ Hwf) as Hvt.
  pose proof (lag_limit_range t ltac:(lia)) as Hlim. pose proof (clamp_lag_range t (vlag t) ltac:(lia)) as Hc.
  pose proof (weight_of_pos t ltac:(lia)) as Hw.
  assert (Hvr : vruntime t' = Z.max (avg_vruntime rq - clamp_lag t (vlag t)) 0).
  { subst t'. cbn [place fst vruntime with_place]. unfold sat_sub_i64, as_i64, I64_MAX, I64_MIN.
    rewrite (proj2 (Z.leb_le _ _)) by lia. lia. }
  split; [lia|]. split.
  { intros Hl Hle. rewrite Hvr, clamp_lag_eq by lia. lia. }
  split; [|split; [done|lia]].
  change (vdeadline t') with (sat_add64 (vruntime t') (virtual_delta ns (weight_of (effective_priority t)))).
  assert (Hd : virtual_delta ns (weight_of (effective_priority t)) = ns * NICE_0_WEIGHT / weight_of (effective_priority t)).
  { unfold virtual_delta, sat_mul_u64, NICE_0_WEIGHT, MAX_SLICE, U64_MAX in *. rewrite Z.min_r, Z.max_l by lia. done. }
  rewrite <- Hd. assert (virtual_delta ns (weight_of (effective_priority t)) <= 10240000000).
  { rewrite Hd. apply Z.div_le_upper_bound; unfold NICE_0_WEIGHT, MAX_SLICE in *; nia. }
  unfold sat_add64, U64_MAX. lia.
Qed.

(** ** The average drifts *)

(** A clock behind the watermark counts as if it were at it, so reading [V]
    twice raises it although no thread ran: two threads at 0 and 1000. *)
Example avg_drifts :
  let t k vr := mk_thread k 7 vr 0 0 true true in
  let watermark rq := mk_rq (queue rq) (Z.max (vtime rq) (avg_vruntime rq)) in
  let rq := mk_rq [t 1 0; t 2 1000] 0 in
  clocks (queue rq) / weights (queue rq) = 500 ∧ avg_vruntime rq = 500 ∧
  avg_vruntime (watermark rq) = 750 ∧ avg_vruntime (watermark (watermark rq)) = 875.
Proof. by vm_compute. Qed.

(** ** Stealing *)

Definition latest_of (allowed : Thread → bool) (q : list Thread) (b r : option (Z * Z)) : Prop :=
  match r with
  | Some (p, d) =>
      (b = Some (p, d) ∨ ∃ t, t ∈ q ∧ id t = p ∧ vdeadline t = d ∧ allowed t = true) ∧
      (∀ p' d', b = Some (p', d') → d' <= d) ∧ (∀ t, t ∈ q → allowed t = true → vdeadline t <= d)
  | None => b = None ∧ ∀ t, t ∈ q → allowed t = false
  end.

Lemma steal_pass_spec allowed q : ∀ b, latest_of allowed q b (steal_pass allowed q b).
Proof.
  induction q as [|t q IH]; intros b; cbn [steal_pass].
  - destruct b as [[p d]|]; cbn; [|by split; [|intros ? []%not_elem_of_nil]].
    split; [by left|]. split; [intros ?? [= <- <-]; lia|intros ? []%not_elem_of_nil].
  - destruct (allowed t) eqn:Ea; cbn [negb].
    + set (b' := match b with Some _ => _ | None => _ end).
      assert (Hb' : ∃ p d, b' = Some (p, d) ∧ vdeadline t <= d ∧ (∀ p' d', b = Some (p', d') → d' <= d) ∧
        (b' = b ∨ p = id t ∧ d = vdeadline t)).
      { subst b'. destruct b as [[p d]|].
        - destruct (d >=? vdeadline t) eqn:Ed; eexists _, _; (split; [done|]); (split; [lia|]);
            (split; [intros ?? [= <- <-]; lia|]); [by left|by right].
        - eexists _, _. split; [done|]. split; [lia|]. split; [done|by right]. }
      destruct Hb' as (p1 & d1 & E & Hd & Hdom & Hor). specialize (IH b'). rewrite E in IH |- *. unfold latest_of in *.
      destruct (steal_pass _ _ _) as [[p d]|]; [|by destruct IH].
      destruct IH as (Hsrc & Hold & Hq). specialize (Hold _ _ eq_refl). split; [|split].
      * destruct Hsrc as [[= -> ->]|(u & Hu & ?)]; [|right; exists u; split; [by right|done]].
        destruct Hor as [Hor|[-> ->]]; [left; congruence|right; exists t; split; [left|done]].
      * intros p' d' Eb. specialize (Hdom _ _ Eb). lia.
      * intros u Hu Hau. apply elem_of_cons in Hu as [->|Hu]; [lia|by apply Hq].
    + specialize (IH b). unfold latest_of in *. destruct (steal_pass _ _ _) as [[p d]|].
      * destruct IH as (Hsrc & Hold & Hq). split; [|split; [done|]].
        -- destruct Hsrc as [|(u & Hu & ?)]; [by left|right; exists u; split; [by right|done]].
        -- intros u Hu Hau. apply elem_of_cons in Hu as [->|Hu]; [congruence|by apply Hq].
      * destruct IH as [-> Hq]. split; [done|]. intros u Hu. apply elem_of_cons in Hu as [->|Hu]; [done|by apply Hq].
Qed.

(** A steal takes the allowed thread with the latest deadline, and fails only
    when none is allowed. *)
Lemma steal_victim_spec rq allowed : wf rq →
  (∃ t l1 l2, queue rq = l1 ++ t :: l2 ∧ steal_victim rq allowed = (Some (with_linked t false), mk_rq (l1 ++ l2) (vtime rq)) ∧
     allowed t = true ∧ (∀ u, u ∈ queue rq → allowed u = true → vdeadline u <= vdeadline t)) ∨
  (steal_victim rq allowed = (None, rq) ∧ ∀ u, u ∈ queue rq → allowed u = false).
Proof.
  intros Hwf. pose proof (steal_pass_spec allowed (queue rq) None) as H. unfold steal_victim, latest_of in *.
  destruct (steal_pass _ _ _) as [[p d]|]; cbn [mbind option_bind].
  - left. destruct H as ([[=]|(t & Hin & <- & <- & Ha)] & _ & Hq).
    destruct (unlink_from_spec _ _ (wf_ids _ Hwf) Hin) as (l1 & l2 & Hl & ->). eauto 8.
  - right. by destruct H.
Qed.

(** ** Runs *)

(** One call on the queue. A thread handed to an enqueue is a live thread, and
    its link flag is set whenever its node is in the queue. *)
Inductive rq_step : RunQueue → RunQueue → Prop :=
| step_enqueue rq t rq' : thread_ok t → (id t ∈ id <$> queue rq → linked t = true) →
    enqueue rq t = Ret rq' → rq_step rq rq'
| step_waking rq t ns rq' : thread_ok t → (id t ∈ id <$> queue rq → linked t = true) → 0 <= ns →
    enqueue_waking rq t ns = Ret rq' → rq_step rq rq'
| step_record rq t : thread_ok t → rq_step rq (record_lag rq t).2
| step_pick rq : rq_step rq (pick_next rq).2
| step_steal rq allowed : rq_step rq (steal_victim rq allowed).2.

Lemma wf_watermark rq : wf rq → wf (mk_rq (queue rq) (Z.max (vtime rq) (avg_vruntime rq))).
Proof. intros Hwf. pose proof (avg_vruntime_ge rq Hwf). destruct Hwf as [? ? ?]. split; cbn [queue vtime]; auto. lia. Qed.

Lemma link_wf rq t rq' : wf rq → thread_ok t → (id t ∈ id <$> queue rq → linked t = true) →
  link rq t = Ret rq' → wf rq' ∧ vtime rq' = vtime rq.
Proof.
  intros [Ht Hid Hv] [Hp Hr] Hl. unfold link. destruct (linked t) eqn:El; [done|]. destruct (negb (ready t)); [done|].
  cbn [orb]. intros [= <-]. split; [|done]. split; cbn [queue vtime]; [| |done].
  - apply Forall_app. split; [done|]. constructor; [|done]. by split.
  - rewrite fmap_app. apply NoDup_app. split; [done|]. split; [|apply NoDup_singleton].
    intros x Hx ->%list_elem_of_singleton. cbn in Hx. specialize (Hl Hx). done.
Qed.

Lemma rq_step_wf rq rq' : rq_step rq rq' → wf rq → wf rq' ∧ vtime rq <= vtime rq'.
Proof.
  intros Hstep Hwf. pose proof (wf_watermark rq Hwf) as Hw2. destruct Hstep as [rq t rq' Ht Hl He|rq t ns rq' Ht Hl Hns He|rq t Ht|rq|rq allowed].
  - destruct (link_wf rq t rq' Hwf Ht Hl He) as [H ->]. split; [done|lia].
  - unfold enqueue_waking in He. cbn [place] in He.
    match type of He with link ?r ?u = _ => destruct (link_wf r u rq' Hw2) as [H ->]; [| |done|] end.
    + split; [by destruct Ht|]. pose proof (place_vruntime rq t ns Hwf) as Hb.
      cbn [place fst vruntime with_place] in Hb |- *. unfold U64_MAX, I64_MAX in *. lia.
    + done.
    + split; [done|]. cbn [vtime]. lia.
  - cbn [record_lag snd]. split; [done|]. cbn [vtime]. lia.
  - destruct (decide (queue rq = [])) as [E|Hne].
    + unfold pick_next. rewrite E. cbn. split; [done|lia].
    + destruct (pick_spec rq Hwf Hne) as (t & l1 & l2 & Hq & -> & _). cbn [snd vtime].
      pose proof (avg_vruntime_ge rq Hwf). pose proof (wf_vtime _ Hwf). split; [|lia]. apply (wf_remove rq t); [done|done|lia].
  - destruct (steal_victim_spec rq allowed Hwf) as [(t & l1 & l2 & Hq & -> & _)|[-> _]]; cbn [snd vtime]; (split; [|lia]); [|done].
    apply (wf_remove rq t l1 l2); [done|done|by destruct Hwf].
Qed.

Lemma rq_run_wf rq rq' : rtc rq_step rq rq' → wf rq → wf rq' ∧ vtime rq <= vtime rq'.
Proof.
  induction 1 as [rq|rq rq1 rq2 Hs _ IH]; intros Hwf; [split; [done|lia]|].
  destruct (rq_step_wf _ _ Hs Hwf) as [H1 L1]. destruct (IH H1) as [H2 L2]. split; [done|lia].
Qed.

(** In every run from an empty queue, no thread is in the queue twice, every
    clock and the watermark stay within 64 bits, and the watermark a thread is
    placed against never moves backwards. *)
Theorem runqueue_invariant rq rq' : rtc rq_step new rq → rtc rq_step rq rq' → wf rq' ∧ vtime rq <= vtime rq'.
Proof.
  intros H1 H2. destruct (rq_run_wf _ _ H1) as [Hwf _]; [|by apply rq_run_wf].
  split; cbn [queue vtime new]; [constructor|constructor|unfold U64_MAX; lia].
Qed.

(** ** Concrete runs *)

Definition demo_thread (k prio vr vd lag : Z) (on : bool) : Thread := mk_thread k prio vr vd lag true on.

(** Three queued threads of different weights; the last is not eligible. *)
Definition demo_rq : RunQueue :=
  mk_rq [demo_thread 1 7 4000000 5000000 0 true; demo_thread 2 10 4100000 4600000 0 true;
         demo_thread 3 15 9000000 4000000 0 true] 3000000.

Lemma demo_rq_wf : wf demo_rq.
Proof.
  split; cbn [demo_rq queue vtime].
  - apply Forall_forall. intros t Ht. repeat apply elem_of_cons in Ht as [->|Ht]; [..|by apply not_elem_of_nil in Ht];
      split; cbn; unfold U64_MAX; lia.
  - by apply (bool_decide_unpack _).
  - unfold U64_MAX; lia.
Qed.

Lemma pick_next_correct_witness :
  avg_vruntime demo_rq = Z.min U64_MAX (vtime demo_rq + weighted (vtime demo_rq) (queue demo_rq) / weights (queue demo_rq)) ∧
  ((∀ u, u ∈ queue demo_rq → vtime demo_rq <= vruntime u) → avg_vruntime demo_rq = Z.min U64_MAX (clocks (queue demo_rq) / weights (queue demo_rq))) ∧
  ∃ t l1 l2, queue demo_rq = l1 ++ t :: l2 ∧
    pick_next demo_rq = (Some (with_linked t false), mk_rq (l1 ++ l2) (avg_vruntime demo_rq)) ∧
    vruntime t <= avg_vruntime demo_rq ∧
    (∀ u, u ∈ queue demo_rq → vruntime u <= avg_vruntime demo_rq →
       vdeadline t < vdeadline u ∨ vdeadline t = vdeadline u ∧ vruntime t <= vruntime u) ∧
    vtime demo_rq <= avg_vruntime demo_rq ∧ wf (mk_rq (l1 ++ l2) (avg_vruntime demo_rq)).
Proof.
  refine (pick_next_correct demo_rq _ _).
  - exact demo_rq_wf.
  - done.
Defined.

Lemma place_bounded_lag_witness :
  let t := demo_thread 4 3 0 0 300000 false in
  let t' := (place demo_rq t BASE_SLICE).1 in
  Z.abs (vruntime t' - avg_vruntime demo_rq) <= lag_limit t ∧
  (Z.abs (vlag t) <= lag_limit t → vlag t <= avg_vruntime demo_rq → vruntime t' = avg_vruntime demo_rq - vlag t) ∧
  vdeadline t' = vruntime t' + BASE_SLICE * NICE_0_WEIGHT / weight_of (effective_priority t) ∧
  vlag t' = 0 ∧ lag_limit t <= 4762790.
Proof.
  refine (place_bounded_lag demo_rq (demo_thread 4 3 0 0 300000 false) BASE_SLICE _ _ _ _).
  - exact demo_rq_wf.
  - split; cbn; unfold U64_MAX; lia.
  - unfold BASE_SLICE, MAX_SLICE. lia.
  - by vm_compute.
Defined.

Lemma runqueue_invariant_witness :
  wf (pick_next (mk_rq [with_linked (demo_thread 1 7 0 0 0 false) true] 0)).2 ∧
  vtime (mk_rq [with_linked (demo_thread 1 7 0 0 0 false) true] 0) <=
    vtime (pick_next (mk_rq [with_linked (demo_thread 1 7 0 0 0 false) true] 0)).2.
Proof.
  refine (runqueue_invariant _ _ _ _).
  - apply rtc_once. apply (step_enqueue _ (demo_thread 1 7 0 0 0 false)).
    + split; cbn; unfold U64_MAX; lia.
    + intros []%not_elem_of_nil.
    + reflexivity.
  - apply rtc_once. constructor.
Defined.

End RunQueue.
