(* ===== verification/IntrusiveList.v ===== *)
(** * Intrusive doubly-linked list (libs/intrusive_list/src/lib.rs)

    The list the scheduler links threads with, over an explicit heap of link
    nodes. Reading or writing an address that holds no node, and every failed
    debug assertion, is a panic, so the theorems exclude wild pointers too. *)

From S2P Require Import Prelude.

Module IntrusiveList.

(** ** The code *)

Record Link := mk_link { next : Z; prev : Z; linked : bool }.
Definition Link_new : Link := mk_link 0 0 false.

Abbreviation heap := (gmap Z Link).

Definition is_canonical (addr : Z) : bool :=
  let high := Z.shiftr addr 47 in (high =? 0) || (high =? 0x1FFFF).

Definition load (h : heap) (a : Z) : outcome Link := match h !! a with Some k => Ret k | None => Panic end.
Definition set_next (h : heap) (a v : Z) : outcome heap :=
  k ← load h a; Ret (<[a := mk_link v (prev k) (linked k)]> h).
Definition set_prev (h : heap) (a v : Z) : outcome heap :=
  k ← load h a; Ret (<[a := mk_link (next k) v (linked k)]> h).

Definition debug_assert (b : bool) : outcome unit := if b then Ret tt else Panic.

Record IntrusiveList := mk_list { head : Z; tail : Z; len : nat }.
Definition new : IntrusiveList := mk_list 0 0 0.
Definition is_empty (l : IntrusiveList) : bool := (len l =? 0)%nat.

Section Linked.

(** [offset_of!] of the link field in the container, as [impl_linked!] uses it. *)
Context (offset : Z).

Definition links (ptr : Z) : Z := ptr + offset.
Definition from_link (link : Z) : Z := link - offset.

Definition push_back (h : heap) (l : IntrusiveList) (ptr : Z) : outcome (heap * IntrusiveList) :=
  _ ← debug_assert (negb (ptr =? 0));
  _ ← debug_assert (is_canonical ptr);
  _ ← debug_assert (is_canonical (head l));
  _ ← debug_assert (is_canonical (tail l));
  let link := links ptr in
  k ← load h link;
  _ ← debug_assert (negb (linked k));
  let h := <[link := mk_link 0 (tail l) true]> h in
  if tail l =? 0 then Ret (h, mk_list link link (S (len l)))
  else h ← set_next h (tail l) link; Ret (h, mk_list (head l) link (S (len l))).

Definition push_front (h : heap) (l : IntrusiveList) (ptr : Z) : outcome (heap * IntrusiveList) :=
  _ ← debug_assert (negb (ptr =? 0));
  _ ← debug_assert (is_canonical ptr);
  _ ← debug_assert (is_canonical (head l));
  _ ← debug_assert (is_canonical (tail l));
  let link := links ptr in
  k ← load h link;
  _ ← debug_assert (negb (linked k));
  let h := <[link := mk_link (head l) 0 true]> h in
  if head l =? 0 then Ret (h, mk_list link link (S (len l)))
  else h ← set_prev h (head l) link; Ret (h, mk_list link (tail l) (S (len l))).

Definition unlink (h : heap) (l : IntrusiveList) (link : Z) : outcome (heap * IntrusiveList) :=
  _ ← debug_assert (is_canonical link);
  k ← load h link;
  let p := prev k in
  let n := next k in
  _ ← debug_assert (is_canonical p);
  _ ← debug_assert (is_canonical n);
  '(h, head') ← (if p =? 0 then Ret (h, n) else h ← set_next h p n; Ret (h, head l));
  '(h, tail') ← (if n =? 0 then Ret (h, p) else h ← set_prev h n p; Ret (h, tail l));
  _ ← load h link;
  let h := <[link := mk_link 0 0 false]> h in
  match len l with O => Panic | S len' => Ret (h, mk_list head' tail' len') end.

Definition pop_front (h : heap) (l : IntrusiveList) : outcome (option Z * heap * IntrusiveList) :=
  if head l =? 0 then Ret (None, h, l)
  else '(h', l') ← unlink h l (head l); Ret (Some (from_link (head l)), h', l').

Definition pop_back (h : heap) (l : IntrusiveList) : outcome (option Z * heap * IntrusiveList) :=
  if tail l =? 0 then Ret (None, h, l)
  else '(h', l') ← unlink h l (tail l); Ret (Some (from_link (tail l)), h', l').

Definition remove (h : heap) (l : IntrusiveList) (ptr : Z) : outcome (heap * IntrusiveList) :=
  k ← load h (links ptr);
  _ ← debug_assert (linked k);
  unlink h l (links ptr).

Definition front (l : IntrusiveList) : option Z := if head l =? 0 then None else Some (from_link (head l)).
Definition back (l : IntrusiveList) : option Z := if tail l =? 0 then None else Some (from_link (tail l)).

(** Exhausting [iter()]: [remaining -= 1] underflows when the chain is longer
    than the recorded length. *)
Fixpoint iter_from (h : heap) (current : Z) (remaining : nat) : outcome (list Z) :=
  if current =? 0 then Ret []
  else match remaining with
  | O => Panic
  | S r => k ← load h current; rest ← iter_from h (next k) r; Ret (from_link current :: rest)
  end.

Definition iter (h : heap) (l : IntrusiveList) : outcome (list Z) := iter_from h (head l) (len l).

(** Exhausting [drain()]; each turn removes a node, so the length plus the
    final empty turn bounds the loop. *)
Fixpoint drain_loop (fuel : nat) (h : heap) (l : IntrusiveList) : outcome (list Z * heap * IntrusiveList) :=
  match fuel with
  | O => Panic
  | S fuel' =>
      '(x, h, l) ← pop_front h l;
      match x with
      | None => Ret ([], h, l)
      | Some p => '(ps, h, l) ← drain_loop fuel' h l; Ret (p :: ps, h, l)
      end
  end.

Definition drain (h : heap) (l : IntrusiveList) : outcome (list Z * heap * IntrusiveList) :=
  drain_loop (S (len l)) h l.

(** ** The chain a list of addresses stands for *)

Definition hd (q : Z) (xs : list Z) : Z := match xs with [] => q | x :: _ => x end.
Fixpoint lst (p : Z) (xs : list Z) : Z := match xs with [] => p | x :: xs => lst x xs end.

(** [dseg h p xs q]: the nodes [xs] are chained both ways, between the node
    [p] before them and [q] after. *)
Fixpoint dseg (h : heap) (p : Z) (xs : list Z) (q : Z) : Prop :=
  match xs with
  | [] => True
  | x :: xs => h !! x = Some (mk_link (hd q xs) p true) ∧ dseg h x xs q
  end.

(** A node that may be linked: not null, and the assertions hold of it. *)
Definition good (a : Z) : Prop :=
  a ≠ 0 ∧ is_canonical a = true ∧ from_link a ≠ 0 ∧ is_canonical (from_link a) = true.

Record repr (h : heap) (l : IntrusiveList) (xs : list Z) : Prop := {
  r_head : head l = hd 0 xs;
  r_tail : tail l = lst 0 xs;
  r_len : len l = length xs;
  r_nodup : NoDup xs;
  r_good : Forall good xs;
  r_seg : dseg h 0 xs 0
}.

Lemma lst_app p xs ys : lst p (xs ++ ys) = lst (lst p xs) ys.
Proof. revert p. induction xs as [|x xs IH]; intros p; cbn; auto. Qed.

Lemma hd_app q xs ys : hd q (xs ++ ys) = hd (hd q ys) xs.
Proof. by destruct xs. Qed.

Lemma dseg_app h p xs ys q : dseg h p (xs ++ ys) q ↔ dseg h p xs (hd q ys) ∧ dseg h (lst p xs) ys q.
Proof.
  revert p. induction xs as [|x xs IH]; intros p; cbn [app dseg lst]; [tauto|].
  rewrite IH, hd_app. tauto.
Qed.

(** The chain depends only on its own nodes. *)
Lemma dseg_frame h h' p xs q : (∀ a, a ∈ xs → h' !! a = h !! a) → dseg h p xs q → dseg h' p xs q.
Proof.
  revert p. induction xs as [|x xs IH]; intros p Hf; cbn [dseg]; [done|]. intros [Hx Hs]. split.
  - rewrite Hf by left. done.
  - apply IH; [|done]. intros a Ha. apply Hf. by right.
Qed.

Lemma dseg_lookup h p xs q a : dseg h p xs q → a ∈ xs → ∃ k, h !! a = Some k ∧ linked k = true.
Proof.
  revert p. induction xs as [|x xs IH]; intros p; cbn [dseg]; [by intros _ ?%not_elem_of_nil|].
  intros [Hx Hs] [->|Hin]%elem_of_cons; [eauto|]. by apply (IH x).
Qed.

(** Redirecting the last node's [next], and the first node's [prev]. *)
Lemma dseg_set_next h p xs a q q' : a ∉ xs → dseg h p (xs ++ [a]) q →
  dseg (<[a := mk_link q' (lst p xs) true]> h) p (xs ++ [a]) q'.
Proof.
  intros Hni [H1 [H2 _]]%dseg_app. apply dseg_app. cbn [dseg hd] in *. split.
  - eapply dseg_frame; [|done]. intros b Hb. rewrite lookup_insert_ne; [done|]. by intros ->.
  - by rewrite lookup_insert_eq.
Qed.

Lemma dseg_set_prev h p p' a xs q : a ∉ xs → dseg h p (a :: xs) q →
  dseg (<[a := mk_link (hd q xs) p' true]> h) p' (a :: xs) q.
Proof.
  intros Hni [H1 H2]. cbn [dseg]. split; [by rewrite lookup_insert_eq|].
  eapply dseg_frame; [|done]. intros b Hb. rewrite lookup_insert_ne; [done|]. by intros ->.
Qed.

Lemma canonical_0 : is_canonical 0 = true.
Proof. done. Qed.

Lemma hd_good xs : Forall good xs → is_canonical (hd 0 xs) = true ∧ (hd 0 xs = 0 → xs = []).
Proof. destruct 1 as [|x xs (H1 & H2 & _) _]; [done|]. cbn [hd]. split; [done|]. by intros ?. Qed.

Lemma lst_in p xs : xs ≠ [] → lst p xs ∈ xs.
Proof.
  revert p. induction xs as [|x xs IH]; [done|]. intros p _. cbn [lst]. destruct xs as [|y xs]; [left|].
  right. by apply IH.
Qed.

Lemma lst_good xs : Forall good xs → is_canonical (lst 0 xs) = true ∧ (lst 0 xs = 0 → xs = []).
Proof.
  intros Hg. destruct (decide (xs = [])) as [->|Hne]; [done|].
  pose proof (lst_in 0 xs Hne) as Hin. rewrite Forall_forall in Hg. destruct (Hg _ Hin) as (H1 & H2 & _).
  split; [done|]. by intros ?.
Qed.

(** ** Each operation on one list *)

(** [h'] differs from [h] only at the given addresses. *)
Definition only (h h' : heap) (xs : list Z) : Prop := ∀ b, b ∉ xs → h' !! b = h !! b.

Lemma snoc_inv (xs : list Z) : xs ≠ [] → ∃ ys z, xs = ys ++ [z].
Proof. intros Hne. destruct (exists_last Hne) as (ys & z & ->). eauto. Qed.

(** Closing the gap before: [prev.next = n], or the head. *)
Lemma fix_before h l1 a n hd0 : dseg h 0 l1 a → NoDup l1 → Forall good l1 → hd0 = hd a l1 →
  ∃ h', (if lst 0 l1 =? 0 then Ret (h, n) else h ← set_next h (lst 0 l1) n; Ret (h, hd0)) = Ret (h', hd n l1) ∧
    dseg h' 0 l1 n ∧ only h h' l1.
Proof.
  intros Hs Hnd Hg ->. destruct (Z.eqb_spec (lst 0 l1) 0) as [E|E].
  { apply lst_good in E; [|done]. subst l1. exists h. done. }
  destruct (snoc_inv l1) as (ys & z & ->); [by intros ->|].
  rewrite lst_app. cbn [lst]. apply NoDup_app in Hnd as (_ & Hz & _).
  assert (Hni : z ∉ ys) by (intros Hin; apply (Hz z Hin); left).
  pose proof Hs as [_ [Hlk _]]%dseg_app. unfold set_next, load. rewrite Hlk. cbn [mbind outcome_bind prev linked].
  eexists. split; [by rewrite !hd_app|]. split; [by eapply dseg_set_next|].
  intros b Hb. rewrite lookup_insert_ne; [done|]. intros ->. apply Hb. apply elem_of_app. right. left.
Qed.

(** Closing the gap after: [next.prev = p], or the tail. *)
Lemma fix_after h a l2 p tl0 : dseg h a l2 0 → NoDup l2 → Forall good l2 → tl0 = lst a l2 →
  ∃ h', (if hd 0 l2 =? 0 then Ret (h, p) else h ← set_prev h (hd 0 l2) p; Ret (h, tl0)) = Ret (h', lst p l2) ∧
    dseg h' p l2 0 ∧ only h h' l2.
Proof.
  intros Hs Hnd Hg ->. destruct (Z.eqb_spec (hd 0 l2) 0) as [E|E].
  { apply hd_good in E; [|done]. subst l2. exists h. done. }
  destruct l2 as [|x l2]; [done|]. cbn [hd lst]. apply NoDup_cons in Hnd as [Hni _].
  pose proof Hs as [Hlk _]. unfold set_prev, load. rewrite Hlk. cbn [mbind outcome_bind next linked].
  eexists. split; [done|]. split; [by eapply dseg_set_prev|].
  intros b Hb. rewrite lookup_insert_ne; [done|]. intros ->. apply Hb. left.
Qed.

Lemma unlink_spec h l l1 a l2 : repr h l (l1 ++ a :: l2) →
  ∃ h' l', unlink h l a = Ret (h', l') ∧ repr h' l' (l1 ++ l2) ∧
    only h h' (l1 ++ a :: l2) ∧ h' !! a = Some Link_new.
Proof.
  intros [Hh Ht Hlen Hnd Hg [Hs1 [Ha Hs2]]%dseg_app]. cbn [hd] in Hs1.
  apply Forall_app in Hg as [Hg1 [Hga Hg2]%Forall_cons]. destruct (Hga) as (Ha0 & Hca & _).
  apply NoDup_app in Hnd as (Hnd1 & Hx & [Hni Hnd2]%NoDup_cons).
  assert (Hd1 : a ∉ l1) by (intros Hin; apply (Hx a Hin); left).
  assert (Hd2 : ∀ b, b ∈ l2 → b ∉ l1) by (intros b Hb Hin; apply (Hx b Hin); by right).
  unfold unlink, load. rewrite Hca, Ha. cbn [debug_assert mbind outcome_bind prev next].
  rewrite (proj1 (lst_good l1 Hg1)), (proj1 (hd_good l2 Hg2)). cbn [debug_assert mbind outcome_bind].
  destruct (fix_before h l1 a (hd 0 l2) (head l) Hs1 Hnd1 Hg1) as (h1 & -> & Hseg1 & Ho1).
  { by rewrite Hh, hd_app. }
  cbn [mbind outcome_bind].
  assert (Hs2' : dseg h1 a l2 0) by (eapply dseg_frame; [|done]; intros b Hb; apply Ho1; auto).
  destruct (fix_after h1 a l2 (lst 0 l1) (tail l) Hs2' Hnd2 Hg2) as (h2 & -> & Hseg2 & Ho2).
  { by rewrite Ht, lst_app. }
  cbn [mbind outcome_bind]. rewrite (Ho2 a), (Ho1 a), Ha by done. cbn [mbind outcome_bind].
  rewrite Hlen, length_app. cbn [length]. rewrite Nat.add_succ_r.
  eexists _, _. split; [done|].
  assert (Hseg1' : dseg h2 0 l1 (hd 0 l2)).
  { eapply dseg_frame; [|done]. intros b Hb. apply Ho2. intros Hb2. by apply (Hd2 b). }
  split; [split; cbn [head tail len]|split].
  - by rewrite hd_app.
  - by rewrite lst_app.
  - by rewrite length_app.
  - apply NoDup_app. split; [done|]. split; [|done]. intros b Hb Hb2. by apply (Hd2 b).
  - by apply Forall_app.
  - apply dseg_app. split; (eapply dseg_frame; [|done]); intros b Hb; rewrite lookup_insert_ne; try done; by intros ->.
  - intros b Hb. rewrite not_elem_of_app, not_elem_of_cons in Hb. destruct Hb as (Hb1 & Hba & Hb2).
    rewrite lookup_insert_ne by done. by rewrite Ho2, Ho1.
  - by rewrite lookup_insert_eq.
Qed.

Lemma links_from a : links (from_link a) = a.
Proof. unfold links, from_link. lia. Qed.

(** The checks both insertions start with. *)
Lemma insert_checks {B} h l xs a k (m : Link → outcome B) : repr h l xs → good a → h !! a = Some k → linked k = false →
  (_ ← debug_assert (negb (from_link a =? 0)); _ ← debug_assert (is_canonical (from_link a));
   _ ← debug_assert (is_canonical (head l)); _ ← debug_assert (is_canonical (tail l));
   k ← load h (links (from_link a)); _ ← debug_assert (negb (linked k)); m k) = m k.
Proof.
  intros [Hh Ht _ _ Hg _] (Ha0 & Hca & Hp0 & Hcp) Hk Hl.
  rewrite (proj2 (Z.eqb_neq _ _) Hp0), Hcp, Hh, Ht, (proj1 (hd_good xs Hg)), (proj1 (lst_good xs Hg)), links_from.
  unfold load. rewrite Hk. cbn [mbind outcome_bind debug_assert negb]. by rewrite Hl.
Qed.

Lemma push_back_spec h l xs a k : repr h l xs → good a → h !! a = Some k → linked k = false → a ∉ xs →
  ∃ h' l', push_back h l (from_link a) = Ret (h', l') ∧ repr h' l' (xs ++ [a]) ∧ only h h' (a :: xs).
Proof.
  intros Hr Hga Hk Hl Hni. pose proof Hr as [Hh Ht Hlen Hnd Hg Hs].
  unfold push_back. rewrite (insert_checks h l xs a k) by done. rewrite links_from, Ht.
  set (h1 := <[a := mk_link 0 (lst 0 xs) true]> h).
  assert (Hs1 : dseg h1 0 xs 0).
  { eapply dseg_frame; [|done]. intros b Hb. unfold h1. rewrite lookup_insert_ne; [done|]. by intros ->. }
  assert (Hlist : ∀ h' hd', hd' = hd a xs → dseg h' 0 xs a → h' !! a = Some (mk_link 0 (lst 0 xs) true) →
    repr h' (mk_list hd' a (S (len l))) (xs ++ [a])).
  { intros h' hd' -> Hs' Ha'. split; cbn [head tail len].
    - by rewrite hd_app.
    - by rewrite lst_app.
    - rewrite Hlen, length_app. cbn [length]. lia.
    - apply NoDup_app. split; [done|]. split; [|apply NoDup_singleton]. by intros b Hb ->%list_elem_of_singleton.
    - apply Forall_app. split; [done|]. by constructor.
    - apply dseg_app. split; [done|]. cbn [dseg hd]. done. }
  destruct (Z.eqb_spec (lst 0 xs) 0) as [E|E].
  { apply lst_good in E; [|done]. subst xs. eexists _, _. split; [done|]. split.
    - apply Hlist; [done|done|]. unfold h1. by rewrite lookup_insert_eq.
    - intros b [Hb _]%not_elem_of_cons. unfold h1. by rewrite lookup_insert_ne. }
  destruct (fix_before h1 xs 0 a (head l) Hs1 Hnd Hg) as (h2 & Hfix & Hs2 & Ho2); [done|].
  rewrite (proj2 (Z.eqb_neq _ _) E) in Hfix. unfold set_next in *.
  destruct (load h1 (lst 0 xs)) as [k1|]; [|done]. cbn [mbind outcome_bind] in *. injection Hfix as -> Hhd.
  eexists _, _. split; [done|]. split.
  - apply Hlist; [done|done|]. rewrite Ho2 by done. unfold h1. by rewrite lookup_insert_eq.
  - intros b [Hb1 Hb2]%not_elem_of_cons. rewrite Ho2 by done. unfold h1. by rewrite lookup_insert_ne.
Qed.

Lemma push_front_spec h l xs a k : repr h l xs → good a → h !! a = Some k → linked k = false → a ∉ xs →
  ∃ h' l', push_front h l (from_link a) = Ret (h', l') ∧ repr h' l' (a :: xs) ∧ only h h' (a :: xs).
Proof.
  intros Hr Hga Hk Hl Hni. pose proof Hr as [Hh Ht Hlen Hnd Hg Hs].
  unfold push_front. rewrite (insert_checks h l xs a k) by done. rewrite links_from, Hh.
  set (h1 := <[a := mk_link (hd 0 xs) 0 true]> h).
  assert (Hs1 : dseg h1 0 xs 0).
  { eapply dseg_frame; [|done]. intros b Hb. unfold h1. rewrite lookup_insert_ne; [done|]. by intros ->. }
  assert (Hlist : ∀ h' tl', tl' = lst a xs → dseg h' a xs 0 → h' !! a = Some (mk_link (hd 0 xs) 0 true) →
    repr h' (mk_list a tl' (S (len l))) (a :: xs)).
  { intros h' tl' -> Hs' Ha'. split; cbn [head tail len]; try done.
    - by rewrite Hlen.
    - by apply NoDup_cons.
    - by constructor. }
  destruct (Z.eqb_spec (hd 0 xs) 0) as [E|E].
  { apply hd_good in E; [|done]. subst xs. eexists _, _. split; [done|]. split.
    - apply Hlist; [done|done|]. unfold h1. by rewrite lookup_insert_eq.
    - intros b [Hb _]%not_elem_of_cons. unfold h1. by rewrite lookup_insert_ne. }
  destruct (fix_after h1 0 xs a (tail l) Hs1 Hnd Hg) as (h2 & Hfix & Hs2 & Ho2); [done|].
  rewrite (proj2 (Z.eqb_neq _ _) E) in Hfix. unfold set_prev in *.
  destruct (load h1 (hd 0 xs)) as [k1|]; [|done]. cbn [mbind outcome_bind] in *. injection Hfix as -> Htl.
  eexists _, _. split; [done|]. split.
  - apply Hlist; [done|done|]. rewrite Ho2 by done. unfold h1. by rewrite lookup_insert_eq.
  - intros b [Hb1 Hb2]%not_elem_of_cons. rewrite Ho2 by done. unfold h1. by rewrite lookup_insert_ne.
Qed.

Lemma pop_front_spec h l xs : repr h l xs →
  match xs with
  | [] => pop_front h l = Ret (None, h, l)
  | a :: xs' => ∃ h' l', pop_front h l = Ret (Some (from_link a), h', l') ∧ repr h' l' xs' ∧
      only h h' xs ∧ h' !! a = Some Link_new
  end.
Proof.
  intros Hr. pose proof Hr as [Hh _ _ _ Hg _]. unfold pop_front. destruct xs as [|a xs]; cbn [hd] in Hh; rewrite Hh; [done|].
  apply Forall_cons in Hg as [(Ha & _) _]. rewrite (proj2 (Z.eqb_neq _ _) Ha).
  destruct (unlink_spec h l [] a xs Hr) as (h' & l' & -> & H). cbn [mbind outcome_bind app] in *. eauto.
Qed.

Lemma pop_back_spec h l xs : repr h l xs →
  (xs = [] ∧ pop_back h l = Ret (None, h, l)) ∨
  ∃ ys a h' l', xs = ys ++ [a] ∧ pop_back h l = Ret (Some (from_link a), h', l') ∧ repr h' l' ys ∧
    only h h' xs ∧ h' !! a = Some Link_new.
Proof.
  intros Hr. pose proof Hr as [_ Ht _ _ Hg _]. unfold pop_back. rewrite Ht.
  destruct (decide (xs = [])) as [->|Hne]; [by left|right]. destruct (snoc_inv xs Hne) as (ys & a & ->).
  apply Forall_app in Hg as [_ [(Ha & _) _]%Forall_cons]. rewrite lst_app. cbn [lst].
  rewrite (proj2 (Z.eqb_neq _ _) Ha). destruct (unlink_spec h l ys a [] Hr) as (h' & l' & -> & H).
  rewrite app_nil_r in H. cbn [mbind outcome_bind]. eauto 8.
Qed.

Lemma remove_spec h l l1 a l2 : repr h l (l1 ++ a :: l2) →
  ∃ h' l', remove h l (from_link a) = Ret (h', l') ∧ repr h' l' (l1 ++ l2) ∧
    only h h' (l1 ++ a :: l2) ∧ h' !! a = Some Link_new.
Proof.
  intros Hr. pose proof (r_seg _ _ _ Hr) as [_ [Ha _]]%dseg_app. unfold remove. rewrite links_from. unfold load. rewrite Ha.
  cbn [mbind outcome_bind linked debug_assert]. by apply unlink_spec.
Qed.

Lemma iter_from_spec h p xs : Forall good xs → dseg h p xs 0 → iter_from h (hd 0 xs) (length xs) = Ret (from_link <$> xs).
Proof.
  intros Hg. revert p. induction Hg as [|a xs (Ha & _) _ IH]; intros p; [done|]. intros [Hl Hs].
  cbn [length hd iter_from]. rewrite (proj2 (Z.eqb_neq _ _) Ha). unfold load. rewrite Hl.
  cbn [mbind outcome_bind next]. by rewrite (IH a Hs).
Qed.

Lemma iter_spec h l xs : repr h l xs → iter h l = Ret (from_link <$> xs).
Proof. intros [Hh _ Hlen _ Hg Hs]. unfold iter. rewrite Hh, Hlen. by apply (iter_from_spec h 0). Qed.

Lemma drain_loop_spec xs : ∀ h l, repr h l xs →
  ∃ h' l', drain_loop (S (length xs)) h l = Ret (from_link <$> xs, h', l') ∧ repr h' l' [] ∧
    only h h' xs ∧ ∀ a, a ∈ xs → h' !! a = Some Link_new.
Proof.
  induction xs as [|a xs IH]; intros h l Hr; pose proof (pop_front_spec h l _ Hr) as Hp; cbn [drain_loop length].
  - rewrite Hp. cbn [mbind outcome_bind]. exists h, l. split; [done|]. split; [done|]. split; [done|]. by intros a ?%not_elem_of_nil.
  - destruct Hp as (h1 & l1 & -> & Hr1 & Ho1 & Ha). cbn [mbind outcome_bind].
    destruct (IH h1 l1 Hr1) as (h2 & l2 & Hd & Hr2 & Ho2 & Hx). cbn [drain_loop] in Hd. rewrite Hd. cbn [mbind outcome_bind].
    eexists _, _. split; [done|]. split; [done|].
    pose proof (r_nodup _ _ _ Hr) as [Hni _]%NoDup_cons. split.
    + intros b [Hb1 Hb2]%not_elem_of_cons. rewrite Ho2 by done. apply Ho1. by apply not_elem_of_cons.
    + intros b [->|Hb]%elem_of_cons; [by rewrite Ho2|by apply Hx].
Qed.

Lemma drain_spec h l xs : repr h l xs →
  ∃ h' l', drain h l = Ret (from_link <$> xs, h', l') ∧ repr h' l' [] ∧
    only h h' xs ∧ ∀ a, a ∈ xs → h' !! a = Some Link_new.
Proof. intros Hr. unfold drain. rewrite (r_len _ _ _ Hr). by apply drain_loop_spec. Qed.

(** ** Several lists over one heap *)

Inductive op :=
| PushBack (i : nat) (p : Z) | PushFront (i : nat) (p : Z) | PopFront (i : nat) | PopBack (i : nat)
| Remove (i : nat) (p : Z) | Drain (i : nat) | Iter (i : nat) | Front (i : nat) | Back (i : nat)
| Len (i : nat) | IsLinked (p : Z).

Inductive res := RUnit | RPtr (p : option Z) | RPtrs (ps : list Z) | RLen (n : nat) | RBool (b : bool).

Definition sys := (heap * list IntrusiveList)%type.

(** An operation that rewrites list [i]. *)
Definition on_list (s : sys) (i : nat) (f : heap → IntrusiveList → outcome (res * heap * IntrusiveList)) : outcome (res * sys) :=
  match snd s !! i with
  | None => Panic
  | Some l => '(r, h, l) ← f (fst s) l; Ret (r, (h, <[i := l]> (snd s)))
  end.

Definition exec (s : sys) (o : op) : outcome (res * sys) :=
  match o with
  | PushBack i p => on_list s i (λ h l, '(h, l) ← push_back h l p; Ret (RUnit, h, l))
  | PushFront i p => on_list s i (λ h l, '(h, l) ← push_front h l p; Ret (RUnit, h, l))
  | PopFront i => on_list s i (λ h l, '(x, h, l) ← pop_front h l; Ret (RPtr x, h, l))
  | PopBack i => on_list s i (λ h l, '(x, h, l) ← pop_back h l; Ret (RPtr x, h, l))
  | Remove i p => on_list s i (λ h l, '(h, l) ← remove h l p; Ret (RUnit, h, l))
  | Drain i => on_list s i (λ h l, '(ps, h, l) ← drain h l; Ret (RPtrs ps, h, l))
  | Iter i => on_list s i (λ h l, ps ← iter h l; Ret (RPtrs ps, h, l))
  | Front i => on_list s i (λ h l, Ret (RPtr (front l), h, l))
  | Back i => on_list s i (λ h l, Ret (RPtr (back l), h, l))
  | Len i => on_list s i (λ h l, Ret (RLen (len l), h, l))
  | IsLinked p => k ← load (fst s) (links p); Ret (RBool (linked k), s)
  end.

(** The same operations on lists of container addresses; [None] when the
    safety contract of the call is broken: inserting a dead or a linked
    element, or removing one from a list it is not in. *)
Definition member (pss : list (list Z)) (p : Z) : bool := existsb (λ ps, existsb (Z.eqb p) ps) pss.

Definition aexec (live : list Z) (pss : list (list Z)) (o : op) : option (res * list (list Z)) :=
  let on i f := ps ← pss !! i; '(r, ps') ← f ps; Some (r, <[i := ps']> pss) in
  match o with
  | PushBack i p => on i (λ ps : list Z, if existsb (Z.eqb p) live && negb (member pss p) then Some (RUnit, ps ++ [p]) else None)
  | PushFront i p => on i (λ ps : list Z, if existsb (Z.eqb p) live && negb (member pss p) then Some (RUnit, p :: ps) else None)
  | PopFront i => on i (λ ps : list Z, Some (RPtr (List.hd_error ps), List.tl ps))
  | PopBack i => on i (λ ps : list Z, Some (RPtr (last ps), List.removelast ps))
  | Remove i p => on i (λ ps : list Z, if existsb (Z.eqb p) ps then Some (RUnit, List.filter (λ q, negb (q =? p)) ps) else None)
  | Drain i => on i (λ ps : list Z, Some (RPtrs ps, []))
  | Iter i => on i (λ ps : list Z, Some (RPtrs ps, ps))
  | Front i => on i (λ ps : list Z, Some (RPtr (List.hd_error ps), ps))
  | Back i => on i (λ ps : list Z, Some (RPtr (last ps), ps))
  | Len i => on i (λ ps : list Z, Some (RLen (length ps), ps))
  | IsLinked p => if existsb (Z.eqb p) live then Some (RBool (member pss p), pss) else None
  end.

Fixpoint run (s : sys) (ops : list op) : outcome (list res * sys) :=
  match ops with
  | [] => Ret ([], s)
  | o :: ops => '(r, s) ← exec s o; '(rs, s) ← run s ops; Ret (r :: rs, s)
  end.

Fixpoint arun (live : list Z) (pss : list (list Z)) (ops : list op) : option (list res * list (list Z)) :=
  match ops with
  | [] => Some ([], pss)
  | o :: ops => '(r, pss) ← aexec live pss o; '(rs, pss) ← arun live pss ops; Some (r :: rs, pss)
  end.

(** Nodes all unlinked and [n] empty lists. *)
Definition start (live : list Z) (n : nat) : sys :=
  (list_to_map ((λ p, (links p, Link_new)) <$> live), replicate n new).

Record sys_inv (live : list Z) (s : sys) (pss : list (list Z)) : Prop := {
  inv_live : ∀ p, is_Some (fst s !! links p) ↔ p ∈ live;
  inv_good : ∀ p, p ∈ live → good (links p);
  inv_repr : Forall2 (λ l ps, repr (fst s) l (links <$> ps)) (snd s) pss;
  inv_disj : ∀ i j ps qs p, pss !! i = Some ps → pss !! j = Some qs → p ∈ ps → p ∈ qs → i = j;
  inv_flag : ∀ p k, fst s !! links p = Some k → linked k = true ↔ ∃ i ps, pss !! i = Some ps ∧ p ∈ ps
}.

Lemma links_inj p q : links p = links q → p = q.
Proof. unfold links. lia. Qed.

Lemma links_in (ps : list Z) p : links p ∈ links <$> ps ↔ p ∈ ps.
Proof.
  rewrite list_elem_of_fmap. split; [intros (q & E & Hq); by apply links_inj in E as ->|eauto].
Qed.

Lemma from_links (ps : list Z) : from_link <$> (links <$> ps) = ps.
Proof. induction ps as [|p ps IH]; cbn; [done|]. f_equal; [unfold links, from_link; lia|done]. Qed.

Lemma from_links1 p : from_link (links p) = p.
Proof. unfold from_link, links. lia. Qed.

Lemma existsb_in p (ps : list Z) : existsb (Z.eqb p) ps = true ↔ p ∈ ps.
Proof.
  rewrite existsb_exists, list_elem_of_In. split; [intros (x & Hx & E%Z.eqb_eq); by subst|].
  intros H. exists p. split; [done|apply Z.eqb_refl].
Qed.

Lemma member_spec pss p : member pss p = true ↔ ∃ i ps, pss !! i = Some ps ∧ p ∈ ps.
Proof.
  unfold member. rewrite existsb_exists. split.
  - intros (ps & Hin%list_elem_of_In & Hp%existsb_in). apply list_elem_of_lookup in Hin as [i Hi]. eauto.
  - intros (i & ps & Hi & Hp). exists ps. split; [apply list_elem_of_In; by eapply list_elem_of_lookup_2|by apply existsb_in].
Qed.

(** Rewriting list [i] from [ps] to [ps'], touching only the nodes [t]. *)
Lemma sys_update live h ls pss i (ps : list Z) l' (ps' : list Z) h' (t : list Z) : sys_inv live (h, ls) pss → pss !! i = Some ps →
  repr h' l' (links <$> ps') → only h h' (links <$> t) → (∀ q, q ∈ ps → q ∈ t) → (∀ q, q ∈ ps' → q ∈ t) →
  (∀ q, q ∈ t → q ∈ live) → (∀ q j qs, q ∈ t → j ≠ i → pss !! j = Some qs → q ∉ qs) →
  (∀ q, q ∈ t → q ∉ ps' → h' !! links q = Some Link_new) →
  sys_inv live (h', <[i := l']> ls) (<[i := ps']> pss).
Proof.
  intros [Hlive Hgood Hrepr Hdisj Hflag] Hi Hr Ho Hps Hps' Hlv Hother Hnew. cbn [fst snd] in *.
  assert (Hilt : (i < length pss)%nat) by (by eapply lookup_lt_Some).
  assert (Hin : ∀ q, q ∈ ps' → ∃ k, h' !! links q = Some k ∧ linked k = true).
  { intros q Hq. apply (dseg_lookup h' 0 (links <$> ps') 0); [by destruct Hr|]. by apply links_in. }
  assert (Hout : ∀ q, q ∉ t → h' !! links q = h !! links q) by (intros q Hq; apply Ho; by rewrite links_in).
  assert (Hcase : ∀ j qs, <[i := ps']> pss !! j = Some qs → j = i ∧ qs = ps' ∨ j ≠ i ∧ pss !! j = Some qs).
  { intros j qs. destruct (decide (j = i)) as [->|Hne]; [|rewrite list_lookup_insert_ne by done; auto].
    rewrite list_lookup_insert_eq by done. intros [= <-]. auto. }
  split; cbn [fst snd].
  - intros p. destruct (decide (p ∈ t)) as [Ht|Ht]; [|rewrite Hout by done; apply Hlive].
    split; [auto|intros _]. destruct (decide (p ∈ ps')) as [Hp|Hp]; [destruct (Hin p Hp) as (k & -> & _); eauto|].
    rewrite Hnew by done. eauto.
  - done.
  - apply Forall2_same_length_lookup. apply Forall2_same_length_lookup in Hrepr as [Hlen Hrepr].
    split; [by rewrite !length_insert|]. intros j l qs Hl Hqs. destruct (Hcase j qs Hqs) as [[-> ->]|[Hne Hqs']].
    + rewrite list_lookup_insert_eq in Hl by lia. by injection Hl as <-.
    + rewrite list_lookup_insert_ne in Hl by done. destruct (Hrepr j l qs Hl Hqs') as [? ? ? ? ? Hseg].
      split; try done. eapply dseg_frame; [|done]. intros a (q & -> & Hq)%list_elem_of_fmap.
      apply Hout. intros Ht. by apply (Hother q j qs).
  - intros j1 j2 q1 q2 p H1 H2 P1 P2. destruct (Hcase _ _ H1) as [[-> ->]|[N1 H1']], (Hcase _ _ H2) as [[-> ->]|[N2 H2']]; try done.
    + by destruct (Hother p j2 q2 (Hps' p P1) N2 H2').
    + by destruct (Hother p j1 q1 (Hps' p P2) N1 H1').
    + by eapply Hdisj.
  - intros p k Hk. split.
    + intros Hl. destruct (decide (p ∈ t)) as [Ht|Ht].
      * destruct (decide (p ∈ ps')) as [Hp|Hp]; [exists i, ps'; by rewrite list_lookup_insert_eq|].
        rewrite Hnew in Hk by done. by injection Hk as <-.
      * rewrite Hout in Hk by done. apply (Hflag p k Hk) in Hl as (j & qs & Hj & Hq). exists j, qs.
        rewrite list_lookup_insert_ne; [done|]. intros ->. rewrite Hi in Hj. injection Hj as <-. by apply Ht, Hps.
    + intros (j & qs & Hj & Hq). destruct (Hcase j qs Hj) as [[-> ->]|[Hne Hj']].
      * destruct (Hin p Hq) as (k' & E & Hl). congruence.
      * destruct (decide (p ∈ t)) as [Ht|Ht]; [by destruct (Hother p j qs Ht Hne Hj')|].
        rewrite Hout in Hk by done. apply (Hflag p k Hk). eauto.
Qed.

(** What an operation on list [i] has to show. *)
Lemma list_op live h ls pss i (ps : list Z) (f : heap → IntrusiveList → outcome (res * heap * IntrusiveList)) r (ps' t : list Z) :
  sys_inv live (h, ls) pss → pss !! i = Some ps →
  (∀ q, q ∈ ps → q ∈ t) → (∀ q, q ∈ ps' → q ∈ t) → (∀ q, q ∈ t → q ∉ ps → q ∈ live ∧ member pss q = false) →
  (∀ l, repr h l (links <$> ps) → ∃ h' l', f h l = Ret (r, h', l') ∧ repr h' l' (links <$> ps') ∧
     only h h' (links <$> t) ∧ ∀ q, q ∈ t → q ∉ ps' → h' !! links q = Some Link_new) →
  ∃ s', on_list (h, ls) i f = Ret (r, s') ∧ sys_inv live s' (<[i := ps']> pss).
Proof.
  intros Hinv Hi Hps Hps' Ht Hf. pose proof (inv_repr _ _ _ Hinv) as Hrepr. cbn [fst snd] in Hrepr.
  destruct (Forall2_lookup_r _ _ _ i ps Hrepr Hi) as (l & Hl & Hr). unfold on_list. cbn [fst snd]. rewrite Hl.
  destruct (Hf l Hr) as (h' & l' & -> & Hr' & Ho & Hnew). cbn [mbind outcome_bind]. eexists. split; [done|].
  apply (sys_update live h ls pss i ps l' ps' h' t); try done.
  - intros q Hq. destruct (decide (q ∈ ps)) as [Hp|Hp]; [|by apply Ht].
    apply (inv_live _ _ _ Hinv). cbn [fst]. destruct (dseg_lookup h 0 (links <$> ps) 0 (links q)) as (k & -> & _); [by destruct Hr|by apply links_in|eauto].
  - intros q j qs Hq Hne Hj Hqs. destruct (decide (q ∈ ps)) as [Hp|Hp].
    + apply Hne. symmetry. by apply (inv_disj _ _ _ Hinv i j ps qs q).
    + destruct (Ht q Hq Hp) as [_ Hm]. apply not_true_iff_false in Hm. apply Hm, member_spec. eauto.
Qed.

(** The node an insertion is given: live and in no list. *)
Lemma fresh_node live h ls pss p : sys_inv live (h, ls) pss → existsb (Z.eqb p) live && negb (member pss p) = true →
  p ∈ live ∧ member pss p = false ∧ good (links p) ∧ ∃ k, h !! links p = Some k ∧ linked k = false.
Proof.
  intros Hinv [Hl%existsb_in Hm%negb_true_iff]%andb_true_iff. split; [done|]. split; [done|].
  split; [by apply (inv_good _ _ _ Hinv)|]. pose proof Hl as [k Hk]%(inv_live _ _ _ Hinv). exists k. split; [done|].
  apply not_true_iff_false. intros E%(inv_flag _ _ _ Hinv p k Hk). apply not_true_iff_false in Hm. by apply Hm, member_spec.
Qed.

Lemma not_member_i (pss : list (list Z)) i ps p : member pss p = false → pss !! i = Some ps → p ∉ ps.
Proof. intros Hm Hi Hp. apply not_true_iff_false in Hm. apply Hm, member_spec. eauto. Qed.

Lemma exec_push_back live h ls pss i ps p : sys_inv live (h, ls) pss → pss !! i = Some ps →
  existsb (Z.eqb p) live && negb (member pss p) = true →
  ∃ s', exec (h, ls) (PushBack i p) = Ret (RUnit, s') ∧ sys_inv live s' (<[i := ps ++ [p]]> pss).
Proof.
  intros Hinv Hi Hf. destruct (fresh_node _ _ _ _ _ Hinv Hf) as (Hl & Hm & Hg & k & Hk & Hlk).
  apply (list_op live h ls pss i ps _ RUnit (ps ++ [p]) (p :: ps)); [done|done|by right| | |].
  - intros q [Hq| ->%list_elem_of_singleton]%elem_of_app; [by right|left].
  - intros q [->|Hq]%elem_of_cons ?; [done|done].
  - intros l Hr. destruct (push_back_spec h l (links <$> ps) (links p) k) as (h' & l' & Hpb & Hr' & Ho); try done.
    { rewrite links_in. by eapply not_member_i. }
    rewrite from_links1 in Hpb. rewrite Hpb. cbn [mbind outcome_bind].
    eexists _, _. split; [done|]. rewrite fmap_app. split; [done|]. split; [done|].
    intros q [->|Hq]%elem_of_cons Hni; destruct Hni; apply elem_of_app; [right; left|by left].
Qed.

Lemma exec_push_front live h ls pss i ps p : sys_inv live (h, ls) pss → pss !! i = Some ps →
  existsb (Z.eqb p) live && negb (member pss p) = true →
  ∃ s', exec (h, ls) (PushFront i p) = Ret (RUnit, s') ∧ sys_inv live s' (<[i := p :: ps]> pss).
Proof.
  intros Hinv Hi Hf. destruct (fresh_node _ _ _ _ _ Hinv Hf) as (Hl & Hm & Hg & k & Hk & Hlk).
  apply (list_op live h ls pss i ps _ RUnit (p :: ps) (p :: ps)); [done|done|by right|done| |].
  - intros q [->|Hq]%elem_of_cons ?; [done|done].
  - intros l Hr. destruct (push_front_spec h l (links <$> ps) (links p) k) as (h' & l' & Hpf & Hr' & Ho); try done.
    { rewrite links_in. by eapply not_member_i. }
    rewrite from_links1 in Hpf. rewrite Hpf. cbn [mbind outcome_bind].
    eexists _, _. split; [done|]. split; [done|]. by split.
Qed.

(** Taking one node out of list [i]. *)
Lemma exec_take live h ls pss i l1 p l2 f r : sys_inv live (h, ls) pss → pss !! i = Some (l1 ++ p :: l2) →
  (∀ l, repr h l (links <$> (l1 ++ p :: l2)) → ∃ h' l', f h l = Ret (r, h', l') ∧ repr h' l' (links <$> (l1 ++ l2)) ∧
     only h h' (links <$> (l1 ++ p :: l2)) ∧ h' !! links p = Some Link_new) →
  ∃ s', on_list (h, ls) i f = Ret (r, s') ∧ sys_inv live s' (<[i := l1 ++ l2]> pss).
Proof.
  intros Hinv Hi Hf. apply (list_op live h ls pss i (l1 ++ p :: l2) f r (l1 ++ l2) (l1 ++ p :: l2)); [done|done|done| |done|].
  - intros q. rewrite !elem_of_app, elem_of_cons. tauto.
  - intros l Hr. destruct (Hf l Hr) as (h' & l' & -> & Hr' & Ho & Hp). eexists _, _. split; [done|]. split; [done|].
    split; [done|]. intros q. rewrite !elem_of_app, elem_of_cons. intros [?|[->|?]]; tauto.
Qed.

(** Reading list [i]. *)
Lemma exec_read live h ls pss i ps f r : sys_inv live (h, ls) pss → pss !! i = Some ps →
  (∀ l, repr h l (links <$> ps) → f h l = Ret (r, h, l)) →
  ∃ s', on_list (h, ls) i f = Ret (r, s') ∧ sys_inv live s' (<[i := ps]> pss).
Proof.
  intros Hinv Hi Hf. apply (list_op live h ls pss i ps f r ps ps); try done.
  intros l Hr. exists h, l. rewrite (Hf l Hr). by split_and!.
Qed.

Lemma filter_out (l1 : list Z) p l2 : NoDup (l1 ++ p :: l2) → List.filter (λ q, negb (q =? p)) (l1 ++ p :: l2) = l1 ++ l2.
Proof.
  intros (_ & Hx & [Hni _]%NoDup_cons)%NoDup_app. rewrite List.filter_app. cbn [List.filter]. rewrite Z.eqb_refl. cbn [negb].
  assert (Hid : ∀ l, p ∉ l → List.filter (λ q, negb (q =? p)) l = l).
  { induction l as [|x l IH]; [done|]. intros [Hn ?]%not_elem_of_cons. cbn [List.filter].
    rewrite (proj2 (Z.eqb_neq x p)) by done. cbn [negb]. by rewrite IH. }
  rewrite !Hid; [done|done|]. intros Hp. apply (Hx p Hp). left.
Qed.

Lemma exec_spec live s pss o r pss' : sys_inv live s pss → aexec live pss o = Some (r, pss') →
  ∃ s', exec s o = Ret (r, s') ∧ sys_inv live s' pss'.
Proof.
  destruct s as [h ls]. intros Hinv Ha.
  destruct o as [i p|i p|i|i|i p|i|i|i|i|i|p]; cbn [aexec] in Ha;
    try (destruct (pss !! i) as [ps|] eqn:Hi; [|done]); cbn [mbind option_bind] in Ha.
  - destruct (_ && _) eqn:Hf; [|done]. injection Ha as <- <-. by apply exec_push_back.
  - destruct (_ && _) eqn:Hf; [|done]. injection Ha as <- <-. by apply exec_push_front.
  - injection Ha as <- <-. destruct ps as [|p ps]; cbn [List.hd_error List.tl].
    + apply (exec_read live h ls pss i []); [done|done|]. intros l Hr. by rewrite (pop_front_spec _ _ _ Hr).
    + apply (exec_take live h ls pss i [] p ps); [done|done|]. intros l Hr.
      destruct (pop_front_spec _ _ _ Hr) as (h' & l' & Hp & H). rewrite Hp. cbn [mbind outcome_bind].
      eexists _, _. split; [|done]. by rewrite from_links1.
  - injection Ha as <- <-. destruct (decide (ps = [])) as [->|Hne].
    + apply (exec_read live h ls pss i []); [done|done|]. intros l Hr.
      destruct (pop_back_spec _ _ _ Hr) as [[_ ->]|(ys & a & ? & ? & E & _)]; [done|by destruct ys].
    + destruct (snoc_inv ps Hne) as (ys & p & ->). rewrite last_snoc, removelast_last.
      replace (<[i := ys]> pss) with (<[i := ys ++ []]> pss) by (by rewrite app_nil_r).
      apply (exec_take live h ls pss i ys p []); [done|done|]. intros l Hr.
      rewrite fmap_app in Hr. cbn [fmap list_fmap] in Hr.
      destruct (pop_back_spec _ _ _ Hr) as [[E _]|(zs & a & h' & l' & E & -> & H)]; [by destruct (links <$> ys)|].
      apply app_inj_tail in E as [E1 E2]. subst zs a. cbn [mbind outcome_bind]. eexists _, _.
      rewrite app_nil_r, fmap_app. cbn [fmap list_fmap]. split; [|done]. by rewrite from_links1.
  - destruct (existsb _ _) eqn:Hp; [|done]. injection Ha as <- <-. apply existsb_in in Hp.
    apply list_elem_of_split in Hp as (l1 & l2 & ->).
    pose proof (inv_repr _ _ _ Hinv) as Hrepr. destruct (Forall2_lookup_r _ _ _ i _ Hrepr Hi) as (l0 & _ & Hr0).
    apply r_nodup in Hr0. apply NoDup_fmap_1 in Hr0. rewrite filter_out by done.
    apply (exec_take live h ls pss i l1 p l2); [done|done|]. intros l Hr.
    rewrite fmap_app, fmap_cons in Hr. rewrite !fmap_app, fmap_cons. destruct (remove_spec _ _ _ _ _ Hr) as (h' & l' & Hrm & H).
    rewrite from_links1 in Hrm. rewrite Hrm. cbn [mbind outcome_bind]. eauto.
  - injection Ha as <- <-. apply (list_op live h ls pss i ps _ (RPtrs ps) [] ps); [done|done|done|by intros q ?%not_elem_of_nil|done|].
    intros l Hr. destruct (drain_spec h l _ Hr) as (h' & l' & -> & Hr' & Ho & Hx). rewrite from_links. cbn [mbind outcome_bind].
    eexists _, _. split; [done|]. split; [done|]. split; [done|]. intros q Hq _. apply Hx. by apply links_in.
  - injection Ha as <- <-. apply exec_read; [done|done|]. intros l Hr. by rewrite (iter_spec h l _ Hr), from_links.
  - injection Ha as <- <-. apply exec_read; [done|done|]. intros l [Hh _ _ _ Hg _]. unfold front. rewrite Hh.
    destruct ps as [|p ps]; [done|]. apply Forall_cons in Hg as [(Hp & _) _]. cbn [hd fmap list_fmap List.hd_error].
    rewrite (proj2 (Z.eqb_neq _ _) Hp). by rewrite from_links1.
  - injection Ha as <- <-. apply exec_read; [done|done|]. intros l [_ Ht _ _ Hg _]. unfold back. rewrite Ht.
    destruct (decide (ps = [])) as [->|Hne]; [done|]. destruct (snoc_inv ps Hne) as (ys & p & ->).
    rewrite fmap_app, lst_app, last_snoc in *. apply Forall_app in Hg as [_ [(Hp & _) _]%Forall_cons]. cbn [lst fmap list_fmap].
    rewrite (proj2 (Z.eqb_neq _ _) Hp). by rewrite from_links1.
  - injection Ha as <- <-. apply exec_read; [done|done|]. intros l [_ _ Hl _ _ _]. by rewrite Hl, length_fmap.
  - destruct (existsb _ _) eqn:Hl; [|done]. injection Ha as <- <-. cbn [exec]. unfold load. cbn [fst].
    apply existsb_in, (inv_live _ _ _ Hinv) in Hl as [k Hk]. cbn [fst] in Hk. rewrite Hk. cbn [mbind outcome_bind].
    exists (h, ls). split; [|done]. do 3 f_equal. apply eq_true_iff_eq. rewrite member_spec. by apply (inv_flag _ _ _ Hinv p k).
Qed.

Lemma run_lists live ops : ∀ s pss rs pss', sys_inv live s pss → arun live pss ops = Some (rs, pss') →
  ∃ s', run s ops = Ret (rs, s') ∧ sys_inv live s' pss'.
Proof.
  induction ops as [|o ops IH]; intros s pss rs pss' Hinv Ha; cbn [arun run] in *.
  - injection Ha as <- <-. eauto.
  - destruct (aexec live pss o) as [[r pss1]|] eqn:Eo; [|done]. cbn [mbind option_bind] in Ha.
    destruct (arun live pss1 ops) as [[rs1 pss2]|] eqn:Er; [|done]. cbn [mbind option_bind] in Ha. injection Ha as <- <-.
    destruct (exec_spec _ _ _ _ _ _ Hinv Eo) as (s1 & -> & Hinv1). cbn [mbind outcome_bind].
    destruct (IH _ _ _ _ Hinv1 Er) as (s2 & -> & Hinv2). cbn [mbind outcome_bind]. eauto.
Qed.

Lemma start_inv live n : (∀ p, p ∈ live → good (links p)) → sys_inv live (start live n) (replicate n []).
Proof.
  intros Hg. assert (Hlk : ∀ p, fst (start live n) !! links p = if decide (p ∈ live) then Some Link_new else None).
  { intros p. cbn [start fst]. destruct (decide (p ∈ live)) as [Hp|Hp].
    - apply elem_of_list_to_map_1'; [|apply list_elem_of_fmap; eauto].
      intros k (q & E & _)%list_elem_of_fmap. by injection E as _ ->.
    - apply not_elem_of_list_to_map. rewrite <- list_fmap_compose. cbn [compose]. intros (q & E & Hq)%list_elem_of_fmap.
      apply links_inj in E as ->. done. }
  split; cbn [snd].
  - intros p. rewrite Hlk. destruct (decide _) as [Hp|Hp]; [by split; eauto|]. split; [by intros []|done].
  - done.
  - cbn [start snd]. apply Forall2_replicate. split; try done. constructor.
  - intros i j ps qs p Hi _ Hp. apply lookup_replicate in Hi as [-> _]. by apply not_elem_of_nil in Hp.
  - intros p k. rewrite Hlk. destruct (decide _); [|done]. intros [= <-]. split; [done|].
    intros (i & ps & Hi & Hp). apply lookup_replicate in Hi as [-> _]. by apply not_elem_of_nil in Hp.
Qed.

(** C26 Any number of intrusive lists over the same nodes behave as lists of
    elements: for every sequence of calls that keeps the safety contract (an
    element is pushed only while in no list, and removed only from the list it
    is in) no call touches an address that holds no node or fails an
    assertion, every call returns what the lists of elements say (pops, peeks,
    lengths, iteration and draining in order, and the link flag), and a call
    on one list leaves every other list as it was. *)
Theorem intrusive_list_refines live n ops rs pss :
  (∀ p, p ∈ live → good (links p)) → arun live (replicate n []) ops = Some (rs, pss) →
  ∃ s, run (start live n) ops = Ret (rs, s) ∧
    Forall2 (λ l ps, iter (fst s) l = Ret ps ∧ len l = length ps) (snd s) pss.
Proof.
  intros Hg Ha. destruct (run_lists live ops _ _ _ _ (start_inv live n Hg) Ha) as (s & Hrun & Hinv).
  exists s. split; [done|]. eapply Forall2_impl; [exact (inv_repr _ _ _ Hinv)|]. intros l ps Hr. cbn.
  split; [by rewrite (iter_spec _ _ _ Hr), from_links|]. by rewrite (r_len _ _ _ Hr), length_fmap.
Qed.

End Linked.

(** Two lists of elements whose link is 16 bytes in; an element moves from one
    to the other and the first is drained. *)
Definition demo_ops : list op :=
  [PushBack 0 4096; PushBack 0 8192; PushFront 0 12288; PushBack 1 16384; Remove 0 4096; IsLinked 4096; PushBack 1 4096;
   PopBack 1; Front 0; Back 1; Len 0; Iter 0; Drain 0; PopFront 0; PopFront 1].

Lemma intrusive_list_refines_witness :
  ∃ s, run 16 (start 16 [4096; 8192; 12288; 16384] 2) demo_ops =
      Ret ([RUnit; RUnit; RUnit; RUnit; RUnit; RBool false; RUnit; RPtr (Some 4096); RPtr (Some 12288); RPtr (Some 16384);
            RLen 2; RPtrs [12288; 8192]; RPtrs [12288; 8192]; RPtr None; RPtr (Some 16384)], s) ∧
    Forall2 (λ l ps, iter 16 (fst s) l = Ret ps ∧ len l = length ps) (snd s) [[]; []].
Proof.
  refine (intrusive_list_refines 16 [4096; 8192; 12288; 16384] 2 demo_ops _ _ _ _).
  - intros p Hp. repeat apply elem_of_cons in Hp as [->|Hp]; [..|by apply not_elem_of_nil in Hp]; split_and!; vm_compute; congruence.
  - vm_compute. reflexivity.
Defined.

End IntrusiveList.
