(* ===== verification/Packets.v ===== *)
(** * Packet formats (kernel/src/net/{checksum,ethernet,arp,ipv4,icmp,udp}.rs)

    The internet checksum and the encoders and decoders of the protocols below
    TCP. A decoder that slices its input can panic, so it returns an outcome;
    the checksum's 32-bit additions wrap. *)

From S2P Require Import Prelude.

Module Packets.

(** ** The internet checksum *)

Fixpoint sum_words (sum : Z) (data : list Z) : Z :=
  match data with
  | a :: b :: data' => sum_words (wrap 32 (sum + be_num [a; b])) data'
  | [a] => wrap 32 (sum + Z.shiftl a 8)
  | [] => sum
  end.

(** [while sum >> 16 != 0]; a 32-bit sum is folded after two turns. *)
Fixpoint fold_carries (fuel : nat) (sum : Z) : Z :=
  match fuel with
  | O => sum
  | S fuel' =>
      if Z.shiftr sum 16 =? 0 then sum
      else fold_carries fuel' (wrap 32 (Z.land sum 0xFFFF + Z.shiftr sum 16))
  end.

Definition internet_checksum (data : list Z) : Z := Z.lxor (wrap 16 (fold_carries 3 (sum_words 0 data))) 0xFFFF.

(** [data[i]] where the length check came before. *)
Definition at_ (data : list Z) (i : nat) : Z := data !!! i.

Definition slice_of (data : list Z) (a b : nat) : outcome (list Z) :=
  if (a <=? b)%nat && (b <=? length data)%nat then Ret (sub a (b - a) data) else Panic.

(** ** Ethernet *)

Definition ETH_HEADER_LEN : nat := 14.
Inductive EtherType := Ipv4 | Arp.
Definition ethertype_code (t : EtherType) : Z := match t with Ipv4 => 0x0800 | Arp => 0x0806 end.

Record EthernetHeader := mk_eth { eth_dst : list Z; eth_src : list Z; ethertype : Z }.

Definition parse_frame (data : list Z) : option (EthernetHeader * list Z) :=
  if (length data <? ETH_HEADER_LEN)%nat then None
  else Some (mk_eth (sub 0 6 data) (sub 6 6 data) (be_at 12 2 data), drop ETH_HEADER_LEN data).

Definition build_frame (dst src : list Z) (t : EtherType) (payload : list Z) : list Z :=
  dst ++ src ++ be_bytes 2 (ethertype_code t) ++ payload.

(** ** ARP packets *)

Definition ARP_PACKET_LEN : nat := 28.

Record ArpPacket := mk_arp {
  htype : Z; ptype : Z; hlen : Z; plen : Z; oper : Z;
  sha : list Z; spa : list Z; tha : list Z; tpa : list Z
}.

Definition arp_parse (data : list Z) : option ArpPacket :=
  if (length data <? ARP_PACKET_LEN)%nat then None
  else Some (mk_arp (be_at 0 2 data) (be_at 2 2 data) (at_ data 4) (at_ data 5) (be_at 6 2 data)
               (sub 8 6 data) (sub 14 4 data) (sub 18 6 data) (sub 24 4 data)).

Definition arp_serialize (p : ArpPacket) : list Z :=
  be_bytes 2 (htype p) ++ be_bytes 2 (ptype p) ++ [hlen p] ++ [plen p] ++ be_bytes 2 (oper p) ++
  sha p ++ spa p ++ tha p ++ tpa p.

(** ** IPv4 *)

Definition IP_HEADER_LEN : nat := 20.
Inductive IpProtocol := Icmp | Tcp | Udp.
Definition protocol_code (p : IpProtocol) : Z := match p with Icmp => 1 | Tcp => 6 | Udp => 17 end.

Record Ipv4Header := mk_ip {
  version_ihl : Z; dscp_ecn : Z; total_length : Z; identification : Z; flags_fragment : Z;
  ttl : Z; protocol : Z; ip_checksum : Z; src_addr : list Z; dst_addr : list Z
}.

Definition header_len (h : Ipv4Header) : nat := (Z.to_nat (Z.land (version_ihl h) 0x0F) * 4)%nat.

Definition ip_header (data : list Z) : Ipv4Header :=
  mk_ip (at_ data 0) (at_ data 1) (be_at 2 2 data) (be_at 4 2 data) (be_at 6 2 data)
    (at_ data 8) (at_ data 9) (be_at 10 2 data) (sub 12 4 data) (sub 16 4 data).

Definition ip_parse (data : list Z) : outcome (option (Ipv4Header * list Z)) :=
  if (length data <? IP_HEADER_LEN)%nat then Ret None
  else if negb (Z.shiftr (at_ data 0) 4 =? 4) then Ret None
  else
    let hdr := ip_header data in
    let hdr_len := header_len hdr in
    if (length data <? hdr_len)%nat then Ret None
    else
      head ← slice_of data 0 hdr_len;
      if negb (internet_checksum head =? 0) then Ret None
      else
        let total := Z.to_nat (total_length hdr) in
        if (length data <? total)%nat then Ret None
        else payload ← slice_of data hdr_len total; Ret (Some (hdr, payload)).

(** [pkt[i] = (cksum >> 8) as u8; pkt[i + 1] = (cksum & 0xFF) as u8]. *)
Definition set_checksum (pkt : list Z) (i : nat) (cksum : Z) : list Z :=
  <[S i := Z.land cksum 0xFF]> (<[i := Z.shiftr cksum 8]> pkt).

Definition ip_build (src dst : list Z) (proto : IpProtocol) (ttl id : Z) (payload : list Z) : list Z :=
  let total := wrap 16 (Z.of_nat (IP_HEADER_LEN + length payload)) in
  let pkt := [0x45] ++ [0] ++ be_bytes 2 total ++ be_bytes 2 id ++ be_bytes 2 0x4000 ++ [ttl] ++
             [protocol_code proto] ++ be_bytes 2 0 ++ src ++ dst in
  let cksum := internet_checksum (take IP_HEADER_LEN pkt) in
  set_checksum pkt 10 cksum ++ payload.

(** ** ICMP *)

Definition ECHO_REQUEST : Z := 8.
Definition ECHO_REPLY : Z := 0.

Record IcmpHeader := mk_icmp { type_ : Z; code : Z; icmp_checksum : Z; icmp_id : Z; icmp_seq : Z }.

Definition icmp_parse (data : list Z) : option (IcmpHeader * list Z) :=
  if (length data <? 8)%nat then None
  else if negb (internet_checksum data =? 0) then None
  else Some (mk_icmp (at_ data 0) (at_ data 1) (be_at 2 2 data) (be_at 4 2 data) (be_at 6 2 data), drop 8 data).

Definition build_icmp (type_ code id seq : Z) (payload : list Z) : list Z :=
  let msg := [type_] ++ [code] ++ be_bytes 2 0 ++ be_bytes 2 id ++ be_bytes 2 seq ++ payload in
  set_checksum msg 2 (internet_checksum msg).

Definition build_echo_request (id seq : Z) (payload : list Z) : list Z := build_icmp ECHO_REQUEST 0 id seq payload.
Definition build_echo_reply (id seq : Z) (payload : list Z) : list Z := build_icmp ECHO_REPLY 0 id seq payload.

(** ** UDP *)

Definition UDP_HEADER_LEN : nat := 8.
Record UdpHeader := mk_udp { udp_src_port : Z; udp_dst_port : Z; udp_length : Z; udp_cksum : Z }.

(** The pseudo-header of protocol [proto] in front of [pkt]. *)
Definition pseudo_header (proto : Z) (pkt src_ip dst_ip : list Z) : list Z :=
  src_ip ++ dst_ip ++ [0] ++ [proto] ++ be_bytes 2 (wrap 16 (Z.of_nat (length pkt))) ++ pkt.

Definition udp_checksum (pkt src_ip dst_ip : list Z) : Z := internet_checksum (pseudo_header 17 pkt src_ip dst_ip).

Definition udp_parse (data src_ip dst_ip : list Z) : option (UdpHeader * list Z) :=
  if (length data <? UDP_HEADER_LEN)%nat then None
  else
    let hdr := mk_udp (be_at 0 2 data) (be_at 2 2 data) (be_at 4 2 data) (be_at 6 2 data) in
    let payload_len := Z.to_nat (udp_length hdr) in
    if (payload_len <? UDP_HEADER_LEN)%nat || (length data <? payload_len)%nat then None
    else
      let datagram := take payload_len data in
      if negb (udp_cksum hdr =? 0) && negb (udp_checksum datagram src_ip dst_ip =? 0) then None
      else Some (hdr, drop UDP_HEADER_LEN datagram).

Definition udp_build (src_port dst_port : Z) (src_ip dst_ip payload : list Z) : list Z :=
  let length_ := wrap 16 (Z.of_nat (UDP_HEADER_LEN + length payload)) in
  let pkt := be_bytes 2 src_port ++ be_bytes 2 dst_port ++ be_bytes 2 length_ ++ be_bytes 2 0 ++ payload in
  let c := udp_checksum pkt src_ip dst_ip in
  set_checksum pkt 6 (if c =? 0 then 0xFFFF else c).

(** ** The checksum as a sum modulo 65535 *)

Lemma be_num2 a b : be_num [a; b] = a * 256 + b.
Proof. unfold be_num. cbn. lia. Qed.

Lemma be_bytes2 x : 0 <= x < 65536 → be_bytes 2 x = [x / 256; x mod 256].
Proof.
  intros Hx. change (be_bytes 2 x) with [x / 256 mod 256; x mod 256].
  rewrite (Z.mod_small (x / 256)); [done|]. split; [apply Z.div_pos; lia|apply Z.div_lt_upper_bound; lia].
Qed.

(** The sum of big-endian words, an odd last byte padded on the right. *)
Fixpoint words (data : list Z) : Z :=
  match data with
  | a :: b :: data' => a * 256 + b + words data'
  | [a] => a * 256
  | [] => 0
  end.

(** Induction on a byte list two bytes at a time. *)
Lemma list_pair_ind {A} (P : list A → Prop) :
  P [] → (∀ a, P [a]) → (∀ a b l, P l → P (a :: b :: l)) → ∀ l, P l.
Proof.
  intros H0 H1 H2 l. enough (P l ∧ ∀ a, P (a :: l)) by tauto.
  induction l as [|x l [IH1 IH2]]; [auto|]. split; auto.
Qed.

Lemma words_bound data : Forall byte_ok data → 0 <= words data <= 32768 * (Z.of_nat (length data) + 1).
Proof.
  induction data as [|a|a b l IH] using list_pair_ind; intros Hb; cbn [words length].
  - lia.
  - apply Forall_cons in Hb as [Ha _]. unfold byte_ok in Ha. lia.
  - apply Forall_cons in Hb as [Ha [Hb' Hl]%Forall_cons]. specialize (IH Hl). unfold byte_ok in *. lia.
Qed.

Lemma sum_words_eq data : ∀ s, Forall byte_ok data → 0 <= s → s + words data < 2 ^ 32 → sum_words s data = s + words data.
Proof.
  induction data as [|a|a b l IH] using list_pair_ind; intros s Hb Hs Hlt; cbn [words sum_words] in *.
  - lia.
  - apply Forall_cons in Hb as [Ha _]. unfold byte_ok in Ha. rewrite Z.shiftl_mul_pow2 by lia. unfold wrap. rewrite Z.mod_small; lia.
  - apply Forall_cons in Hb as [Ha [Hb' Hl]%Forall_cons]. pose proof (words_bound l Hl). unfold byte_ok in *.
    rewrite be_num2. unfold wrap. rewrite Z.mod_small by lia. rewrite IH; [lia|done|lia|lia].
Qed.

Lemma words_app a b : Nat.even (length a) = true → words (a ++ b) = words a + words b.
Proof.
  induction a as [|x|x y l IH] using list_pair_ind; intros He; cbn [words app] in *; [lia|done|].
  rewrite IH by done. lia.
Qed.

(** One fold keeps the residue, and two bring 32 bits down to 16. *)
Lemma fold_step s : 0 <= s → Z.land s 0xFFFF + Z.shiftr s 16 = s mod 65536 + s / 65536.
Proof. intros Hs. change 0xFFFF with (Z.ones 16). rewrite Z.land_ones, Z.shiftr_div_pow2 by lia. done. Qed.

Lemma fold_residue x : 0 <= x → (x mod 65536 + x / 65536) mod 65535 = x mod 65535.
Proof.
  intros Hx. rewrite (Z.div_mod x 65536) at 3 by lia.
  replace (65536 * (x / 65536) + x mod 65536) with (x mod 65536 + x / 65536 + (x / 65536) * 65535) by lia.
  by rewrite Z_mod_plus_full.
Qed.

Lemma fold_zero x : 0 <= x → x mod 65536 + x / 65536 = 0 ↔ x = 0.
Proof.
  intros Hx. pose proof (Z.div_mod x 65536 ltac:(lia)). pose proof (Z.mod_pos_bound x 65536 ltac:(lia)).
  pose proof (Z.div_pos x 65536 Hx ltac:(lia)). lia.
Qed.

Lemma fold_bound x y : 0 <= x < y * 65536 → 0 <= x mod 65536 + x / 65536 <= 65534 + y.
Proof.
  intros Hx. pose proof (Z.mod_pos_bound x 65536 ltac:(lia)). pose proof (Z.div_pos x 65536 ltac:(lia) ltac:(lia)).
  pose proof (Z.div_lt_upper_bound x 65536 y ltac:(lia) ltac:(lia)). lia.
Qed.

Lemma fold_carries_S n x : 0 <= x < 2 ^ 32 →
  fold_carries (S n) x = if x <? 65536 then x else fold_carries n (x mod 65536 + x / 65536).
Proof.
  intros Hx. cbn [fold_carries]. rewrite fold_step by lia. pose proof (fold_bound x 65536 ltac:(lia)).
  rewrite Z.shiftr_div_pow2 by lia. change (2 ^ 16) with 65536. unfold wrap. rewrite Z.mod_small by lia.
  destruct (Z.ltb_spec x 65536); [by rewrite Z.div_small by lia|].
  rewrite (proj2 (Z.eqb_neq _ _)); [done|]. pose proof (Z.div_le_lower_bound x 65536 1). lia.
Qed.

Lemma fold_carries_spec s : 0 <= s < 2 ^ 32 →
  let f := fold_carries 3 s in 0 <= f <= 65535 ∧ f mod 65535 = s mod 65535 ∧ (f = 0 ↔ s = 0).
Proof.
  intros Hs f. subst f. rewrite fold_carries_S by lia. destruct (Z.ltb_spec s 65536); [split; [lia|done]|].
  pose proof (fold_bound s 65536 ltac:(lia)) as H1. rewrite <- (fold_residue s), <- (fold_zero s) by lia.
  set (t := s mod 65536 + s / 65536) in *. clearbody t.
  rewrite fold_carries_S by lia. destruct (Z.ltb_spec t 65536); [split; [lia|done]|].
  assert (H3 : t mod 65536 + t / 65536 <= 65535).
  { assert (t / 65536 = 1) as Hq by (symmetry; apply (Z.div_unique t 65536 1 (t - 65536)); lia).
    pose proof (Z.div_mod t 65536 ltac:(lia)). lia. }
  pose proof (fold_bound t 2 ltac:(lia)) as H2. rewrite <- (fold_residue t), <- (fold_zero t) by lia.
  set (u := t mod 65536 + t / 65536) in *. clearbody u.
  rewrite fold_carries_S by lia. rewrite (proj2 (Z.ltb_lt _ _)) by lia. split; [lia|done].
Qed.

(** Every buffer the stack checksums is shorter than this. *)
Definition checksum_range (data : list Z) : Prop := Forall byte_ok data ∧ Z.of_nat (length data) <= 100000.

Lemma words_range data : checksum_range data → 0 <= words data < 2 ^ 32.
Proof. intros [Hb Hl]. pose proof (words_bound data Hb). lia. Qed.

(** The checksum is the complement of a residue of the word sum. *)
Lemma checksum_spec data : checksum_range data →
  ∃ f, internet_checksum data = 65535 - f ∧ 0 <= f <= 65535 ∧ f mod 65535 = words data mod 65535 ∧ (f = 0 ↔ words data = 0).
Proof.
  intros Hr. pose proof (words_range data Hr) as Hw. destruct (fold_carries_spec (words data) Hw) as (Hf & Hm & Hz).
  unfold internet_checksum. rewrite sum_words_eq by (destruct Hr; try done; lia). rewrite Z.add_0_l.
  eexists. split; [|done]. unfold wrap. rewrite Z.mod_small by lia.
  change 0xFFFF with (Z.ones 16). rewrite Z.lxor_comm. change 65535 with (Z.ones 16).
  assert (Hn : fold_carries 3 (words data) = Z.land (fold_carries 3 (words data)) (Z.ones 16)) by (rewrite Z.land_ones by lia; rewrite Z.mod_small; lia).
  rewrite Hn at 1. rewrite Z.lxor_comm. apply Z.add_move_r. rewrite Z.add_nocarry_lxor.
  - apply Z.bits_inj'. intros i Hi. rewrite !Z.lxor_spec, !Z.land_spec. destruct (Z.testbit (fold_carries 3 (words data)) i) eqn:E, (Z.testbit (Z.ones 16) i) eqn:E2; try done.
    exfalso. rewrite Hn, Z.land_spec, E2, andb_false_r in E. done.
  - apply Z.bits_inj'. intros i Hi. rewrite !Z.land_spec, Z.lxor_spec, Z.land_spec, Z.bits_0.
    by destruct (Z.testbit (fold_carries 3 (words data)) i), (Z.testbit (Z.ones 16) i).
Qed.

Lemma checksum_16 data : checksum_range data → 0 <= internet_checksum data <= 65535.
Proof. intros Hr. destruct (checksum_spec data Hr) as (f & -> & Hf & _). lia. Qed.

(** A buffer verifies exactly when its word sum is a positive multiple of 65535. *)
Lemma checksum_zero data : checksum_range data →
  internet_checksum data = 0 ↔ words data mod 65535 = 0 ∧ words data ≠ 0.
Proof.
  intros Hr. destruct (checksum_spec data Hr) as (f & -> & Hf & Hm & Hz). split.
  - intros ?. assert (f = 65535) as -> by lia. rewrite <- Hm. split; [done|]. rewrite <- Hz. lia.
  - intros [H0 Hne]. rewrite <- Hm in H0. rewrite <- Hz in Hne.
    apply Z.mod_divide in H0; [|lia]. destruct H0 as [k ->]. lia.
Qed.

Lemma set_checksum_eq p q c : 0 <= c <= 65535 →
  set_checksum (p ++ be_bytes 2 0 ++ q) (length p) c = p ++ be_bytes 2 c ++ q.
Proof.
  intros Hc. unfold set_checksum. change (be_bytes 2 0) with [0; 0]. cbn [app]. rewrite insert_list_middle.
  replace (p ++ Z.shiftr c 8 :: 0 :: q) with ((p ++ [Z.shiftr c 8]) ++ 0 :: q) by (by rewrite <- app_assoc).
  replace (S (length p)) with (length (p ++ [Z.shiftr c 8])) by (rewrite length_app; cbn; lia).
  rewrite insert_list_middle, <- app_assoc. cbn [app]. rewrite be_bytes2 by lia. cbn [app].
  rewrite Z.shiftr_div_pow2 by lia. change 0xFF with (Z.ones 8). rewrite Z.land_ones by lia. done.
Qed.

(** Filling in the checksum at an even offset makes the buffer verify; so does
    sending all ones in place of a zero checksum. *)
Lemma checksum_fill p q c : checksum_range (p ++ be_bytes 2 0 ++ q) → Nat.even (length p) = true →
  c = internet_checksum (p ++ be_bytes 2 0 ++ q) ∨ (internet_checksum (p ++ be_bytes 2 0 ++ q) = 0 ∧ c = 0xFFFF) →
  internet_checksum (p ++ be_bytes 2 c ++ q) = 0.
Proof.
  intros Hr He Hc. pose proof (checksum_16 _ Hr) as H16. destruct (checksum_spec _ Hr) as (f & Hf & Hb & Hm & Hz).
  assert (Hcr : 0 <= c <= 65535) by (destruct Hc as [-> | [_ ->]]; lia).
  assert (Hr' : checksum_range (p ++ be_bytes 2 c ++ q)).
  { destruct Hr as [Hby Hlen]. rewrite !length_app, !length_be_bytes in *. split; [|rewrite !length_app, length_be_bytes; lia].
    apply Forall_app in Hby as [Hp [_ Hq]%Forall_app]. apply Forall_app. split; [done|]. apply Forall_app. split; [apply be_bytes_ok|done]. }
  assert (Hw : words (p ++ be_bytes 2 c ++ q) = c + words (p ++ be_bytes 2 0 ++ q)).
  { rewrite !words_app by (rewrite ?length_be_bytes; done). rewrite !be_bytes2 by lia. cbn [words].
    pose proof (Z.div_mod c 256 ltac:(lia)). change (0 / 256) with 0. change (0 mod 256) with 0. lia. }
  apply checksum_zero; [done|]. rewrite Hw. pose proof (words_range _ Hr). split.
  - rewrite Z.add_mod by lia. rewrite <- Hm. rewrite <- Z.add_mod by lia.
    destruct Hc as [-> | [E ->]]; [rewrite Hf; replace (65535 - f + f) with 65535 by lia; done|].
    assert (f = 65535) as -> by lia. done.
  - destruct Hc as [-> | [_ ->]]; [|lia]. rewrite Hf. destruct (decide (f = 0)) as [->|]; [lia|].
    assert (words (p ++ be_bytes 2 0 ++ q) ≠ 0) by (by rewrite <- Hz). lia.
Qed.

(** ** Round trips *)

Lemma at_skip a b i : (length a <= i)%nat → at_ (a ++ b) i = at_ b (i - length a).
Proof. intros. unfold at_. by rewrite lookup_total_app_r. Qed.

Lemma at_head x l : at_ ([x] ++ l) 0 = x.
Proof. done. Qed.

Lemma sub_skip off n (a b : list Z) : (length a <= off)%nat → sub off n (a ++ b) = sub (off - length a) n b.
Proof. apply sub_app_r. Qed.

(** Decode one field at a concrete offset, given the lengths of the byte-array
    fields as hypotheses. *)
Ltac lens := rewrite ?length_app, ?length_be_bytes; cbn [length]; lia.
Ltac decode :=
  repeat first
    [ rewrite at_head
    | rewrite be_at_head by solve_width
    | rewrite sub_prefix by lens
    | rewrite at_skip by lens
    | rewrite be_at_skip by lens
    | rewrite sub_skip by lens
    | progress (rewrite ?length_be_bytes; cbn [length Nat.sub]) ].

Lemma slice_of_ok data a b : (a <= b <= length data)%nat → slice_of data a b = Ret (sub a (b - a) data).
Proof. intros H. unfold slice_of. by rewrite (proj2 (Nat.leb_le _ _)), (proj2 (Nat.leb_le _ _)) by lia. Qed.

Lemma parse_build_frame dst src t payload : length dst = 6%nat → length src = 6%nat →
  parse_frame (build_frame dst src t payload) = Some (mk_eth dst src (ethertype_code t), payload).
Proof.
  intros Hd Hs. unfold parse_frame, build_frame, ETH_HEADER_LEN.
  rewrite (proj2 (Nat.ltb_ge _ _)) by lens. do 2 f_equal.
  - f_equal; [by rewrite sub_prefix by lens| |].
    + rewrite sub_skip, Hd by lens. cbn [Nat.sub]. by rewrite sub_prefix by lens.
    + rewrite be_at_skip, Hd by lens. cbn [Nat.sub]. rewrite be_at_skip, Hs by lens. cbn [Nat.sub].
      rewrite be_at_head; [done|]. by destruct t.
  - rewrite !app_assoc. rewrite drop_app_length'; [done|]. lens.
Qed.

Lemma arp_roundtrip p : in_width 16 (htype p) → in_width 16 (ptype p) → in_width 16 (oper p) →
  length (sha p) = 6%nat → length (spa p) = 4%nat → length (tha p) = 6%nat → length (tpa p) = 4%nat →
  arp_parse (arp_serialize p) = Some p.
Proof.
  intros H1 H2 H3 L1 L2 L3 L4. destruct p as [ht pt hl pl op sh sp th tp]. cbn [htype ptype hlen plen oper sha spa tha tpa] in *.
  unfold arp_parse, arp_serialize, ARP_PACKET_LEN. cbn [htype ptype hlen plen oper sha spa tha tpa].
  rewrite (proj2 (Nat.ltb_ge _ _)) by lens. do 2 f_equal; decode; try done;
    rewrite L1, ?L2, ?L3; cbn [Nat.sub]; decode; try done. by apply sub_all.
Qed.

(** The fields of an IPv4 packet the encoder produced. *)
Lemma ip_roundtrip src dst proto ttl id payload : length src = 4%nat → length dst = 4%nat →
  Forall byte_ok src → Forall byte_ok dst → byte_ok ttl → in_width 16 id → (20 + length payload <= Z.to_nat 65535)%nat →
  ∃ ck, ip_parse (ip_build src dst proto ttl id payload) =
    Ret (Some (mk_ip 0x45 0 (20 + Z.of_nat (length payload)) id 0x4000 ttl (protocol_code proto) ck src dst, payload)).
Proof.
  intros Ls Ld Hs Hd Ht Hid Hl.
  assert (Htot : wrap 16 (Z.of_nat (IP_HEADER_LEN + length payload)) = 20 + Z.of_nat (length payload)).
  { unfold wrap, IP_HEADER_LEN. rewrite Z.mod_small; lia. }
  assert (Hw16 : in_width 16 (20 + Z.of_nat (length payload))) by (unfold in_width; lia).
  set (P := [0x45] ++ [0] ++ be_bytes 2 (20 + Z.of_nat (length payload)) ++ be_bytes 2 id ++ be_bytes 2 0x4000 ++ [ttl] ++ [protocol_code proto]).
  assert (LP : length P = 10%nat) by (unfold P; lens).
  assert (Hrange : checksum_range (P ++ be_bytes 2 0 ++ src ++ dst)).
  { split; [|lens]. unfold P. repeat (apply Forall_app; split); try apply be_bytes_ok; try done; apply Forall_singleton; try done;
      destruct proto; done. }
  set (ck := internet_checksum (P ++ be_bytes 2 0 ++ src ++ dst)).
  assert (Hpkt : ip_build src dst proto ttl id payload = (P ++ be_bytes 2 ck ++ src ++ dst) ++ payload).
  { unfold ip_build. rewrite Htot. f_equal.
    replace ([0x45] ++ [0] ++ _) with (P ++ be_bytes 2 0 ++ src ++ dst) by (unfold P; by rewrite <- !app_assoc).
    rewrite take_ge by (unfold IP_HEADER_LEN; lens). replace 10%nat with (length P) by done. rewrite set_checksum_eq; [done|]. by apply checksum_16. }
  exists ck. rewrite Hpkt. pose proof (checksum_16 _ Hrange) as Hck. fold ck in Hck.
  assert (Hzero : internet_checksum (P ++ be_bytes 2 ck ++ src ++ dst) = 0).
  { apply checksum_fill; [done|by rewrite LP|by left]. }
  set (H := P ++ be_bytes 2 ck ++ src ++ dst) in *. assert (LH : length H = 20%nat) by (unfold H; lens).
  assert (Hip : ip_header (H ++ payload) = mk_ip 0x45 0 (20 + Z.of_nat (length payload)) id 0x4000 ttl (protocol_code proto) ck src dst).
  { unfold H, P, ip_header. rewrite <- !app_assoc. f_equal; decode; try done. rewrite Ls. cbn [Nat.sub]. by decode. }
  unfold ip_parse, IP_HEADER_LEN. cbv zeta. rewrite (proj2 (Nat.ltb_ge _ _)) by lens.
  replace (at_ (H ++ payload) 0) with 0x45 by (unfold H, P; rewrite <- !app_assoc; by decode).
  cbn [negb Z.shiftr Z.shiftl Z.opp Pos.shiftr]. rewrite Hip.
  change (header_len _) with 20%nat. change (negb (Z.shiftr 69 4 =? 4)) with false. cbn iota.
  rewrite (proj2 (Nat.ltb_ge _ _)) by lens. rewrite (slice_of_ok _ 0 20) by lens. cbn [mbind outcome_bind Nat.sub].
  rewrite sub_prefix by lia. rewrite Hzero. cbn [Z.eqb negb total_length].
  rewrite (proj2 (Nat.ltb_ge _ _)) by (rewrite length_app; lia). rewrite slice_of_ok by (rewrite length_app; lia).
  cbn [mbind outcome_bind]. do 4 f_equal. rewrite sub_skip, LH by lia. cbn [Nat.sub]. apply sub_all. lia.
Qed.

Lemma icmp_roundtrip ty co id seq payload : byte_ok ty → byte_ok co → in_width 16 id → in_width 16 seq →
  Forall byte_ok payload → (8 + length payload <= Z.to_nat 65535)%nat →
  ∃ ck, icmp_parse (build_icmp ty co id seq payload) = Some (mk_icmp ty co ck id seq, payload).
Proof.
  intros Ht Hc Hi Hs Hp Hl. set (Q := be_bytes 2 id ++ be_bytes 2 seq ++ payload).
  assert (Hrange : checksum_range (([ty] ++ [co]) ++ be_bytes 2 0 ++ Q)).
  { split; [|unfold Q; lens]. unfold Q. repeat (apply Forall_app; split); try apply be_bytes_ok; try done; by apply Forall_singleton. }
  set (ck := internet_checksum (([ty] ++ [co]) ++ be_bytes 2 0 ++ Q)). exists ck.
  assert (Hpkt : build_icmp ty co id seq payload = ([ty] ++ [co]) ++ be_bytes 2 ck ++ Q).
  { unfold build_icmp. replace ([ty] ++ [co] ++ _) with (([ty] ++ [co]) ++ be_bytes 2 0 ++ Q) by (by rewrite <- app_assoc).
    exact (set_checksum_eq ([ty] ++ [co]) Q ck (checksum_16 _ Hrange)). }
  rewrite Hpkt. pose proof (checksum_16 _ Hrange) as Hck. fold ck in Hck. unfold icmp_parse.
  rewrite (proj2 (Nat.ltb_ge _ _)) by (unfold Q; lens). rewrite checksum_fill; [|done|done|by left]. cbn [Z.eqb negb].
  unfold Q. rewrite <- app_assoc. do 2 f_equal. f_equal; by decode.
Qed.

Lemma udp_roundtrip sp dp src dst payload : in_width 16 sp → in_width 16 dp → length src = 4%nat → length dst = 4%nat →
  Forall byte_ok src → Forall byte_ok dst → Forall byte_ok payload → (8 + length payload <= Z.to_nat 65535)%nat →
  ∃ ck, udp_parse (udp_build sp dp src dst payload) src dst = Some (mk_udp sp dp (8 + Z.of_nat (length payload)) ck, payload) ∧
    Forall byte_ok (udp_build sp dp src dst payload) ∧ length (udp_build sp dp src dst payload) = (8 + length payload)%nat.
Proof.
  intros Hsp Hdp Ls Ld Hs Hd Hp Hl.
  assert (Hlen : wrap 16 (Z.of_nat (UDP_HEADER_LEN + length payload)) = 8 + Z.of_nat (length payload)).
  { unfold wrap, UDP_HEADER_LEN. rewrite Z.mod_small; lia. }
  assert (Hw16 : in_width 16 (8 + Z.of_nat (length payload))) by (unfold in_width; lia).
  set (P := be_bytes 2 sp ++ be_bytes 2 dp ++ be_bytes 2 (8 + Z.of_nat (length payload))).
  assert (LP : length P = 6%nat) by (unfold P; lens).
  assert (HP : Forall byte_ok P) by (unfold P; repeat (apply Forall_app; split); apply be_bytes_ok).
  set (pre := src ++ dst ++ [0] ++ [17] ++ be_bytes 2 (wrap 16 (Z.of_nat (8 + length payload)))).
  assert (Lpre : length pre = 12%nat) by (unfold pre; lens).
  assert (Hps : ∀ c, pseudo_header 17 (P ++ be_bytes 2 c ++ payload) src dst = (pre ++ P) ++ be_bytes 2 c ++ payload).
  { intros c. unfold pseudo_header, pre. rewrite <- !app_assoc. do 6 f_equal. }
  assert (Hrange : checksum_range ((pre ++ P) ++ be_bytes 2 0 ++ payload)).
  { split; [|lens]. unfold pre. repeat (apply Forall_app; split); try apply be_bytes_ok; try done; by apply Forall_singleton. }
  set (c0 := internet_checksum ((pre ++ P) ++ be_bytes 2 0 ++ payload)).
  pose proof (checksum_16 _ Hrange) as Hc0. fold c0 in Hc0. set (ck := if c0 =? 0 then 0xFFFF else c0). exists ck.
  assert (Hck : 0 < ck <= 65535) by (unfold ck; destruct (Z.eqb_spec c0 0); lia).
  assert (Hpkt : udp_build sp dp src dst payload = P ++ be_bytes 2 ck ++ payload).
  { unfold udp_build. rewrite Hlen. replace (be_bytes 2 sp ++ _) with (P ++ be_bytes 2 0 ++ payload) by (unfold P; by rewrite <- !app_assoc).
    unfold udp_checksum. rewrite Hps. fold c0. fold ck. rewrite <- LP, set_checksum_eq by lia. done. }
  rewrite Hpkt. split; [|split; [repeat (apply Forall_app; split); try apply be_bytes_ok; done|lens]].
  unfold udp_parse, UDP_HEADER_LEN. rewrite (proj2 (Nat.ltb_ge _ _)) by lens. cbv zeta.
  assert (Hd4 : be_at 4 2 (P ++ be_bytes 2 ck ++ payload) = 8 + Z.of_nat (length payload)) by (unfold P; rewrite <- !app_assoc; by decode).
  assert (Hd6 : be_at 6 2 (P ++ be_bytes 2 ck ++ payload) = ck) by (unfold P; rewrite <- !app_assoc; by decode).
  cbn [udp_length udp_cksum]. rewrite Hd4, Hd6.
  rewrite (proj2 (Nat.ltb_ge (Z.to_nat _) 8)), (proj2 (Nat.ltb_ge _ (Z.to_nat _))) by lens. cbn [orb].
  rewrite take_ge by lens. unfold udp_checksum. rewrite Hps, checksum_fill; [|done|by rewrite length_app, Lpre, LP|].
  - cbn [Z.eqb negb]. rewrite andb_false_r. do 2 f_equal.
    f_equal; unfold P; rewrite <- !app_assoc; by decode.
  - unfold ck. destruct (Z.eqb_spec c0 0); [by right|by left].
Qed.

(** A UDP datagram sent in an IPv4 packet in an Ethernet frame is read back
    exactly: the frame, header and datagram decoders accept what the encoders
    produce, checksums included, and return the addresses, ports and payload. *)
Theorem udp_frame_roundtrip mac1 mac2 src dst sp dp ttl id payload :
  length mac1 = 6%nat → length mac2 = 6%nat → length src = 4%nat → length dst = 4%nat →
  Forall byte_ok src → Forall byte_ok dst → Forall byte_ok payload → byte_ok ttl → in_width 16 id →
  in_width 16 sp → in_width 16 dp → (28 + length payload <= Z.to_nat 65535)%nat →
  ∃ ck uck, let datagram := udp_build sp dp src dst payload in
    parse_frame (build_frame mac1 mac2 Ipv4 (ip_build src dst Udp ttl id datagram)) =
      Some (mk_eth mac1 mac2 0x0800, ip_build src dst Udp ttl id datagram) ∧
    ip_parse (ip_build src dst Udp ttl id datagram) =
      Ret (Some (mk_ip 0x45 0 (28 + Z.of_nat (length payload)) id 0x4000 ttl 17 ck src dst, datagram)) ∧
    udp_parse datagram src dst = Some (mk_udp sp dp (8 + Z.of_nat (length payload)) uck, payload).
Proof.
  intros L1 L2 Ls Ld Hs Hd Hp Ht Hid Hsp Hdp Hl.
  destruct (udp_roundtrip sp dp src dst payload) as (uck & Hudp & Hok & Hlen); try done; [lia|].
  destruct (ip_roundtrip src dst Udp ttl id (udp_build sp dp src dst payload)) as (ck & Hip); try done; try (rewrite Hlen; lia).
  exists ck, uck. split; [by apply parse_build_frame|]. split; [|done]. rewrite Hip, Hlen.
  by replace (20 + Z.of_nat (8 + length payload)) with (28 + Z.of_nat (length payload)) by lia.
Qed.

(** The IPv4 decoder panics exactly on a packet whose header verifies but
    whose total length field is shorter than the header: the length is checked
    against the buffer and never against the header. *)
Theorem ip_parse_panics data : ip_parse data = Panic ↔
  let hdr := ip_header data in
  (20 <= length data)%nat ∧ Z.shiftr (at_ data 0) 4 = 4 ∧ (header_len hdr <= length data)%nat ∧
  internet_checksum (take (header_len hdr) data) = 0 ∧ (Z.to_nat (total_length hdr) < header_len hdr)%nat.
Proof.
  unfold ip_parse, IP_HEADER_LEN. cbv zeta. destruct (Nat.ltb_spec (length data) 20); [split; [done|intros (? & ? & ? & ? & ?); lia]|].
  destruct (Z.eqb_spec (Z.shiftr (at_ data 0) 4) 4); cbn [negb]; [|split; [done|tauto]].
  destruct (Nat.ltb_spec (length data) (header_len (ip_header data))); [split; [done|intros (? & ? & ? & ? & ?); lia]|].
  rewrite (slice_of_ok data 0) by lia. cbn [mbind outcome_bind]. rewrite Nat.sub_0_r.
  change (sub 0 ?n data) with (take n (drop 0 data)). rewrite drop_0.
  destruct (Z.eqb_spec (internet_checksum (take (header_len (ip_header data)) data)) 0); cbn [negb]; [|split; [done|tauto]].
  destruct (Nat.ltb_spec (length data) (Z.to_nat (total_length (ip_header data)))); [split; [done|intros (? & ? & ? & ? & ?); lia]|].
  unfold slice_of. destruct (Nat.leb_spec (header_len (ip_header data)) (Z.to_nat (total_length (ip_header data)))).
  - rewrite (proj2 (Nat.leb_le _ _)) by lia. cbn [andb mbind outcome_bind]. split; [done|intros (? & ? & ? & ? & ?); lia].
  - cbn [andb mbind outcome_bind]. split; [intros _|done]. split_and!; try done; lia.
Qed.

(** ** Concrete packets *)

Lemma udp_frame_roundtrip_witness :
  ∃ ck uck, let datagram := udp_build 68 67 [10; 0; 2; 15] [10; 0; 2; 2] [1; 2; 3] in
    parse_frame (build_frame (replicate 6 255) (replicate 6 82) Ipv4 (ip_build [10; 0; 2; 15] [10; 0; 2; 2] Udp 64 7 datagram)) =
      Some (mk_eth (replicate 6 255) (replicate 6 82) 0x0800, ip_build [10; 0; 2; 15] [10; 0; 2; 2] Udp 64 7 datagram) ∧
    ip_parse (ip_build [10; 0; 2; 15] [10; 0; 2; 2] Udp 64 7 datagram) =
      Ret (Some (mk_ip 0x45 0 (28 + Z.of_nat 3) 7 0x4000 64 17 ck [10; 0; 2; 15] [10; 0; 2; 2], datagram)) ∧
    udp_parse datagram [10; 0; 2; 15] [10; 0; 2; 2] = Some (mk_udp 68 67 (8 + Z.of_nat 3) uck, [1; 2; 3]).
Proof.
  refine (udp_frame_roundtrip (replicate 6 255) (replicate 6 82) [10; 0; 2; 15] [10; 0; 2; 2] 68 67 64 7 [1; 2; 3] _ _ _ _ _ _ _ _ _ _ _ _);
    try reflexivity; try (unfold in_width, byte_ok; lia).
  1-3: rewrite Forall_forall; intros x Hx; repeat apply elem_of_cons in Hx as [->|Hx]; unfold byte_ok; try lia; by apply not_elem_of_nil in Hx.
  cbn [length]. lia.
Defined.

(** A twenty-byte packet with a zero total length. *)
Example short_total_panics :
  let p := [0x45; 0; 0; 0; 0; 1; 0; 0; 64; 17; 0; 0; 10; 0; 2; 2; 10; 0; 2; 15] in
  ip_parse (set_checksum p 10 (internet_checksum p)) = Panic.
Proof. vm_compute. reflexivity. Qed.

End Packets.
