(* ===== verification/Fragment.v ===== *)
(** * IPv4 reassembly (kernel/src/net/fragment.rs)

    The table of partial datagrams. Time is a number of nanoseconds handed to
    the call that reads the clock. *)

From S2P Require Import Prelude Packets.

Module Fragment.

Import Packets.

(** ** The code *)

Definition MAX_ENTRIES : nat := 32.
Definition TIMEOUT_SECS : Z := 30.
Definition MAX_DATAGRAM : nat := Z.to_nat 65535.

(** Source, destination, protocol, identification. *)
Definition FragKey := (list Z * list Z * Z * Z)%type.

Record ReassemblyEntry := mk_entry {
  buffer : list Z; ranges : list (nat * nat); total_len : option nat; header : Ipv4Header; created : Z
}.

Definition entry_new (now : Z) (h : Ipv4Header) : ReassemblyEntry := mk_entry [] [] None h now.

(** [retain] with the closure's two captured variables threaded through. *)
Fixpoint absorb (ranges : list (nat * nat)) (new_start new_end : nat) : list (nat * nat) * nat * nat :=
  match ranges with
  | [] => ([], new_start, new_end)
  | (s, e) :: ranges =>
      if (s <=? new_end)%nat && (new_start <=? e)%nat then absorb ranges (Nat.min new_start s) (Nat.max new_end e)
      else let '(kept, ns, ne) := absorb ranges new_start new_end in ((s, e) :: kept, ns, ne)
  end.

(** [insert] at the [partition_point] of [s < new_start] in a sorted list. *)
Fixpoint insert_sorted (ranges : list (nat * nat)) (r : nat * nat) : list (nat * nat) :=
  match ranges with
  | [] => [r]
  | q :: ranges' => if (q.1 <? r.1)%nat then q :: insert_sorted ranges' r else r :: ranges
  end.

Definition add_range (ranges : list (nat * nat)) (start end_ : nat) : list (nat * nat) :=
  let '(kept, ns, ne) := absorb ranges start end_ in insert_sorted kept (ns, ne).

Definition resize (buf : list Z) (n : nat) : list Z :=
  if (length buf <? n)%nat then buf ++ replicate (n - length buf) 0 else buf.

Definition is_whole (ranges : list (nat * nat)) (total : nat) : bool :=
  match ranges with [(s, e)] => (s =? 0)%nat && (e =? total)%nat | _ => false end.

Definition entry_insert (en : ReassemblyEntry) (offset : nat) (mf : bool) (data : list Z) : outcome (bool * ReassemblyEntry) :=
  let end_ := (offset + length data)%nat in
  if (MAX_DATAGRAM <? end_)%nat then Ret (false, en)
  else
    buf ← write_at offset data (resize (buffer en) end_);
    let total := if negb mf then Some end_ else total_len en in
    let rs := add_range (ranges en) offset end_ in
    Ret (match total with Some t => is_whole rs t | None => false end,
         mk_entry buf rs total (header en) (created en)).

Definition is_expired (now : Z) (en : ReassemblyEntry) : bool := TIMEOUT_SECS <=? (now - created en) / 1000000000.

Abbreviation ReassemblyTable := (gmap FragKey ReassemblyEntry).
Definition new : ReassemblyTable := ∅.

Definition frag_offset (h : Ipv4Header) : nat := (Z.to_nat (Z.land (flags_fragment h) 0x1FFF) * 8)%nat.
Definition more_fragments (h : Ipv4Header) : bool := negb (Z.land (flags_fragment h) 0x2000 =? 0).
Definition frag_key (h : Ipv4Header) : FragKey := (src_addr h, dst_addr h, protocol h, identification h).

Definition process (now : Z) (table : ReassemblyTable) (hdr : Ipv4Header) (payload : list Z)
    : outcome (option (Ipv4Header * list Z) * ReassemblyTable) :=
  let off := frag_offset hdr in
  let mf := more_fragments hdr in
  if (off =? 0)%nat && negb mf then Ret (Some (hdr, payload), table)
  else
    let key := frag_key hdr in
    let table := filter (λ kv : FragKey * ReassemblyEntry, is_expired now kv.2 = false) table in
    if bool_decide (table !! key = None) && (MAX_ENTRIES <=? size table)%nat then Ret (None, table)
    else
      let en := default (entry_new now hdr) (table !! key) in
      res ← entry_insert en off mf payload;
      let '(complete, en) := (res : bool * ReassemblyEntry) in
      if complete then
        match total_len en with
        | Some total => Ret (Some (header en, take total (buffer en)), delete key table)
        | None => Panic
        end
      else Ret (None, <[key := en]> table).

(** ** The interval list *)

Definition cov (l : list (nat * nat)) (b : nat) : Prop := ∃ r, r ∈ l ∧ (r.1 <= b < r.2)%nat.

(** Ranges in order, with a gap between any two. *)
Fixpoint sep (l : list (nat * nat)) : Prop :=
  match l with
  | [] => True
  | r :: l => (r.1 <= r.2)%nat ∧ (∀ q, q ∈ l → (r.2 < q.1)%nat) ∧ sep l
  end.

Lemma sep_in l r : sep l → r ∈ l → (r.1 <= r.2)%nat.
Proof.
  induction l as [|q l IH]; [by intros _ ?%not_elem_of_nil|]. intros (H1 & _ & H2) [->|Hr]%elem_of_cons; auto.
Qed.

Lemma cov_cons r l b : cov (r :: l) b ↔ (r.1 <= b < r.2)%nat ∨ cov l b.
Proof.
  unfold cov. split.
  - intros (q & [->|Hq]%elem_of_cons & Hb); [by left|right; eauto].
  - intros [Hb|(q & Hq & Hb)]; [exists r; split; [left|done]|exists q; split; [by right|done]].
Qed.

Lemma cov_nil b : ¬ cov [] b.
Proof. by intros (q & ?%not_elem_of_nil & _). Qed.

(** Ranges past the end of the new one are kept as they are. *)
Lemma absorb_right l ns ne : (∀ q, q ∈ l → (ne < q.1)%nat) → absorb l ns ne = (l, ns, ne).
Proof.
  induction l as [|[s e] l IH]; intros H; cbn [absorb]; [done|].
  pose proof (H (s, e) ltac:(left)) as Hs. cbn in Hs. rewrite (proj2 (Nat.leb_gt _ _)) by lia. cbn [andb].
  rewrite IH; [done|]. intros q Hq. apply H. by right.
Qed.

Lemma absorb_spec l : ∀ ns ne kept ns' ne', (ns <= ne)%nat → sep l → absorb l ns ne = (kept, ns', ne') →
  (ns' <= ns)%nat ∧ (ne <= ne')%nat ∧ sep kept ∧ (∀ r, r ∈ kept → r ∈ l) ∧
  (∀ r, r ∈ kept → (r.2 < ns')%nat ∨ (ne' < r.1)%nat) ∧
  (∀ b, cov kept b ∨ (ns' <= b < ne')%nat ↔ cov l b ∨ (ns <= b < ne)%nat) ∧
  (ns' = ns ∨ ∃ r, r ∈ l ∧ ns' = r.1) ∧ (ne' = ne ∨ ∃ r, r ∈ l ∧ ne' = r.2).
Proof.
  induction l as [|[s e] l IH]; intros ns ne kept ns' ne' Hn Hs Ha; cbn [absorb] in Ha.
  { injection Ha as <- <- <-. split_and!; try done; try lia; auto. by intros r ?%not_elem_of_nil. }
  destruct Hs as (Hse & Hgap & Hs). cbn [fst snd] in *.
  destruct ((s <=? ne)%nat && (ns <=? e)%nat) eqn:Et.
  - apply andb_true_iff in Et as [E1%Nat.leb_le E2%Nat.leb_le].
    destruct (IH (Nat.min ns s) (Nat.max ne e) kept ns' ne' ltac:(lia) Hs Ha) as (H1 & H2 & H3 & H4 & H5 & H6 & H7 & H8).
    split_and!; try done; try lia.
    + intros r Hr. right. auto.
    + intros b. rewrite cov_cons. cbn [fst snd]. specialize (H6 b).
      assert ((Nat.min ns s <= b < Nat.max ne e)%nat ↔ (s <= b < e)%nat ∨ (ns <= b < ne)%nat) by lia. tauto.
    + destruct H7 as [->|(r & Hr & ->)]; [|right; exists r; split; [by right|done]].
      destruct (Nat.min_spec ns s) as [[_ ->]|[_ ->]]; [by left|right; exists (s, e); split; [left|done]].
    + destruct H8 as [->|(r & Hr & ->)]; [|right; exists r; split; [by right|done]].
      destruct (Nat.max_spec ne e) as [[_ ->]|[_ ->]]; [right; exists (s, e); split; [left|done]|by left].
  - destruct (absorb l ns ne) as [[k1 n1] m1] eqn:El. injection Ha as <- <- <-.
    destruct (IH _ _ _ _ _ Hn Hs El) as (H1 & H2 & H3 & H4 & H5 & H6 & H7 & H8).
    assert (Hside : (e < n1)%nat ∨ (m1 < s)%nat).
    { apply andb_false_iff in Et as [E%Nat.leb_gt|E%Nat.leb_gt].
      - rewrite absorb_right in El; [injection El as _ _ <-; by right|]. intros q Hq. specialize (Hgap q Hq). lia.
      - left. destruct H7 as [->|(r & Hr & ->)]; [done|]. by apply Hgap. }
    split_and!; try done.
    + cbn [sep fst snd]. split_and!; [done| |done]. intros q Hq. auto.
    + intros r [->|Hr]%elem_of_cons; [left|right; auto].
    + intros r [->|Hr]%elem_of_cons; [done|auto].
    + intros b. rewrite !cov_cons. cbn [fst snd]. specialize (H6 b). tauto.
    + destruct H7 as [->|(r & Hr & ->)]; [by left|right; exists r; split; [by right|done]].
    + destruct H8 as [->|(r & Hr & ->)]; [by left|right; exists r; split; [by right|done]].
Qed.

Lemma insert_sorted_in l r q : q ∈ insert_sorted l r ↔ q = r ∨ q ∈ l.
Proof.
  induction l as [|x l IH]; cbn [insert_sorted]; [by rewrite elem_of_cons|].
  destruct (x.1 <? r.1)%nat; rewrite !elem_of_cons, ?IH; tauto.
Qed.

Lemma insert_sorted_sep l r : sep l → (r.1 <= r.2)%nat → (∀ q, q ∈ l → (q.2 < r.1)%nat ∨ (r.2 < q.1)%nat) → sep (insert_sorted l r).
Proof.
  intros Hs Hr. induction l as [|x l IH]; intros Hside; cbn [insert_sorted].
  { split_and!; [done|by intros ? ?%not_elem_of_nil|done]. }
  destruct Hs as (Hx & Hgap & Hs). pose proof (Hside x ltac:(left)) as Hsx.
  assert (Hl : ∀ q, q ∈ l → (q.2 < r.1)%nat ∨ (r.2 < q.1)%nat) by (intros q Hq; apply Hside; by right).
  destruct (Nat.ltb_spec x.1 r.1) as [Hlt|Hge].
  - cbn [sep]. split_and!; [done| |by apply IH]. intros q [->|Hq]%insert_sorted_in; [lia|by apply Hgap].
  - cbn [sep]. split_and!; try done. intros q [->|Hq]%elem_of_cons; [lia|]. specialize (Hgap q Hq). lia.
Qed.

Lemma add_range_spec l s e N : sep l → (s <= e <= N)%nat → (∀ r, r ∈ l → (r.2 <= N)%nat) →
  sep (add_range l s e) ∧ (∀ r, r ∈ add_range l s e → (r.2 <= N)%nat) ∧
  ∀ b, cov (add_range l s e) b ↔ cov l b ∨ (s <= b < e)%nat.
Proof.
  intros Hs Hse HN. unfold add_range. destruct (absorb l s e) as [[kept ns] ne] eqn:Ea.
  destruct (absorb_spec l s e kept ns ne ltac:(lia) Hs Ea) as (H1 & H2 & H3 & H4 & H5 & H6 & H7 & H8).
  split; [apply insert_sorted_sep; cbn [fst snd]; auto; lia|]. split.
  - intros r [->|Hr]%insert_sorted_in; [|auto]. cbn [snd]. destruct H8 as [->|(q & Hq & ->)]; [lia|auto].
  - intros b. rewrite <- H6. unfold cov at 1. split.
    + intros (r & [->|Hr]%insert_sorted_in & Hb); [by right|left; by exists r].
    + intros [(r & Hr & Hb)|Hb]; [exists r|exists (ns, ne)]; rewrite insert_sorted_in; auto.
Qed.

(** A gap-free cover of [0, N) is the single range. *)
Lemma whole_iff l N : (0 < N)%nat → sep l → (∀ r, r ∈ l → (r.2 <= N)%nat) →
  is_whole l N = true ↔ ∀ b, (b < N)%nat → cov l b.
Proof.
  intros HN Hs Hb. split.
  - destruct l as [|[s e] [|? ?]]; try done. cbn [is_whole]. rewrite andb_true_iff, !Nat.eqb_eq. intros [-> ->] b Hlt.
    exists (O, N). split; [left|cbn; lia].
  - intros Hc. destruct l as [|[s e] l]; [by destruct (cov_nil 0 (Hc O HN))|].
    destruct Hs as (Hse & Hgap & Hs). cbn [fst snd] in *. pose proof (Hb (s, e) ltac:(left)) as He. cbn in He.
    assert (Hfar : ∀ b, cov l b → (e < b)%nat) by (intros b (q & Hq & Hqb); specialize (Hgap q Hq); lia).
    assert (s = 0)%nat as ->. { destruct (proj1 (cov_cons _ _ _) (Hc O HN)) as [H|H%Hfar]; cbn in *; lia. }
    assert (e = N) as ->.
    { destruct (decide (e = N)); [done|]. destruct (proj1 (cov_cons _ _ _) (Hc e ltac:(lia))) as [H|H%Hfar]; cbn in *; lia. }
    destruct l as [|q l]; [cbn; by rewrite !Nat.eqb_refl|].
    pose proof (Hgap q ltac:(left)). pose proof (Hb q ltac:(right; left)). pose proof (sep_in _ q Hs ltac:(left)). lia.
Qed.

(** ** One datagram *)

(** A packet as it arrives: the time, its header and payload. *)
Definition packet := (Z * Ipv4Header * list Z)%type.
Definition p_time (p : packet) : Z := p.1.1.
Definition p_hdr (p : packet) : Ipv4Header := p.1.2.
Definition p_data (p : packet) : list Z := p.2.
Definition is_fragment (h : Ipv4Header) : bool := negb ((frag_offset h =? 0)%nat && negb (more_fragments h)).

(** The bytes of the datagram a packet carries. *)
Definition has_byte (p : packet) (b : nat) : Prop :=
  (frag_offset (p_hdr p) <= b < frag_offset (p_hdr p) + length (p_data p))%nat.

(** A fragment cut from the datagram [D]. *)
Record fragment_of (D : list Z) (p : packet) : Prop := {
  fr_end : (frag_offset (p_hdr p) + length (p_data p) <= length D)%nat;
  fr_data : p_data p = sub (frag_offset (p_hdr p)) (length (p_data p)) D;
  fr_more : more_fragments (p_hdr p) = negb (frag_offset (p_hdr p) + length (p_data p) =? length D)%nat
}.

Definition covers (D : list Z) (ps : list packet) : Prop :=
  ∀ b, (b < length D)%nat → ∃ p, p ∈ ps ∧ has_byte p b.

Record entry_inv (D : list Z) (ps : list packet) (en : ReassemblyEntry) : Prop := {
  ei_frags : ∀ p, p ∈ ps → fragment_of D p;
  ei_sep : sep (ranges en);
  ei_end : ∀ r, r ∈ ranges en → (r.2 <= length D)%nat;
  ei_cov : ∀ b, cov (ranges en) b ↔ ∃ p, p ∈ ps ∧ has_byte p b;
  ei_buf : ∀ b, cov (ranges en) b → buffer en !! b = D !! b;
  ei_len : (length (buffer en) <= length D)%nat;
  ei_total : total_len en = if decide (Exists (λ p, more_fragments (p_hdr p) = false) ps) then Some (length D) else None
}.

Lemma has_byte_snoc ps p b : (∃ q, q ∈ ps ++ [p] ∧ has_byte q b) ↔ (∃ q, q ∈ ps ∧ has_byte q b) ∨ has_byte p b.
Proof.
  split.
  - intros (q & [Hq| ->%list_elem_of_singleton]%elem_of_app & Hb); [left; eauto|by right].
  - intros [(q & Hq & Hb)|Hb]; [exists q|exists p]; rewrite elem_of_app, list_elem_of_singleton; auto.
Qed.

Lemma resize_spec buf n i : (length buf <= length (resize buf n))%nat ∧ (n <= length (resize buf n))%nat ∧
  (length (resize buf n) = length buf ∨ length (resize buf n) = n) ∧ (∀ x, buf !! i = Some x → resize buf n !! i = Some x).
Proof.
  unfold resize. destruct (Nat.ltb_spec (length buf) n).
  - rewrite length_app, length_replicate. split_and!; [lia|lia|right; lia|]. intros x Hx. by apply lookup_app_l_Some.
  - split_and!; auto; lia.
Qed.

(** Copying the fragment keeps the buffer in step with the datagram. *)
Lemma buffer_step D buf off data (R : nat → Prop) : (off + length data <= length D)%nat →
  data = sub off (length data) D → (∀ b, R b → buf !! b = D !! b ∧ (b < length D)%nat) →
  ∀ b, R b ∨ (off <= b < off + length data)%nat → splice off data (resize buf (off + length data)) !! b = D !! b.
Proof.
  intros He Hd HR b Hb. destruct (resize_spec buf (off + length data) b) as (L1 & L2 & _ & Hkeep).
  unfold splice. destruct (decide (off <= b < off + length data)%nat) as [Hin|Hout].
  - rewrite lookup_app_r by (rewrite length_take; lia). rewrite length_take, Nat.min_l by lia.
    rewrite lookup_app_l by lia. rewrite Hd, lookup_sub by lia. f_equal. lia.
  - destruct Hb as [Hb|Hb]; [|done]. destruct (HR b Hb) as [Hbuf Hlt].
    destruct (lookup_lt_is_Some_2 D b Hlt) as [x Hx]. rewrite Hx in Hbuf |- *. apply Hkeep in Hbuf.
    destruct (decide (b < off)%nat).
    + rewrite lookup_app_l by (rewrite length_take; lia). by rewrite lookup_take_lt.
    + rewrite lookup_app_r by (rewrite length_take; lia). rewrite length_take, Nat.min_l by lia.
      rewrite lookup_app_r by lia. rewrite lookup_drop. rewrite <- Hbuf. f_equal. lia.
Qed.

(** One fragment: the entry keeps step, and reports completion exactly when
    every byte has arrived. *)
Lemma entry_insert_spec D ps en p : (0 < length D <= MAX_DATAGRAM)%nat → entry_inv D ps en → fragment_of D p →
  ∃ done en', entry_insert en (frag_offset (p_hdr p)) (more_fragments (p_hdr p)) (p_data p) = Ret (done, en') ∧
    entry_inv D (ps ++ [p]) en' ∧ header en' = header en ∧ created en' = created en ∧
    (done = true ↔ covers D (ps ++ [p])) ∧
    (done = true → total_len en' = Some (length D) ∧ take (length D) (buffer en') = D).
Proof.
  intros HD [Hfr Hsep Hend Hcov Hbuf Hlen Htot] Hp. pose proof Hp as [He Hdata Hmore]. unfold entry_insert.
  set (off := frag_offset (p_hdr p)) in *. set (n := length (p_data p)) in *.
  rewrite (proj2 (Nat.ltb_ge _ _)) by lia.
  destruct (resize_spec (buffer en) (off + n) 0) as (L1 & L2 & L3 & _).
  rewrite write_at_ok by (fold n; lia). cbn [mbind outcome_bind].
  destruct (add_range_spec (ranges en) off (off + n) (length D) Hsep ltac:(lia) Hend) as (S1 & S2 & S3).
  set (rs := add_range (ranges en) off (off + n)) in *. set (buf := splice off (p_data p) (resize (buffer en) (off + n))).
  set (total := if negb (more_fragments (p_hdr p)) then Some (off + n)%nat else total_len en).
  assert (Hc : ∀ b, cov rs b ↔ ∃ q, q ∈ ps ++ [p] ∧ has_byte q b).
  { intros b. rewrite S3, Hcov, has_byte_snoc. done. }
  assert (Hb : ∀ b, cov rs b → buf !! b = D !! b).
  { intros b Hb%S3. apply (buffer_step D (buffer en) off (p_data p) (cov (ranges en))); [done|done| |done].
    intros c Hcc. split; [by apply Hbuf|]. destruct Hcc as (r & Hr & Hrb). specialize (Hend r Hr). lia. }
  assert (Htotal : total = if decide (Exists (λ q, more_fragments (p_hdr q) = false) (ps ++ [p])) then Some (length D) else None).
  { unfold total. rewrite Hmore. destruct (Nat.eqb_spec (off + n) (length D)) as [E|E]; cbn [negb].
    - rewrite decide_True; [by rewrite E|]. apply Exists_app. right. apply Exists_cons. left. by rewrite Hmore.
    - rewrite Htot. apply decide_ext. rewrite Exists_app, Exists_cons, Exists_nil, Hmore. cbn [negb]. split; [auto|intros [?|[?|?]]; done]. }
  assert (Hfr' : ∀ q, q ∈ ps ++ [p] → fragment_of D q).
  { intros q [Hq| ->%list_elem_of_singleton]%elem_of_app; auto. }
  assert (Hlb : length buf = length (resize (buffer en) (off + n))) by (unfold buf; rewrite length_splice; fold n; lia).
  eexists _, _. split; [done|]. split; [split; cbn [ranges buffer total_len]; try done; lia|]. split; [done|]. split; [done|].
  cbn [total_len buffer].
  assert (Hdone : match total with Some t => is_whole rs t | None => false end = true ↔ covers D (ps ++ [p])).
  { rewrite Htotal. case_decide as Hex.
    - rewrite whole_iff by (try done; lia). unfold covers. by setoid_rewrite Hc.
    - split; [done|]. intros Hcv. destruct (Hcv (length D - 1)%nat ltac:(lia)) as (q & Hq & Hqb). destruct Hex.
      apply Exists_exists. exists q. split; [done|]. destruct (Hfr' q Hq) as [He' _ ->].
      unfold has_byte in Hqb. rewrite (proj2 (Nat.eqb_eq _ _)); [done|lia]. }
  split; [done|]. intros Ht. split.
  - rewrite Htotal in Ht |- *. by case_decide.
  - apply Hdone in Ht. apply list_eq. intros b. destruct (decide (b < length D)%nat) as [Hlt|Hge].
    + rewrite lookup_take_lt by done. apply Hb, Hc, Ht, Hlt.
    + rewrite lookup_ge_None_2 by (rewrite length_take; lia). by rewrite lookup_ge_None_2 by lia.
Qed.

(** ** The table *)

Fixpoint process_all (table : ReassemblyTable) (ps : list packet)
    : outcome (list (option (Ipv4Header * list Z)) * ReassemblyTable) :=
  match ps with
  | [] => Ret ([], table)
  | p :: ps =>
      x ← process (p_time p) table (p_hdr p) (p_data p);
      xs ← process_all (snd x) ps;
      Ret (fst x :: fst xs, snd xs)
  end.

(** The fragments of datagram [K] among the packets. *)
Definition mine (K : FragKey) (p : packet) : bool := is_fragment (p_hdr p) && bool_decide (frag_key (p_hdr p) = K).

Section Arrivals.

(** A datagram [D] under key [K], traffic under at most 31 other keys, and all
    of it within one reassembly timeout. *)
Context (D : list Z) (K : FragKey) (ks : list FragKey) (t0 : Z).
Hypothesis D_size : (0 < length D <= MAX_DATAGRAM)%nat.
Hypothesis few_keys : (length ks < MAX_ENTRIES)%nat.

Record arrival (p : packet) : Prop := {
  ar_time : t0 <= p_time p < t0 + TIMEOUT_SECS * 1000000000;
  ar_key : is_fragment (p_hdr p) = true → frag_key (p_hdr p) ∈ K :: ks;
  ar_frag : mine K p = true → fragment_of D p
}.

Record table_inv (ps : list packet) (T : ReassemblyTable) : Prop := {
  ti_keys : ∀ k, is_Some (T !! k) → k ∈ K :: ks;
  ti_time : ∀ k en, T !! k = Some en → t0 <= created en < t0 + TIMEOUT_SECS * 1000000000;
  ti_mine : match ps with
            | [] => T !! K = None
            | p0 :: _ => ∃ en, T !! K = Some en ∧ entry_inv D ps en ∧ header en = p_hdr p0
            end
}.

(** Nothing expires within the window. *)
Lemma none_expired ps T now : table_inv ps T → t0 <= now < t0 + TIMEOUT_SECS * 1000000000 →
  filter (λ kv : FragKey * ReassemblyEntry, is_expired now kv.2 = false) T = T.
Proof.
  intros Hinv Hnow. apply map_filter_id. intros k en Hk. cbn [snd].
  pose proof (ti_time _ _ Hinv k en Hk). unfold is_expired, TIMEOUT_SECS in *. apply Z.leb_gt.
  apply Z.div_lt_upper_bound; lia.
Qed.

Lemma table_room ps T : table_inv ps T → T !! K = None → (size T < MAX_ENTRIES)%nat.
Proof.
  intros Hinv HK. eapply Nat.le_lt_trans; [|exact few_keys].
  rewrite <- length_map_to_list, <- (length_fmap fst). apply submseteq_length, NoDup_submseteq; [apply NoDup_fst_map_to_list|].
  intros k Hk. apply list_elem_of_fmap in Hk as ([k' en] & -> & Hin%elem_of_map_to_list). cbn [fst] in *.
  pose proof (ti_keys _ _ Hinv k' ltac:(eauto)) as [-> | ?]%elem_of_cons; [congruence|done].
Qed.

Lemma entry_inv_nil now h : entry_inv D [] (entry_new now h).
Proof.
  split; cbn [ranges buffer total_len entry_new].
  - intros p Hp. by apply not_elem_of_nil in Hp.
  - done.
  - intros r Hr. by apply not_elem_of_nil in Hr.
  - intros b. split; [by intros ?%cov_nil|by intros (p & Hp%not_elem_of_nil & _)].
  - by intros b ?%cov_nil.
  - cbn [length]. lia.
  - rewrite decide_False; [done|]. intros Hex. inversion Hex.
Qed.

(** A packet that is not a fragment of [K]. *)
Lemma process_other ps T p : table_inv ps T → arrival p → mine K p = false →
  ∃ out T', process (p_time p) T (p_hdr p) (p_data p) = Ret (out, T') ∧ table_inv ps T'.
Proof.
  intros Hinv [Ht Hk _] Hm. unfold process. cbv zeta.
  destruct ((frag_offset (p_hdr p) =? 0)%nat && negb (more_fragments (p_hdr p))) eqn:Ef; [eauto|].
  unfold mine, is_fragment in Hm, Hk. rewrite Ef in Hm, Hk. cbn [negb andb] in Hm, Hk. apply bool_decide_eq_false in Hm. specialize (Hk eq_refl).
  rewrite (none_expired ps T) by done.
  destruct (bool_decide (T !! frag_key (p_hdr p) = None) && (MAX_ENTRIES <=? size T)%nat); [eauto|].
  pose proof Hinv as [Hkeys Htime Hmine]. set (en := default _ _).
  assert (Hcr : t0 <= created en < t0 + TIMEOUT_SECS * 1000000000).
  { unfold en. destruct (T !! frag_key (p_hdr p)) eqn:E; [by apply Htime in E|done]. }
  assert (Hres : ∃ done en', entry_insert en (frag_offset (p_hdr p)) (more_fragments (p_hdr p)) (p_data p) = Ret (done, en') ∧
    created en' = created en ∧ (done = true → is_Some (total_len en'))).
  { unfold entry_insert. destruct (_ <? _)%nat; [eexists _, _; by split_and!|].
    destruct (resize_spec (buffer en) (frag_offset (p_hdr p) + length (p_data p)) 0) as (_ & L & _).
    rewrite write_at_ok by lia. cbn [mbind outcome_bind]. eexists _, _. split; [done|]. split; [done|]. cbn [total_len].
    destruct (if negb _ then _ else _); [eauto|done]. }
  destruct Hres as (done & en' & -> & Hce & Hd). cbn [mbind outcome_bind]. destruct done.
  - destruct (Hd eq_refl) as [tot ->]. eexists _, _. split; [done|]. split.
    + intros k [en1 H1]. apply lookup_delete_Some in H1 as [_ H1]. eauto.
    + intros k en1 [_ H1]%lookup_delete_Some. eauto.
    + destruct ps; rewrite lookup_delete_ne by done; done.
  - eexists _, _. split; [done|]. split.
    + intros k [en1 [[<- _]|[_ H1]]%lookup_insert_Some]; eauto.
    + intros k en1 [[<- <-]|[_ H1]]%lookup_insert_Some; [lia|eauto].
    + destruct ps; rewrite lookup_insert_ne by done; done.
Qed.

(** A fragment of [K]: completion exactly when the datagram is covered. *)
Lemma process_mine ps T p : table_inv ps T → arrival p → mine K p = true →
  let hdr := p_hdr (default p (head ps)) in
  ∃ out T', process (p_time p) T (p_hdr p) (p_data p) = Ret (out, T') ∧
    (covers D (ps ++ [p]) → out = Some (hdr, D)) ∧
    (¬ covers D (ps ++ [p]) → out = None ∧ table_inv (ps ++ [p]) T').
Proof.
  intros Hinv [Ht _ Hf] Hm hdr. specialize (Hf Hm). unfold process. cbv zeta.
  unfold mine, is_fragment in Hm. apply andb_true_iff in Hm as [Hfr Hkey]. apply bool_decide_eq_true in Hkey.
  apply negb_true_iff in Hfr. rewrite Hfr, Hkey. rewrite (none_expired ps T) by done.
  pose proof Hinv as [Hkeys Htime Hmine].
  assert (Hen : (bool_decide (T !! K = None) && (MAX_ENTRIES <=? size T)%nat) = false).
  { destruct (decide (T !! K = None)) as [E|E]; [|by rewrite bool_decide_false].
    rewrite bool_decide_true by done. apply Nat.leb_gt. by eapply table_room. }
  rewrite Hen. set (en := default _ _).
  assert (Hei : entry_inv D ps en ∧ header en = hdr ∧ t0 <= created en < t0 + TIMEOUT_SECS * 1000000000).
  { unfold en, hdr. destruct ps as [|p0 ps'].
    - rewrite Hmine. cbn [default head]. split; [apply entry_inv_nil|done].
    - destruct Hmine as (en0 & E & ? & ?). rewrite E. cbn [default head]. split; [done|]. split; [done|]. by apply (Htime _ _ E). }
  destruct Hei as (Hei & Hh & Hcr).
  destruct (entry_insert_spec D ps en p D_size Hei Hf) as (done & en' & -> & Hei' & Hh' & Hc' & Hdone & Hdata).
  cbn [mbind outcome_bind]. destruct done.
  - destruct (Hdata eq_refl) as [-> ->]. eexists _, _. split; [done|]. split; [intros _; by rewrite Hh', Hh|].
    intros Hn. destruct Hn. by apply Hdone.
  - eexists _, _. split; [done|]. split; [intros Hcv%Hdone; done|]. intros _. split; [done|]. split.
    + intros k [en1 [[<- _]|[_ H1]]%lookup_insert_Some]; [left|eauto].
    + intros k en1 [[<- <-]|[_ H1]]%lookup_insert_Some; [lia|eauto].
    + assert (Hl : <[K := en']> T !! K = Some en') by apply lookup_insert_eq.
      destruct ps as [|p0 ps']; cbn [app] in *; exists en'; rewrite Hh', Hh; by unfold hdr.
Qed.

Lemma covers_mono ps qs : (∀ p, p ∈ ps → p ∈ qs) → covers D ps → covers D qs.
Proof. intros Hs Hc b Hb. destruct (Hc b Hb) as (p & Hp & ?). eauto. Qed.

(** Until the datagram is covered, its fragments produce nothing. *)
Lemma process_all_spec ps : ∀ seen T, table_inv seen T → (∀ p, p ∈ ps → arrival p) →
  ¬ covers D (seen ++ List.filter (mine K) ps) →
  ∃ outs T', process_all T ps = Ret (outs, T') ∧ table_inv (seen ++ List.filter (mine K) ps) T' ∧
    Forall2 (λ p out, mine K p = true → out = None) ps outs.
Proof.
  induction ps as [|p ps IH]; intros seen T Hinv Har Hn; cbn [process_all List.filter].
  { exists [], T. rewrite app_nil_r. by split_and!. }
  assert (Hp : arrival p) by (apply Har; left). assert (Hps : ∀ q, q ∈ ps → arrival q) by (intros q Hq; apply Har; by right).
  cbn [List.filter] in Hn. destruct (mine K p) eqn:Em.
  - destruct (process_mine seen T p Hinv Hp Em) as (out & T1 & -> & _ & Hno). cbn [mbind outcome_bind fst snd].
    destruct Hno as [-> Hinv1].
    { intros Hc. apply Hn. eapply covers_mono; [|exact Hc]. intros q. rewrite !elem_of_app, !elem_of_cons. intros [?|[?|?%not_elem_of_nil]]; tauto. }
    destruct (IH (seen ++ [p]) T1 Hinv1 Hps) as (outs & T2 & -> & Hinv2 & Hall); [by rewrite <- app_assoc|].
    cbn [mbind outcome_bind fst snd]. rewrite <- app_assoc in Hinv2. eexists _, _. split; [done|]. split; [done|]. by constructor.
  - destruct (process_other seen T p Hinv Hp Em) as (out & T1 & -> & Hinv1). cbn [mbind outcome_bind fst snd].
    destruct (IH seen T1 Hinv1 Hps Hn) as (outs & T2 & -> & Hinv2 & Hall). cbn [mbind outcome_bind fst snd].
    eexists _, _. split; [done|]. split; [done|]. constructor; [|done]. congruence.
Qed.

(** C15 Reassembly, from an empty table, over packets that all arrive within one
    timeout (30 s) and whose fragments belong to the datagram or to at most 31
    other keys, every fragment with the datagram's key carrying a slice of the
    datagram (1 to [MAX_DATAGRAM] bytes) and marked last only at its end: the
    datagram is returned exactly when its last missing byte arrives, byte for
    byte, with the header of the fragment that arrived first, whatever the order
    of the fragments and however they overlap or repeat; until then its
    fragments produce nothing. With more keys pending, or after the timeout, the
    code drops fragments and the theorem says nothing. *)
Theorem reassembly_exact (ps : list packet) (p : packet) :
  (∀ q, q ∈ ps ++ [p] → arrival q) → mine K p = true → ¬ covers D (List.filter (mine K) ps) →
  ∃ outs T, process_all new ps = Ret (outs, T) ∧ Forall2 (λ q out, mine K q = true → out = None) ps outs ∧
    ∃ out T', process (p_time p) T (p_hdr p) (p_data p) = Ret (out, T') ∧
      (covers D (List.filter (mine K) (ps ++ [p])) → out = Some (p_hdr (default p (head (List.filter (mine K) ps))), D)) ∧
      (¬ covers D (List.filter (mine K) (ps ++ [p])) → out = None).
Proof.
  intros Har Hm Hn. assert (Hfilt : List.filter (mine K) (ps ++ [p]) = List.filter (mine K) ps ++ [p]).
  { rewrite List.filter_app. cbn [List.filter]. by rewrite Hm. }
  destruct (process_all_spec ps [] new) as (outs & T & Hrun & Hinv & Hall).
  { split; unfold new; [intros k [? H]; by rewrite lookup_empty in H|intros k en H; by rewrite lookup_empty in H|apply lookup_empty]. }
  { intros q Hq. apply Har, elem_of_app. by left. }
  { done. }
  exists outs, T. split; [done|]. split; [done|].
  destruct (process_mine _ T p Hinv) as (out & T' & Hp & Hc & Hnc); [apply Har, elem_of_app; right; left|done|].
  exists out, T'. rewrite Hfilt. split; [done|]. split; [done|]. intros H. by apply Hnc.
Qed.

End Arrivals.

(** ** A concrete arrival *)

Definition demo_D : list Z := Z.of_nat <$> seq 0 24.
Definition demo_hdr (id flags : Z) : Ipv4Header := mk_ip 0x45 0 0 id flags 64 17 0 [10; 0; 2; 2] [10; 0; 2; 15].
Definition demo_K : FragKey := ([10; 0; 2; 2], [10; 0; 2; 15], 17, 7).

(** The tail first, then a fragment of another datagram, then the head. *)
Definition demo_tail : packet := (1000, demo_hdr 7 1, drop 8 demo_D).
Definition demo_stray : packet := (2000, demo_hdr 9 0x2002, [1; 2; 3]).
Definition demo_head : packet := (3000, demo_hdr 7 0x2000, take 8 demo_D).

Lemma demo_arrival q : q ∈ [demo_tail; demo_stray] ++ [demo_head] →
  arrival demo_D demo_K [([10; 0; 2; 2], [10; 0; 2; 15], 17, 9)] 0 q.
Proof.
  intros Hq. repeat apply elem_of_cons in Hq as [->|Hq]; [..|by apply not_elem_of_nil in Hq].
  - split; [cbn; unfold TIMEOUT_SECS; lia|intros _; left|intros _; by split; vm_compute; try lia].
  - split; [cbn; unfold TIMEOUT_SECS; lia|intros _; right; left|by vm_compute].
  - split; [cbn; unfold TIMEOUT_SECS; lia|intros _; left|intros _; by split; vm_compute; try lia].
Qed.

Lemma reassembly_exact_witness :
  ∃ outs T, process_all new [demo_tail; demo_stray] = Ret (outs, T) ∧
    Forall2 (λ q out, mine demo_K q = true → out = None) [demo_tail; demo_stray] outs ∧
    ∃ out T', process (p_time demo_head) T (p_hdr demo_head) (p_data demo_head) = Ret (out, T') ∧
      (covers demo_D (List.filter (mine demo_K) ([demo_tail; demo_stray] ++ [demo_head])) →
         out = Some (p_hdr (default demo_head (head (List.filter (mine demo_K) [demo_tail; demo_stray]))), demo_D)) ∧
      (¬ covers demo_D (List.filter (mine demo_K) ([demo_tail; demo_stray] ++ [demo_head])) → out = None).
Proof.
  refine (reassembly_exact demo_D demo_K [([10; 0; 2; 2], [10; 0; 2; 15], 17, 9)] 0 _ _ [demo_tail; demo_stray] demo_head _ _ _).
  - unfold MAX_DATAGRAM. cbn. lia.
  - unfold MAX_ENTRIES. cbn. lia.
  - exact demo_arrival.
  - vm_compute. reflexivity.
  - intros Hc. destruct (Hc O ltac:(cbn; lia)) as (p & Hp & Hb). change (p ∈ [demo_tail]) in Hp.
    apply list_elem_of_singleton in Hp as ->. unfold has_byte in Hb. change (frag_offset (p_hdr demo_tail)) with 8%nat in Hb. lia.
Defined.

(** The same arrival evaluated. *)
Example demo_reassembled :
  (x ← process_all new [demo_tail; demo_stray; demo_head]; Ret (fst x)) = Ret [None; None; Some (demo_hdr 7 1, demo_D)].
Proof. vm_compute. reflexivity. Qed.

End Fragment.
