(* ===== verification/Tcp.v ===== *)
(** * TCP (kernel/src/net/tcp.rs)

    Segments and the connection state machine. Clock readings are arguments in
    nanoseconds, the random initial sequence number is an argument, and a wake
    of one of the connection's wait queues is recorded in a log. *)

From S2P Require Import Prelude Packets.

Module Tcp.

Import Packets.

(** ** Segments *)

Definition FIN : Z := 0x01.
Definition SYN : Z := 0x02.
Definition RST : Z := 0x04.
Definition PSH : Z := 0x08.
Definition ACK : Z := 0x10.

Definition DEFAULT_MSS : Z := 1460.
Definition DEFAULT_WINDOW : Z := 16384.
Definition MAX_RX_BUFFER : Z := 65535.

Record TcpHeader := mk_hdr {
  src_port : Z; dst_port : Z; seq_num : Z; ack_num : Z; data_offset : Z;
  flags : Z; window : Z; checksum : Z; urgent : Z
}.

Definition has (h : TcpHeader) (flag : Z) : bool := negb (Z.land (flags h) flag =? 0).

Definition tcp_checksum (pkt src_ip dst_ip : list Z) : Z := internet_checksum (pseudo_header 6 pkt src_ip dst_ip).

Definition parse (data src_ip dst_ip : list Z) : option (TcpHeader * list Z) :=
  if (length data <? 20)%nat then None
  else if negb (tcp_checksum data src_ip dst_ip =? 0) then None
  else
    let hdr := mk_hdr (be_at 0 2 data) (be_at 2 2 data) (be_at 4 4 data) (be_at 8 4 data)
                 (Z.shiftr (at_ data 12) 4) (at_ data 13) (be_at 14 2 data) (be_at 16 2 data) (be_at 18 2 data) in
    let hdr_len := (Z.to_nat (data_offset hdr) * 4)%nat in
    if (hdr_len <? 20)%nat || (length data <? hdr_len)%nat then None
    else Some (hdr, drop hdr_len data).

(** The options loop; each turn moves at least one byte on. *)
Fixpoint mss_loop (fuel : nat) (opts : list Z) (i : nat) : option Z :=
  match fuel with
  | O => None
  | S fuel' =>
      if (i <? length opts)%nat then
        let o := at_ opts i in
        if o =? 0 then None
        else if o =? 1 then mss_loop fuel' opts (S (i + 1))
        else if o =? 2 then
          if (i + 3 <? length opts)%nat && (at_ opts (i + 1) =? 4) then Some (be_at (i + 2) 2 opts) else None
        else if (length opts <=? i + 1)%nat then None
        else
          let len := Z.to_nat (at_ opts (i + 1)) in
          if (len <? 2)%nat then None else mss_loop fuel' opts (i + len)
      else None
  end.

Definition parse_mss (data : list Z) (data_offset : Z) : option Z :=
  let opts_end := (Z.to_nat data_offset * 4)%nat in
  if (opts_end <=? 20)%nat || (length data <? opts_end)%nat then None
  else let opts := sub 20 (opts_end - 20) data in mss_loop (length opts) opts 0.

Definition build (src_port dst_port seq ack flags window : Z) (src_ip dst_ip options payload : list Z) : list Z :=
  let data_offset := Z.of_nat (Nat.div (20 + length options + 3) 4) in
  let total_hdr := (Z.to_nat (wrap 8 data_offset) * 4)%nat in
  let head := be_bytes 2 src_port ++ be_bytes 2 dst_port ++ be_bytes 4 seq ++ be_bytes 4 ack ++
              [wrap 8 (Z.shiftl (wrap 8 data_offset) 4)] ++ [flags] ++ be_bytes 2 window ++ be_bytes 2 0 ++ be_bytes 2 0 ++ options in
  let pkt := head ++ replicate (total_hdr - length head) 0 ++ payload in
  set_checksum pkt 16 (tcp_checksum pkt src_ip dst_ip).

Definition mss_option (mss : Z) : list Z := [2; 4; Z.shiftr mss 8; Z.land mss 0xFF].

(** ** Sequence numbers *)

Definition seq_gt (a b : Z) : bool := let d := wrap 32 (a - b) in (0 <? d) && (d <? 2 ^ 31).
Definition seq_leq (a b : Z) : bool := negb (seq_gt a b).

(** ** Connections *)

Inductive TcpState :=
| Closed | Listen | SynSent | SynReceived | Established | FinWait1 | FinWait2 | CloseWait | Closing | LastAck | TimeWait.

#[export] Instance TcpState_eq_dec : EqDecision TcpState.
Proof. solve_decision. Defined.

(** Nanoseconds. *)
Definition INITIAL_RTO : Z := 1000000000.
Definition MIN_RTO : Z := 200000000.
Definition MAX_RTO : Z := 60000000000.
Definition TIME_WAIT : Z := 5000000000.

Record RetransmitSegment := mk_seg { seq : Z; payload_len : Z; data : list Z; sent_at : Z; retries : Z }.

(** A wake of a wait queue. *)
Inductive Wake := RxOne | RxAll | TxAll | StateAll.

Record TcpConnection := mk_conn {
  state : TcpState; local_port : Z; remote_port : Z; local_ip : list Z; remote_ip : list Z;
  snd_una : Z; snd_nxt : Z; snd_wnd : Z; iss : Z;
  rcv_nxt : Z; rcv_wnd : Z; irs : Z; mss : Z;
  rx_buffer : list Z; retransmit_queue : list RetransmitSegment;
  srtt : option Z; rttvar : Z; rto : Z;
  fin_seq : option Z; time_wait_until : option Z; wakes : list Wake
}.

Definition new (isn : Z) (lip : list Z) (lp : Z) (rip : list Z) (rp : Z) : TcpConnection :=
  mk_conn Closed lp rp lip rip isn isn 0 isn 0 DEFAULT_WINDOW 0 DEFAULT_MSS [] [] None 0 INITIAL_RTO None None [].

(** Field updates. *)
Definition set_state (c : TcpConnection) (s : TcpState) : TcpConnection :=
  mk_conn s (local_port c) (remote_port c) (local_ip c) (remote_ip c) (snd_una c) (snd_nxt c) (snd_wnd c) (iss c)
    (rcv_nxt c) (rcv_wnd c) (irs c) (mss c) (rx_buffer c) (retransmit_queue c) (srtt c) (rttvar c) (rto c)
    (fin_seq c) (time_wait_until c) (wakes c).
Definition set_snd (c : TcpConnection) (una nxt wnd : Z) : TcpConnection :=
  mk_conn (state c) (local_port c) (remote_port c) (local_ip c) (remote_ip c) una nxt wnd (iss c)
    (rcv_nxt c) (rcv_wnd c) (irs c) (mss c) (rx_buffer c) (retransmit_queue c) (srtt c) (rttvar c) (rto c)
    (fin_seq c) (time_wait_until c) (wakes c).
Definition set_rcv (c : TcpConnection) (nxt wnd irs : Z) (buf : list Z) : TcpConnection :=
  mk_conn (state c) (local_port c) (remote_port c) (local_ip c) (remote_ip c) (snd_una c) (snd_nxt c) (snd_wnd c) (iss c)
    nxt wnd irs (mss c) buf (retransmit_queue c) (srtt c) (rttvar c) (rto c) (fin_seq c) (time_wait_until c) (wakes c).
Definition set_mss (c : TcpConnection) (m : Z) : TcpConnection :=
  mk_conn (state c) (local_port c) (remote_port c) (local_ip c) (remote_ip c) (snd_una c) (snd_nxt c) (snd_wnd c) (iss c)
    (rcv_nxt c) (rcv_wnd c) (irs c) m (rx_buffer c) (retransmit_queue c) (srtt c) (rttvar c) (rto c)
    (fin_seq c) (time_wait_until c) (wakes c).
Definition set_queue (c : TcpConnection) (q : list RetransmitSegment) : TcpConnection :=
  mk_conn (state c) (local_port c) (remote_port c) (local_ip c) (remote_ip c) (snd_una c) (snd_nxt c) (snd_wnd c) (iss c)
    (rcv_nxt c) (rcv_wnd c) (irs c) (mss c) (rx_buffer c) q (srtt c) (rttvar c) (rto c)
    (fin_seq c) (time_wait_until c) (wakes c).
Definition set_rtt (c : TcpConnection) (s : option Z) (v r : Z) : TcpConnection :=
  mk_conn (state c) (local_port c) (remote_port c) (local_ip c) (remote_ip c) (snd_una c) (snd_nxt c) (snd_wnd c) (iss c)
    (rcv_nxt c) (rcv_wnd c) (irs c) (mss c) (rx_buffer c) (retransmit_queue c) s v r
    (fin_seq c) (time_wait_until c) (wakes c).
Definition set_close (c : TcpConnection) (f t : option Z) : TcpConnection :=
  mk_conn (state c) (local_port c) (remote_port c) (local_ip c) (remote_ip c) (snd_una c) (snd_nxt c) (snd_wnd c) (iss c)
    (rcv_nxt c) (rcv_wnd c) (irs c) (mss c) (rx_buffer c) (retransmit_queue c) (srtt c) (rttvar c) (rto c) f t (wakes c).
Definition wake (c : TcpConnection) (ws : list Wake) : TcpConnection :=
  mk_conn (state c) (local_port c) (remote_port c) (local_ip c) (remote_ip c) (snd_una c) (snd_nxt c) (snd_wnd c) (iss c)
    (rcv_nxt c) (rcv_wnd c) (irs c) (mss c) (rx_buffer c) (retransmit_queue c) (srtt c) (rttvar c) (rto c)
    (fin_seq c) (time_wait_until c) (wakes c ++ ws).

Definition update_rcv_wnd (c : TcpConnection) : TcpConnection :=
  set_rcv c (rcv_nxt c) (wrap 16 (sat_sub MAX_RX_BUFFER (Z.of_nat (length (rx_buffer c))))) (irs c) (rx_buffer c).

(** A segment of this connection with the given sequence numbers. *)
Definition segment (c : TcpConnection) (seq ack flags window : Z) (options payload : list Z) : list Z :=
  build (local_port c) (remote_port c) seq ack flags window (local_ip c) (remote_ip c) options payload.

Definition build_ack (c : TcpConnection) : list Z := segment c (snd_nxt c) (rcv_nxt c) ACK (rcv_wnd c) [] [].

Definition update_rto (c : TcpConnection) (rtt : Z) : TcpConnection :=
  let '(s, v) :=
    match srtt c with
    | None => (rtt, rtt / 2)
    | Some s => ((s * 7 + rtt) / 8, (rttvar c * 3 + Z.abs (s - rtt)) / 4)
    end in
  set_rtt c (Some s) v (Z.min (Z.max (s + v * 4) MIN_RTO) MAX_RTO).

(** [duration_since] of two instants, zero when they are reversed. *)
Definition duration_since (now t : Z) : Z := Z.max 0 (now - t).

(** The largest sample among acknowledged segments never resent. *)
Definition rtt_sample (now ack : Z) (q : list RetransmitSegment) : option Z :=
  fold_left (λ acc s,
    if (retries s =? 0) && seq_leq (wrap 32 (seq s + payload_len s)) ack
    then Some (match acc with None => duration_since now (sent_at s) | Some m => Z.max m (duration_since now (sent_at s)) end)
    else acc) q None.

Definition process_ack (now : Z) (c : TcpConnection) (ack win : Z) : TcpConnection :=
  if seq_gt ack (snd_una c) && seq_leq ack (snd_nxt c) then
    let c := set_snd c ack (snd_nxt c) win in
    let c := match rtt_sample now ack (retransmit_queue c) with Some rtt => update_rto c rtt | None => c end in
    let c := set_queue c (List.filter (λ s, seq_gt (wrap 32 (seq s + payload_len s)) ack) (retransmit_queue c)) in
    wake c [TxAll]
  else c.

Definition fin_acked (c : TcpConnection) (ack : Z) : bool :=
  match fin_seq c with Some f => seq_gt ack f | None => false end.

Definition enter_time_wait (now : Z) (c : TcpConnection) : TcpConnection :=
  set_close (set_state c TimeWait) (fin_seq c) (Some (now + TIME_WAIT)).

(** Data of a segment in one of the three data states: whether it was in order,
    the connection, and the acknowledgement. *)
Definition process_data (c : TcpConnection) (hdr : TcpHeader) (payload : list Z) : bool * TcpConnection * list (list Z) :=
  if (length payload =? 0)%nat then (true, c, [])
  else if seq_num hdr =? rcv_nxt c then
    let c := set_rcv c (wrap 32 (rcv_nxt c + wrap 32 (Z.of_nat (length payload)))) (rcv_wnd c) (irs c) (rx_buffer c ++ payload) in
    let c := wake (update_rcv_wnd c) [RxOne] in
    (true, c, [build_ack c])
  else (false, c, [build_ack c]).

Definition process_fin (now : Z) (c : TcpConnection) (hdr : TcpHeader) : TcpConnection * list (list Z) :=
  let c := set_rcv c (wrap 32 (rcv_nxt c + 1)) (rcv_wnd c) (irs c) (rx_buffer c) in
  let ack := build_ack c in
  let c := match state c with
    | Established => wake (set_state c CloseWait) [RxAll]
    | FinWait1 => if has hdr ACK && fin_acked c (ack_num hdr) then enter_time_wait now c else set_state c Closing
    | FinWait2 => enter_time_wait now c
    | _ => c
    end in
  (wake c [StateAll], [ack]).

(** The arm for [Established], [FinWait1] and [FinWait2]. *)
Definition handle_data (now : Z) (c : TcpConnection) (hdr : TcpHeader) (payload : list Z) : TcpConnection * list (list Z) :=
  if has hdr RST then (wake (set_state c Closed) [StateAll; RxAll; TxAll], [])
  else
    let c := if has hdr ACK then process_ack now c (ack_num hdr) (window hdr) else c in
    let '(in_order, c, r1) := process_data c hdr payload in
    let '(c, r2) := if has hdr FIN && in_order then process_fin now c hdr else (c, []) in
    let c :=
      if bool_decide (state c = FinWait1) && has hdr ACK && fin_acked c (ack_num hdr)
      then wake (set_state c FinWait2) [StateAll] else c in
    (c, r1 ++ r2).

Definition handle_syn_sent (c : TcpConnection) (hdr : TcpHeader) (raw : list Z) : TcpConnection * list (list Z) :=
  if has hdr RST then (wake (set_state c Closed) [StateAll], [])
  else if has hdr SYN && has hdr ACK then
    if negb (ack_num hdr =? snd_nxt c) then (c, [])
    else
      let c := set_rcv c (wrap 32 (seq_num hdr + 1)) (rcv_wnd c) (seq_num hdr) (rx_buffer c) in
      let c := set_snd c (ack_num hdr) (snd_nxt c) (window hdr) in
      let c := match parse_mss raw (data_offset hdr) with Some m => set_mss c m | None => c end in
      let c := set_state (set_queue c []) Established in
      (wake c [StateAll], [build_ack c])
  else (c, []).

Definition handle_syn_received (c : TcpConnection) (hdr : TcpHeader) : TcpConnection * list (list Z) :=
  if has hdr RST then (wake (set_state c Closed) [StateAll], [])
  else if has hdr ACK && (ack_num hdr =? snd_nxt c) then
    let c := set_snd c (ack_num hdr) (snd_nxt c) (window hdr) in
    (wake (set_queue (set_state c Established) []) [StateAll], [])
  else (c, []).

Definition handle_segment (now : Z) (c : TcpConnection) (hdr : TcpHeader) (payload raw : list Z) : TcpConnection * list (list Z) :=
  match state c with
  | SynReceived => handle_syn_received c hdr
  | SynSent => handle_syn_sent c hdr raw
  | Established | FinWait1 | FinWait2 => handle_data now c hdr payload
  | CloseWait => if has hdr ACK then (process_ack now c (ack_num hdr) (window hdr), []) else (c, [])
  | Closing =>
      if has hdr ACK && fin_acked c (ack_num hdr) then (wake (enter_time_wait now c) [StateAll], []) else (c, [])
  | LastAck =>
      if has hdr ACK && fin_acked c (ack_num hdr) then (wake (set_state c Closed) [StateAll], []) else (c, [])
  | _ => (c, [])
  end.

(** Queue a segment just built. *)
Definition enqueue (now : Z) (c : TcpConnection) (sq len : Z) (bytes : list Z) : TcpConnection :=
  set_queue c (retransmit_queue c ++ [mk_seg sq len bytes now 0]).

Definition build_syn (now : Z) (c : TcpConnection) : list Z * TcpConnection :=
  let c := set_state c SynSent in
  let seg := segment c (iss c) 0 SYN (rcv_wnd c) (mss_option DEFAULT_MSS) [] in
  let c := set_snd c (snd_una c) (wrap 32 (iss c + 1)) (snd_wnd c) in
  (seg, enqueue now c (iss c) 1 seg).

Definition build_syn_ack (now : Z) (c : TcpConnection) : list Z * TcpConnection :=
  let c := set_state c SynReceived in
  let seg := segment c (iss c) (rcv_nxt c) (Z.lor SYN ACK) (rcv_wnd c) (mss_option DEFAULT_MSS) [] in
  let c := set_snd c (snd_una c) (wrap 32 (iss c + 1)) (snd_wnd c) in
  (seg, enqueue now c (iss c) 1 seg).

Definition build_fin (now : Z) (c : TcpConnection) : option (list Z) * TcpConnection :=
  let close c :=
    let fin := snd_nxt c in
    let c := set_close c (Some fin) (time_wait_until c) in
    let seg := segment c fin (rcv_nxt c) (Z.lor FIN ACK) (rcv_wnd c) [] [] in
    let c := set_snd c (snd_una c) (wrap 32 (snd_nxt c + 1)) (snd_wnd c) in
    (Some seg, enqueue now c fin 1 seg) in
  match state c with
  | Established => close (set_state c FinWait1)
  | CloseWait => close (set_state c LastAck)
  | _ => (None, c)
  end.

Definition abort (c : TcpConnection) : TcpConnection :=
  if bool_decide (state c = Closed) then c else wake (set_state (set_queue c []) Closed) [StateAll].

(** The send loop over what is left of the data; each turn takes a byte at
    least, so the length bounds it. The segments and the rest. *)
Fixpoint send_loop (fuel : nat) (now : Z) (c : TcpConnection) (data : list Z) : list (list Z) * list Z * TcpConnection :=
  match fuel with
  | O => ([], data, c)
  | S fuel' =>
      if (length data =? 0)%nat then ([], data, c)
      else
        let in_flight := wrap 32 (snd_nxt c - snd_una c) in
        if snd_wnd c <=? in_flight then ([], data, c)
        else
          let window_left := Z.to_nat (sat_sub (snd_wnd c) in_flight) in
          let chunk_size := Nat.min (Nat.min (length data) (Z.to_nat (mss c))) window_left in
          if (chunk_size =? 0)%nat then ([], data, c)
          else
            let chunk := take chunk_size data in
            let seg := segment c (snd_nxt c) (rcv_nxt c) (Z.lor ACK PSH) (rcv_wnd c) [] chunk in
            let c := enqueue now c (snd_nxt c) (Z.of_nat chunk_size) seg in
            let c := set_snd c (snd_una c) (wrap 32 (snd_nxt c + Z.of_nat chunk_size)) (snd_wnd c) in
            let '(segs, rest, c) := send_loop fuel' now c (drop chunk_size data) in
            (seg :: segs, rest, c)
  end.

Definition build_data_segments (now : Z) (c : TcpConnection) (data : list Z) : list (list Z) * nat * TcpConnection :=
  let '(segs, rest, c) := send_loop (length data) now c data in (segs, (length data - length rest)%nat, c).

(** The pass over the queue: the segments resent, whether one ran out of
    retries, and the queue. *)
Fixpoint resend_pass (now base_rto : Z) (q : list RetransmitSegment) : list (list Z) * bool * list RetransmitSegment :=
  match q with
  | [] => ([], false, [])
  | s :: q =>
      let r := Z.min (base_rto * Z.shiftl 1 (Z.min (retries s) 5)) MAX_RTO in
      if r <=? duration_since now (sent_at s) then
        if 5 <=? retries s then ([], true, s :: q)
        else
          let '(out, dead, q') := resend_pass now base_rto q in
          (data s :: out, dead, mk_seg (seq s) (payload_len s) (data s) now (retries s + 1) :: q')
      else let '(out, dead, q') := resend_pass now base_rto q in (out, dead, s :: q')
  end.

Definition check_retransmit (now : Z) (c : TcpConnection) : list (list Z) * TcpConnection :=
  let '(out, dead, q) := resend_pass now (rto c) (retransmit_queue c) in
  let c := set_queue c q in
  if dead then
    (out ++ [segment c (snd_nxt c) 0 RST 0 [] []], wake (set_queue (set_state c Closed) []) [StateAll; RxAll; TxAll])
  else (out, c).

(** The connection a listening socket makes of a SYN (net/stack.rs). *)
Definition passive_open (now isn : Z) (dst_ip src_ip : list Z) (hdr : TcpHeader) (raw : list Z) : list Z * TcpConnection :=
  let c := new isn dst_ip (dst_port hdr) src_ip (src_port hdr) in
  let c := set_rcv c (wrap 32 (seq_num hdr + 1)) (rcv_wnd c) (seq_num hdr) (rx_buffer c) in
  let c := match parse_mss raw (data_offset hdr) with Some m => set_mss c m | None => c end in
  build_syn_ack now (set_snd c (snd_una c) (snd_nxt c) (window hdr)).

(** [sys_read] on a connected socket drains the buffer (syscalls/io.rs). *)
Definition read_drain (c : TcpConnection) (count : nat) : list Z * TcpConnection :=
  let n := Nat.min count (length (rx_buffer c)) in
  (take n (rx_buffer c), set_rcv c (rcv_nxt c) (rcv_wnd c) (irs c) (drop n (rx_buffer c))).

End Tcp.
