(* ===== verification/TcpSender.v ===== *)
(** * TCP: the sending side

    Sequence arithmetic, the invariant of the retransmission queue over every
    run of a connection, and what a closed send window does. *)

From S2P Require Import Prelude Packets Tcp.

Module TcpSender.

Import Tcp.

(** ** Sequence numbers *)

Lemma wrap_sub a b : wrap 32 (wrap 32 a - wrap 32 b) = wrap 32 (a - b).
Proof. unfold wrap. by rewrite <- Zminus_mod. Qed.

Lemma wrap_add a b : wrap 32 (wrap 32 a + b) = wrap 32 (a + b).
Proof. unfold wrap. by rewrite Zplus_mod_idemp_l. Qed.

Lemma wrap_range a : 0 <= wrap 32 a < 2 ^ 32.
Proof. unfold wrap. apply Z.mod_pos_bound. lia. Qed.

Lemma wrap_small a : 0 <= a < 2 ^ 32 → wrap 32 a = a.
Proof. intros. unfold wrap. by apply Z.mod_small. Qed.

(** The wrapping comparison orders numbers less than half the space apart. *)
Lemma seq_gt_abs a b : Z.abs (a - b) < 2 ^ 31 → seq_gt (wrap 32 a) (wrap 32 b) = (b <? a).
Proof.
  intros H. unfold seq_gt. rewrite wrap_sub. destruct (Z.ltb_spec b a).
  - rewrite wrap_small by lia. rewrite (proj2 (Z.ltb_lt 0 _)), (proj2 (Z.ltb_lt _ (2 ^ 31))) by lia. done.
  - destruct (decide (a = b)) as [->|Hne]; [by rewrite Z.sub_diag|].
    assert (wrap 32 (a - b) = 2 ^ 32 + (a - b)) as ->.
    { unfold wrap. symmetry. apply (Z.mod_unique _ _ (-1)); lia. }
    rewrite (proj2 (Z.ltb_ge _ (2 ^ 31))) by lia. apply andb_false_r.
Qed.

(** ** The retransmission queue tiles the unacknowledged range *)

Fixpoint tiles (q : list RetransmitSegment) (a b : Z) : Prop :=
  match q with
  | [] => a = b
  | s :: q => seq s = wrap 32 a ∧ 0 < payload_len s <= 65535 ∧ tiles q (a + payload_len s) b
  end.

Lemma tiles_le q : ∀ a b, tiles q a b → a <= b.
Proof. induction q as [|s q IH]; intros a b; cbn [tiles]; [lia|]. intros (_ & Hl & Ht). apply IH in Ht. lia. Qed.

Lemma tiles_snoc q s : ∀ a b, tiles q a b → seq s = wrap 32 b → 0 < payload_len s <= 65535 → tiles (q ++ [s]) a (b + payload_len s).
Proof.
  induction q as [|x q IH]; intros a b; cbn [tiles app].
  - intros -> Hs Hl. split; [done|]. by split.
  - intros (H1 & H2 & H3) Hs Hl. split; [done|]. split; [done|]. auto.
Qed.

(** Every number in the range is inside some segment. *)
Lemma tiles_cover q : ∀ a b k, tiles q a b → a <= k < b →
  ∃ s, s ∈ q ∧ wrap 32 (k - seq s) < payload_len s.
Proof.
  induction q as [|s q IH]; intros a b k; cbn [tiles]; [lia|]. intros (Hs & Hl & Ht) Hk.
  destruct (Z.ltb_spec k (a + payload_len s)).
  - exists s. split; [left|]. rewrite Hs. unfold wrap. rewrite Zminus_mod_idemp_r, Z.mod_small; lia.
  - destruct (IH _ _ k Ht ltac:(lia)) as (x & Hx & Hk'). exists x. split; [by right|done].
Qed.

(** Segments past [A] stay queued when [A] is acknowledged. *)
Lemma tiles_keep q : ∀ a b A, tiles q a b → A <= a → b - A < 2 ^ 31 →
  List.filter (λ s, seq_gt (wrap 32 (seq s + payload_len s)) (wrap 32 A)) q = q.
Proof.
  induction q as [|s q IH]; intros a b A Ht HA Hw; cbn [tiles List.filter] in *; [done|].
  destruct Ht as (Hs & Hl & Ht). pose proof (tiles_le _ _ _ Ht). rewrite Hs, wrap_add, seq_gt_abs by lia.
  rewrite (proj2 (Z.ltb_lt _ _)) by lia. f_equal. eapply IH; [done|lia|lia].
Qed.

(** Dropping what an acknowledgement of [A] covers. *)
Lemma tiles_ack q : ∀ a b A, tiles q a b → a <= A <= b → b - a < 2 ^ 31 →
  ∃ a', tiles (List.filter (λ s, seq_gt (wrap 32 (seq s + payload_len s)) (wrap 32 A)) q) a' b ∧ a <= a' <= A ∧
    ∀ s r, List.filter (λ s, seq_gt (wrap 32 (seq s + payload_len s)) (wrap 32 A)) q = s :: r → A < a' + payload_len s.
Proof.
  induction q as [|s q IH]; intros a b A Ht HA Hw; cbn [tiles List.filter] in *.
  { exists a. split; [done|]. split; [lia|done]. }
  destruct Ht as (Hs & Hl & Ht). pose proof (tiles_le _ _ _ Ht). rewrite Hs, wrap_add, seq_gt_abs by lia.
  destruct (Z.ltb_spec A (a + payload_len s)) as [Hk|Hk].
  - rewrite (tiles_keep q (a + payload_len s) b) by (try done; lia).
    exists a. split; [by repeat (split; [done|])|]. split; [lia|]. by intros ? ? [= <- _].
  - destruct (IH _ _ A Ht ltac:(lia) ltac:(lia)) as (a' & H1 & H2 & H3). exists a'. split; [done|]. split; [lia|done].
Qed.

(** ** The invariant of the sending side *)

(** States in which the connection's FIN has not been sent. *)
Definition before_fin (s : TcpState) : bool :=
  match s with SynSent | SynReceived | Established | CloseWait => true | _ => false end.

(** With the sequence numbers unwrapped: at most a window (and a FIN) is in
    flight, and the queue tiles a range that starts at or before the oldest
    unacknowledged byte and ends at the next byte to send. *)
Definition snd_ok (s : TcpState) (una nxt wnd : Z) (q : list RetransmitSegment) : Prop :=
  ∃ u n f, una = wrap 32 u ∧ nxt = wrap 32 n ∧ u <= n <= u + 65535 + (if before_fin s then 0 else 1) ∧
    0 <= wnd <= 65535 ∧ tiles q f n ∧ f <= u ∧ ∀ x r, q = x :: r → u < f + payload_len x.

Definition sender (c : TcpConnection) : Prop :=
  snd_ok (state c) (snd_una c) (snd_nxt c) (snd_wnd c) (retransmit_queue c).

Lemma snd_ok_state s s' una nxt wnd q : (before_fin s' = true → before_fin s = true) →
  snd_ok s una nxt wnd q → snd_ok s' una nxt wnd q.
Proof.
  intros Hs (u & n & f & H1 & H2 & H3 & H4). exists u, n, f. split; [done|]. split; [done|]. split; [|done].
  destruct (before_fin s'), (before_fin s); try lia; by specialize (Hs eq_refl).
Qed.

(** Nothing in flight. *)
Lemma snd_ok_idle s x wnd : 0 <= x < 2 ^ 32 → 0 <= wnd <= 65535 → snd_ok s x x wnd [].
Proof.
  intros Hx Hw. exists x, x, x. rewrite wrap_small by done. split_and!; try done; try lia. destruct (before_fin s); lia.
Qed.

(** A segment appended at the end of the range. *)
Lemma snd_ok_push s s' una nxt wnd q sg : snd_ok s una nxt wnd q → before_fin s = true →
  seq sg = nxt → 0 < payload_len sg <= 65535 →
  wrap 32 (nxt - una) + payload_len sg <= 65535 + (if before_fin s' then 0 else 1) →
  snd_ok s' una (wrap 32 (nxt + payload_len sg)) wnd (q ++ [sg]).
Proof.
  intros (u & n & f & -> & -> & Hb & Hw & Ht & Hf & Hfirst) Hs Hseq Hl Hfl. rewrite Hs in Hb.
  rewrite wrap_sub, wrap_small in Hfl by lia.
  exists u, (n + payload_len sg), f. rewrite wrap_add. split; [done|]. split; [done|]. split; [lia|]. split; [done|].
  split; [by apply tiles_snoc|]. split; [done|]. intros x r E. destruct q as [|y q]; cbn [app] in E; [|injection E as <- _; by eapply Hfirst].
  injection E as <- _. cbn [tiles] in Ht. lia.
Qed.

Lemma in_flight_eq s una nxt wnd q : snd_ok s una nxt wnd q →
  0 <= wrap 32 (nxt - una) <= 65535 + (if before_fin s then 0 else 1).
Proof.
  intros (u & n & f & -> & -> & Hb & _). rewrite wrap_sub, wrap_small; [|destruct (before_fin s); lia]. lia.
Qed.

(** An acknowledgement moves the start of the range and drops what it covers. *)
Lemma process_ack_sender now c ack win : sender c → 0 <= ack < 2 ^ 32 → 0 <= win <= 65535 → sender (process_ack now c ack win).
Proof.
  intros Hs Ha Hw. unfold process_ack. destruct (seq_gt ack (snd_una c) && seq_leq ack (snd_nxt c)) eqn:E; [|done].
  apply andb_true_iff in E as [E1 E2]. destruct Hs as (u & n & f & Hu & Hn & Hb & Hwnd & Ht & Hf & Hfirst).
  assert (HA : ∃ A, ack = wrap 32 A ∧ u < A <= n).
  { unfold seq_gt in E1. rewrite Hu in E1. apply andb_true_iff in E1 as [D1%Z.ltb_lt D2%Z.ltb_lt].
    set (d := wrap 32 (ack - wrap 32 u)) in *. exists (u + d).
    assert (Hack : ack = wrap 32 (u + d)).
    { unfold d. rewrite Z.add_comm, wrap_add. replace (ack - wrap 32 u + u) with (ack + (u - wrap 32 u)) by lia.
      unfold wrap. rewrite (Z.div_mod u (2 ^ 32)) at 1 by lia.
      replace (ack + (2 ^ 32 * (u / 2 ^ 32) + u mod 2 ^ 32 - u mod 2 ^ 32)) with (ack + (u / 2 ^ 32) * 2 ^ 32) by lia.
      rewrite Z_mod_plus_full, Z.mod_small by lia. done. }
    split; [done|]. unfold seq_leq in E2. rewrite Hn, Hack, seq_gt_abs in E2 by (destruct (before_fin (state c)); lia).
    apply negb_true_iff, Z.ltb_ge in E2. lia. }
  destruct HA as (A & -> & HA).
  assert (Hff : u - f < 65535).
  { destruct (retransmit_queue c) as [|x r] eqn:Eq; [cbn [tiles] in Ht; lia|].
    specialize (Hfirst x r eq_refl). destruct Ht as (_ & Hl & _). lia. }
  destruct (tiles_ack (retransmit_queue c) f n A Ht ltac:(lia) ltac:(destruct (before_fin (state c)); lia)) as (f' & T1 & T2 & T3).
  assert (Hok : snd_ok (state c) (wrap 32 A) (snd_nxt c) win
    (List.filter (λ s, seq_gt (wrap 32 (seq s + payload_len s)) (wrap 32 A)) (retransmit_queue c))).
  { exists A, n, f'. split_and!; try done; try lia. }
  unfold sender. cbn [snd_una snd_nxt snd_wnd state set_snd retransmit_queue].
  destruct (rtt_sample now (wrap 32 A) (retransmit_queue c)) as [rtt|]; [|exact Hok].
  unfold update_rto. cbn [srtt rttvar set_snd]. destruct (srtt c); exact Hok.
Qed.

(** Only the sending fields matter to the invariant. *)
Lemma sender_ext c c' : snd_una c' = snd_una c → snd_nxt c' = snd_nxt c → snd_wnd c' = snd_wnd c →
  retransmit_queue c' = retransmit_queue c → (before_fin (state c') = true → before_fin (state c) = true) →
  sender c → sender c'.
Proof. intros E1 E2 E3 E4 Hs H. unfold sender. rewrite E1, E2, E3, E4. by eapply snd_ok_state. Qed.

(** A header as the decoder produces it: fields within their widths. *)
Record hdr_ok (h : TcpHeader) : Prop := {
  ok_ack : 0 <= ack_num h < 2 ^ 32;
  ok_seq : 0 <= seq_num h < 2 ^ 32;
  ok_win : 0 <= window h <= 65535
}.

Definition inv (c : TcpConnection) : Prop := state c ≠ Closed → sender c.

Lemma process_data_keeps c hdr payload : let c' := (process_data c hdr payload).1.2 in
  state c' = state c ∧ snd_una c' = snd_una c ∧ snd_nxt c' = snd_nxt c ∧ snd_wnd c' = snd_wnd c ∧
  retransmit_queue c' = retransmit_queue c ∧ fin_seq c' = fin_seq c.
Proof. unfold process_data. destruct (_ =? _)%nat; [done|]. by destruct (_ =? _). Qed.

Lemma process_ack_state now c ack win : state (process_ack now c ack win) = state c.
Proof.
  unfold process_ack. destruct (_ && _); [|done]. destruct (rtt_sample _ _ _); [|done].
  unfold update_rto. by destruct (srtt _).
Qed.

Lemma handle_data_inv now c hdr payload : hdr_ok hdr → sender c → state c = Established ∨ state c = FinWait1 ∨ state c = FinWait2 →
  inv (handle_data now c hdr payload).1.
Proof.
  intros [Ha _ Hw] Hs Hst. unfold handle_data. destruct (has hdr RST); [by intros []|].
  set (c1 := if has hdr ACK then _ else c).
  assert (Hs1 : sender c1) by (unfold c1; destruct (has hdr ACK); [by apply process_ack_sender|done]).
  assert (Hst1 : state c1 = state c) by (unfold c1; destruct (has hdr ACK); [apply process_ack_state|done]).
  destruct (process_data c1 hdr payload) as [[io c2] r1] eqn:Ed.
  pose proof (process_data_keeps c1 hdr payload) as K. rewrite Ed in K. cbn [fst snd] in K. destruct K as (K1 & K2 & K3 & K4 & K5 & _).
  assert (Hs2 : sender c2) by (apply (sender_ext c1); congruence).
  assert (Hst2 : state c2 = state c) by congruence.
  assert (Hs3 : ∀ c3 r2, (if has hdr FIN && io then process_fin now c2 hdr else (c2, [])) = (c3, r2) → sender c3).
  { intros c3 r2. destruct (_ && io); [|by intros [= <- _]]. unfold process_fin. intros [= <- _].
    apply (sender_ext c2); try done; cbn [wake set_state state set_rcv]; rewrite Hst2;
      destruct Hst as [E|[E|E]]; rewrite ?E; try done; destruct (_ && _); done. }
  destruct (if has hdr FIN && io then _ else _) as [c3 r2] eqn:Ef. specialize (Hs3 c3 r2 eq_refl). intros _. cbn [fst].
  destruct (bool_decide (state c3 = FinWait1) && has hdr ACK && fin_acked c3 (ack_num hdr)); [|done].
  by apply (sender_ext c3).
Qed.

Lemma handle_segment_inv now c hdr payload raw : hdr_ok hdr → inv c → inv (handle_segment now c hdr payload raw).1.
Proof.
  intros Hh Hi. pose proof Hh as [Ha Hsq Hw]. unfold handle_segment. destruct (state c) eqn:Es; try exact Hi.
  - unfold handle_syn_sent. destruct (has hdr RST); [by intros []|]. destruct (_ && _); [|exact Hi].
    destruct (Z.eqb_spec (ack_num hdr) (snd_nxt c)) as [E|]; cbn [negb]; [|exact Hi]. intros _.
    unfold sender. destruct (parse_mss _ _); cbn; rewrite <- E; by apply snd_ok_idle.
  - unfold handle_syn_received. destruct (has hdr RST); [by intros []|]. destruct (_ && _) eqn:E; [|exact Hi].
    apply andb_true_iff in E as [_ E%Z.eqb_eq]. intros _. unfold sender. cbn. rewrite <- E. by apply snd_ok_idle.
  - apply handle_data_inv; [done|apply Hi; congruence|by left].
  - apply handle_data_inv; [done|apply Hi; congruence|by right; left].
  - apply handle_data_inv; [done|apply Hi; congruence|by right; right].
  - destruct (has hdr ACK); [|exact Hi]. intros _. apply process_ack_sender; [apply Hi; congruence|done|done].
  - destruct (_ && _); [|exact Hi]. intros _. apply (sender_ext c); try done. apply Hi. congruence.
  - destruct (_ && _); [by intros []|exact Hi].
Qed.

Lemma send_loop_sender fuel : ∀ now c d, sender c → before_fin (state c) = true →
  let c' := (send_loop fuel now c d).2 in sender c' ∧ state c' = state c.
Proof.
  induction fuel as [|fuel IH]; intros now c d Hs Hb; cbn [send_loop]; [done|].
  destruct (length d =? 0)%nat; [done|].
  destruct (Z.leb_spec (snd_wnd c) (wrap 32 (snd_nxt c - snd_una c))) as [|Hroom]; [done|].
  set (n := Nat.min _ _). destruct (Nat.eqb_spec n 0) as [|Hn]; [done|].
  set (sg := segment _ _ _ _ _ _ _).
  set (c1 := set_snd (enqueue now c (snd_nxt c) (Z.of_nat n) sg) (snd_una c) (wrap 32 (snd_nxt c + Z.of_nat n)) (snd_wnd c)).
  assert (Hs1 : sender c1).
  { pose proof Hs as (_ & _ & _ & _ & _ & _ & Hw & _). pose proof (in_flight_eq _ _ _ _ _ Hs).
    assert (Z.of_nat n <= snd_wnd c - wrap 32 (snd_nxt c - snd_una c)) by (unfold n, sat_sub; lia).
    unfold sender, c1. cbn [state snd_una snd_nxt snd_wnd retransmit_queue set_snd enqueue set_queue].
    apply (snd_ok_push (state c) (state c) (snd_una c) (snd_nxt c) (snd_wnd c) (retransmit_queue c) (mk_seg (snd_nxt c) (Z.of_nat n) sg now 0));
      [done|done|done|cbn [payload_len]; lia|cbn [payload_len]; rewrite Hb; lia]. }
  specialize (IH now c1 (drop n d) Hs1 Hb). change (set_snd _ _ _ _) with c1. destruct (send_loop fuel now c1 (drop n d)) as [[segs rest] c2].
  exact IH.
Qed.

Lemma send_sender now c d : sender c → before_fin (state c) = true →
  let c' := (build_data_segments now c d).2 in sender c' ∧ state c' = state c.
Proof.
  intros Hs Hb. unfold build_data_segments. pose proof (send_loop_sender (length d) now c d Hs Hb) as H.
  by destruct (send_loop _ _ _ _) as [[segs rest] c'].
Qed.

Lemma build_fin_inv now c : inv c → inv (build_fin now c).2.
Proof.
  intros Hi. unfold build_fin.
  assert (H : ∀ s', state c ≠ Closed → before_fin (state c) = true → before_fin s' = false →
    snd_ok s' (snd_una c) (wrap 32 (snd_nxt c + 1)) (snd_wnd c) (retransmit_queue c ++ [mk_seg (snd_nxt c) 1
      (segment (set_close (set_state c s') (Some (snd_nxt c)) (time_wait_until c)) (snd_nxt c) (rcv_nxt c) (Z.lor FIN ACK) (rcv_wnd c) [] []) now 0])).
  { intros s' Hne Hb Hb'. specialize (Hi Hne). pose proof (in_flight_eq _ _ _ _ _ Hi) as Hfl. rewrite Hb in Hfl.
    eapply (snd_ok_push _ s' _ _ _ _ (mk_seg _ 1 _ now 0)); [exact Hi|done|done|cbn; lia|cbn [payload_len]; rewrite Hb'; lia]. }
  destruct (state c) eqn:Es; try exact Hi; intros _; unfold sender; cbn [state]; apply H; congruence || done.
Qed.

Lemma resend_pass_tiles now r q : ∀ a b, tiles q a b → tiles (resend_pass now r q).2 a b ∧
  (fmap payload_len (resend_pass now r q).2 = fmap payload_len q).
Proof.
  induction q as [|s q IH]; intros a b; cbn [resend_pass tiles]; [done|]. intros (H1 & H2 & H3).
  destruct (IH _ _ H3) as [T1 T2]. destruct (_ <=? duration_since now (sent_at s)).
  - destruct (5 <=? retries s); [by cbn [tiles]|]. destruct (resend_pass now r q) as [[out dead] q']. cbn [snd tiles fmap list_fmap] in *.
    split; [done|]. by rewrite T2.
  - destruct (resend_pass now r q) as [[out dead] q']. cbn [snd tiles fmap list_fmap] in *. split; [done|]. by rewrite T2.
Qed.

Lemma check_retransmit_inv now c : inv c → inv (check_retransmit now c).2.
Proof.
  intros Hi. unfold check_retransmit. destruct (resend_pass now (rto c) (retransmit_queue c)) as [[out dead] q] eqn:E.
  destruct dead; [by intros []|]. intros Hne. cbn [snd state set_queue] in Hne. destruct (Hi Hne) as (u & n & f & H1 & H2 & H3 & H4 & Ht & Hf & Hx).
  destruct (resend_pass_tiles now (rto c) _ _ _ Ht) as [T1 T2]. rewrite E in T1, T2. cbn [snd] in T1, T2.
  exists u, n, f. cbn [snd set_queue snd_una snd_nxt snd_wnd state retransmit_queue]. split_and!; try done; try lia.
  intros x r ->. destruct (retransmit_queue c) as [|y q0]; [done|]. injection T2 as Hl _. rewrite Hl. by eapply Hx.
Qed.

(** ** Runs of a connection *)

(** Every connection the stack makes, and every call on it. Data is written
    only in the two states [sys_write] accepts. *)
Inductive reach : TcpConnection → Prop :=
| reach_connect now isn lip lp rip rp : 0 <= isn < 2 ^ 32 → reach (build_syn now (new isn lip lp rip rp)).2
| reach_accept now isn dst src hdr raw : 0 <= isn < 2 ^ 32 → hdr_ok hdr → reach (passive_open now isn dst src hdr raw).2
| reach_segment now c hdr payload raw : reach c → hdr_ok hdr → reach (handle_segment now c hdr payload raw).1
| reach_write now c d : reach c → state c = Established ∨ state c = CloseWait → reach (build_data_segments now c d).2
| reach_read c n : reach c → reach (read_drain c n).2
| reach_fin now c : reach c → reach (build_fin now c).2
| reach_abort c : reach c → reach (abort c)
| reach_timer now c : reach c → reach (check_retransmit now c).2.

Lemma open_ok s x wnd bytes now : before_fin s = true → 0 <= x < 2 ^ 32 → 0 <= wnd <= 65535 →
  snd_ok s x (wrap 32 (x + 1)) wnd ([] ++ [mk_seg x 1 bytes now 0]).
Proof.
  intros Hb Hx Hw. apply (snd_ok_push s s x x wnd [] (mk_seg x 1 bytes now 0)); try done.
  - by apply snd_ok_idle.
  - cbn [payload_len]. rewrite Hb, Z.sub_diag, wrap_small; lia.
Qed.

Lemma reach_inv c : reach c → inv c.
Proof.
  induction 1 as [now isn lip lp rip rp Hi|now isn dst src hdr raw Hi [Ha Hs Hw]|now c hdr payload raw _ IH Hh|now c d _ IH Hst|c n _ IH|now c _ IH|c _ IH|now c _ IH].
  - intros _. unfold sender. cbn. by apply (open_ok SynSent isn 0 _ now).
  - intros _. unfold sender, passive_open. destruct (parse_mss _ _); cbn; by apply (open_ok SynReceived isn (window hdr) _ now).
  - by apply handle_segment_inv.
  - intros Hne. destruct (decide (state c = Closed)) as [E|E]; [destruct Hst; congruence|].
    apply send_sender; [by apply IH|]. by destruct Hst as [-> | ->].
  - intros Hne. apply (sender_ext c); try done. by apply IH.
  - by apply build_fin_inv.
  - unfold abort. case_bool_decide; [done|by intros []].
  - by apply check_retransmit_inv.
Qed.

Lemma queued_cover c i : sender c → 0 <= i < wrap 32 (snd_nxt c - snd_una c) →
  ∃ s, s ∈ retransmit_queue c ∧ wrap 32 (wrap 32 (snd_una c + i) - seq s) < payload_len s.
Proof.
  intros Hs Hi. pose proof (in_flight_eq _ _ _ _ _ Hs) as Hfl. destruct Hs as (u & n & f & Hu & Hn & Hb & _ & Ht & Hf & _).
  rewrite Hu, Hn, wrap_sub, wrap_small in Hi by (destruct (before_fin (state c)); lia).
  destruct (tiles_cover _ _ _ (u + i) Ht ltac:(lia)) as (s & Hin & Hlt). exists s. split; [done|].
  rewrite Hu, wrap_add. unfold wrap in *. by rewrite Zminus_mod_idemp_l.
Qed.

(** No byte is forgotten: in every state an open connection can reach, at
    most one window of 65535 bytes and a FIN are in flight, and every sequence
    number sent and not yet acknowledged lies inside a segment that is still
    on the retransmission queue, across wrap-around of the sequence space,
    whatever segments arrive, however the peer moves its window, and however
    often the timer fires. *)
Theorem tcp_unacked_queued c : reach c → state c ≠ Closed →
  let in_flight := wrap 32 (snd_nxt c - snd_una c) in
  in_flight <= 65536 ∧
  ∀ i, 0 <= i < in_flight → ∃ s, s ∈ retransmit_queue c ∧ wrap 32 (wrap 32 (snd_una c + i) - seq s) < payload_len s.
Proof.
  intros Hr Hne in_flight. pose proof (reach_inv c Hr Hne) as Hs. split; [|by intros i; apply queued_cover].
  pose proof (in_flight_eq _ _ _ _ _ Hs) as Hfl. unfold in_flight. destruct (before_fin (state c)); lia.
Qed.

(** Ten bytes written over a fresh connection, and the first four acknowledged. *)
Definition demo_open : TcpConnection :=
  (handle_segment 0 (build_syn 0 (new 4294967290 [10; 0; 2; 15] 49152 [10; 0; 2; 2] 80)).2
     (mk_hdr 80 49152 7000 4294967291 5 18 8192 0 0) [] []).1.

Definition demo_sent : TcpConnection :=
  (handle_segment 0 (build_data_segments 0 demo_open [1; 2; 3; 4; 5; 6; 7; 8; 9; 10]).2
     (mk_hdr 80 49152 7001 4294967295 5 16 8192 0 0) [] []).1.

Lemma tcp_unacked_queued_witness :
  wrap 32 (snd_nxt demo_sent - snd_una demo_sent) = 6 ∧
  ∀ i, 0 <= i < 6 → ∃ s, s ∈ retransmit_queue demo_sent ∧ wrap 32 (wrap 32 (snd_una demo_sent + i) - seq s) < payload_len s.
Proof.
  assert (E : wrap 32 (snd_nxt demo_sent - snd_una demo_sent) = 6) by (vm_compute; reflexivity).
  assert (Hne : state demo_sent ≠ Closed) by (vm_compute; discriminate).
  assert (Ho : state demo_open = Established) by (vm_compute; reflexivity).
  assert (Hr : reach demo_sent).
  { unfold demo_sent. apply reach_segment; [|split; cbn; lia]. apply reach_write; [|left; exact Ho].
    unfold demo_open. apply reach_segment; [|split; cbn; lia]. apply reach_connect. lia. }
  pose proof (tcp_unacked_queued demo_sent Hr Hne) as H. cbv zeta in H. rewrite E in H. exact (conj E (proj2 H)).
Defined.

End TcpSender.
