(* ===== verification/TcpFlow.v ===== *)
(** * TCP: window updates, a FIN out of order, and options

    Consequences of the connection's handlers in kernel/src/net/tcp.rs. *)

From S2P Require Import Prelude Packets Tcp.

Module TcpFlow.

Import Packets Tcp.

(** What can happen to a connection its owner neither closes nor aborts. *)
Inductive io_step : TcpConnection → TcpConnection → Prop :=
| io_segment now c hdr payload raw : io_step c (handle_segment now c hdr payload raw).1
| io_write now c d : io_step c (build_data_segments now c d).2
| io_read c n : io_step c (read_drain c n).2
| io_timer now c : io_step c (check_retransmit now c).2.

(** ** Window updates *)

(** Everything sent is acknowledged and the last window heard was zero. *)
Definition window_shut (c : TcpConnection) : Prop :=
  (state c = Established ∨ state c = CloseWait ∨ state c = Closed) ∧ snd_una c = snd_nxt c ∧ snd_wnd c = 0.

Lemma process_ack_idle now c ack win : snd_una c = snd_nxt c → process_ack now c ack win = c.
Proof. intros E. unfold process_ack, seq_leq. rewrite E. by destruct (seq_gt ack (snd_nxt c)). Qed.

Lemma send_shut now c d : window_shut c → build_data_segments now c d = ([], 0%nat, c).
Proof.
  intros (_ & Hu & Hw). unfold build_data_segments. destruct d as [|x d]; [done|]. cbn [length send_loop Nat.eqb].
  rewrite Hu, Hw, Z.sub_diag. change (0 <=? wrap 32 0) with true. cbv beta iota zeta. by rewrite Nat.sub_diag.
Qed.

Lemma handle_segment_shut now c hdr payload raw : window_shut c → window_shut (handle_segment now c hdr payload raw).1.
Proof.
  intros Hs. pose proof Hs as (Hst & Hu & Hw). unfold handle_segment.
  destruct (state c) eqn:Es; try done; try (by exfalso; intuition congruence).
  - unfold handle_data. destruct (has hdr RST); [by split; [right; right|]|].
    rewrite process_ack_idle by done. unfold process_data, process_fin.
    destruct (has hdr ACK), (has hdr FIN), (_ =? 0)%nat, (seq_num hdr =? rcv_nxt c);
      unfold window_shut; cbn; rewrite ?Es; cbn; rewrite ?Es; auto.
  - destruct (has hdr ACK); [by rewrite process_ack_idle|done].
Qed.

Lemma io_step_shut c c' : io_step c c' → window_shut c → window_shut c'.
Proof.
  intros [now c0 hdr payload raw|now c0 d|c0 n|now c0] Hs; [by apply handle_segment_shut|by rewrite send_shut|exact Hs|].
  destruct Hs as (Hst & Hs). unfold check_retransmit. destruct (resend_pass _ _ _) as [[out []] q]; split; auto; right; by right.
Qed.

(** A window that closes stays closed. Once everything sent has been
    acknowledged and the last acknowledgement advertised a window of zero, no
    segment the peer can send, whatever window it announces, reopens it: a
    write sends no byte ever after, because [process_ack] takes a new window
    only together with a new acknowledgement number. *)
Theorem zero_window_is_forever c c' now d :
  state c = Established ∨ state c = CloseWait → snd_una c = snd_nxt c → snd_wnd c = 0 → rtc io_step c c' →
  build_data_segments now c' d = ([], 0%nat, c').
Proof.
  intros Hst Hu Hw Hr. apply send_shut. assert (Hs : window_shut c) by (split; intuition).
  clear Hst Hu Hw. induction Hr as [|x y z Hxy _ IH]; [done|]. apply IH. by eapply io_step_shut.
Qed.

(** ** A FIN out of order *)

(** Segments arriving. *)
Inductive rx_step : TcpConnection → TcpConnection → Prop :=
| rx_segment now c hdr payload raw : rx_step c (handle_segment now c hdr payload raw).1.

Lemma process_ack_rx now c ack win : rx_buffer (process_ack now c ack win) = rx_buffer c ∧ rcv_nxt (process_ack now c ack win) = rcv_nxt c
  ∧ state (process_ack now c ack win) = state c.
Proof.
  unfold process_ack. destruct (_ && _); [|done]. destruct (rtt_sample _ _ _); [|done].
  unfold update_rto. by destruct (srtt _).
Qed.

(** Once in [CloseWait] no segment adds to what a reader gets. *)
Lemma close_wait_deaf c c' : rtc rx_step c c' → state c = CloseWait → rx_buffer c' = rx_buffer c ∧ state c' = CloseWait.
Proof.
  induction 1 as [|x y z [now c hdr payload raw] _ IH]; [done|]. intros Es. unfold handle_segment in IH. rewrite Es in IH.
  destruct (has hdr ACK); cbn [fst] in IH; [|by apply IH].
  destruct (process_ack_rx now c (ack_num hdr) (window hdr)) as (Hb & _ & Hs). destruct IH as [Hz IH]; [by rewrite Hs|]. by rewrite Hz, Hb.
Qed.

(** A FIN without data is taken at any sequence number. A segment with the
    FIN bit and no payload ends an established connection's input even when
    data before it is missing: the connection moves to [CloseWait], the reader
    gets end of file, and the missing data, retransmitted, is never delivered. *)
Theorem bare_fin_any_seq c hdr raw now :
  state c = Established → has hdr RST = false → has hdr FIN = true →
  let c1 := (handle_segment now c hdr [] raw).1 in
  state c1 = CloseWait ∧ rcv_nxt c1 = wrap 32 (rcv_nxt c + 1) ∧ RxAll ∈ wakes c1 ∧
  ∀ c2, rtc rx_step c1 c2 → rx_buffer c2 = rx_buffer c ∧ state c2 = CloseWait.
Proof.
  intros Es Hr Hf. cbv zeta. unfold handle_segment. rewrite Es. unfold handle_data. rewrite Hr.
  set (c0 := if has hdr ACK then _ else c).
  assert (H0 : rx_buffer c0 = rx_buffer c ∧ rcv_nxt c0 = rcv_nxt c ∧ state c0 = Established).
  { subst c0. destruct (has hdr ACK); [|done]. rewrite <- Es. apply process_ack_rx. }
  destruct H0 as (Hb & Hn & Hs). unfold process_data, process_fin. cbn [length Nat.eqb]. rewrite Hf. cbn [andb state set_rcv].
  rewrite Hs. set (c1 := wake _ [StateAll]). assert (Hc1 : state c1 = CloseWait) by done. rewrite Hc1.
  rewrite (bool_decide_eq_false_2 (CloseWait = FinWait1)) by done. cbn [andb fst].
  split; [done|]. split; [unfold c1; cbn -[wrap]; congruence|]. split; [cbn; apply elem_of_app; left; apply elem_of_app; right; by left|].
  intros c2 Hr2. destruct (close_wait_deaf _ _ Hr2 Hc1) as [-> ->]. by rewrite <- Hb.
Qed.

Lemma zero_window_is_forever_witness :
  let c := set_snd (set_state (new 100 [] 1 [] 2) Established) 105 105 0 in
  let opened := (handle_segment 0 c (mk_hdr 2 1 0 105 5 16 65535 0 0) [] []).1 in
  (build_data_segments 0 opened [7]).1 = ([], 0%nat).
Proof.
  intros c opened. rewrite (zero_window_is_forever c opened 0 [7]); [done|by left|done|done|].
  apply rtc_once, io_segment.
Defined.

(** Bytes 0 to 2 are lost on the way; the FIN that follows them arrives first. *)
Lemma bare_fin_any_seq_witness :
  let c := set_rcv (set_state (new 100 [] 1 [] 2) Established) 500 1000 499 [] in
  let c1 := (handle_segment 0 c (mk_hdr 2 1 503 100 5 17 1000 0 0) [] []).1 in
  let c2 := (handle_segment 0 c1 (mk_hdr 2 1 500 100 5 16 1000 0 0) [1; 2; 3] []).1 in
  state c1 = CloseWait ∧ rx_buffer c2 = [].
Proof.
  intros c c1 c2. destruct (bare_fin_any_seq c (mk_hdr 2 1 503 100 5 17 1000 0 0) [] 0) as (H1 & _ & _ & H2); [done..|].
  split; [exact H1|]. apply (H2 c2). apply rtc_once, rx_segment.
Defined.

(** ** Options *)

(** An MSS option after one NOP is not found, after two it is. *)
Example mss_after_nop :
  parse_mss (replicate 20 0 ++ [1; 2; 4; 5; 180; 0; 0; 0]) 7 = None ∧
  parse_mss (replicate 20 0 ++ [1; 1; 2; 4; 5; 180; 0; 0]) 7 = Some 1460.
Proof. by vm_compute. Qed.

End TcpFlow.
