(* ===== verification/TcpWire.v ===== *)
(** * TCP: segments on the wire

    What [parse] gets back from a segment [build] made (kernel/src/net/tcp.rs),
    and the range of the fields it gets from any bytes at all. *)

From S2P Require Import Prelude Packets Tcp TcpSender.

Module TcpWire.

Import Packets Tcp TcpSender.

(** A field decodes to what was encoded, at the field's width. *)
Lemma be_at_mod n x l : be_at 0 n (be_bytes n x ++ l) = wrap (8 * Z.of_nat n) x.
Proof.
  unfold be_at. rewrite sub_prefix by (by rewrite length_be_bytes).
  unfold be_num, be_bytes. rewrite reverse_involutive. apply le_num_le_bytes_mod.
Qed.

Ltac decode_mod :=
  repeat first
    [ rewrite at_head
    | rewrite be_at_mod
    | rewrite at_skip by lens
    | rewrite be_at_skip by lens
    | progress (rewrite ?length_be_bytes; cbn [length Nat.sub]) ].

Section Build.

Context (sp dp sq ack fl win : Z) (src dst opts payload : list Z) (k : nat).
Context (Ls : length src = 4%nat) (Ld : length dst = 4%nat) (Hs : Forall byte_ok src) (Hd : Forall byte_ok dst).
Context (Hfl : byte_ok fl) (Lo : length opts = (4 * k)%nat) (Hk : (k <= 10)%nat) (Ho : Forall byte_ok opts).
Context (Hp : Forall byte_ok payload) (Hl : Z.of_nat (length payload) <= 65535).

(** The fields before the checksum. *)
Let P := be_bytes 2 sp ++ be_bytes 2 dp ++ be_bytes 4 sq ++ be_bytes 4 ack ++ [16 * (5 + Z.of_nat k)] ++ [fl] ++ be_bytes 2 win.
Let Q := be_bytes 2 0 ++ opts ++ payload.

Lemma build_layout : ∃ ck, 0 <= ck <= 65535 ∧
  build sp dp sq ack fl win src dst opts payload = P ++ be_bytes 2 ck ++ Q ∧
  tcp_checksum (P ++ be_bytes 2 ck ++ Q) src dst = 0.
Proof.
  assert (LP : length P = 16%nat) by (unfold P; lens).
  assert (HP : Forall byte_ok P).
  { unfold P. repeat (apply Forall_app; split); try apply be_bytes_ok; apply Forall_singleton; [unfold byte_ok; lia|done]. }
  set (len := wrap 16 (Z.of_nat (length (P ++ be_bytes 2 0 ++ Q)))).
  set (pre := src ++ dst ++ [0] ++ [6] ++ be_bytes 2 len).
  assert (Lpre : length pre = 12%nat) by (unfold pre; lens).
  assert (Hps : ∀ c, pseudo_header 6 (P ++ be_bytes 2 c ++ Q) src dst = (pre ++ P) ++ be_bytes 2 c ++ Q).
  { intros c. unfold pseudo_header, pre, len. rewrite <- !app_assoc, !length_app, !length_be_bytes. reflexivity. }
  assert (Hr : checksum_range ((pre ++ P) ++ be_bytes 2 0 ++ Q)).
  { split; [|unfold Q; lens]. unfold pre, Q. rewrite !Forall_app. split_and!; try apply be_bytes_ok; try done; by apply Forall_singleton. }
  set (ck := internet_checksum ((pre ++ P) ++ be_bytes 2 0 ++ Q)). exists ck. pose proof (checksum_16 _ Hr) as Hck. split; [exact Hck|].
  split.
  - unfold build. rewrite Lo. replace ((20 + 4 * k + 3) `div` 4)%nat with (5 + k)%nat.
    2: { apply (Nat.div_unique _ 4 (5 + k) 3); lia. }
    assert (Hw : wrap 8 (Z.of_nat (5 + k)) = 5 + Z.of_nat k) by (unfold wrap; rewrite Z.mod_small; lia).
    assert (Hw2 : wrap 8 (Z.shiftl (5 + Z.of_nat k) 4) = 16 * (5 + Z.of_nat k)).
    { rewrite Z.shiftl_mul_pow2 by lia. unfold wrap. rewrite Z.mod_small; lia. }
    rewrite Hw, Hw2.
    set (head := be_bytes 2 sp ++ _).
    replace (Z.to_nat (5 + Z.of_nat k) * 4 - length head)%nat with 0%nat by (unfold head; rewrite ?length_app, ?length_be_bytes, Lo; cbn [length]; lia).
    replace (head ++ replicate 0 0 ++ payload) with (P ++ be_bytes 2 0 ++ Q) by (unfold head, P, Q; cbn [replicate app]; by rewrite <- !app_assoc).
    unfold tcp_checksum. rewrite Hps. fold ck. rewrite <- LP, set_checksum_eq by exact Hck. done.
  - unfold tcp_checksum. rewrite Hps. apply checksum_fill; [done|by rewrite length_app, Lpre, LP|by left].
Qed.

(** The segment is made of bytes. *)
Lemma build_bytes : Forall byte_ok (build sp dp sq ack fl win src dst opts payload).
Proof.
  destruct build_layout as (ck & Hck & -> & _). unfold P, Q.
  repeat (apply Forall_app; split); try apply be_bytes_ok; try done; apply Forall_singleton; [unfold byte_ok; lia|done].
Qed.

(** [parse] inverts [build], each field at its width. *)
Lemma parse_build : ∃ ck, parse (build sp dp sq ack fl win src dst opts payload) src dst =
  Some (mk_hdr (wrap 16 sp) (wrap 16 dp) (wrap 32 sq) (wrap 32 ack) (5 + Z.of_nat k) fl (wrap 16 win) ck 0, payload).
Proof.
  destruct build_layout as (ck & Hck & -> & H0). exists (wrap 16 ck). unfold parse.
  rewrite (proj2 (Nat.ltb_ge _ _)) by (unfold P, Q; lens). rewrite H0. cbn [Z.eqb negb].
  assert (Hoff : Z.shiftr (at_ (P ++ be_bytes 2 ck ++ Q) 12) 4 = 5 + Z.of_nat k).
  { unfold P. rewrite <- !app_assoc. decode_mod. rewrite Z.shiftr_div_pow2 by lia. change (2 ^ 4) with 16. rewrite Z.mul_comm. apply Z.div_mul. lia. }
  cbn [data_offset]. rewrite Hoff. rewrite (proj2 (Nat.ltb_ge _ 20)), (proj2 (Nat.ltb_ge _ (_ * 4))) by (unfold P, Q; lens). cbn [orb].
  do 2 f_equal.
  - unfold P, Q. rewrite <- !app_assoc. f_equal; decode_mod; done.
  - unfold P, Q. replace (_ ++ _) with ((P ++ be_bytes 2 ck ++ be_bytes 2 0 ++ opts) ++ payload) by (unfold P; by rewrite <- !app_assoc).
    apply drop_app_length'. unfold P. lens.
Qed.

End Build.

(** The fields of any parsed segment fit their types. *)
Lemma be_at_bound off n l : Forall byte_ok l → 0 <= be_at off n l < 2 ^ (8 * Z.of_nat n).
Proof.
  intros H. unfold be_at, be_num. assert (Hb : Forall byte_ok (reverse (sub off n l))) by (by apply Forall_reverse, Forall_sub).
  pose proof (le_num_bound _ Hb) as B. rewrite length_reverse in B. split; [lia|]. eapply Z.lt_le_trans; [apply B|].
  apply Z.pow_le_mono_r; [lia|]. unfold sub. rewrite length_take. lia.
Qed.

Lemma parse_hdr_ok data src dst hdr payload : Forall byte_ok data → parse data src dst = Some (hdr, payload) → hdr_ok hdr.
Proof.
  intros Hb. unfold parse. destruct (_ <? 20)%nat; [done|]. destruct (negb _); [done|].
  destruct (_ || _); [done|]. intros [= <- _]. pose proof (be_at_bound 14 2 data Hb). 
  split; cbn [ack_num seq_num window]; try by apply be_at_bound. cbn in *. lia.
Qed.

End TcpWire.
