(* ===== verification/TcpStream.v ===== *)
(** * TCP: two hosts and the network between them

    Two connections of kernel/src/net/tcp.rs, opened by the handshake, joined
    by a network that may lose, duplicate, delay and reorder segments but
    delivers only segments that were sent. A segment arrives as bytes and goes
    through [parse] as in [handle_tcp] (kernel/src/net/stack.rs). The calls on
    each host are those of the syscalls; the state check of a write and the
    write itself, two acquisitions of the connection's lock in [sys_write], are
    one step here. *)

From S2P Require Import Prelude Packets Tcp TcpSender TcpWire.

Module TcpStream.

Import Packets Tcp TcpSender TcpWire.

(** ** The system *)

(** One host: its connection, every segment it ever sent, the bytes its writes
    accepted and the bytes its reads returned. *)
Record side := mk_side { conn : TcpConnection; wire : list (list Z); sent : list Z; got : list Z }.

Inductive op := Deliver (pkt : list Z) | Write (d : list Z) | Read (n : nat) | Close | Abort | Timer.

(** The part of [handle_tcp] for a known connection. *)
Definition handle_tcp (now : Z) (c : TcpConnection) (pkt : list Z) : TcpConnection * list (list Z) :=
  match parse pkt (remote_ip c) (local_ip c) with
  | None => (c, [])
  | Some (hdr, payload) => handle_segment now c hdr payload pkt
  end.

Definition sends (s : TcpState) : bool := match s with Established | CloseWait => true | _ => false end.

Definition apply_op (now : Z) (s : side) (o : op) : side :=
  match o with
  | Deliver pkt => let '(c, out) := handle_tcp now (conn s) pkt in mk_side c (wire s ++ out) (sent s) (got s)
  | Write d =>
      if sends (state (conn s)) then
        let '(segs, n, c) := build_data_segments now (conn s) d in mk_side c (wire s ++ segs) (sent s ++ take n d) (got s)
      else s
  | Read n => let '(d, c) := read_drain (conn s) n in mk_side c (wire s) (sent s) (got s ++ d)
  | Close => let '(fin, c) := build_fin now (conn s) in mk_side c (wire s ++ option_list fin) (sent s) (got s)
  | Abort => mk_side (abort (conn s)) (wire s) (sent s) (got s)
  | Timer => let '(out, c) := check_retransmit now (conn s) in mk_side c (wire s ++ out) (sent s) (got s)
  end.

Definition ip_ok (a : list Z) : Prop := length a = 4%nat ∧ Forall byte_ok a.

(** Only a segment the peer sent can arrive; writes are of bytes. *)
Definition allowed (o : op) (peer : side) : Prop :=
  match o with Deliver pkt => pkt ∈ wire peer | Write d => Forall byte_ok d | _ => True end.

(** The runs: an active open whose SYN reached a listener, then calls and
    arrivals on either host in any order and at any time. *)
Inductive run : side → side → Prop :=
| run_open t1 t2 isn1 isn2 ip1 p1 ip2 p2 hdr payload syn c1 syn_ack c2 :
    ip_ok ip1 → ip_ok ip2 → 0 <= isn1 < 2 ^ 32 → 0 <= isn2 < 2 ^ 32 →
    build_syn t1 (new isn1 ip1 p1 ip2 p2) = (syn, c1) → parse syn ip1 ip2 = Some (hdr, payload) →
    passive_open t2 isn2 ip2 ip1 hdr syn = (syn_ack, c2) →
    run (mk_side c1 [syn] [] []) (mk_side c2 [syn_ack] [] [])
| run_left now A B o : run A B → allowed o B → run (apply_op now A o) B
| run_right now A B o : run A B → allowed o A → run A (apply_op now B o).

(** The bytes that reached a host. *)
Definition recv (s : side) : list Z := got s ++ rx_buffer (conn s).

(** ** Segments *)

(** [p], sent by [c], parses at the other end to these fields. *)
Definition carries (c : TcpConnection) (p : list Z) (sq ak fl : Z) (pl : list Z) : Prop :=
  Forall byte_ok p ∧ ∃ hdr, parse p (local_ip c) (remote_ip c) = Some (hdr, pl) ∧
    seq_num hdr = wrap 32 sq ∧ ack_num hdr = wrap 32 ak ∧ flags hdr = fl.

Lemma segment_carries c sq ak fl win opts pl : ip_ok (local_ip c) → ip_ok (remote_ip c) → byte_ok fl →
  opts = [] ∨ opts = mss_option DEFAULT_MSS → Forall byte_ok pl → Z.of_nat (length pl) <= 65535 →
  carries c (segment c sq ak fl win opts pl) sq ak fl pl.
Proof.
  intros [L1 H1] [L2 H2] Hf Ho Hp Hl.
  assert (∃ k, length opts = (4 * k)%nat ∧ (k <= 10)%nat ∧ Forall byte_ok opts) as (k & Lo & Hk & Hob).
  { destruct Ho as [-> | ->]; [by exists 0%nat; split_and!; [|lia|]|exists 1%nat; split; [done|]; split; [lia|]].
    unfold mss_option, byte_ok. repeat (apply Forall_cons; split; [vm_compute; intuition congruence|]). apply Forall_nil, I. }
  unfold segment. split; [exact (build_bytes _ _ _ _ _ _ _ _ _ _ k L1 L2 H1 H2 Hf Lo Hk Hob Hp Hl)|].
  destruct (parse_build (local_port c) (remote_port c) sq ak fl win (local_ip c) (remote_ip c) opts pl k L1 L2 H1 H2 Hf Lo Hk Hob Hp Hl) as [ck E].
  eexists. split; [exact E|]. cbn [seq_num ack_num flags]. auto.
Qed.

(** ** What a call does to a connection *)

Definition bit (fl f : Z) : bool := negb (Z.land fl f =? 0).

(** The fields no call changes. *)
Record same_id (c c' : TcpConnection) : Prop := {
  id_iss : iss c' = iss c; id_lip : local_ip c' = local_ip c; id_rip : remote_ip c' = remote_ip c;
  id_lp : local_port c' = local_port c; id_rp : remote_port c' = remote_port c
}.

Lemma segment_id c c' sq ak fl w o pl : same_id c c' → segment c' sq ak fl w o pl = segment c sq ak fl w o pl.
Proof. intros [_ H1 H2 H3 H4]. unfold segment. congruence. Qed.

Lemma carries_id c c' p sq ak fl pl : same_id c c' → carries c p sq ak fl pl → carries c' p sq ak fl pl.
Proof. intros [_ H1 H2 _ _]. unfold carries. by rewrite H1, H2. Qed.

(** A queued segment is filed under the sequence number it carries and the
    sequence space it takes: its payload, and one for a SYN or a FIN. *)
Definition filed (c : TcpConnection) (s : RetransmitSegment) : Prop :=
  ∃ ak fl pl, carries c (data s) (seq s) ak fl pl ∧ payload_len s = Z.of_nat (length pl) + (if bit fl SYN || bit fl FIN then 1 else 0).

Lemma filed_id c c' s : same_id c c' → filed c s → filed c' s.
Proof. intros Hid (ak & fl & pl & Hc & Hl). exists ak, fl, pl. split; [by eapply carries_id|done]. Qed.

(** States in which data is taken, and states of an open handshake or later. *)
Definition rx_open (s : TcpState) : bool :=
  match s with SynReceived | Established | FinWait1 | FinWait2 => true | _ => false end.
Definition live (s : TcpState) : bool := match s with Closed | Listen | SynSent => false | _ => true end.

Record ack_facts (c : TcpConnection) (ack : Z) (c' : TcpConnection) : Prop := {
  a_id : same_id c c'; a_state : state c' = state c; a_nxt : snd_nxt c' = snd_nxt c;
  a_queue : ∀ s, s ∈ retransmit_queue c' → s ∈ retransmit_queue c;
  a_una : snd_una c' = snd_una c ∨ snd_una c' = ack;
  a_rcv : rcv_nxt c' = rcv_nxt c; a_rx : rx_buffer c' = rx_buffer c
}.

Lemma process_ack_facts now c ack win : ack_facts c ack (process_ack now c ack win).
Proof.
  unfold process_ack. destruct (_ && _); [|by split; auto].
  destruct (rtt_sample _ _ _) as [r|]; [unfold update_rto; destruct (srtt _)|]; split; try done; try (by right);
    cbn; intros s Hs; apply list_elem_of_In, filter_In in Hs as [Hs _]; by apply list_elem_of_In.
Qed.

(** The sending side after a segment has been handled. *)
Record hs_facts (c : TcpConnection) (hdr : TcpHeader) (c' : TcpConnection) (out : list (list Z)) : Prop := {
  f_id : same_id c c'; f_nxt : snd_nxt c' = snd_nxt c;
  f_queue : ∀ s, s ∈ retransmit_queue c' → s ∈ retransmit_queue c;
  f_fin : before_fin (state c') = true → before_fin (state c) = true;
  f_syn : state c' = SynSent ∨ state c' = SynReceived → state c' = state c;
  f_una : sends (state c') = true →
    (sends (state c) = true ∧ snd_una c' = snd_una c) ∨
    (has hdr ACK = true ∧ snd_una c' = ack_num hdr ∧ (sends (state c) = true ∨ ack_num hdr = snd_nxt c));
  f_out : ∀ p, p ∈ out → ∃ sq ak w, p = segment c sq ak ACK w [] []
}.

(** The receiving side, outside the active open. *)
Record hs_rx (c : TcpConnection) (hdr : TcpHeader) (payload : list Z) (c' : TcpConnection) (out : list (list Z)) : Prop := {
  r_syn : state c' ≠ SynSent;
  r_live : live (state c') = true → live (state c) = true;
  r_open : rx_open (state c') = true → rx_open (state c) = true;
  r_data : (rx_buffer c' = rx_buffer c ∧ (has hdr FIN = false ∨ rx_open (state c') = true ∨ rx_open (state c) = false → rcv_nxt c' = rcv_nxt c)) ∨
    (rx_open (state c) = true ∧ payload ≠ [] ∧ seq_num hdr = rcv_nxt c ∧ rx_buffer c' = rx_buffer c ++ payload ∧
     (has hdr FIN = false ∨ rx_open (state c') = true → rcv_nxt c' = wrap 32 (rcv_nxt c + Z.of_nat (length payload))));
  r_out : has hdr FIN = false → ∀ p, p ∈ out → ∃ sq w, p = segment c sq (rcv_nxt c') ACK w [] [];
  r_quiet : rx_open (state c) = false → out = []
}.

Lemma same_id_refl c : same_id c c.
Proof. done. Qed.

Lemma same_id_trans c1 c2 c3 : same_id c1 c2 → same_id c2 c3 → same_id c1 c3.
Proof. intros [] []. split; congruence. Qed.

(** Data and FIN of a segment, from the connection whose acknowledgement has
    been processed. *)
Record body_facts (c : TcpConnection) (hdr : TcpHeader) (payload : list Z) (c' : TcpConnection) (out : list (list Z)) : Prop := {
  b_id : same_id c c'; b_nxt : snd_nxt c' = snd_nxt c; b_una : snd_una c' = snd_una c; b_queue : retransmit_queue c' = retransmit_queue c;
  b_sends : sends (state c') = true → sends (state c) = true;
  b_rx : hs_rx c hdr payload c' out; b_live : live (state c') = true; b_syn : state c' ≠ SynReceived;
  b_out : ∀ p, p ∈ out → ∃ sq ak w, p = segment c sq ak ACK w [] []
}.

Lemma ack_seg c c' : same_id c c' → build_ack c' = segment c (snd_nxt c') (rcv_nxt c') ACK (rcv_wnd c') [] [].
Proof. intros. unfold build_ack. by rewrite (segment_id c). Qed.

Lemma ack_ex c c' : same_id c c' → ∃ sq ak w, build_ack c' = segment c sq ak ACK w [] [].
Proof. intros. do 3 eexists. by apply ack_seg. Qed.

Lemma ack_ex_rcv c c' r : same_id c c' → rcv_nxt c' = r → ∃ sq w, build_ack c' = segment c sq r ACK w [] [].
Proof. intros ? <-. do 2 eexists. by apply ack_seg. Qed.

(** Each member of the list is an acknowledgement of the connection. *)
Ltac in_out H :=
  cbn [app] in H; repeat (apply elem_of_cons in H as [->|H]; [first [apply ack_ex | apply ack_ex_rcv]; done|]); by apply elem_of_nil in H.

Lemma wrap_add_r a b : wrap 32 (a + wrap 32 b) = wrap 32 (a + b).
Proof. by rewrite Z.add_comm, wrap_add, Z.add_comm. Qed.

Lemma body_facts_ok now c hdr payload c' r1 r2 b c0 : state c = Established ∨ state c = FinWait1 ∨ state c = FinWait2 →
  process_data c hdr payload = (b, c0, r1) → (if has hdr FIN && b then process_fin now c0 hdr else (c0, [])) = (c', r2) →
  body_facts c hdr payload c' (r1 ++ r2).
Proof.
  intros Hst. destruct c as [st lp rp lip rip una nxt wnd isn rn rw ir ms rx q sr rv ro fs tw wk]. cbn [state] in Hst.
  unfold process_data, process_fin. cbn [rcv_nxt].
  destruct (Nat.eqb_spec (length payload) 0) as [E0|Hne]; [|destruct (Z.eqb_spec (seq_num hdr) rn) as [Es|Hs]];
    intros [= <- <- <-]; destruct (has hdr FIN) eqn:Ef; cbn [andb]; intros [= <- <-];
    destruct Hst as [->|[->| ->]]; unfold enter_time_wait; cbn [state set_rcv wake update_rcv_wnd].
  all: try case_match; (split; [done|done|done|done|done| |done|done|intros p Hp; in_out Hp]).
  all: split; [done|done|done| | |done]; cbn [rx_open state wake set_state set_close set_rcv update_rcv_wnd rx_buffer rcv_nxt].
  all: try (intros Hd p Hp; congruence || in_out Hp).
  all: first [left; split; [done|]; intros [|[|]]; congruence|right].
  all: split_and!; [done|by intros ->|done|done|]; first [intros []; congruence|intros _; apply wrap_add_r].
Qed.

(** The acknowledgement, when the segment has one. *)
Lemma maybe_ack now c hdr : let c1 := if has hdr ACK then process_ack now c (ack_num hdr) (window hdr) else c in
  ack_facts c (ack_num hdr) c1 ∧ (snd_una c1 = snd_una c ∨ has hdr ACK = true ∧ snd_una c1 = ack_num hdr).
Proof.
  intros c1. subst c1. destruct (has hdr ACK); [|by split; [split; auto|left]].
  pose proof (process_ack_facts now c (ack_num hdr) (window hdr)) as H. split; [done|]. destruct (a_una _ _ _ H); auto.
Qed.

Lemma hs_rx_pull c c1 ack hdr payload c' out : ack_facts c ack c1 → hs_rx c1 hdr payload c' out → hs_rx c hdr payload c' out.
Proof.
  intros [Hid Hs _ _ _ Hr Hx] [R1 R2 R3 R4 R5 R6]. rewrite Hs in *. rewrite Hr, Hx in R4. split; try done.
  intros Hf p Hp. destruct (R5 Hf p Hp) as (sq & w & ->). exists sq, w. by apply segment_id.
Qed.

Lemma closed_facts c hdr payload ws : hs_facts c hdr (wake (set_state c Closed) ws) [] ∧
  hs_rx c hdr payload (wake (set_state c Closed) ws) [].
Proof.
  split; split; try done; try (by intros [|]); try (by intros ? ?%elem_of_nil); try (by intros ? ? ?%elem_of_nil). by left.
Qed.

Lemma handle_data_facts now c hdr payload c' out : state c = Established ∨ state c = FinWait1 ∨ state c = FinWait2 →
  handle_data now c hdr payload = (c', out) → hs_facts c hdr c' out ∧ hs_rx c hdr payload c' out.
Proof.
  intros Hst. unfold handle_data. destruct (has hdr RST); [intros [= <- <-]; apply closed_facts|].
  destruct (maybe_ack now c hdr) as [Ha Hu]. set (c1 := if has hdr ACK then _ else c) in *.
  destruct (process_data c1 hdr payload) as [[b c0] r1] eqn:E1.
  destruct (if has hdr FIN && b then _ else _) as [c2 r2] eqn:E2.
  assert (Hst1 : state c1 = Established ∨ state c1 = FinWait1 ∨ state c1 = FinWait2) by (by rewrite (a_state _ _ _ Ha)).
  pose proof (body_facts_ok now c1 hdr payload c2 r1 r2 b c0 Hst1 E1 E2) as [B1 B2 B3 B4 B5 B6 B7 B8 B9].
  apply (hs_rx_pull _ _ _ _ _ _ _ Ha) in B6. destruct Ha as [A1 A2 A3 A4 A5 A6 A7]. rewrite A2 in *.
  assert (Hout : ∀ p, p ∈ r1 ++ r2 → ∃ sq ak w, p = segment c sq ak ACK w [] []).
  { intros p Hp. destruct (B9 p Hp) as (sq & ak & w & ->). do 3 eexists. by apply segment_id. }
  assert (Hid : same_id c c2) by (by eapply same_id_trans).
  destruct (bool_decide (state c2 = FinWait1) && has hdr ACK && fin_acked c2 (ack_num hdr)) eqn:Ef; intros [= <- <-].
  - apply andb_prop in Ef as [[Ef _]%andb_prop _]. apply bool_decide_eq_true in Ef. split.
    + split; [by destruct Hid|cbn; congruence|cbn; rewrite B4; auto|done|by intros []|done|done].
    + destruct B6 as [R1 R2 R3 R4 R5 R6]. rewrite Ef in *. split; try done; cbn; auto.
  - split; [|done]. split; [done|congruence|rewrite B4; auto| | | |done].
    + destruct (state c2) eqn:E; try done; try (by destruct B6); intros _; (destruct (sends (state c)) eqn:Es; [|by discriminate B5]); by destruct (state c).
    + intros [E|E]; [by destruct B6|done].
    + intros Hs. specialize (B5 Hs). rewrite B3. destruct Hu as [-> | [H1 H2]]; [by left|]. right. auto.
Qed.

(** A step that changes at most the acknowledgement state. *)
Lemma ack_only c hdr payload c' : state c ≠ SynSent → ack_facts c (ack_num hdr) c' →
  (snd_una c' = snd_una c ∨ has hdr ACK = true ∧ snd_una c' = ack_num hdr) → hs_facts c hdr c' [] ∧ hs_rx c hdr payload c' [].
Proof.
  intros Hns [A1 A2 A3 A4 A5 A6 A7] Hu. split; split; rewrite ?A2; try done; try (by intros ? ?%elem_of_nil); try (by intros ? ? ?%elem_of_nil).
  - intros Hs. destruct Hu as [-> | [H1 H2]]; [by left|right; auto].
  - by left.
Qed.

(** A step that only moves on to a state past the FIN. *)
Lemma late_only c hdr payload st t ws : before_fin st = false → rx_open st = false → (live st = true → live (state c) = true) → st ≠ SynSent →
  let c' := wake (set_close (set_state c st) (fin_seq c) t) ws in hs_facts c hdr c' [] ∧ hs_rx c hdr payload c' [].
Proof.
  intros H1 H2 H3 H4 c'. split; split; cbn; try done; try congruence; try (by intros ? ?%elem_of_nil); try (by intros ? ? ?%elem_of_nil).
  - intros [-> | ->]; done.
  - by destruct st.
  - by left.
Qed.

Lemma handle_segment_facts now c hdr payload raw c' out : state c ≠ SynSent →
  handle_segment now c hdr payload raw = (c', out) → hs_facts c hdr c' out ∧ hs_rx c hdr payload c' out.
Proof.
  intros Hns. assert (Hsame : hs_facts c hdr c [] ∧ hs_rx c hdr payload c []) by (apply ack_only; [done|by split; auto|by left]).
  unfold handle_segment. destruct (state c) eqn:Est; try (by intros [= <- <-]); try (by apply handle_data_facts; rewrite Est; auto); try done.
  - unfold handle_syn_received. destruct (has hdr RST); [intros [= <- <-]; apply closed_facts|].
    destruct (has hdr ACK) eqn:Ea; cbn [andb]; [|by intros [= <- <-]].
    destruct (Z.eqb_spec (ack_num hdr) (snd_nxt c)) as [E|]; [|by intros [= <- <-]]. intros [= <- <-]. split; split; cbn; rewrite ?Est; try done.
    + by intros s ?%elem_of_nil.
    + intros []; done.
    + intros _. right. auto.
    + by intros ? ?%elem_of_nil.
    + by left.
    + by intros ? ? ?%elem_of_nil.
  - destruct (maybe_ack now c hdr) as [Ha Hu]. intros E. replace out with (@nil (list Z)) by (by destruct (has hdr ACK); injection E).
    replace c' with (if has hdr ACK then process_ack now c (ack_num hdr) (window hdr) else c) by (by destruct (has hdr ACK); injection E).
    apply ack_only; [by rewrite Est|done|done].
  - destruct (_ && _); intros [= <- <-]; [|done]. apply late_only; by rewrite ?Est.
  - destruct (_ && _); intros [= <- <-]; [|done]. apply closed_facts.
Qed.

(** The active open's answer to a segment. *)
Lemma syn_sent_facts c hdr raw c' out : state c = SynSent → handle_syn_sent c hdr raw = (c', out) →
  hs_facts c hdr c' out ∧ rx_buffer c' = rx_buffer c ∧
  ((state c' = SynSent ∧ rcv_nxt c' = rcv_nxt c ∧ out = []) ∨ (state c' = Closed ∧ out = []) ∨
   (has hdr SYN = true ∧ state c' = Established ∧ rcv_nxt c' = wrap 32 (seq_num hdr + 1) ∧
    ∀ p, p ∈ out → ∃ sq w, p = segment c sq (rcv_nxt c') ACK w [] [])).
Proof.
  intros Est. unfold handle_syn_sent. destruct (has hdr RST).
  { intros [= <- <-]. split; [apply (closed_facts c hdr [])|auto]. }
  assert (Hsame : hs_facts c hdr c []) by (split; try done; [rewrite Est; done|by intros ? ?%elem_of_nil]).
  destruct (has hdr SYN) eqn:Es; cbn [andb]; [|intros [= <- <-]; auto 6].
  destruct (has hdr ACK) eqn:Ea; cbn [andb]; [|intros [= <- <-]; auto 6].
  destruct (Z.eqb_spec (ack_num hdr) (snd_nxt c)) as [E|]; cbn [negb]; [|intros [= <- <-]; auto 6].
  intros [= <- <-]. split; [|split; [by case_match|right; right]]; [split|]; case_match; cbn; rewrite ?Est; try done.
  all: try (by intros s ?%elem_of_nil); try (by intros [|]); try (by intros _; right; auto).
  all: try (split_and!; [done|done|done|]); intros p Hp; in_out Hp.
Qed.

(** The send loop takes a prefix of the data and cuts it into segments whose
    sequence numbers are their offsets. *)
Record send_facts (c : TcpConnection) (n : Z) (d : list Z) (segs : list (list Z)) (rest : list Z) (c' : TcpConnection) : Prop := {
  s_id : same_id c c'; s_state : state c' = state c; s_una : snd_una c' = snd_una c;
  s_rcv : rcv_nxt c' = rcv_nxt c; s_rx : rx_buffer c' = rx_buffer c;
  s_split : ∃ taken, d = taken ++ rest ∧ snd_nxt c' = wrap 32 (n + Z.of_nat (length taken)) ∧
    ∀ p, p ∈ segs → ∃ k len, (k + len <= length taken)%nat ∧ Z.of_nat len <= 65535 ∧
      p = segment c (wrap 32 (n + Z.of_nat k)) (rcv_nxt c) (Z.lor ACK PSH) (rcv_wnd c) [] (sub k len d);
  s_queue : ∀ s, s ∈ retransmit_queue c' → s ∈ retransmit_queue c ∨
    (data s ∈ segs ∧ ∃ k len, (k + len <= length d)%nat ∧ Z.of_nat len <= 65535 ∧ payload_len s = Z.of_nat len ∧
       data s = segment c (seq s) (rcv_nxt c) (Z.lor ACK PSH) (rcv_wnd c) [] (sub k len d))
}.

Lemma send_none c n d : snd_nxt c = wrap 32 n → send_facts c n d [] d c.
Proof.
  intros Hn. split; try done; [|by left]. exists []. split; [done|]. split; [cbn; by rewrite Z.add_0_r|by intros p ?%elem_of_nil].
Qed.

Lemma send_loop_facts fuel : ∀ now c d n segs rest c', snd_nxt c = wrap 32 n → snd_wnd c <= 65535 →
  send_loop fuel now c d = (segs, rest, c') → send_facts c n d segs rest c'.
Proof.
  induction fuel as [|fuel IH]; intros now c d n segs rest c' Hn Hw; cbn [send_loop]; [intros [= <- <- <-]; by apply send_none|].
  destruct (length d =? 0)%nat; [intros [= <- <- <-]; by apply send_none|].
  destruct (snd_wnd c <=? _); [intros [= <- <- <-]; by apply send_none|].
  pose proof (wrap_range (snd_nxt c - snd_una c)) as Hfl.
  set (m := Nat.min _ _). destruct (Nat.eqb_spec m 0) as [|Hm0]; [intros [= <- <- <-]; by apply send_none|].
  assert (Hm : (m <= length d)%nat ∧ Z.of_nat m <= 65535) by (unfold m, sat_sub; lia).
  set (sg := segment _ _ _ _ _ _ _). set (c1 := set_snd _ _ _ _).
  destruct (send_loop fuel now c1 (drop m d)) as [[segs2 rest2] c2] eqn:E. intros [= <- <- <-].
  assert (Hn1 : snd_nxt c1 = wrap 32 (n + Z.of_nat m)) by (unfold c1; cbn [snd_nxt set_snd enqueue set_queue]; by rewrite Hn, wrap_add).
  destruct (IH now c1 (drop m d) (n + Z.of_nat m) _ _ _ Hn1 Hw E) as [S1 S2 S3 S4 S5 (tk & T1 & T2 & T3) S7].
  split; [by destruct S1|done|done|done|done| |].
  - exists (take m d ++ tk). rewrite <- app_assoc, <- T1, take_drop, length_app, length_take, Nat.min_l by lia. split; [done|].
    split; [rewrite T2; f_equal; lia|]. intros p [->|Hp]%elem_of_cons.
    + exists 0%nat, m. split; [lia|]. split; [lia|]. unfold sg. rewrite Z.add_0_r, <- Hn. by unfold sub.
    + destruct (T3 p Hp) as (k & len & K1 & K2 & ->). exists (m + k)%nat, len. split; [lia|]. split; [done|].
      unfold sub. rewrite drop_drop. replace (n + Z.of_nat (m + k)) with (n + Z.of_nat m + Z.of_nat k) by lia. by apply segment_id.
  - intros s Hs. destruct (S7 s Hs) as [Hq|(Hq & k & len & K1 & K2 & K3 & K4)].
    + unfold c1 in Hq. cbn [retransmit_queue set_snd enqueue set_queue] in Hq. apply elem_of_app in Hq as [Hq|Hq]; [by left|].
      apply list_elem_of_singleton in Hq as ->. right. split; [by left|]. exists 0%nat, m. split; [lia|]. split; [lia|]. split; [done|]. cbn [data seq]. unfold sg. by unfold sub.
    + right. split; [by right|]. exists (m + k)%nat, len. rewrite length_drop in K1. split; [lia|]. split; [done|]. split; [done|].
      rewrite K4. unfold sub. rewrite drop_drop. by apply segment_id.
Qed.

(** A pass of the timer sends copies of queued segments. *)
Lemma resend_pass_facts now r q out dead q' : resend_pass now r q = (out, dead, q') →
  (∀ p, p ∈ out → ∃ s, s ∈ q ∧ p = data s) ∧ (∀ s, s ∈ q' → ∃ s0, s0 ∈ q ∧ data s = data s0 ∧ seq s = seq s0 ∧ payload_len s = payload_len s0).
Proof.
  revert out dead q'. induction q as [|x q IH]; intros out dead q'; cbn [resend_pass].
  { intros [= <- <- <-]. by split; intros ? ?%elem_of_nil. }
  destruct (resend_pass now r q) as [[out2 dead2] q2]. destruct (IH _ _ _ eq_refl) as [I1 I2].
  assert (J1 : ∀ p, p ∈ out2 → ∃ s, s ∈ x :: q ∧ p = data s) by (intros p Hp; destruct (I1 p Hp) as (s & ? & ?); exists s; split; [by right|done]).
  assert (J2 : ∀ s, s ∈ q2 → ∃ s0, s0 ∈ x :: q ∧ data s = data s0 ∧ seq s = seq s0 ∧ payload_len s = payload_len s0) by (intros p Hp; destruct (I2 p Hp) as (s & ? & ?); exists s; split; [by right|done]).
  destruct (_ <=? duration_since now (sent_at x)); [destruct (5 <=? retries x)|]; intros [= <- <- <-]; split.
  - by intros p ?%elem_of_nil.
  - intros s Hs. by exists s.
  - intros p [->|Hp]%elem_of_cons; [exists x; split; [by left|done]|auto].
  - intros s [->|Hp]%elem_of_cons; [exists x; split; [by left|done]|auto].
  - done.
  - intros s [->|Hp]%elem_of_cons; [exists x; split; [by left|done]|auto].
Qed.

End TcpStream.
