(* ===== verification/TcpDelivery.v ===== *)
(** * TCP: end-to-end delivery

    The invariant of two hosts joined by an unreliable network, and what it
    says of the stream a reader sees. *)

From S2P Require Import Prelude Packets Tcp TcpSender TcpWire TcpStream.

Module TcpDelivery.

Import Packets Tcp TcpSender TcpWire TcpStream.

(** ** One host *)

(** A segment on the wire: a SYN has the initial sequence number, a FIN is sent
    in closing only, and data is a slice of the stream at its offset. *)
Definition tx_ok (A : side) (p : list Z) : Prop :=
  ∃ sq ak fl pl, carries (conn A) p sq ak fl pl ∧
    (bit fl SYN = true → wrap 32 sq = wrap 32 (iss (conn A))) ∧
    (bit fl FIN = true → before_fin (state (conn A)) = false) ∧
    (pl ≠ [] → ∃ k, wrap 32 sq = wrap 32 (iss (conn A) + 1 + Z.of_nat k) ∧
       (k + length pl <= length (sent A))%nat ∧ pl = sub k (length pl) (sent A)).

Record host (A : side) : Prop := {
  h_reach : reach (conn A); h_lip : ip_ok (local_ip (conn A)); h_rip : ip_ok (remote_ip (conn A));
  h_queue : ∀ s, s ∈ retransmit_queue (conn A) → data s ∈ wire A;
  h_filed : ∀ s, s ∈ retransmit_queue (conn A) → filed (conn A) s;
  h_wire : ∀ p, p ∈ wire A → tx_ok A p;
  h_nxt : before_fin (state (conn A)) = true → snd_nxt (conn A) = wrap 32 (iss (conn A) + 1 + Z.of_nat (length (sent A)));
  h_syn : state (conn A) = SynSent ∨ state (conn A) = SynReceived → sent A = []
}.

Lemma sub_app_grow {X} k n (l d : list X) : (k + n <= length l)%nat → sub k n (l ++ d) = sub k n l.
Proof. intros H. unfold sub. rewrite drop_app_le, take_app_le; [done|rewrite length_drop; lia|lia]. Qed.

(** What a call may do to a host. *)
Record host_move (A : side) (c' : TcpConnection) (out : list (list Z)) (d : list Z) : Prop := {
  m_reach : reach c'; m_id : same_id (conn A) c';
  m_queue : ∀ s, s ∈ retransmit_queue c' → data s ∈ wire A ++ out;
  m_filed : ∀ s, s ∈ retransmit_queue c' → filed c' s;
  m_fin : before_fin (state c') = true → before_fin (state (conn A)) = true;
  m_nxt : before_fin (state c') = true → snd_nxt c' = wrap 32 (snd_nxt (conn A) + Z.of_nat (length d));
  m_syn : state c' = SynSent ∨ state c' = SynReceived → state c' = state (conn A) ∧ d = [];
  m_out : ∀ g p, p ∈ out → p ∈ wire A ∨ tx_ok (mk_side c' [] (sent A ++ d) g) p
}.

Lemma tx_ok_mono A c' w d g p : same_id (conn A) c' → (before_fin (state c') = true → before_fin (state (conn A)) = true) →
  tx_ok A p → tx_ok (mk_side c' w (sent A ++ d) g) p.
Proof.
  intros Hid Hf (sq & ak & fl & pl & H1 & H2 & H3 & H4). exists sq, ak, fl, pl. cbn [conn sent].
  rewrite (id_iss _ _ Hid). split; [by eapply carries_id|]. split; [done|]. split.
  - intros Hb. specialize (H3 Hb). destruct (before_fin (state c')); [by rewrite Hf in H3|done].
  - intros Hp. destruct (H4 Hp) as (k & K1 & K2 & K3). exists k. split; [done|].
    rewrite length_app, sub_app_grow by done. split; [lia|done].
Qed.

Lemma host_step A c' out d g : host A → host_move A c' out d → host (mk_side c' (wire A ++ out) (sent A ++ d) g).
Proof.
  intros [H1 H2 H3 H4 Hfl H5 H6 H7] [M1 M2 M3 Mfl M4 M5 M6 M7]. pose proof M2 as [I1 I2 I3 _ _]. split; cbn [conn wire sent]; try done.
  - by rewrite I2.
  - by rewrite I3.
  - intros p [Hp|Hp]%elem_of_app; [apply (tx_ok_mono A); auto|].
    destruct (M7 g p Hp) as [Hw|Hw]; [apply (tx_ok_mono A); auto|]. exact Hw.
  - intros Hb. rewrite (M5 Hb), (H6 (M4 Hb)), wrap_add, I1, length_app. f_equal. lia.
  - intros Hs. destruct (M6 Hs) as [E ->]. rewrite E in Hs. by rewrite (H7 Hs).
Qed.

(** A fresh segment without payload. *)
Lemma tx_bare A w' s' g c' sq ak fl w : ip_ok (local_ip (conn A)) → ip_ok (remote_ip (conn A)) → same_id (conn A) c' → byte_ok fl →
  bit fl SYN = false → (bit fl FIN = true → before_fin (state c') = false) → tx_ok (mk_side c' w' s' g) (segment (conn A) sq ak fl w [] []).
Proof.
  intros H1 H2 Hid Hf Hs Hn. exists sq, ak, fl, []. cbn [conn sent]. split; [|split; [congruence|done]].
  eapply carries_id; [exact Hid|]. apply segment_carries; auto. cbn. lia.
Qed.

(** *** The calls *)

Lemma nxt_keep A : host A → before_fin (state (conn A)) = true → snd_nxt (conn A) = wrap 32 (snd_nxt (conn A) + Z.of_nat (length (@nil Z))).
Proof. intros H Hb. rewrite (h_nxt A H Hb). cbn [length]. by rewrite wrap_add, Z.add_0_r. Qed.

Lemma deliver_move now A hdr payload raw c' out : host A → hdr_ok hdr → handle_segment now (conn A) hdr payload raw = (c', out) →
  hs_facts (conn A) hdr c' out → host_move A c' out [].
Proof.
  intros HA Hh E [F1 F2 F3 F4 F5 _ F7]. split; try done.
  - replace c' with (handle_segment now (conn A) hdr payload raw).1 by (by rewrite E). apply reach_segment; [apply HA|done].
  - intros s Hs. apply elem_of_app. left. by apply (h_queue A HA), F3.
  - intros s Hs. eapply filed_id; [exact F1|]. by apply (h_filed A HA), F3.
  - intros Hb. rewrite F2. by apply nxt_keep, F4.
  - intros Hs. by split; [apply F5|].
  - intros g p Hp. destruct (F7 p Hp) as (sq & ak & w & ->). right. apply tx_bare; try done; apply HA.
Qed.

Lemma write_move now A d segs rest c' : host A → Forall byte_ok d → sends (state (conn A)) = true →
  send_loop (length d) now (conn A) d = (segs, rest, c') →
  send_facts (conn A) (iss (conn A) + 1 + Z.of_nat (length (sent A))) d segs rest c' ∧
  host_move A c' segs (take (length d - length rest) d).
Proof.
  intros HA Hd Hs E. assert (Hb : before_fin (state (conn A)) = true) by (by destruct (state (conn A))).
  assert (Hw : snd_wnd (conn A) <= 65535).
  { destruct (reach_inv _ (h_reach A HA)) as (_ & _ & _ & _ & _ & _ & Hw & _); [intros Ec; by rewrite Ec in Hs|lia]. }
  pose proof (send_loop_facts _ _ _ _ _ _ _ _ (h_nxt A HA Hb) Hw E) as F. split; [done|].
  destruct F as [S1 S2 S3 S4 S5 (tk & T1 & T2 & T3) S7].
  assert (Ht : take (length d - length rest) d = tk) by (rewrite T1, length_app; replace (_ + _ - _)%nat with (length tk) by lia; apply take_app_length).
  rewrite Ht. split; rewrite ?S2; try done.
  - replace c' with (build_data_segments now (conn A) d).2 by (unfold build_data_segments; by rewrite E).
    apply reach_write; [apply HA|]. destruct (state (conn A)); try done; auto.
  - intros s Hin. apply elem_of_app. destruct (S7 s Hin) as [?|[? _]]; [left; by apply (h_queue A HA)|by right].
  - intros s Hin. eapply filed_id; [exact S1|]. destruct (S7 s Hin) as [Hq|(_ & k & len & K1 & K2 & K3 & K4)]; [by apply (h_filed A HA)|].
    assert (Hlen : length (sub k len d) = len) by (unfold sub; rewrite length_take, length_drop; lia).
    do 3 eexists. rewrite K4, K3. split; [apply segment_carries; try apply HA; auto|]; [done|by apply Forall_sub|by rewrite Hlen|]. rewrite Hlen. replace (bit (Z.lor ACK PSH) SYN || bit (Z.lor ACK PSH) FIN) with false by done. lia.
  - intros _. by rewrite T2, (h_nxt A HA Hb), wrap_add.
  - intros [Es|Es]; by rewrite Es in Hs.
  - intros g p Hp. right. destruct (T3 p Hp) as (k & len & K1 & K2 & ->).
    assert (Hk : sub k len d = sub (length (sent A) + k) len (sent A ++ tk)).
    { rewrite sub_app_r by lia. replace (_ + k - _)%nat with k by lia. rewrite T1. by apply sub_app_grow. }
    assert (Hlen : length (sub k len d) = len) by (unfold sub; rewrite length_take, length_drop, T1, length_app; lia).
    eexists _, _, _, _. cbn [conn sent]. split; [eapply carries_id; [exact S1|]; apply segment_carries; try apply HA; auto|].
    + done.
    + by apply Forall_sub.
    + by rewrite Hlen.
    + split; [done|]. split; [done|]. intros _. exists (length (sent A) + k)%nat. rewrite (id_iss _ _ S1), Hlen, length_app.
      split; [rewrite (wrap_small (wrap 32 _)) by apply wrap_range; f_equal; lia|]. split; [lia|done].
Qed.

Lemma fin_move now A fin c' : host A → build_fin now (conn A) = (fin, c') → host_move A c' (option_list fin) [].
Proof.
  intros HA E. assert (Hr : reach c') by (replace c' with (build_fin now (conn A)).2 by (by rewrite E); apply reach_fin, HA).
  assert (Hnone : c' = conn A → fin = None → host_move A c' (option_list fin) []).
  { intros -> ->. split; try done; [intros s Hs; apply elem_of_app; left; by apply (h_queue A HA)|by apply (h_filed A HA)|by apply nxt_keep|by intros g p ?%elem_of_nil]. }
  unfold build_fin in E. destruct (state (conn A)) eqn:Es; injection E as E1 E2; try (by apply Hnone); subst c' fin; clear Hnone.
  all: split; cbn [option_list]; try done; try (by intros [|]).
  all: try (intros s [Hs|Hs]%elem_of_app; apply elem_of_app; [left; by apply (h_queue A HA)|right; apply list_elem_of_singleton in Hs as ->; by left]).
  all: try (intros s [Hs|Hs]%elem_of_app; [by eapply (filed_id (conn A)); [done|apply (h_filed A HA)]|apply list_elem_of_singleton in Hs as ->]).
  all: try (exists (rcv_nxt (conn A)), (Z.lor FIN ACK), []; split; [|done]; apply (carries_id (conn A)); [done|];
    apply (segment_carries (conn A) (snd_nxt (conn A)) (rcv_nxt (conn A)) (Z.lor FIN ACK) (rcv_wnd (conn A)) [] []); try apply HA; auto; done).
  all: intros g p ->%list_elem_of_singleton; right.
  all: apply (tx_bare A [] (sent A ++ []) g _ (snd_nxt (conn A)) (rcv_nxt (conn A)) (Z.lor FIN ACK) (rcv_wnd (conn A))); try done; apply HA.
Qed.

Lemma abort_move A : host A → host_move A (abort (conn A)) [] [].
Proof.
  intros HA. pose proof (reach_abort _ (h_reach A HA)) as Hr. revert Hr. unfold abort. case_bool_decide as E; intros Hr.
  - split; try done; [intros s Hs; apply elem_of_app; left; by apply (h_queue A HA)|by apply (h_filed A HA)|by apply nxt_keep|by intros g p ?%elem_of_nil].
  - split; try done; [by intros s ?%elem_of_nil|by intros s ?%elem_of_nil|by intros [|]|by intros g p ?%elem_of_nil].
Qed.

Lemma read_move A n d c' : host A → read_drain (conn A) n = (d, c') → host_move A c' [] [].
Proof.
  intros HA E. pose proof (reach_read _ n (h_reach A HA)) as Hr. rewrite E in Hr. injection E as <- <-.
  split; try done; [intros s Hs; apply elem_of_app; left; by apply (h_queue A HA)|by apply (h_filed A HA)|by apply nxt_keep|by intros g p ?%elem_of_nil].
Qed.

Lemma timer_move now A out c' : host A → check_retransmit now (conn A) = (out, c') → host_move A c' out [].
Proof.
  intros HA E. pose proof (reach_timer now _ (h_reach A HA)) as Hr. rewrite E in Hr. unfold check_retransmit in E.
  destruct (resend_pass now (rto (conn A)) (retransmit_queue (conn A))) as [[o dead] q] eqn:Eq.
  destruct (resend_pass_facts _ _ _ _ _ _ Eq) as [P1 P2].
  assert (Hq : ∀ s, s ∈ q → data s ∈ wire A) by (intros s Hs; destruct (P2 s Hs) as (s0 & H1 & -> & _); by apply (h_queue A HA)).
  assert (Ho : ∀ p, p ∈ o → p ∈ wire A) by (intros p Hp; destruct (P1 p Hp) as (s0 & H1 & ->); by apply (h_queue A HA)).
  assert (Hfl : ∀ s, s ∈ q → filed (conn A) s).
  { intros s Hs. destruct (P2 s Hs) as (s0 & H1 & H2 & H3 & H4). destruct (h_filed A HA s0 H1) as (ak & fl & pl & ? & ?). exists ak, fl, pl. by rewrite H2, H3, H4. }
  destruct dead; injection E as <- <-; split; try done.
  - by intros s ?%elem_of_nil.
  - by intros s ?%elem_of_nil.
  - by intros [|].
  - intros g p [Hp| ->%list_elem_of_singleton]%elem_of_app; [left; auto|right].
    apply (tx_bare A [] (sent A ++ []) g _ (snd_nxt (conn A)) 0 RST 0); try done; apply HA.
  - intros s Hs. apply elem_of_app. left. auto.
  - by apply nxt_keep.
  - intros g p Hp. left. auto.
Qed.

(** ** Two hosts *)

(** [wrap] of an offset into the stream of [A]. *)
Definition at_seq (A : side) (k : nat) : Z := wrap 32 (iss (conn A) + 1 + Z.of_nat k).

(** An acknowledgement on the wire of [B] covers only bytes [B] has. *)
Definition ack_ok (A B : side) (p : list Z) : Prop :=
  ∃ sq ak fl pl, carries (conn B) p sq ak fl pl ∧
    (bit fl ACK = true → ∃ k, (k <= length (recv B))%nat ∧ wrap 32 ak = at_seq A k).

(** What [B] has of the stream of [A]. *)
Record dir (A B : side) : Prop := {
  d_prefix : recv B `prefix_of` sent A;
  d_syn : state (conn B) = SynSent → recv B = [];
  d_open : rx_open (state (conn B)) = true → rcv_nxt (conn B) = at_seq A (length (recv B));
  d_live : before_fin (state (conn A)) = true → live (state (conn B)) = true → rcv_nxt (conn B) = at_seq A (length (recv B));
  d_acks : before_fin (state (conn A)) = true → ∀ p, p ∈ wire B → ack_ok A B p;
  d_una : sends (state (conn A)) = true → ∃ k, (k <= length (recv B))%nat ∧ snd_una (conn A) = at_seq A k
}.

Record crossed (A B : side) : Prop := { x_ip : local_ip (conn A) = remote_ip (conn B); x_ip' : remote_ip (conn A) = local_ip (conn B) }.

(** The sender moves. *)
Lemma dir_tx A B c' w d g : dir A B → iss c' = iss (conn A) → (before_fin (state c') = true → before_fin (state (conn A)) = true) →
  (sends (state c') = true → (sends (state (conn A)) = true ∧ snd_una c' = snd_una (conn A)) ∨ ∃ k, (k <= length (recv B))%nat ∧ snd_una c' = at_seq A k) →
  dir (mk_side c' w (sent A ++ d) g) B.
Proof.
  intros [D1 D2 D3 D4 D5 D6] Hi Hb Hu. unfold ack_ok, at_seq in *. split; unfold ack_ok, at_seq; cbn [conn sent]; rewrite ?Hi; try auto.
  - by apply prefix_app_r.
  - intros Hs. destruct (Hu Hs) as [[H1 ->]|H1]; auto.
Qed.

Lemma ack_ok_mono A B c' w s g p : same_id (conn B) c' → (length (recv B) <= length (g ++ rx_buffer c'))%nat →
  ack_ok A B p → ack_ok A (mk_side c' w s g) p.
Proof.
  intros Hid Hl (sq & ak & fl & pl & H1 & H2). exists sq, ak, fl, pl. cbn [conn]. split; [by eapply carries_id|].
  intros Hb. destruct (H2 Hb) as (k & K1 & K2). exists k. split; [|done]. unfold recv at 1. cbn [got conn]. lia.
Qed.

(** The receiver makes a call that takes no data in. *)
Lemma dir_quiet A B c' out s g : dir A B → same_id (conn B) c' → g ++ rx_buffer c' = recv B → rcv_nxt c' = rcv_nxt (conn B) →
  (state c' = SynSent → state (conn B) = SynSent) → (rx_open (state c') = true → rx_open (state (conn B)) = true) →
  (live (state c') = true → live (state (conn B)) = true) →
  (∀ p, p ∈ out → p ∈ wire B ∨ ∃ sq ak fl pl, carries (conn B) p sq ak fl pl ∧
     (bit fl ACK = true → live (state (conn B)) = true ∧ ak = rcv_nxt (conn B))) →
  dir A (mk_side c' (wire B ++ out) s g).
Proof.
  intros [D1 D2 D3 D4 D5 D6] Hid Hr Hn Hs Ho Hl Hout.
  assert (E : recv (mk_side c' (wire B ++ out) s g) = recv B) by done.
  split; rewrite ?E; cbn [conn]; rewrite ?Hn; try auto. cbn [wire]. intros Hb p [Hp|Hp]%elem_of_app.
  { apply (ack_ok_mono A B); [done|by rewrite Hr|auto]. }
  destruct (Hout p Hp) as [Hw|(sq & ak & fl & pl & H1 & H2)]; [apply (ack_ok_mono A B); [done|by rewrite Hr|auto]|].
  exists sq, ak, fl, pl. cbn [conn]. split; [by eapply carries_id|]. intros Hk. destruct (H2 Hk) as [Hv ->].
  exists (length (recv B)). rewrite E. split; [done|]. rewrite (D4 Hb Hv). apply wrap_small, wrap_range.
Qed.

(** A segment arrives: offsets that agree modulo 2^32 agree. *)
Lemma at_seq_inj A k k' : at_seq A k = at_seq A k' → Z.of_nat k < 2 ^ 32 → Z.of_nat k' < 2 ^ 32 → k = k'.
Proof.
  unfold at_seq, wrap. intros E H1 H2. apply (f_equal (λ x, (x - (iss (conn A) + 1)) mod 2 ^ 32)) in E.
  rewrite !Zminus_mod_idemp_l in E. replace (iss (conn A) + 1 + Z.of_nat k - (iss (conn A) + 1)) with (Z.of_nat k) in E by lia.
  replace (iss (conn A) + 1 + Z.of_nat k' - (iss (conn A) + 1)) with (Z.of_nat k') in E by lia. rewrite !Z.mod_small in E by lia. lia.
Qed.

Lemma at_seq_add A k n : wrap 32 (at_seq A k + Z.of_nat n) = at_seq A (k + n).
Proof. unfold at_seq. rewrite wrap_add. f_equal. lia. Qed.

(** The new bytes of a segment in order continue the prefix. *)
Lemma prefix_extend (l s : list Z) n : l `prefix_of` s → (length l + n <= length s)%nat → (l ++ sub (length l) n s) `prefix_of` s.
Proof. intros [r ->] H. rewrite sub_app_r, Nat.sub_diag by lia. unfold sub. cbn [drop]. apply prefix_app, prefix_take. Qed.

(** The header of a segment of [A] as [B] parses it. *)
Lemma delivered A B p hdr payload : host A → crossed A B → p ∈ wire A → parse p (remote_ip (conn B)) (local_ip (conn B)) = Some (hdr, payload) →
  hdr_ok hdr ∧ (has hdr SYN = true → seq_num hdr = wrap 32 (iss (conn A))) ∧
  (has hdr FIN = true → before_fin (state (conn A)) = false) ∧
  (payload ≠ [] → ∃ k, seq_num hdr = at_seq A k ∧ (k + length payload <= length (sent A))%nat ∧ payload = sub k (length payload) (sent A)).
Proof.
  intros HA [X1 X2] Hp E. destruct (h_wire A HA p Hp) as (sq & ak & fl & pl & [Hby (hdr' & E' & F1 & F2 & F3)] & T1 & T2 & T3).
  rewrite X1, X2 in E'. rewrite E in E'. injection E' as <- <-. split; [by eapply parse_hdr_ok|].
  unfold has, bit in *. rewrite F3, F1. split_and!; auto.
Qed.

(** An acknowledgement built after the segment covers what was received. *)
Lemma fresh_ack A B c' s sq w r : ip_ok (local_ip (conn B)) → ip_ok (remote_ip (conn B)) → same_id (conn B) c' →
  rcv_nxt c' = at_seq A (length (got B ++ rx_buffer c')) → r = rcv_nxt c' → ∀ wr,
  ack_ok A (mk_side c' wr s (got B)) (segment (conn B) sq r ACK w [] []).
Proof.
  intros H1 H2 Hid Hr -> wr. exists sq, (rcv_nxt c'), ACK, []. cbn [conn]. split.
  - eapply carries_id; [exact Hid|]. apply segment_carries; auto; done.
  - intros _. exists (length (got B ++ rx_buffer c')). split; [done|]. rewrite Hr. apply wrap_small, wrap_range.
Qed.

(** [B] takes data [x] in, or none. *)
Lemma dir_take A B hdr payload c' out x : host B → dir A B → same_id (conn B) c' → hs_rx (conn B) hdr payload c' out →
  rx_buffer c' = rx_buffer (conn B) ++ x → (recv B ++ x) `prefix_of` sent A →
  (has hdr FIN = true → before_fin (state (conn A)) = false) →
  (rx_open (state c') = true → rcv_nxt c' = at_seq A (length (recv B ++ x))) →
  (before_fin (state (conn A)) = true → live (state c') = true → rcv_nxt c' = at_seq A (length (recv B ++ x))) →
  (before_fin (state (conn A)) = true → ∀ p, p ∈ out → rcv_nxt c' = at_seq A (length (recv B ++ x))) →
  dir A (mk_side c' (wire B ++ out) (sent B) (got B)).
Proof.
  intros HB [D1 D2 D3 D4 D5 D6] Hid [R1 R2 R3 _ R5 _] Hx Hpre Hfin Ho Hl Hout.
  assert (E : recv (mk_side c' (wire B ++ out) (sent B) (got B)) = recv B ++ x) by (unfold recv; cbn [got conn]; by rewrite Hx, app_assoc).
  split; rewrite ?E; cbn [conn wire]; try done.
  - intros Hb p [Hp|Hp]%elem_of_app.
    + apply (ack_ok_mono A B); [done|unfold recv; rewrite Hx, !length_app; lia|auto].
    + assert (Hf : has hdr FIN = false) by (destruct (has hdr FIN); [by rewrite Hfin in Hb|done]).
      destruct (R5 Hf p Hp) as (sq & w & ->). apply fresh_ack; try done; try apply HB.
      rewrite (Hout Hb _ Hp). unfold recv. by rewrite Hx, app_assoc.
  - intros Hs. destruct (D6 Hs) as (k & K1 & K2). exists k. rewrite length_app. split; [lia|done].
Qed.

Lemma dir_deliver A B p hdr payload c' out : host A → host B → crossed A B → dir A B → Z.of_nat (length (sent A)) < 2 ^ 32 → p ∈ wire A →
  parse p (remote_ip (conn B)) (local_ip (conn B)) = Some (hdr, payload) →
  same_id (conn B) c' → hs_rx (conn B) hdr payload c' out → dir A (mk_side c' (wire B ++ out) (sent B) (got B)).
Proof.
  intros HA HB HX HD Hbig Hp E Hid HR. destruct (delivered A B p hdr payload HA HX Hp E) as (_ & _ & Hfin & Hpay).
  pose proof HD as [D1 D2 D3 D4 _ _]. pose proof HR as [R1 R2 R3 R4 R5 R6].
  assert (Hnofin : before_fin (state (conn A)) = true → has hdr FIN = false) by (intros Hb; destruct (has hdr FIN); [by rewrite Hfin in Hb|done]).
  destruct R4 as [[Hx Hn]|(Ho & Hne & Hseq & Hx & Hn)].
  - apply (dir_take A B hdr payload c' out []); rewrite ?app_nil_r; try done.
    + intros Ho. rewrite Hn by auto. auto.
    + intros Hb Hl. rewrite Hn by auto. auto.
    + intros Hb q Hq. rewrite Hn by auto. apply D3. destruct (rx_open (state (conn B))); [done|]. rewrite R6 in Hq by done. by apply elem_of_nil in Hq.
  - destruct (Hpay Hne) as (k & K1 & K2 & K3). rewrite Hseq, (D3 Ho) in K1.
    pose proof (prefix_length _ _ D1). apply at_seq_inj in K1; [|lia|lia]. subst k.
    apply (dir_take A B hdr payload c' out payload); try done.
    + rewrite K3. by apply prefix_extend.
    + intros Ho'. rewrite Hn, (D3 Ho), length_app by auto. apply at_seq_add.
    + intros Hb _. rewrite Hn, (D3 Ho), length_app by auto. apply at_seq_add.
    + intros Hb q _. rewrite Hn, (D3 Ho), length_app by auto. apply at_seq_add.
Qed.

(** The answer to the SYN fixes the first sequence number of the stream. *)
Lemma dir_deliver_syn A B p hdr payload c' out : host A → host B → crossed A B → dir A B → p ∈ wire A →
  parse p (remote_ip (conn B)) (local_ip (conn B)) = Some (hdr, payload) → state (conn B) = SynSent →
  handle_syn_sent (conn B) hdr p = (c', out) → dir A (mk_side c' (wire B ++ out) (sent B) (got B)).
Proof.
  intros HA HB HX HD Hp E Es Eh. destruct (delivered A B p hdr payload HA HX Hp E) as (_ & Hsyn & Hfin & _).
  destruct (syn_sent_facts _ _ _ _ _ Es Eh) as (HF & Hrx & Hcase). pose proof (f_id _ _ _ _ HF) as Hid.
  pose proof HD as [D1 D2 D3 D4 D5 D6].
  assert (Er : got B ++ rx_buffer c' = recv B) by (by rewrite Hrx).
  destruct Hcase as [(S1 & S2 & ->)|[(S1 & ->)|(S0 & S1 & S2 & S3)]].
  - apply dir_quiet; try done; rewrite ?S1, ?Es; try done. by intros q ?%elem_of_nil.
  - split; unfold recv; cbn [got conn wire]; rewrite ?Er, ?S1; try done.
    intros Hb q Hq. rewrite app_nil_r in Hq. apply (ack_ok_mono A B); [done|by rewrite Er|auto].
  - assert (Hn : rcv_nxt c' = at_seq A (length (got B ++ rx_buffer c'))).
    { rewrite Er, (D2 Es), S2, (Hsyn S0), wrap_add. unfold at_seq. cbn [length]. f_equal. lia. }
    split; unfold recv; cbn [got conn wire]; try done; try (by rewrite Er); [by rewrite S1|].
    intros Hb q [Hq|Hq]%elem_of_app; [apply (ack_ok_mono A B); [done|by rewrite Er|auto]|].
    destruct (S3 q Hq) as (sq & w & ->). apply fresh_ack; try done; apply HB.
Qed.

(** *** The invariant of the system *)

Record ok (A B : side) : Prop := {
  k_left : host A; k_right : host B; k_cross : crossed A B;
  k_lr : Z.of_nat (length (sent A)) < 2 ^ 32 → dir A B;
  k_rl : Z.of_nat (length (sent B)) < 2 ^ 32 → dir B A
}.

Lemma ok_sym A B : ok A B → ok B A.
Proof. intros [H1 H2 [X1 X2] H3 H4]. by split. Qed.

Lemma ok_step A B c' out d g : ok A B → host_move A c' out d →
  (dir A B → sends (state c') = true →
     (sends (state (conn A)) = true ∧ snd_una c' = snd_una (conn A)) ∨ ∃ k, (k <= length (recv B))%nat ∧ snd_una c' = at_seq A k) →
  (dir B A → Z.of_nat (length (sent B)) < 2 ^ 32 → dir B (mk_side c' (wire A ++ out) (sent A ++ d) g)) →
  ok (mk_side c' (wire A ++ out) (sent A ++ d) g) B.
Proof.
  intros [H1 H2 [X1 X2] H3 H4] HM Hu Hr. pose proof (m_id _ _ _ _ HM) as Hid. split; [by apply host_step|done| | |].
  - split; cbn [conn]; [by rewrite (id_lip _ _ Hid)|by rewrite (id_rip _ _ Hid)].
  - cbn [sent]. rewrite length_app. intros Hb. assert (HD : dir A B) by (apply H3; lia).
    apply dir_tx; [done|by apply Hid|by apply (m_fin _ _ _ _ HM)|by apply Hu].
  - intros Hb. apply Hr; auto.
Qed.

(** The acknowledgement of an arriving segment. *)
Lemma deliver_una A B p hdr payload c' out : host A → crossed A B → dir A B → p ∈ wire B →
  parse p (remote_ip (conn A)) (local_ip (conn A)) = Some (hdr, payload) → hs_facts (conn A) hdr c' out → sends (state c') = true →
  (sends (state (conn A)) = true ∧ snd_una c' = snd_una (conn A)) ∨ ∃ k, (k <= length (recv B))%nat ∧ snd_una c' = at_seq A k.
Proof.
  intros HA [X1 X2] HD Hp E HF Hs. destruct (f_una _ _ _ _ HF Hs) as [?|(Ha & Hu & Hc)]; [by left|right].
  assert (Hb : before_fin (state (conn A)) = true) by (apply (f_fin _ _ _ _ HF); by destruct (state c')).
  destruct (sends (state (conn A))) eqn:Es.
  - destruct (d_acks _ _ HD Hb p Hp) as (sq & ak & fl & pl & [_ (hdr' & E' & _ & F2 & F3)] & HK).
    rewrite <- X1, <- X2, E in E'. injection E' as <- <-. destruct HK as (k & K1 & K2); [by unfold bit; rewrite <- F3|].
    exists k. split; [done|]. by rewrite Hu, F2.
  - destruct Hc as [|Hc]; [done|]. exists 0%nat. split; [lia|]. rewrite Hu, Hc, (h_nxt A HA Hb).
    rewrite (h_syn A HA); [done|]. destruct (state (conn A)); auto; done.
Qed.

Lemma deliver_ok now A B p : ok A B → p ∈ wire B → ok (apply_op now A (Deliver p)) B.
Proof.
  intros HO Hp. pose proof HO as [HA HB HX HL HR]. cbn [apply_op]. unfold handle_tcp.
  destruct (parse p (remote_ip (conn A)) (local_ip (conn A))) as [[hdr payload]|] eqn:E.
  2: { destruct A as [c w s g]. cbn [conn wire sent got]. by rewrite app_nil_r. }
  assert (HX' : crossed B A) by (destruct HX; by split).
  pose proof (delivered B A p hdr payload HB HX' Hp E) as (Hok & _).
  destruct (handle_segment now (conn A) hdr payload p) as [c' out] eqn:Eh.
  rewrite <- (app_nil_r (sent A)).
  destruct (decide (state (conn A) = SynSent)) as [Es|Hns].
  - assert (Eh' : handle_syn_sent (conn A) hdr p = (c', out)) by (unfold handle_segment in Eh; by rewrite Es in Eh).
    pose proof (syn_sent_facts _ _ _ _ _ Es Eh') as (HF & _). apply ok_step; [done|by eapply deliver_move| |].
    + intros HD Hs. by eapply deliver_una.
    + intros HD _. rewrite app_nil_r. by eapply dir_deliver_syn.
  - destruct (handle_segment_facts _ _ _ _ _ _ _ Hns Eh) as [HF Hrx]. apply ok_step; [done|by eapply deliver_move| |].
    + intros HD Hs. by eapply deliver_una.
    + intros HD Hb. rewrite app_nil_r. eapply dir_deliver; try done. apply HF.
Qed.

(** The receiving side of the other calls. *)
Lemma write_ok now A B d : ok A B → Forall byte_ok d → ok (apply_op now A (Write d)) B.
Proof.
  intros HO Hd. pose proof (k_left _ _ HO) as HA. cbn [apply_op]. destruct (sends (state (conn A))) eqn:Es; [|done].
  unfold build_data_segments. destruct (send_loop _ _ _ _) as [[segs rest] c'] eqn:E.
  destruct (write_move now A d segs rest c' HA Hd Es E) as [[S1 S2 S3 S4 S5 (tk & T1 & T2 & T3) S7] HM]. apply ok_step; [done|done| |].
  - intros _ _. by left.
  - intros HD _. apply dir_quiet; try done; rewrite ?S2; try done; [by rewrite S5|].
    intros p Hp. right. destruct (T3 p Hp) as (k & len & K1 & K2 & ->). do 4 eexists.
    split; [apply segment_carries; try apply HA; auto|intros _; split; [by destruct (state (conn A))|reflexivity]];
      [done|by apply Forall_sub|unfold sub; rewrite length_take; lia].
Qed.

Lemma close_ok now A B : ok A B → ok (apply_op now A Close) B.
Proof.
  intros HO. pose proof (k_left _ _ HO) as HA. cbn [apply_op]. destruct (build_fin now (conn A)) as [fin c'] eqn:E.
  rewrite <- (app_nil_r (sent A)). pose proof (fin_move now A fin c' HA E) as HM. apply ok_step; [done|done| |].
  - unfold build_fin in E. destruct (state (conn A)) eqn:Es; injection E as <- <-; rewrite ?Es; intros _; try done.
  - intros HD _. unfold build_fin in E. destruct (state (conn A)) eqn:Es; injection E as <- <-; apply dir_quiet; rewrite ?Es; try done;
      try (by intros p ?%elem_of_nil).
    all: intros p ->%list_elem_of_singleton; right; exists (snd_nxt (conn A)), (rcv_nxt (conn A)), (Z.lor FIN ACK), [].
    all: split; [|done]; apply (segment_carries (conn A)); try apply HA; auto; done.
Qed.

Lemma abort_ok now A B : ok A B → ok (apply_op now A Abort) B.
Proof.
  intros HO. pose proof (k_left _ _ HO) as HA. cbn [apply_op]. rewrite <- (app_nil_r (wire A)), <- (app_nil_r (sent A)).
  pose proof (abort_move A HA) as HM. apply ok_step; [done|done| |]; revert HM; unfold abort; case_bool_decide as E; intros HM.
  - by rewrite E.
  - done.
  - intros HD _. apply dir_quiet; try done. by intros p ?%elem_of_nil.
  - intros HD _. apply dir_quiet; try done. by intros p ?%elem_of_nil.
Qed.

Lemma read_ok now A B n : ok A B → ok (apply_op now A (Read n)) B.
Proof.
  intros HO. pose proof (k_left _ _ HO) as HA. cbn [apply_op]. destruct (read_drain (conn A) n) as [d c'] eqn:E.
  rewrite <- (app_nil_r (wire A)), <- (app_nil_r (sent A)).
  pose proof (read_move A n d c' HA E) as HM. apply ok_step; [done|done| |]; injection E as <- <-.
  - by left.
  - intros HD _. apply dir_quiet; try done; [|by intros p ?%elem_of_nil].
    unfold recv. cbn [rx_buffer set_rcv]. by rewrite <- app_assoc, take_drop.
Qed.

Lemma timer_ok now A B : ok A B → ok (apply_op now A Timer) B.
Proof.
  intros HO. pose proof (k_left _ _ HO) as HA. cbn [apply_op]. destruct (check_retransmit now (conn A)) as [out c'] eqn:E.
  rewrite <- (app_nil_r (sent A)). pose proof (timer_move now A out c' HA E) as HM. unfold check_retransmit in E.
  destruct (resend_pass now (rto (conn A)) (retransmit_queue (conn A))) as [[o dead] q] eqn:Eq.
  destruct (resend_pass_facts _ _ _ _ _ _ Eq) as [P1 _].
  assert (Ho : ∀ p, p ∈ o → p ∈ wire A) by (intros p Hp; destruct (P1 p Hp) as (s0 & H1 & ->); by apply (h_queue A HA)).
  apply ok_step; [done|done| |]; destruct dead; injection E as <- <-.
  - done.
  - by left.
  - intros HD _. apply dir_quiet; try done. intros p [Hp| ->%list_elem_of_singleton]%elem_of_app; [by left; auto|right].
    exists (snd_nxt (conn A)), 0, RST, []. split; [|done]. apply (segment_carries (conn A)); try apply HA; auto; done.
  - intros HD _. apply dir_quiet; try done. intros p Hp. left. auto.
Qed.

Lemma op_ok now A B o : ok A B → allowed o B → ok (apply_op now A o) B.
Proof.
  intros HO Ha. destruct o; [by apply deliver_ok|by apply write_ok|by apply read_ok|by apply close_ok|by apply abort_ok|by apply timer_ok].
Qed.

(** *** The handshake *)

Lemma host_open c p s0 ak fl : ip_ok (local_ip c) → ip_ok (remote_ip c) → reach c → state c = SynSent ∨ state c = SynReceived →
  snd_nxt c = wrap 32 (iss c + 1) → retransmit_queue c = [mk_seg (iss c) 1 p s0 0] → carries c p (iss c) ak fl [] → bit fl FIN = false → bit fl SYN = true →
  host (mk_side c [p] [] []).
Proof.
  intros H1 H2 Hr Hs Hn Hq Hc Hf Hsy. split; cbn [conn wire sent]; try done.
  - rewrite Hq. intros s ->%list_elem_of_singleton. by left.
  - rewrite Hq. intros s ->%list_elem_of_singleton. exists ak, fl, []. split; [done|]. by rewrite Hsy.
  - intros q ->%list_elem_of_singleton. exists (iss c), ak, fl, []. cbn [conn]. split_and!; try done. congruence.
  - intros _. rewrite Hn. f_equal. cbn. lia.
Qed.

Section Handshake.

Context (t1 t2 isn1 isn2 p1 p2 : Z) (ip1 ip2 : list Z) (hdr : TcpHeader) (payload syn syn_ack : list Z) (c1 c2 : TcpConnection).
Context (I1 : ip_ok ip1) (I2 : ip_ok ip2) (N1 : 0 <= isn1 < 2 ^ 32) (N2 : 0 <= isn2 < 2 ^ 32).
Context (E1 : build_syn t1 (new isn1 ip1 p1 ip2 p2) = (syn, c1)) (Ep : parse syn ip1 ip2 = Some (hdr, payload)).
Context (E2 : passive_open t2 isn2 ip2 ip1 hdr syn = (syn_ack, c2)).

Lemma active_host : host (mk_side c1 [syn] [] []) ∧ carries c1 syn isn1 0 SYN [] ∧ state c1 = SynSent ∧
  local_ip c1 = ip1 ∧ remote_ip c1 = ip2 ∧ iss c1 = isn1 ∧ rx_buffer c1 = [].
Proof.
  assert (Hr : reach c1) by (replace c1 with (build_syn t1 (new isn1 ip1 p1 ip2 p2)).2 by (by rewrite E1); by apply reach_connect).
  injection E1 as <- <-.
  match goal with |- host (mk_side ?c [?p] _ _) ∧ _ => assert (HC : carries c p isn1 0 SYN []) end.
  { apply (carries_id (set_state (new isn1 ip1 p1 ip2 p2) SynSent)); [done|]. apply segment_carries; auto; done. }
  split; [|auto 10]. eapply host_open; [exact I1|exact I2|exact Hr|by left|reflexivity|reflexivity|exact HC|reflexivity|reflexivity].
Qed.

Lemma syn_fields : hdr_ok hdr ∧ seq_num hdr = isn1.
Proof.
  destruct active_host as (_ & [Hb (hdr' & E' & F1 & _)] & _ & L1 & L2 & _). rewrite L1, L2, Ep in E'. injection E' as <- _.
  split; [by eapply parse_hdr_ok|]. by rewrite F1, wrap_small.
Qed.

Lemma passive_host : host (mk_side c2 [syn_ack] [] []) ∧ carries c2 syn_ack isn2 (wrap 32 (isn1 + 1)) (Z.lor SYN ACK) [] ∧ state c2 = SynReceived ∧
  local_ip c2 = ip2 ∧ remote_ip c2 = ip1 ∧ iss c2 = isn2 ∧ rx_buffer c2 = [] ∧ rcv_nxt c2 = wrap 32 (isn1 + 1).
Proof.
  destruct syn_fields as [Hok Hseq].
  assert (Hr : reach c2) by (replace c2 with (passive_open t2 isn2 ip2 ip1 hdr syn).2 by (by rewrite E2); by apply reach_accept).
  assert (∃ c0, build_syn_ack t2 c0 = (syn_ack, c2) ∧ local_ip c0 = ip2 ∧ remote_ip c0 = ip1 ∧ iss c0 = isn2 ∧
    rx_buffer c0 = [] ∧ rcv_nxt c0 = wrap 32 (isn1 + 1) ∧ retransmit_queue c0 = []) as (c0 & E & L1 & L2 & L3 & L4 & L5 & L6).
  { unfold passive_open in E2. rewrite Hseq in E2. destruct (parse_mss syn (data_offset hdr)); (eexists; split; [exact E2|]; auto 10). }
  assert (HC : carries c2 syn_ack isn2 (wrap 32 (isn1 + 1)) (Z.lor SYN ACK) []).
  { injection E as <- <-. apply (carries_id (set_state c0 SynReceived)); [done|]. rewrite <- L3, <- L5.
    apply segment_carries; cbn [local_ip remote_ip set_state]; rewrite ?L1, ?L2; auto; done. }
  assert (state c2 = SynReceived ∧ local_ip c2 = ip2 ∧ remote_ip c2 = ip1 ∧ iss c2 = isn2 ∧ rx_buffer c2 = [] ∧
    rcv_nxt c2 = wrap 32 (isn1 + 1) ∧ snd_nxt c2 = wrap 32 (iss c2 + 1) ∧ retransmit_queue c2 = [mk_seg (iss c2) 1 syn_ack t2 0])
    as (F1 & F2 & F3 & F4 & F5 & F6 & F7 & F8).
  { injection E as <- <-. cbn [state local_ip remote_ip iss rx_buffer rcv_nxt snd_nxt retransmit_queue enqueue set_queue set_snd set_state].
    rewrite L6. auto 10. }
  split; [|auto 10]. eapply (host_open _ syn_ack t2 _ (Z.lor SYN ACK)); rewrite ?F2, ?F3; auto. rewrite F4. exact HC.
Qed.

Lemma handshake_ok : ok (mk_side c1 [syn] [] []) (mk_side c2 [syn_ack] [] []).
Proof.
  destruct active_host as (H1 & C1 & S1 & L1 & R1 & Q1 & B1), passive_host as (H2 & C2 & S2 & L2 & R2 & Q2 & B2 & V2).
  split; [done|done|by split; cbn [conn]; congruence| |]; intros _.
  - assert (Er : recv (mk_side c2 [syn_ack] [] []) = []) by (unfold recv; cbn [got conn]; by rewrite B2).
    assert (Ea : wrap 32 (isn1 + 1) = at_seq (mk_side c1 [syn] [] []) 0) by (unfold at_seq; cbn [conn]; rewrite Q1; f_equal; lia).
    split; rewrite ?Er; cbn [conn sent length wire]; rewrite ?S1, ?S2, ?V2; try done.
    intros _ p ->%list_elem_of_singleton. do 4 eexists. split; [exact C2|]. intros _. exists 0%nat. split; [lia|].
    rewrite <- Ea. apply wrap_small, wrap_range.
  - assert (Er : recv (mk_side c1 [syn] [] []) = []) by (unfold recv; cbn [got conn]; by rewrite B1).
    split; rewrite ?Er; cbn [conn sent length wire]; rewrite ?S1, ?S2; try done.
    intros _ p ->%list_elem_of_singleton. do 4 eexists. split; [exact C1|]. done.
Qed.

End Handshake.

Lemma run_ok A B : run A B → ok A B.
Proof.
  induction 1 as [t1 t2 isn1 isn2 ip1 p1 ip2 p2 hdr payload syn c1 syn_ack c2 I1 I2 N1 N2 E1 Ep E2|now A B o _ IH Ha|now A B o _ IH Ha].
  - exact (handshake_ok t1 t2 isn1 isn2 p1 p2 ip1 ip2 hdr payload syn syn_ack c1 c2 I1 I2 N1 N2 E1 Ep E2).
  - by apply op_ok.
  - apply ok_sym, op_ok; [by apply ok_sym|done].
Qed.

(** ** What the stream delivers *)

(** C2 TCP delivers a prefix. Two hosts that completed an active open against a
    listener, with any interleaving of writes, reads, closes, aborts, timer
    passes and arrivals, over a network that loses, duplicates, delays and
    reorders segments at will: in each direction, as long as fewer than 2^32 bytes
    have been written that way, what one side has read, followed by what waits
    in its receive buffer, is a prefix of what the other side's writes accepted.
    (Sequence numbers repeat after 2^32 bytes and segments carry no timestamp, so
    a segment delayed that long would be taken for new data.) *)
Theorem tcp_delivers_prefix A B : run A B →
  (Z.of_nat (length (sent A)) < 2 ^ 32 → (got B ++ rx_buffer (conn B)) `prefix_of` sent A) ∧
  (Z.of_nat (length (sent B)) < 2 ^ 32 → (got A ++ rx_buffer (conn A)) `prefix_of` sent B).
Proof. intros [_ _ _ H1 H2]%run_ok. split; intros Hb; [apply (d_prefix A B); auto|apply (d_prefix B A); auto]. Qed.

(** The sequence number of a byte written is not that of the SYN. *)
Lemma at_seq_not_syn A i : (i < length (sent A))%nat → Z.of_nat (length (sent A)) < 2 ^ 32 → at_seq A i ≠ wrap 32 (iss (conn A)).
Proof.
  intros Hi Hb E. unfold at_seq, wrap in E. apply (f_equal (λ x, (x - iss (conn A)) mod 2 ^ 32)) in E. rewrite !Zminus_mod_idemp_l, Z.sub_diag in E.
  replace (iss (conn A) + 1 + Z.of_nat i - iss (conn A)) with (1 + Z.of_nat i) in E by lia. rewrite Z.mod_small in E by lia. rewrite Z.mod_0_l in E by lia. lia.
Qed.

Lemma wrap_back a b : wrap 32 (b + wrap 32 (a - b)) = wrap 32 a.
Proof. unfold wrap. rewrite Zplus_mod_idemp_r. f_equal. lia. Qed.

(** A queued segment that covers the number of a written byte carries the byte. *)
Lemma queued_carries A i s : host A → Z.of_nat (length (sent A)) < 2 ^ 32 → before_fin (state (conn A)) = true → (i < length (sent A))%nat →
  s ∈ retransmit_queue (conn A) → wrap 32 (at_seq A i - seq s) < payload_len s →
  ∃ hdr pl k j, parse (data s) (local_ip (conn A)) (remote_ip (conn A)) = Some (hdr, pl) ∧ seq_num hdr = at_seq A k ∧ i = (k + j)%nat ∧
    pl = sub k (length pl) (sent A) ∧ pl !! j = sent A !! i.
Proof.
  intros HA Hbig Hb Hi Hs Hlt. destruct (h_filed A HA s Hs) as (ak & fl & pl & [_ (hdr & Ep & Eq & _ & Ef)] & Hl).
  destruct (h_wire A HA _ (h_queue A HA s Hs)) as (sq & ak' & fl' & pl' & [_ (hdr' & Ep' & Eq' & _ & Ef')] & T1 & T2 & T3).
  rewrite Ep in Ep'. injection Ep' as <- <-. rewrite Ef in Ef'. subst fl'. rewrite Eq in Eq'.
  assert (Hf : bit fl FIN = false) by (destruct (bit fl FIN); [by rewrite T2 in Hb|done]). pose proof (wrap_range (at_seq A i - seq s)) as Hw.
  assert (Hsn : bit fl SYN = false).
  { destruct (bit fl SYN); [exfalso|done]. specialize (T1 eq_refl). destruct pl as [|x pl].
    - apply (at_seq_not_syn A i Hi Hbig). rewrite <- T1, <- Eq'. cbn in Hl. assert (E0 : wrap 32 (at_seq A i - seq s) = 0) by lia.
      pose proof (wrap_back (at_seq A i) (seq s)) as Hwb. rewrite E0, Z.add_0_r in Hwb. rewrite Hwb. symmetry. apply wrap_small, wrap_range.
    - destruct (T3 ltac:(done)) as (k & K1 & K2 & _). apply (at_seq_not_syn A k); [cbn in K2; lia|done|]. unfold at_seq. congruence. }
  rewrite Hf, Hsn in Hl. cbn [orb] in Hl. assert (Hne : pl ≠ []) by (intros ->; cbn in Hl; lia). destruct (T3 Hne) as (k & K1 & K2 & K3).
  set (j := Z.to_nat (wrap 32 (at_seq A i - seq s))). assert (Hj : (j < length pl)%nat) by lia.
  assert (Ei : i = (k + j)%nat).
  { apply (at_seq_inj A); [|lia|lia]. rewrite <- at_seq_add. unfold at_seq at 2. rewrite <- K1, <- Eq', wrap_add. unfold j. rewrite Z2Nat.id by lia.
    rewrite wrap_back. symmetry. apply wrap_small, wrap_range. }
  exists hdr, pl, k, j. split; [done|]. split; [unfold at_seq; congruence|]. split; [done|]. split; [done|].
  rewrite K3. unfold sub. rewrite lookup_take_lt, lookup_drop by lia. by rewrite Ei.
Qed.

(** C3 No accepted byte is lost. As long as fewer than 2^32 bytes have been written
    and the side can still write, every byte its writes accepted has either
    reached the peer, at its place in the stream, or is kept for retransmission:
    a segment on the retransmission queue parses, its sequence number is that of
    some byte [k] of the stream, and its payload is the stream from [k] on, the
    byte included. *)
Theorem tcp_no_byte_lost A B i : run A B → Z.of_nat (length (sent A)) < 2 ^ 32 → sends (state (conn A)) = true →
  (i < length (sent A))%nat →
  recv B !! i = sent A !! i ∨
  ∃ s hdr pl k j, s ∈ retransmit_queue (conn A) ∧ parse (data s) (local_ip (conn A)) (remote_ip (conn A)) = Some (hdr, pl) ∧
    seq_num hdr = at_seq A k ∧ i = (k + j)%nat ∧ pl = sub k (length pl) (sent A) ∧ pl !! j = sent A !! i.
Proof.
  intros [HA _ _ HD _]%run_ok Hbig Hs Hi. specialize (HD Hbig). destruct (d_una A B HD Hs) as (k & Hk & Hu).
  destruct (decide (i < length (recv B))%nat) as [Hlt|Hge].
  { left. destruct (d_prefix A B HD) as [r ->]. by rewrite lookup_app_l. }
  right. assert (Hb : before_fin (state (conn A)) = true) by (by destruct (state (conn A))).
  assert (Hne : state (conn A) ≠ Closed) by (intros E; by rewrite E in Hs).
  assert (Hfl : wrap 32 (snd_nxt (conn A) - snd_una (conn A)) = Z.of_nat (length (sent A)) - Z.of_nat k).
  { rewrite (h_nxt A HA Hb), Hu. unfold at_seq. rewrite wrap_sub, wrap_small; lia. }
  destruct (queued_cover (conn A) (Z.of_nat i - Z.of_nat k) (reach_inv _ (h_reach A HA) Hne)) as (s & S1 & S2); [rewrite Hfl; lia|].
  destruct (queued_carries A i s HA Hbig Hb Hi S1) as (hdr & pl & k' & j & ?); [|by exists s, hdr, pl, k', j].
  replace (at_seq A i) with (wrap 32 (snd_una (conn A) + (Z.of_nat i - Z.of_nat k))); [done|].
  rewrite Hu. unfold at_seq. rewrite wrap_add. f_equal. lia.
Qed.

(** A handshake, two writes of which the network delivers the second first,
    twice, then the first. *)
Definition demo_ip1 : list Z := [10; 0; 2; 15].
Definition demo_ip2 : list Z := [10; 0; 2; 2].
Definition demo_syn : list Z * TcpConnection := build_syn 0 (new 4294967290 demo_ip1 49152 demo_ip2 80).
Definition demo_hdr : TcpHeader := default (mk_hdr 0 0 0 0 0 0 0 0 0) (fst <$> parse demo_syn.1 demo_ip1 demo_ip2).
Definition demo_syn_ack : list Z * TcpConnection := passive_open 0 77 demo_ip2 demo_ip1 demo_hdr demo_syn.1.
Definition demo_B0 : side := mk_side demo_syn_ack.2 [demo_syn_ack.1] [] [].
Definition nth_seg (s : side) (i : nat) : list Z := default [] (wire s !! i).
Definition demo_A1 : side := apply_op 0 (mk_side demo_syn.2 [demo_syn.1] [] []) (Deliver (nth_seg demo_B0 0)).
Definition demo_A2 : side := apply_op 0 (apply_op 0 demo_A1 (Write [1; 2; 3])) (Write [4; 5]).
Definition demo_B1 : side := apply_op 0 demo_B0 (Deliver (nth_seg demo_A2 1)).
Definition demo_B2 : side := apply_op 0 demo_B1 (Deliver (nth_seg demo_A2 3)).
Definition demo_B3 : side := apply_op 0 demo_B2 (Deliver (nth_seg demo_A2 2)).

Lemma nth_seg_in s i : is_Some (wire s !! i) → nth_seg s i ∈ wire s.
Proof. intros [p E]. unfold nth_seg. rewrite E. by eapply list_elem_of_lookup_2. Qed.

Lemma demo_run : run demo_A2 demo_B3.
Proof.
  assert (E : parse demo_syn.1 demo_ip1 demo_ip2 = Some (demo_hdr, [])) by (vm_compute; reflexivity).
  assert (Hip1 : ip_ok demo_ip1) by (split; [done|repeat (apply Forall_cons; split; [unfold byte_ok; lia|]); apply Forall_nil, I]).
  assert (Hip2 : ip_ok demo_ip2) by (split; [done|repeat (apply Forall_cons; split; [unfold byte_ok; lia|]); apply Forall_nil, I]).
  assert (H0 : run (mk_side demo_syn.2 [demo_syn.1] [] []) demo_B0).
  { unfold demo_B0. eapply (run_open 0 0 4294967290 77 demo_ip1 49152 demo_ip2 80 demo_hdr []); [exact Hip1|exact Hip2|lia|lia|apply surjective_pairing|exact E|apply surjective_pairing]. }
  assert (H1 : run demo_A1 demo_B0).
  { unfold demo_A1. apply run_left; [exact H0|]. apply nth_seg_in. vm_compute. eauto. }
  assert (Hb : Forall byte_ok [1; 2; 3] ∧ Forall byte_ok [4; 5]).
  { split; repeat (apply Forall_cons; split; [unfold byte_ok; lia|]); apply Forall_nil, I. }
  assert (H2 : run demo_A2 demo_B0).
  { unfold demo_A2. apply run_left; [|exact (proj2 Hb)]. apply run_left; [exact H1|exact (proj1 Hb)]. }
  assert (H3 : run demo_A2 demo_B1) by (apply run_right; [exact H2|]; apply nth_seg_in; vm_compute; eauto).
  assert (H4 : run demo_A2 demo_B2) by (apply run_right; [exact H3|]; apply nth_seg_in; vm_compute; eauto).
  apply run_right; [exact H4|]. apply nth_seg_in. vm_compute. eauto.
Qed.

Lemma tcp_delivers_prefix_witness :
  rx_buffer (conn demo_B3) = [1; 2; 3] ∧ sent demo_A2 = [1; 2; 3; 4; 5] ∧
  (got demo_B3 ++ rx_buffer (conn demo_B3)) `prefix_of` sent demo_A2.
Proof.
  split; [vm_compute; reflexivity|]. split; [vm_compute; reflexivity|].
  apply (tcp_delivers_prefix demo_A2 demo_B3); [exact demo_run|]. vm_compute. reflexivity.
Defined.

(** Byte 4 has not arrived; it is the second byte of the segment that starts at 3. *)
Lemma tcp_no_byte_lost_witness :
  length (recv demo_B3) = 3%nat ∧
  ∃ s hdr pl k j, s ∈ retransmit_queue (conn demo_A2) ∧ parse (data s) demo_ip1 demo_ip2 = Some (hdr, pl) ∧
    seq_num hdr = at_seq demo_A2 k ∧ 4%nat = (k + j)%nat ∧ pl = sub k (length pl) [1; 2; 3; 4; 5] ∧ pl !! j = Some 5.
Proof.
  split; [vm_compute; reflexivity|].
  destruct (tcp_no_byte_lost demo_A2 demo_B3 4) as [H|H].
  - exact demo_run.
  - vm_compute. reflexivity.
  - vm_compute. reflexivity.
  - apply Nat.ltb_lt. vm_compute. reflexivity.
  - exfalso. vm_compute in H. discriminate.
  - exact H.
Defined.

End TcpDelivery.
