(* ===== verification/LockOrder.v ===== *)
(** * The lock-order tracker (kernel/src/debug/lock_order.rs)

    Every ranked lock is acquired through [enter], which compares its rank with
    the top of the thread's stack of ranks and panics unless it is higher, and
    released through a guard whose drop pops the stack. The model has the
    tracker itself and the threads that use it: who holds which lock, shared or
    exclusive, who waits for one, in any interleaving. The theorems say what the
    discipline buys: the tracker refuses exactly the acquisitions out of order,
    and threads it lets through cannot deadlock on ranked locks. *)

From stdpp Require Import strings.
From S2P Require Import Prelude.

Module LockOrder.

Definition LOCK_RANK_DEPTH : nat := 16.

(** The rank constants, in the order of the file. *)
Definition rank_table : list (string * Z) :=
  [("RANK_VFS", 10); ("RANK_INODE", 30); ("RANK_EFS_INODE_RMW", 31); ("RANK_EFS_BITMAP", 32);
   ("RANK_EFS_ORPHAN", 33); ("RANK_DENTRY", 35); ("RANK_ICACHE", 36); ("RANK_PAGES", 40);
   ("RANK_IN_FLIGHT", 42); ("RANK_DIRTY_KEYS", 50); ("RANK_MAPPERS", 60); ("RANK_VMAS", 70);
   ("RANK_USER_MM", 80); ("RANK_SHM_REGISTRY", 90); ("RANK_DIRTY_INODES", 100); ("RANK_BPC_SHARD", 110);
   ("RANK_BPC_JOURNALS", 120); ("RANK_JOURNAL_TRACKER", 130); ("RANK_PAGE_WRITE_LOCK", 140); ("RANK_JOURNAL_STATE", 150);
   ("RANK_EFS_MUTABLE", 160); ("RANK_AHCI_LEGACY", 170); ("RANK_NVME_ADMIN", 172); ("RANK_AHCI_SLOT", 180);
   ("RANK_NVME_CMD", 182); ("RANK_NVME_CQ", 186); ("RANK_AHCI_MMIO", 190); ("RANK_NVME_SQ", 192);
   ("RANK_PCI_CONFIG", 200); ("RANK_MAILBOX_QUEUE", 204); ("RANK_MAILBOX_RESPONSE", 206); ("RANK_TTY_BUFFER", 210);
   ("RANK_FIFO_REGISTRY", 215); ("RANK_PIPE", 220); ("RANK_PTY", 230); ("RANK_NET_STACK", 240);
   ("RANK_PORT_TABLE", 250); ("RANK_SOCKET", 260); ("RANK_TCP_CONN", 270); ("RANK_WINDOW_SHELL", 275);
   ("RANK_KEY_GRABS", 276); ("RANK_WINDOW_REGISTRY", 280); ("RANK_WINDOW_EVENTS", 290); ("RANK_CLIPBOARD", 295);
   ("RANK_MOUSE_BUTTONS", 300); ("RANK_INPUT_SUBS", 310); ("RANK_DEVICE_POLLERS", 320); ("RANK_HDA_STATE", 330);
   ("RANK_DEVFS_REGISTRY", 340); ("RANK_EVICT_OVERFLOW", 350); ("RANK_TRACE_RING", 355); ("RANK_KERNEL_MAPPER", 900);
   ("RANK_FRAME_ALLOC", 910)].

(** ** The tracker *)

Definition site : Type := nat.

(** LOCK_ORDER_INVERSIONS and MAX_RANK_DEPTH. *)
Record Stats := mk_stats { inversions : Z; max_depth : nat }.

(** A thread's stack of ranks with the sites that took them, innermost first. *)
Definition rank_stack : Type := list (Z * site).

(** The rank of the innermost lock, 0 when none is held. *)
Definition top_rank (stack : rank_stack) : Z := match stack with [] => 0 | (r, _) :: _ => r end.

(** [stack.push((rank, site)).expect(..)] on a vector of fixed capacity. *)
Definition push (stack : rank_stack) (rank : Z) (s : site) : outcome rank_stack :=
  if (length stack <? LOCK_RANK_DEPTH)%nat then Ret ((rank, s) :: stack) else Panic.

(** [tracked] is false before the scheduler runs and for a torn thread
    pointer, where the call does nothing. The counters change even on the way
    to a panic. *)
Definition enter (tracked : bool) (rank : Z) (s : site) (stack : rank_stack) (st : Stats) : Stats * outcome rank_stack :=
  if negb tracked then (st, Ret stack)
  else if rank <=? top_rank stack then (mk_stats (inversions st + 1) (max_depth st), Panic)
  else
    match push stack rank s with
    | Ret stack => (mk_stats (inversions st) (if (max_depth st <? length stack)%nat then length stack else max_depth st), Ret stack)
    | Panic => (st, Panic)
    end.

Definition enter_same (tracked : bool) (rank : Z) (s : site) (stack : rank_stack) (st : Stats) : Stats * outcome rank_stack :=
  if negb tracked then (st, Ret stack)
  else if rank <? top_rank stack then (st, Panic)
  else (st, push stack rank s).

Definition exit (tracked : bool) (rank : Z) (s : site) (stack : rank_stack) : outcome rank_stack :=
  if negb tracked then Ret stack
  else
    match stack with
    | (r, s') :: stack => if bool_decide ((r, s') = (rank, s)) then Ret stack else Panic
    | [] => Panic
    end.

Definition assert_no_guards_held (tracked : bool) (stack : rank_stack) : outcome unit :=
  if negb tracked then Ret () else match stack with [] => Ret () | _ => Panic end.

(** ** Threads and ranked locks *)

(** What a [RankedGuard] holds: its lock, the way it was taken, the site. *)
Record RankedGuard := mk_guard { g_lock : nat; g_excl : bool; g_site : site }.

#[export] Instance RankedGuard_eq : EqDecision RankedGuard.
Proof. solve_decision. Defined.

(** Between [enter] and the lock's grant, and between its release and [exit]. *)
Inductive status := Running | Waiting (g : RankedGuard) | Exiting (g : RankedGuard).

Record Thread := mk_thread { lock_ranks : rank_stack; guards : list RankedGuard; stat : status }.

Definition idle_thread : Thread := mk_thread [] [] Running.

Record System := mk_system { threads : gmap nat Thread; stats : Stats }.

Definition thread_of (s : System) (t : nat) : Thread := default idle_thread (threads s !! t).
Definition set_thread (t : nat) (th : Thread) (s : System) : System := mk_system (<[t := th]> (threads s)) (stats s).

(** Two guards on one lock that cannot both be held. *)
Definition conflict (g h : RankedGuard) : bool := (g_lock g =? g_lock h)%nat && (g_excl g || g_excl h).

(** The lock can be granted: no guard held by any thread conflicts. *)
Definition available (s : System) (g : RankedGuard) : bool :=
  negb (existsb (λ p : nat * Thread, existsb (conflict g) (guards p.2)) (map_to_list (threads s))).

Fixpoint remove_guard (g : RankedGuard) (l : list RankedGuard) : list RankedGuard :=
  match l with [] => [] | h :: l => if decide (g = h) then l else h :: remove_guard g l end.

Section Ranks.
(** The rank each lock is declared with. *)
Context (rank_of : nat → Z).

(** [ranked_lock!], [ranked_read!], [ranked_write!] ([Enter]) and
    [ranked_lock_same!] ([EnterSame]) up to the wait for the lock, its grant,
    and the two halves of the guard's drop. *)
Inductive event :=
| Enter (t : nat) (g : RankedGuard)
| EnterSame (t : nat) (g : RankedGuard)
| Grant (t : nat)
| Release (t : nat) (g : RankedGuard)
| Exit (t : nat).

Definition entered (t : nat) (g : RankedGuard) (r : Stats * outcome rank_stack) (s : System) : outcome System :=
  stack ← r.2;
  Ret (set_thread t (mk_thread stack (guards (thread_of s t)) (Waiting g)) (mk_system (threads s) r.1)).

Definition exec (s : System) (e : event) : outcome System :=
  match e with
  | Enter t g =>
      let th := thread_of s t in
      match stat th with
      | Running => entered t g (enter true (rank_of (g_lock g)) (g_site g) (lock_ranks th) (stats s)) s
      | _ => Ret s
      end
  | EnterSame t g =>
      let th := thread_of s t in
      match stat th with
      | Running => entered t g (enter_same true (rank_of (g_lock g)) (g_site g) (lock_ranks th) (stats s)) s
      | _ => Ret s
      end
  | Grant t =>
      let th := thread_of s t in
      match stat th with
      | Waiting g => Ret (if available s g then set_thread t (mk_thread (lock_ranks th) (g :: guards th) Running) s else s)
      | _ => Ret s
      end
  | Release t g =>
      let th := thread_of s t in
      match stat th with
      | Running => Ret (if bool_decide (g ∈ guards th)
                        then set_thread t (mk_thread (lock_ranks th) (remove_guard g (guards th)) (Exiting g)) s else s)
      | _ => Ret s
      end
  | Exit t =>
      let th := thread_of s t in
      match stat th with
      | Exiting g =>
          stack ← exit true (rank_of (g_lock g)) (g_site g) (lock_ranks th);
          Ret (set_thread t (mk_thread stack (guards th) Running) s)
      | _ => Ret s
      end
  end.
End Ranks.

Definition boot : System := mk_system ∅ (mk_stats 0 0).

(** ** The discipline *)

(** The ranks of the table are distinct and listed in increasing order, so no
    two kinds of lock share one; none is 0, the rank of holding nothing. *)
Lemma rank_table_increasing : StronglySorted Z.lt (rank_table.*2) ∧ Forall (λ r, 0 < r <= U16_MAX) (rank_table.*2).
Proof.
  split; [|by repeat (apply Forall_cons; split; [by vm_compute|])].
  apply Sorted_StronglySorted; [exact Z.lt_trans|]. by repeat constructor.
Qed.

Section Order.
Context (rank_of key : nat → Z).
Hypothesis rank_pos : ∀ l, 0 < rank_of l <= U16_MAX.
(** What callers of [ranked_lock_same!] order the instances of one rank by. *)
Hypothesis key_bound : ∀ l, 0 <= key l < 2 ^ 64.

Definition ord (g : RankedGuard) : Z := rank_of (g_lock g) * 2 ^ 64 + key (g_lock g).
Definition rank (g : RankedGuard) : Z := rank_of (g_lock g).
Definition later (g h : RankedGuard) : Prop := ord h < ord g.

Lemma ord_rank g h : ord h < ord g → rank h <= rank g.
Proof. unfold ord, rank. pose proof (key_bound (g_lock g)). pose proof (key_bound (g_lock h)). nia. Qed.

Lemma rank_ord g h : rank h < rank g → ord h < ord g.
Proof. unfold ord, rank. pose proof (key_bound (g_lock g)). pose proof (key_bound (g_lock h)). nia. Qed.

(** Callers of [ranked_lock_same!] take the instances in the order of their keys. *)
Definition admissible (s : System) (e : event) : Prop :=
  match e with
  | EnterSame t g => ∀ h, h ∈ guards (thread_of s t) → rank h = rank g → key (g_lock h) < key (g_lock g)
  | _ => True
  end.

Inductive reach : System → Prop :=
| reach_boot : reach boot
| reach_step s e s' : reach s → admissible s e → exec rank_of s e = Ret s' → reach s'.

(** The locks a thread's stack stands for, in strictly decreasing order. *)
Definition owns (th : Thread) (owned : list RankedGuard) : Prop :=
  StronglySorted later owned ∧ (lock_ranks th).*1 = rank <$> owned ∧
  match stat th with
  | Running => guards th = owned
  | Waiting g => owned = g :: guards th
  | Exiting g => g ∈ owned ∧ guards th = remove_guard g owned
  end.

Definition Inv (s : System) : Prop := ∀ t, ∃ owned, owns (thread_of s t) owned.

Lemma elem_remove g h l : h ∈ remove_guard g l → h ∈ l.
Proof.
  induction l as [|x l IH]; cbn; [done|]. case_decide; rewrite ?elem_of_cons; [by right|]. intros [->|?]; [by left|right; auto].
Qed.

Lemma remove_sorted g l : StronglySorted later l → StronglySorted later (remove_guard g l).
Proof.
  induction 1 as [|h l Hl IH Hh]; cbn; [constructor|]. case_decide; [done|]. constructor; [done|].
  rewrite Forall_forall in Hh |- *. intros x Hx%elem_remove. auto.
Qed.

(** Popping the innermost rank is removing any lock of that rank. *)
Lemma pop_ranks g l : StronglySorted later l → g ∈ l → top_rank ((λ h, (rank h, 0%nat)) <$> l) = rank g →
  tail (rank <$> l) = rank <$> remove_guard g l.
Proof.
  induction 1 as [|h l Hl IH Hh]; [by intros ?%not_elem_of_nil|]. cbn. intros Hin Htop. case_decide as E; [done|].
  apply elem_of_cons in Hin as [?|Hin]; [done|]. cbn. destruct l as [|h2 l]; [by apply not_elem_of_nil in Hin|].
  assert (Hr : rank h2 = rank g).
  { apply Forall_cons in Hh as [H1 _]. apply ord_rank in H1. apply elem_of_cons in Hin as [->|Hin]; [done|].
    apply StronglySorted_inv in Hl as [_ H2]. rewrite Forall_forall in H2. specialize (H2 g Hin). apply ord_rank in H2. lia. }
  rewrite <- IH by done. cbn [fmap list_fmap tail]. congruence.
Qed.

Lemma top_of th owned : (lock_ranks th).*1 = rank <$> owned → top_rank (lock_ranks th) = match owned with [] => 0 | g :: _ => rank g end.
Proof. destruct (lock_ranks th) as [|[r s] st], owned; cbn; congruence. Qed.

Lemma sorted_cons g owned : StronglySorted later owned → match owned with [] => True | h :: _ => ord h < ord g end → StronglySorted later (g :: owned).
Proof.
  intros Hs Hh. constructor; [done|]. destruct owned as [|h l]; [constructor|]. constructor; [done|].
  apply StronglySorted_inv in Hs as [_ Hs]. eapply Forall_impl; [done|]. unfold later. intros x Hx. lia.
Qed.

Lemma thread_set t th s t' : thread_of (set_thread t th s) t' = if decide (t' = t) then th else thread_of s t'.
Proof. unfold thread_of. cbn. case_decide; [by subst; rewrite lookup_insert_eq|by rewrite lookup_insert_ne by congruence]. Qed.

Lemma inv_set s t th owned : Inv s → owns th owned → Inv (set_thread t th s).
Proof. intros Hi Ho t'. rewrite thread_set. case_decide; [by exists owned|apply Hi]. Qed.

Lemma rank_push_spec stack r x st : push stack r x = Ret st → st = (r, x) :: stack.
Proof. unfold push. destruct (_ <? _)%nat; congruence. Qed.

(** Both ways in leave the new lock above all those held. *)
Lemma entered_inv s t g st stack owned : Inv s → owns (thread_of s t) owned → stat (thread_of s t) = Running →
  stack = (rank g, g_site g) :: lock_ranks (thread_of s t) → match owned with [] => True | h :: _ => ord h < ord g end →
  Inv (set_thread t (mk_thread stack (guards (thread_of s t)) (Waiting g)) (mk_system (threads s) st)).
Proof.
  intros Hi (Hs & Hr & Hg) Hst -> Hh. rewrite Hst in Hg. apply (inv_set _ _ _ (g :: owned)); [exact Hi|].
  split; [by apply sorted_cons|]. cbn. rewrite Hr, Hg. done.
Qed.

Lemma rank_exec_inv s e s' : Inv s → admissible s e → exec rank_of s e = Ret s' → Inv s'.
Proof.
  intros Hi Ha. destruct e as [t g|t g|t|t g|t]; cbn [exec]; destruct (Hi t) as [owned Ho]; pose proof Ho as (Hs & Hr & Hg);
    destruct (stat (thread_of s t)) as [|w|w] eqn:Est; try by intros [= <-].
  - unfold entered, enter. cbn [negb]. rewrite (top_of _ _ Hr). destruct (Z.leb_spec (rank_of (g_lock g)) (match owned with [] => 0 | g :: _ => rank g end)) as [|Hlt]; [done|].
    destruct (push _ _ _) as [st|] eqn:Ep; [|done]. apply rank_push_spec in Ep. intros [= <-]. eapply entered_inv; [done|done|done|exact Ep|].
    destruct owned; [done|]. by apply rank_ord.
  - unfold entered, enter_same. cbn [negb]. rewrite (top_of _ _ Hr). destruct (Z.ltb_spec (rank_of (g_lock g)) (match owned with [] => 0 | g :: _ => rank g end)) as [|Hge]; [done|].
    cbn [snd fst]. destruct (push _ _ _) as [st|] eqn:Ep; [|done]. apply rank_push_spec in Ep. intros [= <-]. eapply entered_inv; [done|done|done|exact Ep|].
    destruct owned as [|h l]; [done|]. cbn [admissible] in Ha. rewrite Hg in Ha. specialize (Ha h ltac:(by left)).
    destruct (Z.eq_dec (rank h) (rank g)) as [E|E]; [|apply rank_ord; unfold rank in *; lia].
    specialize (Ha E). unfold ord. unfold rank in E. rewrite E. lia.
  - destruct (available s w); [|by intros [= <-]]. intros [= <-]. apply (inv_set _ _ _ owned); [done|]. split; [done|]. split; [done|]. by cbn.
  - destruct (bool_decide_reflect (g ∈ guards (thread_of s t))) as [Hin|]; [|by intros [= <-]]. intros [= <-].
    apply (inv_set _ _ _ owned); [done|]. split; [done|]. split; [done|]. cbn. subst owned. done.
  - unfold exit. cbn [negb]. destruct (lock_ranks (thread_of s t)) as [|[r x] st] eqn:El; [done|]. case_bool_decide as E; [|done]. injection E as -> ->.
    intros [= <-]. destruct Hg as [Hin Hg]. apply (inv_set _ _ _ (remove_guard w owned)); [done|]. split; [by apply remove_sorted|]. split; [|done].
    cbn [lock_ranks]. cbn in Hr. rewrite <- (pop_ranks w owned Hs Hin); [by rewrite <- Hr|]. destruct owned; [done|]. cbn in *. unfold rank in *. congruence.
Qed.

Lemma rank_reach_inv s : reach s → Inv s.
Proof.
  induction 1 as [|s e s' _ IH Ha He]; [|by eapply rank_exec_inv]. intros t. exists []. unfold thread_of. cbn. split; [constructor|done].
Qed.

(** ** Waiting *)

(** [t] waits for a lock that [u] holds. *)
Definition waits_for (s : System) (t u : nat) : Prop :=
  ∃ g h, stat (thread_of s t) = Waiting g ∧ h ∈ guards (thread_of s u) ∧ conflict g h = true.

(** [u] runs, or the lock it waits for can be granted. *)
Definition can_move (s : System) (u : nat) : Prop :=
  match stat (thread_of s u) with Waiting g => available s g = true | _ => True end.

Lemma waits_up s t u g g' : Inv s → waits_for s t u → stat (thread_of s t) = Waiting g → stat (thread_of s u) = Waiting g' → ord g < ord g'.
Proof.
  intros Hi (g0 & h & Eg & Hh & Hc) Eg' Eu. rewrite Eg in Eg'. injection Eg' as ->.
  destruct (Hi u) as (owned & Hs & _ & Ho). rewrite Eu in Ho. subst owned. apply StronglySorted_inv in Hs as [_ Hs].
  rewrite Forall_forall in Hs. specialize (Hs h Hh). unfold conflict in Hc. apply andb_true_iff in Hc as [E%Nat.eqb_eq _].
  unfold later, ord in *. by rewrite E.
Qed.

Lemma waits_chain s t u : Inv s → tc (waits_for s) t u → ∀ g g', stat (thread_of s t) = Waiting g → stat (thread_of s u) = Waiting g' → ord g < ord g'.
Proof.
  intros Hi. induction 1 as [t u Hw|t v u Hw Hc IH]; intros g g' Et Eu; [by eapply waits_up|].
  assert (∃ gv, stat (thread_of s v) = Waiting gv) as [gv Ev].
  { inversion Hc as [? ? (? & ? & ? & _)|? ? ? (? & ? & ? & _)]; eauto. }
  pose proof (waits_up _ _ _ _ _ Hi Hw Et Ev). specialize (IH _ _ Ev Eu). lia.
Qed.

Lemma blocked_by s t g : stat (thread_of s t) = Waiting g → available s g = false → ∃ u, waits_for s t u.
Proof.
  intros Et Ha. unfold available in Ha. apply negb_false_iff, existsb_exists in Ha as ([u th] & Hu & (h & Hh & Hc)%existsb_exists).
  exists u, g, h. apply list_elem_of_In, elem_of_map_to_list in Hu. unfold thread_of at 2. rewrite Hu. by apply list_elem_of_In in Hh.
Qed.

Lemma chain_ends s : Inv s → ∀ n t g, stat (thread_of s t) = Waiting g → 2 ^ 80 - ord g <= n →
  ∃ u, rtc (waits_for s) t u ∧ can_move s u.
Proof.
  intros Hi n. assert (Hn : 0 <= Z.max 0 n) by lia. revert n Hn.
  assert (∀ n, 0 <= n → ∀ t g, stat (thread_of s t) = Waiting g → 2 ^ 80 - ord g <= n → ∃ u, rtc (waits_for s) t u ∧ can_move s u) as Hind.
  { intros n Hn. pattern n. apply natlike_ind; [| |done]; clear n Hn.
    - intros t g _ Hb. exfalso. unfold ord in Hb. pose proof (rank_pos (g_lock g)). pose proof (key_bound (g_lock g)). unfold U16_MAX in *. nia.
    - intros n Hn IH t g Et Hb. destruct (available s g) eqn:Ea; [exists t; split; [reflexivity|unfold can_move; by rewrite Et]|].
      destruct (blocked_by s t g Et Ea) as [u Hu]. destruct (stat (thread_of s u)) as [|g'|g'] eqn:Eu.
      + exists u. split; [by apply rtc_once|unfold can_move; by rewrite Eu].
      + pose proof (waits_up _ _ _ _ _ Hi Hu Et Eu). destruct (IH u g' Eu ltac:(lia)) as (v & Hv & Hm).
        exists v. split; [by eapply rtc_l|done].
      + exists u. split; [by apply rtc_once|unfold can_move; by rewrite Eu]. }
  intros n Hn t g Et Hb. by apply (Hind (Z.max 0 n) Hn t g Et ltac:(lia)).
Qed.

(** C9 Threads that take their locks through the tracker cannot deadlock, provided
    that a thread which nests several instances of one rank, through
    [ranked_lock_same!], takes them in the order of a key; the tracker does not
    check that order ([crossed_instances_deadlock]). In every state reached without
    a panic, no thread waits for itself through any chain of held locks, and from
    every waiting thread such a chain leads to a thread that can move: one that is
    running, or whose lock can be granted. *)
Theorem ranked_locks_no_deadlock s : reach s →
  (∀ t, ¬ tc (waits_for s) t t) ∧ (∀ t, ∃ u, rtc (waits_for s) t u ∧ can_move s u).
Proof.
  intros Hi%rank_reach_inv. split.
  - intros t Hc. assert (∃ g, stat (thread_of s t) = Waiting g) as [g Eg].
    { inversion Hc as [? ? (? & ? & ? & _)|? ? ? (? & ? & ? & _)]; eauto. }
    pose proof (waits_chain s t t Hi Hc g g Eg Eg). lia.
  - intros t. destruct (stat (thread_of s t)) as [|g|g] eqn:Et.
    + exists t. split; [reflexivity|]. unfold can_move. by rewrite Et.
    + by eapply (chain_ends s Hi).
    + exists t. split; [reflexivity|]. unfold can_move. by rewrite Et.
Qed.

(** The tracker refuses exactly the acquisitions out of order: for a running
    thread, [enter] panics if and only if the thread holds some lock, at any
    depth, of the same or a higher rank, or its stack is full; only the first
    reason is counted as an inversion. *)
Theorem enter_exact s t g : reach s → stat (thread_of s t) = Running →
  let held := guards (thread_of s t) in
  let inverted := existsb (λ h, rank g <=? rank h) held in
  let r := enter true (rank g) (g_site g) (lock_ranks (thread_of s t)) (stats s) in
  (r.2 = Panic ↔ inverted = true ∨ (LOCK_RANK_DEPTH <= length held)%nat) ∧
  inversions r.1 = inversions (stats s) + (if inverted then 1 else 0).
Proof.
  intros Hi%rank_reach_inv Est. destruct (Hi t) as (owned & Hs & Hr & Hg). rewrite Est in Hg. cbn zeta. rewrite Hg. clear Hg.
  assert (Hlen : length (lock_ranks (thread_of s t)) = length owned) by (rewrite <- (length_fmap fst), Hr; by rewrite length_fmap).
  assert (Htop : (rank g <=? top_rank (lock_ranks (thread_of s t))) = existsb (λ h, rank g <=? rank h) owned).
  { rewrite (top_of _ _ Hr). destruct owned as [|h l]; cbn; [pose proof (rank_pos (g_lock g)); unfold rank; lia|].
    destruct (Z.leb_spec (rank g) (rank h)) as [|Hlt]; [done|]. symmetry. apply not_true_iff_false. intros (x & Hx & Hle%Z.leb_le)%existsb_exists.
    apply StronglySorted_inv in Hs as [_ Hs]. rewrite Forall_forall in Hs. apply list_elem_of_In in Hx. specialize (Hs x Hx). apply ord_rank in Hs. lia. }
  unfold enter. cbn [negb]. rewrite Htop. destruct (existsb _ owned); cbn [fst snd inversions]; [split; [by split; [left|]|done]|].
  unfold push. rewrite Hlen. destruct (Nat.ltb_spec (length owned) LOCK_RANK_DEPTH); cbn [fst snd inversions]; (split; [|lia]).
  - split; [done|]. intros [?|?]; [done|lia].
  - split; [by right|done].
Qed.

(** [enter_same] never counts the violation it panics on. *)
Lemma enter_same_uncounted r x stack st : (enter_same true r x stack st).1 = st.
Proof. unfold enter_same. cbn. by destruct (_ <? _). Qed.

(** A guard taken before the scheduler tracked its thread panics when it is
    dropped after: [exit] decides anew whether to look at the stack. *)
Lemma straddling_guard_panics r x st : (enter false r x [] st).2 = Ret [] ∧ exit true r x [] = Panic.
Proof. done. Qed.
End Order.

(** ** Concrete systems *)

Definition demo_rank (l : nat) : Z := Z.min (10 * Z.of_nat (S l)) 910.
Definition demo_key (l : nat) : Z := 0.

Lemma demo_rank_pos l : 0 < demo_rank l <= U16_MAX.
Proof. unfold demo_rank, U16_MAX. lia. Qed.
Lemma demo_key_bound l : 0 <= demo_key l < 2 ^ 64.
Proof. done. Qed.

Definition excl (l : nat) : RankedGuard := mk_guard l true 0%nat.

Fixpoint run (rank_of : nat → Z) (s : System) (es : list event) : outcome System :=
  match es with [] => Ret s | e :: es => s ← exec rank_of s e; run rank_of s es end.

Lemma rank_reach_run rank_of key es : ∀ s s', Forall (λ e, match e with EnterSame _ _ => False | _ => True end) es →
  reach rank_of key s → run rank_of s es = Ret s' → reach rank_of key s'.
Proof.
  induction es as [|e es IH]; intros s s' Hes Hs; cbn; [by intros [= <-]|]. apply Forall_cons in Hes as [He Hes].
  destruct (exec rank_of s e) as [s1|] eqn:E; [|done]. cbn [mbind outcome_bind]. apply IH; [done|]. apply (reach_step _ _ s e s1); [done| |done]. destruct e; cbn; done.
Qed.

(** Threads 0, 1 and 2 hold locks 0, 1 and 2; 0 waits for 1 and 1 for 2. *)
Definition chain_events : list event :=
  [Enter 0 (excl 0); Grant 0; Enter 1 (excl 1); Grant 1; Enter 2 (excl 2); Grant 2; Enter 0 (excl 1); Grant 0; Enter 1 (excl 2); Grant 1].
Definition chain_system : System := match run demo_rank boot chain_events with Ret s => s | Panic => boot end.

Lemma chain_reach : reach demo_rank demo_key chain_system.
Proof. apply (rank_reach_run _ _ chain_events boot); [by repeat constructor|constructor|vm_compute; reflexivity]. Qed.

Lemma ranked_locks_no_deadlock_witness :
  waits_for chain_system 0%nat 1%nat ∧ waits_for chain_system 1%nat 2%nat ∧ (∃ u, rtc (waits_for chain_system) 0%nat u ∧ can_move chain_system u).
Proof.
  split; [exists (excl 1), (excl 1); vm_compute; by split_and!; [|left|]|].
  split; [exists (excl 2), (excl 2); vm_compute; by split_and!; [|left|]|].
  exact (proj2 (ranked_locks_no_deadlock demo_rank demo_key demo_rank_pos demo_key_bound chain_system chain_reach) 0%nat).
Defined.

Lemma enter_exact_witness :
  (enter true 20 0%nat (lock_ranks (thread_of chain_system 2%nat)) (stats chain_system)).2 = Panic ∧
  inversions (enter true 20 0%nat (lock_ranks (thread_of chain_system 2%nat)) (stats chain_system)).1 = 1.
Proof.
  destruct (enter_exact demo_rank demo_key demo_rank_pos demo_key_bound chain_system 2%nat (excl 1) chain_reach) as [H1 H2]; [vm_compute; reflexivity|].
  split; [apply H1; left; vm_compute; reflexivity|]. etransitivity; [exact H2|vm_compute; reflexivity].
Defined.

(** Two instances of one rank taken in opposite orders do deadlock: the key
    order that [ranked_lock_same!] leaves to its callers is needed. *)
Definition crossed_system : System :=
  match run (λ _, 260) boot [EnterSame 0 (excl 0); Grant 0; EnterSame 1 (excl 1); Grant 1; EnterSame 0 (excl 1); EnterSame 1 (excl 0)] with
  | Ret s => s | Panic => boot end.

Lemma crossed_instances_deadlock : waits_for crossed_system 0%nat 1%nat ∧ waits_for crossed_system 1%nat 0%nat.
Proof.
  split; [exists (excl 1), (excl 1)|exists (excl 0), (excl 0)]; vm_compute; by split_and!; [|left|].
Qed.

End LockOrder.
