(* ===== verification/Virtqueue.v ===== *)
(** * The virtio split queue (kernel/src/drivers/virtio/queue.rs)

    A table of descriptors threaded into a free list, the available ring the
    driver publishes chains in and the used ring the device reports them back
    in. Access through a raw pointer outside the table or a ring is [Panic].
    The device is the other party of the protocol: it takes published chains in
    order, reads them, and reports each back once. The cursor commands of the
    virtio-gpu driver ([send_cursor_command], gpu.rs), which keep one command
    slot per descriptor, are built on the queue. *)

From S2P Require Import Prelude.

Module Virtqueue.

Definition VIRTQ_DESC_F_NEXT : Z := 1.
Definition VIRTQ_DESC_F_WRITE : Z := 2.
Definition SENTINEL : Z := 0xFFFF.

Record VirtqDesc := mk_desc { addr : Z; len : Z; flags : Z; next : Z }.

(** The descriptor table, the index and slots of the two rings (the device
    writes [used_idx] and [used_ring]), and the driver's own cursors. *)
Record Virtqueue := mk_vq {
  size : Z;
  desc : list VirtqDesc;
  avail_idx : Z;
  avail_ring : list Z;
  used_idx : Z;
  used_ring : list (Z * Z);
  free_head : Z;
  num_free : Z;
  last_used_idx : Z
}.

(** Where the three regions of one allocation start, and its length. *)
Definition layout (sz : Z) : Z * Z * Z :=
  let desc_size := sz * 16 in
  let avail_size := 6 + 2 * sz in
  let avail_end := desc_size + avail_size in
  let used_offset := Z.land (avail_end + 0xFFF) (Z.lnot 0xFFF) in
  let used_size := 6 + 8 * sz in
  (desc_size, used_offset, used_offset + used_size).

(** [allocated] is whether the DMA allocator had [total] bytes. *)
Definition new (sz : Z) (allocated : bool) : outcome (result unit Virtqueue) :=
  if (0 <? sz) && (sz <=? 128) then
    if allocated then
      Ret (Ok (mk_vq sz
        ((λ i, mk_desc 0 0 0 (if (Z.of_nat i + 1 <? sz) then Z.of_nat i + 1 else SENTINEL)) <$> seq 0 (Z.to_nat sz))
        0 (replicate (Z.to_nat sz) 0) 0 (replicate (Z.to_nat sz) (0, 0)) 0 sz 0))
    else Ret (Err ())
  else Panic.

Definition set_desc (q : Virtqueue) (d : list VirtqDesc) (fh nf : Z) : Virtqueue :=
  mk_vq (size q) d (avail_idx q) (avail_ring q) (used_idx q) (used_ring q) fh nf (last_used_idx q).

(** One free descriptor per buffer, walking the free list from [cur]. *)
Fixpoint push_loop (bufs : list (Z * Z * Z)) (cur : Z) (q : Virtqueue) : outcome Virtqueue :=
  match bufs with
  | [] => Ret q
  | (a, l, f) :: rest =>
      match desc q !! Z.to_nat cur with
      | None => Panic
      | Some d =>
          let next_free := next d in
          let is_last := match rest with [] => true | _ => false end in
          let d' := mk_desc a l (if is_last then Z.land f 0xFFFE else Z.lor f VIRTQ_DESC_F_NEXT) next_free in
          let fh := if is_last then next_free else free_head q in
          if num_free q =? 0 then Panic
          else
            let q := set_desc q (<[Z.to_nat cur := d']> (desc q)) fh (num_free q - 1) in
            if is_last then Ret q else push_loop rest next_free q
      end
  end.

Definition write_avail (q : Virtqueue) (head : Z) : outcome Virtqueue :=
  let slot := Z.to_nat (avail_idx q mod size q) in
  if (slot <? length (avail_ring q))%nat then
    Ret (mk_vq (size q) (desc q) (wrap 16 (avail_idx q + 1)) (<[slot := head]> (avail_ring q)) (used_idx q) (used_ring q)
           (free_head q) (num_free q) (last_used_idx q))
  else Panic.

Definition push (q : Virtqueue) (bufs : list (Z * Z * Z)) : outcome (option Z * Virtqueue) :=
  if match bufs with [] => true | _ => false end || (num_free q <? wrap 16 (Z.of_nat (length bufs))) then Ret (None, q)
  else
    let head := free_head q in
    q ← push_loop bufs (free_head q) q;
    q ← write_avail q head;
    Ret (Some head, q).

Definition next_head (q : Virtqueue) : Z := free_head q.
Definition in_flight (q : Virtqueue) : Z := size q - num_free q.

Definition set_last_used (q : Virtqueue) (i : Z) : Virtqueue :=
  mk_vq (size q) (desc q) (avail_idx q) (avail_ring q) (used_idx q) (used_ring q) (free_head q) (num_free q) i.

(** The device writes the used index and ring whenever it likes. *)
Definition set_used (q : Virtqueue) (u : Z * list (Z * Z)) : Virtqueue :=
  mk_vq (size q) (desc q) (avail_idx q) (avail_ring q) u.1 u.2 (free_head q) (num_free q) (last_used_idx q).

(** What a round of the scan comes to: no new entry, an entry whose id is outside
    the table, which is dropped, or a completion. *)
Inductive round := Empty | Dropped | Found (id l : Z).

(** One round of the scan: the used index is read, then the next entry. *)
Definition poll_round (q : Virtqueue) : outcome (round * Virtqueue) :=
  if last_used_idx q =? used_idx q then Ret (Empty, q)
  else
    match used_ring q !! Z.to_nat (last_used_idx q mod size q) with
    | None => Panic
    | Some (id, l) =>
        let q := set_last_used q (wrap 16 (last_used_idx q + 1)) in
        if size q <=? id then Ret (Dropped, q) else Ret (Found id l, q)
    end.

(** The scan reads the used index again in every round: [dev] is what the device
    has written by each round. A scan that is still going after these rounds is
    [None]. *)
Fixpoint poll_used (dev : list (Z * list (Z * Z))) (q : Virtqueue) : outcome (option (option (Z * Z)) * Virtqueue) :=
  match dev with
  | [] => Ret (None, q)
  | u :: dev =>
      '(r, q) ← poll_round (set_used q u);
      match r with
      | Empty => Ret (Some None, q)
      | Dropped => poll_used dev q
      | Found id l => Ret (Some (Some (id, l)), q)
      end
  end.

Fixpoint reclaim_loop (fuel : nat) (idx : Z) (q : Virtqueue) : outcome Virtqueue :=
  match fuel with
  | O => Panic
  | S fuel =>
      match desc q !! Z.to_nat idx with
      | None => Panic
      | Some d =>
          let has_next := negb (Z.land (flags d) VIRTQ_DESC_F_NEXT =? 0) in
          let nx := next d in
          if num_free q =? U16_MAX then Panic
          else
            let q := set_desc q (<[Z.to_nat idx := mk_desc 0 0 0 (free_head q)]> (desc q)) idx (num_free q + 1) in
            if has_next then reclaim_loop fuel nx q else Ret q
      end
  end.

(** Each round clears one NEXT flag, so the table's length bounds the rounds. *)
Definition reclaim (q : Virtqueue) (head : Z) : outcome Virtqueue := reclaim_loop (S (length (desc q))) head q.

(** ** The protocol *)

(** What a device reads of a chain: each buffer, following NEXT. *)
Fixpoint device_read (fuel : nat) (d : list VirtqDesc) (idx : Z) : list (Z * Z * Z) :=
  match fuel with
  | O => []
  | S fuel =>
      match d !! Z.to_nat idx with
      | None => []
      | Some x =>
          (addr x, len x, Z.land (flags x) 0xFFFE) ::
          (if Z.land (flags x) VIRTQ_DESC_F_NEXT =? 0 then [] else device_read fuel d (next x))
      end
  end.

(** The queue with the device: its cursor in the available ring, the chains it
    is working on, the chains polled and not yet reclaimed; and what was sent,
    what the device read, what it reported and what was polled, in order. *)
Record System := mk_sys {
  queue : Virtqueue;
  seen : Z;
  taken : list Z;
  polled : list Z;
  sent : list (Z * list (Z * Z * Z));
  received : list (Z * list (Z * Z * Z));
  reported : list (Z * Z);
  collected : list (Z * Z)
}.

Definition drop_flag (b : Z * Z * Z) : Z * Z * Z := (b.1, Z.land b.2 0xFFFE).

Fixpoint remove_id (h : Z) (l : list Z) : list Z :=
  match l with [] => [] | x :: l => if decide (h = x) then l else x :: remove_id h l end.

Inductive event :=
| Push (bufs : list (Z * Z * Z))       (* the driver submits a chain *)
| Take                                 (* the device takes the next published chain *)
| Report (head l : Z)                  (* the device reports a chain it took *)
| Poll                                 (* a round of the driver's scan of the used ring *)
| Reclaim (head : Z).                  (* the driver reclaims a chain it polled *)

Definition device_take (s : System) : outcome System :=
  let q := queue s in
  if seen s =? avail_idx q then Ret s
  else
    match avail_ring q !! Z.to_nat (seen s mod size q) with
    | None => Panic
    | Some head =>
        Ret (mk_sys q (wrap 16 (seen s + 1)) (taken s ++ [head]) (polled s) (sent s)
               (received s ++ [(head, device_read (length (desc q)) (desc q) head)]) (reported s) (collected s))
    end.

Definition device_report (s : System) (head l : Z) : outcome System :=
  if decide (head ∈ taken s) then
    let q := queue s in
    let slot := Z.to_nat (used_idx q mod size q) in
    let q := mk_vq (size q) (desc q) (avail_idx q) (avail_ring q) (wrap 16 (used_idx q + 1)) (<[slot := (head, l)]> (used_ring q))
               (free_head q) (num_free q) (last_used_idx q) in
    Ret (mk_sys q (seen s) (remove_id head (taken s)) (polled s) (sent s) (received s) (reported s ++ [(head, l)]) (collected s))
  else Ret s.

Definition exec (s : System) (e : event) : outcome System :=
  match e with
  | Push bufs =>
      '(r, q) ← push (queue s) bufs;
      Ret (mk_sys q (seen s) (taken s) (polled s)
             (match r with Some head => sent s ++ [(head, drop_flag <$> bufs)] | None => sent s end) (received s) (reported s) (collected s))
  | Take => device_take s
  | Report head l => device_report s head l
  | Poll =>
      '(r, q) ← poll_round (queue s);
      Ret match r with
          | Found id l => mk_sys q (seen s) (taken s) (polled s ++ [id]) (sent s) (received s) (reported s) (collected s ++ [(id, l)])
          | _ => mk_sys q (seen s) (taken s) (polled s) (sent s) (received s) (reported s) (collected s)
          end
  | Reclaim head =>
      if decide (head ∈ polled s) then
        q ← reclaim (queue s) head;
        Ret (mk_sys q (seen s) (taken s) (remove_id head (polled s)) (sent s) (received s) (reported s) (collected s))
      else Ret s
  end.

Definition start (q : Virtqueue) : System := mk_sys q 0 [] [] [] [] [] [].

(** ** Cursor commands *)

Definition CURSOR_SCRATCH_BYTES : Z := 4096.
(** [size_of::<VirtioGpuUpdateCursor>()]. *)
Definition CURSOR_CMD_SIZE : Z := 56.

(** The cursor half of the driver: its queue and the commands in the scratch
    buffer by offset. *)
Record CursorQueue {Cmd : Type} := mk_cursor { cursor_queue : Virtqueue; cursor_scratch : gmap Z Cmd; scratch_phys : Z; dropped : Z }.
Arguments CursorQueue : clear implicits.
Arguments mk_cursor {Cmd}.

Section Cursor.
Context {Cmd : Type}.

Definition write_at (scratch : gmap Z Cmd) (off : Z) (cmd : Cmd) : outcome (gmap Z Cmd) :=
  if off + CURSOR_CMD_SIZE <=? CURSOR_SCRATCH_BYTES then Ret (<[off := cmd]> scratch) else Panic.

(** [while let Some((head, _)) = poll_used() { reclaim(head) }], round by round
    against what the device has written by each. *)
Fixpoint drain_used (dev : list (Z * list (Z * Z))) (q : Virtqueue) : outcome (option Virtqueue) :=
  match dev with
  | [] => Ret None
  | u :: dev =>
      '(r, q) ← poll_round (set_used q u);
      match r with
      | Empty => Ret (Some q)
      | Dropped => drain_used dev q
      | Found head _ => q ← reclaim q head; drain_used dev q
      end
  end.

(** [None] while the drain is still going. *)
Definition send_cursor_command (dev : list (Z * list (Z * Z))) (c : CursorQueue Cmd) (cmd : Cmd) : outcome (option (CursorQueue Cmd)) :=
  drained ← drain_used dev (cursor_queue c);
  match drained with
  | None => Ret None
  | Some q =>
      let slot := next_head q in
      let offset := slot * CURSOR_CMD_SIZE in
      scratch ← write_at (cursor_scratch c) offset cmd;
      '(r, q) ← push q [(scratch_phys c + offset, CURSOR_CMD_SIZE, 0)];
      Ret (Some (mk_cursor q scratch (scratch_phys c) (match r with Some _ => dropped c | None => dropped c + 1 end)))
  end.
End Cursor.

End Virtqueue.
