(* ===== verification/VirtqueueSafety.v ===== *)
(** * The virtio queue keeps its protocol

    The free list and the chains in flight share out the descriptor table, the
    device reads exactly the buffers submitted, in order, and every completion
    is collected once. *)

From S2P Require Import Prelude Virtqueue.

Module VirtqueueSafety.

Import Virtqueue.

(** ** Lists threaded through the table *)

Definition buf : Type := Z * Z * Z.

Fixpoint lseg (D : list VirtqDesc) (h : Z) (l : list nat) : Prop :=
  match l with
  | [] => h = SENTINEL
  | i :: l => h = Z.of_nat i ∧ ∃ d, D !! i = Some d ∧ lseg D (next d) l
  end.

(** The descriptors [l] carry the buffers, linked by NEXT. *)
Fixpoint chain (D : list VirtqDesc) (l : list nat) (bufs : list buf) : Prop :=
  match l, bufs with
  | [i], [(a, b, f)] => ∃ nx, D !! i = Some (mk_desc a b (Z.land f 0xFFFE) nx)
  | i :: ((j :: _) as l), (a, b, f) :: ((_ :: _) as bufs) => D !! i = Some (mk_desc a b (Z.lor f VIRTQ_DESC_F_NEXT) (Z.of_nat j)) ∧ chain D l bufs
  | _, _ => False
  end.

Lemma chain_cons D i j l a b f y bufs : chain D (i :: j :: l) ((a, b, f) :: y :: bufs) =
  (D !! i = Some (mk_desc a b (Z.lor f VIRTQ_DESC_F_NEXT) (Z.of_nat j)) ∧ chain D (j :: l) (y :: bufs)).
Proof. done. Qed.

Lemma lseg_agree D D' l : ∀ h, (∀ i, i ∈ l → D' !! i = D !! i) → lseg D h l → lseg D' h l.
Proof.
  induction l as [|i l IH]; intros h Ha; [done|]. intros (-> & d & Hd & Hl). split; [done|]. exists d.
  split; [by rewrite Ha by left|]. apply IH; [|done]. intros j Hj. apply Ha. by right.
Qed.

Lemma chain_agree D D' l : ∀ bufs, (∀ i, i ∈ l → D' !! i = D !! i) → chain D l bufs → chain D' l bufs.
Proof.
  induction l as [|i l IH]; intros bufs Ha; [done|]. destruct bufs as [|[[a b] f] bufs]; [by destruct l|].
  destruct l as [|j l], bufs as [|y bufs]; try done.
  - intros [nx Hd]. exists nx. by rewrite Ha by left.
  - intros [Hd Hc]. split; [by rewrite Ha by left|]. apply IH; [|done]. intros k Hk. apply Ha. by right.
Qed.

Lemma chain_ne D l bufs : chain D l bufs → l ≠ [].
Proof. by destruct l. Qed.

Lemma lseg_head D h i l : lseg D h (i :: l) → h = Z.of_nat i.
Proof. by intros [-> _]. Qed.

(** ** Flags *)

Lemma flag_clear f : Z.land (Z.land f 0xFFFE) VIRTQ_DESC_F_NEXT = 0.
Proof. rewrite <- Z.land_assoc. change (Z.land 0xFFFE VIRTQ_DESC_F_NEXT) with 0. apply Z.land_0_r. Qed.

Lemma flag_set f : Z.land (Z.lor f VIRTQ_DESC_F_NEXT) VIRTQ_DESC_F_NEXT ≠ 0.
Proof. rewrite Z.land_lor_distr_l. intros [_ ?]%Z.lor_eq_0_iff. done. Qed.

Lemma flag_read f : Z.land (Z.lor f VIRTQ_DESC_F_NEXT) 0xFFFE = Z.land f 0xFFFE.
Proof. rewrite Z.land_lor_distr_l. change (Z.land VIRTQ_DESC_F_NEXT 0xFFFE) with 0. apply Z.lor_0_r. Qed.

Lemma flag_read_clear f : Z.land (Z.land f 0xFFFE) 0xFFFE = Z.land f 0xFFFE.
Proof. by rewrite <- Z.land_assoc. Qed.

Lemma device_read_chain D l : ∀ bufs fuel, chain D l bufs → (length l <= fuel)%nat →
  ∀ i, head l = Some i → device_read fuel D (Z.of_nat i) = drop_flag <$> bufs.
Proof.
  induction l as [|i l IH]; intros bufs fuel Hc Hf k [= <-]. destruct bufs as [|[[a b] f] bufs]; [by destruct l|].
  destruct fuel as [|fuel]; [cbn in Hf; lia|]. cbn [device_read]. rewrite Nat2Z.id.
  destruct l as [|j l], bufs as [|y bufs]; try done; try rewrite chain_cons in Hc.
  - destruct Hc as [nx ->]. cbn [addr len flags next]. rewrite flag_clear, flag_read_clear. done.
  - destruct Hc as [-> Hc]. cbn [addr len flags next]. rewrite (proj2 (Z.eqb_neq _ _) (flag_set f)), flag_read.
    rewrite (IH _ fuel Hc); [done|cbn in *; lia|done].
Qed.

(** ** Submission and reclaim on the table *)

Lemma push_loop_spec bufs : ∀ q cur f1 f2, bufs ≠ [] → length f1 = length bufs → lseg (desc q) cur (f1 ++ f2) → NoDup (f1 ++ f2) →
  Z.of_nat (length f1) <= num_free q →
  ∃ D fh, push_loop bufs cur q = Ret (set_desc q D fh (num_free q - Z.of_nat (length f1))) ∧
    chain D f1 bufs ∧ lseg D fh f2 ∧ (∀ i, i ∉ f1 → D !! i = desc q !! i) ∧ length D = length (desc q).
Proof.
  induction bufs as [|[[a b] f] bufs IH]; intros q cur f1 f2 Hne Hlen Hl Hnd Hn; [done|].
  destruct f1 as [|i f1]; [done|]. cbn [app lseg] in Hl. destruct Hl as (-> & d & Hd & Hl). cbn [app] in Hnd. apply NoDup_cons in Hnd as [Hi Hnd].
  cbn [push_loop]. rewrite Nat2Z.id, Hd. rewrite (proj2 (Z.eqb_neq _ _)) by (cbn in Hn; lia).
  assert (Hil : (i < length (desc q))%nat) by (by eapply lookup_lt_Some).
  destruct bufs as [|y bufs].
  - destruct f1; [|done]. eexists _, _. split; [done|]. cbn [chain app]. split; [exists (next d); by rewrite list_lookup_insert_eq|].
    split; [|split; [|by rewrite length_insert]].
    + eapply lseg_agree; [|exact Hl]. intros j Hj. rewrite list_lookup_insert_ne; [done|]. intros ->. done.
    + intros j Hj. rewrite list_lookup_insert_ne; [done|]. intros ->. apply Hj. by left.
  - set (d' := mk_desc _ _ _ _). set (q1 := set_desc q _ _ _).
    destruct (IH q1 (next d) f1 f2) as (D & fh & Ep & Hc & Hl2 & Hag & HD); [done|cbn in *; lia| |done|cbn in *; lia|].
    { eapply lseg_agree; [|exact Hl]. intros j Hj. cbn. rewrite list_lookup_insert_ne; [done|]. intros ->. done. }
    exists D, fh. split; [rewrite Ep; unfold q1; cbn; f_equal; f_equal; lia|].
    destruct f1 as [|j f1]; [done|]. apply lseg_head in Hl.
    assert (Hi1 : i ∉ j :: f1) by (intros Hin; apply Hi; apply elem_of_app; by left).
    split; [|split; [done|split]].
    + split; [|done]. rewrite (Hag i Hi1). cbn. rewrite list_lookup_insert_eq by done. unfold d'. by rewrite Hl.
    + intros k Hk. rewrite Hag by (intros ?; apply Hk; by right). cbn. rewrite list_lookup_insert_ne; [done|]. intros ->. apply Hk. by left.
    + rewrite HD. cbn. by rewrite length_insert.
Qed.

Lemma reclaim_loop_spec l : ∀ bufs q fl fuel, chain (desc q) l bufs → lseg (desc q) (free_head q) fl → NoDup (l ++ fl) →
  (length l <= fuel)%nat → num_free q + Z.of_nat (length l) <= U16_MAX → ∀ i, head l = Some i →
  ∃ D fh, reclaim_loop fuel (Z.of_nat i) q = Ret (set_desc q D fh (num_free q + Z.of_nat (length l))) ∧
    lseg D fh (reverse l ++ fl) ∧ (∀ j, j ∉ l → D !! j = desc q !! j) ∧ length D = length (desc q).
Proof.
  induction l as [|i l IH]; intros bufs q fl fuel Hc Hl Hnd Hf Hn k [= <-]. destruct bufs as [|[[a b] f] bufs]; [by destruct l|].
  destruct fuel as [|fuel]; [cbn in Hf; lia|]. cbn [reclaim_loop]. rewrite Nat2Z.id. cbn [app] in Hnd. apply NoDup_cons in Hnd as [Hi Hnd].
  assert (Hd : ∃ d, desc q !! i = Some d) by (destruct l as [|j l], bufs; try done; [destruct Hc as [? ?]; eauto|destruct Hc as [? _]; eauto]).
  destruct Hd as [d Hd]. rewrite Hd. rewrite (proj2 (Z.eqb_neq _ _)) by (cbn in Hn; lia).
  assert (Hil : (i < length (desc q))%nat) by (by eapply lookup_lt_Some).
  set (q1 := set_desc q _ _ _).
  assert (Hl1 : lseg (desc q1) (free_head q1) (i :: fl)).
  { cbn. split; [done|]. eexists. split; [by apply list_lookup_insert_eq|]. cbn. eapply lseg_agree; [|exact Hl].
    intros j Hj. rewrite list_lookup_insert_ne; [done|]. intros ->. apply Hi. apply elem_of_app. by right. }
  destruct l as [|j l], bufs as [|y bufs]; try done; try rewrite chain_cons in Hc.
  - destruct Hc as [nx Hd']. rewrite Hd in Hd'. injection Hd' as ->. cbn [flags next]. rewrite flag_clear. cbn [negb Z.eqb].
    exists (desc q1), (free_head q1). split; [done|]. split; [exact Hl1|]. split; [|cbn; by rewrite length_insert].
    intros k Hk. cbn. rewrite list_lookup_insert_ne; [done|]. intros ->. apply Hk. by left.
  - destruct Hc as [Hd' Hc]. rewrite Hd in Hd'. injection Hd' as ->. cbn [flags next]. rewrite (proj2 (Z.eqb_neq _ _) (flag_set f)). cbn [negb].
    destruct (IH (y :: bufs) q1 (i :: fl) fuel) with (i := j) as (D & fh & Er & Hlf & Hag & HD); [|exact Hl1| |cbn in *; lia|cbn in *; lia|done|].
    { eapply chain_agree; [|exact Hc]. intros k Hk. cbn. rewrite list_lookup_insert_ne; [done|]. intros ->. apply Hi. apply elem_of_app. by left. }
    { rewrite <- Permutation_middle. by apply NoDup_cons. }
    exists D, fh. split; [rewrite Er; unfold q1; cbn; f_equal; f_equal; lia|]. split; [rewrite (reverse_cons (j :: l) i), <- app_assoc; exact Hlf|].
    split; [|rewrite HD; cbn; by rewrite length_insert].
    intros k Hk. rewrite Hag by (intros ?; apply Hk; by right). cbn. rewrite list_lookup_insert_ne; [done|]. intros ->. apply Hk. by left.
Qed.

(** ** Rings *)

(** Slots [lo .. lo + length l) of a ring hold [l]. *)
Definition ring_holds {A} (ring : list A) (sz lo : Z) (l : list A) : Prop :=
  ∀ k x, l !! k = Some x → ring !! Z.to_nat ((lo + Z.of_nat k) mod sz) = Some x.

(** Indices wrap at 65536, which a power-of-two ring divides. *)
Lemma wrap_slot sz i : 0 < sz → (sz | 65536) → wrap 16 i mod sz = i mod sz.
Proof. intros Hs Hd. unfold wrap. change (2 ^ 16) with 65536. by apply Z.mod_mod_divide. Qed.

Lemma wrap_eq a b : 0 <= a - b < 65536 → wrap 16 a = wrap 16 b ↔ a = b.
Proof. unfold wrap. change (2 ^ 16) with 65536. intros Hb. split; [|congruence]. intros E. pose proof (Z.div_mod a 65536). pose proof (Z.div_mod b 65536). nia. Qed.

Lemma wrap_succ i : wrap 16 (wrap 16 i + 1) = wrap 16 (i + 1).
Proof. unfold wrap. by rewrite Zplus_mod_idemp_l. Qed.

Lemma wrap_diff a b : 0 <= a - b < 65536 → wrap 16 (wrap 16 a - wrap 16 b) = a - b.
Proof. intros Hb. unfold wrap. rewrite <- Zminus_mod. by apply Z.mod_small. Qed.

Lemma slot_inj sz a b : 0 < sz → 0 <= a - b < sz → Z.to_nat (a mod sz) = Z.to_nat (b mod sz) → a = b.
Proof.
  intros Hs Hb E. pose proof (Z.mod_pos_bound a sz Hs). pose proof (Z.mod_pos_bound b sz Hs). apply Z2Nat.inj in E; [|lia|lia].
  pose proof (Z.div_mod a sz). pose proof (Z.div_mod b sz).
  assert (E2 : a - b = sz * (a / sz - b / sz)) by lia. assert (a / sz - b / sz = 0) by nia. lia.
Qed.

(** Writing the slot after the last one appends. *)
Lemma ring_push {A} (ring : list A) sz lo l x : 0 < sz → length ring = Z.to_nat sz → Z.of_nat (length l) < sz → ring_holds ring sz lo l →
  ring_holds (<[Z.to_nat ((lo + Z.of_nat (length l)) mod sz) := x]> ring) sz lo (l ++ [x]).
Proof.
  intros Hs Hr Hl Hh k y Hk. destruct (decide (k = length l)) as [->|Hne].
  - rewrite list_lookup_middle in Hk by done. injection Hk as <-. apply list_lookup_insert_eq.
    pose proof (Z.mod_pos_bound (lo + Z.of_nat (length l)) sz Hs). lia.
  - assert (Hlt : (k < length l)%nat) by (apply lookup_lt_Some in Hk; rewrite length_app in Hk; cbn in Hk; lia).
    rewrite lookup_app_l in Hk by done. rewrite list_lookup_insert_ne; [by apply Hh|]. intros E. apply slot_inj in E; lia.
Qed.

Lemma ring_pop {A} (ring : list A) sz lo x l : ring_holds ring sz lo (x :: l) → ring !! Z.to_nat (lo mod sz) = Some x ∧ ring_holds ring sz (lo + 1) l.
Proof.
  intros Hh. split; [specialize (Hh 0%nat x eq_refl); by rewrite Z.add_0_r in Hh|]. intros k y Hk. specialize (Hh (S k) y Hk).
  by replace (lo + 1 + Z.of_nat k) with (lo + Z.of_nat (S k)) by lia.
Qed.

(** ** The invariant *)

Definition link : Type := list nat * list buf.
Definition head_of (c : link) : Z := default 0 (Z.of_nat <$> head c.1).

Record Shape (q : Virtqueue) (fl : list nat) (C : list link) : Prop := {
  sh_size : 0 < size q <= 128;
  sh_pow2 : (size q | 65536);
  sh_desc : length (desc q) = Z.to_nat (size q);
  sh_avail : length (avail_ring q) = Z.to_nat (size q);
  sh_used : length (used_ring q) = Z.to_nat (size q);
  sh_free : lseg (desc q) (free_head q) fl;
  sh_num : num_free q = Z.of_nat (length fl);
  sh_chains : Forall (λ c, chain (desc q) c.1 c.2) C;
  sh_part : fl ++ mjoin (C.*1) ≡ₚ seq 0 (Z.to_nat (size q))
}.

Record Proto (s : System) (C : list link) (P : list (Z * list buf)) (U : list (Z * Z)) (a sn u lu : Z) : Prop := {
  p_heads : head_of <$> C ≡ₚ P.*1 ++ taken s ++ U.*1 ++ polled s;
  p_avail : avail_idx (queue s) = wrap 16 a;
  p_seen : seen s = wrap 16 sn;
  p_pending : a - sn = Z.of_nat (length P);
  p_ring : ring_holds (avail_ring (queue s)) (size (queue s)) sn (P.*1);
  p_used : used_idx (queue s) = wrap 16 u;
  p_last : last_used_idx (queue s) = wrap 16 lu;
  p_done : u - lu = Z.of_nat (length U);
  p_uring : ring_holds (used_ring (queue s)) (size (queue s)) lu U;
  p_sent : sent s = received s ++ P;
  p_bufs : Forall (λ p, ∃ c, c ∈ C ∧ head_of c = p.1 ∧ drop_flag <$> c.2 = p.2) P;
  p_reported : reported s = collected s ++ U;
  p_taken : (received s).*1 ≡ₚ taken s ++ (reported s).*1
}.

Definition Inv (s : System) : Prop := ∃ fl C P U a sn u lu, Shape (queue s) fl C ∧ Proto s C P U a sn u lu.

Lemma shape_nodup q fl C : Shape q fl C → NoDup (fl ++ mjoin (C.*1)).
Proof. intros H. rewrite (sh_part _ _ _ H). apply NoDup_seq. Qed.

(** There is at least one descriptor per chain. *)
Lemma shape_count q fl C : Shape q fl C → (length fl + length C <= Z.to_nat (size q))%nat.
Proof.
  intros H. pose proof (Permutation_length (sh_part _ _ _ H)) as E. rewrite length_seq, length_app in E.
  assert (length C <= length (mjoin (C.*1)))%nat; [|lia]. pose proof (sh_chains _ _ _ H) as Hc. clear -Hc.
  induction Hc as [|[l b] C Hc _ IH]; [done|]. cbn [fmap list_fmap fst]. rewrite mjoin_cons, length_app. apply chain_ne in Hc. destruct l; [done|cbn in *; lia].
Qed.

Lemma in_chain_bound q fl C c i : Shape q fl C → c ∈ C → i ∈ c.1 → (i < Z.to_nat (size q))%nat.
Proof.
  intros H Hc Hi. assert (Hin : i ∈ fl ++ mjoin (C.*1)).
  { apply elem_of_app. right. apply list_elem_of_join. exists c.1. split; [done|]. apply list_elem_of_fmap. by exists c. }
  rewrite (sh_part _ _ _ H) in Hin. apply elem_of_seq in Hin. lia.
Qed.

Lemma head_bound q fl C c : Shape q fl C → c ∈ C → 0 <= head_of c < size q ∧ ∃ i, head c.1 = Some i ∧ head_of c = Z.of_nat i.
Proof.
  intros H Hc. pose proof (proj1 (Forall_forall _ _) (sh_chains _ _ _ H) c Hc) as Hch. pose proof (sh_size _ _ _ H).
  cbn in Hch. destruct (c.1) as [|i l] eqn:E; [done|]. pose proof (in_chain_bound q fl C c i H Hc ltac:(rewrite E; by left)).
  unfold head_of. rewrite E. cbn. split; [lia|]. by exists i.
Qed.

(** Chains and the free list share no descriptor. *)
Lemma chain_apart q fl C c : Shape q fl (c :: C) → NoDup (c.1 ++ fl) ∧ (∀ i, i ∈ c.1 → i ∉ fl) ∧ ∀ d i, d ∈ C → i ∈ d.1 → i ∉ c.1.
Proof.
  intros H%shape_nodup. cbn [fmap list_fmap] in H. rewrite mjoin_cons in H. rewrite Permutation_app_comm in H. rewrite <- app_assoc in H.
  apply NoDup_app in H as (H1 & H2 & H3). apply NoDup_app in H3 as (H3 & H4 & H5). split_and!.
  - apply NoDup_app. split; [done|]. split; [|done]. intros i Hi Hf. apply (H2 i Hi). apply elem_of_app. by right.
  - intros i Hi Hf. apply (H2 i Hi). apply elem_of_app. by right.
  - intros d i Hd Hi Hc. apply (H2 i Hc). apply elem_of_app. left. apply list_elem_of_join. exists d.1. split; [done|]. apply list_elem_of_fmap. by exists d.
Qed.

(** ** The steps *)

Lemma vq_push_spec q fl C bufs : Shape q fl C → Z.of_nat (length bufs) < 65536 →
  (push q bufs = Ret (None, q) ∧ (bufs = [] ∨ num_free q < Z.of_nat (length bufs))) ∨
  ∃ f1 f2 D fh, (0 < length bufs)%nat ∧ Z.of_nat (length bufs) <= num_free q ∧ head_of (f1, bufs) = free_head q ∧
    let q' := mk_vq (size q) D (wrap 16 (avail_idx q + 1)) (<[Z.to_nat (avail_idx q mod size q) := free_head q]> (avail_ring q)) (used_idx q) (used_ring q) fh
                (num_free q - Z.of_nat (length bufs)) (last_used_idx q) in
    push q bufs = Ret (Some (free_head q), q') ∧ Shape q' f2 ((f1, bufs) :: C).
Proof.
  intros H Hb. unfold push. replace (wrap 16 (Z.of_nat (length bufs))) with (Z.of_nat (length bufs)) by (symmetry; apply Z.mod_small; lia).
  destruct bufs as [|b bufs]; [left; split; [done|by left]|]. cbn [orb].
  destruct (Z.ltb_spec (num_free q) (Z.of_nat (length (b :: bufs)))) as [|Hle]; [left; split; [done|by right]|]. right.
  rewrite (sh_num _ _ _ H) in Hle. set (f1 := take (length (b :: bufs)) fl). set (f2 := drop (length (b :: bufs)) fl).
  assert (Hfl : fl = f1 ++ f2) by (symmetry; apply take_drop). assert (Hf1 : length f1 = length (b :: bufs)) by (apply length_take_le; lia).
  pose proof (shape_nodup _ _ _ H) as Hnd. pose proof (sh_free _ _ _ H) as Hl. rewrite Hfl in Hnd, Hl. pose proof Hnd as Hnd0. apply NoDup_app in Hnd0 as (Hnd1 & Hsep & _).
  destruct (push_loop_spec (b :: bufs) q (free_head q) f1 f2) as (D & fh & Ep & Hc & Hl2 & Hag & HD); [done|done|done|done|rewrite (sh_num _ _ _ H); lia|].
  assert (Hhead : head_of (f1, b :: bufs) = free_head q).
  { unfold head_of. destruct f1 as [|i f1]; [done|]. cbn in *. by destruct Hl as [-> _]. }
  exists f1, f2, D, fh. split; [cbn; lia|]. split; [rewrite (sh_num _ _ _ H); lia|]. split; [done|]. cbn zeta. rewrite Ep. cbn [mbind outcome_bind]. unfold write_avail.
  cbn [set_desc avail_idx size avail_ring]. rewrite (proj2 (Nat.ltb_lt _ _)).
  2:{ rewrite (sh_avail _ _ _ H). pose proof (sh_size _ _ _ H). pose proof (Z.mod_pos_bound (avail_idx q) (size q)). lia. }
  split; [rewrite Hf1; done|]. destruct H as [Hs Hp Hd Ha Hu Hfr Hn Hch Hpt]. split; cbn [size desc avail_idx avail_ring used_idx used_ring free_head num_free last_used_idx]; try done.
  - by rewrite HD.
  - by rewrite length_insert.
  - unfold f2. rewrite Hn, length_drop. lia.
  - constructor; [done|]. rewrite Forall_forall in Hch |- *. intros c Hcin. eapply chain_agree; [|by apply Hch]. intros i Hi. apply Hag. intros Hi1.
    apply (Hsep i); [apply elem_of_app; by left|]. apply list_elem_of_join. exists c.1. split; [done|]. apply list_elem_of_fmap. by exists c.
  - rewrite <- Hpt, Hfl. cbn [fmap list_fmap fst]. rewrite mjoin_cons. solve_Permutation.
Qed.

Lemma push_inv s bufs : Inv s → Z.of_nat (length bufs) < 65536 → ∃ s', exec s (Push bufs) = Ret s' ∧ Inv s'.
Proof.
  intros (fl & C & P & U & a & sn & u & lu & Hsh & Hpr) Hb. cbn [exec]. pose proof (shape_count _ _ _ Hsh) as Hcount.
  destruct (vq_push_spec _ _ _ bufs Hsh Hb) as [[-> _]|(f1 & f2 & D & fh & Hne & Hle & Hhead & Ep & Hsh')]; cbn [mbind outcome_bind].
  - eexists. split; [done|]. exists fl, C, P, U, a, sn, u, lu. split; [done|]. by destruct Hpr.
  - rewrite Ep. cbn [mbind outcome_bind]. eexists. split; [done|].
    exists f2, ((f1, bufs) :: C), (P ++ [(free_head (queue s), drop_flag <$> bufs)]), U, (a + 1), sn, u, lu. split; [exact Hsh'|].
    destruct Hpr as [Hh Ha Hse Hpd Hr Hus Hla Hdn Hur Hst Hbf Hrep Htk]. pose proof (sh_size _ _ _ Hsh). pose proof (sh_num _ _ _ Hsh) as Hnum.
    pose proof (Permutation_length Hh) as Hlen. rewrite !length_app, !length_fmap in Hlen.
    split; cbn [queue seen taken polled sent received reported collected size avail_idx avail_ring used_idx used_ring last_used_idx]; try done.
    + cbn [fmap list_fmap]. rewrite Hhead, Hh, fmap_app. cbn. solve_Permutation.
    + by rewrite Ha, wrap_succ.
    + rewrite length_app. cbn. lia.
    + rewrite fmap_app. cbn. rewrite Ha, wrap_slot by (lia || apply Hsh). replace a with (sn + Z.of_nat (length (P.*1))) by (rewrite length_fmap; lia).
      apply ring_push; [lia|by apply Hsh| |done]. rewrite length_fmap. lia.
    + by rewrite Hst, <- app_assoc.
    + apply Forall_app. split; [|apply Forall_singleton; exists (f1, bufs); split; [by left|done]].
      eapply Forall_impl; [exact Hbf|]. intros p (c & Hc & ?). exists c. split; [by right|done].
Qed.

Lemma take_inv s : Inv s → ∃ s', exec s Take = Ret s' ∧ Inv s'.
Proof.
  intros (fl & C & P & U & a & sn & u & lu & Hsh & Hpr). cbn [exec]. unfold device_take. pose proof (shape_count _ _ _ Hsh) as Hcount.
  pose proof Hpr as [Hh Ha Hse Hpd Hr Hus Hla Hdn Hur Hst Hbf Hrep Htk]. pose proof (sh_size _ _ _ Hsh).
  pose proof (Permutation_length Hh) as Hlen. rewrite !length_app, !length_fmap in Hlen. rewrite Ha, Hse.
  destruct (Z.eqb_spec (wrap 16 sn) (wrap 16 a)) as [E|E]; [eexists; split; [done|]; by exists fl, C, P, U, a, sn, u, lu|].
  destruct P as [|[h bs] P]; [exfalso; apply E; f_equal; cbn in Hpd; lia|]. cbn [fmap list_fmap fst] in Hr. apply ring_pop in Hr as [Hslot Hr].
  rewrite wrap_slot by (lia || apply Hsh). rewrite Hslot. eexists. split; [done|]. exists fl, C, P, U, a, (sn + 1), u, lu. split; [done|].
  apply Forall_cons in Hbf as [(c & Hc & Hch & Hcb) Hbf]. cbn in Hch, Hcb. destruct (head_bound _ _ _ _ Hsh Hc) as [_ (i & Hi & Ei)].
  split; cbn [queue seen taken polled sent received reported collected]; try done.
  - rewrite Hh. cbn. solve_Permutation.
  - by rewrite wrap_succ.
  - cbn in Hpd. lia.
  - rewrite <- Hch, Ei, (device_read_chain _ c.1 c.2); [|by apply (proj1 (Forall_forall _ _) (sh_chains _ _ _ Hsh))| |done].
    + by rewrite Hcb, <- Ei, Hch, Hst, <- app_assoc.
    + transitivity (length (mjoin (C.*1))).
      * apply elem_of_Permutation in Hc as [C' ->]. cbn. rewrite length_app. lia.
      * pose proof (Permutation_length (sh_part _ _ _ Hsh)) as El. rewrite length_app, length_seq in El. rewrite (sh_desc _ _ _ Hsh). lia.
  - rewrite fmap_app, Htk. cbn. solve_Permutation.
Qed.

Lemma remove_id_perm h l : h ∈ l → l ≡ₚ h :: remove_id h l.
Proof.
  induction l as [|x l IH]; [by intros ?%not_elem_of_nil|]. cbn. case_decide as E; [by subst|].
  intros [?|Hx]%elem_of_cons; [done|]. rewrite (IH Hx) at 1. apply Permutation_swap.
Qed.

Lemma report_inv s h l : Inv s → ∃ s', exec s (Report h l) = Ret s' ∧ Inv s'.
Proof.
  intros (fl & C & P & U & a & sn & u & lu & Hsh & Hpr). cbn [exec]. unfold device_report. case_decide as Hin.
  2:{ eexists; split; [done|]; by exists fl, C, P, U, a, sn, u, lu. }
  eexists. split; [done|]. exists fl, C, P, (U ++ [(h, l)]), a, sn, (u + 1), lu. pose proof (shape_count _ _ _ Hsh) as Hcount.
  pose proof Hpr as [Hh Ha Hse Hpd Hr Hus Hla Hdn Hur Hst Hbf Hrep Htk]. pose proof (sh_size _ _ _ Hsh). pose proof (remove_id_perm _ _ Hin) as Hrm.
  pose proof (Permutation_length Hh) as Hlen. rewrite Hrm in Hlen. rewrite !length_app, !length_fmap in Hlen. cbn in Hlen. split.
  - destruct Hsh. split; cbn [queue size desc avail_idx avail_ring used_idx used_ring free_head num_free last_used_idx]; try done. by rewrite length_insert.
  - split; cbn [queue seen taken polled sent received reported collected size avail_idx avail_ring used_idx used_ring last_used_idx]; try done.
    + rewrite Hh, Hrm at 1. rewrite fmap_app. cbn. solve_Permutation.
    + by rewrite Hus, wrap_succ.
    + rewrite length_app. cbn. lia.
    + rewrite Hus, wrap_slot by (lia || apply Hsh). replace u with (lu + Z.of_nat (length U)) by lia. apply ring_push; [lia|by apply Hsh|lia|done].
    + by rewrite Hrep, <- app_assoc.
    + rewrite Htk, Hrm at 1. rewrite fmap_app. cbn. solve_Permutation.
Qed.

(** A round of the driver's scan: nothing is new, or the oldest report is
    collected; none is dropped. *)
Lemma poll_round_spec s fl C P U a sn u lu : Shape (queue s) fl C → Proto s C P U a sn u lu →
  match U with
  | [] => poll_round (queue s) = Ret (Empty, queue s)
  | (h, l) :: _ => poll_round (queue s) = Ret (Found h l, set_last_used (queue s) (wrap 16 (lu + 1)))
  end.
Proof.
  intros Hsh Hpr. pose proof (shape_count _ _ _ Hsh) as Hcount. pose proof (sh_size _ _ _ Hsh).
  destruct Hpr as [Hh Ha Hse Hpd Hr Hus Hla Hdn Hur Hst Hbf Hrep Htk]. pose proof (Permutation_length Hh) as Hlen. rewrite !length_app, !length_fmap in Hlen.
  unfold poll_round. rewrite Hus, Hla. destruct U as [|[h l] U].
  - assert (u = lu) as -> by (cbn in Hdn; lia). by rewrite Z.eqb_refl.
  - cbn [length] in Hdn, Hlen. destruct (Z.eqb_spec (wrap 16 lu) (wrap 16 u)) as [E|_]; [pose proof (proj1 (wrap_eq u lu ltac:(lia)) (eq_sym E)); lia|].
    apply ring_pop in Hur as [Hslot _]. rewrite wrap_slot by (lia || apply Hsh). rewrite Hslot.
    assert (∃ c, c ∈ C ∧ h = head_of c) as (c & Hc & ->).
    { assert (Hin : h ∈ head_of <$> C) by (rewrite Hh; cbn; rewrite !elem_of_app; right; right; left). apply list_elem_of_fmap in Hin as (c & -> & Hc). by exists c. }
    destruct (head_bound _ _ _ _ Hsh Hc) as [Hb _]. cbn [set_last_used size]. rewrite (proj2 (Z.leb_gt _ _)) by lia. by rewrite wrap_succ.
Qed.

Lemma poll_inv s : Inv s → ∃ s', exec s Poll = Ret s' ∧ Inv s'.
Proof.
  intros (fl & C & P & U & a & sn & u & lu & Hsh & Hpr). cbn [exec]. pose proof (poll_round_spec _ _ _ _ _ _ _ _ _ Hsh Hpr) as Hp.
  destruct U as [|[h l] U]; rewrite Hp; cbn [mbind outcome_bind]; (eexists; split; [done|]).
  - exists fl, C, P, [], a, sn, u, lu. split; [done|]. by destruct Hpr.
  - exists fl, C, P, U, a, sn, u, (lu + 1). split; [by destruct Hsh|]. destruct Hpr as [Hh Ha Hse Hpd Hr Hus Hla Hdn Hur Hst Hbf Hrep Htk]. apply ring_pop in Hur as [_ Hur].
    split; cbn [queue seen taken polled sent received reported collected set_last_used size avail_idx avail_ring used_idx used_ring last_used_idx]; try done.
    + rewrite Hh. cbn. solve_Permutation.
    + cbn [length] in Hdn. lia.
    + by rewrite Hrep, <- app_assoc.
Qed.

Lemma shape_perm q fl C C' : C ≡ₚ C' → Shape q fl C → Shape q fl C'.
Proof. intros E H. destruct H. split; try done; by rewrite <- E. Qed.

Lemma heads_nodup q fl C : Shape q fl C → NoDup (head_of <$> C).
Proof.
  intros H. pose proof (shape_nodup _ _ _ H) as Hnd. apply NoDup_app in Hnd as (_ & _ & Hnd). pose proof (sh_chains _ _ _ H) as Hc. clear H.
  induction Hc as [|c C Hc HC IH]; [constructor|]. cbn [fmap list_fmap] in *. rewrite mjoin_cons in Hnd. apply NoDup_app in Hnd as (_ & Hsep & Hnd).
  apply NoDup_cons. split; [|by apply IH]. intros (d & Ed & Hd)%list_elem_of_fmap. rewrite Forall_forall in HC. specialize (HC d Hd).
  unfold head_of in Ed. destruct (c.1) as [|i l] eqn:E1; [done|]. destruct (d.1) as [|j k] eqn:E2; [done|]. cbn in Ed. apply Nat2Z.inj in Ed as <-.
  apply (Hsep i); [by left|]. apply list_elem_of_join. exists d.1. rewrite E2. split; [by left|]. rewrite <- E2. apply list_elem_of_fmap. by exists d.
Qed.

Lemma reclaim_shape q fl c C : Shape q fl (c :: C) →
  ∃ D fh, reclaim q (head_of c) = Ret (set_desc q D fh (num_free q + Z.of_nat (length c.1))) ∧
    Shape (set_desc q D fh (num_free q + Z.of_nat (length c.1))) (reverse c.1 ++ fl) C.
Proof.
  intros H. destruct (head_bound q fl (c :: C) c H) as [_ (i & Hi & ->)]; [by left|]. destruct (chain_apart _ _ _ _ H) as (Hnd & Hfl & Hother).
  pose proof (Forall_inv (sh_chains _ _ _ H)) as Hc. cbn in Hc. pose proof (Permutation_length (sh_part _ _ _ H)) as Hlen. cbn [fmap list_fmap] in Hlen. rewrite mjoin_cons, !length_app, length_seq in Hlen.
  pose proof (sh_size _ _ _ H) as Hsz. pose proof (sh_num _ _ _ H) as Hnum. unfold reclaim.
  destruct (reclaim_loop_spec c.1 c.2 q fl (S (length (desc q))) Hc (sh_free _ _ _ H) Hnd) with (i := i) as (D & fh & Er & Hl & Hag & HD).
  { rewrite (sh_desc _ _ _ H). lia. } { rewrite Hnum. unfold U16_MAX. lia. } { done. }
  exists D, fh. split; [done|]. destruct H as [Hs Hp Hd Ha Hu Hfr Hn Hch Hpt]. split; cbn [set_desc size desc avail_ring used_ring free_head num_free]; try done.
  - by rewrite HD.
  - rewrite length_app, length_reverse. lia.
  - apply Forall_cons in Hch as [_ Hch]. rewrite Forall_forall in Hch |- *. intros d Hd'. eapply chain_agree; [|by apply Hch].
    intros j Hj. apply Hag. by eapply Hother.
  - rewrite <- Hpt. cbn [fmap list_fmap]. rewrite mjoin_cons, reverse_Permutation. solve_Permutation.
Qed.

Lemma reclaim_inv s h : Inv s → ∃ s', exec s (Reclaim h) = Ret s' ∧ Inv s'.
Proof.
  intros (fl & C & P & U & a & sn & u & lu & Hsh & Hpr). cbn [exec]. case_decide as Hin.
  2:{ eexists; split; [done|]; by exists fl, C, P, U, a, sn, u, lu. }
  pose proof Hpr as [Hh Ha Hse Hpd Hr Hus Hla Hdn Hur Hst Hbf Hrep Htk]. pose proof (remove_id_perm _ _ Hin) as Hrm. pose proof (heads_nodup _ _ _ Hsh) as Hnd.
  assert (∃ c, c ∈ C ∧ h = head_of c) as (c & Hc & ->).
  { assert (Hi : h ∈ head_of <$> C) by (rewrite Hh, !elem_of_app; auto). apply list_elem_of_fmap in Hi as (c & -> & Hc). by exists c. }
  apply elem_of_Permutation in Hc as [C' HC]. apply (shape_perm _ _ _ _ HC) in Hsh. destruct (reclaim_shape _ _ _ _ Hsh) as (D & fh & -> & Hsh').
  cbn [mbind outcome_bind]. eexists. split; [done|]. exists (reverse c.1 ++ fl), C', P, U, a, sn, u, lu. split; [exact Hsh'|].
  split; cbn [queue seen taken polled sent received reported collected set_desc size avail_idx avail_ring used_idx used_ring last_used_idx]; try done.
  - rewrite HC, Hrm in Hh. cbn in Hh. apply (Permutation_cons_inv (a := head_of c)). rewrite Hh. solve_Permutation.
  - rewrite Forall_forall in Hbf |- *. intros p Hp. destruct (Hbf p Hp) as (d & Hd & Ed & ?). exists d. split; [|done].
    rewrite HC in Hd. apply elem_of_cons in Hd as [->|?]; [|done]. exfalso. rewrite Hh in Hnd. apply NoDup_app in Hnd as (_ & Hsep & _).
    apply (Hsep p.1); [apply list_elem_of_fmap; by exists p|]. rewrite <- Ed, !elem_of_app. auto.
Qed.

Lemma fresh_lseg sz n : ∀ i, (i + n = sz)%nat →
  lseg ((λ i, mk_desc 0 0 0 (if Z.of_nat i + 1 <? Z.of_nat sz then Z.of_nat i + 1 else SENTINEL)) <$> seq 0 sz) (if (i <? sz)%nat then Z.of_nat i else SENTINEL) (seq i n).
Proof.
  induction n as [|n IH]; intros i Hi; cbn [seq lseg]; [by rewrite (proj2 (Nat.ltb_ge _ _)) by lia|].
  rewrite (proj2 (Nat.ltb_lt _ _)) by lia. split; [done|]. eexists. split; [rewrite list_lookup_fmap, lookup_seq_lt by lia; done|]. cbn [next].
  replace (if Z.of_nat (0 + i) + 1 <? Z.of_nat sz then Z.of_nat (0 + i) + 1 else SENTINEL) with (if (S i <? sz)%nat then Z.of_nat (S i) else SENTINEL); [apply IH; lia|].
  cbn [plus]. destruct (Nat.ltb_spec (S i) sz), (Z.ltb_spec (Z.of_nat i + 1) (Z.of_nat sz)); lia.
Qed.

Lemma new_inv sz q : (sz | 65536) → new sz true = Ret (Ok q) → Inv (start q).
Proof.
  intros Hdiv. unfold new. destruct (_ && _) eqn:E; [|done]. to_lia. intros [= <-].
  exists (seq 0 (Z.to_nat sz)), [], [], [], 0, 0, 0, 0. split.
  - split; cbn [start queue size desc avail_ring used_ring free_head num_free]; rewrite ?length_fmap, ?length_seq, ?length_replicate; try done; try lia.
    + pose proof (fresh_lseg (Z.to_nat sz) (Z.to_nat sz) 0 eq_refl) as Hl. rewrite (proj2 (Nat.ltb_lt _ _)) in Hl by lia. rewrite Z2Nat.id in Hl by lia. exact Hl.
    + cbn. by rewrite app_nil_r.
  - split; cbn; try done; by apply Forall_nil.
Qed.

(** ** The theorems *)

Inductive reach (q : Virtqueue) : System → Prop :=
| reach_start : reach q (start q)
| reach_step s e s' : reach q s → match e with Push bufs => Z.of_nat (length bufs) < 65536 | _ => True end → exec s e = Ret s' → reach q s'.

Lemma vq_exec_inv s e : Inv s → match e with Push bufs => Z.of_nat (length bufs) < 65536 | _ => True end → ∃ s', exec s e = Ret s' ∧ Inv s'.
Proof. intros Hi He. destruct e; [by apply push_inv|by apply take_inv|by apply report_inv|by apply poll_inv|by apply reclaim_inv]. Qed.

Lemma vq_reach_inv sz q s : (sz | 65536) → new sz true = Ret (Ok q) → reach q s → Inv s.
Proof.
  intros Hd Hq. induction 1 as [|s e s' _ IH He Hx]; [by eapply new_inv|]. destruct (vq_exec_inv s e IH He) as (s1 & E & Hi). congruence.
Qed.

(** C10 The virtio queue carries every request once, in order and unchanged, and
    gets every descriptor back. On a queue whose size is a power of two of at most
    128, in every interleaving of the driver's calls, with requests of fewer than
    65536 buffers, and of a device that follows the protocol (it takes published
    chains in order and reports each chain it took once, in any order): what the
    device has read is a prefix, in order, of what was submitted, buffer for
    buffer, and the completions collected are a prefix of those reported; every
    submission is in exactly one place, published and not taken ([P]), at the
    device, reported and not collected ([U]), or collected; the descriptors are
    shared out between the free list and the chains that are published, at the
    device, reported, or collected and not reclaimed, one chain for each; a poll
    returns the oldest report there is, in its first round; a submission is
    accepted exactly when it is not empty and fits the free descriptors; no step
    panics or leaves the table or a ring; and once nothing is outstanding, every
    submission has been collected once and every descriptor is free again. *)
Theorem virtqueue_correct sz q s : (sz | 65536) → new sz true = Ret (Ok q) → reach q s →
  ∃ P U fl C,
  sent s = received s ++ P ∧ reported s = collected s ++ U ∧
  (sent s).*1 ≡ₚ P.*1 ++ taken s ++ U.*1 ++ (collected s).*1 ∧
  (lseg (desc (queue s)) (free_head (queue s)) fl ∧ num_free (queue s) = Z.of_nat (length fl) ∧
     Forall (λ c, chain (desc (queue s)) c.1 c.2) C ∧ fl ++ mjoin (C.*1) ≡ₚ seq 0 (Z.to_nat (size (queue s))) ∧
     head_of <$> C ≡ₚ P.*1 ++ taken s ++ U.*1 ++ polled s) ∧
  (∃ q', poll_round (queue s) = Ret (match U with [] => Empty | (h, l) :: _ => Found h l end, q')) ∧
  (∀ bufs, Z.of_nat (length bufs) < 65536 → ∃ r q', push (queue s) bufs = Ret (r, q') ∧
     (is_Some r ↔ 0 < Z.of_nat (length bufs) <= num_free (queue s))) ∧
  (∀ e, match e with Push bufs => Z.of_nat (length bufs) < 65536 | _ => True end → ∃ s', exec s e = Ret s') ∧
  (P = [] → taken s = [] → U = [] → polled s = [] → (collected s).*1 ≡ₚ (sent s).*1 ∧ num_free (queue s) = size (queue s)).
Proof.
  intros Hd Hq Hr%(vq_reach_inv sz); [|done|done]. pose proof Hr as (fl & C & P & U & a & sn & u & lu & Hsh & Hpr). exists P, U, fl, C.
  assert (Hacc : (sent s).*1 ≡ₚ P.*1 ++ taken s ++ U.*1 ++ (collected s).*1).
  { rewrite (p_sent _ _ _ _ _ _ _ _ Hpr), fmap_app, (p_taken _ _ _ _ _ _ _ _ Hpr), (p_reported _ _ _ _ _ _ _ _ Hpr), fmap_app. solve_Permutation. }
  split_and!; [apply Hpr|apply Hpr|done|apply Hsh|apply Hsh|apply Hsh|apply Hsh|apply Hpr|..].
  - pose proof (poll_round_spec _ _ _ _ _ _ _ _ _ Hsh Hpr) as Hp. destruct U as [|[h l] U]; by eexists.
  - intros bufs Hb. destruct (vq_push_spec _ _ _ bufs Hsh Hb) as [[-> Hno]|(f1 & f2 & D & fh & Hne & Hle & _ & -> & _)].
    + exists None. eexists. split; [done|]. split; [by intros [? ?]|]. destruct Hno as [->|?]; cbn; lia.
    + exists (Some (free_head (queue s))). eexists. split; [done|]. split; [lia|done].
  - intros e He. destruct (vq_exec_inv s e Hr He) as (s' & -> & _). by exists s'.
  - intros -> Ht -> Hp. rewrite Hacc, Ht. split; [done|]. pose proof (p_heads _ _ _ _ _ _ _ _ Hpr) as Hh. rewrite Ht, Hp in Hh. cbn in Hh.
    symmetry in Hh. apply Permutation_nil, fmap_nil_inv in Hh as ->. pose proof (Permutation_length (sh_part _ _ _ Hsh)) as El. pose proof (sh_size _ _ _ Hsh).
    rewrite length_app, length_seq in El. cbn in El. rewrite (sh_num _ _ _ Hsh). lia.
Qed.

(** ** Any device *)

Definition has_next (d : VirtqDesc) : bool := negb (Z.land (flags d) VIRTQ_DESC_F_NEXT =? 0).
Definition linked (D : list VirtqDesc) : nat := length (filter (λ d, has_next d = true) D).

(** Links of chained descriptors stay inside the table. *)
Definition links_inside (D : list VirtqDesc) : Prop :=
  ∀ i d, D !! i = Some d → has_next d = true → 0 <= next d < Z.of_nat (length D).

Lemma linked_insert D i d d' : D !! i = Some d → has_next d' = false →
  (linked (<[i := d']> D) + (if has_next d then 1 else 0) = linked D)%nat.
Proof.
  revert i. induction D as [|x D IH]; intros [|i] Hi Hd; cbn in Hi; try done.
  - injection Hi as ->. unfold linked. cbn. rewrite Hd. rewrite decide_False by done. destruct (has_next d) eqn:E; [rewrite decide_True by done; cbn; lia|rewrite decide_False by congruence; lia].
  - specialize (IH i Hi Hd). unfold linked in *. change (<[S i := d']> (x :: D)) with (x :: <[i := d']> D). rewrite !filter_cons. case_decide; cbn [length]; lia.
Qed.

(** [n] links can be followed from [c] without leaving the table. *)
Fixpoint walk (D : list VirtqDesc) (n : nat) (c : Z) : Prop :=
  match n with
  | O => True
  | S n => 0 <= c ∧ ∃ d, D !! Z.to_nat c = Some d ∧ walk D n (next d)
  end.

Lemma walk_le D n : ∀ m c, (m <= n)%nat → walk D n c → walk D m c.
Proof. induction n as [|n IH]; intros [|m] c Hm; cbn; try done; [lia|]. intros (Hc & d & Hd & Hw). split; [done|]. exists d. split; [done|]. apply IH; [lia|done]. Qed.

Lemma walk_next D D' n : next <$> D' = next <$> D → ∀ c, walk D n c → walk D' n c.
Proof.
  intros E. induction n as [|n IH]; intros c; [done|]. intros (Hc & d & Hd & Hw). split; [done|].
  assert (Hn : (next <$> D') !! Z.to_nat c = Some (next d)) by (by rewrite E, list_lookup_fmap, Hd).
  rewrite list_lookup_fmap in Hn. destruct (D' !! Z.to_nat c) as [d'|]; [|done]. injection Hn as En. exists d'. rewrite En. split; [done|by apply IH].
Qed.

(** Putting [x] before the head of the free list gives one more free step, even
    when [x] is on the list already: the list then runs in a circle. *)
Lemma walk_prepend D x d fh n : 0 <= x → D !! Z.to_nat x = Some d → walk D n fh → walk (<[Z.to_nat x := mk_desc 0 0 0 fh]> D) (S n) x.
Proof.
  intros Hx Hd Hw. set (D' := <[_ := _]> D). assert (Hx' : D' !! Z.to_nat x = Some (mk_desc 0 0 0 fh)) by (apply list_lookup_insert_eq; by eapply lookup_lt_Some).
  assert (Hstep : ∀ k, (∀ j, (j <= k)%nat → walk D' j x) → ∀ c, walk D k c → walk D' k c).
  { induction k as [|k IH]; intros Hj c; [done|]. intros (Hc & e & He & Hk). destruct (decide (Z.to_nat c = Z.to_nat x)) as [Ec|Ec].
    - assert (c = x) as -> by lia. by apply Hj.
    - split; [done|]. exists e. split; [unfold D'; by rewrite list_lookup_insert_ne|]. apply IH; [|done]. intros j Hjk. apply Hj. lia. }
  assert (Hall : ∀ k, (k <= S n)%nat → ∀ j, (j <= k)%nat → walk D' j x).
  { induction k as [|k IH]; intros Hk j Hj; [by destruct j; [|lia]|]. destruct (decide (j = S k)) as [->|]; [|apply IH; lia].
    split; [done|]. eexists. split; [exact Hx'|]. cbn [next]. apply Hstep; [apply IH; lia|]. eapply walk_le; [|exact Hw]. lia. }
  by apply (Hall (S n)).
Qed.

(** What the driver can rely on whatever the device writes in the used ring. *)
Record Contained (q : Virtqueue) : Prop := {
  c_size : 0 < size q <= 128;
  c_desc : length (desc q) = Z.to_nat (size q);
  c_avail : length (avail_ring q) = Z.to_nat (size q);
  c_last : in_width 16 (last_used_idx q);
  c_num : 0 <= num_free q;
  c_links : links_inside (desc q);
  c_walk : walk (desc q) (Z.to_nat (num_free q)) (free_head q)
}.

(** A content of the used ring: any index, any entries. *)
Definition used_ok (sz : Z) (u : Z * list (Z * Z)) : Prop :=
  in_width 16 u.1 ∧ length u.2 = Z.to_nat sz ∧ Forall (λ e, in_width 32 e.1) u.2.

Lemma links_insert D i d : links_inside D → (has_next d = true → 0 <= next d < Z.of_nat (length D)) → links_inside (<[i := d]> D).
Proof. intros Hl Hd j x Hx Hn. rewrite length_insert. apply list_lookup_insert_Some in Hx as [(_ & <- & _)|[_ Hx]]; [by apply Hd|by eapply Hl]. Qed.

Lemma push_loop_contained bufs : ∀ q cur m, bufs ≠ [] → links_inside (desc q) → walk (desc q) (length bufs + m) cur → Z.of_nat (length bufs) <= num_free q →
  ∃ D fh, push_loop bufs cur q = Ret (set_desc q D fh (num_free q - Z.of_nat (length bufs))) ∧ length D = length (desc q) ∧ links_inside D ∧ walk D m fh.
Proof.
  induction bufs as [|[[a b] f] bufs IH]; intros q cur m Hne Hl Hw Hn; [done|]. cbn [length plus walk] in Hw. destruct Hw as (Hc & d & Hd & Hw).
  cbn [push_loop]. rewrite Hd. rewrite (proj2 (Z.eqb_neq _ _)) by (cbn in Hn; lia). set (d' := mk_desc _ _ _ _).
  assert (Hnx : next <$> <[Z.to_nat cur := d']> (desc q) = next <$> desc q).
  { rewrite list_fmap_insert. apply list_insert_id. by rewrite list_lookup_fmap, Hd. }
  destruct bufs as [|y bufs].
  - eexists _, _. split; [done|]. split; [by rewrite length_insert|]. split; [|by eapply walk_next].
    apply links_insert; [done|]. unfold has_next, d'. cbn [flags]. by rewrite flag_clear.
  - set (q1 := set_desc q _ _ _). destruct (IH q1 (next d) m) as (D & fh & Ep & HD & HlD & HwD); [done| |by eapply walk_next|cbn in *; lia|].
    { apply links_insert; [done|]. intros _. cbn [length plus walk] in Hw. destruct Hw as (? & e & He & _). apply lookup_lt_Some in He. unfold d'. cbn [next]. lia. }
    exists D, fh. split; [rewrite Ep; unfold q1; cbn; f_equal; f_equal; lia|]. split; [rewrite HD; cbn; by rewrite length_insert|done].
Qed.

Lemma push_contained q bufs : Contained q → Z.of_nat (length bufs) < 65536 → ∃ r q', push q bufs = Ret (r, q') ∧ Contained q' ∧ size q' = size q.
Proof.
  intros Hq Hb. unfold push. replace (wrap 16 (Z.of_nat (length bufs))) with (Z.of_nat (length bufs)) by (symmetry; apply Z.mod_small; lia).
  destruct bufs as [|y bufs]; [by exists None, q|]. cbn [orb]. destruct (Z.ltb_spec (num_free q) (Z.of_nat (length (y :: bufs)))) as [|Hle]; [by exists None, q|].
  destruct Hq as [Hs Hd Ha Hla Hn Hl Hw].
  destruct (push_loop_contained (y :: bufs) q (free_head q) (Z.to_nat (num_free q) - length (y :: bufs))) as (D & fh & -> & HD & HlD & HwD); [done|done| |done|].
  { eapply walk_le; [|exact Hw]. lia. }
  cbn [mbind outcome_bind]. unfold write_avail. cbn [set_desc avail_idx size avail_ring]. rewrite (proj2 (Nat.ltb_lt _ _)).
  2:{ pose proof (Z.mod_pos_bound (avail_idx q) (size q)). lia. }
  cbn [mbind outcome_bind]. eexists _, _. split; [done|]. split; [|done].
  split; cbn [set_desc size desc avail_ring last_used_idx num_free free_head]; rewrite ?HD, ?length_insert; try done; [lia|].
  eapply walk_le; [|exact HwD]. lia.
Qed.

Lemma reclaim_loop_contained fuel : ∀ q idx, Contained q → 0 <= idx < size q → (linked (desc q) < fuel)%nat →
  match reclaim_loop fuel idx q with
  | Ret q' => Contained q' ∧ size q' = size q
  | Panic => U16_MAX <= num_free q + Z.of_nat (linked (desc q))
  end.
Proof.
  induction fuel as [|fuel IH]; intros q idx Hq Hidx Hf; [lia|]. cbn [reclaim_loop]. pose proof Hq as [Hs Hd Ha Hla Hn Hl Hw].
  destruct (lookup_lt_is_Some_2 (desc q) (Z.to_nat idx)) as [d Hx]; [lia|]. rewrite Hx.
  destruct (Z.eqb_spec (num_free q) U16_MAX); [lia|]. change (negb (Z.land (flags d) VIRTQ_DESC_F_NEXT =? 0)) with (has_next d).
  pose proof (linked_insert (desc q) (Z.to_nat idx) d (mk_desc 0 0 0 (free_head q)) Hx eq_refl) as Hk.
  set (q1 := set_desc q _ _ _). assert (Hq1 : Contained q1).
  { split; cbn [q1 set_desc size desc avail_ring last_used_idx num_free free_head]; rewrite ?length_insert; try done; [lia|by apply links_insert|].
    replace (Z.to_nat (num_free q + 1)) with (S (Z.to_nat (num_free q))) by lia. eapply walk_prepend; [lia|exact Hx|exact Hw]. }
  destruct (has_next d) eqn:Eh; [|done]. specialize (IH q1 (next d) Hq1). pose proof (Hl _ _ Hx Eh).
  assert (Hf1 : (linked (desc q1) < fuel)%nat) by (unfold q1; cbn [set_desc desc]; lia). specialize (IH ltac:(unfold q1; cbn [set_desc size]; lia) Hf1). destruct (reclaim_loop fuel (next d) q1); [done|]. unfold q1 in IH; cbn [set_desc desc num_free] in IH; lia.
Qed.

Lemma linked_le D : (linked D <= length D)%nat.
Proof. apply length_filter. Qed.

Lemma reclaim_contained q id : Contained q → 0 <= id < size q →
  match reclaim q id with Ret q' => Contained q' ∧ size q' = size q | Panic => U16_MAX <= num_free q + size q end.
Proof.
  intros Hq Hid. pose proof (reclaim_loop_contained (S (length (desc q))) q id Hq Hid) as H. pose proof (linked_le (desc q)). specialize (H ltac:(lia)).
  unfold reclaim. destruct (reclaim_loop _ id q); [done|]. pose proof (c_desc _ Hq). pose proof (c_size _ Hq). lia.
Qed.

Lemma poll_round_contained q u : Contained q → used_ok (size q) u →
  ∃ r q', poll_round (set_used q u) = Ret (r, q') ∧ Contained q' ∧ size q' = size q ∧
    match r with
    | Empty => last_used_idx q = u.1
    | Dropped => last_used_idx q ≠ u.1 ∧ last_used_idx q' = wrap 16 (last_used_idx q + 1)
    | Found id _ => 0 <= id < size q
    end.
Proof.
  intros Hq (Hi & Hlen & Hids). pose proof Hq as [Hs Hd Ha Hla Hn Hl Hw]. unfold poll_round. cbn [set_used last_used_idx used_idx used_ring size].
  destruct (Z.eqb_spec (last_used_idx q) u.1) as [E|E]; [exists Empty; eexists; split; [done|]; split; [by split|done]|].
  destruct (lookup_lt_is_Some_2 u.2 (Z.to_nat (last_used_idx q mod size q))) as [[id l] Hx].
  { rewrite Hlen. pose proof (Z.mod_pos_bound (last_used_idx q) (size q)). lia. }
  rewrite Hx. cbn [set_last_used set_used size]. set (q' := set_last_used _ _).
  assert (Hq' : Contained q') by (split; cbn; try done; unfold wrap, in_width; apply Z.mod_pos_bound; lia).
  destruct (Z.leb_spec (size q) id); [exists Dropped|exists (Found id l)]; (eexists; split; [done|]; split; [done|]; split; [done|]).
  - done.
  - pose proof (Forall_lookup_1 _ _ _ _ Hids Hx) as [? _]. cbn in *. lia.
Qed.

Lemma poll_used_contained dev : ∀ q, Contained q → Forall (used_ok (size q)) dev →
  ∃ r q', poll_used dev q = Ret (r, q') ∧ Contained q' ∧ size q' = size q ∧ match r with Some (Some (id, _)) => 0 <= id < size q | _ => True end.
Proof.
  induction dev as [|u dev IH]; intros q Hq Hdev; [by exists None, q|]. apply Forall_cons in Hdev as [Hu Hdev].
  destruct (poll_round_contained q u Hq Hu) as (r & q1 & Ep & Hq1 & Es & Hr). cbn [poll_used]. rewrite Ep. cbn [mbind outcome_bind].
  destruct r as [| |id l]; [by exists (Some None), q1| |by exists (Some (Some (id, l))), q1].
  rewrite <- Es in Hdev. destruct (IH q1 Hq1 Hdev) as (r & q2 & ? & ? & ? & ?). exists r, q2. by rewrite <- Es.
Qed.

Lemma wrap_zero a b : in_width 16 a → in_width 16 b → wrap 16 (a - b) = 0 → a = b.
Proof.
  unfold in_width, wrap. change (2 ^ 16) with 65536. intros Ha Hb E. apply Z.mod_divide in E as [k E]; [|lia]. assert (k = 0) by lia. lia.
Qed.

(** Once the device stands still, each round brings the two indices closer. *)
Lemma poll_used_ends n u : ∀ q, Contained q → used_ok (size q) u → wrap 16 (u.1 - last_used_idx q) < Z.of_nat n →
  ∃ r q', poll_used (replicate n u) q = Ret (Some r, q').
Proof.
  induction n as [|n IH]; intros q Hq Hu Hn; [unfold wrap in Hn; pose proof (Z.mod_pos_bound (u.1 - last_used_idx q) (2 ^ 16)); lia|].
  destruct (poll_round_contained q u Hq Hu) as (r & q1 & Ep & Hq1 & Es & Hr). cbn [replicate poll_used]. rewrite Ep. cbn [mbind outcome_bind].
  destruct r as [| |id l]; [by exists None, q1| |by exists (Some (id, l)), q1]. destruct Hr as [Hne El]. apply IH; [done|by rewrite Es|]. rewrite El.
  assert (Hnz : wrap 16 (u.1 - last_used_idx q) ≠ 0) by (intros E0; apply Hne; symmetry; apply wrap_zero; [apply Hu|apply Hq|done]).
  unfold wrap in *. rewrite Zminus_mod_idemp_r. replace (u.1 - (last_used_idx q + 1)) with (u.1 - last_used_idx q - 1) by lia.
  rewrite <- Zminus_mod_idemp_l. pose proof (Z.mod_pos_bound (u.1 - last_used_idx q) (2 ^ 16)). rewrite Z.mod_small by lia. lia.
Qed.

(** A device that publishes bad entries as fast as the driver drops them. *)
Lemma poll_used_spins n : ∀ q, Contained q → ∃ dev q', length dev = n ∧ Forall (used_ok (size q)) dev ∧ poll_used dev q = Ret (None, q').
Proof.
  induction n as [|n IH]; intros q Hq; [by exists [], q|]. set (u := (wrap 16 (last_used_idx q + 1), replicate (Z.to_nat (size q)) (size q, 0)) : Z * list (Z * Z)).
  pose proof (c_size _ Hq) as Hs. assert (Hu : used_ok (size q) u).
  { split; [unfold wrap, in_width; apply Z.mod_pos_bound; lia|]. split; [apply length_replicate|]. apply Forall_replicate. unfold in_width. cbn. lia. }
  assert (Hne : last_used_idx q ≠ wrap 16 (last_used_idx q + 1)).
  { pose proof (c_last _ Hq) as Hl. unfold in_width, wrap in *. change (2 ^ 16) with 65536 in *. destruct (decide (last_used_idx q = 65535)) as [->|]; [done|]. rewrite Z.mod_small by lia. lia. }
  assert (Ep : poll_round (set_used q u) = Ret (Dropped, set_last_used (set_used q u) (wrap 16 (last_used_idx q + 1)))).
  { unfold poll_round. cbn [set_used last_used_idx used_idx used_ring size u fst snd]. rewrite (proj2 (Z.eqb_neq _ _) Hne).
    rewrite lookup_replicate_2 by (pose proof (Z.mod_pos_bound (last_used_idx q) (size q)); lia). cbn [set_last_used size]. by rewrite Z.leb_refl. }
  destruct (poll_round_contained q u Hq Hu) as (r & q1 & E1 & Hq1 & Es & _). rewrite Ep in E1. injection E1 as <- <-.
  destruct (IH _ Hq1) as (dev & q' & Hlen & Hdev & E). exists (u :: dev), q'. split; [by cbn; rewrite Hlen|]. split; [by constructor|].
  cbn [poll_used]. rewrite Ep. cbn [mbind outcome_bind]. exact E.
Qed.

(** The driver against a device that may write anything into the used ring at any
    time, and so make the driver reclaim any descriptor at any time. *)
Inductive hostile (q0 : Virtqueue) : Virtqueue → Prop :=
| hostile_start : hostile q0 q0
| hostile_push q bufs r q' : hostile q0 q → Z.of_nat (length bufs) < 65536 → push q bufs = Ret (r, q') → hostile q0 q'
| hostile_poll q dev r q' : hostile q0 q → Forall (used_ok (size q)) dev → poll_used dev q = Ret (r, q') → hostile q0 q'
| hostile_reclaim q id q' : hostile q0 q → 0 <= id < size q → reclaim q id = Ret q' → hostile q0 q'.

Lemma lseg_walk D l : ∀ h, lseg D h l → walk D (length l) h.
Proof. induction l as [|i l IH]; intros h; [done|]. intros (-> & d & Hd & Hl). split; [lia|]. exists d. rewrite Nat2Z.id. split; [done|by apply IH]. Qed.

Lemma new_contained sz q : new sz true = Ret (Ok q) → Contained q.
Proof.
  unfold new. destruct (_ && _) eqn:E; [|done]. to_lia. intros [= <-].
  split; cbn [size desc avail_ring last_used_idx num_free free_head]; rewrite ?length_fmap, ?length_seq, ?length_replicate; try lia; [unfold in_width; lia| |].
  - intros i d Hi. rewrite list_lookup_fmap in Hi. destruct (seq _ _ !! i); [|done]. by injection Hi as <-.
  - pose proof (fresh_lseg (Z.to_nat sz) (Z.to_nat sz) 0 eq_refl) as Hl. rewrite (proj2 (Nat.ltb_lt _ _)) in Hl by lia. rewrite Z2Nat.id in Hl by lia.
    apply lseg_walk in Hl. by rewrite length_seq in Hl.
Qed.

Lemma hostile_contained sz q0 q : new sz true = Ret (Ok q0) → hostile q0 q → Contained q.
Proof.
  intros Hn. induction 1 as [|q bufs r q' _ IH Hb E|q dev r q' _ IH Hd E|q id q' _ IH Hi E]; [by eapply new_contained|..].
  - destruct (push_contained q bufs IH Hb) as (? & ? & E' & ? & _). congruence.
  - destruct (poll_used_contained dev q IH Hd) as (? & ? & E' & ? & _). congruence.
  - pose proof (reclaim_contained q id IH Hi) as H. rewrite E in H. apply H.
Qed.

(** C33 A device that writes anything into the used ring, at any time, cannot lead
    the driver out of the queue. In every state reached by submissions of fewer
    than 65536 buffers, polls against any sequence of used-ring contents, and
    reclaims of any identifiers a poll may have returned, repeated or never
    submitted ones included: a poll does not panic and returns no identifier
    outside the table; a submission does not panic; a reclaim ends inside the
    table, unless the count of free descriptors, which repeated reports inflate,
    overflows its 16 bits, where it panics; and a poll during which the device
    writes no more ends within 65536 rounds. A device that goes on writing keeps
    a poll going for any number of rounds. *)
Theorem hostile_device_contained sz q0 q : new sz true = Ret (Ok q0) → hostile q0 q →
  (∀ dev, Forall (used_ok (size q)) dev → ∃ r q', poll_used dev q = Ret (r, q') ∧ match r with Some (Some (id, _)) => 0 <= id < size q | _ => True end) ∧
  (∀ bufs, Z.of_nat (length bufs) < 65536 → ∃ r q', push q bufs = Ret (r, q')) ∧
  (∀ id, 0 <= id < size q → reclaim q id = Panic → U16_MAX <= num_free q + size q) ∧
  (∀ u, used_ok (size q) u → ∃ r q', poll_used (replicate (Z.to_nat 65536) u) q = Ret (Some r, q')) ∧
  (∀ n, ∃ dev q', length dev = n ∧ Forall (used_ok (size q)) dev ∧ poll_used dev q = Ret (None, q')).
Proof.
  intros Hn Hq%(hostile_contained sz); [|done]. split_and!.
  - intros dev Hd. destruct (poll_used_contained dev q Hq Hd) as (r & q' & ? & _ & _ & ?). by exists r, q'.
  - intros bufs Hb. destruct (push_contained q bufs Hq Hb) as (r & q' & ? & _). by exists r, q'.
  - intros id Hid Hp. pose proof (reclaim_contained q id Hq Hid) as H. by rewrite Hp in H.
  - intros u Hu. apply poll_used_ends; [done|done|]. unfold wrap. rewrite Z2Nat.id by lia. pose proof (Z.mod_pos_bound (u.1 - last_used_idx q) (2 ^ 16)). lia.
  - intros n. by apply poll_used_spins.
Qed.

(** ** Cursor commands *)

Section Cursor.
Context {Cmd : Type}.

Lemma drain_none q dev : last_used_idx q = used_idx q → drain_used ((used_idx q, used_ring q) :: dev) q = Ret (Some q).
Proof. intros E. cbn [drain_used]. unfold poll_round. cbn. rewrite E, Z.eqb_refl. by destruct q. Qed.

(** A cursor command is written where no command in flight lies: with a free
    descriptor and nothing to reclaim, the slot it takes is that of a free
    descriptor, every other slot keeps its command, and it is queued. With no
    free descriptor the kernel panics instead of dropping the command: the free
    list ends in the sentinel, whose slot is past the end of the buffer. *)
Theorem cursor_command_slot sz q s dev (scratch : gmap Z Cmd) phys n cmd : (sz | 65536) → new sz true = Ret (Ok q) → reach q s →
  size (queue s) * CURSOR_CMD_SIZE <= CURSOR_SCRATCH_BYTES → last_used_idx (queue s) = used_idx (queue s) →
  let c := mk_cursor (queue s) scratch phys n in
  let off := next_head (queue s) * CURSOR_CMD_SIZE in
  let dev := (used_idx (queue s), used_ring (queue s)) :: dev in
  (0 < num_free (queue s) → ∃ q', send_cursor_command dev c cmd = Ret (Some (mk_cursor q' (<[off := cmd]> scratch) phys n)) ∧
     in_flight q' = in_flight (queue s) + 1 ∧
     ∀ h, h ∈ taken s ++ polled s → h * CURSOR_CMD_SIZE ≠ off) ∧
  (num_free (queue s) = 0 → send_cursor_command dev c cmd = Panic).
Proof.
  intros Hd Hq Hr Hfit E. pose proof (vq_reach_inv sz q s Hd Hq Hr) as (fl & C & P & U & a & sn & u & lu & Hsh & Hpr).
  cbn zeta. unfold send_cursor_command. cbn [cursor_queue cursor_scratch scratch_phys dropped]. rewrite (drain_none _ _ E). cbn [mbind outcome_bind]. unfold next_head, write_at.
  pose proof (sh_num _ _ _ Hsh) as Hnum. pose proof (sh_free _ _ _ Hsh) as Hfree. split; intros Hn.
  - destruct fl as [|i fl]; [cbn in Hnum; lia|]. assert (Hi : (i < Z.to_nat (size (queue s)))%nat).
    { assert (Hin : i ∈ seq 0 (Z.to_nat (size (queue s)))) by (rewrite <- (sh_part _ _ _ Hsh); by left). apply elem_of_seq in Hin. lia. }
    apply lseg_head in Hfree. rewrite (proj2 (Z.leb_le _ _)) by (rewrite Hfree; unfold CURSOR_CMD_SIZE in *; lia). cbn [mbind outcome_bind].
    destruct (vq_push_spec _ _ _ [(phys + free_head (queue s) * CURSOR_CMD_SIZE, CURSOR_CMD_SIZE, 0)] Hsh) as [[_ [?|?]]|(f1 & f2 & D & fh & _ & _ & _ & -> & _)]; [done|done|cbn in *; lia|].
    cbn [mbind outcome_bind]. eexists. split; [done|]. split; [unfold in_flight; cbn; lia|]. intros h Hh Eh.
    assert (h = Z.of_nat i) as -> by (rewrite Hfree in Eh; unfold CURSOR_CMD_SIZE in Eh; lia).
    assert (Hin : Z.of_nat i ∈ head_of <$> C) by (rewrite (p_heads _ _ _ _ _ _ _ _ Hpr), !elem_of_app; apply elem_of_app in Hh as [?|?]; auto).
    apply list_elem_of_fmap in Hin as (c & Ec & Hc). destruct (head_bound _ _ _ _ Hsh Hc) as [_ (j & Hj & Ej)]. rewrite <- Ec in Ej. apply Nat2Z.inj in Ej as <-.
    pose proof (shape_nodup _ _ _ Hsh) as Hnd. apply NoDup_app in Hnd as (_ & Hsep & _). apply (Hsep i); [by left|].
    apply list_elem_of_join. exists c.1. split; [by apply head_Some_elem_of|]. apply list_elem_of_fmap. by exists c.
  - destruct fl; [|cbn in Hnum; lia]. cbn in Hfree. rewrite Hfree. done.
Qed.
End Cursor.

(** ** Concrete queues *)

Definition demo_queue : Virtqueue := match new 4 true with Ret (Ok q) => q | _ => mk_vq 0 [] 0 [] 0 [] 0 0 0 end.

Fixpoint run (s : System) (es : list event) : outcome System :=
  match es with [] => Ret s | e :: es => s ← exec s e; run s es end.

Lemma vq_reach_run q es : ∀ s s', Forall (λ e, match e with Push bufs => Z.of_nat (length bufs) < 65536 | _ => True end) es → reach q s → run s es = Ret s' → reach q s'.
Proof.
  induction es as [|e es IH]; intros s s' Hes Hs; cbn; [by intros [= <-]|]. apply Forall_cons in Hes as [He Hes].
  destruct (exec s e) as [s1|] eqn:E; [|done]. cbn [mbind outcome_bind]. apply IH; [done|]. by eapply reach_step.
Qed.

(** A two-buffer and a one-buffer chain; the device takes and reports the
    first, the driver collects it and submits again. *)
Definition demo_events : list event :=
  [Push [(4096, 24, 0); (8192, 24, 2)]; Push [(12288, 56, 0)]; Take; Report 0 24; Poll; Reclaim 0; Push [(16384, 8, 1); (20480, 8, 2)]; Take].
Definition demo_system : System := match run (start demo_queue) demo_events with Ret s => s | Panic => start demo_queue end.

Lemma vq_demo_reach : reach demo_queue demo_system.
Proof. apply (vq_reach_run _ demo_events (start demo_queue)); [by repeat constructor|constructor|vm_compute; reflexivity]. Qed.

Lemma pow2_4 : (4 | 65536).
Proof. by exists 16384. Qed.

Lemma virtqueue_correct_witness :
  received demo_system = [(0, [(4096, 24, 0); (8192, 24, 2)]); (2, [(12288, 56, 0)])] ∧ num_free (queue demo_system) = 1 ∧
  ∃ P (U : list (Z * Z)), sent demo_system = received demo_system ++ P ∧ (sent demo_system).*1 ≡ₚ P.*1 ++ taken demo_system ++ U.*1 ++ (collected demo_system).*1.
Proof.
  split; [vm_compute; reflexivity|]. split; [vm_compute; reflexivity|].
  destruct (virtqueue_correct 4 demo_queue demo_system pow2_4 eq_refl vq_demo_reach) as (P & U & _ & _ & HP & _ & Hacc & _). exists P, U. split; [exact HP|exact Hacc].
Defined.

(** The device reports descriptor 3, never submitted, twice; both are reclaimed. *)
Definition hostile_ring : Z * list (Z * Z) := (2, [(3, 5); (3, 5); (77, 0); (77, 0)]).
Definition hostile_queue : Virtqueue :=
  match ('(_, q) ← poll_used [hostile_ring] demo_queue; q ← reclaim q 3; '(_, q) ← poll_used [hostile_ring] q; reclaim q 3) with Ret q => q | Panic => demo_queue end.

Lemma used_ok_by sz u : (0 <=? u.1) && (u.1 <? 2 ^ 16) && (length u.2 =? Z.to_nat sz)%nat && forallb (λ e, (0 <=? e.1) && (e.1 <? 2 ^ 32)) u.2 = true → used_ok sz u.
Proof.
  rewrite !andb_true_iff, Z.leb_le, Z.ltb_lt, Nat.eqb_eq, forallb_forall. intros [[[Ha Hb] Hc] Hf]. split; [by split|]. split; [done|].
  apply Forall_forall. intros e He. specialize (Hf e (proj1 (list_elem_of_In _ _) He)). cbv beta in Hf. rewrite andb_true_iff, Z.leb_le, Z.ltb_lt in Hf. exact Hf.
Qed.

Lemma hostile_queue_reached : hostile demo_queue hostile_queue.
Proof.
  assert (Hu : Forall (used_ok 4) [hostile_ring]) by (apply Forall_singleton, used_ok_by; vm_compute; reflexivity).
  eapply (hostile_reclaim _ _ 3); [eapply (hostile_poll _ _ [hostile_ring]); [eapply (hostile_reclaim _ _ 3); [eapply (hostile_poll _ _ [hostile_ring]); [apply hostile_start|exact Hu|vm_compute; reflexivity]|split; [done|vm_compute; reflexivity]|vm_compute; reflexivity]|exact Hu|vm_compute; reflexivity]|split; [done|vm_compute; reflexivity]|vm_compute; reflexivity].
Qed.

(** Six free descriptors in a table of four, and the queue still holds. *)
Lemma hostile_device_contained_witness :
  num_free hostile_queue = 6 ∧ (∃ q', push hostile_queue (replicate 5 (4096, 8, 0)) = Ret (Some 3, q')) ∧
  ∃ r q', push hostile_queue (replicate 6 (4096, 8, 0)) = Ret (r, q').
Proof.
  split; [vm_compute; reflexivity|]. split; [eexists; vm_compute; reflexivity|].
  apply (hostile_device_contained 4 demo_queue hostile_queue eq_refl hostile_queue_reached). cbn. reflexivity.
Defined.

(** Four single commands fill the queue. *)
Definition full_system : System :=
  match run (start demo_queue) [Push [(0, 56, 0)]; Push [(0, 56, 0)]; Push [(0, 56, 0)]; Push [(0, 56, 0)]] with Ret s => s | Panic => start demo_queue end.

Lemma full_reach : reach demo_queue full_system.
Proof.
  apply (vq_reach_run _ [Push [(0, 56, 0)]; Push [(0, 56, 0)]; Push [(0, 56, 0)]; Push [(0, 56, 0)]] (start demo_queue)); [by repeat constructor|constructor|vm_compute; reflexivity].
Qed.

Lemma cursor_command_slot_witness :
  num_free (queue full_system) = 0 ∧ send_cursor_command [(0, used_ring (queue full_system))] (mk_cursor (queue full_system) (∅ : gmap Z nat) 0 0) 7%nat = Panic.
Proof.
  split; [vm_compute; reflexivity|].
  apply (cursor_command_slot 4 demo_queue full_system [] ∅ 0 0 7%nat pow2_4 eq_refl full_reach); vm_compute; [discriminate|reflexivity|reflexivity].
Defined.

(** A device that reports one chain twice: both reports are accepted, the free
    count passes the size of the table, and the free list loops on itself. *)
Definition lying_queue : Virtqueue :=
  mk_vq 4 (<[0%nat := mk_desc 4096 8 0 1]> (desc demo_queue)) 1 [0; 0; 0; 0] 2 [(0, 8); (0, 8); (0, 0); (0, 0)] 1 3 0.

Lemma double_report_corrupts :
  let dev := [(used_idx lying_queue, used_ring lying_queue)] in
  ('(r1, q) ← poll_used dev lying_queue; q ← reclaim q 0; '(r2, q) ← poll_used dev q; q ← reclaim q 0;
   Ret (r1, r2, num_free q, free_head q, next <$> (desc q !! 0%nat))) = Ret (Some (Some (0, 8)), Some (Some (0, 8)), 5, 0, Some 0).
Proof. vm_compute. reflexivity. Qed.

(** A queue of three descriptors, which [new] accepts: around the wrap of the
    index two chains in a row are published in one slot of the ring. *)
Definition odd_queue : Virtqueue :=
  match new 3 true with
  | Ret (Ok q) => mk_vq 3 (desc q) 65535 (avail_ring q) 0 (used_ring q) 0 3 0
  | _ => demo_queue
  end.

Lemma odd_size_loses_chain :
  ('(r1, q) ← push odd_queue [(4096, 8, 0)]; '(r2, q) ← push q [(8192, 8, 0)]; Ret (r1, r2, avail_idx q, avail_ring q)) =
  Ret (Some 0, Some 1, 1, [1; 0; 0]).
Proof. vm_compute. reflexivity. Qed.

(** The three regions of the allocation follow one another, the used ring on a
    page of its own. *)
Lemma layout_regions sz : 0 < sz <= 128 → let '(avail_off, used_off, total) := layout sz in
  avail_off = 16 * sz ∧ avail_off + (6 + 2 * sz) <= used_off ∧ used_off mod 4096 = 0 ∧ total = used_off + (6 + 8 * sz).
Proof.
  intros Hs. unfold layout. cbn zeta iota. change 0xFFF with (Z.ones 12).
  rewrite <- Z.ldiff_land, Z.ldiff_ones_r, Z.shiftl_mul_pow2, Z.shiftr_div_pow2 by lia. change (Z.ones 12) with 4095. change (2 ^ 12) with 4096.
  pose proof (Z.div_mod (sz * 16 + (6 + 2 * sz) + 4095) 4096). pose proof (Z.mod_pos_bound (sz * 16 + (6 + 2 * sz) + 4095) 4096).
  split_and!; [lia|lia|apply Z.mod_mul; lia|lia].
Qed.

End VirtqueueSafety.
