(* ===== verification/ParkWake.v ===== *)
(** * Parking, waking and wait queues

    The park and wake protocol of kernel/src/thread/scheduler.rs and
    kernel/src/thread/thread.rs, and [WaitQueue] of
    kernel/src/thread/waitqueue.rs, at the grain of their atomic operations:
    each label of [exec] is one load, store or exchange of one thread, and any
    interleaving is allowed. Memory is sequentially consistent. The lock that
    uses the queue is a [Client]: its shared words, its program points and the
    predicates it waits for.

    A thread that publishes [Parked] is on its way out of a CPU which still has
    to look at the wake token ([transition_park_while]); that rest of the
    transition runs on the CPU's scheduler stack and is a [tail] of its own.
    The flag [early] of [exec] says whether another CPU may resume a woken
    thread while its tail is still pending. *)

From stdpp Require Import functions.
From S2P Require Import Prelude.

Module ParkWake.

Abbreviation tid := positive.

(** The scheduling state of a thread ([State] in thread.rs). *)
Inductive State := Ready | Running | Sleeping | Parked | Waking | Dying.

#[export] Instance State_eq_dec : EqDecision State.
Proof. solve_decision. Defined.

Definition WAITQUEUE_CAP : nat := 64.

(** [wake_one] or [wake_all]. *)
Inductive Mode := One | All.

(** Where a thread is. [At] is the client's code; a wait at site [w] goes from
    [Ready1] to [RemovePub]; a wake goes from [HasWaiters] to [Complete], with
    the client's point to return to and the handles still to wake. *)
Inductive pc (K W : Type) :=
| At (k : K)
| Ready1 (w : W) | Push (w : W) | Publish (w : W) | Ready2 (w : W) | SelfRemove (w : W) | SelfPublish (w : W)
| Check (w : W) | CasPark (w : W) (should_park : bool) | Away (w : W) | Remove (w : W) | RemovePub (w : W)
| HasWaiters (m : Mode) (k : K) | Pop (m : Mode) (k : K) | PopPub (m : Mode) (k : K) (hs : list tid)
| Signal (m : Mode) (k : K) (h : tid) (hs : list tid) | TryWake (m : Mode) (k : K) (h : tid) (hs : list tid)
| Complete (m : Mode) (k : K) (h : tid) (hs : list tid).
Arguments At {K W} k.
Arguments Ready1 {K W} w.
Arguments Push {K W} w.
Arguments Publish {K W} w.
Arguments Ready2 {K W} w.
Arguments SelfRemove {K W} w.
Arguments SelfPublish {K W} w.
Arguments Check {K W} w.
Arguments CasPark {K W} w should_park.
Arguments Away {K W} w.
Arguments Remove {K W} w.
Arguments RemovePub {K W} w.
Arguments HasWaiters {K W} m k.
Arguments Pop {K W} m k.
Arguments PopPub {K W} m k hs.
Arguments Signal {K W} m k h hs.
Arguments TryWake {K W} m k h hs.
Arguments Complete {K W} m k h hs.

(** A lock built on a wait queue: its shared words, its program points, its
    wait sites with the predicate each waits for and the point it returns to,
    and one atomic step of its own code ([choice] picks the call a thread makes
    when it is free to). *)
Class Client := {
  shared : Type; point : Type; site : Type;
  ready : site → shared → bool;
  after : site → point;
  cstep : tid → nat → point → shared → option (pc point site * shared)
}.

(** What is left of [transition_park_while] after the thread is [Parked]. *)
Inductive Tail := TToken (should_park : bool) | TRevert.

Section System.

Context `{C : Client}.

(** The shared words, the queue with its spin lock and published length, and
    for each thread its place, its scheduling state and its wake token. *)
Record Sys := mk_sys {
  sh : shared; inner : option tid; q : list tid; waiters : nat;
  pcs : tid → pc point site; sts : tid → State; toks : tid → bool;
  tails : list (tid * Tail); panicked : bool
}.

Definition goto (s : Sys) (t : tid) (p : pc point site) : Sys :=
  mk_sys (sh s) (inner s) (q s) (waiters s) (<[t := p]> (pcs s)) (sts s) (toks s) (tails s) (panicked s).
Definition set_st (s : Sys) (t : tid) (x : State) : Sys :=
  mk_sys (sh s) (inner s) (q s) (waiters s) (pcs s) (<[t := x]> (sts s)) (toks s) (tails s) (panicked s).
Definition set_tok (s : Sys) (t : tid) (b : bool) : Sys :=
  mk_sys (sh s) (inner s) (q s) (waiters s) (pcs s) (sts s) (<[t := b]> (toks s)) (tails s) (panicked s).
Definition set_q (s : Sys) (i : option tid) (l : list tid) (n : nat) : Sys :=
  mk_sys (sh s) i l n (pcs s) (sts s) (toks s) (tails s) (panicked s).
Definition set_sh (s : Sys) (x : shared) : Sys :=
  mk_sys x (inner s) (q s) (waiters s) (pcs s) (sts s) (toks s) (tails s) (panicked s).
Definition set_tails (s : Sys) (l : list (tid * Tail)) : Sys :=
  mk_sys (sh s) (inner s) (q s) (waiters s) (pcs s) (sts s) (toks s) l (panicked s).
Definition panic (s : Sys) : Sys :=
  mk_sys (sh s) (inner s) (q s) (waiters s) (pcs s) (sts s) (toks s) (tails s) true.

(** The queue's spin lock is taken with the change of the queue and given back
    with the publication of the length. *)
Definition locked_q (s : Sys) (t : tid) (l : list tid) (p : pc point site) : option Sys :=
  match inner s with None => Some (goto (set_q s (Some t) l (waiters s)) t p) | Some _ => None end.
Definition publish (s : Sys) (t : tid) (p : pc point site) : option Sys :=
  Some (goto (set_q s None (q s) (length (q s))) t p).

(** [Deque::retain] of every handle but the caller's. *)
Definition retain (t : tid) (l : list tid) : list tid := filter (λ x, x ≠ t) l.

(** The next handle to wake, or the end of the call. *)
Definition next_wake (m : Mode) (k : point) (hs : list tid) : pc point site :=
  match hs with [] => At k | h :: hs => Signal m k h hs end.

(** [cas_state(Running, Parked)] and the departure from the thread's stack. *)
Definition park (s : Sys) (t : tid) (w : site) (should_park : bool) : Sys :=
  set_tails (goto (set_st s t Parked) t (Away w)) (tails s ++ [(t, TToken should_park)]).

(** [wait_internal], without timeout and not killable. *)
Definition wait_op (t : tid) (s : Sys) (p : pc point site) : option Sys :=
  match p with
  | Ready1 w => Some (goto s t (if ready w (sh s) then At (after w) else Push w))
  | Push w =>
      if bool_decide (is_Some (inner s)) then None
      else if (length (q s) <? WAITQUEUE_CAP)%nat then locked_q s t (q s ++ [t]) (Publish w)
      else Some (panic s)
  | Publish w => publish s t (Ready2 w)
  | Ready2 w => Some (goto s t (if ready w (sh s) then SelfRemove w else Check w))
  | SelfRemove w => locked_q s t (retain t (q s)) (SelfPublish w)
  | SelfPublish w => publish s t (Remove w)
  | Check w => Some (goto s t (CasPark w (negb (ready w (sh s)))))
  | CasPark w b => Some (park s t w b)
  | Remove w => locked_q s t (retain t (q s)) (RemovePub w)
  | RemovePub w => publish s t (At (after w))
  | _ => None
  end.

(** [wake_one] and [wake_all]: the handles are taken off the queue first. *)
Definition wake_op (t : tid) (s : Sys) (p : pc point site) : option Sys :=
  match p with
  | HasWaiters m k => Some (goto s t (if (waiters s =? 0)%nat then At k else Pop m k))
  | Pop One k => match q s with [] => locked_q s t [] (PopPub One k []) | h :: l => locked_q s t l (PopPub One k [h]) end
  | Pop All k => locked_q s t [] (PopPub All k (q s))
  | PopPub m k hs => publish s t (next_wake m k hs)
  | _ => None
  end.

(** [wake_thread] of one handle: the caller's own is skipped, the token is set,
    then the thread is claimed ([try_wake]) and made ready ([complete_wake]). *)
Definition do_wake (t : tid) (s : Sys) (p : pc point site) : option Sys :=
  match p with
  | Signal m k h hs =>
      if decide (h = t) then Some (goto s t (match m, hs with One, [] => Pop One k | _, _ => next_wake m k hs end))
      else Some (goto (set_tok s h true) t (TryWake m k h hs))
  | TryWake m k h hs =>
      match sts s h with
      | Sleeping | Parked => Some (goto (set_st s h Waking) t (Complete m k h hs))
      | _ => Some (goto s t (next_wake m k hs))
      end
  | Complete m k h hs => Some (goto (set_st s h Ready) t (next_wake m k hs))
  | _ => None
  end.

(** One atomic operation of a running thread. *)
Definition run (choice : nat) (t : tid) (s : Sys) : option Sys :=
  match pcs s t with
  | At k => '(p, x) ← cstep t choice k (sh s); Some (goto (set_sh s x) t p)
  | (HasWaiters _ _ | Pop _ _ | PopPub _ _ _) as p => wake_op t s p
  | (Signal _ _ _ _ | TryWake _ _ _ _ | Complete _ _ _ _) as p => do_wake t s p
  | p => wait_op t s p
  end.

(** One step of the pending tail at position [i]: consume the token, then
    perhaps take the park back. *)
Definition run_tail (i : nat) (s : Sys) : option Sys :=
  '(t, x) ← tails s !! i;
  let rest := delete i (tails s) in
  match x with
  | TToken b =>
      let s' := set_tok s t false in
      Some (set_tails s' (if toks s t || negb b then <[i := (t, TRevert)]> (tails s) else rest))
  | TRevert =>
      match pcs s t, sts s t with
      | Away w, Parked => Some (set_tails (goto (set_st s t Running) t (Remove w)) rest)
      | _, _ => Some (set_tails s rest)
      end
  end.

Definition has_tail (s : Sys) (t : tid) : bool := existsb (λ p, bool_decide (p.1 = t)) (tails s).

Inductive label :=
| Run (t : tid) (choice : nat)  (** a running thread's next operation *)
| RunTail (i : nat)             (** a CPU leaving a parked thread *)
| Resume (t : tid)              (** a CPU picks a woken thread *)
| Preempt (t : tid) | Resched (t : tid)
| Outside (t : tid).            (** a wake from some other queue *)

Definition exec (early : bool) (l : label) (s : Sys) : option Sys :=
  if panicked s then None
  else
    match l with
    | Run t c => if decide (sts s t = Running) then run c t s else None
    | RunTail i => run_tail i s
    | Resume t =>
        match pcs s t, sts s t with
        | Away w, Ready => if early || negb (has_tail s t) then Some (goto (set_st s t Running) t (Remove w)) else None
        | _, _ => None
        end
    | Preempt t => match pcs s t, sts s t with
        | Away _, _ => None | _, Running => Some (set_st s t Ready) | _, _ => None end
    | Resched t => match pcs s t, sts s t with
        | Away _, _ => None | _, Ready => Some (set_st s t Running) | _, _ => None end
    | Outside t =>
        let s' := set_tok s t true in
        Some (match sts s t with Parked => set_st s' t Ready | _ => s' end)
    end.

Definition execs (early : bool) (ls : list label) (s : Sys) : option Sys :=
  foldl (λ o l, s ← o; exec early l s) (Some s) ls.

(** ** The step relation *)

(** A change of place of [t], and the same with the queue taken or given back. *)
Definition moves (s : Sys) (t : tid) (p : pc point site) : Sys := goto s t p.
Definition takes (s : Sys) (t : tid) (l : list tid) (p : pc point site) : Sys := goto (set_q s (Some t) l (waiters s)) t p.
Definition gives (s : Sys) (t : tid) (p : pc point site) : Sys := goto (set_q s None (q s) (length (q s))) t p.

(** [exec] by cases, one rule per operation. *)
Inductive step (s : Sys) : Sys → Prop :=
| s_client t c k p x : pcs s t = At k → sts s t = Running → cstep t c k (sh s) = Some (p, x) →
    step s (goto (set_sh s x) t p)
| s_ready1 t w : pcs s t = Ready1 w → sts s t = Running →
    step s (moves s t (if ready w (sh s) then At (after w) else Push w))
| s_push t w : pcs s t = Push w → sts s t = Running → inner s = None →
    step s (takes s t (q s ++ [t]) (Publish w))
| s_overflow : step s (panic s)
| s_publish t w : pcs s t = Publish w → sts s t = Running → step s (gives s t (Ready2 w))
| s_ready2 t w : pcs s t = Ready2 w → sts s t = Running →
    step s (moves s t (if ready w (sh s) then SelfRemove w else Check w))
| s_self_remove t w : pcs s t = SelfRemove w → sts s t = Running → inner s = None →
    step s (takes s t (retain t (q s)) (SelfPublish w))
| s_self_publish t w : pcs s t = SelfPublish w → sts s t = Running → step s (gives s t (Remove w))
| s_check t w : pcs s t = Check w → sts s t = Running → step s (moves s t (CasPark w (negb (ready w (sh s)))))
| s_park t w b : pcs s t = CasPark w b → sts s t = Running → step s (park s t w b)
| s_remove t w : pcs s t = Remove w → sts s t = Running → inner s = None →
    step s (takes s t (retain t (q s)) (RemovePub w))
| s_remove_pub t w : pcs s t = RemovePub w → sts s t = Running → step s (gives s t (At (after w)))
| s_has t m k : pcs s t = HasWaiters m k → sts s t = Running →
    step s (moves s t (if (waiters s =? 0)%nat then At k else Pop m k))
| s_pop t m k hs l : pcs s t = Pop m k → sts s t = Running → inner s = None → q s = hs ++ l →
    (m = All → l = []) → (l ≠ [] → hs ≠ []) → step s (takes s t l (PopPub m k hs))
| s_pop_pub t m k hs : pcs s t = PopPub m k hs → sts s t = Running → step s (gives s t (next_wake m k hs))
| s_skip t m k hs : pcs s t = Signal m k t hs → sts s t = Running →
    step s (moves s t (match m, hs with One, [] => Pop One k | _, _ => next_wake m k hs end))
| s_signal t m k h hs : pcs s t = Signal m k h hs → sts s t = Running → h ≠ t →
    step s (goto (set_tok s h true) t (TryWake m k h hs))
| s_wake t m k h hs : pcs s t = TryWake m k h hs → sts s t = Running →
    sts s h = Sleeping ∨ sts s h = Parked → step s (goto (set_st s h Waking) t (Complete m k h hs))
| s_no_wake t m k h hs : pcs s t = TryWake m k h hs → sts s t = Running →
    sts s h ≠ Parked → step s (moves s t (next_wake m k hs))
| s_complete t m k h hs : pcs s t = Complete m k h hs → sts s t = Running →
    step s (goto (set_st s h Ready) t (next_wake m k hs))
| s_token i t b : tails s !! i = Some (t, TToken b) →
    step s (set_tails (set_tok s t false) (if toks s t || negb b then <[i := (t, TRevert)]> (tails s) else delete i (tails s)))
| s_revert i t w : tails s !! i = Some (t, TRevert) → pcs s t = Away w → sts s t = Parked →
    step s (set_tails (goto (set_st s t Running) t (Remove w)) (delete i (tails s)))
| s_leave i t : tails s !! i = Some (t, TRevert) → (∀ w, pcs s t = Away w → sts s t ≠ Parked) →
    step s (set_tails s (delete i (tails s)))
| s_resume t w : pcs s t = Away w → sts s t = Ready → has_tail s t = false →
    step s (goto (set_st s t Running) t (Remove w))
| s_switch t x y : (∀ w, pcs s t ≠ Away w) → sts s t = x → (x = Running ∧ y = Ready ∨ x = Ready ∧ y = Running) →
    step s (set_st s t y)
| s_outside t : sts s t ≠ Parked → step s (set_tok s t true)
| s_outside_wake t : sts s t = Parked → step s (set_st (set_tok s t true) t Ready).

Lemma exec_step l s s' : exec false l s = Some s' → step s s'.
Proof.
  unfold exec. destruct (panicked s); [done|]. destruct l as [t c|i|t|t|t|t].
  - case_decide as Hr; [|done]. unfold run, wait_op, wake_op, do_wake. destruct (pcs s t) eqn:E.
    all: unfold locked_q, publish; try (intros [= <-]; by econstructor).
    + destruct (cstep t c k (sh s)) as [[p x]|] eqn:Ec; [|done]. intros [= <-]. by eapply s_client.
    + destruct (inner s) eqn:Ei; [done|]. rewrite bool_decide_eq_false_2 by (by intros []).
      destruct (length (q s) <? WAITQUEUE_CAP)%nat; intros [= <-]; [by apply s_push|apply s_overflow].
    + destruct (inner s) eqn:Ei; [done|]. intros [= <-]. by apply s_self_remove.
    + destruct (inner s) eqn:Ei; [done|]. intros [= <-]. by apply s_remove.
    + destruct m; [destruct (q s) as [|h l] eqn:Eq|]; (destruct (inner s) eqn:Ei; [done|]); intros [= <-].
      * by eapply (s_pop s t One k [] []).
      * by eapply (s_pop s t One k [h] l).
      * eapply (s_pop s t All k (q s) []); rewrite ?app_nil_r; done.
    + case_decide as Hh; intros [= <-]; [subst h; by eapply s_skip|by eapply s_signal].
    + destruct (sts s h) eqn:Eh; intros [= <-]; try (by eapply s_no_wake; [done..|rewrite Eh]); by eapply s_wake; auto.
  - unfold run_tail. destruct (tails s !! i) as [[t x]|] eqn:E; [|done]. cbn [mbind option_bind]. destruct x as [b|].
    + intros [= <-]. by eapply s_token.
    + destruct (pcs s t) eqn:Ep; try (intros [= <-]; eapply s_leave; [done|congruence]).
      destruct (sts s t) eqn:Es; intros [= <-]; first [by eapply s_revert | (eapply s_leave; [done|congruence])].
  - destruct (pcs s t) eqn:Ep; try done. destruct (sts s t) eqn:Es; try done.
    cbn [orb]. destruct (has_tail s t) eqn:Et; [done|]. intros [= <-]. by eapply s_resume.
  - destruct (pcs s t) eqn:Ep; try done; destruct (sts s t) eqn:Es; try done; intros [= <-]; eapply s_switch; eauto; congruence.
  - destruct (pcs s t) eqn:Ep; try done; destruct (sts s t) eqn:Es; try done; intros [= <-]; eapply s_switch; eauto; congruence.
  - intros [= <-]. destruct (sts s t) eqn:Es; first [by apply s_outside_wake | (apply s_outside; congruence)].
Qed.

(** ** The queue *)

Definition holds_q (p : pc point site) : bool :=
  match p with Publish _ | SelfPublish _ | RemovePub _ | PopPub _ _ _ => true | _ => false end.

(** Points at which a thread's handle may be in the queue. *)
Definition queued_pc (p : pc point site) : bool :=
  match p with Publish _ | Ready2 _ | SelfRemove _ | Check _ | CasPark _ _ | Away _ | Remove _ => true | _ => false end.

(** The client enters the queue's code only at its two entrances. *)
Definition entrance (p : pc point site) : bool :=
  match p with At _ | Ready1 _ | HasWaiters _ _ => true | _ => false end.

Definition client_enters : Prop := ∀ t c k x p y, cstep t c k x = Some (p, y) → entrance p = true.

Definition inner_ok (s : Sys) : Prop := ∀ t, holds_q (pcs s t) = true ↔ inner s = Some t.

Definition count_ok (s : Sys) : Prop :=
  match inner s with
  | None => waiters s = length (q s)
  | Some u => match pcs s u with
      | Publish _ => ∃ l, q s = l ++ [u] ∧ waiters s = length l
      | _ => (length (q s) <= waiters s)%nat
      end
  end.

Definition queue_ok (s : Sys) : Prop := ∀ t, t ∈ q s → queued_pc (pcs s t) = true.

Context (Hclient : client_enters).

Lemma upd_at {A} (f : tid → A) t x y : (<[t := x]> f) y = if decide (y = t) then x else f y.
Proof. case_decide; [subst; apply fn_lookup_insert|by apply fn_lookup_insert_ne]. Qed.

Lemma next_wake_not m k hs : holds_q (next_wake m k hs) = false ∧ queued_pc (next_wake m k hs) = false.
Proof. by destruct hs. Qed.

Lemma entrance_not p : entrance p = true → holds_q p = false ∧ queued_pc p = false.
Proof. by destruct p. Qed.

(** Only the place of one thread changes. *)
Lemma inner_move s s' t p : pcs s' = <[t := p]> (pcs s) → inner s' = inner s → holds_q p = holds_q (pcs s t) → inner_ok s → inner_ok s'.
Proof. intros Hp Hi Hh H x. rewrite Hp, Hi, upd_at. case_decide; [subst; by rewrite Hh|apply H]. Qed.

Lemma inner_keep s s' : pcs s' = pcs s → inner s' = inner s → inner_ok s → inner_ok s'.
Proof. intros Hp Hi H x. rewrite Hp, Hi. apply H. Qed.

Lemma inner_takes s t l p : inner s = None → holds_q p = true → inner_ok s → inner_ok (takes s t l p).
Proof.
  intros Hi Hh H x. cbn [takes goto set_q pcs inner]. rewrite upd_at. case_decide; [by subst|].
  specialize (H x). rewrite Hi in H. destruct (holds_q (pcs s x)); [by destruct H as [H _]; specialize (H eq_refl)|]. split; congruence.
Qed.

Lemma inner_gives s t p : holds_q (pcs s t) = true → holds_q p = false → inner_ok s → inner_ok (gives s t p).
Proof.
  intros Ht Hh H x. cbn [gives goto set_q pcs inner]. rewrite upd_at. case_decide; [subst; rewrite Hh; done|].
  apply H in Ht. specialize (H x). split; [intros E; apply H in E; congruence|done].
Qed.

Lemma inner_step s s' : step s s' → inner_ok s → inner_ok s'.
Proof.
  intros Hstep Hi. destruct Hstep.
  all: try (eapply inner_keep; [done..|exact Hi]).
  all: try (apply inner_takes; done).
  all: try (apply inner_gives; [by rewrite H|first [done|apply next_wake_not]|done]).
  all: eapply inner_move; [done|done| |exact Hi]; cbn [pcs set_sh set_st set_tok]; try rewrite H; try (by case_match); try apply next_wake_not; try done.
  - apply entrance_not. by eapply Hclient.
  - by destruct m, hs.
  - by rewrite H0.
Qed.

Lemma count_move s s' t p : pcs s' = <[t := p]> (pcs s) → inner s' = inner s → q s' = q s → waiters s' = waiters s →
  holds_q (pcs s t) = false → inner_ok s → count_ok s → count_ok s'.
Proof.
  unfold count_ok. intros Hp Hi Hq Hw Ht Hin H. rewrite Hp, Hi, Hq, Hw. destruct (inner s) as [u|] eqn:E; [|done].
  rewrite upd_at. case_decide; [|done]. subst u. apply Hin in E. congruence.
Qed.

Lemma count_keep s s' : pcs s' = pcs s → inner s' = inner s → q s' = q s → waiters s' = waiters s → count_ok s → count_ok s'.
Proof. unfold count_ok. by intros -> -> -> ->. Qed.

Lemma length_retain t l : (length (retain t l) <= length l)%nat.
Proof. unfold retain. induction l as [|x l IH]; [done|]. rewrite filter_cons. case_decide; cbn [length]; lia. Qed.

Lemma count_step s s' : step s s' → inner_ok s → count_ok s → count_ok s'.
Proof.
  intros Hstep Hi Hc. destruct Hstep.
  all: try (eapply count_keep; [done..|exact Hc]).
  all: try (eapply (count_move s _ t); [done|done|done|done| |exact Hi|exact Hc]; try rewrite H; try done; try rewrite H0; done).
  all: try (unfold count_ok, gives; done).
  all: unfold count_ok in *; cbn [takes goto set_q pcs inner q waiters]; rewrite upd_at, decide_True by done.
  - rewrite H1 in Hc. by exists (q s).
  - rewrite H1 in Hc. rewrite Hc. apply length_retain.
  - rewrite H1 in Hc. rewrite Hc. apply length_retain.
  - rewrite H1 in Hc. rewrite Hc, H2, length_app. lia.
Qed.

Lemma elem_of_retain t l x : x ∈ retain t l ↔ x ∈ l ∧ x ≠ t.
Proof. unfold retain. rewrite list_elem_of_filter. tauto. Qed.

Lemma queue_move s s' t p : pcs s' = <[t := p]> (pcs s) → (∀ x, x ∈ q s' → x ∈ q s) → queued_pc (pcs s t) = true → queued_pc p = true →
  queue_ok s → queue_ok s'.
Proof. intros Hp Hq Ht Hh H x Hx. rewrite Hp, upd_at. case_decide; [done|]. by apply H, Hq. Qed.

Lemma queue_free s s' t p : pcs s' = <[t := p]> (pcs s) → (∀ x, x ∈ q s' → x ∈ q s ∧ (queued_pc (pcs s t) = true → x ≠ t)) →
  queue_ok s → queue_ok s'.
Proof.
  intros Hp Hq H x Hx. destruct (Hq x Hx) as [Hx' Hne]. rewrite Hp, upd_at. case_decide; [|by apply H]. subst x.
  exfalso. by apply Hne; [apply H|].
Qed.

Lemma queue_step s s' : step s s' → queue_ok s → queue_ok s'.
Proof.
  intros Hstep Hq. destruct Hstep.
  all: try exact Hq.
  all: try (eapply (queue_move s _ t); [done|done|by rewrite ?H, ?H0|try (by case_match); done|exact Hq]).
  all: try (eapply (queue_free s _ t); [done| |exact Hq]; intros x' Hx'; split; [exact Hx'|rewrite H; done]).
  - intros x Hx. cbn [takes goto set_q pcs q] in *. rewrite upd_at. case_decide; [done|].
    apply elem_of_app in Hx as [Hx| ->%list_elem_of_singleton]; [by apply Hq|done].
  - eapply (queue_free s _ t); [done| |exact Hq]. intros x [Hx Hn]%elem_of_retain. done.
  - eapply (queue_free s _ t); [done| |exact Hq]. intros x [Hx Hn]%elem_of_retain. done.
  - eapply (queue_free s _ t); [done| |exact Hq]. intros x Hx. rewrite H2, H. split; [apply elem_of_app; by right|done].
Qed.

(** ** Scheduling states, tails and wakers *)

Definition away (p : pc point site) : bool := match p with Away _ => true | _ => false end.

Definition state_ok (s : Sys) : Prop := ∀ t,
  if away (pcs s t) then sts s t = Parked ∨ sts s t = Waking ∨ sts s t = Ready else sts s t = Running ∨ sts s t = Ready.

Definition tail_ok (s : Sys) : Prop := (∀ t x, (t, x) ∈ tails s → away (pcs s t) = true) ∧ NoDup (tails s).*1.

(** The thread a waker has claimed. *)
Definition claims (p : pc point site) : option tid := match p with Complete _ _ h _ => Some h | _ => None end.

Definition claim_ok (s : Sys) : Prop :=
  (∀ u h, claims (pcs s u) = Some h → sts s h = Waking) ∧
  (∀ u u' h, claims (pcs s u) = Some h → claims (pcs s u') = Some h → u = u') ∧
  (∀ h, sts s h = Waking → ∃ u, claims (pcs s u) = Some h).

Lemma next_wake_away m k hs : away (next_wake m k hs) = false ∧ claims (next_wake m k hs) = None.
Proof. by destruct hs. Qed.

Lemma entrance_away p : entrance p = true → away p = false ∧ claims p = None.
Proof. by destruct p. Qed.

(** A running thread goes on running. *)
Lemma state_move s s' t p : pcs s' = <[t := p]> (pcs s) → sts s' = sts s → sts s t = Running → away p = false → state_ok s → state_ok s'.
Proof. intros Hp Hs Ht Ha H x. rewrite Hp, Hs, upd_at. case_decide; [subst; rewrite Ha; by left|apply H]. Qed.

Lemma state_other s s' t h x p : pcs s' = <[t := p]> (pcs s) → sts s' = <[h := x]> (sts s) → sts s t = Running → away p = false →
  sts s h = Parked ∨ sts s h = Waking → x = Waking ∨ x = Ready → state_ok s → state_ok s'.
Proof.
  intros Hp Hs Ht Ha Hh Hx H y. rewrite Hp, Hs, !upd_at. destruct (decide (y = t)) as [->|Hy].
  - rewrite Ha. destruct (decide (t = h)) as [->|]; [exfalso; destruct Hh; congruence|by left].
  - destruct (decide (y = h)) as [->|]; [|apply H]. specialize (H h). destruct (away (pcs s h)); [tauto|destruct H, Hh; congruence].
Qed.

Lemma state_self s s' t x p : pcs s' = <[t := p]> (pcs s) → sts s' = <[t := x]> (sts s) →
  (if away p then x = Parked ∨ x = Waking ∨ x = Ready else x = Running ∨ x = Ready) → state_ok s → state_ok s'.
Proof. intros Hp Hs Hx H y. rewrite Hp, Hs, !upd_at. case_decide; [done|apply H]. Qed.

Lemma not_away (p : pc point site) : (∀ w, p ≠ Away w) → away p = false.
Proof. intros H. destruct p; try done. by destruct (H w). Qed.

Lemma state_step s s' : step s s' → claim_ok s → state_ok s → state_ok s'.
Proof.
  intros Hstep Hc Hs. destruct Hstep.
  all: try exact Hs.
  all: try (eapply (state_move s _ t); [done|done|done|try (by case_match); try apply next_wake_away; done|exact Hs]).
  - eapply (state_move s _ t); [done|done|done| |exact Hs]. by eapply entrance_away, Hclient.
  - eapply (state_self s); [done|done|by left|exact Hs].
  - eapply (state_move s _ t); [done|done|done|by destruct m, hs|exact Hs].
  - eapply (state_other s _ t h Waking); [done|done|done|done| |by left|exact Hs].
    specialize (Hs h). destruct H1 as [E|E]; [|by left]. rewrite E in Hs. destruct (away (pcs s h)); repeat destruct Hs as [Hs|Hs]; congruence.
  - eapply (state_other s _ t h Ready); [done|done|done|apply next_wake_away| |by right|exact Hs].
    right. apply (proj1 Hc t). by rewrite H.
  - eapply (state_self s); [done|done|by left|exact Hs].
  - eapply (state_self s); [done|done|by left|exact Hs].
  - intros x'. cbn [set_st pcs sts]. rewrite upd_at. case_decide; [|apply Hs]. subst x'.
    rewrite (not_away _ H). destruct H1 as [[_ ->]|[_ ->]]; auto.
  - intros x'. cbn [set_st set_tok pcs sts]. rewrite upd_at. case_decide; [|apply Hs]. subst x'.
    specialize (Hs t). destruct (away (pcs s t)); auto.
Qed.

Lemma tail_move s s' t p : pcs s' = <[t := p]> (pcs s) → tails s' = tails s → away (pcs s t) = false → tail_ok s → tail_ok s'.
Proof.
  intros Hp Ht Ha [H1 H2]. split; rewrite ?Ht; [|done]. intros x y Hx. rewrite Hp, upd_at. specialize (H1 x y Hx). case_decide; [congruence|done].
Qed.

(** A tail is dropped or moves on. *)
Lemma tail_shrink s s' : pcs s' = pcs s → (tails s').*1 `sublist_of` (tails s).*1 → (∀ p, p ∈ tails s' → ∃ y, (p.1, y) ∈ tails s) → tail_ok s → tail_ok s'.
Proof.
  intros Hp Hs Hin [H1 H2]. split; [|by eapply sublist_NoDup]. rewrite Hp. intros t x Hx. destruct (Hin _ Hx) as [y Hy]. by eapply H1.
Qed.

Lemma delete_keys {A B} (l : list (A * B)) i : (delete i l).*1 `sublist_of` l.*1 ∧ ∀ p, p ∈ delete i l → ∃ y, (p.1, y) ∈ l.
Proof.
  split; [apply fmap_sublist, sublist_delete|]. intros [a b] Hp. exists b. by eapply list_elem_of_delete_inv.
Qed.

Lemma tail_gone s i t x : tail_ok s → tails s !! i = Some (t, x) → ∀ y, (t, y) ∉ delete i (tails s).
Proof.
  intros [_ Hn] Hi y Hy. rewrite delete_take_drop in Hy. rewrite <- (take_drop_middle _ _ _ Hi), fmap_app, fmap_cons in Hn. cbn [fst] in Hn.
  apply NoDup_app in Hn as (_ & Hd & [Hn _]%NoDup_cons). apply elem_of_app in Hy as [Hy|Hy].
  - apply (Hd t); [by apply (list_elem_of_fmap_2 fst) in Hy|by left].
  - apply Hn. by apply (list_elem_of_fmap_2 fst) in Hy.
Qed.

Lemma has_tail_false s t : has_tail s t = false → ∀ x, (t, x) ∉ tails s.
Proof.
  unfold has_tail. intros H x Hx. assert (E : existsb (λ p, bool_decide (p.1 = t)) (tails s) = true); [|congruence].
  apply existsb_exists. exists (t, x). split; [by apply list_elem_of_In|by apply bool_decide_eq_true].
Qed.

(** A thread comes back after its tail is gone. *)
Lemma tail_back s s' t p : pcs s' = <[t := p]> (pcs s) → (tails s').*1 `sublist_of` (tails s).*1 → (∀ p, p ∈ tails s' → ∃ y, (p.1, y) ∈ tails s) →
  (∀ y, (t, y) ∉ tails s') → tail_ok s → tail_ok s'.
Proof.
  intros Hp Hs Hin Hno [H1 H2]. split; [|by eapply sublist_NoDup]. rewrite Hp. intros x y Hx. rewrite upd_at. case_decide; [subst; by destruct (Hno y)|].
  destruct (Hin _ Hx) as [z Hz]. by eapply H1.
Qed.

Lemma tail_step s s' : step s s' → state_ok s → tail_ok s → tail_ok s'.
Proof.
  intros Hstep Hs Ht. destruct Hstep.
  all: try exact Ht.
  all: try (eapply (tail_move s _ t); [done|done|by rewrite H|exact Ht]).
  - destruct Ht as [H1 H2]. assert (Hno : ∀ y, (t, y) ∉ tails s) by (intros y Hy; apply H1 in Hy; by rewrite H in Hy).
    split; cbn [park set_tails goto set_st pcs tails].
    + intros x y Hx. rewrite upd_at. case_decide; [done|]. apply elem_of_app in Hx as [Hx|[= -> ->]%list_elem_of_singleton]; [by eapply H1|done].
    + rewrite fmap_app. apply NoDup_app. split; [done|]. split; [|apply NoDup_singleton]. intros x Hx Hx2%list_elem_of_singleton.
      apply list_elem_of_fmap in Hx as ([a y] & -> & Hx). cbn in Hx2. subst a. by apply Hno in Hx.
  - apply (tail_shrink s); [done| | |exact Ht]; cbn [set_tails set_tok tails]; destruct (toks s t || negb b); try apply delete_keys.
    + rewrite list_fmap_insert. cbn [fst]. rewrite list_insert_id; [done|]. by rewrite list_lookup_fmap, H.
    + intros p Hp. apply list_elem_of_lookup in Hp as [n Hn]. destruct (decide (n = i)) as [->|].
      * rewrite list_lookup_insert_eq in Hn by (by eapply lookup_lt_Some). injection Hn as <-. eexists. by eapply list_elem_of_lookup_2.
      * rewrite list_lookup_insert_ne in Hn by done. destruct p as [a y]. exists y. by eapply list_elem_of_lookup_2.
  - eapply (tail_back s _ t); [done|apply delete_keys|apply delete_keys|by eapply tail_gone|exact Ht].
  - apply (tail_shrink s); [done|apply delete_keys|apply delete_keys|exact Ht].
  - eapply (tail_back s _ t); [done|done|intros [a y] Hy; by exists y|by apply has_tail_false|exact Ht].
Qed.

Lemma claim_move s s' t p : pcs s' = <[t := p]> (pcs s) → sts s' = sts s → claims (pcs s t) = None → claims p = None → claim_ok s → claim_ok s'.
Proof.
  intros Hp Hs Ht Hn (H1 & H2 & H3). assert (E : ∀ u, claims (pcs s' u) = claims (pcs s u)) by (intros u; rewrite Hp, upd_at; case_decide; [subst; congruence|done]).
  split; [intros u h; rewrite E, Hs; apply H1|]. split; [intros u u' h; rewrite !E; apply H2|].
  intros h Hh. rewrite Hs in Hh. destruct (H3 h Hh) as [u Hu]. exists u. by rewrite E.
Qed.

Lemma claim_st s s' t x p : pcs s' = <[t := p]> (pcs s) → sts s' = <[t := x]> (sts s) → claims (pcs s t) = None → claims p = None →
  sts s t ≠ Waking → x ≠ Waking → claim_ok s → claim_ok s'.
Proof.
  intros Hp Hs Ht Hn Hold Hnew (H1 & H2 & H3).
  assert (E : ∀ u, claims (pcs s' u) = claims (pcs s u)) by (intros u; rewrite Hp, upd_at; case_decide; [subst; congruence|done]).
  split; [|split; [intros u u' h; rewrite !E; apply H2|]].
  - intros u h Hu. rewrite E in Hu. apply H1 in Hu. rewrite Hs, upd_at. case_decide; [subst; congruence|done].
  - intros h. rewrite Hs, upd_at. case_decide; [done|]. intros Hh. destruct (H3 h Hh) as [u Hu]. exists u. by rewrite E.
Qed.

Lemma claim_st_only s s' t x : pcs s' = pcs s → sts s' = <[t := x]> (sts s) → sts s t ≠ Waking → x ≠ Waking → claim_ok s → claim_ok s'.
Proof.
  intros Hp Hs Hold Hnew (H1 & H2 & H3). unfold claim_ok. rewrite Hp. split; [|split; [done|]].
  - intros u h Hu. apply H1 in Hu. rewrite Hs, upd_at. case_decide; [subst; congruence|done].
  - intros h. rewrite Hs, upd_at. case_decide; [done|apply H3].
Qed.

Lemma claim_step s s' : step s s' → state_ok s → claim_ok s → claim_ok s'.
Proof.
  intros Hstep Hs Hc. destruct Hstep.
  all: try exact Hc.
  all: try (eapply (claim_move s _ t); [done|done|by rewrite H|try (by case_match); try apply next_wake_away; done|exact Hc]).
  all: try (eapply (claim_st s _ t); [done|done|by rewrite ?H, ?H0|done|congruence|done|exact Hc]).
  - eapply (claim_move s _ t); [done|done|by rewrite H|by eapply entrance_away, Hclient|exact Hc].
  - eapply (claim_move s _ t); [done|done|by rewrite H|by destruct m, hs|exact Hc].
  - destruct Hc as (C1 & C2 & C3). assert (Hh : sts s h ≠ Waking) by (destruct H1; congruence).
    assert (Hth : h ≠ t) by (intros ->; destruct H1; congruence).
    assert (E : ∀ u, claims (pcs (goto (set_st s h Waking) t (Complete m k h hs)) u) = if decide (u = t) then Some h else claims (pcs s u))
      by (intros u; cbn; rewrite upd_at; by case_decide).
    split; [|split].
    + intros u x. rewrite E. cbn [sts goto set_st]. rewrite upd_at. case_decide; [intros [= ->]; by rewrite decide_True|].
      intros Hu. case_decide; [done|]. by eapply C1.
    + intros u u' x. rewrite !E. repeat case_decide; subst; try done; try (by apply C2).
      * intros [= ->] Hu. by apply C1 in Hu.
      * intros Hu [= ->]. by apply C1 in Hu.
    + intros x. cbn [sts goto set_st]. rewrite upd_at. case_decide; [intros _; exists t; subst; by rewrite E, decide_True|].
      intros Hx. destruct (C3 x Hx) as [u Hu]. exists u. rewrite E. case_decide; [|done]. subst u. by rewrite H in Hu.
  - destruct Hc as (C1 & C2 & C3). assert (Ht : claims (pcs s t) = Some h) by (by rewrite H).
    assert (E : ∀ u, claims (pcs (goto (set_st s h Ready) t (next_wake m k hs)) u) = if decide (u = t) then None else claims (pcs s u))
      by (intros u; cbn; rewrite upd_at; case_decide; [apply next_wake_away|done]).
    split; [|split].
    + intros u x. rewrite E. case_decide; [done|]. intros Hu. cbn [sts goto set_st]. rewrite upd_at. case_decide; [subst; by destruct (C2 u t h Hu Ht)|].
      by eapply C1.
    + intros u u' x. rewrite !E. repeat case_decide; try done. apply C2.
    + intros x. cbn [sts goto set_st]. rewrite upd_at. case_decide; [done|]. intros Hx. destruct (C3 x Hx) as [u Hu]. exists u. rewrite E.
      case_decide; [subst; congruence|done].
  - apply (claim_st_only s _ t y); [done|done| | |exact Hc]; destruct H1 as [[-> ->]|[-> ->]]; congruence.
  - eapply (claim_st_only s _ t); [done|done|congruence|done|exact Hc].
Qed.

(** ** Enrolment *)

(** A waker holds the handle of [h], or has signalled it and is about to try it. *)
Definition targets (p : pc point site) (h : tid) : Prop :=
  match p with
  | PopPub _ _ hs | TryWake _ _ _ hs | Complete _ _ _ hs => h ∈ hs
  | Signal _ _ x hs => h = x ∨ h ∈ hs
  | _ => False
  end.
Definition probes (p : pc point site) (h : tid) : Prop := match p with TryWake _ _ x _ => x = h | _ => False end.

Definition coming (s : Sys) (h : tid) : Prop := ∃ u, targets (pcs s u) h.
Definition probed (s : Sys) (h : tid) : Prop := ∃ u, probes (pcs s u) h.

(** A thread that may stop looking at its predicate is in the queue, or some
    waker has its handle, or the token or its tail will turn it back. *)
Definition enrolled (s : Sys) (t : tid) : Prop :=
  match pcs s t with
  | Publish _ | Ready2 _ | Check _ | CasPark _ _ => t ∈ q s ∨ coming s t ∨ toks s t = true
  | Away _ => sts s t = Parked → t ∈ q s ∨ coming s t ∨ probed s t ∨ ∃ x, (t, x) ∈ tails s ∧ (x = TToken true → toks s t = true)
  | _ => True
  end.

(** A step that changes nothing [y] depends on, except that a waker may take
    its handle. *)
Record calm (s s' : Sys) (y : tid) : Prop := {
  c_pc : pcs s' y = pcs s y;
  c_st : sts s' y = Parked → sts s y = Parked;
  c_tok : toks s y = true → toks s' y = true;
  c_q : y ∈ q s → y ∈ q s' ∨ coming s' y;
  c_coming : coming s y → coming s' y ∨ toks s' y = true ∧ probed s' y;
  c_probed : sts s' y = Parked → probed s y → probed s' y;
  c_tails : ∀ x, (y, x) ∈ tails s → (y, x) ∈ tails s'
}.

Lemma enrolled_calm s s' y : calm s s' y → enrolled s y → enrolled s' y.
Proof.
  unfold enrolled. intros [-> Hs Ht Hq Hc Hp Hx] He.
  assert (G : y ∈ q s ∨ coming s y ∨ toks s y = true → y ∈ q s' ∨ coming s' y ∨ toks s' y = true) by (intros [H|[H|H]]; [destruct (Hq H)|destruct (Hc H) as [|[]]|]; auto).
  destruct (pcs s y); auto. intros Hy. destruct (He (Hs Hy)) as [H|[H|[H|(x & H1 & H2)]]].
  - destruct (Hq H); auto.
  - destruct (Hc H) as [|[]]; auto.
  - auto.
  - right. right. right. exists x. auto.
Qed.

Lemma coming_move s s' t p h : pcs s' = <[t := p]> (pcs s) → (targets (pcs s t) h → targets p h) → coming s h → coming s' h.
Proof.
  intros Hp Ht [u Hu]. destruct (decide (u = t)) as [->|Hne].
  - exists t. rewrite Hp, upd_at, decide_True by done. auto.
  - exists u. by rewrite Hp, upd_at, decide_False.
Qed.

Lemma probed_move s s' t p h : pcs s' = <[t := p]> (pcs s) → (probes (pcs s t) h → probes p h) → probed s h → probed s' h.
Proof.
  intros Hp Ht [u Hu]. destruct (decide (u = t)) as [->|Hne].
  - exists t. rewrite Hp, upd_at, decide_True by done. auto.
  - exists u. by rewrite Hp, upd_at, decide_False.
Qed.

Lemma next_wake_targets m k hs h : h ∈ hs → targets (next_wake m k hs) h.
Proof. destruct hs as [|x hs]; [by intros ?%elem_of_nil|]. by intros [->|H]%elem_of_cons; [left|right]. Qed.

(** One thread moves; the others stay. *)
Lemma calm_other s s' t p y : y ≠ t → pcs s' = <[t := p]> (pcs s) → sts s' y = sts s y → (toks s y = true → toks s' y = true) →
  (y ∈ q s → y ∈ q s' ∨ targets p y) → (targets (pcs s t) y → targets p y) → (probes (pcs s t) y → probes p y) →
  (∀ x, (y, x) ∈ tails s → (y, x) ∈ tails s') → calm s s' y.
Proof.
  intros Hne Hp Hs Ht Hq Hc Hr Hx. split; rewrite ?Hs; auto.
  - by rewrite Hp, upd_at, decide_False.
  - intros Hy. destruct (Hq Hy) as [|Hy2]; [by left|right]. exists t. by rewrite Hp, upd_at, decide_True.
  - intros Hy. left. by eapply coming_move.
  - intros _ Hy. by eapply probed_move.
Qed.

Definition looking (p : pc point site) : bool := match p with Publish _ | Ready2 _ | Check _ | CasPark _ _ => true | _ => false end.

Lemma enrolled_looking s t : looking (pcs s t) = true → enrolled s t ↔ t ∈ q s ∨ coming s t ∨ toks s t = true.
Proof. unfold enrolled. by destruct (pcs s t). Qed.

(** A thread goes on from one such point to the next. *)
Lemma enrolled_stay s s' t p : pcs s' = <[t := p]> (pcs s) → looking (pcs s t) = true → looking p = true → q s' = q s → toks s' = toks s →
  enrolled s t → enrolled s' t.
Proof.
  intros Hp H1 H2 Hq Ht He. apply enrolled_looking in He; [|done]. apply enrolled_looking; [by rewrite Hp, upd_at, decide_True|].
  rewrite Hq, Ht. destruct He as [?|[Hc|?]]; auto. right. left. eapply coming_move; [exact Hp| |exact Hc]. by destruct (pcs s t).
Qed.

Lemma enrolled_park s t w b : pcs s t = CasPark w b → enrolled s t → enrolled (park s t w b) t.
Proof.
  intros Hp He. apply enrolled_looking in He; [|by rewrite Hp]. unfold enrolled. cbn [park set_tails goto set_st pcs sts toks tails q].
  rewrite !upd_at, !decide_True by done. intros _. destruct He as [?|[Hc|Ht]]; [by left| |].
  - right. left. eapply (coming_move s _ t (Away w)); [done| |exact Hc]. by rewrite Hp.
  - right. right. right. exists (TToken b). split; [apply elem_of_app; right; by left|done].
Qed.

Lemma list_elem_of_delete_ne {A} (l : list A) i n x : n ≠ i → l !! n = Some x → x ∈ delete i l.
Proof.
  intros Hne Hn. rewrite delete_take_drop. apply elem_of_app. destruct (decide (n < i)%nat).
  - left. eapply list_elem_of_lookup_2. by rewrite lookup_take_lt.
  - right. eapply (list_elem_of_lookup_2 _ (n - S i)). rewrite lookup_drop. replace (S i + (n - S i))%nat with n by lia. done.
Qed.

Lemma tails_other s i t x y z (l : list (tid * Tail)) : tails s !! i = Some (t, x) → y ≠ t → (y, z) ∈ tails s →
  l = delete i (tails s) ∨ (∃ x', l = <[i := (t, x')]> (tails s)) → (y, z) ∈ l.
Proof.
  intros Hi Hne Hy [->|[x' ->]]; apply list_elem_of_lookup in Hy as [n Hn]; assert (n ≠ i) by congruence.
  - by eapply list_elem_of_delete_ne.
  - eapply list_elem_of_lookup_2. by rewrite list_lookup_insert_ne.
Qed.

(** The tail's look at the token. *)
Lemma enrolled_token s i t b : tail_ok s → tails s !! i = Some (t, TToken b) → enrolled s t →
  enrolled (set_tails (set_tok s t false) (if toks s t || negb b then <[i := (t, TRevert)]> (tails s) else delete i (tails s))) t.
Proof.
  intros Ht Hi He. pose proof Ht as [Haway _]. specialize (Haway t _ (list_elem_of_lookup_2 _ _ _ Hi)).
  unfold enrolled in *. cbn [set_tails set_tok pcs sts toks tails q]. destruct (pcs s t) eqn:Ep; try done. intros Hs.
  destruct (toks s t || negb b) eqn:Eb.
  - right. right. right. exists TRevert. split; [|done]. eapply list_elem_of_lookup_2, list_lookup_insert_eq. by eapply lookup_lt_Some.
  - apply orb_false_iff in Eb as [Etok Eb]. destruct (He Hs) as [?|[?|[?|(x & Hx & Hx2)]]]; auto.
    exfalso. apply list_elem_of_lookup in Hx as [n Hn]. destruct (decide (n = i)) as [->|Hne].
    + rewrite Hi in Hn. injection Hn as <-. destruct b; [|done]. by rewrite Hx2 in Etok.
    + eapply (tail_gone s i t _ Ht Hi x). by eapply list_elem_of_delete_ne.
Qed.

Lemma calm_signal s t m k h hs y : pcs s t = Signal m k h hs → h ≠ t → y ≠ t →
  calm s (goto (set_tok s h true) t (TryWake m k h hs)) y.
Proof.
  intros Hp Hht Hne. split; cbn [goto set_tok pcs sts toks tails q]; rewrite ?upd_at; auto.
  - by rewrite decide_False.
  - by case_decide.
  - intros [u Hu]. destruct (decide (u = t)) as [->|Hu']; [|left; exists u; cbn; by rewrite upd_at, decide_False].
    rewrite Hp in Hu. destruct Hu as [->|Hu]; [right|left].
    + split; [by rewrite decide_True|]. exists t. cbn. by rewrite upd_at, decide_True.
    + exists t. cbn. by rewrite upd_at, decide_True.
  - intros _ [u Hu]. destruct (decide (u = t)) as [->|Hu']; [by rewrite Hp in Hu|]. exists u. cbn. by rewrite upd_at, decide_False.
Qed.

(** A probe that ends: the thread is no longer parked. *)
Lemma calm_probe s s' t m k h hs p y : pcs s t = TryWake m k h hs ∨ pcs s t = Complete m k h hs → y ≠ t → pcs s' = <[t := p]> (pcs s) →
  toks s' = toks s → q s' = q s → tails s' = tails s → (sts s' y = Parked → sts s y = Parked ∧ h ≠ y) → (∀ x, x ∈ hs → targets p x) → calm s s' y.
Proof.
  intros Hpc Hne Hp Htok Hq Htl Hs Ht. split; rewrite ?Htok, ?Hq, ?Htl; auto.
  - by rewrite Hp, upd_at, decide_False.
  - intros Hy. by apply Hs in Hy as [? _].
  - intros Hc. left. eapply coming_move; [exact Hp| |exact Hc]. intros Hy. apply Ht. by destruct Hpc as [E|E]; rewrite E in Hy.
  - intros Hy Hpr. eapply probed_move; [exact Hp| |exact Hpr]. intros Hy2. destruct (Hs Hy) as [_ Hh]. by destruct Hpc as [E|E]; rewrite E in Hy2.
Qed.

(** What a step is to a thread: the thread's own, or a look of its tail, or calm. *)
Inductive part (s s' : Sys) (y : tid) : Prop :=
| p_calm : calm s s' y → part s s' y
| p_free : looking (pcs s' y) = false → away (pcs s' y) = false → part s s' y
| p_push w : pcs s' y = Publish w → y ∈ q s' → part s s' y
| p_go p : pcs s' = <[y := p]> (pcs s) → looking (pcs s y) = true → looking p = true → q s' = q s → toks s' = toks s →
    (∀ w, p = CasPark w true → pcs s y = Check w ∧ ready w (sh s) = false) → part s s' y
| p_park w b : pcs s y = CasPark w b → s' = park s y w b → part s s' y
| p_token i b : tails s !! i = Some (y, TToken b) →
    s' = set_tails (set_tok s y false) (if toks s y || negb b then <[i := (y, TRevert)]> (tails s) else delete i (tails s)) → part s s' y
| p_up : pcs s' y = pcs s y → sts s' y ≠ Parked → looking (pcs s y) = false → part s s' y.

Lemma next_wake_free2 m k hs : looking (next_wake m k hs) = false ∧ away (next_wake m k hs) = false.
Proof. by destruct hs. Qed.

(** The step is [t]'s and [t] is not at risk of sleeping after it. *)
Lemma part_free s s' t p : pcs s' = <[t := p]> (pcs s) → looking p = false → away p = false → part s s' t.
Proof. intros Hp H1 H2. by apply p_free; rewrite Hp, upd_at, decide_True. Qed.

Lemma step_part s s' y : step s s' → tail_ok s → part s s' y.
Proof.
  intros Hstep Ht. destruct Hstep; try (apply p_calm; by split; auto).
  all: try (destruct (decide (y = t)) as [->|Hne];
    [try (eapply part_free; [done|try (by case_match); try apply next_wake_free2; done..])|apply p_calm];
     try (eapply (calm_other s _ t); [done|done|done|done|by left|rewrite H; try done; try apply next_wake_targets|by rewrite H|done])).
  - apply Hclient in H1. by destruct p; try done; eapply part_free.
  - eapply p_push; cbn; [by rewrite upd_at, decide_True|]. apply elem_of_app. right. by left.
  - eapply (calm_other s _ t); [done|done|done|done| |by rewrite H|by rewrite H|done]. intros Hq. left. cbn. apply elem_of_app. by left.
  - eapply p_go; [done|by rewrite H|done|done|done|done].
  - destruct (ready w (sh s)); [by eapply part_free|]. eapply p_go; [done|by rewrite H|done|done|done|done].
  - eapply (calm_other s _ t); [done|done|done|done| |by rewrite H|by rewrite H|done]. intros Hq. left. by apply elem_of_retain.
  - eapply p_go; [done|by rewrite H|done|done|done|]. intros w' [= -> Hr]. rewrite H. by destruct (ready w' (sh s)).
  - by eapply p_park.
  - eapply (calm_other s _ t); [done|done|cbn; by rewrite upd_at, decide_False|done|by left|by rewrite H|by rewrite H|].
    intros x Hx. cbn. apply elem_of_app. by left.
  - eapply (calm_other s _ t); [done|done|done|done| |by rewrite H|by rewrite H|done]. intros Hq. left. by apply elem_of_retain.
  - eapply (calm_other s _ t); [done|done|done|done| |by rewrite H|by rewrite H|done].
    intros Hq. rewrite H2 in Hq. apply elem_of_app in Hq as [Hq|Hq]; [by right|by left].
  - by eapply part_free; [done|destruct m, hs..].
  - intros [->|Hin]; [done|]. destruct m, hs; try (by apply elem_of_nil in Hin); by apply (next_wake_targets _ k).
  - by apply calm_signal.
  - eapply (calm_probe s _ t m k h hs); [by left|done|done|done|done|done| |done].
    cbn. rewrite upd_at. case_decide; [done|auto].
  - eapply (calm_probe s _ t m k h hs); [by left|done|done|done|done|done| |intros x; apply next_wake_targets].
    cbn. intros Hp. split; [done|]. by intros ->.
  - eapply (calm_probe s _ t m k h hs); [by right|done|done|done|done|done| |intros x; apply next_wake_targets].
    cbn. rewrite upd_at. case_decide; [done|auto].
  - by eapply p_token.
  - split; cbn; auto; [rewrite upd_at, decide_False by done; done|].
    intros x Hx. eapply tails_other; [exact H|done|exact Hx|]. destruct (toks s t || negb b); [right; by eexists|by left].
  - eapply (calm_other s _ t); [done|done|cbn; by rewrite upd_at, decide_False|done|by left|by rewrite H0|by rewrite H0|].
    intros x Hx. eapply tails_other; [exact H|done|exact Hx|by left].
  - destruct Ht as [Ha _]. specialize (Ha t _ (list_elem_of_lookup_2 _ _ _ H)). destruct (pcs s t) eqn:Ep; try done.
    apply p_up; rewrite ?Ep; [done|by apply (H0 w)|done].
  - split; cbn; auto. intros x Hx. eapply tails_other; [exact H|done|exact Hx|by left].
  - eapply (calm_other s _ t); [done|done|cbn; by rewrite upd_at, decide_False|done|by left|by rewrite H|by rewrite H|done].
  - apply p_calm. split; cbn; auto. rewrite upd_at, decide_True by done. destruct H1 as [[-> ->]|[-> ->]]; done.
  - split; cbn; auto. by rewrite upd_at, decide_False.
  - apply p_calm. split; cbn; auto. by rewrite upd_at, decide_True.
  - split; cbn; auto. by rewrite upd_at, decide_False.
  - apply p_calm. split; cbn; auto; by rewrite upd_at, decide_True.
  - split; cbn; auto; by rewrite upd_at, decide_False.
Qed.

Lemma enrolled_step s s' : step s s' → tail_ok s → (∀ y, enrolled s y) → ∀ y, enrolled s' y.
Proof.
  intros Hstep Ht He y. pose proof (He y) as Hy.
  destruct (step_part s s' y Hstep Ht) as [Hc|H1 H2|w Hp Hq|p Hp H1 H2 Hq Htok _|w b Hp ->|i b Hi ->|Hp Hs Hl].
  - by eapply enrolled_calm.
  - unfold enrolled. by destruct (pcs s' y).
  - unfold enrolled. rewrite Hp. by left.
  - by eapply enrolled_stay.
  - by apply enrolled_park.
  - by apply enrolled_token.
  - unfold enrolled. rewrite Hp. by destruct (pcs s y).
Qed.

End System.

End ParkWake.
