(* ===== verification/ParkSafety.v ===== *)
(** * Parking: who still has to be woken

    The invariant of the wait queue and the park protocol, and how the set of
    threads that sleep with nobody on the way to wake them changes from step to
    step. The locks built on the queue finish the argument. *)

From stdpp Require Import functions.
From S2P Require Import Prelude ParkWake.

Module ParkSafety.

Import ParkWake.

Section Safety.

Context `{C : Client} (Hclient : client_enters).

Record wq_inv (s : Sys) : Prop := {
  v_inner : inner_ok s; v_count : count_ok s; v_queue : queue_ok s;
  v_state : state_ok s; v_tail : tail_ok s; v_claim : claim_ok s; v_enrolled : ∀ y, enrolled s y
}.

Lemma wq_inv_step s s' : step s s' → wq_inv s → wq_inv s'.
Proof.
  intros Hs [H1 H2 H3 H4 H5 H6 H7].
  split; [by eapply inner_step|by eapply count_step|by eapply queue_step|by eapply state_step|by eapply tail_step|by eapply claim_step|by eapply enrolled_step].
Qed.

(** The start: every thread runs its own code. *)
Definition fresh (s : Sys) : Prop :=
  inner s = None ∧ q s = [] ∧ waiters s = 0%nat ∧ tails s = [] ∧ ∀ t, sts s t = Running ∧ ∃ k, pcs s t = At k.

Lemma wq_inv_fresh s : fresh s → wq_inv s.
Proof.
  intros (H1 & H2 & H3 & H4 & H5). split.
  - intros t. destruct (H5 t) as [_ [k ->]]. by rewrite H1.
  - unfold count_ok. by rewrite H1, H2, H3.
  - intros t. rewrite H2. by intros ?%elem_of_nil.
  - intros t. destruct (H5 t) as [-> [k ->]]. by left.
  - split; rewrite H4; [by intros t x ?%elem_of_nil|constructor].
  - split; [|split]; [intros u h|intros u u' h|intros h]; try (destruct (H5 u) as [_ [k ->]]; done). by destruct (H5 h) as [-> _].
  - intros y. unfold enrolled. by destruct (H5 y) as [_ [k ->]].
Qed.

(** [t] has looked at its predicate for the last time before it is woken. *)
Definition dozing (s : Sys) (t : tid) : Prop :=
  match pcs s t with
  | CasPark _ true => toks s t = false
  | Away _ => sts s t = Parked ∧ ∀ x, (t, x) ∈ tails s → x = TToken true ∧ toks s t = false
  | _ => False
  end.

(** ... and nobody has its handle. *)
Definition passive (s : Sys) (t : tid) : Prop := dozing s t ∧ ¬ coming s t ∧ (sts s t = Parked → ¬ probed s t).

Definition site_of (p : pc point site) : option site := match p with CasPark w _ | Away w => Some w | _ => None end.

Lemma passive_queued s t : wq_inv s → passive s t → t ∈ q s.
Proof.
  intros Hv (Hd & Hc & Hp). pose proof (v_enrolled s Hv t) as He. unfold dozing in Hd. unfold enrolled in He.
  destruct (pcs s t); try done.
  - destruct should_park; [|done]. destruct He as [?|[?|?]]; [done|done|congruence].
  - destruct Hd as [Hs Hd]. destruct (He Hs) as [?|[?|[?|(x & Hx & Hx2)]]]; [done|done|by destruct (Hp Hs)|].
    destruct (Hd x Hx) as [-> Ht]. by rewrite Hx2 in Ht.
Qed.

(** A thread becomes passive only at its last look, and only if its predicate
    was false there. *)
Lemma passive_step s s' y : step s s' → wq_inv s → passive s' y →
  (passive s y ∧ site_of (pcs s y) = site_of (pcs s' y)) ∨
  ∃ w, pcs s y = Check w ∧ ready w (sh s) = false ∧ pcs s' y = CasPark w true.
Proof.
  intros Hstep Hv (Hd & Hc & Hp).
  destruct (step_part Hclient s s' y Hstep (v_tail s Hv)) as [[E1 E2 E3 E4 E5 E6 E7]|H1 H2|w Hw Hq|p Hw H1 H2 Hq Htok Hlook|w b Hw ->|i b Hi ->|Hw Hs Hl].
  - left. split; [|by rewrite E1]. assert (Hstate : looking (pcs s y) = true → sts s y ≠ Parked).
    { pose proof (v_state s Hv y) as Hst. destruct (pcs s y); cbn [away looking] in *; try done; intros _; destruct Hst; congruence. }
    unfold passive, dozing in *. rewrite E1 in Hd. destruct (pcs s y) eqn:Ep; try done.
    + destruct should_park; [|done]. assert (Ht : toks s y = false) by (destruct (toks s y); [by rewrite E3 in Hd|done]).
      split; [done|]. split; [|intros Hy; by destruct (Hstate eq_refl)]. intros Hco. destruct (E5 Hco) as [?|[? _]]; [done|congruence].
    + destruct Hd as [Hs Hd]. split; [split; [auto|]|].
      * intros x Hx. destruct (Hd x (E7 x Hx)) as [-> Ht]. split; [done|]. destruct (toks s y); [by rewrite E3 in Ht|done].
      * split; [intros Hco; destruct (E5 Hco) as [?|[_ ?]]; [done|by apply Hp]|]. intros _ Hpr. by apply Hp; auto.
  - unfold dozing in Hd. by destruct (pcs s' y).
  - unfold dozing in Hd. by rewrite Hw in Hd.
  - right. unfold dozing in Hd. assert (Ey : pcs s' y = p) by (by rewrite Hw, upd_at, decide_True). rewrite Ey in *.
    destruct p; try done. destruct should_park; [|done]. destruct (Hlook w eq_refl). by exists w.
  - left. split; [|cbn; rewrite upd_at, decide_True by done; by rewrite Hw].
    unfold dozing in Hd. cbn [park set_tails goto set_st pcs sts toks tails] in Hd. rewrite !upd_at, !decide_True in Hd by done.
    destruct Hd as [_ Hd]. destruct (Hd (TToken b)) as [[= ->] Ht]; [apply elem_of_app; right; by left|].
    unfold passive, dozing. rewrite Hw. split; [done|]. split.
    + intros Hco. apply Hc. eapply (coming_move s _ y (Away w)); [done|by rewrite Hw|exact Hco].
    + pose proof (v_state s Hv y) as Hst. rewrite Hw in Hst. cbn in Hst. destruct Hst; congruence.
  - left. pose proof (v_tail s Hv) as Ht. pose proof Ht as [Ha _]. specialize (Ha y _ (list_elem_of_lookup_2 _ _ _ Hi)). split; [|done].
    unfold passive, dozing in *. cbn [set_tails set_tok pcs sts toks tails] in *. destruct (pcs s y) eqn:Ep; try done. destruct Hd as [Hs Hd].
    destruct (toks s y || negb b) eqn:Eb.
    + destruct (Hd TRevert) as [? _]; [|done]. eapply list_elem_of_lookup_2, list_lookup_insert_eq. by eapply lookup_lt_Some.
    + apply orb_false_iff in Eb as [Et Eb]. destruct b; [|done]. split; [split; [done|]|by split]. intros x Hx. split; [|done].
      apply list_elem_of_lookup in Hx as [n Hn]. destruct (decide (n = i)) as [->|Hne]; [congruence|]. exfalso.
      apply (tail_gone s i y _ Ht Hi x), (list_elem_of_delete_ne _ i n); done.
  - unfold dozing in Hd. rewrite Hw in Hd. destruct (pcs s y); try done. by destruct Hd.
Qed.

(** ** Who will look again *)

(** A step of the client's own code. *)
Definition client_step (s s' : Sys) : Prop :=
  ∃ t c k p x, pcs s t = At k ∧ sts s t = Running ∧ cstep t c k (sh s) = Some (p, x) ∧ s' = goto (set_sh s x) t p.

(** The client point a wake returns to. *)
Definition ret (p : pc point site) : option point :=
  match p with
  | HasWaiters _ k | Pop _ k | PopPub _ k _ | Signal _ k _ _ | TryWake _ k _ _ | Complete _ k _ _ => Some k
  | _ => None
  end.

(** The site of a wait. *)
Definition waits (p : pc point site) : option site :=
  match p with
  | Ready1 w | Push w | Publish w | Ready2 w | SelfRemove w | SelfPublish w | Check w | CasPark w _ | Away w | Remove w | RemovePub w => Some w
  | _ => None
  end.

Lemma ret_next_wake m k hs :
  (ret (next_wake m k hs) = Some k ∧ waits (next_wake m k hs) = None ∧ ∀ k', next_wake m k hs ≠ At k') ∨ next_wake m k hs = At k.
Proof. destruct hs; [by right|by left]. Qed.

(** A step that is not the client's leaves its words alone and moves at most one
    thread, which comes back to the client only where it should. *)
Definition shape (s s' : Sys) : Prop :=
  client_step s s' ∨
  (sh s' = sh s ∧
   (pcs s' = pcs s ∨
    ∃ t p, pcs s' = <[t := p]> (pcs s) ∧ (∀ k, pcs s t ≠ At k) ∧
      ((∃ w, waits (pcs s t) = Some w ∧ p = At (after w)) ∨ (∃ k, ret (pcs s t) = Some k ∧ p = At k) ∨
       (ret p = ret (pcs s t) ∧ waits p = waits (pcs s t) ∧ ∀ k, p ≠ At k)))).

Lemma step_shape s s' : step s s' → shape s s'.
Proof.
  intros Hstep. destruct Hstep; [left; by exists t, c, k, p, x|..]; right; (split; [done|]); try (by left); right.
  all: eexists t, _; (split; [done|]); (split; [rewrite ?H, ?H0; done|]); cbn [ret waits]; rewrite ?H, ?H0; cbn [ret waits].
  all: try (right; right; split; done).
  all: try (left; by exists w).
  - destruct (ready w (sh s)); [left; by exists w|by right; right].
  - destruct (ready w (sh s)); by right; right.
  - destruct (waiters s =? 0)%nat; [right; left; by exists k|by right; right].
  - destruct (ret_next_wake m k hs) as [?|E]; [by right; right|]. right; left. exists k. by rewrite E.
  - destruct m, hs; try (by right; right). right; left. by exists k.
  - destruct (ret_next_wake m k hs) as [?|E]; [by right; right|]. right; left. exists k. by rewrite E.
  - destruct (ret_next_wake m k hs) as [?|E]; [by right; right|]. right; left. exists k. by rewrite E.
Qed.

(** The same whether or not a thread may be resumed early. *)
Lemma exec_shape early l s s' : exec early l s = Some s' → shape s s'.
Proof.
  intros E. destruct early; [|by apply step_shape, (exec_step l)]. destruct l as [t c|i|t|t|t|t].
  3: { revert E. unfold exec. destruct (panicked s); [done|]. destruct (pcs s t) eqn:Ep; try done. destruct (sts s t); try done.
       intros [= <-]. right. split; [done|]. right. exists t, (Remove w). split_and!; [done|by rewrite Ep|]. right; right. by rewrite Ep. }
  1: apply step_shape, (exec_step (Run t c)), E.
  1: apply step_shape, (exec_step (RunTail i)), E.
  1: apply step_shape, (exec_step (Preempt t)), E.
  1: apply step_shape, (exec_step (Resched t)), E.
  apply step_shape, (exec_step (Outside t)), E.
Qed.

(** A thread no label names stays where it is. *)
Definition names (l : label) (t : tid) : bool :=
  match l with Run u _ | Resume u | Preempt u | Resched u | Outside u => bool_decide (u = t) | RunTail _ => false end.

Definition apart (s0 s : Sys) (t : tid) : Prop := pcs s t = pcs s0 t ∧ ∀ x, (t, x) ∉ tails s.

Lemma run_others c u s s' t : run c u s = Some s' → u ≠ t → (∀ x, (t, x) ∉ tails s) → apart s s' t.
Proof.
  intros E Hn Ht. unfold run, wait_op, wake_op, do_wake in E. assert (Hput : ∀ p, (<[u := p]> (pcs s)) t = pcs s t) by (intros p; by rewrite upd_at, decide_False).
  destruct (pcs s u) eqn:Ep; unfold locked_q, publish in E; try (injection E as <-; split; [apply Hput|done]).
  all: try (repeat case_match; simplify_eq; (split; [cbn; first [apply Hput|done]|done])).
  - destruct (cstep u c k (sh s)) as [[p x]|]; [|done]. injection E as <-. split; [apply Hput|done].
  - injection E as <-. split; [apply Hput|]. cbn. intros x [?|[=]%list_elem_of_singleton]%elem_of_app; [by eapply Ht|congruence].
Qed.

Lemma exec_others early l s s' t : exec early l s = Some s' → names l t = false → (∀ x, (t, x) ∉ tails s) → apart s s' t.
Proof.
  intros E Hn Ht. unfold exec in E. destruct (panicked s); [done|]. destruct l as [u c|i|u|u|u|u]; cbn in Hn; rewrite ?bool_decide_eq_false in Hn.
  - case_decide; [|done]. by eapply run_others.
  - unfold run_tail in E. destruct (tails s !! i) as [[u x]|] eqn:Ei; [|done]. cbn in E.
    assert (Hu : u ≠ t) by (intros ->; by eapply Ht, list_elem_of_lookup_2).
    assert (Hdel : ∀ y, (t, y) ∉ delete i (tails s)).
    { intros y Hy. eapply Ht. apply list_elem_of_lookup in Hy as [n Hn']. rewrite list_lookup_delete in Hn'. case_decide; by eapply list_elem_of_lookup_2. }
    destruct x as [b|]; [destruct (toks s u || negb b); injection E as <-; (split; [done|]); [|exact Hdel]|].
    + cbn. intros y [n Hn']%list_elem_of_lookup. apply list_lookup_insert_Some in Hn' as [(_ & [= ? _] & _)|[_ Hn']]; [done|].
      by eapply Ht, list_elem_of_lookup_2.
    + repeat case_match; injection E as <-; (split; [cbn; by rewrite ?upd_at, ?decide_False|exact Hdel]).
  - repeat case_match; simplify_eq; split; try done. cbn. by rewrite upd_at, decide_False.
  - repeat case_match; simplify_eq; by split.
  - repeat case_match; simplify_eq; by split.
  - repeat case_match; simplify_eq; by split.
Qed.

Lemma execs_others early ls s s' t : execs early ls s = Some s' → existsb (λ l, names l t) ls = false →
  (∀ x, (t, x) ∉ tails s) → apart s s' t.
Proof.
  intros E Hn Ht. unfold execs in E. revert s' E Hn. induction ls as [|l ls IH] using rev_ind; intros s'; [by intros [= <-]|].
  rewrite foldl_app, existsb_app. cbn. destruct (foldl _ _ ls) as [s0|]; [|done]. cbn. intros E [H1 H2]%orb_false_iff.
  rewrite orb_false_r in H2. destruct (IH s0 eq_refl H1) as [H3 H4]. destruct (exec_others early l s0 s' t E H2 H4) as [H5 H6].
  split; [by rewrite H5|done].
Qed.

(** What every operation keeps, every run keeps. *)
Lemma execs_inv (P : Sys → Prop) early ls s0 s : (∀ l s s', exec early l s = Some s' → P s → P s') → P s0 →
  execs early ls s0 = Some s → P s.
Proof.
  intros Hstep Hinit E. unfold execs in E. revert s E. induction ls as [|l ls IH] using rev_ind; intros s; [by intros [= <-]|].
  rewrite foldl_app. cbn. destruct (foldl _ _ ls) as [s1|]; [|done]. intros E. eapply Hstep; [exact E|]. by apply IH.
Qed.

(** [t] sleeps in a wait, off its CPU. *)
Definition asleep (s : Sys) (t : tid) : Prop := (∃ w, pcs s t = Away w) ∧ sts s t = Parked ∧ has_tail s t = false.

(** In a system of which the rest is asleep too or in the client's code. *)
Lemma asleep_passive s t : (∀ u, (∃ k, pcs s u = At k) ∨ asleep s u) → asleep s t → passive s t.
Proof.
  intros Hall ([w Hw] & Hs & Ht). split; [|split].
  - unfold dozing. rewrite Hw. split; [done|]. intros x Hx. by destruct (has_tail_false s t Ht x).
  - intros [u Hu]. destruct (Hall u) as [[k E]|[[w' E] _]]; by rewrite E in Hu.
  - intros _ [u Hu]. destruct (Hall u) as [[k E]|[[w' E] _]]; by rewrite E in Hu.
Qed.

(** Wakes return where the client said. *)
Definition ret_ok (home : point → Prop) (s : Sys) : Prop := ∀ t k, ret (pcs s t) = Some k → home k.

Lemma ret_step home s s' : (∀ t c k x p y k', cstep t c k x = Some (p, y) → ret p = Some k' → home k') →
  shape s s' → ret_ok home s → ret_ok home s'.
Proof.
  intros Hh Hstep Hr. destruct Hstep as [(t & c & k & p & x & H1 & H2 & H3 & ->)|[_ [E|(t & p & E & H1 & H2)]]].
  - intros y k'. cbn. rewrite upd_at. case_decide; [intros Hy; by eapply Hh|apply Hr].
  - intros y k'. rewrite E. apply Hr.
  - intros y k'. rewrite E, upd_at. case_decide; [|apply Hr]. intros Hk. destruct H2 as [(w & _ & ->)|[(k & _ & ->)|(Hp & _)]]; try done.
    rewrite Hp in Hk. by eapply Hr.
Qed.

(** A view of the places of threads that sees only some client points: steps that
    are not the client's do not change it. *)
Lemma shape_view {A} (home : point → Prop) (f : pc point site → A) (d : A) s s' :
  (∀ p, (∀ k, p ≠ At k) → f p = d) → (∀ w, f (At (after w)) = d) → (∀ k, home k → f (At k) = d) →
  shape s s' → ret_ok home s → client_step s s' ∨ (sh s' = sh s ∧ ∀ t, f (pcs s' t) = f (pcs s t)).
Proof.
  intros H1 H2 H3 Hs Hr. destruct Hs as [?|[E [->|(t & p & -> & Hn & Hp)]]]; [by left|by right|]. right. split; [done|].
  intros y. rewrite upd_at. case_decide; [subst y|done]. rewrite (H1 (pcs s t) Hn).
  destruct Hp as [(w & _ & ->)|[(k & Hk & ->)|(_ & _ & Hp)]]; [apply H2|by eapply H3, Hr|by apply H1].
Qed.

(** Client points from which a thread is bound to look at the shared words. *)
Context (act : point → bool) (Hafter : ∀ w, act (after w) = true).

(** A thread that will look at its predicate, or take a handle off the queue. *)
Definition active (s : Sys) (u : tid) : Prop :=
  match pcs s u with
  | At k => act k = true
  | CasPark _ _ | Away _ => ¬ passive s u
  | PopPub _ _ _ | Signal _ _ _ _ | TryWake _ _ _ _ | Complete _ _ _ _ => False
  | _ => True
  end.

Lemma active_same s s' u : step s s' → wq_inv s → pcs s' u = pcs s u → active s u → active s' u.
Proof.
  intros Hs Hv Hp. unfold active. rewrite Hp. destruct (pcs s u) eqn:E; try done; intros Hn Hpas.
  all: destruct (passive_step s s' u Hs Hv Hpas) as [[? _]|(w' & Ew & _)]; [done|congruence].
Qed.

(** A published length of zero: everybody in the queue has still to look. *)
Lemma no_waiters s y : wq_inv s → waiters s = 0%nat → ¬ passive s y.
Proof.
  intros Hv Hw Hp. pose proof (passive_queued s y Hv Hp) as Hq. pose proof (v_count s Hv) as Hc. unfold count_ok in Hc.
  destruct (inner s) as [v|]; [|rewrite Hw in Hc; symmetry in Hc; apply nil_length_inv in Hc; rewrite Hc in Hq; by apply elem_of_nil in Hq].
  assert (Hle : (length (q s) <= waiters s)%nat → False) by (rewrite Hw; destruct (q s); [by apply elem_of_nil in Hq|cbn; lia]).
  destruct (pcs s v) eqn:Ev; try (by destruct (Hle Hc)). destruct Hc as (l & El & Hl). rewrite Hw in Hl. symmetry in Hl. apply nil_length_inv in Hl. subst l.
  rewrite El in Hq. apply list_elem_of_singleton in Hq. subst y. destruct Hp as [Hd _]. unfold dozing in Hd. by rewrite Ev in Hd.
Qed.

(** An empty queue has no passive thread, a handle taken off it is an active one. *)
Lemma popped s t m k hs l : wq_inv s → pcs s t = Pop m k → q s = hs ++ l → (l ≠ [] → hs ≠ []) →
  (∃ h, active (takes s t l (PopPub m k hs)) h) ∨ ∀ y, ¬ passive s y.
Proof.
  intros Hv Hp Hq Hl. destruct hs as [|h hs].
  - right. intros y Hy%passive_queued; [|done]. rewrite Hq in Hy. destruct l; [by apply elem_of_nil in Hy|by destruct Hl].
  - left. exists h. assert (Hin : h ∈ q s) by (rewrite Hq; by left). pose proof (v_queue s Hv h Hin) as Hh.
    assert (Hht : h ≠ t) by (intros ->; by rewrite Hp in Hh). unfold active. cbn [takes goto set_q pcs]. rewrite upd_at, decide_False by done.
    assert (Hco : coming (takes s t l (PopPub m k (h :: hs))) h) by (exists t; cbn [takes goto set_q pcs]; rewrite upd_at, decide_True by done; by left).
    destruct (pcs s h); try done; by intros (_ & ? & _).
Qed.

(** What becomes of an active thread when a step that is not the client's is
    made: somebody is still active, or nobody is passive, or it was the last
    look of a thread whose predicate is false. *)
Lemma active_step s s' u : step s s' → wq_inv s → active s u →
  client_step s s' ∨
  (sh s' = sh s ∧ ((∃ u', active s' u') ∨ (∀ y, ¬ passive s' y) ∨ ∃ w, pcs s u = Check w ∧ ready w (sh s) = false)).
Proof.
  intros Hstep Hv Ha. pose proof (active_same s s' u Hstep Hv) as Hsame. pose proof (passive_step s s') as Hback.
  destruct Hstep; [left; by exists t, c, k, p, x|..]; right; (split; [done|]).
  all: try (left; exists u; by apply Hsame).
  all: try (destruct (decide (u = t)) as [->|Hne];
    [|left; exists u; apply Hsame; [cbn; by rewrite upd_at, decide_False|done]]).
  all: try (left; exists t; unfold active; cbn; rewrite upd_at, decide_True by done; try done; try (by destruct (ready w (sh s))); fail).
  all: try (exfalso; unfold active in Ha; rewrite H in Ha; done).
  - destruct (ready w (sh s)) eqn:Er; [|right; right; by exists w]. left. exists t. unfold active. cbn. rewrite upd_at, decide_True by done.
    intros [Hd _]. unfold dozing in Hd. cbn in Hd. by rewrite upd_at, decide_True in Hd.
  - left. exists t. unfold active. cbn [park set_tails goto set_st pcs]. rewrite upd_at, decide_True by done. intros Hp.
    unfold active in Ha. rewrite H in Ha. destruct (Hback t (s_park s t w b H H0) Hv Hp) as [[? _]|(w' & Ew & _)]; [done|congruence].
  - destruct (Nat.eqb_spec (waiters s) 0) as [Hw|Hw]; [|left; exists t; unfold active; cbn; by rewrite upd_at, decide_True].
    right. left. intros y Hp. assert (Hst : step s (moves s t (At k))) by (pose proof (s_has s t m k H H0) as G; by rewrite Hw in G).
    destruct (passive_step s (moves s t (At k)) y Hst Hv Hp) as [[? _]|(w' & E1 & _ & E2)]; [by eapply no_waiters|].
    cbn in E2. rewrite upd_at in E2. case_decide; congruence.
  - destruct (popped s t m k hs l Hv H H2 H4) as [?|Hno]; [by left|]. right. left. intros y Hp.
    destruct (Hback y (s_pop s t m k hs l H H0 H1 H2 H3 H4) Hv Hp) as [[? _]|(w' & E1 & _ & E2)]; [by eapply Hno|].
    cbn in E2. rewrite upd_at in E2. case_decide; congruence.
Qed.

(** A thread in [wake_all] that has not yet emptied the queue. *)
Definition emptying (p : pc point site) : bool := match p with HasWaiters All _ | Pop All _ => true | _ => false end.

Lemma emptying_step s s' u : step s s' → wq_inv s → emptying (pcs s u) = true → emptying (pcs s' u) = true ∨ ∀ y, ¬ passive s' y.
Proof.
  intros Hstep Hv Hu. pose proof (wq_inv_step s s' Hstep Hv) as Hv'. pose proof (λ y, passive_step s s' y Hstep Hv) as Hback.
  destruct Hstep; try (by left); try (destruct (decide (u = t)) as [->|Hne]; [|left; cbn; by rewrite upd_at, decide_False]).
  all: try (by rewrite H in Hu); try (by rewrite H0 in Hu).
  - destruct (Nat.eqb_spec (waiters s) 0) as [Hw|Hw]; [|left; cbn; rewrite upd_at, decide_True by done; rewrite H in Hu; by destruct m].
    right. intros y Hp. destruct (Hback y Hp) as [[? _]|(w' & E1 & _ & E2)]; [by eapply no_waiters|].
    cbn in E2. rewrite upd_at in E2. case_decide; congruence.
  - right. intros y Hp%passive_queued; [|done]. cbn in Hp. rewrite H in Hu. destruct m; [done|]. rewrite H3 in Hp by done. by apply elem_of_nil in Hp.
Qed.

End Safety.

End ParkSafety.
