(* ===== verification/BlockingMutex.v ===== *)
(** * The blocking mutex

    [BlockingMutex] of kernel/src/thread/mutex.rs as a client of the wait queue:
    acquisition, the loan of a waiter's priority to the holder, and release,
    one atomic operation per step. *)

From stdpp Require Import functions.
From S2P Require Import Prelude RunQueue ParkWake ParkSafety.

Module BlockingMutex.

Import ParkWake ParkSafety.

Definition OWNER_PUBLISH_SPINS : nat := 64.

(** [locked], [owner], [lent_to] (0 is [None]: thread ids start at 1), and the
    [lent_priority] word of every thread. *)
Record Shared := mk_shared { locked : bool; owner : option tid; lent_to : option tid; lent : tid → Z }.

Definition set_locked (x : Shared) (b : bool) : Shared := mk_shared b (owner x) (lent_to x) (lent x).
Definition set_owner (x : Shared) (o : option tid) : Shared := mk_shared (locked x) o (lent_to x) (lent x).
Definition set_lent_to (x : Shared) (o : option tid) : Shared := mk_shared (locked x) (owner x) o (lent x).

(** [Thread::lend_priority] and [Thread::drop_lent_priority]. *)
Definition lend_priority (x : Shared) (t : tid) (p : Z) : Shared :=
  mk_shared (locked x) (owner x) (lent_to x) (<[t := Z.max (lent x t) (Z.min p (RunQueue.PRIORITY_LEVELS - 1))]> (lent x)).
Definition drop_lent_priority (x : Shared) (t : tid) : Shared :=
  mk_shared (locked x) (owner x) (lent_to x) (<[t := 0]> (lent x)).

Inductive Point :=
| Outside_lock
| TryLock                          (** [try_lock] *)
| Acquire                          (** the loop of [lock] *)
| PubOwner                         (** [try_acquire], after the exchange *)
| Critical                         (** the guard is held *)
| LendStart | LendOwner (p : Z) (i : nat) | LendLocked (p : Z) (i : nat)  (** [lend_to_holder], [holder] *)
| LendGo (p : Z) (o : tid) | LendPub (o : tid) | LendRecheck (o : tid) | LendDrop (o : tid) | LendCas (o : tid)
| RelLent (o : tid) | RelDrop | RelUnlock.  (** [release] *)

Section Client.

(** The priority of each thread. *)
Context (prio : tid → Z).

Definition effective_priority (x : Shared) (t : tid) : Z := Z.max (prio t) (lent x t).

(** The code publishes the owner when there is a current thread; here every step
    is taken by a thread [t]. Code that runs before the scheduler has one is not
    modelled. *)
Definition mutex_step (t : tid) (choice : nat) (k : Point) (x : Shared) : option (pc Point unit * Shared) :=
  match k with
  | Outside_lock => match choice with O => Some (At Acquire, x) | S O => Some (At TryLock, x) | _ => None end
  | TryLock => Some (if locked x then (At Outside_lock, x) else (At PubOwner, set_locked x true))
  | Acquire => Some (if locked x then (At LendStart, x) else (At PubOwner, set_locked x true))
  | PubOwner => Some (At Critical, set_owner x (Some t))
  | LendStart => Some (At (LendOwner (effective_priority x t) 0), x)
  | LendOwner p i => Some (match owner x with Some o => At (LendGo p o) | None => At (LendLocked p i) end, x)
  | LendLocked p i =>
      Some (if locked x && (S i <? OWNER_PUBLISH_SPINS)%nat then At (LendOwner p (S i)) else Ready1 tt, x)
  | LendGo p o => Some (if decide (o = t) then (Ready1 tt, x) else (At (LendPub o), lend_priority x o p))
  | LendPub o => Some (At (LendRecheck o), set_lent_to x (Some o))
  | LendRecheck o => Some (if decide (owner x = Some o) then Ready1 tt else At (LendDrop o), x)
  | LendDrop o => Some (At (LendCas o), drop_lent_priority x o)
  | LendCas o => Some (Ready1 tt, if decide (lent_to x = Some o) then set_lent_to x None else x)
  | Critical => Some (match owner x with Some o => At (RelLent o) | None => At RelUnlock end, set_owner x None)
  | RelLent o => Some (if decide (lent_to x = Some o) then At RelDrop else At RelUnlock, set_lent_to x None)
  | RelDrop => Some (At RelUnlock, drop_lent_priority x t)
  | RelUnlock => Some (HasWaiters One Outside_lock, set_locked x false)
  end.

#[export] Instance mutex : Client := {
  shared := Shared; point := Point; site := unit;
  ready := λ _ x, negb (locked x);
  after := λ _, Acquire;
  cstep := mutex_step
}.

(** ** Runs *)

(** No lock is held, no thread is anywhere in its code. *)
Definition init : Sys :=
  mk_sys (mk_shared false None None (λ _, 0)) None [] 0 (λ _, At Outside_lock) (λ _, Running) (λ _, false) [] false.

Definition reach (early : bool) (s : Sys) : Prop := ∃ ls, execs early ls init = Some s.

Lemma mutex_enters : client_enters.
Proof.
  intros t c k x p y. cbn. unfold mutex_step. intros H. destruct k; repeat case_match; by simplify_eq.
Qed.

(** ** Mutual exclusion *)

(** Points at which the thread has the lock. *)
Definition holds (p : pc Point unit) : bool :=
  match p with At (PubOwner | Critical | RelLent _ | RelDrop | RelUnlock) => true | _ => false end.

Record lock_ok (s : Sys) : Prop := {
  l_held : ∀ t, holds (pcs s t) = true → locked (sh s) = true;
  l_one : ∀ t t', holds (pcs s t) = true → holds (pcs s t') = true → t = t';
  l_some : locked (sh s) = true → ∃ t, holds (pcs s t) = true;
  l_owner : ∀ t, owner (sh s) = Some t ↔ pcs s t = At Critical
}.

(** A step that gives nobody the lock and takes it from nobody. *)
Lemma lock_move s s' t p : pcs s' = <[t := p]> (pcs s) → locked (sh s') = locked (sh s) → owner (sh s') = owner (sh s) →
  holds p = holds (pcs s t) → (p = At Critical ↔ pcs s t = At Critical) → lock_ok s → lock_ok s'.
Proof.
  intros Hp Hl Ho Hh Hc [H1 H2 H3 H4].
  assert (E : ∀ y, holds (pcs s' y) = holds (pcs s y)) by (intros y; rewrite Hp, upd_at; case_decide; by subst).
  split; rewrite ?Hl, ?Ho.
  - intros y. rewrite E. apply H1.
  - intros y y'. rewrite !E. apply H2.
  - intros Hx. destruct (H3 Hx) as [y Hy]. exists y. by rewrite E.
  - intros y. rewrite H4, Hp, upd_at. case_decide; [by subst|done].
Qed.

Lemma lock_same s s' : pcs s' = pcs s → sh s' = sh s → lock_ok s → lock_ok s'.
Proof. intros Hp Hs [H1 H2 H3 H4]. split; rewrite ?Hp, ?Hs; done. Qed.

Lemma lock_acquire s t k : pcs s t = At k → holds (At k) = false → locked (sh s) = false → lock_ok s →
  lock_ok (goto (set_sh s (set_locked (sh s) true)) t (At PubOwner)).
Proof.
  intros Hk Hh Hl [H1 H2 H3 H4]. assert (Hno : ∀ y, holds (pcs s y) = false) by (intros y; destruct (holds (pcs s y)) eqn:E; [by rewrite (H1 y E) in Hl|done]).
  split; cbn.
  - done.
  - intros y y'. rewrite !upd_at. repeat case_decide; by rewrite ?Hno; subst.
  - intros _. exists t. by rewrite upd_at, decide_True.
  - intros y. rewrite H4, upd_at. case_decide; [subst|done]. rewrite Hk. by destruct k.
Qed.

Lemma lock_publish s t : pcs s t = At PubOwner → lock_ok s → lock_ok (goto (set_sh s (set_owner (sh s) (Some t))) t (At Critical)).
Proof.
  intros Hk [H1 H2 H3 H4]. assert (E : ∀ y, holds (<[t := At Critical]> (pcs s) y) = holds (pcs s y)) by (intros y; rewrite upd_at; case_decide; [subst; by rewrite Hk|done]).
  split; cbn.
  - intros y. rewrite E. apply H1.
  - intros y y'. rewrite !E. apply H2.
  - intros Hx. destruct (H3 Hx) as [y Hy]. exists y. by rewrite E.
  - intros y. rewrite upd_at. case_decide as Hy; [by subst|]. split; [congruence|]. intros Hc.
    destruct Hy. apply (H2 y t); [by rewrite Hc|by rewrite Hk].
Qed.

Lemma lock_unpublish s t p : pcs s t = At Critical → holds p = true → p ≠ At Critical → lock_ok s → lock_ok (goto (set_sh s (set_owner (sh s) None)) t p).
Proof.
  intros Hk Hh Hn [H1 H2 H3 H4]. assert (E : ∀ y, holds (<[t := p]> (pcs s) y) = holds (pcs s y)) by (intros y; rewrite upd_at; case_decide; [subst; by rewrite Hk|done]).
  split; cbn.
  - intros y. rewrite E. apply H1.
  - intros y y'. rewrite !E. apply H2.
  - intros Hx. destruct (H3 Hx) as [y Hy]. exists y. by rewrite E.
  - intros y. split; [done|]. rewrite upd_at. case_decide as Hy; [done|]. intros Hc. destruct Hy. apply (H2 y t); [by rewrite Hc|by rewrite Hk].
Qed.

Lemma lock_release s t : pcs s t = At RelUnlock → lock_ok s → lock_ok (goto (set_sh s (set_locked (sh s) false)) t (HasWaiters One Outside_lock)).
Proof.
  intros Hk [H1 H2 H3 H4]. assert (Hno : ∀ y, y ≠ t → holds (pcs s y) = false).
  { intros y Hy. destruct (holds (pcs s y)) eqn:E; [|done]. destruct Hy. apply H2; [done|by rewrite Hk]. }
  split; cbn.
  - intros y. rewrite upd_at. case_decide; [done|]. by rewrite Hno.
  - intros y y'. rewrite !upd_at. repeat case_decide; by rewrite ?Hno.
  - done.
  - intros y. rewrite H4, upd_at. case_decide; [subst; by rewrite Hk|done].
Qed.

Lemma lock_client s s' : client_step s s' → lock_ok s → lock_ok s'.
Proof.
  intros (t & c & k & p & x & Hk & _ & Hc & ->) Hl. cbn in Hc. unfold mutex_step in Hc.
  assert (Hm : ∀ p' x', holds p' = holds (At k) → (p' = At Critical ↔ k = Critical) → locked x' = locked (sh s) → owner x' = owner (sh s) →
    lock_ok (goto (set_sh s x') t p')).
  { intros p' x' H1 H2 H3 H4. apply (lock_move s _ t p'); cbn [pcs goto set_sh sh]; rewrite ?Hk; try done.
    split; [intros Hx; f_equal; by apply H2|intros [= Hx]; by apply H2]. }
  destruct k; try (by destruct c as [|[|c]]; simplify_eq; apply Hm).
  all: try (by repeat case_match; simplify_eq; apply Hm).
  - destruct (locked (sh s)) eqn:El; simplify_eq; [by apply Hm|]. by eapply lock_acquire.
  - destruct (locked (sh s)) eqn:El; simplify_eq; [by apply Hm|]. by eapply lock_acquire.
  - simplify_eq. by apply lock_publish.
  - simplify_eq. apply lock_unpublish; [done|by case_match|by case_match|done].
  - simplify_eq. by apply lock_release.
Qed.

Definition home : point → Prop := λ k : Point, k = Outside_lock.

Lemma home_step s s' : shape s s' → ret_ok home s → ret_ok home s'.
Proof.
  apply ret_step. intros t c k x p y k'. cbn. unfold mutex_step, home. intros Hc Hr.
  destruct k; repeat case_match; simplify_eq; cbn in Hr; congruence.
Qed.

Lemma lock_step s s' : shape s s' → ret_ok home s → lock_ok s → lock_ok s'.
Proof.
  intros Hs Hr Hl. destruct Hs as [Hc|[E [Ep|(t & p & Ep & H1 & H2)]]]; [by eapply lock_client|by eapply lock_same|].
  assert (Hold : holds (pcs s t) = false) by (destruct (pcs s t); try done; by destruct (H1 k)).
  apply (lock_move s s' t p Ep); rewrite ?E; try done; rewrite ?Hold.
  - destruct H2 as [(w & _ & ->)|[(k & Hk & ->)|(_ & _ & Hn)]]; [done|by rewrite (Hr t k Hk)|]. destruct p; try done. by destruct (Hn k).
  - split; [|intros Hx; by destruct (H1 Critical)]. intros ->. exfalso. destruct H2 as [(w & _ & ?)|[(k & Hk & ?)|(_ & _ & Hn)]]; [done| |by eapply Hn].
    rewrite (Hr t k Hk) in *. done.
Qed.

(** ** Nobody is left asleep *)

(** Points of [lock] at which the thread does not have the lock. *)
Definition act (k : Point) : bool :=
  match k with
  | Acquire | LendStart | LendOwner _ _ | LendLocked _ _ | LendGo _ _ | LendPub _ | LendRecheck _ | LendDrop _ | LendCas _ => true
  | _ => false
  end.

Definition wake_ok (s : Sys) : Prop := locked (sh s) = false → ∀ t, passive s t → ∃ u, active act s u.

Lemma wake_client s s' : client_step s s' → step s s' → wq_inv s → lock_ok s → wake_ok s → wake_ok s'.
Proof.
  intros (t & c & k & p & x & Hk & Hr & Hc & ->) Hst Hv Hl Hw Hfree y Hp.
  assert (Hact : (∃ u, active act s u ∧ u ≠ t) → ∃ u, active act (goto (set_sh s x) t p) u).
  { intros (u & Hu & Hne). exists u. eapply (active_same mutex_enters act s); [exact Hst|done|cbn; by rewrite upd_at, decide_False|done]. }
  assert (Hold : passive s y).
  { destruct (passive_step mutex_enters s _ y Hst Hv Hp) as [[? _]|(w & E1 & _ & E2)]; [done|]. cbn in E2. rewrite upd_at in E2. case_decide; congruence. }
  assert (Hme : match p with At k' => act k' | Ready1 _ | HasWaiters _ _ => true | _ => false end = true → ∃ u, active act (goto (set_sh s x) t p) u).
  { intros Hpp. exists t. unfold active. cbn. rewrite upd_at, decide_True by done. by destruct p. }
  assert (Hrest : locked (sh s) = false → act k = false → ∃ u, active act (goto (set_sh s x) t p) u).
  { intros Hf Hna. destruct (Hw Hf y Hold) as [u Hu]. apply Hact. exists u. split; [done|]. intros ->. unfold active in Hu. by rewrite Hk, Hna in Hu. }
  assert (Hheld : holds (At k) = true → locked (sh s) = true) by (intros Hh; apply (l_held s Hl t); by rewrite Hk).
  cbn in Hc, Hfree. unfold mutex_step in Hc.
  destruct k; try (by destruct c as [|[|c]]; simplify_eq; apply Hrest).
  all: try (by repeat case_match; simplify_eq; apply Hme).
  all: try (by repeat case_match; simplify_eq; cbn in Hfree; rewrite Hheld in Hfree).
  destruct (locked (sh s)) eqn:El; simplify_eq. congruence.
Qed.

Lemma wake_step s s' : step s s' → wq_inv s → lock_ok s → wake_ok s → wake_ok s'.
Proof.
  intros Hst Hv Hl Hw. destruct (step_shape s s' Hst) as [Hc|[Es _]]; [by apply (wake_client s s')|]. intros Hf y Hp.
  rewrite Es in Hf. destruct (passive_step mutex_enters s s' y Hst Hv Hp) as [[Hold _]|(w & _ & Hnr & _)]; [|cbn in Hnr; by rewrite Hf in Hnr].
  destruct (Hw Hf y Hold) as [u Hu].
  destruct (active_step mutex_enters act (λ _, eq_refl) s s' u Hst Hv Hu) as [Hc|[_ [?|[Hno|(w & _ & Hnr)]]]].
  - destruct (wake_client s s' Hc Hst Hv Hl Hw ltac:(by rewrite Es) y Hp) as [u' ?]. by exists u'.
  - done.
  - by destruct (Hno y).
  - cbn in Hnr. by rewrite Hf in Hnr.
Qed.

Lemma reach_lock early s : reach early s → ret_ok home s ∧ lock_ok s.
Proof.
  intros [ls Hls]. revert Hls. apply (execs_inv (λ s : Sys, ret_ok home s ∧ lock_ok s)); [|by repeat split]. intros l s0 s' E%exec_shape [H1 H2]. split; [by eapply home_step|by eapply lock_step].
Qed.

Lemma reach_wake s : reach false s → wq_inv s ∧ ret_ok home s ∧ lock_ok s ∧ wake_ok s.
Proof.
  intros [ls Hls]. revert Hls. apply (execs_inv (λ s : Sys, wq_inv s ∧ ret_ok home s ∧ lock_ok s ∧ wake_ok s)).
  - intros l s0 s' E (H1 & H2 & H3 & H4). pose proof (exec_shape _ _ _ _ E) as Hs. apply exec_step in E.
    split_and!; [by eapply (wq_inv_step mutex_enters)|by eapply home_step|by eapply lock_step|by eapply wake_step].
  - split_and!; [apply wq_inv_fresh; split_and!; eauto|done|by split|]. intros _ t [Hd _]. done.
Qed.

(** [u] is not in [lock] or [release]. *)
Definition idle (s : Sys) (u : tid) : Prop := pcs s u = At Outside_lock ∨ pcs s u = At TryLock.

(** C38 The mutex excludes: two threads never have the lock at once, the lock
    word is set exactly while somebody has it, and the published owner is the
    thread in the critical section, for any number of threads and any
    interleaving of their atomic operations, early resumption included. *)
Theorem mutex_excludes early s : reach early s →
  (∀ t t', holds (pcs s t) = true → holds (pcs s t') = true → t = t') ∧
  (locked (sh s) = true ↔ ∃ t, holds (pcs s t) = true) ∧
  (∀ t, owner (sh s) = Some t ↔ pcs s t = At Critical).
Proof.
  intros [_ [H1 H2 H3 H4]]%reach_lock. split; [exact H2|]. split; [|exact H4].
  split; [exact H3|]. intros [t Ht]. by eapply H1.
Qed.

(** C7 No wake-up is lost. In no reachable state is the lock free, a thread
    asleep in [lock], and every other thread outside or asleep too: as long as
    a thread sleeps for the lock, the lock is held or somebody is awake inside
    [lock] or [release] who will try the lock or take a sleeper off the queue.
    Spurious wake-ups, barging, stale tokens, preemption and a waker stopped
    anywhere between its stores are all among the runs; that no CPU resumes a
    thread which another CPU is still leaving is assumed. *)
Theorem mutex_strands_nobody s t : reach false s → locked (sh s) = false → (∀ u, idle s u ∨ asleep s u) → ¬ asleep s t.
Proof.
  intros (_ & _ & _ & Hw)%reach_wake Hf Hall Ht.
  assert (Hall' : ∀ u, (∃ k, pcs s u = At k) ∨ asleep s u) by (intros u; destruct (Hall u) as [[E|E]|E]; eauto).
  destruct (Hw Hf t (asleep_passive s t Hall' Ht)) as [u Hu]. unfold active in Hu.
  destruct (Hall u) as [[E|E]|Hu2]; [by rewrite E in Hu..|]. pose proof (asleep_passive s u Hall' Hu2).
  destruct Hu2 as ([w E] & _). by rewrite E in Hu.
Qed.

End Client.

(** ** Two runs of the code as it is *)

Definition runs (t : tid) (n : nat) : list label := repeat (Run t 0) n.

(** A run in which the threads of [ts] come back and no others take part. *)
Lemma all_idle prio early ls s ts : execs early ls (init prio) = Some s → Forall (λ t, pcs s t = At Outside_lock) ts →
  (∀ u, u ∉ ts → existsb (λ l, names l u) ls = false) → ∀ u, idle prio s u.
Proof.
  intros E Ht Hn u. left. destruct (decide (u ∈ ts)) as [Hu|Hu]; [by eapply Forall_forall in Ht|].
  destruct (execs_others early ls (init prio) s u E) as [-> _]; [by apply Hn|by intros x ?%elem_of_nil|done].
Qed.

(** Thread 2 sleeps while thread 1 holds the lock, is woken, takes the lock and
    gives it back. *)
Definition handover : list label :=
  runs 1 3 ++ runs 2 13 ++ [RunTail 0] ++ runs 1 10 ++ [Resume 2] ++ runs 2 2 ++ runs 2 2 ++ runs 2 4.

Definition after_run (early : bool) (ls : list label) (prio : tid → Z) : Sys := default (init prio) (execs early ls (init prio)).

Lemma after_run_reach early ls prio : reach prio early (after_run early ls prio).
Proof.
  unfold after_run. destruct (execs early ls (init prio)) as [s|] eqn:E; [by exists ls|by exists []].
Qed.

Lemma mutex_excludes_witness : pcs (after_run false (take 20 handover) (λ _, 0)) 1 = At RelUnlock ∧
  locked (sh (after_run false (take 20 handover) (λ _, 0))) = true.
Proof.
  split; [by vm_compute|]. apply (mutex_excludes (λ _, 0) false); [apply after_run_reach|]. exists 1%positive. by vm_compute.
Defined.

Lemma mutex_strands_nobody_witness : locked (sh (after_run false handover (λ _, 0))) = false ∧ ¬ asleep (after_run false handover (λ _, 0)) 2.
Proof.
  split; [by vm_compute|]. apply mutex_strands_nobody; [apply after_run_reach|by vm_compute|]. intros u. left.
  apply (all_idle (λ _, 0) false handover _ [1; 2]%positive); [by vm_compute|repeat constructor; by vm_compute|].
  intros v Hv. rewrite !not_elem_of_cons in Hv. destruct Hv as (? & ? & _).
  unfold handover, runs. cbn [repeat app existsb names]. by rewrite !bool_decide_eq_false_2 by done.
Defined.

(** Thread 2 fails to lock, enrols and parks, its CPU not yet past the token;
    thread 1 releases and wakes it, and another CPU resumes it. Thread 1 locks
    again, thread 2 fails again and has looked for the last time when thread 1
    releases: the wake is a token, which the first CPU now takes. *)
Definition stolen_wake : list label :=
  runs 1 3 ++ runs 2 13 ++ runs 1 10 ++ [Resume 2] ++ runs 2 2 ++ runs 1 3 ++ runs 2 11 ++ runs 1 9 ++
  [RunTail 0; RunTail 0] ++ runs 2 1 ++ [RunTail 0].

Definition all_zero : tid → Z := λ _, 0.

(** A lost wake-up. If another CPU may resume a woken thread while the CPU it
    left is still between publishing [Parked] and consuming the wake token
    ([transition_park_while]), that CPU takes a token meant for a later park:
    there is a run of two threads after which the mutex is free, one thread is
    asleep in [lock], and every other thread is outside. *)
Theorem early_resume_loses_wake : ∃ s, reach all_zero true s ∧ locked (sh s) = false ∧ asleep s 2 ∧ ∀ u, u ≠ 2%positive → idle all_zero s u.
Proof.
  destruct (execs true stolen_wake (init all_zero)) as [s|] eqn:E; [|by vm_compute in E].
  assert (Hw : locked (sh s) = false ∧ pcs s 1%positive = At Outside_lock ∧ pcs s 2%positive = Away tt ∧ sts s 2%positive = Parked ∧ tails s = []).
  { vm_compute in E. injection E as <-. by vm_compute. }
  destruct Hw as (H1 & H2 & H3 & H4 & H5). exists s. split_and!; [by exists stolen_wake|done| |].
  - split; [by exists tt|]. split; [done|]. unfold has_tail. by rewrite H5.
  - intros u Hu. left. destruct (decide (u = 1%positive)) as [->|Hn]; [done|].
    destruct (execs_others true stolen_wake (init all_zero) s u E) as [-> _]; [|by intros x ?%elem_of_nil|done].
    unfold stolen_wake, runs. cbn [repeat app existsb names]. by rewrite !bool_decide_eq_false_2 by done.
Qed.

(** Thread 3 lends to holder 1 and is stopped before it records the loan; 1
    releases, 2 locks, 4 lends to 2 and records it; 3 records and withdraws its
    own stale loan, and 2 releases without finding the record of the other. *)
Definition stranded_loan : list label :=
  runs 1 3 ++ runs 3 5 ++ runs 1 4 ++ runs 2 3 ++ runs 4 7 ++ runs 3 4 ++ runs 2 4 ++ runs 3 7 ++ runs 4 7.

Definition by_tid : tid → Z := λ t, Zpos t.

(** A stranded loan. The record of a loan is one word that every waiter
    stores to, and a waiter delayed between lending and recording overwrites
    the record of a waiter of the next holder: there is a run of four threads
    after which all of them are outside, nobody holds or wants the mutex, and
    thread 2 still runs at the priority that thread 4 lent it. *)
Theorem delayed_waiter_strands_loan : ∃ s, reach by_tid false s ∧ locked (sh s) = false ∧ (∀ u, idle by_tid s u) ∧ lent_to (sh s) = None ∧
  effective_priority by_tid (sh s) 2 = by_tid 4 ∧ by_tid 2 < by_tid 4.
Proof.
  destruct (execs false stranded_loan (init by_tid)) as [s|] eqn:E; [|by vm_compute in E].
  assert (Hw : locked (sh s) = false ∧ lent_to (sh s) = None ∧ effective_priority by_tid (sh s) 2 = by_tid 4 ∧
    Forall (λ t, pcs s t = At Outside_lock) [1; 2; 3; 4]%positive).
  { vm_compute in E. injection E as <-. split_and!; [by vm_compute..|]. repeat constructor; by vm_compute. }
  destruct Hw as (H1 & H2 & H3 & H4). exists s. split_and!; [by exists stranded_loan|done| |done|done|done].
  apply (all_idle by_tid false stranded_loan s _ E H4). intros u Hn. rewrite !not_elem_of_cons in Hn. destruct Hn as (? & ? & ? & ? & _).
  unfold stranded_loan, runs. cbn [repeat app existsb names]. by rewrite !bool_decide_eq_false_2 by done.
Qed.

End BlockingMutex.
