(* ===== verification/RwLock.v ===== *)
(** * The blocking readers-writer lock

    [RwLock] of kernel/src/thread/rwlock.rs as a client of the wait queue: read,
    try_read and write acquisition, the table of read holders, the loans a
    waiter makes and takes back, and the two releases, one atomic operation per
    step. *)

From stdpp Require Import functions.
From S2P Require Import Prelude RunQueue ParkWake ParkSafety.

Module RwLock.

Import ParkWake ParkSafety.

Definition READER_SLOTS : nat := 16.

(** [state] is 0 when free, the number of readers, or -1 for a writer; [owner]
    and the [readers] slots hold [None] for a thread id of 0; [lent] is the
    [lent_priority] word of every thread. *)
Record Shared := mk_shared {
  state : Z; owner : option tid; pi_armed : bool; readers : list (option tid); lent : tid → Z
}.

Definition set_state (x : Shared) (n : Z) : Shared := mk_shared n (owner x) (pi_armed x) (readers x) (lent x).
Definition set_owner (x : Shared) (o : option tid) : Shared := mk_shared (state x) o (pi_armed x) (readers x) (lent x).
Definition arm (x : Shared) : Shared := mk_shared (state x) (owner x) true (readers x) (lent x).
Definition set_slot (x : Shared) (i : nat) (o : option tid) : Shared :=
  mk_shared (state x) (owner x) (pi_armed x) (<[i := o]> (readers x)) (lent x).
Definition lend_priority (x : Shared) (t : tid) (p : Z) : Shared :=
  mk_shared (state x) (owner x) (pi_armed x) (readers x) (<[t := Z.max (lent x t) (Z.min p (RunQueue.PRIORITY_LEVELS - 1))]> (lent x)).
Definition drop_lent_priority (x : Shared) (t : tid) : Shared :=
  mk_shared (state x) (owner x) (pi_armed x) (readers x) (<[t := 0]> (lent x)).

(** Which loop a waiter is in. *)
Inductive Kind := Reader | Writer.

(** The list of a waiter's loans is [Loans]. *)
Inductive Point :=
| Outside_rw
| ReadLoad (try : bool) | ReadCas (try : bool) (s : Z)          (** the loops of [read] and [try_read] *)
| ClaimArmed | ClaimSlot (i : nat)                              (** [claim_reader_slot] *)
| Reading (slot : option nat) | ReadDec                         (** the read guard and its drop *)
| WriteCas | PubOwner | Writing | WriteUnlock                   (** [write], the write guard and its drop *)
| LendState | LendArm                                           (** [lend_to_holders] *)
| LendPrio (w : Kind) | LendOwner (w : Kind) (p : Z) | LendGo (w : Kind) (p : Z) (o : tid)   (** [lend_to_writer] *)
| SlotPrio | SlotLoad (p : Z) (i : nat) (loans : list tid) | SlotLend (p : Z) (i : nat) (o : tid) (loans : list tid)
| TakeBack (w : Kind) (o : tid) (loans : list tid).             (** [Loans::take_back] *)

Definition retry (w : Kind) : Point := match w with Reader => ReadLoad false | Writer => WriteCas end.
Definition take_back (w : Kind) (loans : list tid) : Point :=
  match loans with [] => retry w | o :: l => TakeBack w o l end.

(** The slot [claim_reader_slot] tries at its [i]-th probe. *)
Definition probe (t : tid) (i : nat) : nat := ((Pos.to_nat t mod READER_SLOTS + i) mod READER_SLOTS)%nat.

Section Client.

(** The priority of each thread. *)
Context (prio : tid → Z).

Definition effective_priority (x : Shared) (t : tid) : Z := Z.max (prio t) (lent x t).

Definition next_slot (p : Z) (i : nat) (loans : list tid) : pc Point (Kind * list tid) :=
  if (S i <? READER_SLOTS)%nat then At (SlotLoad p (S i) loans) else Ready1 (Writer, loans).

(** The drop of a read guard: give up the slot if there is one, then the count,
    and wake somebody if that was the last reader. *)
Definition drop_read (slot : option nat) (x : Shared) : pc Point (Kind * list tid) * Shared :=
  match slot with
  | Some j => (At ReadDec, set_slot x j None)
  | None => (if state x =? 1 then HasWaiters One Outside_rw else At Outside_rw, set_state x (state x - 1))
  end.

(** The drop of the write guard: unpublish the owner, then free the lock and
    wake everybody. *)
Definition drop_write (published : bool) (x : Shared) : pc Point (Kind * list tid) * Shared :=
  if published then (At WriteUnlock, set_owner x None) else (HasWaiters All Outside_rw, set_state x 0).

(** [compare_exchange_weak] may fail for no reason: choice 1. *)
Definition rw_step (t : tid) (choice : nat) (k : Point) (x : Shared) : option (pc Point (Kind * list tid) * Shared) :=
  match k with
  | Outside_rw => match choice with
      | 0%nat => Some (At (ReadLoad false), x) | 1%nat => Some (At WriteCas, x) | 2%nat => Some (At (ReadLoad true), x) | _ => None end
  | ReadLoad try =>
      Some (if 0 <=? state x then At (ReadCas try (state x)) else if try : bool then At Outside_rw else At (LendPrio Reader), x)
  | ReadCas try s =>
      Some (if (choice =? 0)%nat && (state x =? s) then (At ClaimArmed, set_state x (s + 1)) else (At (ReadLoad try), x))
  | ClaimArmed => Some (if pi_armed x then At (ClaimSlot 0) else At (Reading None), x)
  | ClaimSlot i =>
      Some (match readers x !! probe t i with
            | Some None => (At (Reading (Some (probe t i))), set_slot x (probe t i) (Some t))
            | _ => (if (S i <? READER_SLOTS)%nat then At (ClaimSlot (S i)) else At (Reading None), x)
            end)
  | Reading slot => Some (drop_read slot x)
  | ReadDec => Some (drop_read None x)
  | WriteCas => Some (if (choice =? 0)%nat && (state x =? 0) then (At PubOwner, set_state x (-1)) else (At LendState, x))
  | PubOwner => Some (At Writing, set_owner x (Some t))
  | Writing => Some (drop_write true x)
  | WriteUnlock => Some (drop_write false x)
  | LendState => Some (if state x <? 0 then At (LendPrio Writer) else At LendArm, x)
  | LendArm => Some (At SlotPrio, arm x)
  | LendPrio w => Some (At (LendOwner w (effective_priority x t)), x)
  | LendOwner w p =>
      Some (match owner x with Some o => if decide (o = t) then Ready1 (w, []) else At (LendGo w p o) | None => Ready1 (w, []) end, x)
  | LendGo w p o => Some (Ready1 (w, [o]), lend_priority x o p)
  | SlotPrio => Some (At (SlotLoad (effective_priority x t) 0 []), x)
  | SlotLoad p i loans =>
      Some (match readers x !! i with
            | Some (Some o) => if decide (o = t) then next_slot p i loans else At (SlotLend p i o loans)
            | _ => next_slot p i loans
            end, x)
  | SlotLend p i o loans => Some (next_slot p i (loans ++ [o]), lend_priority x o p)
  | TakeBack w o loans => Some (At (take_back w loans), drop_lent_priority x o)
  end.

Definition rw_ready (w : Kind * list tid) (x : Shared) : bool :=
  match w.1 with Reader => 0 <=? state x | Writer => state x =? 0 end.

#[export] Instance rwlock : Client := {
  shared := Shared; point := Point; site := Kind * list tid;
  ready := rw_ready;
  after := λ w, take_back w.1 w.2;
  cstep := rw_step
}.

(** ** Runs *)

Definition init : Sys :=
  mk_sys (mk_shared 0 None false (replicate READER_SLOTS None) (λ _, 0)) None [] 0 (λ _, At Outside_rw) (λ _, Running) (λ _, false) [] false.

Definition reach (early : bool) (s : Sys) : Prop := ∃ ls, execs early ls init = Some s.

Lemma rw_enters : client_enters.
Proof.
  intros t c k x p y. cbn. unfold rw_step, next_slot, drop_read, drop_write. intros H. destruct k; repeat case_match; by simplify_eq.
Qed.

Definition home : point → Prop := λ k : Point, k = Outside_rw.

Lemma rw_home_step s s' : shape s s' → ret_ok home s → ret_ok home s'.
Proof.
  apply ret_step. intros t c k x p y k'. cbn. unfold rw_step, home, next_slot, drop_read, drop_write. intros Hc Hr.
  destruct k; repeat case_match; simplify_eq; cbn in Hr; congruence.
Qed.

(** ** Readers or one writer *)

(** What the invariants see of a thread's place. *)
Definition view (p : pc Point (Kind * list tid)) : option Point :=
  match p with
  | At ((ReadCas _ _ | ClaimArmed | ClaimSlot _ | Reading _ | ReadDec | PubOwner | Writing | WriteUnlock) as k) => Some k
  | _ => None
  end.

(** The points at which a thread has the lock, for reading and for writing. *)
Definition reads (v : option Point) : bool := match v with Some (ClaimArmed | ClaimSlot _ | Reading _ | ReadDec) => true | _ => false end.
Definition writes (v : option Point) : bool := match v with Some (PubOwner | Writing | WriteUnlock) => true | _ => false end.

Lemma view_next_slot p i loans : view (next_slot p i loans) = None.
Proof. unfold next_slot. by case_match. Qed.

Lemma view_take_back w loans : view (At (take_back w loans)) = None.
Proof. by destruct loans, w. Qed.

Definition count_ok (v : tid → option Point) (n : Z) : Prop :=
  ∃ rs, NoDup rs ∧ (∀ t, t ∈ rs ↔ reads (v t) = true) ∧
    (n = Z.of_nat (length rs) ∧ (∀ t, writes (v t) = false) ∨ n = -1 ∧ rs = [] ∧ ∃ w, ∀ t, writes (v t) = true ↔ t = w).

Record lock_ok (v : tid → option Point) (x : Shared) : Prop := {
  k_count : count_ok v (state x);
  k_cas : ∀ t b n, v t = Some (ReadCas b n) → 0 <= n;
  k_owner : ∀ t, owner x = Some t ↔ v t = Some Writing;
  k_slots : ∀ t j, readers x !! j = Some (Some t) ↔ v t = Some (Reading (Some j))
}.

Lemma count_ext v v' n : (∀ t, reads (v' t) = reads (v t)) → (∀ t, writes (v' t) = writes (v t)) → count_ok v n → count_ok v' n.
Proof.
  intros H1 H2 (rs & Hd & Hr & Hw). exists rs. split; [done|]. split; [intros t; by rewrite H1|].
  destruct Hw as [[? Hw]|(? & ? & w & Hw)]; [left; split; [done|]; intros t; by rewrite H2|].
  right. split_and!; [done..|]. exists w. intros t. by rewrite H2.
Qed.

Lemma lock_ext v v' x : (∀ t, v' t = v t) → lock_ok v x → lock_ok v' x.
Proof.
  intros E [H1 H2 H3 H4]. split; [by eapply count_ext; [intros; by rewrite E..|]|intros t b n|intros t|intros t j]; rewrite E; [apply H2|apply H3|apply H4].
Qed.

Lemma count_same v t p n : reads p = reads (v t) → writes p = writes (v t) → count_ok v n → count_ok (<[t := p]> v) n.
Proof. intros H1 H2. apply count_ext; intros y; rewrite upd_at; case_decide; by subst. Qed.

Lemma count_read v t p n : reads (v t) = false → writes (v t) = false → reads p = true → writes p = false → 0 <= n →
  count_ok v n → count_ok (<[t := p]> v) (n + 1).
Proof.
  intros H1 H2 H3 H4 Hn (rs & Hd & Hr & Hw). destruct Hw as [[-> Hw]|(-> & _)]; [|lia]. exists (t :: rs). split; [|split].
  - constructor; [|done]. rewrite Hr. congruence.
  - intros y. rewrite elem_of_cons, Hr, upd_at. case_decide; [subst; by split; auto|]. by split; [intros [?|?]|auto].
  - left. split; [cbn; lia|]. intros y. rewrite upd_at. case_decide; [done|apply Hw].
Qed.

Lemma count_unread v t p n : reads (v t) = true → reads p = false → writes p = false → count_ok v n →
  0 < n ∧ count_ok (<[t := p]> v) (n - 1).
Proof.
  intros H1 H2 H3 (rs & Hd & Hr & Hw). assert (Hin : t ∈ rs) by (by apply Hr).
  destruct Hw as [[-> Hw]|(_ & -> & _)]; [|by apply elem_of_nil in Hin].
  apply elem_of_Permutation in Hin as [rs' Hp]. rewrite Hp in Hd. apply NoDup_cons in Hd as [Hn Hd]. rewrite Hp. cbn [length]. split; [lia|].
  exists rs'. split; [done|]. split; [|left; split; [lia|intros y; rewrite upd_at; case_decide; [done|apply Hw]]].
  intros y. rewrite upd_at. case_decide as Hy; [subst; split; [done|congruence]|]. rewrite <- Hr, Hp, elem_of_cons. by split; [auto|intros [?|?]].
Qed.

Lemma count_write v t p : reads (v t) = false → reads p = false → writes p = true → count_ok v 0 → count_ok (<[t := p]> v) (-1).
Proof.
  intros H1 H2 H3 (rs & Hd & Hr & Hw). destruct Hw as [[Hl Hw]|(? & _)]; [|lia]. destruct rs; [|cbn in Hl; lia].
  exists []. split; [done|]. split; [|right; split_and!; [done..|]; exists t].
  - intros y. rewrite upd_at. case_decide; [subst; split; [by intros ?%elem_of_nil|congruence]|apply Hr].
  - intros y. rewrite upd_at. case_decide; [done|]. by rewrite Hw.
Qed.

Lemma count_unwrite v t p n : writes (v t) = true → reads p = false → writes p = false → count_ok v n →
  n = -1 ∧ count_ok (<[t := p]> v) 0.
Proof.
  intros H1 H2 H3 (rs & Hd & Hr & Hw). destruct Hw as [[_ Hw]|(-> & -> & w & Hw)]; [by rewrite Hw in H1|]. split; [done|].
  assert (w = t) as -> by (symmetry; by apply Hw). exists []. split; [done|]. split; [|left; split; [done|]].
  - intros y. rewrite upd_at. case_decide; [subst; split; [by intros ?%elem_of_nil|congruence]|apply Hr].
  - intros y. rewrite upd_at. case_decide as Hy; [done|]. destruct (writes (v y)) eqn:E; [|done]. by destruct Hy; apply Hw.
Qed.

Lemma count_client v x t c k p x' : v t = view (At k) → lock_ok v x → rw_step t c k x = Some (p, x') →
  count_ok (<[t := view p]> v) (state x').
Proof.
  intros Hv [Hc Hcas _ _] Hs. unfold rw_step, drop_read, drop_write in Hs.
  assert (Hsame : reads (view p) = reads (v t) → writes (view p) = writes (v t) → state x' = state x → count_ok (<[t := view p]> v) (state x')).
  { intros H1 H2 ->. by apply count_same. }
  rewrite Hv in Hsame. destruct k.
  all: try (by repeat case_match; simplify_eq; rewrite ?view_next_slot, ?view_take_back in *; apply Hsame).
  - destruct ((c =? 0)%nat && (state x =? s)) eqn:E; simplify_eq; [|by apply Hsame].
    apply andb_true_iff in E as [_ <-%Z.eqb_eq]. apply count_read; rewrite ?Hv; try done. by eapply Hcas.
  - destruct slot; simplify_eq; [by apply Hsame|]. cbn [state set_state].
    apply count_unread; rewrite ?Hv; try done; by case_match.
  - simplify_eq. apply count_unread; rewrite ?Hv; try done; by case_match.
  - destruct ((c =? 0)%nat && (state x =? 0)) eqn:E; simplify_eq; [|by apply Hsame].
    apply andb_true_iff in E as [_ E%Z.eqb_eq]. rewrite E in Hc. by apply count_write; rewrite ?Hv.
  - simplify_eq. eapply count_unwrite; rewrite ?Hv; done.
Qed.

Lemma cas_client v x t c k p x' : lock_ok v x → rw_step t c k x = Some (p, x') →
  ∀ u b n, (<[t := view p]> v) u = Some (ReadCas b n) → 0 <= n.
Proof.
  intros [_ Hcas _ _] Hs u b n. rewrite upd_at. case_decide; [subst u|apply Hcas]. unfold rw_step, next_slot, drop_read, drop_write in Hs.
  destruct k; repeat case_match; simplify_eq; cbn; try done; try (by repeat case_match).
  - intros [= _ <-]. lia.
  - unfold take_back, retry. repeat case_match; done.
Qed.

Lemma owner_client v x t c k p x' : v t = view (At k) → lock_ok v x → rw_step t c k x = Some (p, x') →
  ∀ u, owner x' = Some u ↔ (<[t := view p]> v) u = Some Writing.
Proof.
  intros Hv [Hc _ Ho _] Hs u. rewrite upd_at. unfold rw_step, drop_read, drop_write in Hs.
  assert (Hsame : (view p = Some Writing ↔ v t = Some Writing) → owner x' = owner x →
    owner x' = Some u ↔ (if decide (u = t) then view p else v u) = Some Writing).
  { intros H1 ->. rewrite Ho. case_decide; [by subst|done]. }
  assert (Hone : writes (v t) = true → ∀ y, v y = Some Writing → y = t).
  { intros Ht y Hy. destruct Hc as (rs & _ & _ & [[_ Hw]|(_ & _ & w & Hw)]); [by rewrite Hw in Ht|].
    transitivity w; [apply Hw; by rewrite Hy|symmetry; by apply Hw]. }
  rewrite Hv in Hsame. destruct k.
  all: try (by repeat case_match; simplify_eq; rewrite ?view_next_slot, ?view_take_back in *; apply Hsame).
  - simplify_eq. cbn. case_decide as Hu; [by subst|]. split; [congruence|]. intros Hy. by destruct Hu; apply Hone; [rewrite Hv|].
  - simplify_eq. cbn. split; [done|]. case_decide as Hu; [done|]. intros Hy. by destruct Hu; apply Hone; [rewrite Hv|].
Qed.

Lemma slots_client v x t c k p x' : v t = view (At k) → lock_ok v x → rw_step t c k x = Some (p, x') →
  ∀ u j, readers x' !! j = Some (Some u) ↔ (<[t := view p]> v) u = Some (Reading (Some j)).
Proof.
  intros Hv [_ _ _ Hr] Hs u j. rewrite upd_at. unfold rw_step, drop_read, drop_write in Hs.
  assert (Hsame : (∀ j, view p = Some (Reading (Some j)) ↔ v t = Some (Reading (Some j))) → readers x' = readers x →
    readers x' !! j = Some (Some u) ↔ (if decide (u = t) then view p else v u) = Some (Reading (Some j))).
  { intros H1 ->. rewrite Hr. case_decide; [subst; by rewrite H1|done]. }
  rewrite Hv in Hsame. destruct k.
  all: try (by repeat case_match; simplify_eq; rewrite ?view_next_slot, ?view_take_back in *; apply Hsame).
  - destruct (readers x !! probe t i) as [[o|]|] eqn:E; simplify_eq; [by case_match; apply Hsame| |by case_match; apply Hsame].
    cbn [readers set_slot view]. rewrite list_lookup_insert_Some, Hr. apply lookup_lt_Some in E as Hlt. case_decide as Hu.
    + subst u. rewrite Hv. cbn. split; [intros [(-> & _)|[_ ?]]; done|]. intros [= <-]. by left.
    + split; [intros [(_ & [= ?] & _)|[_ ?]]; done|]. intros Hy. right. split; [|done]. intros <-. apply Hr in Hy. congruence.
  - destruct slot as [j0|]; simplify_eq; [|by apply Hsame; [intros j'; case_match|]]. cbn [readers set_slot view].
    rewrite list_lookup_insert_Some, Hr. case_decide as Hu.
    + subst u. rewrite Hv. cbn. split; [intros [(_ & ? & _)|[? [= ?]]]; done|done].
    + split; [intros [(_ & ? & _)|[_ ?]]; done|]. intros Hy. right. split; [|done]. intros <-. destruct Hu.
      assert (Hy' : readers x !! j0 = Some (Some t)) by (apply Hr; by rewrite Hv). apply Hr in Hy. congruence.
Qed.

Lemma rw_lock_step s s' : shape s s' → ret_ok home s → lock_ok (λ t, view (pcs s t)) (sh s) → lock_ok (λ t, view (pcs s' t)) (sh s').
Proof.
  intros Hs Hr Hl. destruct (shape_view home view None s s') as [(t & c & k & p & x & Hk & _ & Hc & ->)|[-> E]]; try done.
  - intros p Hp. destruct p; try done. by destruct (Hp k).
  - intros w. apply view_take_back.
  - by intros k ->.
  - apply (lock_ext (<[t := view p]> (λ t, view (pcs s t)))); [intros y; cbn; rewrite !upd_at; by case_decide|].
    assert (Hv : view (pcs s t) = view (At k)) by (by rewrite Hk).
    split; [eapply count_client|eapply cas_client|eapply owner_client|eapply slots_client]; done.
  - eapply lock_ext; [exact E|done].
Qed.

(** ** Nobody is left asleep *)

(** Points of [read] and [write] at which the thread does not have the lock. *)
Definition act (k : Point) : bool :=
  match k with
  | ReadLoad false | ReadCas false _ | WriteCas | LendState | LendArm | LendPrio _ | LendOwner _ _ | LendGo _ _ _
  | SlotPrio | SlotLoad _ _ _ | SlotLend _ _ _ _ | TakeBack _ _ _ => true
  | _ => false
  end.

(** A free lock with a sleeper has somebody awake; a lock that readers may take,
    with a reader asleep, has a [wake_all] under way. *)
Definition wake_ok (s : Sys) : Prop := state (sh s) = 0 → ∀ t, passive s t → ∃ u, active act s u.
Definition wake_readers_ok (s : Sys) : Prop :=
  0 <= state (sh s) → ∀ t l, passive s t → site_of (pcs s t) = Some (Reader, l) → ∃ u, emptying (pcs s u) = true.

Definition inv (s : Sys) : Prop := wq_inv s ∧ ret_ok home s ∧ lock_ok (λ t, view (pcs s t)) (sh s).

(** A client step puts nobody to sleep. *)
Lemma client_passive s s' y : client_step s s' → step s s' → wq_inv s → passive s' y → passive s y ∧ site_of (pcs s y) = site_of (pcs s' y).
Proof.
  intros (t & c & k & p & x & Hk & Hr & Hc & ->) Hst Hv Hp.
  destruct (passive_step rw_enters s _ y Hst Hv Hp) as [?|(w & E1 & _ & E2)]; [done|]. cbn in E2. rewrite upd_at in E2. case_decide; congruence.
Qed.

Lemma act_take_back w loans : act (take_back w loans) = true.
Proof. by destruct loans, w. Qed.

(** Where a client step at a point that does not have the lock leads. *)
Lemma act_next t c k x p x' : act k = true → rw_step t c k x = Some (p, x') → (∀ b n, k = ReadCas b n → 0 <= n) →
  state x' = state x ∧ match p with At k' => act k' = true | Ready1 _ => True | _ => False end ∨ state x' ≠ 0.
Proof.
  intros Ha Hs Hn. unfold rw_step, next_slot, drop_read, drop_write in Hs.
  destruct k; try done; repeat case_match; simplify_eq; try (by left); try (by left; rewrite act_take_back).
  - right. cbn. specialize (Hn _ _ eq_refl). lia.
  - by right.
Qed.

Lemma rw_wake_client s s' : client_step s s' → step s s' → inv s → wake_ok s → wake_ok s'.
Proof.
  intros Hcl Hst (Hv & _ & Hl) Hw Hfree y Hp. destruct (client_passive s s' y Hcl Hst Hv Hp) as [Hold _].
  destruct Hcl as (t & c & k & p & x & Hk & Hr & Hc & ->). cbn in Hc, Hfree.
  assert (Hme : match p with At k' => act k' = true | Ready1 _ | HasWaiters _ _ => True | _ => False end → ∃ u, active act (goto (set_sh s x) t p) u).
  { intros Hpp. exists t. unfold active. cbn. rewrite upd_at, decide_True by done. by destruct p. }
  assert (Hrest : state (sh s) = 0 → act k = false → ∃ u, active act (goto (set_sh s x) t p) u).
  { intros Hf Hna. destruct (Hw Hf y Hold) as [u Hu]. exists u. assert (u ≠ t) by (intros ->; unfold active in Hu; by rewrite Hk, Hna in Hu).
    eapply (active_same rw_enters act s); [exact Hst|done|cbn; by rewrite upd_at, decide_False|done]. }
  assert (Hcas : ∀ b n, k = ReadCas b n → 0 <= n) by (intros b n ->; eapply (k_cas _ _ Hl t b); by rewrite Hk).
  destruct (act k) eqn:Ha.
  { destruct (act_next t c k (sh s) p x Ha Hc Hcas) as [[E Hpp]|?]; [|done]. apply Hme. by destruct p. }
  unfold rw_step, drop_read, drop_write in Hc. destruct k; try done; try (by apply Hme; repeat case_match; simplify_eq).
  all: try (by apply Hrest; [repeat case_match; simplify_eq|]).
  - apply Hrest; [|done]. destruct (_ && _); simplify_eq; [|done]. cbn in Hfree. specialize (Hcas _ _ eq_refl). lia.
  - destruct slot; [by apply Hrest; simplify_eq|]. apply Hme. simplify_eq. cbn in Hfree. by rewrite (proj2 (Z.eqb_eq (state (sh s)) 1)) by lia.
  - apply Hme. simplify_eq. cbn in Hfree. by rewrite (proj2 (Z.eqb_eq (state (sh s)) 1)) by lia.
Qed.

Lemma rw_wake_step s s' : step s s' → inv s → wake_ok s → wake_ok s'.
Proof.
  intros Hst Hi Hw. destruct (step_shape s s' Hst) as [Hc|[Es _]]; [by apply (rw_wake_client s s')|]. intros Hf y Hp. pose proof Hi as (Hv & _).
  rewrite Es in Hf. destruct (passive_step rw_enters s s' y Hst Hv Hp) as [[Hold _]|([kd l] & _ & Hnr & _)].
  2: { cbn in Hnr. unfold rw_ready in Hnr. rewrite Hf in Hnr. by destruct kd. }
  destruct (Hw Hf y Hold) as [u Hu].
  destruct (active_step rw_enters act (λ w, act_take_back w.1 w.2) s s' u Hst Hv Hu) as [Hc|[_ [?|[Hno|([kd l] & _ & Hnr)]]]].
  - destruct (rw_wake_client s s' Hc Hst Hi Hw ltac:(by rewrite Es) y Hp) as [u' ?]. by exists u'.
  - done.
  - by destruct (Hno y).
  - cbn in Hnr. unfold rw_ready in Hnr. rewrite Hf in Hnr. by destruct kd.
Qed.

(** Only the end of a write section lets readers in again. *)
Lemma readers_let_in t c k x p x' : rw_step t c k x = Some (p, x') → (∀ b n, k = ReadCas b n → 0 <= n) → state x < 0 → 0 <= state x' →
  emptying (C := rwlock) p = true.
Proof.
  intros Hs Hcas Hn Hp. unfold rw_step, next_slot, drop_read, drop_write in Hs.
  destruct k; repeat case_match; simplify_eq; cbn in Hp; try lia; try done.
  specialize (Hcas _ _ eq_refl). apply andb_true_iff in H as [_ H]. lia.
Qed.

Lemma wake_readers_step s s' : step s s' → inv s → wake_readers_ok s → wake_readers_ok s'.
Proof.
  intros Hst (Hv & _ & Hl) Hw Hf y l Hp Hsite. assert (Hback : (passive s y ∧ site_of (pcs s y) = Some (Reader, l)) ∨ sh s' = sh s ∧ state (sh s) < 0).
  { destruct (passive_step rw_enters s s' y Hst Hv Hp) as [[? E]|(w & E1 & Hnr & E2)]; [left; by rewrite E|]. right.
    rewrite E2 in Hsite. injection Hsite as ->. cbn in Hnr. unfold rw_ready in Hnr. cbn in Hnr. split; [|lia].
    destruct (step_shape s s' Hst) as [Hc|[? _]]; [|done]. destruct Hc as (t & c & k & p & x & Hk & _ & _ & ->).
    cbn in E2. rewrite upd_at in E2. case_decide; [|congruence]. subst y. congruence. }
  destruct Hback as [[Hold Hs]|[E Hn]]; [|rewrite E in Hf; lia].
  destruct (Z.le_gt_cases 0 (state (sh s))) as [Hf0|Hf0].
  - destruct (Hw Hf0 y l Hold Hs) as [u Hu]. destruct (emptying_step rw_enters s s' u Hst Hv Hu) as [?|Hno]; [by exists u|by destruct (Hno y)].
  - destruct (step_shape s s' Hst) as [Hc|[E _]]; [|rewrite E in Hf; lia]. destruct Hc as (t & c & k & p & x & Hk & _ & Hc & ->).
    exists t. cbn. rewrite upd_at, decide_True by done. eapply readers_let_in; [exact Hc| |exact Hf0|exact Hf].
    intros b n ->. eapply (k_cas _ _ Hl t b). by rewrite Hk.
Qed.

(** ** Loans *)

(** The loans a thread has made and not yet taken back. *)
Definition loans_of (p : pc Point (Kind * list tid)) : list tid :=
  match waits (C := rwlock) p with
  | Some w => w.2
  | None => match p with At (SlotLoad _ _ l | SlotLend _ _ _ l) => l | At (TakeBack _ o l) => o :: l | _ => [] end
  end.

Definition loans_ok (s : Sys) : Prop := ∀ o, lent (sh s) o ≠ 0 → ∃ u, o ∈ loans_of (pcs s u).

Lemma loans_take_back w loans : loans_of (At (take_back w loans)) = loans.
Proof. by destruct loans, w. Qed.

Lemma loans_next_slot p i loans : loans_of (next_slot p i loans) = loans.
Proof. unfold next_slot. by case_match. Qed.

Lemma loans_client t c k x p x' o : rw_step t c k x = Some (p, x') → lent x' o ≠ 0 →
  o ∈ loans_of p ∨ lent x o ≠ 0 ∧ (o ∈ loans_of (At k) → o ∈ loans_of p).
Proof.
  intros Hs Hl. unfold rw_step, drop_read, drop_write in Hs. destruct k.
  all: try (by right; repeat case_match; simplify_eq; rewrite ?loans_next_slot in *).
  - simplify_eq. cbn in Hl. rewrite upd_at in Hl. case_decide; [subst; left; by apply list_elem_of_singleton|].
    right. split; [done|]. by intros ?%elem_of_nil.
  - simplify_eq. rewrite loans_next_slot. cbn in Hl. rewrite upd_at in Hl. case_decide; [subst o; left; apply elem_of_app; right; by left|].
    right. split; [done|]. intros ?. apply elem_of_app. by left.
  - simplify_eq. rewrite loans_take_back. cbn in Hl. rewrite upd_at in Hl. case_decide; [done|]. right. split; [done|].
    by intros [?|?]%elem_of_cons.
Qed.

Lemma loans_step s s' : shape s s' → loans_ok s → loans_ok s'.
Proof.
  intros Hs Hl o Ho. destruct Hs as [(t & c & k & p & x & Hk & _ & Hc & ->)|[E [Ep|(t & p & Ep & H1 & H2)]]].
  - cbn in Hc, Ho. destruct (loans_client t c k (sh s) p x o Hc Ho) as [Hin|[Hold Hin]]; [exists t; cbn; by rewrite upd_at, decide_True|].
    destruct (Hl o Hold) as [u Hu]. exists u. cbn. rewrite upd_at. case_decide; [subst u; rewrite Hk in Hu; by apply Hin|done].
  - rewrite E in Ho. rewrite Ep. by apply Hl.
  - rewrite E in Ho. destruct (Hl o Ho) as [u Hu]. exists u. rewrite Ep, upd_at. case_decide; [subst u|done]. unfold loans_of in Hu.
    destruct H2 as [(w & Hw & ->)|[(k & Hk & _)|(_ & Hw & Hn)]].
    + rewrite Hw in Hu. pose proof (loans_take_back w.1 w.2) as E'. cbn in *. by rewrite E'.
    + exfalso. destruct (pcs s t); try done; by apply elem_of_nil in Hu.
    + unfold loans_of. rewrite Hw. destruct (waits (pcs s t)); [done|]. destruct (pcs s t); try (by apply elem_of_nil in Hu). by destruct (H1 k).
Qed.

(** ** Reachable states *)

Lemma rw_reach_lock early s : reach early s → ret_ok home s ∧ lock_ok (λ t, view (pcs s t)) (sh s) ∧ loans_ok s.
Proof.
  intros [ls Hls]. revert Hls. apply (execs_inv (λ s : Sys, ret_ok home s ∧ lock_ok (λ t, view (pcs s t)) (sh s) ∧ loans_ok s)).
  - intros l s0 s' E%exec_shape (H1 & H2 & H3). split_and!; [by eapply rw_home_step|by eapply rw_lock_step|by eapply loans_step].
  - split_and!; [by intros t k| |by intros o Ho; destruct Ho]. split; [|done..|].
    + exists []. split; [constructor|]. split; [|by left]. intros t. split; [by intros ?%elem_of_nil|done].
    + intros t j. split; [|done]. intros [? _]%lookup_replicate_1. done.
Qed.

Lemma rw_reach_wake s : reach false s → inv s ∧ wake_ok s ∧ wake_readers_ok s.
Proof.
  intros [ls Hls]. revert Hls.
  apply (execs_inv (λ s : Sys, inv s ∧ wake_ok s ∧ wake_readers_ok s)).
  - intros l s0 s' E ((H1 & H2 & H3) & H4 & H5). pose proof (exec_shape _ _ _ _ E) as Hs. apply exec_step in E. assert (Hi : inv s0) by done.
    split_and!; [split_and!; [by eapply (wq_inv_step rw_enters)|by eapply rw_home_step|by eapply rw_lock_step]|by eapply rw_wake_step|by eapply wake_readers_step].
  - split_and!; [split_and!; [apply wq_inv_fresh; split_and!; eauto|by intros ?|]|by intros _ t [Hd _]|by intros _ t l [Hd _]].
    apply (rw_reach_lock false). by exists [].
Qed.

(** Readers and writers exclude each other. In every reachable state the
    word [state] says who has the lock: it is the number of the threads that
    have it for reading, and then none has it for writing, or it is -1, and
    then exactly one thread has it for writing and none for reading. The
    published owner is the thread with the write guard, and a slot of the
    table names a thread exactly while that thread has a read guard with it. *)
Theorem rw_excludes early s : reach early s →
  (∃ rs, NoDup rs ∧ (∀ t, t ∈ rs ↔ reads (view (pcs s t)) = true) ∧
    (state (sh s) = Z.of_nat (length rs) ∧ (∀ t, writes (view (pcs s t)) = false) ∨
     state (sh s) = -1 ∧ rs = [] ∧ ∃ w, ∀ t, writes (view (pcs s t)) = true ↔ t = w)) ∧
  (∀ t, owner (sh s) = Some t ↔ view (pcs s t) = Some Writing) ∧
  (∀ t j, readers (sh s) !! j = Some (Some t) ↔ view (pcs s t) = Some (Reading (Some j))).
Proof. by intros (_ & [H1 _ H2 H3] & _)%rw_reach_lock. Qed.

(** No loan outlives its lender's wait: whenever no thread is waiting, no
    thread runs at a lent priority. *)
Theorem rw_loans_end early s : reach early s → (∀ u, loans_of (pcs s u) = []) → ∀ o, lent (sh s) o = 0.
Proof.
  intros (_ & _ & H)%rw_reach_lock Hno o. destruct (decide (lent (sh s) o = 0)) as [?|Hn]; [done|].
  destruct (H o Hn) as [u Hu]. rewrite Hno in Hu. by apply elem_of_nil in Hu.
Qed.

(** [u] is in neither [read], nor [write], nor a release. *)
Definition idle (s : Sys) (u : tid) : Prop := pcs s u = At Outside_rw ∨ ∃ n, pcs s u = At (ReadLoad true) ∨ pcs s u = At (ReadCas true n).

(** C8 No wake-up is lost, in runs in which no CPU resumes a thread that another CPU
    is still leaving (an early resume does lose one, [early_resume_loses_wake]). In
    a state such a run reaches in which every thread is outside, asleep or has a
    read guard, no reader is asleep, and a writer is asleep only if some thread
    does have a read guard. Spurious wake-ups, barging, stale tokens, preemption
    and a waker stopped anywhere between its stores are all among the runs. *)
Theorem rw_strands_nobody s t w : reach false s → (∀ u, idle s u ∨ asleep s u ∨ ∃ j, pcs s u = At (Reading j)) →
  asleep s t → pcs s t = Away w → w.1 = Writer ∧ ∃ u j, pcs s u = At (Reading j).
Proof.
  intros ((_ & _ & [Hc _ _ _]) & Hw & Hr)%rw_reach_wake Hall Ht Hp.
  assert (Hall' : ∀ u, (∃ k, pcs s u = At k) ∨ asleep s u) by (intros u; destruct (Hall u) as [[E|(n & [E|E])]|[E|[j E]]]; eauto).
  destruct Hc as (rs & _ & Hin & Hst). assert (Hs : state (sh s) = Z.of_nat (length rs)).
  { destruct Hst as [[? _]|(_ & _ & v & Hv)]; [done|]. exfalso. specialize (proj2 (Hv v) eq_refl).
    destruct (Hall v) as [[E|(n & [E|E])]|[([w' E] & _)|[j E]]]; by rewrite E. }
  pose proof (asleep_passive s t Hall' Ht) as Hpas. split.
  - destruct w as [[] l]; [|done]. destruct (Hr ltac:(lia) t l Hpas) as [u Hu]; [by rewrite Hp|].
    destruct (Hall' u) as [[k E]|([w' E] & _)]; by rewrite E in Hu.
  - destruct rs as [|u rs].
    + exfalso. destruct (Hw Hs t Hpas) as [u Hu]. unfold active in Hu. destruct (Hall u) as [[E|(n & [E|E])]|[Hu2|[j E]]]; try (by rewrite E in Hu).
      pose proof (asleep_passive s u Hall' Hu2). destruct Hu2 as ([w' E] & _). by rewrite E in Hu.
    + exists u. specialize (proj1 (Hin u) ltac:(by left)).
      destruct (Hall u) as [[E|(n & [E|E])]|[([w' E] & _)|[j E]]]; rewrite E; try done. by exists j.
Qed.

End Client.

(** ** A run *)

Definition runs (t : tid) (n : nat) : list label := repeat (Run t 0) n.
Definition no_prio : tid → Z := λ _, 5.

(** Thread 1 writes, thread 2 sleeps for it, lending it its priority, is woken,
    takes its loan back and reads; thread 3 sleeps to write. *)
Definition contention : list label :=
  [Run 1 1] ++ runs 1 2 ++ runs 2 11 ++ [RunTail 0] ++ runs 1 8 ++ [Resume 2] ++ runs 2 6 ++ [Run 3 1] ++ runs 3 26 ++ [RunTail 0].

Definition contended (n : nat) : Sys := default (init no_prio) (execs false (take n contention) (init no_prio)).

Lemma contended_reach n : reach no_prio false (contended n).
Proof. unfold contended. destruct (execs _ _ _) as [s|] eqn:E; [by eexists|by exists []]. Qed.

Lemma contended_others u : u ∉ [1; 2; 3]%positive → pcs (contended 60) u = At Outside_rw.
Proof.
  intros Hn. rewrite !not_elem_of_cons in Hn. destruct Hn as (? & ? & ? & _).
  assert (E : execs false contention (init no_prio) = Some (contended 60)) by (by vm_compute).
  destruct (execs_others false contention (init no_prio) (contended 60) u E) as [-> _]; [|by intros x ?%elem_of_nil|done].
  unfold contention, runs. cbn [repeat app existsb names]. by rewrite !bool_decide_eq_false_2 by done.
Qed.

Lemma rw_excludes_witness : lent (sh (contended 14)) 1 = 5 ∧ (∀ t, owner (sh (contended 14)) = Some t ↔ view (pcs (contended 14) t) = Some Writing).
Proof. split; [by vm_compute|]. apply (rw_excludes no_prio false), contended_reach. Defined.

Lemma rw_loans_end_witness : lent (sh (contended 60)) 1 = 0.
Proof.
  apply (rw_loans_end no_prio false); [apply contended_reach|]. intros u. destruct (decide (u ∈ [1; 2; 3]%positive)) as [Hu|Hu].
  - rewrite !elem_of_cons, elem_of_nil in Hu. destruct Hu as [->|[->|[->|[]]]]; by vm_compute.
  - by rewrite contended_others.
Defined.

Lemma rw_strands_nobody_witness : ∃ u j, pcs (contended 60) u = At (Reading j).
Proof.
  eapply (rw_strands_nobody no_prio (contended 60) 3 (Writer, [])); [apply contended_reach| | |by vm_compute].
  - intros u. destruct (decide (u ∈ [1; 2; 3]%positive)) as [Hu|Hu]; [|left; left; by apply contended_others].
    rewrite !elem_of_cons, elem_of_nil in Hu. destruct Hu as [->|[->|[->|[]]]].
    + left. left. by vm_compute.
    + right. right. exists None. by vm_compute.
    + right. left. split; [exists (Writer, []); by vm_compute|by vm_compute].
  - split; [exists (Writer, []); by vm_compute|by vm_compute].
Defined.

End RwLock.
